(* ===== verification/_CoqProject ===== *)
-Q . S2P
Prelude.v
OrdMap.v
Ids.v
Bitrate.v
Surface.v
Input.v
Activity.v
Attention.v
Allocation.v
Budget.v
Scheduling.v
Pacing.v
Observations.v
Output.v
TouchLedger.v
GamepadCapture.v
InputOutbox.v
DecodePool.v
Framing.v
MediaQueue.v
Commit.v
PendingEvents.v
Mailbox.v
PresentationInbox.v
Access.v
Admission.v
Devices.v
Thumbnails.v
Sessions.v
Pairing.v
Effects.v
Packets.v
SourceState.v
SourceFrames.v
SourceQueues.v
Audio.v
Destination.v
DestinationFrames.v
DestinationEvents.v
DestinationUnits.v
DestinationBudget.v
DestinationPort.v
RemoteInput.v
SourceRelay.v
SourceMoves.v
RelaySample.v
SourceHeld.v
SourceAuthority.v
RelayProtocol.v
RelayTermination.v
DestinationRelay.v
ShownAnswers.v
ShownProtocol.v
Loopback.v
LoopbackAgrees.v
SourcePort.v
SourceWire.v
SourceKeeps.v
SourceSays.v
SourceAdmissible.v
PortLine.v
Hoist.v
