(* ===== verification/Prelude.v ===== *)
(** * Weld remote-window streaming core: a verification development

    Weld is a Wayland compositor that can lend its windows to another machine
    ("hoisting"). The source machine captures a window's surfaces, encodes them as
    video and sends them; the destination decodes and shows them and sends the user's
    input back. This library models the part of the repository that decides what is
    sent when, at which quality, in which order, and what happens to every record on
    its way, and who may take part: the crates [weld-hoist-encoded], [weld-hoist-core],
    [weld-hoist-iroh], [weld-media], [weld-access], and of [weld-client] the queues and
    records between clients, compositor and presenter. The paths below are relative to
    [src/crates/].

    ** How the parts interact

    Destination to source. The view pushes the user's input into the outgoing queue
    (InputOutbox), which merges motions and keeps everything else in order; gamepad
    requests and their generations come from the viewer half of GamepadCapture. Records
    cross the link in frames (Framing). On the source, touch events pass the ledger
    (TouchLedger) and gamepad requests the capture state machine (GamepadCapture); the
    records of the authorized session also reach the attention tracker (Activity).

    Attention to quality. Activity groups surfaces under their ownership roots and
    summarises each group's focus, interaction and hover. The scheduler (Scheduling)
    picks the next group to encode by weight and age. The quality focus (Attention)
    follows the same summaries more slowly and gives each group a weight and a floor.
    The budget (Budget) collects the encoder streams of all source ports from their
    registries (Bitrate), divides one target over groups and streams (Allocation) and
    publishes the selected rates to the registries; encoders read them there and report
    what they submitted and applied. Pacing decides when a surface's next frame may be
    admitted at all.

    Source to destination. The encoded source (SourceState) takes the surface events of a
    port. Events wait per surface (PendingEvents); the scheduler picks the next commit, its
    replaced buffers get frames of their layers' streams at the rate the budget selected
    and are encoded one by one, and the batch is published in front of its commit.
    The port (SourcePort) turns the relay's commands into events of the source or records of
    their own; all of it waits in two ordered queues (Output), one
    for control and one for media. Media then waits for the network under a byte and
    record budget (MediaQueue) and is framed (Framing). The destination (DestinationPort,
    Destination) takes what its budget allows, keeps each surface's events in order, hands
    the frames they name to decode workers (DecodePool) and publishes an event when all its
    frames are decoded. Sound goes beside the pictures, straight to the mapped surfaces
    (Audio). Both sides count what happens (Observations).

    Relays. A relay stands on either side of a hoist. The source's (SourceRelay) keeps what it
    observed of the machine's surfaces, shows a peer the ones that are mapped, with their
    popups, and lets the peer's messages through to the surfaces of their session, while the
    access of the peer holds (Access); it hands its port commands and takes envelopes from
    it. The destination's (DestinationRelay) takes the port's records, announces the surfaces
    as its own and forwards what its host does with them. Both remember what a peer holds
    (RemoteInput). Their ports are interfaces; SourcePort and DestinationPort implement
    them over the network, and the in-process binding (Loopback) implements both over a pair of
    queues and runs the two relays as one adapter.

    Clients and presentation. A client's commits and controls wait in a queue that merges
    what a consumer cannot tell apart (PendingEvents, on the records of Commit); they
    cross process boundaries in a wire form (Commit). The presenter keeps them in an inbox
    that takes the same decisions and may hold one more frame per surface against jitter
    (PresentationInbox, on the mailboxes of Mailbox).

    Admission. The local administrator's authority issues and revokes the permits that
    input and media check (Access). The pairing worker decides which devices are trusted
    and keeps their connections (Pairing); admitted connections reach the encoded relay
    through a bounded handoff (Admission). Whoever gives a connection up ends its permit
    and closes its transport; both are shared, so permits and transports live in one
    [World] that the operations of both parts change. The session service (Sessions) keeps
    the joined sessions, tells each what it may hoist, passes its actions to the host and
    serves previews from a cache the host fills (Thumbnails).

    ** Files

    - Prelude: errors, results and panics of fallible Rust code; machine integers;
      time; [Option] operations; tactics and generic lemmas.
    - OrdMap: keys with a derived order ([OrdKey]) and the visit of a [BTreeMap].
    - Ids: the newtypes of weld-client/src/id.rs and presentation.rs, weld-media/src/id.rs.
    - Surface: roles, requests, size limits of weld-client/src/surface.rs; IEEE points.
    - Input: input records of weld-client/src/input.rs, gamepad states of
      weld-hoist-protocol/src/gamepad.rs, [DestinationRecord].
    - Bitrate: weld-hoist-encoded/src/bitrate.rs. [Registry] is the struct behind the
      [Mutex]; [EncoderRates] and [EncoderRateControl] are its owner and its weak handles.
    - Activity: weld-hoist-encoded/src/activity.rs. [SourceActivity] is a map of
      [SurfaceEntry]; [observe] and the surface operations are its methods, [group] and
      [snapshot] its queries.
    - Attention: weld-hoist-encoded/src/budget/attention.rs.
    - Allocation: weld-hoist-encoded/src/budget/allocation.rs, from [allocate] down to
      [waterfill].
    - Budget: weld-hoist-encoded/src/budget.rs. [Coordinator] pairs the shared state with
      the store of port registries the source reaches through weak handles.
    - Scheduling: weld-hoist-encoded/src/scheduling.rs.
    - Pacing: weld-hoist-encoded/src/pacing.rs.
    - Observations: weld-hoist-encoded/src/observations.rs and destination_observations.rs.
    - Output: weld-hoist-encoded/src/output.rs.
    - TouchLedger: weld-hoist-core/src/touch.rs.
    - GamepadCapture: weld-hoist-core/src/gamepad.rs.
    - InputOutbox: weld-hoist-core/src/input.rs.
    - DecodePool: weld-media/src/decode.rs, with timing.rs and submit.rs.
    - Framing: weld-hoist-iroh/src/framing.rs, with weld-media/src/frame.rs.
    - MediaQueue: weld-hoist-iroh/src/media_queue.rs.
    - Commit: commits and events of weld-client/src/surface.rs, buffer leases (buffer.rs),
      labels (metadata.rs), wire form (wire.rs); [contents] is what a consumer shows.
    - PendingEvents: weld-client/src/pending_order.rs and pending.rs.
    - Mailbox: weld-client/src/mailbox.rs.
    - PresentationInbox: weld-client/src/presenter.rs.
    - Access: weld-access/src/lib.rs.
    - Admission: weld-hoist-core/src/session/admission.rs, and [World].
    - Devices: records of weld-hoist-protocol/src/device.rs, [PeerIdentity] of
      weld-session/src/connection.rs, reply channels of weld-hoist-core/src/session.rs.
    - Thumbnails: weld-hoist-core/src/session/thumbnail.rs, with the records of
      weld-hoist-protocol/src/thumbnail.rs.
    - Sessions: weld-hoist-core/src/session.rs. [handle] is [Controller::handle] over the
      handlers, [service_step] a call of [SessionService] or a turn of its worker.
    - Effects: stateful computations that may fail, the order of a visit of a [HashMap],
      loops with fuel; what an operation leaves alone ([always]) and ensures ([triple]).
    - Packets: records and access units of weld-hoist-protocol/src/lib.rs that source and
      destination share, and the frames an event names.
    - SourceState: the source half of weld-hoist-encoded/src/state.rs, with
      state/source_budget.rs. [EncodedSourceState] is the struct; its methods are
      computations [M] that return the new state next to the outcome.
    - SourceFrames: the frames, generations and batches of SourceState, and [port_step],
      what a port does with its source. SourceQueues: its queues and cancelled surfaces.
    - Destination: the destination half of weld-hoist-encoded/src/state.rs, a state machine
      over a decoder ([DecodeBackend]) and a publisher ([DecodedFramePublisher]).
    - DestinationFrames, DestinationEvents, DestinationBudget: its frames and generations,
      its published events, its limits, over whole histories.
    - DestinationPort: the port around it, over [EncodedDestinationTransport].
    - Audio: weld-media/src/audio.rs, the queue of weld-audio/src/playback.rs and
      weld-hoist-encoded/src/audio.rs, over PipeWire ([CaptureSystem], [PlaybackSystem]).
    - RemoteInput: [RemoteInputState] of weld-hoist-core/src/relay.rs; [held_after] is the
      host's picture of what is held, read off the effects it was given.
    - SourceRelay: [SourceRelayAdapter] of weld-hoist-core/src/relay.rs, over a
      [HoistSourcePort]. [submitted] logs what its port was handed.
    - SourceMoves: every operation of SourceRelay as a sequence of [move]s, and
      [relay_history]. SourceHeld, SourceAuthority, RelayProtocol, RelayTermination: what the
      peer holds, what it may cause, what is said to the port, and the recursions over
      popups. RelaySample: a relay at work, for the witnesses.
    - DestinationRelay: [DestinationRelayAdapter] of weld-hoist-core/src/relay.rs, over a
      [HoistDestinationPort]. [journal] logs what it heard, told and announced.
      ShownAnswers: what its peer maps and says, and what a relay answers. ShownProtocol:
      the journal as an automaton.
    - Loopback: weld-hoist-core/src/loopback.rs. LoopbackAgrees: the two relays of its
      adapter, composed.
    - SourcePort: [EncodedSourcePort] of weld-hoist-encoded/src/state.rs, over an
      [EncodedSourceLink]. [published] logs what its queues accepted. SourceWire: its life
      ([port_life]) and what the transport took. SourceKeeps: what all its operations keep.
      SourceSays: the conversation it carries. SourceAdmissible, PortLine: the rules its
      records keep for the destination.
    - DestinationUnits: which access units a destination decodes. Hoist: a source's port and a
      destination's port with a network between them ([hoist]), from end to end.
    - Pairing: weld-hoist-core/src/session/pairing.rs. [State] is the worker's,
      [Authority] adds the command channel its handles share.

    ** What the theorems show

    The main theorems carry a claim id.
    - Bitrate, end to end: allocation succeeds exactly when the minima fit, gives every
      stream a rate its encoder takes and never exceeds the target (Allocation); a whole
      life of the budget never reserves more than the target, a refresh always ends and
      removes exactly what failed, a preflight is a promise, changing the target is
      atomic (Budget); registries stay well formed, a switch waits out its dwell time, a
      managed port takes no manual request (Bitrate).
    - Attention: grouping follows ownership to its root or falls back, summaries are the
      join over the mapped members, an input record touches one entry (Activity); the
      quality focus settles before it moves (Attention).
    - Scheduling and pacing: a selection is the best candidate, no group starves, virtual
      time is renormalised without underflow (Scheduling); admissions of a surface are
      spaced by its interval and rates stay within the ceiling (Pacing).
    - The encoded source, over whole histories of a port: what is sent can be decoded as it
      arrives, a retired generation is never used again (SourceFrames); a surface that was
      unmapped or destroyed sends what waited of it, its controls or nothing, and then stays
      silent, waiting events stay bounded (SourceQueues); scheduling ends
      with nothing left that could be admitted (SourceState).
    - The encoded destination, over whole histories with any arrivals a source may send:
      the decoder gets each generation's units once and in order (DestinationFrames), a
      generation is retired only when nothing refers to it, and decoding stops only when
      no surface can go on; each surface's events are published in order, complete and
      with the decoded buffers of their own frames (DestinationEvents); a port that polls
      within the budget it computes never meets a limit (DestinationPort, on
      DestinationBudget).
    - The source's port, over whole histories: what the transport took is decodable, complete
      up to where it stops, and in the order of the commands, and a port's work ends
      (SourceWire); when the relay keeps its protocol, so does what the peer receives
      (SourceSays).
    - End to end: what a source's port sends keeps the rules a destination relies on and
      passes the checks it makes on arrival, so a destination whose calls succeed decodes
      what the source encoded, in order and from a keyframe, and shows what the source said
      (Hoist). The network between them is only assumed to keep the
      order of the control records and to invent no media.
    - Sound: a playback renders exactly the samples of its packets at their times (Audio);
      captures live as long as a surface of their application, and only packets of mapped
      surfaces are played.
    - Transmission: order per channel and no loss (Output), round trip and rejection of
      truncated input (Framing), budget and completion accounting (MediaQueue), counters
      that are neither lost nor repeated (Observations).
    - Decoding: over all interleavings of coordinator and worker threads, each admitted
      job is in one place and has at most one outcome, and a generation is retired only
      when its worker has no job of it (DecodePool).
    - Clients and presentation: a consumer cannot tell the merged stream from the whole
      one, whatever it takes in between (PendingEvents); the inbox of a local surface
      behaves as that queue, and with smoothing a commit is left out only for the next one
      that supersedes it (PresentationInbox); a frame is shown or given back once (Mailbox);
      transport loses nothing but local attribution, and labels are cut between
      characters (Commit).
    - Admission: a revoked permit stays revoked (Access); each connection is handed over
      once, waits, or was given up (Admission); nobody is trusted without a claimed
      invitation and a matching approval, connections live only while their device is
      trusted, the worker refines an abstract authority over trusted and stored devices,
      and what it stored can always be loaded again (Pairing); a session gets only what
      its permit, its permissions and its own catalogue allow, its subscriber ends up with
      the current catalogue, and leaving always leads to its removal (Sessions); a preview
      is of its target, captured in time, and not called fresh when it is stale
      (Thumbnails).
    - Relays, over whole histories with ports that fail and access that is revoked: the ledger
      of a peer's input is what the host holds (RemoteInput); a peer holds something only on
      surfaces it is shown, and nothing once the relay failed (SourceHeld); a message acts on
      surfaces of its session only, and after a revocation the host gets nothing but releases
      (SourceAuthority); what is said to the port is a well-formed conversation
      (RelayProtocol), and mapping ends on any roles (RelayTermination); the destination
      answers each record of its peer with exactly what fits, shows what the peer maps, and
      addresses mapped surfaces only (ShownProtocol); in one process the
      destination shows what the source maps (LoopbackAgrees).
    - Input: no record lost or reordered except merged motions, and no lost wake
      (InputOutbox); contact ownership and teardown (TouchLedger); devices opened and
      closed in strict alternation, watched and eventually released (GamepadCapture).

    ** Conventions

    A fallible function returns an [outcome]: [Ret], [Fail] with the error, or [Panic]
    where Rust panics (overflow with overflow checks on, an index out of range, a failed
    assertion). A method that changes [self] returns the new state next to the outcome
    when the change outlives a failure; where the definition returns the state inside
    the outcome, a failure leaves the state as it was. Error messages are the source's
    string literals; values formatted into a message are left out. Integers are [Z] with
    the operations of their width written out. Instants and durations are nanoseconds,
    and the time is an argument. A [HashMap] is a [gmap] whose visiting order no
    definition depends on, or is a parameter ([HashOrder]); a [BTreeMap] a [gmap] visited in
    key order. A section under a
    [Mutex] is one atomic step; lock poisoning is modelled in Bitrate and left out
    elsewhere. Logging and tracing, and wakes that carry no data, are left out unless a
    theorem is about them.

    Concurrent parts are step relations over a state with all threads and channels
    (DecodePool, InputOutbox, MediaQueue, GamepadCapture, Pairing); single-threaded objects
    with outside interference (Budget, Output, Observations, Pacing, Access, Admission,
    PresentationInbox, Thumbnails, Sessions, SourceState, Destination, Audio, the relays) have relations
    or folds over histories of calls.

    What is not code of this repository is a type class with the laws its documentation
    states, and every theorem over it has a witness at a concrete instance: the codec,
    [Writer] and [Reader] of Framing, the [Semaphore] and [Channel] of MediaQueue, the
    transport of Output, the [GamepadHost], the [ConnectionControl] of a transport, the
    [TrustStorage] of devices, the [EncodeBackend] of SourceState, the [DecodeBackend] (with
    [ReturnsBusy]) and the [DecodedFramePublisher] of Destination, the [EncodedDestinationTransport] of its
    port, the [EncodedSourceLink] and the [StreamModes] of the source's, the [CaptureSystem] and the [PlaybackSystem] of Audio; [HoistSourcePort] and
    [HoistDestinationPort] of the relays, [DecodeJob] and [Meter] are the traits of
    the source itself or what its generic code needs from its parameter.

    ** Fuel

    Some loops of the source are not structural. Filling shares runs with [2n+1] steps
    for [n] shares: each round lowers the number of shares that can still grow plus the
    units left, counted up to [n]. The refresh of the budget runs with
    one step more than there are ports: a round that does not finish removes a port. The
    walk to an ownership root runs with as many steps as there are surfaces, as in the
    source, which bounds it the same way. Scheduling runs with one step more than there are
    waiting events and queues: a turn that does not end it takes an event or drops a queue.
    All of these but the walk return [None] without fuel and the theorems prove that they
    never do. The loops of the destination use [iterate] with a measure that every turn
    that goes on lowers ([shrinks]), so that more fuel changes nothing ([iterate_enough]):
    so does the port of the source, which runs one turn more than there are waiting events and
    queues; publishing runs one round more than there are queued events, decoding one turn more
    than there are waiting units and ready surfaces. The relay's recursions over popups run
    as deep as there are cached surfaces (mapping) or mapped ones (unmapping, presentation
    claims), and a destination's gamepad loop as often as there are requests; more fuel
    changes nothing ([relay_recursion_total], [pump_gamepad_enough]).

    ** Not modelled

    The compositor and its renderer, windowing policy, desktop integration, codecs and
    their native bindings, connection set-up and key exchange. Inside the modelled crates:
    the sessions that own source ports, composed views, the optional dump of access units; the view of weld-hoist-core; the route aliases of ports; native encoders.
    Serialization is serde's and postcard's, and an interface here. *)

From Stdlib Require Export ZArith Lia SpecFloat.
From stdpp Require Export base tactics numbers gmap strings list sorting fin_maps option.

#[global] Open Scope Z_scope.

(** ** Errors and results

    [anyhow::Error] is a message, a context wrapped around a cause, or one of the
    typed errors of the source that callers downcast to. *)
Inductive error : Type :=
  | ErrMsg (message : string)
  | ErrContext (message : string) (cause : error)
  | ErrBudget (target required : Z).

#[export] Instance error_eq_dec : EqDecision error.
Proof. solve_decision. Defined.

(** The result of a fallible Rust function: a value, an [Err], or a panic
    (arithmetic overflow, index out of range). *)
Inductive outcome (A : Type) : Type :=
  | Ret (value : A)
  | Fail (cause : error)
  | Panic.
Arguments Ret {A} value.
Arguments Fail {A} cause.
Arguments Panic {A}.

#[export] Instance outcome_eq_dec {A} `{EqDecision A} : EqDecision (outcome A).
Proof. solve_decision. Defined.

#[export] Instance outcome_ret : MRet outcome := @Ret.
#[export] Instance outcome_bind : MBind outcome := fun A B k m =>
  match m with Ret a => k a | Fail e => Fail e | Panic => Panic end.
#[export] Instance outcome_fmap : FMap outcome := fun A B f m =>
  match m with Ret a => Ret (f a) | Fail e => Fail e | Panic => Panic end.

(** [ensure!(condition, message)] *)
Definition ensure (condition : bool) (message : string) : outcome unit :=
  if condition then Ret tt else Fail (ErrMsg message).

(** [Option::context(message)] *)
Definition opt_context {A} (value : option A) (message : string) : outcome A :=
  match value with Some a => Ret a | None => Fail (ErrMsg message) end.

(** [Result::context(message)] *)
Definition res_context {A} (value : outcome A) (message : string) : outcome A :=
  match value with Ret a => Ret a | Fail e => Fail (ErrContext message e) | Panic => Panic end.

(** [Result::ok] *)
Definition ok {A} (value : outcome A) : option A :=
  match value with Ret a => Some a | _ => None end.

Definition is_ret {A} (value : outcome A) : bool :=
  match value with Ret _ => true | _ => false end.

(** [iterator.map(f).collect::<Result<Vec<_>>>()] *)
Fixpoint traverse {A B} (f : A -> outcome B) (l : list A) : outcome (list B) :=
  match l with
  | [] => Ret []
  | a :: l => b ← f a; bs ← traverse f l; Ret (b :: bs)
  end.

(** [try_fold] *)
Fixpoint try_fold {A S} (f : S -> A -> outcome S) (s : S) (l : list A) : outcome S :=
  match l with
  | [] => Ret s
  | a :: l => s' ← f s a; try_fold f s' l
  end.

Lemma bind_Ret_inv {A B} (m : outcome A) (k : A -> outcome B) (b : B) :
  m ≫= k = Ret b -> exists a, m = Ret a /\ k a = Ret b.
Proof. destruct m; cbn; [eauto | discriminate | discriminate]. Qed.

Section OutcomeLemmas.
Context {A B : Type}.

Lemma traverse_Ret_inv (f : A -> outcome B) l bs :
  traverse f l = Ret bs -> Forall2 (fun a b => f a = Ret b) l bs.
Proof.
  revert bs; induction l as [|a l IH]; intros bs H; cbn in H.
  - injection H as <-. constructor.
  - apply bind_Ret_inv in H as (b & Hb & H).
    apply bind_Ret_inv in H as (bs' & Hbs & H). injection H as <-. eauto.
Qed.

Lemma traverse_Ret (f : A -> outcome B) l bs :
  Forall2 (fun a b => f a = Ret b) l bs -> traverse f l = Ret bs.
Proof. induction 1 as [|a b l bs Hb _ IH]; cbn; [done|]. by rewrite Hb; cbn; rewrite IH. Qed.

Lemma traverse_total (f : A -> outcome B) (g : A -> B) l :
  (forall a, a ∈ l -> f a = Ret (g a)) -> traverse f l = Ret (g <$> l).
Proof.
  induction l as [|a l IH]; intros H; [done|].
  cbn. rewrite (H a) by set_solver. cbn. by rewrite IH by set_solver.
Qed.
End OutcomeLemmas.

Lemma ensure_Ret_inv c s u : ensure c s = Ret u -> c = true.
Proof. by destruct c. Qed.

Lemma opt_context_Ret_inv {A} (o : option A) s a : opt_context o s = Ret a -> o = Some a.
Proof. destruct o; cbn; congruence. Qed.

(** Decompose a hypothesis saying that a monadic computation returned. *)
Ltac inv_ret :=
  repeat match goal with
  | H : mbind _ _ = Ret _ |- _ =>
      apply bind_Ret_inv in H; destruct H as (? & ? & H)
  | H : ensure _ _ = Ret _ |- _ => apply ensure_Ret_inv in H
  | H : opt_context _ _ = Ret _ |- _ => apply opt_context_Ret_inv in H
  | H : Ret _ = Ret _ |- _ => injection H as H
  | H : Fail _ = Ret _ |- _ => discriminate H
  | H : Panic = Ret _ |- _ => discriminate H
  | H : mret _ = Ret _ |- _ => injection H as H
  end.

(** ** Machine integers

    [u64], [usize] and [u128] values are integers of [Z] in range; the operations
    below are Rust's. Plain [+] and [-] panic on overflow (the source builds with
    overflow checks in its dev profile); theorems show where this cannot happen. *)
Definition u16_max : Z := 2 ^ 16 - 1.
Definition u32_max : Z := 2 ^ 32 - 1.
Definition u64_max : Z := 2 ^ 64 - 1.
Definition u128_max : Z := 2 ^ 128 - 1.

Definition is_u16 (x : Z) : Prop := 0 <= x <= u16_max.
Definition is_u32 (x : Z) : Prop := 0 <= x <= u32_max.
Definition is_u64 (x : Z) : Prop := 0 <= x <= u64_max.

Definition checked (max x : Z) : option Z :=
  if bool_decide (0 <= x <= max) then Some x else None.
Definition exact (max x : Z) : outcome Z :=
  if bool_decide (0 <= x <= max) then Ret x else Panic.

(** [u64::saturating_add], [u64::saturating_sub] and [u64::checked_add]. *)
Definition sat_add (x y : Z) : Z := Z.min u64_max (x + y).
Definition sat_sub (x y : Z) : Z := Z.max 0 (x - y).
Definition checked_add (x y : Z) : option Z := checked u64_max (x + y).
(** [u64] [+], [-] with overflow checks; [u64::try_from] of a wider integer. *)
Definition u64_add (x y : Z) : outcome Z := exact u64_max (x + y).
Definition u64_sub (x y : Z) : outcome Z := exact u64_max (x - y).
Definition u64_try_from (x : Z) : outcome Z :=
  if bool_decide (0 <= x <= u64_max) then Ret x
  else Fail (ErrMsg "out of range integral type conversion attempted").
(** [u128] arithmetic with overflow checks. *)
Definition u128_add (x y : Z) : outcome Z := exact u128_max (x + y).
Definition u128_sub (x y : Z) : outcome Z := exact u128_max (x - y).
Definition u128_mul (x y : Z) : outcome Z := exact u128_max (x * y).
(** [u64::div_ceil] *)
Definition div_ceil (x y : Z) : Z := (x + y - 1) / y.

Lemma u64_max_pos : 0 < u64_max. Proof. reflexivity. Qed.
Lemma u64_max_val : u64_max = 18446744073709551615. Proof. reflexivity. Qed.
Lemma u128_max_val : u128_max = 340282366920938463463374607431768211455.
Proof. reflexivity. Qed.

Lemma exact_ret max x : 0 <= x <= max -> exact max x = Ret x.
Proof. intros H. unfold exact. by rewrite bool_decide_true. Qed.
Lemma exact_ret_inv max x y : exact max x = Ret y -> y = x /\ 0 <= x <= max.
Proof. unfold exact. case_bool_decide; [intros [= <-]; done | discriminate]. Qed.
Lemma u64_try_from_ret x : is_u64 x -> u64_try_from x = Ret x.
Proof. intros H. unfold u64_try_from. by rewrite bool_decide_true. Qed.
Lemma u64_try_from_inv x y : u64_try_from x = Ret y -> y = x /\ is_u64 x.
Proof. unfold u64_try_from. case_bool_decide; [intros [= <-]; done | discriminate]. Qed.
Lemma checked_Some max x y : checked max x = Some y <-> y = x /\ 0 <= x <= max.
Proof. unfold checked. case_bool_decide; naive_solver. Qed.

Lemma sat_add_bound x y : 0 <= x -> 0 <= y -> is_u64 (sat_add x y).
Proof. unfold sat_add, is_u64. pose proof u64_max_pos. lia. Qed.
Lemma sat_add_le x y : is_u64 x -> 0 <= y -> x <= sat_add x y.
Proof. unfold sat_add, is_u64. lia. Qed.
Lemma sat_add_exact x y : x + y <= u64_max -> sat_add x y = x + y.
Proof. unfold sat_add. lia. Qed.

(** ** Time

    [Instant]s and [Duration]s are counted in nanoseconds. *)
Definition instant : Type := Z.
Definition duration : Type := Z.
Definition from_nanos (n : Z) : duration := n.
Definition from_millis (n : Z) : duration := n * 1000000.
Definition from_secs (n : Z) : duration := n * 1000000000.
(** [Duration::MAX]: [u64::MAX] seconds and 999,999,999 nanoseconds. *)
Definition duration_max : duration := u64_max * 1000000000 + 999999999.
(** [later.saturating_duration_since(earlier)] *)
Definition since (later earlier : instant) : duration := Z.max 0 (later - earlier).
Definition duration_sat_add (x y : duration) : duration := Z.min duration_max (x + y).

Lemma since_nonneg x y : 0 <= since x y. Proof. unfold since. lia. Qed.

(** [Option::max] on [Option<Instant>]: [None] is the least value. *)
Definition opt_max (x y : option Z) : option Z :=
  match x, y with
  | Some a, Some b => Some (Z.max a b)
  | Some a, None => Some a
  | None, o => o
  end.
(** [Option::is_some_and] and [Option::is_none_or]. *)
Definition is_some_and {A} (o : option A) (p : A -> bool) : bool :=
  match o with Some a => p a | None => false end.
Definition is_none_or {A} (o : option A) (p : A -> bool) : bool :=
  match o with Some a => p a | None => true end.

Lemma is_some_and_true {A} (o : option A) p :
  is_some_and o p = true <-> exists a, o = Some a /\ p a = true.
Proof. destruct o; cbn; naive_solver. Qed.
Lemma is_none_or_true {A} (o : option A) p :
  is_none_or o p = true <-> forall a, o = Some a -> p a = true.
Proof. destruct o; cbn; naive_solver. Qed.
Lemma is_none_or_false {A} (o : option A) p :
  is_none_or o p = false <-> exists a, o = Some a /\ p a = false.
Proof. destruct o; cbn; naive_solver. Qed.
Lemma is_some_and_false {A} (o : option A) p :
  is_some_and o p = false <-> forall a, o = Some a -> p a = false.
Proof. destruct o; cbn; naive_solver. Qed.

(** ** Lists *)
Lemma filter_ext {A} (φ ψ : A -> Prop) `{forall x, Decision (φ x)} `{forall x, Decision (ψ x)} (xs : list A) :
  (forall x, x ∈ xs -> φ x <-> ψ x) -> filter φ xs = filter ψ xs.
Proof.
  induction xs as [|x xs IH]; intros Hx; [done|]. rewrite !filter_cons, IH by (intros; apply Hx; by right).
  specialize (Hx x (list_elem_of_here _ _)). by repeat case_decide; tauto.
Qed.
Lemma filter_none {A} (φ : A -> Prop) `{forall x, Decision (φ x)} (xs : list A) : (forall x, x ∈ xs -> ~ φ x) -> filter φ xs = [].
Proof.
  induction xs as [|x xs IH]; intros Hx; [done|]. rewrite filter_cons, decide_False by (apply Hx; left).
  apply IH. intros y Hy. apply Hx. by right.
Qed.
Lemma forallb_decided {A} (φ : A -> Prop) `{forall x, Decision (φ x)} l :
  forallb (fun x => bool_decide (φ x)) l = bool_decide (Forall φ l).
Proof.
  induction l as [|x l IH]; cbn; [done|]. rewrite IH. by rewrite (bool_decide_ext (Forall φ (x :: l)) (φ x /\ Forall φ l)), bool_decide_and by apply list.Forall_cons.
Qed.
