(* ===== verification/OrdMap.v ===== *)
(** * Ordered keys and ordered maps

    Rust's [#[derive(Ord)]] compares structs field by field and enums by
    discriminant first. A type with a derived order is modelled by the list of
    integers that comparison reads, compared lexicographically. A [BTreeMap] is a
    [gmap] whose entries are visited in increasing key order; a [HashMap] is a
    [gmap] visited in an unspecified order. *)

From S2P Require Import Prelude.

(** ** Lexicographic comparison *)
Fixpoint lex_le (x y : list Z) : bool :=
  match x, y with
  | [], _ => true
  | _ :: _, [] => false
  | a :: x, b :: y => if a =? b then lex_le x y else a <? b
  end.

Lemma lex_le_refl x : lex_le x x = true.
Proof. induction x as [|a x IH]; cbn; [done|]. by rewrite Z.eqb_refl. Qed.

Lemma lex_le_total x y : lex_le x y = true \/ lex_le y x = true.
Proof.
  revert y; induction x as [|a x IH]; intros [|b y]; cbn; auto.
  rewrite (Z.eqb_sym b a). destruct (Z.eqb_spec a b); [apply IH|].
  destruct (Z.ltb_spec a b), (Z.ltb_spec b a); auto; lia.
Qed.

Lemma lex_le_antisym x y : lex_le x y = true -> lex_le y x = true -> x = y.
Proof.
  revert y; induction x as [|a x IH]; intros [|b y]; cbn; [done|done|done|].
  rewrite (Z.eqb_sym b a). destruct (Z.eqb_spec a b) as [->|].
  - intros. f_equal; auto.
  - intros H1%Z.ltb_lt H2%Z.ltb_lt. lia.
Qed.

Lemma lex_le_trans x y z : lex_le x y = true -> lex_le y z = true -> lex_le x z = true.
Proof.
  revert y z; induction x as [|a x IH]; intros [|b y] [|c z]; cbn; try done.
  destruct (Z.eqb_spec a b) as [->|Hab]; destruct (Z.eqb_spec b c) as [->|Hbc].
  - apply IH.
  - done.
  - destruct (Z.eqb_spec a c); [lia | done].
  - intros H1%Z.ltb_lt H2%Z.ltb_lt. destruct (Z.eqb_spec a c); [lia|]. apply Z.ltb_lt. lia.
Qed.

(** ** Keys with a derived order *)
Class OrdKey (K : Type) `{Countable K} := {
  words : K -> list Z;
  words_inj : Inj (=) (=) words;
}.
#[export] Existing Instance words_inj.
#[export] Hint Mode OrdKey ! - - : typeclass_instances.

Section Order.
Context {K : Type} `{OrdKey K}.

Definition key_leb (x y : K) : bool := lex_le (words x) (words y).
Definition key_le (x y : K) : Prop := key_leb x y = true.
Definition key_lt (x y : K) : Prop := key_le x y /\ x <> y.

#[export] Instance key_le_dec : RelDecision key_le.
Proof. intros x y. unfold key_le. apply _. Defined.
#[export] Instance key_le_total : Total key_le.
Proof. intros x y. apply lex_le_total. Qed.
#[export] Instance key_le_trans : Transitive key_le.
Proof. intros x y z. apply lex_le_trans. Qed.
#[export] Instance key_le_antisym : AntiSymm (=) key_le.
Proof. intros x y ??. apply (inj words). by apply lex_le_antisym. Qed.
Lemma key_le_refl x : key_le x x.
Proof. apply lex_le_refl. Qed.

Definition entry_le {V} (p q : K * V) : Prop := key_le p.1 q.1.
#[export] Instance entry_le_dec {V} : RelDecision (@entry_le V).
Proof. intros p q. unfold entry_le. apply _. Defined.
#[export] Instance entry_le_total {V} : Total (@entry_le V).
Proof. intros p q. apply (total key_le). Qed.
#[export] Instance entry_le_trans {V} : Transitive (@entry_le V).
Proof. intros p q r. apply (transitivity (R:=key_le)). Qed.

(** [BTreeMap::iter], [keys] and [values]: increasing key order. *)
Definition entries {V} (m : gmap K V) : list (K * V) := merge_sort entry_le (map_to_list m).
Definition bt_keys {V} (m : gmap K V) : list K := (entries m).*1.
Definition bt_values {V} (m : gmap K V) : list V := (entries m).*2.

Lemma entries_perm {V} (m : gmap K V) : entries m ≡ₚ map_to_list m.
Proof. apply merge_sort_Permutation. Qed.
Lemma elem_of_entries {V} (m : gmap K V) k v : (k, v) ∈ entries m <-> m !! k = Some v.
Proof. rewrite entries_perm. apply elem_of_map_to_list. Qed.
Lemma bt_keys_NoDup {V} (m : gmap K V) : NoDup (bt_keys m).
Proof. unfold bt_keys. rewrite entries_perm. apply NoDup_fst_map_to_list. Qed.
Lemma elem_of_bt_keys {V} (m : gmap K V) k : k ∈ bt_keys m <-> is_Some (m !! k).
Proof.
  unfold bt_keys. rewrite list_elem_of_fmap. split.
  - intros ([k' v] & -> & Hin%elem_of_entries). eauto.
  - intros [v Hv]. exists (k, v). split; [done|]. by apply elem_of_entries.
Qed.
Lemma elem_of_bt_values {V} (m : gmap K V) v :
  v ∈ bt_values m <-> exists k, m !! k = Some v.
Proof.
  unfold bt_values. rewrite list_elem_of_fmap. split.
  - intros ([k v'] & -> & Hin%elem_of_entries). eauto.
  - intros [k Hk]. exists (k, v). split; [done|]. by apply elem_of_entries.
Qed.
Lemma entries_sorted {V} (m : gmap K V) : StronglySorted entry_le (entries m).
Proof. apply StronglySorted_merge_sort; apply _. Qed.
Lemma length_entries {V} (m : gmap K V) : length (entries m) = size m.
Proof. rewrite entries_perm. apply length_map_to_list. Qed.
Lemma entries_empty {V} : entries (∅ : gmap K V) = [].
Proof. apply nil_length_inv. by rewrite length_entries, map_size_empty. Qed.
Lemma entries_NoDup {V} (m : gmap K V) : NoDup (entries m).
Proof. apply (NoDup_fmap_1 fst). apply bt_keys_NoDup. Qed.
End Order.

(** A key type is ordered through an injection into one that is. *)
Definition ord_key_inj {K L} `{Countable K} `{OrdKey L} (f : K -> L) {Hf : Inj (=) (=) f} :
  OrdKey K := {| words := fun k => words (f k); words_inj := _ |}.

#[export] Instance Z_ord_key : OrdKey Z.
Proof. refine {| words z := [z] |}. Defined.

(** ** Sums and maxima *)
Definition sum_list (l : list Z) : Z := fold_right Z.add 0 l.

Lemma sum_list_nil : sum_list [] = 0.
Proof. reflexivity. Qed.
Lemma sum_list_cons x l : sum_list (x :: l) = x + sum_list l.
Proof. reflexivity. Qed.
#[global] Opaque sum_list.
Create Rewrite HintDb sums.
#[export] Hint Rewrite @sum_list_nil @sum_list_cons : sums.
Ltac sum_simpl := csimpl in *; autorewrite with sums in *.

Lemma sum_list_app l k : sum_list (l ++ k) = sum_list l + sum_list k.
Proof. induction l as [|x l IH]; sum_simpl; lia. Qed.
#[export] Hint Rewrite @sum_list_app : sums.
Lemma sum_list_perm l k : l ≡ₚ k -> sum_list l = sum_list k.
Proof. induction 1; sum_simpl; lia. Qed.
#[export] Instance sum_list_proper : Proper ((≡ₚ) ==> (=)) sum_list.
Proof. intros l k. apply sum_list_perm. Qed.
Lemma sum_list_nonneg l : Forall (Z.le 0) l -> 0 <= sum_list l.
Proof. induction 1; sum_simpl; lia. Qed.
Lemma sum_list_elem x l : Forall (Z.le 0) l -> x ∈ l -> x <= sum_list l.
Proof.
  intros Hl Hx. induction Hl as [|y l Hy Hl IH]; [by apply not_elem_of_nil in Hx|].
  apply sum_list_nonneg in Hl. sum_simpl. apply elem_of_cons in Hx as [->|Hx]; [lia|].
  specialize (IH Hx). lia.
Qed.
Lemma sum_list_le l k : Forall2 Z.le l k -> sum_list l <= sum_list k.
Proof. induction 1; sum_simpl; lia. Qed.
Lemma sum_list_concat ls : sum_list (concat ls) = sum_list (sum_list <$> ls).
Proof. induction ls as [|l ls IH]; [done|]. cbn. rewrite sum_list_app, IH. done. Qed.

(** Inserting at a present index changes the sum by the difference. *)
Lemma sum_list_insert l i x y :
  l !! i = Some x -> sum_list (<[i := y]> l) = sum_list l + y - x.
Proof.
  revert i; induction l as [|z l IH]; intros [|i] Hi; try done.
  - injection Hi as ->. change (<[0%nat:=y]> (x :: l)) with (y :: l). sum_simpl. lia.
  - change (<[S i:=y]> (z :: l)) with (z :: <[i:=y]> l). rewrite !sum_list_cons, (IH i Hi). lia.
Qed.
