(* ===== verification/Ids.v ===== *)
(** * Identities and presentation preferences

    The newtypes of [weld-client/src/id.rs], [weld-media/src/id.rs],
    [weld-hoist-protocol/src/lib.rs] and [weld-client/src/presentation.rs]: each has
    decidable equality, a countable encoding (so it can key a map) and, where the
    source derives [Ord], the derived order. *)

From S2P Require Import Prelude OrdMap.

(** Countable and order instances of a newtype over [Z]. *)
Ltac solve_newtype_countable get mk :=
  refine (inj_countable' get mk _); by intros [].

(** ** Client identities *)
Record ClientSourceId := MkClientSourceId { ClientSourceId_raw : Z }.
Record ClientId := MkClientId { ClientId_source : ClientSourceId; ClientId_local : Z }.
Record ClientSurfaceId :=
  MkClientSurfaceId { ClientSurfaceId_client : ClientId; ClientSurfaceId_local : Z }.
Record SurfaceLayerId := MkSurfaceLayerId { SurfaceLayerId_raw : Z }.

#[export] Instance ClientSourceId_eq_dec : EqDecision ClientSourceId.
Proof. solve_decision. Defined.
#[export] Instance ClientId_eq_dec : EqDecision ClientId.
Proof. solve_decision. Defined.
#[export] Instance ClientSurfaceId_eq_dec : EqDecision ClientSurfaceId.
Proof. solve_decision. Defined.
#[export] Instance SurfaceLayerId_eq_dec : EqDecision SurfaceLayerId.
Proof. solve_decision. Defined.

#[export] Instance ClientSourceId_countable : Countable ClientSourceId.
Proof. solve_newtype_countable ClientSourceId_raw MkClientSourceId. Defined.
#[export] Instance ClientId_countable : Countable ClientId.
Proof.
  refine (inj_countable' (fun c => (ClientId_source c, ClientId_local c))
                         (fun p => MkClientId p.1 p.2) _); by intros [].
Defined.
#[export] Instance ClientSurfaceId_countable : Countable ClientSurfaceId.
Proof.
  refine (inj_countable' (fun c => (ClientSurfaceId_client c, ClientSurfaceId_local c))
                         (fun p => MkClientSurfaceId p.1 p.2) _); by intros [].
Defined.
#[export] Instance SurfaceLayerId_countable : Countable SurfaceLayerId.
Proof. solve_newtype_countable SurfaceLayerId_raw MkSurfaceLayerId. Defined.

#[export] Instance ClientSurfaceId_ord : OrdKey ClientSurfaceId.
Proof.
  refine {| words s := [ClientSourceId_raw (ClientId_source (ClientSurfaceId_client s));
                        ClientId_local (ClientSurfaceId_client s); ClientSurfaceId_local s] |}.
  by intros [[[a] b] c] [[[a'] b'] c'] [= -> -> ->].
Defined.

(** [ClientSurfaceId::source] *)
Definition ClientSurfaceId_source (s : ClientSurfaceId) : ClientSourceId :=
  ClientId_source (ClientSurfaceId_client s).

(** [ClientSurfaceId::for_test]: a deterministic identity. *)
Definition ClientSurfaceId_for_test (local : Z) : ClientSurfaceId :=
  MkClientSurfaceId (MkClientId (MkClientSourceId 0) 0) local.

(** ** Media identities *)
Record MediaStreamId := MkMediaStreamId { MediaStreamId_raw : Z }.
Record StreamGeneration := MkStreamGeneration { StreamGeneration_raw : Z }.
Record MediaFrameId := MkMediaFrameId {
  frame_stream : MediaStreamId;
  frame_generation : StreamGeneration;
  frame_sequence : Z;
}.

#[export] Instance MediaStreamId_eq_dec : EqDecision MediaStreamId.
Proof. solve_decision. Defined.
#[export] Instance StreamGeneration_eq_dec : EqDecision StreamGeneration.
Proof. solve_decision. Defined.
#[export] Instance MediaFrameId_eq_dec : EqDecision MediaFrameId.
Proof. solve_decision. Defined.
#[export] Instance MediaStreamId_countable : Countable MediaStreamId.
Proof. solve_newtype_countable MediaStreamId_raw MkMediaStreamId. Defined.
#[export] Instance StreamGeneration_countable : Countable StreamGeneration.
Proof. solve_newtype_countable StreamGeneration_raw MkStreamGeneration. Defined.
#[export] Instance MediaStreamId_ord : OrdKey MediaStreamId.
Proof. refine {| words s := [MediaStreamId_raw s] |}. by intros [a] [b] [= ->]. Defined.

(** The key of a stream of a budget port: [(u64, MediaStreamId)]. *)
#[export] Instance stream_key_ord : OrdKey (Z * MediaStreamId).
Proof.
  refine {| words p := [p.1; MediaStreamId_raw p.2] |}. by intros [a [b]] [c [d]] [= -> ->].
Defined.

(** ** Session and presentation *)
Record HoistSessionId := MkHoistSessionId { HoistSessionId_raw : Z }.
#[export] Instance HoistSessionId_eq_dec : EqDecision HoistSessionId.
Proof. solve_decision. Defined.
#[export] Instance HoistSessionId_countable : Countable HoistSessionId.
Proof. solve_newtype_countable HoistSessionId_raw MkHoistSessionId. Defined.

Record PresentationGroupId := MkPresentationGroupId { PresentationGroupId_raw : Z }.
#[export] Instance PresentationGroupId_eq_dec : EqDecision PresentationGroupId.
Proof. solve_decision. Defined.
#[export] Instance PresentationGroupId_countable : Countable PresentationGroupId.
Proof. solve_newtype_countable PresentationGroupId_raw MkPresentationGroupId. Defined.

(** [TryFrom<u32> for PresentationGroupId] *)
Definition PresentationGroupId_try_from (value : Z) : outcome PresentationGroupId :=
  if bool_decide (1 <= value <= 65535) then Ret (MkPresentationGroupId value)
  else Fail (ErrMsg "presentation group must be between 1 and 65535").

Inductive PresentationRole := Primary | Companion | Utility.
#[export] Instance PresentationRole_eq_dec : EqDecision PresentationRole.
Proof. solve_decision. Defined.

Record SurfaceBitratePreference := MkSurfaceBitratePreference {
  preference_group : PresentationGroupId;
  preference_role : PresentationRole;
}.
#[export] Instance SurfaceBitratePreference_eq_dec : EqDecision SurfaceBitratePreference.
Proof. solve_decision. Defined.

(** Nominal refresh in millihertz. *)
Record PresentationRate := MkPresentationRate { millihertz : Z }.
#[export] Instance PresentationRate_eq_dec : EqDecision PresentationRate.
Proof. solve_decision. Defined.

Definition PresentationRate_try_from (value : Z) : outcome PresentationRate :=
  if bool_decide (1000 <= value <= 1000000) then Ret (MkPresentationRate value)
  else Fail (ErrMsg "presentation refresh must be between 1 and 1000 Hz").
Definition HZ_60 : PresentationRate := MkPresentationRate 60000.
(** [PresentationRate::interval] *)
Definition interval (rate : PresentationRate) : duration :=
  from_nanos (div_ceil 1000000000000 (millihertz rate)).
(** [Ord::min] on the derived order. *)
Definition rate_min (a b : PresentationRate) : PresentationRate :=
  if millihertz a <=? millihertz b then a else b.

Inductive ClientPresentationClaim :=
  | Release
  | Active (rate : option PresentationRate)
  | Paused.
#[export] Instance ClientPresentationClaim_eq_dec : EqDecision ClientPresentationClaim.
Proof. solve_decision. Defined.

(** A rate accepted by [PresentationRate::try_from]. *)
Definition rate_valid (rate : PresentationRate) : Prop := 1000 <= millihertz rate <= 1000000.

Lemma rate_try_from_valid v r : PresentationRate_try_from v = Ret r -> rate_valid r.
Proof. unfold PresentationRate_try_from, rate_valid. case_bool_decide; by intros [= <-]. Qed.

Lemma interval_pos rate : rate_valid rate -> 0 < interval rate.
Proof.
  unfold rate_valid, interval, from_nanos, div_ceil. intros H.
  apply Z.div_str_pos. lia.
Qed.

Lemma rate_min_le_l a b : millihertz (rate_min a b) <= millihertz a.
Proof. unfold rate_min. destruct (Z.leb_spec (millihertz a) (millihertz b)); lia. Qed.
Lemma rate_min_le_r a b : millihertz (rate_min a b) <= millihertz b.
Proof. unfold rate_min. destruct (Z.leb_spec (millihertz a) (millihertz b)); lia. Qed.
Lemma rate_min_valid a b : rate_valid a -> rate_valid b -> rate_valid (rate_min a b).
Proof. unfold rate_min. by destruct (millihertz a <=? millihertz b). Qed.
#[export] Hint Resolve interval_pos rate_min_valid rate_min_le_l rate_min_le_r : core.
