(* ===== verification/Bitrate.v ===== *)
(** * Synchronized bitrate intent ([weld-hoist-encoded/src/bitrate.rs])

    One [Registry] per source port holds the live encoder streams and their
    requested, selected, submitted and applied rates. [EncoderRates] owns it;
    [EncoderRateControl] is a weak handle, so every operation of a handle first
    upgrades and then locks. The lock's poison flag and the owner's liveness are
    fields of the model. An operation that fails has not written anything. *)

From S2P Require Import Prelude OrdMap Ids.

Definition MINIMUM_RATE_DWELL : duration := from_secs 2.

(** ** Limits *)
Record EncoderBitrateLimits := MkLimits { minimum : Z; initial : Z; maximum : Z }.
#[export] Instance EncoderBitrateLimits_eq_dec : EqDecision EncoderBitrateLimits.
Proof. solve_decision. Defined.

Definition try_new (minimum initial maximum : Z) : outcome EncoderBitrateLimits :=
  ensure ((0 <? minimum) && (minimum <=? initial) && (initial <=? maximum))
    "invalid encoder bitrate limits";;
  Ret (MkLimits minimum initial maximum).

Definition validate (limits : EncoderBitrateLimits) (bitrate : Z) : outcome unit :=
  ensure ((minimum limits <=? bitrate) && (bitrate <=? maximum limits))
    "bitrate is outside the encoder control range".

(** ** Requests and streams *)
Record BitrateRequest := MkBitrateRequest { revision : Z; bits_per_second : Z }.
#[export] Instance BitrateRequest_eq_dec : EqDecision BitrateRequest.
Proof. solve_decision. Defined.

Record EncoderRateApplication := MkApplication {
  application_request : BitrateRequest;
  application_frame : MediaFrameId;
}.
#[export] Instance EncoderRateApplication_eq_dec : EqDecision EncoderRateApplication.
Proof. solve_decision. Defined.

Record EncoderStreamStatus := MkStatus {
  status_stream : MediaStreamId;
  status_surface : ClientSurfaceId;
  status_layer : SurfaceLayerId;
  requested : BitrateRequest;
  submitted_application : option EncoderRateApplication;
  applied : option EncoderRateApplication;
}.

Record StreamRate := MkStreamRate {
  status : EncoderStreamStatus;
  selected : BitrateRequest;
  last_submitted_bitrate : option Z;
  last_switch : option instant;
}.

Definition set_requested (r : BitrateRequest) (e : StreamRate) : StreamRate :=
  let s := status e in
  MkStreamRate (MkStatus (status_stream s) (status_surface s) (status_layer s) r
                  (submitted_application s) (applied s))
    (selected e) (last_submitted_bitrate e) (last_switch e).
Definition set_jobs (sub app : option EncoderRateApplication) (e : StreamRate) : StreamRate :=
  let s := status e in
  MkStreamRate (MkStatus (status_stream s) (status_surface s) (status_layer s) (requested s) sub app)
    (selected e) (last_submitted_bitrate e) (last_switch e).

(** [StreamRate::select] *)
Definition StreamRate_select (now : instant) (e : StreamRate) : StreamRate * BitrateRequest :=
  let selected' :=
    if (bits_per_second (requested (status e)) =? bits_per_second (selected e))
       || is_none_or (last_switch e) (fun last => MINIMUM_RATE_DWELL <=? since now last)
    then requested (status e) else selected e in
  (MkStreamRate (status e) selected' (last_submitted_bitrate e) (last_switch e), selected').

(** ** The registry *)
Record RegistryState := MkRegistryState {
  registry_open : bool;
  managed : bool;
  streams : gmap MediaStreamId StreamRate;
}.

Record Registry := MkRegistry {
  limits : EncoderBitrateLimits;
  registry_data : RegistryState;
  poisoned : bool;
  (** whether the owning [Arc] still exists: [Weak::upgrade] succeeds *)
  alive : bool;
}.

Definition set_streams (s : gmap MediaStreamId StreamRate) (r : Registry) : Registry :=
  let st := registry_data r in
  MkRegistry (limits r) (MkRegistryState (registry_open st) (managed st) s) (poisoned r) (alive r).
Definition set_managed (r : Registry) : Registry :=
  let st := registry_data r in
  MkRegistry (limits r) (MkRegistryState (registry_open st) true (streams st)) (poisoned r) (alive r).

(** [Registry::state]: lock, then refuse a closed registry. *)
Definition Registry_state (r : Registry) : outcome RegistryState :=
  if poisoned r then Fail (ErrMsg "encoder rate control is unavailable") else
  ensure (registry_open (registry_data r)) "encoder rate control is disconnected";;
  Ret (registry_data r).

(** [EncoderRateControl::registry] *)
Definition registry (r : Registry) : outcome Registry :=
  if alive r then Ret r else Fail (ErrMsg "encoder rate control is disconnected").

(** [EncoderRateControl::limits] *)
Definition control_limits (r : Registry) : outcome EncoderBitrateLimits :=
  r ← registry r; _ ← Registry_state r; Ret (limits r).

(** [EncoderRateControl::streams] *)
Definition control_streams (r : Registry) : outcome (list EncoderStreamStatus) :=
  r ← registry r; st ← Registry_state r; Ret (status <$> bt_values (streams st)).

(** [EncoderRateControl::request_inner] *)
Definition request_inner (r : Registry) (stream : MediaStreamId) (bps : Z) (managed_request : bool) :
    outcome (Registry * BitrateRequest) :=
  r ← registry r;
  validate (limits r) bps;;
  st ← Registry_state r;
  ensure (Bool.eqb (managed st) managed_request)
    "encoder rate requests belong to the shared bitrate budget";;
  entry ← opt_context (streams st !! stream) "encoder stream is no longer registered";
  if negb (bits_per_second (requested (status entry)) =? bps) then
    rev ← opt_context (checked_add (revision (requested (status entry))) 1)
            "encoder rate revision exhausted";
    let request := MkBitrateRequest rev bps in
    Ret (set_streams (<[stream := set_requested request entry]> (streams st)) r, request)
  else Ret (r, requested (status entry)).

(** [EncoderRateControl::request] and [request_managed] *)
Definition request (r : Registry) (stream : MediaStreamId) (bps : Z) :=
  request_inner r stream bps false.
Definition request_managed (r : Registry) (stream : MediaStreamId) (bps : Z) :=
  request_inner r stream bps true.

(** [EncoderRateControl::manage] *)
Definition manage (r : Registry) : outcome Registry :=
  r ← registry r;
  st ← Registry_state r;
  ensure (negb (managed st)) "encoder rate control already has a budget owner";;
  ensure (bool_decide (streams st = ∅)) "attach bitrate budget before registering streams";;
  Ret (set_managed r).

(** ** The owner ([EncoderRates]) *)
Definition EncoderRates_new (limits : EncoderBitrateLimits) : Registry :=
  MkRegistry limits (MkRegistryState true false ∅) false true.

(** [EncoderRates::update]: nothing happens when the lock is unavailable. *)
Definition update {T} (r : Registry)
    (operation : gmap MediaStreamId StreamRate -> gmap MediaStreamId StreamRate * T) :
    Registry * option T :=
  match ok (Registry_state r) with
  | Some st => let (s, t) := operation (streams st) in (set_streams s r, Some t)
  | None => (r, None)
  end.

Definition register (r : Registry) (stream : MediaStreamId) (surface : ClientSurfaceId)
    (layer : SurfaceLayerId) : Registry * option BitrateRequest :=
  let initial := MkBitrateRequest 0 (initial (limits r)) in
  update r (fun streams =>
    (<[stream := MkStreamRate (MkStatus stream surface layer initial None None) initial None None]>
       streams, initial)).

(** [EncoderRates::select], flattening the two options. *)
Definition select (r : Registry) (stream : MediaStreamId) (now : instant) :
    Registry * option BitrateRequest :=
  let updated := update r (fun streams =>
    match streams !! stream with
    | Some entry => let chosen := StreamRate_select now entry in
                    (<[stream := chosen.1]> streams, Some chosen.2)
    | None => (streams, None)
    end) in
  (updated.1, updated.2 ≫= id).

Definition StreamRate_submitted (application : EncoderRateApplication) (now : instant)
    (e : StreamRate) : StreamRate :=
  let bps := bits_per_second (application_request application) in
  let switch := if is_some_and (last_submitted_bitrate e) (fun rate => negb (rate =? bps))
                then Some now else last_switch e in
  let e := set_jobs (Some application) (applied (status e)) e in
  MkStreamRate (status e) (selected e) (Some bps) switch.

Definition submitted (r : Registry) (application : EncoderRateApplication) (now : instant) : Registry :=
  (update r (fun streams =>
    let stream := frame_stream (application_frame application) in
    match streams !! stream with
    | Some entry => (<[stream := StreamRate_submitted application now entry]> streams, tt)
    | None => (streams, tt)
    end)).1.

Definition finished (r : Registry) (application : EncoderRateApplication) (was_applied : bool) : Registry :=
  (update r (fun streams =>
    let stream := frame_stream (application_frame application) in
    match streams !! stream with
    | Some entry =>
        if bool_decide (submitted_application (status entry) = Some application) then
          let app := if was_applied then Some application else applied (status entry) in
          (<[stream := set_jobs None app entry]> streams, tt)
        else (streams, tt)
    | None => (streams, tt)
    end)).1.

Definition remove (r : Registry) (stream : MediaStreamId) : Registry :=
  (update r (fun streams => (delete stream streams, tt))).1.

(** [EncoderRates::report]: the summary it logs, if any: streams, requested sum,
    applied sum and pending streams. *)
Definition report (r : Registry) (force : bool) : option (Z * Z * Z * Z) :=
  match ok (control_streams r) with
  | None => None
  | Some statuses =>
      let requested_sum := fold_left (fun sum s => sat_add sum (bits_per_second (requested s))) statuses 0 in
      let applied_sum :=
        fold_left (fun sum a => sat_add sum (bits_per_second (application_request a)))
          (omap applied statuses) 0 in
      let pending := Z.of_nat (length (filter (fun s =>
        (application_request <$> applied s) <> Some (requested s)) statuses)) in
      if negb force && (pending =? 0) then None
      else Some (Z.of_nat (length statuses), requested_sum, applied_sum, pending)
  end.

(** [Drop for EncoderRates]: close under the lock, unless it is poisoned. *)
Definition EncoderRates_drop (r : Registry) : Registry :=
  let st := registry_data r in
  let st := if poisoned r then st else MkRegistryState false (managed st) ∅ in
  MkRegistry (limits r) st (poisoned r) false.

(** ** The well-formedness invariant *)
Definition limits_ok (l : EncoderBitrateLimits) : Prop :=
  0 < minimum l /\ minimum l <= initial l <= maximum l /\ maximum l <= u64_max.

Definition rate_in (l : EncoderBitrateLimits) (bps : Z) : Prop := minimum l <= bps <= maximum l.

Definition request_ok (l : EncoderBitrateLimits) (r : BitrateRequest) : Prop :=
  rate_in l (bits_per_second r) /\ is_u64 (revision r).

(** Requests stay in the control range, and a selection is never newer than the
    request: equal revisions mean equal requests. *)
Definition stream_ok (l : EncoderBitrateLimits) (stream : MediaStreamId) (e : StreamRate) : Prop :=
  status_stream (status e) = stream /\
  request_ok l (requested (status e)) /\ request_ok l (selected e) /\
  revision (selected e) <= revision (requested (status e)) /\
  (revision (selected e) = revision (requested (status e)) -> selected e = requested (status e)).

Definition Registry_ok (r : Registry) : Prop :=
  limits_ok (limits r) /\ map_Forall (stream_ok (limits r)) (streams (registry_data r)).

(** Everything that happens to a registry during its life: requests from handles,
    the owner's calls, a thread panicking while it holds the lock, and the drop. *)
Inductive registry_step : Registry -> Registry -> Prop :=
  | step_request r r' stream bps m req :
      request_inner r stream bps m = Ret (r', req) -> registry_step r r'
  | step_manage r r' : manage r = Ret r' -> registry_step r r'
  | step_register r stream surface layer :
      registry_step r (register r stream surface layer).1
  | step_select r stream now : registry_step r (select r stream now).1
  | step_submitted r application now : registry_step r (submitted r application now)
  | step_finished r application was_applied : registry_step r (finished r application was_applied)
  | step_remove r stream : registry_step r (remove r stream)
  | step_poison r : registry_step r (MkRegistry (limits r) (registry_data r) true (alive r))
  | step_drop r : registry_step r (EncoderRates_drop r).

Lemma try_new_limits_ok lo ini hi l :
  hi <= u64_max -> try_new lo ini hi = Ret l -> limits_ok l.
Proof.
  unfold try_new, limits_ok. intros Hhi H. inv_ret. subst. cbn.
  apply andb_true_iff in H0 as [[H1%Z.ltb_lt H2%Z.leb_le]%andb_true_iff H3%Z.leb_le]. lia.
Qed.

Lemma Registry_state_Ret r st :
  Registry_state r = Ret st ->
  poisoned r = false /\ registry_open (registry_data r) = true /\ st = registry_data r.
Proof. unfold Registry_state. destruct (poisoned r); [done|]. intros H. inv_ret. by subst. Qed.

Lemma ok_Some {A} (m : outcome A) a : ok m = Some a <-> m = Ret a.
Proof. destruct m; cbn; split; congruence. Qed.

(** [update] changes nothing but the streams, and only through the operation. *)
Lemma update_cases {T} (r : Registry) (op : gmap MediaStreamId StreamRate -> _ * T) :
  update r op = (r, None) /\ ok (Registry_state r) = None \/
  exists st, Registry_state r = Ret st /\
  update r op = (set_streams (op (streams (registry_data r))).1 r, Some (op (streams (registry_data r))).2).
Proof.
  unfold update. destruct (ok (Registry_state r)) as [st|] eqn:Hst; [right | by left].
  apply ok_Some in Hst. exists st. split; [done|].
  apply Registry_state_Ret in Hst as (_ & _ & ->).
  by destruct (op _).
Qed.

Lemma update_Registry_ok {T} (r : Registry) (op : gmap MediaStreamId StreamRate -> _ * T) :
  Registry_ok r ->
  (forall m, map_Forall (stream_ok (limits r)) m -> map_Forall (stream_ok (limits r)) (op m).1) ->
  Registry_ok (update r op).1.
Proof.
  intros [Hl Hs] Hop. destruct (update_cases r op) as [[-> _]|(st & _ & ->)]; [by split|].
  split; [done|]. by apply Hop.
Qed.

Lemma validate_ret l bps u : validate l bps = Ret u -> rate_in l bps.
Proof.
  unfold validate, rate_in. intros H%ensure_Ret_inv.
  apply andb_true_iff in H as [?%Z.leb_le ?%Z.leb_le]. lia.
Qed.

Lemma validate_intro l bps : rate_in l bps -> validate l bps = Ret tt.
Proof.
  unfold validate, rate_in, ensure. intros [??].
  by rewrite (proj2 (Z.leb_le _ _)), (proj2 (Z.leb_le _ _)).
Qed.

Lemma set_requested_ok l stream e rev bps :
  stream_ok l stream e -> rate_in l bps -> revision (requested (status e)) < rev <= u64_max ->
  stream_ok l stream (set_requested (MkBitrateRequest rev bps) e).
Proof.
  intros (Hst & Hreq & Hsel & Hle & _) Hbps Hrev. unfold stream_ok, request_ok, rate_in in *; cbn in *.
  unfold is_u64 in *. split_and!; try done; lia.
Qed.

Lemma request_inner_inv r stream bps m r' req :
  request_inner r stream bps m = Ret (r', req) ->
  rate_in (limits r) bps /\ managed (registry_data r) = m /\
  Registry_state r = Ret (registry_data r) /\ alive r = true /\
  exists entry, streams (registry_data r) !! stream = Some entry /\
  ((bits_per_second (requested (status entry)) = bps /\ r' = r /\ req = requested (status entry)) \/
   (bits_per_second (requested (status entry)) <> bps /\
    checked_add (revision (requested (status entry))) 1 = Some (revision req) /\
    bits_per_second req = bps /\
    r' = set_streams (<[stream := set_requested req entry]> (streams (registry_data r))) r)).
Proof.
  unfold request_inner, registry. destruct (alive r) eqn:Hal; [|done]. cbn. intros H. inv_ret.
  destruct (Registry_state_Ret _ _ H1) as (_ & _ & ->).
  apply validate_ret in H0. apply eqb_prop in H2.
  split_and!; try done. exists x2. split; [done|].
  destruct (Z.eqb_spec (bits_per_second (requested (status x2))) bps) as [Heq|Hne]; cbn in H.
  - left. inv_ret. subst. by simplify_eq.
  - right. inv_ret. by simplify_eq.
Qed.

Lemma checked_add_Some x y z : checked_add x y = Some z <-> z = x + y /\ is_u64 (x + y).
Proof. unfold checked_add. rewrite checked_Some. done. Qed.

Lemma StreamRate_select_ok l stream e now :
  stream_ok l stream e -> stream_ok l stream (StreamRate_select now e).1.
Proof.
  intros (? & ? & ? & ? & ?). unfold StreamRate_select, stream_ok; cbn.
  destruct (_ || _); split_and!; done.
Qed.

Lemma map_Forall_insert_ok l (m : gmap MediaStreamId StreamRate) stream e :
  map_Forall (stream_ok l) m -> stream_ok l stream e -> map_Forall (stream_ok l) (<[stream := e]> m).
Proof. intros. by apply map_Forall_insert_2. Qed.

Lemma registry_step_ok r r' : registry_step r r' -> Registry_ok r -> Registry_ok r'.
Proof.
  intros Hstep Hok. pose proof Hok as [Hl Hs]. destruct Hstep.
  - apply request_inner_inv in H as (Hr & _ & _ & _ & entry & He & [(_ & -> & _)|(_ & Hc & Hb & ->)]).
    + done.
    + split; [done|]. apply checked_add_Some in Hc as [Hrev Hu]. pose proof (Hs _ _ He) as Hse.
      apply map_Forall_insert_ok; [done|]. destruct req as [rev b]; cbn in *; subst b.
      apply set_requested_ok; [done|done|]. unfold is_u64 in Hu. lia.
  - unfold manage, registry in H. destruct (alive r); [|done]. inv_ret. by subst.
  - apply update_Registry_ok; [done|]. intros m Hm. cbn. apply map_Forall_insert_ok; [done|].
    unfold stream_ok, request_ok, rate_in, is_u64; cbn. unfold limits_ok in Hl.
    pose proof u64_max_pos. split_and!; try done; lia.
  - cbn. apply update_Registry_ok; [done|]. intros m Hm.
    destruct (m !! stream) as [e|] eqn:He; [|done].
    apply map_Forall_insert_ok; [done|]. by apply StreamRate_select_ok, (Hm _ _ He).
  - apply update_Registry_ok; [done|]. intros m Hm; cbn zeta.
    destruct (m !! frame_stream (application_frame application)) as [e|] eqn:He; [|exact Hm].
    apply map_Forall_insert_ok; [done|]. apply (Hm _ _ He).
  - apply update_Registry_ok; [done|]. intros m Hm; cbn zeta.
    destruct (m !! frame_stream (application_frame application)) as [e|] eqn:He; [|exact Hm].
    case_bool_decide; [|exact Hm].
    apply map_Forall_insert_ok; [done|]. apply (Hm _ _ He).
  - apply update_Registry_ok; [done|]. intros m Hm. cbn. by apply map_Forall_delete.
  - done.
  - split; [done|]. cbn. destruct (poisoned r); [done|]. apply map_Forall_empty.
Qed.

Lemma registry_reachable_ok r r' : rtc registry_step r r' -> Registry_ok r -> Registry_ok r'.
Proof. induction 1; eauto using registry_step_ok. Qed.

Lemma EncoderRates_new_ok l : limits_ok l -> Registry_ok (EncoderRates_new l).
Proof. intros Hl. split; [done|]. apply map_Forall_empty. Qed.

(** ** Bitrate switches of one stream

    The host prepares a job (which selects a rate) and later submits it with the
    selected rate frozen in; requests and completions interleave freely and the
    clock only moves forward. *)
Record rate_run := MkRun { run_entry : StreamRate; run_clock : instant }.

Inductive rate_event : rate_run -> rate_run -> Prop :=
  | event_request e t r : rate_event (MkRun e t) (MkRun (set_requested r e) t)
  | event_tick e t t' : t <= t' -> rate_event (MkRun e t) (MkRun e t')
  | event_select e t : rate_event (MkRun e t) (MkRun (StreamRate_select t e).1 t)
  | event_submit e t frame :
      rate_event (MkRun e t) (MkRun (StreamRate_submitted (MkApplication (selected e) frame) t e) t)
  | event_finish e t sub app : rate_event (MkRun e t) (MkRun (set_jobs sub app e) t).

Definition fresh_rate (s : EncoderStreamStatus) : StreamRate :=
  MkStreamRate s (requested s) None None.

(** A selection that differs from the last submission is only possible once the
    dwell since the last switch is over. *)
Definition dwell_ok (c : rate_run) : Prop :=
  forall last switch,
    last_submitted_bitrate (run_entry c) = Some last ->
    last_switch (run_entry c) = Some switch ->
    bits_per_second (selected (run_entry c)) <> last ->
    switch + MINIMUM_RATE_DWELL <= run_clock c.

Lemma rate_event_dwell c c' : rate_event c c' -> dwell_ok c -> dwell_ok c'.
Proof.
  intros Hev H last switch. unfold dwell_ok in H. destruct Hev; cbn in *.
  - apply H.
  - intros H1 H2 H3. specialize (H _ _ H1 H2 H3). lia.
  - intros H1 H2. destruct (_ || _) eqn:Hb; [|by apply H]. intros H3.
    apply orb_true_iff in Hb as [Heq%Z.eqb_eq|Hn].
    + apply (H _ _ H1 H2). congruence.
    + rewrite H2 in Hn. cbn in Hn. apply Z.leb_le in Hn. unfold since in Hn.
      unfold MINIMUM_RATE_DWELL, from_secs in *. lia.
  - intros [= <-] _ []. done.
  - apply H.
Qed.

(** ** Facts that persist *)
Lemma update_frame {T} (r : Registry) (op : gmap MediaStreamId StreamRate -> _ * T) :
  limits (update r op).1 = limits r /\ alive (update r op).1 = alive r /\
  managed (registry_data (update r op).1) = managed (registry_data r).
Proof. destruct (update_cases r op) as [[-> _]|(st & _ & ->)]; done. Qed.

(** No step unmanages a port or revives a dropped registry. *)
Lemma registry_step_frame r r' :
  registry_step r r' ->
  (managed (registry_data r) = true -> managed (registry_data r') = true) /\
  (alive r = false -> alive r' = false).
Proof.
  intros Hstep. destruct Hstep;
    try (cbn; unfold submitted, finished, remove, register, select;
         match goal with |- context [update ?r ?op] =>
           destruct (update_frame r op) as (_ & -> & ->) end; done).
  - apply request_inner_inv in H as (_ & _ & _ & _ & e & _ & [(_ & -> & _)|(_ & _ & _ & ->)]); done.
  - unfold manage, registry in H. destruct (alive r); [|done]. inv_ret. by subst.
  - done.
  - cbn. by destruct (poisoned r).
Qed.

Lemma registry_steps_frame r r' :
  rtc registry_step r r' ->
  (managed (registry_data r) = true -> managed (registry_data r') = true) /\
  (alive r = false -> alive r' = false).
Proof. induction 1 as [|r r1 r' Hs _ IH]; [done|]. apply registry_step_frame in Hs. tauto. Qed.

(** ** Claims *)

(** Every reachable registry is well formed: requests stay in the control range and
    selections never run ahead of requests. *)
Theorem registry_invariant l r :
  limits_ok l -> rtc registry_step (EncoderRates_new l) r -> Registry_ok r.
Proof. intros Hl Hr. by apply (registry_reachable_ok _ _ Hr), EncoderRates_new_ok. Qed.

(** A successful request changes the intent of one stream and nothing else. *)
Theorem request_effect r stream bps m r' req :
  request_inner r stream bps m = Ret (r', req) ->
  bits_per_second req = bps /\
  (forall other, other <> stream ->
     streams (registry_data r') !! other = streams (registry_data r) !! other) /\
  (exists e, streams (registry_data r) !! stream = Some e /\
     streams (registry_data r') !! stream = Some (set_requested req e) /\
     revision req = revision (requested (status e)) +
       (if bits_per_second (requested (status e)) =? bps then 0 else 1)) /\
  request_inner r' stream bps m = Ret (r', req).
Proof.
  intros H. pose proof H as H0.
  apply request_inner_inv in H as (Hin & Hm & Hst & Hal & e & He & [(Hb & -> & ->)|(Hb & Hc & Hq & ->)]).
  - split_and!; [done|done| |exact H0]. exists e. rewrite Hb, Z.eqb_refl. split_and!; [done| |lia].
    rewrite He. f_equal. by destruct e as [[]].
  - apply checked_add_Some in Hc as [Hc _]. cbn. split_and!.
    + done.
    + intros other Hne. by rewrite lookup_insert_ne.
    + exists e. rewrite lookup_insert_eq. rewrite (proj2 (Z.eqb_neq _ _) Hb). done.
    + clear H0. unfold request_inner, registry. cbn. rewrite Hal. cbn.
      rewrite validate_intro by done. cbn.
      apply Registry_state_Ret in Hst as (Hp & Ho & _).
      unfold Registry_state. cbn. rewrite Hp, Ho. cbn. rewrite Hm.
      replace (Bool.eqb m m) with true by (by destruct m). cbn.
      rewrite lookup_insert_eq. cbn. by rewrite Hq, Z.eqb_refl.
Qed.

(** Once a shared budget manages the port, no manual request succeeds any more. *)
Theorem managed_port_rejects_manual r r1 r2 stream bps x :
  manage r = Ret r1 -> rtc registry_step r1 r2 -> request r2 stream bps <> Ret x.
Proof.
  intros Hman Hsteps.
  assert (managed (registry_data r1) = true) as H1.
  { unfold manage, registry in Hman. destruct (alive r); [|done]. inv_ret. by subst. }
  assert (managed (registry_data r2) = true) as H2.
  { by apply (registry_steps_frame _ _ Hsteps). }
  destruct x as [r' q]. intros Hreq. apply request_inner_inv in Hreq as (_ & Hm & _). congruence.
Qed.

(** After the source drops its registry, every old handle is disconnected for good. *)
Theorem dropped_registry_disconnects r r' stream bps m :
  rtc registry_step (EncoderRates_drop r) r' ->
  (request_inner r' stream bps m = Fail (ErrMsg "encoder rate control is disconnected")) /\
  (manage r' = Fail (ErrMsg "encoder rate control is disconnected")) /\
  (control_limits r' = Fail (ErrMsg "encoder rate control is disconnected")) /\
  (control_streams r' = Fail (ErrMsg "encoder rate control is disconnected")).
Proof.
  intros Hsteps. destruct (registry_steps_frame _ _ Hsteps) as [_ Hal]. specialize (Hal eq_refl).
  unfold request_inner, manage, control_limits, control_streams, registry. by rewrite Hal.
Qed.

(** A stream's bitrate switches at most once per [MINIMUM_RATE_DWELL]. *)
Theorem rate_switch_dwell s t0 c switch last frame :
  rtc rate_event (MkRun (fresh_rate s) t0) c ->
  last_switch (run_entry c) = Some switch ->
  last_submitted_bitrate (run_entry c) = Some last ->
  last_switch (StreamRate_submitted (MkApplication (selected (run_entry c)) frame) (run_clock c)
                 (run_entry c)) <> Some switch ->
  switch + from_secs 2 <= run_clock c.
Proof.
  intros Hrun Hsw Hl Hchange.
  assert (dwell_ok c) as Hd.
  { assert (dwell_ok (MkRun (fresh_rate s) t0)) as H0 by (intros ? ? ?; cbn; discriminate).
    clear Hsw Hl Hchange. induction Hrun; eauto using rate_event_dwell. }
  cbn in Hchange. rewrite Hl in Hchange. cbn in Hchange.
  destruct (Z.eqb_spec last (bits_per_second (selected (run_entry c)))) as [Heq|Hne]; [done|].
  apply (Hd _ _ Hl Hsw). congruence.
Qed.

(** ** Concrete inputs *)
Definition sample_limits : EncoderBitrateLimits := MkLimits 500000 2000000 8000000.
Definition sample_stream : MediaStreamId := MkMediaStreamId 3.
Definition sample_registry : Registry :=
  (register (EncoderRates_new sample_limits) sample_stream (ClientSurfaceId_for_test 1)
    (MkSurfaceLayerId 0)).1.
Definition sample_intent (r : Registry) : Registry * BitrateRequest :=
  match request_inner r sample_stream 3000000 false with
  | Ret x => x
  | _ => (r, MkBitrateRequest 0 0)
  end.
Definition sample_managed : Registry :=
  match manage (EncoderRates_new sample_limits) with Ret r => r | _ => sample_registry end.
Definition sample_status : EncoderStreamStatus :=
  MkStatus sample_stream (ClientSurfaceId_for_test 1) (MkSurfaceLayerId 0)
    (MkBitrateRequest 0 2000000) None None.
Definition sample_frame (n : Z) : MediaFrameId :=
  MkMediaFrameId sample_stream (MkStreamGeneration 0) n.

Lemma registry_invariant_witness : Registry_ok sample_registry.
Proof.
  apply (registry_invariant sample_limits); [by vm_compute; split_and!|].
  apply rtc_once, step_register.
Defined.

Lemma request_effect_witness :
  request_inner (sample_intent sample_registry).1 sample_stream 3000000 false =
  Ret (sample_intent sample_registry).
Proof.
  refine (proj2 (proj2 (proj2 (request_effect sample_registry sample_stream 3000000 false
    (sample_intent sample_registry).1 (sample_intent sample_registry).2 _)))).
  vm_compute. reflexivity.
Defined.

Lemma managed_port_rejects_manual_witness :
  request (EncoderRates_drop sample_managed) sample_stream 3000000 <> Ret (sample_intent sample_registry).
Proof.
  apply (managed_port_rejects_manual (EncoderRates_new sample_limits) sample_managed).
  - vm_compute. reflexivity.
  - apply rtc_once, step_drop.
Defined.

Lemma dropped_registry_disconnects_witness :
  manage (select (EncoderRates_drop sample_registry) sample_stream 5).1 =
  Fail (ErrMsg "encoder rate control is disconnected").
Proof.
  refine (proj1 (proj2 (dropped_registry_disconnects sample_registry _ sample_stream 0 false _))).
  apply rtc_once, step_select.
Defined.

(** A stream submitted at 2 Mbit/s, then after two seconds at 3 Mbit/s. *)
Definition sample_run : rate_run :=
  let first := StreamRate_submitted (MkApplication (MkBitrateRequest 0 2000000) (sample_frame 0)) 0
                 (fresh_rate sample_status) in
  let chosen := StreamRate_select (from_secs 1) (set_requested (MkBitrateRequest 1 3000000) first) in
  let second := StreamRate_submitted (MkApplication chosen.2 (sample_frame 1)) (from_secs 1) chosen.1 in
  let again := StreamRate_select (from_secs 4) (set_requested (MkBitrateRequest 2 4000000) second) in
  MkRun again.1 (from_secs 4).

Lemma rate_switch_dwell_witness : from_secs 1 + from_secs 2 <= from_secs 4.
Proof.
  apply (rate_switch_dwell sample_status 0 sample_run (from_secs 1) 3000000 (sample_frame 2)).
  - eapply rtc_l; [apply (event_submit _ 0 (sample_frame 0))|].
    eapply rtc_l; [apply (event_request _ _ (MkBitrateRequest 1 3000000))|].
    eapply rtc_l; [apply (event_tick _ _ (from_secs 1)); vm_compute; congruence|].
    eapply rtc_l; [apply event_select|].
    eapply rtc_l; [apply (event_submit _ _ (sample_frame 1))|].
    eapply rtc_l; [apply (event_request _ _ (MkBitrateRequest 2 4000000))|].
    eapply rtc_l; [apply (event_tick _ _ (from_secs 4)); vm_compute; congruence|].
    eapply rtc_l; [apply event_select|]. vm_compute. apply rtc_refl.
  - vm_compute. reflexivity.
  - vm_compute. reflexivity.
  - vm_compute. congruence.
Defined.
