(* ===== verification/Surface.v ===== *)
(** * Client surfaces: roles and requests ([weld-client/src/surface.rs])

    Coordinates are IEEE floats, represented by [spec_float] with the format's
    precision and exponent bound given to each operation, so that comparison and
    addition are the machine's, NaN and signed zero included. *)

From S2P Require Import Prelude OrdMap Ids.

(** ** IEEE binary64 and binary32 *)
Definition f64 : Type := spec_float.
Definition f32 : Type := spec_float.
Definition f64_add : f64 -> f64 -> f64 := SFadd 53 1024.
Definition f64_zero : f64 := S754_zero false.
Definition f64_one : f64 := S754_finite false 4503599627370496 (-52).
(** [f64::is_finite] *)
Definition is_finite (x : spec_float) : bool :=
  match x with S754_zero _ | S754_finite _ _ _ => true | _ => false end.
(** [==]: false on NaN, true on zeros of either sign. *)
Definition feqb (x y : spec_float) : bool := SFeqb x y.

#[export] Instance spec_float_eq_dec : EqDecision spec_float.
Proof. solve_decision. Defined.

(** ** Geometry *)
Record LogicalPoint := MkLogicalPoint { point_x : f32; point_y : f32 }.
Record Extent := MkExtent { width : Z; height : Z }.
#[export] Instance Extent_eq_dec : EqDecision Extent.
Proof. solve_decision. Defined.

(** ** Roles *)
Inductive WindowDecoration := ClientSide | ServerSide.
Inductive ToplevelKind := Normal | Dialog | UtilityKind | Toolbar | Splash.
#[export] Instance ToplevelKind_eq_dec : EqDecision ToplevelKind.
Proof. solve_decision. Defined.
Inductive ToplevelLayout := Floating | Tiled.
Inductive DesktopLayer := LayerBackground | LayerBottom | LayerTop | LayerOverlay.
Inductive LayerKeyboardInteractivity := KeyboardNone | KeyboardExclusive | KeyboardOnDemand.

Record ToplevelHints := MkToplevelHints {
  urgent : bool;
  kind : ToplevelKind;
  min_size : Extent;
  max_size : Extent;
}.

Definition prefers_floating (h : ToplevelHints) : bool :=
  bool_decide (kind h <> Normal)
  || ((0 <? width (min_size h)) && (0 <? height (min_size h))
      && ((width (min_size h) =? width (max_size h)) || (height (min_size h) =? height (max_size h)))).

(** [Ord::clamp] panics when the bounds are reversed. *)
Definition clamp (value low high : Z) : outcome Z :=
  if low <=? high then Ret (Z.min high (Z.max low value)) else Panic.

Definition dimension (value minimum maximum : Z) : outcome Z :=
  let minimum := Z.max minimum 1 in
  let maximum := if maximum =? 0 then u32_max else Z.max maximum minimum in
  clamp value minimum maximum.

(** [ToplevelHints::constrain] *)
Definition constrain (h : ToplevelHints) (size : Extent) : outcome Extent :=
  w ← dimension (width size) (width (min_size h)) (width (max_size h));
  h' ← dimension (height size) (height (min_size h)) (height (max_size h));
  Ret (MkExtent w h').

Record ToplevelState := MkToplevelState {
  toplevel_parent : option ClientSurfaceId;
  decoration : WindowDecoration;
  hints : ToplevelHints;
}.
Record PopupState := MkPopupState {
  popup_owner : ClientSurfaceId;
  popup_position : LogicalPoint;
  popup_stack_index : Z;
}.
Record LayerSurfaceState := MkLayerSurfaceState {
  layer_output : Z;
  layer_position : LogicalPoint;
  desktop_layer : DesktopLayer;
  layer_keyboard : LayerKeyboardInteractivity;
  layer_stack_index : Z;
}.
Inductive ClientSurfaceRole :=
  | Toplevel (state : ToplevelState)
  | Popup (state : PopupState)
  | Layer (state : LayerSurfaceState).

(** ** Requests *)
Inductive ClientSurfaceRequestKind :=
  | Close
  | Configure (logical_size : Extent) (layout : ToplevelLayout) (resizing fullscreen : bool)
  | SetOutputs (outputs : list Z) (preferred : option Z) (preferred_scale_120 : option Z)
  | SetPreferredScale (scale_120 : option Z)
  | SetPresentation (rate : option PresentationRate)
  | SetBitratePreference (preference : option SurfaceBitratePreference).

Record ClientSurfaceRequest := MkSurfaceRequest {
  request_surface : ClientSurfaceId;
  request_kind : ClientSurfaceRequestKind;
}.
Record ClientFocusRequest := MkFocusRequest {
  focus_source : ClientSourceId;
  focus_surface : option ClientSurfaceId;
}.
Inductive ClientRequest :=
  | SurfaceRequest (request : ClientSurfaceRequest)
  | FocusRequest (request : ClientFocusRequest)
  | ClearFocus.

(** [ClientRequest::source] *)
Definition ClientRequest_source (r : ClientRequest) : option ClientSourceId :=
  match r with
  | SurfaceRequest request => Some (ClientSurfaceId_source (request_surface request))
  | FocusRequest request => Some (focus_source request)
  | ClearFocus => None
  end.

Record ClientBufferUseId := MkClientBufferUseId { use_source : ClientSourceId; use_local : Z }.

(** ** Claims *)

(** Size limits never panic, and the constrained size respects them: at least one
    pixel and at least the minimum, at most a nonzero maximum that is consistent. *)
Theorem constrain_bounds h size :
  is_u32 (width (min_size h)) -> is_u32 (height (min_size h)) ->
  is_u32 (width (max_size h)) -> is_u32 (height (max_size h)) ->
  exists w t, constrain h size = Ret (MkExtent w t) /\
  Z.max 1 (width (min_size h)) <= w <= u32_max /\
  Z.max 1 (height (min_size h)) <= t <= u32_max /\
  (width (max_size h) <> 0 -> w <= Z.max (width (max_size h)) (Z.max 1 (width (min_size h)))) /\
  (height (max_size h) <> 0 -> t <= Z.max (height (max_size h)) (Z.max 1 (height (min_size h)))) /\
  constrain h (MkExtent w t) = Ret (MkExtent w t).
Proof.
  assert (Hdim : forall value lo hi, is_u32 lo -> is_u32 hi ->
    exists d, dimension value lo hi = Ret d /\ Z.max 1 lo <= d <= u32_max /\
      (hi <> 0 -> d <= Z.max hi (Z.max 1 lo)) /\ dimension d lo hi = Ret d).
  { intros value lo hi. unfold is_u32, dimension, clamp.
    assert (1 <= u32_max) by (unfold u32_max; lia). intros.
    destruct (Z.eqb_spec hi 0) as [->|Hhi];
      match goal with |- context [?a <=? ?b] => destruct (Z.leb_spec a b) end; try lia.
    all: eexists; split; [done|]; split_and!; try lia; f_equal; lia. }
  intros H1 H2 H3 H4.
  destruct (Hdim (width size) _ _ H1 H3) as (w & Hw & ? & ? & Hw').
  destruct (Hdim (height size) _ _ H2 H4) as (t & Ht & ? & ? & Ht').
  exists w, t. unfold constrain. cbn. rewrite Hw, Hw'. cbn. rewrite Ht, Ht'. done.
Qed.

Lemma constrain_bounds_witness :
  exists w t, constrain (MkToplevelHints false Normal (MkExtent 10 20) (MkExtent 100 0)) (MkExtent 500 5) =
    Ret (MkExtent w t).
Proof.
  destruct (constrain_bounds (MkToplevelHints false Normal (MkExtent 10 20) (MkExtent 100 0)) (MkExtent 500 5))
    as (w & t & H & _); [by vm_compute; split..|].
  exists w, t. exact H.
Defined.
