(* ===== verification/Input.v ===== *)
(** * Adapter-addressed input ([weld-client/src/input.rs]) and control records
      ([weld-hoist-protocol/src/lib.rs]) *)

From S2P Require Import Prelude OrdMap Ids Surface.

Inductive ButtonState := ButtonPressed | ButtonReleased.
#[export] Instance ButtonState_eq_dec : EqDecision ButtonState.
Proof. solve_decision. Defined.
Inductive KeyboardKeyState := KeyPressed | KeyReleased | KeyRepeated.
#[export] Instance KeyboardKeyState_eq_dec : EqDecision KeyboardKeyState.
Proof. solve_decision. Defined.

(** [KeyboardKeyState::transition] *)
Definition transition (s : KeyboardKeyState) : option ButtonState :=
  match s with
  | KeyPressed => Some ButtonPressed
  | KeyReleased => Some ButtonReleased
  | KeyRepeated => None
  end.

Record InputPosition := MkPosition { position_x : f64; position_y : f64 }.
#[export] Instance InputPosition_eq_dec : EqDecision InputPosition.
Proof. solve_decision. Defined.
(** the derived [PartialEq]: componentwise IEEE equality *)
Definition position_eqb (p q : InputPosition) : bool :=
  feqb (position_x p) (position_x q) && feqb (position_y p) (position_y q).
Definition position_finite (p : InputPosition) : bool :=
  is_finite (position_x p) && is_finite (position_y p).

Record InputDelta := MkDelta { delta_x : f64; delta_y : f64 }.
Definition delta_add (a b : InputDelta) : InputDelta :=
  MkDelta (f64_add (delta_x a) (delta_x b)) (f64_add (delta_y a) (delta_y b)).
Definition delta_finite (d : InputDelta) : bool := is_finite (delta_x d) && is_finite (delta_y d).

Record RelativeMotion := MkRelative {
  delta : InputDelta;
  unaccelerated : InputDelta;
  time_micros : Z;
}.
Definition RelativeMotion_is_finite (m : RelativeMotion) : bool :=
  delta_finite (delta m) && delta_finite (unaccelerated m).
(** [RelativeMotion::accumulate]: add an older sample, keep the newest timestamp. *)
Definition accumulate (newer older : RelativeMotion) : option RelativeMotion :=
  let sum := MkRelative (delta_add (delta newer) (delta older))
               (delta_add (unaccelerated newer) (unaccelerated older)) (time_micros newer) in
  if RelativeMotion_is_finite sum then Some sum else None.
(** [RelativeMotion::coalesce] *)
Definition coalesce (newer older : option RelativeMotion) : option (option RelativeMotion) :=
  match newer, older with
  | None, None => Some None
  | Some newer, Some older => Some <$> accumulate newer older
  | _, _ => None
  end.

Inductive RawScrollSource := Wheel | Finger | Continuous.
Inductive RawScrollPhase := ScrollStarted | ScrollMoved | ScrollEnded | ScrollCancelled.
#[export] Instance RawScrollPhase_eq_dec : EqDecision RawScrollPhase.
Proof. solve_decision. Defined.
Record RawScrollFrame := MkScroll {
  scroll_source : RawScrollSource;
  phase : RawScrollPhase;
  horizontal : f64;
  vertical : f64;
  horizontal_v120 : option Z;
  vertical_v120 : option Z;
  horizontal_stop : bool;
  vertical_stop : bool;
}.

Inductive TouchpadSwipe :=
  | SwipeBegin (fingers : Z) | SwipeUpdate (delta : InputDelta) | SwipeEnd (cancelled : bool).
Inductive TouchpadPinch :=
  | PinchBegin (fingers : Z)
  | PinchUpdate (delta : InputDelta) (scale rotation : f64)
  | PinchEnd (cancelled : bool).
Inductive TouchpadHold := HoldBegin (fingers : Z) | HoldEnd (cancelled : bool).
Inductive PointerGesture :=
  | Swipe (swipe : TouchpadSwipe) | Pinch (pinch : TouchpadPinch) | Hold (hold : TouchpadHold).

Inductive ClientInputTarget :=
  | PointerTarget (surface : ClientSurfaceId) (layer : SurfaceLayerId)
  | KeyboardTarget (surface : ClientSurfaceId)
  | TouchTarget (surface : ClientSurfaceId) (layer : SurfaceLayerId).
#[export] Instance ClientInputTarget_eq_dec : EqDecision ClientInputTarget.
Proof. solve_decision. Defined.
(** [ClientInputTarget::surface] *)
Definition target_surface (t : ClientInputTarget) : ClientSurfaceId :=
  match t with PointerTarget s _ | TouchTarget s _ | KeyboardTarget s => s end.

Record TouchId := MkTouchId { TouchId_raw : Z }.
#[export] Instance TouchId_eq_dec : EqDecision TouchId.
Proof. solve_decision. Defined.
#[export] Instance TouchId_countable : Countable TouchId.
Proof. solve_newtype_countable TouchId_raw MkTouchId. Defined.
Definition MAX_TOUCH_CONTACTS : nat := 32.

Inductive TouchEvent :=
  | TouchDown (id : TouchId) (position : InputPosition)
  | TouchMotion (id : TouchId) (position : InputPosition)
  | TouchUp (id : TouchId)
  | TouchFrame
  | TouchCancel.
(** [TouchEvent::id] and [TouchEvent::is_valid] *)
Definition touch_id (e : TouchEvent) : option TouchId :=
  match e with
  | TouchDown id _ | TouchMotion id _ | TouchUp id => Some id
  | TouchFrame | TouchCancel => None
  end.
Definition touch_is_valid (e : TouchEvent) : bool :=
  match e with TouchDown _ p | TouchMotion _ p => position_finite p | _ => true end.

Inductive InputEventKind :=
  | PointerMotion (position : InputPosition) (relative : option RelativeMotion)
  | PointerLeft (position : InputPosition)
  | PointerButton (position : option InputPosition) (button : Z) (state : ButtonState)
  | PointerAxis (position : option InputPosition) (axis : RawScrollFrame)
  | PointerGestureEvent (gesture : PointerGesture)
  | Keyboard (keycode : Z) (state : KeyboardKeyState)
  | Touch (event : TouchEvent)
  | Text (text : string).

(** [WireClientInputEvent] *)
Record InputRecord := MkInput {
  target : ClientInputTarget;
  event : InputEventKind;
  time : Z;
}.

(** ** Gamepad records ([weld-hoist-protocol/src/gamepad.rs]) *)
Inductive HatDirection := HatNegative | HatCenter | HatPositive.
#[export] Instance HatDirection_eq_dec : EqDecision HatDirection.
Proof. solve_decision. Defined.
Definition hat_value (h : HatDirection) : Z :=
  match h with HatNegative => -1 | HatCenter => 0 | HatPositive => 1 end.
Record GamepadButtons := MkButtons {
  south : bool; east : bool; west : bool; north : bool;
  left_shoulder : bool; right_shoulder : bool;
  select_button : bool; start : bool; guide : bool;
  left_stick : bool; right_stick : bool;
}.
#[export] Instance GamepadButtons_eq_dec : EqDecision GamepadButtons.
Proof. solve_decision. Defined.
Record GamepadState := MkGamepadState {
  buttons : GamepadButtons;
  left_axes : Z * Z;
  right_axes : Z * Z;
  triggers : Z * Z;
  dpad : HatDirection * HatDirection;
}.
#[export] Instance GamepadState_eq_dec : EqDecision GamepadState.
Proof. solve_decision. Defined.
Definition neutral_gamepad : GamepadState :=
  MkGamepadState (MkButtons false false false false false false false false false false false)
    (0, 0) (0, 0) (0, 0) (HatCenter, HatCenter).

Inductive GamepadRequest :=
  | GamepadBegin (generation : Z)
  | GamepadStateRequest (generation : Z) (state : GamepadState)
  | GamepadEnd (generation : Z).
#[export] Instance GamepadRequest_eq_dec : EqDecision GamepadRequest.
Proof. solve_decision. Defined.
Definition request_generation (r : GamepadRequest) : Z :=
  match r with GamepadBegin g | GamepadStateRequest g _ | GamepadEnd g => g end.
(** [GamepadRequest::supersedes] *)
Definition supersedes (next previous : GamepadRequest) : bool :=
  let pressed (t : Z * Z) := (32768 <=? t.1, 32768 <=? t.2) in
  match previous, next with
  | GamepadStateRequest old a, GamepadStateRequest generation b =>
      (old =? generation)
      && bool_decide (buttons a = buttons b)
      && bool_decide (dpad a = dpad b)
      && bool_decide (pressed (triggers a) = pressed (triggers b))
  | _, _ => false
  end.

Inductive GamepadCaptureState := CaptureActive | Stopped | Denied | TimedOut | DeviceFailed.
#[export] Instance GamepadCaptureState_eq_dec : EqDecision GamepadCaptureState.
Proof. solve_decision. Defined.
Inductive GamepadStatus :=
  | Available
  | CaptureStatus (generation : Z) (state : GamepadCaptureState).
#[export] Instance GamepadStatus_eq_dec : EqDecision GamepadStatus.
Proof. solve_decision. Defined.

(** ** Destination-to-source records *)
Inductive DestinationMessage :=
  | Request (request : ClientRequest)
  | Input (input : InputRecord)
  | BufferReleased (use_id : ClientBufferUseId)
  | Reclaim
  | CursorReceived (surface : ClientSurfaceId) (sequence : Z)
  | Gamepad (request : GamepadRequest).
Record DestinationEnvelope := MkDestinationEnvelope {
  session : HoistSessionId;
  message : DestinationMessage;
}.
