(* ===== verification/Activity.v ===== *)
(** * Attention derived from relay traffic ([weld-hoist-encoded/src/activity.rs])

    Surfaces are grouped under the root of their popup ownership chain; input and
    focus records of the authorized session leave timestamps on the surface they
    address. Loops over the members of a group update each member independently of
    the others, so they are pointwise updates of the surface map. *)

From S2P Require Import Prelude OrdMap Ids Surface Input.

(** ** Policy and priorities *)
Record SchedulingPolicy := MkSchedulingPolicy {
  interaction_grace : duration;
  motion_grace : duration;
  motion_dwell : duration;
  starvation_age : duration;
  scheduling_weights : Z * Z * Z * Z;
}.
Definition SchedulingPolicy_default : SchedulingPolicy :=
  MkSchedulingPolicy (from_millis 750) (from_millis 150) (from_millis 75) (from_millis 100) (1, 2, 4, 8).

Inductive Priority := Background | Focused | Moving | Interactive.
#[export] Instance Priority_eq_dec : EqDecision Priority.
Proof. solve_decision. Defined.
(** [Priority::index], also the discriminant of the derived order. *)
Definition index (p : Priority) : nat :=
  match p with Background => 0 | Focused => 1 | Moving => 2 | Interactive => 3 end%nat.
Definition priority_ltb (p q : Priority) : bool := Nat.ltb (index p) (index q).
(** [weights[priority.index()]] *)
Definition weight_of {A} (weights : A * A * A * A) (p : Priority) : A :=
  match p with
  | Background => weights.1.1.1
  | Focused => weights.1.1.2
  | Moving => weights.1.2
  | Interactive => weights.2
  end.

Record Group := MkGroup { group_session : HoistSessionId; root : ClientSurfaceId }.
#[export] Instance Group_eq_dec : EqDecision Group.
Proof. solve_decision. Defined.
#[export] Instance Group_countable : Countable Group.
Proof.
  refine (inj_countable' (fun g => (group_session g, root g)) (fun p => MkGroup p.1 p.2) _).
  by intros [].
Defined.
#[export] Instance Group_ord : OrdKey Group.
Proof.
  refine {| words g := HoistSessionId_raw (group_session g) :: words (root g) |}.
  intros [[s] r] [[s'] r'] H. cbn -[words] in H. injection H as -> Hw.
  by apply (inj words) in Hw as ->.
Defined.

(** ** State *)
Record Attention := MkAttention {
  att_interaction : option instant;
  att_position : option InputPosition;
  att_layer : option SurfaceLayerId;
  att_motion_start : option instant;
  att_motion_last : option instant;
  att_quality_motion : option instant;
  att_buttons : gset Z;
  att_resizing : bool;
}.
Definition Attention_default : Attention := MkAttention None None None None None None ∅ false.

Record SurfaceEntry := MkSurface {
  surface_session : HoistSessionId;
  owner : option ClientSurfaceId;
  mapped_flag : bool;
  attention : Attention;
  bitrate : option SurfaceBitratePreference;
}.

Record Activity := MkActivity {
  surfaces : gmap ClientSurfaceId SurfaceEntry;
  focus : option ClientSurfaceId;
}.
Definition Activity_default : Activity := MkActivity ∅ None.

Record GroupAttention := MkGroupAttention {
  focused : bool;
  interaction : option instant;
  sustained_motion : option instant;
  motion : option instant;
  quality_motion : option instant;
}.
#[export] Instance GroupAttention_eq_dec : EqDecision GroupAttention.
Proof. solve_decision. Defined.
Definition GroupAttention_default : GroupAttention := MkGroupAttention false None None None None.

(** [GroupAttention::priority] *)
Definition priority (a : GroupAttention) (now : instant) (interaction_grace motion_grace : duration) :
    Priority :=
  let fresh at_ grace := is_some_and at_ (fun at_ => since now at_ <? grace) in
  if fresh (interaction a) interaction_grace || fresh (sustained_motion a) motion_grace then Interactive
  else if fresh (motion a) motion_grace then Moving
  else if focused a then Focused
  else Background.

Record ActivitySnapshot := MkSnapshot {
  snapshot_groups : gmap ClientSurfaceId Group;
  snapshot_attention : gmap Group GroupAttention;
}.

(** ** Field updates *)
Definition set_attention (t : Attention) (e : SurfaceEntry) : SurfaceEntry :=
  MkSurface (surface_session e) (owner e) (mapped_flag e) t (bitrate e).
Definition set_owner (o : option ClientSurfaceId) (e : SurfaceEntry) : SurfaceEntry :=
  MkSurface (surface_session e) o (mapped_flag e) (attention e) (bitrate e).
Definition set_mapped (b : bool) (e : SurfaceEntry) : SurfaceEntry :=
  MkSurface (surface_session e) (owner e) b (attention e) (bitrate e).
Definition set_bitrate (p : option SurfaceBitratePreference) (e : SurfaceEntry) : SurfaceEntry :=
  MkSurface (surface_session e) (owner e) (mapped_flag e) (attention e) p.
Definition set_interaction (now : instant) (t : Attention) : Attention :=
  MkAttention (Some now) (att_position t) (att_layer t) (att_motion_start t) (att_motion_last t)
    (att_quality_motion t) (att_buttons t) (att_resizing t).
Definition set_position (p : option InputPosition) (t : Attention) : Attention :=
  MkAttention (att_interaction t) p (att_layer t) (att_motion_start t) (att_motion_last t)
    (att_quality_motion t) (att_buttons t) (att_resizing t).
Definition set_buttons (b : gset Z) (t : Attention) : Attention :=
  MkAttention (att_interaction t) (att_position t) (att_layer t) (att_motion_start t)
    (att_motion_last t) (att_quality_motion t) b (att_resizing t).
Definition set_resizing (b : bool) (t : Attention) : Attention :=
  MkAttention (att_interaction t) (att_position t) (att_layer t) (att_motion_start t)
    (att_motion_last t) (att_quality_motion t) (att_buttons t) b.
Definition set_layer (l : option SurfaceLayerId) (t : Attention) : Attention :=
  MkAttention (att_interaction t) (att_position t) l (att_motion_start t)
    (att_motion_last t) (att_quality_motion t) (att_buttons t) (att_resizing t).
Definition set_motion (start last : option instant) (t : Attention) : Attention :=
  MkAttention (att_interaction t) (att_position t) (att_layer t) start last
    (att_quality_motion t) (att_buttons t) (att_resizing t).
Definition set_quality (q : option instant) (t : Attention) : Attention :=
  MkAttention (att_interaction t) (att_position t) (att_layer t) (att_motion_start t)
    (att_motion_last t) q (att_buttons t) (att_resizing t).
(** forget continuity: no motion in progress and no previous position *)
Definition reset_motion (t : Attention) : Attention :=
  set_position None (set_motion None None t).

(** [f] on the attention of every surface [P] selects *)
Definition update_attention_where (P : ClientSurfaceId -> bool) (f : Attention -> Attention)
    (m : gmap ClientSurfaceId SurfaceEntry) : gmap ClientSurfaceId SurfaceEntry :=
  map_imap (fun s e => Some (if P s then set_attention (f (attention e)) e else e)) m.

(** ** Grouping *)
Fixpoint group_loop (n : nat) (m : gmap ClientSurfaceId SurfaceEntry) (session : HoistSessionId)
    (fallback : Group) (root : ClientSurfaceId) : Group :=
  match n with
  | O => fallback
  | S n =>
      match m !! root with
      | None => fallback
      | Some current =>
          if bool_decide (surface_session current <> session) then fallback
          else match owner current with
               | Some owner => group_loop n m session fallback owner
               | None => MkGroup session root
               end
      end
  end.

(** [Activity::group]: malformed ownership falls back to the surface itself. *)
Definition group (a : Activity) (surface : ClientSurfaceId) : option Group :=
  match surfaces a !! surface with
  | None => None
  | Some entry =>
      let fallback := MkGroup (surface_session entry) surface in
      Some (group_loop (size (surfaces a)) (surfaces a) (surface_session entry) fallback surface)
  end.

(** [Activity::reset_group_motion] *)
Definition reset_group_motion (g : option Group) (a : Activity) : Activity :=
  match g with
  | None => a
  | Some g =>
      MkActivity
        (update_attention_where (fun s => bool_decide (group a s = Some g)) reset_motion (surfaces a))
        (focus a)
  end.

(** [Activity::clear_focus] *)
Definition clear_focus (a : Activity) : Activity :=
  let previous := focus a ≫= group a in
  reset_group_motion previous (MkActivity (surfaces a) None).

(** [Activity::clear_surface_attention] *)
Definition clear_surface_attention (surface : ClientSurfaceId) (a : Activity) : Activity :=
  let rooted_here g := bool_decide (root g = surface) in
  let a :=
    if bool_decide (focus a = Some surface) || is_some_and (focus a ≫= group a) rooted_here
    then clear_focus a else a in
  MkActivity
    (update_attention_where
       (fun s => bool_decide (s = surface) || is_some_and (group a s) rooted_here)
       (fun _ => Attention_default) (surfaces a))
    (focus a).

(** ** Registration *)
Definition remove (surface : ClientSurfaceId) (a : Activity) : Activity :=
  let a := clear_surface_attention surface a in
  MkActivity (delete surface (surfaces a)) (focus a).

Definition register (session : HoistSessionId) (surface : ClientSurfaceId) (a : Activity) : Activity :=
  if is_some_and (surfaces a !! surface) (fun e => bool_decide (surface_session e = session)) then a
  else let a := remove surface a in
    MkActivity (<[surface := MkSurface session None false Attention_default None]> (surfaces a)) (focus a).

Definition role (surface : ClientSurfaceId) (r : ClientSurfaceRole) (a : Activity) : Activity :=
  match surfaces a !! surface with
  | None => a
  | Some entry =>
      let new_owner := match r with
                       | Popup popup => Some (popup_owner popup)
                       | Toplevel _ | Layer _ => None
                       end in
      if bool_decide (owner entry <> new_owner) then
        MkActivity (<[surface := set_owner new_owner (set_attention Attention_default entry)]> (surfaces a))
          (focus a)
      else a
  end.

Definition set_bitrate_preference (session : HoistSessionId) (surface : ClientSurfaceId)
    (preference : option SurfaceBitratePreference) (a : Activity) : Activity * bool :=
  match surfaces a !! surface with
  | Some entry =>
      if bool_decide (surface_session entry = session) then
        if bool_decide (bitrate entry = preference) then (a, false)
        else (MkActivity (<[surface := set_bitrate preference entry]> (surfaces a)) (focus a), true)
      else (a, false)
  | None => (a, false)
  end.

Definition bitrate_preference (surface : ClientSurfaceId) (a : Activity) :
    option SurfaceBitratePreference :=
  group a surface ≫= fun g => surfaces a !! root g ≫= bitrate.

Definition mapped (surface : ClientSurfaceId) (flag : bool) (a : Activity) : Activity :=
  let a := if flag then a else clear_surface_attention surface a in
  MkActivity (alter (set_mapped flag) surface (surfaces a)) (focus a).

(** ** Snapshots *)

(** One mapped member's contribution to its group's summary. *)
Definition absorb (policy : SchedulingPolicy) (is_focused : bool) (t : Attention)
    (summary : GroupAttention) : GroupAttention :=
  let sustained :=
    match att_motion_start t, att_motion_last t with
    | Some start, Some last => motion_dwell policy <=? since last start
    | _, _ => false
    end in
  MkGroupAttention
    (focused summary || is_focused)
    (opt_max (interaction summary) (att_interaction t))
    (if sustained then opt_max (sustained_motion summary) (att_motion_last t) else sustained_motion summary)
    (if sustained then motion summary else opt_max (motion summary) (att_motion_last t))
    (opt_max (quality_motion summary) (att_quality_motion t)).

Definition snapshot_step (policy : SchedulingPolicy) (focused_group : option Group)
    (groups : gmap ClientSurfaceId Group) (acc : gmap Group GroupAttention)
    (p : ClientSurfaceId * SurfaceEntry) : gmap Group GroupAttention :=
  match groups !! p.1 with
  | None => acc
  | Some g =>
      if mapped_flag p.2 then
        <[g := absorb policy (bool_decide (focused_group = Some g)) (attention p.2)
                 (default GroupAttention_default (acc !! g))]> acc
      else acc
  end.

(** [Activity::snapshot] *)
Definition snapshot (policy : SchedulingPolicy) (a : Activity) : ActivitySnapshot :=
  let groups := map_imap (fun s _ => group a s) (surfaces a) in
  let focused_group := focus a ≫= fun s => groups !! s in
  MkSnapshot groups
    (fold_left (snapshot_step policy focused_group groups) (map_to_list (surfaces a)) ∅).

(** ** Observation of destination records *)

(** A gesture that counts as interaction. *)
Definition gesture_active (g : PointerGesture) : bool :=
  match g with
  | Swipe (SwipeBegin _) | Pinch (PinchBegin _) | Hold (HoldBegin _) => true
  | Swipe (SwipeUpdate d) => negb (feqb (delta_x d) f64_zero) || negb (feqb (delta_y d) f64_zero)
  | Pinch (PinchUpdate d scale rotation) =>
      negb (feqb (delta_x d) f64_zero) || negb (feqb (delta_y d) f64_zero)
      || negb (feqb scale f64_one) || negb (feqb rotation f64_zero)
  | _ => false
  end.

(** A pointer sample on a surface. *)
Definition observe_motion (policy : SchedulingPolicy) (now : instant) (surface_focused : bool)
    (position : InputPosition) (t : Attention) : Attention :=
  let changed := position_finite position
                 && is_some_and (att_position t) (fun previous => negb (position_eqb previous position)) in
  let t := set_position (Some position) t in
  let dragging := negb (bool_decide (att_buttons t = ∅)) in
  if changed && (surface_focused || dragging) then
    let t := if dragging then set_interaction now t else t in
    let start := if is_none_or (att_motion_last t) (fun last => motion_grace policy <=? since now last)
                 then Some now else att_motion_start t in
    let t := set_motion start (Some now) t in
    if is_some_and start (fun start => motion_dwell policy <=? since now start)
    then set_quality (Some now) t else t
  else t.

(** The event match of [Activity::observe], on the addressed surface's attention. *)
Definition observe_event (policy : SchedulingPolicy) (now : instant) (surface_focused : bool)
    (e : InputEventKind) (t : Attention) : Attention :=
  match e with
  | Text _ => set_interaction now t
  | Touch (TouchDown _ _ | TouchMotion _ _) => set_interaction now t
  | Touch _ => t
  | Keyboard _ state =>
      if bool_decide (state = KeyPressed) || (bool_decide (state = KeyRepeated) && surface_focused)
      then set_interaction now t else t
  | PointerButton position button ButtonPressed =>
      let t := if Nat.ltb (size (att_buttons t)) 32 then set_buttons ({[button]} ∪ att_buttons t) t else t in
      set_position position (set_interaction now t)
  | PointerButton _ button ButtonReleased => set_buttons (att_buttons t ∖ {[button]}) t
  | PointerMotion position _ => observe_motion policy now surface_focused position t
  | PointerLeft _ => reset_motion t
  | PointerAxis _ axis =>
      if negb (bool_decide (phase axis = ScrollCancelled))
         && (negb (feqb (horizontal axis) f64_zero) || negb (feqb (vertical axis) f64_zero))
      then set_interaction now t else t
  | PointerGestureEvent gesture => if gesture_active gesture then set_interaction now t else t
  end.

(** Entering another layer breaks motion continuity. *)
Definition enter_layer (tgt : ClientInputTarget) (t : Attention) : Attention :=
  match tgt with
  | PointerTarget _ layer =>
      if bool_decide (att_layer t <> Some layer) then set_layer (Some layer) (reset_motion t) else t
  | _ => t
  end.

(** The surface entry a record of [session] may touch. *)
Definition authorized (session : HoistSessionId) (surface : ClientSurfaceId) (a : Activity) :
    option SurfaceEntry :=
  match surfaces a !! surface with
  | Some entry =>
      if bool_decide (surface_session entry = session) && mapped_flag entry then Some entry else None
  | None => None
  end.

Definition observe_focus (session : HoistSessionId) (surface : option ClientSurfaceId) (a : Activity) :
    Activity :=
  let next := surface ≫= fun s => if bool_decide (is_Some (authorized session s a)) then Some s else None in
  if bool_decide (focus a <> next) then
    let a := clear_focus a in
    let a := reset_group_motion (next ≫= group a) a in
    MkActivity (surfaces a) next
  else a.

Definition observe_configure (session : HoistSessionId) (surface : ClientSurfaceId) (resizing : bool)
    (now : instant) (a : Activity) : Activity :=
  match authorized session surface a with
  | None => a
  | Some entry =>
      let t := attention entry in
      let t := if resizing && negb (att_resizing t) then set_interaction now t else t in
      MkActivity (<[surface := set_attention (set_resizing resizing t) entry]> (surfaces a)) (focus a)
  end.

Definition observe_input (session : HoistSessionId) (input : InputRecord) (now : instant)
    (policy : SchedulingPolicy) (a : Activity) : Activity :=
  let surface := target_surface (target input) in
  let surface_focused :=
    is_some_and (group a surface) (fun g => bool_decide ((focus a ≫= group a) = Some g)) in
  match authorized session surface a with
  | None => a
  | Some entry =>
      let t := enter_layer (target input) (attention entry) in
      let t := observe_event policy now surface_focused (event input) t in
      MkActivity (<[surface := set_attention t entry]> (surfaces a)) (focus a)
  end.

(** [Activity::observe] *)
Definition observe (session : HoistSessionId) (m : DestinationMessage) (now : instant)
    (policy : SchedulingPolicy) (a : Activity) : Activity :=
  match m with
  | Request (FocusRequest f) => observe_focus session (focus_surface f) a
  | Request ClearFocus => clear_focus a
  | Request (SurfaceRequest r) =>
      match request_kind r with
      | Configure _ _ resizing _ => observe_configure session (request_surface r) resizing now a
      | _ => a
      end
  | Input input => observe_input session input now policy a
  | _ => a
  end.

(** ** Ownership paths: what [group] computes *)
Section Paths.
Context (m : gmap ClientSurfaceId SurfaceEntry) (session : HoistSessionId).

(** [owner_path s r]: following owners from [s] inside the session ends at the
    ownerless [r]. *)
Inductive owner_path : ClientSurfaceId -> ClientSurfaceId -> Prop :=
  | path_root s e :
      m !! s = Some e -> surface_session e = session -> owner e = None -> owner_path s s
  | path_owner s e o r :
      m !! s = Some e -> surface_session e = session -> owner e = Some o ->
      owner_path o r -> owner_path s r.

Inductive path_length : nat -> ClientSurfaceId -> ClientSurfaceId -> Prop :=
  | length_root s e :
      m !! s = Some e -> surface_session e = session -> owner e = None -> path_length 0 s s
  | length_owner n s e o r :
      m !! s = Some e -> surface_session e = session -> owner e = Some o ->
      path_length n o r -> path_length (S n) s r.

Lemma owner_path_length s r : owner_path s r -> exists n, path_length n s r.
Proof.
  induction 1 as [s e|s e o r ???? [n IH]]; [exists 0%nat|exists (S n)]; econstructor; eauto.
Qed.
Lemma path_length_owner n s r : path_length n s r -> owner_path s r.
Proof. induction 1; econstructor; eauto. Qed.

Lemma path_length_det n n' s r r' :
  path_length n s r -> path_length n' s r' -> n = n' /\ r = r'.
Proof.
  intros H. revert n' r'. induction H as [s e|n s e o r ???? IH]; intros n' r' H';
    inversion H'; simplify_eq; [done|].
  match goal with Hp : path_length _ _ r' |- _ => destruct (IH _ _ Hp) as [-> ->] end. done.
Qed.

Lemma owner_path_det s r r' : owner_path s r -> owner_path s r' -> r = r'.
Proof.
  intros [n H]%owner_path_length [n' H']%owner_path_length.
  by destruct (path_length_det _ _ _ _ _ H H').
Qed.

(** A path visits pairwise distinct registered surfaces. *)
Lemma path_length_nodes n s r :
  path_length n s r ->
  exists l : list ClientSurfaceId, NoDup l /\ length l = S n /\
    forall x, x ∈ l -> is_Some (m !! x) /\ exists k, (k <= n)%nat /\ path_length k x r.
Proof.
  induction 1 as [s e He Hs Ho|n s e o r He Hs Ho Hp (l & Hnd & Hlen & Hall)].
  - exists [s]. split_and!; [apply NoDup_singleton|done|]. intros x ->%list_elem_of_singleton.
    split; [eauto|]. exists 0%nat. split; [lia|]. econstructor; eauto.
  - exists (s :: l). split_and!; [|cbn; lia|].
    + apply list.NoDup_cons. split; [|done]. intros [_ (k & Hk & Hpk)]%Hall.
      assert (path_length (S n) s r) as Hps by (econstructor; eauto).
      destruct (path_length_det _ _ _ _ _ Hpk Hps). lia.
    + intros x [->|Hx]%elem_of_cons.
      * split; [eauto|]. exists (S n). split; [lia|]. econstructor; eauto.
      * destruct (Hall _ Hx) as [? (k & ? & ?)]. split; [done|]. exists k. split; [lia|done].
Qed.

Lemma path_length_size n s r : path_length n s r -> (S n <= size m)%nat.
Proof.
  intros (l & Hnd & Hlen & Hall)%path_length_nodes.
  rewrite <-Hlen, <-size_dom, <-(size_list_to_set (C:=gset ClientSurfaceId) l Hnd).
  apply subseteq_size. intros x Hx%elem_of_list_to_set. apply elem_of_dom. by apply Hall.
Qed.

Lemma group_loop_path fallback fuel n s r :
  path_length n s r -> (n < fuel)%nat -> group_loop fuel m session fallback s = MkGroup session r.
Proof.
  intros H. revert fuel. induction H as [s e He Hs Ho|n s e o r He Hs Ho Hp IH];
    intros [|fuel] Hf; try lia; cbn; rewrite He; rewrite bool_decide_false by naive_solver; rewrite Ho.
  - done.
  - apply IH. lia.
Qed.

Lemma group_loop_cases fallback fuel s :
  group_loop fuel m session fallback s = fallback \/
  exists r, owner_path s r /\ group_loop fuel m session fallback s = MkGroup session r.
Proof.
  revert s. induction fuel as [|fuel IH]; intros s; cbn; [by left|].
  destruct (m !! s) as [e|] eqn:He; [|by left].
  case_bool_decide as Hs; [by left|].
  destruct (owner e) as [o|] eqn:Ho.
  - destruct (IH o) as [?|(r & Hr & ?)]; [by left|right]. exists r. split; [|done].
    by eapply path_owner.
  - right. exists s. split; [|done]. by eapply path_root.
Qed.
End Paths.

(** The loop bound of [group] is always enough: a surface belongs to the root of its
    ownership path whenever there is one, and otherwise to itself. *)
Lemma group_path a s e r :
  surfaces a !! s = Some e -> owner_path (surfaces a) (surface_session e) s r ->
  group a s = Some (MkGroup (surface_session e) r).
Proof.
  intros He [n Hn]%owner_path_length. unfold group. rewrite He. f_equal.
  apply (group_loop_path _ _ _ _ n); [done|]. apply path_length_size in Hn. lia.
Qed.

Lemma group_no_path a s e :
  surfaces a !! s = Some e -> (forall r, ~ owner_path (surfaces a) (surface_session e) s r) ->
  group a s = Some (MkGroup (surface_session e) s).
Proof.
  intros He Hno. unfold group. rewrite He. f_equal.
  destruct (group_loop_cases (surfaces a) (surface_session e)
    (MkGroup (surface_session e) s) (size (surfaces a)) s) as [->|(r & Hr & _)]; [done|].
  by destruct (Hno r).
Qed.

Lemma owner_path_dec m session s :
  {exists r, owner_path m session s r} + {forall r, ~ owner_path m session s r}.
Proof.
  set (other := MkGroup (MkHoistSessionId (HoistSessionId_raw session + 1)) s).
  destruct (decide (group_loop (size m) m session other s = other)) as [Heq|Hne].
  - right. intros r [n Hn]%owner_path_length.
    rewrite (group_loop_path _ _ _ _ n _ r Hn) in Heq; [|apply path_length_size in Hn; lia].
    injection Heq as Hs _. destruct session. cbn in Hs. injection Hs. lia.
  - left. destruct (group_loop_cases m session other (size m) s) as [?|(r & Hr & _)]; [done|by exists r].
Qed.

Lemma group_cases a s g :
  group a s = Some g ->
  exists e, surfaces a !! s = Some e /\ group_session g = surface_session e /\
  (owner_path (surfaces a) (surface_session e) s (root g) \/
   (root g = s /\ forall r, ~ owner_path (surfaces a) (surface_session e) s r)).
Proof.
  intros Hg. destruct (surfaces a !! s) as [e|] eqn:He; [|unfold group in Hg; by rewrite He in Hg].
  exists e. split; [done|].
  destruct (owner_path_dec (surfaces a) (surface_session e) s) as [[r Hr]|Hno].
  - rewrite (group_path _ _ _ _ He Hr) in Hg. injection Hg as <-. auto.
  - rewrite (group_no_path _ _ _ He Hno) in Hg. injection Hg as <-. auto.
Qed.

Lemma owner_path_end m session s r : owner_path m session s r -> owner_path m session r r.
Proof. induction 1; [|done]. by eapply path_root. Qed.

Lemma owner_path_registered m session s r :
  owner_path m session s r -> exists e, m !! r = Some e /\ surface_session e = session.
Proof. intros H%owner_path_end. inversion H; eauto. Qed.

(** A root is registered in the group's session and is its own root. *)
Lemma group_root a s g :
  group a s = Some g ->
  group a (root g) = Some g /\
  exists e, surfaces a !! root g = Some e /\ surface_session e = group_session g.
Proof.
  intros Hg. destruct (group_cases _ _ _ Hg) as (e & He & Hse & [Hp|[Hr Hno]]).
  - destruct (owner_path_registered _ _ _ _ Hp) as (er & Her & Hsr).
    split; [|exists er; split; [done|congruence]].
    apply owner_path_end in Hp. rewrite <-Hsr in Hp.
    rewrite (group_path _ _ _ _ Her Hp), Hsr, <-Hse. by destruct g.
  - rewrite Hr. split; [done|]. exists e. by split.
Qed.

(** ** The state invariant *)

(** Timestamps lie in the past, a motion sequence has both ends in order, and the
    set of held buttons is bounded. *)
Definition att_ok (now : instant) (t : Attention) : Prop :=
  (size (att_buttons t) <= 32)%nat /\
  match att_motion_start t, att_motion_last t with
  | None, None => True
  | Some start, Some last => start <= last <= now
  | _, _ => False
  end /\
  (forall i, att_interaction t = Some i -> i <= now) /\
  (forall q, att_quality_motion t = Some q -> q <= now).

(** Only a registered, mapped surface has the focus. *)
Definition focus_ok (a : Activity) : Prop :=
  forall s, focus a = Some s -> exists e, surfaces a !! s = Some e /\ mapped_flag e = true.

Definition Activity_ok (now : instant) (a : Activity) : Prop :=
  focus_ok a /\ map_Forall (fun _ e => att_ok now (attention e)) (surfaces a).

Inductive activity_step : instant * Activity -> instant * Activity -> Prop :=
  | step_tick now now' a : now <= now' -> activity_step (now, a) (now', a)
  | step_register now a session s : activity_step (now, a) (now, register session s a)
  | step_role now a s r : activity_step (now, a) (now, role s r a)
  | step_preference now a session s p :
      activity_step (now, a) (now, (set_bitrate_preference session s p a).1)
  | step_mapped now a s flag : activity_step (now, a) (now, mapped s flag a)
  | step_remove now a s : activity_step (now, a) (now, remove s a)
  | step_observe now a session m policy :
      activity_step (now, a) (now, observe session m now policy a).

Lemma update_attention_lookup P f m s :
  update_attention_where P f m !! s =
  (fun e => if P s then set_attention (f (attention e)) e else e) <$> m !! s.
Proof. unfold update_attention_where. rewrite map_lookup_imap. by destruct (m !! s). Qed.

Lemma att_ok_default now : att_ok now Attention_default.
Proof. split_and!; cbn; [rewrite size_empty; lia|done|done|done]. Qed.
Lemma att_ok_reset now t : att_ok now t -> att_ok now (reset_motion t).
Proof. intros (? & _ & ? & ?). by split_and!. Qed.
Lemma att_ok_interaction now t : att_ok now t -> att_ok now (set_interaction now t).
Proof. intros (? & ? & ? & ?). split_and!; try done. intros i [= <-]. done. Qed.
Lemma att_ok_position now p t : att_ok now t -> att_ok now (set_position p t).
Proof. done. Qed.
Lemma att_ok_resizing now b t : att_ok now t -> att_ok now (set_resizing b t).
Proof. done. Qed.
Lemma att_ok_buttons now b t : (size b <= 32)%nat -> att_ok now t -> att_ok now (set_buttons b t).
Proof. intros ? (? & ? & ? & ?). by split_and!. Qed.
Lemma att_ok_later now now' t : now <= now' -> att_ok now t -> att_ok now' t.
Proof.
  intros Hle (Hb & Hm & Hi & Hq). split_and!; [done| |..].
  - destruct (att_motion_start t), (att_motion_last t); try done. lia.
  - intros i Hs. specialize (Hi _ Hs). lia.
  - intros i Hs. specialize (Hq _ Hs). lia.
Qed.
Create HintDb attention.
#[export] Hint Resolve att_ok_default att_ok_reset att_ok_interaction att_ok_position att_ok_resizing
  att_ok_buttons : attention.

Lemma att_ok_enter_layer now tgt t : att_ok now t -> att_ok now (enter_layer tgt t).
Proof.
  intros H. destruct tgt; cbn; try done. case_bool_decide; [|done].
  apply (att_ok_reset _ _ H).
Qed.

Lemma att_ok_motion policy now f p t : att_ok now t -> att_ok now (observe_motion policy now f p t).
Proof.
  intros H. unfold observe_motion. destruct (_ && _); [|by apply att_ok_position].
  assert (Hmid : att_ok now (if negb (bool_decide (att_buttons (set_position (Some p) t) = ∅))
    then set_interaction now (set_position (Some p) t) else set_position (Some p) t)).
  { destruct (negb _); auto with attention. }
  revert Hmid. generalize (if negb (bool_decide (att_buttons (set_position (Some p) t) = ∅))
    then set_interaction now (set_position (Some p) t) else set_position (Some p) t).
  intros t' (Hb & Hm & Hi & Hq).
  assert (Hstart : exists start, (if is_none_or (att_motion_last t')
       (fun last => motion_grace policy <=? since now last)
     then Some now else att_motion_start t') = Some start /\ start <= now).
  { destruct (att_motion_last t') as [last|] eqn:Hl; cbn.
    - destruct (_ <=? _); [eauto with lia|]. destruct (att_motion_start t') as [st|]; [|done].
      exists st. split; [done|lia].
    - eauto with lia. }
  destruct Hstart as (start & -> & Hle). cbn.
  destruct (motion_dwell policy <=? since now start); split_and!; cbn; try done; try lia.
  intros q [= <-]. lia.
Qed.

Lemma att_ok_event policy now f e t : att_ok now t -> att_ok now (observe_event policy now f e t).
Proof.
  intros H. destruct e as [| |p b []|p axis|g|k s|ev|]; cbn -[Nat.ltb]; auto with attention.
  - by apply att_ok_motion.
  - destruct (Nat.ltb_spec (size (att_buttons t)) 32); auto with attention.
    apply att_ok_position, att_ok_interaction, att_ok_buttons; [|done].
    pose proof (size_union_alt {[b]} (att_buttons t)) as Hu.
    assert (size (att_buttons t ∖ {[b]}) <= size (att_buttons t))%nat by (apply subseteq_size; set_solver).
    rewrite size_singleton in Hu. lia.
  - apply att_ok_buttons; [|done]. destruct H as (Hb & _).
    assert (size (att_buttons t ∖ {[b]}) <= size (att_buttons t))%nat by (apply subseteq_size; set_solver).
    lia.
  - destruct (_ && _); auto with attention.
  - destruct (gesture_active g); auto with attention.
  - destruct (_ || _); auto with attention.
  - destruct ev; auto with attention.
Qed.

Lemma group_step_cases (a : Activity) s e' :
  focus_ok a -> mapped_flag e' = true \/ focus a <> Some s ->
  focus_ok (MkActivity (<[s := e']> (surfaces a)) (focus a)).
Proof.
  intros Hf He f Hfoc. cbn in *. destruct (decide (f = s)) as [->|Hne].
  - rewrite lookup_insert_eq. exists e'. split; [done|]. by destruct He.
  - rewrite lookup_insert_ne by done. by apply Hf.
Qed.

(** Clearing focus or attention preserves the invariant and leaves mapped flags and
    registration alone. *)
Lemma reset_group_motion_ok now g a : Activity_ok now a -> Activity_ok now (reset_group_motion g a).
Proof.
  destruct g as [g|]; [|done]. intros [Hf Ha]. split.
  - intros s Hs. destruct (Hf _ Hs) as (e & He & Hm). cbn. rewrite update_attention_lookup, He. cbn.
    eexists. split; [done|]. by destruct (bool_decide _).
  - cbn. intros s e. rewrite update_attention_lookup. destruct (surfaces a !! s) as [e0|] eqn:He; [|done].
    cbn. intros [= <-]. specialize (Ha _ _ He). destruct (bool_decide _); cbn; auto with attention.
Qed.

Lemma focus_reset_group_motion g a : focus (reset_group_motion g a) = focus a.
Proof. by destruct g. Qed.

Lemma clear_focus_ok now a : Activity_ok now a -> Activity_ok now (clear_focus a).
Proof. intros [Hf Ha]. apply reset_group_motion_ok. split; [by intros s|done]. Qed.

Lemma focus_clear_focus a : focus (clear_focus a) = None.
Proof. unfold clear_focus. by rewrite focus_reset_group_motion. Qed.

Lemma clear_surface_attention_ok now s a :
  Activity_ok now a ->
  Activity_ok now (clear_surface_attention s a) /\ focus (clear_surface_attention s a) <> Some s.
Proof.
  intros Hok. unfold clear_surface_attention.
  set (c := if _ : bool then _ else a).
  assert (Hc : Activity_ok now c /\ focus c <> Some s).
  { subst c. case_bool_decide as Hfs; cbn; [|destruct (is_some_and _ _)].
    - split; [by apply clear_focus_ok|]. by rewrite focus_clear_focus.
    - split; [by apply clear_focus_ok|]. by rewrite focus_clear_focus.
    - by split. }
  clearbody c. destruct Hc as [[Hf Ha] Hne]. split; [|done]. split.
  - intros f Hfoc. destruct (Hf _ Hfoc) as (e & He & Hm). cbn. rewrite update_attention_lookup, He. cbn.
    eexists. split; [done|]. by destruct (_ || _).
  - cbn. intros f e. rewrite update_attention_lookup. destruct (surfaces c !! f) as [e0|] eqn:He; [|done].
    cbn. intros [= <-]. specialize (Ha _ _ He). destruct (_ || _); cbn; auto with attention.
Qed.

Lemma remove_ok now s a : Activity_ok now a -> Activity_ok now (remove s a).
Proof.
  intros H. destruct (clear_surface_attention_ok now s a H) as [[Hf Ha] Hne]. split; cbn.
  - intros f Hfoc. destruct (Hf _ Hfoc) as (e & He & Hm). exists e.
    split; [|done]. cbn. rewrite lookup_delete_ne; [done|]. intros <-. by apply Hne.
  - by apply map_Forall_delete.
Qed.

Lemma insert_ok now s e a :
  Activity_ok now a -> att_ok now (attention e) -> mapped_flag e = true \/ focus a <> Some s ->
  Activity_ok now (MkActivity (<[s := e]> (surfaces a)) (focus a)).
Proof.
  intros [Hf Ha] He Hm. split; [by apply group_step_cases|]. cbn. by apply map_Forall_insert_2.
Qed.

Lemma authorized_Some session s a e :
  authorized session s a = Some e ->
  surfaces a !! s = Some e /\ surface_session e = session /\ mapped_flag e = true.
Proof.
  unfold authorized. destruct (surfaces a !! s) as [e0|]; [|done].
  case_bool_decide; [|done]. cbn. destruct (mapped_flag e0) eqn:?; [|done]. by intros [= <-].
Qed.

Lemma observe_focus_ok now session f a : Activity_ok now a -> Activity_ok now (observe_focus session f a).
Proof.
  intros H. unfold observe_focus. case_bool_decide; [|done].
  set (next := f ≫= _). set (b := reset_group_motion _ _).
  assert (Hb : Activity_ok now b) by (by apply reset_group_motion_ok, clear_focus_ok).
  destruct Hb as [_ Ha]. split; [|done]. intros s Hs. cbn in *.
  assert (is_Some (authorized session s a)) as [e He].
  { unfold next in Hs. destruct f as [f|]; [|done]. cbn in Hs. case_bool_decide; [|done]. by simplify_eq. }
  apply authorized_Some in He as (He & _ & Hm).
  assert (forall (a : Activity) g s e, surfaces a !! s = Some e -> mapped_flag e = true ->
    exists e', surfaces (reset_group_motion g a) !! s = Some e' /\ mapped_flag e' = true) as Hkeep.
  { clear. intros a g s e He Hm. destruct g as [g|]; [|eauto]. cbn. rewrite update_attention_lookup, He. cbn.
    eexists. split; [done|]. by destruct (bool_decide _). }
  unfold b, clear_focus.
  destruct (Hkeep (MkActivity (surfaces a) None) (focus a ≫= group a) s e He Hm) as (e1 & He1 & Hm1).
  by eapply Hkeep.
Qed.

Lemma activity_step_ok c c' : activity_step c c' -> Activity_ok c.1 c.2 -> Activity_ok c'.1 c'.2.
Proof.
  intros Hstep H. destruct Hstep; cbn in *.
  - destruct H as [Hf Ha]. split; [done|]. eapply map_Forall_impl; [done|]. cbn. eauto using att_ok_later.
  - unfold register. destruct (is_some_and _ _); [done|].
    pose proof (clear_surface_attention_ok now s a H) as [_ Hne].
    apply insert_ok; [by apply remove_ok|cbn; auto with attention|by right].
  - unfold role. destruct (surfaces a !! s) as [e|] eqn:He; [|done]. case_bool_decide; [|done].
    apply insert_ok; [done|cbn; auto with attention|]. cbn.
    destruct (decide (focus a = Some s)) as [Hfs|]; [|by right]. left.
    destruct H as [Hf _]. destruct (Hf _ Hfs) as (e' & He' & Hm). by simplify_eq.
  - unfold set_bitrate_preference. destruct (surfaces a !! s) as [e|] eqn:He; [|done].
    case_bool_decide; [|done]. case_bool_decide; [done|]. cbn.
    apply insert_ok; [done|by apply H in He|]. cbn.
    destruct (decide (focus a = Some s)) as [Hfs|]; [|by right]. left.
    destruct H as [Hf _]. destruct (Hf _ Hfs) as (e' & He' & Hm). by simplify_eq.
  - assert (Hc : Activity_ok now (if flag then a else clear_surface_attention s a) /\
      (flag = true \/ focus (if flag then a else clear_surface_attention s a) <> Some s)).
    { destruct flag; [by auto|]. destruct (clear_surface_attention_ok now s a H). by auto. }
    unfold mapped. revert Hc. generalize (if flag then a else clear_surface_attention s a).
    intros b [[Hf Ha] Hor]. split.
    + intros f Hfoc. cbn in *. destruct (Hf _ Hfoc) as (e & He & Hm).
      destruct (decide (f = s)) as [->|Hne].
      * rewrite lookup_alter_eq, He. cbn. eexists. split; [done|]. cbn. by destruct Hor.
      * rewrite lookup_alter_ne by done. eauto.
    + cbn. intros f e. rewrite lookup_alter. case_decide; [subst|apply Ha].
      destruct (surfaces b !! f) as [e0|] eqn:He; [|done]. cbn. intros [= <-]. by apply Ha in He.
  - by apply remove_ok.
  - destruct m as [[r|f|]|input| | | |]; cbn; try done.
    + destruct (request_kind r); try done. unfold observe_configure.
      destruct (authorized _ _ _) as [e|] eqn:He; [|done]. apply authorized_Some in He as (He & _ & Hm).
      apply insert_ok; [done| |by left]. pose proof (proj2 H _ _ He) as Hatt. cbn in *.
      destruct (_ && _); auto with attention.
    + by apply observe_focus_ok.
    + by apply clear_focus_ok.
    + unfold observe_input. destruct (authorized _ _ _) as [e|] eqn:He; [|done].
      apply authorized_Some in He as (He & _ & Hm). apply insert_ok; [done| |by left].
      pose proof (proj2 H _ _ He) as Hatt. cbn in *. by apply att_ok_event, att_ok_enter_layer.
Qed.

Lemma Activity_default_ok now : Activity_ok now Activity_default.
Proof. split; [by intros s|apply map_Forall_empty]. Qed.

(** ** What a snapshot says *)
Lemma opt_max_fold l o j :
  fold_left opt_max l o = Some j ->
  (o = Some j \/ Some j ∈ l) /\ (forall i, o = Some i \/ Some i ∈ l -> i <= j).
Proof.
  revert o. induction l as [|x l IH]; cbn; intros o Hj.
  - subst. split; [by left|]. intros i [[= ->]|Hi%not_elem_of_nil]; [lia|done].
  - destruct (IH _ Hj) as [Hat Hub]. split.
    + destruct Hat as [Hm|Hin]; [|right; set_solver].
      destruct o as [a|], x as [b|]; cbn in Hm; simplify_eq; [|by left|right; set_solver].
      destruct (Z.max_spec a b) as [[_ ->]|[_ ->]]; [right; set_solver|by left].
    + intros i Hi. destruct Hi as [->|[<-|Hi]%elem_of_cons]; [| |apply Hub; by right].
      * destruct x as [b|]; cbn in Hub; [|apply Hub; by left].
        specialize (Hub (Z.max i b) (or_introl eq_refl)). lia.
      * destruct o as [b|]; cbn in Hub; [|apply Hub; by left].
        specialize (Hub (Z.max b i) (or_introl eq_refl)). lia.
Qed.

Lemma opt_max_fold_none l o : fold_left opt_max l o = None -> o = None /\ forall i, Some i ∉ l.
Proof.
  revert o. induction l as [|x l IH]; cbn; intros o Hn.
  - split; [done|]. intros i. apply not_elem_of_nil.
  - destruct (IH _ Hn) as [Hm Hl]. destruct o, x; cbn in Hm; try done. split; [done|].
    intros i [?|Hi]%elem_of_cons; [done|by apply (Hl i)].
Qed.

Section SnapshotFold.
Context (policy : SchedulingPolicy) (fg : option Group) (G : gmap ClientSurfaceId Group).

Definition member (g : Group) (p : ClientSurfaceId * SurfaceEntry) : Prop :=
  G !! p.1 = Some g /\ mapped_flag p.2 = true.
#[export] Instance member_dec g p : Decision (member g p).
Proof. unfold member. apply _. Defined.
Definition absorb_all (g : Group) (l : list (ClientSurfaceId * SurfaceEntry)) (s : GroupAttention) :=
  fold_left (fun s p => absorb policy (bool_decide (fg = Some g)) (attention p.2) s) l s.

Lemma snapshot_fold g l acc :
  fold_left (snapshot_step policy fg G) l acc !! g =
  match filter (member g) l with
  | [] => acc !! g
  | ms => Some (absorb_all g ms (default GroupAttention_default (acc !! g)))
  end.
Proof.
  revert acc. induction l as [|p l IH]; intros acc; [done|]. cbn [fold_left]. rewrite IH.
  rewrite filter_cons. unfold snapshot_step at 1 2.
  destruct (decide (member g p)) as [[Hg Hm]|Hno].
  - rewrite Hg, Hm, lookup_insert_eq. cbn. destruct (filter _ l); [done|]. done.
  - assert (match G !! p.1 with
      | Some g0 => if mapped_flag p.2 then
          <[g0:=absorb policy (bool_decide (fg = Some g0)) (attention p.2)
                 (default GroupAttention_default (acc !! g0))]> acc else acc
      | None => acc end !! g = acc !! g) as ->; [|done].
    destruct (G !! p.1) as [g0|] eqn:Hg; [|done]. destruct (mapped_flag p.2) eqn:Hm; [|done].
    apply lookup_insert_ne. intros ->. by apply Hno.
Qed.

Lemma absorb_all_focused g l s :
  focused (absorb_all g l s) =
  (focused s || (negb (Nat.eqb (length l) 0) && bool_decide (fg = Some g))).
Proof.
  unfold absorb_all. revert s. induction l as [|p l IH]; intros s; cbn [fold_left length].
  - by rewrite orb_false_r.
  - rewrite IH. cbn [absorb focused].
    destruct (focused s), (bool_decide (fg = Some g)), l; done.
Qed.

Lemma absorb_all_interaction g l s :
  interaction (absorb_all g l s) =
  fold_left opt_max ((fun p => att_interaction (attention p.2)) <$> l) (interaction s).
Proof. unfold absorb_all. revert s. induction l as [|p l IH]; intros s; cbn; [done|]. by rewrite IH. Qed.

Lemma absorb_all_quality g l s :
  quality_motion (absorb_all g l s) =
  fold_left opt_max ((fun p => att_quality_motion (attention p.2)) <$> l) (quality_motion s).
Proof. unfold absorb_all. revert s. induction l as [|p l IH]; intros s; cbn; [done|]. by rewrite IH. Qed.
End SnapshotFold.

(** [s] is a mapped surface of group [g]. *)
Definition mapped_member (a : Activity) (g : Group) (s : ClientSurfaceId) (e : SurfaceEntry) : Prop :=
  surfaces a !! s = Some e /\ mapped_flag e = true /\ group a s = Some g.

Lemma snapshot_groups_lookup policy a s : snapshot_groups (snapshot policy a) !! s = group a s.
Proof.
  cbn. rewrite map_lookup_imap. unfold group. by destruct (surfaces a !! s).
Qed.

Lemma snapshot_attention_lookup policy a g :
  let ms := filter (member (snapshot_groups (snapshot policy a)) g) (map_to_list (surfaces a)) in
  (forall s e, (s, e) ∈ ms <-> mapped_member a g s e) /\
  snapshot_attention (snapshot policy a) !! g =
    match ms with
    | [] => None
    | _ => Some (absorb_all policy (focus a ≫= group a) g ms GroupAttention_default)
    end.
Proof.
  intros ms. split.
  - intros s e. unfold ms. rewrite list_elem_of_filter, elem_of_map_to_list. unfold member, mapped_member. cbn [fst snd].
    rewrite snapshot_groups_lookup. tauto.
  - unfold snapshot. cbn [snapshot_attention]. rewrite snapshot_fold, lookup_empty. cbn [default from_option].
    replace (focus a ≫= (fun s => map_imap (fun s _ => group a s) (surfaces a) !! s)) with (focus a ≫= group a).
    { by destruct (filter _ _). }
    destruct (focus a) as [f|]; [|done]. cbn. symmetry. apply (snapshot_groups_lookup policy a f).
Qed.

(** Writing an entry back with the same session and owner moves no surface to another
    group. *)
Lemma group_insert a s e e' :
  surfaces a !! s = Some e -> surface_session e' = surface_session e -> owner e' = owner e ->
  forall x, group (MkActivity (<[s := e']> (surfaces a)) (focus a)) x = group a x.
Proof.
  intros He Hs Ho x. unfold group. cbn [surfaces].
  assert (Hl : forall n ses fb r,
    group_loop n (<[s:=e']> (surfaces a)) ses fb r = group_loop n (surfaces a) ses fb r).
  { induction n as [|n IH]; intros ses fb r; cbn; [done|]. rewrite lookup_insert. case_decide as Hr.
    - subst r. rewrite He, Hs, Ho. case_bool_decide; [done|]. by destruct (owner e).
    - destruct (surfaces a !! r) as [c|]; [|done]. case_bool_decide; [done|]. by destruct (owner c). }
  rewrite map_size_insert_Some by eauto.
  rewrite lookup_insert. case_decide as Hx; [subst x; rewrite He, Hs; by rewrite Hl|].
  destruct (surfaces a !! x); [by rewrite Hl|done].
Qed.

(** The latest value of [f] over the mapped members of a group. *)
Definition latest (a : Activity) (g : Group) (f : Attention -> option instant) (o : option instant) : Prop :=
  match o with
  | Some i => (exists s e, mapped_member a g s e /\ f (attention e) = Some i) /\
              forall s e i', mapped_member a g s e -> f (attention e) = Some i' -> i' <= i
  | None => forall s e, mapped_member a g s e -> f (attention e) = None
  end.

Lemma latest_fold a g f (ms : list (ClientSurfaceId * SurfaceEntry)) :
  (forall s e, (s, e) ∈ ms <-> mapped_member a g s e) ->
  latest a g f (fold_left opt_max ((fun p => f (attention p.2)) <$> ms) None).
Proof.
  intros Hms. destruct (fold_left _ _ _) as [i|] eqn:Hf; cbn.
  - apply opt_max_fold in Hf as [[?|Hin] Hub]; [done|]. split.
    + apply list_elem_of_fmap in Hin as ([s e] & Hi & Hin). exists s, e. by rewrite <-Hms.
    + intros s e i' Hm%Hms Hi. apply Hub. right. apply list_elem_of_fmap. by exists (s, e).
  - apply opt_max_fold_none in Hf as [_ Hno]. intros s e Hm%Hms.
    destruct (f (attention e)) as [i|] eqn:Hi; [|done]. destruct (Hno i).
    apply list_elem_of_fmap. by exists (s, e).
Qed.

Lemma snapshot_latest policy a g :
  (is_Some (snapshot_attention (snapshot policy a) !! g) <-> exists s e, mapped_member a g s e) /\
  forall summary, snapshot_attention (snapshot policy a) !! g = Some summary ->
    focused summary = bool_decide ((focus a ≫= group a) = Some g) /\
    latest a g att_interaction (interaction summary) /\
    latest a g att_quality_motion (quality_motion summary).
Proof.
  destruct (snapshot_attention_lookup policy a g) as [Hms Hsnap]. cbn zeta in Hms, Hsnap.
  revert Hms Hsnap. generalize (filter (member (snapshot_groups (snapshot policy a)) g)
    (map_to_list (surfaces a))). intros ms Hms ->.
  split.
  - destruct ms as [|[s e] ms].
    + split; [intros [? ?]; done|]. intros (s & e & Hm%Hms). by apply not_elem_of_nil in Hm.
    + split; [|eauto]. intros _. exists s, e. apply Hms. set_solver.
  - intros summary Hs.
    assert (summary = absorb_all policy (focus a ≫= group a) g ms GroupAttention_default /\ length ms <> 0%nat)
      as [-> Hlen] by (destruct ms; [done|by injection Hs as <-]).
    rewrite absorb_all_focused, absorb_all_interaction, absorb_all_quality. cbn.
    split; [|by split; apply latest_fold].
    destruct (Nat.eqb_spec (length ms) 0); [done|]. done.
Qed.

Lemma Interactive_recent a now' i ig mg :
  interaction a = Some i -> now' - i < ig -> 0 < ig -> priority a now' ig mg = Interactive.
Proof.
  intros Hi Hlt Hpos. unfold priority. rewrite Hi. cbn.
  destruct (Z.ltb_spec (since now' i) ig) as [|Hge]; [done|]. unfold since in Hge. lia.
Qed.

Lemma observe_input_lookup session input now policy a e :
  authorized session (target_surface (target input)) a = Some e ->
  exists f, observe session (Input input) now policy a =
    MkActivity (<[target_surface (target input) :=
      set_attention (observe_event policy now f (event input) (enter_layer (target input) (attention e))) e]>
      (surfaces a)) (focus a).
Proof. intros He. cbn. unfold observe_input. rewrite He. eauto. Qed.

(** ** Properties *)

(** [group] returns a group exactly for registered surfaces. The
    group carries the surface's session; its root is the end of the popup ownership
    path inside the session when that path ends, and the surface itself when ownership
    is broken, leaves the session or is cyclic. *)
Theorem group_spec (a : Activity) (s : ClientSurfaceId) (g : Group) :
  group a s = Some g <->
  exists e, surfaces a !! s = Some e /\ group_session g = surface_session e /\
    (owner_path (surfaces a) (surface_session e) s (root g) \/
     root g = s /\ forall r, ~ owner_path (surfaces a) (surface_session e) s r).
Proof.
  split; [apply group_cases|]. intros (e & He & Hs & Hor).
  destruct g as [ses r]; cbn in *; subst ses. destruct Hor as [Hp|[-> Hno]].
  - by apply group_path.
  - by apply group_no_path.
Qed.

(** Whatever sequence of registrations, role and preference
    changes, mappings, removals and destination records the tracker sees under an
    advancing clock, the focused surface is registered and mapped, all timestamps lie
    in the past, a motion sequence has both ends in order, and at most 32 buttons are
    remembered per surface. *)
Theorem activity_invariant (start now : instant) (a : Activity) :
  rtc activity_step (start, Activity_default) (now, a) -> Activity_ok now a.
Proof.
  intros H. change (Activity_ok (now, a).1 (now, a).2).
  assert (Activity_ok (start, Activity_default).1 (start, Activity_default).2) as H0
    by apply Activity_default_ok.
  revert H0. induction H; [done|]. eauto using activity_step_ok.
Qed.

(** A snapshot maps every registered surface to its group and
    has a summary exactly for the groups with a mapped member. The summary is focused
    exactly for the group of the focused surface, and its interaction and quality
    motion are the latest ones among the mapped members, whatever order the hash map
    is visited in. *)
Theorem snapshot_spec (policy : SchedulingPolicy) (a : Activity) :
  (forall s, snapshot_groups (snapshot policy a) !! s = group a s) /\
  forall g,
    (is_Some (snapshot_attention (snapshot policy a) !! g) <-> exists s e, mapped_member a g s e) /\
    forall summary, snapshot_attention (snapshot policy a) !! g = Some summary ->
      focused summary = bool_decide ((focus a ≫= group a) = Some g) /\
      latest a g att_interaction (interaction summary) /\
      latest a g att_quality_motion (quality_motion summary).
Proof. split; [apply snapshot_groups_lookup|apply snapshot_latest]. Qed.

(** An input record touches at most the entry of the surface
    it targets, and that only when the surface is mapped and registered in the record's
    session: focus, every other entry, and all group memberships stay as they are. *)
Theorem input_frame (session : HoistSessionId) (input : InputRecord) (now : instant)
    (policy : SchedulingPolicy) (a : Activity) :
  let a' := observe session (Input input) now policy a in
  focus a' = focus a /\
  (forall s, s <> target_surface (target input) -> surfaces a' !! s = surfaces a !! s) /\
  (forall s, group a' s = group a s) /\
  (authorized session (target_surface (target input)) a = None -> a' = a).
Proof.
  intros a'. destruct (authorized session (target_surface (target input)) a) as [e|] eqn:He.
  - destruct (observe_input_lookup session input now policy a e He) as [f Hf]. unfold a'. rewrite Hf.
    apply authorized_Some in He as (He & _). split_and!; [done| | |done].
    + intros s Hs. by apply lookup_insert_ne.
    + by apply group_insert with e.
  - unfold a'. cbn. unfold observe_input. by rewrite He.
Qed.

(** Committed text on a mapped surface of its session
    makes the surface's whole group interactive, and it stays so until the grace
    interval has passed. *)
Theorem text_makes_interactive (policy : SchedulingPolicy) (session : HoistSessionId) (input : InputRecord)
    (text : string) (e : SurfaceEntry) (g : Group) (now later : instant) (a : Activity) :
  event input = Text text ->
  authorized session (target_surface (target input)) a = Some e ->
  group a (target_surface (target input)) = Some g ->
  now <= later < now + interaction_grace policy ->
  exists summary,
    snapshot_attention (snapshot policy (observe session (Input input) now policy a)) !! g = Some summary /\
    priority summary later (interaction_grace policy) (motion_grace policy) = Interactive.
Proof.
  intros Hev He Hg Hlater. destruct (observe_input_lookup session input now policy a e He) as [f ->].
  apply authorized_Some in He as (He & _ & Hm). rewrite Hev. cbn [observe_event].
  set (s := target_surface (target input)) in *. set (t := set_interaction now _).
  set (a' := MkActivity _ _).
  assert (Hmem : mapped_member a' g s (set_attention t e)).
  { split_and!; [apply lookup_insert_eq|done|]. unfold a'. by rewrite (group_insert a s e) by done. }
  destruct (snapshot_latest policy a' g) as [[_ Hdom] Hsum].
  destruct Hdom as [summary Hs]; [eauto|]. exists summary. split; [done|].
  destruct (Hsum _ Hs) as (_ & Hlat & _). destruct (interaction summary) as [i|] eqn:Hi.
  - destruct Hlat as [_ Hub]. specialize (Hub _ _ now Hmem eq_refl).
    eapply Interactive_recent; [done|lia|lia].
  - by specialize (Hlat _ _ Hmem).
Qed.

(** ** Concrete inputs *)
Definition sample_session : HoistSessionId := MkHoistSessionId 7.
Definition sample_popup : ClientSurfaceRole :=
  Popup (MkPopupState (ClientSurfaceId_for_test 1) (MkLogicalPoint (S754_zero false) (S754_zero false)) 0).
(** A mapped window with a mapped popup. *)
Definition sample_activity : Activity :=
  mapped (ClientSurfaceId_for_test 2) true
    (role (ClientSurfaceId_for_test 2) sample_popup
      (register sample_session (ClientSurfaceId_for_test 2)
        (mapped (ClientSurfaceId_for_test 1) true
          (register sample_session (ClientSurfaceId_for_test 1) Activity_default)))).
Definition sample_text : InputRecord :=
  MkInput (KeyboardTarget (ClientSurfaceId_for_test 2)) (Text "a") 0.

Lemma activity_invariant_witness : Activity_ok 5 (register sample_session (ClientSurfaceId_for_test 1) Activity_default).
Proof.
  apply (activity_invariant 0 5). eapply rtc_l; [apply (step_tick 0 5); lia|].
  apply rtc_once, step_register.
Defined.

Lemma text_makes_interactive_witness :
  exists summary,
    snapshot_attention (snapshot SchedulingPolicy_default
      (observe sample_session (Input sample_text) 1000 SchedulingPolicy_default sample_activity))
      !! MkGroup sample_session (ClientSurfaceId_for_test 1) = Some summary /\
    priority summary 2000 (interaction_grace SchedulingPolicy_default)
      (motion_grace SchedulingPolicy_default) = Interactive.
Proof.
  assert (authorized sample_session (ClientSurfaceId_for_test 2) sample_activity =
    Some (MkSurface sample_session (Some (ClientSurfaceId_for_test 1)) true Attention_default None)) as Hauth
    by (vm_compute; reflexivity).
  eapply (text_makes_interactive SchedulingPolicy_default sample_session sample_text "a" _ _ 1000 2000
    sample_activity).
  - reflexivity.
  - exact Hauth.
  - vm_compute. reflexivity.
  - vm_compute. split; congruence.
Defined.
