(* ===== verification/Attention.v ===== *)
(** * Quality priority ([weld-hoist-encoded/src/budget/attention.rs])

    Bitrate follows attention more slowly than scheduling does: an interaction keeps
    its priority through a hold, and a focus change without interaction has to settle
    first. *)

From S2P Require Import Prelude OrdMap Ids Surface Input Activity.

(** ** Policy *)
Record BitrateAllocationPolicy := MkAllocationPolicy {
  weights : Z * Z * Z * Z;
  role_weights : Z * Z * Z;
  interaction_hold : duration;
  focus_settle : duration;
}.
Definition BitrateAllocationPolicy_default : BitrateAllocationPolicy :=
  MkAllocationPolicy (1, 2, 2, 12) (4, 2, 1) (from_secs 10) (from_millis 500).

(** [BitrateAllocationPolicy::role_weight] *)
Definition role_weight (p : BitrateAllocationPolicy) (r : PresentationRole) : Z :=
  match r with
  | Primary => (role_weights p).1.1
  | Companion => (role_weights p).1.2
  | Utility => (role_weights p).2
  end.

Definition weight_list (p : BitrateAllocationPolicy) : list Z :=
  [(weights p).1.1.1; (weights p).1.1.2; (weights p).1.2; (weights p).2;
   (role_weights p).1.1; (role_weights p).1.2; (role_weights p).2].

(** [BitrateAllocationPolicy::validate] *)
Definition validate_policy (p : BitrateAllocationPolicy) : outcome unit :=
  _ ← ensure (forallb (fun weight => 0 <? weight) (weight_list p))
        "bitrate priority weights must be positive";
  try_fold (fun _ hold =>
    ensure (negb (hold =? 0) && (hold <=? from_secs 60))
      "bitrate priority holds must be positive and at most 60 seconds")
    tt [interaction_hold p; focus_settle p].

(** [BitrateAllocationPolicy::priority] *)
Definition quality_priority (p : BitrateAllocationPolicy) (a : GroupAttention) (settled_focus : bool)
    (now : instant) : Priority :=
  let a := MkGroupAttention settled_focus (interaction a) (quality_motion a) (motion a) (quality_motion a) in
  let priority := Activity.priority a now (interaction_hold p) (interaction_hold p) in
  if bool_decide (priority = Moving) && negb settled_focus then Background else priority.

(** ** Focus handover *)
Record QualityFocus := MkQualityFocus {
  settled : option Group;
  candidate : option (Group * instant);
}.
Definition QualityFocus_default : QualityFocus := MkQualityFocus None None.

(** [QualityFocus::advance] *)
Definition advance (now : instant) (settle : duration) (q : QualityFocus) : QualityFocus :=
  match candidate q with
  | Some (group, since_) => if settle <=? since now since_ then MkQualityFocus (Some group) None else q
  | None => q
  end.

(** [attention.iter().find(|(_, value)| value.focused)], in the order [order] the hash
    map is visited in. *)
Fixpoint find_focused (order : list (Group * GroupAttention)) : option (Group * GroupAttention) :=
  match order with
  | [] => None
  | (group, value) :: order => if focused value then Some (group, value) else find_focused order
  end.

(** [QualityFocus::observe] *)
Definition observe_quality (attention : gmap Group GroupAttention) (now : instant)
    (policy : BitrateAllocationPolicy) (q : QualityFocus) : QualityFocus :=
  let settled :=
    match settled q with
    | Some group => if bool_decide (is_Some (attention !! group)) then Some group else None
    | None => None
    end in
  match find_focused (map_to_list attention) with
  | None => MkQualityFocus None None
  | Some (group, value) =>
      let q :=
        if bool_decide (settled = Some group) then MkQualityFocus settled None
        else if bool_decide (quality_priority policy value false now = Interactive)
        then MkQualityFocus (Some group) None
        else if is_none_or (candidate q) (fun candidate => bool_decide (candidate.1 <> group))
        then MkQualityFocus settled (Some (group, now))
        else MkQualityFocus settled (candidate q) in
      advance now (focus_settle policy) q
  end.

(** ** The visiting order does not matter *)

(** At most one group is focused, as in every snapshot of the tracker. *)
Definition one_focused (attention : gmap Group GroupAttention) : Prop :=
  forall g g' a a', attention !! g = Some a -> attention !! g' = Some a' ->
    focused a = true -> focused a' = true -> g = g'.

Lemma find_focused_Some l g a : find_focused l = Some (g, a) -> (g, a) ∈ l /\ focused a = true.
Proof.
  induction l as [|[h b] l IH]; cbn; [done|]. destruct (focused b) eqn:Hb.
  - intros [= <- <-]. split; [set_solver|done].
  - intros [Hin ?]%IH. split; [set_solver|done].
Qed.

Lemma find_focused_None l g a : find_focused l = None -> (g, a) ∈ l -> focused a = false.
Proof.
  induction l as [|[h b] l IH]; cbn; [by intros _ ?%not_elem_of_nil|].
  destruct (focused b) eqn:Hb; [done|]. intros Hn [[= -> ->]|Hin]%elem_of_cons; [done|eauto].
Qed.

Lemma find_focused_perm attention order :
  one_focused attention -> order ≡ₚ map_to_list attention ->
  find_focused order = find_focused (map_to_list attention).
Proof.
  intros Hone Hp.
  destruct (find_focused order) as [[g a]|] eqn:Ho;
    destruct (find_focused (map_to_list attention)) as [[g' a']|] eqn:Hm; [| | |done].
  - apply find_focused_Some in Ho as [Ho Hfa], Hm as [Hm Hfa'].
    rewrite Hp, elem_of_map_to_list in Ho. apply elem_of_map_to_list in Hm.
    pose proof (Hone _ _ _ _ Ho Hm Hfa Hfa') as ->. congruence.
  - apply find_focused_Some in Ho as [Ho Hfa]. rewrite Hp in Ho.
    pose proof (find_focused_None _ _ _ Hm Ho). congruence.
  - apply find_focused_Some in Hm as [Hm Hfa]. rewrite <-Hp in Hm.
    pose proof (find_focused_None _ _ _ Ho Hm). congruence.
Qed.

Lemma snapshot_one_focused policy a : one_focused (snapshot_attention (snapshot policy a)).
Proof.
  intros g g' s s' Hg Hg' Hf Hf'.
  destruct (snapshot_latest policy a g) as [_ H]. destruct (H _ Hg) as (Hs & _).
  destruct (snapshot_latest policy a g') as [_ H']. destruct (H' _ Hg') as (Hs' & _).
  rewrite Hf in Hs. rewrite Hf' in Hs'. symmetry in Hs, Hs'.
  apply bool_decide_eq_true in Hs, Hs'. congruence.
Qed.

(** ** Histories of observations *)

(** A port's focus together with the log of what the observations found focused,
    newest first. *)
Record focus_run := MkFocusRun {
  run_focus : QualityFocus;
  run_now : instant;
  run_log : list (instant * option Group);
}.

(** Time passes, the budget advances the handover, or attention is observed. *)
Inductive focus_step (policy : BitrateAllocationPolicy) : focus_run -> focus_run -> Prop :=
  | focus_tick q now now' log :
      now <= now' -> focus_step policy (MkFocusRun q now log) (MkFocusRun q now' log)
  | focus_advance q now log :
      focus_step policy (MkFocusRun q now log)
        (MkFocusRun (advance now (focus_settle policy) q) now log)
  | focus_observe q now log attention :
      focus_step policy (MkFocusRun q now log)
        (MkFocusRun (observe_quality attention now policy q) now
           ((now, fst <$> find_focused (map_to_list attention)) :: log)).

(** Every observation since [start] found [g] focused, and there was one at [start]. *)
Inductive held (g : Group) (start : instant) : list (instant * option Group) -> Prop :=
  | held_start log : held g start ((start, Some g) :: log)
  | held_more t log : held g start log -> held g start ((t, Some g) :: log).

Definition focus_run_ok (c : focus_run) : Prop :=
  match candidate (run_focus c) with
  | Some (g, start) => held g start (run_log c) /\ start <= run_now c
  | None => True
  end.

Lemma advance_candidate now settle q g start :
  candidate (advance now settle q) = Some (g, start) ->
  advance now settle q = q /\ since now start < settle.
Proof.
  unfold advance. destruct (candidate q) as [[h t]|] eqn:Hc; [|congruence].
  destruct (Z.leb_spec settle (since now t)) as [?|Hlt]; [done|]. rewrite Hc.
  intros [= <- <-]. done.
Qed.

Lemma focus_step_ok policy c c' : focus_step policy c c' -> focus_run_ok c -> focus_run_ok c'.
Proof.
  intros Hstep H. unfold focus_run_ok in *. destruct Hstep as [q now now' log ?|q now log|q now log att]; cbn in *.
  - destruct (candidate q) as [[g t]|]; [|done]. destruct H. split; [done|lia].
  - destruct (candidate (advance _ _ q)) as [[g t]|] eqn:Hc; [|done].
    apply advance_candidate in Hc as Hq. destruct Hq as [Hq _]. rewrite Hq in Hc. by rewrite Hc in H.
  - unfold observe_quality. destruct (find_focused (map_to_list att)) as [[g v]|]; [|done]. cbn.
    set (q' := if bool_decide _ then _ else _).
    destruct (candidate (advance _ _ q')) as [[h t]|] eqn:Hc; [|done].
    apply advance_candidate in Hc as Hq. destruct Hq as [Hq _]. rewrite Hq in Hc.
    revert Hc. unfold q'.
    case_bool_decide; [done|]. case_bool_decide; [done|]. cbn.
    destruct (candidate q) as [[g0 t0]|]; cbn.
    + case_bool_decide as Hne; cbn; intros [= <- <-].
      * split; [constructor|lia].
      * destruct H as [Hh ?]. destruct (decide (g0 = g)) as [->|]; [|tauto]. split; [by constructor|done].
    + intros [= <- <-]. split; [constructor|lia].
Qed.

Lemma advance_settles now settle q g :
  settled (advance now settle q) = Some g -> settled q <> Some g ->
  exists start, candidate q = Some (g, start) /\ settle <= since now start.
Proof.
  unfold advance. destruct (candidate q) as [[h t]|]; [|done].
  destruct (Z.leb_spec settle (since now t)); [|done]. intros [= <-]. eauto.
Qed.

(** An observation that newly settles a group found it interactive, or completed its
    waiting time. *)
Lemma observe_settles attention now policy q g :
  settled (observe_quality attention now policy q) = Some g -> settled q <> Some g ->
  (exists v, attention !! g = Some v /\ focused v = true /\
     quality_priority policy v false now = Interactive /\
     fst <$> find_focused (map_to_list attention) = Some g) \/
  exists start, focus_settle policy <= since now start /\
    fst <$> find_focused (map_to_list attention) = Some g /\
    (candidate q = Some (g, start) \/ start = now).
Proof.
  unfold observe_quality. destruct (find_focused (map_to_list attention)) as [[h v]|] eqn:Hf; [|done]. cbn.
  apply find_focused_Some in Hf as [Hin%elem_of_map_to_list Hfoc].
  set (s := match settled q with Some _ => _ | None => _ end).
  assert (Hs : s = Some g -> settled q = Some g).
  { unfold s. destruct (settled q); [|done]. by case_bool_decide. }
  intros Hset Hnew. assert (s <> Some g) as Hsg by tauto. clearbody s.
  case_bool_decide as Hsh.
  { unfold advance in Hset. cbn in Hset. congruence. }
  case_bool_decide as Hint.
  { unfold advance in Hset. cbn in Hset. injection Hset as ->. left. eauto. }
  apply advance_settles in Hset as (start & Hc & Hle); [|by destruct (is_none_or _ _)].
  right. exists start. split; [done|]. destruct (candidate q) as [[g0 t0]|]; cbn in Hc.
  - case_bool_decide as Hne; cbn in Hc; injection Hc as -> ->.
    + auto.
    + cbn in Hne. destruct (decide (g = h)) as [->|]; [auto|tauto].
  - injection Hc as -> ->. auto.
Qed.

Lemma focus_run_reachable policy c c' :
  rtc (focus_step policy) c c' -> focus_run_ok c -> focus_run_ok c'.
Proof. induction 1; eauto using focus_step_ok. Qed.

(** ** Properties *)

(** A group takes over the focused share of the bitrate only
    when an observation finds it focused and interactive, or after every observation
    over a whole settling interval found it focused: a focus that passes by never
    moves bitrate. *)
Theorem quality_focus_settles (policy : BitrateAllocationPolicy) (t0 : instant) (c c' : focus_run) (g : Group) :
  rtc (focus_step policy) (MkFocusRun QualityFocus_default t0 []) c ->
  focus_step policy c c' ->
  settled (run_focus c') = Some g -> settled (run_focus c) <> Some g ->
  (exists attention v, attention !! g = Some v /\ focused v = true /\
     quality_priority policy v false (run_now c') = Interactive /\
     run_focus c' = observe_quality attention (run_now c') policy (run_focus c)) \/
  exists start, start + focus_settle policy <= run_now c' /\ held g start (run_log c').
Proof.
  intros Hr Hstep Hset Hnew. apply focus_run_reachable in Hr as Hok; [|done].
  destruct Hstep as [q now now' log ?|q now log|q now log att]; cbn in *; [done| |].
  - destruct (advance_settles _ _ _ _ Hset Hnew) as (start & Hc & Hle). right. exists start.
    unfold focus_run_ok in Hok. cbn in Hok. rewrite Hc in Hok. destruct Hok as [Hh Hs]. split; [|done].
    unfold since in Hle. lia.
  - destruct (observe_settles _ _ _ _ _ Hset Hnew) as [(v & ? & ? & ? & ?)|(start & Hle & Hf & Hor)].
    + left. eauto 10.
    + right. exists start. rewrite Hf. unfold since in Hle. unfold focus_run_ok in Hok. cbn in Hok.
      destruct Hor as [Hc| ->].
      * rewrite Hc in Hok. destruct Hok as [Hh Hs]. split; [lia|by constructor].
      * split; [lia|by constructor].
Qed.

(** ** Concrete inputs *)
Definition sample_group (n : Z) : Group := MkGroup sample_session (ClientSurfaceId_for_test n).
Definition sample_attention : gmap Group GroupAttention :=
  {[ sample_group 1 := MkGroupAttention true None None None None ]}.
Definition sample_focus_run (end_ : instant) : focus_run :=
  MkFocusRun (observe_quality sample_attention 0 BitrateAllocationPolicy_default QualityFocus_default)
    end_ [(0, Some (sample_group 1))].

Lemma quality_focus_settles_witness :
  (exists attention v, attention !! sample_group 1 = Some v /\ focused v = true /\
     quality_priority BitrateAllocationPolicy_default v false (from_millis 500) = Interactive /\
     MkQualityFocus (Some (sample_group 1)) None =
       observe_quality attention (from_millis 500) BitrateAllocationPolicy_default
         (run_focus (sample_focus_run (from_millis 500)))) \/
  exists start, start + from_millis 500 <= from_millis 500 /\
    held (sample_group 1) start [(0, Some (sample_group 1))].
Proof.
  apply (quality_focus_settles BitrateAllocationPolicy_default 0 (sample_focus_run (from_millis 500))
    (MkFocusRun (MkQualityFocus (Some (sample_group 1)) None) (from_millis 500)
       [(0, Some (sample_group 1))]) (sample_group 1)).
  - eapply rtc_l; [apply (focus_observe _ _ 0 [] sample_attention)|].
    apply rtc_once. apply (focus_tick _ _ 0 (from_millis 500)). vm_compute. congruence.
  - exact (focus_advance BitrateAllocationPolicy_default (run_focus (sample_focus_run 0)) (from_millis 500)
      [(0, Some (sample_group 1))]).
  - reflexivity.
  - vm_compute. congruence.
Defined.
