(* ===== verification/Allocation.v ===== *)
(** * Bitrate allocation ([weld-hoist-encoded/src/budget/allocation.rs])

    One target is divided over allocation groups and inside each group over its
    streams, by filling capped shares; changes too small to pay for an encoder
    replacement are suppressed. Parallel vectors keep their source order, and
    [BTreeMap] values are visited in key order. The grouping map stores indices into
    the immutable inputs; here it stores each index with the input it names. *)

From S2P Require Import Prelude OrdMap Ids Bitrate Surface Input Activity.

Definition StreamKey : Type := Z * MediaStreamId.

(** [AllocationGroup] of [budget.rs]: a window, or an explicit presentation group of
    one client. *)
Inductive AllocationGroup :=
  | Window (group : Group)
  | Presentation (client : ClientId) (id : PresentationGroupId).
#[export] Instance AllocationGroup_eq_dec : EqDecision AllocationGroup.
Proof. solve_decision. Defined.
#[export] Instance AllocationGroup_countable : Countable AllocationGroup.
Proof.
  refine (inj_countable'
    (fun g => match g with Window g => inl g | Presentation c i => inr (c, i) end)
    (fun s => match s with inl g => Window g | inr p => Presentation p.1 p.2 end) _).
  by intros [].
Defined.
(** the derived order: the variant first, then the fields *)
#[export] Instance allocation_key_ord : OrdKey (Z * AllocationGroup).
Proof.
  refine {| words p := p.1 :: match p.2 with
    | Window g => 0 :: words g
    | Presentation c i =>
        [1; ClientSourceId_raw (ClientId_source c); ClientId_local c; PresentationGroupId_raw i]
    end |}.
  intros [p g] [p' g'] [= -> H]. f_equal.
  destruct g as [g|[[a] b] [i]], g' as [g'|[[a'] b'] [i']]; cbn -[words] in H; try congruence.
  injection H as H. by apply (inj words) in H as ->.
Defined.

(** [AllocationGroup::new] *)
Definition AllocationGroup_new (group : Group) (preference : option SurfaceBitratePreference) :
    AllocationGroup :=
  match preference with
  | None => Window group
  | Some preference =>
      Presentation (ClientSurfaceId_client (root group)) (preference_group preference)
  end.

Definition RATE_STEP : Z := 64000.

Record AllocationInput := MkAllocationInput {
  key : StreamKey;
  input_group : Z * AllocationGroup;
  pixels : Z;
  area_weight : Z;
  input_limits : EncoderBitrateLimits;
  current : option Z;
  weight : Z;
}.

Record Share := MkShare { share_minimum : Z; share_maximum : Z; share_weight : Z }.

(** [iterator.sum::<u128>()] *)
Definition u128_sum (l : list Z) : outcome Z := try_fold u128_add 0 l.

(** ** Filling shares *)

(** The weight of the shares that can still grow. *)
Definition open_weight (shares : list Share) (rates : list Z) : outcome Z :=
  u128_sum ((fun p => share_weight p.1) <$>
            filter (fun p => p.2 < share_maximum p.1) (zip shares rates)).

(** One share's part of [available]. *)
Definition pour_share (available weight : Z) (share : Share) (rate remaining : Z) : outcome (Z * Z) :=
  if rate =? share_maximum share then Ret (rate, remaining)
  else
    product ← u128_mul available (share_weight share);
    part ← u64_try_from (product / weight);
    room ← u64_sub (share_maximum share) rate;
    let extra := Z.min part room in
    rate ← u64_add rate extra;
    remaining ← u64_sub remaining extra;
    Ret (rate, remaining).

Fixpoint pour (available weight : Z) (shares : list Share) (rates : list Z) (remaining : Z) :
    outcome (list Z * Z) :=
  match shares, rates with
  | share :: shares, rate :: rates =>
      poured ← pour_share available weight share rate remaining;
      rest ← pour available weight shares rates poured.2;
      Ret (poured.1 :: rest.1, rest.2)
  | _, _ => Ret (rates, remaining)
  end.

(** One unit to each share that can still grow, in order, while units remain. *)
Fixpoint drip (shares : list Share) (rates : list Z) (remaining : Z) : list Z * Z :=
  match shares, rates with
  | share :: shares, rate :: rates =>
      if remaining =? 0 then (rate :: rates, remaining)
      else
        let grown := if rate <? share_maximum share then (rate + 1, remaining - 1)
                     else (rate, remaining) in
        let rest := drip shares rates grown.2 in
        (grown.1 :: rest.1, rest.2)
  | _, _ => (rates, remaining)
  end.

(** [while remaining > 0 { ... }]; [None] when the fuel runs out. *)
Fixpoint waterfill_loop (fuel : nat) (shares : list Share) (rates : list Z) (remaining : Z) :
    option (outcome (list Z)) :=
  match fuel with
  | O => None
  | S fuel =>
      if 0 <? remaining then
        match open_weight shares rates with
        | Ret weight =>
            if weight =? 0 then Some (Ret rates)
            else match pour remaining weight shares rates remaining with
                 | Ret (poured, rest) =>
                     let next := if rest =? remaining then drip shares poured rest else (poured, rest) in
                     waterfill_loop fuel shares next.1 next.2
                 | Fail e => Some (Fail e)
                 | Panic => Some Panic
                 end
        | Fail e => Some (Fail e)
        | Panic => Some Panic
        end
      else Some (Ret rates)
  end.

(** A loop with enough fuel for [n] shares; the fuel never runs out. *)
Definition waterfill_fuel (n : nat) : nat := S (2 * n).

(** [waterfill] *)
Definition waterfill (target : Z) (shares : list Share) : outcome (list Z) :=
  minimum ← u128_sum (share_minimum <$> shares);
  if target <? minimum then Fail (ErrBudget target minimum)
  else
    reserved ← u64_try_from minimum;
    remaining ← u64_sub target reserved;
    match waterfill_loop (waterfill_fuel (length shares)) shares (share_minimum <$> shares) remaining with
    | Some result => result
    | None => Panic
    end.

(** ** Groups *)
Definition Members : Type := list (nat * AllocationInput).

(** [groups.entry(input.group).or_insert_with(Vec::new).push(index)] *)
Definition push_member (groups : gmap (Z * AllocationGroup) Members) (p : nat * AllocationInput) :
    outcome (gmap (Z * AllocationGroup) Members) :=
  _ ← ensure (0 <? pixels p.2) "bitrate demand has zero buffer pixels";
  Ret (<[input_group p.2 := default [] (groups !! input_group p.2) ++ [p]]> groups).

Definition enumerate {A} (l : list A) : list (nat * A) := imap (fun i a => (i, a)) l.

Definition group_inputs (inputs : list AllocationInput) :
    outcome (gmap (Z * AllocationGroup) Members) :=
  try_fold push_member ∅ (enumerate inputs).

(** [iterator.max().unwrap_or(1)] *)
Definition max_or_one (l : list Z) : Z :=
  match l with [] => 1 | x :: l => fold_left Z.max l x end.

Definition group_share (target : Z) (members : Members) : outcome Share :=
  minimum ← u128_sum ((fun p => minimum (input_limits p.2)) <$> members);
  maximum ← u128_sum ((fun p => maximum (input_limits p.2)) <$> members);
  if target <? minimum then Fail (ErrBudget target minimum)
  else
    low ← u64_try_from minimum;
    high ← u64_try_from (Z.min maximum target);
    Ret (MkShare low high (max_or_one ((fun p => weight p.2) <$> members))).

Definition member_share (p : nat * AllocationInput) : outcome Share :=
  area ← opt_context (checked u64_max (pixels p.2 * area_weight p.2)) "weighted bitrate area overflow";
  Ret (MkShare (minimum (input_limits p.2)) (maximum (input_limits p.2)) area).

(** [vector[index]] and [vector[index] = value] *)
Definition at_index (l : list Z) (i : nat) : outcome Z :=
  match l !! i with Some x => Ret x | None => Panic end.
Definition set_index (l : list Z) (i : nat) (x : Z) : outcome (list Z) :=
  match l !! i with Some _ => Ret (<[i := x]> l) | None => Panic end.

Definition rounded (rate : Z) : Z :=
  if rate <? RATE_STEP then rate else rate / RATE_STEP * RATE_STEP.

(** [ideal[*index] = rounded.max(minimum)] *)
Definition write_ideal (ideal : list Z) (p : (nat * AllocationInput) * Z) : outcome (list Z) :=
  set_index ideal p.1.1 (Z.max (rounded p.2) (minimum (input_limits p.1.2))).

(** Divide one group's rate over its members. *)
Definition fill_group (ideal : list Z) (p : Members * Z) : outcome (list Z) :=
  shares ← traverse member_share p.1;
  rates ← waterfill p.2 shares;
  try_fold write_ideal ideal (zip p.1 rates).

(** ** Churn suppression *)

(** An increase worth an encoder replacement: a whole step and a quarter of the rate. *)
Definition worthwhile (rate increase : Z) : bool :=
  Z.max RATE_STEP (div_ceil rate 4) <=? increase.

Definition increase_of (rate ideal : Z) : Z :=
  let extra := sat_sub ideal rate in
  if worthwhile rate extra then extra else 0.

(** the sort key of a donor: largest reduction first, then the stream key *)
Definition donor_words (inputs : list AllocationInput) (rates ideal : list Z) (i : nat) : list Z :=
  (- (default 0 (rates !! i) - default 0 (ideal !! i))) ::
  match inputs !! i with Some input => words (key input) | None => [] end.
Definition donor_le (inputs : list AllocationInput) (rates ideal : list Z) (i j : nat) : Prop :=
  lex_le (donor_words inputs rates ideal i) (donor_words inputs rates ideal j) = true.
#[export] Instance donor_le_dec inputs rates ideal : RelDecision (donor_le inputs rates ideal).
Proof. intros i j. unfold donor_le. apply _. Defined.

Definition donors (inputs : list AllocationInput) (rates ideal : list Z) : list nat :=
  merge_sort (donor_le inputs rates ideal)
    (filter (fun i => default 0 (ideal !! i) < default 0 (rates !! i)) (seq 0 (length inputs))).

(** Move donors to their ideal rate until the increases fit. *)
Fixpoint take_from (target increases : Z) (ideal : list Z) (donors : list nat) (rates : list Z)
    (total : Z) : outcome (list Z * Z) :=
  match donors with
  | [] => Ret (rates, total)
  | i :: donors =>
      wanted ← u128_add total increases;
      if wanted <=? target then Ret (rates, total)
      else
        rate ← at_index rates i;
        goal ← at_index ideal i;
        reduction ← u64_sub rate goal;
        rates ← set_index rates i goal;
        total ← u128_sub total reduction;
        take_from target increases ideal donors rates total
  end.

(** The last loop: grant worthwhile increases that fit, then check the limits. *)
Fixpoint grant (target : Z) (inputs : list AllocationInput) (ideal rates : list Z) (total : Z) :
    outcome (list Z) :=
  match inputs, ideal, rates with
  | input :: inputs, goal :: ideal, rate :: rates =>
      let increase := sat_sub goal rate in
      granted ← (if worthwhile rate increase then
                   wanted ← u128_add total increase;
                   Ret (if wanted <=? target then (goal, wanted) else (rate, total))
                 else Ret (rate, total));
      _ ← res_context (validate (input_limits input) granted.1) "invalid shared allocation";
      rest ← grant target inputs ideal rates granted.2;
      Ret (granted.1 :: rest)
  | _, _, _ => Ret []
  end.

Definition starting_rates (inputs : list AllocationInput) (ideal : list Z) : list Z :=
  zip_with (fun input goal => default goal (current input)) inputs ideal.

(** The second half of [allocate]: from the ideal rates to the published ones. *)
Definition settle_rates (target : Z) (inputs : list AllocationInput) (ideal : list Z) :
    outcome (list Z) :=
  let rates := starting_rates inputs ideal in
  total ← u128_sum rates;
  increases ← u128_sum (zip_with increase_of rates ideal);
  moved ← take_from target increases ideal (donors inputs rates ideal) rates total;
  wanted ← u128_add moved.2 increases;
  _ ← ensure (wanted <=? target) "shared bitrate targets could not fit";
  grant target inputs ideal moved.1 moved.2.

(** The first half: the ideal rate of every input. *)
Definition ideal_rates (target : Z) (inputs : list AllocationInput) : outcome (list Z) :=
  groups ← group_inputs inputs;
  shares ← traverse (group_share target) (bt_values groups);
  minimum ← u128_sum (share_minimum <$> shares);
  if target <? minimum then Fail (ErrBudget target minimum)
  else
    reserved ← u64_try_from minimum;
    group_rates ← waterfill (Z.max (target - target / 20) reserved) shares;
    try_fold fill_group (replicate (length inputs) 0) (zip (bt_values groups) group_rates).

(** [allocate] *)
Definition allocate (target : Z) (inputs : list AllocationInput) : outcome (list Z) :=
  ideal ← ideal_rates target inputs;
  settle_rates target inputs ideal.

(** ** Sums of machine integers *)
Lemma try_fold_u128 l a s : try_fold u128_add a l = Ret s -> s = a + sum_list l.
Proof.
  revert a. induction l as [|x l IH]; cbn; intros a H; [injection H as <-; sum_simpl; lia|].
  inv_ret. apply exact_ret_inv in H0 as [-> _]. apply IH in H. sum_simpl. lia.
Qed.

Lemma try_fold_u128_ret l a :
  0 <= a -> Forall (Z.le 0) l -> a + sum_list l <= u128_max ->
  try_fold u128_add a l = Ret (a + sum_list l).
Proof.
  intros Ha Hl. revert a Ha. induction Hl as [|x l Hx Hl IH]; intros a Ha Hs; sum_simpl.
  - f_equal. lia.
  - apply sum_list_nonneg in Hl. cbn [try_fold].
    replace (u128_add a x) with (Ret (a + x)) by (symmetry; apply exact_ret; lia). cbn.
    rewrite IH by lia. f_equal. lia.
Qed.

Lemma u128_sum_inv l s : u128_sum l = Ret s -> s = sum_list l.
Proof. intros H%try_fold_u128. lia. Qed.

Lemma u128_sum_ret l :
  Forall (Z.le 0) l -> sum_list l <= u128_max -> u128_sum l = Ret (sum_list l).
Proof. intros. unfold u128_sum. rewrite try_fold_u128_ret by (done || lia). done. Qed.

(** A list of [u64] values that fits in memory never overflows a [u128] sum. *)
Definition small_length {A} (l : list A) : Prop := Z.of_nat (length l) <= u64_max.

Lemma sum_list_upper l b : Forall (fun x => x <= b) l -> sum_list l <= Z.of_nat (length l) * b.
Proof. induction 1; sum_simpl; [lia|]. rewrite Nat2Z.inj_succ. lia. Qed.

Lemma u128_sum_u64 l :
  Forall is_u64 l -> small_length l -> u128_sum l = Ret (sum_list l).
Proof.
  intros Hl Hlen. unfold small_length in Hlen. apply u128_sum_ret.
  - eapply Forall_impl; [|exact Hl]. by intros x [? ?].
  - assert (sum_list l <= Z.of_nat (length l) * u64_max) as Hs.
    { apply sum_list_upper. eapply Forall_impl; [|exact Hl]. by intros x [? ?]. }
    rewrite u64_max_val in *. rewrite u128_max_val. nia.
Qed.

(** ** The filling loop *)
Definition share_ok (s : Share) : Prop :=
  0 <= share_minimum s <= share_maximum s /\ share_maximum s <= u64_max /\ 0 < share_weight s <= u64_max.

Definition open_shares (shares : list Share) (rates : list Z) : list (Share * Z) :=
  filter (fun p => p.2 < share_maximum p.1) (zip shares rates).
Definition open_sum (shares : list Share) (rates : list Z) : Z :=
  sum_list ((fun p => share_weight p.1) <$> open_shares shares rates).
Definition open_count (shares : list Share) (rates : list Z) : Z :=
  Z.of_nat (length (open_shares shares rates)).
Definition rates_ok (shares : list Share) (rates : list Z) : Prop :=
  Forall2 (fun s r => share_ok s /\ 0 <= r <= share_maximum s) shares rates.

Lemma open_cons s shares r rates :
  open_sum (s :: shares) (r :: rates) =
    (if r <? share_maximum s then share_weight s else 0) + open_sum shares rates /\
  open_count (s :: shares) (r :: rates) =
    (if r <? share_maximum s then 1 else 0) + open_count shares rates.
Proof.
  unfold open_sum, open_count, open_shares. cbn [zip zip_with]. rewrite filter_cons. cbn [fst snd].
  destruct (Z.ltb_spec r (share_maximum s)).
  - rewrite decide_True by done. sum_simpl. split; [done|]. lia.
  - rewrite decide_False by lia. done.
Qed.

Lemma open_count_bounds shares rates : 0 <= open_count shares rates <= Z.of_nat (length shares).
Proof.
  unfold open_count, open_shares. split; [lia|]. apply inj_le.
  etrans; [apply length_filter|]. rewrite length_zip. lia.
Qed.

Lemma rates_ok_open shares rates :
  rates_ok shares rates ->
  0 <= open_sum shares rates <= open_count shares rates * u64_max /\
  open_count shares rates <= open_sum shares rates.
Proof.
  induction 1 as [|s r shares rates [[_ [_ Hw]] _] _ IH].
  - unfold open_sum, open_count. cbn. sum_simpl. lia.
  - destruct (open_cons s shares r rates) as [-> ->]. destruct (r <? _); lia.
Qed.

Lemma open_weight_ret shares rates :
  rates_ok shares rates -> small_length shares ->
  open_weight shares rates = Ret (open_sum shares rates).
Proof.
  intros H Hlen. apply u128_sum_u64.
  - apply Forall_fmap, Forall_forall. intros [s r] [_ Hin]%list_elem_of_In%list_elem_of_filter.
    apply elem_of_zip_l in Hin as Hs. apply list_elem_of_lookup in Hs as [i Hi].
    destruct (Forall2_lookup_l _ _ _ _ _ H Hi) as (r' & _ & (_ & _ & Hw) & _).
    unfold is_u64. cbn. lia.
  - pose proof (open_count_bounds shares rates). unfold open_count, open_shares, small_length in *.
    rewrite length_fmap. lia.
Qed.

Lemma pour_share_ret available weight s r remaining :
  share_ok s -> 0 <= r < share_maximum s -> 0 <= available <= u64_max -> share_weight s <= weight ->
  available * share_weight s <= remaining * weight -> remaining <= u64_max ->
  let extra := Z.min (available * share_weight s / weight) (share_maximum s - r) in
  pour_share available weight s r remaining = Ret (r + extra, remaining - extra) /\
  0 <= extra <= remaining.
Proof.
  intros (Hmin & Hmax & Hw) Hr Ha Hle Hinv Hrem extra.
  assert (Hq : 0 <= available * share_weight s / weight <= available).
  { split; [apply Z.div_pos; nia|]. apply Z.div_le_upper_bound; nia. }
  assert (Hqr : available * share_weight s / weight <= remaining).
  { apply Z.div_le_upper_bound; nia. }
  split; [|unfold extra; lia].
  unfold pour_share. destruct (Z.eqb_spec r (share_maximum s)); [lia|].
  unfold u128_mul. rewrite exact_ret.
  2:{ rewrite u128_max_val. rewrite u64_max_val in *. nia. }
  cbn. rewrite u64_try_from_ret by (unfold is_u64; lia). cbn.
  unfold u64_sub, u64_add. rewrite exact_ret by lia. cbn.
  rewrite exact_ret by lia. cbn. rewrite exact_ret by lia. done.
Qed.

Lemma Forall2_le_refl l : Forall2 Z.le l l.
Proof. induction l; constructor; [lia|done]. Qed.

(** One pass over the shares: rates grow inside their limits, what is poured leaves
    [remaining], and either a share fills up or less than one unit per open share is
    left over. *)
Lemma pour_ret available weight shares rates remaining :
  rates_ok shares rates -> 0 < weight -> 0 <= available <= u64_max -> open_sum shares rates <= weight ->
  available * open_sum shares rates <= remaining * weight -> 0 <= remaining <= u64_max ->
  exists rates' rest,
    pour available weight shares rates remaining = Ret (rates', rest) /\
    rates_ok shares rates' /\ Forall2 Z.le rates rates' /\
    0 <= rest /\ sum_list rates' + rest = sum_list rates + remaining /\
    open_count shares rates' <= open_count shares rates /\
    (open_count shares rates' = open_count shares rates ->
     rest * weight <= remaining * weight - available * open_sum shares rates
                      + open_count shares rates * (weight - 1)).
Proof.
  intros H Hw Ha. revert remaining.
  induction H as [|s r shares rates [Hs Hr] H IH]; intros remaining Hsum Hinv Hrem.
  { exists [], remaining. unfold open_sum, open_count. cbn. sum_simpl. split_and!; try done; try constructor; lia. }
  destruct (open_cons s shares r rates) as [Eo Ec]. rewrite Eo in *. rewrite Ec.
  pose proof (rates_ok_open _ _ H) as [Hpos Hcnt]. pose proof (open_count_bounds shares rates) as Hcb.
  cbn [pour]. revert Hsum Hinv.
  destruct (Z.ltb_spec r (share_maximum s)) as [Hlt|Hge]; intros Hsum Hinv;
    pose proof (proj1 (proj2 (proj2 Hs))) as Hsw.
  - destruct (pour_share_ret available weight s r remaining) as [-> Hex]; [done|lia|done|lia|nia|lia|].
    revert Hex. set (extra := Z.min _ _). intros Hex.
    assert (Hq : extra * weight <= available * share_weight s).
    { assert (available * share_weight s / weight * weight <= available * share_weight s) by
        (rewrite Z.mul_comm; apply Z.mul_div_le; lia). nia. }
    destruct (IH (remaining - extra)) as (rates' & rest & Hp & Hok & Hle & Hrest & Hcons & Hcount & Hend);
      [lia|nia|lia|]. cbn. rewrite Hp. cbn.
    exists ((r + extra) :: rates'), rest. destruct (open_cons s shares (r + extra) rates') as [_ ->].
    split_and!; [done|constructor; [split; [done|lia]|done]|constructor; [lia|done]|done| | |].
    + sum_simpl. lia.
    + destruct (_ <? _); lia.
    + destruct (Z.ltb_spec (r + extra) (share_maximum s)); [|lia]. intros Heq.
      assert (extra = available * share_weight s / weight) as Hfl by lia.
      assert (available * share_weight s < (extra + 1) * weight).
      { rewrite Hfl. pose proof (Z.mul_succ_div_gt (available * share_weight s) weight). lia. }
      specialize (Hend ltac:(lia)). nia.
  - unfold pour_share. destruct (Z.eqb_spec r (share_maximum s)); [|lia]. cbn.
    destruct (IH remaining) as (rates' & rest & Hp & Hok & Hle & Hrest & Hcons & Hcount & Hend); [lia..|].
    rewrite Hp. cbn. exists (r :: rates'), rest. destruct (open_cons s shares r rates') as [_ ->].
    destruct (Z.ltb_spec r (share_maximum s)); [lia|].
    split_and!; [done|constructor; [by split|done]|constructor; [lia|done]|done| |lia|].
    + sum_simpl. lia.
    + intros Heq. specialize (Hend ltac:(lia)). lia.
Qed.

Lemma drip_spec shares rates remaining :
  rates_ok shares rates -> 0 <= remaining ->
  let d := drip shares rates remaining in
  rates_ok shares d.1 /\ Forall2 Z.le rates d.1 /\
  sum_list d.1 + d.2 = sum_list rates + remaining /\
  d.2 = Z.max 0 (remaining - open_count shares rates) /\
  open_count shares d.1 <= open_count shares rates.
Proof.
  intros H. revert remaining.
  induction H as [|s r shares rates [Hs Hr] H IH]; intros remaining Hrem; cbn zeta.
  { unfold open_count. cbn. split_and!; try done; try constructor; lia. }
  destruct (open_cons s shares r rates) as [_ Ec]. rewrite Ec.
  pose proof (open_count_bounds shares rates) as Hcb. cbn [drip].
  destruct (Z.eqb_spec remaining 0) as [->|Hne]; cbn [fst snd].
  - rewrite Ec. split_and!; [constructor; [by split|done]|apply Forall2_le_refl|done| |lia].
    destruct (r <? _); lia.
  - destruct (Z.ltb_spec r (share_maximum s)) as [Hlt|Hge]; cbn [fst snd].
    + destruct (IH (remaining - 1)) as (Hok & Hle & Hcons & Hrest & Hcount); [lia|].
      rewrite (proj2 (open_cons s shares (r + 1) _)).
      split_and!; [constructor; [split; [done|lia]|done]|constructor; [lia|done]| |lia|].
      * sum_simpl. lia.
      * destruct (r + 1 <? _); lia.
    + destruct (IH remaining) as (Hok & Hle & Hcons & Hrest & Hcount); [lia|].
      rewrite (proj2 (open_cons s shares r _)). destruct (Z.ltb_spec r (share_maximum s)); [lia|].
      split_and!; [constructor; [by split|done]|constructor; [lia|done]| |lia|lia].
      sum_simpl. lia.
Qed.

Definition max_sum (shares : list Share) : Z := sum_list (share_maximum <$> shares).

Lemma rates_ok_sum shares rates : rates_ok shares rates -> 0 <= sum_list rates <= max_sum shares.
Proof.
  unfold max_sum. induction 1 as [|s r shares rates [Hs Hr] H IH]; sum_simpl; lia.
Qed.

(** No share can grow: everything is at its maximum. *)
Lemma open_sum_zero shares rates :
  rates_ok shares rates -> open_sum shares rates = 0 -> sum_list rates = max_sum shares.
Proof.
  unfold max_sum. induction 1 as [|s r shares rates [Hs Hr] H IH]; [done|].
  destruct (open_cons s shares r rates) as [-> _]. pose proof (rates_ok_open _ _ H) as [? _].
  pose proof (proj1 (proj2 (proj2 Hs))).
  destruct (Z.ltb_spec r (share_maximum s)); sum_simpl; intros; [lia|]. rewrite IH by lia. lia.
Qed.

Lemma le_sum_eq rates rates' :
  Forall2 Z.le rates rates' -> sum_list rates' = sum_list rates -> rates' = rates.
Proof.
  induction 1 as [|r r' rates rates' Hr H IH]; [done|]. sum_simpl. intros Hs.
  pose proof (sum_list_le _ _ H). f_equal; [lia|]. apply IH. lia.
Qed.

(** The measure [open shares + min remaining shares] drops with every pass. *)
Lemma waterfill_loop_spec shares fuel rates remaining :
  rates_ok shares rates -> small_length shares -> 0 <= remaining <= u64_max ->
  open_count shares rates + Z.min remaining (Z.of_nat (length shares)) < Z.of_nat fuel ->
  exists rates', waterfill_loop fuel shares rates remaining = Some (Ret rates') /\
    rates_ok shares rates' /\ Forall2 Z.le rates rates' /\
    sum_list rates' = Z.min (sum_list rates + remaining) (max_sum shares).
Proof.
  intros Hok Hlen. revert rates remaining Hok.
  induction fuel as [|fuel IH]; intros rates remaining Hok Hrem Hfuel.
  { pose proof (open_count_bounds shares rates). lia. }
  pose proof (open_count_bounds shares rates) as Hcb. pose proof (rates_ok_sum _ _ Hok) as Hms.
  pose proof (Forall2_le_refl rates) as Hrefl.
  cbn [waterfill_loop]. destruct (Z.ltb_spec 0 remaining) as [Hpos|Hzero].
  2:{ exists rates. split_and!; try done. lia. }
  rewrite open_weight_ret by done.
  destruct (rates_ok_open _ _ Hok) as [[Hw Hcu] Hcw].
  destruct (Z.eqb_spec (open_sum shares rates) 0) as [Hz|Hnz].
  { exists rates. apply open_sum_zero in Hz; [|done]. split_and!; try done. lia. }
  assert (Hc0 : 0 < open_count shares rates) by
    (destruct (Z.eq_dec (open_count shares rates) 0) as [e|]; [rewrite e in Hcu|]; lia).
  destruct (pour_ret remaining (open_sum shares rates) shares rates remaining)
    as (poured & rest & Hp & Hpok & Hple & Hrest & Hcons & Hcount & Hend); [done|lia..|].
  rewrite Hp. pose proof (sum_list_le _ _ Hple) as Hgrow.
  destruct (Z.eqb_spec rest remaining) as [Heq|Hne].
  - assert (poured = rates) as -> by (apply le_sum_eq; [done|lia]).
    destruct (drip_spec shares rates rest Hpok ltac:(lia)) as (Hdok & Hdle & Hdcons & Hdrest & Hdcount).
    specialize (Hend eq_refl). assert (rest < open_count shares rates) by nia.
    destruct (IH (drip shares rates rest).1 (drip shares rates rest).2) as (rates' & Hl & Hok' & Hle' & Hs');
      [done|lia|lia|].
    exists rates'. split_and!; [done|done|by etrans|]. rewrite Hs'. lia.
  - destruct (IH poured rest) as (rates' & Hl & Hok' & Hle' & Hs'); [done|lia| |].
    { destruct (Z.eq_dec (open_count shares poured) (open_count shares rates)) as [He|He]; [|lia].
      specialize (Hend He). 
      assert (rest < open_count shares rates); [|lia]. apply Z.nle_gt. intros Hge.
      apply (Z.mul_le_mono_nonneg_r _ _ (open_sum shares rates)) in Hge; lia. }
    exists rates'. split_and!; [done|done|by etrans|]. rewrite Hs'. lia.
Qed.

(** A rate per share, between its minimum and its maximum. *)
Definition in_range (s : Share) (r : Z) : Prop := share_minimum s <= r <= share_maximum s.
Definition min_sum (shares : list Share) : Z := sum_list (share_minimum <$> shares).

Lemma min_rates_ok shares :
  Forall share_ok shares -> rates_ok shares (share_minimum <$> shares).
Proof.
  intros H. unfold rates_ok. induction H as [|s shares Hs _ IH]; constructor; [|done].
  split; [done|]. unfold share_ok in Hs. lia.
Qed.

Lemma waterfill_ret target shares :
  Forall share_ok shares -> small_length shares -> target <= u64_max -> min_sum shares <= target ->
  exists rates, waterfill target shares = Ret rates /\
    Forall2 in_range shares rates /\ sum_list rates = Z.min target (max_sum shares).
Proof.
  intros Hok Hlen Ht Hmin. pose proof (min_rates_ok _ Hok) as Hmok.
  pose proof (rates_ok_sum _ _ Hmok) as Hs. unfold min_sum in Hmin.
  unfold waterfill. rewrite u128_sum_u64.
  2:{ apply Forall_fmap. eapply Forall_impl; [|exact Hok]. intros s Hsh.
      unfold share_ok in Hsh. unfold is_u64. cbn. lia. }
  2:{ unfold small_length in *. by rewrite length_fmap. }
  cbn [mbind outcome_bind]. destruct (Z.ltb_spec target (sum_list (share_minimum <$> shares))); [lia|].
  rewrite u64_try_from_ret by (unfold is_u64; lia). cbn [mbind outcome_bind].
  unfold u64_sub. rewrite exact_ret by lia. cbn [mbind outcome_bind].
  pose proof (open_count_bounds shares (share_minimum <$> shares)).
  destruct (waterfill_loop_spec shares (waterfill_fuel (length shares)) (share_minimum <$> shares)
    (target - sum_list (share_minimum <$> shares))) as (rates & -> & Hrok & Hle & Hsum);
    [done|done|lia|unfold waterfill_fuel; lia|].
  exists rates. split_and!; [done| |rewrite Hsum; f_equal; lia].
  clear -Hrok Hle. revert Hle. induction Hrok as [|s r shares rates [Hs Hr] _ IH]; intros Hle.
  - constructor.
  - inversion_clear Hle. constructor; [unfold in_range; lia|auto].
Qed.

Lemma waterfill_fail target shares :
  Forall share_ok shares -> small_length shares -> target < min_sum shares ->
  waterfill target shares = Fail (ErrBudget target (min_sum shares)).
Proof.
  intros Hok Hlen Hlt. unfold waterfill. rewrite u128_sum_u64.
  - cbn. destruct (Z.ltb_spec target (sum_list (share_minimum <$> shares))); [done|].
    unfold min_sum in Hlt. lia.
  - apply Forall_fmap. eapply Forall_impl; [|exact Hok]. intros s Hsh.
    unfold share_ok in Hsh. unfold is_u64. cbn. lia.
  - unfold small_length in *. by rewrite length_fmap.
Qed.

(** ** Churn suppression keeps the total *)
Lemma set_index_inv l i x l' :
  set_index l i x = Ret l' -> exists y, l !! i = Some y /\ l' = <[i := x]> l.
Proof. unfold set_index. destruct (l !! i) as [y|]; [|done]. intros [= <-]. eauto. Qed.

Lemma at_index_inv l i x : at_index l i = Ret x -> l !! i = Some x.
Proof. unfold at_index. destruct (l !! i); congruence. Qed.

Lemma take_from_inv target increases ideal ds rates total rates' total' :
  take_from target increases ideal ds rates total = Ret (rates', total') ->
  total = sum_list rates -> total' = sum_list rates' /\ length rates' = length rates.
Proof.
  revert rates total. induction ds as [|i ds IH]; intros rates total H Ht; cbn in H; [by simplify_eq|].
  inv_ret. destruct (_ <=? _); [by simplify_eq|]. inv_ret.
  apply at_index_inv in H1, H2. apply exact_ret_inv in H3 as [-> _], H5 as [-> _].
  apply set_index_inv in H4 as (y & Hy & ->).
  apply IH in H as [-> Hlen].
  - by rewrite length_insert in Hlen.
  - rewrite (sum_list_insert _ _ _ _ Hy). simplify_eq. lia.
Qed.

Lemma worthwhile_increase rate goal :
  worthwhile rate (sat_sub goal rate) = true -> sat_sub goal rate = goal - rate /\ rate < goal.
Proof. unfold worthwhile, sat_sub, RATE_STEP. intros H%Z.leb_le. lia. Qed.

Lemma res_context_Ret_inv {A} (m : outcome A) s a : res_context m s = Ret a -> m = Ret a.
Proof. destruct m; cbn; congruence. Qed.

Definition within_limits (input : AllocationInput) (rate : Z) : Prop := rate_in (input_limits input) rate.

Lemma grant_inv target inputs ideal rates total other out :
  grant target inputs ideal rates total = Ret out ->
  length ideal = length inputs -> length rates = length inputs ->
  total = other + sum_list rates -> total <= target ->
  Forall2 within_limits inputs out /\ other + sum_list out <= target.
Proof.
  revert ideal rates total other out. induction inputs as [|input inputs IH];
    intros [|goal ideal] [|rate rates] total other out H Hi Hr Ht Hle; try done; cbn in H.
  { injection H as <-. sum_simpl. split; [constructor|lia]. }
  inv_ret. apply res_context_Ret_inv, validate_ret in H1.
  assert (Hg : x.2 = other + x.1 + sum_list rates /\ x.2 <= target).
  { destruct (worthwhile rate (sat_sub goal rate)) eqn:Hw.
    - apply bind_Ret_inv in H0 as (w & Hadd & H0). injection H0 as H0.
      apply exact_ret_inv in Hadd as [-> _]. apply worthwhile_increase in Hw.
      destruct (Z.leb_spec (total + sat_sub goal rate) target); subst x; cbn; sum_simpl; lia.
    - injection H0 as <-. cbn. sum_simpl. lia. }
  destruct Hg as [Hg Hgt]. subst out.
  destruct (IH _ _ _ (other + x.1) _ H2 ltac:(by injection Hi) ltac:(by injection Hr) Hg Hgt) as [Hall Hsum].
  split; [by constructor|]. sum_simpl. lia.
Qed.

Lemma settle_rates_safe target inputs ideal rates :
  settle_rates target inputs ideal = Ret rates -> length ideal = length inputs ->
  Forall2 within_limits inputs rates /\ sum_list rates <= target.
Proof.
  intros H Hlen. unfold settle_rates in H. inv_ret.
  assert (Hsl : length (starting_rates inputs ideal) = length inputs).
  { unfold starting_rates. rewrite length_zip_with. lia. }
  destruct x1 as [moved total]. apply u128_sum_inv in H0.
  destruct (take_from_inv _ _ _ _ _ _ _ _ H2 H0) as [Ht Hl]. cbn in H.
  apply exact_ret_inv in H3 as [-> Hrange]. apply Z.leb_le in H4. cbn in H4.
  apply u128_sum_inv in H1.
  assert (0 <= x0).
  { subst x0. apply sum_list_nonneg. apply Forall_lookup. intros i y Hy.
    apply lookup_zip_with_Some in Hy as (r & g & -> & _). unfold increase_of.
    destruct (worthwhile r (sat_sub g r)); [unfold sat_sub; lia|done]. }
  destruct (grant_inv _ _ _ _ _ 0 _ H) as [Hall Hsum]; [lia|lia|lia|lia|]. split; [done|lia].
Qed.

Lemma try_fold_length {A} (f : list Z -> A -> outcome (list Z)) l v v' :
  (forall v a v', f v a = Ret v' -> length v' = length v) ->
  try_fold f v l = Ret v' -> length v' = length v.
Proof.
  intros Hf. revert v. induction l as [|a l IH]; cbn; intros v H; [by simplify_eq|].
  inv_ret. apply Hf in H0 as <-. by apply IH.
Qed.

Lemma fill_group_length v p v' : fill_group v p = Ret v' -> length v' = length v.
Proof.
  unfold fill_group. intros H. inv_ret. eapply try_fold_length; [|exact H].
  clear. intros v a v' Hw. apply set_index_inv in Hw as (y & _ & ->). apply length_insert.
Qed.

Lemma ideal_rates_length target inputs ideal :
  ideal_rates target inputs = Ret ideal -> length ideal = length inputs.
Proof.
  unfold ideal_rates. intros H. inv_ret. destruct (_ <? _); [done|]. inv_ret.
  apply (try_fold_length _ _ _ _ fill_group_length) in H. by rewrite length_replicate in H.
Qed.

Lemma allocate_inv target inputs rates :
  allocate target inputs = Ret rates ->
  Forall2 within_limits inputs rates /\ sum_list rates <= target.
Proof.
  intros H. unfold allocate in H. inv_ret. apply ideal_rates_length in H0. by eapply settle_rates_safe.
Qed.

(** ** Grouping keeps every input once *)
Lemma bt_values_perm {K V} `{OrdKey K} (m : gmap K V) : bt_values m ≡ₚ (map_to_list m).*2.
Proof. unfold bt_values. by rewrite entries_perm. Qed.

Lemma push_member_perm (m : gmap (Z * AllocationGroup) Members) g p :
  concat (bt_values (<[g := default [] (m !! g) ++ [p]]> m)) ≡ₚ concat (bt_values m) ++ [p].
Proof.
  rewrite !bt_values_perm.
  assert (Hm : concat (map_to_list m).*2 ≡ₚ default [] (m !! g) ++ concat (map_to_list (delete g m)).*2).
  { destruct (m !! g) as [l|] eqn:Hg; cbn.
    - rewrite <-(map_to_list_delete m g l Hg). reflexivity.
    - by rewrite delete_id. }
  rewrite Hm. rewrite <-insert_delete_eq, map_to_list_insert by apply lookup_delete_eq. cbn.
  rewrite <-!app_assoc. f_equiv. apply Permutation_app_comm.
Qed.

Lemma group_fold_ret m l :
  Forall (fun p => 0 < pixels p.2) l -> map_Forall (fun _ ms => ms <> []) m ->
  exists m', try_fold push_member m l = Ret m' /\ map_Forall (fun _ ms => ms <> []) m' /\
    concat (bt_values m') ≡ₚ concat (bt_values m) ++ l.
Proof.
  intros Hl. revert m. induction Hl as [|p l Hp _ IH]; intros m Hm; cbn [try_fold].
  - exists m. rewrite app_nil_r. done.
  - replace (push_member m p) with (Ret (<[input_group p.2 := default [] (m !! input_group p.2) ++ [p]]> m)).
    2:{ unfold push_member. by destruct (Z.ltb_spec 0 (pixels p.2)); [|lia]. }
    cbn [mbind outcome_bind].
    destruct (IH (<[input_group p.2:=default [] (m !! input_group p.2) ++ [p]]> m)) as (m' & Hm' & Hne & Hp').
    { apply map_Forall_insert_2; [|done]. by destruct (default [] _). }
    exists m'. split_and!; [done|done|]. rewrite Hp', push_member_perm. rewrite <-app_assoc. reflexivity.
Qed.

Lemma concat_elem {A} (ls : list (list A)) l x : l ∈ ls -> x ∈ l -> x ∈ concat ls.
Proof.
  induction ls as [|l' ls IH]; cbn; [by intros ?%not_elem_of_nil|].
  rewrite elem_of_cons, elem_of_app. intros [->|Hl] Hx; auto.
Qed.

Lemma length_concat_elem {A} (ls : list (list A)) l : l ∈ ls -> (length l <= length (concat ls))%nat.
Proof.
  induction ls as [|l' ls IH]; cbn; [by intros ?%not_elem_of_nil|].
  rewrite length_app. intros [->|Hl]%elem_of_cons; [lia|]. specialize (IH Hl). lia.
Qed.

Lemma length_concat_nonempty {A} (ls : list (list A)) :
  Forall (fun l => l <> []) ls -> (length ls <= length (concat ls))%nat.
Proof. induction 1 as [|l ls Hl _ IH]; cbn; [lia|]. rewrite length_app. destruct l; [done|]. cbn. lia. Qed.

Lemma elem_of_enumerate {A} (l : list A) i x : (i, x) ∈ enumerate l <-> l !! i = Some x.
Proof.
  unfold enumerate. rewrite list_elem_of_lookup. split.
  - intros [j Hj]. rewrite list_lookup_imap in Hj. destruct (l !! j) eqn:?; [|done].
    cbn in Hj. by simplify_eq.
  - intros Hi. exists i. by rewrite list_lookup_imap, Hi.
Qed.

Lemma enumerate_fst {A} (l : list A) : (enumerate l).*1 = seq 0 (length l).
Proof.
  apply list_eq. intros i. rewrite list_lookup_fmap. unfold enumerate. rewrite list_lookup_imap.
  destruct (l !! i) eqn:Hi; cbn.
  - apply lookup_lt_Some in Hi. by rewrite lookup_seq_lt.
  - apply lookup_ge_None in Hi. by rewrite lookup_seq_ge.
Qed.

Lemma enumerate_snd {A} (l : list A) : (enumerate l).*2 = l.
Proof.
  apply list_eq. intros i. rewrite list_lookup_fmap. unfold enumerate. rewrite list_lookup_imap.
  by destruct (l !! i).
Qed.

Lemma length_enumerate {A} (l : list A) : length (enumerate l) = length l.
Proof. apply length_imap. Qed.

(** ** The ideal rates *)
Definition ideal_value (p : (nat * AllocationInput) * Z) : Z :=
  Z.max (rounded p.2) (minimum (input_limits p.1.2)).

Lemma rounded_le r : 0 <= r -> rounded r <= r.
Proof.
  intros Hr. unfold rounded. destruct (r <? RATE_STEP); [lia|].
  rewrite Z.mul_comm. apply Z.mul_div_le. unfold RATE_STEP. lia.
Qed.

(** Writing pairwise distinct places of a zero vector. *)
Lemma write_all (ps : list ((nat * AllocationInput) * Z)) v :
  NoDup ((fun p => p.1.1) <$> ps) -> (forall p, p ∈ ps -> v !! p.1.1 = Some 0) ->
  exists v', try_fold write_ideal v ps = Ret v' /\ length v' = length v /\
    (forall p, p ∈ ps -> v' !! p.1.1 = Some (ideal_value p)) /\
    (forall i, i ∉ ((fun p => p.1.1) <$> ps) -> v' !! i = v !! i) /\
    sum_list v' = sum_list v + sum_list (ideal_value <$> ps).
Proof.
  revert v. induction ps as [|p ps IH]; intros v Hnd Hz.
  { exists v. sum_simpl. split_and!; try done; [by intros p ?%not_elem_of_nil|lia]. }
  rewrite fmap_cons in Hnd. apply list.NoDup_cons in Hnd as [Hnotin Hnd].
  cbn [try_fold]. assert (v !! p.1.1 = Some 0) as Hp by (apply Hz; set_solver).
  replace (write_ideal v p) with (Ret (<[p.1.1 := ideal_value p]> v)).
  2:{ unfold write_ideal, set_index. by rewrite Hp. }
  cbn [mbind outcome_bind].
  destruct (IH (<[p.1.1 := ideal_value p]> v)) as (v' & Hv & Hlen & Hin & Hout & Hsum); [done| |].
  { intros q Hq. rewrite list_lookup_insert_ne; [apply Hz; set_solver|].
    intros He. apply Hnotin. rewrite He. apply list_elem_of_fmap. eauto. }
  exists v'. split_and!; [done|by rewrite Hlen, length_insert| | |].
  - intros q [->|Hq]%elem_of_cons; [|auto]. rewrite Hout by done.
    apply list_lookup_insert_eq. by eapply lookup_lt_Some.
  - intros i Hi. rewrite fmap_cons, not_elem_of_cons in Hi. destruct Hi as [Hne Hi].
    rewrite Hout by done. by rewrite list_lookup_insert_ne.
  - rewrite Hsum, (sum_list_insert _ _ _ _ Hp). sum_simpl. lia.
Qed.

Definition input_ok (input : AllocationInput) : Prop :=
  limits_ok (input_limits input) /\ maximum (input_limits input) <= u64_max /\
  0 < pixels input /\ 0 < area_weight input /\ pixels input * area_weight input <= u64_max /\
  0 < weight input <= u64_max /\
  match current input with Some rate => within_limits input rate | None => True end.

(** The sum of the stream minima. *)
Definition required (inputs : list AllocationInput) : Z :=
  sum_list ((fun input => minimum (input_limits input)) <$> inputs).

Definition share_of_member (p : nat * AllocationInput) : Share :=
  MkShare (minimum (input_limits p.2)) (maximum (input_limits p.2)) (pixels p.2 * area_weight p.2).
Definition share_of_group (target : Z) (members : Members) : Share :=
  MkShare (sum_list ((fun p => minimum (input_limits p.2)) <$> members))
    (Z.min (sum_list ((fun p => maximum (input_limits p.2)) <$> members)) target)
    (max_or_one ((fun p => weight p.2) <$> members)).

Lemma share_of_member_ok p : input_ok p.2 -> share_ok (share_of_member p) /\ member_share p = Ret (share_of_member p).
Proof.
  intros (Hl & Hm & Hp & Ha & Hpa & _). unfold limits_ok in Hl. split.
  - unfold share_ok. cbn. nia.
  - unfold member_share, checked. rewrite bool_decide_true by nia. done.
Qed.

Lemma max_or_one_ok l : Forall (fun x => 0 < x <= u64_max) l -> 0 < max_or_one l <= u64_max.
Proof.
  intros H. destruct l as [|x l]; [unfold max_or_one; rewrite u64_max_val; lia|]. cbn.
  inversion_clear H as [|? ? Hx Hl]. revert x Hx. induction Hl as [|y l Hy _ IH]; intros x Hx; cbn; [done|].
  apply IH. lia.
Qed.

Lemma limits_sum_le (members : Members) :
  Forall (fun p => input_ok p.2) members ->
  0 <= sum_list ((fun p => minimum (input_limits p.2)) <$> members)
    <= sum_list ((fun p => maximum (input_limits p.2)) <$> members).
Proof.
  induction 1 as [|p members (Hl & _) _ IH]; sum_simpl; [lia|]. unfold limits_ok in Hl. lia.
Qed.

Lemma share_of_group_ok target members :
  Forall (fun p => input_ok p.2) members -> small_length members -> target <= u64_max ->
  sum_list ((fun p => minimum (input_limits p.2)) <$> members) <= target ->
  share_ok (share_of_group target members) /\
  group_share target members = Ret (share_of_group target members).
Proof.
  intros Hok Hlen Ht Hmin. pose proof (limits_sum_le _ Hok) as Hs. split.
  - unfold share_ok. cbn. split_and!; try lia.
    all: apply max_or_one_ok, Forall_fmap; eapply Forall_impl; [|exact Hok];
      intros p (_ & _ & _ & _ & _ & Hw & _); cbn; lia.
  - unfold group_share. rewrite !u128_sum_u64; try (unfold small_length in *; by rewrite length_fmap).
    + cbn. destruct (Z.ltb_spec target (sum_list ((fun p => minimum (input_limits p.2)) <$> members))); [lia|].
      rewrite !u64_try_from_ret by (unfold is_u64; lia). done.
    + apply Forall_fmap. eapply Forall_impl; [|exact Hok]. intros p (Hl & ? & _).
      unfold limits_ok in Hl. unfold is_u64. cbn. lia.
    + apply Forall_fmap. eapply Forall_impl; [|exact Hok]. intros p (Hl & ? & _).
      unfold limits_ok in Hl. unfold is_u64. cbn. lia.
Qed.

Lemma try_fold_app {A S} (f : S -> A -> outcome S) s l k :
  try_fold f s (l ++ k) = s' ← try_fold f s l; try_fold f s' k.
Proof. revert s. induction l as [|a l IH]; intros s; cbn; [done|]. destruct (f s a); cbn; auto. Qed.

Lemma fill_group_ret (members : Members) rate :
  Forall (fun p => input_ok p.2) members -> small_length members ->
  sum_list ((fun p => minimum (input_limits p.2)) <$> members) <= rate <= u64_max ->
  exists ps, (forall v, fill_group v (members, rate) = try_fold write_ideal v ps) /\
    ps.*1 = members /\ sum_list ps.*2 <= rate /\
    Forall (fun p => in_range (share_of_member p.1) p.2) ps.
Proof.
  intros Hok Hlen Hrate.
  destruct (waterfill_ret rate (share_of_member <$> members)) as (rates & Hw & Hrange & Hsum).
  { apply Forall_fmap. eapply Forall_impl; [|exact Hok]. intros p Hp. by apply share_of_member_ok. }
  { unfold small_length in *. by rewrite length_fmap. }
  { lia. }
  { unfold min_sum. rewrite <-list_fmap_compose. unfold compose. cbn. lia. }
  pose proof (Forall2_length Hrange) as Hl. rewrite length_fmap in Hl.
  exists (zip members rates). split_and!.
  - intros v. unfold fill_group. cbn [fst snd]. rewrite (traverse_total _ share_of_member).
    { cbn. by rewrite Hw. }
    intros p Hp. apply share_of_member_ok.
    rewrite list.Forall_forall in Hok. by apply Hok.
  - apply fst_zip. lia.
  - rewrite snd_zip by lia. lia.
  - clear -Hrange. apply Forall_forall. intros [p r] Hin%list_elem_of_In%list_elem_of_lookup.
    destruct Hin as [i Hi]. apply lookup_zip_with_Some in Hi as (p' & r' & [= -> ->] & Hp & Hr).
    eapply Forall2_lookup_lr; [exact Hrange| |exact Hr]. by rewrite list_lookup_fmap, Hp.
Qed.

Definition group_rate_ok (members : Members) (rate : Z) : Prop :=
  Forall (fun p => input_ok p.2) members /\ small_length members /\
  sum_list ((fun p => minimum (input_limits p.2)) <$> members) <= rate <= u64_max.

Lemma fill_groups_ret (groups : list Members) rates :
  Forall2 group_rate_ok groups rates ->
  exists ps, (forall v, try_fold fill_group v (zip groups rates) = try_fold write_ideal v ps) /\
    ps.*1 = concat groups /\ sum_list ps.*2 <= sum_list rates /\
    Forall (fun p => in_range (share_of_member p.1) p.2) ps.
Proof.
  induction 1 as [|g r groups rates (Hok & Hlen & Hr) _ (ps & Hps & Hfst & Hsum & Hall)].
  { exists []. by split_and!. }
  destruct (fill_group_ret g r Hok Hlen Hr) as (qs & Hqs & Hqfst & Hqsum & Hqall).
  exists (qs ++ ps). split_and!.
  - intros v. cbn [zip zip_with try_fold]. rewrite try_fold_app, <-Hqs.
    destruct (fill_group v (g, r)); cbn; auto.
  - rewrite fmap_app, Hqfst, Hfst. done.
  - rewrite fmap_app. sum_simpl. lia.
  - by apply Forall_app.
Qed.

(** Every input gets an ideal rate inside its limits, and together they fit. *)
Definition ideal_ok (target : Z) (inputs : list AllocationInput) (ideal : list Z) : Prop :=
  Forall2 within_limits inputs ideal /\ sum_list ideal <= target.

Lemma ideal_values_ok (ps : list ((nat * AllocationInput) * Z)) :
  Forall (fun p => input_ok p.1.2) ps -> Forall (fun p => in_range (share_of_member p.1) p.2) ps ->
  Forall (fun p => within_limits p.1.2 (ideal_value p)) ps /\
  sum_list (ideal_value <$> ps) <= sum_list ps.*2.
Proof.
  intros Hok Hr. induction Hr as [|p ps Hp _ IH]; [split; [done|sum_simpl; lia]|].
  inversion_clear Hok as [|? ? Hpok Hok']. destruct (IH Hok') as [Hall Hsum].
  destruct Hpok as (Hl & _). unfold limits_ok in Hl. unfold in_range in Hp. cbn in Hp.
  pose proof (rounded_le p.2 ltac:(lia)).
  assert (within_limits p.1.2 (ideal_value p) /\ ideal_value p <= p.2) as [? ?].
  { unfold within_limits, rate_in, ideal_value. lia. }
  split; [by constructor|]. sum_simpl. lia.
Qed.

(** Written at every place of a zero vector, the ideal values are a vector for the
    inputs. *)
Lemma write_inputs (ps : list ((nat * AllocationInput) * Z)) inputs :
  ps.*1 ≡ₚ enumerate inputs -> Forall (fun p => within_limits p.1.2 (ideal_value p)) ps ->
  exists ideal, try_fold write_ideal (replicate (length inputs) 0) ps = Ret ideal /\
    Forall2 within_limits inputs ideal /\ sum_list ideal = sum_list (ideal_value <$> ps).
Proof.
  intros Hperm Hall.
  assert (Hin : forall i x, inputs !! i = Some x <-> exists r, ((i, x), r) ∈ ps).
  { intros i x. rewrite <-elem_of_enumerate, <-Hperm, list_elem_of_fmap. split.
    - intros ([p r] & -> & Hp). by exists r.
    - intros [r Hr]. by exists ((i, x), r). }
  destruct (write_all ps (replicate (length inputs) 0)) as (ideal & Hw & Hlen & Hv & _ & Hsum).
  - change (fun p : (nat * AllocationInput) * Z => p.1.1) with (compose (@fst nat AllocationInput) (@fst _ Z)).
    rewrite list_fmap_compose, Hperm, enumerate_fst. apply NoDup_seq.
  - intros [[i x] r] Hp. apply lookup_replicate. split; [done|]. cbn.
    apply lookup_lt_Some with x. apply Hin. eauto.
  - exists ideal. split_and!; [done| |].
    + rewrite length_replicate in Hlen. apply Forall2_same_length_lookup_2; [done|].
      intros i x y Hx Hy. apply Hin in Hx as [r Hr]. pose proof (Hv _ Hr) as Hval. cbn [fst] in Hval.
      rewrite Hval in Hy. injection Hy as <-.
      rewrite list.Forall_forall in Hall. apply (Hall _ Hr).
    + rewrite Hsum. clear. assert (sum_list (replicate (length inputs) 0) = 0) as ->; [|lia].
      induction inputs; cbn; sum_simpl; lia.
Qed.

Lemma sum_fmap_concat {A} (f : A -> Z) (ls : list (list A)) :
  sum_list (f <$> concat ls) = sum_list ((fun l => sum_list (f <$> l)) <$> ls).
Proof. induction ls as [|l ls IH]; [done|]. cbn. rewrite fmap_app, sum_list_app, IH. by sum_simpl. Qed.

(** The shares of groups that fit together fit one by one. *)
Lemma group_shares_ret target (groups : list Members) :
  Forall (Forall (fun p => input_ok p.2)) groups -> Forall small_length groups -> target <= u64_max ->
  sum_list ((fun p => minimum (input_limits p.2)) <$> concat groups) <= target ->
  traverse (group_share target) groups = Ret (share_of_group target <$> groups) /\
  Forall share_ok (share_of_group target <$> groups) /\
  min_sum (share_of_group target <$> groups)
    = sum_list ((fun p => minimum (input_limits p.2)) <$> concat groups).
Proof.
  intros Hok Hlen Ht Hsum. rewrite sum_fmap_concat in *.
  assert (Hle : Forall (fun g : Members => 0 <= sum_list ((fun p => minimum (input_limits p.2)) <$> g) <= target) groups).
  { rewrite list.Forall_forall in Hok. rewrite list.Forall_forall. intros g Hg.
    pose proof (limits_sum_le _ (Hok _ Hg)). split; [lia|]. etrans; [|exact Hsum].
    apply sum_list_elem.
    - apply Forall_fmap, list.Forall_forall. intros h Hh. apply (limits_sum_le _ (Hok _ Hh)).
    - apply list_elem_of_fmap. by exists g. }
  assert (Hall : Forall (fun g => share_ok (share_of_group target g) /\
      group_share target g = Ret (share_of_group target g)) groups).
  { rewrite list.Forall_forall in Hok, Hlen, Hle. rewrite list.Forall_forall. intros g Hg.
    apply share_of_group_ok; [by apply Hok|by apply Hlen|done|]. apply (Hle _ Hg). }
  split_and!.
  - apply traverse_total. intros g Hg. rewrite list.Forall_forall in Hall. by apply Hall.
  - apply Forall_fmap. eapply Forall_impl; [|exact Hall]. by intros g [? _].
  - unfold min_sum. by rewrite <-list_fmap_compose.
Qed.

Lemma groups_of_inputs inputs :
  Forall input_ok inputs -> small_length inputs ->
  exists groups, group_inputs inputs = Ret groups /\ concat (bt_values groups) ≡ₚ enumerate inputs /\
    Forall (Forall (fun p => input_ok p.2)) (bt_values groups) /\ Forall small_length (bt_values groups) /\
    small_length (bt_values groups).
Proof.
  intros Hok Hlen. rewrite list.Forall_forall in Hok.
  assert (Hen : forall p, p ∈ enumerate inputs -> input_ok p.2).
  { intros [i x] Hp%elem_of_enumerate. apply Hok. by eapply list_elem_of_lookup_2. }
  destruct (group_fold_ret ∅ (enumerate inputs)) as (groups & Hg & Hne & Hperm).
  { apply list.Forall_forall. intros p Hp%Hen. apply Hp. }
  { apply map_Forall_empty. }
  replace (bt_values (∅ : gmap (Z * AllocationGroup) Members)) with (@nil Members) in Hperm
    by (unfold bt_values; by rewrite entries_empty).
  cbn in Hperm. assert (Hl : length (concat (bt_values groups)) = length inputs) by
    (by rewrite Hperm, length_enumerate).
  exists groups. split_and!; [done|done| | |].
  - apply list.Forall_forall. intros g Hg'. apply list.Forall_forall. intros p Hp. apply Hen.
    rewrite <-Hperm. by eapply concat_elem.
  - apply list.Forall_forall. intros g Hg'%length_concat_elem. unfold small_length in *. lia.
  - pose proof (length_concat_nonempty (bt_values groups)) as Hb. unfold small_length in *.
    enough (length (bt_values groups) <= length (concat (bt_values groups)))%nat by lia. apply Hb.
    apply list.Forall_forall. intros g (k & Hk)%elem_of_bt_values. by apply Hne in Hk.
Qed.

Lemma ideal_rates_ret target inputs :
  Forall input_ok inputs -> small_length inputs -> 0 <= target <= u64_max -> required inputs <= target ->
  exists ideal, ideal_rates target inputs = Ret ideal /\ ideal_ok target inputs ideal.
Proof.
  intros Hok Hlen Ht Hreq.
  destruct (groups_of_inputs _ Hok Hlen) as (groups & Hg & Hperm & Hgok & Hglen & Hn).
  assert (Hmin : sum_list ((fun p => minimum (input_limits p.2)) <$> concat (bt_values groups)) = required inputs).
  { rewrite Hperm. unfold required. rewrite <-(enumerate_snd inputs) at 2.
    by rewrite <-list_fmap_compose. }
  destruct (group_shares_ret target (bt_values groups)) as (Hsh & Hshok & Hshmin); [done|done|lia|lia|].
  set (shares := share_of_group target <$> bt_values groups) in *.
  set (goal := Z.max (target - target / 20) (min_sum shares)).
  assert (Hgoal : goal <= target).
  { unfold goal. pose proof (Z.div_pos target 20). lia. }
  destruct (waterfill_ret goal shares) as (rates & Hw & Hrange & Hsum);
    [done|unfold shares, small_length in *; by rewrite length_fmap|lia|unfold goal; lia|].
  assert (Hgr : Forall2 group_rate_ok (bt_values groups) rates).
  { clear -Hrange Hgok Hglen Ht. unfold shares in Hrange. revert rates Hrange.
    induction (bt_values groups) as [|g gs IH]; intros rates Hrange; inversion Hrange as [|? r ? rs Hr Hrs]; [constructor|].
    inversion_clear Hgok. inversion_clear Hglen. constructor; [|by apply IH].
    unfold in_range in Hr. cbn in Hr. unfold group_rate_ok. split_and!; [done|done|lia|lia]. }
  destruct (fill_groups_ret _ _ Hgr) as (ps & Hps & Hfst & Hpsum & Hpr).
  assert (Hpok : Forall (fun p => input_ok p.1.2) ps).
  { apply list.Forall_forall. intros p Hp. assert (Hp1 : p.1 ∈ ps.*1) by (apply list_elem_of_fmap; eauto).
    rewrite Hfst, Hperm in Hp1. destruct p as [[i x] r]. apply elem_of_enumerate in Hp1.
    rewrite list.Forall_forall in Hok. apply Hok. by eapply list_elem_of_lookup_2. }
  destruct (ideal_values_ok ps Hpok Hpr) as [Hval Hvsum].
  destruct (write_inputs ps inputs) as (ideal & Hi & Hil & Hisum); [by rewrite Hfst|done|].
  exists ideal. split; [|split; [done|lia]].
  unfold ideal_rates. rewrite Hg. cbn. rewrite Hsh. cbn.
  rewrite u128_sum_u64.
  - cbn. fold (min_sum shares). destruct (Z.ltb_spec target (min_sum shares)); [lia|].
    rewrite u64_try_from_ret.
    2:{ unfold is_u64. split; [|lia]. apply sum_list_nonneg, Forall_fmap.
        eapply Forall_impl; [|exact Hshok]. intros s Hs. unfold share_ok in Hs. cbn. lia. }
    cbn. fold goal. rewrite Hw. cbn. by rewrite Hps.
  - apply Forall_fmap. eapply Forall_impl; [|exact Hshok]. intros s Hs. unfold share_ok in Hs.
    unfold is_u64. cbn. lia.
  - unfold shares, small_length in *. by rewrite !length_fmap.
Qed.

(** ** Settling succeeds *)

(** Each donor still has more than its ideal rate when it is visited. *)
Definition donates (ideal rates : list Z) (i : nat) : Prop :=
  exists rate goal, rates !! i = Some rate /\ ideal !! i = Some goal /\ 0 <= goal < rate /\ rate <= u64_max.

Lemma take_from_ret target increases ideal ds rates total :
  NoDup ds -> Forall (donates ideal rates) ds -> Forall (Z.le 0) rates -> total = sum_list rates ->
  0 <= increases -> total + increases <= u128_max ->
  exists rates', take_from target increases ideal ds rates total = Ret (rates', sum_list rates') /\
    length rates' = length rates /\
    (forall i, i ∉ ds -> rates' !! i = rates !! i) /\
    (forall i, i ∈ ds -> rates' !! i = rates !! i \/ rates' !! i = ideal !! i) /\
    (sum_list rates' + increases <= target \/ forall i, i ∈ ds -> rates' !! i = ideal !! i) /\
    sum_list rates' <= total.
Proof.
  revert rates total. induction ds as [|i ds IH]; intros rates total Hnd Hd Hnn Ht Hinc Hb; cbn [take_from].
  { exists rates. subst. split_and!; try done; [by intros i ?%not_elem_of_nil|right; by intros i ?%not_elem_of_nil]. }
  pose proof (sum_list_nonneg _ Hnn) as Hpos.
  unfold u128_add at 1. rewrite exact_ret by lia. cbn [mbind outcome_bind].
  destruct (Z.leb_spec (total + increases) target) as [Hfit|Hmore].
  { exists rates. subst. split_and!; try done; auto. }
  apply list.NoDup_cons in Hnd as [Hi Hnd]. apply list.Forall_cons in Hd as [(rate & goal & Hr & Hg & Hlt & Hmax) Hd'].
  assert (Hrs : rate <= sum_list rates) by (apply sum_list_elem; [done|by eapply list_elem_of_lookup_2]).
  unfold at_index, set_index. rewrite Hr. cbn [mbind outcome_bind]. rewrite Hg. cbn [mbind outcome_bind].
  unfold u64_sub. rewrite exact_ret by lia. cbn [mbind outcome_bind].
  unfold u128_sub. rewrite exact_ret by lia. cbn [mbind outcome_bind].
  pose proof (sum_list_insert rates i rate goal Hr) as Hs.
  destruct (IH (<[i:=goal]> rates) (total - (rate - goal))) as (rates' & Hrun & Hlen & Hout & Hin & Hor & Hle).
  - done.
  - apply list.Forall_forall. intros j Hj. rewrite list.Forall_forall in Hd'.
    destruct (Hd' j Hj) as (rj & gj & ? & ? & ?). exists rj, gj.
    rewrite list_lookup_insert_ne; [done|]. intros ->. done.
  - apply Forall_insert; [done|lia].
  - lia.
  - done.
  - lia.
  - exists rates'. rewrite length_insert in Hlen.
    assert (Hself : rates' !! i = ideal !! i).
    { rewrite Hout by done. rewrite Hg. apply list_lookup_insert_eq. by eapply lookup_lt_Some. }
    split_and!; [done|done| | | |lia].
    + intros j Hj. apply not_elem_of_cons in Hj as [Hji Hj]. rewrite Hout by done.
      by rewrite list_lookup_insert_ne.
    + intros j [->|Hj]%elem_of_cons; [by right|]. destruct (Hin j Hj) as [Hj'|]; [|by right].
      left. rewrite Hj'. apply list_lookup_insert_ne. by intros ->.
    + destruct Hor as [|Hall]; [by left|]. right. intros j [->|Hj]%elem_of_cons; auto.
Qed.

Lemma grant_ret target inputs ideal rates total :
  Forall2 within_limits inputs ideal -> Forall2 within_limits inputs rates ->
  Forall is_u64 ideal -> Forall is_u64 rates -> 0 <= total <= target -> target <= u64_max ->
  exists out, grant target inputs ideal rates total = Ret out.
Proof.
  intros Hi. revert rates total. induction Hi as [|input goal inputs ideal Hgoal Hi IH];
    intros rates total Hr Hiu Hru Ht Hmax; [by eexists|].
  inversion Hr as [|? rate ? rates' Hrate Hr']; subst. inversion_clear Hiu. inversion_clear Hru.
  cbn [grant].
  assert (exists g, (if worthwhile rate (sat_sub goal rate)
     then wanted ← u128_add total (sat_sub goal rate);
       Ret (if wanted <=? target then (goal, wanted) else (rate, total))
     else Ret (rate, total)) = Ret g /\ (g.1 = goal \/ g.1 = rate) /\ 0 <= g.2 <= target) as (g & -> & Hg & Hgt).
  { destruct (worthwhile _ _); [|exists (rate, total); auto].
    unfold u128_add. rewrite exact_ret.
    2:{ rewrite u128_max_val. rewrite u64_max_val in *. unfold sat_sub, is_u64 in *. rewrite u64_max_val in *. lia. }
    cbn. destruct (Z.leb_spec (total + sat_sub goal rate) target).
    - exists (goal, total + sat_sub goal rate). cbn. unfold sat_sub in *. split_and!; auto; lia.
    - exists (rate, total). auto. }
  cbn. rewrite validate_intro by (destruct Hg as [->| ->]; done). cbn.
  destruct (IH rates' g.2) as [out ->]; try done. by eexists.
Qed.

Lemma donors_spec inputs rates ideal :
  NoDup (donors inputs rates ideal) /\
  forall i, i ∈ donors inputs rates ideal <->
    (i < length inputs)%nat /\ default 0 (ideal !! i) < default 0 (rates !! i).
Proof.
  unfold donors. rewrite (merge_sort_Permutation (donor_le inputs rates ideal)). split.
  - apply list.NoDup_filter, NoDup_seq.
  - intros i. rewrite merge_sort_Permutation, list_elem_of_filter, elem_of_seq. intuition lia.
Qed.

Lemma within_u64 inputs rates :
  Forall input_ok inputs -> Forall2 within_limits inputs rates -> Forall is_u64 rates.
Proof.
  intros Hok H. induction H as [|input r inputs rates Hr _ IH]; [constructor|].
  inversion_clear Hok as [|? ? (Hl & Hm & _) Hok']. constructor; [|auto].
  unfold within_limits, rate_in in Hr. unfold limits_ok in Hl. unfold is_u64. lia.
Qed.

Lemma starting_rates_ok inputs ideal :
  Forall input_ok inputs -> Forall2 within_limits inputs ideal ->
  Forall2 within_limits inputs (starting_rates inputs ideal).
Proof.
  intros Hok H. induction H as [|input r inputs ideal Hr _ IH]; [constructor|].
  inversion_clear Hok as [|? ? Hi Hok']. constructor; [|by apply IH].
  destruct Hi as (_ & _ & _ & _ & _ & _ & Hc). by destruct (current input).
Qed.

Lemma increase_of_bounds rate goal : 0 <= rate -> 0 <= goal ->
  0 <= increase_of rate goal /\ increase_of rate goal <= Z.max 0 (goal - rate).
Proof. unfold increase_of, sat_sub. destruct (worthwhile _ _); lia. Qed.

(** Pointwise bounds on two parallel lists bound the sum of both. *)
Lemma sum_zip_le rates increases bound :
  length rates = length bound -> length increases = length bound ->
  (forall i r c b, rates !! i = Some r -> increases !! i = Some c -> bound !! i = Some b -> r + c <= b) ->
  sum_list rates + sum_list increases <= sum_list bound.
Proof.
  revert rates increases. induction bound as [|b bound IH]; intros [|r rates] [|c increases] Hr Hc H; try done.
  rewrite !sum_list_cons. assert (r + c <= b) by (apply (H 0%nat); done).
  assert (sum_list rates + sum_list increases <= sum_list bound); [|lia].
  apply IH; [by injection Hr|by injection Hc|]. intros i. apply (H (S i)).
Qed.

Lemma settle_rates_ret target inputs ideal :
  Forall input_ok inputs -> small_length inputs -> 0 <= target <= u64_max -> ideal_ok target inputs ideal ->
  exists rates, settle_rates target inputs ideal = Ret rates.
Proof.
  intros Hok Hlen Ht [Hid Hids].
  pose proof (starting_rates_ok _ _ Hok Hid) as Hst. set (rates := starting_rates inputs ideal) in *.
  pose proof (within_u64 _ _ Hok Hid) as Hidu. pose proof (within_u64 _ _ Hok Hst) as Hstu.
  pose proof (Forall2_length Hid) as Hil. pose proof (Forall2_length Hst) as Hrl.
  set (incs := zip_with increase_of rates ideal).
  assert (Hcl : length incs = length inputs) by (unfold incs; rewrite length_zip_with; lia).
  assert (Hlook : forall i, (i < length inputs)%nat -> exists r g, rates !! i = Some r /\ ideal !! i = Some g /\
    is_u64 r /\ is_u64 g /\ incs !! i = Some (increase_of r g)).
  { intros i Hi. destruct (lookup_lt_is_Some_2 rates i) as [r Hr]; [lia|].
    destruct (lookup_lt_is_Some_2 ideal i) as [g Hg]; [lia|]. exists r, g.
    pose proof (Forall_lookup_1 _ _ _ _ Hstu Hr). pose proof (Forall_lookup_1 _ _ _ _ Hidu Hg).
    unfold incs. rewrite lookup_zip_with, Hr. cbn. rewrite Hg. by split_and!. }
  assert (Hincu : Forall is_u64 incs).
  { apply Forall_lookup. intros i c Hc. pose proof (lookup_lt_Some _ _ _ Hc) as Hi.
    destruct (Hlook i ltac:(lia)) as (r & g & _ & _ & Hr & Hg & Hc'). unfold is_u64 in *.
    destruct (increase_of_bounds r g); [lia..|]. simplify_eq. lia. }
  assert (Hincs : 0 <= sum_list incs).
  { apply sum_list_nonneg. eapply Forall_impl; [|exact Hincu]. by intros x [? ?]. }
  assert (Htot : sum_list rates + sum_list incs <= u128_max).
  { etrans; [apply (sum_zip_le rates incs (replicate (length inputs) u64_max))|].
    - rewrite length_replicate. lia.
    - rewrite length_replicate. lia.
    - intros i r c b Hr Hc [-> Hi]%lookup_replicate. destruct (Hlook i Hi) as (r' & g & Hr' & _ & Hru & Hgu & Hc').
      unfold is_u64 in *. destruct (increase_of_bounds r' g); [lia..|]. simplify_eq. lia.
    - etrans; [apply sum_list_upper|].
      + apply list.Forall_forall. by intros x [-> _]%elem_of_replicate.
      + rewrite length_replicate. unfold small_length in Hlen. rewrite u64_max_val in *. rewrite u128_max_val. lia. }
  destruct (donors_spec inputs rates ideal) as [Hnd Hds].
  destruct (take_from_ret target (sum_list incs) ideal (donors inputs rates ideal) rates (sum_list rates))
    as (moved & Hrun & Hmlen & Hout & Hin & Hor & Hle); try done.
  { apply list.Forall_forall. intros i [Hi Hlt]%Hds. destruct (Hlook i Hi) as (r & g & Hr & Hg & Hru & Hgu & _).
    exists r, g. rewrite Hr, Hg in Hlt. cbn in Hlt. unfold is_u64 in *. split_and!; try done; lia. }
  { eapply Forall_impl; [|exact Hstu]. by intros x [? ?]. }
  assert (Hfit : sum_list moved + sum_list incs <= target).
  { destruct Hor as [|Hall]; [done|]. etrans; [|exact Hids]. apply sum_zip_le; [lia|lia|].
    intros i r c b Hr Hc Hb. pose proof (lookup_lt_Some _ _ _ Hb) as Hi.
    destruct (Hlook i ltac:(lia)) as (r0 & g & Hr0 & Hg & Hru & Hgu & Hc'). unfold is_u64 in *.
    destruct (increase_of_bounds r0 g) as [? Hub]; [lia..|].
    rewrite Hc' in Hc. injection Hc as <-. rewrite Hg in Hb. injection Hb as <-.
    destruct (decide (i ∈ donors inputs rates ideal)) as [Hd|Hd].
    - rewrite (Hall i Hd), Hg in Hr. apply Hds in Hd as [_ Hlt]. rewrite Hr0, Hg in Hlt. cbn in Hlt.
      simplify_eq. lia.
    - rewrite (Hout i Hd), Hr0 in Hr. injection Hr as <-.
      assert (~ g < r0); [|lia]. intros Hlt. apply Hd, Hds. rewrite Hr0, Hg. cbn. split; [lia|done]. }
  assert (Hmw : Forall2 within_limits inputs moved).
  { apply Forall2_same_length_lookup_2; [lia|]. intros i x y Hx Hy.
    destruct (decide (i ∈ donors inputs rates ideal)) as [Hd|Hd].
    - destruct (Hin i Hd) as [He|He]; rewrite He in Hy.
      + eapply (Forall2_lookup_lr _ _ _ i); [exact Hst|done|done].
      + eapply (Forall2_lookup_lr _ _ _ i); [exact Hid|done|done].
    - rewrite (Hout i Hd) in Hy. eapply (Forall2_lookup_lr _ _ _ i); [exact Hst|done|done]. }
  pose proof (within_u64 _ _ Hok Hmw) as Hmu.
  assert (0 <= sum_list moved) by (apply sum_list_nonneg; eapply Forall_impl; [|exact Hmu]; by intros x [? ?]).
  destruct (grant_ret target inputs ideal moved (sum_list moved)) as [out Hg]; try done; [lia|lia|].
  exists out. unfold settle_rates. fold rates. fold incs.
  rewrite u128_sum_u64 by (done || (unfold small_length in *; lia)). cbn [mbind outcome_bind].
  rewrite u128_sum_u64 by (done || (unfold small_length in *; lia)). cbn [mbind outcome_bind].
  rewrite Hrun. cbn [mbind outcome_bind snd fst]. unfold u128_add. rewrite exact_ret.
  - cbn [mbind outcome_bind]. unfold ensure. destruct (Z.leb_spec (sum_list moved + sum_list incs) target); [|lia].
    cbn [mbind outcome_bind]. done.
  - rewrite u128_max_val. rewrite u64_max_val in *. lia.
Qed.

Lemma allocate_ret target inputs :
  Forall input_ok inputs -> small_length inputs -> 0 <= target <= u64_max -> required inputs <= target ->
  exists rates, allocate target inputs = Ret rates.
Proof.
  intros Hok Hlen Ht Hreq. destruct (ideal_rates_ret target inputs) as (ideal & Hi & Hid); [done..|].
  destruct (settle_rates_ret target inputs ideal) as [rates Hr]; [done..|].
  exists rates. unfold allocate. by rewrite Hi.
Qed.

(** ** Properties *)

(** Filling shares never panics and its loop ends. A target below the
    sum of the minima is the typed budget error; otherwise every rate lies between its
    share's minimum and maximum, and the rates add up to the whole target, or to the
    sum of the maxima when that is smaller: no unit is lost to rounding. *)
Theorem waterfill_spec (target : Z) (shares : list Share) :
  Forall share_ok shares -> small_length shares -> target <= u64_max ->
  (target < min_sum shares /\ waterfill target shares = Fail (ErrBudget target (min_sum shares))) \/
  (min_sum shares <= target /\
   exists rates, waterfill target shares = Ret rates /\
     Forall2 in_range shares rates /\ sum_list rates = Z.min target (max_sum shares)).
Proof.
  intros Hok Hlen Ht. destruct (Z.lt_ge_cases target (min_sum shares)) as [Hlt|Hge].
  - left. split; [done|]. by apply waterfill_fail.
  - right. split; [done|]. by apply waterfill_ret.
Qed.

(** Whatever the inputs, a successful allocation gives every stream
    a rate its encoder accepts, and the rates never exceed the target: there is no
    overcommit. *)
Theorem allocate_safe (target : Z) (inputs : list AllocationInput) (rates : list Z) :
  allocate target inputs = Ret rates ->
  Forall2 within_limits inputs rates /\ sum_list rates <= target.
Proof. apply allocate_inv. Qed.

(** C34 (allocate-complete). On well-formed inputs, allocation succeeds exactly when the
    streams' minima fit the target: churn suppression, with donors giving up rate in
    order, always finds room for the worthwhile increases. *)
Theorem allocate_complete (target : Z) (inputs : list AllocationInput) :
  Forall input_ok inputs -> small_length inputs -> 0 <= target <= u64_max ->
  (exists rates, allocate target inputs = Ret rates) <-> required inputs <= target.
Proof.
  intros Hok Hlen Ht. split.
  - intros [rates H]. apply allocate_inv in H as [Hall Hsum]. etrans; [|exact Hsum]. unfold required.
    apply sum_list_le. clear -Hall. induction Hall as [|x r xs rs Hr _ IH]; constructor; [|done].
    unfold within_limits, rate_in in Hr. lia.
  - intros Hreq. by apply allocate_ret.
Qed.

(** ** Concrete inputs *)
Definition sample_shares : list Share := [MkShare 10 100 1; MkShare 5 20 3].
Definition sample_input (n g px : Z) (cur : option Z) (w : Z) : AllocationInput :=
  MkAllocationInput (1, MkMediaStreamId n)
    (1, Window (MkGroup sample_session (ClientSurfaceId_for_test g))) px 1 sample_limits cur w.
Definition sample_inputs : list AllocationInput :=
  [sample_input 1 1 1000 None 1; sample_input 2 1 3000 None 1; sample_input 3 2 500 (Some 7000000) 12].

Lemma waterfill_spec_witness :
  exists rates, waterfill 57 sample_shares = Ret rates /\ sum_list rates = 57.
Proof.
  destruct (waterfill_spec 57 sample_shares) as [[H _]|(_ & rates & Hw & _ & Hs)].
  - repeat constructor; cbn; rewrite ?u64_max_val; lia.
  - unfold small_length. rewrite u64_max_val. cbn. lia.
  - rewrite u64_max_val. lia.
  - exfalso. vm_compute in H. discriminate H.
  - exists rates. split; [exact Hw|]. rewrite Hs. vm_compute. reflexivity.
Defined.

Lemma allocate_safe_witness :
  allocate 10000000 sample_inputs = Ret [640000; 960000; 7000000] /\
  sum_list [640000; 960000; 7000000] <= 10000000.
Proof.
  assert (allocate 10000000 sample_inputs = Ret [640000; 960000; 7000000]) as H
    by (vm_compute; reflexivity).
  split; [exact H|]. exact (proj2 (allocate_safe _ _ _ H)).
Defined.

Lemma allocate_complete_witness : exists rates, allocate 10000000 sample_inputs = Ret rates.
Proof.
  apply (allocate_complete 10000000 sample_inputs).
  - repeat constructor; cbn; rewrite ?u64_max_val; unfold within_limits, rate_in; cbn; lia.
  - unfold small_length. rewrite u64_max_val. cbn. lia.
  - rewrite u64_max_val. lia.
  - vm_compute. congruence.
Defined.
