(* ===== verification/Budget.v ===== *)
(** * The shared bitrate budget ([weld-hoist-encoded/src/budget.rs])

    One coordinator divides a target over the streams of several source ports. Ports
    hold weak handles to their encoder registries, so the registries are a store of
    their own, addressed by the handle; the [RefCell] of the source is a flag that an
    operation started while it is set sees as an error, and a membership's [Rc] is the
    liveness flag of its port. Operations change the state even when they fail, so they
    return the new state next to the result. *)

From S2P Require Import Prelude OrdMap Ids Bitrate Surface Input Activity Attention Allocation.

(** ** State *)
Record StreamDemand := MkDemand {
  demand_stream : MediaStreamId;
  demand_group : Group;
  demand_pixels : Z;
  demand_preference : option SurfaceBitratePreference;
}.
#[export] Instance StreamDemand_eq_dec : EqDecision StreamDemand.
Proof. solve_decision. Defined.

Record PortInventory := MkPort {
  live : bool;
  control : Z;
  port_limits : EncoderBitrateLimits;
  demands : list StreamDemand;
  port_attention : gmap Group GroupAttention;
  port_focus : QualityFocus;
}.

Record BudgetState := MkBudgetState {
  target : Z;
  policy : BitrateAllocationPolicy;
  next_port : option Z;
  ports : gmap Z PortInventory;
  targets : gmap StreamKey Z;
  priorities : gmap (Z * Group) Priority;
}.

(** [Coordinator], with the registries its handles point to. *)
Record Coordinator := MkCoordinator {
  state : BudgetState;
  borrowed : bool;
  dirty : bool;
  registries : gmap Z Registry;
}.

Definition set_state (s : BudgetState) (c : Coordinator) : Coordinator :=
  MkCoordinator s (borrowed c) (dirty c) (registries c).
Definition set_dirty (d : bool) (c : Coordinator) : Coordinator :=
  MkCoordinator (state c) (borrowed c) d (registries c).
Definition set_registries (r : gmap Z Registry) (c : Coordinator) : Coordinator :=
  MkCoordinator (state c) (borrowed c) (dirty c) r.
Definition set_ports (p : gmap Z PortInventory) (s : BudgetState) : BudgetState :=
  MkBudgetState (target s) (policy s) (next_port s) p (targets s) (priorities s).
Definition set_target_rate (t : Z) (s : BudgetState) : BudgetState :=
  MkBudgetState t (policy s) (next_port s) (ports s) (targets s) (priorities s).
Definition set_focus (q : QualityFocus) (p : PortInventory) : PortInventory :=
  MkPort (live p) (control p) (port_limits p) (demands p) (port_attention p) q.
Definition set_port_attention (a : gmap Group GroupAttention) (p : PortInventory) : PortInventory :=
  MkPort (live p) (control p) (port_limits p) (demands p) a (port_focus p).
Definition set_demands (d : list StreamDemand) (p : PortInventory) : PortInventory :=
  MkPort (live p) (control p) (port_limits p) d (port_attention p) (port_focus p).
Definition set_dead (p : PortInventory) : PortInventory :=
  MkPort false (control p) (port_limits p) (demands p) (port_attention p) (port_focus p).

Definition borrow_error : error := ErrMsg "already mutably borrowed".

(** ** The refresh loop *)

(** The priority of each group of a port. *)
Definition port_priority (policy : BitrateAllocationPolicy) (now : instant) (p : PortInventory)
    (g : Group) (a : GroupAttention) : Priority :=
  quality_priority policy a (bool_decide (settled (port_focus p) = Some g)) now.
Definition port_priorities (policy : BitrateAllocationPolicy) (now : instant) (id : Z) (p : PortInventory) :
    list ((Z * Group) * Priority) :=
  (fun e : Group * GroupAttention => ((id, e.1), port_priority policy now p e.1 e.2)) <$> entries (port_attention p).

(** [collect::<BTreeMap<_, _>>()]: a later entry replaces an earlier one. *)
Definition collect_map {K V} `{Countable K} (l : list (K * V)) : gmap K V :=
  fold_left (fun m p => <[p.1 := p.2]> m) l ∅.

Definition all_priorities (now : instant) (s : BudgetState) : gmap (Z * Group) Priority :=
  collect_map (flat_map (fun e => port_priorities (policy s) now e.1 e.2) (entries (ports s))).

(** [priorities.get(...) != Some(&policy.priority(...))] for some group of some port *)
Definition priorities_changed (now : instant) (s : BudgetState) : bool :=
  existsb (fun e => existsb (fun p => bool_decide (priorities s !! p.1 <> Some p.2))
                      (port_priorities (policy s) now e.1 e.2)) (entries (ports s)).

Definition demand_input (s : BudgetState) (priorities : gmap (Z * Group) Priority)
    (original : gmap StreamKey Z) (id : Z) (p : PortInventory) (d : StreamDemand) : AllocationInput :=
  MkAllocationInput (id, demand_stream d)
    (id, AllocationGroup_new (demand_group d) (demand_preference d))
    (demand_pixels d)
    (match demand_preference d with
     | None => 1
     | Some preference => role_weight (policy s) (preference_role preference)
     end)
    (port_limits p)
    (original !! (id, demand_stream d))
    (weight_of (weights (policy s)) (default Background (priorities !! (id, demand_group d)))).

Definition budget_inputs (s : BudgetState) (priorities : gmap (Z * Group) Priority)
    (original : gmap StreamKey Z) : list AllocationInput :=
  flat_map (fun e => demand_input s priorities original e.1 e.2 <$> demands e.2) (entries (ports s)).

(** A port's registry handle; a handle without a registry is disconnected. *)
Definition request_through (registries : gmap Z Registry) (control : Z) (stream : MediaStreamId) (rate : Z) :
    outcome (gmap Z Registry) :=
  match registries !! control with
  | Some r => '(r, _) ← request_managed r stream rate; Ret (<[control := r]> registries)
  | None => Fail (ErrMsg "encoder rate control is disconnected")
  end.

(** One publication; ports whose actuator failed are skipped. *)
Definition publish (c : gset Z * gmap Z Registry) (publication : Z * Z * MediaStreamId * Z) :
    gset Z * gmap Z Registry :=
  let '(port, control, stream, rate) := publication in
  if bool_decide (port ∈ c.1) then c
  else match request_through c.2 control stream rate with
       | Ret registries => (c.1, registries)
       | _ => ({[port]} ∪ c.1, c.2)
       end.

Definition publications (s : BudgetState) (inputs : list AllocationInput) (rates : list Z) :
    outcome (list (Z * Z * MediaStreamId * Z)) :=
  traverse (fun p => port ← opt_context (ports s !! (key p.1).1) "bitrate budget port disappeared";
                     Ret ((key p.1).1, control port, (key p.1).2, p.2))
    (zip inputs rates).

Definition drop_failed (failed : gset Z) (s : BudgetState) : BudgetState :=
  MkBudgetState (target s) (policy s) (next_port s)
    (filter (fun e => e.1 ∉ failed) (ports s))
    (filter (fun e => e.1.1 ∉ failed) (targets s))
    (filter (fun e => e.1.1 ∉ failed) (priorities s)).

(** One pass: forget dead ports, allocate, publish, and either store the result or
    remove the ports whose actuator failed. The flag says whether the pass was the
    last one. *)
Definition refresh_pass (now : instant) (original : gmap StreamKey Z) (c : Coordinator) :
    Coordinator * outcome bool :=
  let s := set_ports (filter (fun e => live e.2 = true) (ports (state c))) (state c) in
  let c := set_state s c in
  let prios := all_priorities now s in
  let inputs := budget_inputs s prios original in
  match (rates ← allocate (target s) inputs; pubs ← publications s inputs rates; Ret (rates, pubs)) with
  | Fail e => (c, Fail e)
  | Panic => (c, Panic)
  | Ret (rates, pubs) =>
      let published := fold_left publish pubs (∅, registries c) in
      let c := set_registries published.2 c in
      if bool_decide (published.1 = ∅) then
        (set_dirty false (set_state
           (MkBudgetState (target s) (policy s) (next_port s) (ports s)
              (collect_map (zip (key <$> inputs) rates)) prios) c), Ret true)
      else (set_state (drop_failed published.1 s) c, Ret false)
  end.

(** [loop { ... }]; [None] when the fuel runs out. *)
Fixpoint refresh_loop (fuel : nat) (now : instant) (original : gmap StreamKey Z) (c : Coordinator) :
    option (Coordinator * outcome unit) :=
  match fuel with
  | O => None
  | S fuel =>
      match refresh_pass now original c with
      | (c, Ret true) => Some (c, Ret tt)
      | (c, Ret false) => refresh_loop fuel now original c
      | (c, Fail e) => Some (c, Fail e)
      | (c, Panic) => Some (c, Panic)
      end
  end.

Definition advance_focus (now : instant) (s : BudgetState) : BudgetState :=
  set_ports ((fun p => set_focus (advance now (focus_settle (policy s)) (port_focus p)) p) <$> ports s) s.

(** [SharedBitrateBudget::refresh_at]; a failing pass removes a port, so one pass more
    than there are ports is enough fuel. *)
Definition refresh_at (now : instant) (c : Coordinator) : Coordinator * outcome unit :=
  if borrowed c then (c, Fail borrow_error)
  else
    let s := advance_focus now (state c) in
    let c := set_state s c in
    if negb (dirty c) && negb (priorities_changed now s) then (c, Ret tt)
    else
      let c := set_dirty true c in
      match refresh_loop (S (size (ports s))) now (targets s) c with
      | Some result => result
      | None => (c, Panic)
      end.

(** ** Operations of the shared handle *)

(** [BudgetState::check_minimum] *)
Definition port_count (id : Z) (p : PortInventory) (replacement : option (Z * Z)) : Z :=
  match replacement with
  | Some (candidate, count) => if candidate =? id then count else Z.of_nat (length (demands p))
  | None => Z.of_nat (length (demands p))
  end.
Definition check_minimum (s : BudgetState) (target : Z) (replacement : option (Z * Z)) : outcome unit :=
  required ← try_fold (fun sum e =>
      cost ← u128_mul (minimum (port_limits e.2)) (port_count e.1 e.2 replacement);
      opt_context (checked u128_max (sum + cost)) "bitrate reservation sum overflow")
    0 (filter (fun e : Z * PortInventory => live e.2 = true) (entries (ports s)));
  if target <? required then Fail (ErrBudget target required) else Ret tt.

(** [SharedBitrateBudget::with_policy] *)
Definition with_policy (bits_per_second : Z) (policy : BitrateAllocationPolicy)
    (registries : gmap Z Registry) : outcome Coordinator :=
  _ ← validate_policy policy;
  _ ← ensure (0 <? bits_per_second) "shared bitrate target must be positive";
  Ret (MkCoordinator (MkBudgetState bits_per_second policy (Some 1) ∅ ∅ ∅) false false registries).

(** [SharedBitrateBudget::set_target]; the clock is read once. *)
Definition set_target (bits_per_second : Z) (now : instant) (c : Coordinator) : Coordinator * outcome unit :=
  match ensure (0 <? bits_per_second) "shared bitrate target must be positive" with
  | Ret _ =>
      match refresh_at now c with
      | (c, Ret _) =>
          if borrowed c then (c, Fail borrow_error)
          else
            match check_minimum (state c) bits_per_second None with
            | Ret _ =>
                let c := if negb (target (state c) =? bits_per_second)
                         then set_dirty true (set_state (set_target_rate bits_per_second (state c)) c)
                         else c in
                refresh_at now c
            | Fail e => (c, Fail e)
            | Panic => (c, Panic)
            end
      | (c, r) => (c, r)
      end
  | Fail e => (c, Fail e)
  | Panic => (c, Panic)
  end.

Record BitrateBudgetSnapshot := MkBudgetSnapshot {
  snapshot_target : Z;
  allocated : Z;
  snapshot_streams : Z;
}.
(** [SharedBitrateBudget::snapshot] *)
Definition budget_snapshot (now : instant) (c : Coordinator) : Coordinator * outcome BitrateBudgetSnapshot :=
  match refresh_at now c with
  | (c, Ret _) =>
      if borrowed c then (c, Fail borrow_error)
      else (c, allocated ← try_fold u64_add 0 (bt_values (targets (state c)));
               Ret (MkBudgetSnapshot (target (state c)) allocated (Z.of_nat (size (targets (state c))))))
  | (c, Fail e) => (c, Fail e)
  | (c, Panic) => (c, Panic)
  end.

(** [SharedBitrateBudget::attach] of the registry a control points to; the result is
    the membership's port identity. *)
Definition attach (handle : Z) (now : instant) (c : Coordinator) : Coordinator * outcome Z :=
  match refresh_at now c with
  | (c, Ret _) =>
      let found := opt_context (registries c !! handle) "encoder rate control is disconnected" in
      match (r ← found; limits ← control_limits r; Ret (r, limits)) with
      | Ret (r, limits) =>
          if borrowed c then (c, Fail borrow_error)
          else
            match (id ← opt_context (next_port (state c)) "bitrate budget port identity exhausted";
                   r ← manage r; Ret (id, r)) with
            | Ret (id, r) =>
                let s := state c in
                let port := MkPort true handle limits [] ∅ QualityFocus_default in
                (set_registries (<[handle := r]> (registries c))
                   (set_state (MkBudgetState (target s) (policy s) (checked_add id 1)
                      (<[id := port]> (ports s)) (targets s) (priorities s)) c), Ret id)
            | Fail e => (c, Fail e)
            | Panic => (c, Panic)
            end
      | Fail e => (c, Fail e)
      | Panic => (c, Panic)
      end
  | (c, Fail e) => (c, Fail e)
  | (c, Panic) => (c, Panic)
  end.

(** ** Operations of a membership *)

(** [BudgetMembership::preflight] *)
Definition preflight (id : Z) (count : Z) (now : instant) (c : Coordinator) : Coordinator * outcome unit :=
  match refresh_at now c with
  | (c, Ret _) =>
      if borrowed c then (c, Fail borrow_error)
      else (c, _ ← ensure (bool_decide (is_Some (ports (state c) !! id))) "bitrate budget membership retired";
               check_minimum (state c) (target (state c)) (Some (id, count)))
  | (c, r) => (c, r)
  end.

(** The attention entries for a new inventory: groups without a demand go, new groups
    start without attention. *)
Definition inventory_attention (a : gmap Group GroupAttention) (demands : list StreamDemand) :
    gmap Group GroupAttention :=
  fold_left (fun a d => match a !! demand_group d with
                        | Some _ => a
                        | None => <[demand_group d := GroupAttention_default]> a
                        end) demands
    (filter (fun e => existsb (fun d => bool_decide (demand_group d = e.1)) demands = true) a).

(** [BudgetMembership::update_inventory] *)
Definition update_inventory (id : Z) (demands' : list StreamDemand) (c : Coordinator) :
    Coordinator * outcome unit :=
  if borrowed c then (c, Fail borrow_error)
  else
    let s := state c in
    match (_ ← check_minimum s (target s) (Some (id, Z.of_nat (length demands')));
           opt_context (ports s !! id) "bitrate budget membership retired") with
    | Ret port =>
        if bool_decide (demands port <> demands') then
          let port := set_demands demands'
                        (set_port_attention (inventory_attention (port_attention port) demands') port) in
          (set_dirty true (set_state (set_ports (<[id := port]> (ports s)) s) c), Ret tt)
        else (c, Ret tt)
    | Fail e => (c, Fail e)
    | Panic => (c, Panic)
    end.

(** [BudgetMembership::update_attention] *)
Definition update_attention (id : Z) (a : gmap Group GroupAttention) (now : instant) (c : Coordinator) :
    Coordinator * outcome unit :=
  if borrowed c then (c, Fail borrow_error)
  else
    let s := state c in
    match ports s !! id with
    | None => (c, Fail (ErrMsg "bitrate budget membership retired"))
    | Some port =>
        let port := set_focus (observe_quality a now (policy s) (port_focus port)) port in
        let port := set_port_attention
                      (map_imap (fun g _ => Some (default GroupAttention_default (a !! g))) (port_attention port))
                      port in
        match refresh_at now (set_state (set_ports (<[id := port]> (ports s)) s) c) with
        | (c, Ret _) =>
            if borrowed c then (c, Fail borrow_error)
            else (c, ensure (bool_decide (is_Some (ports (state c) !! id))) "bitrate budget membership retired")
        | (c, r) => (c, r)
        end
    end.

(** [BudgetMembership::priority] *)
Definition membership_priority (id : Z) (g : Group) (c : Coordinator) : option Priority :=
  if borrowed c then None else priorities (state c) !! (id, g).

(** [Drop for BudgetMembership] *)
Definition drop_membership (id : Z) (now : instant) (c : Coordinator) : Coordinator :=
  let c := set_dirty true (set_state (set_ports (alter set_dead id (ports (state c))) (state c)) c) in
  if borrowed c then c else (refresh_at now c).1.

(** ** Well-formed budgets *)
Definition limits_u64 (l : EncoderBitrateLimits) : Prop := limits_ok l /\ maximum l <= u64_max.
Definition policy_ok (p : BitrateAllocationPolicy) : Prop :=
  Forall (fun w => 0 < w <= u16_max) (weight_list p).
Definition area_of (p : BitrateAllocationPolicy) (d : StreamDemand) : Z :=
  match demand_preference d with
  | None => 1
  | Some preference => role_weight p (preference_role preference)
  end.
Definition demand_ok (p : BitrateAllocationPolicy) (d : StreamDemand) : Prop :=
  0 < demand_pixels d /\ demand_pixels d * area_of p d <= u64_max.
Definition port_ok (p : BitrateAllocationPolicy) (port : PortInventory) : Prop :=
  limits_u64 (port_limits port) /\ Forall (demand_ok p) (demands port) /\
  NoDup (demand_stream <$> demands port).

(** The minima reserved by the live ports, with one port's stream count replaced. *)
Definition reservation (s : BudgetState) (replacement : option (Z * Z)) : Z :=
  sum_list ((fun e => minimum (port_limits e.2) * port_count e.1 e.2 replacement) <$>
    filter (fun e : Z * PortInventory => live e.2 = true) (entries (ports s))).

Definition rates_within (targets : gmap StreamKey Z) (ports : gmap Z PortInventory) : Prop :=
  forall id stream rate port,
    targets !! (id, stream) = Some rate -> ports !! id = Some port -> rate_in (port_limits port) rate.

Definition total_targets (s : BudgetState) : Z := sum_list (bt_values (targets s)).

(** Everything but the stored targets fitting the current target, which a change of
    target suspends until the next refresh. *)
Definition State_pre (s : BudgetState) : Prop :=
  policy_ok (policy s) /\ 0 < target s <= u64_max /\
  map_Forall (fun _ port => port_ok (policy s) port) (ports s) /\
  (forall i j p q, ports s !! i = Some p -> ports s !! j = Some q -> control p = control q -> i = j) /\
  reservation s None <= target s /\
  rates_within (targets s) (ports s) /\
  (forall id, is_Some (ports s !! id) \/ (exists stream, is_Some (targets s !! (id, stream))) ->
     match next_port s with Some n => id < n | None => True end).
Definition State_ok (s : BudgetState) : Prop :=
  State_pre s /\ Forall (Z.le 0) (bt_values (targets s)) /\ total_targets s <= target s.

Lemma entries_filter {K V} `{OrdKey K} (P : K * V -> Prop) `{!forall x, Decision (P x)} (m : gmap K V) :
  entries (filter P m) ≡ₚ filter P (entries m).
Proof.
  apply NoDup_Permutation; [apply entries_NoDup|apply list.NoDup_filter, entries_NoDup|].
  intros [k v]. rewrite list_elem_of_filter, !elem_of_entries, map_lookup_filter_Some. tauto.
Qed.

(** Sums of nonnegative entries grow with the map. *)
Lemma sum_map_le {K V} `{Countable K} (f : K * V -> Z) (m m' : gmap K V) :
  m ⊆ m' -> (forall k v, m' !! k = Some v -> 0 <= f (k, v)) ->
  sum_list (f <$> map_to_list m) <= sum_list (f <$> map_to_list m').
Proof.
  intros Hsub Hf. apply map_to_list_submseteq, submseteq_Permutation in Hsub as [l Hl].
  rewrite Hl, fmap_app, sum_list_app.
  assert (0 <= sum_list (f <$> l)); [|lia].
  apply sum_list_nonneg, Forall_fmap, list.Forall_forall. intros [k v] Hin. apply Hf.
  apply elem_of_map_to_list. rewrite Hl. set_solver.
Qed.

Lemma map_filter_mono_sub {K V} `{Countable K} (P : K * V -> Prop) `{!forall x, Decision (P x)} (m m' : gmap K V) :
  m ⊆ m' -> filter P m ⊆ filter P m'.
Proof.
  intros Hsub. apply map_subseteq_spec. intros k v. rewrite !map_lookup_filter_Some.
  intros [Hk HP]. split; [by eapply lookup_weaken|done].
Qed.

Lemma reservation_le s ports' :
  ports' ⊆ ports s -> map_Forall (fun _ port => port_ok (policy s) port) (ports s) ->
  reservation (set_ports ports' s) None <= reservation s None.
Proof.
  intros Hsub Hok. unfold reservation. cbn [ports set_ports].
  rewrite <-!entries_filter, !entries_perm.
  apply sum_map_le.
  - by apply map_filter_mono_sub.
  - intros i p Hin. apply map_lookup_filter_Some in Hin as [Hin _].
    destruct (Hok _ _ Hin) as ((Hl & _) & _). unfold limits_ok in Hl. cbn. nia.
Qed.

Lemma check_minimum_inv s t replacement :
  check_minimum s t replacement = Ret tt -> reservation s replacement <= t.
Proof.
  unfold check_minimum, reservation. intros H. inv_ret.
  assert (x = 0 + sum_list ((fun e => minimum (port_limits e.2) * port_count e.1 e.2 replacement) <$>
    filter (fun e : Z * PortInventory => live e.2 = true) (entries (ports s)))) as ->.
  { revert H0. generalize 0 at 1 2. generalize (filter (fun e : Z * PortInventory => live e.2 = true) (entries (ports s))).
    intros l. induction l as [|e l IH]; intros a Hf; cbn in Hf; [injection Hf as <-; sum_simpl; lia|].
    apply bind_Ret_inv in Hf as (y & Hy & Hf). apply bind_Ret_inv in Hy as (z & Hz & Hy).
    apply exact_ret_inv in Hz as [-> _]. apply opt_context_Ret_inv, checked_Some in Hy as [-> _].
    apply IH in Hf. sum_simpl. lia. }
  destruct (Z.ltb_spec t (0 + sum_list ((fun e => minimum (port_limits e.2) * port_count e.1 e.2 replacement) <$>
    filter (fun e : Z * PortInventory => live e.2 = true) (entries (ports s))))); [done|lia].
Qed.

Definition cost_ok (replacement : option (Z * Z)) (e : Z * PortInventory) : Prop :=
  0 <= minimum (port_limits e.2) * port_count e.1 e.2 replacement <= u128_max.

Lemma check_minimum_cases s t replacement :
  Forall (cost_ok replacement) (filter (fun e : Z * PortInventory => live e.2 = true) (entries (ports s))) ->
  (exists e, check_minimum s t replacement = Fail e) \/
  (check_minimum s t replacement = Ret tt /\ reservation s replacement <= t).
Proof.
  intros Hc.
  assert ((exists e, check_minimum s t replacement = Fail e) \/ check_minimum s t replacement = Ret tt) as [|H]; [|by left|].
  { unfold check_minimum. revert Hc. generalize 0.
    generalize (filter (fun e : Z * PortInventory => live e.2 = true) (entries (ports s))).
    intros l a Hc. revert a. induction Hc as [|e l He _ IH]; intros a; cbn.
    - destruct (t <? a); [left; by eexists|by right].
    - assert (u128_mul (minimum (port_limits e.2)) (port_count e.1 e.2 replacement) =
        Ret (minimum (port_limits e.2) * port_count e.1 e.2 replacement)) as -> by (by apply exact_ret). cbn. destruct (checked _ _); cbn; [apply IH|left; by eexists]. }
  right. split; [done|]. by apply check_minimum_inv.
Qed.

Lemma reservation_costs s :
  map_Forall (fun _ port => port_ok (policy s) port) (ports s) -> reservation s None <= u64_max ->
  Forall (cost_ok None) (filter (fun e : Z * PortInventory => live e.2 = true) (entries (ports s))).
Proof.
  intros Hok Hres. unfold reservation in Hres. revert Hres.
  assert (Hnn : Forall (fun e : Z * PortInventory => 0 <= minimum (port_limits e.2) * port_count e.1 e.2 None)
    (filter (fun e : Z * PortInventory => live e.2 = true) (entries (ports s)))).
  { apply list.Forall_forall. intros [i p] [_ Hin%elem_of_entries]%list_elem_of_filter.
    destruct (Hok _ _ Hin) as ((Hl & _) & _). unfold limits_ok in Hl. cbn. nia. }
  assert (u64_max <= u128_max) by (vm_compute; congruence).
  induction Hnn as [|e l He Hl IH]; [constructor|]. rewrite fmap_cons, sum_list_cons. intros Hs.
  assert (0 <= sum_list ((fun e => minimum (port_limits e.2) * port_count e.1 e.2 None) <$> l)) by
    (by apply sum_list_nonneg, Forall_fmap).
  constructor; [unfold cost_ok; lia|]. apply IH. lia.
Qed.

Lemma required_inputs s prios original :
  required (budget_inputs s prios original) =
  sum_list ((fun e => minimum (port_limits e.2) * port_count e.1 e.2 None) <$> entries (ports s)).
Proof.
  unfold required, budget_inputs. induction (entries (ports s)) as [|e l IH]; [done|]. cbn [flat_map].
  rewrite fmap_app, sum_list_app, fmap_cons, sum_list_cons, IH. f_equal.
  unfold port_count. induction (demands e.2) as [|d ds IHd]; cbn [fmap list_fmap length]; [sum_simpl; lia|].
  rewrite sum_list_cons, IHd. cbn. lia.
Qed.

(** ** Publishing *)

(** The bitrate a registry is asked for, for one stream. *)
Definition intent (registries : gmap Z Registry) (control : Z) (stream : MediaStreamId) : option Z :=
  registries !! control ≫= fun r => streams (registry_data r) !! stream ≫= fun e =>
    Some (bits_per_second (requested (status e))).

Definition registries_ok (owned : Z -> Prop) (registries : gmap Z Registry) : Prop :=
  map_Forall (fun h r => limits_u64 (limits r) /\ (owned h -> managed (registry_data r) = true)) registries.

(** The handles of the ports. *)
Definition owned (ports : gmap Z PortInventory) (h : Z) : Prop :=
  exists i p, ports !! i = Some p /\ control p = h.

Lemma registries_ok_mono (o o' : Z -> Prop) registries :
  (forall h, o' h -> o h) -> registries_ok o registries -> registries_ok o' registries.
Proof. intros Ho Hok h r Hr. destruct (Hok _ _ Hr) as [? Hm]. split; [done|]. intros Hh. by apply Hm, Ho. Qed.

Lemma owned_fmap (f : PortInventory -> PortInventory) ports h :
  (forall p, control (f p) = control p) -> owned (f <$> ports) h -> owned ports h.
Proof. intros Hf (i & p & (q & <- & Hq)%lookup_fmap_Some & <-). exists i, q. by rewrite Hf. Qed.

Lemma owned_sub ports ports' h : ports' ⊆ ports -> owned ports' h -> owned ports h.
Proof. intros Hsub (i & p & Hp & <-). exists i, p. split; [|done]. by eapply lookup_weaken. Qed.

Lemma request_through_inv registries control stream rate registries' :
  request_through registries control stream rate = Ret registries' ->
  intent registries' control stream = Some rate /\
  (forall c s, (c, s) <> (control, stream) -> intent registries' c s = intent registries c s) /\
  (forall o, registries_ok o registries -> registries_ok o registries').
Proof.
  unfold request_through. destruct (registries !! control) as [r|] eqn:Hr; [|done]. intros H.
  apply bind_Ret_inv in H as ([r' q] & Hq & H). injection H as <-.
  apply request_inner_inv in Hq as (Hin & Hman & Hst & _ & e & He & Hcase).
  assert (Hrl : forall o, registries_ok o registries -> limits_u64 (limits r) /\
    (o control -> managed (registry_data r) = true)) by (intros o Hok; apply (Hok _ _ Hr)).
  destruct Hcase as [(Hb & -> & ->)|(Hb & Hc & Hq & ->)]; unfold intent; split_and!.
  - rewrite lookup_insert_eq. cbn. rewrite He. cbn. by rewrite Hb.
  - intros c s Hne. destruct (decide (c = control)) as [->|]; [by rewrite lookup_insert_eq, Hr|].
    by rewrite lookup_insert_ne.
  - intros o Hok. apply map_Forall_insert_2; [by apply Hrl|done].
  - rewrite lookup_insert_eq. cbn. rewrite lookup_insert_eq. cbn. by rewrite Hq.
  - intros c s Hne. destruct (decide (c = control)) as [->|]; [|by rewrite lookup_insert_ne].
    rewrite lookup_insert_eq, Hr. cbn. rewrite lookup_insert_ne; [done|]. congruence.
  - intros o Hok. apply map_Forall_insert_2; [|done]. by apply Hrl.
Qed.

Definition publication : Type := Z * Z * MediaStreamId * Z.

Lemma publish_frame o p failed registries :
  registries_ok o registries -> registries_ok o (publish (failed, registries) p).2 /\
  failed ⊆ (publish (failed, registries) p).1 /\
  (publish (failed, registries) p).1 ⊆ {[p.1.1.1]} ∪ failed.
Proof.
  destruct p as [[[port control] stream] rate]. cbn. case_bool_decide; [cbn; set_solver|].
  destruct (request_through _ _ _ _) as [r'| |] eqn:Hr; cbn; [|set_solver..].
  apply request_through_inv in Hr as (_ & _ & Hok). set_solver.
Qed.

Lemma publish_all_frame o ps failed registries :
  registries_ok o registries -> registries_ok o (fold_left publish ps (failed, registries)).2 /\
  failed ⊆ (fold_left publish ps (failed, registries)).1 /\
  (fold_left publish ps (failed, registries)).1 ⊆ list_to_set ((fun p : publication => p.1.1.1) <$> ps) ∪ failed.
Proof.
  revert failed registries. induction ps as [|p ps IH]; intros failed registries Hok; [cbn; set_solver|].
  cbn [fold_left]. destruct (publish_frame o p failed registries Hok) as (Hok' & Hsub & Hup).
  destruct (publish (failed, registries) p) as [failed' registries']. cbn in *.
  destruct (IH failed' registries' Hok') as (? & ? & ?). set_solver.
Qed.

(** When nothing failed, every publication is the registries' current intent. *)
Lemma publish_all_intent ps failed registries registries' :
  fold_left publish ps (failed, registries) = (∅, registries') ->
  NoDup ((fun p : publication => (p.1.1.2, p.1.2)) <$> ps) ->
  (forall p, p ∈ ps -> intent registries' p.1.1.2 p.1.2 = Some p.2) /\
  (forall c s, (c, s) ∉ ((fun p : publication => (p.1.1.2, p.1.2)) <$> ps) ->
     intent registries' c s = intent registries c s).
Proof.
  revert failed registries. induction ps as [|p ps IH]; intros failed registries H Hnd.
  { cbn in H. simplify_eq. split; [by intros p ?%not_elem_of_nil|done]. }
  rewrite fmap_cons in Hnd. apply list.NoDup_cons in Hnd as [Hnotin Hnd]. cbn [fold_left] in H.
  destruct p as [[[port control] stream] rate]. cbn [fst snd] in *. cbn [publish fst snd] in H.
  assert (Hempty : forall f r, fold_left publish ps (f, r) = (∅, registries') -> f = ∅).
  { clear. intros f r H. revert f r H. induction ps as [|p ps IH]; intros f r H; cbn in H; [by simplify_eq|].
    destruct p as [[[port control] stream] rate]. cbn in H. case_bool_decide; [by eapply IH|].
    destruct (request_through _ _ _ _); [by eapply IH|apply IH in H; set_solver..]. }
  case_bool_decide as Hf; [apply Hempty in H; set_solver|].
  destruct (request_through registries control stream rate) as [r1| |] eqn:Hr;
    [|apply Hempty in H; set_solver..].
  apply request_through_inv in Hr as (Hhit & Hmiss & _).
  destruct (IH _ _ H Hnd) as [Hin Hout]. split.
  - intros p [->|Hp]%elem_of_cons; [cbn|auto]. by rewrite Hout.
  - intros c s Hcs. rewrite fmap_cons, not_elem_of_cons in Hcs. destruct Hcs as [Hne Hcs].
    rewrite Hout by done. by apply Hmiss.
Qed.

Lemma collect_map_perm {K V} `{Countable K} (l : list (K * V)) :
  NoDup l.*1 -> map_to_list (collect_map l) ≡ₚ l.
Proof.
  intros Hnd. unfold collect_map. rewrite <-fold_left_rev_right.
  change (fold_right _ ∅ (rev l)) with (list_to_map (M:=gmap K V) (rev l)).
  rewrite map_to_list_to_map; [|]; rewrite <-Permutation_rev; done.
Qed.

(** ** One pass *)
Lemma budget_inputs_elem s prios original input :
  input ∈ budget_inputs s prios original <->
  exists id port d, ports s !! id = Some port /\ d ∈ demands port /\
    input = demand_input s prios original id port d.
Proof.
  unfold budget_inputs. rewrite list_elem_of_In, in_flat_map. split.
  - intros ([id port] & Hp%list_elem_of_In%elem_of_entries & Hd%list_elem_of_In).
    apply list_elem_of_fmap in Hd as (d & -> & Hd). eauto 10.
  - intros (id & port & d & Hp & Hd & ->). exists (id, port). rewrite <-!list_elem_of_In.
    split; [by apply elem_of_entries|]. apply list_elem_of_fmap. eauto.
Qed.

Lemma budget_inputs_keys s prios original :
  map_Forall (fun _ port => port_ok (policy s) port) (ports s) ->
  NoDup (key <$> budget_inputs s prios original).
Proof.
  intros Hok. unfold budget_inputs.
  assert (Hent : Forall (fun e : Z * PortInventory => NoDup (demand_stream <$> demands e.2)) (entries (ports s))).
  { apply list.Forall_forall. intros [id p] Hin%elem_of_entries. apply (Hok _ _ Hin). }
  pose proof (bt_keys_NoDup (ports s)) as Hnd. unfold bt_keys in Hnd.
  induction Hent as [|[id p] l Hp _ IH]; [constructor|]. cbn [flat_map fst snd] in *.
  rewrite fmap_cons in Hnd. apply list.NoDup_cons in Hnd as [Hnotin Hnd]. rewrite fmap_app.
  apply list.NoDup_app. split_and!; [|intros [i st] Hin|by apply IH].
  - rewrite <-list_fmap_compose. unfold compose. cbn.
    change (fun x => (id, demand_stream x)) with (compose (pair id) demand_stream).
    rewrite list_fmap_compose. apply NoDup_fmap_2; [|done]. by intros ?? [= ->].
  - rewrite <-list_fmap_compose in Hin. apply list_elem_of_fmap in Hin as (d & [= -> ->] & _).
    intros Hin. apply list_elem_of_fmap in Hin as (input & Hk & Hin).
    apply list_elem_of_In, in_flat_map in Hin as ([j q] & Hj%list_elem_of_In & Hd%list_elem_of_In).
    apply list_elem_of_fmap in Hd as (d' & -> & _). cbn in Hk. injection Hk as <- _.
    apply Hnotin. apply list_elem_of_fmap. by exists (id, q).
Qed.

Lemma weight_of_elem (p : BitrateAllocationPolicy) prio : policy_ok p -> 0 < weight_of (weights p) prio <= u16_max.
Proof.
  unfold policy_ok, weight_list. rewrite !list.Forall_cons. destruct prio; cbn; tauto.
Qed.
Lemma role_weight_elem (p : BitrateAllocationPolicy) r : policy_ok p -> 0 < role_weight p r <= u16_max.
Proof.
  unfold policy_ok, weight_list. rewrite !list.Forall_cons. destruct r; cbn; tauto.
Qed.

Lemma budget_inputs_ok s prios original :
  policy_ok (policy s) -> map_Forall (fun _ port => port_ok (policy s) port) (ports s) ->
  rates_within original (ports s) -> Forall input_ok (budget_inputs s prios original).
Proof.
  intros Hpol Hok Hw. apply list.Forall_forall.
  intros input (id & port & d & Hp & Hd & ->)%budget_inputs_elem.
  destruct (Hok _ _ Hp) as ([Hl Hlu] & Hds & _). rewrite list.Forall_forall in Hds.
  destruct (Hds _ Hd) as [Hpx Har]. unfold input_ok, area_of in *. cbn.
  pose proof (weight_of_elem (policy s) (default Background (prios !! (id, demand_group d))) Hpol) as Hwt.
  assert (u16_max <= u64_max) by (vm_compute; congruence).
  split_and!; try done; try lia.
  - destruct (demand_preference d); [|lia]. by apply role_weight_elem.
  - destruct (original !! (id, demand_stream d)) as [rate|] eqn:Ho; [|done]. by eapply Hw.
Qed.

Lemma budget_inputs_length s prios original :
  map_Forall (fun _ port => port_ok (policy s) port) (ports s) ->
  Z.of_nat (length (budget_inputs s prios original)) <= required (budget_inputs s prios original).
Proof.
  intros Hok. unfold required.
  assert (Hone : Forall (fun input => 1 <= minimum (input_limits input)) (budget_inputs s prios original)).
  { apply list.Forall_forall. intros input (id & port & d & Hp & _ & ->)%budget_inputs_elem. cbn.
    destruct (Hok _ _ Hp) as ([Hl _] & _). unfold limits_ok in Hl. lia. }
  induction Hone as [|x l Hx _ IH]; [done|]. rewrite fmap_cons, sum_list_cons. cbn [length]. lia.
Qed.

(** What the loop relies on and keeps. *)
Definition Loop_ok (original : gmap StreamKey Z) (c : Coordinator) : Prop :=
  let s := state c in
  policy_ok (policy s) /\ 0 < target s <= u64_max /\
  map_Forall (fun _ port => port_ok (policy s) port) (ports s) /\
  (forall i j p q, ports s !! i = Some p -> ports s !! j = Some q -> control p = control q -> i = j) /\
  reservation s None <= target s /\ rates_within original (ports s) /\
  registries_ok (owned (ports s)) (registries c).

(** The published targets: one for every stream of a member, inside the limits of its
    encoder, requested from its registry, and fitting the target together. *)
Definition published (c : Coordinator) : Prop :=
  let s := state c in
  (forall id stream, is_Some (targets s !! (id, stream)) <->
     exists port d, ports s !! id = Some port /\ d ∈ demands port /\ demand_stream d = stream) /\
  (forall id stream rate port, targets s !! (id, stream) = Some rate -> ports s !! id = Some port ->
     rate_in (port_limits port) rate /\ intent (registries c) (control port) stream = Some rate) /\
  Forall (Z.le 0) (bt_values (targets s)) /\ total_targets s <= target s.

Definition same_settings (s s' : BudgetState) : Prop :=
  policy s' = policy s /\ target s' = target s /\ next_port s' = next_port s /\ ports s' ⊆ ports s.

Lemma filter_live_sub (m : gmap Z PortInventory) : filter (fun e => live e.2 = true) m ⊆ m.
Proof. apply map_filter_subseteq. Qed.

Lemma Loop_ok_sub original c s' d regs :
  Loop_ok original c -> same_settings (state c) s' -> registries_ok (owned (ports (state c))) regs ->
  Loop_ok original (MkCoordinator s' (borrowed c) d regs).
Proof.
  intros (Hpol & Ht & Hok & Hinj & Hres & Hw & _) (Ep & Et & _ & Hsub) Hregs. unfold Loop_ok. cbn.
  rewrite Ep, Et. split_and!; try done; try lia.
  - intros i p Hp. apply (Hok i). by eapply lookup_weaken.
  - intros i j p q Hp Hq. apply Hinj; by eapply lookup_weaken.
  - etrans; [|exact Hres]. pose proof (reservation_le (state c) (ports s') Hsub Hok) as Hle.
    unfold reservation in *. by cbn in *.
  - intros id st rate port Hr Hp. eapply Hw; [done|]. by eapply lookup_weaken.
  - eapply registries_ok_mono; [|exact Hregs]. intros h. by apply owned_sub.
Qed.

Lemma budget_inputs_key_input s prios original input port :
  input ∈ budget_inputs s prios original -> ports s !! (key input).1 = Some port ->
  input_limits input = port_limits port /\
  exists d, d ∈ demands port /\ demand_stream d = (key input).2.
Proof.
  intros (id & p & d & Hp & Hd & ->)%budget_inputs_elem. cbn. intros Hp'.
  rewrite Hp in Hp'. injection Hp' as ->. eauto.
Qed.

(** The publication of one allocated input. *)
Definition publication_of (s : BudgetState) (p : AllocationInput * Z) : publication :=
  ((key p.1).1, match ports s !! (key p.1).1 with Some port => control port | None => 0 end,
   (key p.1).2, p.2).

Lemma publications_ret s prios original rates :
  publications s (budget_inputs s prios original) rates =
  Ret (publication_of s <$> zip (budget_inputs s prios original) rates).
Proof.
  unfold publications. apply traverse_total. intros [input rate] Hin%elem_of_zip_l.
  apply budget_inputs_elem in Hin as (id & port & d & Hp & _ & ->). unfold publication_of. cbn.
  by rewrite Hp.
Qed.

Lemma publications_NoDup s prios original rates :
  map_Forall (fun _ port => port_ok (policy s) port) (ports s) ->
  (forall i j p q, ports s !! i = Some p -> ports s !! j = Some q -> control p = control q -> i = j) ->
  length rates = length (budget_inputs s prios original) ->
  NoDup ((fun p : publication => (p.1.1.2, p.1.2)) <$>
    (publication_of s <$> zip (budget_inputs s prios original) rates)).
Proof.
  intros Hok Hinj Hlen. pose proof (budget_inputs_keys s prios original Hok) as Hnd.
  rewrite <-(fst_zip (budget_inputs s prios original) rates) in Hnd by lia.
  assert (Hin : Forall (fun p => exists port, ports s !! (key p.1).1 = Some port)
    (zip (budget_inputs s prios original) rates)).
  { apply list.Forall_forall. intros [input rate] Hin%elem_of_zip_l.
    apply budget_inputs_elem in Hin as (id & port & d & Hp & _ & ->). by exists port. }
  revert Hnd Hin. generalize (zip (budget_inputs s prios original) rates). clear -Hinj.
  intros l Hnd Hin. induction Hin as [|p l [port Hp] Hin IH]; [constructor|].
  rewrite !fmap_cons in *. apply list.NoDup_cons in Hnd as [Hnotin Hnd]. apply list.NoDup_cons.
  split; [|by apply IH]. intros Hm. apply Hnotin.
  rewrite <-list_fmap_compose in Hm. apply list_elem_of_fmap in Hm as (q & He & Hq).
  rewrite list.Forall_forall in Hin. destruct (Hin q Hq) as [port' Hp'].
  unfold publication_of, compose in He. cbn in He. rewrite Hp, Hp' in He. injection He as Hc Hs.
  pose proof (Hinj _ _ _ _ Hp Hp' Hc) as Hi.
  rewrite <-list_fmap_compose. apply list_elem_of_fmap. exists q. split; [|done].
  unfold compose. destruct (key p.1), (key q.1). cbn in *. congruence.
Qed.

Lemma zip_fst_fmap {A B C} (f : A -> B) (l : list A) (k : list C) :
  zip (f <$> l) k = (fun p => (f p.1, p.2)) <$> zip l k.
Proof. revert k. induction l as [|x l IH]; intros [|y k]; cbn; try done. f_equal. apply IH. Qed.

(** The targets stored by a successful pass. *)
Lemma stored_targets s prios original rates regs :
  let inputs := budget_inputs s prios original in
  map_Forall (fun _ port => port_ok (policy s) port) (ports s) ->
  Forall2 within_limits inputs rates -> sum_list rates <= target s ->
  (forall p, p ∈ (publication_of s <$> zip inputs rates) -> intent regs p.1.1.2 p.1.2 = Some p.2) ->
  published (MkCoordinator (MkBudgetState (target s) (policy s) (next_port s) (ports s)
    (collect_map (zip (key <$> inputs) rates)) prios) false false regs).
Proof.
  intros inputs Hok Hw Hsum Hpub. pose proof (Forall2_length Hw) as Hlen.
  assert (Hnd : NoDup (zip (key <$> inputs) rates).*1).
  { rewrite fst_zip by (rewrite length_fmap; lia). by apply budget_inputs_keys. }
  pose proof (collect_map_perm _ Hnd) as Hperm.
  assert (Hlook : forall k rate, collect_map (zip (key <$> inputs) rates) !! k = Some rate <->
    exists input, (input, rate) ∈ zip inputs rates /\ key input = k).
  { intros k rate. rewrite <-elem_of_map_to_list, Hperm, zip_fst_fmap, list_elem_of_fmap. split.
    - intros ([input r] & [= -> ->] & Hin). eauto.
    - intros (input & Hin & <-). by exists (input, rate). }
  assert (Hvals : bt_values (collect_map (zip (key <$> inputs) rates)) ≡ₚ rates).
  { rewrite bt_values_perm, Hperm. rewrite snd_zip; [done|]. rewrite length_fmap. lia. }
  unfold published. cbn [state registries targets ports target]. split_and!.
  - intros id stream. split.
    + intros [rate (input & Hin & Hk)%Hlook]. apply elem_of_zip_l in Hin as Hin'.
      apply budget_inputs_elem in Hin' as (id' & port & d & Hp & Hd & ->). injection Hk as -> <-. eauto.
    + intros (port & d & Hp & Hd & <-).
      assert (Hin : demand_input s prios original id port d ∈ inputs).
      { apply budget_inputs_elem. eauto 10. }
      apply list_elem_of_lookup in Hin as [i Hi]. destruct (Forall2_lookup_l _ _ _ _ _ Hw Hi) as (rate & Hr & _).
      exists rate. apply Hlook. exists (demand_input s prios original id port d). split; [|done].
      apply list_elem_of_lookup. exists i. apply lookup_zip_with_Some. eauto.
  - intros id stream rate port (input & Hin & Hk)%Hlook Hp.
    assert (Hin' := Hin). apply elem_of_zip_l in Hin'.
    destruct (budget_inputs_key_input s prios original input port) as [Hl _]; [done|by rewrite Hk|].
    split.
    + apply list_elem_of_lookup in Hin as [i Hi].
      apply lookup_zip_with_Some in Hi as (x & y & [= -> ->] & Hx & Hy).
      pose proof (Forall2_lookup_lr _ _ _ _ _ _ Hw Hx Hy) as Hwl. unfold within_limits in Hwl. by rewrite Hl in Hwl.
    + pose proof (Hpub (publication_of s (input, rate))) as Hq. unfold publication_of in Hq. cbn in Hq.
      rewrite Hk in Hq. cbn in Hq. rewrite Hp in Hq. apply Hq. apply list_elem_of_fmap.
      exists (input, rate). split; [|done]. cbn. by rewrite Hk; cbn; rewrite Hp.
  - rewrite Hvals. apply Forall_lookup. intros i rate Hr.
    destruct (Forall2_lookup_r _ _ _ _ _ Hw Hr) as (input & Hi & Hwi).
    apply list_elem_of_lookup_2, budget_inputs_elem in Hi as (id & port & d & Hp & _ & ->).
    unfold within_limits, rate_in in Hwi. cbn in Hwi. destruct (Hok _ _ Hp) as ([Hl _] & _).
    unfold limits_ok in Hl. lia.
  - unfold total_targets. cbn. by rewrite Hvals.
Qed.

Lemma published_flags s b d b' d' regs :
  published (MkCoordinator s b d regs) -> published (MkCoordinator s b' d' regs).
Proof. done. Qed.

Lemma reservation_live s prios original :
  required (budget_inputs (set_ports (filter (fun e => live e.2 = true) (ports s)) s) prios original)
  = reservation s None.
Proof.
  rewrite required_inputs. unfold reservation. cbn [ports set_ports]. by rewrite entries_filter.
Qed.

Lemma size_filter_drop (failed : gset Z) (m : gmap Z PortInventory) :
  failed <> ∅ -> (forall i, i ∈ failed -> is_Some (m !! i)) ->
  (size (filter (fun e => e.1 ∉ failed) m) < size m)%nat.
Proof.
  intros Hne Hin. apply set_choose_L in Hne as [i Hi]. rewrite <-!size_dom. apply subset_size.
  split.
  - apply dom_filter_subseteq.
  - intros Hsub. destruct (Hin i Hi) as [p Hp].
    assert (Hd : i ∈ dom (filter (fun e : Z * PortInventory => e.1 ∉ failed) m)).
    { apply Hsub, elem_of_dom. by exists p. }
    apply elem_of_dom in Hd as [q Hq]. apply map_lookup_filter_Some in Hq as [_ Hq]. by apply Hq.
Qed.

Lemma refresh_pass_ok now original c :
  Loop_ok original c ->
  exists c' b, refresh_pass now original c = (c', Ret b) /\
    Loop_ok original c' /\ same_settings (state c) (state c') /\ borrowed c' = borrowed c /\
    map_Forall (fun _ port => live port = true) (ports (state c')) /\
    if b then dirty c' = false /\ published c'
    else (size (ports (state c')) < size (ports (state c)))%nat /\ dirty c' = dirty c.
Proof.
  intros Hl. pose proof Hl as (Hpol & Ht & Hok & Hinj & Hres & Hw & Hregs). unfold refresh_pass.
  set (s := set_ports (filter (fun e => live e.2 = true) (ports (state c))) (state c)).
  assert (Hsame : same_settings (state c) s) by (split_and!; [done..|apply filter_live_sub]).
  assert (Hsok : map_Forall (fun _ port => port_ok (policy s) port) (ports s)).
  { intros i p Hp. apply (Hok i). eapply lookup_weaken; [done|apply filter_live_sub]. }
  assert (Hsinj : forall i j p q, ports s !! i = Some p -> ports s !! j = Some q -> control p = control q -> i = j).
  { intros i j p q Hp Hq. apply Hinj; (eapply lookup_weaken; [done|apply filter_live_sub]). }
  set (prios := all_priorities now s). set (inputs := budget_inputs s prios original).
  assert (Hreq : required inputs <= target s) by (unfold inputs, s; rewrite reservation_live; done).
  pose proof (budget_inputs_length s prios original Hsok) as Hlen.
  destruct (allocate_ret (target s) inputs) as [rates Ha].
  { apply budget_inputs_ok; [done|done|]. intros id st rate port Hr Hp. eapply Hw; [done|].
    eapply lookup_weaken; [done|apply filter_live_sub]. }
  { unfold small_length. fold inputs in Hlen. cbn in Hreq, Ht. lia. }
  { cbn. lia. }
  { done. }
  destruct (allocate_inv _ _ _ Ha) as [Hall Hsum]. pose proof (Forall2_length Hall) as Hrl.
  cbn [state set_state]. rewrite Ha. cbn [mbind outcome_bind]. unfold inputs at 1.
  rewrite publications_ret. cbn [mbind outcome_bind]. fold inputs.
  set (pubs := publication_of s <$> zip inputs rates).
  destruct (publish_all_frame _ pubs ∅ (registries c) Hregs) as (Hregs' & _ & Hfsub).
  cbn [registries set_state set_registries].
  case_bool_decide as Hf.
  - destruct (fold_left publish pubs (∅, registries c)) as [failed regs] eqn:Hpub. cbn in Hf, Hregs' |- *. subst failed.
    eexists _, true. split; [done|]. split_and!; try done.
    + apply (Loop_ok_sub original c _ false regs); done.
    + intros i p Hp. cbn in Hp. by apply map_lookup_filter_Some in Hp as [_ Hp].
    + apply (published_flags _ false false). apply stored_targets; try done.
      destruct (publish_all_intent _ _ _ _ Hpub) as [Hint _]; [|done].
      by apply publications_NoDup.
  - destruct (fold_left publish pubs (∅, registries c)) as [failed regs] eqn:Hpub. cbn in Hf, Hregs', Hfsub |- *.
    eexists _, false. split; [done|].
    assert (Hsame' : same_settings (state c) (drop_failed failed s)).
    { split_and!; try done. cbn. etrans; [apply map_filter_subseteq|apply filter_live_sub]. }
    split_and!; try done.
    + apply (Loop_ok_sub original c _ (dirty c) regs); done.
    + intros i p Hp. cbn in Hp. apply map_lookup_filter_Some in Hp as [Hp _].
      by apply map_lookup_filter_Some in Hp as [_ Hp].
    + eapply Nat.lt_le_trans.
      * apply (size_filter_drop failed (ports s)); [done|]. intros i Hi%Hfsub.
        apply elem_of_union in Hi as [Hi|Hi]; [|set_solver].
        apply elem_of_list_to_set, list_elem_of_fmap in Hi as (p & -> & Hp).
        unfold pubs in Hp. apply list_elem_of_fmap in Hp as ([input rate] & -> & Hin%elem_of_zip_l). cbn.
        apply budget_inputs_elem in Hin as (id & port & d & Hp & _ & ->). by exists port.
      * rewrite <-!size_dom. apply subseteq_size. apply subseteq_dom, filter_live_sub.
Qed.

Lemma same_settings_trans s1 s2 s3 : same_settings s1 s2 -> same_settings s2 s3 -> same_settings s1 s3.
Proof. intros (? & ? & ? & ?) (? & ? & ? & ?). split_and!; try congruence. by etrans. Qed.

(** Every failing pass removes a port, so the loop ends within its fuel and succeeds. *)
Lemma refresh_loop_ok now original fuel c :
  Loop_ok original c -> (size (ports (state c)) < fuel)%nat ->
  exists c', refresh_loop fuel now original c = Some (c', Ret tt) /\
    Loop_ok original c' /\ same_settings (state c) (state c') /\ borrowed c' = borrowed c /\
    map_Forall (fun _ port => live port = true) (ports (state c')) /\ dirty c' = false /\ published c'.
Proof.
  revert c. induction fuel as [|fuel IH]; intros c Hl Hf; [lia|]. cbn [refresh_loop].
  destruct (refresh_pass_ok now original c Hl) as (c1 & b & -> & Hl1 & Hs1 & Hb1 & Hlive & Hcase).
  destruct b.
  - destruct Hcase as [Hd Hp]. exists c1. by split_and!.
  - destruct Hcase as [Hsize _].
    destruct (IH c1 Hl1 ltac:(lia)) as (c' & -> & Hl' & Hs' & Hb' & Hlive' & Hd' & Hp').
    exists c'. split_and!; try done; [by eapply same_settings_trans|congruence].
Qed.

(** Changing what a port's demands do not depend on. *)
Lemma reservation_fmap f s replacement :
  (forall p, live (f p) = live p /\ port_limits (f p) = port_limits p /\ demands (f p) = demands p) ->
  reservation (set_ports (f <$> ports s) s) replacement = reservation s replacement.
Proof.
  intros Hf. unfold reservation. cbn [ports set_ports].
  rewrite <-!entries_filter, !entries_perm.
  rewrite map_filter_fmap, map_to_list_fmap, <-list_fmap_compose.
  rewrite (proj1 (map_filter_ext _ (fun e : Z * PortInventory => live e.2 = true) (ports s))).
  2:{ intros i p _. cbn. by rewrite (proj1 (Hf p)). }
  f_equal. apply list_fmap_ext. intros _ [i p] _. unfold compose, port_count. cbn.
  destruct (Hf p) as (_ & -> & ->). done.
Qed.

Definition Budget_ok (c : Coordinator) : Prop :=
  State_ok (state c) /\ registries_ok (owned (ports (state c))) (registries c).

Lemma State_pre_fmap f s :
  (forall p, live (f p) = live p /\ port_limits (f p) = port_limits p /\ demands (f p) = demands p /\
     control (f p) = control p) ->
  State_pre s -> State_pre (set_ports (f <$> ports s) s).
Proof.
  intros Hf (Hpol & Ht & Hok & Hinj & Hres & Hw & Hid). unfold State_pre.
  rewrite reservation_fmap by (intros p; destruct (Hf p) as (? & ? & ? & ?); done).
  cbn. split_and!; try done; try lia.
  - intros i p. rewrite lookup_fmap_Some. intros (q & <- & Hq). destruct (Hf q) as (_ & El & Ed & _).
    unfold port_ok. rewrite El, Ed. apply (Hok _ _ Hq).
  - intros i j p q. rewrite !lookup_fmap_Some. intros (p' & <- & Hp) (q' & <- & Hq).
    destruct (Hf p') as (_ & _ & _ & ->), (Hf q') as (_ & _ & _ & ->). by apply Hinj.
  - intros id st rate port Hr. rewrite lookup_fmap_Some. intros (q & <- & Hq).
    destruct (Hf q) as (_ & -> & _). by eapply Hw.
  - intros id Hin. apply Hid. destruct Hin as [Hin|]; [left|by right]. by rewrite lookup_fmap, fmap_is_Some in Hin.
Qed.

Lemma State_pre_loop s b d regs :
  State_pre s -> registries_ok (owned (ports s)) regs -> Loop_ok (targets s) (MkCoordinator s b d regs).
Proof. intros (Hpol & Ht & Hok & Hinj & Hres & Hw & _) Hregs. unfold Loop_ok. cbn. split_and!; try done; lia. Qed.

Lemma Loop_ok_state original c c' :
  State_pre (state c) -> Loop_ok original c' -> same_settings (state c) (state c') -> published c' ->
  Budget_ok c'.
Proof.
  intros (_ & _ & _ & _ & _ & _ & Hid) (Hpol & Ht & Hok & Hinj & Hres & _ & Hregs) (_ & _ & En & Hsub)
    (Hdom & Hrate & Hnn & Hsum). split; [|done]. split; [|done].
  unfold State_pre. split_and!; try done; try lia.
  - intros id st rate port Hr Hp. by apply (Hrate _ _ _ _ Hr Hp).
  - intros id Hin. rewrite En. apply Hid. left.
    assert (is_Some (ports (state c') !! id)) as [p Hp].
    { destruct Hin as [?|[st Hst]]; [done|]. apply Hdom in Hst as (port & d & Hp & _). by exists port. }
    exists p. by eapply lookup_weaken.
Qed.

(** What every refresh keeps. *)
Definition refreshed (c c' : Coordinator) : Prop :=
  Budget_ok c' /\ borrowed c' = borrowed c /\ dirty c' = false /\
  policy (state c') = policy (state c) /\ target (state c') = target (state c) /\
  next_port (state c') = next_port (state c).

Lemma registries_advance now c :
  registries_ok (owned (ports (state c))) (registries c) ->
  registries_ok (owned (ports (advance_focus now (state c)))) (registries c).
Proof. apply registries_ok_mono. intros h. by apply owned_fmap. Qed.

Lemma refresh_loop_start now c :
  State_pre (state c) -> registries_ok (owned (ports (state c))) (registries c) ->
  let s := advance_focus now (state c) in
  exists c', refresh_loop (S (size (ports s))) now (targets s) (set_dirty true (set_state s c)) = Some (c', Ret tt) /\
    refreshed c c' /\ published c' /\ map_Forall (fun _ port => live port = true) (ports (state c')) /\
    ports (state c') ⊆ ports s.
Proof.
  intros Hs Hregs s. assert (Hs' : State_pre s) by (by apply State_pre_fmap).
  destruct (refresh_loop_ok now (targets s) (S (size (ports s))) (set_dirty true (set_state s c)))
    as (c' & Hrun & Hl' & Hsame & Hb' & Hlive & Hd' & Hp');
    [apply State_pre_loop; [done|exact (registries_advance now c Hregs)]|cbn; lia|].
  pose proof (Loop_ok_state (targets s) (set_state s c) c' Hs' Hl' Hsame Hp') as Hbok.
  destruct Hsame as (Ep & Et & En & Hsub). exists c'. unfold refreshed. repeat (split; [done|]). done.
Qed.

(** A refresh of a well-formed budget succeeds, even right after a change of target. *)
Lemma refresh_dirty now c :
  State_pre (state c) -> registries_ok (owned (ports (state c))) (registries c) ->
  borrowed c = false -> dirty c = true ->
  exists c', refresh_at now c = (c', Ret tt) /\ refreshed c c' /\ published c' /\
    map_Forall (fun _ port => live port = true) (ports (state c')) /\
    ports (state c') ⊆ ports (advance_focus now (state c)).
Proof.
  intros Hs Hregs Hb Hd. destruct (refresh_loop_start now c Hs Hregs) as (c' & Hrun & H).
  exists c'. split; [|done]. unfold refresh_at. rewrite Hb. cbn [dirty set_state]. rewrite Hd.
  cbn [negb andb]. by rewrite Hrun.
Qed.

Lemma refresh_ok now c :
  Budget_ok c -> borrowed c = false ->
  exists c', refresh_at now c = (c', Ret tt) /\ refreshed c c'.
Proof.
  intros [[Hs Ht] Hregs] Hb. destruct (refresh_loop_start now c Hs Hregs) as (c' & Hrun & H & _).
  unfold refresh_at. rewrite Hb. cbn [dirty set_state].
  destruct (dirty c) eqn:Hd; cbn [negb andb]; [exists c'; by rewrite Hrun|].
  destruct (priorities_changed now (advance_focus now (state c))); cbn [negb]; [exists c'; by rewrite Hrun|].
  eexists. split; [done|]. split; [|by repeat (split; [done|])].
  split; [split; [by apply State_pre_fmap|done]|]. exact (registries_advance now c Hregs).
Qed.

Lemma refresh_cases now c :
  Budget_ok c ->
  (borrowed c = true /\ refresh_at now c = (c, Fail borrow_error)) \/
  (borrowed c = false /\ exists c', refresh_at now c = (c', Ret tt) /\ refreshed c c').
Proof.
  intros H. destruct (borrowed c) eqn:Hb.
  - left. split; [done|]. unfold refresh_at. by rewrite Hb.
  - right. split; [done|]. by apply refresh_ok.
Qed.

(** A change of target either does not happen, or completes. *)
Lemma set_target_cases bps now c :
  Budget_ok c -> bps <= u64_max ->
  exists c' r, set_target bps now c = (c', r) /\ Budget_ok c' /\
    policy (state c') = policy (state c) /\
    ((exists e, r = Fail e /\ target (state c') = target (state c)) \/
     (r = Ret tt /\ target (state c') = bps)).
Proof.
  intros H Hmax. unfold set_target. unfold ensure. destruct (Z.ltb_spec 0 bps) as [Hpos|]; [|eauto 10].
  destruct (refresh_cases now c H) as [[Hb ->]|(Hb & c1 & -> & Hok & Hb1 & Hd & Ep & Et & En)].
  { exists c, (Fail borrow_error). eauto 10. }
  rewrite Hb1, Hb. pose proof Hok as [[Hpre Hsum] Hregs].
  pose proof Hpre as (Hpol & Ht & Hpok & Hinj & Hres & Hw & Hid).
  destruct (check_minimum_cases (state c1) bps None) as [[e ->]|[-> Hfit]];
    [apply reservation_costs; [done|lia]|exists c1, (Fail e); by eauto 10|].
  destruct (Z.eqb_spec (target (state c1)) bps) as [He|He]; cbn [negb].
  - destruct (refresh_ok now c1) as (c2 & -> & Hok2 & _ & _ & Ep2 & Et2 & _); [done|congruence|].
    exists c2, (Ret tt). split; [done|]. split; [done|]. split; [congruence|]. right. split; [done|congruence].
  - set (c1' := set_dirty true _).
    destruct (refresh_dirty now c1') as (c2 & -> & (Hok2 & _ & _ & Ep2 & Et2 & _) & _);
      [unfold State_pre, c1'; cbn; unfold reservation in *; cbn; by split_and!|done|by cbn; congruence|done|].
    exists c2, (Ret tt). split; [done|]. split; [done|]. cbn in Ep2, Et2. split; [congruence|]. right. by split.
Qed.

(** ** Every operation keeps budgets well formed *)
Definition port_cost (replacement : option (Z * Z)) (e : Z * PortInventory) : Z :=
  if live e.2 then minimum (port_limits e.2) * port_count e.1 e.2 replacement else 0.

Lemma reservation_sum s replacement :
  reservation s replacement = sum_list (port_cost replacement <$> map_to_list (ports s)).
Proof.
  unfold reservation. rewrite (fmap_Permutation (port_cost replacement) _ _ (symmetry (entries_perm (ports s)))).
  unfold port_cost. induction (entries (ports s)) as [|e l IH]; [done|].
  rewrite filter_cons, fmap_cons, sum_list_cons. destruct (live e.2) eqn:He.
  - rewrite decide_True by done. rewrite fmap_cons, sum_list_cons, IH. done.
  - rewrite decide_False by done. rewrite IH. done.
Qed.

Definition rest_cost (s : BudgetState) (id : Z) : Z :=
  sum_list (port_cost None <$> map_to_list (delete id (ports s))).

Lemma rest_replacement s id count :
  sum_list (port_cost (Some (id, count)) <$> map_to_list (delete id (ports s))) = rest_cost s id.
Proof.
  unfold rest_cost. f_equal. apply list_fmap_ext. intros k [i p] Hin%list_elem_of_lookup_2%elem_of_map_to_list.
  apply lookup_delete_Some in Hin as [Hne _]. unfold port_cost, port_count. cbn.
  by rewrite (proj2 (Z.eqb_neq id i) Hne).
Qed.

Lemma reservation_split s id port replacement :
  ports s !! id = Some port ->
  reservation s replacement = port_cost replacement (id, port) +
    sum_list (port_cost replacement <$> map_to_list (delete id (ports s))).
Proof.
  intros Hp. rewrite reservation_sum, <-(map_to_list_delete (ports s) id port Hp).
  rewrite fmap_cons, sum_list_cons. done.
Qed.

Lemma reservation_insert s id port :
  reservation (set_ports (<[id := port]> (ports s)) s) None = port_cost None (id, port) + rest_cost s id.
Proof.
  rewrite (reservation_split _ id port) by apply lookup_insert_eq. cbn [ports set_ports]. unfold rest_cost.
  by rewrite delete_insert_eq.
Qed.

Lemma reservation_fresh s id : ports s !! id = None -> rest_cost s id = reservation s None.
Proof. intros Hn. rewrite reservation_sum. unfold rest_cost. by rewrite delete_id. Qed.

(** Replacing the contents of a port. *)
Lemma State_pre_insert s id port port' :
  State_pre s -> ports s !! id = Some port -> port_ok (policy s) port' ->
  control port' = control port -> port_limits port' = port_limits port ->
  port_cost None (id, port') + rest_cost s id <= target s ->
  State_pre (set_ports (<[id := port']> (ports s)) s).
Proof.
  intros (Hpol & Ht & Hok & Hinj & Hres & Hw & Hid) Hp Hpok Hc Hl Hcost. unfold State_pre.
  rewrite reservation_insert. cbn. split_and!; try done; try lia.
  - by apply map_Forall_insert_2.
  - assert (Hsame : forall i p, <[id:=port']> (ports s) !! i = Some p ->
      exists p0, ports s !! i = Some p0 /\ control p = control p0).
    { intros i p. rewrite lookup_insert_Some. intros [[<- <-]|[_ Hi]]; eauto. }
    intros i j p q (p0 & Hp0 & ->)%Hsame (q0 & Hq0 & ->)%Hsame. by apply Hinj.
  - intros i st rate p Hr. rewrite lookup_insert_Some. intros [[<- <-]|[_ Hi]]; [|by eapply Hw].
    rewrite Hl. by eapply Hw.
  - intros i Hi. apply Hid. destruct Hi as [Hi|]; [left|by right].
    apply lookup_insert_is_Some in Hi as [<-|[_ Hi]]; eauto.
Qed.

Lemma owned_insert ports id port port' h :
  ports !! id = Some port -> control port' = control port ->
  owned (<[id := port']> ports) h -> owned ports h.
Proof.
  intros Hp Hc (i & p & Hi & <-). apply lookup_insert_Some in Hi as [[<- <-]|[_ Hi]].
  - by exists id, port.
  - by exists i, p.
Qed.

Lemma Budget_ok_insert c s' id port port' d :
  Budget_ok c -> ports (state c) !! id = Some port -> port_ok (policy (state c)) port' ->
  control port' = control port -> port_limits port' = port_limits port ->
  port_cost None (id, port') + rest_cost (state c) id <= target (state c) ->
  s' = set_ports (<[id := port']> (ports (state c))) (state c) ->
  Budget_ok (MkCoordinator s' (borrowed c) d (registries c)).
Proof.
  intros [[Hpre Hsum] Hregs] Hp Hok Hc Hl Hcost ->. split; [split; [by eapply State_pre_insert|done]|].
  eapply registries_ok_mono; [|exact Hregs]. intros h. by eapply owned_insert.
Qed.

Lemma rest_cost_le s id port : State_pre s -> ports s !! id = Some port ->
  port_cost None (id, port) + rest_cost s id <= target s.
Proof.
  intros (_ & _ & _ & _ & Hres & _) Hp. unfold rest_cost. by rewrite <-(reservation_split _ _ _ _ Hp).
Qed.

Lemma update_inventory_ok id ds c :
  Budget_ok c -> Forall (demand_ok (policy (state c))) ds -> NoDup (demand_stream <$> ds) ->
  Budget_ok (update_inventory id ds c).1.
Proof.
  intros H Hds Hnd. unfold update_inventory. destruct (borrowed c) eqn:Hb; [done|].
  destruct (_ ← check_minimum _ _ _; _) as [port|e|] eqn:Hc; [|done..].
  apply bind_Ret_inv in Hc as ([] & Hc & Hp). apply check_minimum_inv in Hc. apply opt_context_Ret_inv in Hp.
  rewrite (reservation_split _ _ _ _ Hp), rest_replacement in Hc.
  case_bool_decide; [|done]. pose proof H as [[(_ & _ & Hok & _) _] _].
  destruct (Hok _ _ Hp) as (Hl & _). cbn.
  apply (Budget_ok_insert c _ id port
    (set_demands ds (set_port_attention (inventory_attention (port_attention port) ds) port))); try done.
  unfold port_cost, port_count in *. cbn in *. by rewrite Z.eqb_refl in Hc.
Qed.

Lemma update_attention_ok id a now c : Budget_ok c -> Budget_ok (update_attention id a now c).1.
Proof.
  intros H. unfold update_attention. destruct (borrowed c) eqn:Hb; [done|].
  destruct (ports (state c) !! id) as [port|] eqn:Hp; [|done].
  pose proof H as [[Hpre _] _].
  set (port' := set_port_attention _ (set_focus _ port)). set (c1 := set_state _ c).
  assert (H1 : Budget_ok c1).
  { apply (Budget_ok_insert c _ id port port'); try done.
    - by apply (proj1 (proj2 (proj2 Hpre)) _ _ Hp).
    - apply (rest_cost_le _ id port Hpre Hp). }
  destruct (refresh_cases now c1 H1) as [[Hb1 ->]|(Hb1 & c2 & -> & H2 & _)]; [done|].
  destruct (borrowed c2); done.
Qed.

Lemma set_dead_ok c id d :
  Budget_ok c ->
  Budget_ok (set_dirty d (set_state (set_ports (alter set_dead id (ports (state c))) (state c)) c)).
Proof.
  intros H. destruct (ports (state c) !! id) as [port|] eqn:Hp.
  - pose proof H as [[Hpre _] _]. pose proof (proj1 (proj2 (proj2 Hpre))) as Hok.
    eapply (Budget_ok_insert c _ id port (set_dead port)); try done; [apply (Hok _ _ Hp)| |].
    + pose proof (rest_cost_le _ id port Hpre Hp) as Hle. unfold port_cost in *. cbn in *.
      destruct (Hok _ _ Hp) as ((Hl & _) & _). unfold limits_ok in Hl.
      destruct (live port); unfold port_count in *; nia.
    + cbn [state set_state]. f_equal. apply map_eq. intros i. rewrite lookup_alter, lookup_insert.
      repeat case_decide; subst; try done. by rewrite Hp.
  - assert (alter set_dead id (ports (state c)) = ports (state c)) as ->; [|by destruct c as [[]]].
    apply map_eq. intros i. rewrite lookup_alter. case_decide; subst; [by rewrite Hp|done].
Qed.

Lemma attach_ok handle now c : Budget_ok c -> Budget_ok (attach handle now c).1.
Proof.
  intros H. unfold attach.
  destruct (refresh_cases now c H) as [[Hb ->]|(Hb & c1 & -> & H1 & _)]; [done|].
  destruct (r ← _; limits ← control_limits r; Ret (r, limits)) as [[r l]|e|] eqn:Hl; [|done..].
  destruct (borrowed c1); [done|].
  destruct (id ← _; r ← manage r; Ret (id, r)) as [[id r']|e|] eqn:Hm; [|done..]. cbn.
  apply bind_Ret_inv in Hl as (r0 & Hr%opt_context_Ret_inv & Hl).
  apply bind_Ret_inv in Hl as (l0 & Hlim & [= -> ->]).
  apply bind_Ret_inv in Hm as (id0 & Hid%opt_context_Ret_inv & Hm).
  apply bind_Ret_inv in Hm as (r1 & Hman & [= -> ->]).
  pose proof H1 as [[(Hpol & Ht & Hok & Hinj & Hres & Hw & Hids) Hsum] Hregs].
  destruct (Hregs _ _ Hr) as [Hrl Hrm].
  assert (Hunowned : ~ owned (ports (state c1)) handle).
  { intros Ho. specialize (Hrm Ho). unfold manage, registry in Hman. destruct (alive r); [|done].
    cbn in Hman. destruct (Registry_state r) as [st| |] eqn:Hst; [|done..]. cbn in Hman.
    apply Registry_state_Ret in Hst as (_ & _ & ->). by rewrite Hrm in Hman. }
  assert (Hnew : l = limits r /\ limits r' = limits r /\ managed (registry_data r') = true).
  { unfold control_limits, manage, registry in *. destruct (alive r); [|done].
    inv_ret. by subst. }
  destruct Hnew as (-> & Hl' & Hm').
  assert (Hfresh : ports (state c1) !! id = None /\ forall st, targets (state c1) !! (id, st) = None).
  { rewrite Hid in Hids. split.
    - apply eq_None_not_Some. intros Hp. specialize (Hids id (or_introl Hp)). lia.
    - intros st. apply eq_None_not_Some. intros Hp. specialize (Hids id (or_intror (ex_intro _ st Hp))). lia. }
  destruct Hfresh as [Hpn Htn]. split; [split; [|done]|].
  - unfold State_pre. cbn. set (port := MkPort true handle (limits r) [] ∅ QualityFocus_default).
    pose proof (reservation_insert (state c1) id port) as Hri. rewrite reservation_fresh in Hri by done.
    unfold reservation in Hri at 1. cbn in Hri. split_and!; try done; try lia.
    + apply map_Forall_insert_2; [|done]. split_and!; try done; constructor.
    + intros i j p q. rewrite !lookup_insert_Some.
      intros [[<- <-]|[Hi Hp]] [[<- <-]|[Hj Hq]] Hc; [done| | |by eapply Hinj].
      * destruct Hunowned. by exists j, q.
      * destruct Hunowned. by exists i, p.
    + unfold reservation. cbn. unfold port_cost, port_count in Hri. cbn in Hri. lia.
    + intros i st rate p Hr'. rewrite lookup_insert_Some. intros [[<- <-]|[_ Hi]]; [|by eapply Hw].
      by rewrite Htn in Hr'.
    + intros i Hi. destruct (checked_add id 1) as [n|] eqn:Hn; [|done].
      apply checked_add_Some in Hn as [-> _]. rewrite lookup_insert in Hi.
      case_decide; [lia|]. specialize (Hids i Hi). rewrite Hid in Hids. lia.
  - cbn. intros h r2 Hr2. apply lookup_insert_Some in Hr2 as [[<- <-]|[Hne Hr2]]; [by rewrite Hl'|].
    destruct (Hregs _ _ Hr2) as [? Hm2]. split; [done|]. intros (i & p & Hi & Hc). apply Hm2.
    apply lookup_insert_Some in Hi as [[<- <-]|[_ Hi]]; [done|]. by exists i, p.
Qed.

Lemma registry_step_limits r r' : registry_step r r' -> limits r' = limits r.
Proof.
  intros Hstep. destruct Hstep;
    try (cbn; unfold submitted, finished, Bitrate.remove, Bitrate.register, Bitrate.select;
         match goal with |- context [update ?r ?op] =>
           destruct (update_frame r op) as (-> & _) end; done).
  - apply request_inner_inv in H as (_ & _ & _ & _ & e & _ & [(_ & -> & _)|(_ & _ & _ & ->)]); done.
  - unfold manage, registry in H. destruct (alive r); [|done]. inv_ret. by subst.
  - done.
  - cbn. by destruct (poisoned r).
Qed.

(** Everything that happens around a budget: calls on the shared handle and on
    memberships, new and changing registries, a borrow held across calls. *)
Inductive budget_step : Coordinator -> Coordinator -> Prop :=
  | do_set_target c bps now : bps <= u64_max -> budget_step c (set_target bps now c).1
  | do_snapshot c now : budget_step c (budget_snapshot now c).1
  | do_attach c handle now : budget_step c (attach handle now c).1
  | do_preflight c id count now : budget_step c (preflight id count now c).1
  | do_update_inventory c id ds :
      Forall (demand_ok (policy (state c))) ds -> NoDup (demand_stream <$> ds) ->
      budget_step c (update_inventory id ds c).1
  | do_update_attention c id a now : budget_step c (update_attention id a now c).1
  | do_drop c id now : budget_step c (drop_membership id now c)
  | do_open c handle l :
      registries c !! handle = None -> limits_u64 l ->
      (forall i p, ports (state c) !! i = Some p -> control p <> handle) ->
      budget_step c (set_registries (<[handle := EncoderRates_new l]> (registries c)) c)
  | do_registry c handle r r' :
      registries c !! handle = Some r -> registry_step r r' ->
      budget_step c (set_registries (<[handle := r']> (registries c)) c)
  | do_borrow c b : budget_step c (MkCoordinator (state c) b (dirty c) (registries c)).

Lemma budget_step_ok c c' : budget_step c c' -> Budget_ok c -> Budget_ok c'.
Proof.
  intros Hstep H. destruct Hstep.
  - by destruct (set_target_cases bps now c H H0) as (c' & r & -> & H' & _).
  - unfold budget_snapshot. destruct (refresh_cases now c H) as [[_ ->]|(_ & c1 & -> & H1 & _)]; [done|].
    by destruct (borrowed c1).
  - by apply attach_ok.
  - unfold preflight. destruct (refresh_cases now c H) as [[_ ->]|(_ & c1 & -> & H1 & _)]; [done|].
    by destruct (borrowed c1).
  - by apply update_inventory_ok.
  - by apply update_attention_ok.
  - unfold drop_membership. pose proof (set_dead_ok c id true H) as H1.
    set (c1 := set_dirty _ _) in *. destruct (borrowed c1); [done|].
    by destruct (refresh_cases now c1 H1) as [[_ ->]|(_ & c2 & -> & H2 & _)].
  - destruct H as [Hs Hregs]. split; [done|]. apply map_Forall_insert_2; [|done].
    split; [done|]. intros (i & p & Hp & Hc). by destruct (H2 _ _ Hp).
  - destruct H as [Hs Hregs]. split; [done|]. apply map_Forall_insert_2; [|done].
    destruct (Hregs _ _ H0) as [Hl Hm]. split; [by rewrite (registry_step_limits _ _ H1)|].
    intros Ho. by apply (proj1 (registry_step_frame _ _ H1)), Hm.
  - by destruct H.
Qed.

Lemma budget_steps_ok c c' : rtc budget_step c c' -> Budget_ok c -> Budget_ok c'.
Proof. induction 1; eauto using budget_step_ok. Qed.

Lemma with_policy_ok bps policy c :
  with_policy bps policy ∅ = Ret c -> bps <= u64_max -> Forall (fun w => w <= u16_max) (weight_list policy) ->
  Budget_ok c.
Proof.
  unfold with_policy. intros H Hb Hw. inv_ret. apply Z.ltb_lt in H1. subst c.
  unfold validate_policy in H0. apply bind_Ret_inv in H0 as (u & Hf%ensure_Ret_inv & _).
  rewrite forallb_forall in Hf.
  split; [split|].
  - unfold State_pre. cbn. split_and!; try done; try lia.
    + unfold policy_ok. apply list.Forall_forall. intros w Hin. split.
      * apply Z.ltb_lt, Hf. by apply list_elem_of_In.
      * rewrite list.Forall_forall in Hw. by apply Hw.
    + rewrite reservation_sum. cbn. rewrite map_to_list_empty. cbn. rewrite sum_list_nil. lia.
    + intros id [[? Hi]|[st [? Hi]]]; by rewrite lookup_empty in Hi.
  - cbn. unfold total_targets, bt_values. cbn. rewrite entries_empty. cbn. rewrite sum_list_nil.
    split; [constructor|lia].
  - apply map_Forall_empty.
Qed.

(** ** Properties *)

(** C15 (budget-no-overcommit). Whatever sequence of calls, registry changes and held
    borrows a budget sees, the targets it stores never add up to more than its target,
    each lies inside the limits of its encoder, and the minima of the live members'
    streams stay reserved: no overcommit, at any time. *)
Theorem budget_no_overcommit (bps : Z) (policy : BitrateAllocationPolicy) (c0 c : Coordinator) :
  with_policy bps policy ∅ = Ret c0 -> bps <= u64_max ->
  Forall (fun w => w <= u16_max) (weight_list policy) -> rtc budget_step c0 c ->
  total_targets (state c) <= target (state c) /\
  rates_within (targets (state c)) (ports (state c)) /\
  reservation (state c) None <= target (state c).
Proof.
  intros Hw Hb Hp Hr. apply with_policy_ok in Hw; [|done..].
  destruct (budget_steps_ok _ _ Hr Hw) as [[(_ & _ & _ & _ & ? & ? & _) [_ ?]] _]. done.
Qed.

(** C31 (budget-refresh). A refresh of a well-formed budget whose inventory changed
    always ends and succeeds, however many encoders fail on the way. Afterwards every
    stream of every remaining member has one target, which its encoder's registry was
    asked for, all members are live, and the budget is clean. *)
Theorem refresh_publishes (now : instant) (c : Coordinator) :
  Budget_ok c -> borrowed c = false -> dirty c = true ->
  exists c', refresh_at now c = (c', Ret tt) /\ published c' /\ dirty c' = false /\
    map_Forall (fun _ port => live port = true) (ports (state c')).
Proof.
  intros [[Hs _] Hregs] Hb Hd.
  destruct (refresh_dirty now c Hs Hregs Hb Hd) as (c' & Hrun & (_ & _ & Hd' & _) & Hp & Hl & _).
  by exists c'.
Qed.

(** Changing the target is atomic: the call either fails and
    the target is what it was, or it succeeds and the target is the new one; it never
    panics. *)
Theorem set_target_atomic (bps : Z) (now : instant) (c : Coordinator) :
  Budget_ok c -> bps <= u64_max ->
  (exists e, (set_target bps now c).2 = Fail e /\ target (state (set_target bps now c).1) = target (state c)) \/
  ((set_target bps now c).2 = Ret tt /\ target (state (set_target bps now c).1) = bps).
Proof.
  intros H Hb. by destruct (set_target_cases bps now c H Hb) as (c' & r & -> & _ & _ & Hcase).
Qed.

(** Dropping a membership while nothing borrows the coordinator
    releases its reservation at once: the port and its targets are gone and the
    remaining members have their new shares. *)
Theorem drop_releases (id : Z) (now : instant) (c : Coordinator) :
  Budget_ok c -> borrowed c = false ->
  let c' := drop_membership id now c in
  ports (state c') !! id = None /\ (forall stream, targets (state c') !! (id, stream) = None) /\ published c'.
Proof.
  intros H Hb. unfold drop_membership. pose proof (set_dead_ok c id true H) as H1.
  set (c1 := set_dirty _ _) in *. destruct H1 as [[Hs _] Hregs].
  destruct (refresh_dirty now c1 Hs Hregs Hb eq_refl) as (c2 & Hrun & _ & Hp & Hl & Hsub).
  change (borrowed c1) with (borrowed c). rewrite Hb, Hrun. cbn.
  assert (Hn : ports (state c2) !! id = None).
  { destruct (ports (state c2) !! id) as [p|] eqn:Hi; [|done]. exfalso.
    pose proof (Hl _ _ Hi) as Hlive. cbn in Hlive. eapply lookup_weaken in Hi; [|exact Hsub].
    cbn in Hi. apply lookup_fmap_Some in Hi as (q & <- & Hq). cbn in Hlive.
    rewrite lookup_alter_eq in Hq. apply fmap_Some in Hq as (q0 & _ & ->). done. }
  split_and!; [done| |done]. intros st. apply eq_None_not_Some. intros Hst.
  apply (proj1 Hp) in Hst as (p & d & Hi & _). congruence.
Qed.

(** A successful preflight is a promise: the inventory update of
    that size that follows it cannot fail. *)
Theorem preflight_promises (id : Z) (ds : list StreamDemand) (now : instant) (c c' : Coordinator) :
  preflight id (Z.of_nat (length ds)) now c = (c', Ret tt) ->
  exists c'', update_inventory id ds c' = (c'', Ret tt).
Proof.
  unfold preflight. destruct (refresh_at now c) as [c1 [u|e|]]; [|done..].
  destruct (borrowed c1) eqn:Hb; [done|]. intros [= <- H]. inv_ret.
  apply bool_decide_eq_true in H0 as [port Hp]. unfold update_inventory. rewrite Hb, H. cbn. rewrite Hp. cbn.
  case_bool_decide; eauto.
Qed.

(** ** Concrete inputs *)
Definition sample_pool : Coordinator :=
  MkCoordinator (MkBudgetState 10000000 BitrateAllocationPolicy_default (Some 1) ∅ ∅ ∅) false false ∅.
Definition opened_pool : Coordinator :=
  set_registries (<[5 := EncoderRates_new sample_limits]> (registries sample_pool)) sample_pool.
Definition attached_pool : Coordinator := (attach 5 0 opened_pool).1.
Definition sample_demands : list StreamDemand := [MkDemand sample_stream (sample_group 1) 1000 None].
Definition registered_pool : Coordinator :=
  match registries attached_pool !! 5 with
  | Some r => set_registries
      (<[5 := (Bitrate.register r sample_stream (ClientSurfaceId_for_test 1) (MkSurfaceLayerId 0)).1]>
         (registries attached_pool)) attached_pool
  | None => attached_pool
  end.
(** One live member with one registered stream, whose inventory has just changed. *)
Definition sample_budget : Coordinator := (update_inventory 1 sample_demands registered_pool).1.

Lemma sample_limits_u64 : limits_u64 sample_limits.
Proof. vm_compute. repeat split; congruence. Qed.

Lemma sample_steps : rtc budget_step sample_pool sample_budget.
Proof.
  eapply rtc_l; [apply (do_open sample_pool 5 sample_limits); [done|apply sample_limits_u64|done]|].
  eapply rtc_l; [apply (do_attach opened_pool 5 0)|].
  eapply rtc_l.
  { eapply (do_registry attached_pool 5); [vm_compute; reflexivity|].
    apply (Bitrate.step_register _ sample_stream (ClientSurfaceId_for_test 1) (MkSurfaceLayerId 0)). }
  apply rtc_once. apply (do_update_inventory registered_pool 1 sample_demands).
  - constructor; [|constructor]. vm_compute. split; congruence.
  - apply NoDup_singleton.
Qed.

Lemma sample_budget_ok : Budget_ok sample_budget.
Proof.
  eapply budget_steps_ok; [apply sample_steps|].
  apply (with_policy_ok 10000000 BitrateAllocationPolicy_default); [reflexivity|vm_compute; congruence|].
  repeat constructor; vm_compute; congruence.
Qed.

Lemma budget_no_overcommit_witness :
  total_targets (state (refresh_at 0 sample_budget).1) = 8000000 /\
  total_targets (state sample_budget) <= target (state sample_budget).
Proof.
  split; [vm_compute; reflexivity|].
  refine (proj1 (budget_no_overcommit 10000000 BitrateAllocationPolicy_default sample_pool sample_budget _ _ _ _)).
  - reflexivity.
  - vm_compute. congruence.
  - repeat constructor; vm_compute; congruence.
  - apply sample_steps.
Defined.

Lemma refresh_publishes_witness :
  exists c', refresh_at 0 sample_budget = (c', Ret tt) /\ published c'.
Proof.
  destruct (refresh_publishes 0 sample_budget sample_budget_ok) as (c' & H & Hp & _);
    [vm_compute; reflexivity..|]. exists c'. split; [exact H|exact Hp].
Defined.

Lemma set_target_atomic_witness :
  exists e, (set_target 100 0 sample_budget).2 = Fail e /\
    target (state (set_target 100 0 sample_budget).1) = 10000000.
Proof.
  destruct (set_target_atomic 100 0 sample_budget sample_budget_ok) as [[e H]|[H _]].
  - vm_compute. congruence.
  - exists e. exact H.
  - exfalso. vm_compute in H. discriminate H.
Defined.

Lemma drop_releases_witness : ports (state (drop_membership 1 0 sample_budget)) !! 1 = None.
Proof.
  refine (proj1 (drop_releases 1 0 sample_budget sample_budget_ok _)). vm_compute. reflexivity.
Defined.

Lemma preflight_promises_witness :
  exists c'', update_inventory 1 sample_demands (preflight 1 1 0 registered_pool).1 = (c'', Ret tt).
Proof.
  apply (preflight_promises 1 sample_demands 0 registered_pool). vm_compute. reflexivity.
Defined.
