(* ===== verification/Scheduling.v ===== *)
(** * Weighted admission between groups ([weld-hoist-encoded/src/scheduling.rs])

    Each group carries a virtual finish time and the time it has been waiting since;
    the next member is the one waiting longest past the starvation age, or else the one
    with the earliest finish. *)

From S2P Require Import Prelude OrdMap Ids Surface Input Activity.

Record Service := MkService {
  finish : Z;
  waiting : option instant;
  service_priority : option Priority;
}.

Record Selection := MkSelection {
  sel_surface : ClientSurfaceId;
  sel_group : Group;
  sel_finish : Z;
  sel_priority : Priority;
  aged : bool;
}.

Record Scheduler := MkScheduler {
  last_snapshot : ActivitySnapshot;
  groups : gmap Group Service;
  selections : Z * Z * Z * Z;
  aging : Z;
  last_report : option instant;
  oldest_candidate_age : duration;
}.
Definition Scheduler_default : Scheduler :=
  MkScheduler (MkSnapshot ∅ ∅) ∅ (0, 0, 0, 0) 0 None 0.

Definition set_groups (g : gmap Group Service) (s : Scheduler) : Scheduler :=
  MkScheduler (last_snapshot s) g (selections s) (aging s) (last_report s) (oldest_candidate_age s).

(** [iterator.min().unwrap_or(0)] and [iterator.max().unwrap_or_default()] *)
Definition min_or_zero (l : list Z) : Z :=
  match l with [] => 0 | x :: l => fold_left Z.min l x end.
Definition max_or_zero (l : list Z) : Z := fold_left Z.max l 0.

Definition finishes (groups : gmap Group Service) : list Z := finish <$> (map_to_list groups).*2.

(** Some candidate of the group is not excluded. *)
Definition eligible (snap : ActivitySnapshot) (candidates excluded : list ClientSurfaceId) (g : Group) : bool :=
  existsb (fun c => negb (bool_decide (c ∈ excluded)) && bool_decide (snapshot_groups snap !! c = Some g))
    candidates.

(** A service after the scan has seen one of its members. *)
Definition scan_service (now : instant) (floor : Z) (is_eligible : bool) (p : Priority) (entry : Service) :
    Service :=
  let w := if is_eligible then Some (default now (waiting entry)) else None in
  let f := if is_none_or (service_priority entry) (fun previous => priority_ltb previous p)
           then floor else finish entry in
  MkService f w (Some p).

Definition group_priority (policy : SchedulingPolicy) (snap : ActivitySnapshot) (now : instant) (g : Group) :
    Priority :=
  priority (default GroupAttention_default (snapshot_attention snap !! g)) now
    (interaction_grace policy) (motion_grace policy).

(** The first loop's body. *)
Definition scan_step (policy : SchedulingPolicy) (snap : ActivitySnapshot)
    (candidates excluded : list ClientSurfaceId) (now : instant) (floor : Z)
    (groups : gmap Group Service) (surface : ClientSurfaceId) : gmap Group Service :=
  match snapshot_groups snap !! surface with
  | None => groups
  | Some g =>
      <[g := scan_service now floor (eligible snap candidates excluded g)
               (group_priority policy snap now g)
               (default (MkService floor None None) (groups !! g))]> groups
  end.

Definition scan (policy : SchedulingPolicy) (snap : ActivitySnapshot)
    (candidates excluded : list ClientSurfaceId) (now : instant) (groups : gmap Group Service) :
    gmap Group Service :=
  let kept := filter (fun e =>
    existsb (fun c => bool_decide (snapshot_groups snap !! c = Some e.1)) candidates = true) groups in
  let floor := min_or_zero (finishes kept) in
  fold_left (scan_step policy snap candidates excluded now floor) candidates kept.

Definition aged_at (policy : SchedulingPolicy) (now : instant) (service : Service) : option instant :=
  match waiting service with
  | Some at_ => if starvation_age policy <=? since now at_ then Some at_ else None
  | None => None
  end.

(** The selection a candidate would be, with the time it is aged from. *)
Definition offer (policy : SchedulingPolicy) (snap : ActivitySnapshot) (excluded : list ClientSurfaceId)
    (now : instant) (groups : gmap Group Service) (surface : ClientSurfaceId) :
    option (Selection * option instant) :=
  if bool_decide (surface ∈ excluded) then None
  else
    match snapshot_groups snap !! surface with
    | None => None
    | Some g =>
        match groups !! g with
        | None => None
        | Some service =>
            let p := default Background (service_priority service) in
            let at_ := aged_at policy now service in
            let cost := 65536 / Z.max (weight_of (scheduling_weights policy) p) 1 in
            Some (MkSelection surface g (sat_add (finish service) cost) p
                    (match at_ with Some _ => true | None => false end), at_)
        end
    end.

Definition better (offered previous : Selection * option instant) : bool :=
  match offered.2, previous.2 with
  | Some at_, Some before => at_ <? before
  | Some _, None => true
  | None, Some _ => false
  | None, None => sel_finish offered.1 <? sel_finish previous.1
  end.

(** The second loop's body. *)
Definition best_step (policy : SchedulingPolicy) (snap : ActivitySnapshot)
    (excluded : list ClientSurfaceId) (now : instant) (groups : gmap Group Service)
    (best : option (Selection * option instant)) (surface : ClientSurfaceId) :
    option (Selection * option instant) :=
  match offer policy snap excluded now groups surface with
  | None => best
  | Some offered => if is_none_or best (better offered) then Some offered else best
  end.

(** [Scheduler::select] *)
Definition select (candidates excluded : list ClientSurfaceId) (activity : Activity)
    (policy : SchedulingPolicy) (now : instant) (s : Scheduler) : Scheduler * option Selection :=
  let snap := snapshot policy activity in
  let groups := scan policy snap candidates excluded now (groups s) in
  let best := fold_left (best_step policy snap excluded now groups) candidates None in
  let oldest := max_or_zero (omap (fun service => since now <$> waiting service) (map_to_list groups).*2) in
  (MkScheduler snap groups (selections s) (aging s) (last_report s) oldest, fst <$> best).

Definition bump (p : Priority) (t : Z * Z * Z * Z) : Z * Z * Z * Z :=
  let '(a, b, c, d) := t in
  match p with
  | Background => (sat_add a 1, b, c, d)
  | Focused => (a, sat_add b 1, c, d)
  | Moving => (a, b, sat_add c 1, d)
  | Interactive => (a, b, c, sat_add d 1)
  end.

(** [service.finish -= floor] *)
Definition lower (floor : Z) (service : Service) : Service :=
  MkService (finish service - floor) (waiting service) (service_priority service).

(** [Scheduler::accepted] *)
Definition accepted (selection : Selection) (now : instant) (s : Scheduler) : Scheduler :=
  let served := alter (fun service => MkService (sel_finish selection) (Some now) (service_priority service))
                  (sel_group selection) (groups s) in
  let floor := min_or_zero (finishes served) in
  MkScheduler (last_snapshot s) (lower floor <$> served)
    (bump (sel_priority selection) (selections s))
    (sat_add (aging s) (if aged selection then 1 else 0)) (last_report s) (oldest_candidate_age s).

(** [Scheduler::forget] *)
Definition forget (activity : Activity) (surface : ClientSurfaceId) (s : Scheduler) : Scheduler :=
  match group activity surface with
  | Some g => if bool_decide (root g = surface) then set_groups (delete g (groups s)) s else s
  | None => s
  end.

(** [Scheduler::report]: whether it logged, and the counters it starts over. *)
Definition report (now : instant) (s : Scheduler) : Scheduler * bool :=
  if is_some_and (last_report s) (fun last => since now last / 1000000000 <? 1)
     || bool_decide (selections s = (0, 0, 0, 0))
  then (s, false)
  else (MkScheduler (last_snapshot s) (groups s) (0, 0, 0, 0) 0 (Some now) (oldest_candidate_age s), true).

(** ** What the scan leaves *)
Section Scan.
Context (policy : SchedulingPolicy) (snap : ActivitySnapshot).
Context (candidates excluded : list ClientSurfaceId) (now : instant) (old : gmap Group Service).

Definition has_candidate (g : Group) (l : list ClientSurfaceId) : Prop :=
  exists c, c ∈ l /\ snapshot_groups snap !! c = Some g.

#[export] Instance has_candidate_dec g l : Decision (has_candidate g l).
Proof.
  refine (cast_if (decide (Exists (fun c => snapshot_groups snap !! c = Some g) l)));
    unfold has_candidate; by rewrite <-list.Exists_exists.
Defined.

(** The waiting time of a scanned group. *)
Definition scanned_waiting (g : Group) : option instant :=
  if eligible snap candidates excluded g then Some (default now (old !! g ≫= waiting)) else None.

Lemma scan_service_waiting floor p g entry :
  waiting entry = (old !! g ≫= waiting) \/ waiting entry = scanned_waiting g ->
  waiting (scan_service now floor (eligible snap candidates excluded g) p entry) = scanned_waiting g.
Proof.
  unfold scanned_waiting. cbn. destruct (eligible snap candidates excluded g); [|done].
  by intros [->| ->].
Qed.

Lemma scan_fold floor l (m : gmap Group Service) :
  (forall g svc, m !! g = Some svc ->
     waiting svc = (old !! g ≫= waiting) \/ waiting svc = scanned_waiting g) ->
  (forall g, m !! g = None -> has_candidate g candidates -> old !! g ≫= waiting = None) ->
  (forall c, c ∈ l -> c ∈ candidates) ->
  let m' := fold_left (scan_step policy snap candidates excluded now floor) l m in
  forall g,
    (has_candidate g l -> exists svc, m' !! g = Some svc /\ waiting svc = scanned_waiting g) /\
    (~ has_candidate g l -> m' !! g = m !! g).
Proof.
  revert m. induction l as [|c l IH]; intros m Hm Hn Hl; cbn [fold_left]; intros g.
  { split; [|done]. by intros (? & ?%not_elem_of_nil & _). }
  destruct (snapshot_groups snap !! c) as [h|] eqn:Hc.
  - assert (Hstep : scan_step policy snap candidates excluded now floor m c =
      <[h := scan_service now floor (eligible snap candidates excluded h) (group_priority policy snap now h)
               (default (MkService floor None None) (m !! h))]> m) by (unfold scan_step; by rewrite Hc).
    rewrite Hstep. clear Hstep.
    assert (Hh : waiting (scan_service now floor (eligible snap candidates excluded h) (group_priority policy snap now h)
               (default (MkService floor None None) (m !! h))) = scanned_waiting h).
    { apply scan_service_waiting. destruct (m !! h) as [svc|] eqn:Hmh; [by apply Hm|]. left. cbn. symmetry.
      apply Hn; [done|]. exists c. split; [apply Hl; set_solver|done]. }
    revert Hh. generalize (scan_service now floor (eligible snap candidates excluded h) (group_priority policy snap now h)
               (default (MkService floor None None) (m !! h))). intros svc0 Hh.
    destruct (IH (<[h := svc0]> m)) with (g := g) as [Hin Hout].
    { intros g' svc'. rewrite lookup_insert_Some. intros [[<- <-]|[_ ?]]; [by right|by apply Hm]. }
    { intros g' Hg'. apply lookup_insert_None in Hg' as [Hg' _]. by apply Hn. }
    { intros c' Hc'. apply Hl. set_solver. }
    split.
    + intros (c' & Hc' & Hg'). destruct (decide (has_candidate g l)) as [He|He].
      * by apply Hin.
      * apply elem_of_cons in Hc' as [->|Hc']; [|destruct He; by exists c'].
        rewrite Hout by done. rewrite Hc in Hg'. injection Hg' as ->. exists svc0.
        by rewrite lookup_insert_eq.
    + intros Hno. rewrite Hout; [|intros (c' & ? & ?); apply Hno; exists c'; set_solver].
      apply lookup_insert_ne. intros ->. apply Hno. exists c. set_solver.
  - assert (Hstep : scan_step policy snap candidates excluded now floor m c = m) by (unfold scan_step; by rewrite Hc).
    rewrite Hstep. destruct (IH m Hm Hn) with (g := g) as [Hin Hout]; [intros c' ?; apply Hl; set_solver|]. split.
    + intros (c' & Hc' & Hg'). apply Hin. exists c'. split; [|done].
      apply elem_of_cons in Hc' as [->|]; [congruence|done].
    + intros Hno. apply Hout. intros (c' & ? & ?). apply Hno. exists c'. set_solver.
Qed.

(** After a scan the services are those of the candidates' groups, each waiting as
    [scanned_waiting] says. *)
Lemma scan_spec g :
  let m' := scan policy snap candidates excluded now old in
  (is_Some (m' !! g) <-> has_candidate g candidates) /\
  forall svc, m' !! g = Some svc -> waiting svc = scanned_waiting g.
Proof.
  assert (Hkept : forall h svc, filter (fun e : Group * Service =>
      existsb (fun c => bool_decide (snapshot_groups snap !! c = Some e.1)) candidates = true) old !! h = Some svc <->
      old !! h = Some svc /\ has_candidate h candidates).
  { intros h svc. rewrite map_lookup_filter_Some, existsb_exists. cbn. split.
    - intros [Ho (c & Hc & Hb)]. split; [done|]. exists c. rewrite list_elem_of_In.
      by apply bool_decide_eq_true in Hb.
    - intros [Ho (c & Hc & Hb)]. split; [done|]. exists c. rewrite <-list_elem_of_In.
      by rewrite bool_decide_true. }
  unfold scan. set (kept := filter _ old) in *.
  destruct (scan_fold (min_or_zero (finishes kept)) candidates kept) with (g := g) as [Hin Hout].
  - intros h svc [Ho _]%Hkept. left. by rewrite Ho.
  - intros h Hn Hh. destruct (old !! h) as [svc|] eqn:Ho; [|done].
    pose proof (proj2 (Hkept h svc) (conj Ho Hh)). congruence.
  - done.
  - split.
    + split; [|intros Hc; destruct (Hin Hc) as (svc & -> & _); eauto].
      intros [svc Hs]. destruct (decide (has_candidate g candidates)) as [|Hno]; [done|].
      rewrite Hout in Hs by done. by apply Hkept in Hs as [_ ?].
    + intros svc Hs. destruct (decide (has_candidate g candidates)) as [Hc|Hno].
      * destruct (Hin Hc) as (svc' & Hs' & Hw). rewrite Hs' in Hs. by injection Hs as <-.
      * rewrite Hout in Hs by done. by apply Hkept in Hs as [_ ?].
Qed.
End Scan.

(** ** The best offer *)
Definition offer_le (o p : Selection * option instant) : Prop :=
  match o.2, p.2 with
  | Some x, Some y => x <= y
  | Some _, None => True
  | None, Some _ => False
  | None, None => sel_finish o.1 <= sel_finish p.1
  end.

Lemma better_false o p : better o p = false -> offer_le p o.
Proof. unfold better, offer_le. destruct (o.2), (p.2); try done; intros ?%Z.ltb_ge; lia. Qed.
Lemma better_true o p : better o p = true -> offer_le o p.
Proof. unfold better, offer_le. destruct (o.2), (p.2); try done; intros ?%Z.ltb_lt; lia. Qed.
Lemma offer_le_refl o : offer_le o o.
Proof. unfold offer_le. destruct (o.2); [lia|]. lia. Qed.
Lemma offer_le_trans o p q : offer_le o p -> offer_le p q -> offer_le o q.
Proof. unfold offer_le. destruct (o.2), (p.2), (q.2); try done; lia. Qed.

Lemma best_fold policy snap excluded now groups l b best :
  fold_left (best_step policy snap excluded now groups) l b = best ->
  match best with
  | None => b = None /\ (forall c, c ∈ l -> offer policy snap excluded now groups c = None)
  | Some o =>
      (b = Some o \/ exists c, c ∈ l /\ offer policy snap excluded now groups c = Some o) /\
      (forall p, b = Some p -> offer_le o p) /\
      (forall c p, c ∈ l -> offer policy snap excluded now groups c = Some p -> offer_le o p)
  end.
Proof.
  intros <-. revert b. induction l as [|c l IH]; intros b; cbn [fold_left].
  { destruct b as [o|].
    - split_and!; [by left|intros p [= ->]; apply offer_le_refl|by intros ? ? ?%not_elem_of_nil].
    - split; [done|by intros ? ?%not_elem_of_nil]. }
  specialize (IH (best_step policy snap excluded now groups b c)).
  destruct (fold_left _ l _) as [o|].
  - destruct IH as (Hor & Hb & Hl). unfold best_step in Hor, Hb.
    destruct (offer policy snap excluded now groups c) as [q|] eqn:Hq.
    2:{ split_and!; [|done|].
        - destruct Hor as [|(c' & ? & ?)]; [by left|right; exists c'; set_solver].
        - intros c' p [->|Hc']%elem_of_cons Hp; [congruence|by eapply Hl]. }
    assert (Hq' : offer_le o q /\ forall p, b = Some p -> offer_le o p).
    { destruct b as [p|]; cbn in Hb.
      - destruct (better q p) eqn:Hbt.
        + pose proof (Hb _ eq_refl) as Hoq. split; [done|]. intros p' [= <-].
          eapply offer_le_trans; [done|]. by apply better_true.
        + pose proof (Hb _ eq_refl) as Hop. split; [|by intros p' [= <-]].
          eapply offer_le_trans; [done|]. by apply better_false.
      - split; [by apply Hb|done]. }
    destruct Hq' as [Hoq Hob]. split_and!; [|done|].
    + destruct Hor as [Hor|(c' & ? & ?)]; [|right; exists c'; set_solver].
      destruct b as [p|]; cbn in Hor.
      * destruct (better q p); [right; exists c; split; [set_solver|congruence]|by left].
      * right. exists c. split; [set_solver|congruence].
    + intros c' p [->|Hc']%elem_of_cons Hp; [congruence|by eapply Hl].
  - destruct IH as [Hb Hl]. unfold best_step in Hb.
    destruct (offer policy snap excluded now groups c) as [q|] eqn:Hq.
    + destruct b as [p|]; cbn in Hb; [by destruct (better q p)|done].
    + split; [done|]. intros c' [->|Hc']%elem_of_cons; [done|by apply Hl].
Qed.

Lemma offer_inv policy snap excluded now groups c o :
  offer policy snap excluded now groups c = Some o ->
  (c ∉ excluded) /\ sel_surface o.1 = c /\ snapshot_groups snap !! c = Some (sel_group o.1) /\
  exists svc, groups !! sel_group o.1 = Some svc /\ o.2 = aged_at policy now svc /\
    aged o.1 = bool_decide (is_Some o.2).
Proof.
  unfold offer. case_bool_decide as Hx; [done|]. destruct (snapshot_groups snap !! c) as [g|]; [|done].
  destruct (groups !! g) as [svc|] eqn:Hg; [|done]. intros [= <-]. cbn. split_and!; try done.
  exists svc. split_and!; try done. by destruct (aged_at policy now svc).
Qed.

Lemma eligible_offer policy snap candidates excluded now groups g svc :
  eligible snap candidates excluded g = true -> groups !! g = Some svc ->
  exists c o, c ∈ candidates /\ offer policy snap excluded now groups c = Some o /\
    sel_group o.1 = g /\ o.2 = aged_at policy now svc.
Proof.
  unfold eligible. intros (c & Hc%list_elem_of_In & [Hx%negb_true_iff Hg]%andb_true_iff)%existsb_exists Hs.
  apply bool_decide_eq_false in Hx. apply bool_decide_eq_true in Hg. unfold offer.
  exists c. rewrite bool_decide_false by done. rewrite Hg, Hs. eexists. by split_and!.
Qed.

Lemma select_best candidates excluded activity policy now s :
  let s' := (select candidates excluded activity policy now s).1 in
  let snap := snapshot policy activity in
  match (select candidates excluded activity policy now s).2 with
  | None => forall g, eligible snap candidates excluded g = false
  | Some sel =>
      (sel_surface sel ∈ candidates) /\ (sel_surface sel ∉ excluded) /\
      group activity (sel_surface sel) = Some (sel_group sel) /\
      forall g svc, eligible snap candidates excluded g = true -> groups s' !! g = Some svc ->
        exists o, sel_group o.1 = g /\ o.2 = aged_at policy now svc /\
          offer_le (sel, if aged sel then aged_at policy now
            (default (MkService 0 None None) (groups s' !! sel_group sel)) else None) o
  end.
Proof.
  intros s' snap. unfold select. cbn [snd fst].
  pose proof (best_fold policy snap excluded now (groups s') candidates None _ eq_refl) as Hb.
  change (groups s') with (scan policy snap candidates excluded now (groups s)) in *. fold snap in Hb |- *.
  destruct (fold_left _ candidates None) as [o|]; cbn [fmap option_fmap option_map].
  - destruct Hb as ([|(c & Hc & Ho)] & _ & Hbest); [done|].
    destruct (offer_inv _ _ _ _ _ _ _ Ho) as (Hx & Hsurf & Hg & svc0 & Hsvc & Hat & Haged).
    rewrite <-Hsurf in Hx, Hc, Hg. unfold snap in Hg. rewrite snapshot_groups_lookup in Hg.
    split_and!; try done. intros g svc He Hs.
    destruct (eligible_offer policy snap candidates excluded now _ g svc He Hs) as (c' & o' & Hc' & Ho' & Hg' & Hat').
    exists o'. split_and!; try done. rewrite Hsvc. cbn.
    replace (if aged o.1 then aged_at policy now svc0 else None) with (o.2).
    { destruct o as [sel at_]. cbn. by eapply Hbest. }
    rewrite Haged, Hat. by destruct (aged_at policy now svc0).
  - destruct Hb as [_ Hnone]. intros g. apply not_true_iff_false. intros He.
    destruct (proj2 (proj1 (scan_spec policy snap candidates excluded now (groups s) g))) as [svc Hs].
    { unfold eligible in He. apply existsb_exists in He as (c & Hc%list_elem_of_In & [_ Hg]%andb_true_iff).
      exists c. split; [done|]. by apply bool_decide_eq_true in Hg. }
    destruct (eligible_offer policy snap candidates excluded now _ g svc He Hs) as (c' & o' & Hc' & Ho' & _).
    rewrite Hnone in Ho' by done. done.
Qed.
(** Who is chosen is a candidate that is not excluded, and nobody is when every other
    candidate belongs to no group. *)
Lemma select_candidate cs ex a pol now sched :
  match (select cs ex a pol now sched).2 with
  | Some sel => sel_surface sel ∈ cs /\ sel_surface sel ∉ ex
  | None => forall sf, sf ∈ cs -> sf ∈ ex \/ group a sf = None
  end.
Proof.
  pose proof (select_best cs ex a pol now sched) as H. destruct (select _ _ _ _ _ _) as [s' [sel|]]; cbn in *; [split; apply H|].
  intros sf Hsf. destruct (decide (sf ∈ ex)) as [He|He]; [by left|right]. destruct (group a sf) as [g|] eqn:Hg; [|done].
  specialize (H g). unfold eligible in H. assert (Hn : existsb (fun c => negb (bool_decide (c ∈ ex)) &&
    bool_decide (snapshot_groups (snapshot pol a) !! c = Some g)) cs = true); [|congruence].
  apply existsb_exists. exists sf. split; [by apply list_elem_of_In|]. rewrite snapshot_groups_lookup.
  by rewrite bool_decide_false, bool_decide_true by done.
Qed.

(** ** Starvation *)

(** One round: a selection that is accepted. *)
Record round := MkRound {
  round_candidates : list ClientSurfaceId;
  round_excluded : list ClientSurfaceId;
  round_activity : Activity;
  round_now : instant;
}.
Definition run_round (policy : SchedulingPolicy) (r : round) (s : Scheduler) : Scheduler * option Selection :=
  let selected := select (round_candidates r) (round_excluded r) (round_activity r) policy (round_now r) s in
  match selected.2 with
  | Some sel => (accepted sel (round_now r) selected.1, Some sel)
  | None => selected
  end.
Fixpoint run_rounds (policy : SchedulingPolicy) (rounds : list round) (s : Scheduler) : list (option Selection) :=
  match rounds with
  | [] => []
  | r :: rounds => let served := run_round policy r s in served.2 :: run_rounds policy rounds served.1
  end.

(** A member of [g] could be selected in the round. *)
Definition round_eligible (policy : SchedulingPolicy) (g : Group) (r : round) : Prop :=
  eligible (snapshot policy (round_activity r)) (round_candidates r) (round_excluded r) g = true.

(** The other groups waiting since [w] or longer. *)
Definition ahead (g : Group) (w : instant) (m : gmap Group Service) : gmap Group Service :=
  filter (fun e => e.1 <> g /\ is_some_and (waiting e.2) (fun at_ => at_ <=? w) = true) m.

Lemma accepted_waiting sel now s h :
  groups (accepted sel now s) !! h ≫= waiting =
  if decide (h = sel_group sel) then (fun _ => now) <$> groups s !! h else groups s !! h ≫= waiting.
Proof.
  cbn. rewrite lookup_fmap, lookup_alter. repeat case_decide; subst; try done;
    by destruct (groups s !! _).
Qed.

Lemma elem_ahead g w m h :
  is_Some (ahead g w m !! h) <-> h <> g /\ exists at_, m !! h ≫= waiting = Some at_ /\ at_ <= w.
Proof.
  unfold ahead, is_Some. setoid_rewrite map_lookup_filter_Some. cbn. split.
  - intros (svc & Hs & Hne & (at_ & Hat & Hle%Z.leb_le)%is_some_and_true). split; [done|]. exists at_.
    rewrite Hs. done.
  - intros (Hne & at_ & Hat & Hle). destruct (m !! h) as [svc|] eqn:Hs; [|done]. cbn in Hat.
    exists svc. split_and!; [done|done|]. rewrite Hat. cbn. by apply Z.leb_le.
Qed.

(** An old waiting time survives a scan, and only old ones precede the present. *)
Lemma scanned_old policy snap candidates excluded now old h at_ w :
  w < now -> at_ <= w ->
  scan policy snap candidates excluded now old !! h ≫= waiting = Some at_ -> old !! h ≫= waiting = Some at_.
Proof.
  intros Hnow Hle H. destruct (scan policy snap candidates excluded now old !! h) as [svc|] eqn:Hs; [|done].
  cbn in H. rewrite (proj2 (scan_spec policy snap candidates excluded now old h) svc Hs) in H.
  unfold scanned_waiting in H. destruct (eligible _ _ _ _); [|done].
  destruct (old !! h ≫= waiting) as [x|]; cbn in H; injection H as ->; [done|lia].
Qed.

Lemma round_progress policy r s g w :
  0 < starvation_age policy -> groups s !! g ≫= waiting = Some w ->
  round_eligible policy g r -> w + starvation_age policy <= round_now r ->
  exists sel, (run_round policy r s).2 = Some sel /\
    (sel_group sel = g \/
     (groups (run_round policy r s).1 !! g ≫= waiting = Some w /\
      (size (ahead g w (groups (run_round policy r s).1)) < size (ahead g w (groups s)))%nat)).
Proof.
  intros Hage Hw He Hnow. unfold run_round, round_eligible in *.
  set (snap := snapshot policy (round_activity r)) in *.
  set (now := round_now r) in *. set (cs := round_candidates r) in *. set (ex := round_excluded r) in *.
  pose proof (select_best cs ex (round_activity r) policy now s) as Hbest. cbn zeta in Hbest.
  destruct (select cs ex (round_activity r) policy now s) as [s1 [sel|]] eqn:Hsel; cbn [fst snd] in *;
    [|by rewrite Hbest in He].
  assert (Hs1 : groups s1 = scan policy snap cs ex now (groups s)) by (unfold select in Hsel; by injection Hsel as <- _).
  destruct Hbest as (_ & _ & _ & Hbest). exists sel. split; [done|].
  destruct (decide (sel_group sel = g)) as [|Hne]; [by left|]. right.
  destruct (scan_spec policy snap cs ex now (groups s) g) as [Hdom Hwait].
  destruct (proj2 Hdom) as [svc Hsvc].
  { unfold eligible in He. apply existsb_exists in He as (c & Hc%list_elem_of_In & [_ Hg]%andb_true_iff).
    exists c. split; [done|]. by apply bool_decide_eq_true in Hg. }
  assert (Hsw : waiting svc = Some w).
  { rewrite (Hwait svc Hsvc). unfold scanned_waiting. rewrite He. destruct (groups s !! g) as [sv|]; cbn in Hw |- *; [by rewrite Hw|done]. }
  destruct (Hbest g svc He) as (o & _ & Ho & Hle); [by rewrite Hs1|].
  unfold aged_at at 1 in Ho. rewrite Hsw in Ho.
  destruct (Z.leb_spec (starvation_age policy) (since now w)) as [_|Hlt]; [|unfold since in Hlt; lia].
  assert (Hat : exists at_, groups s1 !! sel_group sel ≫= waiting = Some at_ /\ at_ <= w).
  { unfold offer_le in Hle. cbn [fst snd] in Hle. rewrite Ho in Hle.
    destruct (aged sel); [|done]. unfold aged_at in Hle.
    destruct (groups s1 !! sel_group sel) as [svc1|]; cbn in Hle |- *; [|done].
    destruct (waiting svc1) as [t|]; [|done]. exists t. split; [done|]. by destruct (_ <=? _). }
  destruct Hat as (at_ & Hat & Hatw). split.
  - rewrite accepted_waiting, decide_False by done. rewrite Hs1, Hsvc. done.
  - rewrite <-!size_dom. apply subset_size. split.
    + intros h Hh. apply elem_of_dom. apply elem_of_dom, elem_ahead in Hh as (Hhg & t & Ht & Htw).
      rewrite accepted_waiting in Ht. apply elem_ahead. split; [done|]. exists t. split; [|done].
      case_decide as Hhs.
      * destruct (groups s1 !! h); [|done]. cbn in Ht. injection Ht as <-. fold now in Hnow. lia.
      * rewrite Hs1 in Ht. eapply scanned_old; [|exact Htw|exact Ht]. lia.
    + intros Hsub. assert (Hin : sel_group sel ∈ dom (ahead g w (groups s))).
      { apply elem_of_dom, elem_ahead. split; [done|]. exists at_. split; [|done].
        rewrite Hs1 in Hat. eapply scanned_old; [|exact Hatw|exact Hat]. lia. }
      apply Hsub, elem_of_dom, elem_ahead in Hin as (_ & t & Ht & Htw).
      rewrite accepted_waiting, decide_True in Ht by done.
      destruct (groups s1 !! sel_group sel); [|done]. cbn in Ht. injection Ht as <-. lia.
Qed.

Lemma rounds_served policy rounds s g w :
  0 < starvation_age policy -> groups s !! g ≫= waiting = Some w ->
  Forall (fun r => round_eligible policy g r /\ w + starvation_age policy <= round_now r) rounds ->
  (size (ahead g w (groups s)) < length rounds)%nat ->
  exists sel, Some sel ∈ run_rounds policy rounds s /\ sel_group sel = g.
Proof.
  intros Hage. revert s. induction rounds as [|r rounds IH]; intros s Hw Hall Hlen; cbn in Hlen; [lia|].
  apply list.Forall_cons in Hall as [[He Hnow] Hall].
  destruct (round_progress policy r s g w Hage Hw He Hnow) as (sel & Hsel & [Hg|[Hw' Hsize]]); cbn [run_rounds].
  - exists sel. split; [|done]. rewrite Hsel. set_solver.
  - destruct (IH (run_round policy r s).1 Hw' Hall ltac:(lia)) as (sel' & Hin & Hg').
    exists sel'. split; [|done]. set_solver.
Qed.

(** ** Virtual time *)
Definition finishes_ok (m : gmap Group Service) : Prop := map_Forall (fun _ svc => 0 <= finish svc) m.

Lemma min_or_zero_spec l :
  l <> [] -> min_or_zero l ∈ l /\ Forall (Z.le (min_or_zero l)) l.
Proof.
  destruct l as [|x l]; [done|]. intros _. cbn. revert x. induction l as [|y l IH]; intros x; cbn.
  - split; [set_solver|]. repeat constructor. lia.
  - destruct (IH (Z.min x y)) as [Hin Hall]. apply list.Forall_cons in Hall as [Hle Hall]. split.
    + apply elem_of_cons in Hin as [->|Hin]; [|set_solver].
      destruct (Z.min_spec x y) as [[_ ->]|[_ ->]]; set_solver.
    + repeat constructor; [lia|lia|done].
Qed.

Lemma min_finish m g svc :
  m !! g = Some svc ->
  min_or_zero (finishes m) <= finish svc /\ exists h svc', m !! h = Some svc' /\ finish svc' = min_or_zero (finishes m).
Proof.
  intros Hg.
  assert (Hin : forall h s, m !! h = Some s -> finish s ∈ finishes m).
  { intros h s Hh. unfold finishes. apply list_elem_of_fmap. exists s. split; [done|].
    apply list_elem_of_fmap. exists (h, s). split; [done|]. by apply elem_of_map_to_list. }
  destruct (min_or_zero_spec (finishes m)) as [Hmin Hall].
  { intros Hn. specialize (Hin _ _ Hg). rewrite Hn in Hin. by apply not_elem_of_nil in Hin. }
  split; [rewrite list.Forall_forall in Hall; apply Hall; by eapply Hin|].
  unfold finishes in Hmin at 2. apply list_elem_of_fmap in Hmin as (s & Hs & Hmem).
  apply list_elem_of_fmap in Hmem as ([h s'] & -> & Hh%elem_of_map_to_list). by exists h, s'.
Qed.

(** ** Properties *)

(** A selection is a candidate that is not excluded, of the group
    it says. When some eligible group is past the starvation age, the selected one is
    past it too and has waited at least as long as any eligible group; otherwise no
    eligible group has an earlier finish. Nothing is selected exactly when no group is
    eligible. *)
Theorem select_spec (candidates excluded : list ClientSurfaceId) (activity : Activity)
    (policy : SchedulingPolicy) (now : instant) (s : Scheduler) :
  let s' := (select candidates excluded activity policy now s).1 in
  let snap := snapshot policy activity in
  match (select candidates excluded activity policy now s).2 with
  | None => forall g, eligible snap candidates excluded g = false
  | Some sel =>
      (sel_surface sel ∈ candidates) /\ (sel_surface sel ∉ excluded) /\
      group activity (sel_surface sel) = Some (sel_group sel) /\
      forall g svc, eligible snap candidates excluded g = true -> groups s' !! g = Some svc ->
        exists o, sel_group o.1 = g /\ o.2 = aged_at policy now svc /\
          offer_le (sel, if aged sel then aged_at policy now
            (default (MkService 0 None None) (groups s' !! sel_group sel)) else None) o
  end.
Proof. apply select_best. Qed.

(** C38 (scheduling-starvation). No group starves: once a group has waited past the
    starvation age and stays eligible, it is selected within as many accepted rounds as
    there are groups, whatever the priorities, weights and activity of the others. *)
Theorem starvation_bound (policy : SchedulingPolicy) (rounds : list round) (s : Scheduler)
    (g : Group) (svc : Service) (w : instant) :
  0 < starvation_age policy -> groups s !! g = Some svc -> waiting svc = Some w ->
  Forall (fun r => round_eligible policy g r /\ w + starvation_age policy <= round_now r) rounds ->
  (size (groups s) <= length rounds)%nat ->
  exists sel, Some sel ∈ run_rounds policy rounds s /\ sel_group sel = g.
Proof.
  intros Hage Hg Hw Hall Hlen. apply (rounds_served policy rounds s g w Hage); [by rewrite Hg|done|].
  eapply Nat.lt_le_trans; [|exact Hlen]. rewrite <-!size_dom. apply subset_size. split.
  - apply dom_filter_subseteq.
  - intros Hsub. assert (Hin : g ∈ dom (ahead g w (groups s))) by (apply Hsub, elem_of_dom; eauto).
    by apply elem_of_dom, elem_ahead in Hin as [? _].
Qed.

(** Accepting a selection renormalises virtual time: no
    finish underflows, the least finish becomes zero, and finishes keep their
    differences, so the order of service does not change. *)
Theorem accepted_normalised (sel : Selection) (now : instant) (s : Scheduler) :
  let served := alter (fun svc => MkService (sel_finish sel) (Some now) (service_priority svc))
                  (sel_group sel) (groups s) in
  let s' := accepted sel now s in
  (forall g svc, groups s' !! g = Some svc -> 0 <= finish svc) /\
  (groups s <> ∅ -> exists g svc, groups s' !! g = Some svc /\ finish svc = 0) /\
  (forall g h x y x' y', served !! g = Some x -> served !! h = Some y ->
     groups s' !! g = Some x' -> groups s' !! h = Some y' -> finish x' - finish y' = finish x - finish y).
Proof.
  intros served s'. cbn. fold served. split_and!.
  - intros g svc. rewrite lookup_fmap_Some. intros (x & <- & Hx). cbn.
    destruct (min_finish _ _ _ Hx). lia.
  - intros Hne. apply map_choose in Hne as (g & svc & Hg).
    assert (is_Some (served !! g)) as [x Hx] by (unfold served; by rewrite lookup_alter_is_Some; eauto).
    destruct (min_finish _ _ _ Hx) as [_ (h & y & Hy & Hmin)].
    exists h, (lower (min_or_zero (finishes served)) y). rewrite lookup_fmap, Hy. split; [done|]. cbn. lia.
  - intros g h x y x' y' Hx Hy. rewrite !lookup_fmap, Hx, Hy. cbn. intros [= <-] [= <-]. cbn. lia.
Qed.

(** ** Concrete inputs *)
Definition sample_root : Group := MkGroup sample_session (ClientSurfaceId_for_test 1).
Definition sample_scheduler : Scheduler :=
  (select [ClientSurfaceId_for_test 2] [] sample_activity SchedulingPolicy_default 0 Scheduler_default).1.
Definition sample_round : round :=
  MkRound [ClientSurfaceId_for_test 2] [] sample_activity (from_millis 100).

Lemma starvation_bound_witness :
  exists sel, Some sel ∈ run_rounds SchedulingPolicy_default [sample_round] sample_scheduler /\
    sel_group sel = sample_root.
Proof.
  apply (starvation_bound SchedulingPolicy_default [sample_round] sample_scheduler sample_root
    (MkService 0 (Some 0) (Some Background)) 0).
  - vm_compute. reflexivity.
  - vm_compute. reflexivity.
  - reflexivity.
  - repeat constructor; vm_compute; congruence.
  - vm_compute. constructor.
Defined.
