(* ===== verification/Pacing.v ===== *)
(** * Admission cadence ([weld-hoist-encoded/src/pacing.rs])

    A surface's frames are admitted at most once per interval of its effective rate.
    A deadline carries no credit, so a stall is never followed by a burst. *)

From S2P Require Import Prelude OrdMap Ids.

Record Cadence := MkCadence {
  claim : option ClientPresentationClaim;
  next : option instant;
  last_admission : option instant;
  last_active_rate : option PresentationRate;
}.
Definition Cadence_default : Cadence := MkCadence None None None None.

Record SourcePacing := MkPacing {
  ceiling : option PresentationRate;
  fallback : option PresentationRate;
  cadences : gmap ClientSurfaceId Cadence;
}.

(** [SourcePacing::new] *)
Definition new (ceiling fallback : option PresentationRate) : SourcePacing := MkPacing ceiling fallback ∅.

Definition set_cadences (m : gmap ClientSurfaceId Cadence) (s : SourcePacing) : SourcePacing :=
  MkPacing (ceiling s) (fallback s) m.

(** [self.ceiling.map_or(rate, |limit| limit.min(rate))] *)
Definition clamped (s : SourcePacing) (rate : PresentationRate) : PresentationRate :=
  match ceiling s with Some limit => rate_min limit rate | None => rate end.

(** [SourcePacing::rate_for_claim] *)
Definition rate_for_claim (s : SourcePacing) (c : option ClientPresentationClaim) : option PresentationRate :=
  match c with
  | Some (Active rate) =>
      let requested := match rate with
                       | Some rate => rate
                       | None => default HZ_60 (fallback s)
                       end in
      Some (clamped s requested)
  | _ => clamped s <$> (match fallback s with Some rate => Some rate | None => ceiling s end)
  end.

Definition claim_of (s : SourcePacing) (surface : ClientSurfaceId) : option ClientPresentationClaim :=
  cadences s !! surface ≫= claim.

(** [SourcePacing::paused] *)
Definition paused (s : SourcePacing) (surface : ClientSurfaceId) : bool :=
  match claim_of s surface with Some (Paused | Release) => true | _ => false end.

(** [SourcePacing::rate] *)
Definition rate (s : SourcePacing) (surface : ClientSurfaceId) : option PresentationRate :=
  match (if paused s surface then cadences s !! surface ≫= last_active_rate else None) with
  | Some rate => Some rate
  | None => rate_for_claim s (claim_of s surface)
  end.

(** [SourcePacing::deadline] *)
Definition deadline (s : SourcePacing) (surface : ClientSurfaceId) : option instant :=
  cadences s !! surface ≫= next.

(** [SourcePacing::ready] *)
Definition ready (s : SourcePacing) (surface : ClientSurfaceId) (now : instant) : bool :=
  negb (paused s surface) && is_none_or (deadline s surface) (fun deadline => deadline <=? now).

Definition is_active (c : ClientPresentationClaim) : bool :=
  match c with Active _ => true | _ => false end.

(** The claim [set] accepts. *)
Definition accepted_claim (s : SourcePacing) (c : ClientPresentationClaim) : ClientPresentationClaim :=
  match c with Active (Some rate) => Active (Some (clamped s rate)) | other => other end.

(** [SourcePacing::set] *)
Definition set (surface : ClientSurfaceId) (c : ClientPresentationClaim) (s : SourcePacing) :
    SourcePacing * ClientPresentationClaim :=
  let accepted := accepted_claim s c in
  let effective := rate_for_claim s (Some accepted) in
  let cadence := default Cadence_default (cadences s !! surface) in
  let cadence :=
    if bool_decide (claim cadence <> Some accepted) then
      MkCadence (Some accepted)
        (match last_admission cadence, effective with
         | Some last, Some rate => Some (last + interval rate)
         | _, _ => None
         end)
        (last_admission cadence)
        (if is_active accepted then effective else last_active_rate cadence)
    else cadence in
  (set_cadences (<[surface := cadence]> (cadences s)) s, accepted).

(** [SourcePacing::admitted] *)
Definition admitted (surface : ClientSurfaceId) (now : instant) (s : SourcePacing) : SourcePacing :=
  match rate s surface with
  | None => s
  | Some rate =>
      let cadence := default Cadence_default (cadences s !! surface) in
      let next' := match next cadence with
                   | Some previous =>
                       if now <? previous + interval rate then previous + interval rate
                       else now + interval rate
                   | None => now + interval rate
                   end in
      set_cadences (<[surface := MkCadence (claim cadence) (Some next') (Some now) (last_active_rate cadence)]>
                      (cadences s)) s
  end.

(** [SourcePacing::reset] *)
Definition reset (surface : ClientSurfaceId) (s : SourcePacing) : SourcePacing :=
  set_cadences (alter (fun c => MkCadence (claim c) None None (last_active_rate c)) surface (cadences s)) s.

(** [SourcePacing::forget] *)
Definition forget (surface : ClientSurfaceId) (s : SourcePacing) : SourcePacing :=
  set_cadences (delete surface (cadences s)) s.

(** ** Rates *)

(** A rate the configuration allows: valid, and not above the ceiling. *)
Definition allowed (s : SourcePacing) (r : PresentationRate) : Prop :=
  rate_valid r /\ forall limit, ceiling s = Some limit -> millihertz r <= millihertz limit.

Definition config_ok (s : SourcePacing) : Prop :=
  (forall r, ceiling s = Some r -> rate_valid r) /\ (forall r, fallback s = Some r -> rate_valid r).

Definition claim_valid (c : ClientPresentationClaim) : Prop :=
  match c with Active (Some r) => rate_valid r | _ => True end.

Definition cadence_ok (s : SourcePacing) (c : Cadence) : Prop :=
  (forall r, last_active_rate c = Some r -> allowed s r) /\
  (forall c', claim c = Some c' -> claim_valid c').

Lemma HZ_60_valid : rate_valid HZ_60.
Proof. unfold rate_valid, HZ_60. cbn. lia. Qed.

Lemma clamped_allowed s r : config_ok s -> rate_valid r -> allowed s (clamped s r).
Proof.
  intros [Hc _] Hr. unfold allowed, clamped. destruct (ceiling s) as [limit|]; [|by split].
  split; [apply rate_min_valid; auto|]. intros l [= <-]. apply rate_min_le_l.
Qed.

Lemma rate_for_claim_allowed s c r :
  config_ok s -> (forall c', c = Some c' -> claim_valid c') -> rate_for_claim s c = Some r -> allowed s r.
Proof.
  intros Hs Hc. pose proof Hs as [Hceil Hfall]. unfold rate_for_claim.
  assert (Hdef : (clamped s <$> match fallback s with Some rate => Some rate | None => ceiling s end) = Some r ->
    allowed s r).
  { destruct (fallback s) as [f|].
    - intros [= <-]. apply clamped_allowed; auto.
    - destruct (ceiling s) as [l|] eqn:Hl; [|done]. intros [= <-]. apply clamped_allowed; auto. }
  destruct c as [[|[r0|]|]|]; try exact Hdef.
  - intros [= <-]. apply clamped_allowed; [done|]. by apply (Hc _ eq_refl).
  - intros [= <-]. apply clamped_allowed; [done|].
    destruct (fallback s) as [f|]; [by apply Hfall|apply HZ_60_valid].
Qed.

Definition Pacing_ok (s : SourcePacing) : Prop :=
  config_ok s /\ map_Forall (fun _ c => cadence_ok s c) (cadences s).

Lemma cadence_default_ok s (m : gmap ClientSurfaceId Cadence) surface :
  map_Forall (fun _ c => cadence_ok s c) m -> cadence_ok s (default Cadence_default (m !! surface)).
Proof. intros Hm. destruct (m !! surface) eqn:Hc; cbn; [by apply (Hm surface)|]. by split. Qed.

Lemma accepted_claim_valid s c : config_ok s -> claim_valid c -> claim_valid (accepted_claim s c).
Proof. intros Hs Hc. destruct c as [|[r|]|]; try done. by apply clamped_allowed. Qed.

Lemma set_ok surface c s : Pacing_ok s -> claim_valid c -> Pacing_ok (set surface c s).1.
Proof.
  intros [Hs Hm] Hc. split; [done|]. cbn. apply map_Forall_insert_2; [|done].
  pose proof (cadence_default_ok s (cadences s) surface Hm) as [Hl Hcl]. case_bool_decide; [|by split].
  split; cbn; [|intros c' [= <-]; by apply accepted_claim_valid].
  intros r Hr. destruct (is_active (accepted_claim s c)) eqn:Ha; [|by apply Hl].
  apply (rate_for_claim_allowed s (Some (accepted_claim s c))); [done| |exact Hr]. intros c' [= <-]. by apply accepted_claim_valid.
Qed.

Lemma rate_allowed s surface r : Pacing_ok s -> rate s surface = Some r -> allowed s r.
Proof.
  intros [Hs Hm]. unfold rate, claim_of.
  assert (Hc : forall c', cadences s !! surface ≫= claim = Some c' -> claim_valid c').
  { destruct (cadences s !! surface) as [c|] eqn:Hc; [|done]. cbn. apply (Hm _ _ Hc). }
  pose proof (rate_for_claim_allowed s _ r Hs Hc) as Hf.
  destruct (if paused s surface then _ else None) as [r'|] eqn:Hp; [|exact Hf].
  intros [= <-]. destruct (paused s surface); [|done].
  destruct (cadences s !! surface) as [c|] eqn:Hcad; [|done]. by apply (Hm _ _ Hcad).
Qed.

Lemma admitted_ok surface now s : Pacing_ok s -> Pacing_ok (admitted surface now s).
Proof.
  intros [Hs Hm]. unfold admitted. destruct (rate s surface) as [r|]; [|done]. split; [done|]. cbn.
  apply map_Forall_insert_2; [|done]. by apply (cadence_default_ok s (cadences s) surface).
Qed.

Lemma reset_ok surface s : Pacing_ok s -> Pacing_ok (reset surface s).
Proof.
  intros [Hs Hm]. split; [done|]. cbn. intros y c Hc. apply lookup_alter_Some in Hc as [(<- & c0 & Hc & ->)|[_ Hc]].
  - apply (Hm _ _ Hc).
  - apply (Hm _ _ Hc).
Qed.

Lemma forget_ok surface s : Pacing_ok s -> Pacing_ok (forget surface s).
Proof. intros [Hs Hm]. split; [done|]. by apply map_Forall_delete. Qed.

(** ** Admissions of one surface *)
Record pace_run := MkPaceRun { pr_state : SourcePacing; pr_now : instant; pr_log : list instant }.

(** Time passes; claims change; the surface is admitted when it is ready; other surfaces
    do whatever they like. The log has the newest admission first. *)
Inductive pace_step (x : ClientSurfaceId) : pace_run -> pace_run -> Prop :=
  | pace_tick s now now' log :
      now <= now' -> pace_step x (MkPaceRun s now log) (MkPaceRun s now' log)
  | pace_set s now log y c :
      claim_valid c -> pace_step x (MkPaceRun s now log) (MkPaceRun (set y c s).1 now log)
  | pace_admit s now log :
      ready s x now = true ->
      pace_step x (MkPaceRun s now log) (MkPaceRun (admitted x now s) now (now :: log))
  | pace_other s s' now log y :
      y <> x -> s' = admitted y now s \/ s' = reset y s \/ s' = forget y s ->
      pace_step x (MkPaceRun s now log) (MkPaceRun s' now log).

(** Admissions [i] and [j] places apart are more than [j - i - 1] intervals apart. *)
Definition spaced (step : duration) (log : list instant) : Prop :=
  forall i j u v, (i < j)%nat -> log !! i = Some u -> log !! j = Some v ->
    v + (Z.of_nat j - Z.of_nat i - 1) * step < u.

Definition pace_ok (x : ClientSurfaceId) (limit : PresentationRate) (c : pace_run) : Prop :=
  Pacing_ok (pr_state c) /\ ceiling (pr_state c) = Some limit /\
  spaced (interval limit) (pr_log c) /\
  forall t log, pr_log c = t :: log ->
    exists cad n, cadences (pr_state c) !! x = Some cad /\ last_admission cad = Some t /\ next cad = Some n /\
      forall j v, pr_log c !! j = Some v -> v + Z.of_nat j * interval limit < n.

Lemma interval_mono a b : rate_valid a -> millihertz a <= millihertz b -> interval b <= interval a.
Proof.
  unfold rate_valid, interval, from_nanos, div_ceil. intros Ha Hab.
  apply Z.div_le_lower_bound; [lia|].
  pose proof (Z.mul_div_le (1000000000000 + millihertz b - 1) (millihertz b) ltac:(lia)) as Hq.
  set (q := (1000000000000 + millihertz b - 1) / millihertz b) in *.
  assert (0 < q) by (apply Z.div_str_pos; lia). nia.
Qed.

Lemma allowed_interval s r limit : allowed s r -> ceiling s = Some limit -> interval limit <= interval r.
Proof. intros [Hv Hle] Hc. by apply interval_mono, Hle. Qed.

Lemma rate_Some s surface limit : ceiling s = Some limit -> is_Some (rate s surface).
Proof.
  intros Hc. unfold rate, rate_for_claim. rewrite Hc.
  destruct (if paused s surface then _ else _); [eauto|].
  destruct (claim_of s surface) as [[|[|]|]|], (fallback s); cbn; eauto.
Qed.

Lemma rate_for_claim_Some s c limit : ceiling s = Some limit -> is_Some (rate_for_claim s (Some c)).
Proof. intros Hc. unfold rate_for_claim. rewrite Hc. destruct c as [|[|]|], (fallback s); cbn; eauto. Qed.

Lemma pace_ok_head x limit c t log :
  pace_ok x limit c -> pr_log c = t :: log ->
  exists cad n, cadences (pr_state c) !! x = Some cad /\ last_admission cad = Some t /\ next cad = Some n /\ t < n.
Proof.
  intros (_ & _ & _ & H) Hl. destruct (H t log Hl) as (cad & n & Hc & Ht & Hn & Hb).
  exists cad, n. split_and!; try done. specialize (Hb 0%nat t). rewrite Hl in Hb. specialize (Hb eq_refl). lia.
Qed.

(** Changing the claim keeps the distance to earlier admissions. *)
Lemma pace_set_ok x limit s now log y c :
  rate_valid limit -> claim_valid c -> pace_ok x limit (MkPaceRun s now log) ->
  pace_ok x limit (MkPaceRun (set y c s).1 now log).
Proof.
  intros Hlv Hcv (Hok & Hceil & Hsp & Hhead). pose proof (set_ok y c s Hok Hcv) as Hok'.
  split_and!; try done. cbn [pr_state pr_log] in *. intros t log' Hlog. subst log.
  destruct (Hhead t log' eq_refl) as (cad & n & Hcad & Hlast & Hnext & Hb). cbn [fst set cadences set_cadences].
  destruct (decide (y = x)) as [->|Hne].
  2:{ exists cad, n. rewrite lookup_insert_ne by done. by split_and!. }
  rewrite lookup_insert_eq, Hcad. change (default Cadence_default (Some cad)) with cad.
  case_bool_decide; [|exists cad, n; by split_and!].
  destruct (rate_for_claim_Some s (accepted_claim s c) limit Hceil) as [r Hr]. rewrite Hr, Hlast.
  eexists _, (t + interval r). split; [done|]. split_and!; [done|done|].
  assert (Hi : interval limit <= interval r).
  { apply (allowed_interval s); [|done]. destruct Hok as [Hs _].
    eapply rate_for_claim_allowed; [done| |exact Hr]. intros c' [= <-]. by apply accepted_claim_valid. }
  pose proof (interval_pos limit Hlv) as Hpos.
  intros j v Hj. destruct j as [|j]; cbn [lookup] in Hj.
  - cbn in Hj. injection Hj as <-. lia.
  - specialize (Hsp 0%nat (S j) t v ltac:(lia) eq_refl Hj). lia.
Qed.

Lemma pace_admit_ok x limit s now log :
  rate_valid limit -> ready s x now = true -> pace_ok x limit (MkPaceRun s now log) ->
  pace_ok x limit (MkPaceRun (admitted x now s) now (now :: log)).
Proof.
  intros Hlv Hready Hp. pose proof Hp as (Hok & Hceil & Hsp & Hhead). cbn [pr_state pr_log] in *.
  pose proof (admitted_ok x now s Hok) as Hok'. pose proof (interval_pos limit Hlv) as Hpos.
  destruct (rate_Some s x limit Hceil) as [r Hr].
  pose proof (allowed_interval s r limit (rate_allowed s x r Hok Hr) Hceil) as Hi.
  unfold admitted in *. rewrite Hr in *. set (cad := default Cadence_default (cadences s !! x)).
  set (n' := match next cad with Some _ => _ | None => _ end).
  assert (Hn' : now < n' /\ forall n, next cad = Some n -> n <= now /\ n + interval limit <= n').
  { assert (Hdl : forall n, next cad = Some n -> n <= now).
    { intros n Hn. unfold ready, deadline in Hready. apply andb_true_iff in Hready as [_ Hd].
      unfold cad in Hn. destruct (cadences s !! x) as [c0|]; [|done]. cbn in Hn, Hd. rewrite Hn in Hd. cbn in Hd. lia. }
    unfold n'. destruct (next cad) as [p|]; [|split; [lia|done]].
    specialize (Hdl p eq_refl). destruct (Z.ltb_spec now (p + interval r)); (split; [lia|intros n [= <-]; lia]). }
  destruct Hn' as [Hnow Hstep].
  assert (Hlate : forall j v, log !! j = Some v ->
    v + Z.of_nat j * interval limit < now /\ v + (Z.of_nat j + 1) * interval limit < n').
  { intros j v Hj. destruct log as [|t log']; [done|].
    destruct (Hhead t log' eq_refl) as (c0 & n & Hc0 & _ & Hn & Hb). specialize (Hb j v Hj).
    destruct (Hstep n) as [? ?]; [unfold cad; by rewrite Hc0|]. lia. }
  split_and!; [done|done| |].
  - intros i j u v Hij Hu Hv. cbn [pr_log] in *. destruct j as [|j]; [lia|]. cbn in Hv.
    destruct i as [|i]; cbn in Hu.
    + injection Hu as <-. destruct (Hlate j v Hv). lia.
    + specialize (Hsp i j u v ltac:(lia) Hu Hv). lia.
  - intros t log' [= <- <-]. cbn [pr_state cadences set_cadences]. rewrite lookup_insert_eq.
    eexists _, n'. split; [done|]. split_and!; [done|done|]. cbn [pr_log]. intros [|j] v Hj; cbn in Hj.
    + injection Hj as <-. lia.
    + destruct (Hlate j v Hj). lia.
Qed.

Lemma pace_frame x limit s s' now log :
  Pacing_ok s' -> ceiling s' = ceiling s -> cadences s' !! x = cadences s !! x ->
  pace_ok x limit (MkPaceRun s now log) -> pace_ok x limit (MkPaceRun s' now log).
Proof.
  intros Hok Hc Hx (_ & Hceil & Hsp & Hhead). unfold pace_ok. cbn in *. rewrite Hc, Hx. by split_and!.
Qed.

Lemma pace_step_ok x limit c c' :
  rate_valid limit -> pace_step x c c' -> pace_ok x limit c -> pace_ok x limit c'.
Proof.
  intros Hlv Hstep H. destruct Hstep as [s now now' log ?|s now log y c Hc|s now log Hr|s s' now log y Hy Hs'].
  - done.
  - by apply pace_set_ok.
  - by apply pace_admit_ok.
  - pose proof (proj1 H) as Hok. cbn in Hok. destruct Hs' as [->|[->| ->]].
    + apply (pace_frame x limit s); [by apply admitted_ok| | |exact H].
      * unfold admitted. by destruct (rate s y).
      * unfold admitted. destruct (rate s y); [|done]. cbn. by rewrite lookup_insert_ne.
    + apply (pace_frame x limit s); [by apply reset_ok|done| |exact H]. cbn. by rewrite lookup_alter_ne.
    + apply (pace_frame x limit s); [by apply forget_ok|done| |exact H]. cbn. by rewrite lookup_delete_ne.
Qed.

Lemma new_ok c f :
  (forall r, c = Some r -> rate_valid r) -> (forall r, f = Some r -> rate_valid r) -> Pacing_ok (new c f).
Proof. intros Hc Hf. split; [by split|apply map_Forall_empty]. Qed.

(** ** Properties *)

(** However claims change and other surfaces behave, a surface with
    a configured ceiling that is admitted only when ready never gets a burst: admissions
    [k] apart in the log are more than [k - 1] ceiling intervals apart. *)
Theorem admissions_spaced (x : ClientSurfaceId) (limit : PresentationRate) (f : option PresentationRate)
    (start : instant) (c : pace_run) (i j : nat) (u v : instant) :
  rate_valid limit -> (forall r, f = Some r -> rate_valid r) ->
  rtc (pace_step x) (MkPaceRun (new (Some limit) f) start []) c ->
  (i < j)%nat -> pr_log c !! i = Some u -> pr_log c !! j = Some v ->
  v + (Z.of_nat j - Z.of_nat i - 1) * interval limit < u.
Proof.
  intros Hlv Hf Hr. apply (fun H : pace_ok x limit c => proj1 (proj2 (proj2 H))).
  assert (H0 : pace_ok x limit (MkPaceRun (new (Some limit) f) start [])).
  { split_and!; [apply new_ok; [by intros r [= <-]|done]|done|by intros ? ? ? ? _ ?|done]. }
  revert H0. induction Hr; eauto using pace_step_ok.
Qed.

(** Every rate the pacing hands out is valid and within the
    ceiling, and so is the rate of every accepted claim, in every reachable state. *)
Theorem rates_allowed (x : ClientSurfaceId) (limit f : option PresentationRate) (start : instant)
    (c : pace_run) (y : ClientSurfaceId) (r : PresentationRate) (cl : ClientPresentationClaim) :
  (forall r, limit = Some r -> rate_valid r) -> (forall r, f = Some r -> rate_valid r) -> claim_valid cl ->
  rtc (pace_step x) (MkPaceRun (new limit f) start []) c ->
  (rate (pr_state c) y = Some r -> allowed (pr_state c) r) /\
  ((set y cl (pr_state c)).2 = Active (Some r) -> allowed (pr_state c) r).
Proof.
  intros Hl Hf Hcl Hr. assert (Hok : Pacing_ok (pr_state c)).
  { assert (H0 : Pacing_ok (pr_state (MkPaceRun (new limit f) start []))) by (by apply new_ok).
    revert H0. induction Hr as [|c1 c2 c3 Hs _ IH]; [done|]. intros H1. apply IH.
    destruct Hs as [| | |s s' now log z Hz [->|[->| ->]]]; cbn [pr_state] in *;
      auto using set_ok, admitted_ok, reset_ok, forget_ok. }
  split; [by apply rate_allowed|]. cbn. destruct cl as [|[r0|]|]; try done. intros [= <-].
  apply clamped_allowed; [apply Hok|done].
Qed.

(** ** Concrete inputs *)
Definition sample_run : pace_run :=
  MkPaceRun (admitted (ClientSurfaceId_for_test 1) 30000000
    (admitted (ClientSurfaceId_for_test 1) 0 (new (Some HZ_60) None))) 30000000 [30000000; 0].

Lemma sample_run_reachable :
  rtc (pace_step (ClientSurfaceId_for_test 1)) (MkPaceRun (new (Some HZ_60) None) 0 []) sample_run.
Proof.
  eapply rtc_l; [apply pace_admit; reflexivity|].
  eapply rtc_l; [apply (pace_tick _ _ 0 30000000); lia|].
  apply rtc_once. apply (pace_admit _ _ 30000000). reflexivity.
Qed.

Lemma admissions_spaced_witness : 0 < 30000000.
Proof.
  refine (admissions_spaced (ClientSurfaceId_for_test 1) HZ_60 None 0 sample_run 0 1 30000000 0 _ _ _ _ _ _).
  - apply HZ_60_valid.
  - discriminate.
  - apply sample_run_reachable.
  - lia.
  - reflexivity.
  - reflexivity.
Defined.

Lemma rates_allowed_witness : allowed (pr_state sample_run) HZ_60.
Proof.
  refine (proj1 (rates_allowed (ClientSurfaceId_for_test 1) (Some HZ_60) None 0 sample_run
    (ClientSurfaceId_for_test 1) HZ_60 Paused _ _ _ _) _).
  - intros r [= <-]. apply HZ_60_valid.
  - discriminate.
  - exact I.
  - apply sample_run_reachable.
  - reflexivity.
Defined.
