(* ===== verification/Observations.v ===== *)
(** * Interval observations ([weld-hoist-encoded/src/observations.rs] and
      [destination_observations.rs])

    The two diagnostic accumulators share their structure: saturating counters that a
    due report takes and starts over. The class [Meter] states what the accumulator
    relies on; the source's and the destination's counters are its instances. *)

From S2P Require Import Prelude OrdMap.

Definition REPORT_INTERVAL : duration := from_secs 1.

(** ** Timing summaries *)
Record TimingSummary := MkTiming { samples : Z; total : duration; maximum : duration }.
#[export] Instance TimingSummary_eq_dec : EqDecision TimingSummary.
Proof. solve_decision. Defined.
Definition TimingSummary_default : TimingSummary := MkTiming 0 0 0.
(** [TimingSummary::record] *)
Definition record_timing (d : duration) (t : TimingSummary) : TimingSummary :=
  MkTiming (sat_add (samples t) 1) (duration_sat_add (total t) d) (Z.max (maximum t) d).

(** ** Counters that observations add to *)

(** [x.saturating_add(y)] below a cap. *)
Definition sat_at (cap x y : Z) : Z := Z.min cap (x + y).

Class Meter (O C G : Type) := {
  zero : C;
  count : O -> C -> C;
  has_work : G -> bool;
  (** the counters in a fixed order, what an observation adds to each, their caps *)
  values : C -> list Z;
  tally : O -> list Z;
  caps : list Z;
  meter_eq : EqDecision C;
  values_zero : values zero = replicate (length caps) 0;
  length_tally : forall o, length (tally o) = length caps;
  length_values : forall c, length (values c) = length caps;
  values_count : forall o c i cap x t,
    caps !! i = Some cap -> values c !! i = Some x -> tally o !! i = Some t -> x <= cap ->
    values (count o c) !! i = Some (sat_at cap x t);
}.
#[export] Existing Instance meter_eq.

Section Accumulator.
Context {O C G : Type} `{Meter O C G}.

Record Accumulator := MkAccumulator { last_report : instant; counters : C }.
Record Report := MkReport {
  elapsed : duration;
  report_counters : C;
  report_gauges : G;
  report_final : bool;
}.

Definition accumulator_new (now : instant) : Accumulator := MkAccumulator now zero.
Definition record (o : O) (a : Accumulator) : Accumulator :=
  MkAccumulator (last_report a) (count o (counters a)).
Definition report_due (now : instant) (final : bool) (a : Accumulator) : bool :=
  final || (REPORT_INTERVAL <=? since now (last_report a)).
Definition take_report (now : instant) (gauges : G) (final : bool) (a : Accumulator) :
    Accumulator * option Report :=
  if negb (report_due now final a) then (a, None)
  else
    let taken := counters a in
    let fresh := MkAccumulator now zero in
    if bool_decide (taken = zero) && negb (has_work gauges) then (fresh, None)
    else (fresh, Some (MkReport (since now (last_report a)) taken gauges final)).

(** A run of observations and polls for a report. *)
Inductive meter_op :=
  | Observe (o : O)
  | Poll (now : instant) (gauges : G) (final : bool).

Fixpoint meter_run (ops : list meter_op) (a : Accumulator) : list Report * Accumulator :=
  match ops with
  | [] => ([], a)
  | Observe o :: ops => meter_run ops (record o a)
  | Poll now gauges final :: ops =>
      let polled := take_report now gauges final a in
      let rest := meter_run ops polled.1 in
      (match polled.2 with Some r => r :: rest.1 | None => rest.1 end, rest.2)
  end.

(** What the run's observations add to counter [i], and what the reports of the run
    carry of it. *)
Definition observed (i : nat) (ops : list meter_op) : Z :=
  sum_list (omap (fun op => match op with Observe o => tally o !! i | Poll _ _ _ => None end) ops).
Definition value (i : nat) (c : C) : Z := default 0 (values c !! i).
Definition reported (i : nat) (rs : list Report) : Z := sum_list ((fun r => value i (report_counters r)) <$> rs).

Lemma value_zero i : value i zero = 0.
Proof.
  unfold value. rewrite values_zero. destruct (replicate _ _ !! i) as [x|] eqn:Hx; [|done].
  by apply lookup_replicate in Hx as [-> _].
Qed.

(** Observations add nonnegative amounts. *)
Definition op_ok (op : meter_op) : Prop :=
  match op with Observe o => Forall (Z.le 0) (tally o) | Poll _ _ _ => True end.

Lemma meter_run_conserves i cap ops (a : Accumulator) :
  caps !! i = Some cap -> Forall op_ok ops -> 0 <= value i (counters a) ->
  value i (counters a) + observed i ops <= cap ->
  let run := meter_run ops a in
  reported i run.1 + value i (counters run.2) = value i (counters a) + observed i ops.
Proof.
  intros Hcap Hops. revert a. induction Hops as [|op ops Hop Hops IH]; intros a Hpos Hle; cbn [meter_run].
  { unfold reported, observed. cbn. rewrite !sum_list_nil. lia. }
  assert (Hrest : 0 <= observed i ops).
  { apply sum_list_nonneg, list.Forall_forall. intros x ([o|] & Hin & Hx)%list_elem_of_omap; [|done].
    rewrite list.Forall_forall in Hops. specialize (Hops _ Hin). by eapply Forall_lookup_1 in Hops. }
  destruct op as [o|now g final].
  - assert (Ht : exists t, tally o !! i = Some t /\ 0 <= t).
    { destruct (lookup_lt_is_Some_2 (tally o) i) as [t Ht].
      - rewrite length_tally. by eapply lookup_lt_Some.
      - exists t. split; [done|]. by eapply Forall_lookup_1 in Hop. }
    destruct Ht as (t & Ht & Htpos).
    assert (Hobs : observed i (Observe o :: ops) = t + observed i ops).
    { unfold observed. cbn. rewrite Ht. by rewrite sum_list_cons. }
    assert (Hv : value i (count o (counters a)) = value i (counters a) + t).
    { destruct (lookup_lt_is_Some_2 (values (counters a)) i) as [x Hx].
      - rewrite length_values. by eapply lookup_lt_Some.
      - assert (value i (counters a) = x) as Hax by (unfold value; by rewrite Hx).
        unfold value at 1. rewrite (values_count o _ i cap x t Hcap Hx Ht) by lia. unfold sat_at. cbn. lia. }
    rewrite Hobs in Hle. rewrite Hobs. cbn zeta. rewrite (IH (record o a)); cbn [record counters]; lia.
  - assert (Hobs : observed i (Poll now g final :: ops) = observed i ops) by done. rewrite Hobs in *.
    assert (Hcap0 : 0 <= cap) by lia.
    unfold take_report. destruct (report_due now final a); cbn [negb]; [|by apply IH].
    assert (Hfresh : let run := meter_run ops (MkAccumulator now zero) in
      reported i run.1 + value i (counters run.2) = observed i ops).
    { cbn zeta. rewrite IH; cbn [counters]; rewrite ?value_zero; lia. }
    cbn zeta in Hfresh |- *. case_bool_decide as Hz; cbn [andb]; [destruct (has_work g); cbn [negb]|]; cbn [fst snd].
    + unfold reported in *. rewrite fmap_cons, sum_list_cons. cbn [report_counters]. lia.
    + rewrite Hz, value_zero. lia.
    + unfold reported in *. rewrite fmap_cons, sum_list_cons. cbn [report_counters]. lia.
Qed.
End Accumulator.
Arguments Accumulator C : clear implicits.
Arguments Report C G : clear implicits.
Arguments meter_op O G : clear implicits.

(** ** Source observations *)
Inductive SourceObservation :=
  | CommitReceived
  | CommitCoalesced
  | BatchCompleted (layer_frames payload_bytes : Z) (wall_time : duration)
  | BatchCancelled
  | CodecFailed
  | SurfaceCancelled.

Record SourceCounters := MkSourceCounters {
  commits_received : Z;
  commits_coalesced : Z;
  batches_completed : Z;
  layer_frames_completed : Z;
  encoded_payload_bytes : Z;
  batches_cancelled : Z;
  codec_failures : Z;
  surfaces_cancelled : Z;
  batch_wall : TimingSummary;
}.
#[export] Instance SourceCounters_eq_dec : EqDecision SourceCounters.
Proof. solve_decision. Defined.
Definition SourceCounters_default : SourceCounters := MkSourceCounters 0 0 0 0 0 0 0 0 TimingSummary_default.

Record SourceGauges := MkSourceGauges {
  pending_events : Z;
  retained_output_records : Z;
  transport_blocked : bool;
  active_streams : Z;
  encode_in_flight : bool;
  active_batch_age : duration;
}.
(** [SourceGauges::has_work] *)
Definition source_has_work (g : SourceGauges) : bool :=
  negb (pending_events g =? 0) || negb (retained_output_records g =? 0) || transport_blocked g
  || encode_in_flight g.

(** [SourceObservations::record] on the counters. *)
Definition record_source (o : SourceObservation) (c : SourceCounters) : SourceCounters :=
  let '(MkSourceCounters received coalesced completed layers bytes cancelled failures surfaces wall) := c in
  match o with
  | CommitReceived =>
      MkSourceCounters (sat_add received 1) coalesced completed layers bytes cancelled failures surfaces wall
  | CommitCoalesced =>
      MkSourceCounters received (sat_add coalesced 1) completed layers bytes cancelled failures surfaces wall
  | BatchCompleted layer_frames payload_bytes wall_time =>
      MkSourceCounters received coalesced (sat_add completed 1)
        (sat_add layers (Z.min u64_max layer_frames)) (sat_add bytes payload_bytes)
        cancelled failures surfaces (record_timing wall_time wall)
  | BatchCancelled =>
      MkSourceCounters received coalesced completed layers bytes (sat_add cancelled 1) failures surfaces wall
  | CodecFailed =>
      MkSourceCounters received coalesced completed layers bytes cancelled (sat_add failures 1) surfaces wall
  | SurfaceCancelled =>
      MkSourceCounters received coalesced completed layers bytes cancelled failures (sat_add surfaces 1) wall
  end.

Definition timing_values (t : TimingSummary) : list Z := [samples t; total t].
Definition timing_tally (d : option duration) : list Z := match d with Some d => [1; d] | None => [0; 0] end.
Definition timing_caps : list Z := [u64_max; duration_max].

Definition source_values (c : SourceCounters) : list Z :=
  [commits_received c; commits_coalesced c; batches_completed c; layer_frames_completed c;
   encoded_payload_bytes c; batches_cancelled c; codec_failures c; surfaces_cancelled c]
  ++ timing_values (batch_wall c).
Definition source_tally (o : SourceObservation) : list Z :=
  match o with
  | CommitReceived => [1; 0; 0; 0; 0; 0; 0; 0; 0; 0]
  | CommitCoalesced => [0; 1; 0; 0; 0; 0; 0; 0; 0; 0]
  | BatchCompleted layers bytes wall => [0; 0; 1; Z.min u64_max layers; bytes; 0; 0; 0; 1; wall]
  | BatchCancelled => [0; 0; 0; 0; 0; 1; 0; 0; 0; 0]
  | CodecFailed => [0; 0; 0; 0; 0; 0; 1; 0; 0; 0]
  | SurfaceCancelled => [0; 0; 0; 0; 0; 0; 0; 1; 0; 0]
  end.
Definition source_caps : list Z := replicate 8 u64_max ++ timing_caps.

(** What an observation's payload must be: the types' ranges. *)
Definition source_ok (o : SourceObservation) : Prop :=
  match o with BatchCompleted layers bytes wall => 0 <= layers /\ 0 <= bytes /\ 0 <= wall | _ => True end.

(** ** Destination observations *)
Inductive DestinationObservation :=
  | DestCommitReceived
  | MediaReceived (payload_bytes : Z)
  | DecodeSubmitted (media_wait : duration)
  | DecodeCompleted (wall_time : duration)
  | WorkerTiming (queue_wait residence handoff : duration)
  | PipelineTiming (submission pending finish : duration) (overlapped : bool)
  | DecodeCancelled
  | DestCodecFailed
  | CommitApplied (wall_time : duration)
  | CommitCancelled
  | LateCancelledMedia.

Record DestinationCounters := MkDestinationCounters {
  dest_commits_received : Z;
  media_received : Z;
  payload_bytes_received : Z;
  decodes_cancelled : Z;
  dest_codec_failures : Z;
  commits_cancelled : Z;
  late_cancelled_media : Z;
  media_wait : TimingSummary;
  decode_wall : TimingSummary;
  worker_queue : TimingSummary;
  worker_residence : TimingSummary;
  worker_submission : TimingSummary;
  worker_pending : TimingSummary;
  worker_finish : TimingSummary;
  overlapped_submissions : Z;
  completion_handoff : TimingSummary;
  commit_wall : TimingSummary;
}.
#[export] Instance DestinationCounters_eq_dec : EqDecision DestinationCounters.
Proof. solve_decision. Defined.
Definition DestinationCounters_default : DestinationCounters :=
  let t := TimingSummary_default in MkDestinationCounters 0 0 0 0 0 0 0 t t t t t t t 0 t t.

Record DestinationGauges := MkDestinationGauges {
  dest_pending_events : Z;
  pending_media_frames : Z;
  pending_media_bytes : Z;
  decoded_frames : Z;
  dest_active_streams : Z;
  decode_in_flight : bool;
  decode_jobs_in_flight : Z;
  oldest_control_age : duration;
  oldest_media_age : duration;
  active_decode_age : duration;
}.
(** [DestinationGauges::has_work] *)
Definition destination_has_work (g : DestinationGauges) : bool :=
  negb (dest_pending_events g =? 0) || negb (pending_media_frames g =? 0) || negb (decoded_frames g =? 0)
  || decode_in_flight g.

(** [DestinationObservations::record] on the counters. *)
Definition record_destination (o : DestinationObservation) (c : DestinationCounters) : DestinationCounters :=
  let '(MkDestinationCounters received media bytes cancelled failures commits late wait wall queue residence
          submission pending fin overlapped handoff commit) := c in
  match o with
  | DestCommitReceived =>
      MkDestinationCounters (sat_add received 1) media bytes cancelled failures commits late wait wall queue
        residence submission pending fin overlapped handoff commit
  | MediaReceived payload_bytes =>
      MkDestinationCounters received (sat_add media 1) (sat_add bytes payload_bytes) cancelled failures commits
        late wait wall queue residence submission pending fin overlapped handoff commit
  | DecodeSubmitted d =>
      MkDestinationCounters received media bytes cancelled failures commits late (record_timing d wait) wall
        queue residence submission pending fin overlapped handoff commit
  | DecodeCompleted d =>
      MkDestinationCounters received media bytes cancelled failures commits late wait (record_timing d wall)
        queue residence submission pending fin overlapped handoff commit
  | WorkerTiming q r h =>
      MkDestinationCounters received media bytes cancelled failures commits late wait wall
        (record_timing q queue) (record_timing r residence) submission pending fin overlapped
        (record_timing h handoff) commit
  | PipelineTiming s p f flag =>
      MkDestinationCounters received media bytes cancelled failures commits late wait wall queue residence
        (record_timing s submission) (record_timing p pending) (record_timing f fin)
        (sat_add overlapped (if flag then 1 else 0)) handoff commit
  | DecodeCancelled =>
      MkDestinationCounters received media bytes (sat_add cancelled 1) failures commits late wait wall queue
        residence submission pending fin overlapped handoff commit
  | DestCodecFailed =>
      MkDestinationCounters received media bytes cancelled (sat_add failures 1) commits late wait wall queue
        residence submission pending fin overlapped handoff commit
  | CommitApplied d =>
      MkDestinationCounters received media bytes cancelled failures commits late wait wall queue
        residence submission pending fin overlapped handoff (record_timing d commit)
  | CommitCancelled =>
      MkDestinationCounters received media bytes cancelled failures (sat_add commits 1) late wait wall queue
        residence submission pending fin overlapped handoff commit
  | LateCancelledMedia =>
      MkDestinationCounters received media bytes cancelled failures commits (sat_add late 1) wait wall queue
        residence submission pending fin overlapped handoff commit
  end.

Definition destination_values (c : DestinationCounters) : list Z :=
  [dest_commits_received c; media_received c; payload_bytes_received c; decodes_cancelled c;
   dest_codec_failures c; commits_cancelled c; late_cancelled_media c; overlapped_submissions c]
  ++ concat (timing_values <$>
       [media_wait c; decode_wall c; worker_queue c; worker_residence c; worker_submission c;
        worker_pending c; worker_finish c; completion_handoff c; commit_wall c]).
(** the nine timings an observation records, in the order of [destination_values] *)
Definition destination_timings (o : DestinationObservation) : list (option duration) :=
  match o with
  | DecodeSubmitted d => [Some d; None; None; None; None; None; None; None; None]
  | DecodeCompleted d => [None; Some d; None; None; None; None; None; None; None]
  | WorkerTiming q r h => [None; None; Some q; Some r; None; None; None; Some h; None]
  | PipelineTiming s p f _ => [None; None; None; None; Some s; Some p; Some f; None; None]
  | CommitApplied d => [None; None; None; None; None; None; None; None; Some d]
  | _ => replicate 9 None
  end.
Definition destination_tally (o : DestinationObservation) : list Z :=
  match o with
  | DestCommitReceived => [1; 0; 0; 0; 0; 0; 0; 0]
  | MediaReceived bytes => [0; 1; bytes; 0; 0; 0; 0; 0]
  | DecodeCancelled => [0; 0; 0; 1; 0; 0; 0; 0]
  | DestCodecFailed => [0; 0; 0; 0; 1; 0; 0; 0]
  | CommitCancelled => [0; 0; 0; 0; 0; 1; 0; 0]
  | LateCancelledMedia => [0; 0; 0; 0; 0; 0; 1; 0]
  | PipelineTiming _ _ _ flag => [0; 0; 0; 0; 0; 0; 0; if flag then 1 else 0]
  | _ => replicate 8 0
  end ++ concat (timing_tally <$> destination_timings o).
Definition destination_caps : list Z := replicate 8 u64_max ++ concat (replicate 9 timing_caps).

(** ** The instances *)
Lemma sat_add_zero x : x <= u64_max -> sat_add x 0 = x.
Proof. unfold sat_add. lia. Qed.

#[export] Instance source_meter : Meter SourceObservation SourceCounters SourceGauges.
Proof.
  refine {| zero := SourceCounters_default; count := record_source; has_work := source_has_work;
            values := source_values; tally := source_tally; caps := source_caps |}.
  - reflexivity.
  - by intros [].
  - reflexivity.
  - intros o [] i cap x t Hcap Hx Ht Hle. unfold source_caps, source_values, sat_at in *.
    do 10 (destruct i as [|i]; [destruct o; cbn in *; simplify_eq; unfold sat_add, duration_sat_add; f_equal; lia|]).
    done.
Defined.

#[export] Instance destination_meter : Meter DestinationObservation DestinationCounters DestinationGauges.
Proof.
  refine {| zero := DestinationCounters_default; count := record_destination; has_work := destination_has_work;
            values := destination_values; tally := destination_tally; caps := destination_caps |}.
  - reflexivity.
  - by intros [].
  - reflexivity.
  - intros o [] i cap x t Hcap Hx Ht Hle. unfold destination_caps, destination_values, sat_at in *.
    do 26 (destruct i as [|i]; [destruct o; cbn in *; simplify_eq; unfold sat_add, duration_sat_add; f_equal; lia|]).
    done.
Defined.

(** ** Properties *)

(** Reports neither lose nor repeat observations: over any
    run of observations and polls of a source or a destination, what the reports carry
    of a counter and what it still holds add up to what was observed, as long as that
    fits the counter; skipped quiet reports lose nothing. *)
Theorem observations_conserved (i : nat) (cap : Z) (start : instant)
    (source : list (meter_op SourceObservation SourceGauges))
    (destination : list (meter_op DestinationObservation DestinationGauges)) :
  (source_caps !! i = Some cap -> Forall op_ok source -> observed i source <= cap ->
   let run := meter_run source (accumulator_new start) in
   reported i run.1 + value i (counters run.2) = observed i source) /\
  (destination_caps !! i = Some cap -> Forall op_ok destination -> observed i destination <= cap ->
   let run := meter_run destination (accumulator_new start) in
   reported i run.1 + value i (counters run.2) = observed i destination).
Proof.
  split; intros Hcap Hops Hle run; unfold run;
    (rewrite (meter_run_conserves i cap); [|done|done|cbn [accumulator_new counters]; rewrite value_zero; lia..]);
    cbn [accumulator_new counters]; rewrite value_zero; lia.
Qed.

(** ** Concrete inputs *)
Definition sample_ops : list (meter_op SourceObservation SourceGauges) :=
  [Observe CommitReceived; Observe CommitReceived;
   Poll (from_secs 1) (MkSourceGauges 0 0 false 0 false 0) false; Observe CommitReceived].

Lemma observations_conserved_witness :
  let run := meter_run sample_ops (accumulator_new 0) in
  reported 0 run.1 + value 0 (counters run.2) = 3.
Proof.
  refine (proj1 (observations_conserved 0 u64_max 0 sample_ops []) _ _ _).
  - reflexivity.
  - repeat constructor; cbn; lia.
  - vm_compute. congruence.
Defined.
