(* ===== verification/Output.v ===== *)
(** * Ordered publication ([weld-hoist-encoded/src/output.rs])

    Completed packets wait in two bounded queues, one per channel of the transport. A
    flush offers each queue's packets in order until the transport refuses one, which
    goes back to the front. The transport is an interface: the code relies on [Busy]
    returning the record it was given ([state.rs], [EncodedSourceTransport]). *)

From S2P Require Import Prelude OrdMap.

Definition MAX_PENDING_SOURCE_EVENTS : nat := 128.
Definition MAX_REPLACEMENTS_PER_COMMIT : nat := 16.

(** ** Packets and transports *)
Inductive SourceTransportPacket (C M : Type) :=
  | Control (envelope : C)
  | Media (envelope : M).
Arguments Control {C M} envelope.
Arguments Media {C M} envelope.

Definition is_media {C M} (p : SourceTransportPacket C M) : bool :=
  match p with Control _ => false | Media _ => true end.

Inductive SendStatus (P : Type) :=
  | Sent
  | Busy (packet : P).
Arguments Sent {P}.
Arguments Busy {P} packet.

(** What a transport promises: it keeps the records it has taken in order, and [Busy]
    hands back the record it was offered and takes nothing. After an error nothing is
    promised. *)
Class EncodedSourceTransport (T P : Type) := {
  try_send : P -> T -> T * outcome (SendStatus P);
  taken : T -> list P;
  try_send_sent : forall p t t', try_send p t = (t', Ret Sent) -> taken t' = taken t ++ [p];
  try_send_busy : forall p q t t', try_send p t = (t', Ret (Busy q)) -> q = p /\ taken t' = taken t;
}.

Section Output.
Context {C M T : Type} `{EncodedSourceTransport T (SourceTransportPacket C M)}.
Abbreviation packet := (SourceTransportPacket C M).

Record SourceOutput := MkOutput { control : list packet; media : list packet }.
Definition SourceOutput_default : SourceOutput := MkOutput [] [].

(** [SourceOutput::push]: the queue is unchanged when it is full. *)
Definition push (p : packet) (s : SourceOutput) : SourceOutput * outcome unit :=
  match p with
  | Control _ =>
      if bool_decide (length (control s) < MAX_PENDING_SOURCE_EVENTS)%nat
      then (MkOutput (control s ++ [p]) (media s), Ret tt)
      else (s, Fail (ErrMsg "encoded source control backlog exhausted"))
  | Media _ =>
      if bool_decide (length (media s) < MAX_REPLACEMENTS_PER_COMMIT)%nat
      then (MkOutput (control s) (media s ++ [p]), Ret tt)
      else (s, Fail (ErrMsg "encoded source retained more than one completed media batch"))
  end.

Definition is_empty (s : SourceOutput) : bool :=
  match control s, media s with [], [] => true | _, _ => false end.
Definition pending_records (s : SourceOutput) : nat := length (control s) + length (media s).

(** [SourceOutput::flush_channel] *)
Fixpoint flush_channel (queue : list packet) (t : T) : list packet * T * outcome unit :=
  match queue with
  | [] => ([], t, Ret tt)
  | p :: rest =>
      match try_send p t with
      | (t', Ret Sent) => flush_channel rest t'
      | (t', Ret (Busy q)) => (q :: rest, t', Ret tt)
      | (t', Fail e) => (rest, t', Fail e)
      | (t', Panic) => (rest, t', Panic)
      end
  end.

(** [SourceOutput::flush]: media first; control only when the media channel did not fail. *)
Definition flush (s : SourceOutput) (t : T) : SourceOutput * T * outcome unit :=
  let '(m, t, r) := flush_channel (media s) t in
  match r with
  | Ret _ => let '(c, t, r) := flush_channel (control s) t in (MkOutput c m, t, r)
  | _ => (MkOutput (control s) m, t, r)
  end.

(** ** One channel *)

(** A flush that returns sends a prefix of the queue, in order, and keeps the rest; what
    it keeps begins with a packet the transport has just refused. *)
Definition refused (p : packet) (t : T) : Prop := exists before, try_send p before = (t, Ret (Busy p)).

Lemma flush_channel_spec queue t queue' t' u :
  flush_channel queue t = (queue', t', Ret u) ->
  exists sent, queue = sent ++ queue' /\ taken t' = taken t ++ sent /\
    match queue' with [] => True | p :: _ => refused p t' end.
Proof.
  revert t. induction queue as [|p rest IH]; intros t; cbn.
  { intros [= <- <- <-]. exists []. by rewrite !app_nil_r. }
  destruct (try_send p t) as [t1 [[|q]| |]] eqn:Hs; try discriminate.
  - intros (sent & -> & Hlog & Hhead)%IH. exists (p :: sent).
    by rewrite Hlog, (try_send_sent _ _ _ Hs), <- app_assoc.
  - intros [= <- <- <-]. destruct (try_send_busy _ _ _ _ Hs) as [-> Hlog].
    exists []. rewrite app_nil_r. split; [done|]. split; [done|]. by exists t.
Qed.

Lemma flush_spec s t s' t' u :
  flush s t = (s', t', Ret u) ->
  exists sent_media sent_control,
    media s = sent_media ++ media s' /\ control s = sent_control ++ control s' /\
    taken t' = taken t ++ sent_media ++ sent_control.
Proof.
  unfold flush. destruct (flush_channel (media s) t) as [[m t1] [[]| |]] eqn:Hm; try discriminate.
  destruct (flush_channel (control s) t1) as [[c t2] r] eqn:Hc. intros [= <- <- ->].
  apply flush_channel_spec in Hm as (sm & Hms & Htm & _).
  apply flush_channel_spec in Hc as (sc & Hcs & Htc & _).
  exists sm, sc. repeat split; [done|done|]. by rewrite Htc, Htm, app_assoc.
Qed.

(** ** Invariant and channels *)
Definition Output_ok (s : SourceOutput) : Prop :=
  Forall (fun p => is_media p = false) (control s) /\ Forall (fun p => is_media p = true) (media s) /\
  (length (control s) <= MAX_PENDING_SOURCE_EVENTS)%nat /\ (length (media s) <= MAX_REPLACEMENTS_PER_COMMIT)%nat.

Definition channel (which : bool) (l : list packet) : list packet := filter (fun p => is_media p = which) l.
#[local] Arguments channel : simpl never.
Definition waiting_on (which : bool) (s : SourceOutput) : list packet := if which then media s else control s.

Lemma channel_all which l : Forall (fun p => is_media p = which) l -> channel which l = l.
Proof.
  induction 1 as [|p l Hp Hl IH]; [done|]. unfold channel in *. rewrite filter_cons.
  by rewrite decide_True, IH.
Qed.
Lemma channel_none which l : Forall (fun p => is_media p = negb which) l -> channel which l = [].
Proof.
  induction 1 as [|p l Hp Hl IH]; [done|]. unfold channel in *. rewrite filter_cons.
  rewrite decide_False; [done|]. rewrite Hp. by destruct which.
Qed.
Lemma channel_app which l k : channel which (l ++ k) = channel which l ++ channel which k.
Proof. apply list.filter_app. Qed.

Lemma push_ok p s : Output_ok s -> Output_ok (push p s).1.
Proof.
  intros (Hc & Hm & Lc & Lm). unfold push. destruct p as [e|e]; case_bool_decide; cbn; try done.
  - repeat split; cbn; [|done|rewrite length_app; cbn; lia|done].
    apply Forall_app. split; [done|]. by constructor.
  - repeat split; cbn; [done| |done|rewrite length_app; cbn; lia].
    apply Forall_app. split; [done|]. by constructor.
Qed.

Lemma flush_ok s t s' t' u : Output_ok s -> flush s t = (s', t', Ret u) -> Output_ok s'.
Proof.
  intros (Hc & Hm & Lc & Lm) (sm & sc & Em & Ec & _)%flush_spec. unfold Output_ok.
  rewrite Em in Hm, Lm. rewrite Ec in Hc, Lc.
  apply Forall_app in Hm as [_ Hm]. apply Forall_app in Hc as [_ Hc]. rewrite length_app in *.
  repeat split; [done|done|lia|lia].
Qed.

(** ** A connection's life

    Pushes and flushes in any order; between them the transport makes room in whatever
    way it likes, without touching the records it has taken. [accepted] is every packet
    a push accepted. The life ends with the first failed flush. *)
Record connection := MkConnection { output : SourceOutput; link : T; accepted : list packet }.

Inductive connection_step : connection -> connection -> Prop :=
  | step_push s t l p s' :
      push p s = (s', Ret tt) -> connection_step (MkConnection s t l) (MkConnection s' t (l ++ [p]))
  | step_push_full s t l p s' e :
      push p s = (s', Fail e) -> connection_step (MkConnection s t l) (MkConnection s' t l)
  | step_flush s t l s' t' :
      flush s t = (s', t', Ret tt) -> connection_step (MkConnection s t l) (MkConnection s' t' l)
  | step_room s t l t' :
      taken t' = taken t -> connection_step (MkConnection s t l) (MkConnection s t' l).

(** Everything accepted for a channel was sent on it or waits for it, in order. *)
Definition connection_ok (c : connection) : Prop :=
  Output_ok (output c) /\
  forall which, channel which (accepted c) = channel which (taken (link c)) ++ waiting_on which (output c).

Lemma push_accepts p s s' which :
  push p s = (s', Ret tt) -> waiting_on which s' = waiting_on which s ++ channel which [p].
Proof.
  unfold push. destruct p as [e|e]; case_bool_decide; intros [= <-]; destruct which; cbn;
    by rewrite ?app_nil_r.
Qed.
Lemma push_full p s s' e : push p s = (s', Fail e) -> s' = s.
Proof. unfold push. destruct p; case_bool_decide; congruence. Qed.

Lemma connection_step_ok c c' : connection_ok c -> connection_step c c' -> connection_ok c'.
Proof.
  intros [Hok Hall] Hstep. destruct Hstep as [s t l p s' Hp|s t l p s' e Hp|s t l s' t' Hf|s t l t' Ht];
    cbn in *.
  - split; cbn.
    + pose proof (push_ok p s Hok) as Hok'. by rewrite Hp in Hok'.
    + intros which. by rewrite channel_app, Hall, (push_accepts _ _ _ which Hp), app_assoc.
  - by apply push_full in Hp as ->.
  - split; [by eapply flush_ok|]. intros which. cbn.
    destruct Hok as (Hc & Hm & _). apply flush_spec in Hf as (sm & sc & Em & Ec & Ht).
    rewrite Hall, Ht, !channel_app. rewrite Em in Hm. rewrite Ec in Hc.
    apply Forall_app in Hm as [Hm _]. apply Forall_app in Hc as [Hc _].
    destruct which; cbn [waiting_on].
    + rewrite (channel_all true sm), (channel_none true sc) by done. by rewrite Em, app_nil_r, app_assoc.
    + rewrite (channel_none false sm), (channel_all false sc) by done. by rewrite Ec, app_assoc.
  - split; [done|]. intros which. cbn. by rewrite Ht.
Qed.

Lemma connection_steps_ok c c' : connection_ok c -> rtc connection_step c c' -> connection_ok c'.
Proof. intros Hc Hs. revert Hc. induction Hs; [done|]. eauto using connection_step_ok. Qed.
End Output.
Arguments SourceOutput C M : clear implicits.
Arguments connection C M T : clear implicits.

(** ** A concrete transport

    A link with room for some records of each kind. *)
Record Link (C M : Type) := MkLink {
  control_room : nat;
  media_room : nat;
  delivered : list (SourceTransportPacket C M);
}.
Arguments MkLink {C M} control_room media_room delivered.
Arguments control_room {C M} l.
Arguments media_room {C M} l.
Arguments delivered {C M} l.

Definition link_send {C M} (p : SourceTransportPacket C M) (l : Link C M) :
    Link C M * outcome (SendStatus (SourceTransportPacket C M)) :=
  match p, control_room l, media_room l with
  | Control _, S c, m => (MkLink c m (delivered l ++ [p]), Ret Sent)
  | Media _, c, S m => (MkLink c m (delivered l ++ [p]), Ret Sent)
  | _, _, _ => (l, Ret (Busy p))
  end.

#[export] Instance link_transport C M : EncodedSourceTransport (Link C M) (SourceTransportPacket C M).
Proof.
  refine {| try_send := link_send; taken := delivered |}.
  - intros [] [[|c] [|m] d] t'; cbn; intros [= <-]; done.
  - intros [] q [[|c] [|m] d] t'; cbn; intros [=]; subst; done.
Defined.

(** ** Properties *)

(** On each channel a live connection keeps the order of publication
    and loses nothing: the packets accepted for the channel are those the transport has
    taken followed by those waiting, whatever the interleaving of pushes, flushes and
    the transport's own progress; and neither queue exceeds its bound. *)
Theorem output_in_order (C M T : Type) (tr : EncodedSourceTransport T (SourceTransportPacket C M))
    (t0 : T) (c : connection C M T) :
  taken t0 = [] -> rtc connection_step (MkConnection SourceOutput_default t0 []) c ->
  (forall which, channel which (accepted c) = channel which (taken (link c)) ++ waiting_on which (output c)) /\
  (length (control (output c)) <= MAX_PENDING_SOURCE_EVENTS)%nat /\
  (length (media (output c)) <= MAX_REPLACEMENTS_PER_COMMIT)%nat.
Proof.
  intros Ht0 Hrun. apply connection_steps_ok in Hrun as [(_ & _ & Lc & Lm) Hall]; [done|].
  split; [repeat split; cbn; try constructor; unfold MAX_PENDING_SOURCE_EVENTS, MAX_REPLACEMENTS_PER_COMMIT; lia|].
  intros which. cbn. rewrite Ht0. by destruct which.
Qed.

(** A flush that returns stops on a channel only where the
    transport refused the packet at its head; a refusal on the media channel does not
    keep control packets back. *)
Theorem flush_progress (C M T : Type) (tr : EncodedSourceTransport T (SourceTransportPacket C M))
    (s s' : SourceOutput C M) (t t' : T) :
  flush s t = (s', t', Ret tt) ->
  match media s' with [] => True | p :: _ => exists t1, refused p t1 end /\
  match control s' with [] => True | p :: _ => refused p t' end.
Proof.
  unfold flush. destruct (flush_channel (media s) t) as [[m t1] [[]| |]] eqn:Hm; try discriminate.
  destruct (flush_channel (control s) t1) as [[c t2] r] eqn:Hc. intros [= <- <- ->].
  apply flush_channel_spec in Hm as (_ & _ & _ & Hm). apply flush_channel_spec in Hc as (_ & _ & _ & Hc).
  split; [|done]. cbn. destruct m; eauto.
Qed.

(** ** Concrete inputs *)
Definition sample_output : SourceOutput nat nat :=
  MkOutput [Control 1%nat; Control 2%nat] [Media 7%nat; Media 8%nat].
Definition sample_link : Link nat nat := MkLink 5 1 [].

Example flush_sample :
  flush sample_output sample_link =
  (MkOutput [] [Media 8%nat], MkLink 3 0 [Media 7%nat; Control 1%nat; Control 2%nat], Ret tt).
Proof. reflexivity. Qed.

Lemma output_in_order_witness :
  channel true [Media 7%nat; Control 1%nat] =
  channel true [Media 7%nat; Control 1%nat] ++ waiting_on true (@SourceOutput_default nat nat).
Proof.
  refine (proj1 (output_in_order nat nat (Link nat nat) _ sample_link
    (MkConnection SourceOutput_default (MkLink 4 0 [Media 7%nat; Control 1%nat]) [Media 7%nat; Control 1%nat])
    _ _) true).
  - reflexivity.
  - eapply rtc_l; [by apply (step_push _ _ _ (Media 7%nat))|].
    eapply rtc_l; [by apply (step_push _ _ _ (Control 1%nat))|].
    eapply rtc_l; [by apply step_flush|]. apply rtc_refl.
Defined.

Lemma flush_progress_witness :
  flush sample_output sample_link =
    (MkOutput [] [Media 8%nat], MkLink 3 0 [Media 7%nat; Control 1%nat; Control 2%nat], Ret tt) /\
  exists t1 : Link nat nat, refused (C:=nat) (Media 8%nat) t1.
Proof.
  split; [reflexivity|].
  exact (proj1 (flush_progress nat nat (Link nat nat) _ sample_output
    (MkOutput [] [Media 8%nat]) sample_link _ eq_refl)).
Defined.
