(* ===== verification/TouchLedger.v ===== *)
(** * Touch validation and teardown ([weld-hoist-core/src/touch.rs])

    The ledger follows which target each live contact belongs to and which targets have
    events since their last frame; it bounds both and rejects events that do not fit. *)

From S2P Require Import Prelude OrdMap Ids Surface Input.

Record TouchLedger := MkLedger {
  contacts : gmap TouchId ClientInputTarget;
  pending : list ClientInputTarget;
}.
Definition TouchLedger_default : TouchLedger := MkLedger ∅ [].

Definition is_touch_target (t : ClientInputTarget) : bool :=
  match t with TouchTarget _ _ => true | _ => false end.

(** [TouchLedger::accepts] *)
Definition accepts (target : ClientInputTarget) (event : TouchEvent) (s : TouchLedger) : bool :=
  if negb (is_touch_target target) || negb (touch_is_valid event) then false
  else
    match event with
    | TouchDown id _ =>
        bool_decide (contacts s !! id = None)
        && bool_decide (size (contacts s) < MAX_TOUCH_CONTACTS)%nat
        && (bool_decide (target ∈ pending s) || bool_decide (length (pending s) < MAX_TOUCH_CONTACTS)%nat)
    | TouchMotion id _ | TouchUp id => bool_decide (contacts s !! id = Some target)
    | TouchFrame => bool_decide (target ∈ pending s)
    | TouchCancel =>
        bool_decide (target ∈ pending s)
        || existsb (fun current => bool_decide (current = target)) (map_to_list (contacts s)).*2
    end.

(** [HashMap::retain] on the targets. *)
Definition retain (keep : ClientInputTarget -> bool) (m : gmap TouchId ClientInputTarget) :
    gmap TouchId ClientInputTarget :=
  filter (fun e => keep e.2 = true) m.
Definition is_closing (event : TouchEvent) : bool :=
  match event with TouchFrame | TouchCancel => true | _ => false end.

(** The tables after an accepted event. *)
Definition contacts_after (target : ClientInputTarget) (event : TouchEvent)
    (m : gmap TouchId ClientInputTarget) : gmap TouchId ClientInputTarget :=
  match event with
  | TouchDown id _ => <[id := target]> m
  | TouchUp id => delete id m
  | TouchCancel => retain (fun current => negb (bool_decide (current = target))) m
  | _ => m
  end.
Definition pending_after (target : ClientInputTarget) (event : TouchEvent) (l : list ClientInputTarget) :
    list ClientInputTarget :=
  if is_closing event then filter (fun current => current <> target) l
  else if bool_decide (target ∈ l) then l else l ++ [target].

(** [TouchLedger::observe] *)
Definition observe (target : ClientInputTarget) (event : TouchEvent) (s : TouchLedger) : TouchLedger * bool :=
  if negb (accepts target event s) then (s, false)
  else (MkLedger (contacts_after target event (contacts s)) (pending_after target event (pending s)), true).

(** The targets [retire] collects, in visiting order and each once. *)
Definition collect (matches : ClientSurfaceId -> bool) (targets : list ClientInputTarget)
    (target : ClientInputTarget) : list ClientInputTarget :=
  if matches (target_surface target) && negb (bool_decide (target ∈ targets))
  then targets ++ [target] else targets.

(** [TouchLedger::retire] *)
Definition retire (matches : ClientSurfaceId -> bool) (s : TouchLedger) : TouchLedger * list ClientInputTarget :=
  let targets := fold_left (collect matches) ((map_to_list (contacts s)).*2 ++ pending s) [] in
  (MkLedger (retain (fun target => negb (bool_decide (target ∈ targets))) (contacts s))
     (filter (fun target => target ∉ targets) (pending s)), targets).

(** ** Invariant

    Between two frames a target can wait without a live contact, and a live contact's
    target need not wait, so both together stay below twice the bound on contacts. *)
Definition MAX_TRACKED : nat := 2 * MAX_TOUCH_CONTACTS - 1.

Definition tracked_by (l : list ClientInputTarget) (s : TouchLedger) : Prop :=
  (length l <= MAX_TRACKED)%nat /\ pending s ⊆ l /\ map_Forall (fun _ t => t ∈ l) (contacts s).

Record Ledger_ok (s : TouchLedger) : Prop := {
  ok_contacts : (size (contacts s) <= MAX_TOUCH_CONTACTS)%nat;
  ok_pending : NoDup (pending s);
  ok_contact_targets : map_Forall (fun _ t => is_touch_target t = true) (contacts s);
  ok_pending_targets : Forall (fun t => is_touch_target t = true) (pending s);
  ok_tracked : exists l, tracked_by l s;
}.

Lemma retain_lookup keep m id t : retain keep m !! id = Some t <-> m !! id = Some t /\ keep t = true.
Proof. unfold retain. by rewrite map_lookup_filter_Some. Qed.
Lemma retain_size keep m : (size (retain keep m) <= size m)%nat.
Proof. apply map_subseteq_size, map_filter_subseteq. Qed.
Lemma retain_Forall (P : TouchId -> ClientInputTarget -> Prop) keep m : map_Forall P m -> map_Forall P (retain keep m).
Proof. intros HP id t [Hm _]%retain_lookup. by apply HP. Qed.

Lemma accepts_target target event s : accepts target event s = true -> is_touch_target target = true.
Proof. unfold accepts. by destruct (is_touch_target target). Qed.
Lemma accepts_inv target event s :
  accepts target event s = true ->
  touch_is_valid event = true /\
  match event with
  | TouchDown id _ =>
      contacts s !! id = None /\ (size (contacts s) < MAX_TOUCH_CONTACTS)%nat /\
      ((target ∈ pending s) \/ (length (pending s) < MAX_TOUCH_CONTACTS)%nat)
  | TouchMotion id _ | TouchUp id => contacts s !! id = Some target
  | TouchFrame => target ∈ pending s
  | TouchCancel => (target ∈ pending s) \/ exists id, contacts s !! id = Some target
  end.
Proof.
  unfold accepts. destruct (is_touch_target target), (touch_is_valid event); cbn; try discriminate.
  intros Ha. split; [done|]. destruct event; rewrite ?andb_true_iff, ?orb_true_iff, ?bool_decide_eq_true in Ha.
  - naive_solver.
  - done.
  - done.
  - done.
  - destruct Ha as [Ha|(t & Hin & Ht)%existsb_exists]; [by left|right].
    apply bool_decide_eq_true in Ht as ->. apply list_elem_of_In, list_elem_of_fmap in Hin as ([id t] & -> & Hin).
    exists id. by apply elem_of_map_to_list in Hin.
Qed.

Lemma Ledger_default_ok : Ledger_ok TouchLedger_default.
Proof.
  split; cbn; [unfold MAX_TOUCH_CONTACTS; rewrite map_size_empty; lia|constructor|apply map_Forall_empty|constructor|].
  exists []. repeat split; cbn; [unfold MAX_TRACKED; lia|done|apply map_Forall_empty].
Qed.

(** A covered ledger whose tables shrink, or gain a covered target, stays covered. *)
Lemma tracked_mono l s s' :
  tracked_by l s -> (forall t, t ∈ pending s' -> t ∈ l) -> map_Forall (fun _ t => t ∈ l) (contacts s') ->
  tracked_by l s'.
Proof. intros (Hl & _ & _) Hp Hc. repeat split; [done|intros t; apply Hp|done]. Qed.

Lemma pending_bounded s : Ledger_ok s -> (length (pending s) <= MAX_TRACKED)%nat.
Proof.
  intros Hs. destruct (ok_tracked s Hs) as (l & Hl & Hp & _). etrans; [|exact Hl].
  apply submseteq_length, NoDup_submseteq; [apply ok_pending, Hs|done].
Qed.

Lemma pending_after_NoDup target event l : NoDup l -> NoDup (pending_after target event l).
Proof.
  intros Hl. unfold pending_after. destruct (is_closing event); [by apply list.NoDup_filter|].
  case_bool_decide; [done|]. apply list.NoDup_app. repeat split; [done| |apply NoDup_singleton].
  intros t Ht ->%list_elem_of_singleton. done.
Qed.
Lemma elem_of_pending_after target event l t :
  t ∈ pending_after target event l <->
  if is_closing event then (t ∈ l) /\ t <> target else (t ∈ l) \/ t = target.
Proof.
  unfold pending_after. destruct (is_closing event).
  - rewrite list_elem_of_filter. tauto.
  - case_bool_decide; [naive_solver|]. rewrite elem_of_app, list_elem_of_singleton. done.
Qed.

Lemma contacts_after_Forall (P : ClientInputTarget -> Prop) target event m :
  P target -> map_Forall (fun _ t => P t) m -> map_Forall (fun _ t => P t) (contacts_after target event m).
Proof.
  intros Ht Hm. destruct event; cbn; try done.
  - by apply map_Forall_insert_2.
  - by apply map_Forall_delete.
  - by apply retain_Forall.
Qed.

(** An accepted event's target is covered already, or there is room for it. *)
Lemma tracked_after l target event s :
  accepts target event s = true -> Ledger_ok s -> tracked_by l s ->
  exists l', tracked_by l' s /\ target ∈ l'.
Proof.
  intros Ha Hs Hl. pose proof Hl as (Hlen & Hp & Hc).
  destruct (decide (target ∈ l)) as [Hin|Hin]; [by exists l|].
  apply accepts_inv in Ha as [_ Ha]. destruct event as [id p|id p|id| |].
  - destruct Ha as (_ & Hsize & [Hin'|Hroom]); [by exists l; auto|].
    exists (target :: pending s ++ (map_to_list (contacts s)).*2). repeat split.
    + cbn. rewrite length_app, length_fmap, length_map_to_list.
      unfold MAX_TRACKED, MAX_TOUCH_CONTACTS in *. lia.
    + intros t Ht. right. apply elem_of_app. by left.
    + intros i t Ht. right. apply elem_of_app. right. apply list_elem_of_fmap. exists (i, t).
      split; [done|]. by apply elem_of_map_to_list.
    + left.
  - exists l. split; [done|]. by apply (Hc id).
  - exists l. split; [done|]. by apply (Hc id).
  - exists l. auto.
  - exists l. split; [done|]. destruct Ha as [Ha|[id Ha]]; [auto|by apply (Hc id)].
Qed.

Lemma observe_ok target event s : Ledger_ok s -> Ledger_ok (observe target event s).1.
Proof.
  intros Hs. unfold observe. destruct (accepts target event s) eqn:Ha; [|done]. cbn.
  pose proof (accepts_target _ _ _ Ha) as Ht. pose proof (accepts_inv _ _ _ Ha) as [_ Hinv].
  pose proof Hs as [Hc Hp Hct Hpt [l Hl]].
  destruct (tracked_after l target event s Ha Hs Hl) as (l' & (Hlen & Hlp & Hlc) & Hin). split; cbn.
  - destruct event as [id p|id p|id| |]; cbn; try done.
    + destruct Hinv as (Hn & Hlt & _). rewrite map_size_insert_None by done. lia.
    + etrans; [|exact Hc]. apply map_subseteq_size, delete_subseteq.
    + etrans; [apply retain_size|done].
  - by apply pending_after_NoDup.
  - by apply contacts_after_Forall.
  - apply list.Forall_forall. intros t Hin'%elem_of_pending_after. rewrite list.Forall_forall in Hpt.
    destruct (is_closing event); naive_solver.
  - exists l'. apply (tracked_mono l' s); cbn; [done| |by apply contacts_after_Forall].
    intros t Hin'%elem_of_pending_after. destruct (is_closing event); naive_solver.
Qed.

(** ** Retiring *)
Lemma elem_of_collect matches targets l t :
  t ∈ fold_left (collect matches) l targets <->
  (t ∈ targets) \/ ((t ∈ l) /\ matches (target_surface t) = true).
Proof.
  revert targets. induction l as [|x l IH]; intros targets; cbn; [set_solver|].
  rewrite IH. unfold collect. destruct (matches (target_surface x)) eqn:Hm; cbn.
  - case_bool_decide; cbn; set_solver.
  - split; [set_solver|]. intros [|[[->|]%elem_of_cons ?]]; [by left|congruence|by right].
Qed.
Lemma collect_NoDup matches targets l : NoDup targets -> NoDup (fold_left (collect matches) l targets).
Proof.
  revert targets. induction l as [|x l IH]; intros targets H; cbn; [done|]. apply IH. unfold collect.
  destruct (matches (target_surface x)); cbn; [|done]. case_bool_decide; cbn; [done|].
  apply list.NoDup_app. repeat split; [done| |apply NoDup_singleton]. intros t ? ->%list_elem_of_singleton. done.
Qed.
Lemma elem_of_retired matches s t :
  t ∈ (retire matches s).2 <->
  ((exists id, contacts s !! id = Some t) \/ (t ∈ pending s)) /\ matches (target_surface t) = true.
Proof.
  unfold retire. cbn. rewrite elem_of_collect, elem_of_nil, elem_of_app, list_elem_of_fmap.
  split; [intros [[]|[[([id ?] & -> & Hin%elem_of_map_to_list)|?] ?]]; naive_solver|].
  intros [[[id Hid]|?] ?]; right; (split; [|done]); [left|by right].
  exists (id, t). split; [done|]. by apply elem_of_map_to_list.
Qed.
Lemma retire_contacts matches s id t :
  contacts (retire matches s).1 !! id = Some t <->
  contacts s !! id = Some t /\ matches (target_surface t) = false.
Proof.
  change (contacts (retire matches s).1)
    with (retain (fun t => negb (bool_decide (t ∈ (retire matches s).2))) (contacts s)).
  rewrite retain_lookup, negb_true_iff, bool_decide_eq_false, elem_of_retired.
  destruct (matches (target_surface t)); naive_solver.
Qed.
Lemma retire_pending matches s t :
  t ∈ pending (retire matches s).1 <-> (t ∈ pending s) /\ matches (target_surface t) = false.
Proof.
  change (pending (retire matches s).1) with (filter (fun t => t ∉ (retire matches s).2) (pending s)).
  rewrite list_elem_of_filter, elem_of_retired. destruct (matches (target_surface t)); naive_solver.
Qed.

Lemma retire_ok matches s : Ledger_ok s -> Ledger_ok (retire matches s).1.
Proof.
  intros [Hc Hp Hct Hpt [l Hl]]. split.
  - etrans; [apply retain_size|done].
  - by apply list.NoDup_filter.
  - by apply retain_Forall.
  - apply list.Forall_forall. intros t [Ht _]%retire_pending. rewrite list.Forall_forall in Hpt. auto.
  - exists l. apply (tracked_mono l s); [done| |].
    + intros t [Ht _]%retire_pending. by apply Hl.
    + intros id t [Ht _]%retire_contacts. by apply Hl in Ht.
Qed.

(** ** History

    What a ledger accepted and retired, oldest first. *)
Inductive entry :=
  | Accepted (target : ClientInputTarget) (event : TouchEvent)
  | Retired (matches : ClientSurfaceId -> bool).

Inductive touch_op :=
  | Observe (target : ClientInputTarget) (event : TouchEvent)
  | Retire (matches : ClientSurfaceId -> bool).

Definition touch_step (c : TouchLedger * list entry) (op : touch_op) : TouchLedger * list entry :=
  match op with
  | Observe target event =>
      let '(s, accepted) := observe target event c.1 in
      (s, if accepted then c.2 ++ [Accepted target event] else c.2)
  | Retire matches => ((retire matches c.1).1, c.2 ++ [Retired matches])
  end.
Definition touch_run (ops : list touch_op) : TouchLedger * list entry :=
  fold_left touch_step ops (TouchLedger_default, []).

(** Some entry satisfies [P] and none after it satisfies [Q]. *)
Definition since_then (P Q : entry -> Prop) (log : list entry) : Prop :=
  exists before e after, log = before ++ e :: after /\ P e /\ Forall (fun e => ~ Q e) after.

Lemma since_then_snoc P Q log e :
  since_then P Q (log ++ [e]) <-> P e \/ (since_then P Q log /\ ~ Q e).
Proof.
  split.
  - intros (before & x & after & Heq & HP & HQ). destruct (decide (after = [])) as [->|Hne].
    + apply app_inj_tail in Heq as [_ ->]. by left.
    + right. destruct (exists_last Hne) as (after' & y & ->).
      rewrite app_comm_cons, app_assoc in Heq. apply app_inj_tail in Heq as [-> <-].
      apply Forall_app in HQ as [HQ HQy]. apply list.Forall_cons in HQy as [HQy _].
      split; [|done]. by exists before, x, after'.
  - intros [HP|[(before & x & after & -> & HP & HQ) HQe]].
    + by exists log, e, [].
    + exists before, x, (after ++ [e]). rewrite <- app_assoc. repeat split; [done|].
      apply Forall_app. auto.
Qed.

(** [id] went down on [target] and that contact has not ended. *)
Definition opens (target : ClientInputTarget) (id : TouchId) (e : entry) : Prop :=
  exists p, e = Accepted target (TouchDown id p).
Definition ends (target : ClientInputTarget) (id : TouchId) (e : entry) : Prop :=
  match e with
  | Accepted _ (TouchDown i _) | Accepted _ (TouchUp i) => i = id
  | Accepted t TouchCancel => t = target
  | Accepted _ _ => False
  | Retired matches => matches (target_surface target) = true
  end.
Definition owned (target : ClientInputTarget) (id : TouchId) : list entry -> Prop :=
  since_then (opens target id) (ends target id).

(** [target] saw an event that no frame has closed. *)
Definition changes (target : ClientInputTarget) (e : entry) : Prop :=
  exists event, e = Accepted target event /\ is_closing event = false.
Definition closes (target : ClientInputTarget) (e : entry) : Prop :=
  match e with
  | Accepted t event => t = target /\ is_closing event = true
  | Retired matches => matches (target_surface target) = true
  end.
Definition unframed (target : ClientInputTarget) : list entry -> Prop :=
  since_then (changes target) (closes target).

(** The ledger holds exactly what its history says. *)
Record follows (c : TouchLedger * list entry) : Prop := {
  follows_ok : Ledger_ok c.1;
  follows_contacts : forall target id, contacts c.1 !! id = Some target <-> owned target id c.2;
  follows_pending : forall target, (target ∈ pending c.1) <-> unframed target c.2;
}.

Lemma follows_observe target event s log :
  follows (s, log) -> accepts target event s = true ->
  follows (MkLedger (contacts_after target event (contacts s)) (pending_after target event (pending s)),
           log ++ [Accepted target event]).
Proof.
  intros [Hok Hc Hp] Ha. cbn in *. split; cbn.
  - pose proof (observe_ok target event s Hok) as H. unfold observe in H. by rewrite Ha in H.
  - intros t id. unfold owned. rewrite since_then_snoc. fold (owned t id log). rewrite <- Hc.
    destruct (accepts_inv _ _ _ Ha) as [_ Hinv]. unfold opens, ends. destruct event as [i p|i p|i| |]; cbn.
    + rewrite lookup_insert_Some. split.
      * intros [[-> ->]|[Hne Hl]]; [left; by exists p|right; done].
      * intros [[q [= -> -> ->]]|[Hl Hne]]; auto.
    + split; [naive_solver|]. intros [[q Hq]|[Hl _]]; [discriminate|done].
    + rewrite lookup_delete_Some. split; [naive_solver|]. intros [[q Hq]|[Hl Hne]]; [discriminate|done].
    + split; [naive_solver|]. intros [[q Hq]|[Hl _]]; [discriminate|done].
    + rewrite retain_lookup, negb_true_iff, bool_decide_eq_false. split; [naive_solver|].
      intros [[q Hq]|[Hl Hne]]; [discriminate|auto].
  - intros t. unfold unframed. rewrite since_then_snoc. fold (unframed t log). rewrite <- Hp.
    rewrite elem_of_pending_after. unfold changes, closes. destruct (is_closing event) eqn:Hcl.
    + split; [intros [Hin Hne]; right; naive_solver|].
      intros [(e & [= -> <-] & Hf)|[Hin Hn]]; [congruence|]. split; [done|]. intros ->. by apply Hn.
    + split; [intros [Hin| ->]; [right; split; [done|naive_solver]|left; by exists event]|].
      intros [(e & [= -> <-] & _)|[Hin _]]; auto.
Qed.

Lemma follows_retire matches s log :
  follows (s, log) -> follows ((retire matches s).1, log ++ [Retired matches]).
Proof.
  intros [Hok Hc Hp]. cbn in *. split; cbn [fst snd].
  - by apply retire_ok.
  - intros t id. unfold owned. change (contacts (retire matches s).1 !! id = Some t <-> since_then (opens t id) (ends t id) (log ++ [Retired matches])). rewrite retire_contacts, since_then_snoc. fold (owned t id log). rewrite <- Hc.
    unfold opens, ends. destruct (matches (target_surface t)); naive_solver.
  - intros t. unfold unframed. change ((t ∈ pending (retire matches s).1) <-> since_then (changes t) (closes t) (log ++ [Retired matches])). rewrite retire_pending, since_then_snoc. fold (unframed t log). rewrite <- Hp.
    unfold changes, closes. destruct (matches (target_surface t)); naive_solver.
Qed.

Lemma follows_step c op : follows c -> follows (touch_step c op).
Proof.
  destruct c as [s log], op as [target event|matches]; intros Hf; cbn; [|by apply follows_retire].
  unfold observe. destruct (accepts target event s) eqn:Ha; cbn; [by apply follows_observe|done].
Qed.

Lemma touch_run_follows ops : follows (touch_run ops).
Proof.
  unfold touch_run. assert (H0 : follows (TouchLedger_default, [])).
  { split; cbn; [apply Ledger_default_ok| |].
    - intros t id. rewrite lookup_empty. split; [done|]. intros ([|] & ? & ? & ? & _); done.
    - intros t. rewrite elem_of_nil. split; [done|]. intros ([|] & ? & ? & ? & _); done. }
  revert H0. generalize (TouchLedger_default, @nil entry). induction ops as [|op ops IH]; intros c Hc; cbn; auto.
  apply IH. by apply follows_step.
Qed.

(** ** Properties *)

(** After any sequence of events and retirements, a contact
    belongs to a target exactly when the history shows it going down there with no later
    end of that contact, and a motion or lift of the contact is accepted for that target
    alone; at most 32 contacts are live and at most 63 targets await a frame. *)
Theorem touch_ownership (ops : list touch_op) (id : TouchId) (target : ClientInputTarget) :
  let '(s, log) := touch_run ops in
  (contacts s !! id = Some target <-> owned target id log) /\
  (accepts target (TouchUp id) s = true <-> is_touch_target target = true /\ owned target id log) /\
  (size (contacts s) <= MAX_TOUCH_CONTACTS)%nat /\ (length (pending s) <= MAX_TRACKED)%nat.
Proof.
  pose proof (touch_run_follows ops) as [Hok Hc _]. destruct (touch_run ops) as [s log]. cbn in *.
  split; [apply Hc|]. split; [|split; [apply Hok|by apply pending_bounded]].
  unfold accepts. rewrite <- Hc. destruct (is_touch_target target); cbn; [|naive_solver].
  rewrite bool_decide_eq_true. tauto.
Qed.

(** Retiring surfaces reports every matching target that has a live
    contact or events since its last frame, each once and no other; afterwards no event
    but a new contact going down is accepted for a matching target. *)
Theorem touch_teardown (ops : list touch_op) (matches : ClientSurfaceId -> bool) :
  let '(s, log) := touch_run ops in
  let '(s', targets) := retire matches s in
  NoDup targets /\
  (forall t, (t ∈ targets) <->
     ((exists id, owned t id log) \/ unframed t log) /\ matches (target_surface t) = true) /\
  (forall t event, matches (target_surface t) = true -> accepts t event s' = true ->
     exists id p, event = TouchDown id p).
Proof.
  pose proof (touch_run_follows ops) as [Hok Hc Hp]. destruct (touch_run ops) as [s log]. cbn in Hc, Hp, Hok.
  destruct (retire matches s) as [s' targets] eqn:Hr.
  assert (targets = (retire matches s).2) as -> by by rewrite Hr.
  assert (s' = (retire matches s).1) as -> by by rewrite Hr.
  split; [apply collect_NoDup; constructor|]. split.
  - intros t. rewrite elem_of_retired, <- Hp. setoid_rewrite Hc. done.
  - intros t event Hm [_ Hinv]%accepts_inv. destruct event as [id p|id p|id| |]; [by exists id, p|..].
    + apply retire_contacts in Hinv as [_ ?]. congruence.
    + apply retire_contacts in Hinv as [_ ?]. congruence.
    + apply retire_pending in Hinv as [_ ?]. congruence.
    + destruct Hinv as [[_ ?]%retire_pending|[id [_ ?]%retire_contacts]]; congruence.
Qed.

(** ** Concrete inputs *)
Definition sample_surface : ClientSurfaceId := ClientSurfaceId_for_test 1.
Definition sample_target : ClientInputTarget := TouchTarget sample_surface (MkSurfaceLayerId 1).

Example touch_sample :
  let '(s, log) := touch_run [Observe sample_target (TouchDown (MkTouchId 0) (MkPosition S754_nan (S754_zero false)));
    Observe sample_target (TouchDown (MkTouchId 0) (MkPosition (S754_zero false) (S754_zero false)));
    Observe sample_target TouchFrame; Observe sample_target TouchFrame] in
  pending s = [] /\ length log = 2%nat /\ (retire (fun _ => true) s).2 = [sample_target].
Proof. vm_compute. auto. Qed.
