(* ===== verification/GamepadCapture.v ===== *)
(** * Remote gamepad capture ([weld-hoist-core/src/gamepad.rs])

    The source side owns at most one native device at a time, opened by a [Begin] of a
    new generation and kept alive by states of that generation. The viewer side produces
    the requests. *)

From S2P Require Import Prelude OrdMap Ids Surface Input.

Definition WATCHDOG : duration := from_millis 750.
Definition RENEWAL : duration := from_millis 100.
Definition CAPACITY : nat := 64.

(** ** The native host

    [GamepadProvider::open], [GamepadDevice::update] and dropping a device are calls into
    platform code; the interface states that each is recorded in order. [open] gives the
    device and [update] says whether it succeeded. *)
Inductive call (D : Type) :=
  | Opened (d : D)
  | OpenFailed
  | Updated (d : D) (state : GamepadState)
  | Destroyed (d : D).
Arguments Opened {D} d.
Arguments OpenFailed {D}.
Arguments Updated {D} d state.
Arguments Destroyed {D} d.

Class GamepadHost (W D : Type) := {
  open : W -> W * option D;
  update : D -> GamepadState -> W -> W * bool;
  destroy : D -> W -> W;
  calls : W -> list (call D);
  calls_open : forall w,
    calls (open w).1 = calls w ++ [match (open w).2 with Some d => Opened d | None => OpenFailed end];
  calls_update : forall d state w, calls (update d state w).1 = calls w ++ [Updated d state];
  calls_destroy : forall d w, calls (destroy d w) = calls w ++ [Destroyed d];
}.

Section Source.
Context {W D : Type} `{GamepadHost W D}.

Record Capture := MkCapture {
  generation : Z;
  deadline : instant;
  device : D;
}.
(** [has_provider] is [provider.is_some()]; the provider itself is part of the host. *)
Record GamepadSource := MkSource {
  has_provider : bool;
  capture : option Capture;
  floor : Z;
  advertised : bool;
}.

(** [GamepadSource::new] *)
Definition new (provider : bool) : GamepadSource := MkSource provider None 0 false.
Definition set_capture (c : option Capture) (s : GamepadSource) : GamepadSource :=
  MkSource (has_provider s) c (floor s) (advertised s).
Definition set_floor (f : Z) (s : GamepadSource) : GamepadSource :=
  MkSource (has_provider s) (capture s) f (advertised s).

(** [GamepadSource::advertise] *)
Definition advertise (s : GamepadSource) : GamepadSource * option GamepadStatus :=
  if has_provider s && negb (advertised s)
  then (MkSource (has_provider s) (capture s) (floor s) true, Some Available)
  else (s, None).

(** [GamepadSource::deadline] *)
Definition source_deadline (s : GamepadSource) : option instant := deadline <$> capture s.

(** [GamepadSource::stop]: the device is neutralised, then dropped whatever that gave. *)
Definition stop (state : GamepadCaptureState) (s : GamepadSource) (w : W) :
    GamepadSource * W * option GamepadStatus :=
  match capture s with
  | None => (s, w, None)
  | Some c =>
      let w := (update (device c) neutral_gamepad w).1 in
      (set_capture None s, destroy (device c) w, Some (CaptureStatus (generation c) state))
  end.

(** [GamepadSource::expire] *)
Definition expire (now : instant) (s : GamepadSource) (w : W) : GamepadSource * W * option GamepadStatus :=
  if is_some_and (source_deadline s) (fun deadline => deadline <=? now) then stop TimedOut s w else (s, w, None).

(** The [Begin] arm of [accept]. *)
Definition accept_begin (g : Z) (now : instant) (s : GamepadSource) (w : W) :
    GamepadSource * W * option GamepadStatus :=
  if g <=? floor s then (s, w, None)
  else
    let '(s, w, _) := stop Stopped (set_floor g s) w in
    if has_provider s then
      match open w with
      | (w, Some d) =>
          (set_capture (Some (MkCapture g (now + WATCHDOG) d)) s, w, Some (CaptureStatus g CaptureActive))
      | (w, None) => (s, w, Some (CaptureStatus g DeviceFailed))
      end
    else (s, w, Some (CaptureStatus g Denied)).

(** The [State] arm of [accept]. *)
Definition accept_state (g : Z) (state : GamepadState) (now : instant) (s : GamepadSource) (w : W) :
    GamepadSource * W * option GamepadStatus :=
  match capture s with
  | Some c =>
      if generation c =? g then
        match update (device c) state w with
        | (w, true) => (set_capture (Some (MkCapture (generation c) (now + WATCHDOG) (device c))) s, w, None)
        | (w, false) => stop DeviceFailed s w
        end
      else (s, w, None)
  | None => (s, w, None)
  end.

(** The [End] arm of [accept]. *)
Definition accept_end (g : Z) (s : GamepadSource) (w : W) : GamepadSource * W * option GamepadStatus :=
  let s := set_floor (Z.max (floor s) g) s in
  if is_some_and (capture s) (fun c => generation c <=? g) then stop Stopped s w else (s, w, None).

(** [GamepadSource::accept] *)
Definition accept (request : GamepadRequest) (now : instant) (s : GamepadSource) (w : W) :
    GamepadSource * W * option GamepadStatus :=
  match request with
  | GamepadBegin g => accept_begin g now s w
  | GamepadStateRequest g state => accept_state g state now s w
  | GamepadEnd g => accept_end g s w
  end.

(** [Drop for GamepadSource] *)
Definition drop_source (s : GamepadSource) (w : W) : W := (stop Stopped s w).1.2.
End Source.
Arguments Capture D : clear implicits.
Arguments GamepadSource D : clear implicits.

(** ** The viewer's controller

    The mutex makes every operation one step; a sequence of operations is any
    interleaving of the threads that hold the controller. Wakes of the consumer carry no
    data and are not modelled. *)
Inductive GamepadMode :=
  | Unavailable
  | Ready
  | ModePending (generation : Z)
  | ModeActive (generation : Z)
  | Rejected (state : GamepadCaptureState)
  | Disconnected.
#[export] Instance GamepadMode_eq_dec : EqDecision GamepadMode.
Proof. solve_decision. Defined.

Record Pending := MkPending {
  mode : GamepadMode;
  last_generation : Z;
  queue : list GamepadRequest;
  end_ : option Z;
  last_sample : option (GamepadState * instant);
}.
Definition Pending_default : Pending := MkPending Unavailable 0 [] None None.

(** The generation a mode is about. *)
Definition mode_generation (m : GamepadMode) : option Z :=
  match m with ModePending g | ModeActive g => Some g | _ => None end.

(** [Pending::stop] *)
Definition stop_pending (p : Pending) : Pending :=
  match mode_generation (mode p) with
  | Some g => MkPending Ready (last_generation p) [] (Some g) None
  | None => MkPending (mode p) (last_generation p) [] (end_ p) None
  end.

(** [GamepadController::begin] *)
Definition begin_capture (p : Pending) : Pending * option Z :=
  match mode p with
  | Ready | Rejected _ =>
      match checked_add (last_generation p) 1 with
      | Some g => (MkPending (ModePending g) g (queue p ++ [GamepadBegin g]) (end_ p) (last_sample p), Some g)
      | None => (p, None)
      end
  | _ => (p, None)
  end.

(** A sample that repeats the last one too soon to renew. *)
Definition repeats (state : GamepadState) (now : instant) (last : option (GamepadState * instant)) : bool :=
  is_some_and last (fun '(old, sent) => bool_decide (old = state) && (since now sent <? RENEWAL)).

(** [GamepadController::sample] *)
Definition sample (g : Z) (state : GamepadState) (now : instant) (p : Pending) : Pending * bool :=
  if negb (bool_decide (mode p = ModeActive g)) then (p, false)
  else if repeats state now (last_sample p) then (p, true)
  else
    let request := GamepadStateRequest g state in
    let replaced := is_some_and (list.last (queue p)) (supersedes request) in
    if negb replaced && bool_decide (CAPACITY <= length (queue p))%nat then (stop_pending p, false)
    else
      let queue' := if replaced then <[pred (length (queue p)) := request]> (queue p)
                    else queue p ++ [request] in
      (MkPending (mode p) (last_generation p) queue' (end_ p) (Some (state, now)), true).

(** [GamepadController::pop] *)
Definition pop (p : Pending) : Pending * option GamepadRequest :=
  match end_ p with
  | Some g => (MkPending (mode p) (last_generation p) (queue p) None (last_sample p), Some (GamepadEnd g))
  | None =>
      match queue p with
      | [] => (p, None)
      | r :: rest => (MkPending (mode p) (last_generation p) rest None (last_sample p), Some r)
      end
  end.

Definition set_mode (m : GamepadMode) (p : Pending) : Pending :=
  MkPending m (last_generation p) (queue p) (end_ p) (last_sample p).

(** [GamepadController::observe] *)
Definition observe (status : GamepadStatus) (p : Pending) : Pending :=
  match status with
  | Available => if bool_decide (mode p = Unavailable) then set_mode Ready p else p
  | CaptureStatus g state =>
      if bool_decide (mode_generation (mode p) = Some g) then
        if bool_decide (state = CaptureActive) then set_mode (ModeActive g) p
        else set_mode (Rejected state) (stop_pending p)
      else p
  end.

(** [GamepadController::disconnect] *)
Definition disconnect (p : Pending) : Pending :=
  let p := stop_pending p in MkPending Disconnected (last_generation p) (queue p) None (last_sample p).

(** ** The source's invariant *)
Section SourceInvariant.
Context {W D : Type} `{GamepadHost W D}.

(** The host's calls in sessions: a device is opened only when no other is alive, and is
    set to neutral right before it is destroyed. The index is the device still alive. *)
Inductive sessions : option D -> list (call D) -> Prop :=
  | sessions_start : sessions None []
  | sessions_failed l : sessions None l -> sessions None (l ++ [OpenFailed])
  | sessions_open l d : sessions None l -> sessions (Some d) (l ++ [Opened d])
  | sessions_update l d state : sessions (Some d) l -> sessions (Some d) (l ++ [Updated d state])
  | sessions_close l d :
      sessions (Some d) l -> sessions None (l ++ [Updated d neutral_gamepad; Destroyed d]).

Definition Source_ok (s : GamepadSource D) (w : W) : Prop :=
  sessions (device <$> capture s) (calls w) /\ forall c, capture s = Some c -> generation c = floor s.

Lemma stop_spec state s w :
  Source_ok s w ->
  let '(s', w', _) := stop state s w in
  capture s' = None /\ floor s' = floor s /\ has_provider s' = has_provider s /\ sessions None (calls w').
Proof.
  intros [Hs _]. unfold stop. destruct (capture s) as [c|] eqn:Hc; [|by rewrite Hc in *].
  repeat split. rewrite calls_destroy, calls_update, <- app_assoc. by apply sessions_close.
Qed.

Lemma stop_ok state s w : Source_ok s w -> let '(s', w', _) := stop state s w in Source_ok s' w'.
Proof.
  intros Hok. pose proof (stop_spec state s w Hok) as Hs. destruct (stop state s w) as [[s' w'] r].
  destruct Hs as (Hc & _ & _ & Hl). split; rewrite Hc; [done|]. by intros c.
Qed.

Lemma accept_begin_ok g now s w : Source_ok s w -> let '(s', w', _) := accept_begin g now s w in Source_ok s' w'.
Proof.
  intros Hok. unfold accept_begin. destruct (Z.leb_spec g (floor s)) as [Hle|Hlt]; [done|].
  assert (Hstop : let '(s1, w1, _) := stop Stopped (set_floor g s) w in
            capture s1 = None /\ floor s1 = g /\ has_provider s1 = has_provider s /\ sessions None (calls w1)).
  { unfold stop. cbn. destruct Hok as [Hl _]. destruct (capture s) as [c|] eqn:Hc; [|done].
    repeat split. rewrite calls_destroy, calls_update, <- app_assoc. by apply sessions_close. }
  destruct (stop Stopped (set_floor g s) w) as [[s1 w1] r]. destruct Hstop as (Hc & Hf & _ & Hl).
  destruct (has_provider s1); [|split; rewrite Hc; [done|by intros c]].
  pose proof (calls_open w1) as Ho. destruct (open w1) as [w2 [d|]]; cbn in Ho.
  - split; cbn; [rewrite Ho; by apply sessions_open|]. by intros c [= <-].
  - split; rewrite Hc; [rewrite Ho; by apply sessions_failed|by intros c].
Qed.

Lemma accept_state_ok g state now s w :
  Source_ok s w -> let '(s', w', _) := accept_state g state now s w in Source_ok s' w'.
Proof.
  intros Hok. pose proof Hok as [Hl Hg]. unfold accept_state.
  destruct (capture s) as [c|] eqn:Hc; [|done]. destruct (generation c =? g); [|done].
  pose proof (calls_update (device c) state w) as Hu. destruct (update (device c) state w) as [w1 [|]]; cbn in Hu.
  - split; cbn; [rewrite Hu; by apply sessions_update|]. intros c' [= <-]. cbn. by apply Hg.
  - apply stop_ok. split; rewrite Hc; [rewrite Hu; by apply sessions_update|done].
Qed.

Lemma accept_end_ok g s w : Source_ok s w -> let '(s', w', _) := accept_end g s w in Source_ok s' w'.
Proof.
  intros [Hl Hg]. unfold accept_end. cbn. destruct (capture s) as [c|] eqn:Hc; cbn.
  - destruct (Z.leb_spec (generation c) g) as [Hle|Hlt].
    + unfold stop. cbn. rewrite Hc. split; cbn; [|done].
      rewrite calls_destroy, calls_update, <- app_assoc. by apply sessions_close.
    + split; cbn; rewrite Hc; [done|]. intros c' [= <-]. specialize (Hg c eq_refl). lia.
  - split; cbn; rewrite Hc; done.
Qed.

Lemma accept_ok r now s w : Source_ok s w -> let '(s', w', _) := accept r now s w in Source_ok s' w'.
Proof. destruct r; [apply accept_begin_ok|apply accept_state_ok|apply accept_end_ok]. Qed.

Lemma expire_ok now s w : Source_ok s w -> let '(s', w', _) := expire now s w in Source_ok s' w'.
Proof. intros Hok. unfold expire. destruct (is_some_and _ _); [by apply stop_ok|done]. Qed.

(** ** Runs of the source *)
Inductive source_op :=
  | Accept (request : GamepadRequest) (now : instant)
  | Expire (now : instant)
  | Stop (state : GamepadCaptureState)
  | Advertise.

Definition source_step (c : GamepadSource D * W) (op : source_op) : GamepadSource D * W :=
  let '(s, w) := c in
  match op with
  | Accept r now => (accept r now s w).1
  | Expire now => (expire now s w).1
  | Stop state => (stop state s w).1
  | Advertise => ((advertise s).1, w)
  end.
Definition source_run (ops : list source_op) (provider : bool) (w : W) : GamepadSource D * W :=
  fold_left source_step ops (new (D:=D) provider, w).

Lemma source_step_ok c op : Source_ok c.1 c.2 -> Source_ok (source_step c op).1 (source_step c op).2.
Proof.
  destruct c as [s w]. intros Hok. cbn in Hok. destruct op as [r now|now|state|]; cbn.
  - pose proof (accept_ok r now s w Hok) as Ha. by destruct (accept r now s w) as [[s' w'] ?].
  - pose proof (expire_ok now s w Hok) as Ha. by destruct (expire now s w) as [[s' w'] ?].
  - pose proof (stop_ok state s w Hok) as Ha. by destruct (stop state s w) as [[s' w'] ?].
  - unfold advertise. by destruct (has_provider s && _).
Qed.

Lemma source_run_ok ops provider w :
  calls w = [] -> Source_ok (source_run ops provider w).1 (source_run ops provider w).2.
Proof.
  intros Hw. unfold source_run. assert (H0 : Source_ok (new (D:=D) provider, w).1 (new (D:=D) provider, w).2).
  { split; cbn; [rewrite Hw; apply sessions_start|done]. }
  revert H0. generalize (new provider : GamepadSource D, w). induction ops as [|op ops IH]; intros c Hc; cbn; [done|].
  by apply IH, source_step_ok.
Qed.

(** A live capture was last fed at a time its deadline tells. *)
Definition fed (ops : list source_op) (s : GamepadSource D) : Prop :=
  forall c, capture s = Some c ->
    exists r at_, (Accept r at_ ∈ ops) /\ request_generation r = generation c /\ deadline c = at_ + WATCHDOG.

Lemma stop_capture state s w : capture (stop state s w).1.1 = None.
Proof. unfold stop. by destruct (capture s) eqn:Hc. Qed.

Lemma source_step_fed ops s w op : fed ops s -> fed (ops ++ [op]) (source_step (s, w) op).1.
Proof.
  intros Hf. assert (Hkeep : fed (ops ++ [op]) s).
  { intros c Hc. destruct (Hf c Hc) as (r & at_ & Hin & Hr). exists r, at_. split; [|done]. set_solver. }
  assert (Hstop : forall state s1 w1, fed (ops ++ [op]) (stop state s1 w1).1.1).
  { intros state s1 w1 c. by rewrite stop_capture. }
  destruct op as [r now|now|state|]; cbn.
  - destruct r as [g|g state|g]; cbn.
    + unfold accept_begin. destruct (g <=? floor s); [done|].
      pose proof (stop_capture Stopped (set_floor g s) w) as Hn.
      destruct (stop Stopped (set_floor g s) w) as [[s1 w1] ?]. cbn in Hn.
      destruct (has_provider s1); [|intros c; cbn; by rewrite Hn].
      destruct (open w1) as [w2 [d|]]; intros c; cbn; [|by rewrite Hn].
      intros [= <-]. exists (GamepadBegin g), now. repeat split. set_solver.
    + unfold accept_state. destruct (capture s) as [c|] eqn:Hc; [|done].
      destruct (Z.eqb_spec (generation c) g) as [Hg|]; [|done].
      destruct (update (device c) state w) as [w1 [|]]; [|apply Hstop].
      intros c' [= <-]. exists (GamepadStateRequest g state), now. repeat split; [set_solver|]. by cbn.
    + unfold accept_end. destruct (is_some_and _ _); [apply Hstop|done].
  - unfold expire. destruct (is_some_and _ _); [apply Hstop|done].
  - apply Hstop.
  - unfold advertise. by destruct (has_provider s && _).
Qed.

Lemma source_run_fed ops provider w : fed ops (source_run ops provider w).1.
Proof.
  induction ops as [|op ops IH] using rev_ind; [by intros c|].
  unfold source_run in *. rewrite fold_left_app. cbn.
  destruct (fold_left source_step ops (new (D:=D) provider, w)) as [s w']. by apply source_step_fed.
Qed.
End SourceInvariant.

(** ** Requests that end a capture

    A capture of generation [g] will end once the source sees an [End] of [g] or a later
    one, or a [Begin] of a later one. *)
Definition covers (g : Z) (r : GamepadRequest) : Prop :=
  match r with
  | GamepadEnd e => g <= e
  | GamepadBegin b => g < b
  | GamepadStateRequest _ _ => False
  end.
Definition pledged (m : GamepadMode) (reqs : list GamepadRequest) (g : Z) : Prop :=
  mode_generation m = Some g \/ Exists (covers g) reqs.

(** Every [Begin] on its way is the controller's current one or is followed by a request
    that ends it. *)
Fixpoint pledges (m : GamepadMode) (reqs : list GamepadRequest) : Prop :=
  match reqs with
  | [] => True
  | GamepadBegin g :: rest => pledged m rest g /\ pledges m rest
  | _ :: rest => pledges m rest
  end.

Lemma pledged_app m l k g : pledged m (l ++ k) g <-> Exists (covers g) l \/ pledged m k g.
Proof. unfold pledged. rewrite Exists_app. tauto. Qed.
Lemma pledged_cons m r l g : pledged m (r :: l) g <-> covers g r \/ pledged m l g.
Proof. unfold pledged. rewrite Exists_cons. tauto. Qed.

Lemma pledges_change m out m' out' l :
  (forall g, pledged m out g -> pledged m' out' g) -> pledges m' out' ->
  pledges m (l ++ out) -> pledges m' (l ++ out').
Proof.
  intros Ht Hout. induction l as [|r l IH]; cbn; [done|]. destruct r as [g|g state|g]; [|exact IH..].
  rewrite !pledged_app. intros [[|] ?]; auto.
Qed.

(** What the controller still has to hand out, in order. *)
Definition outgoing (p : Pending) : list GamepadRequest :=
  (match end_ p with Some g => [GamepadEnd g] | None => [] end) ++ queue p.

Definition is_end (r : GamepadRequest) : bool := match r with GamepadEnd _ => true | _ => false end.

Record Pending_ok (p : Pending) : Prop := {
  ok_length : (length (queue p) <= CAPACITY)%nat;
  ok_mode : forall g, mode_generation (mode p) = Some g -> g = last_generation p;
  ok_end : forall g, end_ p = Some g -> g <= last_generation p;
  ok_queue : Forall (fun r => is_end r = false /\ mode_generation (mode p) = Some (request_generation r)) (queue p);
}.

Lemma Pending_default_ok : Pending_ok Pending_default.
Proof. split; cbn; [unfold CAPACITY; lia|done|done|constructor]. Qed.

(** Everything still to be handed out is about generations up to the last. *)
Lemma outgoing_covers p g : Pending_ok p -> Exists (covers g) (outgoing p) -> g <= last_generation p.
Proof.
  intros Hp. unfold outgoing. rewrite Exists_app. intros [He|Hq].
  - destruct (end_ p) as [e|] eqn:Hend; [|by apply Exists_nil in He].
    apply Exists_cons in He as [He|He%Exists_nil]; [|done]. cbn in He. apply (ok_end p Hp) in Hend. lia.
  - apply list.Exists_exists in Hq as (r & Hin & Hc). pose proof (ok_queue p Hp) as Hq.
    rewrite list.Forall_forall in Hq. destruct (Hq r Hin) as [Hend Hg]. apply (ok_mode p Hp) in Hg.
    destruct r; cbn in *; [lia|done|done].
Qed.

Lemma idle_queue p : Pending_ok p -> mode_generation (mode p) = None -> queue p = [].
Proof.
  intros Hp Hm. pose proof (ok_queue p Hp) as Hq. destruct (queue p) as [|r l]; [done|].
  apply list.Forall_cons in Hq as [[_ Hr] _]. congruence.
Qed.

(** [p'] keeps every pledge of [p] and adds no [Begin] without one. *)
Record handover (p p' : Pending) : Prop := {
  handover_ok : Pending_ok p';
  handover_pledged : forall g, pledged (mode p) (outgoing p) g -> pledged (mode p') (outgoing p') g;
  handover_pledges : pledges (mode p') (outgoing p');
}.

Lemma current_pledges m l :
  Forall (fun r => is_end r = false /\ mode_generation m = Some (request_generation r)) l -> pledges m l.
Proof.
  induction 1 as [|r l [He Hr] Hl IH]; [done|]. destruct r; cbn in *; [|done|done]. split; [by left|done].
Qed.

Lemma outgoing_pledges p : Pending_ok p -> pledges (mode p) (outgoing p).
Proof.
  intros Hp. unfold outgoing. pose proof (current_pledges _ _ (ok_queue p Hp)).
  destruct (end_ p); cbn; done.
Qed.

Lemma handover_refl p : Pending_ok p -> handover p p.
Proof. intros Hp. split; [done|done|by apply outgoing_pledges]. Qed.

Lemma handover_stop p : Pending_ok p -> handover p (stop_pending p).
Proof.
  intros Hp. unfold stop_pending. destruct (mode_generation (mode p)) as [g|] eqn:Hm.
  - pose proof (ok_mode p Hp g Hm) as ->. split; [|intros g' [Hg|Hg]|done].
    + split; cbn; [unfold CAPACITY; lia|done|intros ? [= <-]; lia|constructor].
    + rewrite Hm in Hg. injection Hg as <-. right. by constructor; cbn.
    + right. constructor. cbn. by apply outgoing_covers.
  - pose proof (idle_queue p Hp Hm) as Hq. split.
    + split; cbn; [unfold CAPACITY; lia|apply (ok_mode p Hp)|apply (ok_end p Hp)|constructor].
    + unfold outgoing. cbn. by rewrite Hq.
    + unfold outgoing. cbn. by destruct (end_ p).
Qed.

Lemma handover_mode p m :
  Pending_ok p -> mode_generation m = mode_generation (mode p) -> handover p (set_mode m p).
Proof.
  intros Hp Hm. assert (Hok : Pending_ok (set_mode m p)).
  { split; cbn; rewrite ?Hm; apply Hp. }
  split; [done| |by apply outgoing_pledges]. intros g. unfold pledged. cbn. by rewrite Hm.
Qed.

Lemma handover_trans p q r : handover p q -> handover q r -> handover p r.
Proof. intros [_ H1 _] [H2 H3 H4]. split; auto. Qed.

Lemma handover_begin p : Pending_ok p -> handover p (begin_capture p).1.
Proof.
  intros Hp. unfold begin_capture.
  assert (Hgo : mode_generation (mode p) = None ->
    handover p (MkPending (ModePending (last_generation p + 1)) (last_generation p + 1)
      (queue p ++ [GamepadBegin (last_generation p + 1)]) (end_ p) (last_sample p))).
  { intros Hm. pose proof (idle_queue p Hp Hm) as Hq. rewrite Hq. split.
    - split; cbn; [unfold CAPACITY; lia|by intros ? [= <-]| |by repeat constructor].
      intros g Hg%(ok_end p Hp). lia.
    - intros g [Hg|Hg]; [congruence|]. right. unfold outgoing in *. cbn. rewrite Hq, app_nil_r in Hg.
      apply Exists_app. by left.
    - unfold outgoing. cbn. destruct (end_ p); cbn; (split; [by left|done]). }
  destruct (mode p) eqn:Hm; try (by apply handover_refl);
    (destruct (checked_add (last_generation p) 1) as [g|] eqn:Hg; [|by apply handover_refl]);
    apply checked_Some in Hg as [-> _]; by apply Hgo.
Qed.

(** The queue after a state request, as [sample] leaves it. *)
Lemma sample_queue request l :
  is_some_and (list.last l) (supersedes request) = true ->
  exists old generation state, l = old ++ [GamepadStateRequest generation state] /\
    <[pred (length l) := request]> l = old ++ [request].
Proof.
  intros (r & Hl & Hs)%is_some_and_true. apply last_Some in Hl as [old ->].
  destruct r as [|generation state|]; [by destruct request| |by destruct request].
  exists old, generation, state. split; [done|].
  rewrite length_app. cbn. replace (pred (length old + 1)) with (length old + 0)%nat by lia.
  by rewrite insert_app_r.
Qed.

Lemma state_covers g generation state l k :
  Exists (covers g) (l ++ GamepadStateRequest generation state :: k) <-> Exists (covers g) (l ++ k).
Proof. rewrite !Exists_app, Exists_cons. cbn. tauto. Qed.

Lemma handover_queue p l last :
  (length l <= CAPACITY)%nat ->
  Forall (fun r => is_end r = false /\ mode_generation (mode p) = Some (request_generation r)) l ->
  (forall g, Exists (covers g) (queue p) -> Exists (covers g) l) -> Pending_ok p ->
  handover p (MkPending (mode p) (last_generation p) l (end_ p) last).
Proof.
  intros Hl Hf Hc Hp. assert (Hok : Pending_ok (MkPending (mode p) (last_generation p) l (end_ p) last)).
  { split; cbn; [done|apply Hp..|done]. }
  split; [done| |by apply outgoing_pledges]. intros g. unfold pledged, outgoing. cbn. rewrite !Exists_app. naive_solver.
Qed.

Lemma handover_sample g state now p : Pending_ok p -> handover p (sample g state now p).1.
Proof.
  intros Hp. unfold sample. destruct (bool_decide (mode p = ModeActive g)) eqn:Hm; cbn; [|by apply handover_refl].
  apply bool_decide_eq_true in Hm. destruct (repeats state now (last_sample p)); [by apply handover_refl|].
  destruct (is_some_and (list.last (queue p)) _) eqn:Hr; cbn.
  - destruct (sample_queue _ _ Hr) as (old & g' & state' & Hq & ->). apply handover_queue; [| | |done].
    + pose proof (ok_length p Hp) as Hl. rewrite Hq, length_app in Hl. rewrite length_app. done.
    + pose proof (ok_queue p Hp) as Hf. rewrite Hq in Hf. apply Forall_app in Hf as [Hf _].
      apply Forall_app. split; [done|]. constructor; [|done]. by rewrite Hm.
    + intros x. by rewrite Hq, !state_covers.
  - case_bool_decide as Hlen; [by apply handover_stop|]. apply handover_queue; [| | |done].
    + rewrite length_app. cbn. lia.
    + apply Forall_app. split; [apply Hp|]. constructor; [|done]. by rewrite Hm.
    + intros x Hx. apply Exists_app. by left.
Qed.

Lemma handover_observe status p : Pending_ok p -> handover p (observe status p).
Proof.
  intros Hp. destruct status as [|g state]; cbn.
  - case_bool_decide as Hm; [|by apply handover_refl]. apply handover_mode; [done|by rewrite Hm].
  - case_bool_decide as Hm; [|by apply handover_refl]. case_bool_decide.
    + by apply handover_mode.
    + pose proof (handover_stop p Hp) as Hs. eapply handover_trans; [exact Hs|].
      apply handover_mode; [apply Hs|]. unfold stop_pending. by rewrite Hm.
Qed.

Lemma pop_outgoing p p' r : pop p = (p', Some r) -> Pending_ok p -> Pending_ok p' /\ mode p' = mode p /\ outgoing p = r :: outgoing p'.
Proof.
  intros Hpop Hp. unfold pop in Hpop. unfold outgoing. destruct (end_ p) as [e|] eqn:He.
  - injection Hpop as <- <-. split; [split; cbn; [apply Hp|apply Hp|done|apply Hp]|done].
  - destruct (queue p) as [|r0 rest] eqn:Hq; [done|]. injection Hpop as <- <-.
    pose proof (ok_length p Hp) as Hl. pose proof (ok_queue p Hp) as Hf. rewrite Hq in Hl, Hf.
    apply list.Forall_cons in Hf as [_ Hf]. split; [|done]. split; cbn; [cbn in Hl; lia|apply Hp|done|done].
Qed.

(** ** Controller, channel and source together *)
Section Link.
Context {W D : Type} `{GamepadHost W D}.

Record link := MkLink {
  controller : Pending;
  in_flight : list GamepadRequest;
  source : GamepadSource D;
  world : W;
}.

(** Every step of a live connection: the viewer's threads and the arrival of any status
    change the controller, the relay pops requests into the ordered channel, the channel
    delivers them, and the source times out or stops on its own. *)
Inductive link_step : link -> link -> Prop :=
  | link_begin p l s w : link_step (MkLink p l s w) (MkLink (begin_capture p).1 l s w)
  | link_sample p l s w g state now : link_step (MkLink p l s w) (MkLink (sample g state now p).1 l s w)
  | link_stop p l s w : link_step (MkLink p l s w) (MkLink (stop_pending p) l s w)
  | link_observe p l s w status : link_step (MkLink p l s w) (MkLink (observe status p) l s w)
  | link_pop p l s w p' r : pop p = (p', Some r) -> link_step (MkLink p l s w) (MkLink p' (l ++ [r]) s w)
  | link_deliver p r l s w now :
      link_step (MkLink p (r :: l) s w) (MkLink p l (accept r now s w).1.1 (accept r now s w).1.2)
  | link_expire p l s w now : link_step (MkLink p l s w) (MkLink p l (expire now s w).1.1 (expire now s w).1.2)
  | link_source_stop p l s w state :
      link_step (MkLink p l s w) (MkLink p l (stop state s w).1.1 (stop state s w).1.2).

(** What the controller's mode and the requests on their way promise about the source. *)
Definition promise (m : GamepadMode) (reqs : list GamepadRequest) (s : GamepadSource D) : Prop :=
  pledges m reqs /\ (forall c, capture s = Some c -> generation c = floor s /\ pledged m reqs (generation c)).

Record Link_ok (c : link) : Prop := {
  link_pending : Pending_ok (controller c);
  link_promise : promise (mode (controller c)) (in_flight c ++ outgoing (controller c)) (source c);
}.

Lemma promise_none m reqs s : pledges m reqs -> capture s = None -> promise m reqs s.
Proof. intros Hp Hn. split; [done|]. intros c. by rewrite Hn. Qed.

Lemma promise_begin m g rest now s (w : W) :
  promise m (GamepadBegin g :: rest) s -> promise m rest (accept_begin g now s w).1.1.
Proof.
  intros [[Hg Hr] Hc]. unfold accept_begin. destruct (Z.leb_spec g (floor s)) as [Hle|Hlt].
  - split; [done|]. intros c Hcap. destruct (Hc c Hcap) as [Hf Hp]. split; [done|].
    apply pledged_cons in Hp as [Hp|Hp]; [|done]. cbn in Hp. lia.
  - pose proof (stop_capture Stopped (set_floor g s) w) as Hn.
    assert (Hfl : floor (stop Stopped (set_floor g s) w).1.1 = g).
    { unfold stop. cbn. by destruct (capture s). }
    destruct (stop Stopped (set_floor g s) w) as [[s1 w1] ?]. cbn in Hn, Hfl.
    destruct (has_provider s1); [|by apply promise_none].
    destruct (open w1) as [w2 [d|]]; cbn; [|by apply promise_none].
    split; [done|]. intros c [= <-]. by cbn.
Qed.

Lemma promise_accept m r rest now s (w : W) :
  promise m (r :: rest) s -> promise m rest (accept r now s w).1.1.
Proof.
  intros Hp. destruct r as [g|g state|g]; cbn [accept]; [by apply promise_begin|..].
  - destruct Hp as [Hr Hc]. unfold accept_state. destruct (capture s) as [c|] eqn:Hcap.
    + destruct (Hc c eq_refl) as [Hf Hg]. apply pledged_cons in Hg as [[]|Hg].
      destruct (generation c =? g); [|split; [done|by intros c' [= <-]%(eq_trans (eq_sym Hcap))]].
      destruct (update (device c) state w) as [w1 [|]]; cbn.
      * split; [done|]. by intros c' [= <-].
      * apply promise_none; [done|apply stop_capture].
    + by apply promise_none.
  - destruct Hp as [Hr Hc]. unfold accept_end. cbn. destruct (capture s) as [c|] eqn:Hcap; cbn.
    + destruct (Hc c eq_refl) as [Hf Hg]. destruct (Z.leb_spec (generation c) g) as [Hle|Hlt].
      * apply promise_none; [done|apply stop_capture].
      * split; [done|]. intros c' Hc'. cbn in Hc'. rewrite Hcap in Hc'. injection Hc' as <-. cbn.
        split; [lia|]. apply pledged_cons in Hg as [Hg|Hg]; [cbn in Hg; lia|done].
    + by apply promise_none.
Qed.

Lemma promise_expire m reqs now s (w : W) : promise m reqs s -> promise m reqs (expire now s w).1.1.
Proof.
  intros Hp. unfold expire. destruct (is_some_and _ _); [|done]. apply promise_none; [apply Hp|apply stop_capture].
Qed.

Lemma handover_link p p' l s w : handover p p' -> Link_ok (MkLink p l s w) -> Link_ok (MkLink p' l s w).
Proof.
  intros [Hok Hpl Hps] [Hp [Hr Hc]]. cbn in *. split; cbn; [done|]. split.
  - by eapply pledges_change.
  - intros c Hcap. destruct (Hc c Hcap) as [Hf Hg]. split; [done|]. rewrite pledged_app in *. naive_solver.
Qed.

Lemma link_step_ok c c' : Link_ok c -> link_step c c' -> Link_ok c'.
Proof.
  intros Hok Hstep. pose proof Hok as [Hp Hpr]. destruct Hstep; cbn in *.
  - eapply handover_link; [|exact Hok]. by apply handover_begin.
  - eapply handover_link; [|exact Hok]. by apply handover_sample.
  - eapply handover_link; [|exact Hok]. by apply handover_stop.
  - eapply handover_link; [|exact Hok]. by apply handover_observe.
  - destruct (pop_outgoing p p' r) as (Hp' & Hm & Ho); [done|done|].
    split; cbn; [done|]. rewrite Hm, <- app_assoc. cbn. by rewrite <- Ho.
  - split; cbn; [done|]. by apply promise_accept.
  - split; cbn; [done|]. by apply promise_expire.
  - split; cbn; [done|]. apply promise_none; [apply Hpr|apply stop_capture].
Qed.

Definition link_start (provider : bool) (w : W) : link := MkLink Pending_default [] (new provider) w.

Lemma link_reachable_ok provider w c : rtc link_step (link_start provider w) c -> Link_ok c.
Proof.
  assert (H0 : Link_ok (link_start provider w)).
  { split; cbn; [apply Pending_default_ok|]. by apply promise_none. }
  intros Hr. revert H0. induction Hr as [|x y z Hxy _ IH]; [done|]. eauto using link_step_ok.
Qed.

(** The source after it accepted requests, each at its time. *)
Definition accept_all (reqs : list (GamepadRequest * instant)) (s : GamepadSource D) (w : W) :
    GamepadSource D * W :=
  fold_left (fun c '(r, now) => (accept r now c.1 c.2).1) reqs (s, w).

Lemma promise_accept_all m reqs rest s w :
  promise m (reqs.*1 ++ rest) s -> promise m rest (accept_all reqs s w).1.
Proof.
  unfold accept_all. revert s w. induction reqs as [|[r now] reqs IH]; intros s w Hp; cbn; [done|].
  cbn in Hp. apply (promise_accept m r _ now s w) in Hp. destruct (accept r now s w) as [[s' w'] ?]. by apply IH.
Qed.
End Link.
Arguments link W D : clear implicits.

(** ** A concrete host

    Devices are numbered; a list of booleans says which calls succeed. *)
Record Host := MkHost { script : list bool; host_calls : list (call nat); next_device : nat }.
Definition host_open (h : Host) : Host * option nat :=
  match script h with
  | false :: rest => (MkHost rest (host_calls h ++ [OpenFailed]) (next_device h), None)
  | l => (MkHost (tail l) (host_calls h ++ [Opened (next_device h)]) (S (next_device h)), Some (next_device h))
  end.
Definition host_update (d : nat) (state : GamepadState) (h : Host) : Host * bool :=
  (MkHost (tail (script h)) (host_calls h ++ [Updated d state]) (next_device h), default true (head (script h))).
Definition host_destroy (d : nat) (h : Host) : Host :=
  MkHost (script h) (host_calls h ++ [Destroyed d]) (next_device h).

#[export] Instance scripted_host : GamepadHost Host nat.
Proof.
  refine {| open := host_open; update := host_update; destroy := host_destroy; calls := host_calls |}.
  - by intros [[|[|] l] cs n].
  - done.
  - done.
Defined.

(** ** Properties *)

(** Whatever requests, timeouts and stops arrive and whether the
    host's calls succeed or fail, the source opens a device only when none is alive, and
    sets every device to neutral right before it destroys it; dropping the source leaves
    no device alive. *)
Theorem gamepad_sessions (W D : Type) (host : GamepadHost W D) (ops : list source_op) (provider : bool) (w : W) :
  calls w = [] ->
  let '(s, w') := source_run ops provider w in
  sessions (device <$> capture s) (calls w') /\ sessions None (calls (drop_source s w')).
Proof.
  intros Hw. pose proof (source_run_ok ops provider w Hw) as Hok.
  destruct (source_run ops provider w) as [s w']. cbn in Hok. split; [apply Hok|].
  pose proof (stop_spec Stopped s w' Hok) as Hs. unfold drop_source.
  destruct (stop Stopped s w') as [[s1 w1] ?]. apply Hs.
Qed.

(** A device that is still captured right after the source checked
    its deadline at some time was begun or fed by a request of its own generation less
    than 750 ms before. *)
Theorem gamepad_watchdog (W D : Type) (host : GamepadHost W D) (ops : list source_op) (provider : bool) (w : W)
    (now : instant) (c : Capture D) :
  capture (source_run (ops ++ [Expire now]) provider w).1 = Some c ->
  exists r at_, (Accept r at_ ∈ ops) /\ request_generation r = generation c /\ now < at_ + from_millis 750.
Proof.
  unfold source_run. rewrite fold_left_app. cbn. pose proof (source_run_fed ops provider w) as Hfed.
  unfold source_run in Hfed. destruct (fold_left source_step ops (new provider, w)) as [s w']. cbn in *.
  unfold expire. destruct (is_some_and _ _) eqn:He; [by rewrite stop_capture|]. cbn. intros Hc.
  destruct (Hfed c Hc) as (r & at_ & Hin & Hg & Hd). exists r, at_. repeat split; [done|done|].
  unfold source_deadline in He. rewrite Hc in He. cbn in He. apply Z.leb_gt in He. rewrite Hd in He. exact He.
Qed.

(** C24 (gamepad-release). Over any interleaving of the viewer's threads, the channel and
    the source, with any statuses arriving: the request queue never exceeds its capacity,
    and once the viewer stops, the source has released its device as soon as it accepted
    the requests then on their way, in whatever states the earlier ones left it. *)
Theorem gamepad_release (W D : Type) (host : GamepadHost W D) (provider : bool) (w : W) (c : link W D)
    (reqs : list (GamepadRequest * instant)) :
  rtc link_step (link_start provider w) c ->
  reqs.*1 = in_flight c ++ outgoing (stop_pending (controller c)) ->
  (length (queue (controller c)) <= 64)%nat /\ capture (accept_all reqs (source c) (world c)).1 = None.
Proof.
  intros Hr%link_reachable_ok Hreqs. split; [apply Hr|].
  destruct c as [p l s w']. cbn in *. pose proof (handover_stop p (link_pending _ Hr)) as Hh.
  pose proof (handover_link _ _ _ _ _ Hh Hr) as [_ Hp]. cbn in Hp. rewrite <- Hreqs, <- (app_nil_r reqs.*1) in Hp.
  apply (promise_accept_all _ reqs [] s w') in Hp as [_ Hc].
  destruct (capture (accept_all reqs s w').1) as [cap|] eqn:Hcap; [|done].
  destruct (Hc cap eq_refl) as [_ [Hm|He%Exists_nil]]; [|done]. exfalso. revert Hm.
  unfold stop_pending. destruct (mode_generation (mode p)) eqn:Hg; cbn; [done|]. by rewrite Hg.
Qed.

(** ** Concrete inputs *)
Definition sample_host : Host := MkHost [] [] 0.
Definition sample_ops : list source_op :=
  [Accept (GamepadBegin 1) 0; Accept (GamepadStateRequest 1 neutral_gamepad) (from_millis 100)].

Example source_sample :
  (source_run (sample_ops ++ [Expire (from_millis 850)]) true sample_host).2 =
  MkHost [] [Opened 0%nat; Updated 0%nat neutral_gamepad; Updated 0%nat neutral_gamepad; Destroyed 0%nat] 1.
Proof. vm_compute. reflexivity. Qed.

Lemma gamepad_sessions_witness :
  sessions (Some 0%nat) [Opened 0%nat; Updated 0%nat neutral_gamepad] /\
  sessions None [Opened 0%nat; Updated 0%nat neutral_gamepad; Updated 0%nat neutral_gamepad; Destroyed 0%nat].
Proof. exact (gamepad_sessions Host nat scripted_host sample_ops true sample_host eq_refl). Defined.

Lemma gamepad_watchdog_witness :
  exists r at_, (Accept r at_ ∈ sample_ops) /\ request_generation r = 1 /\ from_millis 849 < at_ + from_millis 750.
Proof.
  exact (gamepad_watchdog Host nat scripted_host sample_ops true sample_host (from_millis 849)
    (MkCapture 1 (from_millis 850) 0%nat) eq_refl).
Defined.

Lemma gamepad_release_witness :
  let viewer := observe (CaptureStatus 1 CaptureActive) (pop (begin_capture (observe Available Pending_default)).1).1 in
  let source := (accept (GamepadBegin 1) 0 (new true) sample_host).1 in
  capture source.1 = Some (MkCapture 1 WATCHDOG 0%nat) /\
  capture (accept_all [(GamepadEnd 1, from_millis 5)] source.1 source.2).1 = None.
Proof.
  intros viewer source. split; [reflexivity|].
  refine (proj2 (gamepad_release Host nat scripted_host true sample_host
    (MkLink viewer [] source.1 source.2) [(GamepadEnd 1, from_millis 5)] _ eq_refl)).
  unfold link_start. eapply rtc_l; [apply (link_observe _ _ _ _ Available)|].
  eapply rtc_l; [apply link_begin|]. eapply rtc_l; [by apply link_pop|].
  eapply rtc_l; [apply (link_deliver _ _ _ _ _ 0)|].
  eapply rtc_l; [apply (link_observe _ _ _ _ (CaptureStatus 1 CaptureActive))|]. apply rtc_refl.
Defined.
