(* ===== verification/InputOutbox.v ===== *)
(** * Outgoing input ([weld-hoist-core/src/input.rs])

    Producers push records into a bounded queue; one writer takes them. A pointer or touch
    motion, or a gamepad state, may replace a compatible record at the tail; every other
    record keeps its place. *)

From S2P Require Import Prelude OrdMap Ids Surface Input.

Definition QUEUE_CAPACITY : nat := 256.

Record QueuedRecord := MkQueued { packet : DestinationEnvelope; enqueued_at : instant }.

Record InputObservations := MkInputObservations {
  motions_received : Z;
  dequeued : Z;
  writes_completed : Z;
  motions_written : Z;
  framed_bytes : Z;
  queue_high_water : nat;
  retained_wait_max : duration;
  write_wall_max : duration;
}.
Record State := MkState {
  closed : bool;
  records : list QueuedRecord;
  received : list Z;
  coalesced : Z;
  gamepad_coalesced : Z;
  observations : InputObservations;
  started : instant;
  last_report : instant;
}.
Definition State_default (now : instant) : State :=
  MkState false [] (replicate 6 0) 0 0 (MkInputObservations 0 0 0 0 0 0 0 0) now now.

(** ** Coalescing *)

(** [is_motion] *)
Definition is_motion (p : DestinationEnvelope) : bool :=
  match message p with
  | Input input => match event input with PointerMotion _ _ | Touch (TouchMotion _ _) => true | _ => false end
  | _ => false
  end.

Definition is_pointer_target (t : ClientInputTarget) : bool :=
  match t with PointerTarget _ _ => true | _ => false end.
Definition is_touch_target (t : ClientInputTarget) : bool :=
  match t with TouchTarget _ _ => true | _ => false end.

(** The part of [coalesce_motion] on two inputs for the same target: the event that
    replaces both. *)
Definition coalesce_event (target : ClientInputTarget) (previous next : InputEventKind) : option InputEventKind :=
  match previous, next with
  | Touch (TouchMotion old _), Touch (TouchMotion new _) =>
      if is_touch_target target && bool_decide (old = new) then Some next else None
  | PointerMotion _ older, PointerMotion position newer =>
      if is_pointer_target target
      then (fun merged => PointerMotion position merged) <$> coalesce newer older
      else None
  | _, _ => None
  end.

(** [coalesce_motion]: the next record after the in-place update, when it coalesces. *)
Definition coalesce_motion (previous next : DestinationEnvelope) : option DestinationEnvelope :=
  match message previous, message next with
  | Input previous_input, Input next_input =>
      if bool_decide (session previous = session next)
         && bool_decide (target previous_input = target next_input)
      then
        (fun e => MkDestinationEnvelope (session next) (Input (MkInput (target next_input) e (time next_input))))
          <$> coalesce_event (target previous_input) (event previous_input) (event next_input)
      else None
  | _, _ => None
  end.

(** [compatible_gamepad] *)
Definition compatible_gamepad (previous next : DestinationEnvelope) : bool :=
  match message previous, message next with
  | Gamepad old, Gamepad new => bool_decide (session previous = session next) && supersedes new old
  | _, _ => false
  end.

(** The record that takes the tail's place, if the next one may. *)
Definition replacement (previous next : DestinationEnvelope) : option DestinationEnvelope :=
  match coalesce_motion previous next with
  | Some merged => Some merged
  | None => if compatible_gamepad previous next then Some next else None
  end.

(** ** Operations *)
Definition kind (m : DestinationMessage) : nat :=
  match m with
  | Input _ => 0 | Request _ => 1 | CursorReceived _ _ => 2 | BufferReleased _ => 3 | Reclaim => 4 | Gamepad _ => 5
  end.
Definition is_gamepad (p : DestinationEnvelope) : bool :=
  match message p with Gamepad _ => true | _ => false end.

Definition count_received (p : DestinationEnvelope) (s : State) : State :=
  let o := observations s in
  MkState (closed s) (records s) (alter (fun n => sat_add n 1) (kind (message p)) (received s))
    (coalesced s) (gamepad_coalesced s)
    (MkInputObservations (if is_motion p then sat_add (motions_received o) 1 else motions_received o)
       (dequeued o) (writes_completed o) (motions_written o) (framed_bytes o) (queue_high_water o)
       (retained_wait_max o) (write_wall_max o))
    (started s) (last_report s).

(** [*previous = QueuedRecord { packet, enqueued_at }] with its counter. *)
Definition replace_tail (p : DestinationEnvelope) (now : instant) (s : State) : State :=
  MkState (closed s) (<[pred (length (records s)) := MkQueued p now]> (records s)) (received s)
    (if is_gamepad p then coalesced s else sat_add (coalesced s) 1)
    (if is_gamepad p then sat_add (gamepad_coalesced s) 1 else gamepad_coalesced s)
    (observations s) (started s) (last_report s).

Definition append (p : DestinationEnvelope) (now : instant) (s : State) : State :=
  let rs := records s ++ [MkQueued p now] in
  let o := observations s in
  MkState (closed s) rs (received s) (coalesced s) (gamepad_coalesced s)
    (MkInputObservations (motions_received o) (dequeued o) (writes_completed o) (motions_written o)
       (framed_bytes o) (Nat.max (queue_high_water o) (length rs)) (retained_wait_max o) (write_wall_max o))
    (started s) (last_report s).

(** [InputOutbox::push] under the lock: the new state and whether the writer is to be
    woken. An error leaves what was counted so far. *)
Definition push (p : DestinationEnvelope) (now : instant) (s : State) : State * outcome bool :=
  if closed s then (s, Fail (ErrMsg "input outbox is closed"))
  else
    let s := count_received p s in
    match list.last (records s) ≫= (fun previous => replacement (packet previous) p) with
    | Some merged => (replace_tail merged now s, Ret false)
    | None =>
        if bool_decide (length (records s) < QUEUE_CAPACITY)%nat
        then (append p now s, Ret (match records s with [] => true | _ => false end))
        else (s, Fail (ErrMsg "destination control backlog exhausted"))
    end.

(** One pass of the loop of [InputOutbox::recv] under the lock: a record, an error, or
    nothing yet. *)
Definition recv_pass (now : instant) (s : State) : State * outcome (option DestinationEnvelope) :=
  if closed s then (s, Fail (ErrMsg "input outbox is closed"))
  else
    match records s with
    | [] => (s, Ret None)
    | r :: rest =>
        let o := observations s in
        (MkState (closed s) rest (received s) (coalesced s) (gamepad_coalesced s)
           (MkInputObservations (motions_received o) (sat_add (dequeued o) 1) (writes_completed o)
              (motions_written o) (framed_bytes o) (queue_high_water o)
              (Z.max (retained_wait_max o) (since now (enqueued_at r))) (write_wall_max o))
           (started s) (last_report s),
         Ret (Some (packet r)))
    end.

Definition count_written (p : DestinationEnvelope) (bytes : Z) (wall : duration) (o : InputObservations) :
    InputObservations :=
  MkInputObservations (motions_received o) (dequeued o) (sat_add (writes_completed o) 1)
    (if is_motion p then sat_add (motions_written o) 1 else motions_written o)
    (sat_add (framed_bytes o) bytes) (queue_high_water o) (retained_wait_max o) (Z.max (write_wall_max o) wall).

(** [InputOutbox::record_written]: the new state and whether a report is written. *)
Definition record_written (p : DestinationEnvelope) (bytes : Z) (wall : duration) (diagnostics_enabled : bool)
    (now : instant) (s : State) : State * bool :=
  let due := negb (since now (last_report s) <? from_secs 1) && diagnostics_enabled in
  (MkState (closed s) (records s) (received s) (coalesced s) (gamepad_coalesced s)
     (count_written p bytes wall (observations s)) (started s) (if due then now else last_report s),
   due).

(** [InputOutbox::close] under the lock. *)
Definition close (s : State) : State :=
  MkState true [] (received s) (coalesced s) (gamepad_coalesced s) (observations s) (started s) (last_report s).

(** ** What coalescing keeps *)

(** A record without the relative part of a pointer motion, which coalescing sums up. *)
Definition essence (p : DestinationEnvelope) : DestinationEnvelope :=
  match message p with
  | Input i =>
      match event i with
      | PointerMotion position _ =>
          MkDestinationEnvelope (session p) (Input (MkInput (target i) (PointerMotion position None) (time i)))
      | _ => p
      end
  | _ => p
  end.

(** Ordering barriers: all records but motions and gamepad states. *)
Definition barrier (p : DestinationEnvelope) : bool :=
  negb (is_motion p) && match message p with Gamepad (GamepadStateRequest _ _) => false | _ => true end.

(** What a record may stand in for: pointer motions to one target, motions of one contact,
    gamepad states of one capture with the same digital controls. *)
Inductive lane :=
  | PointerLane (session : HoistSessionId) (target : ClientInputTarget)
  | TouchLane (session : HoistSessionId) (target : ClientInputTarget) (id : TouchId)
  | GamepadLane (session : HoistSessionId) (generation : Z) (b : GamepadButtons)
      (pad : HatDirection * HatDirection) (pressed : bool * bool).
#[export] Instance lane_eq_dec : EqDecision lane.
Proof. solve_decision. Defined.
Definition lane_of (p : DestinationEnvelope) : option lane :=
  match message p with
  | Input i =>
      match event i with
      | PointerMotion _ _ => Some (PointerLane (session p) (target i))
      | Touch (TouchMotion id _) => Some (TouchLane (session p) (target i) id)
      | _ => None
      end
  | Gamepad (GamepadStateRequest g s) =>
      Some (GamepadLane (session p) g (buttons s) (dpad s) (32768 <=? (triggers s).1, 32768 <=? (triggers s).2))
  | _ => None
  end.

Lemma coalesce_event_spec target previous next merged :
  coalesce_event target previous next = Some merged ->
  (exists id p q, previous = Touch (TouchMotion id p) /\ next = Touch (TouchMotion id q) /\ merged = next) \/
  (exists p q r r' r'', previous = PointerMotion p r /\ next = PointerMotion q r' /\ merged = PointerMotion q r'').
Proof.
  destruct previous as [p r| | | | | |[]|], next as [q r'| | | | | |[]|]; cbn; try done.
  - destruct (is_pointer_target target); [|done]. destruct (coalesce r' r) as [r''|]; [|done]. intros [= <-]. right. eauto 10.
  - destruct (is_touch_target target); [|done]. cbn. case_bool_decide as Hid; [|done]. intros [= <-]. left.
    subst. eauto 10.
Qed.

Lemma supersedes_spec new old :
  supersedes new old = true ->
  exists g a b, old = GamepadStateRequest g a /\ new = GamepadStateRequest g b /\
    buttons a = buttons b /\ dpad a = dpad b /\
    (32768 <=? (triggers a).1, 32768 <=? (triggers a).2) = (32768 <=? (triggers b).1, 32768 <=? (triggers b).2).
Proof.
  destruct old as [|g a|], new as [|g' b|]; cbn; try done. intros Hs.
  repeat match goal with E : (_ && _) = true |- _ => apply andb_true_iff in E as [E ?] end.
  repeat match goal with E : bool_decide _ = true |- _ => apply bool_decide_eq_true in E end.
  apply Z.eqb_eq in Hs as <-. exists g, a, b. done.
Qed.

Lemma replacement_spec previous p q :
  replacement previous p = Some q ->
  essence q = essence p /\ barrier previous = false /\ barrier p = false /\ barrier q = false /\
  is_gamepad q = is_gamepad p /\ lane_of previous = lane_of p /\ lane_of q = lane_of p.
Proof.
  unfold replacement, coalesce_motion, compatible_gamepad, essence, barrier, is_motion, is_gamepad, lane_of.
  destruct previous as [ps pm], p as [ns nm]. cbn.
  destruct pm as [|[pt pe ptime]| | | |old], nm as [|[nt ne ntime]| | | |new]; cbn; try discriminate.
  - destruct (bool_decide (ps = ns)) eqn:Hs; cbn; [|done]. destruct (bool_decide (pt = nt)) eqn:Ht; cbn; [|done].
    apply bool_decide_eq_true in Hs as ->. apply bool_decide_eq_true in Ht as ->.
    destruct (coalesce_event nt pe ne) as [merged|] eqn:He; cbn; [|done]. intros [= <-]. cbn.
    apply coalesce_event_spec in He as [(id & x & y & -> & -> & ->)|(x & y & r & r' & r'' & -> & -> & ->)]; done.
  - case_bool_decide as Hsess; cbn; [|done]. destruct (supersedes new old) eqn:Hs; [|done]. intros [= <-]. cbn.
    apply supersedes_spec in Hs as (g & a & b & -> & -> & -> & -> & Htr). injection Htr as -> ->. subst. done.
Qed.

(** [result] keeps of [log], in order: nothing that was not pushed, every barrier, the
    newest record and the newest of each lane. *)
Record kept (log result : list DestinationEnvelope) : Prop := {
  kept_sublist : sublist (essence <$> result) (essence <$> log);
  kept_barriers : filter (fun p => barrier p = true) result = filter (fun p => barrier p = true) log;
  kept_newest : essence <$> list.last result = essence <$> list.last log;
  kept_lanes : forall l, essence <$> list.last (filter (fun p => lane_of p = Some l) result) =
    essence <$> list.last (filter (fun p => lane_of p = Some l) log);
}.

Lemma filter_snoc (P : DestinationEnvelope -> Prop) `{forall p, Decision (P p)} l p :
  filter P (l ++ [p]) = if decide (P p) then filter P l ++ [p] else filter P l.
Proof.
  rewrite list.filter_app, filter_cons, filter_nil. destruct (decide (P p)); [done|by rewrite app_nil_r].
Qed.

Lemma kept_append log result p : kept log result -> kept (log ++ [p]) (result ++ [p]).
Proof.
  intros [Hs Hb _ Hl]. split.
  - rewrite !fmap_app. by apply sublist_app.
  - rewrite !list.filter_app. by rewrite Hb.
  - by rewrite !last_snoc.
  - intros l. rewrite !filter_snoc. destruct (decide _); [by rewrite !last_snoc|apply Hl].
Qed.

Lemma kept_replace log result previous p q :
  replacement previous p = Some q -> kept log (result ++ [previous]) -> kept (log ++ [p]) (result ++ [q]).
Proof.
  intros (He & Hpb & Hnb & Hqb & _ & Hlp & Hlq)%replacement_spec [Hs Hb _ Hl]. split.
  - rewrite !fmap_app in *. cbn in *. rewrite He. apply sublist_app; [|done].
    etrans; [|exact Hs]. by apply sublist_inserts_r.
  - rewrite !filter_snoc in *. rewrite <- Hb. by rewrite !decide_False by congruence.
  - rewrite !last_snoc. cbn. by rewrite He.
  - intros l. specialize (Hl l). rewrite filter_snoc in Hl. rewrite !filter_snoc, Hlq. rewrite Hlp in Hl.
    destruct (decide (lane_of p = Some l)); [|done]. rewrite !last_snoc. cbn. by rewrite He.
Qed.

(** ** The outbox with its writer

    [log] is what pushes accepted and [out] what the writer took. A push that found the
    queue empty signals after releasing the lock; the writer waits for the signal when a
    pass found nothing. The channel of the signal holds one [token]. *)
Record outbox := MkOutbox {
  state : State;
  log : list DestinationEnvelope;
  out : list DestinationEnvelope;
  token : bool;
  waiting : bool;
  signalling : nat;
}.

Inductive outbox_step : outbox -> outbox -> Prop :=
  | step_push s l o t wt n p now s' wake :
      push p now s = (s', Ret wake) ->
      outbox_step (MkOutbox s l o t wt n) (MkOutbox s' (l ++ [p]) o t wt (if wake then S n else n))
  | step_refused s l o t wt n p now s' e :
      push p now s = (s', Fail e) -> outbox_step (MkOutbox s l o t wt n) (MkOutbox s' l o t wt n)
  | step_signal s l o t wt n : outbox_step (MkOutbox s l o t wt (S n)) (MkOutbox s l o true wt n)
  | step_take s l o t n now s' p :
      recv_pass now s = (s', Ret (Some p)) ->
      outbox_step (MkOutbox s l o t false n) (MkOutbox s' l (o ++ [p]) t false n)
  | step_wait s l o t n now s' :
      recv_pass now s = (s', Ret None) -> outbox_step (MkOutbox s l o t false n) (MkOutbox s' l o t true n)
  | step_woken s l o n : outbox_step (MkOutbox s l o true true n) (MkOutbox s l o false false n)
  | step_written s l o t wt n p bytes wall enabled now :
      outbox_step (MkOutbox s l o t wt n) (MkOutbox (record_written p bytes wall enabled now s).1 l o t wt n).

Definition queued (s : State) : list DestinationEnvelope := packet <$> records s.

Record Outbox_ok (b : outbox) : Prop := {
  outbox_kept : kept (log b) (out b ++ queued (state b));
  outbox_bound : (length (records (state b)) <= QUEUE_CAPACITY)%nat;
  outbox_counts : Z.of_nat (length (log b)) <= u64_max ->
    coalesced (state b) + gamepad_coalesced (state b) + Z.of_nat (length (out b ++ queued (state b)))
    = Z.of_nat (length (log b)) /\ 0 <= coalesced (state b) /\ 0 <= gamepad_coalesced (state b);
  outbox_wake : waiting b = true -> records (state b) <> [] -> token b = true \/ (0 < signalling b)%nat;
}.

(** What a successful push does to the queue and its counters. *)
Lemma push_spec p now s s' wake :
  push p now s = (s', Ret wake) ->
  (queued s' = queued s ++ [p] /\ coalesced s' = coalesced s /\ gamepad_coalesced s' = gamepad_coalesced s /\
   (length (records s) < QUEUE_CAPACITY)%nat /\ length (records s') = S (length (records s)) /\
   wake = bool_decide (records s = [])) \/
  (exists rest previous q, queued s = rest ++ [previous] /\ queued s' = rest ++ [q] /\
   replacement previous p = Some q /\ length (records s') = length (records s) /\ wake = false /\
   coalesced s' = (if is_gamepad p then coalesced s else sat_add (coalesced s) 1) /\
   gamepad_coalesced s' = (if is_gamepad p then sat_add (gamepad_coalesced s) 1 else gamepad_coalesced s)).
Proof.
  unfold push, queued. destruct (closed s); [done|]. cbn.
  destruct (list.last (records s) ≫= _) as [q|] eqn:Hlast.
  - apply bind_Some in Hlast as (r & [rest Hr]%last_Some & Hq). intros [= <- <-]. right.
    exists (packet <$> rest), (packet r), q. unfold replace_tail, count_received. cbn. rewrite Hr.
    rewrite length_app. cbn. replace (pred (length rest + 1)) with (length rest + 0)%nat by lia.
    rewrite insert_app_r, !fmap_app. cbn. rewrite !length_app. cbn.
    destruct (replacement_spec _ _ _ Hq) as (_ & _ & _ & _ & Hg & _). rewrite Hg. repeat split; auto; lia.
  - case_bool_decide as Hlen; [|done]. intros [= <- <-]. left. unfold append. cbn in *.
    rewrite fmap_app, length_app. cbn. repeat split; [done|lia|]. by destruct (records s).
Qed.

Lemma push_refused p now s s' e :
  push p now s = (s', Fail e) ->
  records s' = records s /\ coalesced s' = coalesced s /\ gamepad_coalesced s' = gamepad_coalesced s.
Proof.
  unfold push. destruct (closed s); [by intros [= <- _]|]. destruct (list.last _ ≫= _); [done|].
  case_bool_decide; [done|]. by intros [= <- _].
Qed.

Lemma take_spec now s s' p :
  recv_pass now s = (s', Ret (Some p)) ->
  queued s = p :: queued s' /\ length (records s) = S (length (records s')) /\
  coalesced s' = coalesced s /\ gamepad_coalesced s' = gamepad_coalesced s.
Proof.
  unfold recv_pass, queued. destruct (closed s); [done|]. destruct (records s) as [|r rest]; [done|].
  by intros [= <- <-].
Qed.

Lemma queued_nil s : queued s = [] -> records s = [].
Proof. unfold queued. apply fmap_nil_inv. Qed.
Lemma length_queued s : length (queued s) = length (records s).
Proof. apply length_fmap. Qed.

Lemma push_outbox_ok s l o t wt n p now s' wake :
  push p now s = (s', Ret wake) -> Outbox_ok (MkOutbox s l o t wt n) ->
  Outbox_ok (MkOutbox s' (l ++ [p]) o t wt (if wake then S n else n)).
Proof.
  intros Hpush [Hk Hb Hc Hw]. cbn in *. destruct (push_spec _ _ _ _ _ Hpush)
    as [(Hq & Hco & Hg & Hlt & Hlen & Hwake)|(rest & previous & q & Hq & Hq' & Hr & Hlen & Hwake & Hco & Hg)].
  - split; cbn.
    + rewrite Hq, app_assoc. by apply kept_append.
    + lia.
    + intros Hl. rewrite Hco, Hg, Hq. rewrite !length_app in *. cbn [length] in *.
      specialize (Hc ltac:(lia)). lia.
    + intros Hwt _. destruct (records s) eqn:Hrs; rewrite Hwake; [right; cbn; lia|]. rewrite bool_decide_false by done.
      by apply Hw.
  - split; cbn.
    + rewrite Hq', app_assoc. rewrite Hq, app_assoc in Hk. by eapply kept_replace.
    + lia.
    + intros Hl. rewrite Hq' in *. rewrite Hq in Hc. rewrite !length_app in *. cbn in *.
      specialize (Hc ltac:(lia)). rewrite Hco, Hg. unfold sat_add.
      destruct (is_gamepad p); lia.
    + rewrite Hwake. intros Hwt Hne. apply Hw; [done|]. intros Hnil. apply (f_equal length) in Hnil.
      rewrite Hnil in Hlen. cbn in Hlen. apply nil_length_inv in Hlen. done.
Qed.

Lemma outbox_step_ok b b' : Outbox_ok b -> outbox_step b b' -> Outbox_ok b'.
Proof.
  intros Hok Hstep. pose proof Hok as [Hk Hb Hc Hw]. destruct Hstep; cbn in *.
  - by eapply push_outbox_ok.
  - destruct (push_refused _ _ _ _ _ H) as (Hr & Hco & Hg). unfold queued in *.
    split; cbn; unfold queued; rewrite ?Hr, ?Hco, ?Hg; done.
  - split; cbn; auto.
  - destruct (take_spec _ _ _ _ H) as (Hq & Hlen & Hco & Hg). rewrite Hq in *. split; cbn; rewrite <- ?app_assoc.
    + done.
    + lia.
    + by rewrite Hco, Hg.
    + done.
  - assert (Hs : s' = s /\ records s = []).
    { unfold recv_pass in H. destruct (closed s); [done|]. destruct (records s); [by injection H|done]. }
    destruct Hs as [-> Hnil]. split; cbn; auto.
  - split; cbn; auto.
  - split; cbn; auto.
Qed.

Definition outbox_start (now : instant) : outbox := MkOutbox (State_default now) [] [] false false 0.

Lemma outbox_reachable_ok now b : rtc outbox_step (outbox_start now) b -> Outbox_ok b.
Proof.
  assert (H0 : Outbox_ok (outbox_start now)).
  { split; cbn; [by split|unfold QUEUE_CAPACITY; lia|done|done]. }
  intros Hr. revert H0. induction Hr as [|x y z Hxy _ IH]; [done|]. eauto using outbox_step_ok.
Qed.

(** ** Properties *)

(** C25 (outbox-order). Until it is closed, what the writer took and what still waits keep,
    of everything producers pushed, every record that is not a motion or a gamepad state
    exactly once and in order, invent or reorder nothing, and end with the newest record;
    of each lane (one pointer's target, one contact, one gamepad state of the digital
    controls) they keep the newest; at most 256 records wait, and the coalescing counters
    account for every difference. *)
Theorem outbox_order (now : instant) (b : outbox) :
  rtc outbox_step (outbox_start now) b ->
  let result := out b ++ queued (state b) in
  filter (fun p => barrier p = true) result = filter (fun p => barrier p = true) (log b) /\
  sublist (essence <$> result) (essence <$> log b) /\
  essence <$> list.last result = essence <$> list.last (log b) /\
  (forall l, essence <$> list.last (filter (fun p => lane_of p = Some l) result) =
     essence <$> list.last (filter (fun p => lane_of p = Some l) (log b))) /\
  (length (records (state b)) <= 256)%nat /\
  (Z.of_nat (length (log b)) <= u64_max ->
   coalesced (state b) + gamepad_coalesced (state b) + Z.of_nat (length result) = Z.of_nat (length (log b))).
Proof.
  intros [[Hs Hb Hn Hla] Hl Hc _]%outbox_reachable_ok result. repeat split; try done. intros Hlen. by apply Hc.
Qed.

(** No wake is lost: while the writer waits and records are queued, its
    signal is in the channel or a producer is about to send it. *)
Theorem outbox_no_lost_wake (now : instant) (b : outbox) :
  rtc outbox_step (outbox_start now) b -> waiting b = true -> records (state b) <> [] ->
  token b = true \/ (0 < signalling b)%nat.
Proof. intros Hr. by apply outbox_wake, (outbox_reachable_ok now). Qed.

(** ** Concrete inputs *)
Definition sample_session : HoistSessionId := MkHoistSessionId 1.
Definition sample_motion (x : bool) : DestinationEnvelope :=
  MkDestinationEnvelope sample_session
    (Input (MkInput (PointerTarget (ClientSurfaceId_for_test 1) (MkSurfaceLayerId 1))
       (PointerMotion (MkPosition (S754_zero x) (S754_zero false)) None) 0)).
Definition sample_reclaim : DestinationEnvelope := MkDestinationEnvelope sample_session Reclaim.

Definition run_pushes (ps : list DestinationEnvelope) : State :=
  fold_left (fun s p => (push p 0 s).1) ps (State_default 0).

Example coalescing_sample :
  queued (run_pushes [sample_motion true; sample_motion false; sample_reclaim; sample_motion true]) =
  [sample_motion false; sample_reclaim; sample_motion true].
Proof. reflexivity. Qed.

Definition sample_box : outbox :=
  MkOutbox (run_pushes [sample_motion true; sample_motion false]) [sample_motion true; sample_motion false] []
    false true 1.

Lemma sample_box_reachable : rtc outbox_step (outbox_start 0) sample_box.
Proof.
  eapply rtc_l; [apply (step_wait _ _ _ _ _ 0 (State_default 0)); reflexivity|].
  eapply rtc_l; [apply (step_push _ _ _ _ _ _ (sample_motion true) 0 (run_pushes [sample_motion true]) true); reflexivity|].
  eapply rtc_l; [apply (step_push _ _ _ _ _ _ (sample_motion false) 0 (run_pushes [sample_motion true; sample_motion false]) false); reflexivity|]. apply rtc_refl.
Qed.

Lemma outbox_order_witness :
  filter (fun p => barrier p = true) [sample_motion false] =
  filter (fun p => barrier p = true) [sample_motion true; sample_motion false] /\ (1 <= 256)%nat.
Proof.
  destruct (outbox_order 0 sample_box sample_box_reachable) as (Hb & _ & _ & _ & Hl & _). split; [exact Hb|exact Hl].
Defined.

Lemma outbox_no_lost_wake_witness : token sample_box = true \/ (0 < signalling sample_box)%nat.
Proof. refine (outbox_no_lost_wake 0 sample_box sample_box_reachable eq_refl _). discriminate. Defined.
