(* ===== verification/DecodePool.v ===== *)
(** * Decode workers ([weld-media/src/decode.rs])

    A coordinator admits jobs to worker threads. Each worker has a bounded command
    channel, a mailbox of generations to retire with a coalesced wake flag, and a
    pipeline of jobs it works on; all workers report through one event channel. Threads
    and coordinator interleave at every shared operation. *)

From S2P Require Import Prelude OrdMap Ids.

Definition GenerationKey : Type := MediaStreamId * StreamGeneration.

(** ** Limits *)
Record DecodePoolLimits := MkLimits {
  max_workers : nat;
  max_jobs : nat;
  max_generations : nat;
  depth : nat;
}.
(** [DecodePoolLimits::try_new] *)
Definition try_new (workers jobs generations depth : nat) : outcome DecodePoolLimits :=
  _ ← ensure (bool_decide (0 < workers)%nat && bool_decide (0 < jobs)%nat && bool_decide (0 < generations)%nat)
        "decoder pool limits must be positive";
  _ ← ensure (bool_decide (1 <= depth)%nat && bool_decide (depth <= 2)%nat)
        "decoder pipeline depth must be one or two";
  capacity ← opt_context (checked u64_max (Z.of_nat workers * Z.of_nat depth)) "decoder job capacity overflow";
  _ ← ensure (bool_decide (Z.of_nat jobs <= capacity) && bool_decide (workers <= generations)%nat)
        "decoder pool requires jobs <= workers * depth and workers <= generations";
  Ret (MkLimits workers jobs generations depth).
Definition DecodePoolLimits_default : DecodePoolLimits := MkLimits 4 8 16 2.

(** [DecodeJob]: the request is the backend's; the pool reads its token and frame. *)
Class DecodeJob (R : Type) := { token : R -> Z; frame : R -> MediaFrameId }.

Definition frame_key (f : MediaFrameId) : GenerationKey := (frame_stream f, frame_generation f).

Record DecodePipelineTiming := MkPipelineTiming {
  submitted_at : instant;
  finishing_at : instant;
  had_pending_frame : bool;
}.
Record DecodeTiming := MkDecodeTiming {
  timing_queued_at : instant;
  timing_started_at : instant;
  timing_completed_at : instant;
  timing_pipeline : option DecodePipelineTiming;
}.

Section Types.
Context {R O : Type}.

Record DecodeCompletion := MkCompletion {
  completion_token : Z;
  completion_result : outcome (list O);
  completion_timing : option DecodeTiming;
}.
Record Job := MkJob { job_token : Z; job_frame : MediaFrameId }.
Record Generation := MkGeneration {
  generation_worker : nat;
  retiring : bool;
  retirement_sent : bool;
}.
Inductive Command :=
  | Decode (request : R) (queued_at : instant)
  | Wake.
Inductive Event :=
  | Decoded (worker : nat) (completion : DecodeCompletion)
  | Retired (worker : nat) (key : GenerationKey)
  | Failed (worker : nat) (cause : error).
(** [WorkerSubmitError] and success. *)
Inductive Submit :=
  | Submitted
  | Busy (request : R)
  | Stopped (request : R)
  | Rejected (cause : error).

(** An entry of the worker's pipeline. *)
Record Slot := MkSlot {
  slot_token : Z;
  slot_frame : MediaFrameId;
  slot_queued_at : instant;
  slot_started_at : instant;
  slot_pipeline : DecodePipelineTiming;
  slot_polled : bool;
}.

(** Where a worker's thread stands in [worker_loop]. *)
Inductive position :=
  | Top                          (* the head of the loop, before [apply_retirements] *)
  | Fill                         (* the condition of the inner [while] *)
  | Got (command : Command)      (* before the wake flag is cleared *)
  | Apply (command : Command)    (* before the inner [apply_retirements] *)
  | Polling                      (* before [processor.poll] *)
  | Waiting                      (* in [recv_timeout] *)
  | WaitGot                      (* a wake arrived in [recv_timeout]; before its flag is cleared *)
  | WaitApply                    (* before [apply_retirements] there *)
  | Dead.                        (* the thread has failed and sent its event *)

Record Worker := MkWorker {
  jobs : list Job;
  channel : list Command;
  keys : gset GenerationKey;
  wake_queued : bool;
  at_ : position;
  pending : list Slot;
  received : option Command;
}.

Record DecodePool := MkPool {
  limits : DecodePoolLimits;
  workers : list Worker;
  generations : gmap GenerationKey Generation;
  events : list Event;
  failure : option error;
  terminal_failure : option error;
}.
Definition DecodePool_new (l : DecodePoolLimits) : DecodePool := MkPool l [] ∅ [] None None.

Definition set_workers (ws : list Worker) (p : DecodePool) : DecodePool :=
  MkPool (limits p) ws (generations p) (events p) (failure p) (terminal_failure p).
Definition set_generations (g : gmap GenerationKey Generation) (p : DecodePool) : DecodePool :=
  MkPool (limits p) (workers p) g (events p) (failure p) (terminal_failure p).
Definition set_events (es : list Event) (p : DecodePool) : DecodePool :=
  MkPool (limits p) (workers p) (generations p) es (failure p) (terminal_failure p).

Definition set_jobs (j : list Job) (w : Worker) : Worker :=
  MkWorker j (channel w) (keys w) (wake_queued w) (at_ w) (pending w) (received w).
Definition set_channel (c : list Command) (w : Worker) : Worker :=
  MkWorker (jobs w) c (keys w) (wake_queued w) (at_ w) (pending w) (received w).
Definition set_keys (k : gset GenerationKey) (w : Worker) : Worker :=
  MkWorker (jobs w) (channel w) k (wake_queued w) (at_ w) (pending w) (received w).
Definition set_wake (b : bool) (w : Worker) : Worker :=
  MkWorker (jobs w) (channel w) (keys w) b (at_ w) (pending w) (received w).
Definition goto (q : position) (w : Worker) : Worker :=
  MkWorker (jobs w) (channel w) (keys w) (wake_queued w) q (pending w) (received w).
Definition set_pending (s : list Slot) (w : Worker) : Worker :=
  MkWorker (jobs w) (channel w) (keys w) (wake_queued w) (at_ w) s (received w).
Definition set_received (c : option Command) (w : Worker) : Worker :=
  MkWorker (jobs w) (channel w) (keys w) (wake_queued w) (at_ w) (pending w) c.
(** A worker as [assign_worker] spawns it. *)
Definition Worker_new : Worker := MkWorker [] [] ∅ false Top [] None.

Definition job_key (j : Job) : GenerationKey := frame_key (job_frame j).
Definition is_dead (w : Worker) : bool := match at_ w with Dead => true | _ => false end.
End Types.
Arguments DecodeCompletion O : clear implicits.
Arguments Command R : clear implicits.
Arguments Event O : clear implicits.
Arguments Submit R : clear implicits.
Arguments position R : clear implicits.
Arguments Worker R : clear implicits.
Arguments DecodePool R O : clear implicits.

(** ** The coordinator *)
Section Coordinator.
Context {R O : Type} `{DecodeJob R}.
Implicit Types (p : DecodePool R O).

(** [fail] *)
Definition fail (e : error) (p : DecodePool R O) : DecodePool R O :=
  match failure p with
  | None => MkPool (limits p) (workers p) (generations p) (events p) (Some e) (Some e)
  | Some _ => p
  end.

(** How many generations a worker owns. *)
Definition owned (p : DecodePool R O) (worker : nat) : nat :=
  length (filter (fun g => generation_worker g = worker) (map_to_list (generations p)).*2).

(** [min_by_key]: the first least element. *)
Definition least (l : list (nat * nat)) : option nat :=
  fst <$> fold_left (fun best e =>
    match best with None => Some e | Some b => if bool_decide (e.2 < b.2)%nat then Some e else best end) l None.

(** [assign_worker]; [spawned] is whether the thread could be spawned. *)
Definition assign_worker (spawned : bool) (p : DecodePool R O) : DecodePool R O * outcome (option nat) :=
  let counts := (fun i => (i, owned p i)) <$> seq 0 (length (workers p)) in
  match list_find (fun e => e.2 = 0%nat) counts with
  | Some (_, (i, _)) => (p, Ret (Some i))
  | None =>
      if bool_decide (length (workers p) < max_workers (limits p))%nat then
        if spawned then (set_workers (workers p ++ [Worker_new]) p, Ret (Some (length (workers p))))
        else (p, Fail (ErrMsg "could not spawn decoder worker"))
      else
        (p, Ret (least (filter (fun e =>
           is_some_and (workers p !! e.1) (fun w => bool_decide (length (jobs w) < depth (limits p))%nat) = true)
           counts)))
  end.

(** [generations.iter().find_map]: a worker that owns a generation of the stream. *)
Definition assigned (p : DecodePool R O) (stream : MediaStreamId) : option nat :=
  head (omap (fun '(key, g) => if bool_decide (key.1 = stream) then Some (generation_worker g) else None)
          (map_to_list (generations p))).

Definition total_jobs (p : DecodePool R O) : nat := sum_list_with (fun w => length (jobs w)) (workers p).

(** [try_decode] after the worker is chosen; an index out of range panics. *)
Definition send_decode (r : R) (now : instant) (worker : nat) (p : DecodePool R O) :
    outcome (DecodePool R O * Submit R) :=
  match workers p !! worker with
  | None => Panic
  | Some w =>
      if bool_decide (depth (limits p) <= length (jobs w))%nat then Ret (p, Busy r)
      else if is_dead w || bool_decide (S (depth (limits p)) <= length (channel w))%nat then Ret (p, Busy r)
      else
        let w' := set_jobs (jobs w ++ [MkJob (token r) (frame r)]) (set_channel (channel w ++ [Decode r now]) w) in
        Ret (set_generations (<[frame_key (frame r) := MkGeneration worker false false]> (generations p))
               (set_workers (<[worker := w']> (workers p)) p), Submitted)
  end.

(** [DecodePool::try_decode] *)
Definition try_decode (spawned : bool) (r : R) (now : instant) (p : DecodePool R O) :
    outcome (DecodePool R O * Submit R) :=
  match failure p with
  | Some e => Ret (p, Rejected e)
  | None =>
      let key := frame_key (frame r) in
      if is_some_and (generations p !! key) retiring
         || bool_decide (max_jobs (limits p) <= total_jobs p)%nat
         || (bool_decide (generations p !! key = None)
             && bool_decide (max_generations (limits p) <= size (generations p))%nat)
      then Ret (p, Busy r)
      else
        match assigned p key.1 with
        | Some worker => send_decode r now worker p
        | None =>
            match assign_worker spawned p with
            | (p, Ret (Some worker)) => send_decode r now worker p
            | (p, Ret None) => Ret (p, Busy r)
            | (p, Fail e) => let p := fail e p in Ret (p, Rejected (default e (failure p)))
            | (_, Panic) => Panic
            end
        end
  end.

(** [DecodePool::retire] up to its [send_retirements]. *)
Definition retire (key : GenerationKey) (p : DecodePool R O) : outcome (DecodePool R O) :=
  match failure p with
  | Some e => Fail e
  | None =>
      Ret (set_generations
             (alter (fun g => MkGeneration (generation_worker g) true (retirement_sent g)) key (generations p)) p)
  end.

(** [send_retirements], one generation at a time: whether it is sent now, its insertion
    into the mailbox, the exchange of the wake flag and the wake itself. *)
Definition retirement_due (p : DecodePool R O) (key : GenerationKey) : option nat :=
  match generations p !! key with
  | Some g =>
      match workers p !! generation_worker g with
      | Some w =>
          if retiring g && negb (retirement_sent g) && negb (existsb (fun j => bool_decide (job_key j = key)) (jobs w))
          then Some (generation_worker g) else None
      | None => None
      end
  | None => None
  end.
Definition publish_retirement (worker : nat) (key : GenerationKey) (p : DecodePool R O) : DecodePool R O :=
  set_generations (<[key := MkGeneration worker true true]> (generations p))
    (set_workers (alter (fun w => set_keys ({[key]} ∪ keys w) w) worker (workers p)) p).
(** [wake_queued.swap(true)] *)
Definition swap_wake (worker : nat) (p : DecodePool R O) : DecodePool R O * bool :=
  (set_workers (alter (set_wake true) worker (workers p)) p,
   match workers p !! worker with Some w => wake_queued w | None => false end).
(** [try_send(Command::Wake)] and its three outcomes. *)
Definition send_wake (worker : nat) (p : DecodePool R O) : DecodePool R O :=
  set_workers (alter (fun w =>
    if is_dead w then w
    else if bool_decide (S (depth (limits p)) <= length (channel w))%nat then set_wake false w
    else set_channel (channel w ++ [Wake]) w) worker (workers p)) p.

(** [drain], one event at a time. *)
Definition handle_decoded (worker : nat) (c : DecodeCompletion O) (p : DecodePool R O) :
    DecodePool R O * list (DecodeCompletion O) :=
  match workers p !! worker ≫= (fun w => head (jobs w)) with
  | Some job =>
      if job_token job =? completion_token c
      then (set_workers (alter (fun w => set_jobs (tail (jobs w)) w) worker (workers p)) p, [c])
      else (fail (ErrMsg "decoder worker completed an unexpected token") p, [])
  | None => (fail (ErrMsg "decoder worker completed an unexpected token") p, [])
  end.
Definition handle_retired (worker : nat) (key : GenerationKey) (p : DecodePool R O) : DecodePool R O :=
  if is_some_and (generations p !! key)
       (fun g => bool_decide (generation_worker g = worker) && retiring g && retirement_sent g)
  then set_generations (delete key (generations p)) p
  else fail (ErrMsg "unexpected decoder retirement acknowledgement") p.
Definition handle_failed (worker : nat) (e : error) (p : DecodePool R O) :
    DecodePool R O * list (DecodeCompletion O) :=
  let lost := match workers p !! worker with Some w => jobs w | None => [] end in
  (fail e (set_workers (alter (set_jobs []) worker (workers p)) p),
   (fun job => MkCompletion (job_token job) (Fail e) None) <$> lost).
Definition handle_event (e : Event O) (p : DecodePool R O) : DecodePool R O * list (DecodeCompletion O) :=
  match e with
  | Decoded worker c => handle_decoded worker c p
  | Retired worker key => (handle_retired worker key p, [])
  | Failed worker cause => handle_failed worker cause p
  end.
(** [self.terminal_failure.take()] *)
Definition take_failure (p : DecodePool R O) : DecodePool R O * option error :=
  (MkPool (limits p) (workers p) (generations p) (events p) (failure p) None, terminal_failure p).
End Coordinator.

(** ** A worker's thread

    One step of [worker_loop] per shared operation. The processor is the backend's: a
    poll may be pending, or give outputs or an error, and any call into it may fail the
    thread. [events] are what the step sends. *)
Section Thread.
Context {R O : Type} `{DecodeJob R}.
Implicit Types (w : Worker R).

Definition is_wake (c : Command R) : bool := match c with Wake => true | Decode _ _ => false end.

(** [apply_retirements]: empty the mailbox, retire and acknowledge each key. *)
Definition apply_retirements (index : nat) (w : Worker R) : Worker R * list (Event O) :=
  (set_keys ∅ w, Retired index <$> elements (keys w)).

(** Clearing the flag when the received command is a wake. *)
Definition clear_wake (c : Command R) (w : Worker R) : Worker R := if is_wake c then set_wake false w else w.

(** The command is executed: a wake only notifies, a job enters the pipeline. *)
Definition execute (c : Command R) (now : instant) (w : Worker R) : Worker R :=
  match c with
  | Wake => w
  | Decode r queued_at =>
      set_pending (pending w ++
        [MkSlot (token r) (frame r) queued_at now
           (MkPipelineTiming now now (negb (bool_decide (pending w = [])))) false]) w
  end.

(** The head of the inner loop: the next position, with the command taken if any. None:
    the thread waits in [recv]. *)
Definition fill (depth : nat) (w : Worker R) : option (Worker R) :=
  if bool_decide (length (pending w) < depth)%nat then
    match received w, channel w, pending w with
    | Some c, _, _ => Some (goto (Got c) (set_received None w))
    | None, c :: rest, _ => Some (goto (Got c) (set_channel rest w))
    | None, [], [] => None
    | None, [], _ :: _ => Some (goto Polling w)
    end
  else Some (goto Polling w).

Definition mark_polled (now : instant) (s : Slot) : Slot :=
  if slot_polled s then s
  else MkSlot (slot_token s) (slot_frame s) (slot_queued_at s) (slot_started_at s)
         (MkPipelineTiming (submitted_at (slot_pipeline s)) now (had_pending_frame (slot_pipeline s))) true.

Definition completion_of (s : Slot) (now : instant) (result : outcome (list O)) : DecodeCompletion O :=
  MkCompletion (slot_token s) result
    (Some (MkDecodeTiming (slot_queued_at s) (slot_started_at s) now (Some (slot_pipeline s)))).

Inductive thread_step (depth index : nat) : Worker R -> list (Event O) -> Worker R -> Prop :=
  | thread_top w w' es :
      at_ w = Top -> apply_retirements index w = (w', es) -> thread_step depth index w es (goto Fill w')
  | thread_fill w w' : at_ w = Fill -> fill depth w = Some w' -> thread_step depth index w [] w'
  | thread_got w c : at_ w = Got c -> thread_step depth index w [] (goto (Apply c) (clear_wake c w))
  | thread_apply w c w' es now :
      at_ w = Apply c -> apply_retirements index w = (w', es) ->
      thread_step depth index w es (goto Fill (execute c now w'))
  | thread_idle w : at_ w = Polling -> pending w = [] -> thread_step depth index w [] (goto Top w)
  | thread_ready w s rest now completed result :
      at_ w = Polling -> pending w = s :: rest ->
      thread_step depth index w [Decoded index (completion_of (mark_polled now s) completed result)]
        (goto Top (set_pending rest w))
  | thread_pending w s rest now :
      at_ w = Polling -> pending w = s :: rest ->
      thread_step depth index w [] (goto Waiting (set_pending (mark_polled now s :: rest) w))
  | thread_timeout w : at_ w = Waiting -> thread_step depth index w [] (goto Top w)
  | thread_wait_wake w rest :
      at_ w = Waiting -> channel w = Wake :: rest -> thread_step depth index w [] (goto WaitGot (set_channel rest w))
  | thread_wait_clear w : at_ w = WaitGot -> thread_step depth index w [] (goto WaitApply (set_wake false w))
  | thread_wait_apply w w' es :
      at_ w = WaitApply -> apply_retirements index w = (w', es) -> thread_step depth index w es (goto Top w')
  | thread_wait_decode w r queued_at rest :
      at_ w = Waiting -> channel w = Decode r queued_at :: rest -> (length (pending w) < depth)%nat ->
      thread_step depth index w [] (goto Top (set_received (Some (Decode r queued_at)) (set_channel rest w)))
  | thread_exceeded w r queued_at rest :
      at_ w = Waiting -> channel w = Decode r queued_at :: rest -> (depth <= length (pending w))%nat ->
      thread_step depth index w [Failed index (ErrMsg "decode pipeline admission exceeded depth")]
        (goto Dead (set_channel rest w)).
End Thread.

(** ** What holds for each worker *)
Section WorkerInvariant.
Context {R O : Type} `{DecodeJob R}.
Implicit Types (w : Worker R) (evs : list (Event O)).

Definition event_worker (e : Event O) : nat :=
  match e with Decoded i _ | Retired i _ | Failed i _ => i end.
Definition is_failed (e : Event O) : bool := match e with Failed _ _ => true | _ => false end.
Definition decoded_tokens (evs : list (Event O)) : list Z :=
  omap (fun e => match e with Decoded _ c => Some (completion_token c) | _ => None end) evs.
Definition retired_keys (evs : list (Event O)) : list GenerationKey :=
  omap (fun e => match e with Retired _ k => Some k | _ => None end) evs.

Definition command_jobs (c : Command R) : list Job :=
  match c with Decode r _ => [MkJob (token r) (frame r)] | Wake => [] end.
Definition position_jobs (q : position R) : list Job :=
  match q with Got c | Apply c => command_jobs c | _ => [] end.
Definition slot_job (s : Slot) : Job := MkJob (slot_token s) (slot_frame s).

(** The jobs a live worker still has, oldest first. *)
Definition pipeline (w : Worker R) : list Job :=
  (slot_job <$> pending w) ++ position_jobs (at_ w) ++
  match received w with Some c => command_jobs c | None => [] end ++ concat (command_jobs <$> channel w).

(** Wakes on their way: in the channel, just received, or about to be sent. *)
Definition wakes (w : Worker R) (sending : bool) : nat :=
  length (filter (fun c => is_wake c = true) (channel w)) +
  match at_ w with Got Wake | WaitGot => 1 | _ => 0 end + (if sending then 1 else 0).

Definition blocked (w : Worker R) : Prop :=
  at_ w = Fill /\ pending w = [] /\ received w = None /\ channel w = [].

(** [signal] is the coordinator's stage of signalling this worker: about to exchange the
    flag, or about to send the wake. *)
Record Worker_ok (depth index : nat) (gens : gmap GenerationKey Generation) (evs : list (Event O))
    (signal : option bool) (w : Worker R) : Prop := {
  ok_jobs : exists finished rest,
    jobs w = finished ++ rest /\ decoded_tokens evs = job_token <$> finished /\
    (is_dead w = false -> rest = pipeline w);
  ok_depth : (length (jobs w) <= depth)%nat;
  ok_alive : is_dead w = false -> Forall (fun e => is_failed e = false) evs;
  ok_last : forall before e after, evs = before ++ e :: after -> is_failed e = true -> after = [];
  ok_received : forall c, received w = Some c -> is_dead w = false ->
    is_wake c = false /\ (at_ w = Top \/ at_ w = Fill) /\ (length (pending w) < depth)%nat;
  ok_wakes : is_dead w = false ->
    wakes w (bool_decide (signal = Some true)) = if wake_queued w then 1%nat else 0%nat;
  ok_retired : NoDup (retired_keys evs);
  ok_keys : forall k, k ∈ retired_keys evs -> k ∉ keys w;
  ok_sent : forall k, (k ∈ keys w) \/ (k ∈ retired_keys evs) -> gens !! k = Some (MkGeneration index true true);
  ok_owned : forall j, j ∈ jobs w -> exists g,
    gens !! job_key j = Some g /\ generation_worker g = index /\ retirement_sent g = false;
  ok_awake : blocked w -> keys w = ∅ \/ signal <> None;
}.

Lemma retired_keys_app evs es : retired_keys (evs ++ es) = retired_keys evs ++ retired_keys es.
Proof. apply omap_app. Qed.
Lemma decoded_tokens_app evs es : decoded_tokens (evs ++ es) = decoded_tokens evs ++ decoded_tokens es.
Proof. apply omap_app. Qed.
Lemma retired_retired index (l : list GenerationKey) : retired_keys (Retired index <$> l) = l.
Proof. induction l as [|k l IH]; [done|]. cbn. by f_equal. Qed.
Lemma decoded_retired index (l : list GenerationKey) : decoded_tokens (Retired index <$> l) = [].
Proof. by induction l. Qed.
Lemma failed_retired index (l : list GenerationKey) :
  Forall (fun e => is_failed e = false) ((Retired index <$> l) : list (Event O)).
Proof. induction l; constructor; done. Qed.
Lemma no_failed_last evs :
  Forall (fun e => is_failed e = false) evs ->
  forall before e after, evs = before ++ e :: after -> is_failed e = true -> after = [].
Proof. intros Hf before e after -> He. apply Forall_app in Hf as [_ Hf]. apply list.Forall_cons in Hf as [Hf _]. congruence. Qed.

(** A step of a live worker's thread that leaves jobs alone and sends no failure keeps the
    invariant when what it carries, its wakes and its mailbox stay accounted for. *)
Lemma worker_step_ok depth index gens evs signal w es w' :
  Worker_ok depth index gens evs signal w -> is_dead w = false ->
  jobs w' = jobs w -> is_dead w' = false ->
  Forall (fun e => is_failed e = false) es ->
  (exists sent, pipeline w = sent ++ pipeline w' /\ decoded_tokens es = job_token <$> sent) ->
  (forall c, received w' = Some c ->
     is_wake c = false /\ (at_ w' = Top \/ at_ w' = Fill) /\ (length (pending w') < depth)%nat) ->
  (forall sending, wakes w sending = (if wake_queued w then 1%nat else 0%nat) ->
     wakes w' sending = (if wake_queued w' then 1%nat else 0%nat)) ->
  (keys w' = keys w /\ retired_keys es = [] \/ keys w' = ∅ /\ retired_keys es = elements (keys w)) ->
  (blocked w' -> keys w' = ∅ \/ signal <> None) ->
  Worker_ok depth index gens (evs ++ es) signal w'.
Proof.
  intros [(fin & rest & Hj & Hd & Hp) Hdep Hal Hlast Hrec Hw Hr Hk Hs Ho Haw] Hlive Hj' Hlive' Hes
    (sent & Hpipe & Hdec) Hrec' Hw' Hkeys Haw'.
  specialize (Hal Hlive). rewrite (Hp Hlive) in Hj. split.
  - exists (fin ++ sent), (pipeline w'). rewrite Hj', Hj, Hpipe, decoded_tokens_app, Hd, Hdec, fmap_app.
    by rewrite <- app_assoc.
  - by rewrite Hj'.
  - intros _. by apply Forall_app.
  - apply no_failed_last. by apply Forall_app.
  - intros c Hc _. by apply Hrec'.
  - intros _. apply Hw', Hw, Hlive.
  - rewrite retired_keys_app. destruct Hkeys as [[_ ->]|[_ ->]]; [by rewrite app_nil_r|].
    apply list.NoDup_app. repeat split; [done| |apply NoDup_elements].
    intros k Hin Hin'%elem_of_elements. by apply (Hk k).
  - intros k. rewrite retired_keys_app. destruct Hkeys as [[-> ->]|[-> _]]; [rewrite app_nil_r; apply Hk|set_solver].
  - intros k Hin. apply Hs. rewrite retired_keys_app, elem_of_app in Hin.
    destruct Hkeys as [[Hke Hre]|[Hke Hre]]; rewrite Hke, Hre in Hin; set_solver.
  - by rewrite Hj'.
  - done.
Qed.
End WorkerInvariant.

Section ThreadInvariant.
Context {R O : Type} `{DecodeJob R}.
Implicit Types (w : Worker R) (evs es : list (Event O)).

Lemma position_live q : (match q with Dead => true | _ => false end) = false -> q <> Dead (R:=R).
Proof. by intros Hq ->. Qed.

(** The mailbox after [apply_retirements], and what it sends. *)
Lemma apply_keys index w w' es :
  apply_retirements index w = (w', es) ->
  w' = set_keys ∅ w /\ retired_keys es = elements (keys w) /\ decoded_tokens es = [] /\
  Forall (fun e => is_failed e = false) es.
Proof.
  intros [= <- <-]. split; [done|]. split; [apply retired_retired|]. split; [apply decoded_retired|apply failed_retired].
Qed.

(** [fill] moves a command, if it takes one, from the front of what follows the pipeline. *)
Lemma fill_cases depth w w' :
  fill depth w = Some w' ->
  (exists c, (length (pending w) < depth)%nat /\ received w = Some c /\ w' = goto (Got c) (set_received None w)) \/
  (exists c rest, (length (pending w) < depth)%nat /\ received w = None /\ channel w = c :: rest /\
     w' = goto (Got c) (set_channel rest w)) \/
  (w' = goto Polling w /\ ((depth <= length (pending w))%nat \/ received w = None)).
Proof.
  unfold fill. case_bool_decide; [|intros [= <-]; right; right; split; [done|left; lia]].
  destruct (received w) as [c|] eqn:Hr, (channel w) as [|c' rest] eqn:Hc, (pending w) as [|s l] eqn:Hp;
    intros [= <-]; eauto 10.
Qed.

Lemma wakes_goto w q b :
  wakes (goto q w) b = (length (filter (fun c => is_wake c = true) (channel w)) +
    match q with Got Wake | WaitGot => 1 | _ => 0 end + (if b then 1 else 0))%nat.
Proof. done. Qed.

Lemma wakes_cons (c : Command R) l :
  length (filter (fun c => is_wake c = true) (c :: l)) =
  ((if is_wake c then 1 else 0) + length (filter (fun c => is_wake c = true) l))%nat.
Proof. rewrite filter_cons. destruct c; cbn; done. Qed.

(** The invariant's obligations for a step that sends nothing and keeps the mailbox. *)
Lemma quiet_step_ok depth index gens evs signal w w' :
  Worker_ok depth index gens evs signal w -> is_dead w = false -> is_dead w' = false ->
  jobs w' = jobs w -> keys w' = keys w -> pipeline w' = pipeline w ->
  (forall c, received w' = Some c ->
     is_wake c = false /\ (at_ w' = Top \/ at_ w' = Fill) /\ (length (pending w') < depth)%nat) ->
  (forall sending, wakes w sending = (if wake_queued w then 1%nat else 0%nat) ->
     wakes w' sending = (if wake_queued w' then 1%nat else 0%nat)) ->
  at_ w' <> Fill ->
  Worker_ok depth index gens evs signal w'.
Proof.
  intros Hok Hl Hl' Hj Hk Hp Hr Hw Hf. rewrite <- (app_nil_r evs).
  apply (worker_step_ok depth index gens evs signal w [] w'); try done.
  - exists []. by rewrite Hp.
  - left. by rewrite Hk.
  - by intros [? _].
Qed.

(** The obligations for a step that empties the mailbox. *)
Lemma retire_step_ok depth index gens evs signal w w1 es w' :
  Worker_ok depth index gens evs signal w -> is_dead w = false -> is_dead w' = false ->
  apply_retirements index w = (w1, es) ->
  jobs w' = jobs w -> keys w' = ∅ -> pipeline w' = pipeline w ->
  (forall c, received w' = Some c ->
     is_wake c = false /\ (at_ w' = Top \/ at_ w' = Fill) /\ (length (pending w') < depth)%nat) ->
  (forall sending, wakes w sending = (if wake_queued w then 1%nat else 0%nat) ->
     wakes w' sending = (if wake_queued w' then 1%nat else 0%nat)) ->
  Worker_ok depth index gens (evs ++ es) signal w'.
Proof.
  intros Hok Hl Hl' (-> & Hre & Hde & Hfe)%apply_keys Hj Hk Hp Hr Hw.
  apply (worker_step_ok depth index gens evs signal w es w'); try done.
  - exists []. by rewrite Hp.
  - by right.
  - by left.
Qed.

Lemma thread_step_live depth index w es w' :
  thread_step (O:=O) depth index w es w' -> is_dead w = false /\ jobs w' = jobs w.
Proof.
  intros Hstep. split.
  - unfold is_dead. destruct Hstep; repeat match goal with E : at_ _ = _ |- _ => rewrite E end; done.
  - destruct Hstep as [? ? ? ? [= <- <-]|? ? ? Hf|? c| ? c ? ? ? ? [= <- <-]| | | | | | |? ? ? ? [= <- <-]| |];
      try done; [|by destruct c..].
    by apply fill_cases in Hf as [(? & ? & ? & ->)|[(? & ? & ? & ? & ? & ->)|[-> ?]]].
Qed.

Lemma fill_ok depth index gens evs signal w w' :
  Worker_ok depth index gens evs signal w -> is_dead w = false -> at_ w = Fill ->
  fill depth w = Some w' -> Worker_ok depth index gens evs signal w'.
Proof.
  intros Hok Hl Hq Hf. pose proof (ok_received _ _ _ _ _ _ Hok) as Hrec.
  apply fill_cases in Hf as [(c & Hlt & Hr & ->)|[(c & rest & Hlt & Hr & Hc & ->)|[-> Hor]]].
  - eapply quiet_step_ok; try done.
    + unfold pipeline. cbn. by rewrite Hq, Hr.
    + intros sending. unfold wakes. cbn. rewrite Hq. destruct (Hrec c Hr Hl) as [Hw _].
      destruct c; [done|discriminate].
  - eapply quiet_step_ok; try done.
    + unfold pipeline. cbn. by rewrite Hq, Hr, Hc.
    + cbn. by rewrite Hr.
    + intros sending. unfold wakes. cbn [channel at_ goto set_channel wake_queued].
      rewrite Hq, Hc, wakes_cons. destruct c; cbn; lia.
  - eapply quiet_step_ok; try done.
    + unfold pipeline. cbn. by rewrite Hq.
    + cbn. intros c Hc. destruct Hor as [Hge|Hn]; [|congruence]. destruct (Hrec c Hc Hl) as (_ & _ & Hlt). lia.
    + intros sending. unfold wakes. cbn. by rewrite Hq.
Qed.

(** With no more jobs than the depth, a full pipeline leaves none in the channel. *)
Lemma exceeded_absurd depth index gens evs signal w r queued rest :
  Worker_ok depth index gens evs signal w -> at_ w = Waiting ->
  channel w = Decode r queued :: rest -> (depth <= length (pending w))%nat -> False.
Proof.
  intros Hok Hq Hc Hge. destruct (ok_jobs _ _ _ _ _ _ Hok) as (fin & rest' & Hj & _ & Hp).
  assert (Hl : is_dead w = false) by (unfold is_dead; by rewrite Hq).
  pose proof (ok_depth _ _ _ _ _ _ Hok) as Hd. rewrite Hj, (Hp Hl) in Hd. unfold pipeline in Hd.
  rewrite Hc in Hd. cbn in Hd. rewrite !length_app, length_fmap in Hd. cbn in Hd. lia.
Qed.

Lemma thread_step_ok depth index gens evs signal w es w' :
  Worker_ok depth index gens evs signal w -> thread_step depth index w es w' ->
  Worker_ok depth index gens (evs ++ es) signal w'.
Proof.
  intros Hok Hstep. pose proof (thread_step_live _ _ _ _ _ Hstep) as [Hl Hj].
  pose proof (ok_received _ _ _ _ _ _ Hok) as Hrec.
  destruct Hstep as [w w1 es Hq Ha|w w1 Hq Hf|w c Hq|w c w1 es now Hq Ha|w Hq Hp|w s rest now completed result Hq Hp
    |w s rest now Hq Hp|w Hq|w rest Hq Hc|w Hq|w w1 es Hq Ha|w r queued rest Hq Hc Hlen|w r queued rest Hq Hc Hlen];
    rewrite ?app_nil_r.
  - destruct (apply_keys _ _ _ _ Ha) as (-> & _). eapply retire_step_ok; try done.
    + unfold pipeline. cbn. by rewrite Hq.
    + cbn. intros c Hc. destruct (Hrec c Hc Hl) as (? & _ & ?). auto.
    + intros sending. unfold wakes. cbn. by rewrite Hq.
  - by eapply fill_ok.
  - eapply quiet_step_ok; try done; [by destruct c|..].
    + unfold pipeline. destruct c; cbn; by rewrite Hq.
    + cbn. intros c' Hc'. destruct c; cbn in Hc'; destruct (Hrec c' Hc' Hl) as (_ & [] & _); congruence.
    + intros sending. unfold wakes. rewrite Hq. destruct c; cbn; [done|]. destruct (wake_queued w); lia.
  - destruct (apply_keys _ _ _ _ Ha) as (-> & _).
    assert (Hnone : received w = None).
    { destruct (received w) as [c'|] eqn:Hr; [|done]. destruct (Hrec c' eq_refl Hl) as (_ & [] & _); congruence. }
    eapply retire_step_ok; try done; [by destruct c|..].
    + unfold pipeline. destruct c; cbn; rewrite Hq; cbn; [|done].
      by rewrite Hnone, fmap_app, <- app_assoc.
    + destruct c; cbn; by rewrite Hnone.
    + intros sending. unfold wakes. rewrite Hq. by destruct c.
  - eapply quiet_step_ok; try done.
    + unfold pipeline. cbn. by rewrite Hq.
    + cbn. intros c Hc. destruct (Hrec c Hc Hl) as (? & _ & ?). auto.
    + intros sending. unfold wakes. cbn. by rewrite Hq.
  - eapply (worker_step_ok _ _ _ _ _ w); try done.
    + by repeat constructor.
    + exists [slot_job s]. unfold pipeline. cbn. rewrite Hq, Hp. cbn. split; [done|].
      unfold mark_polled. by destruct (slot_polled s).
    + cbn. intros c Hc. destruct (Hrec c Hc Hl) as (_ & [] & _); congruence.
    + intros sending. unfold wakes. cbn. by rewrite Hq.
    + by left.
    + by intros [? _].
  - eapply quiet_step_ok; try done.
    + unfold pipeline. cbn. rewrite Hq, Hp. cbn. f_equal. unfold slot_job, mark_polled. by destruct (slot_polled s).
    + cbn. intros c Hc. destruct (Hrec c Hc Hl) as (_ & [] & _); congruence.
    + intros sending. unfold wakes. cbn. by rewrite Hq.
  - eapply quiet_step_ok; try done.
    + unfold pipeline. cbn. by rewrite Hq.
    + cbn. intros c Hc. destruct (Hrec c Hc Hl) as (_ & [] & _); congruence.
    + intros sending. unfold wakes. cbn. by rewrite Hq.
  - eapply quiet_step_ok; try done.
    + unfold pipeline. cbn. by rewrite Hq, Hc.
    + cbn. intros c Hc'. destruct (Hrec c Hc' Hl) as (_ & [] & _); congruence.
    + intros sending. unfold wakes. cbn [channel at_ goto set_channel wake_queued]. rewrite Hq, Hc, wakes_cons. cbn. lia.
  - eapply quiet_step_ok; try done.
    + unfold pipeline. cbn. by rewrite Hq.
    + cbn. intros c Hc'. destruct (Hrec c Hc' Hl) as (_ & [] & _); congruence.
    + intros sending. unfold wakes. cbn. rewrite Hq. destruct (wake_queued w); lia.
  - destruct (apply_keys _ _ _ _ Ha) as (-> & _). eapply retire_step_ok; try done.
    + unfold pipeline. cbn. by rewrite Hq.
    + cbn. intros c Hc. destruct (Hrec c Hc Hl) as (_ & [] & _); congruence.
    + intros sending. unfold wakes. cbn. by rewrite Hq.
  - assert (Hnone : received w = None).
    { destruct (received w) as [c'|] eqn:Hr; [|done]. destruct (Hrec c' eq_refl Hl) as (_ & [] & _); congruence. }
    eapply quiet_step_ok; try done.
    + unfold pipeline. cbn. by rewrite Hq, Hc, Hnone.
    + cbn. intros c [= <-]. auto.
    + intros sending. unfold wakes. cbn [channel at_ goto set_channel set_received wake_queued].
      rewrite Hq, Hc, wakes_cons. cbn. lia.
  - exfalso. by eapply exceeded_absurd.
Qed.
End ThreadInvariant.

(** ** The pool and its threads together *)
Section System.
Context {R O : Type} `{DecodeJob R}.
Implicit Types (w : Worker R) (p : DecodePool R O) (evs es : list (Event O)).

(** [signal] is where the coordinator stands in [send_retirements]; the remaining fields
    record what happened: the jobs admitted to each worker, the completions handed out for
    each and the errors that threads or failed spawns gave. *)
Record system := MkSystem {
  pool : DecodePool R O;
  signal : option (nat * bool);
  admitted : list (nat * Z);
  completed : list (nat * DecodeCompletion O);
  reported : list error;
}.

Definition admission (p' : DecodePool R O) (r : R) (res : Submit R) : list (nat * Z) :=
  match res, generations p' !! frame_key (frame r) with
  | Submitted, Some g => [(generation_worker g, token r)]
  | _, _ => []
  end.

Inductive system_step : system -> system -> Prop :=
  | system_decode p a c e spawned r now p' res :
      try_decode spawned r now p = Ret (p', res) ->
      system_step (MkSystem p None a c e)
        (MkSystem p' None (a ++ admission p' r res) c
           (if spawned then e else e ++ [ErrMsg "could not spawn decoder worker"]))
  | system_retire p a c e key p' :
      retire key p = Ret p' -> system_step (MkSystem p None a c e) (MkSystem p' None a c e)
  | system_publish p a c e key i :
      failure p = None -> retirement_due p key = Some i ->
      system_step (MkSystem p None a c e) (MkSystem (publish_retirement i key p) (Some (i, false)) a c e)
  | system_swap p a c e i p' queued :
      swap_wake i p = (p', queued) ->
      system_step (MkSystem p (Some (i, false)) a c e)
        (MkSystem p' (if queued then None else Some (i, true)) a c e)
  | system_wake p a c e i :
      system_step (MkSystem p (Some (i, true)) a c e) (MkSystem (send_wake i p) None a c e)
  | system_event p a c e ev rest p' cs :
      events p = ev :: rest -> handle_event ev (set_events rest p) = (p', cs) ->
      system_step (MkSystem p None a c e) (MkSystem p' None a (c ++ (pair (event_worker ev) <$> cs)) e)
  | system_take p a c e :
      system_step (MkSystem p None a c e) (MkSystem (take_failure p).1 None a c e)
  | system_thread p s a c e i w es w' :
      workers p !! i = Some w -> thread_step (depth (limits p)) i w es w' ->
      system_step (MkSystem p s a c e)
        (MkSystem (set_events (events p ++ es) (set_workers (<[i := w']> (workers p)) p)) s a c e)
  | system_fail p s a c e i w cause :
      workers p !! i = Some w -> is_dead w = false ->
      system_step (MkSystem p s a c e)
        (MkSystem (set_events (events p ++ [Failed i cause]) (set_workers (<[i := goto Dead w]> (workers p)) p))
           s a c (e ++ [cause])).

Definition events_of (i : nat) (evs : list (Event O)) : list (Event O) :=
  filter (fun e => event_worker e = i) evs.
Definition signal_of (s : option (nat * bool)) (i : nat) : option bool :=
  match s with Some (j, b) => if bool_decide (j = i) then Some b else None | None => None end.

Definition tokens_of (i : nat) (l : list (nat * Z)) : list Z := (filter (fun e => e.1 = i) l).*2.
Definition completed_tokens (i : nat) (l : list (nat * DecodeCompletion O)) : list Z :=
  completion_token <$> (filter (fun e => e.1 = i) l).*2.

#[local] Arguments events_of : simpl never.
#[local] Arguments signal_of : simpl never.
#[local] Arguments tokens_of : simpl never.
#[local] Arguments completed_tokens : simpl never.
#[local] Arguments total_jobs : simpl never.

(** Generations: every one belongs to a worker that exists, one stream is one worker's,
    and a retirement is sent only for one that retires. *)
Record Generations_ok (n : nat) (gens : gmap GenerationKey Generation) : Prop := {
  gens_range : map_Forall (fun _ g => (generation_worker g < n)%nat) gens;
  gens_affine : forall k k' g g', gens !! k = Some g -> gens !! k' = Some g' -> k.1 = k'.1 ->
    generation_worker g = generation_worker g';
  gens_sent : map_Forall (fun _ g => retirement_sent g = true -> retiring g = true) gens;
}.

Record Limits_ok (p : DecodePool R O) : Prop := {
  limit_depth : (1 <= depth (limits p))%nat;
  limit_jobs : (total_jobs p <= max_jobs (limits p))%nat;
  limit_generations : (size (generations p) <= max_generations (limits p))%nat;
  limit_workers : (length (workers p) <= max_workers (limits p))%nat;
}.

Record System_ok (s : system) : Prop := {
  sys_limits : Limits_ok (pool s);
  sys_generations : Generations_ok (length (workers (pool s))) (generations (pool s));
  sys_workers : forall i w, workers (pool s) !! i = Some w ->
    Worker_ok (depth (limits (pool s))) i (generations (pool s)) (events_of i (events (pool s)))
      (signal_of (signal s) i) w;
  sys_events : Forall (fun e => (event_worker e < length (workers (pool s)))%nat) (events (pool s));
  sys_failed : Forall (fun ev => match ev with Failed _ e => e ∈ reported s | _ => True end) (events (pool s));
  sys_failure : forall e, failure (pool s) = Some e -> e ∈ reported s;
  sys_log : forall i w, workers (pool s) !! i = Some w ->
    tokens_of i (admitted s) = completed_tokens i (completed s) ++ (job_token <$> jobs w);
  sys_log_range : Forall (fun e => (e.1 < length (workers (pool s)))%nat) (admitted s) /\
    Forall (fun e => (e.1 < length (workers (pool s)))%nat) (completed s);
}.

Lemma tokens_of_app i l k : tokens_of i (l ++ k) = tokens_of i l ++ tokens_of i k.
Proof. unfold tokens_of. by rewrite list.filter_app, fmap_app. Qed.
Lemma completed_tokens_app i l k : completed_tokens i (l ++ k) = completed_tokens i l ++ completed_tokens i k.
Proof. unfold completed_tokens. by rewrite list.filter_app, !fmap_app. Qed.
Lemma completed_tokens_pair i j (cs : list (DecodeCompletion O)) :
  completed_tokens i (pair j <$> cs) = if bool_decide (j = i) then completion_token <$> cs else [].
Proof.
  unfold completed_tokens. induction cs as [|c cs IH]; [by case_bool_decide|].
  rewrite fmap_cons, filter_cons. cbn. case_bool_decide; [rewrite decide_True by done|rewrite decide_False by done].
  - by rewrite !fmap_cons, IH.
  - exact IH.
Qed.
Lemma events_of_app i evs es : events_of i (evs ++ es) = events_of i evs ++ events_of i es.
Proof. apply list.filter_app. Qed.
Lemma events_of_all i es : Forall (fun e => event_worker e = i) es -> events_of i es = es.
Proof.
  induction 1 as [|e es He _ IH]; [done|]. unfold events_of in *. rewrite filter_cons, decide_True by done. by f_equal.
Qed.
Lemma events_of_none i es : Forall (fun e => event_worker e <> i) es -> events_of i es = [].
Proof.
  induction 1 as [|e es He _ IH]; [done|]. unfold events_of in *. rewrite filter_cons, decide_False by done. done.
Qed.
Lemma signal_of_same i b : signal_of (Some (i, b)) i = Some b.
Proof. unfold signal_of. by rewrite bool_decide_true. Qed.
Lemma signal_of_other i j b : i <> j -> signal_of (Some (i, b)) j = None.
Proof. intros. unfold signal_of. by rewrite bool_decide_false. Qed.

Lemma thread_events depth i w es w' :
  thread_step (O:=O) depth i w es w' -> Forall (fun e => event_worker e = i) es.
Proof.
  intros Hs. destruct Hs as [? ? ? ? [= <- <-]| | | ? ? ? ? ? ? [= <- <-]| | | | | | |? ? ? ? [= <- <-]| |];
    try (by repeat constructor); apply Forall_fmap, Forall_true; done.
Qed.

Lemma total_jobs_insert p i w w' :
  workers p !! i = Some w ->
  (total_jobs (set_workers (<[i := w']> (workers p)) p) + length (jobs w) = total_jobs p + length (jobs w'))%nat.
Proof.
  unfold total_jobs. cbn. generalize (workers p) as l. intros l. revert i. induction l as [|x l IH]; intros [|i] Hi; try done.
  - injection Hi as ->. change (<[0%nat:=w']> (w :: l)) with (w' :: l). cbn. lia.
  - change (<[S i:=w']> (x :: l)) with (x :: <[i:=w']> l). cbn in Hi |- *. specialize (IH i Hi). lia.
Qed.

(** ** Each step keeps the invariant *)

Lemma gens_change depth index gens gens' evs sg w :
  Worker_ok depth index gens evs sg w ->
  (forall k, (k ∈ keys w) \/ (k ∈ retired_keys evs) -> gens !! k = Some (MkGeneration index true true) ->
     gens' !! k = Some (MkGeneration index true true)) ->
  (forall j g, j ∈ jobs w -> gens !! job_key j = Some g -> generation_worker g = index -> retirement_sent g = false ->
     exists g', gens' !! job_key j = Some g' /\ generation_worker g' = index /\ retirement_sent g' = false) ->
  Worker_ok depth index gens' evs sg w.
Proof.
  intros [] Hk Hj. split; try done.
  - intros k Hin. apply Hk; auto.
  - intros j Hin. destruct (ok_owned0 j Hin) as (g & ? & ? & ?). by apply (Hj j g).
Qed.

Lemma alter_insert (f : Worker R -> Worker R) (ws : list (Worker R)) i w :
  ws !! i = Some w -> alter f i ws = <[i := f w]> ws.
Proof.
  revert i. induction ws as [|x ws IH]; intros [|i] Hi; try done.
  - by injection Hi as ->.
  - change (x :: alter f i ws = x :: <[i := f w]> ws). by rewrite (IH i Hi).
Qed.

Lemma workers_insert (P : nat -> Worker R -> Prop) (ws : list (Worker R)) i w' :
  P i w' -> (forall j w, j <> i -> ws !! j = Some w -> P j w) ->
  forall j w, <[i := w']> ws !! j = Some w -> P j w.
Proof.
  intros Hi Ho j w Hj. apply list_lookup_insert_Some in Hj as [(-> & -> & _)|[Hne Hj]]; [done|]. apply Ho; auto.
Qed.

(** A thread's step. *)
Lemma system_thread_ok p s a c e i w es w' :
  System_ok (MkSystem p s a c e) -> workers p !! i = Some w -> thread_step (depth (limits p)) i w es w' ->
  System_ok (MkSystem (set_events (events p ++ es) (set_workers (<[i := w']> (workers p)) p)) s a c e).
Proof.
  intros [Hl Hg Hw He Hf Hfl Hlog Hr] Hi Hstep. cbn in *.
  pose proof (thread_events _ _ _ _ _ Hstep) as Hes. pose proof (thread_step_live _ _ _ _ _ Hstep) as [Hlive Hj].
  pose proof (thread_step_ok _ _ _ _ _ _ _ _ (Hw i w Hi) Hstep) as Hok.
  assert (Hlen : length (<[i := w']> (workers p)) = length (workers p)) by apply length_insert.
  assert (Hnf : Forall (fun ev => is_failed ev = false) es).
  { assert (Hd : is_dead w' = false \/ is_dead w' = true) by (destruct (is_dead w'); auto).
    destruct Hstep as [? ? ? ? Ha| | |? ? ? ? ? ? Ha| | | | | | |? ? ? ? Ha| |? ? ? ? ? Hc Hge]; try (by repeat constructor);
      try (by apply apply_keys in Ha as (_ & _ & _ & ?)).
    exfalso. by eapply exceeded_absurd; [apply (Hw i _ Hi)|..]. }
  split; cbn.
  - destruct Hl as [? Ht ? ?]. split; cbn; [done| |done|by rewrite Hlen].
    pose proof (total_jobs_insert p i w w' Hi) as Hti. rewrite Hj in Hti. unfold total_jobs in *. cbn in *. lia.
  - by rewrite Hlen.
  - apply workers_insert.
    + by rewrite events_of_app, (events_of_all i es Hes).
    + intros j u Hne Hu. rewrite events_of_app, (events_of_none j es), app_nil_r; [by apply Hw|].
      eapply Forall_impl; [|exact Hes]. intros x ->. done.
  - rewrite Hlen. apply Forall_app. split; [done|]. eapply Forall_impl; [|exact Hes].
    intros x ->. by eapply lookup_lt_Some.
  - apply Forall_app. split; [done|]. eapply Forall_impl; [|exact Hnf]. by intros [].
  - done.
  - apply workers_insert; [|intros j u _; apply Hlog]. by rewrite Hj, (Hlog i w Hi).
  - by rewrite Hlen.
Qed.

Lemma dead_ok depth i gens evs sg w cause :
  Worker_ok depth i gens evs sg w -> is_dead w = false ->
  Worker_ok depth i gens (evs ++ [Failed i cause]) sg (goto Dead w).
Proof.
  intros [(fin & rest & Hj & Hd & Hp) Hdep Hal Hlast Hrec Hwk Hr Hk Hs Ho Haw] Hl. specialize (Hal Hl).
  split; rewrite ?retired_keys_app, ?app_nil_r; try done.
  - exists fin, rest. rewrite decoded_tokens_app. cbn. by rewrite app_nil_r.
  - intros before x after Heq Hx. destruct (decide (after = [])) as [|Hne]; [done|].
    destruct (exists_last Hne) as (after' & y & ->). rewrite app_comm_cons, app_assoc in Heq.
    apply app_inj_tail in Heq as [-> <-]. apply Forall_app in Hal as [_ Hal].
    apply list.Forall_cons in Hal as [Hal _]. congruence.
  - by intros [? _].
Qed.

Lemma system_fail_ok p s a c e i w cause :
  System_ok (MkSystem p s a c e) -> workers p !! i = Some w -> is_dead w = false ->
  System_ok (MkSystem (set_events (events p ++ [Failed i cause]) (set_workers (<[i := goto Dead w]> (workers p)) p))
    s a c (e ++ [cause])).
Proof.
  intros [Hl Hg Hw He Hf Hfl Hlog Hr] Hi Hlive. cbn in *.
  assert (Hlen : length (<[i := goto Dead w]> (workers p)) = length (workers p)) by apply length_insert.
  split; cbn.
  - destruct Hl as [? Ht ? ?]. split; cbn; [done| |done|by rewrite Hlen].
    pose proof (total_jobs_insert p i w (goto Dead w) Hi) as Hti. unfold total_jobs in *. cbn in *. lia.
  - by rewrite Hlen.
  - apply workers_insert.
    + rewrite events_of_app, (events_of_all i [_]) by (by constructor). apply dead_ok; [by apply Hw|done].
    + intros j u Hne Hu. rewrite events_of_app, (events_of_none j [_]), app_nil_r; [by apply Hw|]. constructor; cbn; auto.
  - rewrite Hlen. apply Forall_app. split; [done|]. constructor; [|done]. by eapply lookup_lt_Some.
  - apply Forall_app. split; [|constructor; [set_solver|done]].
    eapply Forall_impl; [|exact Hf]. intros [] ?; set_solver.
  - intros x Hx. apply elem_of_app. left. by apply Hfl.
  - apply workers_insert; [exact (Hlog i w Hi)|]. intros j u _. apply Hlog.
  - by rewrite Hlen.
Qed.

(** Handling an event. *)
Lemma events_of_head ev rest i :
  events_of i (ev :: rest) = if bool_decide (event_worker ev = i) then ev :: events_of i rest else events_of i rest.
Proof.
  unfold events_of. rewrite filter_cons. case_bool_decide; [by rewrite decide_True|by rewrite decide_False].
Qed.

Lemma decoded_ok depth i gens c evs sg w :
  Worker_ok depth i gens (Decoded i c :: evs) sg w ->
  exists job rest, jobs w = job :: rest /\ job_token job = completion_token c /\
    Worker_ok depth i gens evs sg (set_jobs rest w).
Proof.
  intros [(fin & rest & Hj & Hd & Hp) Hdep Hal Hlast Hrec Hwk Hr Hk Hs Ho Haw]. cbn in Hd.
  destruct fin as [|job fin]; [done|]. injection Hd as Hc Hd. exists job, (fin ++ rest).
  split; [done|]. split; [done|]. rewrite Hj in Hdep, Ho. split; try done.
  - by exists fin, rest.
  - cbn in *. lia.
  - intros Hl. specialize (Hal Hl). by apply list.Forall_cons in Hal as [_ Hal].
  - intros before x after ->. by apply (Hlast (Decoded i c :: before)).
  - intros j Hin. apply Ho. by right.
Qed.

Lemma retired_ok depth i gens k evs sg w :
  Worker_ok depth i gens (Retired i k :: evs) sg w ->
  gens !! k = Some (MkGeneration i true true) /\ Worker_ok depth i (delete k gens) evs sg w.
Proof.
  intros [Hj Hdep Hal Hlast Hrec Hwk Hr Hk Hs Ho Haw]. cbn in Hr, Hk, Hs, Hj.
  apply list.NoDup_cons in Hr as [Hnin Hr].
  assert (Hkk : gens !! k = Some (MkGeneration i true true)) by (apply Hs; right; by left). split; [done|].
  assert (Hkw : k ∉ keys w) by (apply Hk; by left).
  split; try done.
  - intros Hl. specialize (Hal Hl). by apply list.Forall_cons in Hal as [_ Hal].
  - intros before x after ->. by apply (Hlast (Retired i k :: before)).
  - intros k' Hin. apply Hk. by right.
  - intros k' Hin. rewrite lookup_delete_ne; [apply Hs; destruct Hin; [by left|right; by right]|].
    intros ->. by destruct Hin.
  - intros j Hin. destruct (Ho j Hin) as (g & Hg & ? & Hsent). exists g. rewrite lookup_delete_ne; [done|].
    intros ->. rewrite Hkk in Hg. injection Hg as <-. done.
Qed.

Lemma failed_ok depth i gens e evs sg w :
  Worker_ok depth i gens (Failed i e :: evs) sg w -> evs = [] /\ Worker_ok depth i gens evs sg (set_jobs [] w).
Proof.
  intros [Hj Hdep Hal Hlast Hrec Hwk Hr Hk Hs Ho Haw].
  assert (evs = []) as -> by by apply (Hlast [] (Failed i e)). split; [done|].
  assert (Hdead : is_dead w = true).
  { destruct (is_dead w) eqn:Hd; [done|]. specialize (Hal eq_refl). by apply list.Forall_cons in Hal as [? _]. }
  assert (Hdead' : is_dead (set_jobs [] w) = true) by exact Hdead.
  split; rewrite ?Hdead'; try done; cbn.
  - by exists [], [].
  - lia.
  - intros [|] ? ?; done.
  - set_solver.
Qed.

Lemma delete_generation_ok n gens k : Generations_ok n gens -> Generations_ok n (delete k gens).
Proof.
  intros [Hr Ha Hs]. split; [by apply map_Forall_delete| |by apply map_Forall_delete].
  intros k1 k2 g1 g2 [_ H1]%lookup_delete_Some [_ H2]%lookup_delete_Some. by apply Ha.
Qed.

Lemma system_decoded_ok p a c e i cp rest p' cs :
  System_ok (MkSystem p None a c e) -> events p = Decoded i cp :: rest ->
  handle_decoded i cp (set_events rest p) = (p', cs) ->
  System_ok (MkSystem p' None a (c ++ (pair i <$> cs)) e).
Proof.
  intros [Hl Hg Hw He Hf Hfl Hlog Hr] Hev Hh. cbn in *. rewrite Hev in *.
  apply list.Forall_cons in He as [Hi He]. cbn in Hi. apply list.Forall_cons in Hf as [_ Hf].
  destruct (lookup_lt_is_Some_2 _ _ Hi) as [w Hwi].
  pose proof (Hw i w Hwi) as Hok. rewrite events_of_head, bool_decide_true in Hok by done.
  destruct (decoded_ok _ _ _ _ _ _ _ Hok) as (job & jrest & Hj & Htok & Hok').
  unfold handle_decoded in Hh. cbn in Hh. rewrite Hwi in Hh. cbn in Hh. rewrite Hj in Hh. cbn in Hh.
  rewrite Htok, Z.eqb_refl in Hh. injection Hh as <- <-.
  rewrite (alter_insert _ _ _ _ Hwi). cbn. rewrite Hj. cbn.
  assert (Hlen : length (<[i := set_jobs jrest w]> (workers p)) = length (workers p)) by apply length_insert.
  split; cbn; rewrite ?Hlen; try done.
  - destruct Hl as [? Ht ? ?]. split; cbn; [done| |done|by rewrite Hlen].
    pose proof (total_jobs_insert p i w (set_jobs jrest w) Hwi) as Hti. rewrite Hj in Hti. unfold total_jobs in *.
    cbn in *. lia.
  - apply workers_insert; [done|]. intros j u Hne Hu. specialize (Hw j u Hu).
    rewrite events_of_head, bool_decide_false in Hw by (cbn; auto). done.
  - apply workers_insert.
    + pose proof (Hlog i w Hwi) as Hli. rewrite completed_tokens_app, Hli, Hj. change [(i, cp)] with (pair i <$> [cp]).
      rewrite (completed_tokens_pair i i [cp]), bool_decide_true by done. cbn. rewrite Htok. by rewrite <- app_assoc.
    + intros j u Hne Hu. change [(i, cp)] with (pair i <$> [cp]).
      rewrite completed_tokens_app, completed_tokens_pair, bool_decide_false by auto.
      rewrite app_nil_r. by apply Hlog.
  - destruct Hr as [? ?]. split; [done|]. apply Forall_app. split; [done|]. by constructor.
Qed.

Lemma system_retired_ok p a c e i k rest :
  System_ok (MkSystem p None a c e) -> events p = Retired i k :: rest ->
  System_ok (MkSystem (handle_retired i k (set_events rest p)) None a c e).
Proof.
  intros [Hl Hg Hw He Hf Hfl Hlog Hr] Hev. cbn in *. rewrite Hev in *.
  apply list.Forall_cons in He as [Hi He]. cbn in Hi. apply list.Forall_cons in Hf as [_ Hf].
  destruct (lookup_lt_is_Some_2 _ _ Hi) as [w Hwi].
  pose proof (Hw i w Hwi) as Hok. rewrite events_of_head, bool_decide_true in Hok by done.
  destruct (retired_ok _ _ _ _ _ _ _ Hok) as [Hk Hok'].
  unfold handle_retired. cbn. rewrite Hk. cbn. rewrite bool_decide_true by done. cbn.
  split; cbn; try done.
  - destruct Hl as [? ? Hs ?]. split; cbn; [done|done| |done]. etrans; [|exact Hs].
    apply map_subseteq_size, delete_subseteq.
  - by apply delete_generation_ok.
  - intros j u Hu. destruct (decide (j = i)) as [->|Hne]; [by rewrite Hwi in Hu; injection Hu as <-|].
    specialize (Hw j u Hu). rewrite events_of_head, bool_decide_false in Hw by (cbn; auto).
    eapply gens_change; [exact Hw|..].
    + intros k' _ Hk'. rewrite lookup_delete_ne; [done|]. intros ->. rewrite Hk in Hk'. congruence.
    + intros j' g _ Hg' Hgw Hgs. exists g. rewrite lookup_delete_ne; [done|].
      intros ->. rewrite Hk in Hg'. injection Hg' as <-. done.
Qed.

Lemma system_failed_ok p a c e i cause rest p' cs :
  System_ok (MkSystem p None a c e) -> events p = Failed i cause :: rest ->
  handle_failed i cause (set_events rest p) = (p', cs) ->
  System_ok (MkSystem p' None a (c ++ (pair i <$> cs)) e).
Proof.
  intros [Hl Hg Hw He Hf Hfl Hlog Hr] Hev Hh. cbn in *. rewrite Hev in *.
  apply list.Forall_cons in He as [Hi He]. cbn in Hi. apply list.Forall_cons in Hf as [Hrep Hf].
  destruct (lookup_lt_is_Some_2 _ _ Hi) as [w Hwi].
  pose proof (Hw i w Hwi) as Hok. rewrite events_of_head, bool_decide_true in Hok by done.
  destruct (failed_ok _ _ _ _ _ _ _ Hok) as [Hnil Hok'].
  unfold handle_failed in Hh. cbn in Hh. rewrite Hwi in Hh. injection Hh as <- <-.
  rewrite (alter_insert _ _ _ _ Hwi).
  set (q := set_workers (<[i := set_jobs [] w]> (workers p)) (set_events rest p)).
  assert (Hq : let f := fail cause q in workers f = workers q /\ generations f = generations q /\
    events f = rest /\ limits f = limits p /\ (forall x, failure f = Some x -> x ∈ e)).
  { unfold fail. destruct (failure q) as [x|] eqn:Hfail; repeat split; [done|..].
    intros y [= <-]. done. }
  destruct Hq as (Hqw & Hqg & Hqe & Hql & Hqf).
  assert (Hlen : length (workers q) = length (workers p)) by apply length_insert.
  split; cbn; rewrite ?Hqw, ?Hqg, ?Hqe, ?Hql, ?Hlen; try done.
  - destruct Hl as [? Ht ? ?]. split; cbn; rewrite ?Hql, ?Hqg, ?Hqw, ?Hlen; try done.
    pose proof (total_jobs_insert p i w (set_jobs [] w) Hwi) as Hti. unfold total_jobs in *. rewrite Hqw.
    cbn in *. lia.
  - apply workers_insert; [done|]. intros j u Hne Hu. specialize (Hw j u Hu).
    rewrite events_of_head, bool_decide_false in Hw by (cbn; auto). done.
  - apply workers_insert.
    + pose proof (Hlog i w Hwi) as Hli. rewrite completed_tokens_app, Hli, completed_tokens_pair, bool_decide_true by done.
      cbn. rewrite app_nil_r. f_equal. by rewrite <- list_fmap_compose.
    + intros j u Hne Hu. rewrite completed_tokens_app, completed_tokens_pair, bool_decide_false by auto.
      rewrite app_nil_r. by apply Hlog.
  - destruct Hr as [? ?]. split; [done|]. apply Forall_app. split; [done|]. apply Forall_fmap, Forall_true. done.
Qed.

(** Retirement. *)
Lemma retire_generations_ok n gens k :
  Generations_ok n gens ->
  Generations_ok n (alter (fun g => MkGeneration (generation_worker g) true (retirement_sent g)) k gens).
Proof.
  intros [Hr Ha Hs].
  assert (Hlk : forall k' g', alter (fun g => MkGeneration (generation_worker g) true (retirement_sent g)) k gens !! k' = Some g' ->
    exists g, gens !! k' = Some g /\ generation_worker g = generation_worker g' /\
      (retirement_sent g' = retirement_sent g) /\ (retiring g = true -> retiring g' = true) ).
  { intros k' g' [(-> & g & Hg & ->)|[Hne Hg]]%lookup_alter_Some; [by exists g|by exists g']. }
  split.
  - intros k' g' (g & Hg & <- & _)%Hlk. by apply (Hr k').
  - intros k1 k2 g1 g2 (x & Hx & <- & _)%Hlk (y & Hy & <- & _)%Hlk. by apply Ha.
  - intros k' g' Hg'. destruct (Hlk _ _ Hg') as (g & Hg & _ & -> & Hi). intros Hsent. apply Hi. by apply (Hs k').
Qed.

Lemma system_retire_ok p a c e key p' :
  System_ok (MkSystem p None a c e) -> retire key p = Ret p' -> System_ok (MkSystem p' None a c e).
Proof.
  intros [Hl Hg Hw He Hf Hfl Hlog Hr]. unfold retire. destruct (failure p) eqn:Hfail; [done|]. intros [= <-]. cbn in *.
  split; cbn; try done.
  - destruct Hl. split; try done. cbn. by rewrite <- (size_dom (D:=gset GenerationKey)), dom_alter_L, size_dom.
  - by apply retire_generations_ok.
  - intros i w Hi. eapply gens_change; [by apply Hw|..].
    + intros k _ Hk. destruct (decide (k = key)) as [->|Hne]; [by rewrite lookup_alter_eq, Hk|].
      by rewrite lookup_alter_ne.
    + intros j g _ Hj <- Hsent. destruct (decide (job_key j = key)) as [Heq|Hne].
      * exists (MkGeneration (generation_worker g) true (retirement_sent g)). by rewrite Heq in *; rewrite lookup_alter_eq, Hj.
      * exists g. by rewrite lookup_alter_ne.
Qed.

Lemma retirement_due_spec p key i :
  retirement_due p key = Some i ->
  exists g w, generations p !! key = Some g /\ generation_worker g = i /\ workers p !! i = Some w /\
    retiring g = true /\ retirement_sent g = false /\ forall j, j ∈ jobs w -> job_key j <> key.
Proof.
  unfold retirement_due. destruct (generations p !! key) as [g|] eqn:Hg; [|done].
  destruct (workers p !! generation_worker g) as [w|] eqn:Hw; [|done].
  destruct (retiring g) eqn:Hr, (retirement_sent g) eqn:Hs; cbn; try done.
  destruct (existsb _ (jobs w)) eqn:He; cbn; [done|]. intros [= <-]. exists g, w. repeat split; try done.
  intros j Hj Hk. assert (existsb (fun j => bool_decide (job_key j = key)) (jobs w) = true); [|congruence].
  apply existsb_exists. exists j. split; [by apply list_elem_of_In|]. by apply bool_decide_eq_true.
Qed.

Lemma publish_ok depth i gens evs w key g :
  Worker_ok depth i gens evs None w -> gens !! key = Some g -> retirement_sent g = false ->
  (forall j, j ∈ jobs w -> job_key j <> key) ->
  Worker_ok depth i (<[key := MkGeneration i true true]> gens) evs (Some false) (set_keys ({[key]} ∪ keys w) w).
Proof.
  intros [Hj Hdep Hal Hlast Hrec Hwk Hr Hk Hs Ho Haw] Hg Hsent Hnj.
  assert (Hnew : forall k, (k ∈ keys w) \/ (k ∈ retired_keys evs) -> k <> key).
  { intros k Hin ->. rewrite (Hs key Hin) in Hg. injection Hg as <-. done. }
  split; cbn; try done.
  - intros k Hin [->%elem_of_singleton|Hin']%elem_of_union; [by apply (Hnew key); [by right|]|by apply (Hk k)].
  - intros k Hin. destruct (decide (k = key)) as [->|Hne]; [by rewrite lookup_insert_eq|].
    rewrite lookup_insert_ne by done. apply Hs. set_solver.
  - intros j Hin. destruct (Ho j Hin) as (g' & ? & ? & ?). exists g'. rewrite lookup_insert_ne; [done|].
    intros Heq. by apply (Hnj j).
  - intros _. by right.
Qed.

Lemma system_publish_ok p a c e key i :
  System_ok (MkSystem p None a c e) -> retirement_due p key = Some i ->
  System_ok (MkSystem (publish_retirement i key p) (Some (i, false)) a c e).
Proof.
  intros [Hl Hg Hw He Hf Hfl Hlog Hr] (g & w & Hk & Hgi & Hi & Hret & Hsent & Hnj)%retirement_due_spec. cbn in *.
  unfold publish_retirement. cbn. rewrite (alter_insert _ _ _ _ Hi).
  set (w' := set_keys ({[key]} ∪ keys w) w).
  assert (Hlen : length (<[i := w']> (workers p)) = length (workers p)) by apply length_insert.
  split; cbn; rewrite ?Hlen; try done.
  - destruct Hl as [? Ht ? ?]. split; cbn; [done| | |by rewrite Hlen].
    + pose proof (total_jobs_insert p i w w' Hi) as Hti. unfold total_jobs in *. cbn in *. lia.
    + by rewrite map_size_insert_Some by (by exists g).
  - destruct Hg as [Hgr Hga Hgs]. split.
    + apply map_Forall_insert_2; [cbn; rewrite <- Hgi; by apply (Hgr key)|done].
    + assert (Hpt : forall k g', <[key := MkGeneration i true true]> (generations p) !! k = Some g' ->
        exists g0, generations p !! k = Some g0 /\ generation_worker g0 = generation_worker g').
      { intros k g' [[<- <-]|[_ ?]]%lookup_insert_Some; [by exists g|by exists g']. }
      intros k1 k2 g1 g2 (x & Hx & <-)%Hpt (y & Hy & <-)%Hpt. by apply Hga.
    + by apply map_Forall_insert_2.
  - apply workers_insert.
    + rewrite signal_of_same. by eapply publish_ok; [apply (Hw i w Hi)|..].
    + intros j u Hne Hu. rewrite signal_of_other by done. eapply gens_change; [by apply (Hw j u)|..].
      * intros k _ Hkk. rewrite lookup_insert_ne; [done|]. intros <-. rewrite Hk in Hkk. injection Hkk as ->. done.
      * intros x gx _ Hx Hgx Hsx. exists gx. rewrite lookup_insert_ne; [done|]. intros Heq.
        rewrite <- Heq, Hk in Hx. injection Hx as ->. congruence.
  - apply workers_insert; [exact (Hlog i w Hi)|intros j u _; apply Hlog].
Qed.

Lemma signal_change depth i gens evs sg sg' w :
  Worker_ok depth i gens evs sg w ->
  (is_dead w = false -> wakes w (bool_decide (sg' = Some true)) = if wake_queued w then 1%nat else 0%nat) ->
  (blocked w -> keys w = ∅ \/ sg' <> None) -> Worker_ok depth i gens evs sg' w.
Proof. intros [] Hw Hb. by split. Qed.

(** A system with one worker replaced, nothing else of the pool, and a new signal stage. *)
Lemma system_worker_ok p s s' a c e i w w' :
  System_ok (MkSystem p s a c e) -> workers p !! i = Some w -> jobs w' = jobs w ->
  Worker_ok (depth (limits p)) i (generations p) (events_of i (events p)) (signal_of s' i) w' ->
  (forall j, j <> i -> signal_of s' j = signal_of s j) ->
  System_ok (MkSystem (set_workers (<[i := w']> (workers p)) p) s' a c e).
Proof.
  intros [Hl Hg Hw He Hf Hfl Hlog Hr] Hi Hj Hok Hs. cbn in *.
  assert (Hlen : length (<[i := w']> (workers p)) = length (workers p)) by apply length_insert.
  split; cbn; rewrite ?Hlen; try done.
  - destruct Hl as [? Ht ? ?]. split; cbn; [done| |done|by rewrite Hlen].
    pose proof (total_jobs_insert p i w w' Hi) as Hti. rewrite Hj in Hti. unfold total_jobs in *. cbn in *. lia.
  - apply workers_insert; [done|]. intros j u Hne Hu. rewrite Hs by done. by apply Hw.
  - apply workers_insert; [by rewrite Hj; apply Hlog|intros j u _; apply Hlog].
Qed.

(** A signal to a worker that does not exist changes nothing. *)
Lemma system_stray_ok p i b (f : Worker R -> Worker R) s' a c e :
  System_ok (MkSystem p (Some (i, b)) a c e) -> workers p !! i = None ->
  (forall j, i <> j -> signal_of s' j = None) ->
  System_ok (MkSystem (set_workers (alter f i (workers p)) p) s' a c e).
Proof.
  intros [Hl Hg Hw He Hf Hfl Hlog Hr] Hi Hs.
  assert (alter f i (workers p) = workers p) as ->.
  { apply list_eq. intros j. destruct (decide (j = i)) as [->|Hne].
    - by rewrite list_lookup_alter_eq, Hi.
    - by rewrite list_lookup_alter_ne. }
  assert (set_workers (workers p) p = p) as -> by by destruct p.
  split; try done. cbn. intros j u Hu. assert (i <> j) by (intros ->; congruence).
  specialize (Hw j u Hu). cbn in Hw. rewrite signal_of_other in Hw by done. by rewrite Hs.
Qed.

Lemma swap_ok depth i gens evs w :
  Worker_ok depth i gens evs (Some false) w ->
  Worker_ok depth i gens evs (if wake_queued w then None else Some true) (set_wake true w).
Proof.
  intros [Hj Hdep Hal Hlast Hrec Hwk Hr Hk Hs Ho Haw]. split; try done.
  - intros Hlive. specialize (Hwk Hlive). unfold wakes in *. cbn [channel at_ set_wake wake_queued] in *.
    rewrite bool_decide_false in Hwk by done.
    destruct (wake_queued w); [rewrite bool_decide_false by done|rewrite bool_decide_true by done]; lia.
  - destruct (wake_queued w) eqn:Hq; [|by right]. intros (Hat & Hp & Hrc & Hch). cbn in *.
    assert (Hlive : is_dead w = false) by (unfold is_dead; by rewrite Hat).
    specialize (Hwk Hlive). unfold wakes in Hwk. rewrite Hat, Hch, bool_decide_false in Hwk by done.
    cbn in Hwk. lia.
Qed.

Lemma system_swap_ok p a c e i :
  System_ok (MkSystem p (Some (i, false)) a c e) ->
  System_ok (MkSystem (swap_wake i p).1 (if (swap_wake i p).2 then None else Some (i, true)) a c e).
Proof.
  intros Hok. unfold swap_wake. cbn. destruct (workers p !! i) as [w|] eqn:Hi.
  - rewrite (alter_insert _ _ _ _ Hi). pose proof (sys_workers _ Hok i w Hi) as Hw. cbn in Hw.
    rewrite signal_of_same in Hw. apply swap_ok in Hw.
    eapply system_worker_ok; [exact Hok|exact Hi|done| |].
    + destruct (wake_queued w); [done|by rewrite signal_of_same].
    + intros j Hne. destruct (wake_queued w); rewrite ?signal_of_other by done; done.
  - eapply system_stray_ok; [done|done|]. intros j Hne. by rewrite ?signal_of_other.
Qed.

Lemma send_ok depth i gens evs w :
  Worker_ok depth i gens evs (Some true) w ->
  Worker_ok depth i gens evs None
    (if is_dead w then w
     else if bool_decide (S depth <= length (channel w))%nat then set_wake false w
     else set_channel (channel w ++ [Wake]) w).
Proof.
  intros Hok. destruct (is_dead w) eqn:Hd.
  - eapply signal_change; [exact Hok|by rewrite Hd|]. intros (Hat & _). unfold is_dead in Hd. by rewrite Hat in Hd.
  - destruct Hok as [Hj Hdep Hal Hlast Hrec Hwk Hr Hk Hs Ho Haw]. specialize (Hwk Hd).
    unfold wakes in Hwk. rewrite bool_decide_true in Hwk by done. case_bool_decide as Hfull.
    + split; try done.
      * intros _. unfold wakes. rewrite bool_decide_false by done. cbn. destruct (wake_queued w); lia.
      * intros (_ & _ & _ & Hch). cbn in Hch. rewrite Hch in Hfull. cbn in Hfull. lia.
    + split; try done.
      * destruct Hj as (fin & rest & ? & ? & Hp). exists fin, rest. repeat split; [done|done|].
        intros _. rewrite (Hp Hd). unfold pipeline. cbn. rewrite fmap_app, concat_app. cbn. by rewrite app_nil_r.
      * intros _. unfold wakes. rewrite bool_decide_false by done. cbn [channel at_ set_channel wake_queued].
        rewrite list.filter_app, length_app, wakes_cons. cbn. destruct (wake_queued w); lia.
      * intros (_ & _ & _ & Hch). cbn in Hch. by destruct (channel w).
Qed.

Lemma system_wake_ok p a c e i :
  System_ok (MkSystem p (Some (i, true)) a c e) -> System_ok (MkSystem (send_wake i p) None a c e).
Proof.
  intros Hok. unfold send_wake. destruct (workers p !! i) as [w|] eqn:Hi.
  - rewrite (alter_insert _ _ _ _ Hi). pose proof (sys_workers _ Hok i w Hi) as Hw. cbn in Hw.
    rewrite signal_of_same in Hw. apply send_ok in Hw.
    eapply system_worker_ok; [exact Hok|exact Hi| |exact Hw|].
    + destruct (is_dead w); [done|]. by case_bool_decide.
    + intros j Hne. by rewrite signal_of_other.
  - eapply system_stray_ok; [done|done|]. intros j Hne. by rewrite ?signal_of_other.
Qed.

(** Admission. *)
Lemma system_spawn_ok p a c e :
  System_ok (MkSystem p None a c e) -> (length (workers p) < max_workers (limits p))%nat ->
  System_ok (MkSystem (set_workers (workers p ++ [Worker_new]) p) None a c e).
Proof.
  intros [Hl Hg Hw He Hf Hfl Hlog Hr] Hlt. cbn in *.
  assert (Hlen : (length (workers p) < length (workers p ++ [Worker_new (R:=R)]))%nat)
    by (rewrite length_app; cbn; lia).
  assert (Hnone : events_of (length (workers p)) (events p) = []).
  { apply events_of_none. eapply Forall_impl; [|exact He]. cbn. intros x Hx. lia. }
  assert (Hcase : forall j u, (workers p ++ [Worker_new (R:=R)]) !! j = Some u ->
    workers p !! j = Some u \/ (j = length (workers p) /\ u = Worker_new)).
  { intros j u [Hj|[Hge Hj]]%lookup_app_Some; [by left|right].
    apply list_lookup_singleton_Some in Hj as [Hj <-]. split; [lia|done]. }
  split; cbn; try done.
  - destruct Hl as [? Ht ? ?]. split; cbn; [done| |done|rewrite length_app; cbn; lia].
    unfold total_jobs in *. cbn. rewrite sum_list_with_app. cbn. lia.
  - destruct Hg as [Hgr Hga Hgs]. split; [|done|done]. eapply map_Forall_impl; [exact Hgr|]. cbn. intros k g Hlt'. lia.
  - intros j u [Hj|[-> ->]]%Hcase; [by apply Hw|]. rewrite Hnone. split; cbn; try done.
    + by exists [], [].
    + lia.
    + intros [|] ? ?; done.
    + constructor.
    + intros k [Hk|Hk]; [set_solver|by apply not_elem_of_nil in Hk].
    + intros j Hj. by apply not_elem_of_nil in Hj.
    + intros _. by left.
  - eapply Forall_impl; [|exact He]. cbn. intros x Hx. lia.
  - intros j u [Hj|[-> ->]]%Hcase; [by apply Hlog|]. cbn. rewrite app_nil_r.
    destruct Hr as [Hra Hrc]. unfold tokens_of, completed_tokens.
    assert (Hnil : forall (A : Type) (l : list (nat * A)), Forall (fun x => (x.1 < length (workers p))%nat) l ->
      filter (fun x => x.1 = length (workers p)) l = []).
    { intros A l. induction 1 as [|x l Hx _ IH]; [done|]. rewrite filter_cons, decide_False by lia. done. }
    by rewrite !Hnil.
  - destruct Hr as [Hra Hrc]. split; eapply Forall_impl; [|exact Hra| |exact Hrc]; cbn; intros x Hx; lia.
Qed.

Lemma admit_ok depth i gens evs w r now :
  Worker_ok depth i gens evs None w -> (length (jobs w) < depth)%nat -> is_dead w = false ->
  (forall g, gens !! frame_key (frame r) = Some g -> retiring g = false) ->
  (forall g, gens !! frame_key (frame r) = Some g -> retirement_sent g = true -> retiring g = true) ->
  Worker_ok depth i (<[frame_key (frame r) := MkGeneration i false false]> gens) evs None
    (set_jobs (jobs w ++ [MkJob (token r) (frame r)]) (set_channel (channel w ++ [Decode r now]) w)).
Proof.
  intros [Hj Hdep Hal Hlast Hrec Hwk Hr Hk Hs Ho Haw] Hlt Hlive Hnr Hsent. split; cbn; try done.
  - destruct Hj as (fin & rest & -> & ? & Hp). exists fin, (rest ++ [MkJob (token r) (frame r)]).
    split; [by rewrite <- app_assoc|]. split; [done|]. intros _. rewrite (Hp Hlive). unfold pipeline. cbn.
    rewrite fmap_app, concat_app. cbn. by rewrite <- !app_assoc.
  - rewrite length_app. cbn. lia.
  - intros _. specialize (Hwk Hlive). unfold wakes in *. cbn [channel at_ set_jobs set_channel wake_queued].
    rewrite list.filter_app, length_app, wakes_cons. cbn. cbn in Hwk. lia.
  - intros k Hin. rewrite lookup_insert_ne; [by apply Hs|]. intros <-.
    specialize (Hnr _ (Hs _ Hin)). done.
  - intros j [Hin| ->%list_elem_of_singleton]%elem_of_app.
    + destruct (Ho j Hin) as (g & Hg & ? & ?). destruct (decide (job_key j = frame_key (frame r))) as [->|Hne].
      * exists (MkGeneration i false false). by rewrite lookup_insert_eq.
      * exists g. by rewrite lookup_insert_ne.
    + exists (MkGeneration i false false). unfold job_key. cbn. by rewrite lookup_insert_eq.
  - intros (_ & _ & _ & Hch). cbn in Hch. by destruct (channel w).
Qed.

Lemma insert_generation_ok n gens i key :
  Generations_ok n gens -> (i < n)%nat ->
  (forall k g, gens !! k = Some g -> k.1 = key.1 -> generation_worker g = i) ->
  Generations_ok n (<[key := MkGeneration i false false]> gens).
Proof.
  intros [Hr Ha Hs] Hi Haff. split.
  - by apply map_Forall_insert_2.
  - intros k1 k2 g1 g2 [[<- <-]|[_ H1]]%lookup_insert_Some [[<- <-]|[_ H2]]%lookup_insert_Some Heq; cbn.
    + done.
    + symmetry. by apply (Haff k2).
    + by apply (Haff k1).
    + by eapply Ha.
  - by apply map_Forall_insert_2.
Qed.

Lemma send_decode_ok p a c e r now i p' res :
  System_ok (MkSystem p None a c e) ->
  is_some_and (generations p !! frame_key (frame r)) retiring = false ->
  (total_jobs p < max_jobs (limits p))%nat ->
  (is_Some (generations p !! frame_key (frame r)) \/ (size (generations p) < max_generations (limits p))%nat) ->
  (forall k g, generations p !! k = Some g -> k.1 = (frame_key (frame r)).1 -> generation_worker g = i) ->
  send_decode r now i p = Ret (p', res) ->
  System_ok (MkSystem p' None (a ++ admission p' r res) c e).
Proof.
  intros Hok Hnr Hjobs Hsize Haff. pose proof Hok as [Hl Hg Hw He Hf Hfl Hlog Hr]. cbn in *.
  unfold send_decode. destruct (workers p !! i) as [w|] eqn:Hi; [|done].
  case_bool_decide as Hd; [intros [= <- <-]; cbn; by rewrite app_nil_r|].
  destruct (is_dead w) eqn:Hlive; cbn [orb]; [intros [= <- <-]; cbn; by rewrite app_nil_r|].
  case_bool_decide as Hch; [intros [= <- <-]; cbn; by rewrite app_nil_r|]. intros [= <- <-].
  set (w' := set_jobs _ _). unfold admission. cbn. rewrite lookup_insert_eq. cbn.
  assert (Hlen : length (<[i := w']> (workers p)) = length (workers p)) by apply length_insert.
  assert (Hilt : (i < length (workers p))%nat) by by eapply lookup_lt_Some.
  assert (Hnr' : forall g, generations p !! frame_key (frame r) = Some g -> retiring g = false).
  { intros g Hgk. rewrite Hgk in Hnr. done. }
  assert (Hsr : forall g, generations p !! frame_key (frame r) = Some g -> retirement_sent g = true -> retiring g = true).
  { intros g Hgk. by apply (gens_sent _ _ Hg (frame_key (frame r))). }
  split; cbn; rewrite ?Hlen; try done.
  - destruct Hl as [? Ht ? ?]. split; cbn; [done| | |by rewrite Hlen].
    + pose proof (total_jobs_insert p i w w' Hi) as Hti. unfold total_jobs in *. cbn in *. rewrite length_app in Hti. cbn in Hti. lia.
    + destruct Hsize as [Hs|Hs]; [by rewrite map_size_insert_Some|].
      destruct (generations p !! frame_key (frame r)) eqn:Hgk; [by rewrite map_size_insert_Some by (by eexists)|].
      rewrite map_size_insert_None by done. lia.
  - by apply insert_generation_ok.
  - apply workers_insert.
    + apply admit_ok; [by apply (Hw i w Hi)|lia|done|done|done].
    + intros j u Hne Hu. eapply gens_change; [by apply (Hw j u)|..].
      * intros k _ Hk. rewrite lookup_insert_ne; [done|]. intros <-. specialize (Hnr' _ Hk). done.
      * intros j' g _ Hgj Hgw Hgs. exists g. rewrite lookup_insert_ne; [done|]. intros Heq.
        rewrite <- Heq in Hgj. specialize (Haff _ _ Hgj eq_refl). congruence.
  - apply workers_insert.
    + rewrite tokens_of_app, (Hlog i w Hi). cbn. rewrite fmap_app, app_assoc. f_equal.
      unfold tokens_of. rewrite filter_cons, decide_True by done. done.
    + intros j u Hne Hu. rewrite tokens_of_app, (Hlog j u Hu).
      unfold tokens_of at 1. rewrite filter_cons, decide_False by (cbn; auto). by rewrite app_nil_r.
  - destruct Hr as [? ?]. split; [|done]. apply Forall_app. split; [done|]. by constructor.
Qed.

Lemma assigned_spec p stream :
  match assigned p stream with
  | Some i => exists k g, generations p !! k = Some g /\ k.1 = stream /\ generation_worker g = i
  | None => forall k g, generations p !! k = Some g -> k.1 <> stream
  end.
Proof.
  unfold assigned. destruct (head _) as [i|] eqn:Hh.
  - assert (Hin : i ∈ omap (fun '(key, g) => if bool_decide (key.1 = stream) then Some (generation_worker g) else None)
      (map_to_list (generations p))).
    { destruct (omap _ _); [done|]. injection Hh as ->. by left. }
    apply list_elem_of_omap in Hin as ([k g] & Hin & Hk). apply elem_of_map_to_list in Hin.
    case_bool_decide; [|done]. injection Hk as <-. by exists k, g.
  - intros k g Hg Hk. apply head_None in Hh.
    assert (Hin : generation_worker g ∈ (@nil nat)).
    { rewrite <- Hh. apply list_elem_of_omap. exists (k, g). split; [by apply elem_of_map_to_list|].
      by rewrite bool_decide_true. }
    by apply not_elem_of_nil in Hin.
Qed.

Lemma least_elem l i : least l = Some i -> exists n, (i, n) ∈ l.
Proof.
  unfold least. intros ([i' n] & Hl & ->)%fmap_Some.
  assert (Hgen : forall l (b : option (nat * nat)) r,
    fold_left (fun best e => match best with None => Some e | Some b => if bool_decide (e.2 < b.2)%nat then Some e else best end)
      l b = Some r -> b = Some r \/ r ∈ l).
  { clear. induction l as [|x l IH]; intros b r; cbn; [by left|].
    intros [Hb|Hin]%IH; [|right; by right].
    destruct b as [y|]; [case_bool_decide|]; injection Hb as <-; auto; right; by left. }
  destruct (Hgen _ _ _ Hl) as [|Hin]; [done|]. by exists n.
Qed.

Lemma assign_worker_spec spawned p :
  match assign_worker spawned p with
  | (p', Ret (Some i)) =>
      (p' = p /\ (i < length (workers p))%nat) \/
      (p' = set_workers (workers p ++ [Worker_new]) p /\ i = length (workers p) /\
       (length (workers p) < max_workers (limits p))%nat)
  | (p', Ret None) => p' = p
  | (p', Fail e) => p' = p /\ spawned = false /\ e = ErrMsg "could not spawn decoder worker"
  | (_, Panic) => False
  end.
Proof.
  unfold assign_worker. set (counts := _ <$> seq 0 _).
  assert (Hin : forall i n, (i, n) ∈ counts -> (i < length (workers p))%nat).
  { intros i n (j & [= -> _] & Hj)%list_elem_of_fmap. apply elem_of_seq in Hj. lia. }
  destruct (list_find _ counts) as [[j [i n]]|] eqn:Hf.
  - left. split; [done|]. apply list_find_Some in Hf as (Hf & _). by eapply Hin, list_elem_of_lookup_2.
  - case_bool_decide; [destruct spawned; [right|]; done|].
    destruct (least _) as [i|] eqn:Hl; [|done]. left. split; [done|].
    apply least_elem in Hl as [n Hl]. apply list_elem_of_filter in Hl as [_ Hl]. by eapply Hin.
Qed.

Lemma reported_mono p s a c e x : System_ok (MkSystem p s a c e) -> System_ok (MkSystem p s a c (e ++ x)).
Proof.
  intros [Hl Hg Hw He Hf Hfl Hlog Hr]. split; try done; cbn in *.
  - eapply Forall_impl; [|exact Hf]. intros [] ?; set_solver.
  - intros y Hy. apply elem_of_app. left. by apply Hfl.
Qed.

Lemma system_spawn_failed_ok p a c e err :
  System_ok (MkSystem p None a c e) -> err ∈ e -> System_ok (MkSystem (fail err p) None a c e).
Proof.
  intros Hok Hin. unfold fail. destruct (failure p) eqn:Hf; [done|].
  destruct Hok as [Hl Hg Hw He Hfa Hfl Hlog Hr]. split; try done; cbn in *.
  - by destruct Hl.
  - by intros y [= <-].
Qed.

(** The case of [try_decode] in which a worker is chosen, or none is free, or the spawn
    failed; [i] is in range, so indexing it does not panic. *)
Lemma try_decode_ok p a c e spawned r now :
  System_ok (MkSystem p None a c e) ->
  match try_decode spawned r now p with
  | Ret (p', res) =>
      System_ok (MkSystem p' None (a ++ admission p' r res) c
        (if spawned then e else e ++ [ErrMsg "could not spawn decoder worker"]))
  | _ => False
  end.
Proof.
  intros Hok. unfold try_decode.
  assert (Hok' : forall p1, System_ok (MkSystem p1 None a c e) -> System_ok (MkSystem p1 None (a ++ []) c
     (if spawned then e else e ++ [ErrMsg "could not spawn decoder worker"]))).
  { intros p1 H1. rewrite app_nil_r. destruct spawned; [done|]. by apply reported_mono. }
  assert (Hsend : forall p1 i, System_ok (MkSystem p1 None a c e) -> (i < length (workers p1))%nat ->
    is_some_and (generations p1 !! frame_key (frame r)) retiring = false ->
    (total_jobs p1 < max_jobs (limits p1))%nat ->
    (is_Some (generations p1 !! frame_key (frame r)) \/ (size (generations p1) < max_generations (limits p1))%nat) ->
    (forall k g, generations p1 !! k = Some g -> k.1 = (frame_key (frame r)).1 -> generation_worker g = i) ->
    match send_decode r now i p1 with
    | Ret (p', res) => System_ok (MkSystem p' None (a ++ admission p' r res) c
        (if spawned then e else e ++ [ErrMsg "could not spawn decoder worker"]))
    | _ => False
    end).
  { intros p1 i H1 Hi Hnr Hj Hs Ha. destruct (send_decode r now i p1) as [[p' res]| |] eqn:Hsd.
    - pose proof (send_decode_ok _ _ _ _ _ _ _ _ _ H1 Hnr Hj Hs Ha Hsd) as H2.
      destruct spawned; [done|]. by apply reported_mono.
    - unfold send_decode in Hsd. destruct (workers p1 !! i); [|done].
      destruct (bool_decide _); [done|]. by destruct (_ || _).
    - unfold send_decode in Hsd. destruct (lookup_lt_is_Some_2 _ _ Hi) as [w Hw]. rewrite Hw in Hsd.
      destruct (bool_decide _); [done|]. by destruct (_ || _). }
  destruct (failure p) as [err|] eqn:Hfail; [cbn; by apply Hok'|].
  destruct (is_some_and _ retiring || _ || _) eqn:Hbusy; [cbn; by apply Hok'|].
  apply orb_false_iff in Hbusy as [[Hnr Hj]%orb_false_iff Hs]. apply bool_decide_eq_false in Hj.
  assert (Hs' : is_Some (generations p !! frame_key (frame r)) \/ (size (generations p) < max_generations (limits p))%nat).
  { apply andb_false_iff in Hs as [Hs|Hs]; apply bool_decide_eq_false in Hs; [left|right; lia].
    by apply not_eq_None_Some. }
  pose proof (assigned_spec p (frame_key (frame r)).1) as Has.
  destruct (assigned p _) as [i|].
  - destruct Has as (k & g & Hg & Hk & <-). apply Hsend; try done; [|lia|].
    + by apply (gens_range _ _ (sys_generations _ Hok) k g).
    + intros k' g' Hg' Hk'. apply (gens_affine _ _ (sys_generations _ Hok) k' k); [done|done|congruence].
  - pose proof (assign_worker_spec spawned p) as Haw.
    destruct (assign_worker spawned p) as [p1 [[i|]|err|]].
    + destruct Haw as [[-> Hi]|(-> & -> & Hlt)].
      * apply Hsend; try done; [lia|]. intros k g Hg Hk. by destruct (Has k g).
      * apply Hsend; cbn; try done.
        -- by apply system_spawn_ok.
        -- rewrite length_app. cbn. lia.
        -- unfold total_jobs in *. cbn. rewrite sum_list_with_app. cbn. lia.
        -- intros k g Hg Hk. by destruct (Has k g).
    + subst. cbn. by apply Hok'.
    + destruct Haw as (-> & -> & ->). cbn. rewrite app_nil_r. apply system_spawn_failed_ok; [|set_solver].
      by apply reported_mono.
    + done.
Qed.

Lemma system_step_ok s s' : System_ok s -> system_step s s' -> System_ok s'.
Proof.
  intros Hok Hstep. destruct Hstep as [p a c e spawned r now p' res Ht|p a c e key p' Hr|p a c e key i _ Hd
    |p a c e i p' queued Hs|p a c e i|p a c e ev rest p' cs Hev Hh|p a c e|p s a c e i w es w' Hi Ht
    |p s a c e i w cause Hi Hl].
  - pose proof (try_decode_ok p a c e spawned r now Hok) as H1. by rewrite Ht in H1.
  - by eapply system_retire_ok.
  - by eapply system_publish_ok.
  - pose proof (system_swap_ok p a c e i Hok) as H1. by rewrite Hs in H1.
  - by apply system_wake_ok.
  - destruct ev as [i cp|i k|i cause]; cbn [event_worker].
    + by eapply system_decoded_ok.
    + injection Hh as <- <-. cbn [fmap list_fmap]. rewrite app_nil_r. by eapply system_retired_ok.
    + by eapply system_failed_ok.
  - destruct Hok as [Hl Hg Hw He Hf Hfl Hlog Hr]. split; try done. by destruct Hl.
  - by eapply system_thread_ok.
  - by apply system_fail_ok.
Qed.

Definition system_start (l : DecodePoolLimits) : system := MkSystem (DecodePool_new l) None [] [] [].

Lemma system_reachable_ok l s : (1 <= depth l)%nat -> rtc system_step (system_start l) s -> System_ok s.
Proof.
  intros Hd Hr. assert (H0 : System_ok (system_start l)).
  { split; cbn; try done.
    - split; cbn; [done|unfold total_jobs; cbn; lia|rewrite map_size_empty; lia|lia]. }
  revert H0. induction Hr as [|x y z Hxy _ IH]; [done|]. eauto using system_step_ok.
Qed.
End System.
Arguments system R O : clear implicits.

(** ** Consequences *)
Section Consequences.
Context {R O : Type} `{DecodeJob R}.

Lemma try_new_depth a b c d l : try_new a b c d = Ret l -> (1 <= depth l)%nat.
Proof.
  unfold try_new. intros Ht. inv_ret. subst. cbn.
  repeat match goal with E : (_ && _) = true |- _ => apply andb_true_iff in E as [? ?] end.
  by repeat match goal with E : bool_decide _ = true |- _ => apply bool_decide_eq_true in E end.
Qed.

Lemma channel_length (l : list (Command R)) :
  length l = (length (concat (command_jobs <$> l)) + length (filter (fun c => is_wake c = true) l))%nat.
Proof.
  induction l as [|c l IH]; [done|]. rewrite wakes_cons. destruct c; cbn; rewrite IH; lia.
Qed.

(** The limits are fixed for the pool's life. *)
Lemma fail_limits e (p : DecodePool R O) : limits (fail e p) = limits p.
Proof. unfold fail. by destruct (failure p). Qed.

Lemma send_decode_limits r now i (p p' : DecodePool R O) res :
  send_decode r now i p = Ret (p', res) -> limits p' = limits p.
Proof.
  unfold send_decode. destruct (workers p !! i); [|done]. case_bool_decide; [by intros [= <- _]|].
  destruct (_ || _); by intros [= <- _].
Qed.

Lemma try_decode_limits spawned r now (p p' : DecodePool R O) res :
  try_decode spawned r now p = Ret (p', res) -> limits p' = limits p.
Proof.
  unfold try_decode. destruct (failure p); [by intros [= <- _]|]. destruct (_ || _ || _); [by intros [= <- _]|].
  destruct (assigned p _); [apply send_decode_limits|].
  pose proof (assign_worker_spec spawned p) as Haw. destruct (assign_worker spawned p) as [p1 [[i|]|err|]].
  - intros ->%send_decode_limits. by destruct Haw as [[-> _]|(-> & _)].
  - intros [= <- _]. by subst.
  - intros [= <- _]. rewrite fail_limits. by destruct Haw as [-> _].
  - done.
Qed.

Lemma system_limits l s : rtc (system_step (O:=O)) (system_start l) s -> limits (pool s) = l.
Proof.
  intros Hr. change (limits (pool s) = limits (pool (system_start (R:=R) (O:=O) l))).
  induction Hr as [|x y z Hxy _ IH]; [done|]. rewrite IH. clear IH.
  destruct Hxy as [p a c e spawned r now p' res Ht|p a c e key p' Hr|p a c e key i _ Hd
    |p a c e i p' queued Hs|p a c e i|p a c e ev rest p' cs Hev Hh|p a c e|p s a c e i w es w' Hi Ht
    |p s a c e i w cause Hi Hl]; cbn; try done.
  - by eapply try_decode_limits.
  - unfold retire in Hr. destruct (failure p); [done|]. by injection Hr as <-.
  - unfold swap_wake in Hs. by injection Hs as <- _.
  - destruct ev as [i cp|i k|i cause]; cbn in Hh.
    + unfold handle_decoded in Hh. destruct (_ ≫= _); [destruct (_ =? _)|]; injection Hh as <- _;
        rewrite ?fail_limits; done.
    + injection Hh as <- _. unfold handle_retired. destruct (is_some_and _ _); rewrite ?fail_limits; done.
    + unfold handle_failed in Hh. injection Hh as <- _. by rewrite fail_limits.
Qed.

(** A live worker's channel holds at most its jobs and one wake. *)
Lemma channel_room depth index gens (evs : list (Event O)) sg (w : Worker R) :
  Worker_ok depth index gens evs sg w -> is_dead w = false ->
  (length (channel w) + (if bool_decide (sg = Some true) then 1 else 0) <= length (jobs w) + 1)%nat.
Proof.
  intros Hok Hl. destruct (ok_jobs _ _ _ _ _ _ Hok) as (fin & rest & Hj & _ & Hp).
  pose proof (ok_wakes _ _ _ _ _ _ Hok Hl) as Hw. unfold wakes in Hw. rewrite (channel_length (channel w)).
  rewrite Hj, (Hp Hl). unfold pipeline. rewrite !length_app. destruct (wake_queued w); lia.
Qed.
End Consequences.

(** ** Properties *)

(** C17 (decode-conserved). Whatever the interleaving of the coordinator with its worker
    threads, their outcomes and their failures: each worker's admitted jobs are its
    completed ones followed by its outstanding ones, in order; jobs, generations and
    workers stay within their limits and all generations of a stream on one worker;
    admission never panics; and the pool fails only for an error that a worker or a spawn
    reported, never for a token or an acknowledgement it did not expect. *)
Theorem decode_pool_conserves (R O : Type) (job : DecodeJob R) (a b c d : nat) (l : DecodePoolLimits)
    (s : system R O) :
  try_new a b c d = Ret l -> rtc system_step (system_start l) s ->
  (forall i w, workers (pool s) !! i = Some w ->
     tokens_of i (admitted s) = completed_tokens i (completed s) ++ (job_token <$> jobs w)) /\
  (total_jobs (pool s) <= max_jobs l)%nat /\
  (size (generations (pool s)) <= max_generations l)%nat /\
  (length (workers (pool s)) <= max_workers l)%nat /\
  (forall k k' g g', generations (pool s) !! k = Some g -> generations (pool s) !! k' = Some g' -> k.1 = k'.1 ->
     generation_worker g = generation_worker g') /\
  (forall e, failure (pool s) = Some e -> e ∈ reported s) /\
  (signal s = None -> forall spawned r now, try_decode spawned r now (pool s) <> Panic).
Proof.
  intros Hd%try_new_depth Hr. pose proof (system_reachable_ok l s Hd Hr) as Hok.
  apply system_limits in Hr. rewrite <- Hr. pose proof Hok as [[] [] _ _ _ Hf Hlog _]. repeat split; try done.
  destruct s as [p sg ad co e]. cbn. intros -> spawned r now Hp.
  pose proof (try_decode_ok p ad co e spawned r now Hok) as H1. by rewrite Hp in H1.
Qed.

(** A generation is put up for retirement only when its worker has
    no outstanding job of it; a wake for it is never lost: a worker that waits for a
    command with an unseen retirement is about to be signalled; and a live worker's
    channel always has room for the next job or wake. *)
Theorem decode_retirement_safe (R O : Type) (job : DecodeJob R) (a b c d : nat) (l : DecodePoolLimits)
    (s : system R O) (i : nat) (w : Worker R) :
  try_new a b c d = Ret l -> rtc system_step (system_start l) s -> workers (pool s) !! i = Some w ->
  (forall key j, key ∈ keys w -> j ∈ jobs w -> job_key j <> key) /\
  (blocked w -> keys w <> ∅ -> exists stage, signal s = Some (i, stage)) /\
  (is_dead w = false -> ((length (jobs w) < depth l)%nat -> (length (channel w) < S (depth l))%nat) /\
     (signal s = Some (i, true) -> (length (channel w) < S (depth l))%nat)).
Proof.
  intros Hd%try_new_depth Hr Hi. pose proof (system_reachable_ok l s Hd Hr) as Hok.
  pose proof (sys_workers _ Hok i w Hi) as Hw. apply system_limits in Hr. rewrite <- Hr. split; [|split].
  - intros key j Hk Hj Heq. destruct (ok_owned _ _ _ _ _ _ Hw j Hj) as (g & Hg & _ & Hs).
    rewrite Heq, (ok_sent _ _ _ _ _ _ Hw key (or_introl Hk)) in Hg. injection Hg as <-. done.
  - intros Hb Hne. destruct (ok_awake _ _ _ _ _ _ Hw Hb) as [He|He]; [done|].
    unfold signal_of in He. destruct (signal s) as [[j stage]|]; [|done].
    case_bool_decide as Hji; [|done]. subst. by exists stage.
  - intros Hl. pose proof (channel_room _ _ _ _ _ _ Hw Hl) as Hc. pose proof (ok_depth _ _ _ _ _ _ Hw) as Hdep.
    split; [intros ?; destruct (bool_decide _); lia|]. intros Hsg. rewrite Hsg, signal_of_same, bool_decide_true in Hc by done. lia.
Qed.

(** ** Concrete inputs *)
#[export] Instance Job_decode_job : DecodeJob Job := {| token := job_token; frame := job_frame |}.

Definition sample_frame : MediaFrameId := MkMediaFrameId (MkMediaStreamId 1) (MkStreamGeneration 1) 0.
Definition sample_job : Job := MkJob 7 sample_frame.

(** One job admitted to a fresh pool, taken by its worker, decoded and drained. *)
Definition sample_worker : Worker Job := MkWorker [] [] ∅ false Top [] None.
Definition sample_system : system Job nat :=
  let slot := MkSlot 7 sample_frame 0 0 (MkPipelineTiming 0 0 false) false in
  let done_ := completion_of (O:=nat) (mark_polled 0 slot) 0 (Ret [5%nat]) in
  MkSystem (MkPool DecodePoolLimits_default [sample_worker]
              {[frame_key sample_frame := MkGeneration 0 false false]} [] None None)
    None [(0%nat, 7)] [(0%nat, done_)] [].

Lemma sample_system_reachable : rtc system_step (system_start DecodePoolLimits_default) sample_system.
Proof.
  eapply rtc_l; [eapply (system_decode _ _ _ _ true sample_job 0); vm_compute; reflexivity|]. cbn.
  eapply rtc_l; [eapply (system_thread _ _ _ _ _ 0); [reflexivity|by eapply thread_top]|]. cbn.
  eapply rtc_l; [eapply (system_thread _ _ _ _ _ 0); [reflexivity|by eapply thread_fill]|]. cbn.
  eapply rtc_l; [eapply (system_thread _ _ _ _ _ 0); [reflexivity|by eapply thread_got]|]. cbn.
  eapply rtc_l; [eapply (system_thread _ _ _ _ _ 0); [reflexivity|by eapply (thread_apply _ _ _ _ _ _ 0)]|]. cbn.
  eapply rtc_l; [eapply (system_thread _ _ _ _ _ 0); [reflexivity|by eapply thread_fill]|]. cbn.
  eapply rtc_l; [eapply (system_thread _ _ _ _ _ 0); [reflexivity|by eapply (thread_ready _ _ _ _ _ 0 0 (Ret [5%nat]))]|]. cbn.
  eapply rtc_l; [eapply (system_event _ _ _ _); [reflexivity|vm_compute; reflexivity]|].
  vm_compute. apply rtc_refl.
Qed.

Lemma decode_pool_conserves_witness :
  tokens_of 0 [(0%nat, 7)] = completed_tokens 0 (completed sample_system) ++ (job_token <$> jobs sample_worker).
Proof.
  exact (proj1 (decode_pool_conserves Job nat _ 4 8 16 2 DecodePoolLimits_default sample_system
    eq_refl sample_system_reachable) 0%nat sample_worker eq_refl).
Defined.

Lemma decode_retirement_safe_witness : (length (channel sample_worker) < 3)%nat.
Proof.
  refine (proj1 (proj2 (proj2 (decode_retirement_safe Job nat _ 4 8 16 2 DecodePoolLimits_default sample_system 0
    sample_worker eq_refl sample_system_reachable eq_refl)) eq_refl) _).
  cbn. lia.
Defined.
