(* ===== verification/Framing.v ===== *)
(** * Record framing ([weld-hoist-iroh/src/framing.rs])

    Records and encoded media over byte streams: four little-endian length bytes and a
    body, and for media a header record followed by the payload. The serializer and the
    streams are third-party code and are interfaces here, with the laws their documentation
    gives: decoding inverts encoding, a successful [write_all] writes everything, and
    [read_exact] gives exactly the bytes asked for or fails. *)

From S2P Require Import Prelude OrdMap Ids.

Definition byte : Type := Z.

Definition MAX_CONTROL_BYTES : Z := 192 * 1024.
Definition MAX_MEDIA_BYTES : Z := 32 * 1024 * 1024.

(** ** Media records *)
Inductive VideoCodec := Av1 | Vp9 | H264.
#[export] Instance VideoCodec_eq_dec : EqDecision VideoCodec.
Proof. solve_decision. Defined.
Inductive EncodedFrameKind := Keyframe | Delta.
#[export] Instance EncodedFrameKind_eq_dec : EqDecision EncodedFrameKind.
Proof. solve_decision. Defined.

Record EncodedAccessUnit := MkAccessUnit {
  unit_frame : MediaFrameId;
  unit_codec : VideoCodec;
  unit_kind : EncodedFrameKind;
  unit_timestamp_micros : Z;
  payload : list byte;
}.
Record EncodedAccessUnitHeader := MkHeader {
  header_frame : MediaFrameId;
  header_codec : VideoCodec;
  header_kind : EncodedFrameKind;
  header_timestamp_micros : Z;
  payload_bytes : Z;
}.
#[export] Instance EncodedAccessUnitHeader_eq_dec : EqDecision EncodedAccessUnitHeader.
Proof. solve_decision. Defined.
Record MediaEnvelope (A : Type) := MkMediaEnvelope {
  envelope_session : HoistSessionId;
  access_unit : A;
}.
Arguments MkMediaEnvelope {A} envelope_session access_unit.
Arguments envelope_session {A} m.
Arguments access_unit {A} m.
#[export] Instance MediaEnvelope_eq_dec {A} `{EqDecision A} : EqDecision (MediaEnvelope A).
Proof. solve_decision. Defined.

(** ** Serializer and streams *)
Class Codec (V : Type) := {
  encode : V -> outcome (list byte);
  decode : list byte -> outcome V;
  decode_encode : forall v body, encode v = Ret body -> decode body = Ret v;
}.
Class Writer (W : Type) := {
  write_all : list byte -> W -> W * outcome unit;
  written : W -> list byte;
  write_all_ok : forall b w w', write_all b w = (w', Ret tt) -> written w' = written w ++ b;
}.
Class Reader (S : Type) := {
  read_exact : nat -> S -> S * outcome (list byte);
  remaining : S -> list byte;
  read_exact_ok : forall n s, (n <= length (remaining s))%nat ->
    exists s', read_exact n s = (s', Ret (take n (remaining s))) /\ remaining s' = drop n (remaining s);
  read_exact_short : forall n s, (length (remaining s) < n)%nat -> exists s' e, read_exact n s = (s', Fail e);
}.

(** [u32::to_le_bytes] and [u32::from_le_bytes] *)
Definition to_le_bytes (n : Z) : list byte :=
  [n mod 256; n / 256 mod 256; n / 65536 mod 256; n / 16777216 mod 256].
Definition from_le_bytes (b : list byte) : Z :=
  match b with
  | [a; b; c; d] => a + 256 * b + 65536 * c + 16777216 * d
  | _ => 0
  end.

Lemma le_roundtrip n : 0 <= n < 2 ^ 32 -> from_le_bytes (to_le_bytes n) = n.
Proof.
  intros Hn. unfold from_le_bytes, to_le_bytes.
  pose proof (Z.div_mod n 256). pose proof (Z.div_mod (n / 256) 256). pose proof (Z.div_mod (n / 65536) 256).
  replace (n / 65536) with (n / 256 / 256) in * by (rewrite Z.div_div by lia; f_equal; lia).
  replace (n / 16777216) with (n / 256 / 256 / 256) by (rewrite !Z.div_div by lia; f_equal; lia).
  assert (n / 256 / 256 / 256 < 256).
  { rewrite !Z.div_div by lia. apply Z.div_lt_upper_bound; lia. }
  assert (0 <= n / 256 / 256 / 256) by (rewrite !Z.div_div by lia; apply Z.div_pos; lia).
  rewrite (Z.mod_small (n / 256 / 256 / 256) 256) by lia. lia.
Qed.

Lemma length_to_le_bytes n : length (to_le_bytes n) = 4%nat.
Proof. done. Qed.

Section Framing.
Context {W S : Type} `{Writer W} `{Reader S}.

(** [write_record_buffered]; the scratch buffer only saves allocations. *)
Definition write_record {V} `{Codec V} (v : V) (w : W) : W * outcome Z :=
  match res_context (encode v) "could not encode Iroh control record" with
  | Ret body =>
      let body_length := Z.of_nat (length body) in
      if negb (body_length <=? MAX_CONTROL_BYTES) then (w, Fail (ErrMsg "Iroh control record exceeds its maximum"))
      else
        match checked u32_max body_length with
        | None => (w, Fail (ErrMsg "Iroh frame length exceeds wire range"))
        | Some length =>
            let '(w, r) := write_all (to_le_bytes length ++ body) w in
            (w, _ ← res_context r "could not write Iroh control record"; Ret (body_length + 4))
        end
  | Fail e => (w, Fail e)
  | Panic => (w, Panic)
  end.

(** [read_len] *)
Definition read_len (maximum : Z) (s : S) : S * outcome Z :=
  let '(s, r) := read_exact 4 s in
  (s, bytes ← res_context r "could not read Iroh frame length";
      _ ← ensure (from_le_bytes bytes <=? maximum) "Iroh frame exceeds its maximum";
      Ret (from_le_bytes bytes)).

(** [read_record_buffered] *)
Definition read_record {V} `{Codec V} (s : S) : S * outcome V :=
  match read_len MAX_CONTROL_BYTES s with
  | (s, Ret length) =>
      let '(s, r) := read_exact (Z.to_nat length) s in
      (s, body ← res_context r "Iroh control record was truncated";
          res_context (decode body) "Iroh control record is invalid")
  | (s, Fail e) => (s, Fail e)
  | (s, Panic) => (s, Panic)
  end.

Definition header_of (packet : MediaEnvelope EncodedAccessUnit) (payload_bytes : Z) :
    MediaEnvelope EncodedAccessUnitHeader :=
  let u := access_unit packet in
  MkMediaEnvelope (envelope_session packet)
    (MkHeader (unit_frame u) (unit_codec u) (unit_kind u) (unit_timestamp_micros u) payload_bytes).
Definition unit_of (packet : MediaEnvelope EncodedAccessUnitHeader) (body : list byte) :
    MediaEnvelope EncodedAccessUnit :=
  let h := access_unit packet in
  MkMediaEnvelope (envelope_session packet)
    (MkAccessUnit (header_frame h) (header_codec h) (header_kind h) (header_timestamp_micros h) body).

Context `{Codec (MediaEnvelope EncodedAccessUnitHeader)}.

(** [write_media] *)
Definition write_media (packet : MediaEnvelope EncodedAccessUnit) (w : W) : W * outcome unit :=
  let payload_ := payload (access_unit packet) in
  let length_ := Z.of_nat (length payload_) in
  if negb (negb (length_ =? 0) && (length_ <=? MAX_MEDIA_BYTES))
  then (w, Fail (ErrMsg "Iroh media payload has an invalid length"))
  else
    match checked u32_max length_ with
    | None => (w, Fail (ErrMsg "Iroh media payload length exceeds wire range"))
    | Some payload_bytes =>
        match write_record (header_of packet payload_bytes) w with
        | (w, Ret _) =>
            let '(w, r) := write_all payload_ w in
            (w, res_context r "could not write Iroh media payload")
        | (w, Fail e) => (w, Fail e)
        | (w, Panic) => (w, Panic)
        end
    end.

(** [read_media] *)
Definition read_media (s : S) : S * outcome (MediaEnvelope EncodedAccessUnit) :=
  match read_record s with
  | (s, Ret packet) =>
      let length_ := payload_bytes (access_unit packet) in
      if negb ((0 <? length_) && (length_ <=? MAX_MEDIA_BYTES))
      then (s, Fail (ErrMsg "Iroh media payload has an invalid length"))
      else
        let '(s, r) := read_exact (Z.to_nat length_) s in
        (s, body ← res_context r "Iroh media payload was truncated"; Ret (unit_of packet body))
  | (s, Fail e) => (s, Fail e)
  | (s, Panic) => (s, Panic)
  end.

(** Several values on one stream, until the first failure. *)
Fixpoint write_each {V A} (write : V -> W -> W * outcome A) (vs : list V) (w : W) : W * outcome unit :=
  match vs with
  | [] => (w, Ret tt)
  | v :: vs =>
      match write v w with
      | (w, Ret _) => write_each write vs w
      | (w, Fail e) => (w, Fail e)
      | (w, Panic) => (w, Panic)
      end
  end.
Fixpoint read_each {V} (read : S -> S * outcome V) (n : nat) (s : S) : S * outcome (list V) :=
  match n with
  | O => (s, Ret [])
  | Datatypes.S n =>
      match read s with
      | (s, Ret v) => let '(s, r) := read_each read n s in (s, vs ← r; Ret (v :: vs))
      | (s, Fail e) => (s, Fail e)
      | (s, Panic) => (s, Panic)
      end
  end.
End Framing.

(** ** What a writer's success means for a reader *)
Section Transmission.
Context {W S : Type} `{Writer W} `{Reader S}.

(** The bytes a successful [write] adds are read back as the same value, with what follows
    left in the stream; any strict prefix of them is an error. *)
Definition transmits {V A} (write : V -> W -> W * outcome A) (read : S -> S * outcome V) : Prop :=
  forall v w w' a, write v w = (w', Ret a) ->
    exists bytes, written w' = written w ++ bytes /\
      (forall s rest, remaining s = bytes ++ rest -> exists s', read s = (s', Ret v) /\ remaining s' = rest) /\
      (forall s missing, remaining s ++ missing = bytes -> missing <> [] -> exists s' e, read s = (s', Fail e)).

Lemma read_exact_app (s : S) a b :
  remaining s = a ++ b -> exists s', read_exact (length a) s = (s', Ret a) /\ remaining s' = b.
Proof.
  intros Hs. destruct (read_exact_ok (length a) s) as (s' & Hr & Hrem).
  - rewrite Hs, length_app. lia.
  - exists s'. rewrite Hr, Hrem, Hs, take_app_length, drop_app_length. done.
Qed.

Lemma read_exact_missing (s : S) a missing :
  remaining s ++ missing = a -> missing <> [] -> exists s' e, read_exact (length a) s = (s', Fail e).
Proof.
  intros <- Hne. apply read_exact_short. rewrite length_app. destruct missing; [done|]. cbn. lia.
Qed.

Context {V : Type} `{Codec V}.

Lemma write_record_inv (v : V) (w w' : W) n :
  write_record v w = (w', Ret n) ->
  exists body, encode v = Ret body /\ Z.of_nat (length body) <= MAX_CONTROL_BYTES /\
    written w' = written w ++ to_le_bytes (Z.of_nat (length body)) ++ body /\ n = Z.of_nat (length body) + 4.
Proof.
  unfold write_record. destruct (encode v) as [body| |]; cbn; try done.
  destruct (Z.leb_spec (Z.of_nat (length body)) MAX_CONTROL_BYTES) as [Hle|]; cbn; [|done].
  destruct (checked u32_max _) as [len|] eqn:Hc; [|done]. apply checked_Some in Hc as [-> _].
  destruct (write_all _ w) as [w1 [[]| |]] eqn:Hw; try done. intros [= <- <-].
  exists body. by rewrite (write_all_ok _ _ _ Hw).
Qed.

Lemma read_len_frame (s : S) n rest :
  0 <= n <= MAX_CONTROL_BYTES -> remaining s = to_le_bytes n ++ rest ->
  exists s', read_len MAX_CONTROL_BYTES s = (s', Ret n) /\ remaining s' = rest.
Proof.
  intros Hn Hs. destruct (read_exact_app s _ _ Hs) as (s' & Hr & Hrem).
  exists s'. unfold read_len. change 4%nat with (length (to_le_bytes n)). rewrite Hr. cbn [res_context mbind outcome_bind].
  rewrite le_roundtrip by (unfold MAX_CONTROL_BYTES in *; lia). destruct (Z.leb_spec n MAX_CONTROL_BYTES); [done|lia].
Qed.

Lemma read_record_frame (s : S) body v rest :
  Z.of_nat (length body) <= MAX_CONTROL_BYTES -> decode body = Ret v ->
  remaining s = to_le_bytes (Z.of_nat (length body)) ++ body ++ rest ->
  exists s', read_record s = (s', Ret v) /\ remaining s' = rest.
Proof.
  intros Hle Hd Hs. destruct (read_len_frame s _ _ (conj (Zle_0_nat _) Hle) Hs) as (s1 & Hr & Hrem).
  destruct (read_exact_app s1 _ _ Hrem) as (s2 & Hr2 & Hrem2). exists s2. unfold read_record.
  rewrite Hr, Nat2Z.id, Hr2. cbn. by rewrite Hd.
Qed.

Lemma read_record_missing (s : S) body missing :
  Z.of_nat (length body) <= MAX_CONTROL_BYTES ->
  remaining s ++ missing = to_le_bytes (Z.of_nat (length body)) ++ body -> missing <> [] ->
  exists s' e, read_record (V:=V) s = (s', Fail e).
Proof.
  intros Hle Hs Hne. unfold read_record.
  destruct (decide (length (remaining s) < 4)%nat) as [Hshort|Hlong].
  - destruct (read_exact_short 4 s Hshort) as (s' & e & Hr). unfold read_len. rewrite Hr. cbn. eauto.
  - assert (Hsplit : exists tail, remaining s = to_le_bytes (Z.of_nat (length body)) ++ tail /\ tail ++ missing = body).
    { exists (drop 4 (remaining s)).
      assert (H4 : take 4 (remaining s) = to_le_bytes (Z.of_nat (length body))).
      { apply (f_equal (take 4)) in Hs. by rewrite take_app_le in Hs by lia. }
      split; [rewrite <- H4; by rewrite take_drop|].
      apply (f_equal (drop 4)) in Hs. by rewrite drop_app_le in Hs by lia. }
    destruct Hsplit as (tail & Ht & Hbody).
    destruct (read_len_frame s _ _ (conj (Zle_0_nat _) Hle) Ht) as (s1 & Hr & Hrem). rewrite Hr, Nat2Z.id.
    destruct (read_exact_missing s1 body missing) as (s2 & e & Hr2); [by rewrite Hrem|done|].
    rewrite Hr2. cbn. eauto.
Qed.

Lemma record_transmits : transmits write_record read_record.
Proof.
  intros v w w' a (body & He & Hle & Hw & _)%write_record_inv.
  exists (to_le_bytes (Z.of_nat (length body)) ++ body). split; [done|]. split.
  - intros s rest Hs. rewrite <- app_assoc in Hs. eapply read_record_frame; [done| |done]. by apply decode_encode.
  - intros s missing Hs Hne. by eapply read_record_missing.
Qed.

(** Values written one after the other are read back one after the other. *)
Lemma each_transmits {U A} (write : U -> W -> W * outcome A) (read : S -> S * outcome U) vs w w' s rest added :
  transmits write read -> write_each write vs w = (w', Ret tt) -> written w' = written w ++ added ->
  remaining s = added ++ rest -> exists s', read_each read (length vs) s = (s', Ret vs) /\ remaining s' = rest.
Proof.
  intros Ht. revert w s added. induction vs as [|v vs IH]; intros w s added Hw Hadd Hs; cbn in *.
  - injection Hw as <-. assert (added = []) as -> by by apply (app_inv_head (written w)); rewrite app_nil_r.
    by exists s.
  - destruct (write v w) as [w1 [a| |]] eqn:Hv; try done.
    destruct (Ht v w w1 a Hv) as (bytes & Hb & Hread & _).
    assert (Hpre : exists more, added = bytes ++ more /\ written w' = written w1 ++ more).
    { assert (Hmono : forall vs w w', write_each write vs w = (w', Ret tt) -> exists more, written w' = written w ++ more).
      { clear - Ht. induction vs as [|v vs IH]; intros w w' Hw; cbn in Hw.
        - injection Hw as <-. exists []. by rewrite app_nil_r.
        - destruct (write v w) as [w1 [a| |]] eqn:Hv; try done. destruct (Ht v w w1 a Hv) as (bytes & Hb & _).
          destruct (IH _ _ Hw) as [more Hm]. exists (bytes ++ more). by rewrite Hm, Hb, app_assoc. }
      destruct (Hmono _ _ _ Hw) as [more Hm]. exists more. split; [|done].
      apply (app_inv_head (written w)). by rewrite <- Hadd, Hm, Hb, app_assoc. }
    destruct Hpre as (more & -> & Hm). rewrite <- app_assoc in Hs.
    destruct (Hread s _ Hs) as (s1 & Hr & Hrem). rewrite Hr.
    destruct (IH w1 s1 more Hw Hm Hrem) as (s2 & Hr2 & Hrem2). exists s2. by rewrite Hr2.
Qed.
End Transmission.

Section MediaTransmission.
Context {W S : Type} `{Writer W} `{Reader S} `{Codec (MediaEnvelope EncodedAccessUnitHeader)}.

Lemma unit_of_header packet n : unit_of (header_of packet n) (payload (access_unit packet)) = packet.
Proof. by destruct packet as [session []]. Qed.

Lemma media_transmits : transmits (W:=W) (S:=S) write_media read_media.
Proof.
  intros packet w w' a. unfold write_media.
  set (body := payload (access_unit packet)). set (n := Z.of_nat (length body)).
  destruct (Z.eqb_spec n 0) as [|Hne]; cbn; [done|].
  destruct (Z.leb_spec n MAX_MEDIA_BYTES) as [Hle|]; cbn; [|done].
  destruct (checked u32_max n) as [len|] eqn:Hc; [|done]. apply checked_Some in Hc as [-> _].
  destruct (write_record (header_of packet n) w) as [w1 [k| |]] eqn:Hr; try done.
  destruct (write_all body w1) as [w2 [[]| |]] eqn:Hp; try done. intros [= <- _].
  destruct (record_transmits (S:=S) _ _ _ _ Hr) as (bytes & Hb & Hread & Hmiss).
  exists (bytes ++ body). rewrite (write_all_ok _ _ _ Hp), Hb, app_assoc. split; [done|].
  assert (Hvalid : negb ((0 <? n) && (n <=? MAX_MEDIA_BYTES)) = false).
  { destruct (Z.ltb_spec 0 n), (Z.leb_spec n MAX_MEDIA_BYTES); try done; lia. }
  split.
  - intros s rest Hs. rewrite <- app_assoc in Hs. destruct (Hread s _ Hs) as (s1 & Hr1 & Hrem).
    destruct (read_exact_app s1 _ _ Hrem) as (s2 & Hr2 & Hrem2). exists s2. unfold read_media. rewrite Hr1.
    cbn [payload_bytes header_of access_unit]. rewrite Hvalid. unfold n. rewrite Nat2Z.id, Hr2.
    cbn. by rewrite unit_of_header.
  - intros s missing Hs Hm. unfold read_media.
    destruct (decide (length (remaining s) < length bytes)%nat) as [Hshort|Hlong].
    + destruct (Hmiss s (drop (length (remaining s)) bytes)) as (s1 & e & Hr1).
      * apply (f_equal (take (length (remaining s)))) in Hs.
        rewrite take_app_length, take_app_le in Hs by lia. rewrite Hs at 1. apply take_drop.
      * intros Hnil. apply (f_equal length) in Hnil. rewrite length_drop in Hnil. cbn in Hnil. lia.
      * rewrite Hr1. eauto.
    + assert (Hsplit : remaining s = bytes ++ drop (length bytes) (remaining s) /\
        drop (length bytes) (remaining s) ++ missing = body).
      { assert (Htk : take (length bytes) (remaining s) = bytes).
        { apply (f_equal (take (length bytes))) in Hs. rewrite take_app_length in Hs. by rewrite take_app_le in Hs by lia. }
        split; [by rewrite <- Htk at 1; rewrite take_drop|].
        apply (f_equal (drop (length bytes))) in Hs. rewrite drop_app_length in Hs. by rewrite drop_app_le in Hs by lia. }
      destruct Hsplit as [Hsp Hbody]. destruct (Hread s _ Hsp) as (s1 & Hr1 & Hrem). rewrite Hr1.
      cbn [payload_bytes header_of access_unit]. rewrite Hvalid. unfold n. rewrite Nat2Z.id.
      destruct (read_exact_missing s1 body missing) as (s2 & e & Hr2); [by rewrite Hrem|done|].
      rewrite Hr2. cbn. eauto.
Qed.
End MediaTransmission.

(** ** Concrete streams and a concrete serializer *)

(** A sink that accepts everything, a source that ends after its bytes, and a serializer
    of one record kind: its fields as four-byte integers. *)
#[export] Instance list_writer : Writer (list byte).
Proof.
  refine {| write_all := fun b w => (w ++ b, Ret tt); written := fun w => w |}. by intros b w w' [= <-].
Defined.

Definition list_read_exact (n : nat) (s : list byte) : list byte * outcome (list byte) :=
  if bool_decide (n <= length s)%nat then (drop n s, Ret (take n s))
  else ([], Fail (ErrMsg "unexpected end of file")).
#[export] Instance list_reader : Reader (list byte).
Proof.
  refine {| read_exact := list_read_exact; remaining := fun s => s |}; unfold list_read_exact.
  - intros n s Hle. rewrite bool_decide_true by done. eauto.
  - intros n s Hlt. rewrite bool_decide_false by lia. eauto.
Defined.

Definition sample_header : MediaEnvelope EncodedAccessUnitHeader :=
  MkMediaEnvelope (MkHoistSessionId 1)
    (MkHeader (MkMediaFrameId (MkMediaStreamId 1) (MkStreamGeneration 1) 0) Av1 Keyframe 0 3).
Definition sample_encode (v : MediaEnvelope EncodedAccessUnitHeader) : outcome (list byte) :=
  if bool_decide (v = sample_header) then Ret [17; 3] else Fail (ErrMsg "unsupported").
Definition sample_decode (b : list byte) : outcome (MediaEnvelope EncodedAccessUnitHeader) :=
  if bool_decide (b = [17; 3]) then Ret sample_header else Fail (ErrMsg "invalid").
#[export] Instance sample_codec : Codec (MediaEnvelope EncodedAccessUnitHeader).
Proof.
  refine {| encode := sample_encode; decode := sample_decode |}. unfold sample_encode, sample_decode.
  intros v body. case_bool_decide as Hv; [|done]. intros [= <-]. by rewrite bool_decide_true, Hv.
Defined.

Definition sample_packet : MediaEnvelope EncodedAccessUnit := unit_of sample_header [7; 8; 9].

(** ** Properties *)

(** C39 (framing-roundtrip). Control records and encoded media written one after the other
    with success are read back one after the other, equal and with what follows them left
    in the stream, whatever the serializer and the streams, for values within the limits
    writing checks. *)
Theorem framing_roundtrip (W S V : Type) (writer : Writer W) (reader : Reader S) (codec : Codec V)
    (media_codec : Codec (MediaEnvelope EncodedAccessUnitHeader)) (w w' : W) (s : S) (added rest : list byte) :
  written w' = written w ++ added -> remaining s = added ++ rest ->
  (forall vs : list V, write_each write_record vs w = (w', Ret tt) ->
     exists s', read_each read_record (length vs) s = (s', Ret vs) /\ remaining s' = rest) /\
  (forall packets, write_each write_media packets w = (w', Ret tt) ->
     exists s', read_each read_media (length packets) s = (s', Ret packets) /\ remaining s' = rest).
Proof.
  intros Hw Hs. split; intros vs Hwrite.
  - exact (each_transmits write_record read_record vs w w' s rest added record_transmits Hwrite Hw Hs).
  - exact (each_transmits write_media read_media vs w w' s rest added media_transmits Hwrite Hw Hs).
Qed.

(** C40 (framing-truncation). A reader never takes a cut-off record or media unit for a
    value: every strict prefix of what a successful write added is an error; and a length
    prefix beyond the control limit is refused with nothing read behind it. *)
Theorem framing_rejects (W S V : Type) (writer : Writer W) (reader : Reader S) (codec : Codec V)
    (media_codec : Codec (MediaEnvelope EncodedAccessUnitHeader)) (s : S) (w w' : W) (added missing : list byte) :
  written w' = written w ++ added ->
  (remaining s ++ missing = added -> missing <> [] ->
   ((exists (v : V) n, write_record v w = (w', Ret n)) -> exists s' e, read_record (V:=V) s = (s', Fail e)) /\
   ((exists packet u, write_media packet w = (w', Ret u)) -> exists s' e, read_media s = (s', Fail e))) /\
  (forall n rest, MAX_CONTROL_BYTES < n <= u32_max -> remaining s = to_le_bytes n ++ rest ->
   exists s' e, read_record (V:=V) s = (s', Fail e) /\ remaining s' = rest).
Proof.
  intros Hw. split.
  - intros Hs Hne. split.
    + intros (v & n & Hwr). destruct (record_transmits (S:=S) v w w' n Hwr) as (bytes & Hb & _ & Hmiss).
      rewrite Hb in Hw. apply app_inv_head in Hw as ->. by apply (Hmiss s missing).
    + intros (packet & u & Hwr). destruct (media_transmits (S:=S) packet w w' u Hwr) as (bytes & Hb & _ & Hmiss).
      rewrite Hb in Hw. apply app_inv_head in Hw as ->. by apply (Hmiss s missing).
  - intros n rest Hn Hs. destruct (read_exact_app s _ _ Hs) as (s' & Hr & Hrem).
    unfold read_record, read_len. change 4%nat with (length (to_le_bytes n)). rewrite Hr. cbn [res_context mbind outcome_bind].
    rewrite le_roundtrip by (unfold u32_max, MAX_CONTROL_BYTES in *; lia).
    destruct (Z.leb_spec n MAX_CONTROL_BYTES); [lia|]. cbn. eauto.
Qed.

Lemma framing_roundtrip_witness :
  exists s', read_each read_media 1 [2; 0; 0; 0; 17; 3; 7; 8; 9; 42] = (s', Ret [sample_packet]) /\ s' = [42].
Proof.
  exact (proj2 (framing_roundtrip (list byte) (list byte) (MediaEnvelope EncodedAccessUnitHeader) _ _ _ _
    [] [2; 0; 0; 0; 17; 3; 7; 8; 9] [2; 0; 0; 0; 17; 3; 7; 8; 9; 42] [2; 0; 0; 0; 17; 3; 7; 8; 9] [42]
    eq_refl eq_refl) [sample_packet] eq_refl).
Defined.

Lemma framing_rejects_witness :
  exists s' e, read_media [2; 0; 0; 0; 17; 3; 7] = (s', Fail e).
Proof.
  refine (proj2 (proj1 (framing_rejects (list byte) (list byte) (MediaEnvelope EncodedAccessUnitHeader) _ _ _ _
    [2; 0; 0; 0; 17; 3; 7] [] [2; 0; 0; 0; 17; 3; 7; 8; 9] [2; 0; 0; 0; 17; 3; 7; 8; 9] [8; 9] eq_refl) eq_refl _) _).
  - discriminate.
  - exists sample_packet, tt. reflexivity.
Defined.
