(* ===== verification/MediaQueue.v ===== *)
(** * Media send accounting ([weld-hoist-iroh/src/media_queue.rs])

    Media waits in a bounded channel under a record and a byte budget. A ledger follows
    every admitted record until its write completes or it is dropped. The channel and the
    semaphores are the runtime's and are interfaces here. *)

From S2P Require Import Prelude OrdMap Ids Framing Observations.

Definition MAX_PENDING_BYTES : Z := 64 * 1024 * 1024.

Record MediaSendCounters := MkSendCounters {
  accepted_records : Z;
  accepted_payload_bytes : Z;
  completed_records : Z;
  completed_payload_bytes : Z;
  cancelled_records : Z;
  cancelled_payload_bytes : Z;
  queue_wait : TimingSummary;
  write_wall : TimingSummary;
}.
Record MediaSendSnapshot := MkSendSnapshot {
  snapshot_counters : MediaSendCounters;
  pending_records : nat;
  pending_payload_bytes : Z;
  oldest_pending_age : duration;
  active_write_age : option duration;
}.
Record PendingRecord := MkPendingRecord {
  ticket : Z;
  bytes : Z;
  admitted_at : instant;
  writing_at : option instant;
}.
Record Accounting := MkAccounting {
  valid : bool;
  next_ticket : option Z;
  maximum : nat;
  pending : list PendingRecord;
  counters : MediaSendCounters;
}.

Definition Accounting_new (maximum : nat) : Accounting :=
  MkAccounting true (Some 1) maximum []
    (MkSendCounters 0 0 0 0 0 0 TimingSummary_default TimingSummary_default).

Definition invalidate (a : Accounting) : Accounting :=
  MkAccounting false (next_ticket a) (maximum a) (pending a) (counters a).
Definition set_counters (c : MediaSendCounters) (a : Accounting) : Accounting :=
  MkAccounting (valid a) (next_ticket a) (maximum a) (pending a) c.
Definition set_pending (p : list PendingRecord) (a : Accounting) : Accounting :=
  MkAccounting (valid a) (next_ticket a) (maximum a) p (counters a).

(** The ledger's part of [try_send], under its lock. *)
Definition admit_record (size : Z) (now : instant) (a : Accounting) : Accounting * option Z :=
  if negb (valid a) then (a, None)
  else
    match next_ticket a with
    | None => (invalidate a, None)
    | Some id =>
        if bool_decide (maximum a <= length (pending a))%nat then (invalidate a, None)
        else
          let c := counters a in
          (MkAccounting true (checked_add id 1) (maximum a)
             (pending a ++ [MkPendingRecord id size now None])
             (MkSendCounters (sat_add (accepted_records c) 1) (sat_add (accepted_payload_bytes c) size)
                (completed_records c) (completed_payload_bytes c) (cancelled_records c) (cancelled_payload_bytes c)
                (queue_wait c) (write_wall c)),
           Some id)
    end.

(** [SendTicket::started] *)
Definition started (id : option Z) (now : instant) (a : Accounting) : Accounting :=
  match id with
  | None => a
  | Some id =>
      match list_find (fun r => ticket r = id) (pending a) with
      | None => invalidate a
      | Some (i, r) =>
          let c := counters a in
          set_counters
            (MkSendCounters (accepted_records c) (accepted_payload_bytes c) (completed_records c)
               (completed_payload_bytes c) (cancelled_records c) (cancelled_payload_bytes c)
               (record_timing (since now (admitted_at r)) (queue_wait c)) (write_wall c))
            (set_pending (<[i := MkPendingRecord (ticket r) (bytes r) (admitted_at r) (Some now)]> (pending a)) a)
      end
  end.

Definition complete (r : PendingRecord) (start now : instant) (c : MediaSendCounters) : MediaSendCounters :=
  MkSendCounters (accepted_records c) (accepted_payload_bytes c)
    (sat_add (completed_records c) 1) (sat_add (completed_payload_bytes c) (bytes r))
    (cancelled_records c) (cancelled_payload_bytes c) (queue_wait c)
    (record_timing (since now start) (write_wall c)).
Definition cancel (r : PendingRecord) (c : MediaSendCounters) : MediaSendCounters :=
  MkSendCounters (accepted_records c) (accepted_payload_bytes c)
    (completed_records c) (completed_payload_bytes c)
    (sat_add (cancelled_records c) 1) (sat_add (cancelled_payload_bytes c) (bytes r)) (queue_wait c) (write_wall c).

(** [SendTicket::finish]; [None] is a drop without completion. *)
Definition finish (id : option Z) (completed_at : option instant) (a : Accounting) : Accounting :=
  match id with
  | None => a
  | Some id =>
      match list_find (fun r => ticket r = id) (pending a) with
      | None => invalidate a
      | Some (i, r) =>
          let a := set_pending (delete i (pending a)) a in
          match completed_at with
          | Some now =>
              match writing_at r with
              | Some start => set_counters (complete r start now (counters a)) a
              | None => invalidate a
              end
          | None => set_counters (cancel r (counters a)) a
          end
      end
  end.

(** [MediaSender::snapshot] *)
Definition snapshot (now : instant) (a : Accounting) : option MediaSendSnapshot :=
  if valid a then
    Some (MkSendSnapshot (counters a) (length (pending a))
      (fold_left (fun total r => sat_add total (bytes r)) (pending a) 0)
      (match pending a with r :: _ => since now (admitted_at r) | [] => 0 end)
      (since now <$> head (omap writing_at (pending a))))
  else None.

(** ** The runtime *)
Class Semaphore (S : Type) := {
  available : S -> Z;
  try_acquire : Z -> S -> option S;
  release : Z -> S -> S;
  try_acquire_some : forall n s s', try_acquire n s = Some s' -> n <= available s /\ available s' = available s - n;
  try_acquire_none : forall n s, try_acquire n s = None -> available s < n;
  release_available : forall n s, available (release n s) = available s + n;
}.
(** A bounded channel: a reservation that succeeds leaves room for one [send]. *)
Inductive Reserve := Reserved | Full | Closed.
Class Channel (C A : Type) := {
  contents : C -> list A;
  try_reserve : C -> C * Reserve;
  send : A -> C -> C;
  recv : C -> option (A * C);
  try_reserve_contents : forall c, contents (try_reserve c).1 = contents c;
  send_contents : forall a c, contents (send a c) = contents c ++ [a];
  recv_contents : forall a c c', recv c = Some (a, c') -> contents c = a :: contents c';
}.

Definition MediaPacket : Type := MediaEnvelope EncodedAccessUnit.
Definition packet_bytes (p : MediaPacket) : Z := Z.of_nat (length (payload (access_unit p))).

Record QueuedMedia := MkQueuedMedia {
  packet : MediaPacket;
  ticket_id : option Z;
}.

Section Sender.
Context {S C : Type} `{Semaphore S} `{Channel C QueuedMedia}.

(** The sender's shared state. A producer between its reservations and its publication
    is an entry of [preparing]; the writer's current record is [writing]. *)
Record MediaQueue := MkQueue {
  accounting : Accounting;
  byte_permits : S;
  record_permits : S;
  channel : C;
  preparing : list MediaPacket;
  writing : option QueuedMedia;
}.

(** [MediaSender::channel], given the runtime's fresh objects. *)
Definition queue_new (capacity : nat) (bytes records : S) (c : C) : MediaQueue :=
  MkQueue (Accounting_new (Datatypes.S capacity)) bytes records c [] None.

Inductive TrySend := Prepared | SendFull | SendClosed.

(** [try_send] up to the ledger's lock: the channel slot, the byte permits and the record
    permit, or the packet back with everything released. *)
Definition prepare (p : MediaPacket) (q : MediaQueue) : MediaQueue * TrySend :=
  match try_reserve (channel q) with
  | (_, Full) => (q, SendFull)
  | (_, Closed) => (q, SendClosed)
  | (c, Reserved) =>
      match checked u32_max (packet_bytes p) with
      | None => (q, SendFull)
      | Some n =>
          match try_acquire n (byte_permits q) with
          | None => (q, SendFull)
          | Some bs =>
              match try_acquire 1 (record_permits q) with
              | None => (q, SendFull)
              | Some rs => (MkQueue (accounting q) bs rs c (preparing q ++ [p]) (writing q), Prepared)
              end
          end
      end
  end.

(** [try_send] under the lock: admission and publication are one step. [i] picks the
    producer. *)
Definition publish (i : nat) (now : instant) (q : MediaQueue) : MediaQueue :=
  match preparing q !! i with
  | None => q
  | Some p =>
      let '(a, id) := admit_record (packet_bytes p) now (accounting q) in
      MkQueue a (byte_permits q) (record_permits q) (send (MkQueuedMedia p id) (channel q))
        (delete i (preparing q)) (writing q)
  end.

(** [write_media_queue]: the next record, with its start. *)
Definition begin_write (now : instant) (q : MediaQueue) : MediaQueue :=
  match writing q, recv (channel q) with
  | None, Some (m, c) =>
      MkQueue (started (ticket_id m) now (accounting q)) (byte_permits q) (record_permits q) c (preparing q) (Some m)
  | _, _ => q
  end.

(** The end of a successful write: the ledger first, then the permits. *)
Definition end_write (now : instant) (q : MediaQueue) : MediaQueue :=
  match writing q with
  | None => q
  | Some m =>
      MkQueue (finish (ticket_id m) (Some now) (accounting q))
        (release (packet_bytes (packet m)) (byte_permits q)) (release 1 (record_permits q)) (channel q)
        (preparing q) None
  end.

(** [MediaSender::headroom] *)
Definition headroom (capacity : nat) (q : MediaQueue) : bool :=
  (sat_sub (Z.of_nat capacity + 1) (available (record_permits q)) <? 4)
  && (sat_sub MAX_PENDING_BYTES (available (byte_permits q)) <? 8 * 1024 * 1024).

(** Teardown drops the record being written and the channel's, each once. *)
Definition teardown (q : MediaQueue) : Accounting :=
  fold_left (fun a m => finish (ticket_id m) None a) (option_list (writing q) ++ contents (channel q)) (accounting q).
End Sender.
Arguments MediaQueue S C : clear implicits.

(** ** The ledger's invariant *)

(** Lifetime payload totals before saturation: accepted, completed and cancelled. *)
Definition totals (c : MediaSendCounters) (rest : Z) : Prop :=
  exists accepted completed cancelled,
    accepted_payload_bytes c = Z.min u64_max accepted /\
    completed_payload_bytes c = Z.min u64_max completed /\
    cancelled_payload_bytes c = Z.min u64_max cancelled /\
    0 <= completed /\ 0 <= cancelled /\ accepted = completed + cancelled + rest.

(** The ledger holds exactly the live records, oldest first, and its counters account for
    every record ever admitted. *)
Record Ledger_ok (n : Z) (live : list QueuedMedia) (a : Accounting) : Prop := {
  led_valid : valid a = true;
  led_next : next_ticket a = Some n;
  led_range : 1 <= n <= u64_max;
  led_tickets : (fun r => Some (ticket r)) <$> pending a = ticket_id <$> live;
  led_bytes : bytes <$> pending a = (fun m => packet_bytes (packet m)) <$> live;
  led_below : Forall (fun r => ticket r < n) (pending a);
  led_nodup : NoDup (ticket <$> pending a);
  led_accepted : accepted_records (counters a) = n - 1;
  led_counts : completed_records (counters a) + cancelled_records (counters a) + Z.of_nat (length (pending a)) = n - 1;
  led_nonneg : 0 <= completed_records (counters a) /\ 0 <= cancelled_records (counters a);
  led_totals : totals (counters a) (sum_list (bytes <$> pending a));
}.

Lemma packet_bytes_nonneg p : 0 <= packet_bytes p.
Proof. unfold packet_bytes. lia. Qed.

Lemma ledger_length n live a : Ledger_ok n live a -> length (pending a) = length live.
Proof. intros Hl. pose proof (led_tickets _ _ _ Hl) as Ht. apply (f_equal length) in Ht. by rewrite !length_fmap in Ht. Qed.

Lemma ledger_new k : Ledger_ok 1 [] (Accounting_new k).
Proof.
  split; cbn; try done; try lia.
  - constructor.
  - exists 0, 0, 0. cbn. rewrite sum_list_nil. repeat split; done.
Qed.

(** Admission with room in the ledger: the record joins at the end, and either a ticket
    follows or the last one was given out. *)
Lemma admit_ledger n live a p now :
  Ledger_ok n live a -> (length live < maximum a)%nat ->
  let '(a', id) := admit_record (packet_bytes p) now a in
  id = Some n /\ maximum a' = maximum a /\
  (next_ticket a' = None \/ Ledger_ok (n + 1) (live ++ [MkQueuedMedia p id]) a').
Proof.
  intros Hl Hroom. pose proof (ledger_length _ _ _ Hl) as Hlen.
  destruct Hl as [Hv Hn Hr Ht Hb Hbel Hnd Ha Hc Hp Htot]. unfold admit_record. rewrite Hv, Hn. cbn [negb].
  rewrite bool_decide_false by lia. split; [done|]. split; [done|].
  unfold checked_add, checked. case_bool_decide as Hmax; [right|by left].
  split; cbn; try done.
  - lia.
  - by rewrite !fmap_app, Ht.
  - by rewrite !fmap_app, Hb.
  - apply Forall_app. split; [|constructor; [cbn; lia|done]]. eapply Forall_impl; [|exact Hbel]. cbn. intros r Hr'. lia.
  - rewrite fmap_app. apply list.NoDup_app. repeat split; [done| |apply NoDup_singleton].
    intros t (r & -> & Hin)%list_elem_of_fmap Heq%list_elem_of_singleton.
    rewrite list.Forall_forall in Hbel. specialize (Hbel r Hin). cbn in Hbel, Heq. lia.
  - rewrite Ha. unfold sat_add. lia.
  - rewrite length_app. cbn. lia.
  - destruct Htot as (acc & com & can & H1 & H2 & H3 & H4 & H5 & H6).
    exists (acc + packet_bytes p), com, can. cbn. rewrite H1, H2, H3. pose proof (packet_bytes_nonneg p).
    rewrite fmap_app, sum_list_app. cbn. rewrite sum_list_cons, sum_list_nil. unfold sat_add. repeat split; lia.
Qed.

Lemma find_head r l : list_find (fun x => ticket x = ticket r) (r :: l) = Some (0%nat, r).
Proof. cbn. by rewrite decide_True. Qed.

(** The oldest record's ticket is the first in the ledger. *)
Lemma ledger_head n m live a :
  Ledger_ok n (m :: live) a ->
  exists r rest, pending a = r :: rest /\ ticket_id m = Some (ticket r) /\ bytes r = packet_bytes (packet m).
Proof.
  intros Hl. pose proof (led_tickets _ _ _ Hl) as Ht. pose proof (led_bytes _ _ _ Hl) as Hb.
  destruct (pending a) as [|r rest]; [done|]. cbn in Ht, Hb. injection Ht as Ht _. injection Hb as Hb _.
  exists r, rest. by rewrite Ht, Hb.
Qed.

Lemma started_ledger n m live a now :
  Ledger_ok n (m :: live) a ->
  Ledger_ok n (m :: live) (started (ticket_id m) now a) /\
  (exists r rest, pending (started (ticket_id m) now a) = r :: rest /\ writing_at r = Some now) /\
  maximum (started (ticket_id m) now a) = maximum a.
Proof.
  intros Hl. destruct (ledger_head _ _ _ _ Hl) as (r & rest & Hp & Hid & Hby).
  destruct Hl as [Hv Hn Hr Ht Hb Hbel Hnd Ha Hc Hpos Htot]. unfold started. rewrite Hid, Hp, find_head.
  cbn [set_counters set_pending pending maximum]. rewrite Hp in *. split; [|split; [by eexists _, _|done]].
  change (<[0%nat:=?x]> (r :: rest)) with (x :: rest). split; cbn; try done.
  - apply list.Forall_cons in Hbel as [? ?]. by constructor.
Qed.

(** Finishing the oldest record, whether it completed or not. *)
Lemma finish_ledger n m live a at_ :
  Ledger_ok n (m :: live) a ->
  (forall now, at_ = Some now -> exists r rest start, pending a = r :: rest /\ writing_at r = Some start) ->
  Ledger_ok n live (finish (ticket_id m) at_ a) /\ maximum (finish (ticket_id m) at_ a) = maximum a.
Proof.
  intros Hl Hstart. destruct (ledger_head _ _ _ _ Hl) as (r & rest & Hp & Hid & Hby).
  destruct Hl as [Hv Hn Hr Ht Hb Hbel Hnd Ha Hc Hpos Htot]. unfold finish. rewrite Hid, Hp, find_head.
  rewrite Hp in *. cbn in Ht, Hb, Hc, Hnd. injection Ht as _ Ht. injection Hb as _ Hb.
  apply list.NoDup_cons in Hnd as [_ Hnd]. apply list.Forall_cons in Hbel as [_ Hbel].
  change (delete 0%nat (r :: rest)) with rest.
  destruct Htot as (acc & com & can & H1 & H2 & H3 & H4 & H5 & H6). cbn in H6. rewrite sum_list_cons in H6.
  assert (Hbr : 0 <= bytes r) by (rewrite Hby; apply packet_bytes_nonneg).
  destruct at_ as [now|].
  - destruct (Hstart now eq_refl) as (r' & rest' & start & Heq & Hw). injection Heq as <- <-. rewrite Hw.
    split; [|done]. split; cbn; try done; try (unfold sat_add; lia).
    exists acc, (com + bytes r), can. cbn. rewrite H1, H2, H3. unfold sat_add. repeat split; lia.
  - split; [|done]. split; cbn; try done; try (unfold sat_add; lia).
    exists acc, com, (can + bytes r). cbn. rewrite H1, H2, H3. unfold sat_add. repeat split; lia.
Qed.

(** Dropping every live record leaves an empty ledger that accounts for all of them. *)
Lemma drops_ledger n live a :
  Ledger_ok n live a ->
  Ledger_ok n [] (fold_left (fun a m => finish (ticket_id m) None a) live a).
Proof.
  revert a. induction live as [|m live IH]; intros a Hl; [done|]. cbn.
  apply IH. by apply (finish_ledger n m live a None Hl).
Qed.

(** ** Every interleaving of producers and the writer *)
Section QueueInvariant.
Context {S C : Type} `{Semaphore S} `{Channel C QueuedMedia}.

Definition live (q : MediaQueue S C) : list QueuedMedia := option_list (writing q) ++ contents (channel q).
Definition size_of (ms : list QueuedMedia) : Z := sum_list ((fun m => packet_bytes (packet m)) <$> ms).

Record Queue_ok (capacity : nat) (q : MediaQueue S C) : Prop := {
  q_maximum : maximum (accounting q) = Datatypes.S capacity;
  q_records : 0 <= available (record_permits q) /\
    available (record_permits q) + Z.of_nat (length (preparing q)) + Z.of_nat (length (live q)) = Z.of_nat capacity + 1;
  q_bytes : 0 <= available (byte_permits q) /\
    available (byte_permits q) + sum_list (packet_bytes <$> preparing q) + size_of (live q) = MAX_PENDING_BYTES;
  q_ledger : forall n, next_ticket (accounting q) = Some n -> Ledger_ok n (live q) (accounting q);
  q_writing : forall m n, writing q = Some m -> next_ticket (accounting q) = Some n ->
    exists r rest start, pending (accounting q) = r :: rest /\ writing_at r = Some start;
}.

Inductive queue_op :=
  | Prepare (p : MediaPacket)
  | Publish (i : nat) (now : instant)
  | BeginWrite (now : instant)
  | EndWrite (now : instant).
Definition queue_step (q : MediaQueue S C) (op : queue_op) : MediaQueue S C :=
  match op with
  | Prepare p => (prepare p q).1
  | Publish i now => publish i now q
  | BeginWrite now => begin_write now q
  | EndWrite now => end_write now q
  end.
Definition queue_run (ops : list queue_op) (q : MediaQueue S C) : MediaQueue S C := fold_left queue_step ops q.

Lemma size_of_app l k : size_of (l ++ k) = size_of l + size_of k.
Proof. unfold size_of. by rewrite fmap_app, sum_list_app. Qed.
Lemma size_of_one m : size_of [m] = packet_bytes (packet m).
Proof. unfold size_of. cbn. rewrite sum_list_cons, sum_list_nil. lia. Qed.

Lemma prepare_ok k p q : Queue_ok k q -> Queue_ok k (prepare p q).1.
Proof.
  intros Hok. unfold prepare. destruct (try_reserve (channel q)) as [c [| |]] eqn:Hr; [|done|done].
  destruct (checked u32_max _) as [n|] eqn:Hn; [|done]. apply checked_Some in Hn as [-> _].
  destruct (try_acquire _ (byte_permits q)) as [bs|] eqn:Hb; [|done].
  destruct (try_acquire 1 (record_permits q)) as [rs|] eqn:Hrs; [|done].
  apply try_acquire_some in Hb as [Hb1 Hb2]. apply try_acquire_some in Hrs as [Hr1 Hr2].
  assert (Hc : contents c = contents (channel q)).
  { pose proof (try_reserve_contents (channel q)) as Hc. by rewrite Hr in Hc. }
  destruct Hok as [Hm [Hrn Hre] [Hbn Hbe] Hl Hw]. unfold live in *. split; unfold live; cbn; rewrite ?Hc; try done.
  - rewrite Hr2. rewrite !length_app in *. cbn. lia.
  - rewrite Hb2, fmap_app, sum_list_app. cbn. rewrite sum_list_cons, sum_list_nil. lia.
Qed.

Lemma admit_none p now a :
  next_ticket a = None -> next_ticket (admit_record p now a).1 = None /\ maximum (admit_record p now a).1 = maximum a.
Proof. intros Hn. unfold admit_record. destruct (valid a); cbn; rewrite ?Hn; done. Qed.

Lemma admit_pending p now a r rest :
  pending a = r :: rest -> exists rest', pending (admit_record p now a).1 = r :: rest'.
Proof.
  intros Hp. unfold admit_record. destruct (valid a); cbn; [|by exists rest]. destruct (next_ticket a); cbn; [|by exists rest].
  case_bool_decide; cbn; [by exists rest|]. rewrite Hp. by eexists.
Qed.

Lemma publish_queue_ok k i now q : Queue_ok k q -> Queue_ok k (publish i now q).
Proof.
  intros Hok. unfold publish. destruct (preparing q !! i) as [p|] eqn:Hi; [|done].
  destruct (admit_record (packet_bytes p) now (accounting q)) as [a id] eqn:Ha.
  destruct Hok as [Hm [Hrn Hre] [Hbn Hbe] Hl Hw].
  pose proof (length_delete (preparing q) i (mk_is_Some _ _ Hi)) as Hdl.
  assert (Hpos : (0 < length (preparing q))%nat) by (apply lookup_lt_Some in Hi; lia).
  assert (Hsum : sum_list (packet_bytes <$> preparing q) =
    sum_list (packet_bytes <$> delete i (preparing q)) + packet_bytes p).
  { rewrite (delete_Permutation _ _ _ Hi) at 1. rewrite fmap_cons, sum_list_cons. lia. }
  set (m := MkQueuedMedia p id).
  assert (Hlive : option_list (writing q) ++ contents (send m (channel q)) = live q ++ [m]).
  { unfold live. by rewrite send_contents, app_assoc. }
  assert (Hadm : maximum a = maximum (accounting q) /\
    (forall n, next_ticket a = Some n -> Ledger_ok n (live q ++ [m]) a)).
  { destruct (next_ticket (accounting q)) as [n|] eqn:Hn.
    - pose proof (admit_ledger n (live q) (accounting q) p now (Hl n eq_refl)) as Hadmit. rewrite Ha in Hadmit.
      destruct Hadmit as (-> & Hmx & Hor); [lia|]. split; [done|]. intros n' Hn'.
      destruct Hor as [Hnone|Hled]; [congruence|]. pose proof (led_next _ _ _ Hled) as Hx. rewrite Hx in Hn'.
      by injection Hn' as <-.
    - pose proof (admit_none (packet_bytes p) now _ Hn) as [H1 H2]. rewrite Ha in H1, H2. cbn in H1, H2.
      split; [done|]. congruence. }
  destruct Hadm as [Hmx Hled]. split; unfold live; cbn; rewrite ?Hlive.
  - by rewrite Hmx.
  - rewrite length_app in *. cbn. lia.
  - rewrite size_of_app, size_of_one. cbn. lia.
  - done.
  - intros m' n Hm' Hn. assert (Hn0 : exists n0, next_ticket (accounting q) = Some n0).
    { destruct (next_ticket (accounting q)) as [n0|] eqn:Hnone; [by exists n0|].
      pose proof (admit_none (packet_bytes p) now _ Hnone) as [H1 _]. rewrite Ha in H1. cbn in H1. congruence. }
    destruct Hn0 as [n0 Hn0]. destruct (Hw m' n0 Hm' Hn0) as (r & rest & start & Hp & Hs).
    destruct (admit_pending (packet_bytes p) now _ _ _ Hp) as [rest' Hp']. rewrite Ha in Hp'. cbn in Hp'.
    by exists r, rest', start.
Qed.

Lemma started_next id now a : next_ticket (started id now a) = next_ticket a /\ maximum (started id now a) = maximum a.
Proof. unfold started. destruct id; [|done]. by destruct (list_find _ _) as [[? ?]|]. Qed.
Lemma finish_next id at_ a : next_ticket (finish id at_ a) = next_ticket a /\ maximum (finish id at_ a) = maximum a.
Proof.
  unfold finish. destruct id; [|done]. destruct (list_find _ _) as [[? r]|]; [|done]. destruct at_; [|done].
  by destruct (writing_at r).
Qed.

Lemma begin_write_ok k now q : Queue_ok k q -> Queue_ok k (begin_write now q).
Proof.
  intros Hok. unfold begin_write. destruct (writing q) as [|] eqn:Hwr; [done|].
  destruct (recv (channel q)) as [[m c]|] eqn:Hrecv; [|done]. apply recv_contents in Hrecv.
  destruct Hok as [Hm [Hrn Hre] [Hbn Hbe] Hl Hw].
  assert (Hlive : live q = m :: contents c) by (unfold live; by rewrite Hwr, Hrecv).
  destruct (started_next (ticket_id m) now (accounting q)) as [Hnext Hmax].
  split; unfold live; cbn; rewrite ?Hnext, ?Hmax; rewrite Hlive in *; try done.
  - intros n Hn. by apply started_ledger, Hl.
  - intros m' n [= <-] Hn. destruct (started_ledger n m (contents c) (accounting q) now (Hl n Hn)) as (_ & (r & rest & Hp & Hs) & _).
    by exists r, rest, now.
Qed.

Lemma end_write_ok k now q : Queue_ok k q -> Queue_ok k (end_write now q).
Proof.
  intros Hok. unfold end_write. destruct (writing q) as [m|] eqn:Hwr; [|done].
  destruct Hok as [Hm [Hrn Hre] [Hbn Hbe] Hl Hw].
  assert (Hlive : live q = m :: contents (channel q)) by (unfold live; by rewrite Hwr).
  destruct (finish_next (ticket_id m) (Some now) (accounting q)) as [Hnext Hmax].
  rewrite Hlive in *. split; unfold live; cbn; rewrite ?Hnext, ?Hmax, ?release_available; try done.
  - cbn in Hre. lia.
  - change (m :: contents (channel q)) with ([m] ++ contents (channel q)) in Hbe.
    rewrite size_of_app, size_of_one in Hbe. pose proof (packet_bytes_nonneg (packet m)). lia.
  - intros n Hn. apply finish_ledger; [by apply Hl|]. intros now' _. by apply (Hw m n).
Qed.

Lemma queue_run_ok k ops q : Queue_ok k q -> Queue_ok k (queue_run ops q).
Proof.
  unfold queue_run. revert q. induction ops as [|op ops IH]; intros q Hq; cbn; [done|]. apply IH.
  destruct op; cbn; [by apply prepare_ok|by apply publish_queue_ok|by apply begin_write_ok|by apply end_write_ok].
Qed.

Lemma queue_new_ok k bs rs c :
  contents c = [] -> available bs = MAX_PENDING_BYTES -> available rs = Z.of_nat k + 1 ->
  Queue_ok k (queue_new k bs rs c).
Proof.
  intros Hc Hb Hr. assert (Hmax : 0 <= MAX_PENDING_BYTES) by (unfold MAX_PENDING_BYTES; lia).
  unfold queue_new. split; unfold live; cbn; rewrite ?Hc; cbn.
  - done.
  - lia.
  - rewrite Hb. unfold size_of. cbn. rewrite !sum_list_nil. lia.
  - intros n [= <-]. apply ledger_new.
  - done.
Qed.

Lemma fold_bytes l start :
  Forall (Z.le 0) (bytes <$> l) -> 0 <= start -> start + sum_list (bytes <$> l) <= u64_max ->
  fold_left (fun total r => sat_add total (bytes r)) l start = start + sum_list (bytes <$> l).
Proof.
  revert start. induction l as [|r l IH]; intros start Hl Hs Hle; cbn; [rewrite sum_list_nil; lia|].
  cbn in Hl, Hle. apply list.Forall_cons in Hl as [Hr Hl]. rewrite sum_list_cons in Hle |- *.
  pose proof (sum_list_nonneg _ Hl). rewrite IH; unfold sat_add; try lia; done.
Qed.

(** What a snapshot says while tickets last. *)
Lemma snapshot_live k q now n :
  Queue_ok k q -> next_ticket (accounting q) = Some n ->
  exists s, snapshot now (accounting q) = Some s /\ snapshot_counters s = counters (accounting q) /\
    pending_records s = length (live q) /\ pending_payload_bytes s = size_of (live q).
Proof.
  intros Hok Hn. pose proof (q_ledger _ _ Hok n Hn) as Hl. unfold snapshot. rewrite (led_valid _ _ _ Hl).
  eexists. split; [done|]. cbn. split; [done|]. split; [by eapply ledger_length|].
  destruct (q_bytes _ _ Hok) as [Hb1 Hb2].
  assert (Hpend : bytes <$> pending (accounting q) = (fun m => packet_bytes (packet m)) <$> live q) by apply Hl.
  assert (Hprep : 0 <= sum_list (packet_bytes <$> preparing q)).
  { apply sum_list_nonneg, Forall_fmap, Forall_true. intros p. apply packet_bytes_nonneg. }
  rewrite fold_bytes; rewrite ?Hpend; fold (size_of (live q)).
  - lia.
  - apply Forall_fmap, Forall_true. intros m. apply packet_bytes_nonneg.
  - lia.
  - unfold MAX_PENDING_BYTES in Hb2. rewrite u64_max_val. lia.
Qed.
End QueueInvariant.

(** ** A concrete runtime *)
#[export] Instance counting_semaphore : Semaphore Z.
Proof.
  refine {| available := fun s => s;
            try_acquire := fun n s => if bool_decide (n <= s) then Some (s - n) else None;
            release := fun n s => s + n |}; try done.
  - intros n s s'. case_bool_decide; [|done]. by intros [= <-].
  - intros n s. case_bool_decide; [done|lia].
Defined.

Record Buffer (A : Type) := MkBuffer { slots : nat; items : list A }.
Arguments MkBuffer {A} slots items.
Arguments slots {A} b.
Arguments items {A} b.
#[export] Instance buffer_channel A : Channel (Buffer A) A.
Proof.
  refine {| contents := items;
            try_reserve := fun c => match slots c with
                                    | O => (c, Full)
                                    | S n => (MkBuffer n (items c), Reserved)
                                    end;
            send := fun a c => MkBuffer (slots c) (items c ++ [a]);
            recv := fun c => match items c with
                             | [] => None
                             | a :: rest => Some (a, MkBuffer (S (slots c)) rest)
                             end |}; try done.
  - by intros [[] ?].
  - intros a [n [|x l]] c'; cbn; [done|]. by intros [= -> <-].
Defined.

(** ** Properties *)

(** C36 (media-accounting). Under every interleaving of producers with the writer, live
    records and their payloads stay within the budgets, and while tickets last the ledger
    is valid and exact: a snapshot shows the live records and their bytes, every admitted
    record is completed, cancelled or live, payload totals agree unless they saturate, and
    a teardown accounts for each live record once. *)
Theorem media_accounting (S C : Type) (semaphore : Semaphore S) (chan : Channel C QueuedMedia)
    (capacity : nat) (bs rs : S) (c : C) (ops : list queue_op) (now : instant) :
  contents c = [] -> available bs = MAX_PENDING_BYTES -> available rs = Z.of_nat capacity + 1 ->
  let q := queue_run ops (queue_new capacity bs rs c) in
  (length (live q) <= capacity + 1)%nat /\ size_of (live q) <= MAX_PENDING_BYTES /\
  forall n, next_ticket (accounting q) = Some n ->
    (exists s, snapshot now (accounting q) = Some s /\ pending_records s = length (live q) /\
       pending_payload_bytes s = size_of (live q) /\
       accepted_records (snapshot_counters s) =
         completed_records (snapshot_counters s) + cancelled_records (snapshot_counters s) + Z.of_nat (pending_records s) /\
       (accepted_payload_bytes (snapshot_counters s) < u64_max ->
          accepted_payload_bytes (snapshot_counters s) =
            completed_payload_bytes (snapshot_counters s) + cancelled_payload_bytes (snapshot_counters s)
            + pending_payload_bytes s)) /\
    (let a := teardown q in
     pending a = [] /\ valid a = true /\
     accepted_records (counters a) = completed_records (counters a) + cancelled_records (counters a)).
Proof.
  intros Hc Hb Hr q. pose proof (queue_run_ok capacity ops _ (queue_new_ok capacity bs rs c Hc Hb Hr)) as Hok.
  fold q in Hok. destruct (q_records _ _ Hok) as [Hr1 Hr2]. destruct (q_bytes _ _ Hok) as [Hb1 Hb2].
  assert (Hprep : 0 <= sum_list (packet_bytes <$> preparing q)).
  { apply sum_list_nonneg, Forall_fmap, Forall_true. intros p. apply packet_bytes_nonneg. }
  split; [lia|]. split; [lia|]. intros n Hn. pose proof (q_ledger _ _ Hok n Hn) as Hl. split.
  - destruct (snapshot_live capacity q now n Hok Hn) as (s & Hs & Hco & Hp & Hpb). exists s. rewrite Hco, Hp, Hpb.
    pose proof (led_counts _ _ _ Hl) as Hcount. rewrite (ledger_length _ _ _ Hl) in Hcount.
    pose proof (led_accepted _ _ _ Hl). repeat split; [done|lia|].
    destruct (led_totals _ _ _ Hl) as (acc & com & can & H1 & H2 & H3 & H4 & H5 & H6).
    rewrite (led_bytes _ _ _ Hl) in H6. fold (size_of (live q)) in H6.
    assert (0 <= size_of (live q)).
    { apply sum_list_nonneg, Forall_fmap, Forall_true. intros m. apply packet_bytes_nonneg. }
    lia.
  - pose proof (drops_ledger n (live q) (accounting q) Hl) as Hd. cbn zeta. unfold teardown. fold (live q).
    pose proof (ledger_length _ _ _ Hd) as Hlen. apply nil_length_inv in Hlen.
    pose proof (led_counts _ _ _ Hd) as Hcount. rewrite Hlen in Hcount. cbn in Hcount.
    pose proof (led_accepted _ _ _ Hd). pose proof (led_valid _ _ _ Hd). split; [done|]. split; [done|]. lia.
Qed.

(** ** Concrete inputs *)
Definition sample_media (n : nat) : MediaPacket :=
  unit_of sample_header (repeat 7 n).
Definition sample_ops : list queue_op :=
  [Prepare (sample_media 3); Publish 0 10; Prepare (sample_media 2); Publish 0 20; BeginWrite 30; EndWrite 40].
Definition sample_queue : MediaQueue Z (Buffer QueuedMedia) :=
  queue_run sample_ops (queue_new 4 MAX_PENDING_BYTES 5 (MkBuffer 4 [])).

Example media_sample :
  option_map (fun s => (pending_records s, pending_payload_bytes s, completed_payload_bytes (snapshot_counters s)))
    (snapshot 50 (accounting sample_queue)) = Some (1%nat, 2, 3).
Proof. vm_compute. reflexivity. Qed.

Lemma media_accounting_witness :
  (length (live sample_queue) <= 5)%nat /\ size_of (live sample_queue) <= MAX_PENDING_BYTES.
Proof.
  destruct (media_accounting Z (Buffer QueuedMedia) counting_semaphore (buffer_channel QueuedMedia) 4 MAX_PENDING_BYTES 5 (MkBuffer 4 []) sample_ops 50
    eq_refl eq_refl eq_refl) as (Hl & Hs & _).
  split; [exact Hl|exact Hs].
Defined.
