(* ===== verification/Commit.v ===== *)
(** * Surface commits and events ([weld-client/src/surface.rs], [buffer.rs],
      [metadata.rs], [wire.rs])

    A commit is one complete inventory of a surface: its geometry and, for every layer,
    whether the layer's buffer is kept, replaced or removed. [contents] is the reference
    meaning of a stream of events: what a consumer that applies each of them in order
    shows. Commits travel with their buffers exchanged for the transport's. *)

From S2P Require Import Prelude OrdMap Ids Surface.

(** ** Buffers ([buffer.rs]) *)
Record ClientBufferId := MkClientBufferId { buffer_source : ClientSourceId; buffer_local : Z }.
#[export] Instance ClientBufferId_eq_dec : EqDecision ClientBufferId.
Proof. solve_decision. Defined.
#[export] Instance ClientBufferUseId_eq_dec : EqDecision ClientBufferUseId.
Proof. solve_decision. Defined.

Record ClientBufferMetadata := MkClientBufferMetadata { extent : Extent; opaque : bool }.
#[export] Instance ClientBufferMetadata_eq_dec : EqDecision ClientBufferMetadata.
Proof. solve_decision. Defined.

(** A lease: the adapter's private payload is a handle, and the completion token that all
    clones of a lease share is its use. *)
Record ClientBufferLease := MkClientBufferLease {
  lease_buffer : ClientBufferId;
  lease_metadata : ClientBufferMetadata;
  lease_access : Z;
  lease_use_id : ClientBufferUseId;
}.
#[export] Instance ClientBufferLease_eq_dec : EqDecision ClientBufferLease.
Proof. solve_decision. Defined.

(** [ClientBufferLease::new]; the error is [ClientBufferLeaseSourceMismatch]. *)
Definition ClientBufferLease_new (buffer : ClientBufferId) (use_id : ClientBufferUseId)
    (metadata : ClientBufferMetadata) (access : Z) : outcome ClientBufferLease :=
  if bool_decide (buffer_source buffer <> use_source use_id)
  then Fail (ErrMsg "buffer source does not match committed-use source")
  else Ret (MkClientBufferLease buffer metadata access use_id).

(** ** Labels ([metadata.rs]) *)
Definition MAX_SURFACE_LABEL_BYTES : nat := 1024.
Record ClientSurfaceMetadata := MkClientSurfaceMetadata {
  app_id : string;
  title : string;
  x11_instance : option string;
  local_process_id : option Z;
  local_launch_id : option Z;
}.
#[export] Instance ClientSurfaceMetadata_eq_dec : EqDecision ClientSurfaceMetadata.
Proof. solve_decision. Defined.

Definition label_error : error := ErrMsg "surface label exceeds 1024 bytes".

(** [ClientSurfaceMetadata::new] *)
Definition ClientSurfaceMetadata_new (app title : string) : outcome ClientSurfaceMetadata :=
  if bool_decide (MAX_SURFACE_LABEL_BYTES < String.length app)%nat
     || bool_decide (MAX_SURFACE_LABEL_BYTES < String.length title)%nat
  then Fail label_error
  else Ret (MkClientSurfaceMetadata app title None None None).

(** [str::is_char_boundary], [String::truncate] and the loop that finds a boundary, on the
    UTF-8 bytes: a continuation byte is 10xxxxxx. *)
Definition is_continuation (c : Ascii.ascii) : bool :=
  let b := Z.of_N (Ascii.N_of_ascii c) in (128 <=? b) && (b <? 192).
Definition is_char_boundary (i : nat) (s : string) : bool :=
  bool_decide (i = 0)%nat ||
  match String.get i s with
  | Some c => negb (is_continuation c)
  | None => bool_decide (i = String.length s)
  end.
Fixpoint str_take (n : nat) (s : string) : string :=
  match n, s with
  | S n, String c s => String c (str_take n s)
  | _, _ => EmptyString
  end.
Fixpoint boundary_below (e : nat) (s : string) : nat :=
  if is_char_boundary e s then e else match e with S e => boundary_below e s | O => O end.
Definition truncate_label (s : string) : string :=
  str_take (boundary_below (String.length s `min` MAX_SURFACE_LABEL_BYTES) s) s.
(** [ClientSurfaceMetadata::truncated] and [truncated_x11] *)
Definition truncated (app title : string) : ClientSurfaceMetadata :=
  MkClientSurfaceMetadata (truncate_label app) (truncate_label title) None None None.
Definition truncated_x11 (class instance label : string) : ClientSurfaceMetadata :=
  let m := truncated class label in
  MkClientSurfaceMetadata (app_id m) (title m) (Some (truncate_label instance)) (local_process_id m)
    (local_launch_id m).

(** [with_local_process_id] and [with_local_launch_id] *)
Definition with_local_process_id (pid : option Z) (m : ClientSurfaceMetadata) : ClientSurfaceMetadata :=
  MkClientSurfaceMetadata (app_id m) (title m) (x11_instance m)
    (match pid with Some p => if 0 <? p then Some p else None | None => None end) (local_launch_id m).
Definition with_local_launch_id (launch : option Z) (m : ClientSurfaceMetadata) : ClientSurfaceMetadata :=
  MkClientSurfaceMetadata (app_id m) (title m) (x11_instance m) (local_process_id m) launch.

(** The serialized form: host-local attribution stays behind. *)
Record WireMetadata := MkWireMetadata {
  wire_app_id : string;
  wire_title : string;
  wire_x11_instance : option string;
}.
(** [From<ClientSurfaceMetadata> for WireMetadata] *)
Definition WireMetadata_from (m : ClientSurfaceMetadata) : WireMetadata :=
  MkWireMetadata (app_id m) (title m) (x11_instance m).
(** [TryFrom<WireMetadata> for ClientSurfaceMetadata] *)
Definition ClientSurfaceMetadata_try_from (w : WireMetadata) : outcome ClientSurfaceMetadata :=
  m ← ClientSurfaceMetadata_new (wire_app_id w) (wire_title w);
  if is_some_and (wire_x11_instance w)
       (fun v => bool_decide (MAX_SURFACE_LABEL_BYTES < String.length v)%nat)
  then Fail label_error
  else Ret (MkClientSurfaceMetadata (app_id m) (title m) (wire_x11_instance w)
              (local_process_id m) (local_launch_id m)).

(** ** Commits *)
Record LogicalSize := MkLogicalSize { size_width : f32; size_height : f32 }.
Record SurfaceContentView := MkSurfaceContentView {
  source_x : f32; source_y : f32; source_width : f32; source_height : f32;
  logical_width : f32; logical_height : f32;
}.
Record SurfaceLayerPlacement := MkSurfaceLayerPlacement {
  placement_layer : SurfaceLayerId;
  placement_position : LogicalPoint;
  placement_view : SurfaceContentView;
}.
Record SurfaceWindowGeometry := MkSurfaceWindowGeometry {
  geometry_origin : LogicalPoint;
  geometry_view : SurfaceContentView;
}.
Record SurfaceInputRect := MkSurfaceInputRect { rect_position : LogicalPoint; rect_size : LogicalSize }.
Record SurfaceInputPlacement := MkSurfaceInputPlacement {
  input_layer : SurfaceLayerId;
  input_position : LogicalPoint;
  regions : list SurfaceInputRect;
}.

(** [SurfaceBufferChange] and [WireSurfaceBufferChange<B>] differ in the buffer only, and
    so do all records made of them. *)
Inductive SurfaceBufferChange (B : Type) : Type :=
  | Retained (metadata : ClientBufferMetadata)
  | Replaced (metadata : ClientBufferMetadata) (buffer : B)
  | Removed.
Arguments Retained {B} metadata.
Arguments Replaced {B} metadata buffer.
Arguments Removed {B}.

(** [SurfaceBufferChange::metadata] *)
Definition change_metadata {B} (c : SurfaceBufferChange B) : option ClientBufferMetadata :=
  match c with Retained m | Replaced m _ => Some m | Removed => None end.

Record SurfaceBufferUpdate (B : Type) := MkSurfaceBufferUpdate {
  layer : SurfaceLayerId;
  change : SurfaceBufferChange B;
}.
Arguments MkSurfaceBufferUpdate {B} layer change.
Arguments layer {B} s.
Arguments change {B} s.

Inductive SurfaceAlphaMode := Preserved | Discarded.
#[export] Instance SurfaceAlphaMode_eq_dec : EqDecision SurfaceAlphaMode.
Proof. solve_decision. Defined.

Record ClientSurfaceState (B : Type) := MkClientSurfaceState {
  revision : Z;
  alpha_mode : SurfaceAlphaMode;
  mapped : bool;
  root : option SurfaceLayerPlacement;
  window_geometry : option SurfaceWindowGeometry;
  overlays : list SurfaceLayerPlacement;
  inputs : list SurfaceInputPlacement;
  buffers : list (SurfaceBufferUpdate B);
}.
Arguments MkClientSurfaceState {B}.
Arguments revision {B} c : rename.
Arguments alpha_mode {B} c : rename.
Arguments mapped {B} c : rename.
Arguments root {B} c : rename.
Arguments window_geometry {B} c : rename.
Arguments overlays {B} c : rename.
Arguments inputs {B} c : rename.
Arguments buffers {B} c : rename.

Definition set_buffers {B C} (bs : list (SurfaceBufferUpdate C)) (c : ClientSurfaceState B) :
    ClientSurfaceState C :=
  MkClientSurfaceState (revision c) (alpha_mode c) (mapped c) (root c) (window_geometry c)
    (overlays c) (inputs c) bs.

(** The [find_map] of [carry_unobserved_content_from]. *)
Definition replaced_at {B} (l : SurfaceLayerId) (bs : list (SurfaceBufferUpdate B)) :
    option (SurfaceBufferChange B) :=
  head (omap (fun u => match change u with
                       | Replaced _ _ => if bool_decide (layer u = l) then Some (change u) else None
                       | _ => None
                       end) bs).
Definition carry_update {B} (previous : list (SurfaceBufferUpdate B)) (u : SurfaceBufferUpdate B) :
    SurfaceBufferUpdate B :=
  match change u with
  | Retained _ =>
      match replaced_at (layer u) previous with
      | Some c => MkSurfaceBufferUpdate (layer u) c
      | None => u
      end
  | _ => u
  end.
(** [ClientSurfaceCommit::carry_unobserved_content_from] *)
Definition carry_unobserved_content_from {B} (previous current : ClientSurfaceState B) : ClientSurfaceState B :=
  set_buffers (carry_update (buffers previous) <$> buffers current) current.

(** ** Events *)
Inductive WindowResizeEdge :=
  | EdgeTop | EdgeBottom | EdgeLeft | EdgeRight
  | EdgeTopLeft | EdgeBottomLeft | EdgeTopRight | EdgeBottomRight.
Inductive ToplevelInteractionRequestKind := InteractionMove | InteractionResize (edges : WindowResizeEdge) | InteractionEnd.
Inductive ToplevelStateRequestKind := Fullscreen (value : bool).

Inductive ClientSurfaceEventKind (B : Type) : Type :=
  | Role (role : ClientSurfaceRole)
  | Commit (commit : ClientSurfaceState B)
  | Interaction (kind : ToplevelInteractionRequestKind)
  | StateRequest (kind : ToplevelStateRequestKind)
  | Destroyed
  | Metadata (metadata : ClientSurfaceMetadata).
Arguments Role {B}.
Arguments Commit {B}.
Arguments Interaction {B}.
Arguments StateRequest {B}.
Arguments Destroyed {B}.
Arguments Metadata {B}.

Record ClientSurfaceEvent (B : Type) := MkClientSurfaceEvent {
  surface : ClientSurfaceId;
  event_kind : ClientSurfaceEventKind B;
}.
Arguments MkClientSurfaceEvent {B}.
Arguments surface {B} e : rename.
Arguments event_kind {B} e : rename.

(** ** Conversion for transport ([wire.rs])

    [f] exports or imports one buffer; conversion stops at the first buffer it fails on. *)
Section Wire.
Context {B C : Type}.

Definition convert_update (f : SurfaceLayerId -> ClientBufferMetadata -> B -> outcome C)
    (u : SurfaceBufferUpdate B) : outcome (SurfaceBufferUpdate C) :=
  c ← match change u with
      | Retained m => Ret (Retained m)
      | Replaced m b => b ← f (layer u) m b; Ret (Replaced m b)
      | Removed => Ret Removed
      end;
  Ret (MkSurfaceBufferUpdate (layer u) c).

Definition convert_commit (f : SurfaceLayerId -> ClientBufferMetadata -> B -> outcome C)
    (c : ClientSurfaceState B) : outcome (ClientSurfaceState C) :=
  bs ← traverse (convert_update f) (buffers c);
  Ret (set_buffers bs c).

Definition convert_event (f : SurfaceLayerId -> ClientBufferMetadata -> B -> outcome C)
    (e : ClientSurfaceEvent B) : outcome (ClientSurfaceEvent C) :=
  kind ← match event_kind e with
         | Metadata m => Ret (Metadata m)
         | Role r => Ret (Role r)
         | Commit c => c ← convert_commit f c; Ret (Commit c)
         | Interaction k => Ret (Interaction k)
         | StateRequest k => Ret (StateRequest k)
         | Destroyed => Ret Destroyed
         end;
  Ret (MkClientSurfaceEvent (surface e) kind).
End Wire.

(** [WireClientSurfaceCommit<B>] and [WireClientSurfaceEvent<B>] are the same records over
    the transport's buffers. [try_from_client_with_layer] gives the export the layer,
    [try_into_client] gives the import the metadata. *)
Definition try_from_client {W} (export : SurfaceLayerId -> ClientBufferLease -> outcome W) :
    ClientSurfaceEvent ClientBufferLease -> outcome (ClientSurfaceEvent W) :=
  convert_event (fun l _ b => export l b).
Definition try_into_client {W} (import : W -> ClientBufferMetadata -> outcome ClientBufferLease) :
    ClientSurfaceEvent W -> outcome (ClientSurfaceEvent ClientBufferLease) :=
  convert_event (fun _ m b => import b m).

(** The replaced buffers of an event, in order. *)
Definition replaced_buffers {B} (e : ClientSurfaceEvent B) : list (SurfaceLayerId * ClientBufferMetadata * B) :=
  match event_kind e with
  | Commit c => omap (fun u => match change u with Replaced m b => Some (layer u, m, b) | _ => None end) (buffers c)
  | _ => []
  end.

(** ** Truncated labels

    A string is the concatenation of its characters, each a byte that is no continuation
    and continuation bytes. *)
Fixpoint all_continuation (s : string) : bool :=
  match s with EmptyString => true | String c s => is_continuation c && all_continuation s end.
Definition is_char (s : string) : bool :=
  match s with EmptyString => false | String c s => negb (is_continuation c) && all_continuation s end.
Definition text (cs : list string) : string := foldr String.append EmptyString cs.

#[local] Arguments String.append !_ _ / : simpl nomatch.
Lemma str_length_app a b : String.length (a +:+ b) = (String.length a + String.length b)%nat.
Proof. induction a as [|c a IH]; cbn; [done|by rewrite IH]. Qed.
Lemma str_take_app a b : str_take (String.length a) (a +:+ b) = a.
Proof. induction a as [|c a IH]; cbn; [by destruct b|by rewrite IH]. Qed.
Lemma all_continuation_get s i c : all_continuation s = true -> String.get i s = Some c -> is_continuation c = true.
Proof.
  revert i. induction s as [|d s IH]; intros [|i]; cbn; try done; intros [Hd Hs]%andb_true_iff.
  - by intros [= <-].
  - by apply IH.
Qed.
Lemma get_beyond s i : (String.length s <= i)%nat -> String.get i s = None.
Proof. revert i. induction s as [|c s IH]; intros [|i]; cbn; try done; [lia|]. intros. apply IH. lia. Qed.
Lemma get_within s i : (i < String.length s)%nat -> exists c, String.get i s = Some c.
Proof. revert i. induction s as [|c s IH]; intros [|i]; cbn; try lia; [eauto|]. intros. apply IH. lia. Qed.
Lemma get_app_l a b i : (i < String.length a)%nat -> String.get i (a +:+ b) = String.get i a.
Proof. revert i. induction a as [|c a IH]; intros [|i]; cbn; try lia; [done|]. intros. apply IH. lia. Qed.
Lemma get_app_r a b i : String.get (String.length a + i) (a +:+ b) = String.get i b.
Proof. induction a as [|c a IH]; cbn; done. Qed.

(** Boundaries of a text are the ends of its first characters. *)
Lemma text_boundary cs i :
  Forall (fun c => is_char c = true) cs ->
  is_char_boundary i (text cs) = true <-> exists k, i = String.length (text (take k cs)) .
Proof.
  intros Hcs. revert i. induction Hcs as [|c cs Hc Hcs IH]; intros i.
  - cbn. unfold is_char_boundary. split.
    + intros Hi. exists 0%nat. destruct i; [done|]. cbn in Hi. done.
    + intros [k ->]. by rewrite take_nil.
  - destruct c as [|h c]; [done|]. cbn in Hc. apply andb_true_iff in Hc as [Hh Hc]. cbn [text foldr].
    destruct (decide (i < String.length (String h c))%nat) as [Hi|Hi].
    + unfold is_char_boundary. fold (text cs). rewrite get_app_l by done. destruct i as [|i].
      { split; [intros _; by exists 0%nat|done]. }
      cbn in Hi. destruct (get_within c i) as [d Hd]; [lia|]. cbn. rewrite Hd.
      rewrite (all_continuation_get _ _ _ Hc Hd). cbn. split; [done|].
      intros [[|k] Hk]; [done|]. cbn [take text foldr] in Hk. rewrite str_length_app in Hk. cbn in Hk. lia.
    + fold (text cs). replace i with (String.length (String h c) + (i - String.length (String h c)))%nat by lia.
      set (j := (i - String.length (String h c))%nat). transitivity (is_char_boundary j (text cs) = true).
      * unfold is_char_boundary. rewrite get_app_r, str_length_app.
        rewrite (bool_decide_false (_ + _ = 0)%nat) by (cbn; lia). cbn [orb].
        destruct j as [|j]; [|cbn [bool_decide orb]; destruct (String.get (S j) (text cs)); [done|]].
        -- cbn. split; [done|]. intros _. destruct cs as [|[|h' c'] cs]; cbn; [by rewrite bool_decide_true by lia| |].
           ++ inversion Hcs; subst. done.
           ++ inversion Hcs as [|? ? Hc' _]; subst. cbn in Hc'. apply andb_true_iff in Hc' as [Hc' _]. done.
        -- rewrite orb_true_iff, !bool_decide_eq_true. lia.
      * rewrite IH. split; intros [k Hk].
        -- exists (S k). cbn [take text foldr]. rewrite str_length_app. fold (text (take k cs)). lia.
        -- destruct k as [|k]; [cbn in Hk; lia|]. cbn [take text foldr] in Hk. rewrite str_length_app in Hk.
           fold (text (take k cs)) in Hk. exists k. lia.
Qed.

Lemma boundary_below_spec e s :
  (boundary_below e s <= e)%nat /\ is_char_boundary (boundary_below e s) s = true /\
  forall i, (i <= e)%nat -> is_char_boundary i s = true -> (i <= boundary_below e s)%nat.
Proof.
  induction e as [|e (H1 & H2 & H3)].
  - assert (boundary_below 0 s = 0%nat) as -> by (cbn; by destruct (is_char_boundary 0 s)).
    split; [lia|]. split; [done|]. intros; lia.
  - cbn [boundary_below]. destruct (is_char_boundary (S e) s) eqn:He; [split_and!; [lia|done|done]|].
    split; [lia|]. split; [done|]. intros i Hi Hb. destruct (decide (i = S e)) as [->|]; [congruence|]. apply H3; [lia|done].
Qed.

Lemma take_text_prefix k cs : exists rest, text cs = text (take k cs) +:+ rest.
Proof.
  revert cs. induction k as [|k IH]; intros [|c cs]; cbn; try (by eexists).
  destruct (IH cs) as [rest Hr]. exists rest. fold (text cs) (text (take k cs)). rewrite Hr.
  induction c as [|a c IHc]; cbn; [done|by rewrite IHc].
Qed.

Lemma wire_labels_accepted a b c :
  (String.length a <= MAX_SURFACE_LABEL_BYTES)%nat -> (String.length b <= MAX_SURFACE_LABEL_BYTES)%nat ->
  (String.length c <= MAX_SURFACE_LABEL_BYTES)%nat ->
  ClientSurfaceMetadata_try_from (MkWireMetadata a b (Some c)) = Ret (MkClientSurfaceMetadata a b (Some c) None None).
Proof.
  intros Ha Hb Hc. unfold ClientSurfaceMetadata_try_from, ClientSurfaceMetadata_new. cbn [wire_app_id wire_title wire_x11_instance is_some_and].
  rewrite !bool_decide_false by lia. done.
Qed.

(** Truncating a label never splits a character: the result is
    the longest run of the text's first characters that fits the bound, the whole text
    when that fits. So truncated metadata always passes the strict check of the wire
    format, which keeps its labels and drops the host-local attribution. *)
Theorem label_truncation (cs : list string) (Hcs : Forall (fun c => is_char c = true) cs) (class title : string)
    (pid launch : option Z) :
  (exists k, truncate_label (text cs) = text (take k cs) /\
     (String.length (truncate_label (text cs)) <= MAX_SURFACE_LABEL_BYTES)%nat /\
     forall k', (String.length (text (take k' cs)) <= MAX_SURFACE_LABEL_BYTES)%nat ->
       (String.length (text (take k' cs)) <= String.length (truncate_label (text cs)))%nat) /\
  let m := truncated_x11 class (text cs) title in
  ClientSurfaceMetadata_try_from (WireMetadata_from (with_local_process_id pid (with_local_launch_id launch m))) = Ret m.
Proof.
  assert (Hb : forall s, (String.length (truncate_label s) <= MAX_SURFACE_LABEL_BYTES)%nat).
  { intros s. unfold truncate_label.
    destruct (boundary_below_spec (String.length s `min` MAX_SURFACE_LABEL_BYTES) s) as [Hle _].
    transitivity (boundary_below (String.length s `min` MAX_SURFACE_LABEL_BYTES) s); [|lia].
    generalize (boundary_below (String.length s `min` MAX_SURFACE_LABEL_BYTES) s) as n.
    clear. intros n. revert s. induction n as [|n IH]; intros [|c s]; cbn; try lia. specialize (IH s). lia. }
  split.
  - destruct (boundary_below_spec (String.length (text cs) `min` MAX_SURFACE_LABEL_BYTES) (text cs)) as (Hle & Hbd & Hmax).
    apply (text_boundary cs _ Hcs) in Hbd as [k Hk]. exists k.
    assert (Heq : truncate_label (text cs) = text (take k cs)).
    { unfold truncate_label. rewrite Hk. destruct (take_text_prefix k cs) as [rest Hr]. rewrite Hr at 1. apply str_take_app. }
    split; [done|]. split; [done|]. intros k' Hk'. rewrite Heq, <- Hk. apply Hmax.
    + destruct (take_text_prefix k' cs) as [rest Hr]. rewrite Hr, str_length_app. lia.
    + apply text_boundary; [done|]. by exists k'.
  - apply wire_labels_accepted; apply Hb.
Qed.

(** A two-byte character that straddles the bound goes. *)
Example truncation_at_boundary :
  let e := String (Ascii.ascii_of_nat 195) (String (Ascii.ascii_of_nat 169) EmptyString) in
  let a n := text (replicate n "a"%string) in
  truncate_label (a 1023%nat +:+ e) = a 1023%nat /\ truncate_label (a 1022%nat +:+ e) = a 1022%nat +:+ e.
Proof. vm_compute. by split. Qed.

Lemma label_truncation_witness :
  (exists k, truncate_label (text ["a"%string; "b"%string]) = text (take k ["a"%string; "b"%string])) /\
  truncate_label "ab" = "ab"%string.
Proof.
  split; [|vm_compute; reflexivity].
  destruct (label_truncation ["a"%string; "b"%string] ltac:(repeat constructor) "" "" None None) as [(k & Hk & _) _].
  by exists k.
Defined.

(** ** What a consumer shows

    The reference consumer applies every event in order. Of a surface it keeps the role,
    the last commit's geometry with the scope it arrived in, the labels with theirs, and
    the buffer of every layer: a commit's inventory is complete, so a layer it does not
    name, or names as removed, has no buffer afterwards. *)
Section Contents.
Context {S B : Type}.

Record SurfaceView := MkSurfaceView {
  view_role : option ClientSurfaceRole;
  view_commit : option (S * ClientSurfaceState B);
  view_layers : gmap SurfaceLayerId (ClientBufferMetadata * B);
  view_labels : option (S * ClientSurfaceMetadata);
}.
Definition empty_view : SurfaceView := MkSurfaceView None None ∅ None.
Definition view (s : ClientSurfaceId) (σ : gmap ClientSurfaceId SurfaceView) : SurfaceView := default empty_view (σ !! s).

Definition shown (old : gmap SurfaceLayerId (ClientBufferMetadata * B)) (u : SurfaceBufferUpdate B) :
    option (SurfaceLayerId * (ClientBufferMetadata * B)) :=
  match change u with
  | Retained m => p ← old !! layer u; Some (layer u, (m, p.2))
  | Replaced m b => Some (layer u, (m, b))
  | Removed => None
  end.
Definition layers_after (bs : list (SurfaceBufferUpdate B))
    (old : gmap SurfaceLayerId (ClientBufferMetadata * B)) : gmap SurfaceLayerId (ClientBufferMetadata * B) :=
  list_to_map (omap (shown old) bs).

Definition update_view (sc : S) (k : ClientSurfaceEventKind B) (v : SurfaceView) : SurfaceView :=
  match k with
  | Role r => MkSurfaceView (Some r) (view_commit v) (view_layers v) (view_labels v)
  | Commit c => MkSurfaceView (view_role v) (Some (sc, set_buffers [] c))
                  (layers_after (buffers c) (view_layers v)) (view_labels v)
  | Metadata m => MkSurfaceView (view_role v) (view_commit v) (view_layers v) (Some (sc, m))
  | _ => v
  end.
Definition update (s : ClientSurfaceId) (f : SurfaceView -> SurfaceView) (σ : gmap ClientSurfaceId SurfaceView) : gmap ClientSurfaceId SurfaceView :=
  <[s := f (view s σ)]> σ.

Definition apply (σ : gmap ClientSurfaceId SurfaceView) (r : S * ClientSurfaceEvent B) : gmap ClientSurfaceId SurfaceView :=
  match event_kind r.2 with
  | Destroyed => delete (surface r.2) σ
  | Interaction _ | StateRequest _ => σ
  | k => update (surface r.2) (update_view r.1 k) σ
  end.
Definition contents (σ : gmap ClientSurfaceId SurfaceView) (l : list (S * ClientSurfaceEvent B)) : gmap ClientSurfaceId SurfaceView := foldl apply σ l.

(** A commit a client may make in a state: it names no layer twice, and what it retains
    is there. *)
Definition update_valid (v : SurfaceView) (u : SurfaceBufferUpdate B) : Prop :=
  match change u with
  | Retained m => exists b, view_layers v !! layer u = Some (m, b)
  | _ => True
  end.
Definition commit_valid (v : SurfaceView) (c : ClientSurfaceState B) : Prop :=
  NoDup (layer <$> buffers c) /\ Forall (update_valid v) (buffers c).
Definition event_valid (σ : gmap ClientSurfaceId SurfaceView) (e : ClientSurfaceEvent B) : Prop :=
  match event_kind e with Commit c => commit_valid (view (surface e) σ) c | _ => True end.

Fixpoint stream_valid (σ : gmap ClientSurfaceId SurfaceView) (l : list (S * ClientSurfaceEvent B)) : Prop :=
  match l with
  | [] => True
  | r :: l => event_valid σ r.2 /\ stream_valid (apply σ r) l
  end.

(** ** Layers *)
Lemma omap_shown_fst old (bs : list (SurfaceBufferUpdate B)) :
  (omap (shown old) bs).*1 `sublist_of` (layer <$> bs).
Proof.
  induction bs as [|u bs IH]; [constructor|]. cbn. unfold shown at 1.
  destruct (change u); [destruct (old !! layer u)|..]; cbn; by constructor.
Qed.

Lemma layers_after_NoDup old (bs : list (SurfaceBufferUpdate B)) :
  NoDup (layer <$> bs) -> NoDup (omap (shown old) bs).*1.
Proof. intros H. eapply sublist_NoDup; [done|apply omap_shown_fst]. Qed.

Lemma layers_after_Some bs old l p :
  NoDup (layer <$> bs) ->
  layers_after bs old !! l = Some p <-> exists u, u ∈ bs /\ shown old u = Some (l, p).
Proof.
  intros Hnd. unfold layers_after. rewrite <- elem_of_list_to_map by by apply layers_after_NoDup.
  rewrite list_elem_of_omap. naive_solver.
Qed.

Lemma replaced_at_Some l (bs : list (SurfaceBufferUpdate B)) c :
  replaced_at l bs = Some c ->
  exists u m b, u ∈ bs /\ layer u = l /\ change u = c /\ c = Replaced m b.
Proof.
  unfold replaced_at. intros H. apply head_Some_elem_of, list_elem_of_omap in H as (u & Hu & H).
  destruct (change u) eqn:Hc; try done. case_bool_decide; [|done]. injection H as <-.
  by eexists u, _, _.
Qed.
Lemma replaced_at_None l (bs : list (SurfaceBufferUpdate B)) u :
  replaced_at l bs = None -> u ∈ bs -> layer u = l -> forall m b, change u <> Replaced m b.
Proof.
  unfold replaced_at. intros H Hu Hl m b Hc. apply head_None in H.
  assert (Hin : Replaced m b ∈ ([] : list (SurfaceBufferChange B))); [|set_solver].
  rewrite <- H. apply list_elem_of_omap. exists u. rewrite Hc, bool_decide_true by done. done.
Qed.

Lemma carry_layer (previous : list (SurfaceBufferUpdate B)) u : layer (carry_update previous u) = layer u.
Proof. unfold carry_update. destruct (change u); [destruct (replaced_at _ _)|..]; done. Qed.
Lemma carry_layers (previous bs : list (SurfaceBufferUpdate B)) :
  layer <$> (carry_update previous <$> bs) = layer <$> bs.
Proof. rewrite <- list_fmap_compose. apply list_fmap_ext. intros i u _. apply carry_layer. Qed.

Lemma NoDup_layer (bs : list (SurfaceBufferUpdate B)) u w :
  NoDup (layer <$> bs) -> u ∈ bs -> w ∈ bs -> layer u = layer w -> u = w.
Proof.
  intros Hnd Hu Hw Hl. induction bs as [|x bs IH]; [set_solver|]. cbn in Hnd.
  apply list.NoDup_cons in Hnd as [Hx Hnd].
  assert (Hno : forall y, y ∈ bs -> layer y <> layer x)
    by (intros y Hy He; apply Hx; rewrite <- He; by apply list_elem_of_fmap_2).
  apply elem_of_cons in Hu as [->|Hu], Hw as [->|Hw]; [done| | |by apply IH].
  - by destruct (Hno w Hw).
  - by destruct (Hno u Hu).
Qed.

(** Carrying the unobserved buffers of [previous] into [current] shows the same layers as
    showing both in turn. *)
Lemma carry_shown previous old u :
  NoDup (layer <$> previous) ->
  match change u with
  | Retained m => exists b, layers_after previous old !! layer u = Some (m, b)
  | _ => True
  end ->
  shown old (carry_update previous u) = shown (layers_after previous old) u.
Proof.
  intros Hnd Hv. unfold shown at 2, carry_update. destruct (change u) as [m|m b|] eqn:Hc;
    [|unfold shown; by rewrite Hc..].
  destruct Hv as [b Hb]. rewrite Hb. cbn. apply layers_after_Some in Hb as (w & Hw & Hs); [|done].
  destruct (replaced_at (layer u) previous) as [c|] eqn:Hr.
  - apply replaced_at_Some in Hr as (w' & m' & b' & Hw' & Hl & Hc' & ->). unfold shown. cbn.
    assert (w = w') as ->.
    { apply (NoDup_layer previous); [done..|]. unfold shown in Hs.
      destruct (change w); [destruct (old !! layer w); cbn in Hs|..]; congruence. }
    unfold shown in Hs. rewrite Hc' in Hs. congruence.
  - unfold shown in Hs. destruct (change w) as [m'|m' b'|] eqn:Hcw; [|exfalso|done].
    + destruct (old !! layer w) as [p|] eqn:Ho; [|done]. cbn in Hs. injection Hs as Hl <- <-.
      unfold shown. rewrite Hc, <- Hl, Ho. done.
    + injection Hs as Hl <- <-. by eapply replaced_at_None.
Qed.

Lemma carry_layers_after previous old current :
  NoDup (layer <$> previous) ->
  Forall (fun u => match change u with
                   | Retained m => exists b, layers_after previous old !! layer u = Some (m, b)
                   | _ => True
                   end) current ->
  layers_after (carry_update previous <$> current) old = layers_after current (layers_after previous old).
Proof.
  intros Hnd Hall. unfold layers_after at 1 2. f_equal.
  induction Hall as [|u bs Hu _ IH]; [done|]. cbn. rewrite carry_shown by done.
  destruct (shown _ u); by rewrite IH.
Qed.
End Contents.
Arguments SurfaceView S B : clear implicits.
Abbreviation Contents S B := (gmap ClientSurfaceId (SurfaceView S B)).

(** ** Conversion *)
Definition replaced_of {B} (bs : list (SurfaceBufferUpdate B)) : list (SurfaceLayerId * ClientBufferMetadata * B) :=
  omap (fun u => match change u with Replaced m b => Some (layer u, m, b) | _ => None end) bs.

Section WireLemmas.
Context {B C : Type} (f : SurfaceLayerId -> ClientBufferMetadata -> B -> outcome C).
Abbreviation converts p := (f p.1.1 p.1.2 p.2).

Lemma convert_update_Ret u :
  (forall p, p ∈ replaced_of [u] -> is_ret (converts p)) -> exists u', convert_update f u = Ret u'.
Proof.
  intros H. unfold convert_update. destruct u as [l [m|m b|]]; cbn; eauto.
  specialize (H (l, m, b)). cbn in H. destruct (f l m b); cbn; [eauto|exfalso; apply H; set_solver..].
Qed.

Lemma convert_updates_Ret bs :
  (forall p, p ∈ replaced_of bs -> is_ret (converts p)) -> exists bs', traverse (convert_update f) bs = Ret bs'.
Proof.
  induction bs as [|u bs IH]; intros H; cbn; [eauto|].
  change (u :: bs) with ([u] ++ bs) in H. unfold replaced_of in H. rewrite omap_app in H.
  destruct (convert_update_Ret u) as [u' ->]; [set_solver|]. cbn.
  destruct IH as [bs' ->]; [set_solver|]. cbn. eauto.
Qed.

Lemma convert_updates_replaced bs bs' :
  traverse (convert_update f) bs = Ret bs' ->
  Forall2 (fun p q => p.1 = q.1 /\ converts p = Ret q.2) (replaced_of bs) (replaced_of bs').
Proof.
  intros H%traverse_Ret_inv. induction H as [|u u' bs bs' Hu _ IH]; [constructor|].
  unfold convert_update in Hu. destruct u as [l [m|m b|]]; cbn in Hu.
  - by injection Hu as <-.
  - destruct (f l m b) as [c| |] eqn:Hf; cbn in Hu; [|done..]. injection Hu as <-. by constructor.
  - by injection Hu as <-.
Qed.

Lemma convert_updates_Fail bs err :
  traverse (convert_update f) bs = Fail err -> exists p, p ∈ replaced_of bs /\ converts p = Fail err.
Proof.
  induction bs as [|u bs IH]; [done|]. cbn.
  destruct u as [l [m|m b|]]; cbn.
  - destruct (traverse _ bs); cbn; [done| |done]. intros [= ->]. destruct IH as (p & Hp & Hf); [done|]. by exists p.
  - destruct (f l m b) as [c|e|] eqn:Hf; cbn; [|intros [= ->]; exists (l, m, b); split; [left|done]|done].
    destruct (traverse _ bs); cbn; [done| |done]. intros [= ->]. destruct IH as (p & Hp & Hp'); [done|].
    exists p. split; [by right|done].
  - destruct (traverse _ bs); cbn; [done| |done]. intros [= ->]. destruct IH as (p & Hp & Hf); [done|]. by exists p.
Qed.
End WireLemmas.

Lemma convert_updates_inverse {B C} (f : SurfaceLayerId -> ClientBufferMetadata -> B -> outcome C) g bs bs' :
  traverse (convert_update f) bs = Ret bs' ->
  (forall l m b c, (l, m, b) ∈ replaced_of bs -> f l m b = Ret c -> g l m c = Ret b) ->
  traverse (convert_update g) bs' = Ret bs.
Proof.
  intros H%traverse_Ret_inv. induction H as [|u u' bs bs' Hu _ IH]; intros Hg; [done|].
  assert (Hu' : convert_update g u' = Ret u).
  { unfold convert_update in *. destruct u as [l [m|m b|]]; cbn in Hu.
    - by injection Hu as <-.
    - destruct (f l m b) as [c| |] eqn:Hf; cbn in Hu; [|done..]. injection Hu as <-. cbn.
      by rewrite (Hg l m b c (list_elem_of_here _ _) Hf).
    - by injection Hu as <-. }
  cbn. rewrite Hu'. cbn. rewrite IH; [done|]. intros l m b c Hin. apply Hg.
  unfold replaced_of in *. change (u :: bs) with ([u] ++ bs). rewrite omap_app. set_solver.
Qed.

Lemma convert_commit_fields {B C} (f : SurfaceLayerId -> ClientBufferMetadata -> B -> outcome C) c c' :
  convert_commit f c = Ret c' ->
  exists bs, traverse (convert_update f) (buffers c) = Ret bs /\ c' = set_buffers bs c.
Proof. unfold convert_commit. intros H. inv_ret. eauto. Qed.

(** Converting an event for transport succeeds exactly when every
    replaced buffer exports, and otherwise fails with an export's error; the wire event
    carries the same surface and the exported buffers in order under the same layers and
    metadata. A receiver whose import inverts the export reads back the very event. *)
Theorem wire_roundtrip {W} (export : SurfaceLayerId -> ClientBufferLease -> outcome W)
    (import : W -> ClientBufferMetadata -> outcome ClientBufferLease) e :
  match try_from_client export e with
  | Ret w =>
      surface w = surface e /\
      Forall2 (fun p q => p.1 = q.1 /\ export p.1.1 p.2 = Ret q.2) (replaced_buffers e) (replaced_buffers w) /\
      ((forall l m b x, (l, m, b) ∈ replaced_buffers e -> export l b = Ret x -> import x m = Ret b) ->
       try_into_client import w = Ret e)
  | Fail err => exists p, p ∈ replaced_buffers e /\ export p.1.1 p.2 = Fail err
  | Panic => exists p, p ∈ replaced_buffers e /\ is_ret (export p.1.1 p.2) = false
  end.
Proof.
  destruct e as [s k]. unfold try_from_client, try_into_client, convert_event. cbn.
  destruct k as [r|c|k|k| |m]; cbn; try by split_and!.
  destruct (convert_commit _ c) as [c'|err|] eqn:Hc; cbn.
  - apply convert_commit_fields in Hc as (bs & Hbs & ->). split_and!; [done| |].
    + by apply convert_updates_replaced in Hbs.
    + intros Hg. unfold convert_commit. cbn.
      rewrite (convert_updates_inverse _ (fun _ m b => import b m) _ _ Hbs Hg). cbn. by destruct c.
  - unfold convert_commit in Hc. destruct (traverse _ (buffers c)) eqn:Ht; cbn in Hc; [done| |done].
    injection Hc as ->. by apply convert_updates_Fail in Ht.
  - destruct (decide (Exists (fun p => is_ret (export p.1.1 p.2) = false) (replaced_of (buffers c)))) as [He|Hno];
      [by apply list.Exists_exists in He|]. exfalso.
    destruct (convert_updates_Ret (fun l _ b => export l b) (buffers c)) as [bs Hbs].
    { intros p Hp. destruct (is_ret (export p.1.1 p.2)) eqn:Hr; [done|]. destruct Hno. apply list.Exists_exists. by exists p. }
    unfold convert_commit in Hc. by rewrite Hbs in Hc.
Qed.
