(* ===== verification/PendingEvents.v ===== *)
(** * Unconsumed surface events ([weld-client/src/pending_order.rs] and [pending.rs])

    Each consumer keeps the events it has not read yet. A commit replaces the newest
    unread commit of its surface unless a control, a change of mapping or scope, or a
    barrier of another surface lies between; labels replace labels under a similar rule.
    The equivalence theorem says that a consumer cannot tell. *)

From S2P Require Import Prelude OrdMap Ids Surface Commit.

(** ** Decisions ([pending_order.rs]) *)
Inductive Kind := KCommit (mapped : bool) | KMetadata | KControl.

(** [Kind::of] *)
Definition Kind_of {B} (k : ClientSurfaceEventKind B) : Kind :=
  match k with
  | Commit c => KCommit (mapped c)
  | Metadata _ => KMetadata
  | _ => KControl
  end.

Record Record_ := MkRecord {
  record_surface : ClientSurfaceId;
  record_kind : Kind;
  same_scope : bool;
  record_barrier : bool;
}.
Record Insertion := MkInsertion { replacement : option nat; insertion_barrier : bool }.
Definition Insertion_default : Insertion := MkInsertion None false.

(** The two scans of [plan], from the newest record. *)
Fixpoint plan_commit (surface : ClientSurfaceId) (mapped : bool) (newest_first : list (nat * Record_)) : Insertion :=
  match newest_first with
  | [] => MkInsertion None (negb mapped)
  | (index, record) :: older =>
      match record_kind record with
      | KMetadata => plan_commit surface mapped older
      | KCommit previous =>
          if bool_decide (record_surface record = surface) then
            let compatible := same_scope record && bool_decide (previous = mapped) in
            MkInsertion (if compatible then Some index else None) (negb compatible || record_barrier record)
          else if record_barrier record then MkInsertion None (negb mapped)
          else plan_commit surface mapped older
      | KControl => MkInsertion None (negb mapped)
      end
  end.

Definition is_metadata (k : Kind) : bool := match k with KMetadata => true | _ => false end.
Definition is_control (k : Kind) : bool := match k with KControl => true | _ => false end.

Fixpoint plan_metadata (surface : ClientSurfaceId) (newest_first : list (nat * Record_)) : Insertion :=
  match newest_first with
  | [] => Insertion_default
  | (index, record) :: older =>
      if same_scope record && bool_decide (record_surface record = surface) && is_metadata (record_kind record)
      then MkInsertion (Some index) false
      else if record_barrier record || is_control (record_kind record) then Insertion_default
      else plan_metadata surface older
  end.

(** [plan] *)
Definition plan (surface : ClientSurfaceId) (k : Kind) (records : list Record_) : Insertion :=
  let newest_first := rev (imap pair records) in
  match k with
  | KCommit mapped => plan_commit surface mapped newest_first
  | KMetadata => plan_metadata surface newest_first
  | KControl => Insertion_default
  end.

(** ** The queue ([pending.rs]) *)
Inductive PendingEventUpdate := Queued | CommitCoalesced | MetadataReplaced.

Section Queue.
Context {S B : Type} `{EqDecision S}.

Record PendingEvent := MkPendingEvent { record : S * ClientSurfaceEvent B; barrier : bool }.

(** [PendingClientEvents::plan] *)
Definition plan_record (scope : S) (p : PendingEvent) : Record_ :=
  MkRecord (surface (record p).2) (Kind_of (event_kind (record p).2))
    (bool_decide ((record p).1 = scope)) (barrier p).
Definition plan_event (scope : S) (e : ClientSurfaceEvent B) (q : list PendingEvent) : Insertion :=
  plan (surface e) (Kind_of (event_kind e)) (plan_record scope <$> q).

(** The commit [e] with what the commit [previous] leaves unobserved; [None] when one of
    them is not a commit. *)
Definition carry_event (previous e : ClientSurfaceEvent B) : option (ClientSurfaceEvent B) :=
  match event_kind previous, event_kind e with
  | Commit old, Commit current =>
      Some (MkClientSurfaceEvent (surface e) (Commit (carry_unobserved_content_from old current)))
  | _, _ => None
  end.

(** [PendingClientEvents::insert]: a replaced barrier keeps its place, any other replaced
    record is taken out and the new one goes to the back. *)
Definition insert_event (scope : S) (e : ClientSurfaceEvent B) (i : Insertion) (q : list PendingEvent) :
    list PendingEvent * PendingEventUpdate :=
  let append e q outcome := (q ++ [MkPendingEvent (scope, e) (insertion_barrier i)], outcome) in
  match replacement i with
  | None => append e q Queued
  | Some index =>
      match q !! index with
      | None => append e q Queued
      | Some previous =>
          match carry_event (record previous).2 e with
          | Some merged =>
              if barrier previous
              then (<[index := MkPendingEvent (scope, merged) (barrier previous)]> q, CommitCoalesced)
              else append merged (delete index q) CommitCoalesced
          | None => append e (delete index q) MetadataReplaced
          end
      end
  end.

(** [push], [try_push] and [pop_front]. *)
Definition push (scope : S) (e : ClientSurfaceEvent B) (q : list PendingEvent) :
    list PendingEvent * PendingEventUpdate :=
  insert_event scope e (plan_event scope e q) q.
Definition try_push (scope : S) (e : ClientSurfaceEvent B) (limit : nat) (q : list PendingEvent) :
    option (list PendingEvent * PendingEventUpdate) :=
  let i := plan_event scope e q in
  if bool_decide (replacement i = None) && bool_decide (limit <= length q)%nat
  then None
  else Some (insert_event scope e i q).
Definition pop_front (q : list PendingEvent) : option ((S * ClientSurfaceEvent B) * list PendingEvent) :=
  match q with [] => None | p :: q => Some (record p, q) end.
(** [iter] and [drain] *)
Definition records (q : list PendingEvent) : list (S * ClientSurfaceEvent B) := record <$> q.

(** ** What a consumer notices

    Besides the contents at the end, a consumer notices the controls, in order and each
    with the contents it finds, and of every surface the changes of mapping and scope
    between them. *)
Inductive entry :=
  | Controlled (scope : S) (e : ClientSurfaceEvent B) (σ : Contents S B)
  | Mapped (scope : S) (mapped : bool).

Definition notice (s : ClientSurfaceId) (σ : Contents S B) (r : S * ClientSurfaceEvent B) : list entry :=
  match event_kind r.2 with
  | Commit c =>
      if bool_decide (surface r.2 <> s) then []
      else match view_commit (view s σ) with
           | Some (sc, old) => if bool_decide (sc = r.1) && bool_decide (mapped old = mapped c)
                               then [] else [Mapped r.1 (mapped c)]
           | None => [Mapped r.1 (mapped c)]
           end
  | Metadata _ => []
  | _ => [Controlled r.1 r.2 σ]
  end.
Fixpoint noticed (s : ClientSurfaceId) (σ : Contents S B) (l : list (S * ClientSurfaceEvent B)) : list entry :=
  match l with
  | [] => []
  | r :: l => notice s σ r ++ noticed s (apply σ r) l
  end.

(** Two streams a consumer that starts from [σ] cannot tell apart. *)
Definition alike (σ : Contents S B) (l k : list (S * ClientSurfaceEvent B)) : Prop :=
  contents σ l = contents σ k /\ forall s, noticed s σ l = noticed s σ k.

Lemma contents_app (σ : Contents S B) l k : contents σ (l ++ k) = contents (contents σ l) k.
Proof. apply foldl_app. Qed.
Lemma noticed_app s σ l k : noticed s σ (l ++ k) = noticed s σ l ++ noticed s (contents σ l) k.
Proof. revert σ. induction l as [|r l IH]; intros σ; [done|]. cbn. by rewrite IH, app_assoc. Qed.
Lemma stream_valid_app (σ : Contents S B) l k :
  stream_valid σ (l ++ k) <-> stream_valid σ l /\ stream_valid (contents σ l) k.
Proof. revert σ. induction l as [|r l IH]; intros σ; cbn; [tauto|]. rewrite IH. tauto. Qed.

Lemma alike_refl σ l : alike σ l l.
Proof. done. Qed.
Lemma alike_trans σ l k j : alike σ l k -> alike σ k j -> alike σ l j.
Proof. intros [H1 H2] [H3 H4]. split; [congruence|]. intros s. by rewrite H2, H4. Qed.
Lemma alike_sym σ l k : alike σ l k -> alike σ k l.
Proof. intros [H1 H2]. by split. Qed.
Lemma alike_app σ p l k t : alike (contents σ p) l k -> alike σ (p ++ l ++ t) (p ++ k ++ t).
Proof.
  intros [Hc Hn]. split; [by rewrite !contents_app, Hc|]. intros s.
  by rewrite !noticed_app, Hn, Hc.
Qed.
End Queue.
Arguments PendingEvent S B : clear implicits.
Abbreviation PendingClientEvents S B := (list (PendingEvent S B)).

(** ** Exchanging events *)
Section Exchange.
Context {S B : Type} `{EqDecision S}.
Implicit Types (σ : Contents S B) (r : S * ClientSurfaceEvent B).
#[local] Arguments update : simpl never.
#[local] Arguments view : simpl never.

Definition controls r : bool := is_control (Kind_of (event_kind r.2)).
Definition commits_to (s : ClientSurfaceId) r : bool :=
  match event_kind r.2 with Commit _ => bool_decide (surface r.2 = s) | _ => false end.
Definition labels_of (s : ClientSurfaceId) r : bool :=
  match event_kind r.2 with Metadata _ => bool_decide (surface r.2 = s) | _ => false end.

Lemma view_update s t (f : SurfaceView S B -> SurfaceView S B) σ :
  view s (update t f σ) = if bool_decide (s = t) then f (view t σ) else view s σ.
Proof.
  unfold view, update. case_bool_decide as H; [subst; by rewrite lookup_insert_eq|].
  by rewrite lookup_insert_ne.
Qed.
Lemma update_update s (f g : SurfaceView S B -> SurfaceView S B) σ :
  update s f (update s g σ) = update s (fun v => f (g v)) σ.
Proof. unfold update, view. rewrite lookup_insert_eq. cbn. apply insert_insert_eq. Qed.
Lemma update_comm s t (f g : SurfaceView S B -> SurfaceView S B) σ :
  s <> t -> update s f (update t g σ) = update t g (update s f σ).
Proof.
  intros H. unfold update, view. rewrite !lookup_insert_ne by congruence.
  by apply insert_insert_ne.
Qed.

Lemma apply_quiet σ r :
  controls r = false -> apply σ r = update (surface r.2) (update_view r.1 (event_kind r.2)) σ.
Proof. unfold controls, apply. by destruct (event_kind r.2). Qed.

(** A commit does not depend on labels or on other surfaces. *)
Lemma notice_frame s σ r x :
  controls r = false -> controls x = false -> commits_to (surface r.2) x = false ->
  notice s (apply σ x) r = notice s σ r.
Proof.
  intros Hr Hx Hc. rewrite apply_quiet by done. unfold notice, controls in *.
  destruct (event_kind r.2) as [| c | | | |]; try done. case_bool_decide as Hs; [done|].
  subst s. rewrite view_update. case_bool_decide as Ht; [|done].
  unfold commits_to in Hc. destruct (event_kind x.2); try done.
  - by rewrite bool_decide_true in Hc.
  - by rewrite Ht.
Qed.

Lemma notice_other s r σ : controls r = false -> commits_to s r = false -> notice s σ r = [].
Proof.
  unfold notice, controls, commits_to. destruct (event_kind r.2); try done. intros _ H.
  apply bool_decide_eq_false in H. by rewrite bool_decide_true.
Qed.

Lemma exchange σ r x :
  controls r = false -> controls x = false ->
  commits_to (surface r.2) x && commits_to (surface r.2) r = false ->
  labels_of (surface r.2) x && labels_of (surface r.2) r = false ->
  alike σ [r; x] [x; r].
Proof.
  intros Hr Hx Hc Hl. split.
  - cbn. rewrite !apply_quiet by done.
    destruct (decide (surface r.2 = surface x.2)) as [Hs|Hs]; [|by apply update_comm].
    rewrite <- Hs, !update_update. unfold update. f_equal.
    unfold controls, commits_to, labels_of in *.
    destruct (event_kind r.2), (event_kind x.2); cbn in *; try done;
      rewrite !bool_decide_true in * by congruence; done.
  - intros s. cbn. rewrite !app_nil_r.
    destruct (commits_to s r) eqn:Hcr; destruct (commits_to s x) eqn:Hcx.
    + exfalso. unfold commits_to in *. destruct (event_kind r.2), (event_kind x.2); cbn in *; try done.
      apply bool_decide_eq_true in Hcr, Hcx. subst. rewrite bool_decide_true in Hc by congruence.
      by rewrite bool_decide_true in Hc.
    + rewrite (notice_other s x) by done. rewrite (notice_other s x) by done. rewrite app_nil_r. cbn.
      symmetry. apply notice_frame; [done..|].
      unfold commits_to in Hcr |- *. destruct (event_kind r.2); try done. apply bool_decide_eq_true in Hcr.
      subst s. exact Hcx.
    + rewrite (notice_other s r) by done. rewrite (notice_other s r) by done. rewrite app_nil_r. cbn.
      apply notice_frame; [done..|].
      unfold commits_to in Hcx |- *. destruct (event_kind x.2); try done. apply bool_decide_eq_true in Hcx.
      subst s. exact Hcr.
    + by rewrite !notice_other.
Qed.

Lemma alike_cons σ r l k : alike (apply σ r) l k -> alike σ (r :: l) (r :: k).
Proof. intros H. generalize (alike_app σ [r] l k [] H). by rewrite !app_nil_r. Qed.
Lemma alike_head σ l k t : alike σ l k -> alike σ (l ++ t) (k ++ t).
Proof. intros H. apply (alike_app σ [] l k t H). Qed.

(** A commit of [s] passes events that are no control and no commit of [s]. *)
Lemma commit_passes σ r l :
  commits_to (surface r.2) r = true ->
  Forall (fun x => controls x = false /\ commits_to (surface r.2) x = false) l ->
  alike σ (r :: l) (l ++ [r]).
Proof.
  intros Hr Hl. revert σ. induction Hl as [|x l [Hx Hc] _ IH]; intros σ; [by apply alike_refl|].
  assert (Hq : controls r = false) by (unfold commits_to, controls in *; by destruct (event_kind r.2)).
  eapply alike_trans; [apply (alike_head σ [r; x] [x; r] l)|].
  - apply exchange; [done|done|by rewrite Hc|].
    unfold commits_to, labels_of in *. destruct (event_kind r.2); try done. by rewrite andb_false_r.
  - cbn. apply alike_cons, IH.
Qed.

(** Labels are lost on a consumer that reads newer ones before the next control. *)
Lemma labels_replaced σ sc sc' s m m' l :
  Forall (fun x => controls x = false) l ->
  alike σ ((sc, MkClientSurfaceEvent s (Metadata m)) :: l ++ [(sc', MkClientSurfaceEvent s (Metadata m'))])
          (l ++ [(sc', MkClientSurfaceEvent s (Metadata m'))]).
Proof.
  set (r := (sc, MkClientSurfaceEvent s (Metadata m))).
  set (n := (sc', MkClientSurfaceEvent s (Metadata m'))).
  intros Hl. revert σ. induction Hl as [|x l Hx _ IH]; intros σ.
  - split; [|done]. cbn. by rewrite update_update.
  - destruct (labels_of s x) eqn:Hlx.
    + destruct x as [sx [t k]]. unfold labels_of in Hlx. cbn in Hlx. destruct k; try done.
      apply bool_decide_eq_true in Hlx. subst t.
      apply (alike_head σ [r; (sx, MkClientSurfaceEvent s (Metadata metadata))]
        [(sx, MkClientSurfaceEvent s (Metadata metadata))] (l ++ [n])). split; [|done]. cbn. by rewrite update_update.
    + eapply alike_trans.
      * apply (alike_head σ [r; x] [x; r] (l ++ [n])). apply exchange; [done|done| |].
        { by rewrite andb_false_r. }
        { cbn. by rewrite Hlx. }
      * cbn. apply alike_cons, IH.
Qed.

(** The merged commit is what the two commits do in turn. *)
Lemma merge_alike σ sc s old current :
  mapped old = mapped current -> NoDup (layer <$> buffers old) ->
  commit_valid (view s (apply σ (sc, MkClientSurfaceEvent s (Commit old)))) current ->
  alike σ [(sc, MkClientSurfaceEvent s (Commit old)); (sc, MkClientSurfaceEvent s (Commit current))]
          [(sc, MkClientSurfaceEvent s (Commit (carry_unobserved_content_from old current)))].
Proof.
  intros Hm Hnd [_ Hv]. split.
  - cbn. rewrite update_update. unfold update. f_equal. unfold update_view. cbn. f_equal.
    symmetry. apply carry_layers_after; [done|]. cbn in Hv. rewrite view_update, bool_decide_true in Hv by done.
    exact Hv.
  - intros t. cbn. rewrite !app_nil_r. unfold notice. cbn. case_bool_decide as Ht; [done|].
    subst t. rewrite view_update, (bool_decide_true (s = s)) by done. cbn.
    rewrite (bool_decide_true (sc = sc)), (bool_decide_true (mapped old = mapped current)) by done. cbn.
    rewrite app_nil_r. by rewrite Hm.
Qed.
End Exchange.

(** ** Decisions about the queue *)
Lemma newest_first_snoc {A} (l : list A) x :
  rev (imap pair (l ++ [x])) = (length l, x) :: rev (imap pair l).
Proof. rewrite imap_app, rev_app_distr. cbn. by rewrite Nat.add_0_r. Qed.

Lemma plan_metadata_barrier s l : insertion_barrier (plan s KMetadata l) = false.
Proof.
  unfold plan. generalize (rev (imap pair l)). intros k. induction k as [|[i r] k IH]; [done|]. cbn.
  destruct (_ && _); [done|]. by destruct (_ || _).
Qed.

Section Decisions.
Context {S B : Type} `{EqDecision S}.
#[local] Arguments records : simpl never.
Implicit Types (q a b : PendingClientEvents S B) (p : PendingEvent S B) (σ : Contents S B) (sc : S).
Implicit Types (e : ClientSurfaceEvent B) (old c : ClientSurfaceState B).

Lemma plan_commit_found scope s m q i fl :
  plan_commit s m (rev (imap pair (plan_record scope <$> q))) = MkInsertion (Some i) fl ->
  exists a p b old, q = a ++ p :: b /\ i = length a /\
    record p = (scope, MkClientSurfaceEvent s (Commit old)) /\ mapped old = m /\ fl = barrier p /\
    Forall (fun x => controls (record x) = false /\ commits_to s (record x) = false) b.
Proof.
  induction q as [|p q IH] using rev_ind; [done|].
  rewrite fmap_app. change (plan_record scope <$> [p]) with [plan_record scope p].
  rewrite newest_first_snoc, length_fmap. cbn.
  destruct p as [[sc [t k]] fp] eqn:Hp. cbn. intros H.
  assert (Hquiet : controls (sc, MkClientSurfaceEvent t k) = false ->
                   commits_to s (sc, MkClientSurfaceEvent t k) = false ->
                   plan_commit s m (rev (imap pair (plan_record scope <$> q))) = MkInsertion (Some i) fl ->
                   exists a p b old, q ++ [MkPendingEvent (sc, MkClientSurfaceEvent t k) fp] = a ++ p :: b /\
                     i = length a /\ record p = (scope, MkClientSurfaceEvent s (Commit old)) /\
                     mapped old = m /\ fl = barrier p /\
                     Forall (fun x => controls (record x) = false /\ commits_to s (record x) = false) b).
  { intros H1 H2 (a & p' & b & old & -> & -> & Hr & Hm & Hf & Hb)%IH.
    exists a, p', (b ++ [p]), old. split_and!; try done; [by rewrite <- app_assoc, <- Hp|].
    apply Forall_app. split; [done|]. subst p. by constructor. }
  destruct k as [|c| | | |]; cbn in H; try done; [|by apply Hquiet].
  case_bool_decide as Ht.
  - destruct (bool_decide (sc = scope)) eqn:Hsc, (bool_decide (mapped c = m)) eqn:Hm; cbn in H; try done.
    apply bool_decide_eq_true in Hsc, Hm. injection H as <- <-. subst.
    by exists q, (MkPendingEvent (scope, MkClientSurfaceEvent s (Commit c)) fp), [], c.
  - destruct fp; [done|]. apply Hquiet; [done| |done]. cbn. by rewrite bool_decide_false.
Qed.

Lemma plan_metadata_found scope s q i fl :
  plan_metadata s (rev (imap pair (plan_record scope <$> q))) = MkInsertion (Some i) fl ->
  exists a p b m, q = a ++ p :: b /\ i = length a /\
    record p = (scope, MkClientSurfaceEvent s (Metadata m)) /\ fl = false /\
    Forall (fun x => controls (record x) = false) b.
Proof.
  induction q as [|p q IH] using rev_ind; [done|].
  rewrite fmap_app. change (plan_record scope <$> [p]) with [plan_record scope p].
  rewrite newest_first_snoc, length_fmap. cbn.
  destruct p as [[sc [t k]] fp] eqn:Hp. cbn. intros H.
  destruct (bool_decide (sc = scope) && bool_decide (t = s) && is_metadata (Kind_of k)) eqn:Hf.
  - injection H as <- <-. apply andb_prop in Hf as [[Hsc%bool_decide_eq_true Ht%bool_decide_eq_true]%andb_prop Hk].
    destruct k; try done. subst.
    by eexists q, (MkPendingEvent (scope, MkClientSurfaceEvent s (Metadata metadata)) fp), [], _.
  - destruct (fp || is_control (Kind_of k)) eqn:Hc; [done|]. apply orb_false_elim in Hc as [_ Hc].
    apply IH in H as (a & p' & b & m & -> & -> & Hr & Hfl & Hb).
    exists a, p', (b ++ [p]), m. split_and!; try done; [by rewrite <- app_assoc, <- Hp|].
    apply Forall_app. split; [done|]. subst p. by constructor.
Qed.

Lemma records_app q q' : records (q ++ q') = records q ++ records q'.
Proof. apply fmap_app. Qed.

(** A commit and the newer one it is merged with, with quiet events between them. *)
Lemma merge_across σ sc s old c l :
  mapped old = mapped c ->
  Forall (fun r => controls r = false /\ commits_to s r = false) l ->
  NoDup (layer <$> buffers old) ->
  event_valid (contents σ ((sc, MkClientSurfaceEvent s (Commit old)) :: l)) (MkClientSurfaceEvent s (Commit c)) ->
  alike σ (l ++ [(sc, MkClientSurfaceEvent s (Commit (carry_unobserved_content_from old c)))])
          ((sc, MkClientSurfaceEvent s (Commit old)) :: l ++ [(sc, MkClientSurfaceEvent s (Commit c))]).
Proof.
  intros Hm Hl Hnd Hv.
  set (x := (sc, MkClientSurfaceEvent s (Commit old))) in *.
  set (y := (sc, MkClientSurfaceEvent s (Commit c))) in *.
  assert (Hx : alike σ (x :: l) (l ++ [x]))
    by (apply commit_passes; [cbn; by rewrite bool_decide_true|done]).
  assert (Hxy : alike (contents σ l) [x; y] [(sc, MkClientSurfaceEvent s (Commit (carry_unobserved_content_from old c)))]).
  { apply merge_alike; [done..|]. destruct Hx as [Hx _]. rewrite contents_app in Hx.
    replace (apply (contents σ l) _) with (contents σ (x :: l)) by exact Hx. exact Hv. }
  apply alike_sym. eapply alike_trans; [apply (alike_head σ _ _ [y] Hx)|].
  rewrite <- app_assoc. generalize (alike_app σ l _ _ [] Hxy). by rewrite !app_nil_r.
Qed.

(** The commits that wait name no layer twice. *)
Definition layers_distinct (p : PendingEvent S B) : Prop :=
  match event_kind (record p).2 with Commit c => NoDup (layer <$> buffers c) | _ => True end.

(** Pushing an event has the effect of appending it. *)
Lemma push_alike σ sc e q :
  Forall layers_distinct q -> event_valid (contents σ (records q)) e ->
  alike σ (records (push sc e q).1) (records q ++ [(sc, e)]) /\ Forall layers_distinct (push sc e q).1.
Proof.
  intros Hq Hv. unfold push, insert_event, plan_event.
  assert (Hnew : forall fl e', event_valid (contents σ (records q)) e ->
    (forall c, event_kind e' = Commit c -> exists c', event_kind e = Commit c' /\
       layer <$> buffers c = layer <$> buffers c') -> layers_distinct (MkPendingEvent (sc, e') fl)).
  { unfold layers_distinct, event_valid. cbn. intros fl e' Hve He'. destruct (event_kind e') as [|c| | | |]; try done.
    destruct (He' c eq_refl) as (c' & Hc' & ->). rewrite Hc' in Hve. apply Hve. }
  destruct (plan _ _ _) as [[i|] fl] eqn:Hplan; cbn.
  2: { rewrite records_app. split; [done|]. apply Forall_app. split; [done|]. constructor; [|done].
       apply Hnew; [done|]. intros c Hc. by exists c. }
  unfold plan in Hplan. destruct e as [s k]. cbn in *. destruct k as [|c| | | |m]; try done; cbn in Hplan.
  - apply plan_commit_found in Hplan as (a & p & b & old & -> & -> & Hr & Hm & Hfl & Hb).
    rewrite list_lookup_middle by done. destruct p as [r fp]. cbn in *. subst r fl. cbn.
    apply Forall_app in Hq as [Hqa Hqb]. apply Forall_cons_1 in Hqb as [Hqo Hqb].
    rewrite records_app, contents_app in Hv. rewrite records_app, <- app_assoc.
    assert (Hb' : Forall (fun r => controls r = false /\ commits_to s r = false) (record <$> b))
      by by apply list.Forall_fmap.
    assert (Hgo := merge_across _ sc s old c (record <$> b) Hm Hb' Hqo Hv).
    assert (Hz : alike (contents σ (records a))
      ((sc, MkClientSurfaceEvent s (Commit (carry_unobserved_content_from old c))) :: (record <$> b))
      ((record <$> b) ++ [(sc, MkClientSurfaceEvent s (Commit (carry_unobserved_content_from old c)))]))
      by (apply commit_passes; [cbn; by rewrite bool_decide_true|done]).
    assert (Hc : forall fl, layers_distinct
      (MkPendingEvent (sc, MkClientSurfaceEvent s (Commit (carry_unobserved_content_from old c))) fl)).
    { intros fl. unfold layers_distinct. cbn. rewrite carry_layers. apply Hv. }
    destruct fp; cbn.
    + rewrite insert_app_r_alt by lia. rewrite Nat.sub_diag, records_app. split.
      * generalize (alike_app σ (records a) _ _ [] (alike_trans _ _ _ _ Hz Hgo)). by rewrite !app_nil_r.
      * apply Forall_app. split; [done|]. cbn. by constructor.
    + rewrite delete_middle, !records_app, <- app_assoc. split.
      * generalize (alike_app σ (records a) _ _ [] Hgo). by rewrite !app_nil_r.
      * apply Forall_app. split; [by apply Forall_app|]. by constructor.
  - apply plan_metadata_found in Hplan as (a & p & b & m' & -> & -> & Hr & Hfl & Hb).
    rewrite list_lookup_middle by done. destruct p as [r fp]. cbn in *. subst r fl. cbn.
    rewrite delete_middle, !records_app. rewrite <- !app_assoc.
    assert (Hb' : Forall (fun r => controls r = false) (record <$> b)) by by apply list.Forall_fmap.
    split.
    + generalize (alike_app σ (records a) _ _ []
        (alike_sym _ _ _ (labels_replaced (contents σ (records a)) sc sc s m' m (record <$> b) Hb'))).
      rewrite !app_nil_r. done.
    + apply Forall_app in Hq as [Hqa Hqb]. apply Forall_cons_1 in Hqb as [_ Hqb].
      apply Forall_app. split; [done|]. apply Forall_app. split; [done|]. by constructor.
Qed.
End Decisions.

(** ** A consumer's life

    Producers push, with or without a limit, and the consumer takes from the front. *)
Section History.
Context {S B : Type} `{EqDecision S}.

Record history := MkHistory {
  queue : PendingClientEvents S B;
  pushed : list (S * ClientSurfaceEvent B);
  taken : list (S * ClientSurfaceEvent B);
}.
Inductive history_step : history -> history -> Prop :=
  | step_push sc e q l t :
      history_step (MkHistory q l t) (MkHistory (push sc e q).1 (l ++ [(sc, e)]) t)
  | step_try_push sc e limit q q' u l t :
      try_push sc e limit q = Some (q', u) ->
      history_step (MkHistory q l t) (MkHistory q' (l ++ [(sc, e)]) t)
  | step_refused sc e limit q l t :
      try_push sc e limit q = None -> history_step (MkHistory q l t) (MkHistory q l t)
  | step_pop r q q' l t :
      pop_front q = Some (r, q') -> history_step (MkHistory q l t) (MkHistory q' l (t ++ [r])).
Definition history_start : history := MkHistory [] [] [].

Lemma try_push_Some sc e limit (q q' : PendingClientEvents S B) u :
  try_push sc e limit q = Some (q', u) -> q' = (push sc e q).1.
Proof.
  unfold try_push, push. destruct (_ && _); [done|]. intros [= H]. by rewrite H.
Qed.

Definition history_ok (σ : Contents S B) (h : history) : Prop :=
  stream_valid σ (pushed h) ->
  alike σ (taken h ++ records (queue h)) (pushed h) /\ Forall layers_distinct (queue h).

Lemma history_push_ok σ sc e q l t :
  history_ok σ (MkHistory q l t) -> history_ok σ (MkHistory (push sc e q).1 (l ++ [(sc, e)]) t).
Proof.
  unfold history_ok. cbn. intros Hok [Hl [He _]]%stream_valid_app.
  destruct (Hok Hl) as [Ha Hd]. cbn in He. rewrite <- (proj1 Ha), contents_app in He.
  destruct (push_alike (contents σ t) sc e q Hd He) as [Hp Hd']. split; [|done].
  eapply alike_trans; [|apply (alike_head _ _ _ [(sc, e)] Ha)]. rewrite <- app_assoc.
  generalize (alike_app σ t _ _ [] Hp). by rewrite !app_nil_r.
Qed.

Lemma history_step_ok σ h h' : history_step h h' -> history_ok σ h -> history_ok σ h'.
Proof.
  intros [sc e q l t|sc e limit q q' u l t Hp|sc e limit q l t _|r q q' l t Hp] Hok.
  - by apply history_push_ok.
  - apply try_push_Some in Hp as ->. by apply history_push_ok.
  - done.
  - destruct q as [|p q]; [done|]. injection Hp as <- <-. intros Hl. destruct (Hok Hl) as [Ha Hd]. cbn in *.
    apply Forall_cons_1 in Hd as [_ Hd]. split; [|done]. rewrite <- app_assoc. exact Ha.
Qed.

Lemma history_steps_ok σ h h' : rtc history_step h h' -> history_ok σ h -> history_ok σ h'.
Proof. induction 1; eauto using history_step_ok. Qed.
End History.
Arguments history S B : clear implicits.

(** C13 (pending-equivalence). A consumer of the queue cannot tell that events were
    coalesced: whatever was pushed and taken, the events it took followed by those that
    wait lead from any contents to what the whole stream leads to, with the same controls in
    the same order, each on the same contents, and for every surface the same changes of
    mapping and scope between them. *)
Theorem pending_indistinguishable (S B : Type) (dec : EqDecision S) (σ : Contents S B) (h : history S B) :
  rtc history_step history_start h -> stream_valid σ (pushed h) ->
  alike σ (taken h ++ records (queue h)) (pushed h).
Proof.
  intros Hrun Hv. refine (proj1 (history_steps_ok σ _ _ Hrun _ Hv)).
  intros _. split; [apply alike_refl|constructor].
Qed.

(** ** Concrete inputs *)
Definition sample_surface (n : Z) : ClientSurfaceId := ClientSurfaceId_for_test n.
Definition sample_metadata : ClientBufferMetadata := MkClientBufferMetadata (MkExtent 1 1) true.
Definition sample_commit (n rev : Z) (m : bool) (bs : list (SurfaceBufferUpdate Z)) :
    unit * ClientSurfaceEvent Z :=
  (tt, MkClientSurfaceEvent (sample_surface n)
         (Commit (MkClientSurfaceState rev Preserved m None None [] [] bs))).
Definition push_all (l : list (unit * ClientSurfaceEvent Z)) : PendingClientEvents unit Z :=
  foldl (fun q r => (push r.1 r.2 q).1) [] l.

(** The order of the source's test on barriers across surfaces. *)
Example barriers_sample :
  (fun r => match event_kind r.2 with Commit c => revision c | _ => 0 end) <$>
    records (push_all [sample_commit 1 1 true []; sample_commit 1 2 false []; sample_commit 2 1 true [];
                       sample_commit 1 3 false []; sample_commit 1 4 true []; sample_commit 2 2 true [];
                       sample_commit 1 5 true []]) = [1; 3; 1; 5; 2].
Proof. vm_compute. reflexivity. Qed.

Definition sample_stream : list (unit * ClientSurfaceEvent Z) :=
  [sample_commit 1 1 true [MkSurfaceBufferUpdate (MkSurfaceLayerId 1) (Replaced sample_metadata 7)];
   sample_commit 2 1 true [];
   sample_commit 1 2 true [MkSurfaceBufferUpdate (MkSurfaceLayerId 1) (Retained sample_metadata)]].

Lemma push_all_reachable l :
  rtc history_step history_start (MkHistory (push_all l) l ([] : list (unit * ClientSurfaceEvent Z))).
Proof.
  induction l as [|[sc e] l IH] using rev_ind; [apply rtc_refl|].
  eapply rtc_r; [exact IH|]. unfold push_all. rewrite foldl_app. cbn. apply step_push.
Qed.

Lemma pending_indistinguishable_witness :
  length (push_all sample_stream) = 2%nat /\
  alike ∅ (records (push_all sample_stream)) sample_stream.
Proof.
  split; [vm_compute; reflexivity|].
  apply (pending_indistinguishable unit Z _ ∅ (MkHistory (push_all sample_stream) sample_stream [])).
  - apply push_all_reachable.
  - cbn. split_and!; try done; repeat constructor; try set_solver.
    exists 7. vm_compute. reflexivity.
Defined.
