(* ===== verification/Mailbox.v ===== *)
(** * Frame handoff ([weld-client/src/mailbox.rs])

    A mailbox holds at most two snapshots: the one to show next and, with smoothing, the
    one after it. Every snapshot pushed is shown once or given back once. *)

From S2P Require Import Prelude OrdMap.

(** ** Counts

    Each counter grows by at most the number of snapshots pushed (the theorem below), so
    its [u64] does not overflow; sums of the counts of several mailboxes saturate. *)
Record PresentationQueueStats := MkStats {
  submitted : Z; selected : Z; superseded : Z; stale : Z; invalidated : Z;
}.
#[export] Instance PresentationQueueStats_eq_dec : EqDecision PresentationQueueStats.
Proof. solve_decision. Defined.
Definition PresentationQueueStats_default : PresentationQueueStats := MkStats 0 0 0 0 0.
(** [AddAssign] *)
Definition add_assign (a b : PresentationQueueStats) : PresentationQueueStats :=
  MkStats (sat_add (submitted a) (submitted b)) (sat_add (selected a) (selected b))
    (sat_add (superseded a) (superseded b)) (sat_add (stale a) (stale b))
    (sat_add (invalidated a) (invalidated b)).

Definition count_submitted (s : PresentationQueueStats) : PresentationQueueStats :=
  MkStats (submitted s + 1) (selected s) (superseded s) (stale s) (invalidated s).
Definition count_selected (n : Z) (s : PresentationQueueStats) : PresentationQueueStats :=
  MkStats (submitted s) (selected s + n) (superseded s) (stale s) (invalidated s).
Definition count_superseded (n : Z) (s : PresentationQueueStats) : PresentationQueueStats :=
  MkStats (submitted s) (selected s) (superseded s + n) (stale s) (invalidated s).
Definition count_stale (s : PresentationQueueStats) : PresentationQueueStats :=
  MkStats (submitted s) (selected s) (superseded s) (stale s + 1) (invalidated s).
Definition count_invalidated (n : Z) (s : PresentationQueueStats) : PresentationQueueStats :=
  MkStats (submitted s) (selected s) (superseded s) (stale s) (invalidated s + n).

(** [u64::from(option.is_some())] *)
Definition present {A} (o : option A) : Z := if bool_decide (is_Some o) then 1 else 0.

Section Mailbox.
Context {T : Type}.

Record PresentationMailbox := MkMailbox {
  first : option (instant * T);
  second : option (instant * T);
  maximum_age : option duration;
  stats : PresentationQueueStats;
}.
Definition PresentationMailbox_default : PresentationMailbox :=
  MkMailbox None None None PresentationQueueStats_default.

(** [Duration::saturating_mul] and [age_limit] *)
Definition age_limit (interval : duration) : duration :=
  Z.min (Z.min duration_max (interval * 2)) (from_millis 34).
(** [smoothing] and [enable_smoothing] *)
Definition smoothing (interval : duration) : PresentationMailbox :=
  MkMailbox None None (Some (age_limit interval)) PresentationQueueStats_default.
Definition enable_smoothing (interval : duration) (m : PresentationMailbox) : PresentationMailbox :=
  MkMailbox (first m) (second m) (Some (age_limit interval)) (stats m).
(** [set_interval] *)
Definition set_interval (interval : duration) (m : PresentationMailbox) : PresentationMailbox :=
  match maximum_age m with
  | Some _ => enable_smoothing interval m
  | None => m
  end.

Definition is_empty (m : PresentationMailbox) : bool := negb (bool_decide (is_Some (first m))).
(** [newest] *)
Definition newest (m : PresentationMailbox) : option T :=
  match second m with Some p => Some p.2 | None => snd <$> first m end.

(** [newest_mut], by what the caller does to the snapshot. *)
Definition newest_mut (f : T -> T) (m : PresentationMailbox) : PresentationMailbox :=
  match second m with
  | Some (t, x) => MkMailbox (first m) (Some (t, f x)) (maximum_age m) (stats m)
  | None => MkMailbox (prod_map id f <$> first m) None (maximum_age m) (stats m)
  end.
Lemma newest_newest_mut f m : newest (newest_mut f m) = f <$> newest m.
Proof. unfold newest, newest_mut. by destruct m as [[[? ?]|] [[? ?]|] ? ?]. Qed.
(** [push]: what the mailbox gives back is superseded. *)
Definition push (item : T) (now : instant) (m : PresentationMailbox) : PresentationMailbox * option T :=
  let s := count_submitted (stats m) in
  if bool_decide (first m = None) || bool_decide (maximum_age m = None) then
    (MkMailbox (Some (now, item)) (second m) (maximum_age m) (count_superseded (present (first m)) s),
     snd <$> first m)
  else
    match second m with
    | None => (MkMailbox (first m) (Some (now, item)) (maximum_age m) s, None)
    | Some p => (MkMailbox (Some p) (Some (now, item)) (maximum_age m) (count_superseded 1 s), snd <$> first m)
    end.

(** [keep_latest] *)
Definition keep_latest (m : PresentationMailbox) : PresentationMailbox * option T :=
  match second m with
  | None => (m, None)
  | Some newest =>
      (MkMailbox (Some newest) None (maximum_age m) (count_invalidated 1 (stats m)), snd <$> first m)
  end.

(** [drain], [clear] and [reset] *)
Definition held (m : PresentationMailbox) : list T :=
  snd <$> option_list (first m) ++ option_list (second m).
Definition drain (m : PresentationMailbox) : PresentationMailbox * list T :=
  (MkMailbox None None (maximum_age m) (count_invalidated (present (first m) + present (second m)) (stats m)),
   held m).
Definition clear (m : PresentationMailbox) : PresentationMailbox := (drain m).1.
Definition reset (item : T) (now : instant) (m : PresentationMailbox) : PresentationMailbox :=
  (push item now (clear m)).1.

(** [pop]: the selected snapshot, its age and a stale predecessor. *)
Definition pop (now : instant) (m : PresentationMailbox) :
    PresentationMailbox * (option T * duration * option T) :=
  let drop := bool_decide (is_Some (second m))
    && is_some_and (first m) (fun p => is_some_and (maximum_age m) (fun limit => limit <? since now p.1)) in
  let '(f, s, counts, dropped) :=
    if drop then (second m, None, count_stale (stats m), snd <$> first m)
    else (first m, second m, stats m, None) in
  (MkMailbox s None (maximum_age m) (count_selected (present f) counts),
   match f with
   | Some p => (Some p.2, since now p.1, dropped)
   | None => (None, 0, dropped)
   end).
(** [take] *)
Definition take (now : instant) (m : PresentationMailbox) : PresentationMailbox * (option T * duration * Z) :=
  let '(m, (item, age, discarded)) := pop now m in (m, (item, age, present discarded)).

(** ** A mailbox's life *)
Inductive operation :=
  | Push (item : T) (now : instant)
  | KeepLatest
  | Drain
  | Pop (now : instant)
  | Smooth (interval : duration)
  | SetInterval (interval : duration).

(** The snapshots pushed, shown and given back so far, in order. *)
Record life := MkLife {
  mailbox : PresentationMailbox;
  was_pushed : list T;
  was_shown : list T;
  given_back : list T;
}.
Definition step (l : life) (o : operation) : life :=
  let m := mailbox l in
  match o with
  | Push item now =>
      let r := push item now m in
      MkLife r.1 (was_pushed l ++ [item]) (was_shown l) (given_back l ++ option_list r.2)
  | KeepLatest =>
      let r := keep_latest m in
      MkLife r.1 (was_pushed l) (was_shown l) (given_back l ++ option_list r.2)
  | Drain =>
      let r := drain m in MkLife r.1 (was_pushed l) (was_shown l) (given_back l ++ r.2)
  | Pop now =>
      let r := pop now m in
      MkLife r.1 (was_pushed l) (was_shown l ++ option_list r.2.1.1) (given_back l ++ option_list r.2.2)
  | Smooth interval => MkLife (enable_smoothing interval m) (was_pushed l) (was_shown l) (given_back l)
  | SetInterval interval => MkLife (set_interval interval m) (was_pushed l) (was_shown l) (given_back l)
  end.
Definition run (l : life) (os : list operation) : life := foldl step l os.

Definition mailbox_shape (m : PresentationMailbox) : Prop :=
  is_Some (second m) -> is_Some (first m) /\ is_Some (maximum_age m).

Record life_ok (l : life) : Prop := {
  ok_shape : mailbox_shape (mailbox l);
  ok_order : was_shown l ++ held (mailbox l) `sublist_of` was_pushed l;
  ok_all : was_pushed l ≡ₚ was_shown l ++ given_back l ++ held (mailbox l);
  ok_submitted : submitted (stats (mailbox l)) = Z.of_nat (length (was_pushed l));
  ok_selected : selected (stats (mailbox l)) = Z.of_nat (length (was_shown l));
  ok_returned : superseded (stats (mailbox l)) + stale (stats (mailbox l)) + invalidated (stats (mailbox l)) =
    Z.of_nat (length (given_back l));
  ok_nonneg : 0 <= superseded (stats (mailbox l)) /\ 0 <= stale (stats (mailbox l)) /\
    0 <= invalidated (stats (mailbox l));
}.

(** What each operation does to the snapshots held. *)
Lemma push_held item now m :
  mailbox_shape m ->
  held (push item now m).1 `sublist_of` held m ++ [item] /\
  held m ++ [item] ≡ₚ option_list (push item now m).2 ++ held (push item now m).1 /\
  mailbox_shape (push item now m).1.
Proof.
  intros Hs. unfold push. destruct m as [[[t0 a]|] [[t1 b]|] [limit|] s]; cbn;
    try (destruct Hs as [[? ?] [? ?]]; [by eexists|done]); unfold mailbox_shape; cbn.
  all: split_and!; try done; try (intros [? ?]; done); try (by repeat constructor).
Qed.

Lemma pop_held now m :
  mailbox_shape m ->
  option_list (pop now m).2.1.1 ++ held (pop now m).1 `sublist_of` held m /\
  held m ≡ₚ option_list (pop now m).2.1.1 ++ option_list (pop now m).2.2 ++ held (pop now m).1 /\
  mailbox_shape (pop now m).1.
Proof.
  intros Hs. unfold pop. destruct m as [[[t0 a]|] [[t1 b]|] [limit|] s]; cbn;
    try (destruct Hs as [[? ?] [? ?]]; [by eexists|done]); try (destruct (limit <? since now t0)); unfold mailbox_shape; cbn.
  all: split_and!; try done; try (intros [? ?]; done); try (by repeat constructor).
Qed.

Lemma keep_latest_held m :
  held (keep_latest m).1 `sublist_of` held m /\
  held m ≡ₚ option_list (keep_latest m).2 ++ held (keep_latest m).1 /\
  (mailbox_shape m -> mailbox_shape (keep_latest m).1).
Proof.
  unfold keep_latest, mailbox_shape. destruct m as [[[t0 a]|] [[t1 b]|] limit s]; cbn.
  all: split_and!; try done; try (by repeat constructor); intros ? [? ?]; done.
Qed.

Lemma push_counts item now m :
  submitted (stats (push item now m).1) = submitted (stats m) + 1 /\
  selected (stats (push item now m).1) = selected (stats m) /\
  superseded (stats (push item now m).1) =
    superseded (stats m) + Z.of_nat (length (option_list (push item now m).2)) /\
  stale (stats (push item now m).1) = stale (stats m) /\
  invalidated (stats (push item now m).1) = invalidated (stats m).
Proof. unfold push. destruct m as [[[t0 a]|] [[t1 b]|] [limit|] s]; cbn; split_and!; lia. Qed.

Lemma pop_counts now m :
  submitted (stats (pop now m).1) = submitted (stats m) /\
  selected (stats (pop now m).1) = selected (stats m) + Z.of_nat (length (option_list (pop now m).2.1.1)) /\
  superseded (stats (pop now m).1) = superseded (stats m) /\
  stale (stats (pop now m).1) = stale (stats m) + Z.of_nat (length (option_list (pop now m).2.2)) /\
  invalidated (stats (pop now m).1) = invalidated (stats m).
Proof.
  unfold pop. destruct m as [[[t0 a]|] [[t1 b]|] [limit|] s]; cbn;
    try destruct (limit <? since now t0); cbn; split_and!; lia.
Qed.

Lemma keep_latest_counts m :
  mailbox_shape m ->
  submitted (stats (keep_latest m).1) = submitted (stats m) /\
  selected (stats (keep_latest m).1) = selected (stats m) /\
  superseded (stats (keep_latest m).1) = superseded (stats m) /\
  stale (stats (keep_latest m).1) = stale (stats m) /\
  invalidated (stats (keep_latest m).1) =
    invalidated (stats m) + Z.of_nat (length (option_list (keep_latest m).2)).
Proof.
  unfold keep_latest. destruct m as [[[t0 a]|] [[t1 b]|] limit s]; cbn; intros Hs; split_and!; try lia.
  destruct Hs as [[? ?] _]; [by eexists|done].
Qed.

Lemma drain_counts m :
  present (first m) + present (second m) = Z.of_nat (length (held m)).
Proof. unfold held. destruct m as [[[t0 a]|] [[t1 b]|] limit s]; reflexivity. Qed.

Lemma step_ok l o : life_ok l -> life_ok (step l o).
Proof.
  destruct l as [m pushed shown back]. intros [Hs Ho Ha H1 H2 H3 H4]. cbn in *.
  destruct o as [item now| | |now|i|i]; cbn.
  - destruct (push_held item now m Hs) as (Hh & Hp & Hs'). pose proof (push_counts item now m) as (C1 & C2 & C3 & C4 & C5).
    constructor; cbn; rewrite ?length_app; try done; try lia.
    + transitivity ((shown ++ held m) ++ [item]); [rewrite <- app_assoc; by apply sublist_app|by apply sublist_app].
    + rewrite Ha, <- !app_assoc. do 2 f_equiv. by rewrite Hp.
    + cbn. lia.
  - destruct (keep_latest_held m) as (Hh & Hp & Hs'). pose proof (keep_latest_counts m Hs) as (C1 & C2 & C3 & C4 & C5).
    constructor; cbn; rewrite ?length_app; try done; try lia; [by apply Hs'|..].
    + etransitivity; [|exact Ho]. by apply sublist_app.
    + rewrite Ha, <- !app_assoc. by rewrite Hp at 1.
  - pose proof (drain_counts m) as Hd.
    constructor; cbn; rewrite ?length_app, ?app_nil_r; try done; try lia; [by intros [? ?]|].
    etransitivity; [|exact Ho]. by apply sublist_inserts_r.
  - destruct (pop_held now m Hs) as (Hh & Hp & Hs'). pose proof (pop_counts now m) as (C1 & C2 & C3 & C4 & C5).
    constructor; cbn; rewrite ?length_app; try done; try lia.
    + rewrite <- app_assoc. etransitivity; [|exact Ho]. by apply sublist_app.
    + rewrite Ha, <- !app_assoc, Hp. f_equiv. rewrite (assoc_L (++)), (comm (++) back), <- (assoc_L (++)). done.
  - constructor; cbn; try done. intros [? ?]%Hs. split; [done|by eexists].
  - unfold set_interval. constructor; destruct (maximum_age m) eqn:Hm; cbn; try done.
    intros [? ?]%Hs. split; [done|by eexists].
Qed.

Lemma run_ok os l : life_ok l -> life_ok (run l os).
Proof. revert l. induction os as [|o os IH]; [done|]. intros l H. apply IH, step_ok, H. Qed.
End Mailbox.
Arguments PresentationMailbox T : clear implicits.
Arguments life T : clear implicits.
Arguments operation T : clear implicits.

Definition life_start {T} (m : PresentationMailbox T) : life T := MkLife m [] [] [].

Lemma life_start_ok {T} (m : PresentationMailbox T) :
  m = PresentationMailbox_default \/ (exists interval, m = smoothing interval) -> life_ok (life_start m).
Proof. intros [->|[interval ->]]; constructor; cbn; try done; try lia; by intros [? ?]. Qed.

(** Each snapshot pushed into a mailbox is shown once, or given
    back once, or still held; what was shown and is held keeps the order of the pushes.
    The counts agree: everything submitted was selected, superseded, stale or
    invalidated, or is held. At most two snapshots are held, one without smoothing. An
    opportunity always shows a snapshot when one is held, and shows one older than the
    age limit only when nothing newer waits. *)
Theorem mailbox_accounting (T : Type) (m : PresentationMailbox T) (os : list (operation T)) :
  m = PresentationMailbox_default \/ (exists interval, m = smoothing interval) ->
  let l := run (life_start m) os in
  let s := stats (mailbox l) in
  was_shown l ++ held (mailbox l) `sublist_of` was_pushed l /\
  was_pushed l ≡ₚ was_shown l ++ given_back l ++ held (mailbox l) /\
  submitted s = Z.of_nat (length (was_pushed l)) /\ selected s = Z.of_nat (length (was_shown l)) /\
  submitted s = selected s + (superseded s + stale s + invalidated s) + Z.of_nat (length (held (mailbox l))) /\
  (length (held (mailbox l)) <= match maximum_age (mailbox l) with Some _ => 2 | None => 1 end)%nat /\
  forall now, let '(m', (item, age, dropped)) := pop now (mailbox l) in
    (item = None <-> is_empty (mailbox l) = true) /\
    (is_empty m' = false -> forall limit, maximum_age (mailbox l) = Some limit -> age <= limit).
Proof.
  intros Hm l s. destruct (run_ok os _ (life_start_ok m Hm)) as [Hs Ho Ha H1 H2 H3 H4].
  fold l in Hs, Ho, Ha, H1, H2, H3, H4. subst s. split_and!; try done.
  - apply Permutation_length in Ha. rewrite !length_app in Ha. lia.
  - unfold mailbox_shape, held in *. destruct (mailbox l) as [[?|] [?|] [?|] ?]; cbn in *; try lia.
    all: destruct Hs as [? ?]; [by eexists|]; match goal with H : is_Some None |- _ => destruct H; done end.
  - intros now. unfold pop, is_empty, mailbox_shape in *.
    destruct (mailbox l) as [[[t0 a]|] [[t1 b]|] [limit|] c]; cbn in *;
      try (destruct Hs as [[? ?] [? ?]]; [by eexists|done]); try done.
    destruct (Z.ltb_spec limit (since now t0)); cbn; split; try done. by intros _ ? [= <-].
Qed.

Definition sample_operations : list (operation Z) :=
  [Push 1 0; Push 2 5; Push 3 9; Pop 10; Push 4 12; Pop (from_millis 100)].

Lemma mailbox_accounting_witness :
  was_shown (run (life_start (smoothing (from_millis 11))) sample_operations) = [2; 4] /\
  was_pushed (run (life_start (smoothing (from_millis 11))) sample_operations) ≡ₚ
  was_shown (run (life_start (smoothing (from_millis 11))) sample_operations) ++
  given_back (run (life_start (smoothing (from_millis 11))) sample_operations) ++
  held (mailbox (run (life_start (smoothing (from_millis 11))) sample_operations)).
Proof.
  split; [vm_compute; reflexivity|].
  exact (proj1 (proj2 (mailbox_accounting Z (smoothing (from_millis 11)) sample_operations
    (or_intror (ex_intro _ (from_millis 11) eq_refl))))).
Defined.
