(* ===== verification/PresentationInbox.v ===== *)
(** * The presenter's inbox ([weld-client/src/presenter.rs])

    Lifecycle records in order and, per surface, a mailbox of commits. Local surfaces keep
    their latest commit, so the inbox is the queue of [pending.rs] for them (theorem
    below); smoothed sources keep one more. *)

From S2P Require Import Prelude OrdMap Ids Surface Commit PendingEvents Mailbox.

Inductive PresentationDemand := Content | Structure.

(** ** Layout equality: the derived [PartialEq], on floats IEEE equality. *)
Definition point_eqb (a b : LogicalPoint) : bool :=
  feqb (point_x a) (point_x b) && feqb (point_y a) (point_y b).
Definition size_eqb (a b : LogicalSize) : bool :=
  feqb (size_width a) (size_width b) && feqb (size_height a) (size_height b).
Definition view_eqb (a b : SurfaceContentView) : bool :=
  feqb (source_x a) (source_x b) && feqb (source_y a) (source_y b)
  && feqb (source_width a) (source_width b) && feqb (source_height a) (source_height b)
  && feqb (logical_width a) (logical_width b) && feqb (logical_height a) (logical_height b).
Definition placement_eqb (a b : SurfaceLayerPlacement) : bool :=
  bool_decide (placement_layer a = placement_layer b)
  && point_eqb (placement_position a) (placement_position b) && view_eqb (placement_view a) (placement_view b).
Definition geometry_eqb (a b : SurfaceWindowGeometry) : bool :=
  point_eqb (geometry_origin a) (geometry_origin b) && view_eqb (geometry_view a) (geometry_view b).
Definition rect_eqb (a b : SurfaceInputRect) : bool :=
  point_eqb (rect_position a) (rect_position b) && size_eqb (rect_size a) (rect_size b).
Definition opt_eqb {A} (eqb : A -> A -> bool) (a b : option A) : bool :=
  match a, b with Some a, Some b => eqb a b | None, None => true | _, _ => false end.
Fixpoint list_eqb {A} (eqb : A -> A -> bool) (a b : list A) : bool :=
  match a, b with
  | [], [] => true
  | x :: a, y :: b => eqb x y && list_eqb eqb a b
  | _, _ => false
  end.
Definition input_eqb (a b : SurfaceInputPlacement) : bool :=
  bool_decide (input_layer a = input_layer b) && point_eqb (input_position a) (input_position b)
  && list_eqb rect_eqb (regions a) (regions b).

(** [same_layout] *)
Definition same_layout {B} (previous current : ClientSurfaceState B) : bool :=
  bool_decide (mapped previous = mapped current)
  && bool_decide (alpha_mode previous = alpha_mode current)
  && opt_eqb placement_eqb (root previous) (root current)
  && opt_eqb geometry_eqb (window_geometry previous) (window_geometry current)
  && list_eqb placement_eqb (overlays previous) (overlays current)
  && list_eqb input_eqb (inputs previous) (inputs current)
  && list_eqb (fun old new => bool_decide (layer old = layer new)
                 && bool_decide (change_metadata (change old) = change_metadata (change new)))
       (buffers previous) (buffers current).

Section Inbox.
Context {B : Type}.
Abbreviation commit_box := (PresentationMailbox (ClientSurfaceState B)).

Inductive Slot :=
  | Event (e : ClientSurfaceEvent B)
  | Frames (s : ClientSurfaceId) (queue : commit_box) (barrier : bool).

Record ClientPresentationInbox := MkInbox {
  mapped_surfaces : gset ClientSurfaceId;
  pending : list Slot;
  intervals : gmap ClientSourceId duration;
  completed : gmap ClientSourceId PresentationQueueStats;
}.
Definition Inbox_default : ClientPresentationInbox := MkInbox ∅ [] ∅ ∅.
Definition set_pending (p : list Slot) (i : ClientPresentationInbox) : ClientPresentationInbox :=
  MkInbox (mapped_surfaces i) p (intervals i) (completed i).

Definition map_frames (f : ClientSurfaceId -> commit_box -> commit_box) (l : list Slot) : list Slot :=
  (fun r => match r with Event e => Event e | Frames s q b => Frames s (f s q) b end) <$> l.

(** [smooth_source] and [set_interval] *)
Definition smooth_source (source : ClientSourceId) (interval : duration) (i : ClientPresentationInbox) :
    ClientPresentationInbox :=
  MkInbox (mapped_surfaces i)
    (map_frames (fun s q => if bool_decide (ClientSurfaceId_source s = source)
                            then enable_smoothing interval q else q) (pending i))
    (<[source := interval]> (intervals i)) (completed i).
Definition set_interval (interval : duration) (i : ClientPresentationInbox) : ClientPresentationInbox :=
  MkInbox (mapped_surfaces i) (map_frames (fun _ q => Mailbox.set_interval interval q) (pending i))
    ((fun _ => interval) <$> intervals i) (completed i).

(** [plan] *)
Definition slot_record (r : Slot) : Record_ :=
  match r with
  | Event e => MkRecord (surface e) (Kind_of (event_kind e)) true false
  | Frames s q b => MkRecord s (KCommit (is_some_and (newest q) mapped)) true b
  end.
Definition plan_slots (s : ClientSurfaceId) (k : Kind) (l : list Slot) : Insertion :=
  plan s k (slot_record <$> l).

(** [collapse_history] *)
Definition collapse_history : list Slot -> list Slot := map_frames (fun _ q => (keep_latest q).1).

(** [enqueue_commit] *)
Definition enqueue_commit (c : ClientSurfaceState B) (now : instant) (q : commit_box) : commit_box :=
  let q := if is_some_and (newest q) (fun previous => negb (same_layout previous c)) then clear q else q in
  (Mailbox.push c now q).1.

(** [commit] *)
Definition commit (s : ClientSurfaceId) (c : ClientSurfaceState B) (now : instant)
    (i : ClientPresentationInbox) : ClientPresentationInbox :=
  let insertion := plan_slots s (KCommit (mapped c)) (pending i) in
  let found := match replacement insertion with Some index => pending i !! index | None => None end in
  let c := match found with
           | Some (Frames _ q _) =>
               match newest q with
               | Some previous => carry_unobserved_content_from previous c
               | None => c
               end
           | _ => c
           end in
  match replacement insertion with
  | Some index =>
      if insertion_barrier insertion then
        match found with
        | Some (Frames t q b) => set_pending (<[index := Frames t (enqueue_commit c now q) b]> (pending i)) i
        | _ => i
        end
      else
        match found with
        | Some (Frames _ q _) =>
            set_pending (delete index (pending i) ++ [Frames s (enqueue_commit c now q) false]) i
        | _ => set_pending (delete index (pending i)) i
        end
  | None =>
      let l := if insertion_barrier insertion then collapse_history (pending i) else pending i in
      let q := match intervals i !! ClientSurfaceId_source s with
               | Some interval => smoothing interval
               | None => PresentationMailbox_default
               end in
      set_pending (l ++ [Frames s (Mailbox.push c now q).1 (insertion_barrier insertion)]) i
  end.

(** [push_at]: the demand, then the record. *)
Definition demand (e : ClientSurfaceEvent B) (i : ClientPresentationInbox) : gset ClientSurfaceId * PresentationDemand :=
  let m := mapped_surfaces i in
  match event_kind e with
  | Commit c =>
      let before := bool_decide (surface e ∈ m) in
      (if mapped c then {[surface e]} ∪ m else m ∖ {[surface e]},
       if bool_decide (mapped c = before) then Content else Structure)
  | Destroyed => (m ∖ {[surface e]}, Structure)
  | Role _ => (m, Structure)
  | _ => (m, Content)
  end.
Definition push_at (e : ClientSurfaceEvent B) (now : instant) (i : ClientPresentationInbox) :
    ClientPresentationInbox * PresentationDemand :=
  let '(m, d) := demand e i in
  let i := MkInbox m (pending i) (intervals i) (completed i) in
  (match event_kind e with
   | Commit c => commit (surface e) c now i
   | Metadata _ =>
       let l := match replacement (plan_slots (surface e) KMetadata (pending i)) with
                | Some index => delete index (pending i)
                | None => pending i
                end in
       set_pending (l ++ [Event e]) i
   | _ => set_pending (collapse_history (pending i) ++ [Event e]) i
   end, d).

Definition has_pending (i : ClientPresentationInbox) : bool :=
  match pending i with [] => false | _ => true end.

(** [pop_at]: a mailbox that still holds a commit goes to the back. *)
Definition pop_at (now : instant) (i : ClientPresentationInbox) :
    ClientPresentationInbox * option (ClientSurfaceEvent B) :=
  match pending i with
  | [] => (i, None)
  | Event e :: l => (set_pending l i, Some e)
  | Frames s q b :: l =>
      let '(q, (c, _, _)) := pop now q in
      let i :=
        if negb (is_empty q) then set_pending (l ++ [Frames s q b]) i
        else MkInbox (mapped_surfaces i) l (intervals i)
               (<[ClientSurfaceId_source s :=
                    add_assign (default PresentationQueueStats_default (completed i !! ClientSurfaceId_source s))
                      (stats q)]> (completed i)) in
      (i, (fun c => MkClientSurfaceEvent s (Commit c)) <$> c)
  end.

(** [drain_ready]: as many pops as there were records. *)
Fixpoint pops (n : nat) (now : instant) (i : ClientPresentationInbox) :
    ClientPresentationInbox * list (ClientSurfaceEvent B) :=
  match n with
  | O => (i, [])
  | S n => let '(i, e) := pop_at now i in let '(i, l) := pops n now i in (i, option_list e ++ l)
  end.
Definition drain_ready (now : instant) (i : ClientPresentationInbox) :
    ClientPresentationInbox * list (ClientSurfaceEvent B) :=
  pops (length (pending i)) now i.

(** [stats] and [stats_for_source]: the sums saturate. *)
Definition inbox_stats (P : ClientSurfaceId -> bool) (start : PresentationQueueStats) (i : ClientPresentationInbox) :
    PresentationQueueStats :=
  foldl (fun s r => match r with
                    | Frames t q _ => if P t then add_assign s (stats q) else s
                    | Event _ => s
                    end) start (pending i).
Definition stats_for_source (source : ClientSourceId) (i : ClientPresentationInbox) : PresentationQueueStats :=
  inbox_stats (fun t => bool_decide (ClientSurfaceId_source t = source))
    (default PresentationQueueStats_default (completed i !! source)) i.
End Inbox.
Arguments ClientPresentationInbox B : clear implicits.
Arguments Slot B : clear implicits.

(** ** Local surfaces *)
Section Local.
Context {B : Type}.
Implicit Types (i : ClientPresentationInbox B) (q : PendingClientEvents unit B) (r : Slot B).
#[local] Arguments plan_slots : simpl never.
#[local] Arguments plan : simpl never.

(** One record of the inbox and the record of the queue it stands for: without smoothing a
    mailbox in the inbox holds exactly one commit. *)
Inductive matches : Slot B -> PendingEvent unit B -> Prop :=
  | matches_event e :
      (forall c, event_kind e <> Commit c) -> matches (Event e) (MkPendingEvent (tt, e) false)
  | matches_frames s m b t c :
      first m = Some (t, c) -> second m = None -> maximum_age m = None ->
      matches (Frames s m b) (MkPendingEvent (tt, MkClientSurfaceEvent s (Commit c)) b).

Definition related i q : Prop := Forall2 matches (pending i) q /\ intervals i = ∅.

Lemma matches_one e :
  (forall c, event_kind e <> Commit c) -> Forall2 matches [Event e] [MkPendingEvent (tt, e) false].
Proof. intros He. constructor; [by constructor|constructor]. Qed.

Lemma matches_record r p : matches r p -> slot_record r = plan_record tt p.
Proof.
  intros [e He|s q b t c H1 H2 _]; unfold plan_record; cbn.
  - done.
  - unfold newest. by rewrite H1, H2.
Qed.
Lemma plan_related s k l q : Forall2 matches l q -> plan_slots s k l = plan s k (plan_record tt <$> q).
Proof.
  intros H. unfold plan_slots. f_equal.
  induction H as [|r p l q Hr _ IH]; [done|]. cbn. by rewrite IH, (matches_record _ _ Hr).
Qed.

Lemma collapse_related l q : Forall2 matches l q -> Forall2 matches (collapse_history l) q.
Proof.
  induction 1 as [|r p l q Hr _ IH]; [constructor|]. constructor; [|done].
  destruct Hr as [e He|s m b t c H1 H2 H3]; [by constructor|].
  unfold keep_latest. rewrite H2. by econstructor.
Qed.

Lemma push_single c now (m : PresentationMailbox (ClientSurfaceState B)) :
  second m = None -> maximum_age m = None ->
  first (Mailbox.push c now m).1 = Some (now, c) /\ second (Mailbox.push c now m).1 = None /\
  maximum_age (Mailbox.push c now m).1 = None.
Proof. intros H2 H3. unfold push. rewrite H3, (bool_decide_true (None = None)), orb_true_r by done. done. Qed.

Lemma enqueue_single c now (m : PresentationMailbox (ClientSurfaceState B)) :
  second m = None -> maximum_age m = None ->
  first (enqueue_commit c now m) = Some (now, c) /\ second (enqueue_commit c now m) = None /\
  maximum_age (enqueue_commit c now m) = None.
Proof. intros H2 H3. unfold enqueue_commit. by destruct (is_some_and _ _); apply push_single. Qed.

Lemma commit_related s c now i q :
  related i q ->
  related (commit s c now i) (PendingEvents.push tt (MkClientSurfaceEvent s (Commit c)) q).1.
Proof.
  intros [Hl Hi]. unfold commit, PendingEvents.push, insert_event, plan_event. cbn [surface event_kind Kind_of].
  rewrite (plan_related _ _ _ _ Hl). destruct (plan _ _ _) as [[index|] fl] eqn:Hplan; cbn.
  - pose proof Hplan as (a & p & b & old & -> & -> & Hr & Hm & Hfl & _)%plan_commit_found.
    rewrite list_lookup_middle by done. destruct p as [x fp]. cbn in Hr, Hfl. subst x fl. cbn.
    apply Forall2_app_inv_r in Hl as (la & lb & Ha & Hb & Hp).
    assert (Hlen : length la = length a) by (by eapply Forall2_length).
    inversion Hb as [|r' p' lb' q' Hr' Hlb]; subst. rewrite Hp.
    rewrite list_lookup_middle by done.
    inversion Hr' as [e He|s' m b' t c' H1 H2 H3]; subst; [by destruct (He old)|].
    replace (newest m) with (Some old) by (unfold newest; by rewrite H2, H1).
    destruct (enqueue_single (carry_unobserved_content_from old c) now m H2 H3) as (E1 & E2 & E3).
    destruct fp; (split; [|done]); cbn.
    + rewrite !insert_app_r_alt, Hlen, Nat.sub_diag by lia. cbn.
      apply Forall2_app; [done|]. constructor; [by econstructor|done].
    + rewrite <- Hlen at 1. rewrite !delete_middle. apply Forall2_app; [by apply Forall2_app|].
      constructor; [by econstructor|done].
  - rewrite Hi. rewrite lookup_empty. split; [|done]. cbn.
    apply Forall2_app; [by destruct fl; [apply collapse_related|]|].
    constructor; [|done]. by econstructor.
Qed.

Lemma push_related e now i q :
  related i q -> related (push_at e now i).1 (PendingEvents.push tt e q).1.
Proof.
  intros [Hl Hi]. unfold push_at. destruct (demand e i) as [m d]. cbn. destruct e as [s k].
  destruct k as [| c | | | |]; cbn; try (split; [|done]; cbn;
    apply Forall2_app; [by apply collapse_related|by apply matches_one]).
  - by apply commit_related.
  - split; [|done]. cbn. unfold PendingEvents.push, insert_event, plan_event. cbn.
    rewrite (plan_related _ _ _ _ Hl), plan_metadata_barrier.
    destruct (replacement _) as [index|] eqn:Hrep; cbn; [|apply Forall2_app; [done|by apply matches_one]].
    assert (exists p, q !! index = Some p) as [p ->].
    { destruct (plan s KMetadata (plan_record tt <$> q)) as [o fl] eqn:Hplan. cbn in Hrep. subst o.
      apply plan_metadata_found in Hplan as (a & p & b & ? & -> & -> & _).
      exists p. by rewrite list_lookup_middle. }
    cbn. unfold carry_event. cbn.
    destruct (event_kind (record p).2); cbn;
      (apply Forall2_app; [by apply Forall2_delete|by apply matches_one]).
Qed.

Lemma pop_related now i q :
  related i q ->
  related (pop_at now i).1 (tail q) /\ (pop_at now i).2 = (fun p => (record p).2) <$> head q.
Proof.
  unfold related, pop_at. intros [Hl Hi]. remember (pending i) as slots eqn:Hs.
  destruct Hl as [|r p l q Hr Hl]; [cbn; by rewrite <- Hs|].
  destruct Hr as [e He|s m b t c H1 H2 H3]; [done|].
  unfold pop. rewrite H1, H2, H3. done.
Qed.

(** ** Runs *)
Inductive inbox_operation :=
  | PushEvent (e : ClientSurfaceEvent B) (now : instant)
  | TakeOne (now : instant)
  | DrainReady (now : instant).

Definition inbox_step (st : ClientPresentationInbox B * list (ClientSurfaceEvent B)) (o : inbox_operation) :
    ClientPresentationInbox B * list (ClientSurfaceEvent B) :=
  match o with
  | PushEvent e now => ((push_at e now st.1).1, st.2)
  | TakeOne now => let r := pop_at now st.1 in (r.1, st.2 ++ option_list r.2)
  | DrainReady now => let r := drain_ready now st.1 in (r.1, st.2 ++ r.2)
  end.
Definition queue_step (st : PendingClientEvents unit B * list (ClientSurfaceEvent B)) (o : inbox_operation) :
    PendingClientEvents unit B * list (ClientSurfaceEvent B) :=
  match o with
  | PushEvent e _ => ((PendingEvents.push tt e st.1).1, st.2)
  | TakeOne _ =>
      match pop_front st.1 with Some (r, q) => (q, st.2 ++ [r.2]) | None => st end
  | DrainReady _ => ([], st.2 ++ (snd <$> records st.1))
  end.

Lemma pops_related now q i :
  related i q ->
  related (pops (length q) now i).1 [] /\ (pops (length q) now i).2 = (fun p => (record p).2) <$> q.
Proof.
  revert i. induction q as [|p q IH]; intros i Hr; [done|]. cbn.
  destruct (pop_related now i (p :: q) Hr) as [Hr' He]. destruct (pop_at now i) as [i' e]. cbn in *. subst e.
  destruct (IH i' Hr') as [Hr'' Hl]. destruct (pops (length q) now i') as [i'' l]. cbn in *. by subst.
Qed.

Lemma step_related o i q out :
  related i q ->
  related (inbox_step (i, out) o).1 (queue_step (q, out) o).1 /\
  (inbox_step (i, out) o).2 = (queue_step (q, out) o).2.
Proof.
  intros Hr. destruct o as [e now|now|now]; cbn.
  - split; [by apply push_related|done].
  - destruct (pop_related now i q Hr) as [Hr' ->]. by destruct q; cbn in *; rewrite ?app_nil_r.
  - unfold drain_ready. rewrite (list.Forall2_length _ _ _ (proj1 Hr)).
    destruct (pops_related now q i Hr) as [Hr' ->]. split; [done|]. unfold records.
    by rewrite <- list_fmap_compose.
Qed.
End Local.
Arguments inbox_operation B : clear implicits.

(** C33 (inbox-equivalence). For local surfaces, those without smoothing, the presenter's
    inbox hands out exactly what the event queue of [pending.rs] does, whatever is pushed
    and taken at whatever times. *)
Theorem inbox_matches_queue (B : Type) (os : list (inbox_operation B)) :
  (foldl inbox_step (Inbox_default, []) os).2 = (foldl queue_step ([], []) os).2.
Proof.
  assert (H : forall i q out, related i q ->
    (foldl inbox_step (i, out) os).2 = (foldl queue_step (q, out) os).2).
  { induction os as [|o os IH]; intros i q out Hr; [done|]. cbn.
    destruct (step_related o i q out Hr) as [Hr' He].
    destruct (inbox_step (i, out) o) as [i' out'], (queue_step (q, out) o) as [q' out'']. cbn in *. subst.
    by apply IH. }
  apply H. by split.
Qed.

(** ** Smoothed surfaces

    What a presenter that drains at every opportunity shows of one surface: the revisions
    of its commits and whether they map it, between the controls. *)
Section Smoothed.
Context {B : Type}.
Implicit Types (i : ClientPresentationInbox B) (r : Slot B) (l : list (Slot B)) (s : ClientSurfaceId).

Inductive mark := Shown (rev : Z) (shows : bool) | Control (e : ClientSurfaceEvent B).
Definition commit_mark (c : ClientSurfaceState B) : mark := Shown (revision c) (mapped c).

Definition mark_of s (e : ClientSurfaceEvent B) : list mark :=
  match event_kind e with
  | Commit c => if bool_decide (surface e = s) then [commit_mark c] else []
  | Metadata _ => []
  | _ => [Control e]
  end.
Definition marks s (es : list (ClientSurfaceEvent B)) : list mark := es ≫= mark_of s.
Definition slot_marks s r : list mark :=
  match r with
  | Event e => mark_of s e
  | Frames t q _ => if bool_decide (t = s) then commit_mark <$> held q else []
  end.
Definition waiting_marks s l : list mark := l ≫= slot_marks s.

(** The shape between drains: a mailbox holds a commit or two that both map the surface or
    neither does, and one that holds two is followed by no control, no barrier and no other
    mailbox of its surface. *)
Definition all_map (m : bool) (q : PresentationMailbox (ClientSurfaceState B)) : Prop := Forall (fun c => mapped c = m) (held q).
Definition passive s r : Prop :=
  match r with
  | Event e => is_control (Kind_of (event_kind e)) = false
  | Frames t _ b => t <> s /\ b = false
  end.
Definition slot_ok r : Prop :=
  match r with
  | Event e => forall c, event_kind e <> Commit c
  | Frames _ q _ => is_Some (first q) /\ (is_Some (second q) -> is_Some (maximum_age q)) /\ exists m, all_map m q
  end.
Definition doubled_surface r : option ClientSurfaceId :=
  match r with
  | Frames s q _ => if bool_decide (is_Some (second q)) then Some s else None
  | Event _ => None
  end.
Fixpoint slots_ok l : Prop :=
  match l with
  | [] => True
  | r :: l => slot_ok r /\ (forall s, doubled_surface r = Some s -> Forall (passive s) l) /\ slots_ok l
  end.

Lemma slots_ok_app l k :
  slots_ok (l ++ k) <->
  slots_ok l /\ slots_ok k /\
  (forall r s, r ∈ l -> doubled_surface r = Some s -> Forall (passive s) k).
Proof.
  induction l as [|r l IH]; cbn; [set_solver|]. rewrite IH. setoid_rewrite Forall_app.
  split.
  - intros (H1 & H2 & H3 & H4 & H5). split_and!; try done; [naive_solver|].
    intros r' s [->|Hr]%elem_of_cons Hd; [by apply H2|by eapply H5].
  - intros ((H1 & H2 & H3) & H4 & H5). split_and!; try done.
    + intros s Hs. split; [by apply H2|]. eapply H5; [by left|done].
    + intros r' s Hr. apply H5. by right.
Qed.

Lemma marks_app s es fs : marks s (es ++ fs) = marks s es ++ marks s fs.
Proof. apply bind_app. Qed.
Lemma waiting_app s l k : waiting_marks s (l ++ k) = waiting_marks s l ++ waiting_marks s k.
Proof. apply bind_app. Qed.
Lemma waiting_cons s r l : waiting_marks s (r :: l) = slot_marks s r ++ waiting_marks s l.
Proof. done. Qed.

Lemma passive_marks s r : slot_ok r -> passive s r -> slot_marks s r = [].
Proof.
  destruct r as [e|t q b]; cbn.
  - intros Hc Hp. unfold mark_of. destruct (event_kind e) eqn:He; try done. by edestruct Hc.
  - intros _ [Ht _]. by rewrite bool_decide_false.
Qed.
Lemma passive_waiting s l : slots_ok l -> Forall (passive s) l -> waiting_marks s l = [].
Proof.
  induction l as [|r l IH]; [done|]. intros (Hr & _ & Hl) [Hp Hps]%Forall_cons_1.
  rewrite waiting_cons, passive_marks, IH; done.
Qed.

(** A commit is superseded by the next one, if nothing comes between them and both map the
    surface or neither does. *)
Inductive superseded : list mark -> list mark -> Prop :=
  | superseded_by rev next m x y : superseded (x ++ Shown rev m :: Shown next m :: y) (x ++ Shown next m :: y).
(** [x] is [y] less commits that the next one superseded: the newest commit before each
    control, before each change of the mapping and at the end is kept, and so are the
    controls and the order. *)
Definition keeps (x y : list mark) : Prop := rtc superseded y x.
Lemma keeps_refl x : keeps x x.
Proof. apply rtc_refl. Qed.
Lemma keeps_trans x y z : keeps x y -> keeps y z -> keeps x z.
Proof. unfold keeps. intros H1 H2. by transitivity y. Qed.
Lemma keeps_app x x' y y' : keeps x y -> keeps x' y' -> keeps (x ++ x') (y ++ y').
Proof.
  intros H1 H2. apply (keeps_trans _ (x ++ y')).
  - revert H2. apply (rtc_congruence (app x)). intros _ _ [rev next m a b]. rewrite !app_assoc. constructor.
  - revert H1. apply (rtc_congruence (fun z => z ++ y')). intros _ _ [rev next m a b]. rewrite <- !app_assoc. constructor.
Qed.
Lemma keeps_next a b y : mapped a = mapped b -> keeps (commit_mark b :: y) (commit_mark a :: commit_mark b :: y).
Proof. unfold commit_mark. intros ->. apply rtc_once, (superseded_by _ _ _ []). Qed.
Lemma keeps_newest a b c y : mapped a = mapped b -> mapped b = mapped c -> keeps (commit_mark c :: y) (commit_mark a :: commit_mark b :: commit_mark c :: y).
Proof. intros. eapply keeps_trans; by apply keeps_next. Qed.
Lemma keeps_middle a b c y : mapped b = mapped c -> keeps (commit_mark a :: commit_mark c :: y) (commit_mark a :: commit_mark b :: commit_mark c :: y).
Proof. intros. apply (keeps_app [_] (_ :: _) [_] (_ :: _ :: _) (keeps_refl _)). by apply keeps_next. Qed.
#[local] Ltac solve_keeps := first [apply keeps_refl|apply keeps_next; congruence|apply keeps_newest; congruence|apply keeps_middle; congruence].
(** What came before a control is kept before it, and what came after it, after it. *)
Lemma keeps_control e x y x' : keeps x' (x ++ Control e :: y) -> exists a b, x' = a ++ Control e :: b /\ keeps a x /\ keeps b y.
Proof.
  intros H. remember (x ++ Control e :: y) as z eqn:Hz. revert x y Hz. induction H as [z|z z1 z' [rev next w u v] _ IH]; intros x y Hz.
  { exists x, y. by split_and!; try apply keeps_refl. }
  assert (exists x1 y1, u ++ Shown next w :: v = x1 ++ Control e :: y1 /\ keeps x1 x /\ keeps y1 y) as (x1 & y1 & E & Hx & Hy).
  { apply app_eq_inv in Hz as [(k & -> & Hk)|(k & -> & Hk)].
    - destruct k as [|m k]; [done|]. injection Hk as <- ->. exists x, (k ++ Shown next w :: v).
      split_and!; [by rewrite <- app_assoc|apply keeps_refl|apply rtc_once, superseded_by].
    - destruct k as [|m k]; [done|]. injection Hk as <- Hk. destruct k as [|m k]; [done|]. injection Hk as <- ->.
      exists (u ++ Shown next w :: k), y. split_and!; [by rewrite <- app_assoc| |apply keeps_refl].
      apply rtc_once, superseded_by. }
  destruct (IH _ _ E) as (a & b & -> & Ha & Hb). exists a, b. split_and!; [done|by eapply keeps_trans..].
Qed.
Lemma keeps_last x y : keeps x y -> list.last x = list.last y.
Proof.
  induction 1 as [|z z1 z' [rev next w u v] _ IH]; [done|]. rewrite IH, !last_app. cbn. by destruct (list.last v).
Qed.

(** *** Mailboxes *)
Definition revisions (cs : list (ClientSurfaceState B)) : list mark := commit_mark <$> cs.

Lemma keep_latest_keeps m (q : PresentationMailbox (ClientSurfaceState B)) :
  is_Some (first q) -> all_map m q ->
  keeps (revisions (held (keep_latest q).1)) (revisions (held q)) /\
  second (keep_latest q).1 = None /\ is_Some (first (keep_latest q).1) /\ all_map m (keep_latest q).1.
Proof.
  unfold keep_latest, all_map, held. destruct q as [[[? a]|] [[? b]|] ? st]; cbn; intros [? Hf] Hm; try done;
    rewrite ?list.Forall_cons in *; destruct_and?; split_and!; try done; try solve_keeps; by eexists.
Qed.

Lemma newest_maps m (q : PresentationMailbox (ClientSurfaceState B)) : is_Some (first q) -> all_map m q -> all_map (is_some_and (newest q) mapped) q.
Proof.
  unfold all_map, held, newest. destruct q as [[[? a]|] [[? b]|] ? ?]; cbn; intros [? Hf] Hm; try done;
    rewrite ?list.Forall_cons in *; destruct_and?; split_and!; congruence || done.
Qed.
Lemma enqueue_keeps c now (q : PresentationMailbox (ClientSurfaceState B)) :
  is_Some (first q) -> (is_Some (second q) -> is_Some (maximum_age q)) -> all_map (mapped c) q ->
  keeps (revisions (held (enqueue_commit c now q))) (revisions (held q) ++ [commit_mark c]) /\
  is_Some (first (enqueue_commit c now q)) /\
  (is_Some (second (enqueue_commit c now q)) -> is_Some (maximum_age (enqueue_commit c now q))) /\
  all_map (mapped c) (enqueue_commit c now q).
Proof.
  intros [? Hf] H Hm. unfold enqueue_commit, push, all_map, held in *.
  destruct q as [[[? a]|] [[? b]|] [w|] st]; cbn in *; try done; try (by destruct H; [by eexists|]); rewrite ?list.Forall_cons in *; destruct_and?;
    try destruct (negb _); cbn; split_and!; rewrite ?list.Forall_cons; try done; try solve_keeps; try (by eexists);
    intros [? ?]; by eexists.
Qed.

Lemma pop_keeps now m (q : PresentationMailbox (ClientSurfaceState B)) :
  is_Some (first q) -> all_map m q ->
  exists c, (pop now q).2.1.1 = Some c /\
  keeps (revisions (c :: held (pop now q).1)) (revisions (held q)) /\
  second (pop now q).1 = None /\
  (first (pop now q).1 = None \/ is_Some (second q)) /\ all_map m (pop now q).1.
Proof.
  intros [[t a] Hf] Hm. unfold pop, all_map, held in *. destruct q as [[[? a']|] [[? b]|] [w|] st]; cbn in *; try done; rewrite ?list.Forall_cons in *; destruct_and?;
    try destruct (_ <? _); cbn; eexists; split_and!; rewrite ?list.Forall_cons; try done; try solve_keeps; try (by left);
    right; by eexists.
Qed.

(** *** Slots *)
Definition settled l : Prop := Forall (fun r => slot_ok r /\ doubled_surface r = None) l.

Lemma settled_ok l : settled l -> slots_ok l.
Proof.
  induction 1 as [|r l [Hr Hd] _ IH]; [done|]. split_and!; [done| |done]. intros s. by rewrite Hd.
Qed.
Lemma slots_ok_Forall l : slots_ok l -> Forall slot_ok l.
Proof. induction l as [|r l IH]; [constructor|]. intros (H & _ & Hl). constructor; auto. Qed.

Lemma slots_ok_snoc l r :
  slots_ok l -> slot_ok r -> (forall r' s, r' ∈ l -> doubled_surface r' = Some s -> passive s r) ->
  slots_ok (l ++ [r]).
Proof.
  intros Hl Hr Hp. apply slots_ok_app. split_and!; [done|by split|].
  intros r' s Hin Hd. constructor; [by eapply Hp|done].
Qed.
Lemma settled_snoc l r : settled l -> slot_ok r -> slots_ok (l ++ [r]).
Proof.
  intros Hl Hr. apply slots_ok_snoc; [by apply settled_ok|done|]. intros r' s Hin Hd.
  destruct (proj1 (list.Forall_forall _ _) Hl r' Hin) as [_ Hn]. congruence.
Qed.

Lemma collapse_settled l : Forall slot_ok l -> settled (collapse_history l).
Proof.
  induction 1 as [|r l Hr _ IH]; [constructor|]. constructor; [|done]. destruct r as [e|s q b]; [done|].
  destruct Hr as (Hf & _ & m & Hm). destruct (keep_latest_keeps m q) as (_ & Hs & Hf' & Hm'); [done..|]. cbn.
  rewrite Hs. split; [|done]. split_and!; [done|by intros [? ?]|by exists m].
Qed.
Lemma collapse_keeps s l : Forall slot_ok l -> keeps (waiting_marks s (collapse_history l)) (waiting_marks s l).
Proof.
  induction 1 as [|r l Hr _ IH]; [apply keeps_refl|]. cbn. unfold waiting_marks in *. cbn.
  apply keeps_app; [|done]. destruct r as [e|t q b]; cbn; [apply keeps_refl|].
  case_bool_decide; [|apply keeps_refl]. destruct Hr as (Hf & _ & m & Hm). by eapply keep_latest_keeps.
Qed.

(** The scan for a commit of [s] passes the slots that are passive for [s]. *)
Lemma scan_passes s m l c :
  Forall slot_ok c -> Forall (passive s) c ->
  plan_slots s (KCommit m) (l ++ c) = plan_slots s (KCommit m) l.
Proof.
  intros Hok Hp. unfold plan_slots, plan. induction c as [|r c IH] using rev_ind; [by rewrite app_nil_r|].
  apply Forall_app in Hok as [Hok Hr], Hp as [Hp Hpr]. apply Forall_cons_1 in Hr as [Hr _], Hpr as [Hpr _].
  rewrite app_assoc, fmap_app. change (slot_record <$> [r]) with [slot_record r].
  rewrite newest_first_snoc. cbn. destruct r as [e|t q b]; cbn.
  - cbn in Hr, Hpr. destruct (event_kind e) as [|k| | | |]; try done; [by destruct (Hr k)|]. by apply IH.
  - destruct Hpr as [Ht ->]. rewrite bool_decide_false by done. by apply IH.
Qed.
Lemma scan_stops s m l q b :
  plan_slots s (KCommit m) (l ++ [Frames s q b]) =
    let compatible := bool_decide (is_some_and (newest q) mapped = m) in
    MkInsertion (if compatible then Some (length l) else None) (negb compatible || b).
Proof.
  unfold plan_slots, plan. rewrite fmap_app. change (slot_record <$> [Frames s q b]) with [slot_record (Frames s q b)].
  rewrite newest_first_snoc, length_fmap. cbn. by rewrite bool_decide_true.
Qed.
Lemma scan_found s m l index fl :
  Forall slot_ok l -> plan_slots s (KCommit m) l = MkInsertion (Some index) fl ->
  exists a q c, l = a ++ Frames s q fl :: c /\ index = length a /\ Forall (passive s) c /\ is_some_and (newest q) mapped = m.
Proof.
  induction l as [|r l IH] using rev_ind; [done|]. intros [Hok [Hr _]%Forall_cons_1]%Forall_app Hplan.
  assert (Hpass : passive s r -> plan_slots s (KCommit m) l = MkInsertion (Some index) fl ->
    exists a q c, l ++ [r] = a ++ Frames s q fl :: c /\ index = length a /\ Forall (passive s) c /\ is_some_and (newest q) mapped = m).
  { intros Hp (a & q & c & -> & -> & Hc & Hn)%IH; [|done]. exists a, q, (c ++ [r]).
    split_and!; [by rewrite <- app_assoc|done| |done]. apply Forall_app. split; [done|by apply list.Forall_singleton]. }
  destruct r as [e|t q b].
  - destruct (is_control (Kind_of (event_kind e))) eqn:He.
    + unfold plan_slots, plan in Hplan. rewrite fmap_app in Hplan.
      change (slot_record <$> [Event e]) with [slot_record (Event e)] in Hplan.
      rewrite newest_first_snoc in Hplan. cbn in Hplan. by destruct (event_kind e).
    + apply Hpass; [done|]. by rewrite scan_passes in Hplan by (by apply list.Forall_singleton).
  - destruct (decide (t = s)) as [->|Ht].
    + rewrite scan_stops in Hplan. cbn in Hplan. case_bool_decide; [|done]. cbn in Hplan.
      injection Hplan as <- <-. by exists l, q, [].
    + destruct b; [|apply Hpass; [done|]; by rewrite scan_passes in Hplan by (by apply list.Forall_singleton)].
      unfold plan_slots, plan in Hplan. rewrite fmap_app in Hplan.
      change (slot_record <$> [Frames t q true]) with [slot_record (Frames t q true)] in Hplan.
      rewrite newest_first_snoc in Hplan. cbn in Hplan. by rewrite bool_decide_false in Hplan.
Qed.

(** *** Pushes *)
#[local] Arguments waiting_marks : simpl never.
#[local] Arguments plan_slots : simpl never.
Definition pushed_well i i' e : Prop :=
  slots_ok (pending i') /\
  forall s, keeps (waiting_marks s (pending i')) (waiting_marks s (pending i) ++ mark_of s e).

Lemma waiting_one s r : waiting_marks s [r] = slot_marks s r.
Proof. unfold waiting_marks. cbn. apply app_nil_r. Qed.

Lemma commit_new s c now i (smooth : option duration) :
  slots_ok (pending i) ->
  (insertion_barrier (plan_slots s (KCommit (mapped c)) (pending i)) = false ->
   replacement (plan_slots s (KCommit (mapped c)) (pending i)) = None) ->
  let fl := insertion_barrier (plan_slots s (KCommit (mapped c)) (pending i)) in
  let q := match smooth with Some interval => smoothing interval | None => PresentationMailbox_default end in
  let l := (if fl then collapse_history (pending i) else pending i) ++ [Frames s (push c now q).1 fl] in
  slots_ok l /\
  forall t, keeps (waiting_marks t l) (waiting_marks t (pending i) ++ mark_of t (MkClientSurfaceEvent s (Commit c))).
Proof.
  intros Hok Hnone fl q l. pose proof (slots_ok_Forall _ Hok) as Hall.
  assert (Hnew : slot_ok (Frames s (push c now q).1 fl)).
  { destruct smooth; cbn; (split_and!; [by eexists|by intros [? ?]|exists (mapped c); by repeat constructor]). }
  assert (Hmarks : forall t, slot_marks t (Frames s (push c now q).1 fl) = mark_of t (MkClientSurfaceEvent s (Commit c)))
    by (intros t; destruct smooth; cbn; by destruct (bool_decide (s = t))).
  subst l. split.
  - destruct fl eqn:Hfl; [apply settled_snoc; [by apply collapse_settled|done]|].
    apply slots_ok_snoc; [done|done|]. intros r t Hr Hd. cbn. split; [|done]. intros ->.
    apply list_elem_of_split in Hr as (a & k & Ha). unfold doubled_surface in Hd.
    destruct r as [|t' m b]; [done|]. case_bool_decide as Hs; [|done]. injection Hd as ->.
    rewrite Ha in Hok. apply slots_ok_app in Hok as (_ & (_ & Hp & Hk) & _). cbn in Hp.
    rewrite bool_decide_true in Hp by done. specialize (Hp t eq_refl).
    subst fl. rewrite Ha, (cons_middle (Frames t m b)), app_assoc in Hfl, Hnone.
    rewrite scan_passes, scan_stops in Hfl, Hnone by (try done; by apply slots_ok_Forall). cbn in Hfl, Hnone.
    specialize (Hnone Hfl). case_bool_decide; [done|]. by rewrite orb_true_l in Hfl.
  - intros t. rewrite waiting_app, waiting_one, Hmarks. apply keeps_app; [|apply keeps_refl].
    destruct fl; [by apply collapse_keeps|apply keeps_refl].
Qed.

Lemma commit_pushes s c now i :
  slots_ok (pending i) -> pushed_well i (commit s c now i) (MkClientSurfaceEvent s (Commit c)).
Proof.
  intros Hok. unfold commit. destruct (plan_slots s (KCommit (mapped c)) (pending i)) as [[index|] fl] eqn:Hplan; cbn.
  2: { pose proof (commit_new s c now i (intervals i !! ClientSurfaceId_source s) Hok) as Hnew.
       rewrite Hplan in Hnew. cbn in Hnew. by apply Hnew. }
  apply scan_found in Hplan as (a & q & k & Hl & -> & Hk & Hn); [|by apply slots_ok_Forall].
  unfold pushed_well. rewrite Hl in *. rewrite list_lookup_middle by done.
  set (c' := match newest q with Some previous => carry_unobserved_content_from previous c | None => c end).
  assert (Hrev : revision c' = revision c) by (unfold c'; by destruct (newest q)).
  pose proof Hok as (Ha & (Hq & Hd & Hk') & Hak)%slots_ok_app.
  destruct Hq as (Hf & Hm & w & Hw).
  assert (Hmap : mapped c' = mapped c) by (unfold c'; by destruct (newest q)).
  assert (Hall : all_map (mapped c') q) by (rewrite Hmap, <- Hn; by eapply newest_maps).
  destruct (enqueue_keeps c' now q Hf Hm Hall) as (Hkeep & Hf' & Hm' & Hall').
  unfold commit_mark in Hkeep. rewrite Hrev, Hmap in Hkeep.
  assert (Hmark : forall t b, keeps (slot_marks t (Frames s (enqueue_commit c' now q) b))
    (slot_marks t (Frames s q fl) ++ mark_of t (MkClientSurfaceEvent s (Commit c)))).
  { intros t b. cbn. case_bool_decide; [done|apply keeps_refl]. }
  assert (Hquiet : forall t, t = s -> waiting_marks t k = []) by (intros t ->; by apply passive_waiting).
  assert (Hswap : forall t, waiting_marks t k ++ mark_of t (MkClientSurfaceEvent s (Commit c)) =
                            mark_of t (MkClientSurfaceEvent s (Commit c)) ++ waiting_marks t k).
  { intros t. cbn. destruct (decide (s = t)) as [<-|Ht]; [by rewrite Hquiet, app_nil_r|].
    by rewrite bool_decide_false, app_nil_r. }
  assert (Hnew : forall b, slot_ok (Frames s (enqueue_commit c' now q) b)) by (intros b; split_and!; [done..|by eexists]).
  destruct fl; cbn.
  - rewrite insert_app_r_alt, Nat.sub_diag by lia. cbn. split.
    + apply slots_ok_app. split_and!; [done| |].
      * split; [apply (Hnew true)|split; [|done]]. intros t. cbn. case_bool_decide; [|done]. by intros [= <-].
      * intros r t Hr Hd'. specialize (Hak r t Hr Hd'). apply Forall_cons_1 in Hak as [Hp Hak].
        constructor; [|done]. by destruct Hp.
    + intros t. rewrite !waiting_app, !waiting_cons, <- !app_assoc, Hswap.
      apply keeps_app; [apply keeps_refl|]. rewrite (app_assoc (slot_marks t (Frames s q true))).
      apply keeps_app; [apply Hmark|apply keeps_refl].
  - rewrite delete_middle. split.
    + apply slots_ok_snoc; [apply slots_ok_app; split_and!; [done|done|]|apply (Hnew false)|].
      * intros r t Hr Hd'. specialize (Hak r t Hr Hd'). by apply Forall_cons_1 in Hak as [_ Hak].
      * intros r t [Hr|Hr]%elem_of_app Hd'.
        -- specialize (Hak r t Hr Hd'). apply Forall_cons_1 in Hak as [[Hs _] _]. by split.
        -- pose proof (proj1 (list.Forall_forall _ _) Hk r Hr) as Hp. destruct r as [|t' m b]; [done|].
           cbn in Hd', Hp. case_bool_decide; [|done]. injection Hd' as ->. split; [|done].
           intros ->. by destruct Hp.
    + intros t. rewrite !waiting_app, waiting_one, waiting_cons, <- !app_assoc.
      apply keeps_app; [apply keeps_refl|]. rewrite Hswap.
      destruct (decide (t = s)) as [->|Ht].
      * rewrite Hquiet by done. rewrite app_nil_r. cbn [app]. apply Hmark.
      * cbn. rewrite !bool_decide_false by congruence. rewrite app_nil_r. apply keeps_refl.
Qed.

Lemma push_pushes e now i : slots_ok (pending i) -> pushed_well i (push_at e now i).1 e.
Proof.
  intros Hok. unfold push_at. destruct (demand e i) as [m d]. cbn.
  assert (Hcontrol : is_control (Kind_of (event_kind e)) = true ->
    pushed_well i (set_pending (collapse_history (pending i) ++ [Event e]) (MkInbox m (pending i) (intervals i) (completed i))) e).
  { intros He. pose proof (slots_ok_Forall _ Hok) as Hall. split; cbn.
    - apply settled_snoc; [by apply collapse_settled|]. cbn. intros c Hc. by rewrite Hc in He.
    - intros s. rewrite waiting_app, waiting_one. by apply keeps_app; [apply collapse_keeps|apply keeps_refl]. }
  destruct e as [s k]. cbn in *. destruct k as [| c | | | |l]; try by apply Hcontrol.
  - by apply (commit_pushes s c now (MkInbox m (pending i) (intervals i) (completed i))).
  - destruct (replacement (plan_slots s KMetadata (pending i))) as [index|] eqn:Hrep; cbn.
    + assert (Hdel : exists a r b, pending i = a ++ r :: b /\ index = length a /\
        (forall t, slot_marks t r = [])).
      { unfold plan_slots, plan in Hrep. revert Hrep. clear. induction (pending i) as [|r l IH] using rev_ind; [done|].
        rewrite fmap_app. change (slot_record <$> [r]) with [slot_record r].
        rewrite newest_first_snoc, length_fmap. cbn. intros Hrep. destruct r as [e|t q b].
        - cbn in Hrep. destruct (_ && is_metadata (Kind_of (event_kind e))) eqn:Hmeta.
          + injection Hrep as <-. exists l, (Event e), []. split_and!; [done..|]. intros t. cbn. unfold mark_of.
            apply andb_prop in Hmeta as [_ Hmeta]. by destruct (event_kind e).
          + destruct (is_control _); [done|]. destruct (IH Hrep) as (a & r & b & -> & -> & Hr).
            exists a, r, (b ++ [Event e]). by rewrite <- app_assoc.
        - cbn in Hrep. rewrite andb_false_r in Hrep. destruct b; [done|]. cbn in Hrep.
          destruct (IH Hrep) as (a & r & b & -> & -> & Hr). exists a, r, (b ++ [Frames t q false]).
          by rewrite <- app_assoc. }
      destruct Hdel as (a & r & b & Hl & -> & Hr). rewrite Hl in *. split; cbn.
      * apply slots_ok_app in Hok as (Ha & (_ & _ & Hb) & Hab). rewrite delete_middle.
        apply slots_ok_snoc; [apply slots_ok_app; split_and!; [done|done|]|done|done].
        intros r' t Hr' Hd. specialize (Hab r' t Hr' Hd). by apply Forall_cons_1 in Hab as [_ Hab].
      * intros t. rewrite Hl, delete_middle, !waiting_app, waiting_one, waiting_cons, Hr. apply keeps_refl.
    + split; cbn.
      * by apply slots_ok_snoc.
      * intros t. rewrite waiting_app, waiting_one. apply keeps_refl.
Qed.

(** *** Drains *)
Lemma keeps_nil x : keeps x [] -> x = [].
Proof. unfold keeps. intros [|(y & Hy & _)]%rtc_inv; [done|]. inversion Hy as [? ? ? u ? E]. by destruct u. Qed.

Lemma marks_cons s e es : marks s (e :: es) = mark_of s e ++ marks s es.
Proof. done. Qed.
#[local] Arguments marks : simpl never.

Lemma drain_slots now i l back :
  slots_ok l -> pending i = l ++ back ->
  exists k, pending (pops (length l) now i).1 = back ++ k /\ settled k /\
    forall s, keeps (marks s (pops (length l) now i).2 ++ waiting_marks s k) (waiting_marks s l).
Proof.
  revert i back. induction l as [|r l IH]; intros i back Hok Hp.
  { exists []. rewrite app_nil_r. split_and!; [done|constructor|]. intros s. apply keeps_refl. }
  destruct Hok as (Hr & Hd & Hok). cbn. unfold pop_at. rewrite Hp. cbn.
  destruct r as [e|t q b]; cbn.
  - destruct (IH (set_pending (l ++ back) i) back Hok eq_refl) as (k & Hk & Hs & Hkeep).
    destruct (pops (length l) now (set_pending (l ++ back) i)) as [i' out]. cbn in *.
    exists k. split_and!; [done|done|]. intros s. rewrite marks_cons, waiting_cons, <- app_assoc.
    apply keeps_app; [apply keeps_refl|apply Hkeep].
  - destruct Hr as (Hf & _ & m & Hm). destruct (pop_keeps now m q Hf Hm) as (c & Hc & Hkeep & Hsec & Hfirst & Hm').
    destruct (pop now q) as [q' [[item age] dropped]]. cbn in *. subst item. unfold is_empty.
    destruct (first q') as [p|] eqn:Hq'; rewrite ?bool_decide_true by (by eexists); cbn.
    + destruct Hfirst as [?|Hq]; [done|].
      assert (Hpass : Forall (passive t) l) by (apply Hd; by rewrite bool_decide_true).
      destruct (IH (set_pending ((l ++ back) ++ [Frames t q' b]) i) (back ++ [Frames t q' b]) Hok
        ltac:(cbn; by rewrite app_assoc)) as (k & Hk & Hs & Hkeep').
      destruct (pops (length l) now _) as [i' out]. cbn in *.
      exists (Frames t q' b :: k). split_and!; [by rewrite Hk, <- app_assoc| |].
      { constructor; [|done]. cbn. rewrite Hsec, Hq'. split; [|done]. split_and!; [by eexists|by intros [? ?]|by exists m]. }
      intros s. rewrite marks_cons, !waiting_cons, <- app_assoc. cbn. specialize (Hkeep' s).
      destruct (decide (t = s)) as [<-|Ht].
      * rewrite bool_decide_true by done. rewrite (passive_waiting t l) in Hkeep' by done.
        apply keeps_nil, app_eq_nil in Hkeep' as [-> ->].
        rewrite (passive_waiting t l) by done. rewrite !app_nil_r. exact Hkeep.
      * rewrite bool_decide_false by done. exact Hkeep'.
    + set (i0 := MkInbox _ (l ++ back) _ _).
      destruct (IH i0 back Hok eq_refl) as (k & Hk & Hs & Hkeep').
      destruct (pops (length l) now i0) as [i' out]. cbn in *.
      exists k. split_and!; [done|done|]. intros s. rewrite marks_cons, waiting_cons, <- app_assoc.
      apply keeps_app; [|apply Hkeep']. cbn. destruct (bool_decide (t = s)); [|apply keeps_refl].
      unfold held, revisions in Hkeep. by rewrite Hq', Hsec in Hkeep.
Qed.

Lemma settled_drain now l i :
  settled l -> pending i = l -> pending (drain_ready now i).1 = [].
Proof.
  intros Hl Hp. unfold drain_ready. rewrite Hp. revert i Hp. induction Hl as [|r l [Hr Hd] _ IH]; intros i Hp; [done|].
  cbn. unfold pop_at. rewrite Hp. destruct r as [e|t q b]; cbn.
  - specialize (IH (set_pending l i) eq_refl). by destruct (pops _ _ _).
  - cbn in Hd. destruct Hr as (Hf & _ & m & Hm). destruct (pop_keeps now m q Hf Hm) as (c & Hc & _ & Hsec & Hfirst & _).
    destruct (pop now q) as [q' [[item age] dropped]]. cbn in *. subst item. unfold is_empty.
    destruct Hfirst as [Hfirst|Hq]; [|by rewrite bool_decide_true in Hd]. rewrite Hfirst.
    cbn. set (i0 := MkInbox _ l _ _).
    specialize (IH i0 eq_refl). by destruct (pops _ _ _).
Qed.

(** *** Runs *)
Inductive presenter_step : ClientPresentationInbox B * list (ClientSurfaceEvent B) * list (ClientSurfaceEvent B) ->
    ClientPresentationInbox B * list (ClientSurfaceEvent B) * list (ClientSurfaceEvent B) -> Prop :=
  | presenter_push e now i pushed out :
      presenter_step (i, pushed, out) ((push_at e now i).1, pushed ++ [e], out)
  | presenter_drain now i pushed out :
      presenter_step (i, pushed, out) ((drain_ready now i).1, pushed, out ++ (drain_ready now i).2)
  | presenter_smooth source interval i pushed out :
      presenter_step (i, pushed, out) (smooth_source source interval i, pushed, out)
  | presenter_interval interval i pushed out :
      presenter_step (i, pushed, out) (set_interval interval i, pushed, out).

Definition presenter_ok (st : ClientPresentationInbox B * list (ClientSurfaceEvent B) * list (ClientSurfaceEvent B)) : Prop :=
  slots_ok (pending st.1.1) /\
  forall s, keeps (marks s st.2 ++ waiting_marks s (pending st.1.1)) (marks s st.1.2).

(** Changes of the age limits leave what the mailboxes hold. *)
Lemma map_frames_ok (f : ClientSurfaceId -> PresentationMailbox (ClientSurfaceState B) -> PresentationMailbox (ClientSurfaceState B)) l :
  (forall s q, first (f s q) = first q /\ second (f s q) = second q /\
     (is_Some (maximum_age q) -> is_Some (maximum_age (f s q)))) ->
  slots_ok l -> slots_ok (map_frames f l) /\ forall s, waiting_marks s (map_frames f l) = waiting_marks s l.
Proof.
  intros Hf Hok. unfold map_frames.
  assert (Hpass : forall s k, Forall (passive s) k ->
    Forall (passive s) ((fun r => match r with Event e => Event e | Frames s q b => Frames s (f s q) b end) <$> k)).
  { intros s k Hk. apply list.Forall_fmap. revert Hk. apply Forall_impl. by intros [e|t q b]. }
  induction l as [|r l IH]; [done|]. destruct Hok as (Hr & Hd & Hok). destruct (IH Hok) as [IHok IHm].
  destruct r as [e|t q b]; cbn.
  - split; [done|]. intros s. rewrite !waiting_cons. f_equal. apply IHm.
  - destruct (Hf t q) as (H1 & H2 & H3). rewrite H1, H2. split.
    + split_and!; [apply Hr| | |intros s Hs; by apply Hpass, Hd|done]; [intros Hs; by apply H3, Hr|]. unfold all_map, held. rewrite H1, H2. apply Hr.
    + intros s. rewrite !waiting_cons. f_equal; [|apply IHm]. cbn. unfold held. by rewrite H1, H2.
Qed.

Lemma presenter_step_ok st st' : presenter_step st st' -> presenter_ok st -> presenter_ok st'.
Proof.
  intros [e now i pushed out|now i pushed out|source interval i pushed out|interval i pushed out] [Hok Hk]; cbn in *.
  - destruct (push_pushes e now i Hok) as [Hok' Hk']. split; [done|]. intros s. cbn.
    rewrite marks_app. eapply keeps_trans; [apply keeps_app; [apply keeps_refl|apply Hk']|].
    rewrite app_assoc. replace (marks s [e]) with (mark_of s e) by (by rewrite marks_cons, app_nil_r).
    by apply keeps_app; [|apply keeps_refl].
  - destruct (drain_slots now i (pending i) [] Hok ltac:(by rewrite app_nil_r)) as (k & Hp & Hs & Hk').
    unfold drain_ready. split; cbn; rewrite Hp; [by apply settled_ok|]. intros s.
    rewrite marks_app, <- app_assoc. eapply keeps_trans; [apply keeps_app; [apply keeps_refl|apply Hk']|apply Hk].
  - destruct (map_frames_ok (fun s q => if bool_decide (ClientSurfaceId_source s = source)
      then enable_smoothing interval q else q) (pending i)) as [Hok' Hm]; [|exact Hok|].
    { intros s q. case_bool_decide; [|done]. split_and!; try done; intros _; by eexists. }
    split; [done|]. intros s. cbn. rewrite Hm. apply Hk.
  - destruct (map_frames_ok (fun _ q => Mailbox.set_interval interval q) (pending i)) as [Hok' Hm]; [|exact Hok|].
    { intros s q. unfold Mailbox.set_interval. destruct (maximum_age q) eqn:Hq; [|by rewrite Hq].
      split_and!; try done; intros _; by eexists. }
    split; [done|]. intros s. cbn. rewrite Hm. apply Hk.
Qed.

Lemma presenter_steps_ok st st' : rtc presenter_step st st' -> presenter_ok st -> presenter_ok st'.
Proof. induction 1; eauto using presenter_step_ok. Qed.
End Smoothed.

(** C23 (inbox-smoothing). A presenter that drains the inbox at its opportunities, with
    smoothing switched on and changed at any time, shows the commits of a surface in the
    order they came, among the controls. A commit is left out only if the next one that came
    supersedes it: both map the surface or neither does, and no control came between. So no
    older commit reappears after a newer one or after a control, the last commit before each
    control, before each change of the mapping and of all is never lost, and of what came
    before a control nothing is shown after it. Two opportunities later nothing waits. *)
Theorem inbox_keeps_order (B : Type) (i : ClientPresentationInbox B) (pushed out : list (ClientSurfaceEvent B)) :
  rtc presenter_step (Inbox_default, [], []) (i, pushed, out) ->
  (forall s, keeps (marks s out ++ waiting_marks s (pending i)) (marks s pushed) /\
     list.last (marks s out ++ waiting_marks s (pending i)) = list.last (marks s pushed) /\
     forall before e after, marks s pushed = before ++ Control e :: after ->
       exists a b, marks s out ++ waiting_marks s (pending i) = a ++ Control e :: b /\ keeps a before /\ keeps b after) /\
  forall t1 t2, pending (drain_ready t2 (drain_ready t1 i).1).1 = [].
Proof.
  intros Hrun. apply presenter_steps_ok in Hrun as [Hok Hk].
  2: { split; [done|]. intros s. apply keeps_refl. }
  split.
  { intros s. split_and!; [apply Hk|by apply keeps_last|]. intros before e after Hs. apply keeps_control. rewrite <- Hs. apply Hk. }
  intros t1 t2. cbn in Hok.
  destruct (drain_slots t1 i (pending i) [] Hok ltac:(by rewrite app_nil_r)) as (k & Hp & Hs & _).
  by eapply settled_drain.
Qed.

(** ** Concrete inputs *)
Definition sample_event (n rev : Z) (m : bool) : ClientSurfaceEvent Z := (sample_commit n rev m []).2.
Definition shown_revisions (es : list (ClientSurfaceEvent Z)) : list Z :=
  (fun e => match event_kind e with Commit c => revision c | _ => 0 end) <$> es.
Definition smooth_inbox : ClientPresentationInbox Z :=
  smooth_source (MkClientSourceId 0) (from_millis 11) Inbox_default.
Definition push_list (es : list (ClientSurfaceEvent Z)) (i : ClientPresentationInbox Z) : ClientPresentationInbox Z :=
  foldl (fun i e => (push_at e 0 i).1) i es.

(** One opportunity shows one of two waiting commits, the next one the other. *)
Example smoothing_sample :
  let i := push_list [sample_event 1 1 true; sample_event 1 2 true] smooth_inbox in
  shown_revisions (drain_ready 0 i).2 = [1] /\
  shown_revisions (drain_ready 5 (drain_ready 0 i).1).2 = [2].
Proof. vm_compute. by split. Qed.

(** Taking records one at a time with [pop_front] and pushing in between is not a drain:
    a mailbox with a mapping barrier moves behind a mailbox that still holds two commits,
    the next commit of that surface gets a mailbox of its own, and revision 2 of surface 1
    comes out after revision 3. *)
Example partial_pop_reorders :
  let i := push_list [sample_event 2 1 false; sample_event 2 2 false;
                      sample_event 1 1 true; sample_event 1 2 true] smooth_inbox in
  let i := push_list [sample_event 1 3 true] (pop_at 0 i).1 in
  shown_revisions (pops 4 0 i).2 = [1; 2; 3; 2].
Proof. vm_compute. reflexivity. Qed.

Lemma push_list_steps es i pushed out :
  rtc presenter_step (i, pushed, out) (push_list es i, pushed ++ es, out).
Proof.
  revert i pushed. induction es as [|e es IH]; intros i pushed; [rewrite app_nil_r; apply rtc_refl|].
  replace (pushed ++ e :: es) with ((pushed ++ [e]) ++ es) by (by rewrite <- app_assoc).
  eapply rtc_l; [apply (presenter_push e 0)|]. apply IH.
Qed.

(** Two commits, a role, and one commit that unmaps: the role keeps only the second. *)
Definition inbox_events : list (ClientSurfaceEvent Z) :=
  [sample_event 1 1 true; sample_event 1 2 true; MkClientSurfaceEvent (sample_surface 1) (Interaction InteractionMove); sample_event 1 3 false].
Definition inbox_after : ClientPresentationInbox Z := push_list inbox_events smooth_inbox.
Lemma inbox_keeps_order_witness :
  waiting_marks (sample_surface 1) (pending inbox_after) =
    [Shown 2 true; Control (MkClientSurfaceEvent (sample_surface 1) (Interaction InteractionMove)); Shown 3 false] /\
  keeps (marks (sample_surface 1) [] ++ waiting_marks (sample_surface 1) (pending inbox_after))
    (marks (sample_surface 1) inbox_events).
Proof.
  split; [vm_compute; reflexivity|].
  refine (proj1 (proj1 (inbox_keeps_order Z inbox_after inbox_events [] _) (sample_surface 1))).
  eapply rtc_l; [apply (presenter_smooth (MkClientSourceId 0) (from_millis 11))|].
  apply (push_list_steps inbox_events smooth_inbox []).
Defined.
