(* ===== verification/Access.v ===== *)
(** * Access sessions ([weld-access/src/lib.rs])

    One authority admits sessions and revokes them. A session is shared by its holders
    through a reference count; the authority keeps weak references only. Cells are
    addressed by the session's identity, which is fresh for each, and the last release of
    a cell clears [held]. Operations under the registry's lock are atomic. *)

From S2P Require Import Prelude OrdMap.

Definition MAX_SESSIONS : nat := 256.

(** ** Labels

    [validate_participant]: text of at most 160 bytes without control characters. Strings
    are their UTF-8 bytes; [char::is_control] holds of U+0000 to U+001F, U+007F and U+0080
    to U+009F, the last of which are the two-byte sequences C2 80 to C2 9F. *)
Fixpoint has_control (s : string) : bool :=
  match s with
  | EmptyString => false
  | String c rest =>
      let b := Z.of_N (Ascii.N_of_ascii c) in
      (b <? 32) || (b =? 127)
      || ((b =? 194) && match rest with
                        | String d _ => Z.of_N (Ascii.N_of_ascii d) <? 160
                        | EmptyString => false
                        end)
      || has_control rest
  end.
Definition valid_label (limit : nat) (s : string) : bool :=
  negb (bool_decide (s = EmptyString)) && bool_decide (String.length s <= limit)%nat && negb (has_control s).
Definition validate_participant (participant : string) : outcome unit :=
  ensure (valid_label 160 participant) "invalid access participant".

(** ** State *)
Record Session := MkSession { participant : string; authorized : bool; held : bool }.
Record Registry := MkRegistry {
  accepting : bool;
  blocked_participants : gset string;
  sessions : gset Z;
  next : option Z;
}.
(** [alive] while a handle of the authority exists; [notified] counts the calls of the
    notification callback. *)
Record AccessAuthority := MkAuthority {
  registry : Registry;
  store : gmap Z Session;
  alive : bool;
  notified : Z;
}.

(** [AccessAuthority::new] *)
Definition authority_new : AccessAuthority :=
  MkAuthority (MkRegistry true ∅ ∅ (Some 1)) ∅ true 0.

Definition set_registry (r : Registry) (a : AccessAuthority) : AccessAuthority :=
  MkAuthority r (store a) (alive a) (notified a).
Definition set_store (m : gmap Z Session) (a : AccessAuthority) : AccessAuthority :=
  MkAuthority (registry a) m (alive a) (notified a).
Definition notify (a : AccessAuthority) : AccessAuthority :=
  MkAuthority (registry a) (store a) (alive a) (notified a + 1).

(** A weak reference upgrades while the cell is held. *)
Definition upgrade (a : AccessAuthority) (id : Z) : option Session :=
  match store a !! id with
  | Some c => if held c then Some c else None
  | None => None
  end.
Definition unauthorize (c : Session) : Session := MkSession (participant c) false (held c).

(** [AccessSession::is_authorized] and [end]. *)
Definition is_authorized (id : Z) (a : AccessAuthority) : bool :=
  is_some_and (store a !! id) authorized.
Definition end_session (id : Z) (a : AccessAuthority) : AccessAuthority :=
  set_store (alter unauthorize id (store a)) a.
(** The last clone of a session is dropped. *)
Definition release (id : Z) (a : AccessAuthority) : AccessAuthority :=
  set_store (alter (fun c => MkSession (participant c) (authorized c) false) id (store a)) a.

(** [AccessAuthority::open]: dead sessions are pruned before the capacity check. *)
Definition open (p : string) (a : AccessAuthority) : AccessAuthority * outcome Z :=
  match validate_participant p with
  | Ret _ =>
      let r := registry a in
      if accepting r && negb (bool_decide (p ∈ blocked_participants r)) then
        let live := filter (fun id => is_Some (upgrade a id)) (sessions r) in
        let r := MkRegistry (accepting r) (blocked_participants r) live (next r) in
        if bool_decide (size live < MAX_SESSIONS)%nat then
          match next r with
          | Some raw =>
              (MkAuthority
                 (MkRegistry (accepting r) (blocked_participants r) ({[raw]} ∪ live) (checked_add raw 1))
                 (<[raw := MkSession p true true]> (store a)) (alive a) (notified a), Ret raw)
          | None => (set_registry r a, Fail (ErrMsg "access session identities exhausted"))
          end
        else (set_registry r a, Fail (ErrMsg "access session capacity reached"))
      else (a, Fail (ErrMsg "access revoked; explicit local authorization is required"))
  | Fail e => (a, Fail e)
  | Panic => (a, Panic)
  end.

(** [AccessAuthority::status]: the live sessions, both lists in the order of their trees. *)
Definition status (a : AccessAuthority) : bool * list string * list (Z * string * bool) :=
  (accepting (registry a),
   merge_sort (fun p q : string => Is_true (String.leb p q)) (elements (blocked_participants (registry a))),
   omap (fun id => (fun c => (id, participant c, authorized c)) <$> upgrade a id)
     (merge_sort Z.le (elements (sessions (registry a))))).

(** [AccessAuthority::revoke] *)
Definition revoke (id : Z) (a : AccessAuthority) : AccessAuthority * outcome unit :=
  let r := registry a in
  match (if bool_decide (id ∈ sessions r) then upgrade a id else None) with
  | Some c =>
      (notify (end_session id
         (set_registry (MkRegistry (accepting r) ({[participant c]} ∪ blocked_participants r) (sessions r) (next r)) a)),
       Ret tt)
  | None => (a, Fail (ErrMsg "access session unavailable"))
  end.

(** Every registered session that is still held loses its permit. *)
Definition unauthorize_registered (a : AccessAuthority) : AccessAuthority :=
  set_store (map_imap (fun id c => Some (if bool_decide (id ∈ sessions (registry a)) && held c then unauthorize c else c))
               (store a)) a.
(** [AccessAuthority::revoke_all] *)
Definition revoke_all (a : AccessAuthority) : AccessAuthority :=
  let r := registry a in
  notify (unauthorize_registered (set_registry (MkRegistry false ∅ (sessions r) (next r)) a)).
(** [AccessAuthority::allow_new_sessions] *)
Definition allow_new_sessions (a : AccessAuthority) : AccessAuthority :=
  let r := registry a in
  set_registry (MkRegistry true ∅ (sessions r) (next r)) a.
(** [Drop for Registry], when the last handle of the authority goes. *)
Definition teardown (a : AccessAuthority) : AccessAuthority :=
  let a := unauthorize_registered a in MkAuthority (registry a) (store a) false (notified a).

(** ** Histories *)
Inductive access_operation :=
  | Open (p : string)
  | Revoke (id : Z)
  | RevokeAll
  | Allow
  | End (id : Z)
  | Release (id : Z)
  | Teardown.
(** Operations of the authority need a handle of it; the permits outlive it. *)
Definition access_step (a : AccessAuthority) (o : access_operation) : AccessAuthority :=
  match o with
  | End id => end_session id a
  | Release id => release id a
  | _ =>
      if alive a then
        match o with
        | Open p => (open p a).1
        | Revoke id => (revoke id a).1
        | RevokeAll => revoke_all a
        | Allow => allow_new_sessions a
        | _ => teardown a
        end
      else a
  end.
Definition access_run (a : AccessAuthority) (os : list access_operation) : AccessAuthority :=
  foldl access_step a os.

(** ** Invariant *)
Record Authority_ok (a : AccessAuthority) : Prop := {
  fresh_ids : match next (registry a) with
              | Some n => 1 <= n <= u64_max /\ forall id, is_Some (store a !! id) -> 1 <= id < n
              | None => forall id, is_Some (store a !! id) -> 1 <= id <= u64_max
              end;
  held_registered : forall id, is_Some (upgrade a id) -> id ∈ sessions (registry a);
  capacity : (size (filter (fun id => is_Some (upgrade a id)) (sessions (registry a))) <= MAX_SESSIONS)%nat;
  closed_unauthorized : accepting (registry a) = false \/ alive a = false ->
    forall id c, upgrade a id = Some c -> authorized c = false;
}.

Lemma upgrade_Some a id c : upgrade a id = Some c <-> store a !! id = Some c /\ held c = true.
Proof.
  unfold upgrade. split; [|by intros [-> ->]].
  destruct (store a !! id) as [d|]; [|done]. destruct (held d) eqn:Hd; [|done]. by intros [= <-].
Qed.

Lemma end_lookup a id i : store (end_session id a) !! i = (if bool_decide (i = id) then unauthorize else fun c => c) <$> store a !! i.
Proof.
  cbn. case_bool_decide as H; [subst; apply lookup_alter_eq|].
  rewrite lookup_alter_ne by done. by destruct (store a !! i).
Qed.
Lemma release_lookup a id i :
  store (release id a) !! i =
    (fun c => if bool_decide (i = id) then MkSession (participant c) (authorized c) false else c) <$> store a !! i.
Proof.
  cbn. case_bool_decide as H; [subst; apply lookup_alter_eq|].
  rewrite lookup_alter_ne by done. by destruct (store a !! i).
Qed.
Lemma unauthorize_lookup a i :
  store (unauthorize_registered a) !! i =
    (fun c => if bool_decide (i ∈ sessions (registry a)) && held c then unauthorize c else c) <$> store a !! i.
Proof. cbn. rewrite map_lookup_imap. by destruct (store a !! i). Qed.

(** Cells only change by losing the permit or the last holder. *)
Definition fades (c c' : Session) : Prop :=
  participant c' = participant c /\ (authorized c' = true -> authorized c = true) /\
  (held c' = true -> held c = true).
Lemma fades_refl c : fades c c.
Proof. by repeat split. Qed.
#[local] Hint Resolve fades_refl : core.
Lemma fades_unauthorize c : fades c (unauthorize c).
Proof. by repeat split. Qed.
Lemma fades_if (b : bool) c : fades c (if b then unauthorize c else c).
Proof. destruct b; [apply fades_unauthorize|apply fades_refl]. Qed.

Lemma faded_ok a a' f :
  registry a' = registry a -> alive a' = alive a ->
  (forall i, store a' !! i = f i <$> store a !! i) -> (forall i c, fades c (f i c)) ->
  Authority_ok a -> Authority_ok a'.
Proof.
  intros Hr Hl Hs Hf [H1 H2 H3 H4].
  assert (Hup : forall i, is_Some (upgrade a' i) -> is_Some (upgrade a i)).
  { intros i [c Hc]. apply upgrade_Some in Hc as [Hc Hh]. rewrite Hs in Hc.
    destruct (store a !! i) as [d|] eqn:Hd; [|done]. injection Hc as <-.
    exists d. apply upgrade_Some. split; [done|]. by apply (Hf i d). }
  constructor; rewrite ?Hr, ?Hl.
  - destruct (next (registry a)) as [n|].
    + destruct H1 as [Hn Hid]. split; [done|]. intros i. rewrite Hs, fmap_is_Some. apply Hid.
    + intros i. rewrite Hs, fmap_is_Some. apply H1.
  - intros i Hi. by apply H2, Hup.
  - etransitivity; [|exact H3]. apply subseteq_size. intros i. rewrite !elem_of_filter. naive_solver.
  - intros Hc i c Hi. apply upgrade_Some in Hi as [Hc' Hh]. rewrite Hs in Hc'.
    destruct (store a !! i) as [d|] eqn:Hd; [|done]. injection Hc' as <-.
    destruct (Hf i d) as (_ & Ha & Hh'). destruct (authorized (f i d)) eqn:Hau; [|done].
    rewrite <- (H4 Hc i d); [symmetry; by apply Ha|]. apply upgrade_Some. auto.
Qed.

Lemma end_ok id a : Authority_ok a -> Authority_ok (end_session id a).
Proof.
  apply (faded_ok _ _ (fun i => if bool_decide (i = id) then unauthorize else fun c => c)); try done.
  - intros i. apply end_lookup.
  - intros i c. by destruct (bool_decide (i = _)); [apply fades_unauthorize|].
Qed.
Lemma release_ok id a : Authority_ok a -> Authority_ok (release id a).
Proof.
  apply (faded_ok _ _ (fun i c => if bool_decide (i = id) then MkSession (participant c) (authorized c) false else c)); try done.
  - intros i. apply release_lookup.
  - intros i c. case_bool_decide; [|done]. split_and!; cbn; intros; done.
Qed.
Lemma unauthorize_ok a : Authority_ok a -> Authority_ok (unauthorize_registered a).
Proof.
  apply (faded_ok _ _ (fun i c => if bool_decide (i ∈ sessions (registry a)) && held c then unauthorize c else c)); try done.
  - apply unauthorize_lookup.
  - intros i c. apply fades_if.
Qed.
Lemma unauthorize_all a i c :
  Authority_ok a -> upgrade (unauthorize_registered a) i = Some c -> authorized c = false.
Proof.
  intros Hok Hc. apply upgrade_Some in Hc as [Hc Hh]. rewrite unauthorize_lookup in Hc.
  destruct (store a !! i) as [d|] eqn:Hd; [|done]. injection Hc as <-.
  destruct (held d) eqn:Hhd; [|by rewrite andb_false_r, Hhd in Hh].
  rewrite bool_decide_true; [done|]. apply (held_registered _ Hok). exists d. by apply upgrade_Some.
Qed.

(** Closing admission, with every held session unauthorized. *)
Lemma closed_ok a b blocked wakes l :
  Authority_ok a -> (forall i c, upgrade a i = Some c -> authorized c = false) ->
  Authority_ok (MkAuthority (MkRegistry b blocked (sessions (registry a)) (next (registry a))) (store a) l wakes).
Proof. intros [H1 H2 H3 H4] Hall. by constructor. Qed.

Lemma open_ok p a : Authority_ok a -> alive a = true -> Authority_ok (open p a).1.
Proof.
  intros Hok Hl. pose proof Hok as [H1 H2 H3 H4]. unfold open. destruct (validate_participant p); try done.
  destruct (accepting (registry a)) eqn:Hacc; [|done]. cbn. case_bool_decide; [done|]. cbn.
  set (live := filter _ (sessions (registry a))).
  assert (Hpruned : Authority_ok (set_registry (MkRegistry true (blocked_participants (registry a)) live (next (registry a))) a)).
  { constructor; cbn; [done| | |].
    - intros i Hi. apply elem_of_filter. auto.
    - etransitivity; [|exact H3]. apply subseteq_size. intros i. rewrite !elem_of_filter. naive_solver.
    - rewrite Hl. intros [?|?]; done. }
  case_bool_decide as Hcap; [|done]. destruct (next (registry a)) as [raw|] eqn:Hn; [|done]. cbn.
  destruct H1 as [Hraw Hids].
  assert (Hup : forall i, is_Some (upgrade (MkAuthority (registry a) (<[raw := MkSession p true true]> (store a)) (alive a) (notified a)) i) ->
                i = raw \/ is_Some (upgrade a i)).
  { intros i. unfold upgrade. cbn. destruct (decide (i = raw)) as [->|Hne]; [by left|].
    rewrite lookup_insert_ne by done. by right. }
  constructor; cbn.
  - unfold checked_add. destruct (checked u64_max (raw + 1)) as [n|] eqn:Hc.
    + apply checked_Some in Hc as [-> Hc]. split; [unfold is_u64 in *; lia|]. intros i.
      destruct (decide (i = raw)) as [->|Hne]; [lia|]. rewrite lookup_insert_ne by done.
      intros Hi%Hids. lia.
    + intros i. destruct (decide (i = raw)) as [->|Hne]; [lia|]. rewrite lookup_insert_ne by done.
      intros Hi%Hids. lia.
  - intros i [->|Hi]%Hup; [set_solver|]. apply elem_of_union_r, elem_of_filter. auto.
  - transitivity (size ({[raw]} ∪ live)).
    + apply subseteq_size. by intros i [_ Hi]%elem_of_filter.
    + rewrite size_union_alt, size_singleton. etransitivity; [|exact Hcap].
      apply le_n_S, subseteq_size. set_solver.
  - rewrite Hl. by intros [?|?].
Qed.

Lemma access_step_ok a o : Authority_ok a -> Authority_ok (access_step a o).
Proof.
  intros Hok. destruct o as [p|id| | |id|id|]; cbn; try (destruct (alive a) eqn:Hl; [|done]).
  - by apply open_ok.
  - unfold revoke. case_match eqn:Hc; [|done]. cbn. apply (end_ok id) in Hok. destruct Hok as [H1 H2 H3 H4].
    by constructor.
  - pose proof (unauthorize_ok _ Hok) as Hu.
    apply (closed_ok (unauthorize_registered a) false ∅ (notified a + 1) (alive a)) in Hu; [done|].
    intros i c. by apply unauthorize_all.
  - destruct Hok as [H1 H2 H3 H4]. constructor; cbn; try done. rewrite Hl. intros [?|?]; done.
  - by apply end_ok.
  - by apply release_ok.
  - pose proof (unauthorize_ok _ Hok) as Hu.
    apply (closed_ok (unauthorize_registered a) (accepting (registry a)) (blocked_participants (registry a)) (notified a) false) in Hu.
    + unfold teardown. by destruct a as [[]].
    + intros i c. by apply unauthorize_all.
Qed.
Lemma access_run_ok os a : Authority_ok a -> Authority_ok (access_run a os).
Proof. revert a. induction os as [|o os IH]; [done|]. intros a H. apply IH, access_step_ok, H. Qed.
Lemma authority_new_ok : Authority_ok authority_new.
Proof.
  assert (Hno : forall i, upgrade authority_new i = None) by (intros i; unfold upgrade; cbn; by rewrite lookup_empty).
  constructor; cbn.
  - split; [unfold u64_max; lia|]. intros i. rewrite lookup_empty. by intros [? ?].
  - intros i. rewrite Hno. by intros [? ?].
  - transitivity (size (∅ : gset Z)); [apply subseteq_size; set_solver|rewrite size_empty; lia].
  - intros _ i c. by rewrite Hno.
Qed.

(** ** Permits are not revived, and consent is needed after a revocation *)

(** What a participant needs explicit consent for. *)
Definition locked_out (p : string) (a : AccessAuthority) : Prop :=
  accepting (registry a) = false \/ p ∈ blocked_participants (registry a).

Lemma open_locked_out p a : locked_out p a -> is_ret (open p a).2 = false /\ (open p a).1 = a.
Proof.
  intros H. unfold open. destruct (validate_participant p); try done.
  destruct H as [->|H]; [done|]. rewrite (bool_decide_true _ H), andb_false_r. done.
Qed.

Lemma open_registry p a :
  accepting (registry (open p a).1) = accepting (registry a) /\
  blocked_participants (registry (open p a).1) = blocked_participants (registry a).
Proof.
  unfold open. destruct (validate_participant p); try done. destruct (_ && _); [|done]. cbn.
  destruct (bool_decide _); [|done]. by destruct (next _).
Qed.

Lemma locked_out_step p a o : o <> Allow -> locked_out p a -> locked_out p (access_step a o).
Proof.
  intros Ho Hp. unfold locked_out in *. destruct o as [q|id| | |id|id|]; cbn; try done; destruct (alive a); try done.
  - by destruct (open_registry q a) as [-> ->].
  - unfold revoke. case_match; [|done]. cbn. destruct Hp; [by left|right; set_solver].
  - by left.
Qed.

Lemma open_store p a i :
  Authority_ok a -> is_Some (store a !! i) -> store (open p a).1 !! i = store a !! i.
Proof.
  intros Hok Hi. unfold open. destruct (validate_participant p); try done. destruct (_ && _); [|done]. cbn.
  destruct (bool_decide _); [|done]. destruct (next (registry a)) as [raw|] eqn:Hn; [|done]. cbn.
  destruct Hok as [H1 _ _ _]. rewrite Hn in H1. rewrite lookup_insert_ne; [done|].
  intros <-. destruct H1 as [_ H1]. specialize (H1 raw Hi). lia.
Qed.

Lemma fmap_fades (f : Session -> Session) a a' i c :
  store a !! i = Some c -> store a' !! i = f <$> store a !! i -> fades c (f c) ->
  exists c', store a' !! i = Some c' /\ fades c c'.
Proof. intros Hc Ha Hf. rewrite Hc in Ha. eauto. Qed.

Lemma step_fades a o i c :
  Authority_ok a -> store a !! i = Some c -> exists c', store (access_step a o) !! i = Some c' /\ fades c c'.
Proof.
  intros Hok Hc. assert (Hid : exists c', store a !! i = Some c' /\ fades c c') by eauto.
  destruct o as [q|id| | |id|id|]; unfold access_step; try (destruct (alive a); [|done]).
  - rewrite open_store by done. done.
  - unfold revoke. case_match; [|done]. cbn [fst notify].
    eapply (fmap_fades _ a _ i c Hc); [refine (end_lookup (set_registry _ a) id i)|].
    by destruct (bool_decide (i = id)); [apply fades_unauthorize|].
  - eapply (fmap_fades _ a _ i c Hc); [refine (unauthorize_lookup (set_registry _ a) i)|].
    apply fades_if.
  - done.
  - apply (fmap_fades _ a _ i c Hc (end_lookup a id i)). by destruct (bool_decide _); [apply fades_unauthorize|].
  - apply (fmap_fades _ a _ i c Hc (release_lookup a id i)). by destruct (bool_decide _).
  - apply (fmap_fades _ a _ i c Hc (unauthorize_lookup a i)). apply fades_if.
Qed.

Lemma run_fades os a i c :
  Authority_ok a -> store a !! i = Some c -> exists c', store (access_run a os) !! i = Some c' /\ fades c c'.
Proof.
  revert a c. induction os as [|o os IH]; intros a c Hok Hc; [by eauto|].
  destruct (step_fades a o i c Hok Hc) as (c1 & Hc1 & H1 & H2 & H3).
  destruct (IH _ c1 (access_step_ok _ o Hok) Hc1) as (c2 & Hc2 & H4 & H5 & H6).
  exists c2. split; [done|]. split_and!; [congruence|auto|auto].
Qed.

Lemma run_locked_out p os a : Allow ∉ os -> locked_out p a -> locked_out p (access_run a os).
Proof.
  revert a. induction os as [|o os IH]; [done|]. intros a Ho Hp. apply IH; [set_solver|].
  apply locked_out_step; [set_solver|done].
Qed.

Lemma run_unauthorized os a i c :
  Authority_ok a -> store a !! i = Some c -> authorized c = false -> is_authorized i (access_run a os) = false.
Proof.
  intros Hok Hc Hf. destruct (run_fades os a i c Hok Hc) as (c' & Hc' & _ & H2 & _).
  unfold is_authorized. rewrite Hc'. cbn. destruct (authorized c'); [|done]. by rewrite H2 in Hf.
Qed.
Lemma run_refused os a p : Allow ∉ os -> locked_out p a -> is_ret (open p (access_run a os)).2 = false.
Proof. intros Ho Hp. by apply open_locked_out, run_locked_out. Qed.

Lemma revoke_ok id a : Authority_ok a -> Authority_ok (revoke id a).1.
Proof.
  intros Hok. unfold revoke. case_match; [|done]. cbn. apply (end_ok id) in Hok. destruct Hok as [H1 H2 H3 H4].
  by constructor.
Qed.
Lemma revoke_all_ok a : Authority_ok a -> Authority_ok (revoke_all a).
Proof.
  intros Hok. apply (closed_ok (unauthorize_registered a) false ∅ (notified a + 1) (alive a)).
  - by apply unauthorize_ok.
  - intros i c. by apply unauthorize_all.
Qed.

(** Whatever happened before, revoking a session turns its permit
    off for good, and its participant opens no session until the local administrator
    allows new ones; revoking all turns every held permit off for good and locks everyone
    out in the same way. A retired permit is never revived, also not by consent or by a
    session of the same participant that is opened later. *)
Theorem access_revocation (before after : list access_operation) :
  let a := access_run authority_new before in
  (forall i c, store a !! i = Some c ->
     exists c', store (access_run a after) !! i = Some c' /\ participant c' = participant c /\
       (authorized c = false -> authorized c' = false)) /\
  (forall id c b, upgrade a id = Some c -> revoke id a = (b, Ret tt) ->
     is_authorized id (access_run b after) = false /\
     (Allow ∉ after -> is_ret (open (participant c) (access_run b after)).2 = false)) /\
  (forall id c, upgrade a id = Some c -> is_authorized id (access_run (revoke_all a) after) = false) /\
  (forall p, Allow ∉ after -> is_ret (open p (access_run (revoke_all a) after)).2 = false).
Proof.
  intros a. assert (Hok : Authority_ok a) by (apply access_run_ok, authority_new_ok).
  split_and!.
  - intros i c Hc. destruct (run_fades after a i c Hok Hc) as (c' & Hc' & H1 & H2 & H3).
    exists c'. split_and!; try done. intros Hf. destruct (authorized c'); [|done]. by rewrite H2 in Hf.
  - intros id c b Hc Hr. pose proof (revoke_ok id a Hok) as Hb. rewrite Hr in Hb. cbn in Hb.
    unfold revoke in Hr. rewrite Hc in Hr. destruct (bool_decide (id ∈ sessions (registry a))); [|done].
    injection Hr as <-. apply upgrade_Some in Hc as [Hs _]. split.
    + apply (run_unauthorized after _ id (unauthorize c) Hb); [|done].
      pose proof (end_lookup a id id) as He. rewrite bool_decide_true, Hs in He by done. exact He.
    + intros Ha. apply run_refused; [done|]. right. cbn. set_solver.
  - intros id c Hc. pose proof (held_registered a Hok id (ex_intro _ c Hc)) as Hreg.
    apply upgrade_Some in Hc as [Hs Hh].
    apply (run_unauthorized after _ id (unauthorize c) (revoke_all_ok a Hok)); [|done].
    pose proof (unauthorize_lookup a id) as He. rewrite Hs in He. cbn in He.
    rewrite bool_decide_true, Hh in He by done. exact He.
  - intros p Ha. apply run_refused; [done|]. by left.
Qed.

(** At every moment each held session is registered, at most
    [MAX_SESSIONS] are, and while admission is closed, or once the authority is gone, no
    held session has a permit. A participant that may open a session gets a fresh
    identity with its own permit, and no other permit changes; without room or consent the
    call fails and no cell changes. *)
Theorem access_sessions (os : list access_operation) (p : string) :
  let a := access_run authority_new os in
  (forall i, is_Some (upgrade a i) -> i ∈ sessions (registry a)) /\
  (size (filter (fun i => is_Some (upgrade a i)) (sessions (registry a))) <= MAX_SESSIONS)%nat /\
  (accepting (registry a) = false \/ alive a = false -> forall i c, upgrade a i = Some c -> authorized c = false) /\
  match open p a with
  | (b, Ret id) =>
      store a !! id = None /\ store b = <[id := MkSession p true true]> (store a) /\ ~ locked_out p a /\
      valid_label 160 p = true
  | (b, _) => store b = store a /\
      (valid_label 160 p = false \/ locked_out p a \/ next (registry a) = None \/
       size (filter (fun i => is_Some (upgrade a i)) (sessions (registry a))) = MAX_SESSIONS)
  end.
Proof.
  intros a. assert (Hok : Authority_ok a) by (apply access_run_ok, authority_new_ok).
  pose proof Hok as [H1 H2 H3 H4]. split_and!; [done..|].
  unfold open, validate_participant, ensure. destruct (valid_label 160 p) eqn:Hv; [|by split; [|left]].
  destruct (accepting (registry a)) eqn:Hacc; cbn; [|split; [done|]; right; left; by left].
  case_bool_decide as Hb; cbn; [split; [done|]; right; left; by right|].
  case_bool_decide as Hcap.
  - destruct (next (registry a)) as [raw|] eqn:Hn; cbn; [|by split; [|right; right; left]].
    split_and!; try done.
    + destruct (store a !! raw) as [c|] eqn:Hc; [|done].
      destruct H1 as [_ H1]. assert (Hs : is_Some (store a !! raw)) by eauto. specialize (H1 raw Hs). lia.
    + intros [?|?]; congruence.
  - split; [done|]. do 3 right. lia.
Qed.

(** ** Concrete inputs *)
Example access_sample :
  let a := access_run authority_new [Open "first"; Open "second"; Revoke 1] in
  is_authorized 1 a = false /\ is_authorized 2 a = true /\
  is_ret (open "first" a).2 = false /\ is_ret (open "second" a).2 = true.
Proof. vm_compute. by split_and!. Qed.
