(* ===== verification/Admission.v ===== *)
(** * Hand-over of authenticated connections ([weld-hoist-core/src/session/admission.rs])

    Listeners hand authenticated connections to the host's relay through a queue of at
    most 8. A connection is a permit of the access authority and a transport connection;
    the transport is an interface. Whoever gives a connection up ends its permit and
    closes its transport. *)

From S2P Require Import Prelude OrdMap Ids Framing Access.

(** ** Connections

    [ConnectionControl] of [weld-session]: shared lifecycle control supplied by a
    transport. [close] disconnects the connection it is called on. *)
Class ConnectionControl (L : Type) := {
  is_connected : Z -> L -> bool;
  close : Z -> L -> L;
  close_spec : forall c d l, is_connected d (close c l) = is_connected d l && negb (bool_decide (d = c));
}.

(** The permits and the transports every holder of a connection shares. *)
Record World (L : Type) := MkWorld { permits : AccessAuthority; links : L }.
Arguments MkWorld {L} permits links.
Arguments permits {L} w : rename.
Arguments links {L} w : rename.

(** A record that owns a connection names its permit and its transport. *)
Class Connected (E : Type) := { access_of : E -> Z; connection_of : E -> Z }.

Section Connections.
Context {L : Type} `{ConnectionControl L} {E : Type} `{Connected E}.

(** [access.is_authorized() && connection.is_connected()] *)
Definition usable (e : E) (w : World L) : bool :=
  is_authorized (access_of e) (permits w) && is_connected (connection_of e) (links w).
(** [access.end(); connection.close();] *)
Definition retire (e : E) (w : World L) : World L :=
  MkWorld (end_session (access_of e) (permits w)) (close (connection_of e) (links w)).
Definition retire_all (es : list E) (w : World L) : World L := foldl (fun w e => retire e w) w es.

(** [Vec::retain] and [Iterator::filter] over owners of connections: an element that is
    not kept is retired before the next one is looked at. *)
Fixpoint retain (keep : E -> World L -> bool) (es : list E) (w : World L) : list E * World L :=
  match es with
  | [] => ([], w)
  | e :: es =>
      if keep e w then let '(kept, w') := retain keep es w in (e :: kept, w')
      else retain keep es (retire e w)
  end.

(** ** What can only get worse *)
Record World_ok (w : World L) : Prop := { permits_ok : Authority_ok (permits w) }.
(** Permits and transports that are gone stay gone. *)
Definition declines (w w' : World L) : Prop :=
  (forall i c, store (permits w) !! i = Some c -> exists c', store (permits w') !! i = Some c' /\ fades c c') /\
  (forall d, is_connected d (links w') = true -> is_connected d (links w) = true).
(** The permit exists, as that of any [AccessSession] value. *)
Definition issued (w : World L) (e : E) : Prop := is_Some (store (permits w) !! access_of e).
(** The permit is ended and the transport closed. *)
Definition retired (w : World L) (e : E) : Prop :=
  (exists c, store (permits w) !! access_of e = Some c /\ authorized c = false) /\
  is_connected (connection_of e) (links w) = false.

#[export] Instance declines_preorder : PreOrder declines.
Proof.
  split.
  - intros w. split; [|done]. intros i c Hc. exists c. auto using fades_refl.
  - intros w1 w2 w3 [H1 H2] [H3 H4]. split; [|auto]. intros i c Hc.
    destruct (H1 i c Hc) as (c' & Hc' & F1 & F2 & F3). destruct (H3 i c' Hc') as (d & Hd & G1 & G2 & G3).
    exists d. split; [done|]. split_and!; [congruence|auto|auto].
Qed.

Lemma declines_issued w w' e : declines w w' -> issued w e -> issued w' e.
Proof. intros [Hd _] [c Hc]. destruct (Hd _ _ Hc) as (c' & Hc' & _). by exists c'. Qed.
Lemma declines_retired w w' e : declines w w' -> retired w e -> retired w' e.
Proof.
  intros [Hd Hl] [(c & Hc & Ha) Hn]. destruct (Hd _ _ Hc) as (c' & Hc' & _ & Hf & _). split.
  - exists c'. split; [done|]. destruct (authorized c'); [|done]. by rewrite Hf in Ha.
  - destruct (is_connected _ (links w')) eqn:Hx; [|done]. by rewrite (Hl _ Hx) in Hn.
Qed.
Lemma declines_usable w w' e : declines w w' -> issued w e -> usable e w' = true -> usable e w = true.
Proof.
  intros [Hd Hl] [c Hc]. unfold usable, is_authorized. rewrite !andb_true_iff, Hc.
  destruct (Hd _ _ Hc) as (c' & -> & _ & Hf & _). cbn. intros [? ?]. split; auto.
Qed.
Lemma retired_unusable w e : retired w e -> usable e w = false.
Proof. intros [(c & Hc & Ha) Hn]. unfold usable, is_authorized. by rewrite Hc; cbn; rewrite Ha. Qed.

Lemma retire_declines e w : declines w (retire e w).
Proof.
  split; cbn [permits links retire].
  - intros i c Hc. rewrite end_lookup, Hc. eexists. split; [done|].
    destruct (bool_decide _); [apply fades_unauthorize|apply fades_refl].
  - intros d. rewrite close_spec. by destruct (is_connected d (links w)).
Qed.
Lemma retire_retired e w : issued w e -> retired (retire e w) e.
Proof.
  intros [c Hc]. split; cbn [permits links retire].
  - exists (unauthorize c). rewrite end_lookup, Hc, bool_decide_true by done. done.
  - rewrite close_spec, bool_decide_true by done. by rewrite andb_false_r.
Qed.
Lemma retire_world_ok e w : World_ok w -> World_ok (retire e w).
Proof. intros [Hw]. constructor. by apply end_ok. Qed.

Lemma retire_all_declines es w : declines w (retire_all es w).
Proof.
  revert w. induction es as [|e es IH]; intros w; [done|]. cbn.
  etransitivity; [apply retire_declines|apply IH].
Qed.
Lemma retire_all_ok es w : World_ok w -> World_ok (retire_all es w).
Proof. revert w. induction es as [|e es IH]; intros w Hw; [done|]. by apply IH, retire_world_ok. Qed.
Lemma retire_all_retired es w e : e ∈ es -> issued w e -> retired (retire_all es w) e.
Proof.
  revert w. induction es as [|x es IH]; intros w He Hi; [by apply not_elem_of_nil in He|]. cbn.
  apply elem_of_cons in He as [->|He].
  - eapply declines_retired; [apply retire_all_declines|]. by apply retire_retired.
  - apply IH; [done|]. eapply declines_issued; [apply retire_declines|done].
Qed.

(** A retain keeps a subsequence, and what it drops is retired. *)
Lemma retain_declines keep es w : declines w (retain keep es w).2.
Proof.
  revert w. induction es as [|e es IH]; intros w; [done|]. cbn. destruct (keep e w).
  - specialize (IH w). by destruct (retain keep es w).
  - etransitivity; [apply retire_declines|apply IH].
Qed.
Lemma retain_ok keep es w : World_ok w -> World_ok (retain keep es w).2.
Proof.
  revert w. induction es as [|e es IH]; intros w Hw; [done|]. cbn. destruct (keep e w).
  - specialize (IH w Hw). by destruct (retain keep es w).
  - by apply IH, retire_world_ok.
Qed.
Lemma retain_sublist keep es w : (retain keep es w).1 `sublist_of` es.
Proof.
  revert w. induction es as [|e es IH]; intros w; [done|]. cbn. destruct (keep e w).
  - specialize (IH w). destruct (retain keep es w). by apply sublist_skip.
  - by apply sublist_cons.
Qed.
Lemma retain_dropped keep es w e :
  e ∈ es -> issued w e -> e ∈ (retain keep es w).1 \/ retired (retain keep es w).2 e.
Proof.
  revert w. induction es as [|x es IH]; intros w He Hi; [by apply not_elem_of_nil in He|]. cbn.
  apply elem_of_cons in He as [->|He]; destruct (keep _ w) eqn:Hk.
  - destruct (retain keep es w). left. left.
  - right. eapply declines_retired; [apply retain_declines|]. by apply retire_retired.
  - specialize (IH w He Hi). destruct (retain keep es w). destruct IH; [left; by right|by right].
  - apply IH; [done|]. eapply declines_issued; [apply retire_declines|done].
Qed.
(** Each kept element passed the test in a world the retain went through. *)
Lemma retain_kept keep es w e :
  e ∈ (retain keep es w).1 -> exists w', declines w w' /\ declines w' (retain keep es w).2 /\ keep e w' = true.
Proof.
  revert w. induction es as [|x es IH]; intros w He; [by apply not_elem_of_nil in He|]. cbn in *.
  destruct (keep x w) eqn:Hk.
  - specialize (IH w). pose proof (retain_declines keep es w) as Hd. destruct (retain keep es w) as [kept w1].
    cbn in *. apply elem_of_cons in He as [->|He]; [by exists w|auto].
  - destruct (IH _ He) as (w' & H1 & H2 & H3). exists w'. split_and!; [|done|done].
    etransitivity; [apply retire_declines|done].
Qed.

(** ** What happens outside

    The local administrator and the permits' other holders act, and peers disconnect. *)
Inductive outside :=
  | Administer (o : access_operation)
  | Disconnect (connection : Z).
Definition outside_step (w : World L) (o : outside) : World L :=
  match o with
  | Administer o => MkWorld (access_step (permits w) o) (links w)
  | Disconnect c => MkWorld (permits w) (close c (links w))
  end.
Lemma outside_ok w o : World_ok w -> World_ok (outside_step w o).
Proof. intros [Hw]. constructor. destruct o; cbn; [by apply access_step_ok|done]. Qed.
Lemma outside_declines w o : World_ok w -> declines w (outside_step w o).
Proof.
  intros [Hw]. destruct o as [o|c]; cbn; split; cbn; try done.
  - intros i c Hc. by apply step_fades.
  - intros i s Hs. exists s. auto using fades_refl.
  - intros d. rewrite close_spec. by destruct (is_connected d (links w)).
Qed.
End Connections.

(** ** The queue *)
Definition MAX_ADMITTED : nat := 8.

(** [AdmittedSource]: the session, its peer, its permit and the codec of its media. *)
Record AdmittedSource := MkAdmitted {
  session : Z;
  peer : Z;
  access : Z;
  codec : VideoCodec;
}.
#[export] Instance AdmittedSource_connected : Connected AdmittedSource :=
  {| access_of := access; connection_of := peer |}.

Section Queue.
Context {L : Type} `{ConnectionControl L}.
Abbreviation queue_t := (list AdmittedSource).

(** [SourceAdmissions::admit]: unusable entries leave before the capacity check; the
    caller's connection is given up when it is not queued. *)
Definition admit_source (e : AdmittedSource) (q : queue_t) (w : World L) : queue_t * World L * outcome unit :=
  let gone := filter (fun e => usable e w = false) q in
  let q := filter (fun e => usable e w = true) q in
  let result :=
    if bool_decide (MAX_ADMITTED <= length q)%nat then Fail (ErrMsg "peer handoff full")
    else if negb (usable e w) then Fail (ErrMsg "source session ended before handoff")
    else Ret tt in
  let q := if is_ret result then q ++ [e] else q in
  let w := retire_all gone w in
  let w := if is_ret result then w else retire e w in
  (q, w, result).

(** [SourceAdmissions::take]: the queue, then the entries that are given to the caller. *)
Definition take_sources (q : queue_t) (w : World L) : queue_t * World L * list AdmittedSource :=
  let '(taken, w) := retain usable q w in ([], w, taken).
(** [SourceAdmissions::remove] *)
Definition remove_session (id : Z) (q : queue_t) (w : World L) : queue_t * World L :=
  (filter (fun e => session e <> id) q, retire_all (filter (fun e => session e = id) q) w).
(** [SourceAdmissions::close], and [Drop for AdmissionQueue]. *)
Definition close_queue (q : queue_t) (w : World L) : queue_t * World L := ([], retire_all q w).

(** ** Histories *)
Inductive handoff_operation :=
  | Offer (e : AdmittedSource)
  | Take
  | Remove (id : Z)
  | CloseQueue
  | Elsewhere (o : outside).

(** The queue with what was offered to it and what it handed over, in order. *)
Record Handoff := MkHandoff {
  queue : queue_t;
  world : World L;
  offered : list AdmittedSource;
  handed : list AdmittedSource;
}.
Definition handoff_step (s : Handoff) (o : handoff_operation) : Handoff :=
  match o with
  | Offer e =>
      let '(q, w, _) := admit_source e (queue s) (world s) in MkHandoff q w (offered s ++ [e]) (handed s)
  | Take =>
      let '(q, w, taken) := take_sources (queue s) (world s) in
      MkHandoff q w (offered s) (handed s ++ taken)
  | Remove id => let '(q, w) := remove_session id (queue s) (world s) in MkHandoff q w (offered s) (handed s)
  | CloseQueue => let '(q, w) := close_queue (queue s) (world s) in MkHandoff q w (offered s) (handed s)
  | Elsewhere o => MkHandoff (queue s) (outside_step (world s) o) (offered s) (handed s)
  end.
(** Only issued permits can be offered. *)
Definition offer_possible (s : Handoff) (o : handoff_operation) : Prop :=
  match o with Offer e => issued (world s) e | _ => True end.
Inductive handoff_reaches : Handoff -> Prop :=
  | handoff_start w : World_ok w -> handoff_reaches (MkHandoff [] w [] [])
  | handoff_next s o : handoff_reaches s -> offer_possible s o -> handoff_reaches (handoff_step s o).

Record Handoff_ok (s : Handoff) : Prop := {
  handoff_world : World_ok (world s);
  handoff_issued : Forall (issued (world s)) (offered s);
  handoff_order : (handed s ++ queue s) `sublist_of` offered s;
  handoff_bound : (length (queue s) <= MAX_ADMITTED)%nat;
  handoff_account : forall e, e ∈ offered s -> e ∈ handed s \/ e ∈ queue s \/ retired (world s) e;
}.

(** A step that queues nothing: [taken] leaves for the caller, [q] stays, the rest is
    retired. *)
Lemma handoff_shrinks s q w taken :
  Handoff_ok s -> World_ok w -> declines (world s) w ->
  (taken ++ q) `sublist_of` queue s ->
  (forall e, e ∈ queue s -> e ∈ taken \/ e ∈ q \/ retired w e) ->
  Handoff_ok (MkHandoff q w (offered s) (handed s ++ taken)).
Proof.
  intros [H1 H2 H3 H4 H5] Hw Hd Hs Ha. constructor; cbn; [done| | | |].
  - apply (list.Forall_impl _ _ _ H2). intros e. by apply declines_issued.
  - etransitivity; [|exact H3]. rewrite <- app_assoc. by apply sublist_app.
  - apply sublist_length in Hs. rewrite length_app in Hs. lia.
  - intros e He. rewrite elem_of_app. destruct (H5 e He) as [?|[Hq|Hr]]; [auto| |].
    + destruct (Ha e Hq) as [?|[?|?]]; auto.
    + right. right. by eapply declines_retired.
Qed.

Lemma filter_split_retired (P : AdmittedSource -> Prop) `{forall e, Decision (P e)} q w e :
  e ∈ q -> issued w e -> e ∈ filter (fun e => ~ P e) q \/ retired (retire_all (filter P q) w) e.
Proof.
  intros He Hi. destruct (decide (P e)).
  - right. apply retire_all_retired; [|done]. by apply list_elem_of_filter.
  - left. by apply list_elem_of_filter.
Qed.

Lemma handoff_queued s e : Handoff_ok s -> e ∈ queue s -> issued (world s) e.
Proof.
  intros [_ H2 H3 _ _] He. apply (proj1 (list.Forall_forall _ _) H2).
  eapply sublist_subseteq; [exact H3|]. apply elem_of_app. by right.
Qed.
Lemma handoff_leaves s q w :
  Handoff_ok s -> World_ok w -> declines (world s) w -> q `sublist_of` queue s ->
  (forall e, e ∈ queue s -> e ∈ q \/ retired w e) -> Handoff_ok (MkHandoff q w (offered s) (handed s)).
Proof. intros ?????. rewrite <- (app_nil_r (handed s)). apply handoff_shrinks; naive_solver. Qed.

(** One more offer: queued when there is room, or retired. *)
Lemma handoff_queues s e :
  Handoff_ok s -> issued (world s) e -> (length (queue s) < MAX_ADMITTED)%nat ->
  Handoff_ok (MkHandoff (queue s ++ [e]) (world s) (offered s ++ [e]) (handed s)).
Proof.
  intros [H1 H2 H3 H4 H5] He Hl. constructor; cbn; [done| | | |].
  - apply Forall_app. auto.
  - rewrite app_assoc. by apply sublist_app.
  - rewrite length_app. cbn. lia.
  - intros x [Hx|Hx]%elem_of_app; [|set_solver]. destruct (H5 x Hx) as [?|[?|?]]; set_solver.
Qed.
Lemma handoff_refuses s e :
  Handoff_ok s -> issued (world s) e ->
  Handoff_ok (MkHandoff (queue s) (retire e (world s)) (offered s ++ [e]) (handed s)).
Proof.
  intros [H1 H2 H3 H4 H5] He. assert (Hd := retire_declines e (world s)). constructor; cbn.
  - by apply retire_world_ok.
  - apply Forall_app. split; [|by constructor; [apply (declines_issued _ _ _ Hd)|]].
    apply (list.Forall_impl _ _ _ H2). intros x. by apply declines_issued.
  - by apply sublist_inserts_r.
  - done.
  - intros x [Hx|Hx]%elem_of_app; [|apply list_elem_of_singleton in Hx as ->].
    + destruct (H5 x Hx) as [?|[?|Hr]]; [by left|right; by left|]. right. right. by eapply declines_retired.
    + right. right. by apply retire_retired.
Qed.

Lemma offer_ok s e : Handoff_ok s -> issued (world s) e -> Handoff_ok (handoff_step s (Offer e)).
Proof.
  intros Hs He. cbn. unfold admit_source.
  set (q := filter (fun e => usable e (world s) = true) (queue s)).
  set (gone := filter (fun e => usable e (world s) = false) (queue s)).
  assert (Hq : Handoff_ok (MkHandoff q (retire_all gone (world s)) (offered s) (handed s))).
  { apply handoff_leaves; [done|apply retire_all_ok, Hs|apply retire_all_declines|apply sublist_filter|].
    intros x Hx. destruct (usable x (world s)) eqn:Hu; [left; by apply list_elem_of_filter|right].
    apply retire_all_retired; [by apply list_elem_of_filter|by apply handoff_queued]. }
  assert (He' : issued (retire_all gone (world s)) e) by (by eapply declines_issued; [apply retire_all_declines|]).
  case_bool_decide as Hl; cbn; [by apply (handoff_refuses _ e Hq)|].
  destruct (usable e (world s)); cbn; [|by apply (handoff_refuses _ e Hq)].
  apply (handoff_queues _ e Hq); [done|cbn; lia].
Qed.

Lemma handoff_step_ok s o : Handoff_ok s -> offer_possible s o -> Handoff_ok (handoff_step s o).
Proof.
  intros Hs Ho. destruct o as [e| |id| |o]; [by apply offer_ok|..]; cbn.
  - unfold take_sources. destruct (retain usable (queue s) (world s)) as [taken w] eqn:Hr.
    pose proof (retain_ok usable (queue s) (world s) (handoff_world _ Hs)) as H1.
    pose proof (retain_declines usable (queue s) (world s)) as H2.
    pose proof (retain_sublist usable (queue s) (world s)) as H3. rewrite Hr in H1, H2, H3.
    apply handoff_shrinks; [done..|by rewrite app_nil_r|]. intros e He.
    pose proof (retain_dropped usable (queue s) (world s) e He (handoff_queued _ _ Hs He)) as Hd.
    rewrite Hr in Hd. naive_solver.
  - apply handoff_leaves; [done|apply retire_all_ok, Hs|apply retire_all_declines|apply sublist_filter|].
    intros e He. apply filter_split_retired; [done|by apply handoff_queued].
  - apply handoff_leaves; [done|apply retire_all_ok, Hs|apply retire_all_declines|apply sublist_nil_l|].
    intros e He. right. apply retire_all_retired; [done|by apply handoff_queued].
  - apply handoff_leaves; [done|apply outside_ok, Hs|apply outside_declines, Hs|done|auto].
Qed.

Lemma handoff_reaches_ok s : handoff_reaches s -> Handoff_ok s.
Proof.
  induction 1 as [w Hw|s o _ IH Ho]; [|by apply handoff_step_ok].
  constructor; cbn; [done|constructor|constructor|lia|intros e He; by apply not_elem_of_nil in He].
Qed.

(** In every history of the queue, with sessions revoked and peers
    disconnecting in between: it never holds more than 8 connections; what was handed over
    and what is queued follow the order of the offers, each offer at most once; and an
    offered connection that is neither handed over nor queued has its permit ended and its
    transport closed. A new offer succeeds exactly when it is usable and fewer than 8
    usable connections wait, and only usable connections are handed over. *)
Theorem handoff_once (s : Handoff) (e : AdmittedSource) (Hs : handoff_reaches s) (He : issued (world s) e) :
  (length (queue s) <= MAX_ADMITTED)%nat /\
  (handed s ++ queue s) `sublist_of` offered s /\
  (forall x, x ∈ offered s -> x ∈ handed s \/ x ∈ queue s \/ retired (world s) x) /\
  is_ret (admit_source e (queue s) (world s)).2 =
    usable e (world s) &&
    bool_decide (length (filter (fun x => usable x (world s) = true) (queue s)) < MAX_ADMITTED)%nat /\
  (forall x, x ∈ (take_sources (queue s) (world s)).2 -> usable x (world s) = true).
Proof.
  apply handoff_reaches_ok in Hs. pose proof Hs as [H1 H2 H3 H4 H5]. split_and!; [done..| |].
  - unfold admit_source. cbn. case_bool_decide as Hl; cbn.
    + rewrite bool_decide_false by lia. by rewrite andb_false_r.
    + rewrite (bool_decide_true (_ < _)%nat) by lia. by destruct (usable e (world s)).
  - intros x. unfold take_sources. destruct (retain usable (queue s) (world s)) as [taken w] eqn:Hr.
    intros Hx. pose proof (retain_kept usable (queue s) (world s) x) as Hk.
    pose proof (retain_sublist usable (queue s) (world s)) as Hl. rewrite Hr in Hk, Hl.
    destruct (Hk Hx) as (w' & Hd & _ & Hu). apply (declines_usable _ _ _ Hd); [|done].
    apply handoff_queued; [done|]. by eapply sublist_subseteq.
Qed.
End Queue.

(** ** Concrete inputs *)

(** Transports as the set of the closed ones. *)
#[export] Program Instance closed_set_control : ConnectionControl (gset Z) := {|
  is_connected c l := negb (bool_decide (c ∈ l));
  close c l := {[c]} ∪ l;
|}.
Next Obligation.
  intros c d l. cbn. destruct (decide (d = c)) as [->|Hne].
  - rewrite (bool_decide_true (c ∈ {[c]} ∪ l)) by set_solver. rewrite (bool_decide_true (c = c)) by done.
    by rewrite andb_false_r.
  - rewrite (bool_decide_false (d = c)) by done. rewrite andb_true_r.
    f_equal. apply bool_decide_ext. set_solver.
Qed.

Definition sample_world : World (gset Z) :=
  MkWorld (access_run authority_new [Open "desk"; Open "phone"; Open "tablet"]) ∅.
Lemma sample_world_ok : World_ok sample_world.
Proof. constructor. apply access_run_ok, authority_new_ok. Qed.
Definition sample_offer (i : Z) : AdmittedSource := MkAdmitted i (10 + i) i Av1.

(** The second connection is lost and the third revoked while they wait. *)
Definition sample_handoff : list handoff_operation :=
  [Offer (sample_offer 1); Offer (sample_offer 2); Elsewhere (Disconnect 12); Take; Offer (sample_offer 3);
   Elsewhere (Administer (Revoke 3))].
Definition sample_handoff_end : Handoff :=
  foldl handoff_step (MkHandoff [] sample_world [] []) sample_handoff.

Lemma handoff_once_witness :
  handoff_reaches sample_handoff_end /\ handed sample_handoff_end = [sample_offer 1] /\
  (handed sample_handoff_end ++ queue sample_handoff_end `sublist_of` offered sample_handoff_end).
Proof.
  assert (Hr : handoff_reaches sample_handoff_end).
  { repeat (apply handoff_next; [|vm_compute; eauto]). apply handoff_start, sample_world_ok. }
  split; [exact Hr|split; [vm_compute; reflexivity|]].
  apply (handoff_once sample_handoff_end (sample_offer 1) Hr). vm_compute. eauto.
Defined.
