(* ===== verification/Devices.v ===== *)
(** * Records of devices and sessions ([weld-hoist-protocol/src/device.rs],
    [weld-session/src/connection.rs], [weld-hoist-core/src/session.rs])

    What the pairing worker and the session service share: device records, peer identities
    and the reply channels of their commands. *)

From S2P Require Import Prelude OrdMap Ids Access.

(** ** Devices *)
Record DevicePermissions := MkPermissions {
  browse : bool;
  hoist : bool;
  diagnostics : bool;
  thumbnails : bool;
}.
Record PairedDevice := MkDevice { identity : string; name : string; permissions : DevicePermissions }.
Record PairingCandidate := MkCandidate {
  candidate_identity : string;
  candidate_name : string;
  verification : string;
}.
(** [PeerIdentity], under its alias [AuthenticatedPeer]. *)
Record AuthenticatedPeer := MkPeer { namespace : string; peer_identity : string }.

#[export] Instance DevicePermissions_eq_dec : EqDecision DevicePermissions.
Proof. solve_decision. Defined.
#[export] Instance PairedDevice_eq_dec : EqDecision PairedDevice.
Proof. solve_decision. Defined.

(** An entry of the catalogue a host shows to a device. *)
Record ApplicationInfo := MkApplication {
  app_window : Z;
  app_surface : ClientSurfaceId;
  app_title : string;
  app_app_id : string;
  available : bool;
  hoisted_here : bool;
}.
#[export] Instance ApplicationInfo_eq_dec : EqDecision ApplicationInfo.
Proof. solve_decision. Defined.

(** [PeerIdentity::new] *)
Definition PeerIdentity_new (n i : string) : outcome AuthenticatedPeer :=
  _ ← ensure (valid_label 80 n) "invalid peer identity";
  _ ← ensure (valid_label 160 i) "invalid peer identity";
  Ret (MkPeer n i).

(** ** Reply channels

    A command carries the sender of a channel for one answer. Its receiver is gone when
    the command is looked at, leaves while it is handled, or waits. *)
Record Reply := MkReply { gone : bool; leaves : bool }.
Definition is_closed (r : Reply) : bool := gone r.
Definition send_fails (r : Reply) : bool := gone r || leaves r.

