(* ===== verification/Thumbnails.v ===== *)
(** * Application previews ([weld-hoist-core/src/session/thumbnail.rs])

    A demand-driven cache of encoded previews, shared by the sessions of a host. One
    capture is active at a time; its ticket carries the revision of the image it will
    deliver. Records are those of [weld-hoist-protocol/src/thumbnail.rs]. *)

From S2P Require Import Prelude OrdMap Ids.

Definition MAX_EDGE : Z := 320.
Definition MAX_IMAGE_BYTES : Z := 512 * 1024.
Definition CACHE_ENTRIES : nat := 32.
Definition REFRESH_INTERVAL : duration := from_secs 2.
Definition CAPTURE_TIMEOUT : duration := from_secs 5.

(** ** Records *)
Record ThumbnailTarget := MkTarget { target_window : Z; target_surface : ClientSurfaceId }.
#[export] Instance ThumbnailTarget_eq_dec : EqDecision ThumbnailTarget.
Proof. solve_decision. Defined.
#[export] Instance ThumbnailTarget_countable : Countable ThumbnailTarget.
Proof.
  refine (inj_countable' (fun t => (target_window t, target_surface t)) (fun p => MkTarget p.1 p.2) _). by intros [].
Defined.
#[export] Instance ThumbnailTarget_ord : OrdKey ThumbnailTarget.
Proof.
  refine {| words t := target_window t :: words (target_surface t) |}.
  intros [a b] [a' b'] [= -> Hw]. f_equal. by apply (inj words).
Defined.

Record ThumbnailRequest := MkThumbnailRequest { request_target : ThumbnailTarget; if_revision : option Z }.
Record ThumbnailImageHeader := MkImageHeader { width : Z; height : Z; png_bytes : Z }.
(** [ThumbnailImageHeader::validate] *)
Definition validate_header (h : ThumbnailImageHeader) : outcome unit :=
  _ ← ensure (negb ((width h =? 0) || (height h =? 0) || (MAX_EDGE <? width h) || (MAX_EDGE <? height h)))
        "thumbnail extent exceeds bounds";
  ensure (negb ((png_bytes h =? 0) || (MAX_IMAGE_BYTES <? png_bytes h))) "thumbnail payload exceeds bounds".
Record ThumbnailFreshness := MkFreshness { age_ms : Z; stale : bool }.
Inductive ThumbnailStatus :=
  | StatusImage (revision : Z) (freshness : ThumbnailFreshness) (image : ThumbnailImageHeader)
  | Unchanged (revision : Z) (freshness : ThumbnailFreshness)
  | StatusPending
  | Unavailable
  | Denied.
Record ThumbnailReply := MkThumbnailReply { reply_target : ThumbnailTarget; status : ThumbnailStatus }.

Section Cache.
(** The encoded bytes. *)
Context {Png : Type} (png_length : Png -> Z).

Record ThumbnailImage := MkImage { header : ThumbnailImageHeader; png : Png }.
(** [ThumbnailImage::new] *)
Definition ThumbnailImage_new (w h : Z) (bytes : Png) : outcome ThumbnailImage :=
  n ← (if bool_decide (0 <= png_length bytes <= u32_max) then Ret (png_length bytes)
       else Fail (ErrMsg "out of range integral type conversion attempted"));
  _ ← validate_header (MkImageHeader w h n);
  Ret (MkImage (MkImageHeader w h n) bytes).

Record ThumbnailResponse := MkResponse { reply : ThumbnailReply; image : option ThumbnailImage }.
(** [ThumbnailResponse::status] *)
Definition response_status (t : ThumbnailTarget) (s : ThumbnailStatus) : ThumbnailResponse :=
  MkResponse (MkThumbnailReply t s) None.

Record ThumbnailCapture := MkCapture { capture_target : ThumbnailTarget; capture_revision : Z }.
#[export] Instance ThumbnailCapture_eq_dec : EqDecision ThumbnailCapture.
Proof. solve_decision. Defined.
Record Snapshot := MkSnapshot { snapshot_revision : Z; snapshot_image : ThumbnailImage; captured : instant }.
Record Entry := MkEntry {
  snapshot : option Snapshot;
  dirty : bool;
  requested : bool;
  last_attempt : option instant;
  last_used : instant;
}.
Record Cache := MkCache {
  cached : gmap ThumbnailTarget Entry;
  active : option (ThumbnailCapture * instant);
  next_revision : Z;
}.
Definition Cache_default : Cache := MkCache ∅ None 0.
Definition set_cached (m : gmap ThumbnailTarget Entry) (c : Cache) : Cache := MkCache m (active c) (next_revision c).
Definition clear_active (c : Cache) : Cache := MkCache (cached c) None (next_revision c).

(** [self.active.is_some_and(|(capture, _)| capture.target == target)] *)
Definition capturing (t : ThumbnailTarget) (c : Cache) : bool :=
  is_some_and (active c) (fun a => bool_decide (capture_target a.1 = t)).

(** [Iterator::min_by_key]: the first of the least entries. [less] is the strict order of
    the keys. *)
Fixpoint min_by (less : Entry -> Entry -> bool) (l : list (ThumbnailTarget * Entry)) :
    option (ThumbnailTarget * Entry) :=
  match l with
  | [] => None
  | p :: l =>
      match min_by less l with
      | Some q => if less q.2 p.2 then Some q else Some p
      | None => Some p
      end
  end.
(** [Option<Instant>]'s order: [None] is least. *)
Definition attempt_less (a b : Entry) : bool :=
  match last_attempt a, last_attempt b with
  | None, None => false
  | None, Some _ => true
  | Some _, None => false
  | Some x, Some y => x <? y
  end.
Definition used_less (a b : Entry) : bool := last_used a <? last_used b.

(** [Cache::retain] *)
Definition retain_visible (visible : ThumbnailTarget -> bool) (c : Cache) : Cache :=
  MkCache (filter (fun p => visible p.1 = true) (cached c))
    (if is_some_and (active c) (fun a => negb (visible (capture_target a.1))) then None else active c)
    (next_revision c).

(** [Cache::request]: the least recently used entry makes room, the active one excepted. *)
Definition evict (t : ThumbnailTarget) (c : Cache) : gmap ThumbnailTarget Entry :=
  if bool_decide (cached c !! t = None) && bool_decide (size (cached c) = CACHE_ENTRIES) then
    match min_by used_less (filter (fun p => capturing p.1 c = false) (entries (cached c))) with
    | Some (oldest, _) => delete oldest (cached c)
    | None => cached c
    end
  else cached c.
Definition fresh_entry (now : instant) : Entry := MkEntry None true false None now.
(** The entry after a request. *)
Definition request_entry (t : ThumbnailTarget) (now : instant) (c : Cache) : Entry :=
  let e := default (fresh_entry now) (evict t c !! t) in
  MkEntry (snapshot e) (dirty e)
    (requested e || dirty e || (bool_decide (snapshot e = None) && negb (capturing t c))) (last_attempt e) now.
Definition request (r : ThumbnailRequest) (now : instant) (c : Cache) : Cache * ThumbnailResponse :=
  let t := request_target r in
  let e := request_entry t now c in
  (set_cached (<[t := e]> (evict t c)) c,
   match snapshot e with
   | None => response_status t StatusPending
   | Some s =>
       let freshness := MkFreshness (Z.min u64_max (since now (captured s) / 1000000)) (dirty e || capturing t c) in
       if bool_decide (if_revision r = Some (snapshot_revision s))
       then response_status t (Unchanged (snapshot_revision s) freshness)
       else MkResponse (MkThumbnailReply t (StatusImage (snapshot_revision s) freshness (header (snapshot_image s))))
              (Some (snapshot_image s))
   end).

(** [Cache::take]: an active capture blocks until it times out, then is tried again. *)
Definition mark_dirty_requested (e : Entry) : Entry := MkEntry (snapshot e) true true (last_attempt e) (last_used e).
Definition due (now : instant) (e : Entry) : bool :=
  requested e && is_none_or (last_attempt e) (fun last => REFRESH_INTERVAL <=? since now last).
Definition expire_capture (now : instant) (c : Cache) : option Cache :=
  match active c with
  | Some (capture, started) =>
      if since now started <? CAPTURE_TIMEOUT then None
      else Some (MkCache (alter mark_dirty_requested (capture_target capture) (cached c)) None (next_revision c))
  | None => Some c
  end.
Definition take_capture (now : instant) (c : Cache) : Cache * option ThumbnailCapture :=
  match expire_capture now c with
  | None => (c, None)
  | Some c =>
      match min_by attempt_less (filter (fun p => due now p.2 = true) (entries (cached c))) with
      | None => (c, None)
      | Some (t, e) =>
          match checked_add (next_revision c) 1 with
          | None => (c, None)
          | Some n =>
              let capture := MkCapture t n in
              (MkCache (<[t := MkEntry (snapshot e) false false (Some now) (last_used e)]> (cached c))
                 (Some (capture, now)) n, Some capture)
          end
      end
  end.

(** [Cache::complete] *)
Definition complete (capture : ThumbnailCapture) (img : option ThumbnailImage) (now : instant) (c : Cache) :
    Cache * bool :=
  if is_none_or (active c) (fun a => negb (bool_decide (a.1 = capture)) || (CAPTURE_TIMEOUT <=? since now a.2))
  then (c, false)
  else
    let c := clear_active c in
    match cached c !! capture_target capture with
    | None => (c, false)
    | Some e =>
        let e := match img with
                 | Some img =>
                     MkEntry (Some (MkSnapshot (capture_revision capture) img now)) (dirty e) (requested e && dirty e)
                       (last_attempt e) (last_used e)
                 | None => MkEntry (snapshot e) true (requested e) (last_attempt e) (last_used e)
                 end in
        (set_cached (<[capture_target capture := e]> (cached c)) c, true)
    end.

(** [Cache::invalidate] *)
Definition invalidate (t : ThumbnailTarget) (c : Cache) : Cache :=
  set_cached (alter (fun e => MkEntry (snapshot e) true (requested e) (last_attempt e) (last_used e)) t (cached c)) c.

(** ** Histories *)
Inductive thumb_op :=
  | Ask (r : ThumbnailRequest) (now : instant)
  | Take (now : instant)
  | Complete (capture : ThumbnailCapture) (img : option ThumbnailImage) (now : instant)
  | Invalidate (t : ThumbnailTarget)
  | Retain (visible : ThumbnailTarget -> bool).
Inductive thumb_out :=
  | Response (r : ThumbnailResponse)
  | Ticket (capture : option ThumbnailCapture)
  | Accepted (b : bool)
  | Nothing.
Definition thumb_step (c : Cache) (o : thumb_op) : Cache * thumb_out :=
  match o with
  | Ask r now => let '(c, x) := request r now c in (c, Response x)
  | Take now => let '(c, x) := take_capture now c in (c, Ticket x)
  | Complete capture img now => let '(c, x) := complete capture img now c in (c, Accepted x)
  | Invalidate t => (invalidate t c, Nothing)
  | Retain visible => (retain_visible visible c, Nothing)
  end.
Abbreviation thumb_log := (list (thumb_op * thumb_out)).
Definition thumb_next (s : Cache * thumb_log) (o : thumb_op) : Cache * thumb_log :=
  let '(c, x) := thumb_step s.1 o in (c, s.2 ++ [(o, x)]).
Definition thumb_run (os : list thumb_op) : Cache * thumb_log := foldl thumb_next (Cache_default, []) os.

(** The tickets handed out, and those whose completion was accepted. *)
Definition tickets (lg : thumb_log) : list ThumbnailCapture :=
  omap (fun e => match e.2 with Ticket x => x | _ => None end) lg.
Definition accepted (lg : thumb_log) : list ThumbnailCapture :=
  omap (fun e => match e with (Complete capture _ _, Accepted true) => Some capture | _ => None end) lg.
#[local] Arguments tickets !_ / : simpl nomatch.
#[local] Arguments accepted !_ / : simpl nomatch.

(** The ticket was handed out, and its target not invalidated since. *)
Definition clean (lg : thumb_log) (t : ThumbnailTarget) (rev : Z) : Prop :=
  exists before now after, lg = before ++ (Take now, Ticket (Some (MkCapture t rev))) :: after /\
    forall x, (Invalidate t, x) ∉ after.
(** The image was delivered for the target with the ticket of that revision, in time. *)
Definition delivered (lg : thumb_log) (t : ThumbnailTarget) (s : Snapshot) : Prop :=
  (Complete (MkCapture t (snapshot_revision s)) (Some (snapshot_image s)) (captured s), Accepted true) ∈ lg /\
  exists now, (Take now, Ticket (Some (MkCapture t (snapshot_revision s)))) ∈ lg /\
    since (captured s) now < CAPTURE_TIMEOUT.

(** The ticket of an accepted completion was handed out, and less than the timeout ago. *)
Definition timely (lg : thumb_log) (k : ThumbnailCapture) (now : instant) : Prop :=
  exists started, (Take started, Ticket (Some k)) ∈ lg /\ since now started < CAPTURE_TIMEOUT.

Record Cache_ok (s : Cache * thumb_log) : Prop := {
  cache_bound : (size (cached s.1) <= CACHE_ENTRIES)%nat;
  cache_next : 0 <= next_revision s.1;
  cache_tickets : NoDup (tickets s.2) /\ forall k, k ∈ tickets s.2 -> capture_revision k <= next_revision s.1;
  cache_accepted : NoDup (accepted s.2) /\ (accepted s.2 ⊆ tickets s.2);
  cache_timely : forall k img now, (Complete k img now, Accepted true) ∈ s.2 -> timely s.2 k now;
  cache_active : forall k started, active s.1 = Some (k, started) ->
    (Take started, Ticket (Some k)) ∈ s.2 /\ (k ∉ accepted s.2) /\
    exists e, cached s.1 !! capture_target k = Some e /\
      (dirty e = false -> clean s.2 (capture_target k) (capture_revision k));
  cache_snapshots : forall t e x, cached s.1 !! t = Some e -> snapshot e = Some x ->
    delivered s.2 t x /\
    (dirty e = false -> capturing t s.1 = false -> clean s.2 t (snapshot_revision x));
}.

(** ** Steps *)
Lemma min_by_Some less l p : min_by less l = Some p -> p ∈ l.
Proof.
  revert p. induction l as [|q l IH]; intros p; cbn; [done|].
  destruct (min_by less l) as [r|]; [destruct (less r.2 q.2)|]; intros [= <-]; [right; by apply IH|left|left].
Qed.
Lemma min_by_None less l : min_by less l = None -> l = [].
Proof. destruct l as [|q l]; [done|]. cbn. destruct (min_by less l) as [r|]; [by destruct (less _ _)|done]. Qed.

Lemma min_by_least (less : Entry -> Entry -> bool) :
  (forall a b c, less a b = false -> less b c = false -> less a c = false) ->
  (forall a b, less a b = true -> less b a = false) ->
  forall l p, min_by less l = Some p -> forall q, q ∈ l -> less q.2 p.2 = false.
Proof.
  intros Ht Ha. assert (Hi : forall a, less a a = false) by (intros a; destruct (less a a) eqn:H; [pose proof (Ha _ _ H); congruence|done]).
  induction l as [|x l IH]; intros p; cbn; [done|].
  destruct (min_by less l) as [r|] eqn:Hm; [destruct (less r.2 x.2) eqn:Hr|]; intros [= <-] q [->|Hq]%elem_of_cons.
  - by apply Ha.
  - by apply IH.
  - apply Hi.
  - eapply Ht; [by apply (IH r)|done].
  - apply Hi.
  - apply min_by_None in Hm. subst. by apply not_elem_of_nil in Hq.
Qed.
Lemma attempt_less_trans a b c : attempt_less a b = false -> attempt_less b c = false -> attempt_less a c = false.
Proof.
  unfold attempt_less. destruct (last_attempt a), (last_attempt b), (last_attempt c); try done. rewrite !Z.ltb_ge. lia.
Qed.
Lemma attempt_less_asym a b : attempt_less a b = true -> attempt_less b a = false.
Proof. unfold attempt_less. destruct (last_attempt a), (last_attempt b); try done. rewrite Z.ltb_ge, Z.ltb_lt. lia. Qed.
Lemma tickets_app l k : tickets (l ++ k) = tickets l ++ tickets k.
Proof. apply omap_app. Qed.
Lemma accepted_app l k : accepted (l ++ k) = accepted l ++ accepted k.
Proof. apply omap_app. Qed.

Lemma clean_app lg ext t rev : clean lg t rev -> (forall x, (Invalidate t, x) ∉ ext) -> clean (lg ++ ext) t rev.
Proof.
  intros (b & now & a & -> & Ha) Ho. exists b, now, (a ++ ext). rewrite <- app_assoc. split; [done|].
  intros y [Hy|Hy]%elem_of_app; [by apply (Ha y)|by apply (Ho y)].
Qed.
Lemma delivered_app lg ext t s : delivered lg t s -> delivered (lg ++ ext) t s.
Proof. intros [H1 (now & H2 & H3)]. split; [set_solver|]. exists now. split; [set_solver|done]. Qed.
Lemma timely_app lg ext k now : timely lg k now -> timely (lg ++ ext) k now.
Proof. intros (st & H1 & H2). exists st. split; [set_solver|done]. Qed.
Lemma capturing_Some t c k st : active c = Some (k, st) -> capturing t c = bool_decide (capture_target k = t).
Proof. unfold capturing. by intros ->. Qed.

(** What events that hand out and accept no ticket must keep. *)
Lemma quiet_ok c lg c' ext :
  Cache_ok (c, lg) -> tickets ext = [] -> accepted ext = [] ->
  (size (cached c') <= CACHE_ENTRIES)%nat -> next_revision c' = next_revision c ->
  (forall k started, active c' = Some (k, started) ->
     active c = Some (k, started) /\ is_Some (cached c' !! capture_target k)) ->
  (forall t e', cached c' !! t = Some e' ->
     snapshot e' = None /\ dirty e' = true \/
     exists e, cached c !! t = Some e /\ snapshot e' = snapshot e /\
       (dirty e' = false -> dirty e = false /\ (forall x, (Invalidate t, x) ∉ ext) /\ capturing t c' = capturing t c)) ->
  Cache_ok (c', lg ++ ext).
Proof.
  intros [H1 H2 [H3 H4] [H5 H6] H0 H7 H8] Ht Ha Hs Hn Hact He. cbn in *. constructor; cbn; [done|lia| | | | |].
  - rewrite tickets_app, Ht, app_nil_r, Hn. done.
  - rewrite tickets_app, accepted_app, Ht, Ha, !app_nil_r. done.
  - intros k img now Hin. apply timely_app. apply elem_of_app in Hin as [Hin|Hin]; [by eapply H0|].
    assert (k ∈ accepted ext) as Hk by (apply list_elem_of_omap; by eexists). rewrite Ha in Hk. by apply not_elem_of_nil in Hk.
  - intros k st Hk. destruct (Hact k st Hk) as [Hk' [e' He']]. destruct (H7 k st Hk') as (K1 & K2 & e & K3 & K4).
    split; [set_solver|]. split; [by rewrite accepted_app, Ha, app_nil_r|]. exists e'. split; [done|].
    intros Hd. destruct (He _ _ He') as [[_ Hd']|(e1 & E1 & _ & E2)]; [congruence|].
    destruct (E2 Hd) as (E3 & E4 & _). apply clean_app; [|done]. apply K4. congruence.
  - intros t e' y He' Hy. destruct (He _ _ He') as [[Hno _]|(e & E1 & E2 & E3)]; [congruence|].
    rewrite E2 in Hy. destruct (H8 t e y E1 Hy) as [D1 D2]. split; [by apply delivered_app|].
    intros Hd Hc. destruct (E3 Hd) as (E4 & E5 & E6). apply clean_app; [|done]. apply D2; [done|]. by rewrite <- E6.
Qed.

Lemma evict_sub t c u e : evict t c !! u = Some e -> cached c !! u = Some e.
Proof.
  unfold evict. destruct (_ && _); [|done]. destruct (min_by _ _) as [[o ?]|]; [|done].
  intros [_ H]%lookup_delete_Some. done.
Qed.
Lemma evict_self t c : evict t c !! t = cached c !! t.
Proof.
  unfold evict. case_bool_decide as Ht; cbn; [|done]. case_bool_decide; [|done].
  destruct (min_by _ _) as [[o f]|]; [|done]. destruct (decide (o = t)) as [->|Hne]; [by rewrite lookup_delete_eq, Ht|].
  by rewrite lookup_delete_ne.
Qed.
Lemma evict_active t c u : capturing u c = true -> evict t c !! u = cached c !! u.
Proof.
  unfold evict. destruct (_ && _); [|done]. destruct (min_by _ _) as [[o f]|] eqn:Hm; [|done]. intros Hu.
  apply min_by_Some, list_elem_of_filter in Hm as [Hm _]. cbn in Hm.
  rewrite lookup_delete_ne; [done|]. intros ->. congruence.
Qed.
(** A full cache always has an entry that may go: one capture is active at most. *)
Lemma evict_bound t c :
  (size (cached c) <= CACHE_ENTRIES)%nat ->
  cached c !! t = None -> (size (evict t c) < CACHE_ENTRIES)%nat.
Proof.
  intros Hs Ht. unfold evict. rewrite (bool_decide_true _ Ht). cbn [andb].
  case_bool_decide as Hf; [|lia].
  destruct (min_by _ _) as [[o f]|] eqn:Hm.
  - apply min_by_Some, list_elem_of_filter in Hm as [_ Hm%elem_of_entries].
    rewrite map_size_delete_Some by (by eexists). unfold CACHE_ENTRIES in *. lia.
  - exfalso. apply min_by_None in Hm.
    assert (Hall : forall p, p ∈ entries (cached c) -> capturing p.1 c = true).
    { intros p Hp. destruct (capturing p.1 c) eqn:Hc; [done|].
      assert (p ∈ filter (fun p => capturing p.1 c = false) (entries (cached c))) as Hin by (by apply list_elem_of_filter).
      rewrite Hm in Hin. by apply not_elem_of_nil in Hin. }
    pose proof (length_entries (cached c)) as Hlen. pose proof (bt_keys_NoDup (cached c)) as Hnd.
    unfold bt_keys in Hnd. destruct (entries (cached c)) as [|p [|q l]]; cbn in Hlen; try (unfold CACHE_ENTRIES in Hf; lia).
    assert (Hp := Hall p ltac:(left)). assert (Hq := Hall q ltac:(right; left)).
    unfold capturing in Hp, Hq. destruct (active c) as [a|]; [|done]. cbn in Hp, Hq.
    apply bool_decide_eq_true in Hp, Hq. cbn in Hnd. apply list.NoDup_cons in Hnd as [Hnd _]. apply Hnd. rewrite <- Hp, Hq. left.
Qed.
Lemma request_cached t now c u e' :
  cached (set_cached (<[t := request_entry t now c]> (evict t c)) c) !! u = Some e' ->
  snapshot e' = None /\ dirty e' = true \/
  exists e, cached c !! u = Some e /\ snapshot e' = snapshot e /\ dirty e' = dirty e.
Proof.
  cbn. intros [[<- <-]|[_ H]]%lookup_insert_Some.
  - unfold request_entry. destruct (evict t c !! t) as [e|] eqn:He; cbn; [|by left].
    right. exists e. split; [by eapply evict_sub|done].
  - right. exists e'. split; [by eapply evict_sub|done].
Qed.

Lemma request_bound r now c :
  (size (cached c) <= CACHE_ENTRIES)%nat -> (size (cached (request r now c).1) <= CACHE_ENTRIES)%nat.
Proof.
  intros H. cbn. set (t := request_target r). destruct (cached c !! t) as [e|] eqn:He.
  - rewrite map_size_insert_Some by (rewrite evict_self, He; by eexists). unfold evict.
    by rewrite (bool_decide_false (cached c !! t = None)) by congruence.
  - pose proof (evict_bound t c H He) as Hb. rewrite map_size_insert. case_match; unfold id; lia.
Qed.

Lemma ask_ok c lg r now :
  Cache_ok (c, lg) -> Cache_ok ((request r now c).1, lg ++ [(Ask r now, Response (request r now c).2)]).
Proof.
  intros H. pose proof H as [H1 _ _ _ _ H7 _]. cbn in H1, H7. set (t := request_target r). apply (quiet_ok c); try done.
  - by apply request_bound.
  - intros k st Hk. split; [exact Hk|]. destruct (H7 k st Hk) as (_ & _ & e & He & _).
    cbn. destruct (decide (t = capture_target k)) as [<-|Hne]; [rewrite lookup_insert_eq; by eexists|].
    rewrite lookup_insert_ne by done. rewrite evict_active; [by eexists|].
    rewrite (capturing_Some _ c _ _ Hk). by apply bool_decide_eq_true.
  - intros u e' Hu. destruct (request_cached _ _ _ _ _ Hu) as [?|(e & E1 & E2 & E3)]; [by left|right].
    exists e. split; [done|]. split; [done|]. rewrite E3. intros Hd. split; [done|]. split; [|done].
    intros x Hx%list_elem_of_singleton. done.
Qed.

Lemma size_alter (f : Entry -> Entry) t (m : gmap ThumbnailTarget Entry) : size (alter f t m) = size m.
Proof. by rewrite <- !(size_dom (D := gset ThumbnailTarget)), dom_alter_L. Qed.

Lemma invalidate_ok c lg t : Cache_ok (c, lg) -> Cache_ok (invalidate t c, lg ++ [(Invalidate t, Nothing)]).
Proof.
  intros H. pose proof H as [H1 _ _ _ _ H7 _]. cbn in H1, H7. apply (quiet_ok c); try done.
  - cbn. by rewrite size_alter.
  - intros k st Hk. split; [exact Hk|]. destruct (H7 k st Hk) as (_ & _ & e & He & _). cbn.
    rewrite lookup_alter. case_decide as Hd; [rewrite Hd|]; rewrite He; by eexists.
  - intros u e'. cbn. rewrite lookup_alter_Some. intros [(<- & e & He & ->)|[Hne He]]; right.
    + exists e. done.
    + exists e'. split; [done|]. split; [done|]. intros Hd. split; [done|]. split; [|done].
      intros x [= <- _]%list_elem_of_singleton. done.
Qed.

Lemma retain_visible_ok c lg v : Cache_ok (c, lg) -> Cache_ok (retain_visible v c, lg ++ [(Retain v, Nothing)]).
Proof.
  intros H. pose proof H as [H1 _ _ _ _ H7 _]. cbn in H1, H7.
  assert (Hact : forall k st, active (retain_visible v c) = Some (k, st) -> active c = Some (k, st) /\ v (capture_target k) = true).
  { intros k st. cbn. destruct (active c) as [[k0 st0]|]; cbn; [|done].
    destruct (v (capture_target k0)) eqn:Hv; cbn; [|done]. by intros [= <- <-]. }
  apply (quiet_ok c); try done.
  - cbn. etrans; [|exact H1]. apply map_subseteq_size, map_filter_subseteq.
  - intros k st Hk. destruct (Hact k st Hk) as [Hk' Hv]. split; [done|]. destruct (H7 k st Hk') as (_ & _ & e & He & _).
    exists e. cbn. apply map_lookup_filter_Some. done.
  - intros u e'. cbn. rewrite map_lookup_filter_Some. cbn. intros [He Hv]. right. exists e'. split; [done|]. split; [done|].
    intros Hd. split; [done|]. split; [intros x Hx%list_elem_of_singleton; done|].
    unfold capturing. cbn. destruct (active c) as [[k0 st0]|]; cbn; [|done].
    destruct (v (capture_target k0)) eqn:Hv0; cbn; [done|]. symmetry. apply bool_decide_eq_false. congruence.
Qed.
(** An expired capture leaves its entry dirty. *)
Lemma expire_capture_ok c lg now c' : Cache_ok (c, lg) -> expire_capture now c = Some c' -> Cache_ok (c', lg).
Proof.
  intros H. unfold expire_capture. destruct (active c) as [[k st]|] eqn:Ha; [|by intros [= <-]].
  destruct (_ <? _); [done|]. intros [= <-]. pose proof H as [H1 _ _ _ _ _ _]. cbn in H1.
  rewrite <- (app_nil_r lg). apply (quiet_ok c); cbn; try done.
  - by rewrite size_alter.
  - intros u e'. rewrite lookup_alter_Some. intros [(<- & e & He & ->)|[Hne He]]; right.
    + exists e. done.
    + exists e'. split; [done|]. split; [done|]. intros Hd. split; [done|]. split; [intros x []%elem_of_nil|].
      rewrite (capturing_Some _ _ _ _ Ha). by rewrite bool_decide_eq_false_2.
Qed.
Lemma expire_idle now c c' : expire_capture now c = Some c' -> active c' = None /\ next_revision c' = next_revision c.
Proof.
  unfold expire_capture. destruct (active c) as [[k st]|] eqn:Ha; [destruct (_ <? _); [done|]|]; by intros [= <-].
Qed.

Lemma expire_late now c c' k st :
  expire_capture now c = Some c' -> active c = Some (k, st) -> CAPTURE_TIMEOUT <= since now st.
Proof.
  unfold expire_capture. intros H Ha. rewrite Ha in H. destruct (Z.ltb_spec (since now st) CAPTURE_TIMEOUT); [done|lia].
Qed.

Lemma take_quiet c lg now : Cache_ok (c, lg) -> Cache_ok (c, lg ++ [(Take now, Ticket None)]).
Proof.
  intros H. pose proof H as [H1 _ _ _ _ H7 _]. cbn in H1, H7. apply (quiet_ok c); try done.
  - intros k st Hk. split; [done|]. destruct (H7 k st Hk) as (_ & _ & e & He & _). by exists e.
  - intros u e' He. right. exists e'. split; [done|]. split; [done|]. intros Hd. split; [done|]. split; [|done].
    intros x Hx%list_elem_of_singleton. done.
Qed.
(** A ticket for an idle cache. *)
Lemma take_ticket_ok c lg now t e n :
  Cache_ok (c, lg) -> active c = None -> cached c !! t = Some e -> checked_add (next_revision c) 1 = Some n ->
  Cache_ok (MkCache (<[t := MkEntry (snapshot e) false false (Some now) (last_used e)]> (cached c))
              (Some (MkCapture t n, now)) n, lg ++ [(Take now, Ticket (Some (MkCapture t n)))]).
Proof.
  intros [H1 H2 [H3 H4] [H5 H6] H0 H7 H8] Ha He [-> Hn]%checked_Some. cbn in *.
  assert (Hnew : MkCapture t (next_revision c + 1) ∉ tickets lg) by (intros Hin%H4; cbn in Hin; lia).
  constructor; cbn.
  - by rewrite map_size_insert_Some by (by eexists).
  - lia.
  - rewrite tickets_app. cbn. split.
    + apply list.NoDup_app. split; [done|]. split; [|apply NoDup_singleton]. intros k Hk ->%list_elem_of_singleton. done.
    + intros k [Hk|Hk]%elem_of_app; [apply H4 in Hk; lia|]. apply list_elem_of_singleton in Hk as ->. cbn. lia.
  - rewrite tickets_app, accepted_app. cbn. rewrite app_nil_r. split; [done|set_solver].
  - intros k img at' [Hin|Hin]%elem_of_app; [|by apply list_elem_of_singleton in Hin]. apply timely_app. by eapply H0.
  - intros k st [= <- <-]. cbn. rewrite accepted_app. cbn. rewrite app_nil_r.
    split; [set_solver|]. split; [set_solver|]. rewrite lookup_insert_eq. eexists. split; [done|]. intros _.
    exists lg, now, []. split; [done|]. intros x Hx%elem_of_nil. done.
  - intros u e' x [[<- <-]|[Hne Hu]]%lookup_insert_Some Hx.
    + cbn in Hx. destruct (H8 _ _ _ He Hx) as [D _]. split; [by apply delivered_app|].
      intros _. unfold capturing. cbn. by rewrite bool_decide_eq_true_2.
    + destruct (H8 _ _ _ Hu Hx) as [D1 D2]. split; [by apply delivered_app|]. intros Hd _.
      apply clean_app; [|intros y Hy%list_elem_of_singleton; done]. apply D2; [done|]. unfold capturing. by rewrite Ha.
Qed.
Lemma take_ok c lg now :
  Cache_ok (c, lg) -> Cache_ok ((take_capture now c).1, lg ++ [(Take now, Ticket (take_capture now c).2)]).
Proof.
  intros H. unfold take_capture. destruct (expire_capture now c) as [c'|] eqn:He; [|by apply take_quiet].
  pose proof (expire_capture_ok _ _ _ _ H He) as H'. destruct (expire_idle _ _ _ He) as [Ha _].
  destruct (min_by _ _) as [[t e]|] eqn:Hm; [|by apply take_quiet].
  destruct (checked_add _ _) as [n|] eqn:Hn; [|by apply take_quiet].
  apply min_by_Some, list_elem_of_filter in Hm as [_ Hm%elem_of_entries]. by apply take_ticket_ok.
Qed.

Lemma complete_refused c lg k img now : Cache_ok (c, lg) -> Cache_ok (c, lg ++ [(Complete k img now, Accepted false)]).
Proof.
  intros H. pose proof H as [H1 _ _ _ _ H7 _]. cbn in H1, H7. apply (quiet_ok c); try done.
  - intros k' st Hk. split; [done|]. destruct (H7 k' st Hk) as (_ & _ & e & He & _). by exists e.
  - intros u e' He. right. exists e'. split; [done|]. split; [done|]. intros Hd. split; [done|]. split; [|done].
    intros x Hx%list_elem_of_singleton. done.
Qed.
(** An accepted completion is of the active ticket, in time. *)
Lemma complete_accepts c lg k img now :
  Cache_ok (c, lg) ->
  complete k img now c = (c, false) \/
  exists st e, active c = Some (k, st) /\ since now st < CAPTURE_TIMEOUT /\ cached c !! capture_target k = Some e /\
    complete k img now c =
      (MkCache (<[capture_target k := match img with
                   | Some i => MkEntry (Some (MkSnapshot (capture_revision k) i now)) (dirty e) (requested e && dirty e)
                                 (last_attempt e) (last_used e)
                   | None => MkEntry (snapshot e) true (requested e) (last_attempt e) (last_used e)
                   end]> (cached c)) None (next_revision c), true).
Proof.
  intros [_ _ _ _ _ H7 _]. cbn in H7. unfold complete. destruct (active c) as [[k0 st]|] eqn:Ha; cbn; [|by left].
  case_bool_decide as Hk; cbn; [subst k0|by left]. destruct (Z.leb_spec CAPTURE_TIMEOUT (since now st)); [by left|].
  destruct (H7 k st eq_refl) as (_ & _ & e & He & _). right. exists st, e. rewrite He. done.
Qed.
Lemma complete_ok c lg k img now :
  Cache_ok (c, lg) ->
  Cache_ok ((complete k img now c).1, lg ++ [(Complete k img now, Accepted (complete k img now c).2)]).
Proof.
  intros H. destruct (complete_accepts c lg k img now H) as [->|(st & e & Ha & Ht & He & ->)]; [by apply complete_refused|].
  destruct H as [H1 H2 [H3 H4] [H5 H6] H0 H7 H8]. cbn in *. destruct (H7 k st Ha) as (A1 & A2 & e0 & A3 & A4).
  assert (e0 = e) as -> by congruence. constructor; cbn.
  - by rewrite map_size_insert_Some by (by eexists).
  - done.
  - by rewrite tickets_app, app_nil_r.
  - rewrite tickets_app, accepted_app, app_nil_r. cbn. split.
    + apply list.NoDup_app. split; [done|]. split; [|apply NoDup_singleton]. intros x Hx ->%list_elem_of_singleton. done.
    + intros x [Hx|Hx]%elem_of_app; [by apply H6|].
      apply list_elem_of_singleton in Hx as ->. unfold tickets. apply list_elem_of_omap. eexists. split; [exact A1|done].
  - intros k' img' at' Hin. apply timely_app. apply elem_of_app in Hin as [Hin|Hin]; [by eapply H0|].
    apply list_elem_of_singleton in Hin as [= -> _ ->]. by exists st.
  - done.
  - intros u e' x [[<- <-]|[Hne Hu]]%lookup_insert_Some Hx.
    + destruct img as [i|]; cbn in *.
      * injection Hx as <-. cbn. split.
        -- split; cbn; [destruct k; set_solver|]. exists st. split; [destruct k; set_solver|done].
        -- intros Hd _. apply clean_app; [by apply A4|]. intros y Hy%list_elem_of_singleton. done.
      * destruct (H8 _ _ _ He Hx) as [D _]. split; [by apply delivered_app|]. done.
    + destruct (H8 _ _ _ Hu Hx) as [D1 D2]. split; [by apply delivered_app|]. intros Hd _.
      apply clean_app; [|intros y Hy%list_elem_of_singleton; done]. apply D2; [done|].
      rewrite (capturing_Some _ _ _ _ Ha). by rewrite bool_decide_eq_false_2.
Qed.

Lemma thumb_next_ok s o : Cache_ok s -> Cache_ok (thumb_next s o).
Proof.
  destruct s as [c lg]. intros H. unfold thumb_next, thumb_step. destruct o; cbn [fst snd].
  - pose proof (ask_ok _ _ r now H). by destruct (request r now c).
  - pose proof (take_ok _ _ now H). by destruct (take_capture now c).
  - pose proof (complete_ok _ _ capture img now H). by destruct (complete capture img now c).
  - by apply invalidate_ok.
  - by apply retain_visible_ok.
Qed.
Lemma thumb_run_ok os : Cache_ok (thumb_run os).
Proof.
  induction os as [|o os IH] using rev_ind.
  - constructor; cbn; [apply Nat.le_0_l|done| | | | |].
    + split; [constructor|set_solver].
    + split; [constructor|set_solver].
    + set_solver.
    + done.
    + intros t e x. by rewrite lookup_empty.
  - unfold thumb_run in *. rewrite foldl_snoc. by apply thumb_next_ok.
Qed.

(** ** What the cache promises *)

#[local] Arguments request_entry : simpl never.
(** After any history of requests, captures, completions, invalidations and
    retirements, an answer with an image, or with the word that the asker's is current, is
    about an image delivered for exactly that target (window and occupant), with the ticket
    of the revision it names, before the ticket's timeout; when it is not marked stale the
    target was not invalidated since that ticket was handed out. Without a delivered image
    the answer is that one is pending, and the image goes along exactly when the asker does
    not already have that revision. *)
Theorem answers_fresh (os : list thumb_op) (r : ThumbnailRequest) (now : instant) :
  let '(c, lg) := thumb_run os in
  let x := (request r now c).2 in
  reply_target (reply x) = request_target r /\
  match cached c !! request_target r ≫= snapshot with
  | None => status (reply x) = StatusPending /\ image x = None
  | Some s =>
      let rev := snapshot_revision s in
      delivered lg (request_target r) s /\
      exists f, age_ms f = Z.min u64_max (since now (captured s) / 1000000) /\
        (stale f = false -> clean lg (request_target r) rev) /\
        if bool_decide (if_revision r = Some rev)
        then status (reply x) = Unchanged rev f /\ image x = None
        else status (reply x) = StatusImage rev f (header (snapshot_image s)) /\ image x = Some (snapshot_image s)
  end.
Proof.
  pose proof (thumb_run_ok os) as [_ _ _ _ _ _ H8]. destruct (thumb_run os) as [c lg]. cbn in H8. cbn zeta. set (t := request_target r).
  assert (Hs : snapshot (request_entry t now c) = cached c !! t ≫= snapshot /\
    forall e, cached c !! t = Some e -> dirty (request_entry t now c) = dirty e).
  { unfold request_entry. rewrite evict_self. destruct (cached c !! t); cbn; [|done]. split; [done|]. by intros ? [= ->]. }
  destruct Hs as [Hs Hd]. unfold request. fold t. cbn [snd]. rewrite Hs.
  destruct (cached c !! t) as [e|] eqn:He; cbn; [|done]. rewrite (Hd e eq_refl).
  destruct (snapshot e) as [s|] eqn:Hse; cbn; [|done]. destruct (H8 t e s He Hse) as [D1 D2].
  split; [by case_bool_decide|]. split; [done|].
  exists (MkFreshness (Z.min u64_max (since now (captured s) / 1000000)) (dirty e || capturing t c)).
  split; [done|]. split; [intros [? ?]%orb_false_iff; by apply D2|]. by case_bool_decide.
Qed.

(** After any history the cache holds at most [CACHE_ENTRIES] entries;
    no ticket is handed out twice; every accepted completion carries a ticket handed out
    less than the timeout before, and no ticket is accepted twice. *)
Theorem tickets_accounted (os : list thumb_op) :
  let '(c, lg) := thumb_run os in
  (size (cached c) <= CACHE_ENTRIES)%nat /\ NoDup (tickets lg) /\ NoDup (accepted lg) /\
  (forall k img now, (Complete k img now, Accepted true) ∈ lg -> timely lg k now) /\
  (forall k started, active c = Some (k, started) -> k ∈ tickets lg /\ (k ∉ accepted lg)).
Proof.
  pose proof (thumb_run_ok os) as [H1 _ [H3 _] [H5 _] H0 H7 _]. destruct (thumb_run os) as [c lg]. cbn in *.
  split; [done|]. split; [done|]. split; [done|]. split; [done|]. intros k st Hk.
  destruct (H7 k st Hk) as (A & B & _). split; [|done]. apply list_elem_of_omap. by exists (Take st, Ticket (Some k)).
Qed.

(** A ticket is refused exactly when a capture is still in time, no entry
    is requested and past its refresh interval, or the revisions are exhausted. A ticket
    goes to a due entry no due entry of which was attempted earlier, carries the next
    revision, and leaves its entry neither requested nor dirty and alone active. *)
Theorem take_turn (os : list thumb_op) (now : instant) :
  let c := (thumb_run os).1 in
  match take_capture now c with
  | (_, None) =>
      (exists k st, active c = Some (k, st) /\ since now st < CAPTURE_TIMEOUT) \/
      next_revision c >= u64_max \/
      exists c', expire_capture now c = Some c' /\ forall t e, cached c' !! t = Some e -> due now e = false
  | (d, Some k) =>
      (forall k' st, active c = Some (k', st) -> CAPTURE_TIMEOUT <= since now st) /\
      capture_revision k = next_revision c + 1 /\
      exists c' e, expire_capture now c = Some c' /\ cached c' !! capture_target k = Some e /\ due now e = true /\
        (forall t f, cached c' !! t = Some f -> due now f = true -> attempt_less f e = false) /\
        d = MkCache (<[capture_target k := MkEntry (snapshot e) false false (Some now) (last_used e)]> (cached c'))
              (Some (k, now)) (capture_revision k)
  end.
Proof.
  pose proof (thumb_run_ok os) as [_ H0 _ _ _ _ _]. set (c := (thumb_run os).1) in *. cbn zeta.
  unfold take_capture. destruct (expire_capture now c) as [c'|] eqn:He.
  - destruct (expire_idle _ _ _ He) as [_ Hn]. rewrite Hn.
    destruct (min_by _ _) as [[t e]|] eqn:Hm.
    + pose proof (min_by_least _ attempt_less_trans attempt_less_asym _ _ Hm) as Hl.
      apply min_by_Some, list_elem_of_filter in Hm as [Hdue Hm%elem_of_entries]. cbn in Hdue, Hl.
      destruct (checked_add (next_revision c) 1) as [n|] eqn:Hc.
      * apply checked_Some in Hc as [-> _]. cbn. split; [intros k' st Ha; by eapply expire_late|]. split; [done|].
        exists c', e. split; [done|]. split; [done|]. split; [done|]. split; [|done].
        intros u f Hu Hf. apply (Hl (u, f)). apply list_elem_of_filter. split; [done|]. by apply elem_of_entries.
      * right. left. unfold checked_add, checked in Hc. case_bool_decide; [done|lia].
    + right. right. exists c'. split; [done|]. intros t e Hte. apply min_by_None in Hm.
      destruct (due now e) eqn:Hd; [|done].
      assert ((t, e) ∈ filter (fun p => due now p.2 = true) (entries (cached c'))) as Hin
        by (apply list_elem_of_filter; split; [done|by apply elem_of_entries]).
      rewrite Hm in Hin. by apply not_elem_of_nil in Hin.
  - left. unfold expire_capture in He. destruct (active c) as [[k st]|]; [|done].
    destruct (Z.ltb_spec (since now st) CAPTURE_TIMEOUT); [|done]. by exists k, st.
Qed.
End Cache.

(** An image is within the limits consumers allocate by. *)
Lemma ThumbnailImage_new_bounds {Png} (png_length : Png -> Z) w h bytes i :
  0 <= w -> 0 <= h -> ThumbnailImage_new png_length w h bytes = Ret i ->
  header i = MkImageHeader w h (png_length (png i)) /\
  1 <= w <= MAX_EDGE /\ 1 <= h <= MAX_EDGE /\ 1 <= png_length (png i) <= MAX_IMAGE_BYTES.
Proof.
  intros Hw Hh. unfold ThumbnailImage_new, validate_header. case_bool_decide as Hn; [|done]. cbn.
  destruct ((w =? 0) || (h =? 0) || (MAX_EDGE <? w) || (MAX_EDGE <? h)) eqn:He; [done|]. cbn.
  destruct ((png_length bytes =? 0) || (MAX_IMAGE_BYTES <? png_length bytes)) eqn:Hb; [done|]. cbn.
  intros [= <-]. cbn. rewrite !orb_false_iff, !Z.eqb_neq, !Z.ltb_ge in *. split; [done|lia].
Qed.

(** ** A capture from request to refresh *)
Definition sample_target := MkTarget 7 (MkClientSurfaceId (MkClientId (MkClientSourceId 3) 1) 1).
Definition sample_image : @ThumbnailImage (list Z) := MkImage (MkImageHeader 320 180 3) [1; 2; 3].
Definition sample_ask (rev : option Z) (now : instant) : @thumb_op (list Z) := Ask (MkThumbnailRequest sample_target rev) now.
Definition sample_ticket := MkCapture sample_target 1.
Definition sample_history : list thumb_op :=
  [sample_ask None 0; Take 0; sample_ask None 1; Complete sample_ticket (Some sample_image) (from_secs 1);
   sample_ask None (from_secs 1); sample_ask (Some 1) (from_secs 1); Invalidate sample_target;
   sample_ask (Some 1) (from_secs 1); Take (from_secs 1); Take (from_secs 2)].
Example sample_answers :
  (thumb_run sample_history).2.*2 =
  [Response (response_status sample_target StatusPending); Ticket (Some sample_ticket);
   Response (response_status sample_target StatusPending); Accepted true;
   Response (MkResponse (MkThumbnailReply sample_target (StatusImage 1 (MkFreshness 0 false) (MkImageHeader 320 180 3)))
     (Some sample_image));
   Response (response_status sample_target (Unchanged 1 (MkFreshness 0 false))); Nothing;
   Response (response_status sample_target (Unchanged 1 (MkFreshness 0 true)));
   Ticket None; Ticket (Some (MkCapture sample_target 2))].
Proof. vm_compute. reflexivity. Qed.
(** A completion after the timeout is refused, and the capture is tried again. *)
Example sample_timeout :
  let lg := (thumb_run (Png := list Z) [sample_ask None 0; Take 0; Complete sample_ticket (Some sample_image) (from_secs 5);
     Take (from_secs 5)]).2 in
  lg.*2 = [Response (response_status sample_target StatusPending); Ticket (Some sample_ticket); Accepted false;
    Ticket (Some (MkCapture sample_target 2))].
Proof. vm_compute. reflexivity. Qed.
(** What changes during a capture makes its image stale, with another refresh to come. *)
Example sample_changed_during :
  let '(c, lg) := thumb_run [sample_ask None 0; Take 0; Invalidate sample_target;
     Complete sample_ticket (Some sample_image) (from_secs 1); sample_ask None (from_secs 1)] in
  list.last lg.*2 = Some (Response (MkResponse (MkThumbnailReply sample_target
    (StatusImage 1 (MkFreshness 0 true) (MkImageHeader 320 180 3))) (Some sample_image))) /\
  (take_capture (from_secs 2) c).2 = Some (MkCapture sample_target 2).
Proof. vm_compute. split; reflexivity. Qed.
