(* ===== verification/Sessions.v ===== *)
(** * The session service ([weld-hoist-core/src/session.rs])

    One owner handles the events of a bounded queue: sessions joined with a permit of the
    access authority, the catalogues published for them and their subscribers, actions for
    the host, and previews. The authority and the endpoints of every channel run beside it:
    they act between events, and inside one after its pruning. *)

From S2P Require Import Prelude OrdMap Ids Access Devices Thumbnails.

Definition MAX_SESSIONS : nat := 8.
Definition MAX_COMMANDS : nat := 64.
Definition MAX_APPLICATIONS : nat := 256.
Abbreviation SessionId := Z (only parsing).

(** ** Catalogue channels

    A subscription's channel holds one snapshot. The publisher's end is the session's
    [subscriber]; [closed] is set when the subscription is dropped. *)
Record CatalogueSnapshot := MkSnapshot { snapshot_revision : Z; snapshot_applications : list ApplicationInfo }.
#[export] Instance CatalogueSnapshot_eq_dec : EqDecision CatalogueSnapshot.
Proof. solve_decision. Defined.
Record Channel := MkChannel { slot : option CatalogueSnapshot; closed : bool; subscription_access : Z }.
(** [CataloguePublisher::publish]: a full channel gives up the older snapshot. *)
Definition publish_to (s : CatalogueSnapshot) (ch : Channel) : Channel :=
  if closed ch then ch else MkChannel (Some s) (closed ch) (subscription_access ch).
(** [Drop for CatalogueSubscription] *)
Definition close_channel (ch : Channel) : Channel := MkChannel (slot ch) true (subscription_access ch).

Section Service.
Context {Png : Type}.

(** ** Commands *)
Inductive DeviceAction :=
  | Hoist (session : SessionId) (window : Z) (answer : Reply)
  | Release (session : SessionId) (answer : Reply).
Definition action_session (x : DeviceAction) : SessionId :=
  match x with Hoist s _ _ => s | Release s _ => s end.
Definition action_answer (x : DeviceAction) : Reply :=
  match x with Hoist _ _ r => r | Release _ r => r end.
Definition is_hoist (x : DeviceAction) : bool := match x with Hoist _ _ _ => true | Release _ _ => false end.

Inductive Event :=
  | Subscribe (session : SessionId) (answer : Reply)
  | Join (access : Z) (permissions : DevicePermissions) (answer : Reply)
  | Wake
  | Publish (session : SessionId) (applications : list ApplicationInfo)
  | Catalogue (session : SessionId) (answer : Reply)
  | Action (action : DeviceAction)
  | Thumbnail (session : SessionId) (request : ThumbnailRequest) (answer : Reply)
  | InvalidateTarget (target : ThumbnailTarget)
  | TakeCapture (answer : Reply)
  | CompleteCapture (capture : ThumbnailCapture) (img : option (ThumbnailImage (Png := Png))) (answer : Reply).

(** What a reply delivers to its receiver. *)
Inductive Answer :=
  | Subscribed (r : outcome Z)
  | Joined (r : outcome SessionId)
  | Catalogued (r : outcome (list ApplicationInfo))
  | Acted (b : bool)
  | Previewed (r : ThumbnailResponse (Png := Png))
  | Captured (t : option ThumbnailCapture)
  | Completed (b : bool).

(** ** State *)
Record Session := MkSession {
  access : Z;
  permissions : DevicePermissions;
  applications : list ApplicationInfo;
  revision : Z;
  subscriber : option Z;
}.
(** The action queue keeps each action with the permit its answer needs. *)
Record Controller := MkController {
  sessions : gmap SessionId Session;
  next : Z;
  previews : Cache (Png := Png);
  actions : list (DeviceAction * Z);
  notified : Z;
  channels : gmap Z Channel;
  next_channel : Z;
}.
Definition Controller_new : Controller := MkController ∅ 0 Cache_default [] 0 ∅ 0.
Definition set_sessions (m : gmap SessionId Session) (c : Controller) : Controller :=
  MkController m (next c) (previews c) (actions c) (notified c) (channels c) (next_channel c).
Definition set_previews (p : Cache) (c : Controller) : Controller :=
  MkController (sessions c) (next c) p (actions c) (notified c) (channels c) (next_channel c).
Definition set_actions (l : list (DeviceAction * Z)) (c : Controller) : Controller :=
  MkController (sessions c) (next c) (previews c) l (notified c) (channels c) (next_channel c).
Definition set_channels (m : gmap Z Channel) (c : Controller) : Controller :=
  MkController (sessions c) (next c) (previews c) (actions c) (notified c) m (next_channel c).
Definition notify (c : Controller) : Controller :=
  MkController (sessions c) (next c) (previews c) (actions c) (notified c + 1) (channels c) (next_channel c).

(** ** Visibility *)
Definition lists (t : ThumbnailTarget) (apps : list ApplicationInfo) : bool :=
  existsb (fun app => (app_window app =? target_window t) && bool_decide (app_surface app = target_surface t)) apps.
Definition shows (t : ThumbnailTarget) (s : Session) : bool :=
  browse (permissions s) && thumbnails (permissions s) && lists t (applications s).
Definition visible (m : gmap SessionId Session) (t : ThumbnailTarget) : bool :=
  existsb (fun p => shows t p.2) (entries m).
(** [prune_thumbnails] and [prune] *)
Definition prune_thumbnails (c : Controller) : Controller :=
  set_previews (retain_visible (visible (sessions c)) (previews c)) c.
Definition prune (a : AccessAuthority) (c : Controller) : Controller :=
  let kept := filter (fun p => is_authorized (access p.2) a = true) (sessions c) in
  if bool_decide (size kept = size (sessions c)) then set_sessions kept c
  else prune_thumbnails (set_sessions kept c).

(** ** Handlers *)
Abbreviation world := (AccessAuthority * Controller)%type (only parsing).
(** [Reply::send] *)
Definition deliver (r : Reply) (x : Answer) : option Answer := if send_fails r then None else Some x.

(** [Controller::join] *)
Definition join (k : Z) (p : DevicePermissions) (a : AccessAuthority) (c : Controller) : Controller * outcome SessionId :=
  match ensure (is_authorized k a) "desktop access revoked" with
  | Ret _ =>
      match ensure (bool_decide (size (sessions c) < MAX_SESSIONS)%nat) "desktop session capacity reached" with
      | Ret _ =>
          match opt_context (checked_add (next c) 1) "desktop session IDs exhausted" with
          | Ret id =>
              (MkController (<[id := MkSession k p [] 0 None]> (sessions c)) id (previews c) (actions c) (notified c)
                 (channels c) (next_channel c), Ret id)
          | Fail e => (c, Fail e)
          | Panic => (c, Panic)
          end
      | Fail e => (c, Fail e)
      | Panic => (c, Panic)
      end
  | Fail e => (c, Fail e)
  | Panic => (c, Panic)
  end.
Definition handle_join (k : Z) (p : DevicePermissions) (r : Reply) (a : AccessAuthority) (c : Controller) :
    AccessAuthority * Controller * option Answer :=
  let '(c, result) := join k p a c in
  match deliver r (Joined result) with
  | Some x => (a, c, Some x)
  | None => (end_session k a, match ok result with Some id => set_sessions (delete id (sessions c)) c | None => c end, None)
  end.

Definition session_with (ok : Session -> bool) (id : SessionId) (c : Controller) : option Session :=
  match sessions c !! id with Some s => if ok s then Some s else None | None => None end.
Definition browses (s : Session) : bool := browse (permissions s).

Definition snapshot_of (s : Session) : CatalogueSnapshot := MkSnapshot (revision s) (applications s).
Definition set_subscriber (ch : Z) (s : Session) : Session :=
  MkSession (access s) (permissions s) (applications s) (revision s) (Some ch).
(** A subscription that is not delivered is dropped, which closes its channel. *)
Definition handle_subscribe (id : SessionId) (r : Reply) (c : Controller) : Controller * option Answer :=
  match session_with browses id c with
  | Some s =>
      let ch := next_channel c in
      let fresh := publish_to (snapshot_of s) (MkChannel None false (access s)) in
      (MkController (<[id := set_subscriber ch s]> (sessions c)) (next c) (previews c) (actions c) (notified c)
         (<[ch := if send_fails r then close_channel fresh else fresh]> (channels c)) (ch + 1),
       deliver r (Subscribed (Ret ch)))
  | None => (c, deliver r (Subscribed (Fail (ErrMsg "desktop session unavailable"))))
  end.

Definition handle_publish (id : SessionId) (apps : list ApplicationInfo) (a : AccessAuthority) (c : Controller) :
    AccessAuthority * Controller :=
  match sessions c !! id with
  | None => (a, c)
  | Some s =>
      if bool_decide (applications s = apps) then (a, c)
      else match checked_add (revision s) 1 with
           | None => (end_session (access s) a, c)
           | Some n =>
               let s := MkSession (access s) (permissions s) apps n (subscriber s) in
               let c := set_sessions (<[id := s]> (sessions c)) c in
               let c := match subscriber s with
                        | Some ch => set_channels (alter (publish_to (snapshot_of s)) ch (channels c)) c
                        | None => c
                        end in
               (a, prune_thumbnails c)
           end
  end.

Definition handle_action (x : DeviceAction) (a : AccessAuthority) (c : Controller) : Controller * option Answer :=
  let r := action_answer x in
  match session_with (fun s => negb (is_hoist x) || hoist (permissions s)) (action_session x) c with
  | None => (c, deliver r (Acted false))
  | Some s =>
      if is_closed r || negb (is_authorized (access s) a) then (c, None)
      else if bool_decide (length (actions c) < MAX_COMMANDS)%nat
      then (notify (set_actions (actions c ++ [(x, access s)]) c), None)
      else (c, deliver r (Acted false))
  end.

Definition preview_status (t : ThumbnailTarget) (o : option Session) : option ThumbnailStatus :=
  match o with
  | None => Some Unavailable
  | Some s =>
      if negb (browse (permissions s)) || negb (thumbnails (permissions s)) then Some Denied
      else if negb (lists t (applications s)) then Some Unavailable
      else None
  end.
Definition handle_thumbnail (id : SessionId) (q : ThumbnailRequest) (r : Reply) (now : instant) (c : Controller) :
    Controller * option Answer :=
  if is_closed r then (c, None)
  else match preview_status (request_target q) (sessions c !! id) with
       | Some st => (c, deliver r (Previewed (response_status (request_target q) st)))
       | None =>
           let '(p, x) := request q now (previews c) in
           let c := set_previews p c in
           (if send_fails r then c else notify c, deliver r (Previewed x))
       end.

(** [Controller::handle]; [race] is what the authority does after the pruning. *)
Definition handle (race : list access_operation) (e : Event) (now : instant) (w : world) :
    AccessAuthority * Controller * option Answer :=
  let c := prune w.1 w.2 in
  let a := access_run w.1 race in
  match e with
  | Subscribe id r => let '(c, x) := handle_subscribe id r c in (a, c, x)
  | Join k p r => handle_join k p r a c
  | Wake => (a, c, None)
  | Publish id apps => let '(a, c) := handle_publish id apps a c in (a, c, None)
  | Catalogue id r =>
      (a, c, deliver r (Catalogued (opt_context (applications <$> session_with browses id c) "desktop session unavailable")))
  | Action x => let '(c, y) := handle_action x a c in (a, c, y)
  | Thumbnail id q r => let '(c, x) := handle_thumbnail id q r now c in (a, c, x)
  | InvalidateTarget t => (a, set_previews (invalidate t (previews c)) c, None)
  | TakeCapture r =>
      if is_closed r then (a, c, None)
      else let '(p, t) := take_capture now (previews c) in (a, set_previews p c, deliver r (Captured t))
  | CompleteCapture k img r =>
      let '(p, b) := complete k img now (previews c) in (a, set_previews p c, deliver r (Completed b))
  end.

(** ** The service's handle *)
(** [SessionService::submit] *)
Definition submit (e : Event) (q : list Event) : list Event * outcome unit :=
  if bool_decide (length q < MAX_COMMANDS)%nat then (q ++ [e], Ret tt)
  else (q, Fail (ErrMsg "session service busy or stopped")).
(** [SessionService::publish] *)
Definition publish (id : SessionId) (apps : list ApplicationInfo) (q : list Event) : list Event * outcome unit :=
  let apps := take MAX_APPLICATIONS apps in
  match ensure (forallb (fun app => bool_decide (String.length (app_title app) <= 320)%nat
                         && bool_decide (String.length (app_app_id app) <= 256)%nat) apps)
          "catalogue labels exceed bounds" with
  | Ret _ => submit (Publish id apps) q
  | Fail e => (q, Fail e)
  | Panic => (q, Panic)
  end.
(** [SessionService::take_actions] *)
Definition take_actions (c : Controller) : Controller * list (DeviceAction * Z) :=
  (set_actions (drop MAX_COMMANDS (actions c)) c, take MAX_COMMANDS (actions c)).
(** [CatalogueSubscription::next], polled: [None] while it waits. A snapshot is taken
    even when the permit turns out to be revoked. *)
Definition has_publisher (ch : Z) (c : Controller) : bool :=
  existsb (fun p => bool_decide (subscriber p.2 = Some ch)) (entries (sessions c)).
Definition next_snapshot (ch : Z) (a : AccessAuthority) (c : Controller) : Controller * option (outcome CatalogueSnapshot) :=
  match channels c !! ch with
  | None => (c, None)
  | Some k =>
      match slot k with
      | Some s =>
          (set_channels (<[ch := MkChannel None (closed k) (subscription_access k)]> (channels c)) c,
           Some (_ ← ensure (is_authorized (subscription_access k) a) "catalogue access revoked"; Ret s))
      | None =>
          (c, if closed k || negb (has_publisher ch c) then Some (Fail (ErrMsg "catalogue subscription ended")) else None)
      end
  end.
(** [Drop for Controller]: every session's permit ends. *)
Definition drop_controller (a : AccessAuthority) (c : Controller) : AccessAuthority :=
  foldr (fun p a => end_session (access p.2) a) a (entries (sessions c)).

(** ** Histories

    Calls of the service, the owner taking an event off the queue, subscribers and the
    authority. [taken] is what was taken out of the channels, in order, and [answered] what
    commands got. *)
Inductive operation :=
  | Authority (o : access_operation)
  | Call (e : Event)
  | Leave (access : Z)
  | Work (race : list access_operation) (now : instant)
  | TakeActions
  | Next (ch : Z)
  | Unsubscribe (ch : Z)
  | Stop.
Record Service := MkService {
  authority : AccessAuthority;
  controller : Controller;
  queue : list Event;
  running : bool;
  taken : list (Z * CatalogueSnapshot);
  answered : list (Event * Answer);
}.
Definition Service_new (a : AccessAuthority) : Service := MkService a Controller_new [] true [] [].
(** A call goes through [submit], a catalogue through [publish]; an awaited send is a call
    made once there is room. *)
Definition call (e : Event) (q : list Event) : list Event :=
  match e with
  | Publish id apps => (publish id apps q).1
  | _ => (submit e q).1
  end.
Definition service_step (s : Service) (o : operation) : Service :=
  let '(MkService a c q up got ans) := s in
  match o with
  | Authority o => MkService (access_step a o) c q up got ans
  | Call e => if up then MkService a c (call e q) up got ans else s
  | Leave k => MkService (end_session k a) c (if up then (submit Wake q).1 else q) up got ans
  | Work race now =>
      match (if up then q else []) with
      | [] => s
      | e :: q =>
          let '(a, c, x) := handle race e now (a, c) in
          MkService a c q up got (ans ++ ((fun x => (e, x)) <$> option_list x))
      end
  | TakeActions => MkService a (take_actions c).1 q up got ans
  | Next ch =>
      MkService a (next_snapshot ch a c).1 q up
        (got ++ ((fun s => (ch, s)) <$> option_list (channels c !! ch ≫= slot))) ans
  | Unsubscribe ch => MkService a (set_channels (alter close_channel ch (channels c)) c) q up got ans
  | Stop => if up then MkService (drop_controller a c) c [] false got ans else s
  end.
Definition service_run (s : Service) (os : list operation) : Service := foldl service_step s os.

(** ** Sessions in the map *)
Lemma visible_spec m t : visible m t = true <-> exists id s, m !! id = Some s /\ shows t s = true.
Proof.
  unfold visible. rewrite existsb_exists. split.
  - intros ([id s] & Hin%list_elem_of_In%elem_of_entries & H). by exists id, s.
  - intros (id & s & Hs & H). exists (id, s). split; [|done]. by apply list_elem_of_In, elem_of_entries.
Qed.
Lemma prune_sessions a c id s :
  sessions (prune a c) !! id = Some s <-> sessions c !! id = Some s /\ is_authorized (access s) a = true.
Proof. unfold prune. case_bool_decide; cbn; apply map_lookup_filter_Some. Qed.
Lemma prune_same a c :
  next (prune a c) = next c /\ actions (prune a c) = actions c /\ channels (prune a c) = channels c /\
  next_channel (prune a c) = next_channel c.
Proof. unfold prune. case_bool_decide; by repeat split. Qed.
Lemma session_with_Some f id c s : session_with f id c = Some s <-> sessions c !! id = Some s /\ f s = true.
Proof. unfold session_with. destruct (sessions c !! id) as [s'|]; [destruct (f s') eqn:?|]; naive_solver congruence. Qed.
Lemma deliver_Some r x y : deliver r x = Some y -> y = x /\ send_fails r = false.
Proof. unfold deliver. destruct (send_fails r); [done|]. by intros [= <-]. Qed.
Lemma preview_status_None t o : preview_status t o = None <-> exists s, o = Some s /\ shows t s = true.
Proof.
  unfold preview_status, shows. destruct o as [s|]; [|split; [done|by intros (? & ? & _)]].
  destruct (browse (permissions s)) eqn:Hb, (thumbnails (permissions s)) eqn:Ht, (lists t (applications s)) eqn:Hl;
    cbn; split; intros H; try done; try (exists s; by rewrite Hb, Ht, Hl);
    destruct H as (? & [= <-] & H); by rewrite ?Hb, ?Ht, ?Hl in H.
Qed.

(** ** Previews kept

    The cache keeps to the targets it was asked for. *)
Definition within (P : ThumbnailTarget -> Prop) (p : Cache (Png := Png)) : Prop :=
  (size (cached p) <= CACHE_ENTRIES)%nat /\ (forall t, is_Some (cached p !! t) -> P t) /\
  (forall k st, active p = Some (k, st) -> P (capture_target k)).

Lemma within_mono (P Q : ThumbnailTarget -> Prop) p : (forall t, P t -> Q t) -> within P p -> within Q p.
Proof. intros H (H1 & H2 & H3). split; [done|]. split; eauto. Qed.
Lemma within_retain (v : ThumbnailTarget -> bool) p :
  (size (cached p) <= CACHE_ENTRIES)%nat -> within (fun t => v t = true) (retain_visible v p).
Proof.
  intros H. split; [cbn; etrans; [apply map_subseteq_size, map_filter_subseteq|done]|]. split.
  - intros t [e He]. cbn in He. by apply map_lookup_filter_Some in He as [_ He].
  - intros k st. cbn. destruct (active p) as [[k' st']|]; cbn; [|done].
    destruct (v (capture_target k')) eqn:Hv; cbn; [|done]. by intros [= <- <-].
Qed.
Lemma within_request P q now p : within P p -> P (request_target q) -> within P (request q now p).1.
Proof.
  intros (H1 & H2 & H3) Hq. split; [by apply request_bound|]. split; [|done].
  intros u [e Hu]. unfold request in Hu. cbn [fst set_cached cached] in Hu. apply lookup_insert_Some in Hu as [[<- _]|[_ Hu]]; [done|]. apply H2. exists e. by eapply evict_sub.
Qed.
Lemma within_alter P f t p (a : option (ThumbnailCapture * instant)) n :
  within P p -> (forall k st, a = Some (k, st) -> active p = Some (k, st)) -> within P (MkCache (alter f t (cached p)) a n).
Proof.
  intros (H1 & H2 & H3) Ha. split; [cbn; by rewrite size_alter|]. split; [|intros k st Hk; by eapply H3, Ha].
  intros u. cbn. rewrite lookup_alter_is_Some. apply H2.
Qed.
Lemma within_invalidate P t p : within P p -> within P (invalidate t p).
Proof. intros H. by apply within_alter. Qed.
Lemma within_insert P t e p a n :
  within P p -> is_Some (cached p !! t) -> (forall k st, a = Some (k, st) -> capture_target k = t) ->
  within P (MkCache (<[t := e]> (cached p)) a n).
Proof.
  intros (H1 & H2 & H3) Ht Ha. split; [cbn; by rewrite map_size_insert_Some|].
  assert (P t) by by apply H2. split; [|intros k st Hk; by rewrite (Ha k st Hk)].
  intros u [x Hu]. cbn in Hu. apply lookup_insert_Some in Hu as [[<- _]|[_ Hu]]; [done|]. by apply H2; exists x.
Qed.
Lemma within_idle P p : within P p -> within P (clear_active p).
Proof. intros (H1 & H2 & H3). by split. Qed.
Lemma within_take P now p : within P p -> within P (take_capture now p).1.
Proof.
  intros H. unfold take_capture. destruct (expire_capture now p) as [p'|] eqn:He; [|done].
  assert (H' : within P p').
  { unfold expire_capture in He. destruct (active p) as [[k st]|]; [destruct (_ <? _); [done|]|]; injection He as <-; [|done].
    by apply within_alter. }
  destruct (min_by _ _) as [[t e]|] eqn:Hm; [|done]. destruct (checked_add _ _); [|done]. cbn.
  apply min_by_Some, list_elem_of_filter in Hm as [_ Hm%elem_of_entries].
  apply within_insert; [done|by eexists|]. by intros k st [= <- _].
Qed.
Lemma within_complete P k img now p : within P p -> within P (complete k img now p).1.
Proof.
  intros H. unfold complete. destruct (is_none_or _ _); [done|]. apply within_idle in H.
  destruct (cached (clear_active p) !! capture_target k) eqn:He; [|done]. cbn. apply (within_insert P _ _ (clear_active p)); [done|by eexists|done].
Qed.

(** ** What a session is given *)
(** The session is in the map, holds its permit and passes the handler's guard. *)
Definition granted (a : AccessAuthority) (c : Controller) (guard : Session -> bool) (id : SessionId) (s : Session) : Prop :=
  sessions c !! id = Some s /\ is_authorized (access s) a = true /\ guard s = true.
Definition may (x : DeviceAction) (s : Session) : bool := negb (is_hoist x) || hoist (permissions s).

Lemma granted_prune a c f id s : session_with f id (prune a c) = Some s -> granted a c f id s.
Proof. intros [[H1 H2]%prune_sessions H3]%session_with_Some. done. Qed.
Lemma request_about q now (p : Cache (Png := Png)) :
  reply_target (reply (request q now p).2) = request_target q /\
  status (reply (request q now p).2) <> Denied /\ status (reply (request q now p).2) <> Unavailable.
Proof. unfold request. cbn. destruct (snapshot _); [case_bool_decide|]; done. Qed.
Lemma handle_thumbnail_answer id q r now a c c' x :
  handle_thumbnail id q r now (prune a c) = (c', Some x) ->
  exists y, x = Previewed y /\
    match status (reply y) with
    | Denied | Unavailable => image y = None
    | _ => reply_target (reply y) = request_target q /\ exists s, granted a c (shows (request_target q)) id s
    end.
Proof.
  unfold handle_thumbnail. destruct (is_closed r); [done|].
  destruct (preview_status _ _) as [st|] eqn:Hs.
  - intros [= _ [-> _]%deliver_Some]. eexists. split; [done|]. cbn.
    unfold preview_status in Hs. destruct (sessions _ !! id) as [s|]; [|by injection Hs as <-].
    destruct (_ || _); [by injection Hs as <-|]. destruct (negb _); [by injection Hs as <-|done].
  - apply preview_status_None in Hs as (s & [Hs Ha]%prune_sessions & Hv).
    pose proof (request_about q now (previews (prune a c))) as (H1 & H2 & H3).
    destruct (request _ _ _) as [p y]. cbn in H1, H2, H3. intros [= _ [-> _]%deliver_Some]. exists y. split; [done|].
    destruct (status (reply y)); try done; (split; [done|]; by exists s).
Qed.
Lemma handle_action_queue x a0 a c y k :
  (y, k) ∈ actions (handle_action x a (prune a0 c)).1 -> (y, k) ∈ actions c \/
  x = y /\ is_authorized k a = true /\ exists s, k = access s /\ granted a0 c (may y) (action_session y) s.
Proof.
  pose proof (prune_same a0 c) as (_ & Hq & _). unfold handle_action. fold (may x).
  destruct (session_with _ _ _) as [s|] eqn:Hs; [|rewrite <- Hq; by left].
  destruct (is_closed _ || _) eqn:Hc; [rewrite <- Hq; by left|].
  case_bool_decide; cbn [fst]; [|rewrite <- Hq; by left]. cbn. rewrite Hq.
  intros [?|[= -> ->]%list_elem_of_singleton]%elem_of_app; [by left|right]. split; [done|].
  apply orb_false_iff in Hc as [_ Hc%negb_false_iff]. split; [done|]. exists s. split; [done|]. by apply granted_prune.
Qed.
Lemma handle_join_answer k p r a c a' c' x :
  handle_join k p r a c = (a', c', Some x) ->
  a' = a /\ (forall id, x = Joined (Ret id) ->
    is_authorized k a = true /\ sessions c' !! id = Some (MkSession k p [] 0 None)).
Proof.
  unfold handle_join, join, deliver. destruct (is_authorized k a); cbn.
  2: { destruct (send_fails r); intros [= <- <- <-]; split; [done|]; by intros id [=]. }
  case_bool_decide; cbn. 2: { destruct (send_fails r); intros [= <- <- <-]; split; [done|]; by intros id [=]. }
  destruct (checked_add (next c) 1) as [n|]; cbn; destruct (send_fails r); intros [= <- <- <-]; (split; [done|]);
    intros id [=]; subst. split; [done|]. apply lookup_insert_eq.
Qed.
Lemma handle_queue race e now a c y k :
  (y, k) ∈ actions (handle race e now (a, c)).1.2 -> (y, k) ∈ actions c \/
  e = Action y /\ is_authorized k (access_run a race) = true /\
  exists s, k = access s /\ granted a c (may y) (action_session y) s.
Proof.
  pose proof (prune_same a c) as (_ & Hq & _). unfold handle. cbn [fst snd].
  destruct e as [id r|k' p r| |id apps|id r|x|id q r|t|r|k' img r].
  - unfold handle_subscribe. destruct (session_with _ _ _); cbn; rewrite Hq; by left.
  - unfold handle_join, join. destruct (is_authorized k' _); cbn; [case_bool_decide; cbn; [destruct (checked_add _ _); cbn|]|];
      destruct (deliver _ _); cbn; rewrite Hq; by left.
  - cbn. rewrite Hq. by left.
  - unfold handle_publish. destruct (sessions _ !! id) as [s|]; cbn; [|rewrite Hq; by left].
    case_bool_decide; cbn; [rewrite Hq; by left|]. destruct (checked_add _ _); cbn; [|rewrite Hq; by left].
    destruct (subscriber s); cbn; rewrite Hq; by left.
  - cbn. rewrite Hq. by left.
  - intros H. destruct (handle_action_queue x a (access_run a race) c y k) as [?|(-> & ? & ?)].
    { by destruct (handle_action x (access_run a race) (prune a c)). }
    + by left.
    + by right.
  - unfold handle_thumbnail. destruct (is_closed r); cbn; [rewrite Hq; by left|].
    destruct (preview_status _ _); cbn; [rewrite Hq; by left|]. destruct (send_fails r); cbn; rewrite Hq; by left.
  - cbn. rewrite Hq. by left.
  - destruct (is_closed r); [|destruct (take_capture _ _)]; cbn; rewrite Hq; by left.
  - destruct (complete _ _ _ _). cbn. rewrite Hq. by left.
Qed.

(** C9 (session-confine). Whatever the state, an event's answer gives a session only what
    it may have: a preview, or the word that one is pending or current, only to a session
    that held its permit when the event was taken up, may browse and see previews, and
    whose own catalogue lists the target; a catalogue or a subscription only to one that
    may browse, its own and starting with the current one; a new session only to a permit
    still valid. An action reaches the host's queue only for such a session, a hoist only
    with the permission, and under that session's permit. *)
Theorem handle_confined (race : list access_operation) (e : Event) (now : instant) (a : AccessAuthority) (c : Controller) :
  let '(_, c', x) := handle race e now (a, c) in
  match x with
  | Some (Previewed y) =>
      match status (reply y) with
      | Denied | Unavailable => image y = None
      | _ => exists id q r s, e = Thumbnail id q r /\ reply_target (reply y) = request_target q /\
               granted a c (shows (request_target q)) id s
      end
  | Some (Catalogued (Ret apps)) => exists id r s, e = Catalogue id r /\ granted a c browses id s /\ apps = applications s
  | Some (Subscribed (Ret ch)) =>
      exists id r s, e = Subscribe id r /\ granted a c browses id s /\
        channels c' !! ch = Some (MkChannel (Some (snapshot_of s)) false (access s))
  | Some (Joined (Ret id)) =>
      exists k p r, e = Join k p r /\ is_authorized k (access_run a race) = true /\
        sessions c' !! id = Some (MkSession k p [] 0 None)
  | _ => True
  end /\
  forall y k, (y, k) ∈ actions c' -> (y, k) ∈ actions c \/
    e = Action y /\ is_authorized k (access_run a race) = true /\
    exists s, k = access s /\ granted a c (may y) (action_session y) s.
Proof.
  pose proof (fun y k => handle_queue race e now a c y k) as Hq.
  destruct (handle race e now (a, c)) as [[a' c'] x] eqn:Hh. split; [|exact Hq]. destruct x as [x|]; [|done].
  unfold handle in Hh. cbn [fst snd] in Hh. clear Hq.
  destruct e as [id r|k p r| |id apps|id r|y|id q r|t|r|k img r].
  - unfold handle_subscribe in Hh. destruct (session_with _ _ _) as [s|] eqn:Hs.
    + injection Hh as _ <- [-> Hr]%deliver_Some. exists id, r, s. split; [done|]. split; [by apply granted_prune|].
      cbn. by rewrite lookup_insert_eq, Hr.
    + by injection Hh as _ _ [-> _]%deliver_Some.
  - pose proof (handle_join_answer _ _ _ _ _ _ _ _ Hh) as [_ Hj]. destruct x as [|[id| |]| | | | |]; try done; cycle -1.
    all: try (unfold handle_join in Hh; destruct (join _ _ _ _) as [? ?]; unfold deliver in Hh; destruct (send_fails r); congruence).
    destruct (Hj id eq_refl) as (H1 & H2). by exists k, p, r.
  - done.
  - by destruct (handle_publish _ _ _ _).
  - injection Hh as _ _ [-> _]%deliver_Some. destruct (session_with _ _ _) as [s|] eqn:Hs; cbn; [|done].
    exists id, r, s. split; [done|]. split; [by apply granted_prune|done].
  - assert (exists b, x = Acted b) as [b ->]; [|done]. unfold handle_action in Hh.
    destruct (session_with _ _ _); [destruct (_ || _); [done|]; case_bool_decide; [done|]|];
      injection Hh as _ _ [-> _]%deliver_Some; by eexists.
  - destruct (handle_thumbnail _ _ _ _ _) as [c1 x1] eqn:Ht. injection Hh as _ _ ->.
    apply handle_thumbnail_answer in Ht as (y & -> & Hy). destruct (status (reply y)); try done;
      destruct Hy as [Hy (s & Hs)]; by exists id, q, r, s.
  - done.
  - destruct (is_closed r); [done|]. destruct (take_capture _ _). by injection Hh as _ _ [-> _]%deliver_Some.
  - destruct (complete _ _ _ _). by injection Hh as _ _ [-> _]%deliver_Some.
Qed.

(** ** The controller's bounds *)
Definition labels_ok (apps : list ApplicationInfo) : bool :=
  forallb (fun app => bool_decide (String.length (app_title app) <= 320)%nat
             && bool_decide (String.length (app_app_id app) <= 256)%nat) apps.
Definition catalogue_ok (apps : list ApplicationInfo) : Prop :=
  (length apps <= MAX_APPLICATIONS)%nat /\ labels_ok apps = true.
Record Bounds_ok (c : Controller) : Prop := {
  session_count : (size (sessions c) <= MAX_SESSIONS)%nat;
  session_ids : 0 <= next c <= u64_max /\ forall id s, sessions c !! id = Some s -> 1 <= id <= next c;
  action_count : (length (actions c) <= MAX_COMMANDS)%nat;
  session_catalogues : forall id s, sessions c !! id = Some s -> catalogue_ok (applications s);
  previews_within : within (fun t => visible (sessions c) t = true) (previews c);
}.
(** Only the fields above matter. *)
Lemma Bounds_ok_ext c c' :
  sessions c' = sessions c -> next c' = next c -> (length (actions c') <= length (actions c))%nat ->
  previews c' = previews c -> Bounds_ok c -> Bounds_ok c'.
Proof. intros Hs Hn Hq Hp [H1 H2 H3 H4 H5]. constructor; rewrite ?Hs, ?Hn, ?Hp; try done. lia. Qed.
Lemma Bounds_previews c p :
  Bounds_ok c -> within (fun t => visible (sessions c) t = true) p -> Bounds_ok (set_previews p c).
Proof. intros [H1 H2 H3 H4 _] H. by constructor. Qed.
(** Sessions go, or their catalogues change: the previews are pruned after. *)
Lemma Bounds_pruned c m :
  (size m <= MAX_SESSIONS)%nat -> (forall id s, m !! id = Some s -> 1 <= id <= next c /\ catalogue_ok (applications s)) ->
  Bounds_ok c -> Bounds_ok (prune_thumbnails (set_sessions m c)).
Proof.
  intros Hm He [H1 H2 H3 H4 (H5 & _)]. constructor; cbn; try done; try (intros; by eapply He).
  - split; [apply H2|]. intros id s Hs. by eapply He.
  - by apply (within_retain (visible m)).
Qed.
Lemma prune_bounds a c : Bounds_ok c -> Bounds_ok (prune a c).
Proof.
  intros H. pose proof H as [H1 [_ H2] _ H4 _]. unfold prune. set (kept := filter _ (sessions c)).
  assert (Hk : kept ⊆ sessions c) by apply map_filter_subseteq.
  case_bool_decide as Hs.
  - replace kept with (sessions c); [by destruct c|]. symmetry. by apply map_subseteq_size_eq; [|lia].
  - apply Bounds_pruned; [|intros id s Hi; eapply lookup_weaken in Hi; [|exact Hk]|done].
    + etrans; [by apply map_subseteq_size|done].
    + split; [by eapply H2|by eapply H4].
Qed.
Lemma visible_shows m t id s : m !! id = Some s -> shows t s = true -> visible m t = true.
Proof. intros H1 H2. apply visible_spec. by exists id, s. Qed.
(** The previews a session shows do not depend on its other fields. *)
Lemma visible_insert m id s s' t :
  (m !! id = Some s -> shows t s = true -> shows t s' = true) -> (m !! id = None \/ m !! id = Some s) ->
  visible m t = true -> visible (<[id := s']> m) t = true.
Proof.
  intros Hs Hm (i & x & Hi & Hx)%visible_spec. destruct (decide (id = i)) as [->|Hne].
  - destruct Hm as [Hm|Hm]; [congruence|]. eapply visible_shows; [apply lookup_insert_eq|]. apply Hs; congruence.
  - eapply visible_shows; [by rewrite lookup_insert_ne|done].
Qed.

Lemma join_bounds k p a c : Bounds_ok c -> Bounds_ok (join k p a c).1.
Proof.
  intros H. unfold join. destruct (ensure (is_authorized k a) _); [|done..].
  destruct (bool_decide _) eqn:Hc; cbn; [|done]. apply bool_decide_eq_true in Hc.
  destruct (checked_add (next c) 1) as [n|] eqn:Hn; cbn; [|done]. apply checked_Some in Hn as [-> Hn].
  destruct H as [H1 [H2 H2'] H3 H4 H5].
  assert (Hf : sessions c !! (next c + 1) = None).
  { destruct (sessions c !! _) as [s|] eqn:Hs; [|done]. apply H2' in Hs. lia. }
  constructor; cbn; try done.
  - rewrite map_size_insert_None by done. lia.
  - split; [lia|]. intros id s [[<- _]|[_ Hs]]%lookup_insert_Some; [lia|]. apply H2' in Hs. lia.
  - intros id s [[_ <-]|[_ Hs]]%lookup_insert_Some; [|by eapply H4]. split; [unfold MAX_APPLICATIONS; cbn; lia|done].
  - eapply within_mono; [|exact H5]. intros t. apply (visible_insert _ _ (MkSession k p [] 0 None)); [done|by left].
Qed.
(** A session that could not be told of its admission leaves as it came. *)
Lemma handle_join_bounds k p r a c : Bounds_ok c -> Bounds_ok (handle_join k p r a c).1.2.
Proof.
  intros H. pose proof (join_bounds k p a c H) as Hj. unfold handle_join, deliver.
  destruct (join k p a c) as [c' result] eqn:He. cbn in Hj. destruct (send_fails r); cbn; [|done].
  destruct result as [id| |]; [|done..]. cbn.
  assert (Hid : id = next c + 1 /\ c' = MkController (<[id := MkSession k p [] 0 None]> (sessions c)) id (previews c)
      (actions c) (notified c) (channels c) (next_channel c)).
  { unfold join in He. destruct (ensure (is_authorized k a) _); [|done..]. destruct (ensure _ _); [|done..].
    destruct (checked_add _ _) as [n|] eqn:Hn; [|done]. apply checked_Some in Hn as [-> _]. cbn in He. by injection He as <- <-. }
  destruct Hid as [-> ->]. cbn. pose proof H as [H1 [H2 H2'] H3 H4 H5].
  rewrite delete_insert_id.
  - constructor; cbn; try done. split; [apply Hj|]. intros i s Hs%H2'. lia.
  - destruct (sessions c !! _) as [s|] eqn:Hs; [|done]. apply H2' in Hs. lia.
Qed.
Lemma subscribe_bounds id r c : Bounds_ok c -> Bounds_ok (handle_subscribe id r c).1.
Proof.
  intros [H1 [H2 H2'] H3 H4 H5]. unfold handle_subscribe.
  destruct (session_with _ _ _) as [s|] eqn:Hs; [|done]. apply session_with_Some in Hs as [Hs _].
  constructor; cbn; try done.
  - by rewrite map_size_insert_Some.
  - split; [done|]. intros i x [[<- _]|[_ Hx]]%lookup_insert_Some; eauto.
  - intros i x [[_ <-]|[_ Hx]]%lookup_insert_Some; [by eapply (H4 id s)|by eapply H4].
  - eapply within_mono; [|exact H5]. intros t. apply (visible_insert _ _ s); [done|by right].
Qed.
Lemma publish_bounds id apps a c : catalogue_ok apps -> Bounds_ok c -> Bounds_ok (handle_publish id apps a c).2.
Proof.
  intros Ha H. pose proof H as [H1 [H2 H2'] H3 H4 H5]. unfold handle_publish.
  destruct (sessions c !! id) as [s|] eqn:Hs; [|done]. case_bool_decide; [done|].
  destruct (checked_add (revision s) 1) as [n|]; [|done]. cbn zeta.
  set (m := <[id := _]> (sessions c)).
  apply (Bounds_ok_ext (prune_thumbnails (set_sessions m c))); try (by destruct (subscriber s)).
  apply Bounds_pruned; [unfold m; by rewrite map_size_insert_Some| |done].
  intros i x [[<- <-]|[_ Hx]]%lookup_insert_Some; [split; [by eapply H2'|done]|split; [by eapply H2'|by eapply H4]].
Qed.
Lemma action_bounds x a c : Bounds_ok c -> Bounds_ok (handle_action x a c).1.
Proof.
  intros H. unfold handle_action. destruct (session_with _ _ _); [|done]. destruct (_ || _); [done|].
  case_bool_decide as Hl; [|done]. destruct H as [H1 H2 H3 H4 H5]. constructor; cbn; try done.
  rewrite length_app. cbn. lia.
Qed.
Lemma thumbnail_bounds id q r now c : Bounds_ok c -> Bounds_ok (handle_thumbnail id q r now c).1.
Proof.
  intros H. unfold handle_thumbnail. destruct (is_closed r); [done|]. destruct (preview_status _ _) eqn:Hs; [done|].
  apply preview_status_None in Hs as (s & Hs & Hv).
  pose proof (within_request _ q now _ (previews_within c H) (visible_shows _ _ _ _ Hs Hv)) as Hw.
  destruct (request q now (previews c)) as [p y]. cbn in Hw. apply (Bounds_previews c p H) in Hw.
  destruct (send_fails r); cbn; [done|]. by apply (Bounds_ok_ext (set_previews p c)).
Qed.
Definition event_ok (e : Event) : Prop := match e with Publish _ apps => catalogue_ok apps | _ => True end.
Lemma handle_bounds race e now a c : event_ok e -> Bounds_ok c -> Bounds_ok (handle race e now (a, c)).1.2.
Proof.
  intros He H%(prune_bounds a). unfold handle. cbn [fst snd]. set (d := prune a c) in *. set (a' := access_run a race).
  destruct e as [id r|k p r| |id apps|id r|y|id q r|t|r|k img r].
  - pose proof (subscribe_bounds id r d H). by destruct (handle_subscribe id r d).
  - by apply handle_join_bounds.
  - done.
  - pose proof (publish_bounds id apps a' d He H). by destruct (handle_publish id apps a' d).
  - done.
  - pose proof (action_bounds y a' d H). by destruct (handle_action y a' d).
  - pose proof (thumbnail_bounds id q r now d H). by destruct (handle_thumbnail id q r now d).
  - apply Bounds_previews; [done|]. by apply within_invalidate, previews_within.
  - destruct (is_closed r); [done|]. pose proof (within_take _ now _ (previews_within d H)).
    destruct (take_capture now (previews d)). by apply Bounds_previews.
  - pose proof (within_complete _ k img now _ (previews_within d H)). destruct (complete k img now (previews d)).
    by apply Bounds_previews.
Qed.

(** ** Catalogue feeds

    What a channel has carried, the snapshot still in it last. *)
Definition taken_from (ch : Z) (tk : list (Z * CatalogueSnapshot)) : list CatalogueSnapshot :=
  (filter (fun p => p.1 = ch) tk).*2.
Definition feed (ch : Z) (c : Controller) (tk : list (Z * CatalogueSnapshot)) : list CatalogueSnapshot :=
  taken_from ch tk ++ option_list (channels c !! ch ≫= slot).
Record Feed_ok (c : Controller) (tk : list (Z * CatalogueSnapshot)) : Prop := {
  channel_ids : forall ch, is_Some (channels c !! ch) -> ch < next_channel c;
  taken_ids : forall ch x, (ch, x) ∈ tk -> ch < next_channel c;
  feed_sorted : forall ch, StronglySorted Z.lt (snapshot_revision <$> feed ch c tk);
  feed_current : forall id s ch, sessions c !! id = Some s -> subscriber s = Some ch ->
    exists k, channels c !! ch = Some k /\
      (forall x, x ∈ feed ch c tk -> snapshot_revision x <= revision s) /\
      (closed k = false -> list.last (feed ch c tk) = Some (snapshot_of s));
  feed_unique : forall i j s x ch, sessions c !! i = Some s -> sessions c !! j = Some x ->
    subscriber s = Some ch -> subscriber x = Some ch -> i = j;
}.
Lemma Feed_sub c c' tk :
  (forall id s, sessions c' !! id = Some s -> subscriber s = None \/ sessions c !! id = Some s) ->
  channels c' = channels c -> next_channel c' = next_channel c -> Feed_ok c tk -> Feed_ok c' tk.
Proof.
  intros Hs Hc Hn [H1 H2 H3 H4 H5].
  assert (Hf : forall ch, feed ch c' tk = feed ch c tk) by (intros ch; unfold feed; by rewrite Hc).
  constructor; rewrite ?Hc, ?Hn; try done.
  - intros ch. by rewrite Hf.
  - intros id s ch [?|Hi]%Hs Hch; [congruence|]. rewrite Hf. by eapply H4.
  - intros i j s x ch [?|Hi]%Hs [?|Hj]%Hs ? ?; try congruence. by eapply H5.
Qed.
Lemma prune_feed a c tk : Feed_ok c tk -> Feed_ok (prune a c) tk.
Proof.
  pose proof (prune_same a c) as (_ & _ & Hc & Hn). apply Feed_sub; [|done..].
  intros id s [? _]%prune_sessions. by right.
Qed.
Lemma join_feed k p r a c tk : Bounds_ok c -> Feed_ok c tk -> Feed_ok (handle_join k p r a c).1.2 tk.
Proof.
  intros _. unfold handle_join, join, deliver.
  destruct (ensure (is_authorized k a) _); [|by destruct (send_fails r)..].
  destruct (ensure _ _); [|by destruct (send_fails r)..].
  destruct (opt_context _ _) as [n| |]; [|by destruct (send_fails r)..].
  destruct (send_fails r); cbn [fst snd ok]; apply Feed_sub; try done; intros id s; cbn [sessions set_sessions].
  - intros [_ [[_ <-]|[_ Hs]]%lookup_insert_Some]%lookup_delete_Some; auto.
  - intros [[_ <-]|[_ Hs]]%lookup_insert_Some; auto.
Qed.
Lemma feed_fresh c tk : Feed_ok c tk -> feed (next_channel c) c tk = [] /\ taken_from (next_channel c) tk = [].
Proof.
  intros [H1 H2 _ _ _]. assert (Ht : taken_from (next_channel c) tk = []).
  { unfold taken_from. destruct (filter _ tk) as [|[ch x] l] eqn:Hl; [done|].
    assert (Hin : (ch, x) ∈ filter (fun p => p.1 = next_channel c) tk) by (rewrite Hl; left).
    apply list_elem_of_filter in Hin as [? Hin%H2]. cbn in *. lia. }
  split; [|done]. unfold feed. rewrite Ht. destruct (channels c !! next_channel c) eqn:Hc; [|done].
  pose proof (H1 (next_channel c) ltac:(by eexists)). lia.
Qed.
Lemma subscribe_feed id r c tk : Feed_ok c tk -> Feed_ok (handle_subscribe id r c).1 tk.
Proof.
  intros H. pose proof (feed_fresh c tk H) as [_ Hf]. destruct H as [H1 H2 H3 H4 H5]. unfold handle_subscribe.
  destruct (session_with _ _ _) as [s|] eqn:Hs; [|done]. apply session_with_Some in Hs as [Hs _]. cbn [fst].
  set (k := if send_fails r then _ else _).
  assert (Hk : slot k = Some (snapshot_of s)) by (unfold k; by destruct (send_fails r)).
  assert (Hnew : feed (next_channel c) (MkController (<[id := set_subscriber (next_channel c) s]> (sessions c)) (next c)
     (previews c) (actions c) (notified c) (<[next_channel c := k]> (channels c)) (next_channel c + 1)) tk = [snapshot_of s])
    by (unfold feed; cbn; rewrite Hf, lookup_insert_eq; cbn; by rewrite Hk).
  assert (Hold : forall ch, ch <> next_channel c -> forall m n p q t l, feed ch (MkController m n p q t
     (<[next_channel c := k]> (channels c)) l) tk = feed ch c tk)
    by (intros; unfold feed; cbn; by rewrite lookup_insert_ne).
  constructor; cbn [sessions channels next_channel].
  - intros ch. destruct (decide (ch = next_channel c)) as [->|]; [lia|]. rewrite lookup_insert_ne by done. intros ?%H1. lia.
  - intros ch x ?%H2. lia.
  - intros ch. destruct (decide (ch = next_channel c)) as [->|Hne]; [rewrite Hnew; repeat constructor|]. by rewrite Hold.
  - intros i x ch [[<- <-]|[Hi Hx]]%lookup_insert_Some Hch.
    + cbn in Hch. injection Hch as <-. rewrite lookup_insert_eq, Hnew. exists k. split; [done|]. split; [|done].
      intros y ->%list_elem_of_singleton. done.
    + destruct (H4 _ _ _ Hx Hch) as (k' & E1 & E2 & E3). assert (ch <> next_channel c).
      { intros ->. pose proof (H1 (next_channel c) ltac:(by eexists)). lia. }
      rewrite lookup_insert_ne, Hold by done. by exists k'.
  - assert (Hno : forall j x, sessions c !! j = Some x -> subscriber x <> Some (next_channel c)).
    { intros j x Hj Hx. destruct (H4 _ _ _ Hj Hx) as (k' & E1 & _). pose proof (H1 _ ltac:(by eexists)). lia. }
    intros i j x y ch [[<- <-]|[Hi Hx]]%lookup_insert_Some [[<- <-]|[Hj Hy]]%lookup_insert_Some Hcx Hcy; [done|..].
    + cbn in Hcx. destruct (Hno _ _ Hy). congruence.
    + cbn in Hcy. destruct (Hno _ _ Hx). congruence.
    + by eapply H5.
Qed.
(** A channel passes on a snapshot newer than all it carried. *)
Lemma feed_publish ch n x c tk :
  Feed_ok c tk -> (forall y, y ∈ feed ch c tk -> snapshot_revision y < snapshot_revision x) ->
  forall k, channels c !! ch = Some k ->
  let d := set_channels (alter (publish_to x) ch (channels c)) n in
  StronglySorted Z.lt (snapshot_revision <$> feed ch d tk) /\
  (forall y, y ∈ feed ch d tk -> snapshot_revision y <= snapshot_revision x) /\
  (closed k = false -> list.last (feed ch d tk) = Some x).
Proof.
  intros [_ _ H3 _ _] Hx k Hk d. specialize (H3 ch). unfold d. unfold feed in *. cbn. rewrite lookup_alter_eq, Hk in *. cbn in *.
  unfold publish_to. destruct (closed k); cbn.
  - split; [done|]. split; [|done]. intros y Hy. apply Hx in Hy. lia.
  - rewrite fmap_app in *. apply StronglySorted_app in H3 as (_ & H3 & _). split; [|split].
    + apply StronglySorted_app_2; [|done|repeat constructor]. intros a b (y & -> & Hy)%list_elem_of_fmap ->%list_elem_of_singleton.
      apply Hx. apply elem_of_app. by left.
    + intros y [Hy| ->%list_elem_of_singleton]%elem_of_app; [|lia].
      assert (snapshot_revision y < snapshot_revision x); [|lia]. apply Hx, elem_of_app. by left.
    + intros _. apply last_snoc.
Qed.
Lemma publish_feed id apps a c tk : Feed_ok c tk -> Feed_ok (handle_publish id apps a c).2 tk.
Proof.
  intros H. unfold handle_publish. destruct (sessions c !! id) as [s|] eqn:Hs; [|done].
  case_bool_decide; [done|]. destruct (checked_add (revision s) 1) as [n|] eqn:Hn; [|done].
  apply checked_Some in Hn as [-> _]. cbn [subscriber snd]. set (s' := MkSession _ _ apps _ _).
  pose proof H as [H1 H2 H3 H4 H5].
  assert (Huniq : forall i x ch, <[id := s']> (sessions c) !! i = Some x -> subscriber x = Some ch ->
    exists y, sessions c !! i = Some y /\ subscriber y = Some ch /\ (i = id /\ x = s' \/ i <> id /\ x = y)).
  { intros i x ch [[<- <-]|[Hi Hx]]%lookup_insert_Some Hch; [exists s|exists x]; auto. }
  assert (Hun : forall i j x y ch, <[id := s']> (sessions c) !! i = Some x -> <[id := s']> (sessions c) !! j = Some y ->
    subscriber x = Some ch -> subscriber y = Some ch -> i = j).
  { intros i j x y ch Hx Hy Hcx Hcy. destruct (Huniq _ _ _ Hx Hcx) as (x0 & X1 & X2 & _).
    destruct (Huniq _ _ _ Hy Hcy) as (y0 & Y1 & Y2 & _). by eapply (H5 i j x0 y0 ch). }
  destruct (subscriber s) as [ch|] eqn:Hsub.
  - destruct (H4 _ _ _ Hs Hsub) as (k & K1 & K2 & K3).
    destruct (feed_publish ch (set_sessions (<[id := s']> (sessions c)) c) (snapshot_of s') c tk H) with (k := k)
      as (F1 & F2 & F3); [|done|].
    { intros y Hy%K2. cbn. lia. }
    set (d := set_channels _ _) in *.
    assert (Hd : forall i, i <> ch -> feed i d tk = feed i c tk) by (intros i Hi; unfold feed; cbn; by rewrite lookup_alter_ne).
    refine (_ : Feed_ok (prune_thumbnails d) tk). apply (Feed_sub d); [intros ? ?; by right|done|done|].
    constructor; cbn [sessions channels next_channel d set_channels set_sessions].
    + intros i. rewrite lookup_alter_is_Some. apply H1.
    + done.
    + intros i. destruct (decide (i = ch)) as [->|Hi]; [done|]. by rewrite Hd.
    + intros i x i' Hx Hi. destruct (Huniq _ _ _ Hx Hi) as (y & Y1 & Y2 & [[-> ->]|[Hne ->]]).
      * cbn in Hi. assert (i' = ch) as -> by congruence. exists (publish_to (snapshot_of s') k). rewrite lookup_alter_eq, K1.
        split; [done|]. split; [done|]. unfold publish_to. destruct (closed k) eqn:Hk; cbn; [congruence|done].
      * assert (i' <> ch) by (intros ->; apply Hne; by eapply (H5 i id)). rewrite lookup_alter_ne, Hd by done. by eapply H4.
    + done.
  - apply (Feed_sub (set_sessions (<[id := s']> (sessions c)) c)); [intros ? ?; by right|done|done|].
    apply (Feed_sub c); [|done..]. intros i x; cbn [sessions set_sessions]; intros [[<- <-]|[_ Hx]]%lookup_insert_Some; [by left|by right].
Qed.
Lemma Feed_same c c' tk :
  sessions c' = sessions c -> channels c' = channels c -> next_channel c' = next_channel c -> Feed_ok c tk -> Feed_ok c' tk.
Proof. intros Hs. apply Feed_sub. intros id s. rewrite Hs. by right. Qed.
Lemma handle_feed race e now a c tk : Bounds_ok c -> Feed_ok c tk -> Feed_ok (handle race e now (a, c)).1.2 tk.
Proof.
  intros Hb%(prune_bounds a) H%(prune_feed a). unfold handle. cbn [fst snd]. set (d := prune a c) in *. set (a' := access_run a race).
  destruct e as [id r|k p r| |id apps|id r|y|id q r|t|r|k img r].
  - pose proof (subscribe_feed id r d tk H). by destruct (handle_subscribe id r d).
  - by apply join_feed.
  - done.
  - pose proof (publish_feed id apps a' d tk H). by destruct (handle_publish id apps a' d).
  - done.
  - unfold handle_action. destruct (session_with _ _ _); [|done]. destruct (_ || _); [done|]. by case_bool_decide; apply (Feed_same d).
  - unfold handle_thumbnail. destruct (is_closed r); [done|]. destruct (preview_status _ _); [done|].
    destruct (request _ _ _). by destruct (send_fails r); apply (Feed_same d).
  - by apply (Feed_same d).
  - destruct (is_closed r); [done|]. destruct (take_capture now (previews d)). by apply (Feed_same d).
  - destruct (complete k img now (previews d)). by apply (Feed_same d).
Qed.
(** Taking a snapshot moves it from the slot to what was taken. *)
Lemma next_feed ch a c tk :
  Feed_ok c tk ->
  Feed_ok (next_snapshot ch a c).1 (tk ++ ((fun s => (ch, s)) <$> option_list (channels c !! ch ≫= slot))).
Proof.
  intros H. unfold next_snapshot. destruct (channels c !! ch) as [k|] eqn:Hk; cbn; [|by rewrite app_nil_r].
  destruct (slot k) as [x|] eqn:Hx; cbn; [|by rewrite app_nil_r]. destruct H as [H1 H2 H3 H4 H5].
  set (d := set_channels _ c).
  assert (Hf : forall i, feed i d (tk ++ [(ch, x)]) = feed i c tk).
  { intros i. unfold feed, taken_from. cbn [channels d set_channels]. rewrite list.filter_app, fmap_app. destruct (decide (i = ch)) as [->|Hi].
    - rewrite lookup_insert_eq, Hk, list.filter_cons_True by done. cbn. by rewrite Hx, app_nil_r.
    - rewrite lookup_insert_ne by done. rewrite list.filter_cons_False by (cbn; congruence). cbn. by rewrite app_nil_r. }
  constructor; cbn [sessions channels next_channel d set_channels].
  - intros i [y [[<- _]|[_ Hy]]%lookup_insert_Some]; apply H1; by eexists.
  - intros i y [Hy|[= -> _]%list_elem_of_singleton]%elem_of_app; [by eapply H2|]. apply H1. by eexists.
  - intros i. by rewrite Hf.
  - intros i s i' Hs Hi. rewrite Hf. destruct (H4 _ _ _ Hs Hi) as (k' & K1 & K2 & K3).
    destruct (decide (i' = ch)) as [->|Hne]; [|rewrite lookup_insert_ne by done; by exists k'].
    rewrite lookup_insert_eq. eexists. split; [done|]. split; [done|]. cbn. assert (k' = k) as -> by congruence. done.
  - done.
Qed.
Lemma unsubscribe_feed ch c tk : Feed_ok c tk -> Feed_ok (set_channels (alter close_channel ch (channels c)) c) tk.
Proof.
  intros [H1 H2 H3 H4 H5]. set (d := set_channels _ c).
  assert (Hf : forall i, feed i d tk = feed i c tk).
  { intros i. unfold feed. cbn. rewrite lookup_alter. case_decide as Hd; [|done]. rewrite Hd. by destruct (channels c !! i). }
  constructor; cbn [sessions channels next_channel d set_channels].
  - intros i. rewrite lookup_alter_is_Some. apply H1.
  - done.
  - intros i. by rewrite Hf.
  - intros i s i' Hs Hi. rewrite Hf. destruct (H4 _ _ _ Hs Hi) as (k' & K1 & K2 & K3).
    rewrite lookup_alter. case_decide as Hd; [rewrite Hd, K1; by exists (close_channel k')|by exists k'].
  - done.
Qed.

(** ** The service *)
Record Service_ok (s : Service) : Prop := {
  queue_ok : (length (queue s) <= MAX_COMMANDS)%nat /\ Forall event_ok (queue s);
  controller_bounds : Bounds_ok (controller s);
  controller_feed : Feed_ok (controller s) (taken s);
}.
Lemma submit_ok e q :
  event_ok e -> (length q <= MAX_COMMANDS)%nat /\ Forall event_ok q ->
  (length (submit e q).1 <= MAX_COMMANDS)%nat /\ Forall event_ok (submit e q).1.
Proof.
  intros He [H1 H2]. unfold submit. case_bool_decide; cbn; [|done]. rewrite length_app. cbn. split; [lia|].
  apply Forall_app. split; [done|]. by constructor.
Qed.
Lemma call_ok e q :
  (length q <= MAX_COMMANDS)%nat /\ Forall event_ok q ->
  (length (call e q) <= MAX_COMMANDS)%nat /\ Forall event_ok (call e q).
Proof.
  intros H. destruct e as [| | |id apps| | | | | |]; try by apply submit_ok.
  cbn. unfold publish. destruct (ensure _ _) as [[]| |] eqn:He; [|done..]. apply submit_ok; [|done].
  apply ensure_Ret_inv in He. split; [rewrite length_take; lia|exact He].
Qed.
Lemma take_actions_bounds c : Bounds_ok c -> Bounds_ok (take_actions c).1.
Proof. apply Bounds_ok_ext; try done. cbn. rewrite length_drop. lia. Qed.
Lemma next_bounds ch a c : Bounds_ok c -> Bounds_ok (next_snapshot ch a c).1.
Proof.
  unfold next_snapshot. destruct (channels c !! ch) as [k|]; [|done]. destruct (slot k); [|done]. by apply Bounds_ok_ext.
Qed.
Lemma service_step_ok s o : Service_ok s -> Service_ok (service_step s o).
Proof.
  destruct s as [a c q up tk ans]. intros [H1 H2 H3]. cbn in H1, H2, H3. destruct o as [o|e|k|race now| |ch|ch|]; cbn.
  - by constructor.
  - destruct up; [|by constructor]. constructor; [by apply call_ok|done..].
  - constructor; [|done..]. destruct up; [by apply submit_ok|done].
  - destruct up; [|by constructor]. destruct q as [|e q]; [by constructor|].
    destruct H1 as [Hl [He Hq]%list.Forall_cons]. cbn in Hl.
    pose proof (handle_bounds race e now a c He H2). pose proof (handle_feed race e now a c tk H2 H3).
    destruct (handle race e now (a, c)) as [[a' c'] x]. constructor; [cbn; split; [lia|done]|done..].
  - constructor; [done|by apply take_actions_bounds|]. by apply (Feed_same c).
  - constructor; [done|by apply next_bounds|by apply next_feed].
  - constructor; [done|by apply (Bounds_ok_ext c)|by apply unsubscribe_feed].
  - destruct up; [|by constructor]. constructor; [cbn; split; [lia|constructor]|done..].
Qed.
Lemma Service_new_ok a : Service_ok (Service_new a).
Proof.
  constructor; cbn.
  - split; [lia|constructor].
  - constructor; cbn; try (intros id s; by rewrite lookup_empty); [apply Nat.le_0_l| |lia|].
    + split; [unfold u64_max; lia|]. intros id s. by rewrite lookup_empty.
    + split; [apply Nat.le_0_l|]. split; [intros t [e He]; cbn in He; by apply lookup_empty_Some in He|done].
  - constructor; cbn.
    + intros ch. rewrite lookup_empty. by intros [? ?].
    + intros ch x []%elem_of_nil.
    + intros ch. unfold feed. cbn. rewrite lookup_empty. constructor.
    + intros id s ch. by rewrite lookup_empty.
    + intros i j s x ch. by rewrite lookup_empty.
Qed.
Lemma service_run_ok s os : Service_ok s -> Service_ok (service_run s os).
Proof. revert s. induction os as [|o os IH]; [done|]. intros s H. by apply IH, service_step_ok. Qed.

(** C37 (session-bounds). Whatever the calls and the authority do, the service keeps its
    limits: sessions, queued events, actions waiting for the host, catalogue entries and
    the length of their labels, and cached previews; and a preview is kept, or a capture
    active, only while a session of the map that may see it lists its target. *)
Theorem service_bounds (a : AccessAuthority) (os : list operation) :
  let s := service_run (Service_new a) os in
  let c := controller s in
  (size (sessions c) <= MAX_SESSIONS)%nat /\ (length (queue s) <= MAX_COMMANDS)%nat /\
  (length (actions c) <= MAX_COMMANDS)%nat /\ (size (cached (previews c)) <= CACHE_ENTRIES)%nat /\
  (forall id x, sessions c !! id = Some x -> catalogue_ok (applications x)) /\
  (forall t, is_Some (cached (previews c) !! t) \/ (exists k st, active (previews c) = Some (k, st) /\ capture_target k = t) ->
     exists id x, sessions c !! id = Some x /\ shows t x = true).
Proof.
  destruct (service_run_ok _ os (Service_new_ok a)) as [[Hq _] [H1 _ H3 H4 (H5 & H6 & H7)] _].
  split; [done|]. split; [done|]. split; [done|]. split; [done|]. split; [done|].
  intros t Ht. apply visible_spec. destruct Ht as [Ht|(k & st & Hk & <-)]; [by apply H6|by eapply H7].
Qed.

(** C29 (catalogue-latest). A subscription's snapshots come in strictly increasing revisions,
    whatever was skipped; and while its session is in the map and it is not dropped, the
    snapshot waiting in its channel, or else the last one taken, is the session's current
    catalogue: a subscriber that has drained its channel is up to date. *)
Theorem catalogue_latest (a : AccessAuthority) (os : list operation) (ch : Z) :
  let s := service_run (Service_new a) os in
  let c := controller s in
  StronglySorted Z.lt (snapshot_revision <$> taken_from ch (taken s)) /\
  forall id x k, sessions c !! id = Some x -> subscriber x = Some ch -> channels c !! ch = Some k -> closed k = false ->
    match slot k with
    | Some y => y = snapshot_of x /\ forall z, list.last (taken_from ch (taken s)) = Some z -> snapshot_revision z < snapshot_revision y
    | None => list.last (taken_from ch (taken s)) = Some (snapshot_of x)
    end.
Proof.
  destruct (service_run_ok _ os (Service_new_ok a)) as [_ _ [_ _ H3 H4 _]]. cbn zeta. set (s := service_run _ _) in *.
  specialize (H3 ch). unfold feed in H3. rewrite fmap_app in H3. apply StronglySorted_app in H3 as (Hlt & Hs & _).
  split; [done|]. intros id x k Hx Hch Hk Ho. destruct (H4 _ _ _ Hx Hch) as (k' & K1 & _ & K3).
  assert (k' = k) as -> by congruence. specialize (K3 Ho). unfold feed in K3. rewrite Hk in K3, Hlt. cbn in K3, Hlt.
  destruct (slot k) as [y|]; cbn in K3, Hlt; [|by rewrite app_nil_r in K3]. rewrite last_snoc in K3. split; [congruence|].
  intros z Hz%last_Some_elem_of. apply Hlt; [|left]. by apply list_elem_of_fmap_2.
Qed.

(** ** Leaving *)
Lemma join_gone k p a c id : id <= next c -> sessions c !! id = None ->
  id <= next (join k p a c).1 /\ sessions (join k p a c).1 !! id = None.
Proof.
  intros Hn Hs. unfold join. destruct (ensure (is_authorized k a) _); [|done..]. destruct (ensure _ _); [|done..].
  destruct (checked_add _ _) as [n|] eqn:He; [|done]. apply checked_Some in He as [-> _]. cbn.
  split; [lia|]. rewrite lookup_insert_ne by lia. done.
Qed.
(** Identities are not used again. *)
Definition gone_from (id : SessionId) (c : Controller) : Prop := id <= next c /\ sessions c !! id = None.
Lemma prune_gone a c id : gone_from id c -> gone_from id (prune a c).
Proof.
  intros [Hn Hs]. unfold gone_from. destruct (prune_same a c) as (-> & _). split; [done|].
  destruct (sessions (prune a c) !! id) as [x|] eqn:Hx; [|done]. apply prune_sessions in Hx as [Hx _]. congruence.
Qed.
Lemma insert_gone id c i x : gone_from id c -> is_Some (sessions c !! i) -> <[i := x]> (sessions c) !! id = None.
Proof. intros [_ Hs] [y Hi]. rewrite lookup_insert_ne; [done|]. congruence. Qed.
Lemma handle_gone race e now a c id : gone_from id (prune a c) -> gone_from id (handle race e now (a, c)).1.2.
Proof.
  unfold handle. cbn [fst snd]. set (d := prune a c). set (a' := access_run a race). intros H. pose proof H as [Hn Hs].
  destruct e as [i r|k p r| |i apps|i r|y|i q r|t|r|k img r]; try done.
  - unfold handle_subscribe. destruct (session_with _ _ _) as [x|] eqn:Hx; [|done]. apply session_with_Some in Hx as [Hx _].
    cbn. split; [done|]. apply insert_gone; [done|by eexists].
  - pose proof (join_gone k p a' d id Hn Hs) as [Hn' Hs']. unfold handle_join, deliver.
    destruct (join k p a' d) as [c' x]. cbn in Hn', Hs'. destruct (send_fails r); cbn; [|done].
    destruct (ok x) as [i|]; [|done]. split; [done|]. cbn. rewrite lookup_delete. by case_decide.
  - unfold handle_publish. destruct (sessions d !! i) as [x|] eqn:Hx; [|done]. case_bool_decide; [done|].
    destruct (checked_add _ _); [|done]. destruct (subscriber x); cbn; (split; [done|]); (apply insert_gone; [done|by eexists]).
  - unfold handle_action. destruct (session_with _ _ _); [|done]. destruct (_ || _); [done|]. by case_bool_decide.
  - unfold handle_thumbnail. destruct (is_closed r); [done|]. destruct (preview_status _ _); [done|].
    destruct (request _ _ _). by destruct (send_fails r).
  - destruct (is_closed r); [done|]. by destruct (take_capture _ _).
  - by destruct (complete _ _ _ _).
Qed.
Lemma service_gone os id s : gone_from id (controller s) -> gone_from id (controller (service_run s os)).
Proof.
  revert s. induction os as [|o os IH]; [done|]. intros s H. apply IH. destruct s as [a c q up tk ans].
  destruct o as [o|e|k|race now| |ch|ch|]; cbn in *; try done.
  - by destruct up.
  - destruct up; [|done]. destruct q as [|e q]; [done|]. pose proof (handle_gone race e now a c id (prune_gone a c id H)).
    by destruct (handle race e now (a, c)) as [[a' c'] x].
  - unfold next_snapshot. destruct (channels c !! ch) as [k|]; [|done]. by destruct (slot k).
  - by destruct up.
Qed.

(** Leaving retires a session's permit at once, and the cleanup is
    already scheduled even when the queue has no room for another event: the next event the
    owner takes up, whichever it is, removes the session, and no later session has its
    identity. *)
Theorem leave_retires (a : AccessAuthority) (os os' : list operation) (id : SessionId) (x : Session)
    (race : list access_operation) (now : instant) :
  let s := service_run (Service_new a) os in
  running s = true -> sessions (controller s) !! id = Some x ->
  let s' := service_step s (Leave (access x)) in
  is_authorized (access x) (authority s') = false /\ queue s' <> [] /\
  sessions (controller (service_run s' (Work race now :: os'))) !! id = None.
Proof.
  pose proof (service_run_ok _ os (Service_new_ok a)) as [_ [_ [_ Hid] _ _ _] _]. cbn zeta.
  destruct (service_run _ os) as [b c q up tk ans]. cbn in Hid |- *. intros -> Hx.
  assert (Hu : is_authorized (access x) (end_session (access x) b) = false).
  { unfold is_authorized. rewrite end_lookup, bool_decide_true by done. by destruct (store b !! access x). }
  assert (Hq : exists e r, (submit Wake q).1 = e :: r).
  { unfold submit. case_bool_decide as Hl; cbn; [destruct q; cbn; eauto|]. destruct q; [unfold MAX_COMMANDS in Hl; cbn in Hl; lia|eauto]. }
  destruct Hq as (e & r & ->). split; [done|]. split; [done|].
  apply (service_gone os' id). destruct (handle race e now (end_session (access x) b, c)) as [[a' c'] y] eqn:Hh.
  cbn. assert (c' = (handle race e now (end_session (access x) b, c)).1.2) as -> by (by rewrite Hh).
  apply handle_gone. split; [destruct (prune_same (end_session (access x) b) c) as (-> & _); by eapply Hid|].
  destruct (sessions (prune _ c) !! id) as [z|] eqn:Hz; [|done]. apply prune_sessions in Hz as [Hz Ha]. congruence.
Qed.
End Service.

(** The service's end retires every permit it held. *)
Lemma drop_retires {Png} (c : Controller (Png := Png)) a id x :
  sessions c !! id = Some x -> is_authorized (access x) (drop_controller a c) = false.
Proof.
  intros Hx%elem_of_entries. unfold drop_controller. induction (entries (sessions c)) as [|p l IH]; cbn [foldr];
    [by apply elem_of_nil in Hx|].
  unfold is_authorized. rewrite end_lookup. case_bool_decide as Hd; [by destruct (store _ !! access x)|].
  apply elem_of_cons in Hx as [<-|Hx]; [done|]. specialize (IH Hx). unfold is_authorized in IH.
  by destruct (store _ !! access x).
Qed.

(** ** A session from joining to leaving *)
Definition sample_waits : Reply := MkReply false false.
Definition sample_permissions : DevicePermissions := MkPermissions true false false true.
Definition sample_app (t : string) : ApplicationInfo := MkApplication 7 (target_surface sample_target) t "app" true false.
Definition sample_calls : list (operation (Png := list Z)) :=
  [Authority (Open "phone"); Call (Join 1 sample_permissions sample_waits); Work [] 0;
   Call (Publish 1 [sample_app "first"]); Work [] 0; Call (Subscribe 1 sample_waits); Work [] 0;
   Call (Publish 1 [sample_app "second"]); Work [] 0; Call (Publish 1 [sample_app "third"]); Work [] 0; Next 0;
   Call (Thumbnail 1 (MkThumbnailRequest sample_target None) sample_waits); Work [] 0;
   Call (Action (Hoist 1 7 sample_waits)); Work [] 0; Call (TakeCapture sample_waits); Work [] 0].
Definition sample_service := service_run (Service_new authority_new) sample_calls.
Example sample_service_answers :
  snd <$> answered sample_service =
  [Joined (Ret 1); Subscribed (Ret 0); Previewed (response_status sample_target StatusPending); Acted false;
   Captured (Some (MkCapture sample_target 1))].
Proof. vm_compute. reflexivity. Qed.
(** The snapshot of revision 2 was never taken. *)
Example sample_service_taken : taken sample_service = [(0, MkSnapshot 3 [sample_app "third"])].
Proof. vm_compute. reflexivity. Qed.
(** A target leaving the catalogue takes its preview and the active capture with it. *)
Example sample_service_unpublished :
  let c := controller (service_run sample_service [Call (Publish 1 []); Work [] 0]) in
  (size (cached (previews c)), active (previews c)) = (0%nat, None).
Proof. vm_compute. reflexivity. Qed.

Definition sample_member : Session :=
  MkSession 1 sample_permissions [sample_app "third"] 3 (Some 0).
Lemma leave_retires_witness :
  let s := service_run (Service_new authority_new) sample_calls in
  running s = true /\ sessions (controller s) !! 1 = Some sample_member /\
  sessions (controller (service_run (service_step s (Leave (access sample_member))) (Work [] 5 :: []))) !! 1 = None.
Proof.
  intros s. assert (Hr : running s = true) by (vm_compute; reflexivity).
  assert (Hx : sessions (controller s) !! 1 = Some sample_member) by (vm_compute; reflexivity).
  split; [exact Hr|]. split; [exact Hx|].
  pose proof (leave_retires authority_new sample_calls [] 1 sample_member [] 5 Hr Hx) as (_ & _ & H). exact H.
Defined.
