(* ===== verification/Pairing.v ===== *)
(** * Device pairing ([weld-hoist-core/src/session/pairing.rs])

    One worker decides who is trusted. A local user invites, a peer claims the invitation
    with its token, the user compares a verification code and approves; the approved
    device is stored, and its connections are admitted until it is revoked. Storage is an
    interface; permits and transports are those of Access and Admission. *)

From S2P Require Import Prelude OrdMap Ids Access Admission Devices.

Definition INVITATION_LIFETIME : duration := from_secs 120.
Definition MAX_DEVICES : nat := 32.
Definition MAX_CONNECTIONS : nat := 8.
Definition MAX_REQUESTS : nat := 64.

Abbreviation DeviceMap := (gmap string PairedDevice).

(** [validate_label] and [validate_name] *)
Definition validate_label (value : string) (maximum : nat) : outcome unit :=
  ensure (valid_label maximum value) "identity and device labels must be bounded nonempty text without controls".
Definition validate_name (value : string) : outcome unit := validate_label value 80.

(** [TrustStorage]: the database of trusted devices. [save] replaces it as a whole; when
    it reports an error the database is the old or the new one. *)
Class TrustStorage (S : Type) := {
  load : S -> outcome DeviceMap;
  save : DeviceMap -> S -> S * outcome unit;
  save_ret : forall d s s', save d s = (s', Ret tt) -> load s' = Ret d;
  save_other : forall d s s' r, save d s = (s', r) -> load s' = load s \/ load s' = Ret d;
}.

(** [format!("{byte:02X}")] over the bytes. *)
Definition hex_digit (n : Z) : Ascii.ascii :=
  Ascii.ascii_of_N (Z.to_N (if n <? 10 then 48 + n else 55 + n)).
Fixpoint hex_bytes (bytes : list Z) : string :=
  match bytes with
  | [] => EmptyString
  | b :: bytes => String (hex_digit (b / 16)) (String (hex_digit (b mod 16)) (hex_bytes bytes))
  end.

(** ** Approvals

    The channel that tells a claimant of the decision outlives its command: it is a
    number, its receiver is dropped or waits, and at most one answer is sent. *)
Record Approvals := MkApprovals { next_approval : Z; waiting : gset Z; confirmed : gset Z }.
Definition reply_channel (a : Approvals) : Approvals * Z :=
  (MkApprovals (next_approval a + 1) ({[next_approval a]} ∪ waiting a) (confirmed a), next_approval a).
Definition abandon (i : Z) (a : Approvals) : Approvals :=
  MkApprovals (next_approval a) (waiting a ∖ {[i]}) (confirmed a).
(** [answer.send(true)], whose failure the caller ignores. *)
Definition confirm (i : Z) (a : Approvals) : Approvals :=
  if bool_decide (i ∈ waiting a)
  then MkApprovals (next_approval a) (waiting a) ({[i]} ∪ confirmed a) else a.

Record PairingClaim := MkClaim { candidate : PairingCandidate; approval : Z; claim_expires : instant }.

(** ** State *)
Record Invitation := MkInvitation {
  token : list Z;
  expires : instant;
  claimant : option (PairingCandidate * Z);
}.
Record AdmittedPeer := MkAdmission { admitted_identity : string; admitted_access : Z; connection : Z }.
#[export] Instance AdmittedPeer_connected : Connected AdmittedPeer :=
  {| access_of := admitted_access; connection_of := connection |}.

(** [published_devices] and [stopped] are the [Published] half, which handles of the
    authority read; [world] and [approvals] are what the worker shares with its peers. *)
Record State (S L : Type) := MkState {
  storage : S;
  devices : DeviceMap;
  unsaved_revocations : gset string;
  invitation : option Invitation;
  admissions : list AdmittedPeer;
  own_namespace : string;
  stopped : bool;
  published_devices : DeviceMap;
  world : World L;
  approvals : Approvals;
}.
Arguments MkState {S L}.
Arguments storage {S L} s.
Arguments devices {S L} s.
Arguments unsaved_revocations {S L} s.
Arguments invitation {S L} s.
Arguments admissions {S L} s.
Arguments own_namespace {S L} s.
Arguments stopped {S L} s.
Arguments published_devices {S L} s.
Arguments world {S L} s.
Arguments approvals {S L} s.

Section Pairing.
Context {S L : Type} `{TrustStorage S} `{ConnectionControl L}.
Abbreviation state := (State S L).

Definition set_invitation (i : option Invitation) (s : state) : state :=
  MkState (storage s) (devices s) (unsaved_revocations s) i (admissions s) (own_namespace s) (stopped s)
    (published_devices s) (world s) (approvals s).
Definition set_admissions (l : list AdmittedPeer) (w : World L) (s : state) : state :=
  MkState (storage s) (devices s) (unsaved_revocations s) (invitation s) l (own_namespace s) (stopped s)
    (published_devices s) w (approvals s).
Definition set_approvals (a : Approvals) (s : state) : state :=
  MkState (storage s) (devices s) (unsaved_revocations s) (invitation s) (admissions s) (own_namespace s)
    (stopped s) (published_devices s) (world s) a.
Definition set_trust (st : S) (d : DeviceMap) (u : gset string) (s : state) : state :=
  MkState st d u (invitation s) (admissions s) (own_namespace s) (stopped s) (published_devices s) (world s)
    (approvals s).
Definition set_stopped (s : state) : state :=
  MkState (storage s) (devices s) (unsaved_revocations s) (invitation s) (admissions s) (own_namespace s) true
    (published_devices s) (world s) (approvals s).
(** [Published::replace] *)
Definition publish (s : state) : state :=
  MkState (storage s) (devices s) (unsaved_revocations s) (invitation s) (admissions s) (own_namespace s)
    (stopped s) (devices s) (world s) (approvals s).

(** [self.admissions.retain(keep)]: an [Admission] that is dropped retires its connection. *)
Definition retain_admissions (keep : AdmittedPeer -> World L -> bool) (s : state) : state :=
  let '(l, w) := retain keep (admissions s) (world s) in set_admissions l w s.

(** [State::expire] *)
Definition expire (now : instant) (s : state) : state :=
  let s := if is_some_and (invitation s) (fun i => expires i <=? now) then set_invitation None s else s in
  retain_admissions usable s.

(** [State::check_peer] *)
Definition check_peer (p : AuthenticatedPeer) (s : state) : outcome unit :=
  ensure (bool_decide (namespace p = own_namespace s)) "authentication namespace differs".

(** [State::invite], from what the operating system's generator returns for 32 bytes. *)
Definition invite (now : instant) (random : outcome (list Z)) (s : state) : state * outcome (list Z) :=
  match random with
  | Ret bytes => (set_invitation (Some (MkInvitation bytes (now + INVITATION_LIFETIME) None)) s, Ret bytes)
  | Fail e => (s, Fail e)
  | Panic => (s, Panic)
  end.

(** The bits in which two tokens differ. *)
Definition mismatch (a b : list Z) : Z := foldl (fun sum p => Z.lor sum (Z.lxor p.1 p.2)) 0 (zip a b).

(** [State::claim]: the checks and the code, then the claim. *)
Definition claim_checks (p : AuthenticatedPeer) (given : list Z) (nm : string) (random : outcome (list Z))
    (s : state) : outcome (Invitation * list Z) :=
  _ ← check_peer p s;
  _ ← validate_name nm;
  i ← opt_context (invitation s) "pairing invitation expired or absent";
  _ ← ensure (match claimant i with None => true | Some _ => false end) "pairing invitation already claimed";
  _ ← ensure (mismatch (token i) given =? 0) "invalid pairing invitation";
  bytes ← random;
  Ret (i, bytes).
Definition claim (p : AuthenticatedPeer) (given : list Z) (nm : string) (random : outcome (list Z)) (s : state)
    : state * outcome PairingClaim :=
  match claim_checks p given nm random s with
  | Ret (i, bytes) =>
      let c := MkCandidate (peer_identity p) nm (hex_bytes bytes) in
      let '(a, answer) := reply_channel (approvals s) in
      (set_approvals a
         (set_invitation (Some (MkInvitation (replicate (length (token i)) 0) (expires i) (Some (c, answer)))) s),
       Ret (MkClaim c answer (expires i)))
  | Fail e => (s, Fail e)
  | Panic => (s, Panic)
  end.

(** [State::approve]: the device is stored before it is trusted. *)
Definition approve_checks (i v : string) (s : state) : outcome (PairingCandidate * Z) :=
  c ← opt_context (invitation s ≫= claimant) "no pending pairing request";
  _ ← ensure (bool_decide (candidate_identity c.1 = i) && bool_decide (verification c.1 = v))
        "pairing verification does not match";
  _ ← ensure (bool_decide (c.2 ∈ waiting (approvals s))) "pairing requester disconnected";
  _ ← ensure (bool_decide (size (devices s) < MAX_DEVICES)%nat || bool_decide (is_Some (devices s !! i)))
        "paired device limit reached";
  Ret c.
Definition approve (i v : string) (p : DevicePermissions) (s : state) : state * outcome unit :=
  match approve_checks i v s with
  | Ret c =>
      let d := <[i := MkDevice i (candidate_name c.1) p]> (devices s) in
      match save d (storage s) with
      | (st, Ret _) =>
          let s := publish (set_trust st d ∅ s) in
          let s := retain_admissions (fun a _ => negb (bool_decide (admitted_identity a = i))) s in
          (set_approvals (confirm c.2 (approvals s)) (set_invitation None s), Ret tt)
      | (st, Fail e) => (set_trust st (devices s) (unsaved_revocations s) s, Fail e)
      | (st, Panic) => (set_trust st (devices s) (unsaved_revocations s) s, Panic)
      end
  | Fail e => (s, Fail e)
  | Panic => (s, Panic)
  end.

(** [State::revoke]: the device is distrusted before that is stored. *)
Definition revoke_device (i : string) (s : state) : state * outcome unit :=
  if bool_decide (is_Some (devices s !! i)) || bool_decide (i ∈ unsaved_revocations s) then
    let s := set_trust (storage s) (delete i (devices s)) ({[i]} ∪ unsaved_revocations s) s in
    let s := retain_admissions (fun a _ => negb (bool_decide (admitted_identity a = i))) s in
    let s := publish s in
    match save (devices s) (storage s) with
    | (st, Ret _) => (set_trust st (devices s) ∅ s, Ret tt)
    | (st, r) =>
        (set_trust st (devices s) (unsaved_revocations s) s,
         res_context r "device revoked for this session; could not persist revocation")
    end
  else (s, Fail (ErrMsg "device is not paired")).

(** [State::diagnostics] *)
Definition set_diagnostics (i : string) (enabled : bool) (s : state) : state * outcome unit :=
  match devices s !! i with
  | Some dev =>
      let p := permissions dev in
      let d := <[i := MkDevice (identity dev) (name dev) (MkPermissions (browse p) (hoist p) enabled (thumbnails p))]>
                 (devices s) in
      match save d (storage s) with
      | (st, Ret _) => (publish (set_trust st d ∅ s), Ret tt)
      | (st, r) => (set_trust st (devices s) (unsaved_revocations s) s, r)
      end
  | None => (s, Fail (ErrMsg "device is not paired"))
  end.

(** [State::admit] owns the admission: one that is refused is dropped. *)
Definition admit_checks (p : AuthenticatedPeer) (a : AdmittedPeer) (s : state) : outcome DevicePermissions :=
  _ ← check_peer p s;
  _ ← ensure (usable a (world s)) "connection admission cancelled";
  dev ← opt_context (devices s !! peer_identity p) "device is not paired";
  _ ← ensure (bool_decide (length (admissions s) < MAX_CONNECTIONS)%nat) "device session limit reached";
  Ret (permissions dev).
Definition admit_connection (p : AuthenticatedPeer) (a : AdmittedPeer) (s : state) : state * outcome DevicePermissions :=
  match admit_checks p a s with
  | Ret perms => (set_admissions (admissions s ++ [a]) (world s) s, Ret perms)
  | r => (set_admissions (admissions s) (retire a (world s)) s, r)
  end.

(** ** Commands *)
Inductive Command :=
  | Invite
  | PendingRequest
  | Claim (p : AuthenticatedPeer) (given : list Z) (nm : string)
  | Approve (i v : string) (p : DevicePermissions)
  | Cancel
  | RevokeDevice (i : string)
  | Diagnostics (i : string) (enabled : bool)
  | Admit (p : AuthenticatedPeer) (a : AdmittedPeer).

Inductive Answer :=
  | Token (r : outcome (list Z))
  | Candidate (c : option PairingCandidate)
  | Claimed (r : outcome PairingClaim)
  | Done (r : outcome unit)
  | Admitted_as (r : outcome DevicePermissions).

(** [State::handle] with its answer, which is lost when [send_fails]. [random n] is what
    the generator returns for [n] bytes. *)
Definition handle (c : Command) (r : Reply) (now : instant) (random : nat -> outcome (list Z)) (s : state)
    : state * option Answer :=
  let s := expire now s in
  match c with
  | Invite => let '(s, x) := invite now (random 32%nat) s in (s, Some (Token x))
  | PendingRequest => (s, Some (Candidate (fst <$> (invitation s ≫= claimant))))
  | Claim p given nm =>
      if is_closed r then (s, None)
      else
        let '(s, x) := claim p given nm (random 3%nat) s in
        match x with
        | Ret cl =>
            (* an answer that is not delivered is dropped, and its receiver with it *)
            if send_fails r then (set_approvals (abandon (approval cl) (approvals s)) s, Some (Claimed x))
            else (s, Some (Claimed x))
        | _ => (s, Some (Claimed x))
        end
  | Approve i v p => let '(s, x) := approve i v p s in (s, Some (Done x))
  | Cancel => (set_invitation None s, Some (Done (Ret tt)))
  | RevokeDevice i => let '(s, x) := revoke_device i s in (s, Some (Done x))
  | Diagnostics i b => let '(s, x) := set_diagnostics i b s in (s, Some (Done x))
  | Admit p a =>
      let '(s, x) :=
        if is_closed r
        then (set_admissions (admissions s) (retire a (world s)) s, Fail (ErrMsg "admission cancelled"))
        else admit_connection p a s in
      if send_fails r
      then
        let w := MkWorld (end_session (admitted_access a) (permits (world s))) (links (world s)) in
        (expire now (set_admissions (admissions s) w s), Some (Admitted_as x))
      else (s, Some (Admitted_as x))
  end.

(** ** The authority and its handles

    [requests] is the command channel, [log] the commands handled so far, which the
    program does not keep. *)
Record Authority := MkAuthority {
  state_of : state;
  requests : list (Command * Reply);
  request_closed : bool;
  running : bool;
  log : list (Command * instant * (nat -> outcome (list Z)));
}.

(** [PairingAuthority::start]: the worker's set-up, which checks each record in turn. *)
Definition check_record (e : string * PairedDevice) : outcome unit :=
  _ ← validate_label e.1 160;
  _ ← ensure (bool_decide (e.1 = identity e.2)) "device identity differs from its key";
  validate_name (name e.2).
Definition start (ns : string) (st : outcome S) (w : World L) : outcome Authority :=
  _ ← validate_label ns 80;
  st ← st;
  d ← load st;
  _ ← ensure (bool_decide (size d <= MAX_DEVICES)%nat) "device database exceeds limit";
  _ ← try_fold (fun _ e => check_record e) tt (merge_sort (fun x y => Is_true (String.leb x.1 y.1)) (map_to_list d));
  Ret (MkAuthority (MkState st d ∅ None [] ns false d w (MkApprovals 0 ∅ ∅)) [] false true []).

Definition with_state (s : state) (a : Authority) : Authority :=
  MkAuthority s (requests a) (request_closed a) (running a) (log a).

(** A command that is dropped gives its connection up. *)
Definition drop_command (c : Command) (s : state) : state :=
  match c with Admit _ a => set_admissions (admissions s) (retire a (world s)) s | _ => s end.

(** [PairingAuthority::request] *)
Definition request (c : Command) (r : Reply) (a : Authority) : Authority * outcome unit :=
  if request_closed a || bool_decide (MAX_REQUESTS <= length (requests a))%nat
  then (with_state (drop_command c (state_of a)) a, Fail (ErrMsg "pairing authority busy or stopped"))
  else (MkAuthority (state_of a) (requests a ++ [(c, r)]) (request_closed a) (running a) (log a), Ret tt).

(** The worker ends: its state is dropped with the invitation and all admissions. *)
Definition drop_state (s : state) : state :=
  set_stopped (set_admissions [] (retire_all (admissions s) (world s)) (set_invitation None s)).
Definition worker_end (a : Authority) : Authority :=
  MkAuthority (drop_state (state_of a)) (requests a) true false (log a).

(** One turn of the worker: it takes a command, or ends when the channel is closed. *)
Definition worker_turn (now : instant) (random : nat -> outcome (list Z)) (a : Authority) : Authority :=
  if running a then
    match requests a with
    | (c, r) :: rest =>
        if request_closed a
        then worker_end (MkAuthority (drop_command c (state_of a)) rest true (running a) (log a))
        else MkAuthority (handle c r now random (state_of a)).1 rest (request_closed a) (running a)
               (log a ++ [(c, now, random)])
    | [] => if request_closed a then worker_end a else a
    end
  else a.

(** [PairingAuthority::shutdown], and [Drop for Owner], which waits for the worker, whose
    channel is closed, and frees the channel with the commands left in it. *)
Definition shutdown (a : Authority) : Authority :=
  MkAuthority (set_stopped (state_of a)) (requests a) true (running a) (log a).
Definition drop_owner (a : Authority) : Authority :=
  let a := worker_turn 0 (fun _ => Panic) (shutdown a) in
  MkAuthority (foldl (fun s c => drop_command c.1 s) (state_of a) (requests a)) [] true false (log a).

(** [PairingAuthority::permissions] and [devices] read the published half. *)
Definition granted (p : AuthenticatedPeer) (s : state) : option DevicePermissions :=
  if stopped s || negb (bool_decide (own_namespace s = namespace p)) then None
  else permissions <$> (published_devices s !! peer_identity p).
Definition paired_devices (s : state) : outcome (list PairedDevice) :=
  _ ← ensure (negb (stopped s)) "pairing authority stopped";
  Ret (snd <$> merge_sort (fun x y => Is_true (String.leb x.1 y.1)) (map_to_list (published_devices s))).
(** [Pending::poll] of a claim's approval: the decision, nothing yet, or the sender is gone. *)
Definition poll_approval (i : Z) (s : state) : outcome (option bool) :=
  if bool_decide (i ∈ confirmed (approvals s)) then Ret (Some true)
  else if is_some_and (invitation s ≫= claimant) (fun c => c.2 =? i) then Ret None
  else Fail (ErrMsg "session operation cancelled").

(** ** Well-formed states *)

(** What the worker accepts as a database. *)
Definition db_ok (d : DeviceMap) : Prop :=
  (size d <= MAX_DEVICES)%nat /\
  forall i v, d !! i = Some v -> valid_label 160 i = true /\ identity v = i /\ valid_label 80 (name v) = true.

Record Trust_ok (s : state) : Prop := {
  devices_ok : db_ok (devices s);
  stored_ok : exists d, load (storage s) = Ret d /\ db_ok d;
  published_ok : published_devices s = devices s;
  unsaved_ok : forall i, i ∈ unsaved_revocations s -> devices s !! i = None;
}.
Definition Invitation_ok (i : option Invitation) : Prop :=
  forall c, i ≫= claimant = Some c ->
    valid_label 160 (candidate_identity c.1) = true /\ valid_label 80 (candidate_name c.1) = true.
(** Admitted connections are those of trusted devices. *)
Record Admissions_ok (d : DeviceMap) (l : list AdmittedPeer) (w : World L) : Prop := {
  admissions_world : World_ok w;
  admissions_bound : (length l <= MAX_CONNECTIONS)%nat;
  admissions_issued : Forall (issued w) l;
  admissions_trusted : Forall (fun a => is_Some (d !! admitted_identity a)) l;
}.
Record State_ok (s : state) : Prop := {
  state_trust : Trust_ok s;
  state_invitation : Invitation_ok (invitation s);
  state_admissions : Admissions_ok (devices s) (admissions s) (world s);
}.

(** From one state to a later one, no connection is lost: it is still admitted or was
    given up. *)
Definition evolves (s s' : state) : Prop :=
  declines (world s) (world s') /\
  forall a, a ∈ admissions s -> issued (world s) a -> a ∈ admissions s' \/ retired (world s') a.

#[export] Instance evolves_preorder : PreOrder evolves.
Proof.
  split.
  - intros s. split; [done|auto].
  - intros s1 s2 s3 [H1 H2] [H3 H4]. split; [by etransitivity|]. intros a Ha Hi.
    destruct (H2 a Ha Hi) as [Hin|Hr].
    + apply H4; [done|]. by eapply declines_issued.
    + right. by eapply declines_retired.
Qed.

Lemma retain_admissions_eq keep s :
  retain_admissions keep s =
    set_admissions (retain keep (admissions s) (world s)).1 (retain keep (admissions s) (world s)).2 s.
Proof. unfold retain_admissions. by destruct (retain keep (admissions s) (world s)). Qed.

Lemma retain_evolves keep s : evolves s (retain_admissions keep s).
Proof.
  rewrite retain_admissions_eq. split; cbn; [apply retain_declines|]. intros a. apply retain_dropped.
Qed.

Lemma retain_admissions_ok keep d d' l w :
  Admissions_ok d l w ->
  (forall a w', a ∈ l -> keep a w' = true -> is_Some (d !! admitted_identity a) -> is_Some (d' !! admitted_identity a)) ->
  Admissions_ok d' (retain keep l w).1 (retain keep l w).2.
Proof.
  intros [H1 H2 H3 H4] Hd. pose proof (retain_sublist keep l w) as Hs. constructor.
  - by apply retain_ok.
  - apply sublist_length in Hs. lia.
  - apply list.Forall_forall. intros a Ha. eapply declines_issued; [apply retain_declines|].
    apply (proj1 (list.Forall_forall _ _) H3). by eapply sublist_subseteq.
  - apply list.Forall_forall. intros a Ha. destruct (retain_kept keep l w a Ha) as (w' & _ & _ & Hk).
    assert (Hl : a ∈ l) by (by eapply sublist_subseteq). apply (Hd a w'); [done..|].
    by apply (proj1 (list.Forall_forall _ _) H4).
Qed.

Lemma state_issued s a : State_ok s -> a ∈ admissions s -> issued (world s) a.
Proof. intros [_ _ [_ _ Hi _]]. apply (proj1 (list.Forall_forall _ _) Hi). Qed.

(** A state with the same trust in which fewer connections are admitted. *)
Lemma retain_ok_state keep s : State_ok s -> State_ok (retain_admissions keep s).
Proof.
  intros [[H1 H2 H3 H4] Hi Ha]. rewrite retain_admissions_eq. constructor; cbn; [by constructor|done|].
  by apply (retain_admissions_ok keep (devices s)).
Qed.
Lemma set_invitation_ok i s : Invitation_ok i -> State_ok s -> State_ok (set_invitation i s).
Proof. intros Hi [[H1 H2 H3 H4] _ [A1 A2 A3 A4]]. constructor; cbn; [by constructor|done|by constructor]. Qed.
Lemma set_approvals_ok a s : State_ok s -> State_ok (set_approvals a s).
Proof. intros [[H1 H2 H3 H4] Hi [A1 A2 A3 A4]]. constructor; cbn; [by constructor|done|by constructor]. Qed.
Lemma no_invitation_ok : Invitation_ok None.
Proof. by intros c. Qed.
#[local] Hint Resolve no_invitation_ok : core.

(** Giving up a connection that is not among the admitted ones. *)
Lemma retire_admission_ok (a : AdmittedPeer) s :
  State_ok s -> State_ok (set_admissions (admissions s) (retire a (world s)) s).
Proof.
  intros [[H1 H2 H3 H4] Hi [A1 A2 A3 A4]]. constructor; cbn; [by constructor|done|].
  constructor; [by apply retire_world_ok|done| |done].
  apply (list.Forall_impl _ _ _ A3). intros x. apply declines_issued, retire_declines.
Qed.
Lemma retire_admission_evolves (a : AdmittedPeer) s : evolves s (set_admissions (admissions s) (retire a (world s)) s).
Proof. split; cbn; [apply retire_declines|auto]. Qed.

Lemma expire_eq now s :
  exists i, expire now s = retain_admissions usable (set_invitation i s) /\
    (i = invitation s \/ i = None) /\ (forall inv, i = Some inv -> now < expires inv).
Proof.
  unfold expire. destruct (invitation s) as [inv|] eqn:Hs; cbn.
  - destruct (Z.leb_spec (expires inv) now).
    + exists None. split_and!; [done|by right|done].
    + exists (Some inv). split; [|split; [auto|intros x [= <-]; done]].
      by destruct s; cbn in Hs; subst.
  - exists None. split; [|split; [by left|done]]. by destruct s; cbn in Hs; subst.
Qed.
Lemma expire_state_ok now s : State_ok s -> State_ok (expire now s).
Proof.
  intros Hs. destruct (expire_eq now s) as (i & -> & Hi & _). apply retain_ok_state, set_invitation_ok; [|done].
  destruct Hi as [->| ->]; [apply Hs|done].
Qed.
Lemma expire_evolves now s : evolves s (expire now s).
Proof. destruct (expire_eq now s) as (i & -> & _). by apply (retain_evolves usable (set_invitation i s)). Qed.

(** ** The operations keep the invariant and lose no connection *)

(** What holds after an operation that turns [s] into [s']. *)
Definition keeps (s s' : state) : Prop := State_ok s' /\ evolves s s'.

Lemma evolves_same s s' : world s' = world s -> admissions s' = admissions s -> evolves s s'.
Proof. intros Hw Ha. split; [by rewrite Hw|]. rewrite Ha. auto. Qed.
#[local] Hint Extern 1 (evolves _ _) => apply evolves_same; reflexivity : core.
Lemma keeps_state_refl s : State_ok s -> keeps s s.
Proof. by split. Qed.
#[local] Hint Resolve keeps_state_refl : core.
Lemma keeps_state_trans s1 s2 s3 : keeps s1 s2 -> (State_ok s2 -> keeps s2 s3) -> keeps s1 s3.
Proof. intros [H1 H2] H3. destruct (H3 H1). split; [done|]. by etransitivity. Qed.

Lemma invite_keeps now r s : State_ok s -> keeps s (invite now r s).1.
Proof.
  intros Hs. destruct r as [bytes|e|]; [|auto..]. split; [|auto]. apply set_invitation_ok; [|done]. by intros c.
Qed.

Lemma claim_inv p g nm r s i bytes :
  claim_checks p g nm r s = Ret (i, bytes) ->
  namespace p = own_namespace s /\ valid_label 80 nm = true /\ invitation s = Some i /\ claimant i = None /\
  mismatch (token i) g = 0 /\ r = Ret bytes.
Proof.
  unfold claim_checks, check_peer, validate_name, validate_label. intros Hc. inv_ret.
  repeat match goal with H : bool_decide _ = true |- _ => apply bool_decide_eq_true in H end.
  simplify_eq. destruct (claimant i); [done|]. split_and!; try done. by apply Z.eqb_eq.
Qed.

Lemma claim_keeps p g nm r s :
  valid_label 160 (peer_identity p) = true -> State_ok s -> keeps s (claim p g nm r s).1.
Proof.
  intros Hp Hs. unfold claim. destruct (claim_checks p g nm r s) as [[i bytes]|e|] eqn:Hc; [|auto..]. cbn.
  apply claim_inv in Hc as (_ & Hn & _). split; [|auto].
  apply set_approvals_ok, set_invitation_ok; [|done]. by intros c [= <-].
Qed.

Lemma approve_inv i v s c :
  approve_checks i v s = Ret c ->
  invitation s ≫= claimant = Some c /\ candidate_identity c.1 = i /\ verification c.1 = v /\
  c.2 ∈ waiting (approvals s) /\ ((size (devices s) < MAX_DEVICES)%nat \/ is_Some (devices s !! i)).
Proof.
  unfold approve_checks. intros Hc. inv_ret. subst.
  repeat match goal with
  | H : _ && _ = true |- _ => apply andb_true_iff in H as [? ?]
  | H : _ || _ = true |- _ => apply orb_true_iff in H
  | H : bool_decide _ = true |- _ => apply bool_decide_eq_true in H
  end.
  rewrite !bool_decide_eq_true in *. done.
Qed.

Lemma db_insert d i v :
  db_ok d -> (size d < MAX_DEVICES)%nat \/ is_Some (d !! i) ->
  valid_label 160 i = true -> identity v = i -> valid_label 80 (name v) = true -> db_ok (<[i:=v]> d).
Proof.
  intros [Hs Hv] Hr Hi He Hn. split.
  - destruct (d !! i) as [w|] eqn:Hd.
    + by rewrite map_size_insert_Some.
    + rewrite map_size_insert_None by done. destruct Hr as [Hr|[? Hr]]; [lia|done].
  - intros j w. rewrite lookup_insert. case_decide; [intros [= <-]; subst; done|apply Hv].
Qed.
Lemma db_delete d i : db_ok d -> db_ok (delete i d).
Proof.
  intros [Hs Hv]. split.
  - etransitivity; [|exact Hs]. apply map_subseteq_size, delete_subseteq.
  - intros j w [_ Hj]%lookup_delete_Some. by apply Hv.
Qed.

(** The database after [save d], whatever it reports. *)
Lemma save_db (st st' : S) d r :
  save d st = (st', r) -> db_ok d -> (exists d', load st = Ret d' /\ db_ok d') ->
  exists d', load st' = Ret d' /\ db_ok d'.
Proof. intros Hs Hd Hst. destruct (save_other _ _ _ _ Hs) as [-> | ->]; [done|by exists d]. Qed.

(** A save of the trusted devices, which may clear the unsaved revocations. *)
Lemma set_storage_ok st u s :
  State_ok s -> (exists d, load st = Ret d /\ db_ok d) -> u ⊆ unsaved_revocations s ->
  State_ok (set_trust st (devices s) u s).
Proof.
  intros [[H1 H2 H3 H4] Hi Ha] Hst Hu. constructor; cbn; [|done|done].
  constructor; cbn; [done..|]. set_solver.
Qed.

Lemma device_keeps i dev st u s :
  State_ok s -> db_ok (<[i:=dev]> (devices s)) -> (exists d, load st = Ret d /\ db_ok d) ->
  u ⊆ unsaved_revocations s ∖ {[i]} -> keeps s (publish (set_trust st (<[i:=dev]> (devices s)) u s)).
Proof.
  intros [[H1 H2 H3 H4] Hi [A1 A2 A3 A4]] Hd Hst Hu. split; [|auto]. constructor; cbn; [|done|].
  - constructor; cbn; [done..|]. intros j Hj. rewrite lookup_insert_ne by set_solver. set_solver.
  - constructor; [done..|]. apply (list.Forall_impl _ _ _ A4). intros a Ha.
    apply lookup_insert_is_Some'. by right.
Qed.

Lemma approve_keeps i v p s : State_ok s -> keeps s (approve i v p s).1.
Proof.
  intros Hs. pose proof Hs as [Ht Hi _]. unfold approve.
  destruct (approve_checks i v s) as [c|e|] eqn:Hc; [|auto..]. apply approve_inv in Hc as (Hcl & <- & <- & _ & Hr).
  destruct (Hi c Hcl) as [Hl1 Hl2].
  assert (Hdb : db_ok (<[candidate_identity c.1:=MkDevice (candidate_identity c.1) (candidate_name c.1) p]> (devices s)))
    by (by apply db_insert; [apply Ht|..]).
  destruct (save _ (storage s)) as [st r] eqn:Hsv. pose proof (save_db _ _ _ _ Hsv Hdb (stored_ok _ Ht)) as Hst.
  destruct r as [u|e|]; cbn [fst]; try (split; [by apply set_storage_ok|auto]).
  eapply keeps_state_trans; [by apply (device_keeps _ _ st ∅ s Hs Hdb Hst)|]. intros H1.
  eapply keeps_state_trans; [split; [by apply retain_ok_state|apply retain_evolves]|]. intros H2.
  split; [|auto]. by apply set_approvals_ok, set_invitation_ok.
Qed.

Lemma revoke_keeps i s : State_ok s -> keeps s (revoke_device i s).1.
Proof.
  intros Hs. unfold revoke_device. destruct (bool_decide _ || bool_decide _); [|auto]. rewrite retain_admissions_eq. cbn.
  pose proof Hs as [[H1 H2 H3 H4] Hi Ha].
  set (l := retain _ (admissions s) (world s)).
  assert (Hl : Admissions_ok (delete i (devices s)) l.1 l.2).
  { apply (retain_admissions_ok _ (devices s)); [done|]. intros a w' _ Hk.
    apply negb_true_iff, bool_decide_eq_false in Hk. by rewrite lookup_delete_ne by done. }
  assert (Hev : evolves s (set_admissions l.1 l.2 s)) by (split; [apply retain_declines|intros a; apply retain_dropped]).
  assert (Hdb := db_delete _ i H1).
  destruct (save _ (storage s)) as [st r] eqn:Hsv. pose proof (save_db _ _ _ _ Hsv Hdb H2) as Hst.
  assert (Hu : forall j, j ∈ {[i]} ∪ unsaved_revocations s -> delete i (devices s) !! j = None).
  { intros j Hj. rewrite lookup_delete. case_decide; [done|]. apply H4. set_solver. }
  destruct r; cbn; (split; [constructor; cbn; [constructor; cbn; first [done|set_solver]|done|done]|exact Hev]).
Qed.

Lemma diagnostics_keeps i b s : State_ok s -> keeps s (set_diagnostics i b s).1.
Proof.
  intros Hs. pose proof Hs as [Ht _ _]. unfold set_diagnostics.
  destruct (devices s !! i) as [dev|] eqn:Hi; [|auto].
  assert (Hdb : forall p, db_ok (<[i:=MkDevice (identity dev) (name dev) p]> (devices s))).
  { intros p. destruct (devices_ok _ Ht) as [Hsz Hv]. destruct (Hv i dev Hi) as (H1 & H2 & H3).
    apply db_insert; [done|right; by rewrite Hi|done..]. }
  destruct (save _ (storage s)) as [st r] eqn:Hsv.
  pose proof (save_db _ _ _ _ Hsv (Hdb _) (stored_ok _ Ht)) as Hst.
  destruct r as [u|e|]; cbn [fst]; [|split; [by apply set_storage_ok|auto]..].
  by apply device_keeps.
Qed.

Lemma admit_inv p a s perms :
  admit_checks p a s = Ret perms ->
  namespace p = own_namespace s /\ usable a (world s) = true /\
  (exists dev, devices s !! peer_identity p = Some dev /\ perms = permissions dev) /\
  (length (admissions s) < MAX_CONNECTIONS)%nat.
Proof.
  unfold admit_checks, check_peer. intros Hc. inv_ret.
  repeat match goal with H : bool_decide _ = true |- _ => apply bool_decide_eq_true in H end.
  split_and!; [done|done|by eexists|done].
Qed.

Lemma admit_keeps p a s :
  State_ok s -> issued (world s) a -> admitted_identity a = peer_identity p ->
  keeps s (admit_connection p a s).1 /\
  (a ∈ admissions (admit_connection p a s).1 \/ retired (world (admit_connection p a s).1) a).
Proof.
  intros Hs Ha Hi. unfold admit_connection. destruct (admit_checks p a s) as [perms|e|] eqn:Hc; cbn.
  - apply admit_inv in Hc as (_ & _ & (dev & Hd & _) & Hl). split; [|left; set_solver]. split.
    + destruct Hs as [Ht Hinv [A1 A2 A3 A4]]. constructor; cbn; [by constructor; apply Ht|done|].
      constructor; [done|rewrite length_app; cbn; lia|by apply Forall_app; auto|].
      apply Forall_app. split; [done|]. constructor; [|done]. rewrite Hi. eauto.
    + split; [done|]. cbn. set_solver.
  - split; [|right; by apply retire_retired].
    split; [by apply retire_admission_ok|apply retire_admission_evolves].
  - split; [|right; by apply retire_retired].
    split; [by apply retire_admission_ok|apply retire_admission_evolves].
Qed.

(** What a command may carry: identities are those of [PeerIdentity] values, permits are
    issued ones, and [PairingAuthority::admit] names the admission after its peer. *)
Definition command_possible (w : World L) (c : Command) : Prop :=
  match c with
  | Claim p given _ => valid_label 160 (peer_identity p) = true /\ length given = 32%nat
  | Admit p a => issued w a /\ admitted_identity a = peer_identity p
  | _ => True
  end.
Lemma declines_possible w w' c : declines w w' -> command_possible w c -> command_possible w' c.
Proof. intros Hd. destruct c; cbn; try done. intros [Hi ?]. split; [by eapply declines_issued|done]. Qed.

(** The connection a command brings. *)
Definition brought (c : Command) : option AdmittedPeer :=
  match c with Admit _ a => Some a | _ => None end.

Lemma end_permit_keeps id s :
  State_ok s ->
  keeps s (set_admissions (admissions s) (MkWorld (end_session id (permits (world s))) (links (world s))) s).
Proof.
  intros [Ht Hi [A1 A2 A3 A4]].
  assert (Hd : declines (world s) (MkWorld (end_session id (permits (world s))) (links (world s)))).
  { split; cbn [permits links]; [|done]. intros i c Hc. rewrite end_lookup, Hc. eexists. split; [done|].
    destruct (bool_decide _); [apply fades_unauthorize|apply fades_refl]. }
  split; [constructor; cbn; [by constructor; apply Ht|done|]|split; [exact Hd|auto]].
  constructor; cbn; [by constructor; apply end_ok, A1|done| |done].
  apply (list.Forall_impl _ _ _ A3). intros x. by apply declines_issued.
Qed.

Lemma expire_keeps now s : State_ok s -> keeps s (expire now s).
Proof. split; [by apply expire_state_ok|apply expire_evolves]. Qed.

Lemma keeps_brought s s' a :
  keeps s s' -> issued (world s) a -> a ∈ admissions s \/ retired (world s) a ->
  a ∈ admissions s' \/ retired (world s') a.
Proof.
  intros [_ [Hd Hk]] Hi [Ha|Hr]; [by apply Hk|]. right. by eapply declines_retired.
Qed.

Lemma handle_admit p a r now s :
  State_ok s -> issued (world s) a -> admitted_identity a = peer_identity p ->
  let sx := if is_closed r
            then (set_admissions (admissions s) (retire a (world s)) s, Fail (ErrMsg "admission cancelled"))
            else admit_connection p a s in
  let s' := if send_fails r
            then expire now (set_admissions (admissions sx.1)
                   (MkWorld (end_session (admitted_access a) (permits (world sx.1))) (links (world sx.1))) sx.1)
            else sx.1 in
  keeps s s' /\ (a ∈ admissions s' \/ retired (world s') a).
Proof.
  intros Hs Ha Hi sx.
  assert (Hk : keeps s sx.1 /\ (a ∈ admissions sx.1 \/ retired (world sx.1) a)).
  { unfold sx. destruct (is_closed r); [|by apply admit_keeps]. cbn. split; [|right; by apply retire_retired].
    split; [by apply retire_admission_ok|apply retire_admission_evolves]. }
  clearbody sx. destruct Hk as [Hk Hin]. destruct (send_fails r); [|done]. intros s'.
  assert (Hk' : keeps sx.1 s').
  { eapply keeps_state_trans; [apply end_permit_keeps, Hk|]. intros H1. by apply expire_keeps. }
  split; [by eapply keeps_state_trans|]. apply (keeps_brought sx.1); [done| |done].
  eapply declines_issued; [apply Hk|done].
Qed.

Lemma handle_keeps c r now random s :
  State_ok s -> command_possible (world s) c ->
  keeps s (handle c r now random s).1 /\
  (forall a, brought c = Some a ->
     a ∈ admissions (handle c r now random s).1 \/ retired (world (handle c r now random s).1) a).
Proof.
  intros Hs Hc. pose proof (expire_keeps now s Hs) as He. unfold handle.
  apply (declines_possible _ _ _ (proj1 (proj2 He))) in Hc. pose proof (proj1 He) as Hs'.
  revert He Hc Hs'. generalize (expire now s) as s'. intros s' He Hc Hs'.
  destruct c as [| |p given nm|i v perms| |i|i b|p a]; cbn [brought] in *; try (split; [|done]).
  - pose proof (invite_keeps now (random 32%nat) s' Hs') as Hk.
    destruct (invite now (random 32%nat) s'). by eapply keeps_state_trans.
  - done.
  - destruct (is_closed r); [done|]. destruct Hc as [Hp _].
    pose proof (claim_keeps p given nm (random 3%nat) s' Hp Hs') as Hk.
    destruct (claim p given nm (random 3%nat) s') as [s1 [cl|e|]]; cbn in *; [|by eapply keeps_state_trans..].
    destruct (send_fails r); cbn; [|by eapply keeps_state_trans].
    eapply keeps_state_trans; [exact He|]. intros _. eapply keeps_state_trans; [exact Hk|]. intros H1.
    split; [by apply set_approvals_ok|auto].
  - pose proof (approve_keeps i v perms s' Hs') as Hk. destruct (approve i v perms s'). by eapply keeps_state_trans.
  - eapply keeps_state_trans; [exact He|]. intros _. split; [by apply set_invitation_ok|auto].
  - pose proof (revoke_keeps i s' Hs') as Hk. destruct (revoke_device i s'). by eapply keeps_state_trans.
  - pose proof (diagnostics_keeps i b s' Hs') as Hk. destruct (set_diagnostics i b s'). by eapply keeps_state_trans.
  - destruct Hc as [Ha Hi]. pose proof (handle_admit p a r now s' Hs' Ha Hi) as Hk. cbn in Hk.
    set (sx := if is_closed r then _ else _) in *. clearbody sx. destruct sx as [s1 x]. cbn in *.
    destruct (send_fails r); cbn; (split; [eapply keeps_state_trans; [exact He|intros _; apply Hk]|intros ? [= <-]; apply Hk]).
Qed.

(** ** Histories of the authority *)
Inductive authority_event :=
  | Ask (c : Command) (r : Reply)
  | Turn (now : instant) (random : nat -> outcome (list Z))
  | Shutdown
  | DropOwner
  | Abandon (i : Z)
  | Around (o : outside).
Definition authority_step (a : Authority) (e : authority_event) : Authority :=
  match e with
  | Ask c r => (request c r a).1
  | Turn now random => worker_turn now random a
  | Shutdown => shutdown a
  | DropOwner => drop_owner a
  | Abandon i => with_state (set_approvals (abandon i (approvals (state_of a))) (state_of a)) a
  | Around o =>
      with_state (set_admissions (admissions (state_of a)) (outside_step (world (state_of a)) o) (state_of a)) a
  end.
Definition event_possible (a : Authority) (e : authority_event) : Prop :=
  match e with
  | Ask c _ => command_possible (world (state_of a)) c
  | Turn _ random => forall n bytes, random n = Ret bytes -> length bytes = n
  | _ => True
  end.
(** The histories from a started authority. *)
Inductive authority_reaches (a0 : Authority) : list authority_event -> Authority -> Prop :=
  | authority_start : authority_reaches a0 [] a0
  | authority_next es a e :
      authority_reaches a0 es a -> event_possible a e -> authority_reaches a0 (es ++ [e]) (authority_step a e).

(** The connections submitted in a history. *)
Definition submitted (es : list authority_event) : list AdmittedPeer :=
  omap (fun e => match e with Ask c _ => brought c | _ => None end) es.
(** A submitted connection waits in the channel, is admitted, or was given up. *)
Definition waits (x : AdmittedPeer) (a : Authority) : Prop :=
  exists c r, (c, r) ∈ requests a /\ brought c = Some x.
Definition placed (x : AdmittedPeer) (a : Authority) : Prop :=
  waits x a \/ x ∈ admissions (state_of a) \/ retired (world (state_of a)) x.

Record Authority_inv (l : list AdmittedPeer) (a : Authority) : Prop := {
  inv_state : State_ok (state_of a);
  inv_requests : Forall (fun q => command_possible (world (state_of a)) q.1) (requests a);
  inv_bound : (length (requests a) <= MAX_REQUESTS)%nat;
  inv_ended : running a = false -> admissions (state_of a) = [] /\ request_closed a = true;
  inv_stopped : request_closed a = true -> stopped (state_of a) = true;
  inv_placed : forall x, x ∈ l -> issued (world (state_of a)) x /\ placed x a;
}.

(** A run is reached when each of its events is possible. *)
Fixpoint run_possible (a : Authority) (es : list authority_event) : Prop :=
  match es with
  | [] => True
  | e :: es => event_possible a e /\ run_possible (authority_step a e) es
  end.
Lemma authority_run_reaches a0 es a es' :
  authority_reaches a0 es a -> run_possible a es' ->
  authority_reaches a0 (es ++ es') (foldl authority_step a es').
Proof.
  revert es a. induction es' as [|e es' IH]; intros es a Hr Hp; [by rewrite app_nil_r|]. cbn.
  destruct Hp as [He Hp]. replace (es ++ e :: es') with ((es ++ [e]) ++ es') by (by rewrite <- app_assoc).
  apply IH; [by constructor|done].
Qed.

Lemma keeps_requests s s' (l : list (Command * Reply)) :
  keeps s s' -> Forall (fun q => command_possible (world s) q.1) l -> Forall (fun q => command_possible (world s') q.1) l.
Proof.
  intros [_ [Hd _]] Hl. apply (list.Forall_impl _ _ _ Hl). intros q. by apply declines_possible.
Qed.
Lemma possible_brought w c x : command_possible w c -> brought c = Some x -> issued w x.
Proof. destruct c; try done. intros [Hi _] [= <-]. done. Qed.

Lemma drop_command_keeps c s :
  State_ok s -> keeps s (drop_command c s) /\ admissions (drop_command c s) = admissions s /\
  stopped (drop_command c s) = stopped s.
Proof.
  intros Hs. destruct c; cbn; auto. split; [|done].
  split; [by apply retire_admission_ok|apply retire_admission_evolves].
Qed.
Lemma drop_command_retired c s x :
  command_possible (world s) c -> brought c = Some x -> retired (world (drop_command c s)) x.
Proof. destruct c; try done. intros [Hi _] [= <-]. cbn. by apply retire_retired. Qed.

Lemma drop_commands_keeps (l : list (Command * Reply)) s :
  State_ok s -> keeps s (foldl (fun s q => drop_command q.1 s) s l) /\
  admissions (foldl (fun s q => drop_command q.1 s) s l) = admissions s /\
  stopped (foldl (fun s q => drop_command q.1 s) s l) = stopped s.
Proof.
  revert s. induction l as [|[c r] l IH]; intros s Hs; [auto|]. cbn.
  destruct (drop_command_keeps c s Hs) as (Hk & Ha & Hp). destruct (IH (drop_command c s) (proj1 Hk)) as (Hk' & Ha' & Hp').
  split; [by eapply keeps_state_trans|]. by rewrite Ha', Hp'.
Qed.
Lemma drop_commands_retired (l : list (Command * Reply)) s c r x :
  State_ok s -> Forall (fun q => command_possible (world s) q.1) l -> (c, r) ∈ l -> brought c = Some x ->
  retired (world (foldl (fun s q => drop_command q.1 s) s l)) x.
Proof.
  revert s. induction l as [|[c' r'] l IH]; intros s Hs Hl Hc Hb; [by apply not_elem_of_nil in Hc|]. cbn.
  apply list.Forall_cons in Hl as [Hp Hl]. destruct (drop_command_keeps c' s Hs) as [Hk _].
  apply elem_of_cons in Hc as [[= -> ->]|Hc].
  - eapply declines_retired; [apply drop_commands_keeps, Hk|]. by apply drop_command_retired.
  - apply IH; [apply Hk|by eapply keeps_requests|done|done].
Qed.

(** A change of the worker's state alone, and the start of a history. *)
Lemma inv_with_state l s a :
  Authority_inv l a -> keeps (state_of a) s -> admissions s ⊆ admissions (state_of a) ->
  stopped s = stopped (state_of a) -> Authority_inv l (with_state s a).
Proof.
  intros [H1 H2 H3 H4 H5 H6] Hk Hsub Hst. constructor; cbn; [apply Hk|by eapply keeps_requests|done| | |].
  - intros Hr. destruct (H4 Hr) as [Ha Hc]. split; [|done]. rewrite Ha in Hsub. by apply list_nil_subseteq in Hsub.
  - intros Hc. by rewrite Hst, H5.
  - intros x Hx. destruct (H6 x Hx) as [Hi [Hw|Hp]]; (split; [by eapply declines_issued; [apply Hk|]|]).
    + by left.
    + right. by apply (keeps_brought (state_of a)).
Qed.

Lemma inv_pop l a c r rest s lg b :
  Authority_inv l a -> requests a = (c, r) :: rest -> request_closed a = b -> running a = true -> keeps (state_of a) s ->
  (forall x, brought c = Some x -> x ∈ admissions s \/ retired (world s) x) ->
  (b = true -> stopped s = true) ->
  Authority_inv l (MkAuthority s rest b true lg).
Proof.
  intros [H1 H2 H3 H4 H5 H6] Hq <- Hr Hk Hb Hst. rewrite Hq in H2, H3. apply list.Forall_cons in H2 as [_ H2].
  constructor; cbn; [apply Hk|by eapply keeps_requests|cbn in H3; lia|congruence|done|].
  intros x Hx. destruct (H6 x Hx) as [Hi Hp]. split; [by eapply declines_issued; [apply Hk|]|].
  destruct Hp as [(c' & r' & Hin & Hbr)|Hp]; [|by right; apply (keeps_brought (state_of a))].
  rewrite Hq in Hin. apply elem_of_cons in Hin as [[= -> ->]|Hin]; [right; by apply Hb|]. left. by exists c', r'.
Qed.

Lemma drop_state_keeps s : State_ok s -> keeps s (drop_state s).
Proof.
  intros [[H1 H2 H3 H4] Hi [A1 A2 A3 A4]]. split.
  - constructor; cbn; [by constructor|done|].
    constructor; [by apply retire_all_ok|cbn; lia|constructor|constructor].
  - split; cbn; [apply retire_all_declines|]. intros x Hx Hin. right. by apply retire_all_retired.
Qed.
Lemma worker_end_inv l a : Authority_inv l a -> Authority_inv l (worker_end a).
Proof.
  intros [H1 H2 H3 H4 H5 H6]. pose proof (drop_state_keeps _ H1) as Hk.
  constructor; [apply Hk|by eapply keeps_requests|done..|].
  intros x Hx. destruct (H6 x Hx) as [Hi Hp]. split; [by eapply declines_issued; [apply Hk|]|].
  destruct Hp as [Hw|Hp]; [by left|]. right. by apply (keeps_brought (state_of a)).
Qed.

Lemma worker_turn_inv l now random a : Authority_inv l a -> Authority_inv l (worker_turn now random a).
Proof.
  intros Ha. unfold worker_turn. destruct (running a) eqn:Hr; [|done].
  destruct (requests a) as [|[c r] rest] eqn:Hq; [destruct (request_closed a); [by apply worker_end_inv|done]|].
  pose proof (inv_state _ _ Ha) as Hs. assert (Hc : command_possible (world (state_of a)) c).
  { pose proof (inv_requests _ _ Ha) as Hf. rewrite Hq in Hf. by apply list.Forall_cons in Hf as [? _]. }
  destruct (request_closed a) eqn:Hcl.
  - apply worker_end_inv. destruct (drop_command_keeps c (state_of a) Hs) as (Hk & _ & Hst).
    apply (inv_pop _ _ _ _ _ _ _ _ Ha Hq Hcl Hr Hk).
    + intros x Hx. right. by apply drop_command_retired.
    + intros _. rewrite Hst. by apply (inv_stopped _ _ Ha).
  - destruct (handle_keeps c r now random (state_of a) Hs Hc) as [Hk Hb].
    by apply (inv_pop _ _ _ _ _ _ _ _ Ha Hq Hcl Hr Hk).
Qed.

Lemma shutdown_inv l a : Authority_inv l a -> Authority_inv l (shutdown a).
Proof.
  intros [[[T1 T2 T3 T4] Hi [A1 A2 A3 A4]] H2 H3 H4 H5 H6]. constructor; cbn; [|done..| |done|exact H6].
  - constructor; cbn; [by constructor|done|by constructor].
  - intros Hr. destruct (H4 Hr). done.
Qed.

Lemma turn_closed now random a : request_closed a = true -> running (worker_turn now random a) = false.
Proof.
  intros Hc. unfold worker_turn. destruct (running a) eqn:Hr; [|done]. rewrite Hc. by destruct (requests a) as [|[c r] l].
Qed.

Lemma drop_owner_inv l a : Authority_inv l a -> Authority_inv l (drop_owner a).
Proof.
  intros Ha. unfold drop_owner. apply shutdown_inv in Ha. apply (worker_turn_inv _ 0 (fun _ => Panic)) in Ha.
  assert (Hr := turn_closed 0 (fun _ => Panic) (shutdown a) eq_refl).
  revert Ha Hr. generalize (worker_turn 0 (fun _ => Panic) (shutdown a)) as b. intros b [H1 H2 H3 H4 H5 H6] Hr.
  destruct (H4 Hr) as [Had Hcl]. destruct (drop_commands_keeps (requests b) (state_of b) H1) as (Hk & Hka & Hks).
  constructor; cbn; [apply Hk|constructor|lia|by rewrite Hka|by rewrite Hks, H5|].
  intros x Hx. destruct (H6 x Hx) as [Hi Hp]. split; [by eapply declines_issued; [apply Hk|]|]. right.
  destruct Hp as [(c & r & Hin & Hb)|Hp]; [|by apply (keeps_brought (state_of b))].
  right. by eapply drop_commands_retired.
Qed.

(** A new connection joins the submitted ones. *)
Lemma inv_grow l c a :
  Authority_inv l a -> (forall x, brought c = Some x -> issued (world (state_of a)) x /\ placed x a) ->
  Authority_inv (l ++ option_list (brought c)) a.
Proof.
  intros [H1 H2 H3 H4 H5 H6] Hb. constructor; try done. intros x [Hx|Hx]%elem_of_app; [by apply H6|].
  apply Hb. destruct (brought c); cbn in Hx; [|by apply not_elem_of_nil in Hx].
  apply list_elem_of_singleton in Hx as ->. done.
Qed.

Lemma request_inv l c r a :
  Authority_inv l a -> command_possible (world (state_of a)) c ->
  Authority_inv (l ++ option_list (brought c)) (request c r a).1.
Proof.
  intros Ha Hc. unfold request. destruct (request_closed a || _) eqn:Hb; cbn.
  - destruct (drop_command_keeps c (state_of a) (inv_state _ _ Ha)) as (Hk & Had & Hst). apply inv_grow.
    + apply inv_with_state; [done|done|by rewrite Had|done].
    + intros x Hx. cbn. split; [eapply declines_issued; [apply Hk|by eapply possible_brought]|].
      right. right. by apply drop_command_retired.
  - apply orb_false_iff in Hb as [Hcl Hl%bool_decide_eq_false]. apply inv_grow.
    + destruct Ha as [H1 H2 H3 H4 H5 H6]. constructor; cbn; try done.
      * apply Forall_app. split; [done|]. by constructor.
      * rewrite length_app. cbn. lia.
      * intros x Hx. destruct (H6 x Hx) as [Hi [(c' & r' & Hin & Hbr)|Hp]]; (split; [done|]); [left|by right].
        exists c', r'. split; [cbn; set_solver|done].
    + intros x Hx. split; [by eapply possible_brought|]. left. exists c, r. split; [cbn; set_solver|done].
Qed.

(** ** Starting *)
Lemma try_fold_unit {X} (f : X -> outcome unit) l :
  try_fold (fun _ e => f e) tt l = Ret tt <-> Forall (fun e => f e = Ret tt) l.
Proof.
  induction l as [|e l IH]; cbn; [split; [constructor|done]|]. rewrite list.Forall_cons, <- IH.
  destruct (f e) as [[]|er|]; cbn; naive_solver.
Qed.

Lemma check_record_ok e :
  check_record e = Ret tt <-> valid_label 160 e.1 = true /\ identity e.2 = e.1 /\ valid_label 80 (name e.2) = true.
Proof.
  unfold check_record, validate_label, validate_name, validate_label, ensure.
  destruct (valid_label 160 e.1); cbn; [|naive_solver]. case_bool_decide; cbn; [|naive_solver].
  destruct (valid_label 80 (name e.2)); naive_solver.
Qed.

(** The worker starts exactly on a readable, well-formed database. *)
Lemma start_Ret ns st w a :
  start ns st w = Ret a <->
  exists s0 d, valid_label 80 ns = true /\ st = Ret s0 /\ load s0 = Ret d /\ db_ok d /\
    a = MkAuthority (MkState s0 d ∅ None [] ns false d w (MkApprovals 0 ∅ ∅)) [] false true [].
Proof.
  assert (Hno : forall (P : Prop), ~ P -> forall r : outcome Authority, is_ret r = false -> r = Ret a <-> P)
    by (intros P HP [?|?|] Hr; naive_solver).
  unfold start, validate_label, ensure at 1.
  destruct (valid_label 80 ns); cbn; [|apply Hno; [intros (? & ? & ? & _)|]; done].
  destruct st as [s0|e|]; cbn; [|apply Hno; [intros (? & ? & ? & ? & _)|]; done..].
  destruct (load s0) as [d|e|] eqn:Hload; cbn; [|apply Hno; [intros (? & ? & _ & ? & ? & _); congruence|done]..].
  assert (Hf : try_fold (fun _ e => check_record e) tt (merge_sort (fun x y => Is_true (String.leb x.1 y.1)) (map_to_list d)) = Ret tt <->
    forall i v, d !! i = Some v -> valid_label 160 i = true /\ identity v = i /\ valid_label 80 (name v) = true).
  { rewrite try_fold_unit, merge_sort_Permutation, list.Forall_forall. split.
    - intros Hc i v Hv. apply (check_record_ok (i, v)), Hc. by apply elem_of_map_to_list.
    - intros Hc [i v] Hv. apply check_record_ok, Hc. by apply elem_of_map_to_list in Hv. }
  unfold ensure. case_bool_decide as Hsz; cbn.
  - destruct (try_fold _ tt _) as [[]|e|]; cbn.
    + assert (Hd : db_ok d) by (split; [done|by apply Hf]). split.
      * intros [= <-]. exists s0, d. by split_and!.
      * intros (? & d' & _ & [= <-] & Hl & _ & ->). rewrite Hload in Hl. by injection Hl as <-.
    + apply Hno; [|done]. intros (? & d' & _ & [= <-] & Hl & [_ Hv] & _). rewrite Hload in Hl. injection Hl as <-. by apply Hf in Hv.
    + apply Hno; [|done]. intros (? & d' & _ & [= <-] & Hl & [_ Hv] & _). rewrite Hload in Hl. injection Hl as <-. by apply Hf in Hv.
  - apply Hno; [|done]. intros (? & d' & _ & [= <-] & Hl & [Hv _] & _). rewrite Hload in Hl. by injection Hl as <-.
Qed.

Lemma start_inv ns st w a : World_ok w -> start ns st w = Ret a -> Authority_inv [] a.
Proof.
  intros Hw (s0 & d & _ & _ & Hl & Hd & ->)%start_Ret.
  constructor; cbn; [|constructor|lia|done|done|intros x Hx; by apply not_elem_of_nil in Hx].
  constructor; cbn; [|done|constructor; [done|cbn; lia|constructor|constructor]].
  constructor; cbn; [done|by exists d|done|set_solver].
Qed.

Lemma outside_keeps o s :
  State_ok s -> keeps s (set_admissions (admissions s) (outside_step (world s) o) s).
Proof.
  intros [[H1 H2 H3 H4] Hi [A1 A2 A3 A4]]. assert (Hd := outside_declines (world s) o A1).
  split; [|by split; [|auto]]. constructor; cbn; [by constructor|done|].
  constructor; [by apply outside_ok|done| |done].
  apply (list.Forall_impl _ _ _ A3). intros x. by apply declines_issued.
Qed.

Lemma authority_step_inv l a e :
  Authority_inv l a -> event_possible a e ->
  Authority_inv (l ++ submitted [e]) (authority_step a e).
Proof.
  intros Ha He. destruct e as [c r|now random| | |i|o]; cbn; rewrite ?app_nil_r.
  - pose proof (request_inv l c r a Ha He) as Hr. by destruct (brought c).
  - by apply worker_turn_inv.
  - by apply shutdown_inv.
  - by apply drop_owner_inv.
  - apply inv_with_state; [done| |done|done]. split; [by apply set_approvals_ok, Ha|auto].
  - apply inv_with_state; [done|by apply outside_keeps, Ha|done|done].
Qed.

Lemma authority_reaches_inv ns st w a0 es a :
  World_ok w -> start ns st w = Ret a0 -> authority_reaches a0 es a -> Authority_inv (submitted es) a.
Proof.
  intros Hw Hs. induction 1 as [|es a e Hr IH He]; [by eapply start_inv|].
  unfold submitted in *. rewrite omap_app. by apply authority_step_inv.
Qed.

(** C7 (pairing-accounting). In every history of the authority, with permits revoked and
    peers disconnecting in between: a submitted connection waits in the bounded channel,
    is admitted while its device is trusted, or has its permit ended and its transport
    closed. So once a device is revoked none of its admitted connections is live. At most
    8 connections are admitted and 32 devices trusted, every handle reads exactly the
    trusted devices, and when the owner is gone every submitted connection is given up. *)
Theorem pairing_accounting (ns : string) (st : outcome S) (w : World L) (a0 a : Authority) (es : list authority_event)
    (Hw : World_ok w) (Hs : start ns st w = Ret a0) (Hr : authority_reaches a0 es a) :
  (forall x, x ∈ submitted es ->
     waits x a \/
     (x ∈ admissions (state_of a) /\ is_Some (devices (state_of a) !! admitted_identity x)) \/
     retired (world (state_of a)) x) /\
  (length (requests a) <= MAX_REQUESTS)%nat /\
  (length (admissions (state_of a)) <= MAX_CONNECTIONS)%nat /\
  db_ok (devices (state_of a)) /\
  published_devices (state_of a) = devices (state_of a) /\
  (forall x, x ∈ submitted es -> retired (world (state_of (drop_owner a))) x).
Proof.
  pose proof (authority_reaches_inv _ _ _ _ _ _ Hw Hs Hr) as Ha.
  pose proof Ha as [[[T1 T2 T3 T4] Hi [A1 A2 A3 A4]] H2 H3 H4 H5 H6]. split_and!; try done.
  - intros x Hx. destruct (H6 x Hx) as [_ [?|[Hin|?]]]; [by left| |by right; right].
    right. left. split; [done|]. by apply (proj1 (list.Forall_forall _ _) A4).
  - intros x Hx. apply drop_owner_inv in Ha as [_ _ _ He _ Hp]. destruct (He eq_refl) as [Hno _].
    destruct (Hp x Hx) as [_ [(c & r & Hin & _)|[Hin|?]]]; [| |done].
    + by apply not_elem_of_nil in Hin.
    + rewrite Hno in Hin. by apply not_elem_of_nil in Hin.
Qed.

(** ** Who becomes trusted *)
Definition log_entry : Type := Command * instant * (nat -> outcome (list Z)).

(** Neither a new invitation nor a cancellation. *)
Definition unreplaced (e : log_entry) : Prop :=
  match e with
  | (Invite, _, random) => is_ret (random 32%nat) = false
  | (Cancel, _, _) => False
  | _ => True
  end.
(** The last invitation issued in [lg] has this token and expiry, and was not cancelled. *)
Definition invited (lg : list log_entry) (tok : list Z) (exp : instant) : Prop :=
  exists before t random after, lg = before ++ (Invite, t, random) :: after /\
    random 32%nat = Ret tok /\ exp = t + INVITATION_LIFETIME /\ Forall unreplaced after.
(** A peer of the namespace claimed that invitation with its token and before its expiry,
    and was shown the code. *)
Definition claimed_by (ns : string) (lg : list log_entry) (c : PairingCandidate) (exp : instant) : Prop :=
  exists before p tok nm t random bytes after, lg = before ++ (Claim p tok nm, t, random) :: after /\
    invited before tok exp /\ namespace p = ns /\ random 3%nat = Ret bytes /\
    c = MkCandidate (peer_identity p) nm (hex_bytes bytes) /\ t < exp /\ Forall unreplaced after.
(** The user approved that claimant by identity and code before the expiry. *)
Definition consented (ns : string) (lg : list log_entry) (i : string) : Prop :=
  exists before c exp perms t random after,
    lg = before ++ (Approve i (verification c) perms, t, random) :: after /\
    claimed_by ns before c exp /\ candidate_identity c = i /\ t < exp.

Lemma invited_snoc lg tok exp e : invited lg tok exp -> unreplaced e -> invited (lg ++ [e]) tok exp.
Proof.
  intros (b & t & rn & af & -> & H1 & H2 & H3) He. exists b, t, rn, (af ++ [e]). rewrite <- app_assoc.
  split_and!; try done. apply Forall_app. auto.
Qed.
Lemma claimed_snoc ns lg c exp e : claimed_by ns lg c exp -> unreplaced e -> claimed_by ns (lg ++ [e]) c exp.
Proof.
  intros (b & p & tok & nm & t & rn & bytes & af & -> & H1 & H2 & H3 & H4 & H5 & H6) He.
  exists b, p, tok, nm, t, rn, bytes, (af ++ [e]). rewrite <- app_assoc. split_and!; try done. apply Forall_app. auto.
Qed.
Lemma consented_snoc ns lg i e : consented ns lg i -> consented ns (lg ++ [e]) i.
Proof.
  intros (b & c & exp & perms & t & rn & af & -> & Hc). exists b, c, exp, perms, t, rn, (af ++ [e]).
  by rewrite <- app_assoc.
Qed.

(** All identities in memory and in the database satisfy [K]. *)
Definition within (K : string -> Prop) (s : state) : Prop :=
  (forall i, is_Some (devices s !! i) -> K i) /\
  (forall d i, load (storage s) = Ret d -> is_Some (d !! i) -> K i).
(** The invitation is the one the log says. *)
Definition invitation_logged (ns : string) (lg : list log_entry) (o : option Invitation) : Prop :=
  forall inv, o = Some inv ->
    match claimant inv with
    | None => length (token inv) = 32%nat /\ invited lg (token inv) (expires inv)
    | Some c => claimed_by ns lg c.1 (expires inv)
    end.

Lemma within_save K d st st' r s s' :
  save d st = (st', r) -> (forall i, is_Some (d !! i) -> K i) -> within K s ->
  st = storage s -> storage s' = st' -> (devices s' = d \/ devices s' = devices s) -> within K s'.
Proof.
  intros Hs Hd [H1 H2] -> Hst Hdev. split.
  - intros i. destruct Hdev as [-> | ->]; auto.
  - intros d' i. rewrite Hst. destruct (save_other _ _ _ _ Hs) as [-> | ->]; [apply H2|intros [= <-]; apply Hd].
Qed.

Lemma approve_within K i v p s :
  within K s -> (forall c, approve_checks i v s = Ret c -> K i) -> within K (approve i v p s).1.
Proof.
  intros Hk Hc. unfold approve. destruct (approve_checks i v s) as [c|e|]; [|done..].
  assert (Hd : forall j, is_Some (<[i:=MkDevice i (candidate_name c.1) p]> (devices s) !! j) -> K j).
  { intros j. rewrite lookup_insert. case_decide; [intros _; subst; by apply (Hc c)|apply (proj1 Hk)]. }
  destruct (save _ (storage s)) as [st r] eqn:Hs. rewrite retain_admissions_eq.
  destruct r; cbn [fst]; eapply (within_save K _ _ _ _ s); cbn; eauto.
Qed.
Lemma revoke_within K i s : within K s -> within K (revoke_device i s).1.
Proof.
  intros Hk. unfold revoke_device. destruct (bool_decide _ || bool_decide _); [|done].
  rewrite retain_admissions_eq. cbn. destruct (save _ (storage s)) as [st r] eqn:Hs.
  assert (Hd : forall j, is_Some (delete i (devices s) !! j) -> K j).
  { intros j. rewrite lookup_delete. case_decide; [intros [? ?]; done|apply (proj1 Hk)]. }
  destruct r; cbn [fst]; eapply (within_save K _ _ _ _ s); cbn; eauto.
Qed.
Lemma diagnostics_within K i b s : within K s -> within K (set_diagnostics i b s).1.
Proof.
  intros Hk. unfold set_diagnostics. destruct (devices s !! i) as [dev|] eqn:Hi; [|done].
  destruct (save _ (storage s)) as [st r] eqn:Hs.
  eapply (within_save K _ _ _ _ s); [exact Hs| |done|done|by destruct r|destruct r; cbn; auto].
  intros j. rewrite lookup_insert. case_decide; [intros _; subst; apply (proj1 Hk); eauto|apply (proj1 Hk)].
Qed.

(** The constant-time comparison is an equality test. *)
Lemma mismatch_fold (l : list (Z * Z)) sum :
  foldl (fun sum p => Z.lor sum (Z.lxor p.1 p.2)) sum l = 0 <-> sum = 0 /\ Forall (fun p => p.1 = p.2) l.
Proof.
  revert sum. induction l as [|[x y] l IH]; intros sum; cbn.
  - split; [intros ->; split; [done|constructor]|by intros [-> _]].
  - rewrite IH, Z.lor_eq_0_iff, Z.lxor_eq_0_iff, list.Forall_cons. cbn. naive_solver.
Qed.
Lemma mismatch_zero a b : length a = length b -> mismatch a b = 0 <-> a = b.
Proof.
  intros Hl. unfold mismatch. rewrite mismatch_fold. split.
  - intros [_ Hf]. revert b Hl Hf. induction a as [|x a IH]; intros [|y b] Hl Hf; try done; cbn in *.
    apply list.Forall_cons in Hf as [Hx Hf]. cbn in Hx. subst. f_equal. apply IH; [lia|done].
  - intros ->. split; [done|]. clear Hl. induction b as [|y b IH]; cbn; constructor; done.
Qed.

(** The namespace never changes, and only an invitation or a claim sets one. *)
Definition calmer (s s' : state) : Prop :=
  own_namespace s' = own_namespace s /\ (invitation s' = invitation s \/ invitation s' = None).
Lemma approve_calmer i v p s : calmer s (approve i v p s).1.
Proof.
  unfold approve, calmer. destruct (approve_checks i v s); [|by auto..].
  destruct (save _ (storage s)) as [st [?|?|]]; rewrite ?retain_admissions_eq; cbn; auto.
Qed.
Lemma revoke_calmer i s : calmer s (revoke_device i s).1.
Proof.
  unfold revoke_device, calmer. destruct (bool_decide _ || bool_decide _); [|by auto].
  rewrite retain_admissions_eq. cbn. destruct (save _ (storage s)) as [st [?|?|]]; cbn; auto.
Qed.
Lemma diagnostics_calmer i b s : calmer s (set_diagnostics i b s).1.
Proof.
  unfold set_diagnostics, calmer. destruct (devices s !! i); [|by auto].
  destruct (save _ (storage s)) as [st [?|?|]]; cbn; auto.
Qed.
Lemma admit_same p a s :
  let s' := (admit_connection p a s).1 in
  own_namespace s' = own_namespace s /\ invitation s' = invitation s /\ devices s' = devices s /\ storage s' = storage s.
Proof. unfold admit_connection. by destruct (admit_checks p a s). Qed.
Lemma expire_same now s :
  own_namespace (expire now s) = own_namespace s /\ devices (expire now s) = devices s /\
  storage (expire now s) = storage s /\ approvals (expire now s) = approvals s /\
  (invitation (expire now s) = invitation s \/ invitation (expire now s) = None) /\
  (forall inv, invitation (expire now s) = Some inv -> now < expires inv).
Proof.
  destruct (expire_eq now s) as (i & -> & Hi & Hx). rewrite retain_admissions_eq. cbn. auto 10.
Qed.

Definition Consent_inv (ns : string) (init : DeviceMap) (lg : list log_entry) (s : state) : Prop :=
  own_namespace s = ns /\ invitation_logged ns lg (invitation s) /\
  within (fun i => is_Some (init !! i) \/ consented ns lg i) s.

Lemma logged_snoc ns lg o e : invitation_logged ns lg o -> unreplaced e -> invitation_logged ns (lg ++ [e]) o.
Proof.
  intros Hl He inv Hinv. specialize (Hl inv Hinv). destruct (claimant inv) as [c|].
  - by apply claimed_snoc.
  - destruct Hl. split; [done|]. by apply invited_snoc.
Qed.
Lemma within_snoc ns (init : DeviceMap) lg e s :
  within (fun i => is_Some (init !! i) \/ consented ns lg i) s ->
  within (fun i => is_Some (init !! i) \/ consented ns (lg ++ [e]) i) s.
Proof.
  intros [H1 H2]. split.
  - intros i Hi. destruct (H1 i Hi); [by left|right; by apply consented_snoc].
  - intros d i Hd Hi. destruct (H2 d i Hd Hi); [by left|right; by apply consented_snoc].
Qed.
Lemma within_same K s s' : within K s -> devices s' = devices s -> storage s' = storage s -> within K s'.
Proof. intros [H1 H2] Hd Hs. split; rewrite ?Hd, ?Hs; auto. Qed.

(** A command that sets no invitation. *)
Lemma consent_calmer ns (init : DeviceMap) lg e s s' :
  Consent_inv ns init lg s -> calmer s s' -> (invitation s' = None \/ unreplaced e) ->
  within (fun i => is_Some (init !! i) \/ consented ns (lg ++ [e]) i) s' ->
  Consent_inv ns init (lg ++ [e]) s'.
Proof.
  intros (H1 & H2 & H3) [Hn Hi] He Hw. split; [congruence|]. split; [|done].
  destruct Hi as [Hi|Hi]; rewrite Hi in *; [|by intros ?].
  destruct He as [He|He]; [rewrite He; by intros ?|]. by apply logged_snoc.
Qed.

Lemma invite_consent ns init lg now random s :
  Consent_inv ns init lg s -> (forall n bytes, random n = Ret bytes -> length bytes = n) ->
  Consent_inv ns init (lg ++ [(Invite, now, random)]) (invite now (random 32%nat) s).1.
Proof.
  intros Hc Hn. destruct (random 32%nat) as [tok|e|] eqn:Hr; cbn.
  - destruct Hc as (H1 & H2 & H3). split; [done|]. split; [|by apply within_snoc].
    intros inv [= <-]. cbn. split; [by apply Hn|]. by exists lg, now, random, [].
  - apply (consent_calmer _ _ _ _ s); [done|by split; [|left]|right; cbn; by rewrite Hr|].
    apply within_snoc, Hc.
  - apply (consent_calmer _ _ _ _ s); [done|by split; [|left]|right; cbn; by rewrite Hr|].
    apply within_snoc, Hc.
Qed.

Lemma claim_consent ns init lg now random p given nm s :
  Consent_inv ns init lg s -> (forall inv, invitation s = Some inv -> now < expires inv) -> length given = 32%nat ->
  Consent_inv ns init (lg ++ [(Claim p given nm, now, random)]) (claim p given nm (random 3%nat) s).1.
Proof.
  intros Hc Hx Hl. unfold claim. destruct (claim_checks p given nm (random 3%nat) s) as [[i bytes]|e|] eqn:Hk; cbn;
    [|apply (consent_calmer _ _ _ _ s); [done|by split; [|left]|by right|apply within_snoc, Hc]..].
  apply claim_inv in Hk as (Hns & _ & Hi & Hcl & Hm & Hr). destruct Hc as (H1 & H2 & H3).
  split; [done|]. split; [|by apply (within_same _ s); [apply within_snoc|..]].
  specialize (H2 i Hi). rewrite Hcl in H2. destruct H2 as [Htl Hinv].
  apply mismatch_zero in Hm; [|congruence].
  intros inv [= <-]. cbn. exists lg, p, given, nm, now, random, bytes, [].
  split_and!; [done|by rewrite <- Hm|congruence|done|done|by apply Hx|constructor].
Qed.

Lemma approve_consent ns init lg now random i v p s :
  Consent_inv ns init lg s -> (forall inv, invitation s = Some inv -> now < expires inv) ->
  Consent_inv ns init (lg ++ [(Approve i v p, now, random)]) (approve i v p s).1.
Proof.
  intros Hc Hx. apply (consent_calmer _ _ _ _ s); [done|apply approve_calmer|by right|].
  destruct Hc as (H1 & H2 & H3). apply approve_within; [by apply within_snoc|].
  intros c Hk. apply approve_inv in Hk as (Hcl & <- & <- & _). right.
  destruct (invitation s) as [inv|] eqn:Hi; [|done]. cbn in Hcl. specialize (H2 inv eq_refl). rewrite Hcl in H2.
  exists lg, c.1, (expires inv), p, now, random, []. split_and!; [done|done|done|by apply Hx].
Qed.

Lemma consent_set_admissions ns init lg l w s :
  Consent_inv ns init lg s -> Consent_inv ns init lg (set_admissions l w s).
Proof. by intros (H1 & H2 & H3). Qed.

Lemma expire_consent ns init lg now s : Consent_inv ns init lg s -> Consent_inv ns init lg (expire now s).
Proof.
  intros (H1 & H2 & H3). destruct (expire_same now s) as (E1 & E2 & E3 & _ & E5 & _). split; [congruence|].
  split; [|by apply (within_same _ s)]. destruct E5 as [-> | ->]; [done|by intros ?].
Qed.

Lemma handle_consent ns init lg c r now random s :
  Consent_inv ns init lg s -> (forall n bytes, random n = Ret bytes -> length bytes = n) ->
  command_possible (world s) c ->
  Consent_inv ns init (lg ++ [(c, now, random)]) (handle c r now random s).1.
Proof.
  intros Hs Hn Hp. apply (expire_consent _ _ _ now) in Hs as Hs'. pose proof (expire_same now s) as (_ & _ & _ & _ & _ & Hx).
  unfold handle. revert Hs' Hx. generalize (expire now s) as s'. intros s' Hs' Hx.
  assert (Hsame : forall e, unreplaced e -> Consent_inv ns init (lg ++ [e]) s').
  { intros e He. apply (consent_calmer _ _ _ _ s'); [done|by split; [|left]|by right|apply within_snoc, Hs']. }
  destruct c as [| |p given nm|i v perms| |i|i b|p a].
  - pose proof (invite_consent _ _ _ now random s' Hs' Hn) as Hk. by destruct (invite now (random 32%nat) s').
  - by apply Hsame.
  - destruct (is_closed r); [by apply Hsame|].
    pose proof (claim_consent _ _ _ now random p given nm s' Hs' Hx (proj2 Hp)) as Hk.
    destruct (claim p given nm (random 3%nat) s') as [s1 [cl|e|]]; cbn in *; try done. by destruct (send_fails r).
  - pose proof (approve_consent _ _ _ now random i v perms s' Hs' Hx) as Hk. by destruct (approve i v perms s').
  - apply (consent_calmer _ _ _ _ s'); [done|by split; [|right]|by left|]. apply within_snoc, Hs'.
  - assert (Hk : Consent_inv ns init (lg ++ [(RevokeDevice i, now, random)]) (revoke_device i s').1).
    { apply (consent_calmer _ _ _ _ s'); [done|apply revoke_calmer|by right|]. apply revoke_within, within_snoc, Hs'. }
    by destruct (revoke_device i s').
  - assert (Hk : Consent_inv ns init (lg ++ [(Diagnostics i b, now, random)]) (set_diagnostics i b s').1).
    { apply (consent_calmer _ _ _ _ s'); [done|apply diagnostics_calmer|by right|].
      apply diagnostics_within, within_snoc, Hs'. }
    by destruct (set_diagnostics i b s').
  - set (sx := if is_closed r then _ else _).
    assert (Hk : Consent_inv ns init (lg ++ [(Admit p a, now, random)]) sx.1).
    { unfold sx. destruct (is_closed r); [by apply consent_set_admissions, Hsame|].
      destruct (admit_same p a s') as (E1 & E2 & E3 & E4).
      apply (consent_calmer _ _ _ _ s'); [done|by split; [|left]|by right|].
      apply (within_same _ s'); [apply within_snoc, Hs'|done|done]. }
    clearbody sx. destruct sx as [s1 x]. destruct (send_fails r); [|done].
    by apply expire_consent, consent_set_admissions.
Qed.

Lemma drop_command_consent ns init lg c s : Consent_inv ns init lg s -> Consent_inv ns init lg (drop_command c s).
Proof. intros Hs. by destruct c. Qed.
Lemma worker_end_consent ns init lg s : Consent_inv ns init lg s -> Consent_inv ns init lg (drop_state s).
Proof. intros (H1 & H2 & H3). split; [done|]. split; [by intros ?|done]. Qed.

Lemma turn_consent ns init l now random a :
  Authority_inv l a -> Consent_inv ns init (log a) (state_of a) ->
  (forall n bytes, random n = Ret bytes -> length bytes = n) ->
  Consent_inv ns init (log (worker_turn now random a)) (state_of (worker_turn now random a)).
Proof.
  intros Ha Hc Hn. unfold worker_turn. destruct (running a); [|done].
  destruct (requests a) as [|[c r] rest] eqn:Hq.
  - destruct (request_closed a); [|done]. by apply worker_end_consent.
  - destruct (request_closed a); [by apply worker_end_consent, drop_command_consent|].
    apply handle_consent; [done|done|]. pose proof (inv_requests _ _ Ha) as Hf. rewrite Hq in Hf.
    by apply list.Forall_cons in Hf as [? _].
Qed.

Lemma authority_step_consent ns init l a e :
  Authority_inv l a -> event_possible a e -> Consent_inv ns init (log a) (state_of a) ->
  Consent_inv ns init (log (authority_step a e)) (state_of (authority_step a e)).
Proof.
  intros Ha He Hc. destruct e as [c r|now random| | |i|o]; cbn; try done.
  - unfold request. destruct (request_closed a || _); [by apply drop_command_consent|done].
  - by apply (turn_consent ns init l).
  - assert (Hb : Consent_inv ns init (log (shutdown a)) (state_of (shutdown a))) by done.
    apply shutdown_inv in Ha. apply (turn_consent ns init l 0 (fun _ => Panic)) in Hb; [|done|done].
    revert Hb. generalize (worker_turn 0 (fun _ => Panic) (shutdown a)) as b. intros b Hb. cbn.
    generalize (log b) (state_of b) Hb. clear Hb. intros lg s. revert s.
    induction (requests b) as [|q q' IH]; intros s Hs; [done|]. apply IH. by apply drop_command_consent.
Qed.

(** C18 (pairing-consent). Nobody is trusted without the local user's consent: an identity
    among the trusted devices, or in the database, of a running authority was in the
    database it started with, or the user approved it: a peer of the authority's namespace
    with this identity claimed the latest invitation with its token, it was shown a code,
    and the user approved this identity and this code, all within the invitation's
    lifetime and with no cancellation in between. *)
Theorem pairing_consent (ns : string) (st : outcome S) (w : World L) (a0 a : Authority) (es : list authority_event)
    (Hw : World_ok w) (Hs : start ns st w = Ret a0) (Hr : authority_reaches a0 es a) (i : string)
    (Hi : is_Some (devices (state_of a) !! i) \/
          exists d, load (storage (state_of a)) = Ret d /\ is_Some (d !! i)) :
  is_Some (devices (state_of a0) !! i) \/ consented ns (log a) i.
Proof.
  assert (Hc : Consent_inv ns (devices (state_of a0)) (log a) (state_of a)).
  { clear Hi. induction Hr as [|es a e Hr IH He].
    - apply start_Ret in Hs as (s0 & d & _ & _ & Hl & _ & ->). split; [done|]. split; [by intros ?|].
      split; cbn; [by left|]. intros d' j. rewrite Hl. intros [= <-]. by left.
    - eapply authority_step_consent; [by eapply authority_reaches_inv|done|done]. }
  destruct Hc as (_ & _ & [H1 H2]). destruct Hi as [Hi|(d & Hd & Hi)]; [by apply H1|by apply (H2 d)].
Qed.

(** ** The abstract authority

    What a user relies on: the devices trusted now, and those a new start would trust. *)
Record Trust := MkTrust { trusted : DeviceMap; stored : outcome DeviceMap }.
Definition trust_of (s : state) : Trust := MkTrust (devices s) (load (storage s)).

(** What a command does to both, by its answer: an [Ok] has the change in memory and in
    storage; after a failure a grant is not made and a revocation is, and storage has the
    old or the attempted devices. *)
Definition changes (d : DeviceMap) (x : option Answer) (failed : DeviceMap) (t t' : Trust) : Prop :=
  match x with
  | Some (Done (Ret _)) => t' = MkTrust d (Ret d)
  | _ => trusted t' = failed /\ (stored t' = stored t \/ stored t' = Ret d)
  end.
Definition trust_promise (c : Command) (x : option Answer) (t t' : Trust) : Prop :=
  match c with
  | Approve i v p => exists nm, changes (<[i := MkDevice i nm p]> (trusted t)) x (trusted t) t t'
  | RevokeDevice i => changes (delete i (trusted t)) x (delete i (trusted t)) t t'
  | Diagnostics i b =>
      changes (alter (fun dev => MkDevice (identity dev) (name dev)
                 (MkPermissions (browse (permissions dev)) (hoist (permissions dev)) b (thumbnails (permissions dev))))
                 i (trusted t)) x (trusted t) t t'
  | _ => t' = t
  end.
Definition trust_next (a : Authority) (e : authority_event) (t t' : Trust) : Prop :=
  match e with
  | Turn now random =>
      match running a, request_closed a, requests a with
      | true, false, (c, r) :: _ => trust_promise c (handle c r now random (state_of a)).2 t t'
      | _, _, _ => t' = t
      end
  | _ => t' = t
  end.

Lemma save_changes d st st' (r : outcome unit) failed t t' (s : state) :
  save d st = (st', r) -> t = MkTrust (devices s) (load st) ->
  match r with Ret _ => t' = MkTrust d (load st') | _ => t' = MkTrust failed (load st') end ->
  changes d (Some (Done r)) failed t t'.
Proof.
  intros Hs -> Ht. destruct r as [[]|e|]; subst t'; cbn.
  - by rewrite (save_ret _ _ _ Hs).
  - split; [done|]. by apply (save_other _ _ _ _ Hs).
  - split; [done|]. by apply (save_other _ _ _ _ Hs).
Qed.

Lemma approve_promise i v p s :
  trust_promise (Approve i v p) (Some (Done (approve i v p s).2)) (trust_of s) (trust_of (approve i v p s).1).
Proof.
  unfold approve. destruct (approve_checks i v s) as [c|e|]; cbn [trust_promise fst snd].
  - exists (candidate_name c.1). destruct (save _ (storage s)) as [st r] eqn:Hs.
    destruct r as [[]|e|]; rewrite ?retain_admissions_eq; cbn [fst snd]; by eapply (save_changes _ _ _ _ (devices s) _ _ s Hs).
  - exists EmptyString. split; [done|by left].
  - exists EmptyString. split; [done|by left].
Qed.
Lemma revoke_promise i s :
  trust_promise (RevokeDevice i) (Some (Done (revoke_device i s).2)) (trust_of s) (trust_of (revoke_device i s).1).
Proof.
  unfold revoke_device. destruct (bool_decide (is_Some _) || _) eqn:Hb; cbn [trust_promise fst snd].
  - rewrite retain_admissions_eq. cbn. destruct (save _ (storage s)) as [st r] eqn:Hs.
    destruct r as [[]|e|]; cbn [fst snd];
      [by eapply (save_changes _ _ _ _ (delete i (devices s)) _ _ s Hs)|split; [done|by apply (save_other _ _ _ _ Hs)]..].
  - apply orb_false_iff in Hb as [Hb%bool_decide_eq_false _]. split; [|by left]. cbn.
    rewrite delete_id; [done|]. by apply eq_None_not_Some.
Qed.
Lemma diagnostics_promise i b s :
  trust_promise (Diagnostics i b) (Some (Done (set_diagnostics i b s).2)) (trust_of s) (trust_of (set_diagnostics i b s).1).
Proof.
  unfold set_diagnostics. destruct (devices s !! i) as [dev|] eqn:Hi; cbn [trust_promise].
  - replace (alter _ i (trusted (trust_of s))) with
      (<[i:=MkDevice (identity dev) (name dev) (MkPermissions (browse (permissions dev)) (hoist (permissions dev)) b
              (thumbnails (permissions dev)))]> (devices s)).
    + destruct (save _ (storage s)) as [st r] eqn:Hs. destruct r as [[]|e|]; cbn [fst snd]; by eapply (save_changes _ _ _ _ (devices s) _ _ s Hs).
    + apply map_eq. intros j. cbn. rewrite lookup_insert, lookup_alter. case_decide; [subst; by rewrite Hi|done].
  - cbn. split; [done|by left].
Qed.

Lemma trust_of_expire now s : trust_of (expire now s) = trust_of s.
Proof. unfold trust_of. by destruct (expire_same now s) as (_ & -> & -> & _). Qed.

Lemma handle_promise c r now random s :
  trust_promise c (handle c r now random s).2 (trust_of s) (trust_of (handle c r now random s).1).
Proof.
  rewrite <- (trust_of_expire now s). unfold handle. generalize (expire now s) as s'. intros s'.
  destruct c as [| |p given nm|i v perms| |i|i b|p a].
  - by destruct (random 32%nat).
  - done.
  - destruct (is_closed r); [done|]. unfold claim. destruct (claim_checks _ _ _ _ s') as [[i bytes]|e|]; [|done..].
    cbn. by destruct (send_fails r).
  - pose proof (approve_promise i v perms s') as Hk. by destruct (approve i v perms s').
  - done.
  - pose proof (revoke_promise i s') as Hk. by destruct (revoke_device i s').
  - pose proof (diagnostics_promise i b s') as Hk. by destruct (set_diagnostics i b s').
  - set (sx := if is_closed r then _ else _). assert (Hk : trust_of sx.1 = trust_of s').
    { unfold sx. destruct (is_closed r); [done|]. destruct (admit_same p a s') as (_ & _ & E3 & E4).
      unfold trust_of. by rewrite E3, E4. }
    clearbody sx. destruct sx as [s1 x]. destruct (send_fails r); cbn in *; [|done].
    by rewrite trust_of_expire.
Qed.

Lemma turn_promise now random a :
  trust_next a (Turn now random) (trust_of (state_of a)) (trust_of (state_of (worker_turn now random a))).
Proof.
  unfold worker_turn. cbn. destruct (running a); [|done].
  destruct (request_closed a), (requests a) as [|[c r] rest]; try done; [by destruct c|]. apply handle_promise.
Qed.
Lemma turn_stopped now random a :
  trust_of (state_of (worker_turn now random (shutdown a))) = trust_of (state_of a).
Proof.
  unfold worker_turn. cbn. destruct (running a); [|done]. by destruct (requests a) as [|[c r] rest]; [|destruct c].
Qed.
Lemma drop_commands_trust (l : list (Command * Reply)) s :
  trust_of (foldl (fun s q => drop_command q.1 s) s l) = trust_of s.
Proof. revert s. induction l as [|[c r] l IH]; intros s; [done|]. cbn. rewrite IH. by destruct c. Qed.

(** C27 (pairing-refines). The worker implements the abstract authority: every step of
    every history, seen through the trusted and the stored devices, is a step the command
    at its head promises by its answer, or no step; and what a handle grants a peer is
    what the trusted devices say, for peers of the namespace while the authority runs. *)
Theorem pairing_refines (ns : string) (st : outcome S) (w : World L) (a0 a : Authority) (es : list authority_event)
    (Hw : World_ok w) (Hs : start ns st w = Ret a0) (Hr : authority_reaches a0 es a)
    (e : authority_event) (p : AuthenticatedPeer) :
  trust_next a e (trust_of (state_of a)) (trust_of (state_of (authority_step a e))) /\
  granted p (state_of a) =
    (if stopped (state_of a) || negb (bool_decide (own_namespace (state_of a) = namespace p)) then None
     else permissions <$> (trusted (trust_of (state_of a)) !! peer_identity p)) /\
  (request_closed a = true -> granted p (state_of a) = None).
Proof.
  pose proof (authority_reaches_inv _ _ _ _ _ _ Hw Hs Hr) as Ha. split_and!.
  - destruct e as [c r|now random| | |i|o]; try done; [|apply turn_promise|].
    + cbn. unfold request. destruct (request_closed a || _); [by destruct c|done].
    + cbn. by rewrite drop_commands_trust, turn_stopped.
  - unfold granted. by rewrite (published_ok _ (state_trust _ (inv_state _ _ Ha))).
  - intros Hc. unfold granted. by rewrite (inv_stopped _ _ Ha Hc).
Qed.

(** Whatever happened, the database can be loaded again: a later
    start succeeds with exactly the stored devices and grants each its permissions, with
    no invitation and no admitted connection. *)
Theorem pairing_restart (ns : string) (st : outcome S) (w w' : World L) (a0 a : Authority) (es : list authority_event)
    (Hw : World_ok w) (Hs : start ns st w = Ret a0) (Hr : authority_reaches a0 es a) :
  exists d a', load (storage (state_of a)) = Ret d /\
    start ns (Ret (storage (state_of a))) w' = Ret a' /\ trust_of (state_of a') = MkTrust d (Ret d) /\
    invitation (state_of a') = None /\ admissions (state_of a') = [] /\
    (forall i, granted (MkPeer ns i) (state_of a') = permissions <$> (d !! i)) /\
    is_ret (paired_devices (state_of a')) = true.
Proof.
  pose proof (authority_reaches_inv _ _ _ _ _ _ Hw Hs Hr) as Ha.
  destruct (stored_ok _ (state_trust _ (inv_state _ _ Ha))) as (d & Hd & Hdb).
  apply start_Ret in Hs as (_ & _ & Hn & _).
  exists d, (MkAuthority (MkState (storage (state_of a)) d ∅ None [] ns false d w' (MkApprovals 0 ∅ ∅)) [] false true []).
  split; [done|]. split; [apply start_Ret; by exists (storage (state_of a)), d|].
  split; [by unfold trust_of; cbn; rewrite Hd|]. split_and!; try done.
  intros i. unfold granted. cbn. by rewrite bool_decide_true.
Qed.
End Pairing.

(** ** Concrete inputs *)

(** A store in memory that refuses to save while its switch is on. *)
#[export] Program Instance memory_store : TrustStorage (DeviceMap * bool) := {|
  load s := Ret s.1;
  save d s := if s.2 then (s, Fail (ErrMsg "storage failure")) else ((d, s.2), Ret tt);
|}.
Next Obligation. intros d [d0 []] s'; cbn; [done|by intros [= <-]]. Qed.
Next Obligation. intros d [d0 []] s' r; cbn; intros [= <- <-]; auto. Qed.

Definition sample_random (n : nat) : outcome (list Z) := Ret (replicate n 171).
Definition answered : Reply := MkReply false false.
Definition all_permissions : DevicePermissions := MkPermissions true true true true.
Definition phone : AuthenticatedPeer := MkPeer "iroh" "phone-key".

(** The phone pairs, connects with its first permit, and is revoked. *)
Definition sample_pairing : list authority_event :=
  [Ask Invite answered; Turn 0 sample_random;
   Ask (Claim phone (replicate 32 171) "Phone") answered; Turn 10 sample_random;
   Ask (Approve "phone-key" "ABABAB" all_permissions) answered; Turn 20 sample_random;
   Ask (Admit phone (MkAdmission "phone-key" 1 7)) answered; Turn 30 sample_random].
Definition sample_revocation : list authority_event :=
  [Ask (RevokeDevice "phone-key") answered; Turn 40 sample_random].

Definition sample_start : Authority (S := DeviceMap * bool) (L := gset Z) :=
  MkAuthority (MkState (∅, false) ∅ ∅ None [] "iroh" false ∅ sample_world (MkApprovals 0 ∅ ∅)) [] false true [].
Definition sample_paired := foldl authority_step sample_start sample_pairing.
Definition sample_revoked := foldl authority_step sample_paired sample_revocation.

Lemma sample_start_ret : start "iroh" (Ret (∅, false)) sample_world = Ret sample_start.
Proof. vm_compute. reflexivity. Qed.
Lemma random_length n bytes : sample_random n = Ret bytes -> length bytes = n.
Proof. intros [= <-]. apply length_replicate. Qed.
Lemma sample_reached : authority_reaches sample_start sample_pairing sample_paired.
Proof.
  apply (authority_run_reaches sample_start []); [constructor|].
  repeat (split; [first [exact random_length|by vm_compute; eauto]|]). done.
Qed.
Lemma sample_revoked_reached : authority_reaches sample_start (sample_pairing ++ sample_revocation) sample_revoked.
Proof.
  apply (authority_run_reaches sample_start _ _ _ sample_reached).
  repeat (split; [first [exact random_length|done]|]). done.
Qed.

Lemma pairing_accounting_witness :
  is_Some (devices (state_of sample_paired) !! "phone-key"%string) /\
  admissions (state_of sample_paired) = [MkAdmission "phone-key" 1 7] /\
  admissions (state_of sample_revoked) = [] /\
  retired (world (state_of sample_revoked)) (MkAdmission "phone-key" 1 7).
Proof.
  split; [vm_compute; eauto|]. split; [vm_compute; reflexivity|]. split; [vm_compute; reflexivity|].
  destruct (pairing_accounting "iroh" (Ret (∅, false)) sample_world sample_start sample_revoked
              (sample_pairing ++ sample_revocation) sample_world_ok sample_start_ret sample_revoked_reached) as [H _].
  assert (Hsub : submitted (sample_pairing ++ sample_revocation) = [MkAdmission "phone-key" 1 7]) by reflexivity.
  assert (Hq : requests sample_revoked = []) by (vm_compute; reflexivity).
  assert (Ha : admissions (state_of sample_revoked) = []) by (vm_compute; reflexivity).
  destruct (H (MkAdmission "phone-key" 1 7)) as [(c & r & Hin & _)|[[Hin _]|Hr]]; [| | |exact Hr].
  - rewrite Hsub. left.
  - rewrite Hq in Hin. destruct (not_elem_of_nil _ Hin).
  - rewrite Ha in Hin. destruct (not_elem_of_nil _ Hin).
Defined.

Lemma pairing_consent_witness :
  devices (state_of sample_start) !! "phone-key"%string = None /\ consented "iroh" (log sample_paired) "phone-key".
Proof.
  split; [vm_compute; reflexivity|].
  destruct (pairing_consent "iroh" (Ret (∅, false)) sample_world sample_start sample_paired sample_pairing
              sample_world_ok sample_start_ret sample_reached "phone-key") as [H|H]; [left; vm_compute; eauto| |exact H].
  exfalso. vm_compute in H. destruct H. discriminate.
Defined.

Lemma pairing_refines_witness :
  granted phone (state_of sample_paired) = Some all_permissions /\
  trust_next sample_paired (Ask (RevokeDevice "phone-key") answered) (trust_of (state_of sample_paired))
    (trust_of (state_of (authority_step sample_paired (Ask (RevokeDevice "phone-key") answered)))).
Proof.
  split; [vm_compute; reflexivity|].
  apply (pairing_refines "iroh" (Ret (∅, false)) sample_world sample_start sample_paired sample_pairing
           sample_world_ok sample_start_ret sample_reached (Ask (RevokeDevice "phone-key") answered) phone).
Defined.

Lemma pairing_restart_witness :
  exists d, load (storage (state_of sample_paired)) = Ret d /\ is_Some (d !! "phone-key"%string).
Proof.
  destruct (pairing_restart "iroh" (Ret (∅, false)) sample_world sample_world sample_start sample_paired sample_pairing
              sample_world_ok sample_start_ret sample_reached) as (d & a' & Hd & _).
  exists d. split; [exact Hd|]. vm_compute in Hd. injection Hd as <-. vm_compute. eauto.
Defined.
