(* ===== verification/Effects.v ===== *)
(** * Computations over a state

    A method that changes [self] and may fail is a computation: it maps a state to the
    next one and an outcome, and the state it leaves stays when it fails. Here are the
    computations' steps, and two ways to reason about them: [always R m], a relation that
    holds across every run of [m], and [triple P m Q] for the runs that succeed. *)

From S2P Require Import Prelude.

Declare Scope effect_scope.
Reserved Notation "'let!' x := m 'in' k" (at level 10, x pattern, m at level 200, k at level 200,
  format "'[v' 'let!'  x  :=  m  'in' '/' k ']'").

(** The order in which a [HashMap] or [HashSet] is visited is not specified. *)
Class HashOrder (K V : Type) `{Countable K} := {
  visit : gmap K V -> list (K * V);
  visit_perm : forall m, visit m ≡ₚ map_to_list m;
}.

(** One of the orders. *)
Definition plain_order {K V : Type} `{Countable K} : HashOrder K V := {| visit m := map_to_list m; visit_perm m := Permutation_refl _ |}.

(** ** Sums over a map *)
Section MapTotal.
Context {K V : Type} `{Countable K}.
Implicit Types (f : V -> nat) (m : gmap K V).
Definition map_total f m : nat := sum_list_with (fun p => f p.2) (map_to_list m).
Lemma map_total_new f m i x : m !! i = None -> map_total f (<[i := x]> m) = (f x + map_total f m)%nat.
Proof. intros Hi. unfold map_total. by rewrite (map_to_list_insert _ _ _ Hi). Qed.
Lemma map_total_delete f m i : map_total f m = (from_option f 0%nat (m !! i) + map_total f (delete i m))%nat.
Proof.
  destruct (m !! i) as [x|] eqn:Hi; cbn; [|by rewrite delete_id].
  rewrite <- (insert_delete_id m i x Hi) at 1. apply map_total_new, lookup_delete_eq.
Qed.
Lemma map_total_insert f m i x : (map_total f (<[i := x]> m) + from_option f 0%nat (m !! i) = f x + map_total f m)%nat.
Proof. rewrite (map_total_delete f m i), <- insert_delete_eq, map_total_new by apply lookup_delete_eq. lia. Qed.
Lemma map_total_filter f (P : K * V -> Prop) `{forall p, Decision (P p)} m :
  (forall i x, m !! i = Some x -> ~ P (i, x) -> f x = 0%nat) -> map_total f (filter P m) = map_total f m.
Proof.
  induction m as [|i x m Hi IH] using map_ind; intros H1; [by rewrite map_filter_empty|].
  assert (Hm : forall j y, m !! j = Some y -> ~ P (j, y) -> f y = 0%nat).
  { intros j y Hj. apply H1. rewrite lookup_insert_ne; [done|]. intros ->. by rewrite Hi in Hj. }
  destruct (decide (P (i, x))) as [Hp|Hp].
  - rewrite map_filter_insert_True by done. rewrite !map_total_new by (done || by apply map_lookup_filter_None; left).
    by rewrite IH.
  - rewrite map_filter_insert_False, delete_id by done. rewrite map_total_new, IH by done.
    rewrite (H1 i x); [done|apply lookup_insert_eq|done].
Qed.
End MapTotal.

(** ** Computations *)
Definition M (S A : Type) : Type := S -> S * outcome A.
Section Steps.
Context {S : Type}.
Definition pure {A} (a : A) : M S A := fun s => (s, Ret a).
Definition bind {A B} (m : M S A) (k : A -> M S B) : M S B := fun s =>
  match m s with
  | (s, Ret a) => k a s
  | (s, Fail e) => (s, Fail e)
  | (s, Panic) => (s, Panic)
  end.
Definition gets {A} (f : S -> A) : M S A := fun s => (s, Ret (f s)).
Definition modify (f : S -> S) : M S unit := fun s => (f s, Ret tt).
Definition lift {A} (o : outcome A) : M S A := fun s => (s, o).
Definition done : M S unit := pure tt.
Fixpoint for_each {A} (f : A -> M S unit) (l : list A) : M S unit :=
  match l with
  | [] => done
  | a :: l => bind (f a) (fun _ => for_each f l)
  end.
(** [loop { .. }] with a value [b] the turns hand on; a turn that answers [None] breaks. *)
Fixpoint iterate {B} (fuel : nat) (body : B -> M S (option B)) (b : B) : M S unit :=
  match fuel with
  | O => done
  | Datatypes.S fuel => bind (body b) (fun next => match next with Some b => iterate fuel body b | None => done end)
  end.
(** A turn that reads the clock first: [clock n] is what the n-th turn reads. *)
Definition in_time {T B} (clock : nat -> T) (turn : T -> B -> M S (option B)) (x : nat * B) : M S (option (nat * B)) :=
  bind (turn (clock x.1) x.2) (fun next => pure (option_map (pair (Datatypes.S x.1)) next)).
(** [take_counter] ([weld-hoist-encoded/src/state.rs]) *)
Definition take_counter (counter : S -> option Z) (put : option Z -> S -> S) (name : string) : M S Z := fun s =>
  match counter s with
  | Some v => (put (checked_add v 1) s, Ret v)
  | None => (s, Fail (ErrMsg (name +:+ " space is exhausted")))
  end.
End Steps.
Notation "'let!' x := m 'in' k" := (bind m (fun x => k)) : effect_scope.
#[global] Open Scope effect_scope.

Section Reasoning.
Context {S : Type}.
Implicit Types (s : S) (R : S -> S -> Prop).

(** ** What computations leave alone *)
Definition always R {A} (m : M S A) : Prop := forall s, R s (m s).1.
Lemma always_bind R `{!Transitive R} {A B} (m : M S A) (k : A -> M S B) :
  always R m -> (forall a, always R (k a)) -> always R (bind m k).
Proof.
  intros Hm Hk s. specialize (Hm s). unfold bind. destruct (m s) as [s1 [a| |]]; cbn in *; [|done..].
  etransitivity; [exact Hm|apply Hk].
Qed.
Lemma always_id R `{!Reflexive R} {A} (m : M S A) : (forall s, (m s).1 = s) -> always R m.
Proof. intros H s. rewrite H. done. Qed.
Lemma always_for_each R `{!Reflexive R} `{!Transitive R} {A} (f : A -> M S unit) l :
  (forall a, always R (f a)) -> always R (for_each f l).
Proof. intros Hf. induction l as [|a l IH]; [by apply always_id|]. by apply always_bind. Qed.

(** What a field keeps its value. *)
Definition same {A} (f : S -> A) (s s' : S) : Prop := f s' = f s.
#[export] Instance same_po {A} (f : S -> A) : PreOrder (same f).
Proof. split; [done|]. intros a b c. unfold same. congruence. Qed.
(** ** Runs that succeed

    [triple P m Q]: started where [P] holds, [m], if it succeeds, ends where [Q] does. *)
Definition triple {A} (P : S -> Prop) (m : M S A) (Q : A -> S -> Prop) : Prop :=
  forall s s' a, P s -> m s = (s', Ret a) -> Q a s'.
Lemma triple_bind {A B} P (m : M S A) Mid (k : A -> M S B) Q :
  triple P m Mid -> (forall a, triple (Mid a) (k a) Q) -> triple P (bind m k) Q.
Proof.
  intros Hm Hk s s' b HP. unfold bind. destruct (m s) as [s1 [a| |]] eqn:Hs; [|done..]. apply Hk. by eapply Hm.
Qed.
Lemma triple_pure {A} (Q : A -> S -> Prop) (a : A) : triple (Q a) (pure a) Q.
Proof. intros s s' b HP [= <- <-]. done. Qed.
Lemma triple_for_each {A} (P : S -> Prop) (f : A -> M S unit) l :
  (forall a, a ∈ l -> triple P (f a) (fun _ => P)) -> triple P (for_each f l) (fun _ => P).
Proof.
  induction l as [|a l IH]; intros Hf; [by apply (triple_pure (fun _ => P))|].
  eapply triple_bind; [apply Hf; left|]. intros []. apply IH. intros b Hb. apply Hf. by right.
Qed.
Lemma triple_always {A} R (m : M S A) (P : S -> Prop) :
  always R m -> (forall s s', R s s' -> P s -> P s') -> triple P m (fun _ => P).
Proof. intros Hm HR s s' a HP Hs. apply (HR s); [|done]. specialize (Hm s). by rewrite Hs in Hm. Qed.

Lemma triple_same {A B} (f : S -> B) (m : M S A) (P : B -> Prop) :
  always (same f) m -> triple (fun s => P (f s)) m (fun _ s => P (f s)).
Proof. intros H s s' a HP Hs. specialize (H s). rewrite Hs in H. unfold same in H. cbn in H. by rewrite H. Qed.

(** ** Runs that fail *)
Definition blames {A} (E : error -> Prop) (m : M S A) : Prop := forall s s' e, m s = (s', Fail e) -> E e.
Lemma blames_bind {A B} E (m : M S A) (k : A -> M S B) : blames E m -> (forall a, blames E (k a)) -> blames E (bind m k).
Proof.
  intros Hm Hk s s' e. unfold bind. destruct (m s) as [s1 [a|x|]] eqn:Hs; [apply Hk| |done]. intros [= _ <-]. by eapply Hm.
Qed.
Lemma blames_never {A} E (m : M S A) : (forall s s' e, m s <> (s', Fail e)) -> blames E m.
Proof. intros H s s' e Hs. by apply H in Hs. Qed.
Lemma blames_for_each {A} E (f : A -> M S unit) l : (forall a, blames E (f a)) -> blames E (for_each f l).
Proof. intros Hf. induction l as [|a l IH]; [by apply blames_never|]. by apply blames_bind. Qed.
Lemma blames_iterate {B} E n (body : B -> M S (option B)) b : (forall b, blames E (body b)) -> blames E (iterate n body b).
Proof.
  intros Hb. revert b. induction n as [|n IH]; intros b; [by apply blames_never|]. apply blames_bind; [apply Hb|].
  intros [b'|]; [apply IH|by apply blames_never].
Qed.
Lemma blames_lift {A} E (o : outcome A) : (forall e, o = Fail e -> E e) -> blames E (lift o).
Proof. intros H s s' e [= _ Ho]. by apply H. Qed.
Lemma run_bind_fail {A B} (m : M S A) (k : A -> M S B) s s' e : bind m k s = (s', Fail e) ->
  m s = (s', Fail e) \/ exists s1 a, m s = (s1, Ret a) /\ k a s1 = (s', Fail e).
Proof. unfold bind. destruct (m s) as [s1 [a|x|]]; [|intros [= -> ->]; by left|done]. intros H. right. by exists s1, a. Qed.

(** ** Inversion of a run *)
Lemma run_bind {A B} (m : M S A) (k : A -> M S B) s s' b :
  bind m k s = (s', Ret b) -> exists s1 a, m s = (s1, Ret a) /\ k a s1 = (s', Ret b).
Proof. unfold bind. destruct (m s) as [s1 [a| |]]; [|done..]. by eexists _, _. Qed.
Lemma run_always {A} R (m : M S A) s s' o : always R m -> m s = (s', o) -> R s s'.
Proof. intros H Hm. specialize (H s). by rewrite Hm in H. Qed.
Lemma run_lift {A} (o : outcome A) s s' a : lift o s = (s', Ret a) -> s' = s /\ o = Ret a.
Proof. by intros [= <- ->]. Qed.
Lemma run_gets {A} (f : S -> A) s s' a : gets f s = (s', Ret a) -> s' = s /\ a = f s.
Proof. by intros [= <- <-]. Qed.

(** ** Loops *)
Lemma bind_ext {A B} (m : M S A) (k k' : A -> M S B) s :
  (forall s' a, m s = (s', Ret a) -> k a s' = k' a s') -> bind m k s = bind m k' s.
Proof. intros H. unfold bind. destruct (m s) as [s' [a| |]] eqn:Hm; [by apply H|done..]. Qed.
(** A loop whose turns go on only when a measure falls does not run out of fuel: more of it
    changes nothing. *)
Definition shrinks {B} (μ : B -> S -> nat) (body : B -> M S (option B)) : Prop :=
  forall b s s' b', body b s = (s', Ret (Some b')) -> (μ b' s' < μ b s)%nat.
Lemma iterate_enough {B} μ (body : B -> M S (option B)) n k b s :
  shrinks μ body -> (μ b s < n)%nat -> (n <= k)%nat -> iterate n body b s = iterate k body b s.
Proof.
  intros Hμ. revert k b s. induction n as [|n IH]; intros k b s Hn Hk; [lia|]. destruct k as [|k]; [lia|]. cbn.
  apply bind_ext. intros s' [b'|] Hb; [|done]. specialize (Hμ _ _ _ _ Hb). apply IH; lia.
Qed.
(** So it satisfies the equation of the unbounded loop. *)
Lemma iterate_unfold {B} μ (body : B -> M S (option B)) n b s :
  shrinks μ body -> (μ b s < n)%nat ->
  iterate n body b s = bind (body b) (fun next => match next with Some b => iterate n body b | None => done end) s.
Proof.
  intros Hμ Hn. destruct n as [|n]; [lia|]. cbn [iterate]. apply bind_ext. intros s' [b'|] Hb; [|done].
  pose proof (Hμ _ _ _ _ Hb). change (iterate n body b' s' = iterate (Datatypes.S n) body b' s').
  apply (iterate_enough μ); [done|lia|lia].
Qed.
(** What holds where it ends: an invariant, and that the last turn broke. *)
Lemma iterate_ends {B} μ (body : B -> M S (option B)) (P : B -> S -> Prop) (Q : S -> Prop) n b :
  shrinks μ body -> (forall b, triple (P b) (body b) (fun next s => match next with Some b => P b s | None => Q s end)) ->
  triple (fun s => P b s /\ (μ b s < n)%nat) (iterate n body b) (fun _ => Q).
Proof.
  intros Hμ Hb. revert b. induction n as [|n IH]; intros b s s' [] [HP Hn] Hs; [lia|]. cbn in Hs.
  apply run_bind in Hs as (s1 & next & H1 & Hs). pose proof (Hb b s s1 next HP H1) as Hnext. destruct next as [b'|].
  - specialize (Hμ _ _ _ _ H1). eapply IH; [|exact Hs]. split; [done|lia].
  - by injection Hs as <-.
Qed.
Lemma triple_iterate {B} (m : B -> M S (option B)) (P : S -> Prop) n b :
  (forall b, triple P (m b) (fun _ => P)) -> triple P (iterate n m b) (fun _ => P).
Proof.
  intros Hm. revert b. induction n as [|n IH]; intros b; [apply (triple_pure (fun _ => P))|]. cbn.
  eapply triple_bind; [apply Hm|]. intros [b'|]; [apply IH|apply (triple_pure (fun _ => P))].
Qed.
Lemma always_iterate R `{!Reflexive R} `{!Transitive R} {B} n (body : B -> M S (option B)) b :
  (forall b, always R (body b)) -> always R (iterate n body b).
Proof.
  intros Hb. revert b. induction n as [|n IH]; intros b; [by apply always_id|]. apply always_bind; [done|apply Hb|].
  intros [b'|]; [apply IH|by apply always_id].
Qed.
Lemma run_in_time {T B} (clock : nat -> T) (turn : T -> B -> M S (option B)) x s s' next : in_time clock turn x s = (s', Ret next) ->
  exists r, turn (clock x.1) x.2 s = (s', Ret r) /\
    next = option_map (pair (Datatypes.S x.1)) r.
Proof. intros (s1 & r & Hr & [= <- <-])%run_bind. by exists r. Qed.
Lemma shrinks_in_time {T B} μ (clock : nat -> T) (turn : T -> B -> M S (option B)) :
  (forall now, shrinks μ (turn now)) -> shrinks (fun x => μ x.2) (in_time clock turn).
Proof. intros H x s s' b' ([b|] & Hr & Hb)%run_in_time; [|done]. injection Hb as ->. by eapply H. Qed.
Lemma triple_in_time {T B} (clock : nat -> T) (turn : T -> B -> M S (option B)) x (P : S -> Prop) Q :
  triple P (turn (clock x.1) x.2) (fun next s => Q (option_map (pair (Datatypes.S x.1)) next) s) -> triple P (in_time clock turn x) Q.
Proof. intros H s s' next HP (r & Hr & ->)%run_in_time. by eapply H. Qed.
End Reasoning.
(** Takes the run of a computation that succeeded apart, as far as its steps are plain. *)
Ltac run_end H := cbv beta delta [pure done modify] in H; first [discriminate H | injection H; clear H; intros; subst].
Ltac run_step H :=
  lazymatch type of H with
  | bind (gets _) _ _ = _ => apply run_bind in H as (? & ? & [-> ->]%run_gets & H)
  | bind (modify _) _ _ = _ => apply run_bind in H as (? & [] & [= <-] & H)
  | bind (lift _) _ _ = _ => let Ho := fresh "Hlift" in apply run_bind in H as (? & ? & [-> Ho]%run_lift & H)
  | pure _ _ = _ => run_end H
  | done _ = _ => run_end H
  | modify _ _ = _ => run_end H
  | lift _ _ = _ => let Ho := fresh "Hlift" in apply run_lift in H as [-> Ho]; try discriminate Ho
  end.
Ltac run_in H := repeat (run_step H; cbn beta in *).
(** Shows that a computation keeps a relation, step by step. *)
Create HintDb keeps discriminated.
Ltac keep_step :=
  first [ by auto with keeps nocore
        | apply always_bind; [apply _| |intros ?]
        | apply always_for_each; [apply _..|intros ?]
        | apply always_iterate; [apply _..|intros ?]
        | by (apply always_id; [apply _|])
        | (let s := fresh "s" in intros s; by repeat split)
        | progress case_match ].
Ltac keep := repeat keep_step.
Create HintDb blames discriminated.
Ltac blame_step :=
  first [ by auto with blames nocore
        | apply blames_bind; [|intros ?]
        | apply blames_for_each; intros ?
        | apply blames_iterate; intros ?
        | by apply blames_never
        | progress case_match ].
Ltac blame := repeat blame_step.
