(* ===== verification/Packets.v ===== *)
(** * Encoded packets

    What an encoded source and destination exchange ([weld-hoist-protocol/src/lib.rs]), and
    the questions [weld-hoist-encoded/src/state.rs] asks of events. *)

From S2P Require Import Prelude.
From S2P Require Import Ids.
From S2P Require Import Input.
From S2P Require Import Commit.
From S2P Require Import Output.
From S2P Require Import Framing.

Definition MAX_ENCODED_ACCESS_UNIT_BYTES : Z := 32 * 1024 * 1024.

Record EncodedBuffer := MkEncodedBuffer { buffer_frame : MediaFrameId }.
Inductive SourceMessage (Cu Au : Type) :=
  | SurfaceMessage (event : ClientSurfaceEvent EncodedBuffer)
  | BufferRetired (buffer : ClientBufferId)
  | Withdraw (surface : ClientSurfaceId)
  | Ended
  | MappedMessage (surface : ClientSurfaceId)
  | CursorMessage (update : Cu) (sequence : Z)
  | GamepadMessage (status : GamepadStatus)
  | AudioMessage (surface : ClientSurfaceId) (packet : Au).
Arguments SurfaceMessage {Cu Au}. Arguments BufferRetired {Cu Au}. Arguments Withdraw {Cu Au}. Arguments Ended {Cu Au}.
Arguments MappedMessage {Cu Au}. Arguments CursorMessage {Cu Au}. Arguments GamepadMessage {Cu Au}.
Arguments AudioMessage {Cu Au}.

(** A generation of a stream, and the one a frame is of. *)
Definition EncodedGeneration : Type := MediaStreamId * StreamGeneration.
Definition generation_of (f : MediaFrameId) : EncodedGeneration := (frame_stream f, frame_generation f).

(** ** What events say *)
Definition is_commit {B} (e : ClientSurfaceEvent B) : bool := match event_kind e with Commit _ => true | _ => false end.
Definition is_unmap {B} (e : ClientSurfaceEvent B) : bool :=
  match event_kind e with Commit c => negb (mapped c) | _ => false end.
Definition is_removed {B} (c : SurfaceBufferChange B) : bool := match c with Removed => true | _ => false end.
(** The commit names the layer, and not as removed. *)
Definition names_layer {B} (c : ClientSurfaceState B) (l : SurfaceLayerId) : bool :=
  existsb (fun u => bool_decide (layer u = l) && negb (is_removed (change u))) (buffers c).
(** [encoded_frames] *)
Definition update_frames (us : list (SurfaceBufferUpdate EncodedBuffer)) : list MediaFrameId :=
  omap (fun u => match change u with Replaced _ b => Some (buffer_frame b) | _ => None end) us.
Definition encoded_frames (e : ClientSurfaceEvent EncodedBuffer) : list MediaFrameId :=
  match event_kind e with Commit c => update_frames (buffers c) | _ => [] end.
