(* ===== verification/SourceState.v ===== *)
(** * The encoded source ([weld-hoist-encoded/src/state.rs], [state/source_budget.rs])

    [EncodedSourceState] turns the surface events of a port into encoded packets. Events
    wait per surface; the scheduler picks the next commit, its replaced buffers are given
    frames of their layers' streams and encoded one after the other, and the finished batch
    is published with its commit. A stream has generations; a new extent, rate or cadence
    begins one, with a keyframe.

    The encoder backend is an interface. Every method is a computation over the state that
    may fail; the relay disconnects a port whose method failed. An operation reads the
    clock once. Diagnostics, the optional dump and composed views are left out. *)

From S2P Require Import Prelude.
From S2P Require Import Effects.
From S2P Require Import OrdMap.
From S2P Require Import Ids.
From S2P Require Import Surface.
From S2P Require Import Input.
From S2P Require Import Bitrate.
From S2P Require Import Activity.
From S2P Require Import Allocation.
From S2P Require Import Budget.
From S2P Require Import Scheduling.
From S2P Require Import Pacing.
From S2P Require Import Output.
From S2P Require Import Framing.
From S2P Require Import Commit.
From S2P Require Import PendingEvents.
From S2P Require Import Packets.

Abbreviation Event := (ClientSurfaceEvent ClientBufferLease) (only parsing).

(** ** The encoder ([codec.rs]) *)
Record EncodeRequest (In : Type) := MkEncodeRequest {
  token : Z;
  frame : MediaFrameId;
  timestamp_micros : Z;
  encode_input : In;
  bitrate_bits_per_second : option Z;
  frame_rate : option PresentationRate;
}.
Arguments MkEncodeRequest {In}. Arguments token {In}. Arguments frame {In}. Arguments timestamp_micros {In}.
Arguments encode_input {In}. Arguments bitrate_bits_per_second {In}. Arguments frame_rate {In}.
Record EncodeCompletion := MkEncodeCompletion { completion_token : Z; result : outcome EncodedAccessUnit }.
Inductive SubmitError := SubmitBusy | SubmitStopped | SubmitRejected (cause : error).
Class EncodeBackend (K In : Type) := {
  prepare_input : ClientBufferLease -> K -> outcome (In * option ClientBufferLease);
  try_submit : EncodeRequest In -> K -> K * option SubmitError;
  drain_completions : K -> K * list EncodeCompletion;
  retire : MediaStreamId -> StreamGeneration -> K -> K * outcome unit;
}.

Section Source.
Context {K In Cu Au : Type} {codec : EncodeBackend K In}.
Context {pending_visit : HashOrder ClientSurfaceId (PendingClientEvents HoistSessionId ClientBufferLease)}.

(** ** State *)
Abbreviation packet := (SourceTransportPacket (HoistSessionId * SourceMessage Cu Au) (MediaEnvelope EncodedAccessUnit)).
Record SourceStream := MkSourceStream {
  stream : MediaStreamId;
  generation : StreamGeneration;
  visible_extent : Extent;
  next_sequence : option Z;
  frozen_rate : option BitrateRequest;
  frozen_frame_rate : option PresentationRate;
}.
Context {stream_visit : HashOrder (ClientSurfaceId * SurfaceLayerId) SourceStream}.
Record PreparedEncode := MkPreparedEncode {
  request : EncodeRequest In;
  retained_input_lease : option ClientBufferLease;
  prepared_rate : option BitrateRequest;
}.
Record ActiveEncode := MkActiveEncode {
  active_token : Z;
  active_frame : MediaFrameId;
  active_input_lease : option ClientBufferLease;
  active_rate : option BitrateRequest;
}.
Record InFlightEncodeBatch := MkBatch {
  batch_session : HoistSessionId;
  batch_surface : ClientSurfaceId;
  batch_event : ClientSurfaceEvent EncodedBuffer;
  active : ActiveEncode;
  batch_pending : list PreparedEncode;
  completed : list EncodedAccessUnit;
  cancelled : bool;
}.
(** What the backend was asked to do, kept for the theorems. *)
Inductive call := Submitted (r : EncodeRequest In) | Retired (stream : MediaStreamId) (generation : StreamGeneration).
Record EncodedSourceState := MkSource {
  budget : option Z;
  rates : option Z;
  pool : Coordinator;
  preferences_dirty : bool;
  admission_deferred : bool;
  activity : Activity;
  scheduler : Scheduler;
  policy : SchedulingPolicy;
  pacing : SourcePacing;
  backend : K;
  calls : list call;
  output : list packet;
  transport_blocked : bool;
  pending : gmap ClientSurfaceId (PendingClientEvents HoistSessionId ClientBufferLease);
  pending_order : list ClientSurfaceId;
  resizing : gset ClientSurfaceId;
  streams : gmap (ClientSurfaceId * SurfaceLayerId) SourceStream;
  in_flight : option InFlightEncodeBatch;
  next_stream : option Z;
  next_token : option Z;
  started_at : instant;
  last_timestamp_micros : Z;
}.
Definition set_pool (x : Coordinator) (s : EncodedSourceState) : EncodedSourceState :=
  MkSource (budget s) (rates s) x (preferences_dirty s) (admission_deferred s) (activity s) (scheduler s)
    (policy s) (pacing s) (backend s) (calls s) (output s) (transport_blocked s) (pending s) (pending_order s)
    (resizing s) (streams s) (in_flight s) (next_stream s) (next_token s) (started_at s)
    (last_timestamp_micros s).
Definition set_preferences_dirty (x : bool) (s : EncodedSourceState) : EncodedSourceState :=
  MkSource (budget s) (rates s) (pool s) x (admission_deferred s) (activity s) (scheduler s) (policy s)
    (pacing s) (backend s) (calls s) (output s) (transport_blocked s) (pending s) (pending_order s) (resizing s)
    (streams s) (in_flight s) (next_stream s) (next_token s) (started_at s) (last_timestamp_micros s).
Definition set_admission_deferred (x : bool) (s : EncodedSourceState) : EncodedSourceState :=
  MkSource (budget s) (rates s) (pool s) (preferences_dirty s) x (activity s) (scheduler s) (policy s)
    (pacing s) (backend s) (calls s) (output s) (transport_blocked s) (pending s) (pending_order s) (resizing s)
    (streams s) (in_flight s) (next_stream s) (next_token s) (started_at s) (last_timestamp_micros s).
Definition set_activity (x : Activity) (s : EncodedSourceState) : EncodedSourceState :=
  MkSource (budget s) (rates s) (pool s) (preferences_dirty s) (admission_deferred s) x (scheduler s) (policy s)
    (pacing s) (backend s) (calls s) (output s) (transport_blocked s) (pending s) (pending_order s) (resizing s)
    (streams s) (in_flight s) (next_stream s) (next_token s) (started_at s) (last_timestamp_micros s).
Definition set_scheduler (x : Scheduler) (s : EncodedSourceState) : EncodedSourceState :=
  MkSource (budget s) (rates s) (pool s) (preferences_dirty s) (admission_deferred s) (activity s) x (policy s)
    (pacing s) (backend s) (calls s) (output s) (transport_blocked s) (pending s) (pending_order s) (resizing s)
    (streams s) (in_flight s) (next_stream s) (next_token s) (started_at s) (last_timestamp_micros s).
Definition set_pacing (x : SourcePacing) (s : EncodedSourceState) : EncodedSourceState :=
  MkSource (budget s) (rates s) (pool s) (preferences_dirty s) (admission_deferred s) (activity s) (scheduler s)
    (policy s) x (backend s) (calls s) (output s) (transport_blocked s) (pending s) (pending_order s)
    (resizing s) (streams s) (in_flight s) (next_stream s) (next_token s) (started_at s)
    (last_timestamp_micros s).
Definition set_output (x : list packet) (s : EncodedSourceState) : EncodedSourceState :=
  MkSource (budget s) (rates s) (pool s) (preferences_dirty s) (admission_deferred s) (activity s) (scheduler s)
    (policy s) (pacing s) (backend s) (calls s) x (transport_blocked s) (pending s) (pending_order s)
    (resizing s) (streams s) (in_flight s) (next_stream s) (next_token s) (started_at s)
    (last_timestamp_micros s).
Definition set_transport_blocked (x : bool) (s : EncodedSourceState) : EncodedSourceState :=
  MkSource (budget s) (rates s) (pool s) (preferences_dirty s) (admission_deferred s) (activity s) (scheduler s)
    (policy s) (pacing s) (backend s) (calls s) (output s) x (pending s) (pending_order s) (resizing s)
    (streams s) (in_flight s) (next_stream s) (next_token s) (started_at s) (last_timestamp_micros s).
Definition set_pending (x : gmap ClientSurfaceId (PendingClientEvents HoistSessionId ClientBufferLease)) (s : EncodedSourceState) : EncodedSourceState :=
  MkSource (budget s) (rates s) (pool s) (preferences_dirty s) (admission_deferred s) (activity s) (scheduler s)
    (policy s) (pacing s) (backend s) (calls s) (output s) (transport_blocked s) x (pending_order s)
    (resizing s) (streams s) (in_flight s) (next_stream s) (next_token s) (started_at s)
    (last_timestamp_micros s).
Definition set_pending_order (x : list ClientSurfaceId) (s : EncodedSourceState) : EncodedSourceState :=
  MkSource (budget s) (rates s) (pool s) (preferences_dirty s) (admission_deferred s) (activity s) (scheduler s)
    (policy s) (pacing s) (backend s) (calls s) (output s) (transport_blocked s) (pending s) x (resizing s)
    (streams s) (in_flight s) (next_stream s) (next_token s) (started_at s) (last_timestamp_micros s).
Definition set_resizing (x : gset ClientSurfaceId) (s : EncodedSourceState) : EncodedSourceState :=
  MkSource (budget s) (rates s) (pool s) (preferences_dirty s) (admission_deferred s) (activity s) (scheduler s)
    (policy s) (pacing s) (backend s) (calls s) (output s) (transport_blocked s) (pending s) (pending_order s) x
    (streams s) (in_flight s) (next_stream s) (next_token s) (started_at s) (last_timestamp_micros s).
Definition set_streams (x : gmap (ClientSurfaceId * SurfaceLayerId) SourceStream) (s : EncodedSourceState) : EncodedSourceState :=
  MkSource (budget s) (rates s) (pool s) (preferences_dirty s) (admission_deferred s) (activity s) (scheduler s)
    (policy s) (pacing s) (backend s) (calls s) (output s) (transport_blocked s) (pending s) (pending_order s)
    (resizing s) x (in_flight s) (next_stream s) (next_token s) (started_at s) (last_timestamp_micros s).
Definition set_in_flight (x : option InFlightEncodeBatch) (s : EncodedSourceState) : EncodedSourceState :=
  MkSource (budget s) (rates s) (pool s) (preferences_dirty s) (admission_deferred s) (activity s) (scheduler s)
    (policy s) (pacing s) (backend s) (calls s) (output s) (transport_blocked s) (pending s) (pending_order s)
    (resizing s) (streams s) x (next_stream s) (next_token s) (started_at s) (last_timestamp_micros s).
Definition set_next_stream (x : option Z) (s : EncodedSourceState) : EncodedSourceState :=
  MkSource (budget s) (rates s) (pool s) (preferences_dirty s) (admission_deferred s) (activity s) (scheduler s)
    (policy s) (pacing s) (backend s) (calls s) (output s) (transport_blocked s) (pending s) (pending_order s)
    (resizing s) (streams s) (in_flight s) x (next_token s) (started_at s) (last_timestamp_micros s).
Definition set_next_token (x : option Z) (s : EncodedSourceState) : EncodedSourceState :=
  MkSource (budget s) (rates s) (pool s) (preferences_dirty s) (admission_deferred s) (activity s) (scheduler s)
    (policy s) (pacing s) (backend s) (calls s) (output s) (transport_blocked s) (pending s) (pending_order s)
    (resizing s) (streams s) (in_flight s) (next_stream s) x (started_at s) (last_timestamp_micros s).
Definition set_last_timestamp_micros (x : Z) (s : EncodedSourceState) : EncodedSourceState :=
  MkSource (budget s) (rates s) (pool s) (preferences_dirty s) (admission_deferred s) (activity s) (scheduler s)
    (policy s) (pacing s) (backend s) (calls s) (output s) (transport_blocked s) (pending s) (pending_order s)
    (resizing s) (streams s) (in_flight s) (next_stream s) (next_token s) (started_at s) x.
(** A call of the backend, remembered. *)
Definition called (x : K) (c : call) (s : EncodedSourceState) : EncodedSourceState :=
  MkSource (budget s) (rates s) (pool s) (preferences_dirty s) (admission_deferred s) (activity s) (scheduler s)
    (policy s) (pacing s) x (calls s ++ [c]) (output s) (transport_blocked s) (pending s) (pending_order s)
    (resizing s) (streams s) (in_flight s) (next_stream s) (next_token s) (started_at s)
    (last_timestamp_micros s).
Definition set_backend (x : K) (s : EncodedSourceState) : EncodedSourceState :=
  MkSource (budget s) (rates s) (pool s) (preferences_dirty s) (admission_deferred s) (activity s) (scheduler s)
    (policy s) (pacing s) x (calls s) (output s) (transport_blocked s) (pending s) (pending_order s)
    (resizing s) (streams s) (in_flight s) (next_stream s) (next_token s) (started_at s)
    (last_timestamp_micros s).

(** [EncodedSourceState::new], over a world of rate registries in which the backend's, if
    it takes bitrates, has the handle [rates']. *)
Definition EncodedSourceState_new (rates' : option Z) (c : Coordinator) (limit fallback : option PresentationRate)
    (k : K) (now : instant) : EncodedSourceState :=
  MkSource None rates' c false false Activity_default Scheduler_default SchedulingPolicy_default
    (Pacing.new limit fallback) k [] [] false ∅ [] ∅ ∅ None (Some 1) (Some 1) now 0.

(** ** The state's parts as computations *)
Abbreviation M := (Effects.M EncodedSourceState).
(** A method of the rate registry, if the backend takes bitrates. *)
Definition with_rates {A} (f : Registry -> Registry * A) : M (option A) := fun s =>
  match rates s ≫= fun h => pair h <$> registries (pool s) !! h with
  | Some (h, r) =>
      let '(r, a) := f r in (set_pool (set_registries (<[h := r]> (registries (pool s))) (pool s)) s, Ret (Some a))
  | None => (s, Ret None)
  end.
(** A method of the budget membership, if there is one. *)
Definition with_budget (f : Z -> Coordinator -> Coordinator * outcome unit) : M unit := fun s =>
  match budget s with
  | Some id => let '(c, r) := f id (pool s) in (set_pool c s, r)
  | None => (s, Ret tt)
  end.
(** ** What events say *)
Definition replaced_buffer_count (e : Event) : nat := length (replaced_buffers e).
Definition needs_pacing (e : Event) : bool :=
  match event_kind e with Commit c => mapped c && bool_decide (0 < replaced_buffer_count e)%nat | _ => false end.

(** ** Streams and the budget *)
(** [retire_generation]: an active job of a cancelled batch retires its own. *)
Definition defers_retirement (st : MediaStreamId) (g : StreamGeneration) (s : EncodedSourceState) : bool :=
  is_some_and (in_flight s) (fun b => cancelled b && bool_decide (generation_of (active_frame (active b)) = (st, g))).
Definition retire_generation (st : MediaStreamId) (g : StreamGeneration) : M unit := fun s =>
  if defers_retirement st g s then (s, Ret tt)
  else let '(k, r) := retire st g (backend s) in (called k (Retired st g) s, r).
Definition retire_streams (l : list SourceStream) : M unit :=
  for_each (fun x => let! _ := with_rates (fun r => (Bitrate.remove r (stream x), tt)) in
                     retire_generation (stream x) (generation x)) l.
(** [extract_if]: the streams that go, in the map's order. *)
Definition extract_streams (gone : ClientSurfaceId * SurfaceLayerId -> bool) : M (list SourceStream) := fun s =>
  (set_streams (filter (fun p => gone p.1 = false) (streams s)) s,
   Ret (snd <$> filter (fun p => gone p.1 = true) (visit (streams s)))).
(** [reconcile_streams] *)
Definition reconcile_streams (e : Event) : M unit :=
  match event_kind e with
  | Commit c =>
      let! retired := extract_streams (fun key => bool_decide (key.1 = surface e) && negb (names_layer c key.2)) in
      retire_streams retired
  | _ => done
  end.
(** [register_stream] *)
Definition register_stream (sf : ClientSurfaceId) (l : SurfaceLayerId) (m : ClientBufferMetadata) : M unit :=
  let! known := gets (fun s => bool_decide (is_Some (streams s !! (sf, l)))) in
  if known then done
  else
    let! id := take_counter next_stream set_next_stream "encoded stream" in
    let st := MkMediaStreamId id in
    let! frozen := with_rates (fun r => Bitrate.register r st sf l) in
    let! managed := gets (fun s => bool_decide (is_Some (budget s))) in
    let! _ := lift (ensure (negb managed || bool_decide (is_Some (mjoin frozen))) "managed encoder rate registry is unavailable") in
    modify (fun s => set_streams (<[(sf, l) := MkSourceStream st (MkStreamGeneration 1) (extent m) (Some 0) (mjoin frozen) None]>
                                    (streams s)) s).
(** The replacements of a commit, each with a nonzero extent. *)
Definition checked_replacements (e : Event) : outcome (list (SurfaceLayerId * ClientBufferMetadata)) :=
  traverse (fun x => let m := lease_metadata x.2 in
                     _ ← ensure ((0 <? width (extent m)) && (0 <? height (extent m))) "encoded extent is zero";
                     Ret (x.1.1, m)) (replaced_buffers e).
(** The extent a stream will have: the event's replacement of its layer, or its own. *)
Definition replacement_extent (e : option Event) (key : ClientSurfaceId * SurfaceLayerId) : option Extent :=
  match e with
  | Some e =>
      if bool_decide (surface e = key.1)
      then extent ∘ lease_metadata ∘ snd <$> head (filter (fun x => x.1.1 = key.2) (replaced_buffers e))
      else None
  | None => None
  end.
Definition stream_demand (a : Activity) (e : option Event) (p : (ClientSurfaceId * SurfaceLayerId) * SourceStream) :
    outcome StreamDemand :=
  let x := default (visible_extent p.2) (replacement_extent e p.1) in
  g ← opt_context (group a p.1.1) "budgeted stream has no owning hoist group";
  Ret (MkDemand (stream p.2) g (width x * height x) (bitrate_preference p.1.1 a)).
Definition demand_le (x y : StreamDemand) : Prop :=
  MediaStreamId_raw (demand_stream x) <= MediaStreamId_raw (demand_stream y).
#[local] Instance demand_le_dec x y : Decision (demand_le x y).
Proof. unfold demand_le. apply _. Defined.
(** [update_budget] and [refresh_budget_attention] *)
Definition refresh_budget_attention (now : instant) : M unit :=
  let! attention := gets (fun s => snapshot_attention (snapshot (policy s) (activity s))) in
  with_budget (fun id => update_attention id attention now).
Definition update_budget (e : option Event) (now : instant) : M unit :=
  let! _ := modify (set_preferences_dirty false) in
  let! managed := gets (fun s => bool_decide (is_Some (budget s))) in
  if (managed : bool) then
    let! demands := (fun s => lift (traverse (stream_demand (activity s) e) (visit (streams s))) s) : M (list StreamDemand) in
    let! _ := with_budget (fun id => update_inventory id (merge_sort demand_le demands)) in
    refresh_budget_attention now
  else done.
(** [prepare_streams] *)
Definition prepare_streams (e : Event) (now : instant) : M unit :=
  match event_kind e with
  | Commit c =>
      let! replacements := lift (checked_replacements e) in
      let! counts := gets (fun s =>
        (length (filter (fun x => streams s !! (surface e, x.1) = None) replacements) +
         length (filter (fun p => negb (bool_decide (p.1.1 = surface e)) || names_layer c p.1.2 = true) (visit (streams s))))%nat) in
      let! _ := with_budget (fun id => preflight id (Z.of_nat counts) now) in
      let! _ := reconcile_streams e in
      let! _ := for_each (fun x => register_stream (surface e) x.1 x.2) replacements in
      update_budget (Some e) now
  | _ => update_budget None now
  end.
(** [retire_surface_streams] *)
Definition retire_surface_streams (sf : ClientSurfaceId) (now : instant) : M unit :=
  let! retired := extract_streams (fun key => bool_decide (key.1 = sf)) in
  let! _ := retire_streams retired in
  update_budget None now.

(** ** Encoding *)
(** [next_timestamp] *)
Definition next_timestamp (now : instant) : M Z := fun s =>
  match checked_add (last_timestamp_micros s) 1 with
  | None => (s, Fail (ErrMsg "encoded timestamp space is exhausted"))
  | Some least =>
      let elapsed := since now (started_at s) / 1000 in
      if bool_decide (elapsed <= u64_max)
      then let t := Z.max elapsed least in (set_last_timestamp_micros t s, Ret t)
      else (s, Fail (ErrMsg "encoded timestamp exceeds u64"))
  end.
(** The stream's generation ends: a new extent, or after its first frame a new rate or
    cadence. *)
Definition rate_bits (r : option BitrateRequest) : option Z := bits_per_second <$> r.
Definition rotates (x : SourceStream) (size : Extent) (r : option BitrateRequest) (cadence : option PresentationRate) : bool :=
  negb (bool_decide (visible_extent x = size))
  || (negb (bool_decide (next_sequence x = Some 0))
      && (negb (bool_decide (rate_bits r = rate_bits (frozen_rate x))) || negb (bool_decide (cadence = frozen_frame_rate x)))).
Definition next_generation (x : SourceStream) (size : Extent) : outcome SourceStream :=
  g ← opt_context (checked_add (StreamGeneration_raw (generation x)) 1) "encoded stream generation exhausted";
  Ret (MkSourceStream (stream x) (MkStreamGeneration g) size (Some 0) (frozen_rate x) (frozen_frame_rate x)).
Definition freeze (r : option BitrateRequest) (cadence : option PresentationRate) (x : SourceStream) : SourceStream :=
  MkSourceStream (stream x) (generation x) (visible_extent x) (next_sequence x) r cadence.
Definition advance (n : Z) (x : SourceStream) : SourceStream :=
  MkSourceStream (stream x) (generation x) (visible_extent x) (checked_add n 1) (frozen_rate x) (frozen_frame_rate x).
(** The stream's next sequence. The stream keeps what was frozen even when none is left. *)
Definition take_sequence (key : ClientSurfaceId * SurfaceLayerId) (x : SourceStream) : M Z := fun s =>
  match next_sequence x with
  | Some n => (set_streams (<[key := advance n x]> (streams s)) s, Ret n)
  | None => (set_streams (<[key := x]> (streams s)) s, Fail (ErrMsg "encoded frame sequence space is exhausted"))
  end.
(** [allocate_frame] *)
Definition allocate_frame (sf : ClientSurfaceId) (l : SurfaceLayerId) (m : ClientBufferMetadata)
    (cadence : option PresentationRate) (now : instant) : M (MediaFrameId * option BitrateRequest) :=
  let size := extent m in
  let! _ := lift (ensure ((0 <? width size) && (0 <? height size)) "encoded extent is zero") in
  let! known := gets (fun s => streams s !! (sf, l)) in
  let! x := lift (opt_context known "encoded stream disappeared") in
  let! selected := with_rates (fun r => Bitrate.select r (stream x) now) in
  let! managed := gets (fun s => bool_decide (is_Some (budget s))) in
  let! _ := lift (ensure (negb managed || bool_decide (is_Some (mjoin selected))) "managed encoder rate registry is unavailable") in
  let r := match mjoin selected with Some r => Some r | None => frozen_rate x end in
  let rotating := rotates x size r cadence in
  let! y := lift (if rotating then next_generation x size else Ret x) in
  let! sequence := take_sequence (sf, l) (freeze r cadence y) in
  let! _ := (if rotating then retire_generation (stream x) (generation x) else done) in
  pure (MkMediaFrameId (stream y) (generation y) sequence, r).
(** [submit_prepared] *)
Definition submit_error (e : SubmitError) : error :=
  match e with
  | SubmitBusy => ErrMsg "encoder queue was busy without an in-flight source frame"
  | SubmitStopped => ErrMsg "encoder worker stopped"
  | SubmitRejected cause => cause
  end.
Definition with_application (p : option BitrateRequest) (f : MediaFrameId)
    (g : Registry -> EncoderRateApplication -> Registry) : M unit :=
  match p with
  | Some r => let! _ := with_rates (fun reg => (g reg (MkApplication r f), tt)) in done
  | None => done
  end.
Definition submit_prepared (p : PreparedEncode) (now : instant) : M ActiveEncode :=
  let q := request p in
  let! _ := with_application (prepared_rate p) (frame q) (fun reg app => Bitrate.submitted reg app now) in
  let! refused := (fun s => let '(k, r) := try_submit q (backend s) in (called k (Submitted q) s, Ret r)) : M (option SubmitError) in
  match refused with
  | None => pure (MkActiveEncode (token q) (frame q) (retained_input_lease p) (prepared_rate p))
  | Some e =>
      let! _ := with_application (prepared_rate p) (frame q) (fun reg app => Bitrate.finished reg app false) in
      lift (Fail (submit_error e))
  end.
(** One replaced buffer of [submit_batch]. *)
Definition prepare_encode (sf : ClientSurfaceId) (l : SurfaceLayerId) (lease : ClientBufferLease)
    (cadence : option PresentationRate) (now : instant) : M (EncodedBuffer * PreparedEncode) :=
  let! (f, r) := allocate_frame sf l (lease_metadata lease) cadence now in
  let! prepared := (fun s => (s, prepare_input lease (backend s))) : M (In * option ClientBufferLease) in
  let! tk := take_counter next_token set_next_token "encoded source token" in
  let! timestamp := next_timestamp now in
  pure (MkEncodedBuffer f,
        MkPreparedEncode (MkEncodeRequest tk f timestamp prepared.1 (bits_per_second <$> r) cadence) prepared.2 r).
Fixpoint prepare_updates (sf : ClientSurfaceId) (cadence : option PresentationRate) (now : instant)
    (us : list (SurfaceBufferUpdate ClientBufferLease)) : M (list (SurfaceBufferUpdate EncodedBuffer) * list PreparedEncode) :=
  match us with
  | [] => pure ([], [])
  | u :: us =>
      let! (c, p) := match change u with
                | Retained m => pure (Retained m, [])
                | Replaced m lease =>
                    let! (b, p) := prepare_encode sf (layer u) lease cadence now in pure (Replaced m b, [p])
                | Removed => pure (Removed, [])
                end in
      let! (cs, ps) := prepare_updates sf cadence now us in
      pure (MkSurfaceBufferUpdate (layer u) c :: cs, p ++ ps)
  end.
(** [encoded_surface_event] *)
Definition opaque_state {B} (c : ClientSurfaceState B) : ClientSurfaceState B :=
  MkClientSurfaceState (revision c) Discarded (mapped c) (root c) (window_geometry c) (overlays c) (inputs c) (buffers c).
(** [submit_batch] *)
Definition submit_batch (session : HoistSessionId) (sf : ClientSurfaceId) (c : ClientSurfaceState ClientBufferLease)
    (now : instant) : M unit :=
  let! cadence := gets (fun s => Pacing.rate (pacing s) sf) in
  let! (us, prepared) := prepare_updates sf cadence now (buffers c) in
  match prepared with
  | [] => lift (Fail (ErrMsg "encoded commit did not expose a replacement"))
  | first :: rest =>
      let! job := submit_prepared first now in
      modify (set_in_flight (Some (MkBatch session sf
        (MkClientSurfaceEvent sf (Commit (opaque_state (set_buffers us c)))) job rest [] false)))
  end.

(** ** Publication *)
Definition publish (session : HoistSessionId) (e : ClientSurfaceEvent EncodedBuffer) : M unit :=
  modify (fun s => set_output (output s ++ [Control (session, SurfaceMessage e)]) s).
(** [send_without_buffer] *)
Definition structural (e : Event) : outcome (ClientSurfaceEvent EncodedBuffer) :=
  e ← try_from_client (fun _ _ => Fail (ErrMsg "buffer replacement entered the structural encoded path")) e;
  Ret (MkClientSurfaceEvent (surface e)
         match event_kind e with Commit c => Commit (opaque_state c) | kind => kind end).
Definition send_without_buffer (session : HoistSessionId) (e : Event) : M unit :=
  let! e := lift (structural e) in publish session e.
(** [submit_or_send_at] *)
Definition submit_or_send_at (session : HoistSessionId) (e : Event) (now : instant) : M unit :=
  let! _ := lift (ensure (bool_decide (replaced_buffer_count e <= MAX_REPLACEMENTS_PER_COMMIT)%nat)
             "encoded commit replaces buffers, exceeding the layer batch limit") in
  let! _ := prepare_streams e now in
  match event_kind e with
  | Commit c =>
      if bool_decide (replaced_buffer_count e = 0%nat) then send_without_buffer session e
      else
        let! _ := submit_batch session (surface e) c now in
        modify (fun s => set_pacing (Pacing.admitted (surface e) now (pacing s)) s)
  | _ => send_without_buffer session e
  end.

(** ** Completions *)
Definition is_valid_packet (f : MediaFrameId) (r : outcome EncodedAccessUnit) : bool :=
  match r with
  | Ret u => bool_decide (unit_frame u = f)
             && (negb (frame_sequence (unit_frame u) =? 0) || bool_decide (unit_kind u = Keyframe))
  | _ => false
  end.
Definition take_in_flight : M InFlightEncodeBatch := fun s =>
  match in_flight s with
  | Some b => (set_in_flight None s, Ret b)
  | None => (s, Fail (ErrMsg "encoder completed without an in-flight source event"))
  end.
Definition with_active (b : InFlightEncodeBatch) (job : ActiveEncode) (rest : list PreparedEncode)
    (done : list EncodedAccessUnit) : InFlightEncodeBatch :=
  MkBatch (batch_session b) (batch_surface b) (batch_event b) job rest done (cancelled b).
(** One completion of [drain]. *)
Definition complete_one (now : instant) (c : EncodeCompletion) : M unit :=
  let! b := take_in_flight in
  let job := active b in
  let! _ := lift (ensure (completion_token c =? active_token job) "encoder completed an unexpected source event") in
  let valid := is_valid_packet (active_frame job) (result c) in
  let! _ := with_application (active_rate job) (active_frame job)
        (fun reg app => Bitrate.finished reg app (negb (cancelled b) && valid)) in
  if cancelled b then retire_generation (frame_stream (active_frame job)) (frame_generation (active_frame job))
  else
    let! u := lift (result c) in
    let! _ := lift (ensure (bool_decide (payload u <> []) && (Z.of_nat (length (payload u)) <=? MAX_ENCODED_ACCESS_UNIT_BYTES))
               "encoder returned an invalid access-unit length") in
    let! _ := lift (ensure valid "encoder returned an unexpected frame or a non-keyframe at generation start") in
    match batch_pending b with
    | next :: rest =>
        let! job := submit_prepared next now in
        modify (set_in_flight (Some (with_active b job rest (completed b ++ [u]))))
    | [] =>
        let! _ := lift (ensure (is_commit (batch_event b)) "encoded batch control event was not a commit") in
        let! _ := modify (fun s => set_output
               (output s ++ (Media ∘ MkMediaEnvelope (batch_session b) <$> completed b ++ [u])) s) in
        publish (batch_session b) (batch_event b)
    end.
(** [drain] *)
Definition drain (now : instant) : M unit :=
  let! completions := (fun s => let '(k, cs) := drain_completions (backend s) in (set_backend k s, Ret cs)) : M (list EncodeCompletion) in
  for_each (complete_one now) completions.
(** [take_output] *)
Definition take_output : M (list packet) := fun s => (set_output [] s, Ret (output s)).

(** ** The queues *)
Definition queue_of (s : EncodedSourceState) (sf : ClientSurfaceId) : PendingClientEvents HoistSessionId ClientBufferLease :=
  default [] (pending s !! sf).
Definition pending_events (s : EncodedSourceState) : nat := map_total length (pending s).
(** [queue_event] *)
Definition queue_event (session : HoistSessionId) (e : Event) : M unit := fun s =>
  let sf := surface e in
  let fresh := bool_decide (pending s !! sf = None) in
  let q := queue_of s sf in
  match try_push session e (length q + (MAX_PENDING_SOURCE_EVENTS - pending_events s)) q with
  | Some (q, _) =>
      (set_pending (<[sf := q]> (pending s))
         (if fresh then set_pending_order (pending_order s ++ [sf]) s else s), Ret tt)
  | None => (set_pending (<[sf := q]> (pending s)) s, Fail (ErrMsg "encoded source pending-event bound exceeded"))
  end.
Definition cancel_batch (b : InFlightEncodeBatch) : InFlightEncodeBatch :=
  MkBatch (batch_session b) (batch_surface b) (batch_event b) (active b) [] [] true.
(** [cancel_encode] and [cancel_surface] *)
Definition unqueue (sf : ClientSurfaceId) (s : EncodedSourceState) : EncodedSourceState :=
  set_pending (delete sf (pending s))
    (set_pending_order (filter (fun x => x <> sf) (pending_order s)) (set_resizing (resizing s ∖ {[sf]}) s)).
Definition mark_cancelled (sf : ClientSurfaceId) (s : EncodedSourceState) : EncodedSourceState :=
  match in_flight s with
  | Some b => if bool_decide (batch_surface b = sf) then set_in_flight (Some (cancel_batch b)) s else s
  | None => s
  end.
Definition cancel_encode (sf : ClientSurfaceId) (now : instant) : M unit :=
  let! _ := modify (fun s => mark_cancelled sf (unqueue sf s)) in retire_surface_streams sf now.
Definition cancel_surface (sf : ClientSurfaceId) (now : instant) : M unit :=
  let! _ := modify (fun s => set_pacing (Pacing.forget sf (pacing s))
                (set_activity (Activity.remove sf (activity s))
                  (set_scheduler (Scheduling.forget (activity s) sf (scheduler s)) s))) in
  cancel_encode sf now.
(** [set_resizing] *)
Definition mark_resizing (sf : ClientSurfaceId) (b : bool) : M unit :=
  modify (fun s => set_resizing (if b then {[sf]} ∪ resizing s else resizing s ∖ {[sf]}) s).
(** Something waits or is under way, so a commit has to wait too. *)
Definition admission_closed (s : EncodedSourceState) : bool :=
  admission_deferred s || bool_decide (is_Some (in_flight s)) || transport_blocked s || negb (bool_decide (output s = [])).
Definition surface_busy (sf : ClientSurfaceId) (s : EncodedSourceState) : bool :=
  bool_decide (is_Some (pending s !! sf)) || is_some_and (in_flight s) (fun b => bool_decide (batch_surface b = sf)).
(** [enqueue] *)
Definition note_event (session : HoistSessionId) (e : Event) (now : instant) : M unit :=
  let! _ := modify (fun s => set_activity (Activity.register session (surface e) (activity s)) s) in
  match event_kind e with
  | Role r =>
      let! _ := modify (fun s => set_activity (Activity.role (surface e) r (activity s)) s) in update_budget None now
  | Commit c => modify (fun s => set_activity (Activity.mapped (surface e) (mapped c) (activity s)) s)
  | _ => done
  end.
Definition send_control (r : HoistSessionId * Event) : M unit :=
  if is_commit r.2 then done else send_without_buffer r.1 r.2.
Definition is_full_unmap (e : Event) : bool :=
  match event_kind e with Commit c => negb (mapped c) && bool_decide (buffers c = []) | _ => false end.
Definition enqueue (session : HoistSessionId) (e : Event) (now : instant) : M unit :=
  let sf := surface e in
  let! _ := note_event session e now in
  if is_full_unmap e then
    let! waiting := gets (fun s => records (queue_of s sf)) in
    let! _ := modify (fun s => set_pending (delete sf (pending s)) s) in
    let! _ := cancel_encode sf now in
    let! _ := modify (fun s => set_pacing (Pacing.reset sf (pacing s)) s) in
    let! _ := for_each send_control waiting in
    send_without_buffer session e
  else
    let! busy := gets (surface_busy sf) in
    match event_kind e with
    | Commit _ =>
        let! wait := gets (fun s => bool_decide (sf ∈ resizing s) || admission_closed s
                              || negb (bool_decide (pending s = ∅))
                              || (needs_pacing e && negb (Pacing.ready (pacing s) sf now))) in
        if (wait : bool) then queue_event session e else submit_or_send_at session e now
    | Destroyed => let! _ := cancel_surface sf now in send_without_buffer session e
    | _ => if (busy : bool) then queue_event session e else send_without_buffer session e
    end.

(** ** Scheduling *)
Definition front (s : EncodedSourceState) (sf : ClientSurfaceId) : option (HoistSessionId * Event) :=
  pending s !! sf ≫= fun q => record <$> head q.
(** [has_unmap_barrier] *)
Definition has_unmap_barrier (s : EncodedSourceState) (sf : ClientSurfaceId) : bool :=
  existsb (fun r => is_unmap r.2) (records (queue_of s sf)).
Definition candidates (s : EncodedSourceState) : list ClientSurfaceId :=
  filter (fun sf => is_some_and (front s sf) (fun r => negb (bool_decide (sf ∈ resizing s)) || negb (is_commit r.2)) = true)
    (pending_order s).
Definition excluded (s : EncodedSourceState) (now : instant) : list ClientSurfaceId :=
  filter (fun sf => is_some_and (front s sf) (fun r =>
            needs_pacing r.2 && negb (Pacing.ready (pacing s) sf now) && negb (has_unmap_barrier s sf)) = true) (candidates s).
(** The selected surface's first event is taken; what waits behind it goes last. *)
Definition pop_surface (sf : ClientSurfaceId) (rest : PendingClientEvents HoistSessionId ClientBufferLease)
    (s : EncodedSourceState) : EncodedSourceState :=
  let order := filter (fun x => x <> sf) (pending_order s) in
  match rest with
  | [] => set_pending (delete sf (pending s)) (set_pending_order order s)
  | _ => set_pending (<[sf := rest]> (pending s)) (set_pending_order (order ++ [sf]) s)
  end.
Fixpoint schedule_loop (fuel : nat) (now : instant) (s : EncodedSourceState) : option (EncodedSourceState * outcome unit) :=
  match fuel with
  | O => None
  | S fuel =>
      let '(sched, chosen) := Scheduling.select (candidates s) (excluded s now) (activity s) (policy s) now (scheduler s) in
      let s := set_scheduler sched s in
      match chosen with
      | None => Some (s, Ret tt)
      | Some selection =>
          let sf := sel_surface selection in
          match pending s !! sf with
          | None => Some (s, Ret tt)
          | Some [] => schedule_loop fuel now (set_pending (delete sf (pending s)) s)
          | Some (p :: rest) =>
              match submit_or_send_at (record p).1 (record p).2 now (pop_surface sf rest s) with
              | (s, Ret _) =>
                  if bool_decide (is_Some (in_flight s))
                  then Some (set_scheduler (Scheduling.accepted selection now (scheduler s)) s, Ret tt)
                  else schedule_loop fuel now s
              | (s, r) => Some (s, r)
              end
          end
      end
  end.
(** [schedule_at]: every turn but the last takes an event or drops an empty queue. *)
Definition measure (m : gmap ClientSurfaceId (PendingClientEvents HoistSessionId ClientBufferLease)) : nat :=
  map_total (fun q => S (length q)) m.
Definition schedule_fuel (s : EncodedSourceState) : nat := S (measure (pending s)).
Definition schedule_at (now : instant) (s : EncodedSourceState) : option (EncodedSourceState * outcome unit) :=
  if admission_closed s then Some (s, Ret tt) else schedule_loop (schedule_fuel s) now s.
(** [next_deadline] *)
Definition next_deadline (s : EncodedSourceState) : option instant :=
  if admission_closed s then None
  else head (merge_sort Z.le (omap (fun p =>
         '(_, e) ← record <$> head p.2;
         if negb (needs_pacing e) || bool_decide (p.1 ∈ resizing s) || Pacing.paused (pacing s) p.1 then None
         else Pacing.deadline (pacing s) p.1) (map_to_list (pending s)))).

(** ** What computations leave alone *)
(** The encoder's and the queues' fields. *)
Record aside (s s' : EncodedSourceState) : Prop := {
  aside_streams : streams s' = streams s;
  aside_flight : in_flight s' = in_flight s;
  aside_output : output s' = output s;
  aside_stream : next_stream s' = next_stream s;
  aside_calls : calls s' = calls s;
}.
Record same_queues (s s' : EncodedSourceState) : Prop := {
  same_pending : pending s' = pending s;
  same_order : pending_order s' = pending_order s;
  same_resizing : resizing s' = resizing s;
}.
Definition apart (s s' : EncodedSourceState) : Prop := aside s s' /\ same_queues s s'.
#[export] Instance aside_po : PreOrder aside.
Proof. split; [by constructor|]. intros a b c [] []. constructor; congruence. Qed.
#[export] Instance same_queues_po : PreOrder same_queues.
Proof. split; [by constructor|]. intros a b c [] []. constructor; congruence. Qed.
#[export] Instance apart_po : PreOrder apart.
Proof. split; [by split|]. intros a b c [] []. split; by etransitivity. Qed.

Lemma with_rates_apart {A} (f : Registry -> Registry * A) : always apart (with_rates f).
Proof. intros s. unfold with_rates. destruct (_ ≫= _) as [[h r]|]; [|done]. destruct (f r). by repeat split. Qed.
Lemma with_budget_apart f : always apart (with_budget f).
Proof. intros s. unfold with_budget. destruct (budget s); [|done]. destruct (f _ _). by repeat split. Qed.
Lemma with_application_apart r f g : always apart (with_application r f g).
Proof. unfold with_application. case_match; [|by apply always_id]. apply always_bind; [apply _|apply with_rates_apart|intros; by apply always_id]. Qed.
Lemma refresh_apart now : always apart (refresh_budget_attention now).
Proof. apply always_bind; [apply _|by apply always_id|]. intros a. apply with_budget_apart. Qed.
Lemma update_budget_apart e now : always apart (update_budget e now).
Proof.
  apply always_bind; [apply _|intros s; by repeat split|]. intros _. apply always_bind; [apply _|by apply always_id|].
  intros []; [|by apply always_id]. apply always_bind; [apply _|by apply always_id|]. intros d.
  apply always_bind; [apply _|apply with_budget_apart|]. intros _. apply refresh_apart.
Qed.

(** The queues, the batch and the output change only where events are queued and taken,
    batches begin and end, and packets are published. *)
Record quiet (s s' : EncodedSourceState) : Prop := {
  quiet_queues : same_queues s s';
  quiet_flight : in_flight s' = in_flight s;
  quiet_output : output s' = output s;
}.
#[export] Instance quiet_po : PreOrder quiet.
Proof. split; [by constructor|]. intros a b c [] []. constructor; [by etransitivity|congruence..]. Qed.
Lemma apart_quiet {A} (m : M A) : always apart m -> always quiet m.
Proof. intros H s. destruct (H s) as [[] ?]. by constructor. Qed.
Lemma retire_generation_quiet st g : always quiet (retire_generation st g).
Proof. intros s. unfold retire_generation. destruct (defers_retirement _ _ _); [done|]. destruct (retire _ _ _). by repeat split. Qed.
Lemma retire_streams_quiet l : always quiet (retire_streams l).
Proof.
  apply always_for_each; [apply _..|]. intros x. apply always_bind; [apply _|apply apart_quiet, with_rates_apart|].
  intros _. apply retire_generation_quiet.
Qed.
Lemma register_stream_quiet sf l m : always quiet (register_stream sf l m).
Proof.
  unfold register_stream. apply always_bind; [apply _|by apply always_id|]. intros []; [by apply always_id|].
  apply always_bind; [apply _|intros s; unfold take_counter; destruct (next_stream s); by repeat split|]. intros id.
  apply always_bind; [apply _|apply apart_quiet, with_rates_apart|]. intros fr.
  apply always_bind; [apply _|by apply always_id|]. intros mg. apply always_bind; [apply _|by apply always_id|].
  intros _ s. by repeat split.
Qed.
Lemma reconcile_quiet gone : always quiet (let! retired := extract_streams gone in retire_streams retired).
Proof. apply always_bind; [apply _|intros s; by repeat split|intros xs]. apply retire_streams_quiet. Qed.
Lemma prepare_streams_quiet e now : always quiet (prepare_streams e now).
Proof.
  unfold prepare_streams, reconcile_streams. destruct (event_kind e); try apply apart_quiet, update_budget_apart.
  apply always_bind; [apply _|by apply always_id|intros rs]. apply always_bind; [apply _|by apply always_id|intros n].
  apply always_bind; [apply _|apply apart_quiet, with_budget_apart|intros _].
  apply always_bind; [apply _|apply reconcile_quiet|intros _].
  apply always_bind; [apply _| |intros _; apply apart_quiet, update_budget_apart].
  apply always_for_each; [apply _..|]. intros x. apply register_stream_quiet.
Qed.
Lemma submit_prepared_quiet p now : always quiet (submit_prepared p now).
Proof.
  unfold submit_prepared. apply always_bind; [apply _|apply apart_quiet, with_application_apart|intros _].
  apply always_bind; [apply _|intros s; by destruct (try_submit _ _)|]. intros [e|]; [|by apply always_id].
  apply always_bind; [apply _|apply apart_quiet, with_application_apart|intros _; by apply always_id].
Qed.
Lemma allocate_frame_quiet sf l m c now : always quiet (allocate_frame sf l m c now).
Proof.
  unfold allocate_frame. repeat (apply always_bind; [apply _| |intros ?]); try by apply always_id.
  - apply apart_quiet, with_rates_apart.
  - intros s. unfold take_sequence. destruct (next_sequence _); by repeat split.
  - case_match; [apply retire_generation_quiet|by apply always_id].
Qed.
Lemma prepare_encode_quiet sf l b c now : always quiet (prepare_encode sf l b c now).
Proof.
  unfold prepare_encode. apply always_bind; [apply _|apply allocate_frame_quiet|intros [f r]].
  repeat (apply always_bind; [apply _| |intros ?]); try by apply always_id.
  - intros s. unfold take_counter. destruct (next_token s); by repeat split.
  - intros s. unfold next_timestamp. destruct (checked_add _ _); [|done]. case_bool_decide; by repeat split.
Qed.
Lemma prepare_updates_quiet sf c now us : always quiet (prepare_updates sf c now us).
Proof.
  induction us as [|u us IH]; [by apply always_id|]. cbn. apply always_bind; [apply _| |intros [x p]].
  - destruct (change u); try by apply always_id. apply always_bind; [apply _|apply prepare_encode_quiet|].
    intros [b p]. by apply always_id.
  - apply always_bind; [apply _|exact IH|]. intros [xs ps]. by apply always_id.
Qed.
Lemma quiet_same {A} (m : M A) : always quiet m -> always same_queues m.
Proof. intros H s. apply H. Qed.
Lemma publish_queues ss e : always same_queues (publish ss e).
Proof. intros s. by repeat split. Qed.
Lemma send_without_buffer_queues ss e : always same_queues (send_without_buffer ss e).
Proof. apply always_bind; [apply _|by apply always_id|]. intros x. apply publish_queues. Qed.
Lemma submit_or_send_queues ss e now : always same_queues (submit_or_send_at ss e now).
Proof.
  unfold submit_or_send_at, submit_batch. apply always_bind; [apply _|by apply always_id|intros _].
  apply always_bind; [apply _|apply quiet_same, prepare_streams_quiet|intros _].
  destruct (event_kind e); try apply send_without_buffer_queues. case_bool_decide; [apply send_without_buffer_queues|].
  apply always_bind; [apply _| |intros _ s; by repeat split]. apply always_bind; [apply _|by apply always_id|intros cadence].
  apply always_bind; [apply _|apply quiet_same, prepare_updates_quiet|]. intros [us [|first rest]]; [by apply always_id|].
  apply always_bind; [apply _|apply quiet_same, submit_prepared_quiet|]. intros job s. by repeat split.
Qed.

(** ** Scheduling ends *)
Lemma measure_pop s sf p rest :
  pending s !! sf = Some (p :: rest) -> (measure (pending (pop_surface sf rest s)) < measure (pending s))%nat.
Proof.
  intros H. unfold measure, pop_surface. destruct rest as [|q rest]; cbn [pending set_pending].
  - pose proof (map_total_delete (fun q => S (length q)) (pending s) sf) as Hd. rewrite H in Hd. cbn in Hd. lia.
  - pose proof (map_total_insert (fun q => S (length q)) (pending s) sf (q :: rest)) as Hi. rewrite H in Hi. cbn in Hi. lia.
Qed.
Lemma candidates_front s sf : sf ∈ candidates s -> exists r, front s sf = Some r.
Proof. intros [H _]%list_elem_of_filter. destruct (front s sf) as [r|]; [by exists r|done]. Qed.

(** Nothing that could be admitted is left: what waits is excluded or unknown. *)
Definition settled (now : instant) (s : EncodedSourceState) : Prop :=
  forall sf, sf ∈ candidates s -> sf ∈ excluded s now \/ group (activity s) sf = None.
Lemma schedule_loop_ends now fuel s :
  (measure (pending s) < fuel)%nat ->
  exists s' r, schedule_loop fuel now s = Some (s', r) /\ (r = Ret tt -> in_flight s' = None -> settled now s').
Proof.
  revert s. induction fuel as [|fuel IH]; intros s Hm; [lia|]. cbn [schedule_loop].
  pose proof (select_candidate (candidates s) (excluded s now) (activity s) (policy s) now (scheduler s)) as Hsel.
  destruct (Scheduling.select _ _ _ _ _ _) as [sched chosen]. cbn in Hsel. set (s1 := set_scheduler sched s).
  destruct chosen as [sel|].
  - destruct (candidates_front s (sel_surface sel) (proj1 Hsel)) as [r Hr]. unfold front in Hr. cbn [pending s1 set_scheduler].
    destruct (pending s !! sel_surface sel) as [[|p rest]|] eqn:Hp; [done| |done].
    pose proof (submit_or_send_queues (record p).1 (record p).2 now (pop_surface (sel_surface sel) rest s1)) as [Hq _ _].
    destruct (submit_or_send_at _ _ _ _) as [s2 [[]| |]]; cbn in Hq; [|by eexists _, _..].
    case_bool_decide as Hf; [|apply IH; rewrite Hq; pose proof (measure_pop s1 _ _ _ Hp : (_ < measure (pending s))%nat); lia].
    eexists _, _. split; [done|]. cbn. intros _ Hn. rewrite Hn in Hf. by destruct Hf.
  - eexists _, _. split; [done|]. intros _ _ sf Hsf. exact (Hsel sf Hsf).
Qed.
(** Scheduling always ends. When it succeeds with admission open and
    leaves the encoder idle, nothing was held back: every surface whose first event could
    be taken is waiting for its cadence, or belongs to no group. *)
Theorem schedule_settles (now : instant) (s : EncodedSourceState) :
  exists s' r, schedule_at now s = Some (s', r) /\
    (admission_closed s = false -> r = Ret tt -> in_flight s' = None -> settled now s').
Proof.
  unfold schedule_at. destruct (admission_closed s); [by eexists _, _|].
  destruct (schedule_loop_ends now (schedule_fuel s) s) as (s' & r & Hl & Hs); [unfold schedule_fuel; lia|].
  exists s', r. split; [done|]. by intros _.
Qed.

End Source.
Arguments EncodedSourceState K In Cu Au : clear implicits.
Arguments PreparedEncode In : clear implicits.
Arguments InFlightEncodeBatch In : clear implicits.
Arguments call In : clear implicits.
