(* ===== verification/SourceFrames.v ===== *)
(** * Frames of the encoded source

    [EncodedSourceState]'s batches keep what a decoder relies on. Frames of a generation
    are published from its first, a keyframe, without a gap; a commit follows exactly the
    frames it names; a generation is retired after its last job; a cancelled surface
    stays silent. *)

From S2P Require Import Prelude.
From S2P Require Import Effects.
From S2P Require Import OrdMap.
From S2P Require Import Ids.
From S2P Require Import Surface.
From S2P Require Import Input.
From S2P Require Import Bitrate.
From S2P Require Import Activity.
From S2P Require Import Allocation.
From S2P Require Import Budget.
From S2P Require Import Scheduling.
From S2P Require Import Pacing.
From S2P Require Import Output.
From S2P Require Import Framing.
From S2P Require Import Commit.
From S2P Require Import PendingEvents.
From S2P Require Import Packets.
From S2P Require Import SourceState.

Section Frames.
Context {K In Cu Au : Type} {codec : EncodeBackend K In}.
Context {pending_visit : HashOrder ClientSurfaceId (PendingClientEvents HoistSessionId ClientBufferLease)}.
Context {stream_visit : HashOrder (ClientSurfaceId * SurfaceLayerId) SourceStream}.
Abbreviation state := (EncodedSourceState K In Cu Au).
Abbreviation M := (M (EncodedSourceState K In Cu Au)).
Abbreviation PreparedEncode := (PreparedEncode In).
Abbreviation InFlightEncodeBatch := (InFlightEncodeBatch In).

(** ** Frames on their way *)
Definition above (o : option Z) : Z := default (u64_max + 1) o.
#[local] Arguments above : simpl never.
#[local] Arguments checked_add : simpl never.
Definition key_of (x : SourceStream) : MediaStreamId * StreamGeneration := (stream x, generation x).
Definition seqs (k : MediaStreamId * StreamGeneration) (l : list MediaFrameId) : list Z :=
  frame_sequence <$> filter (fun f => generation_of f = k) l.
Definition jobs (b : InFlightEncodeBatch) : list MediaFrameId :=
  if cancelled b then [] else (unit_frame <$> completed b) ++ active_frame (active b) :: (frame ∘ request <$> batch_pending b).
Definition flight (s : state) : list MediaFrameId :=
  match in_flight s with Some b => jobs b | None => [] end.
(** The stream's key is no longer, and will never be again, one of [m]. *)
Definition spent (st : MediaStreamId) (g : StreamGeneration) (s : state) : Prop :=
  MediaStreamId_raw st < above (next_stream s) /\
  forall key x, streams s !! key = Some x -> stream x = st -> StreamGeneration_raw g < StreamGeneration_raw (generation x).
Definition counter_ok (o : option Z) : Prop := forall n, o = Some n -> 0 <= n <= u64_max.

(** [pub] is what was published, [extra] what a batch under preparation has allocated. *)
Record Encoder_ok (pub extra : list MediaFrameId) (s : state) : Prop := {
  counters_ok : counter_ok (next_stream s) /\ forall key x, streams s !! key = Some x -> counter_ok (next_sequence x);
  live_line : forall key x, streams s !! key = Some x ->
    seqs (key_of x) (pub ++ flight s ++ extra) = seqZ 0 (above (next_sequence x));
  dead_line : forall k, (forall key x, streams s !! key = Some x -> key_of x <> k) -> exists n, seqs k pub = seqZ 0 n;
  job_live : forall b f, in_flight s = Some b -> f ∈ jobs b ->
    exists l x, streams s !! (batch_surface b, l) = Some x /\ key_of x = generation_of f;
  frames_known : forall f, f ∈ pub ++ flight s ++ extra -> MediaStreamId_raw (frame_stream f) < above (next_stream s) /\
    forall key x, streams s !! key = Some x -> stream x = frame_stream f ->
      StreamGeneration_raw (frame_generation f) <= StreamGeneration_raw (generation x);
  stream_known : forall key x, streams s !! key = Some x -> MediaStreamId_raw (stream x) < above (next_stream s);
  stream_unique : forall i j x y, streams s !! i = Some x -> streams s !! j = Some y -> stream x = stream y -> i = j;
  cancelled_spent : forall b, in_flight s = Some b -> cancelled b = true ->
    spent (frame_stream (active_frame (active b))) (frame_generation (active_frame (active b))) s;
  retired_spent : forall st g, Retired st g ∈ calls s -> spent st g s /\
    forall b, in_flight s = Some b -> generation_of (active_frame (active b)) <> (st, g);
  retired_last : forall a b st g r, calls s = a ++ Retired st g :: b -> Submitted r ∈ b -> generation_of (frame r) <> (st, g);
}.

Lemma aside_ok pub extra s s' : aside s s' -> Encoder_ok pub extra s -> Encoder_ok pub extra s'.
Proof.
  intros [A1 A2 A3 A4 A5] [H1 H2 H3 H4 H5 H6 H7 H8 H9 H10]. unfold flight, spent in *.
  constructor; unfold flight, spent; rewrite ?A1, ?A2, ?A4, ?A5; done.
Qed.

Lemma seqs_app k l l' : seqs k (l ++ l') = seqs k l ++ seqs k l'.
Proof. unfold seqs. by rewrite list.filter_app, fmap_app. Qed.
Lemma seqs_nil k l : (forall f, f ∈ l -> generation_of f <> k) -> seqs k l = [].
Proof.
  intros H. unfold seqs. destruct (filter (fun f => generation_of f = k) l) as [|f l'] eqn:Hl; [done|].
  assert (Hf : f ∈ filter (fun f => generation_of f = k) l) by (rewrite Hl; left).
  apply list_elem_of_filter in Hf as [Hf Hin]. by destruct (H f Hin).
Qed.
Lemma seqs_one k f : generation_of f = k -> seqs k [f] = [frame_sequence f].
Proof. intros H. unfold seqs. by rewrite list.filter_cons_True. Qed.
Lemma seqZ_prefix l l' n : l ++ l' = seqZ 0 n -> exists m, l = seqZ 0 m.
Proof.
  intros H. exists (Z.of_nat (length l)). apply list_eq. intros i. apply (f_equal (.!! i)) in H.
  destruct (decide (i < length l)%nat) as [Hi|Hi].
  - rewrite lookup_app_l in H by done. destruct (lookup_lt_is_Some_2 l i Hi) as [x Hx]. rewrite Hx in H |- *.
    symmetry in H. apply lookup_seqZ in H as [-> _]. symmetry. apply lookup_seqZ. lia.
  - rewrite lookup_ge_None_2 by lia. symmetry. apply lookup_seqZ_ge. lia.
Qed.

(** Any generation's published frames are its first ones. *)
Lemma published_prefix pub extra s k : Encoder_ok pub extra s -> exists n, seqs k pub = seqZ 0 n.
Proof.
  intros H. destruct (decide (map_Exists (fun _ x => key_of x = k) (streams s))) as [(key & x & Hx & <-)|Hno].
  - pose proof (live_line _ _ _ H key x Hx) as Hl. rewrite seqs_app in Hl. by eapply seqZ_prefix.
  - apply (dead_line _ _ _ H). intros key x Hx Hk. apply Hno. by exists key, x.
Qed.

Lemma snoc_split {A} (l a b : list A) x y :
  l ++ [y] = a ++ x :: b -> (exists b', b = b' ++ [y] /\ l = a ++ x :: b') \/ (b = [] /\ x = y /\ l = a).
Proof.
  destruct b as [|z b _] using rev_ind.
  - intros [-> [= ->]]%app_inj_2; [by right|done].
  - rewrite app_comm_cons, app_assoc. intros [-> [= ->]]%app_inj_2; [|done]. left. by exists b.
Qed.

(** ** Streams *)
Lemma spent_not_live st g s key x : spent st g s -> streams s !! key = Some x -> key_of x <> (st, g).
Proof. intros [_ H] Hx [= Hst Hg]. specialize (H key x Hx Hst). rewrite Hg in H. lia. Qed.
(** A generation that is spent, and not that of an active job, may be retired. *)
Lemma generation_retire_ok pub extra st g :
  triple (fun s => Encoder_ok pub extra s /\ spent st g s /\
            forall b, in_flight s = Some b -> cancelled b = false -> generation_of (active_frame (active b)) <> (st, g))
    (retire_generation st g) (fun _ => Encoder_ok pub extra).
Proof.
  intros s s' [] (H & Hs & Hb). unfold retire_generation. destruct (defers_retirement st g s) eqn:Hd; [by intros [= <-]|].
  destruct (retire st g (backend s)) as [k r]. intros [= <- _].
  destruct H as [H1 H2 H3 H4 H5 H6 H7 H8 H9 H10]. constructor; try done; cbn.
  - intros st' g' [Hin|[= -> ->]%list_elem_of_singleton]%elem_of_app; [by apply H9|]. split; [done|]. intros b Hfl.
    destruct (cancelled b) eqn:Hc; [|by apply Hb]. intros Hk. unfold defers_retirement in Hd. rewrite Hfl in Hd. cbn in Hd.
    rewrite Hc, bool_decide_true in Hd by done. done.
  - intros a b st' g' q Hc Hq. destruct (snoc_split _ _ _ _ _ Hc) as [(b' & -> & Hc')|(-> & _)]; [|by apply not_elem_of_nil in Hq].
    apply elem_of_app in Hq as [Hq|Hq]; [by eapply H10|by apply list_elem_of_singleton in Hq].
Qed.
Lemma job_spot pub extra s b f key x :
  Encoder_ok pub extra s -> in_flight s = Some b -> f ∈ jobs b -> streams s !! key = Some x -> key_of x = generation_of f ->
  key.1 = batch_surface b.
Proof.
  intros H Hb Hf Hx Hk. destruct (job_live _ _ _ H b f Hb Hf) as (l & y & Hy & Hky).
  rewrite (stream_unique _ _ _ H key (batch_surface b, l) x y Hx Hy); [done|]. unfold key_of, generation_of in *. congruence.
Qed.
(** Streams go. A batch is of a surface that keeps its streams, or is cancelled with all
    of them. *)
Definition batch_follows (gone : ClientSurfaceId * SurfaceLayerId -> bool) (o o' : option InFlightEncodeBatch) : Prop :=
  match o with
  | None => o' = None
  | Some b => o' = Some b /\ (forall l, gone (batch_surface b, l) = false) \/
              o' = Some (cancel_batch b) /\ (forall l, gone (batch_surface b, l) = true)
  end.
Record streams_dropped (gone : ClientSurfaceId * SurfaceLayerId -> bool) (s s' : state) : Prop := {
  dropped_streams : streams s' = filter (fun p => gone p.1 = false) (streams s);
  dropped_stream : next_stream s' = next_stream s;
  dropped_calls : calls s' = calls s;
  dropped_batch : batch_follows gone (in_flight s) (in_flight s');
}.
Lemma dropped_live gone s s' key x : streams_dropped gone s s' ->
  streams s' !! key = Some x <-> streams s !! key = Some x /\ gone key = false.
Proof. intros D. rewrite (dropped_streams _ _ _ D). apply map_lookup_filter_Some. Qed.
Lemma dropped_flight gone s s' : streams_dropped gone s s' ->
  flight s' = flight s \/ flight s' = [] /\ exists b, in_flight s = Some b /\ forall l, gone (batch_surface b, l) = true.
Proof.
  intros D. pose proof (dropped_batch _ _ _ D) as Hb. unfold flight. destruct (in_flight s) as [b|]; cbn in Hb; [|rewrite Hb; by left].
  destruct Hb as [[-> _]|[-> Hg]]; [by left|right]. split; [done|]. by exists b.
Qed.
Lemma dropped_origin gone s s' b : streams_dropped gone s s' -> in_flight s' = Some b ->
  exists b0, in_flight s = Some b0 /\ active b0 = active b /\
    (b0 = b /\ (forall l, gone (batch_surface b, l) = false) \/ b = cancel_batch b0 /\ forall l, gone (batch_surface b0, l) = true).
Proof.
  intros D Hb'. pose proof (dropped_batch _ _ _ D) as Hb. destruct (in_flight s) as [b0|]; cbn in Hb; [|congruence]. exists b0.
  destruct Hb as [[Hb0 Hg]|[Hb0 Hg]]; rewrite Hb' in Hb0; injection Hb0 as ->; split_and!; auto.
Qed.
Lemma dropped_spent gone s s' st g : streams_dropped gone s s' -> spent st g s -> spent st g s'.
Proof.
  intros D [S1 S2]. split; [by rewrite (dropped_stream _ _ _ D)|]. intros key x [Hx _]%(dropped_live _ _ _ _ _ D). by apply (S2 key).
Qed.
Lemma dropped_gone pub gone s s' key x : Encoder_ok pub [] s -> streams_dropped gone s s' ->
  streams s !! key = Some x -> gone key = true -> spent (stream x) (generation x) s'.
Proof.
  intros H D Hx Hg. split; [rewrite (dropped_stream _ _ _ D); exact (stream_known _ _ _ H key x Hx)|].
  intros j y [Hy Hgy]%(dropped_live _ _ _ _ _ D) Hxy. rewrite (stream_unique _ _ _ H j key y x Hy Hx Hxy) in Hgy. congruence.
Qed.
(** What retiring a stream needs, and leaves for the next one. *)
Definition retirable (x : SourceStream) (s : state) : Prop :=
  spent (stream x) (generation x) s /\
  forall b, in_flight s = Some b -> cancelled b = false -> generation_of (active_frame (active b)) <> key_of x.
Lemma dropped_retirable pub gone s s' key x : Encoder_ok pub [] s -> streams_dropped gone s s' ->
  streams s !! key = Some x -> gone key = true -> retirable x s'.
Proof.
  intros H D Hx Hg. split; [by eapply dropped_gone|]. intros b Hb' Hcb Hk.
  destruct (dropped_origin _ _ _ _ D Hb') as (b0 & Hb0 & _ & [[-> Hg']|[-> _]]); [|done].
  assert (Hj : active_frame (active b) ∈ jobs b) by (unfold jobs; rewrite Hcb; set_solver).
  pose proof (job_spot _ _ _ b _ key x H Hb0 Hj Hx (eq_sym Hk)) as Hkey. destruct key as [sf l]. cbn in Hkey. subst sf.
  by rewrite Hg' in Hg.
Qed.
Lemma dropped_line pub gone s s' key x : Encoder_ok pub [] s -> streams_dropped gone s s' -> streams s' !! key = Some x ->
  seqs (key_of x) (pub ++ flight s' ++ []) = seqZ 0 (above (next_sequence x)).
Proof.
  intros H D [Hx Hg]%(dropped_live _ _ _ _ _ D). pose proof (live_line _ _ _ H key x Hx) as Hl.
  destruct (dropped_flight _ _ _ D) as [->|(-> & b & Hfb & Hgb)]; [done|].
  rewrite !seqs_app in Hl |- *. rewrite (seqs_nil _ (flight s)) in Hl; [done|]. intros f Hf Hk.
  unfold flight in Hf. rewrite Hfb in Hf. pose proof (job_spot _ _ _ b f key x H Hfb Hf Hx (eq_sym Hk)) as Hkey.
  destruct key as [sf l]. cbn in Hkey. subst sf. rewrite Hgb in Hg. done.
Qed.
Lemma dropped_ok pub gone s s' : Encoder_ok pub [] s -> streams_dropped gone s s' -> Encoder_ok pub [] s'.
Proof.
  intros H D. pose proof H as [[H1 H1'] H2 H3 H4 H5 H6 H7 H8 H9 H10]. pose proof (fun key x => dropped_live _ _ _ key x D) as Hin.
  assert (Hsub : forall f, f ∈ pub ++ flight s' ++ [] -> f ∈ pub ++ flight s ++ []).
  { intros f. destruct (dropped_flight _ _ _ D) as [E|(E & _)]; rewrite E; [done|]. rewrite !app_nil_r.
    intros Hf. apply elem_of_app. by left. }
  constructor; rewrite ?(dropped_stream _ _ _ D), ?(dropped_calls _ _ _ D); [split; [done|]| | | | | | | | |done].
  - intros key x [Hx _]%Hin. by eapply H1'.
  - intros key x Hx. by eapply dropped_line.
  - intros k _. by eapply published_prefix.
  - intros b f Hb Hf. destruct (dropped_origin _ _ _ _ D Hb) as (b0 & Hb0 & _ & [[-> Hg]|[-> _]]); [|by apply not_elem_of_nil in Hf].
    destruct (H4 b f Hb0 Hf) as (l & x & Hx & Hk). exists l, x. split; [|done]. by apply Hin.
  - intros f Hf%Hsub. destruct (H5 f Hf) as [? Hg]. split; [done|]. intros key x [Hx _]%Hin. by eapply Hg.
  - intros key x [Hx _]%Hin. by eapply H6.
  - intros i j x y [Hx _]%Hin [Hy _]%Hin. by eapply H7.
  - intros b Hb Hcb. destruct (dropped_origin _ _ _ _ D Hb) as (b0 & Hb0 & <- & Hor).
    destruct (cancelled b0) eqn:Hc0; [by eapply dropped_spent, (H8 b0)|]. destruct Hor as [[-> _]|[-> Hg]]; [congruence|].
    destruct (H4 b0 (active_frame (active b0)) Hb0) as (l & x & Hx & Hk); [unfold jobs; rewrite Hc0; set_solver|].
    unfold key_of, generation_of in Hk. injection Hk as <- <-. by eapply dropped_gone.
  - intros st g Hr. destruct (H9 st g Hr) as [Hs Ha]. split; [by eapply dropped_spent|].
    intros b Hb. destruct (dropped_origin _ _ _ _ D Hb) as (b0 & Hb0 & <- & _). by apply Ha.
Qed.
Lemma retirable_ext x s s' :
  streams s' = streams s -> next_stream s' = next_stream s -> in_flight s' = in_flight s -> retirable x s -> retirable x s'.
Proof. intros Hs Hn Hf. unfold retirable, spent. by rewrite Hs, Hn, Hf. Qed.
Lemma retire_generation_keeps st g (s : state) :
  let s' := (retire_generation st g s).1 in
  streams s' = streams s /\ next_stream s' = next_stream s /\ in_flight s' = in_flight s /\ output s' = output s.
Proof. unfold retire_generation. destruct (defers_retirement _ _ _); [done|]. by destruct (retire _ _ _). Qed.
Lemma retire_streams_ok pub extra l :
  triple (fun s => Encoder_ok pub extra s /\ forall x, x ∈ l -> retirable x s) (retire_streams l : M unit) (fun _ => Encoder_ok pub extra).
Proof.
  induction l as [|x l IH]; [intros s s' [] [H _] [= <-]; done|]. unfold retire_streams. cbn [for_each].
  eapply triple_bind; [eapply triple_bind|].
  - intros s s' a [H Hr] Hs. pose proof (with_rates_apart (fun r => (Bitrate.remove r (stream x), tt)) s) as [Ha _].
    rewrite Hs in Ha. cbn in Ha. refine (conj (aside_ok _ _ _ _ Ha H) _ : Encoder_ok pub extra s' /\ forall y, y ∈ x :: l -> retirable y s').
    intros y Hy. destruct Ha. by eapply retirable_ext, Hr.
  - intros _ s s' a [H Hr] Hs. refine (conj _ _ : Encoder_ok pub extra s' /\ forall y, y ∈ l -> retirable y s').
    + eapply (generation_retire_ok pub extra); [|by destruct a; exact Hs]. split; [done|]. apply Hr. left.
    + pose proof (retire_generation_keeps (stream x) (generation x) s) as (K1 & K2 & K3 & _). rewrite Hs in K1, K2, K3. cbn in *.
      intros y Hy. eapply retirable_ext; [done..|]. apply Hr. by right.
  - intros []. exact IH.
Qed.
Lemma extract_ok pub gone :
  triple (fun s => Encoder_ok pub [] s /\ batch_follows gone (in_flight s) (in_flight s)) (extract_streams gone)
    (fun l s => Encoder_ok pub [] s /\ forall x, x ∈ l -> retirable x s).
Proof.
  intros s s' l [H Hb] [= <- <-].
  assert (D : streams_dropped gone s (set_streams (filter (fun p => gone p.1 = false) (streams s)) s)) by done.
  split; [by eapply dropped_ok|]. intros x ([key y] & -> & Hy)%list_elem_of_fmap.
  apply list_elem_of_filter in Hy as [Hg Hy]. rewrite visit_perm in Hy. apply elem_of_map_to_list in Hy. by eapply dropped_retirable.
Qed.
Lemma extract_retire_ok pub gone :
  triple (fun s => Encoder_ok pub [] s /\ batch_follows gone (in_flight s) (in_flight s))
    (let! l := extract_streams gone in retire_streams l) (fun _ => Encoder_ok pub []).
Proof. eapply triple_bind; [apply extract_ok|]. intros l. apply retire_streams_ok. Qed.

Lemma counter_next v : counter_ok (Some v) -> counter_ok (checked_add v 1) /\ above (checked_add v 1) = v + 1.
Proof.
  intros H. destruct (H v eq_refl). unfold checked_add, checked, above. case_bool_decide as Hv; cbn; [split; [|done]|split; [done|lia]].
  intros n [= <-]. lia.
Qed.
(** The stream at [key] is put, new or in the place of an earlier state of it, and frames
    of it are allocated. *)
Definition successor (old : option SourceStream) (y : SourceStream) (s s' : state) : Prop :=
  match old with
  | Some x => stream y = stream x /\ StreamGeneration_raw (generation x) <= StreamGeneration_raw (generation y)
  | None => above (next_stream s) <= MediaStreamId_raw (stream y) < above (next_stream s')
  end.
Record stream_put (key : ClientSurfaceId * SurfaceLayerId) (y : SourceStream) (pub extra add : list MediaFrameId)
    (s s' : state) : Prop := {
  put_streams : streams s' = <[key := y]> (streams s);
  put_idle : in_flight s = None /\ in_flight s' = None;
  put_calls : calls s' = calls s;
  put_counter : counter_ok (next_stream s') /\ above (next_stream s) <= above (next_stream s');
  put_successor : successor (streams s !! key) y s s';
  put_line : seqs (key_of y) (pub ++ extra ++ add) = seqZ 0 (above (next_sequence y));
  put_sequence : counter_ok (next_sequence y);
  put_added : forall f, f ∈ add -> generation_of f = key_of y;
}.
Lemma put_other key y pub extra add s s' j x :
  Encoder_ok pub extra s -> stream_put key y pub extra add s s' -> j <> key -> streams s !! j = Some x -> stream x <> stream y.
Proof.
  intros H P Hj Hx Hs. pose proof (put_successor _ _ _ _ _ _ _ P) as Hsu. destruct (streams s !! key) as [z|] eqn:Hz; cbn in Hsu.
  - apply Hj. eapply (stream_unique _ _ _ H); [done..|]. destruct Hsu. congruence.
  - pose proof (stream_known _ _ _ H j x Hx). rewrite Hs in *. lia.
Qed.
Lemma put_known key y pub extra add s s' : Encoder_ok pub extra s -> stream_put key y pub extra add s s' ->
  MediaStreamId_raw (stream y) < above (next_stream s').
Proof.
  intros H P. pose proof (put_successor _ _ _ _ _ _ _ P) as Hsu. pose proof (put_counter _ _ _ _ _ _ _ P) as [_ Hc].
  destruct (streams s !! key) as [z|] eqn:Hz; cbn in Hsu; [|lia]. pose proof (stream_known _ _ _ H key z Hz). destruct Hsu as [-> _]. lia.
Qed.
Lemma put_spent key y pub extra add s s' st g :
  Encoder_ok pub extra s -> stream_put key y pub extra add s s' -> spent st g s -> spent st g s'.
Proof.
  intros H P [S1 S2]. pose proof (put_counter _ _ _ _ _ _ _ P) as [_ Hc]. split; [lia|]. intros j x. rewrite (put_streams _ _ _ _ _ _ _ P).
  intros [[<- <-]|[Hj Hx]]%lookup_insert_Some Hs; [|by eapply S2].
  pose proof (put_successor _ _ _ _ _ _ _ P) as Hsu. destruct (streams s !! key) as [z|] eqn:Hz; cbn in Hsu.
  - destruct Hsu as [Hsz Hg]. specialize (S2 key z Hz). rewrite <- Hsz in S2. specialize (S2 Hs). lia.
  - rewrite Hs in Hsu. lia.
Qed.
Lemma put_frames key y pub extra add s s' f : Encoder_ok pub extra s -> stream_put key y pub extra add s s' ->
  f ∈ pub ++ extra ++ add -> MediaStreamId_raw (frame_stream f) < above (next_stream s') /\
    forall j x, streams s' !! j = Some x -> stream x = frame_stream f ->
      StreamGeneration_raw (frame_generation f) <= StreamGeneration_raw (generation x).
Proof.
  intros H P. rewrite app_assoc, elem_of_app. pose proof (put_counter _ _ _ _ _ _ _ P) as [_ Hc].
  pose proof (put_streams _ _ _ _ _ _ _ P) as Hst. destruct (put_idle _ _ _ _ _ _ _ P) as [Hid _]. intros [Hf|Hf].
  - destruct (frames_known _ _ _ H f) as [F1 F2].
    { unfold flight. rewrite Hid. done. }
    split; [lia|]. intros j x. rewrite Hst. intros [[<- <-]|[Hj Hx]]%lookup_insert_Some Hs; [|by eapply F2].
    pose proof (put_successor _ _ _ _ _ _ _ P) as Hsu. destruct (streams s !! key) as [z|] eqn:Hz; cbn in Hsu.
    + destruct Hsu as [Hsz Hg]. specialize (F2 key z Hz). rewrite <- Hsz in F2. specialize (F2 Hs). lia.
    + rewrite Hs in Hsu. lia.
  - pose proof (put_added _ _ _ _ _ _ _ P f Hf) as [= -> Hg]. split; [by eapply put_known|].
    intros j x. rewrite Hst. intros [[<- <-]|[Hj Hx]]%lookup_insert_Some Hs; [rewrite Hg; lia|].
    by destruct (put_other _ _ _ _ _ _ _ j x H P (not_eq_sym Hj) Hx).
Qed.
Lemma put_ok key y pub extra add s s' :
  Encoder_ok pub extra s -> stream_put key y pub extra add s s' -> Encoder_ok pub (extra ++ add) s'.
Proof.
  intros H P. pose proof (put_streams _ _ _ _ _ _ _ P) as Hst. destruct (put_idle _ _ _ _ _ _ _ P) as [Hid Hid'].
  assert (Hin : forall j x, streams s' !! j = Some x <-> j = key /\ x = y \/ j <> key /\ streams s !! j = Some x).
  { intros j x. rewrite Hst, lookup_insert_Some. naive_solver. }
  pose proof (fun j x => put_other _ _ _ _ _ _ _ j x H P) as Hoth. constructor; unfold flight; rewrite ?Hid'; try done.
  - split; [apply P|]. intros j x [[-> ->]|[_ Hx]]%Hin; [apply P|]. by eapply (counters_ok _ _ _ H).
  - intros j x [[-> ->]|[Hj Hx]]%Hin; [apply P|]. pose proof (live_line _ _ _ H j x Hx) as Hl. unfold flight in Hl. rewrite Hid in Hl.
    rewrite <- Hl, !seqs_app, (seqs_nil _ add), app_nil_r; [done|]. intros f Hf. rewrite (put_added _ _ _ _ _ _ _ P f Hf).
    intros [= Hs _]. by apply (Hoth j x).
  - intros k _. by eapply published_prefix.
  - intros f. by apply (put_frames _ _ _ _ _ _ _ f H P).
  - intros j x [[-> ->]|[_ Hx]]%Hin; [by eapply put_known|]. pose proof (stream_known _ _ _ H j x Hx).
    destruct (put_counter _ _ _ _ _ _ _ P). lia.
  - intros i j x z [[-> ->]|[Hi Hx]]%Hin [[-> ->]|[Hj Hz]]%Hin Hs; [done| | |].
    + by destruct (Hoth j z).
    + by destruct (Hoth i x).
    + by eapply (stream_unique _ _ _ H).
  - rewrite (put_calls _ _ _ _ _ _ _ P). intros st g Hr. split; [|done]. eapply put_spent; [done..|]. by apply (retired_spent _ _ _ H).
  - rewrite (put_calls _ _ _ _ _ _ _ P). apply H.
Qed.

(** ** Registration and preparation *)
(** No job is under way. *)
Definition idle_ok (pub extra : list MediaFrameId) (s : state) : Prop := Encoder_ok pub extra s /\ in_flight s = None.
Lemma aside_idle pub extra s s' : aside s s' -> idle_ok pub extra s -> idle_ok pub extra s'.
Proof. intros Ha [H Hi]. split; [by eapply aside_ok|]. destruct Ha. congruence. Qed.
Lemma apart_idle {A} (m : M A) pub extra : always apart m -> triple (idle_ok pub extra) m (fun _ => idle_ok pub extra).
Proof. intros Hm. apply (triple_always apart); [done|]. intros s s' [Ha _]. by apply aside_idle. Qed.

Lemma frameless pub extra s st g :
  idle_ok pub extra s -> above (next_stream s) <= MediaStreamId_raw st -> seqs (st, g) (pub ++ extra) = [].
Proof.
  intros [H Hi] Hst. apply seqs_nil. intros f Hf [= <- _]. destruct (frames_known _ _ _ H f) as [Hk _]; [|lia].
  unfold flight. by rewrite Hi.
Qed.
Lemma register_ok pub sf l m : triple (idle_ok pub []) (register_stream sf l m) (fun _ => idle_ok pub []).
Proof.
  intros s s' [] [H Hi] Hs. unfold register_stream in Hs. apply run_bind in Hs as (s0 & known & [-> ->]%run_gets & Hs).
  case_bool_decide as Hk; [injection Hs as <-; done|]. apply run_bind in Hs as (s1 & id & Ht & Hs). unfold take_counter in Ht.
  destruct (next_stream s) as [v|] eqn:Hn; [|done]. injection Ht as <- ->.
  apply run_bind in Hs as (s2 & fr & Hr & Hs). pose proof (run_always _ _ _ _ _ (with_rates_apart _) Hr) as [A _].
  apply run_bind in Hs as (s3 & mg & [-> ->]%run_gets & Hs). apply run_bind in Hs as (s4 & _ & [-> _]%run_lift & Hs). injection Hs as <-.
  destruct (counter_next id) as [Hc Ha]; [rewrite <- Hn; apply H|]. destruct A as [A1 A2 A3 A4 A5]. cbn in *.
  split; [|cbn; congruence]. eapply (put_ok _ _ pub [] [] s); [done|]. constructor; cbn; rewrite ?A1, ?A2, ?A4, ?A5; try done.
  - rewrite Ha, Hn. unfold above. cbn. split; [done|lia].
  - rewrite (proj2 (eq_None_not_Some _) Hk). cbn. rewrite A4, Ha, Hn. unfold above. cbn. lia.
  - etransitivity; [apply (frameless pub [] s); [done|]|done]. rewrite Hn. unfold above. cbn. lia.
  - intros n [= <-]. pose proof u64_max_pos. lia.
  - by intros f ?%not_elem_of_nil.
Qed.
Lemma prepare_streams_ok pub e now : triple (idle_ok pub []) (prepare_streams e now) (fun _ => idle_ok pub []).
Proof.
  unfold prepare_streams, reconcile_streams. destruct (event_kind e) as [|c| | | |]; try apply apart_idle, update_budget_apart.
  intros s s' [] H Hs. apply run_bind in Hs as (s0 & rs & [-> _]%run_lift & Hs). apply run_bind in Hs as (s0 & n & [-> _]%run_gets & Hs).
  apply run_bind in Hs as (s1 & [] & H1 & Hs). apply (apart_idle _ pub [] (with_budget_apart _) _ _ _ H) in H1.
  apply run_bind in Hs as (s2 & [] & H2 & Hs). assert (H2' : idle_ok pub [] s2).
  { destruct H1 as [H1 Hi1]. pose proof (run_always _ _ _ _ _ (reconcile_quiet _) H2) as [_ Hf _].
    split; [|congruence]. refine (extract_retire_ok pub _ _ _ _ _ H2). split; [done|]. rewrite Hi1. done. }
  apply run_bind in Hs as (s3 & [] & H3 & Hs). refine (apart_idle _ pub [] (update_budget_apart _ _) _ _ _ _ Hs).
  refine (triple_for_each (idle_ok pub []) _ rs _ _ _ _ H2' H3). intros x _. apply register_ok.
Qed.

(** ** Allocation *)
(** The frames allocated so far are of streams of these layers. *)
Definition layered (sf : ClientSurfaceId) (P : SurfaceLayerId -> Prop) (fs : list MediaFrameId) (s : state) : Prop :=
  forall f, f ∈ fs -> exists l x, P l /\ streams s !! (sf, l) = Some x /\ key_of x = generation_of f.
Lemma layered_ext sf P fs s s' : streams s' = streams s -> layered sf P fs s -> layered sf P fs s'.
Proof. intros H. unfold layered. by rewrite H. Qed.
Lemma seqZ_snoc n : 0 <= n -> seqZ 0 n ++ [n] = seqZ 0 (n + 1).
Proof. intros H. by rewrite seqZ_app by lia. Qed.
Lemma live_idle pub extra s key x : idle_ok pub extra s -> streams s !! key = Some x ->
  seqs (key_of x) (pub ++ extra) = seqZ 0 (above (next_sequence x)).
Proof. intros [H Hi] Hx. pose proof (live_line _ _ _ H key x Hx) as Hl. unfold flight in Hl. by rewrite Hi in Hl. Qed.
(** The frame's stream, its generation ended or not. *)
Definition begins (x y : SourceStream) (rotating : bool) : Prop :=
  if rotating then stream y = stream x /\ StreamGeneration_raw (generation y) = StreamGeneration_raw (generation x) + 1 /\
    next_sequence y = Some 0
  else stream y = stream x /\ generation y = generation x /\ next_sequence y = next_sequence x.
Lemma begins_line pub extra s key x y rot n : idle_ok pub extra s -> streams s !! key = Some x -> begins x y rot ->
  next_sequence y = Some n -> seqs (key_of y) (pub ++ extra) = seqZ 0 n /\ counter_ok (Some n).
Proof.
  intros H Hx Hb Hn. destruct rot; cbn in Hb.
  - destruct Hb as (Hs & Hg & Hn'). rewrite Hn' in Hn. injection Hn as <-. split.
    + cbn. apply seqs_nil. intros f Hf Hk. destruct H as [H Hi]. destruct (frames_known _ _ _ H f) as [_ F].
      { unfold flight. by rewrite Hi. }
      unfold generation_of, key_of in Hk. injection Hk as Hk1 Hk2. specialize (F key x Hx). rewrite Hk1, Hk2, Hg in F.
      specialize (F (eq_sym Hs)). lia.
    + intros m [= <-]. pose proof u64_max_pos. lia.
  - destruct Hb as (Hs & Hg & Hn'). unfold key_of. rewrite Hs, Hg. fold (key_of x). rewrite (live_idle _ _ _ _ _ H Hx), <- Hn', Hn.
    split; [done|]. rewrite <- Hn, Hn'. by eapply (counters_ok _ _ _ (proj1 H)).
Qed.
Lemma take_sequence_ok pub extra s key x y rot n s' :
  idle_ok pub extra s -> streams s !! key = Some x -> begins x y rot -> take_sequence key y s = (s', Ret n) ->
  stream_put key (advance n y) pub extra [MkMediaFrameId (stream y) (generation y) n] s s'.
Proof.
  intros H Hx Hb Ht. unfold take_sequence in Ht. destruct (next_sequence y) as [v|] eqn:Hv; [|done]. injection Ht as <- <-.
  destruct (begins_line _ _ _ _ _ _ _ _ H Hx Hb Hv) as [Hl Hc]. destruct (counter_next v Hc) as [Hc' Ha]. destruct H as [H Hi].
  constructor; cbn; try done.
  - split; [apply H|lia].
  - rewrite Hx. cbn. destruct rot; cbn in Hb; destruct Hb as (-> & -> & _); (split; [done|lia]).
  - rewrite app_assoc, seqs_app, (seqs_one (key_of (advance v y)) (MkMediaFrameId (stream y) (generation y) v) eq_refl), Ha. cbn.
    rewrite <- seqZ_snoc by (by apply Hc). f_equal. exact Hl.
  - by intros f ->%list_elem_of_singleton.
Qed.
Lemma next_generation_begins x size y : next_generation x size = Ret y -> begins x y true.
Proof.
  unfold next_generation. destruct (checked_add _ _) as [g|] eqn:Hg; [|done]. intros [= <-]. apply checked_Some in Hg as [-> _]. done.
Qed.
Lemma begins_freeze x y rot r c : begins x y rot -> begins x (freeze r c y) rot.
Proof. by destruct rot. Qed.
Lemma allocate_ok pub extra sf (P : SurfaceLayerId -> Prop) l m cadence now :
  ~ P l ->
  triple (fun s => idle_ok pub extra s /\ layered sf P extra s) (allocate_frame sf l m cadence now)
    (fun a s => idle_ok pub (extra ++ [a.1]) s /\ layered sf (fun k => P k \/ k = l) (extra ++ [a.1]) s).
Proof.
  intros Hl s s' a [H Hlay] Hs. unfold allocate_frame in Hs.
  apply run_bind in Hs as (s0 & u & [-> _]%run_lift & Hs). apply run_bind in Hs as (s0 & known & [-> ->]%run_gets & Hs).
  apply run_bind in Hs as (s0 & x & [-> Hx%opt_context_Ret_inv]%run_lift & Hs).
  apply run_bind in Hs as (s1 & sel & Hsel & Hs). pose proof (run_always _ _ _ _ _ (with_rates_apart _) Hsel) as [A _].
  apply run_bind in Hs as (s2 & mg & [-> ->]%run_gets & Hs). apply run_bind in Hs as (s2 & u2 & [-> _]%run_lift & Hs).
  apply (aside_idle _ _ _ _ A) in H. rewrite <- (aside_streams _ _ A) in Hx. eapply layered_ext in Hlay; [|apply A]. clear A Hsel.
  set (r := match mjoin sel with Some _ => _ | None => _ end) in Hs. set (rot := rotates _ _ _ _) in Hs.
  apply run_bind in Hs as (s2 & y & [-> Hy]%run_lift & Hs). apply run_bind in Hs as (s2 & n & Hn & Hs).
  assert (Hb : begins x (freeze r cadence y) rot).
  { apply begins_freeze. destruct rot; [by eapply next_generation_begins|]. injection Hy as <-. done. }
  pose proof (take_sequence_ok _ _ _ _ _ _ _ _ _ H Hx Hb Hn) as Q. cbn in Q. pose proof (put_ok _ _ _ _ _ _ _ (proj1 H) Q) as H2.
  pose proof (put_streams _ _ _ _ _ _ _ Q) as Hst. destruct (put_idle _ _ _ _ _ _ _ Q) as [_ Hi2].
  apply run_bind in Hs as (s3 & [] & Hr & Hs). injection Hs as <- <-. cbn [fst].
  assert (Hlay2 : layered sf (fun k => P k \/ k = l) (extra ++ [MkMediaFrameId (stream y) (generation y) n]) s2).
  { intros f [Hf| ->%list_elem_of_singleton]%elem_of_app.
    - destruct (Hlay f Hf) as (k & z & Hk & Hz & Hkz). exists k, z. split; [by left|]. split; [|done].
      rewrite Hst, lookup_insert_ne; [done|]. intros [= ->]. done.
    - exists l, (advance n (freeze r cadence y)). rewrite Hst, lookup_insert_eq. split_and!; [by right|done|done]. }
  destruct rot; [|injection Hr as <-; done].
  pose proof (retire_generation_keeps (stream x) (generation x) s2) as (K1 & _ & K3 & _). rewrite Hr in K1, K3. cbn in K1, K3.
  split; [split|by eapply layered_ext]; [|by rewrite K3]. refine (generation_retire_ok pub _ _ _ _ _ _ _ Hr). split; [done|].
  split; [|by rewrite Hi2]. cbn in Hb. destruct Hb as (Hs & Hg & _). split.
  - rewrite <- Hs. exact (put_known _ _ _ _ _ _ _ (proj1 H) Q).
  - intros j z. rewrite Hst. intros [[<- <-]|[Hj Hz]]%lookup_insert_Some Hsz; [cbn in *; lia|].
    rewrite <- Hs in Hsz. by destruct (put_other _ _ _ _ _ _ _ _ _ (proj1 H) Q (not_eq_sym Hj) Hz).
Qed.

Lemma token_apart : always apart (take_counter next_token set_next_token "encoded source token" : M Z).
Proof. intros s. unfold take_counter. destruct (next_token s); by repeat split. Qed.
Lemma timestamp_apart now : always apart (next_timestamp now : M Z).
Proof. intros s. unfold next_timestamp. destruct (checked_add _ _); [|done]. case_bool_decide; by repeat split. Qed.
Definition prepared_frame (p : PreparedEncode) : MediaFrameId := frame (request p).
(** A batch's frames are allocated at distinct layers. *)
Definition seated pub extra sf P (s : state) : Prop := idle_ok pub extra s /\ layered sf P extra s.
Lemma seated_apart {A} (m : M A) pub extra sf P s s' o :
  always apart m -> m s = (s', o) -> seated pub extra sf P s -> seated pub extra sf P s'.
Proof.
  intros Hm Hs [H Hl]. pose proof (run_always _ _ _ _ _ Hm Hs) as [Ha _]. split; [by eapply aside_idle|].
  eapply layered_ext; [apply Ha|done].
Qed.
Lemma seated_weaken pub extra sf (P Q : SurfaceLayerId -> Prop) (s : state) :
  (forall l, P l -> Q l) -> seated pub extra sf P s -> seated pub extra sf Q s.
Proof. intros HPQ [H Hl]. split; [done|]. intros f Hf. destruct (Hl f Hf) as (l & x & ? & ?). exists l, x. auto. Qed.
Lemma prepare_encode_ok pub extra sf (P : SurfaceLayerId -> Prop) l b cadence now : ~ P l ->
  triple (seated pub extra sf P) (prepare_encode sf l b cadence now) (fun a s =>
    seated pub (extra ++ [buffer_frame a.1]) sf (fun k => P k \/ k = l) s /\ prepared_frame a.2 = buffer_frame a.1).
Proof.
  intros Hl s s' a H Hs. unfold prepare_encode in Hs. apply run_bind in Hs as (s1 & [f r] & Ha & Hs).
  apply (allocate_ok _ _ _ _ _ _ _ _ Hl _ _ _ H) in Ha. apply run_bind in Hs as (s2 & p & [= <- _] & Hs).
  apply run_bind in Hs as (s3 & tk & H3 & Hs). apply (seated_apart _ _ _ _ _ _ _ _ token_apart H3) in Ha.
  apply run_bind in Hs as (s4 & ts & H4 & Hs). apply (seated_apart _ _ _ _ _ _ _ _ (timestamp_apart now) H4) in Ha.
  injection Hs as <- <-. done.
Qed.
Lemma prepare_updates_ok pub extra sf (P : SurfaceLayerId -> Prop) cadence now us :
  NoDup (layer <$> us) -> (forall l, P l -> l ∉ layer <$> us) ->
  triple (seated pub extra sf P) (prepare_updates sf cadence now us) (fun a s =>
    seated pub (extra ++ update_frames a.1) sf (fun _ => True) s /\ prepared_frame <$> a.2 = update_frames a.1).
Proof.
  revert extra P. induction us as [|u us IH]; intros extra P Hnd HP s s' a H Hs; cbn [prepare_updates] in Hs.
  { injection Hs as <- <-. cbn. rewrite app_nil_r. split; [|done]. by eapply seated_weaken. }
  rewrite fmap_cons, list.NoDup_cons in Hnd. destruct Hnd as [Hu Hnd]. apply run_bind in Hs as (s1 & [c p] & H1 & Hs).
  apply run_bind in Hs as (s2 & [cs ps] & H2 & Hs). injection Hs as <- <-. cbn [fst snd].
  assert (Hskip : forall c' (s : state), seated pub extra sf P s -> update_frames [MkSurfaceBufferUpdate (layer u) c'] = [] ->
    prepare_updates sf cadence now us s = (s2, Ret (cs, ps)) ->
    seated pub (extra ++ update_frames (MkSurfaceBufferUpdate (layer u) c' :: cs)) sf (fun _ => True) s2 /\
    prepared_frame <$> ps = update_frames (MkSurfaceBufferUpdate (layer u) c' :: cs)).
  { intros c' s3 H3 Hc' Hrun. unfold update_frames in *. cbn in *. destruct c'; try done; refine (IH _ P Hnd _ _ _ _ H3 Hrun); set_solver. }
  destruct (change u) as [m|m b|].
  - injection H1 as <- <- <-. by eapply Hskip.
  - apply run_bind in H1 as (s3 & [f q] & H3 & H1). injection H1 as <- <- <-.
    destruct (prepare_encode_ok _ _ _ P _ _ _ _ (fun Hl => HP _ Hl ltac:(left)) _ _ _ H H3) as [H4 Hf]. cbn in H4, Hf.
    destruct (IH _ (fun k => P k \/ k = layer u) Hnd ltac:(set_solver) _ _ _ H4 H2) as [H5 Hp]. cbn in *. rewrite <- app_assoc in H5. split; [done|].
    by rewrite Hf, Hp.
  - injection H1 as <- <- <-. by eapply Hskip.
Qed.

(** ** Jobs *)
(** A job of a live generation may be submitted. *)
Lemma submit_prepared_ok pub extra sf P p now : prepared_frame p ∈ extra ->
  triple (seated pub extra sf P) (submit_prepared p now) (fun a s => seated pub extra sf P s /\ active_frame a = prepared_frame p).
Proof.
  intros Hp s s' a H Hs. unfold submit_prepared in Hs. apply run_bind in Hs as (s1 & [] & H1 & Hs).
  apply (seated_apart _ _ _ _ _ _ _ _ (with_application_apart _ _ _) H1) in H.
  apply run_bind in Hs as (s2 & refused & H2 & Hs). destruct (try_submit (request p) (backend s1)) as [k r]. injection H2 as <- <-.
  destruct r as [e|]; [by apply run_bind in Hs as (s3 & [] & _ & Hs)|]. injection Hs as <- <-. split; [|done].
  destruct H as [[H Hi] Hl]. split; [split; [|done]|done]. destruct (Hl _ Hp) as (l & x & _ & Hx & Hk).
  destruct H as [H1' H2 H3 H4 H5 H6 H7 H8 H9 H10]. constructor; try done; cbn.
  - intros st g [Hr|Hr%list_elem_of_singleton]%elem_of_app; [|done]. by apply H9.
  - intros u v st g q Hc Hq. destruct (snoc_split _ _ _ _ _ Hc) as [(b' & -> & Hc')|(-> & _)]; [|by apply not_elem_of_nil in Hq].
    apply elem_of_app in Hq as [Hq|[= ->]%list_elem_of_singleton]; [by eapply H10|].
    destruct (H9 st g) as [Hsp _]; [rewrite Hc'; set_solver|].
    intros Hq. apply (spent_not_live _ _ _ _ _ Hsp Hx). by rewrite Hk.
Qed.
(** A batch begins with its frames allocated, and ends with them allocated. *)
Lemma put_batch pub b s : cancelled b = false -> seated pub (jobs b) (batch_surface b) (fun _ => True) s ->
  Encoder_ok pub [] (set_in_flight (Some b) s).
Proof.
  intros Hc [[H Hi] Hl]. destruct H as [H1 H2 H3 H4 H5 H6 H7 H8 H9 H10]. unfold flight in *. rewrite Hi in *.
  constructor; unfold flight; cbn; rewrite ?app_nil_r; try done.
  - intros b' f [= <-] Hf. destruct (Hl f Hf) as (l & x & _ & Hx). by exists l, x.
  - intros b' [= <-]. congruence.
  - intros st g Hr. destruct (H9 st g Hr) as [Hsp _]. split; [done|]. intros b' [= <-] Hk.
    destruct (Hl (active_frame (active b))) as (l & x & _ & Hx & Hkx); [unfold jobs; rewrite Hc; set_solver|].
    pose proof (spent_not_live _ _ _ _ _ Hsp Hx). congruence.
Qed.
Lemma take_batch pub b s : Encoder_ok pub [] s -> in_flight s = Some b ->
  seated pub (jobs b) (batch_surface b) (fun _ => True) (set_in_flight None s).
Proof.
  intros [H1 H2 H3 H4 H5 H6 H7 H8 H9 H10] Hb. unfold flight in *. rewrite Hb in *. split.
  - split; [|done]. constructor; unfold flight; cbn; try done.
    + intros key x Hx. specialize (H2 key x Hx). by rewrite app_nil_r in H2.
    + intros f Hf. apply H5. by rewrite app_nil_r.
    + intros st g Hr. by split; [apply H9|].
  - intros f Hf. destruct (H4 b f eq_refl Hf) as (l & x & Hx). by exists l, x.
Qed.
(** The frames of a finished batch are published. *)
Lemma publish_batch pub fs sf P s : seated pub fs sf P s -> Encoder_ok (pub ++ fs) [] s.
Proof.
  intros [[H Hi] Hl]. pose proof H as [H1 H2 H3 H4 H5 H6 H7 H8 H9 H10]. unfold flight in *. rewrite Hi in *. cbn in *.
  constructor; unfold flight; rewrite ?Hi; cbn; rewrite ?app_nil_r; try done.
  intros k Hk. rewrite seqs_app, (seqs_nil _ fs), app_nil_r; [by eapply published_prefix|]. intros f Hf Hfk.
  destruct (Hl f Hf) as (l & x & _ & Hx & Hkx). apply (Hk _ _ Hx). congruence.
Qed.

(** ** What is published *)
Abbreviation packet := (SourceTransportPacket (HoistSessionId * SourceMessage Cu Au) (MediaEnvelope EncodedAccessUnit)).
Definition media_frames (l : list packet) : list MediaFrameId :=
  omap (fun p => match p with Media m => Some (unit_frame (access_unit m)) | Control _ => None end) l.
(** An access unit a decoder accepts: not empty, in bounds, and a keyframe where its
    generation begins. *)
Definition sound (u : EncodedAccessUnit) : Prop :=
  payload u <> [] /\ Z.of_nat (length (payload u)) <= MAX_ENCODED_ACCESS_UNIT_BYTES /\
  (frame_sequence (unit_frame u) = 0 -> unit_kind u = Keyframe).
(** An event follows the media it names, and nothing else is published. *)
Definition parcel (session : HoistSessionId) (us : list EncodedAccessUnit) (e : ClientSurfaceEvent EncodedBuffer) : list packet :=
  (Media ∘ MkMediaEnvelope session <$> us) ++ [Control (session, SurfaceMessage e)].
Inductive Published : list packet -> Prop :=
  | published_none : Published []
  | published_next l session us e :
      Published l -> unit_frame <$> us = encoded_frames e -> Forall sound us -> Published (l ++ parcel session us e).

Lemma media_frames_app l k : media_frames (l ++ k) = media_frames l ++ media_frames k.
Proof. apply omap_app. Qed.
Lemma media_frames_parcel session us e : media_frames (parcel session us e) = unit_frame <$> us.
Proof.
  unfold parcel. rewrite media_frames_app. cbn. rewrite app_nil_r. induction us as [|u us IH]; [done|]. cbn. by f_equal.
Qed.

Definition event_distinct (e : Event) : Prop :=
  match event_kind e with Commit c => NoDup (layer <$> buffers c) | _ => True end.
Definition queued_ok (sf : ClientSurfaceId) (p : PendingEvent HoistSessionId ClientBufferLease) : Prop :=
  event_distinct (record p).2 /\ surface (record p).2 = sf.
(** [sent] is what was taken from the output. *)
Record Source_ok (sent : list packet) (s : state) : Prop := {
  encoder_ok : Encoder_ok (media_frames (sent ++ output s)) [] s;
  output_published : Published (sent ++ output s);
  batch_ok : forall b, in_flight s = Some b -> surface (batch_event b) = batch_surface b /\
    (cancelled b = false -> is_commit (batch_event b) = true /\ encoded_frames (batch_event b) = jobs b /\ Forall sound (completed b));
  queues_ok : forall sf q, pending s !! sf = Some q -> Forall (queued_ok sf) q;
}.
(** The fields the invariant reads; the rest may change at any time. *)
Lemma source_pending sent s s' : aside s s' -> (forall sf q, pending s' !! sf = Some q -> Forall (queued_ok sf) q) ->
  Source_ok sent s -> Source_ok sent s'.
Proof.
  intros A Hq [H1 H2 H3 H4]. pose proof A as [A1 A2 A3 A4 A5].
  constructor; rewrite ?A3, ?A2; try done. by eapply aside_ok.
Qed.
Lemma source_ext sent s s' : aside s s' /\ pending s' = pending s -> Source_ok sent s -> Source_ok sent s'.
Proof. intros [A Q] H. apply (source_pending sent s); [done| |done]. rewrite Q. apply H. Qed.

Lemma structural_frames e e' : structural e = Ret e' -> encoded_frames e' = [] /\ surface e' = surface e.
Proof.
  unfold structural. intros H. apply bind_Ret_inv in H as (x & Hx & [= <-]). unfold try_from_client, convert_event in Hx.
  apply bind_Ret_inv in Hx as (k & Hk & [= <-]). cbn. split; [|done]. unfold encoded_frames. cbn.
  destruct (event_kind e) as [|c| | | |]; try (injection Hk as <-; done). apply bind_Ret_inv in Hk as (c' & Hc & [= <-]).
  unfold convert_commit in Hc. apply bind_Ret_inv in Hc as (bs & Hb & [= <-]). cbn. apply traverse_Ret_inv in Hb.
  induction Hb as [|u v us vs Hu _ IH]; [done|]. cbn. unfold convert_update in Hu. apply bind_Ret_inv in Hu as (ch & Hch & [= <-]). cbn.
  destruct (change u); [injection Hch as <-; done|done|injection Hch as <-; done].
Qed.
Lemma parcel_published sent (s : state) session us e : Published (sent ++ output s) -> unit_frame <$> us = encoded_frames e -> Forall sound us ->
  Published (sent ++ (output s ++ parcel session us e)).
Proof. intros. rewrite app_assoc. by constructor. Qed.
Lemma send_structural_ok sent session e :
  triple (Source_ok sent) (send_without_buffer session e : M unit) (fun _ => Source_ok sent).
Proof.
  intros s s' [] H Hs. unfold send_without_buffer in Hs. apply run_bind in Hs as (s0 & e' & [-> [Hf _]%structural_frames]%run_lift & Hs).
  injection Hs as <-. destruct H as [H1 H2 H3 H4]. constructor; cbn; [|by apply (parcel_published _ _ _ [])|done|done].
  rewrite app_assoc, media_frames_app. cbn. rewrite app_nil_r. destruct H1. by constructor.
Qed.

(** ** Batches *)
(** A batch whose active job was just submitted. *)
Lemma start_batch sent s b :
  seated (media_frames (sent ++ output s)) (jobs b) (batch_surface b) (fun _ => True) s ->
  Published (sent ++ output s) -> (forall sf q, pending s !! sf = Some q -> Forall (queued_ok sf) q) ->
  cancelled b = false -> surface (batch_event b) = batch_surface b -> is_commit (batch_event b) = true ->
  encoded_frames (batch_event b) = jobs b -> Forall sound (completed b) ->
  Source_ok sent (set_in_flight (Some b) s).
Proof. intros Hse Hp Hq Hc Hs Hco He Hso. constructor; [by apply put_batch|done| |done]. by intros b' [= <-]. Qed.
Lemma submit_batch_ok sent session sf c now : NoDup (layer <$> buffers c) ->
  triple (fun s => Source_ok sent s /\ in_flight s = None) (submit_batch session sf c now) (fun _ => Source_ok sent).
Proof.
  intros Hnd s s' [] [H Hi] Hs. unfold submit_batch in Hs. apply run_bind in Hs as (s0 & cad & [-> ->]%run_gets & Hs).
  apply run_bind in Hs as (s1 & [us ps] & H1 & Hs). pose proof (run_always _ _ _ _ _ (prepare_updates_quiet _ _ _ _) H1) as [[Q1 _ _] Q2 Q3].
  assert (H0 : seated (media_frames (sent ++ output s)) [] sf (fun _ => False) s).
  { split; [split; [apply H|done]|]. by intros f ?%not_elem_of_nil. }
  destruct (prepare_updates_ok _ _ _ _ _ _ _ Hnd (fun l (Hl : (fun _ => False) l) => False_ind _ Hl) _ _ _ H0 H1) as [H2 Hps]. cbn in H2, Hps.
  destruct ps as [|p ps]; [done|]. apply run_bind in Hs as (s2 & job & H3 & Hs). injection Hs as <-.
  pose proof (run_always _ _ _ _ _ (submit_prepared_quiet _ _) H3) as [[R1 _ _] R2 R3].
  assert (Hjobs : update_frames us = prepared_frame p :: (frame ∘ request <$> ps)) by done.
  assert (Hp : prepared_frame p ∈ update_frames us) by (rewrite Hjobs; left).
  destruct (submit_prepared_ok _ _ _ _ _ _ Hp _ _ _ H2 H3) as [H4 Hj]. rewrite <- Q3, <- R3 in H4.
  rewrite <- Hj in Hjobs.
  apply start_batch; cbn; try done.
  - unfold jobs. cbn. by rewrite <- Hjobs.
  - rewrite R3, Q3. apply H.
  - rewrite R1, Q1. apply H.
Qed.
Lemma prepare_streams_source sent e now :
  triple (fun s => Source_ok sent s /\ in_flight s = None) (prepare_streams e now) (fun _ s => Source_ok sent s /\ in_flight s = None).
Proof.
  intros s s' [] [H Hi] Hs. pose proof (run_always _ _ _ _ _ (prepare_streams_quiet _ _) Hs) as [[Q1 _ _] Q2 Q3].
  destruct (prepare_streams_ok _ _ _ s s' tt (conj (encoder_ok _ _ H) Hi) Hs) as [H' Hi']. split; [|done].
  constructor; rewrite ?Q1, ?Q3; [done|apply H|by rewrite Hi'|apply H].
Qed.
Lemma submit_or_send_ok sent session e now : event_distinct e ->
  triple (fun s => Source_ok sent s /\ in_flight s = None) (submit_or_send_at session e now) (fun _ => Source_ok sent).
Proof.
  intros He s s' a H Hs. unfold submit_or_send_at in Hs. apply run_bind in Hs as (s0 & u & [-> _]%run_lift & Hs).
  apply run_bind in Hs as (s1 & [] & H1 & Hs). apply (prepare_streams_source _ _ _ _ _ _ H) in H1 as [H1 Hi].
  unfold event_distinct in He. destruct (event_kind e) as [|c| | | |]; try by eapply send_structural_ok.
  case_bool_decide; [by eapply send_structural_ok|]. apply run_bind in Hs as (s2 & [] & H2 & Hs). injection Hs as <- <-.
  apply (source_ext sent s2); [by repeat split|]. exact (submit_batch_ok sent session _ c now He _ _ _ (conj H1 Hi) H2).
Qed.

(** ** Completions *)
Lemma drain_backend sent (k : K) s : Source_ok sent s -> Source_ok sent (set_backend k s).
Proof. apply source_ext. by repeat split. Qed.
Lemma frames_of_jobs b u : cancelled b = false -> unit_frame u = active_frame (active b) ->
  jobs b = (unit_frame <$> completed b ++ [u]) ++ (prepared_frame <$> batch_pending b).
Proof. intros Hc Hu. unfold jobs. rewrite Hc, fmap_app. cbn. rewrite Hu, <- app_assoc. done. Qed.
Lemma complete_one_queues now c : always same_queues (complete_one now c : M unit).
Proof.
  unfold complete_one. apply always_bind; [apply _|intros s; unfold take_in_flight; by destruct (in_flight s)|intros b].
  apply always_bind; [apply _|by apply always_id|intros _].
  apply always_bind; [apply _|apply quiet_same, apart_quiet, with_application_apart|intros _].
  destruct (cancelled b); [apply quiet_same, retire_generation_quiet|].
  do 3 (apply always_bind; [apply _|by apply always_id|intros ?]). destruct (batch_pending b).
  - apply always_bind; [apply _|by apply always_id|intros ?]. apply always_bind; [apply _|intros s; by repeat split|intros _ s; by repeat split].
  - apply always_bind; [apply _|apply quiet_same, submit_prepared_quiet|intros job s; by repeat split].
Qed.
Lemma drain_queues now : always same_queues (drain now : M unit).
Proof.
  unfold drain. apply always_bind; [apply _|intros s; by destruct (drain_completions _)|intros cs].
  apply always_for_each; [apply _..|]. intros c. apply complete_one_queues.
Qed.
(** What an accepted unit was checked for. *)
Lemma accepted_unit (b : InFlightEncodeBatch) u : bool_decide (payload u <> []) && (Z.of_nat (length (payload u)) <=? MAX_ENCODED_ACCESS_UNIT_BYTES) = true ->
  is_valid_packet (active_frame (active b)) (Ret u) = true -> unit_frame u = active_frame (active b) /\ sound u.
Proof.
  intros [Hne%bool_decide_eq_true Hle%Z.leb_le]%andb_true_iff Hval. cbn in Hval.
  apply andb_true_iff in Hval as [Hf%bool_decide_eq_true Hk]. split; [done|]. split_and!; [done..|].
  intros H0. rewrite H0 in Hk. cbn in Hk. by apply bool_decide_eq_true in Hk.
Qed.
(** A batch between two of its jobs. *)
Record batch_between (sent : list packet) (b : InFlightEncodeBatch) (s : state) : Prop := {
  between_seated : seated (media_frames (sent ++ output s)) (jobs b) (batch_surface b) (fun _ => True) s;
  between_published : Published (sent ++ output s);
  between_queues : forall sf q, pending s !! sf = Some q -> Forall (queued_ok sf) q;
  between_surface : surface (batch_event b) = batch_surface b;
  between_batch : cancelled b = false -> is_commit (batch_event b) = true /\ encoded_frames (batch_event b) = jobs b /\ Forall sound (completed b);
}.
Lemma batch_finished sent b s u : batch_between sent b s -> cancelled b = false -> batch_pending b = [] ->
  unit_frame u = active_frame (active b) -> sound u ->
  Source_ok sent (set_output (output s ++ parcel (batch_session b) (completed b ++ [u]) (batch_event b)) s).
Proof.
  intros [Hse Hpub Hq _ Hb] Hc Hnil Hu Hsu. destruct (Hb Hc) as (_ & Hev & Hso). pose proof (frames_of_jobs b u Hc Hu) as Hj.
  rewrite Hnil in Hj. cbn in Hj. rewrite app_nil_r in Hj. pose proof (publish_batch _ _ _ _ _ Hse) as Hp. destruct Hse as [[_ Hi] _].
  constructor; cbn; [| |by rewrite Hi|done].
  - rewrite app_assoc, media_frames_app, media_frames_parcel, <- Hj. destruct Hp. by constructor.
  - apply parcel_published; [done|by rewrite <- Hj, Hev|]. apply Forall_app. split; [done|by constructor].
Qed.
Lemma batch_continued sent b s s' u p ps job now : batch_between sent b s -> cancelled b = false -> batch_pending b = p :: ps ->
  unit_frame u = active_frame (active b) -> sound u -> submit_prepared p now s = (s', Ret job) ->
  Source_ok sent (set_in_flight (Some (with_active b job ps (completed b ++ [u]))) s').
Proof.
  intros [Hse Hpub Hq Hsf Hb] Hc Hcons Hu Hsu Hs. destruct (Hb Hc) as (Hco & Hev & Hso). pose proof (frames_of_jobs b u Hc Hu) as Hj.
  rewrite Hcons in Hj. pose proof (run_always _ _ _ _ _ (submit_prepared_quiet _ _) Hs) as [[R1 _ _] R2 R3].
  assert (Hp : prepared_frame p ∈ jobs b) by (rewrite Hj; set_solver).
  destruct (submit_prepared_ok _ _ _ _ _ _ Hp _ _ _ Hse Hs) as [H4 Hjf].
  assert (Hjobs : jobs (with_active b job ps (completed b ++ [u])) = jobs b).
  { rewrite Hj. unfold jobs, with_active. cbn. rewrite Hc, Hjf. done. }
  apply start_batch; cbn; rewrite ?R1, ?R3; try done; [by rewrite Hjobs..|]. apply Forall_app. split; [done|by constructor].
Qed.
Lemma batch_dropped sent b s s' : batch_between sent b s -> cancelled b = true ->
  spent (frame_stream (active_frame (active b))) (frame_generation (active_frame (active b))) s ->
  retire_generation (frame_stream (active_frame (active b))) (frame_generation (active_frame (active b))) s = (s', Ret tt) ->
  Source_ok sent s'.
Proof.
  intros [Hse Hpub Hq _ _] Hc Hsp Hs. pose proof (run_always _ _ _ _ _ (retire_generation_quiet _ _) Hs) as [[R1 _ _] R2 R3].
  destruct Hse as [[Hse Hi] _]. unfold jobs in Hse. rewrite Hc in Hse. constructor; rewrite ?R1, ?R3, ?R2; try done; [|by rewrite Hi].
  eapply generation_retire_ok; [|done]. split; [done|]. split; [done|by rewrite Hi].
Qed.
Lemma complete_one_ok sent now c : triple (Source_ok sent) (complete_one now c) (fun _ => Source_ok sent).
Proof.
  intros s s' [] H Hs. unfold complete_one in Hs. apply run_bind in Hs as (s1 & b & H1 & Hs). unfold take_in_flight in H1.
  destruct (in_flight s) as [b'|] eqn:Hb; [|done]. injection H1 as <- ->.
  apply run_bind in Hs as (s1 & u0 & [-> _]%run_lift & Hs). apply run_bind in Hs as (s2 & [] & H2 & Hs).
  pose proof (run_always _ _ _ _ _ (with_application_apart _ _ _) H2) as [A [Q1 _ _]]. pose proof (aside_output _ _ A) as Ho. cbn in Q1, Ho.
  assert (Hbt : batch_between sent b s2).
  { pose proof (batch_ok _ _ H b Hb) as [Hsf Hbo]. constructor; rewrite ?Ho, ?Q1; [|apply H|apply H|done|done].
    refine (seated_apart _ _ _ _ _ _ _ _ (with_application_apart _ _ _) H2 _). by apply take_batch; [apply H|]. }
  destruct (cancelled b) eqn:Hc.
  { refine (batch_dropped _ _ _ _ Hbt Hc _ Hs). pose proof (cancelled_spent _ _ _ (encoder_ok _ _ H) b Hb Hc) as Hsp.
    unfold spent in *. by rewrite (aside_stream _ _ A), (aside_streams _ _ A). }
  apply run_bind in Hs as (s3 & u & [-> Hu]%run_lift & Hs). apply run_bind in Hs as (s3 & u1 & [-> Hlen%ensure_Ret_inv]%run_lift & Hs).
  apply run_bind in Hs as (s3 & u2 & [-> Hval%ensure_Ret_inv]%run_lift & Hs). rewrite Hu in Hval.
  destruct (accepted_unit b u Hlen Hval) as [Huf Hus]. destruct (batch_pending b) as [|p ps] eqn:Hbp.
  - apply run_bind in Hs as (s3 & u3 & [-> _]%run_lift & Hs). injection Hs as <-. pose proof (batch_finished _ _ _ _ Hbt Hc Hbp Huf Hus) as Hend.
    revert Hend. apply source_ext. cbn. split; [|done]. constructor; cbn; try done. by rewrite <- app_assoc.
  - apply run_bind in Hs as (s3 & job & H3 & Hs). injection Hs as <-. by eapply batch_continued.
Qed.
Lemma drain_ok sent now : triple (Source_ok sent) (drain now : M unit) (fun _ => Source_ok sent).
Proof.
  intros s s' a H Hs. unfold drain in Hs. apply run_bind in Hs as (s1 & cs & H1 & Hs).
  destruct (drain_completions (backend s)) as [k xs]. injection H1 as <- <-. apply (drain_backend _ k) in H.
  refine (triple_for_each (Source_ok sent) _ xs _ _ _ _ H Hs). intros c _. apply complete_one_ok.
Qed.

(** ** Cancelling *)
Lemma mark_flight sf (s : state) : batch_follows (fun key => bool_decide (key.1 = sf)) (in_flight s) (in_flight (mark_cancelled sf s)).
Proof.
  unfold mark_cancelled. destruct (in_flight s) as [b|] eqn:Hb; [|done]. case_bool_decide as Hs; cbn.
  - right. split; [done|]. intros l. by apply bool_decide_eq_true.
  - left. split; [done|]. intros l. by apply bool_decide_eq_false.
Qed.
Lemma mark_keeps sf (s : state) : let s' := mark_cancelled sf s in
  streams s' = streams s /\ next_stream s' = next_stream s /\ calls s' = calls s /\ output s' = output s /\ same_queues s s'.
Proof. unfold mark_cancelled. destruct (in_flight s); [case_bool_decide|]; by repeat split. Qed.
Lemma retire_surface_quiet sf now : always quiet (retire_surface_streams sf now : M unit).
Proof.
  unfold retire_surface_streams. apply always_bind; [apply _|intros s; by repeat split|intros l].
  apply always_bind; [apply _|apply retire_streams_quiet|intros _; apply apart_quiet, update_budget_apart].
Qed.
Lemma cancel_encode_ok sent sf now : triple (Source_ok sent) (cancel_encode sf now : M unit) (fun _ => Source_ok sent).
Proof.
  intros s s' [] H Hs. unfold cancel_encode in Hs. apply run_bind in Hs as (s0 & u & [= <- _] & Hs). set (s0 := mark_cancelled sf _) in Hs.
  pose proof (run_always _ _ _ _ _ (retire_surface_quiet _ _) Hs) as [[Q1 _ _] Q2 Q3].
  destruct (mark_keeps sf (unqueue sf s)) as (M1 & M2 & M3 & M4 & [M5 _ _]). fold s0 in M1, M2, M3, M4, M5. cbn in M1, M2, M3, M4, M5.
  pose proof (mark_flight sf (unqueue sf s)) as Hf. fold s0 in Hf. cbn in Hf.
  assert (Hend : Encoder_ok (media_frames (sent ++ output s)) [] s').
  { unfold retire_surface_streams in Hs. apply run_bind in Hs as (s1 & l & H1 & Hs). apply run_bind in Hs as (s2 & [] & H2 & Hs).
    destruct (run_always _ _ _ _ _ (update_budget_apart _ _) Hs) as [Ha _]. eapply aside_ok; [exact Ha|].
    refine (retire_streams_ok _ _ _ _ _ _ _ H2). injection H1 as <- <-.
    assert (D : streams_dropped (fun key => bool_decide (key.1 = sf)) s
      (set_streams (filter (fun p => bool_decide (p.1.1 = sf) = false) (streams s0)) s0)) by (constructor; cbn; [by rewrite M1|done..]).
    split; [by eapply dropped_ok; [apply H|]|]. intros x ([key y] & -> & Hy)%list_elem_of_fmap.
    apply list_elem_of_filter in Hy as [Hg Hy]. rewrite visit_perm in Hy. apply elem_of_map_to_list in Hy. rewrite M1 in Hy.
    by eapply dropped_retirable; [apply H|..]. }
  constructor; rewrite ?Q1, ?Q3, ?M4; [done|apply H| |].
  - intros b. rewrite Q2. destruct (in_flight s) as [b0|] eqn:Hb; cbn in Hf; [|by rewrite Hf].
    pose proof (batch_ok _ _ H b0 Hb) as Hok. destruct Hf as [[-> _]|[-> _]]; intros [= <-]; [done|]. by split; [apply Hok|].
  - rewrite M5. intros i q Hq. apply lookup_delete_Some in Hq as [_ Hq]. by apply (queues_ok _ _ H).
Qed.
Lemma cancel_surface_ok sent sf now : triple (Source_ok sent) (cancel_surface sf now : M unit) (fun _ => Source_ok sent).
Proof.
  intros s s' a H Hs. unfold cancel_surface in Hs. apply run_bind in Hs as (s0 & u & [= <- _] & Hs).
  refine (cancel_encode_ok _ _ _ _ _ _ _ Hs). revert H. apply source_ext. by repeat split.
Qed.

(** ** Queues *)
Lemma carry_event_distinct (p e m : Event) : carry_event p e = Some m -> event_distinct e -> event_distinct m /\ surface m = surface e.
Proof.
  unfold carry_event, event_distinct. destruct (event_kind p); try done. destruct (event_kind e) as [|c| | | |]; try done. intros [= <-] H.
  cbn. by rewrite carry_layers.
Qed.
Lemma insert_event_ok sf session e i q : event_distinct e -> surface e = sf -> Forall (queued_ok sf) q ->
  Forall (queued_ok sf) (insert_event session e i q).1.
Proof.
  intros He Hs Hq. assert (Hnew : forall m b, event_distinct m -> surface m = sf -> queued_ok sf (MkPendingEvent (session, m) b)) by by split.
  assert (Happ : forall m b q', event_distinct m -> surface m = sf -> Forall (queued_ok sf) q' -> Forall (queued_ok sf) (q' ++ [MkPendingEvent (session, m) b])).
  { intros. apply Forall_app. split; [done|]. constructor; [by apply Hnew|done]. }
  unfold insert_event. destruct (replacement i) as [n|]; [|by apply Happ]. destruct (q !! n) as [p|]; [|by apply Happ].
  destruct (carry_event _ _) as [m|] eqn:Hm.
  - apply carry_event_distinct in Hm as [Hm Hms]; [|done]. rewrite Hs in Hms. destruct (PendingEvents.barrier p).
    + apply Forall_insert; [done|by apply Hnew].
    + apply Happ; [done..|]. by apply Forall_delete.
  - apply Happ; [done..|]. by apply Forall_delete.
Qed.
Lemma queue_of_ok sent s sf : Source_ok sent s -> Forall (queued_ok sf) (queue_of s sf).
Proof. intros H. unfold queue_of. destruct (pending s !! sf) eqn:Hq; [by apply (queues_ok _ _ H)|constructor]. Qed.
Lemma set_pending_ok sent s sf q : Source_ok sent s -> Forall (queued_ok sf) q -> Source_ok sent (set_pending (<[sf := q]> (pending s)) s).
Proof.
  intros H Hq. apply (source_pending sent s); [by constructor| |done]. intros i q'. cbn.
  intros [[<- <-]|[_ Hi]]%lookup_insert_Some; [done|]. by apply (queues_ok _ _ H).
Qed.
Lemma drop_pending_ok sent s sf : Source_ok sent s -> Source_ok sent (set_pending (delete sf (pending s)) s).
Proof.
  intros H. apply (source_pending sent s); [by constructor| |done]. intros i q. cbn. intros [_ Hi]%lookup_delete_Some.
  by apply (queues_ok _ _ H).
Qed.
Lemma queue_event_ok sent session e : event_distinct e -> triple (Source_ok sent) (queue_event session e : M unit) (fun _ => Source_ok sent).
Proof.
  intros He s s' [] H Hs. unfold queue_event in Hs. destruct (try_push _ _ _ _) as [[q u]|] eqn:Hp; [|done]. injection Hs as <-.
  assert (Hq : Forall (queued_ok (surface e)) q).
  { unfold try_push in Hp. destruct (_ && _); [done|]. injection Hp as Hp. apply (f_equal fst) in Hp. cbn in Hp. subst q. apply insert_event_ok; [done..|]. by eapply queue_of_ok. }
  apply (set_pending_ok _ _ _ _ H) in Hq. revert Hq. case_bool_decide; [|done]. apply source_ext. by repeat split.
Qed.

(** ** Arrivals *)
Lemma note_event_apart session e now : always apart (note_event session e now : M unit).
Proof.
  unfold note_event. apply always_bind; [apply _|intros s; by repeat split|intros _].
  destruct (event_kind e); try (by apply always_id); [|intros s; by repeat split].
  apply always_bind; [apply _|intros s; by repeat split|intros _; apply update_budget_apart].
Qed.
Lemma apart_source sent s s' : apart s s' -> Source_ok sent s -> Source_ok sent s'.
Proof. intros [A []]. by apply source_ext. Qed.
Lemma admission_idle (s : state) : admission_closed s = false -> in_flight s = None.
Proof. unfold admission_closed. destruct (in_flight s); [|done]. rewrite bool_decide_true, orb_true_r by done. done. Qed.
Lemma send_control_ok sent r : triple (Source_ok sent) (send_control r : M unit) (fun _ => Source_ok sent).
Proof. unfold send_control. destruct (is_commit r.2); [by intros s s' [] H [= <-]|apply send_structural_ok]. Qed.
Lemma enqueue_ok sent session e now : event_distinct e ->
  triple (Source_ok sent) (enqueue session e now : M unit) (fun _ => Source_ok sent).
Proof.
  intros He s s' [] H Hs. unfold enqueue in Hs. apply run_bind in Hs as (s1 & [] & H1 & Hs).
  apply (run_always _ _ _ _ _ (note_event_apart _ _ _)) in H1. apply (apart_source sent _ _ H1) in H. clear H1.
  destruct (is_full_unmap e).
  - apply run_bind in Hs as (s2 & waiting & [-> ->]%run_gets & Hs). apply run_bind in Hs as (s2 & u & [= <- _] & Hs).
    apply run_bind in Hs as (s3 & [] & H3 & Hs). apply (cancel_encode_ok sent _ _ _ _ _ (drop_pending_ok _ _ _ H)) in H3.
    apply run_bind in Hs as (s4 & u4 & [= <- _] & Hs). apply run_bind in Hs as (s5 & [] & H5 & Hs).
    refine (send_structural_ok _ _ _ _ _ _ _ Hs). refine (triple_for_each (Source_ok sent) _ _ _ _ _ _ _ H5).
    + intros r _. apply send_control_ok.
    + revert H3. apply source_ext. by repeat split.
  - apply run_bind in Hs as (s2 & busy & [-> ->]%run_gets & Hs).
    assert (Hother : (if surface_busy (surface e) s1 then queue_event session e else send_without_buffer session e) s1 = (s', Ret tt) ->
      Source_ok sent s').
    { destruct (surface_busy _ _); intros Hrun; [by eapply queue_event_ok|by eapply send_structural_ok]. }
    destruct (event_kind e) eqn:Hk; try (by apply Hother).
    + apply run_bind in Hs as (s2 & wait & [-> Hw]%run_gets & Hs). destruct wait; [by eapply queue_event_ok|].
      refine (submit_or_send_ok _ _ _ _ He _ _ _ _ Hs). split; [done|].
      apply admission_idle. symmetry in Hw. by repeat (apply orb_false_iff in Hw as [Hw ?]).
    + apply run_bind in Hs as (s2 & [] & H2 & Hs). eapply send_structural_ok; [|done]. by eapply cancel_surface_ok.
Qed.

(** ** Scheduling *)
Lemma pop_ok sent s sf p rest : pending s !! sf = Some (p :: rest) -> Source_ok sent s ->
  Source_ok sent (pop_surface sf rest s) /\ queued_ok sf p.
Proof.
  intros Hp H. pose proof (queues_ok _ _ H _ _ Hp) as Hq. apply Forall_cons_1 in Hq as [Hd Hr]. split; [|done].
  unfold pop_surface. destruct rest as [|q rest].
  - apply (source_ext sent (set_pending (delete sf (pending s)) s)); [by repeat split|by apply drop_pending_ok].
  - apply (source_ext sent (set_pending (<[sf := q :: rest]> (pending s)) s)); [by repeat split|]. by apply set_pending_ok.
Qed.
Lemma pop_flight (s : state) sf rest : in_flight (pop_surface sf rest s) = in_flight s.
Proof. unfold pop_surface. by destruct rest. Qed.
Lemma schedule_loop_ok sent now fuel s s' : schedule_loop fuel now s = Some (s', Ret tt) ->
  Source_ok sent s -> in_flight s = None -> Source_ok sent s'.
Proof.
  revert s. induction fuel as [|fuel IH]; intros s Hl H Hi; [done|]. cbn [schedule_loop] in Hl.
  destruct (Scheduling.select _ _ _ _ _ _) as [sched chosen]. set (s1 := set_scheduler sched s) in Hl.
  assert (H1 : Source_ok sent s1) by (revert H; apply source_ext; by repeat split).
  destruct chosen as [sel|]; [|by injection Hl as <-]. destruct (pending s1 !! sel_surface sel) as [[|p rest]|] eqn:Hp.
  - eapply IH; [done|by apply drop_pending_ok|done].
  - destruct (pop_ok _ _ _ _ _ Hp H1) as [H2 [Hd _]].
    destruct (submit_or_send_at _ _ _ _) as [s2 [[]| |]] eqn:Hrun; [|done..].
    pose proof (submit_or_send_ok _ _ _ _ Hd _ _ _ (conj H2 (eq_trans (pop_flight s1 _ _) Hi)) Hrun) as H3.
    case_bool_decide as Hf; [injection Hl as <-; revert H3; apply source_ext; by repeat split|].
    eapply IH; [done..|]. by apply eq_None_not_Some.
  - by injection Hl as <-.
Qed.
Lemma schedule_ok sent now s s' : schedule_at now s = Some (s', Ret tt) -> Source_ok sent s -> Source_ok sent s'.
Proof.
  unfold schedule_at. destruct (admission_closed s) eqn:Ha; [by intros [= <-]|]. intros Hl H. eapply schedule_loop_ok; [done..|].
  by apply admission_idle.
Qed.

(** ** Histories

    What the port does with its source: events that [may] arrive do, surfaces are
    withdrawn and resized, completions are drained, work is scheduled and packets are
    taken. In between anything else may change: activity, policy, pacing and flags, the
    shared budget, and what the encoder has finished. A step succeeds; the port is gone
    after a failure. *)
Inductive port_step (may : Event -> Prop) : list packet * state -> list packet * state -> Prop :=
  | step_enqueue sent s s' session e now :
      may e -> enqueue session e now s = (s', Ret tt) -> port_step may (sent, s) (sent, s')
  | step_withdraw sent s s' sf now : cancel_surface sf now s = (s', Ret tt) -> port_step may (sent, s) (sent, s')
  | step_resize sent s s' sf b : mark_resizing sf b s = (s', Ret tt) -> port_step may (sent, s) (sent, s')
  | step_drain sent s s' now : drain now s = (s', Ret tt) -> port_step may (sent, s) (sent, s')
  | step_schedule sent s s' now : schedule_at now s = Some (s', Ret tt) -> port_step may (sent, s) (sent, s')
  | step_take sent s s' l : take_output s = (s', Ret l) -> port_step may (sent, s) (sent ++ l, s')
  | step_elsewhere sent s s' : apart s s' -> port_step may (sent, s) (sent, s').
Lemma port_step_weaken (may may' : Event -> Prop) x y : (forall e, may e -> may' e) -> port_step may x y -> port_step may' x y.
Proof.
  intros H []; [eapply step_enqueue|eapply step_withdraw|eapply step_resize|eapply step_drain|eapply step_schedule|
    eapply step_take|eapply step_elsewhere]; eauto.
Qed.
Lemma port_step_ok x y : port_step event_distinct x y -> Source_ok x.1 x.2 -> Source_ok y.1 y.2.
Proof.
  intros Hxy. destruct Hxy as [sent s s' session e now He Hs|sent s s' sf now Hs|sent s s' sf b Hs|sent s s' now Hs|sent s s' now Hs|sent s s' l Hs|sent s s' Ha]; cbn in *; intros H.
  - exact (enqueue_ok _ _ _ _ He _ _ _ H Hs).
  - exact (cancel_surface_ok _ _ _ _ _ _ H Hs).
  - injection Hs as <-. revert H. apply source_ext. by repeat split.
  - exact (drain_ok _ _ _ _ _ H Hs).
  - by eapply schedule_ok.
  - injection Hs as <- <-. destruct H as [[] H2 H3 H4]. constructor; cbn; rewrite ?app_nil_r; [by constructor|done..].
  - by eapply apart_source.
Qed.
Lemma port_steps_ok x y : rtc (port_step event_distinct) x y -> Source_ok x.1 x.2 -> Source_ok y.1 y.2.
Proof. induction 1 as [|x y z Hxy _ IH]; [done|]. intros H. by eapply IH, port_step_ok. Qed.
Lemma source_new_ok rates c limit fallback k now : Source_ok [] (EncodedSourceState_new rates c limit fallback k now).
Proof.
  constructor; cbn; [constructor; cbn|constructor|done|done]; try done.
  - split; [|done]. intros n [= <-]. pose proof u64_max_val. lia.
  - intros k' _. by exists 0.
  - by intros f ?%not_elem_of_nil.
  - by intros st g ?%not_elem_of_nil.
  - by intros [|??].
Qed.
(** A source the port has used for a while, what it sent, and what it holds. *)
Definition port_history (sent : list packet) (s : state) : Prop :=
  exists rates c limit fallback k now,
    rtc (port_step event_distinct) ([], EncodedSourceState_new rates c limit fallback k now) (sent, s).
Lemma history_ok sent s : port_history sent s -> Source_ok sent s.
Proof. intros (rt & c & limit & fallback & k & now & H). apply (port_steps_ok _ _ H). apply source_new_ok. Qed.

(** C3 (source-decodable). What a source sends can be decoded as it arrives. Every event
    follows exactly the access units it names, in order, each not empty and in bounds,
    and the units of a generation are its sequences 0, 1, 2 and so on, from a keyframe. *)
Theorem source_decodable (sent : list packet) (s : state) (H : port_history sent s) :
  Published (sent ++ output s) /\
  forall k, exists n, seqs k (media_frames (sent ++ output s)) = seqZ 0 n.
Proof.
  apply history_ok in H. split; [apply H|]. intros k. eapply published_prefix, H.
Qed.
(** C14 (source-retire). A generation is retired once its last job is done: nothing of it
    is under way then, and nothing is ever submitted for it again. *)
Theorem source_retire (sent : list packet) (s : state) (st : MediaStreamId) (g : StreamGeneration)
    (before after : list (call In)) (H : port_history sent s) (Hr : calls s = before ++ Retired st g :: after) :
  (forall r, Submitted r ∈ after -> generation_of (frame r) <> (st, g)) /\
  (forall b, in_flight s = Some b -> generation_of (active_frame (active b)) <> (st, g)) /\
  (forall key x, streams s !! key = Some x -> key_of x <> (st, g)).
Proof.
  apply history_ok, encoder_ok in H. destruct (retired_spent _ _ _ H st g) as [Hsp Hb]; [rewrite Hr; set_solver|].
  split_and!; [|done|].
  - intros r Hin. eapply (retired_last _ _ _ H); [exact Hr|done].
  - intros key x Hx. by eapply spent_not_live.
Qed.
End Frames.

(** ** A port at work

    An encoder that finishes each request at once, with the units a decoder expects, and
    one of the orders of a map. *)
Definition EagerEncoder : Type := list EncodeCompletion.
Definition eager_unit (r : EncodeRequest unit) : EncodedAccessUnit :=
  MkAccessUnit (frame r) H264 (if frame_sequence (frame r) =? 0 then Keyframe else Delta) (timestamp_micros r) [token r].
#[export] Instance eager_backend : EncodeBackend EagerEncoder unit := {
  prepare_input _ _ := Ret (tt, None);
  try_submit r k := (k ++ [MkEncodeCompletion (token r) (Ret (eager_unit r))], None);
  drain_completions k := ([], k);
  retire _ _ k := (k, Ret tt);
}.
#[export] Existing Instance plain_order.
Abbreviation sample_state := (EncodedSourceState EagerEncoder unit unit unit).
Abbreviation sample_packet := (SourceTransportPacket (HoistSessionId * SourceMessage unit unit) (MediaEnvelope EncodedAccessUnit)).
Inductive action :=
  | Arrive (e : Event) (now : instant)
  | Drain (now : instant)
  | Schedule (now : instant)
  | Take.
Definition sample_session : HoistSessionId := MkHoistSessionId 1.
Definition ran {A} (r : sample_state * outcome A) (f : A -> list sample_packet) (sent : list sample_packet) :
    option (list sample_packet * sample_state) :=
  match r with (s, Ret a) => Some (sent ++ f a, s) | _ => None end.
Definition act (a : action) (x : list sample_packet * sample_state) : option (list sample_packet * sample_state) :=
  match a with
  | Arrive e now => ran (enqueue sample_session e now x.2) (fun _ => []) x.1
  | Drain now => ran (drain now x.2) (fun _ => []) x.1
  | Schedule now => r ← schedule_at now x.2; ran r (fun _ => []) x.1
  | Take => ran (take_output x.2) id x.1
  end.
Definition run (l : list action) (x : list sample_packet * sample_state) : option (list sample_packet * sample_state) :=
  foldl (fun o a => o ≫= act a) (Some x) l.
Definition arrives (may : Event -> Prop) (a : action) : Prop := match a with Arrive e _ => may e | _ => True end.
Lemma ran_Some {A} (r : sample_state * outcome A) f sent y : ran r f sent = Some y ->
  exists s a, r = (s, Ret a) /\ y = (sent ++ f a, s).
Proof. destruct r as [s [a| |]]; [|done..]. intros [= <-]. by exists s, a. Qed.
Lemma act_step may a x y : arrives may a -> act a x = Some y -> port_step may x y.
Proof.
  destruct x as [sent s]. destruct a as [e now|now|now|]; cbn [act arrives fst snd]; intros Ha.
  - intros (s' & [] & Hs & ->)%ran_Some. rewrite app_nil_r. exact (step_enqueue _ _ _ _ _ _ _ Ha Hs).
  - intros (s' & [] & Hs & ->)%ran_Some. rewrite app_nil_r. exact (step_drain _ _ _ _ _ Hs).
  - destruct (schedule_at now s) as [r|] eqn:Hr; [|done]. cbn [mbind option_bind]. intros (s' & [] & -> & ->)%ran_Some. rewrite app_nil_r.
    exact (step_schedule _ _ _ _ _ Hr).
  - intros (s' & l & Hs & ->)%ran_Some. exact (step_take _ _ _ _ _ Hs).
Qed.
Lemma run_steps may l x y : Forall (arrives may) l -> run l x = Some y -> rtc (port_step may) x y.
Proof.
  intros Hl. revert x. induction Hl as [|a l Ha _ IH]; intros x; unfold run; cbn; [intros [= ->]; apply rtc_refl|].
  destruct (act a x) as [z|] eqn:Hz.
  - intros Hr. eapply rtc_l; [by eapply act_step|]. by apply IH.
  - intros Hr. exfalso. clear - Hr. by induction l.
Qed.
Definition sample_start : list sample_packet * sample_state := ([], EncodedSourceState_new None sample_pool None None [] 0).
Lemma run_history l sent s : Forall (arrives event_distinct) l -> run l sample_start = Some (sent, s) -> port_history sent s.
Proof. intros Hl Hr. exists None, sample_pool, None, None, [], 0. by eapply run_steps. Qed.

(** A surface shows a frame of one size, then one of another. *)
Definition sample_lease (w : Z) : ClientBufferLease :=
  MkClientBufferLease (MkClientBufferId (MkClientSourceId 1) w) (MkClientBufferMetadata (MkExtent w 100) true) w
    (MkClientBufferUseId (MkClientSourceId 1) w).
Definition sample_show (n rev w : Z) : Event :=
  MkClientSurfaceEvent (ClientSurfaceId_for_test n)
    (Commit (MkClientSurfaceState rev Preserved true None None [] []
       [MkSurfaceBufferUpdate (MkSurfaceLayerId 0) (Replaced (lease_metadata (sample_lease w)) (sample_lease w))])).
Definition sample_history : list action :=
  [Arrive (sample_show 1 1 100) 0; Drain 0; Take; Arrive (sample_show 1 2 200) 1000; Drain 1000].
Lemma sample_show_distinct n rev w : event_distinct (sample_show n rev w).
Proof. cbn. apply NoDup_singleton. Qed.
Lemma sample_distinct : Forall (arrives event_distinct) sample_history.
Proof. by repeat (apply List.Forall_cons; [first [apply sample_show_distinct|done]|]). Qed.
Definition sample_end (l : list action) : list sample_packet * sample_state := default sample_start (run l sample_start).
Lemma sample_port : port_history (sample_end sample_history).1 (sample_end sample_history).2.
Proof. apply (run_history _ _ _ sample_distinct). vm_compute. reflexivity. Qed.

Lemma source_decodable_witness :
  media_frames ((sample_end sample_history).1 ++ output (sample_end sample_history).2) =
    [MkMediaFrameId (MkMediaStreamId 1) (MkStreamGeneration 1) 0; MkMediaFrameId (MkMediaStreamId 1) (MkStreamGeneration 2) 0] /\
  Published ((sample_end sample_history).1 ++ output (sample_end sample_history).2).
Proof.
  split; [vm_compute; reflexivity|]. apply (source_decodable _ _ sample_port).
Defined.
Lemma source_retire_witness :
  exists before after, calls (sample_end sample_history).2 = before ++ Retired (MkMediaStreamId 1) (MkStreamGeneration 1) :: after /\
    after <> [] /\ forall r, Submitted r ∈ after -> generation_of (frame r) <> (MkMediaStreamId 1, MkStreamGeneration 1).
Proof.
  exists (take 1 (calls (sample_end sample_history).2)), (drop 2 (calls (sample_end sample_history).2)).
  assert (Hc : calls (sample_end sample_history).2 = take 1 (calls (sample_end sample_history).2) ++
    Retired (MkMediaStreamId 1) (MkStreamGeneration 1) :: drop 2 (calls (sample_end sample_history).2)) by (vm_compute; reflexivity).
  split; [exact Hc|]. split; [vm_compute; discriminate|].
  apply (source_retire _ _ _ _ _ _ sample_port Hc).
Defined.
