(* ===== verification/SourceQueues.v ===== *)
(** * Queues and silence of the encoded source

    The events that wait stay within their bound, and the order of surfaces names exactly
    the surfaces with events. A surface that was unmapped or destroyed is silent until
    something of it arrives. *)

From S2P Require Import Prelude.
From S2P Require Import Effects.
From S2P Require Import OrdMap.
From S2P Require Import Ids.
From S2P Require Import Surface.
From S2P Require Import Input.
From S2P Require Import Bitrate.
From S2P Require Import Activity.
From S2P Require Import Allocation.
From S2P Require Import Budget.
From S2P Require Import Scheduling.
From S2P Require Import Pacing.
From S2P Require Import Output.
From S2P Require Import Framing.
From S2P Require Import Commit.
From S2P Require Import PendingEvents.
From S2P Require Import Packets.
From S2P Require Import SourceState.
From S2P Require Import SourceFrames.

(** ** Waiting events *)
Lemma insert_event_keeps (Q : PendingEvent HoistSessionId ClientBufferLease -> Prop) session e i q :
  (forall b, Q (MkPendingEvent (session, e) b)) -> (forall m b, surface m = surface e -> is_commit m = true -> Q (MkPendingEvent (session, m) b)) ->
  Forall Q q -> Forall Q (insert_event session e i q).1.
Proof.
  intros He Hm Hq. assert (Happ : forall p q', Q p -> Forall Q q' -> Forall Q (q' ++ [p])).
  { intros. apply list.Forall_app. by split; [|constructor]. }
  unfold insert_event. destruct (replacement i) as [n|]; [|by apply Happ]. destruct (q !! n) as [p|]; [|by apply Happ].
  destruct (carry_event _ _) as [m|] eqn:Hc; [|by apply Happ; [|apply Forall_delete]].
  assert (Hk : surface m = surface e /\ is_commit m = true).
  { unfold carry_event in Hc. destruct (event_kind _); try done. destruct (event_kind e); try done. by injection Hc as <-. }
  destruct Hk as [K1 K2]. destruct (PendingEvents.barrier p); [by apply Forall_insert; [|apply Hm]|by apply Happ; [apply Hm|apply Forall_delete]].
Qed.

Section Queues.
Context {K In Cu Au : Type} {codec : EncodeBackend K In}.
Context {pending_visit : HashOrder ClientSurfaceId (PendingClientEvents HoistSessionId ClientBufferLease)}.
Context {stream_visit : HashOrder (ClientSurfaceId * SurfaceLayerId) SourceStream}.
Abbreviation state := (EncodedSourceState K In Cu Au).
Abbreviation M := (M (EncodedSourceState K In Cu Au)).
Abbreviation queue := (PendingClientEvents HoistSessionId ClientBufferLease).
Abbreviation packet := (SourceTransportPacket (HoistSessionId * SourceMessage Cu Au) (MediaEnvelope EncodedAccessUnit)).

(** ** Bounds *)
Definition total (m : gmap ClientSurfaceId queue) : nat := map_total length m.
Lemma total_delete m i : total m = (length (default [] (m !! i)) + total (delete i m))%nat.
Proof. unfold total. rewrite (map_total_delete length m i). by destruct (m !! i). Qed.
Lemma total_insert m i q : (total (<[i := q]> m) + length (default [] (m !! i)) = length q + total m)%nat.
Proof. pose proof (map_total_insert length m i q) as H. unfold total. by destruct (m !! i). Qed.

(** A replaced event is one that waits. *)
Lemma plan_event_within session (e : ClientSurfaceEvent ClientBufferLease) (q : queue) i :
  replacement (plan_event session e q) = Some i -> (i < length q)%nat.
Proof.
  unfold plan_event, plan. destruct (Kind_of (event_kind e)) as [m| |]; [| |done].
  - destruct (plan_commit _ _ _) as [o fl] eqn:Hp. cbn. intros ->. apply plan_commit_found in Hp as (a & p & b & old & -> & -> & _).
    rewrite length_app. cbn. lia.
  - destruct (plan_metadata _ _) as [o fl] eqn:Hp. cbn. intros ->. apply plan_metadata_found in Hp as (a & p & b & m & -> & -> & _).
    rewrite length_app. cbn. lia.
Qed.
Lemma insert_event_length session (e : ClientSurfaceEvent ClientBufferLease) (q : queue) :
  let i := plan_event session e q in
  length (insert_event session e i q).1 = match replacement i with None => S (length q) | Some _ => length q end.
Proof.
  intros i. unfold insert_event. destruct (replacement i) as [n|] eqn:Hn; [|cbn; rewrite length_app; cbn; lia].
  apply plan_event_within in Hn. destruct (lookup_lt_is_Some_2 q n Hn) as [p Hp]. rewrite Hp.
  pose proof (length_delete q n (mk_is_Some _ _ Hp)) as Hd.
  destruct (carry_event _ _) as [m|]; [destruct (PendingEvents.barrier p)|]; cbn; rewrite ?length_app, ?length_insert, ?Hd; cbn; lia.
Qed.
Lemma try_push_length session e limit (q q' : queue) u : try_push session e limit q = Some (q', u) ->
  (length q <= length q' <= Nat.max (length q) limit)%nat /\ (0 < length q')%nat.
Proof.
  unfold try_push. pose proof (insert_event_length session e q) as Hl. cbn in Hl.
  destruct (bool_decide (replacement _ = None)) eqn:Hr; cbn; [destruct (bool_decide (limit <= _)%nat) eqn:Hlim; [done|]|]; intros [= Hq]; rewrite Hq in Hl; cbn in Hl.
  - apply bool_decide_eq_true in Hr. apply bool_decide_eq_false in Hlim. rewrite Hr in Hl. lia.
  - apply bool_decide_eq_false in Hr. destruct (replacement _) as [n|] eqn:Hn; [|done]. apply plan_event_within in Hn. lia.
Qed.

Record Queues_ok (s : state) : Prop := {
  total_ok : (total (pending s) <= MAX_PENDING_SOURCE_EVENTS)%nat;
  order_distinct : NoDup (pending_order s);
  order_exact : forall sf, sf ∈ pending_order s <-> is_Some (pending s !! sf);
  queues_filled : forall sf q, pending s !! sf = Some q -> q <> [];
}.
Lemma same_queues_ok s s' : same_queues s s' -> Queues_ok s -> Queues_ok s'.
Proof. intros [Q1 Q2 Q3] []. constructor; rewrite ?Q1, ?Q2; done. Qed.
Lemma resized_ok (s : state) r : Queues_ok s -> Queues_ok (set_resizing r s).
Proof. intros []. by constructor. Qed.
(** A surface's queue goes, or another takes its place. *)
Lemma queue_gone (s s' : state) sf : Queues_ok s -> pending s' = delete sf (pending s) ->
  pending_order s' = filter (fun x => x <> sf) (pending_order s) -> Queues_ok s'.
Proof.
  intros [H1 H2 H3 H4] Hp Ho. constructor; rewrite ?Hp, ?Ho.
  - pose proof (total_delete (pending s) sf). lia.
  - by apply list.NoDup_filter.
  - intros i. rewrite list_elem_of_filter, H3, lookup_delete_is_Some. naive_solver.
  - intros i q [_ Hi]%lookup_delete_Some. by eapply H4.
Qed.
Lemma queue_put (s s' : state) sf q : Queues_ok s -> pending s' = <[sf := q]> (pending s) -> q <> [] ->
  (length q + total (delete sf (pending s)) <= MAX_PENDING_SOURCE_EVENTS)%nat ->
  NoDup (pending_order s') -> (forall i, i ∈ pending_order s' <-> i = sf \/ i ∈ pending_order s) -> Queues_ok s'.
Proof.
  intros [H1 H2 H3 H4] Hp Hq Ht Hnd Ho. constructor; rewrite ?Hp; [|done| |].
  - pose proof (total_insert (pending s) sf q). pose proof (total_delete (pending s) sf). lia.
  - intros i. rewrite Ho, H3, lookup_insert_is_Some. destruct (decide (sf = i)); naive_solver.
  - intros i r [[<- <-]|[_ Hi]]%lookup_insert_Some; [done|by eapply H4].
Qed.

Lemma queue_event_bounded session e : triple Queues_ok (queue_event session e : M unit) (fun _ => Queues_ok).
Proof.
  intros s s' [] H Hs. unfold queue_event in Hs. destruct (try_push _ _ _ _) as [[q u]|] eqn:Hp; [|done]. injection Hs as <-.
  apply try_push_length in Hp as [Hl Hq]. pose proof (total_delete (pending s) (surface e)) as Hd.
  assert (Ht : (length q + total (delete (surface e) (pending s)) <= MAX_PENDING_SOURCE_EVENTS)%nat).
  { unfold queue_of in Hl. change (pending_events s) with (total (pending s)) in Hl. pose proof (total_ok _ H). lia. }
  eapply (queue_put s _ (surface e) q); [done| | |done| |].
  - by case_bool_decide.
  - intros ->. cbn in Hq. lia.
  - case_bool_decide as Hn; cbn; [|apply H]. apply list.NoDup_app. split_and!; [apply H| |apply NoDup_singleton].
    intros i Hi ->%list_elem_of_singleton. apply (order_exact _ H) in Hi as [? Hi]. congruence.
  - intros i. case_bool_decide as Hn; cbn; [rewrite elem_of_app, list_elem_of_singleton; naive_solver|].
    split; [by right|]. intros [->|]; [|done]. apply (order_exact _ H). by apply not_eq_None_Some.
Qed.
Lemma apart_bounded {A} (m : M A) : always apart m -> triple Queues_ok m (fun _ => Queues_ok).
Proof. intros Hm. apply (triple_always apart); [done|]. intros s s' [_ H]. by apply same_queues_ok. Qed.
Lemma same_bounded {A} (m : M A) : always same_queues m -> triple Queues_ok m (fun _ => Queues_ok).
Proof. intros Hm. apply (triple_always same_queues); [done|]. intros s s'. by apply same_queues_ok. Qed.
(** Cancelling also when the queue went before. *)
Lemma cancel_encode_bounded sf now : triple (fun s : state => exists s0 : state, Queues_ok s0 /\ pending_order s = pending_order s0 /\
  delete sf (pending s) = delete sf (pending s0)) (cancel_encode sf now) (fun _ => Queues_ok).
Proof.
  intros s s' [] (s0 & H & Ho & Hp) Hs. unfold cancel_encode in Hs. apply run_bind in Hs as (s1 & u & [= <- _] & Hs).
  refine (same_bounded _ (quiet_same _ (retire_surface_quiet _ _)) _ _ _ _ Hs).
  destruct (mark_keeps sf (unqueue sf s)) as (_ & _ & _ & _ & Hq). eapply same_queues_ok; [exact Hq|].
  apply (queue_gone s0 _ sf H); cbn; [done|by rewrite Ho].
Qed.
Lemma cancel_surface_bounded sf now : triple Queues_ok (cancel_surface sf now : M unit) (fun _ => Queues_ok).
Proof.
  intros s s' a H Hs. unfold cancel_surface in Hs. apply run_bind in Hs as (s0 & u & [= <- _] & Hs).
  refine (cancel_encode_bounded _ _ _ _ _ _ Hs). by exists s.
Qed.
Lemma enqueue_bounded session e now : triple Queues_ok (enqueue session e now : M unit) (fun _ => Queues_ok).
Proof.
  intros s s' [] H Hs. unfold enqueue in Hs. apply run_bind in Hs as (s1 & [] & H1 & Hs).
  apply (apart_bounded _ (note_event_apart _ _ _) _ _ _ H) in H1. destruct (is_full_unmap e).
  - apply run_bind in Hs as (s2 & waiting & [-> ->]%run_gets & Hs). apply run_bind in Hs as (s2 & u & [= <- _] & Hs).
    apply run_bind in Hs as (s3 & [] & H3 & Hs). assert (H3' : Queues_ok s3).
    { refine (cancel_encode_bounded _ _ _ _ _ _ H3). exists s1. split; [done|]. split; [done|]. cbn. apply delete_delete_eq. }
    apply run_bind in Hs as (s4 & u4 & [= <- _] & Hs). apply run_bind in Hs as (s5 & [] & H5 & Hs).
    refine (same_bounded _ (send_without_buffer_queues _ _) _ _ _ _ Hs). refine (triple_for_each Queues_ok _ _ _ _ _ _ _ H5).
    + intros r _. unfold send_control. destruct (is_commit r.2); [by intros ? ? [] ? [= <-]|apply same_bounded, send_without_buffer_queues].
    + by apply (same_queues_ok s3).
  - apply run_bind in Hs as (s2 & busy & [-> ->]%run_gets & Hs).
    assert (Hother : (if surface_busy (surface e) s1 then queue_event session e else send_without_buffer session e) s1 = (s', Ret tt) ->
      Queues_ok s').
    { destruct (surface_busy _ _); intros Hrun; [exact (queue_event_bounded _ _ _ _ _ H1 Hrun)|].
      exact (same_bounded _ (send_without_buffer_queues _ _) _ _ _ H1 Hrun). }
    destruct (event_kind e) eqn:Hk; try (by apply Hother).
    + apply run_bind in Hs as (s2 & wait & [-> Hw]%run_gets & Hs). destruct wait; [exact (queue_event_bounded _ _ _ _ _ H1 Hs)|].
      exact (same_bounded _ (submit_or_send_queues _ _ _) _ _ _ H1 Hs).
    + apply run_bind in Hs as (s2 & [] & H2 & Hs). refine (same_bounded _ (send_without_buffer_queues _ _) _ _ _ _ Hs).
      exact (cancel_surface_bounded _ _ _ _ _ H1 H2).
Qed.
Lemma pop_bounded (s : state) sf p rest : pending s !! sf = Some (p :: rest) -> Queues_ok s -> Queues_ok (pop_surface sf rest s).
Proof.
  intros Hp H. unfold pop_surface. destruct rest as [|q rest]; [by eapply (queue_gone s _ sf)|].
  pose proof (total_delete (pending s) sf) as Hd. rewrite Hp in Hd. pose proof (total_ok _ H).
  eapply (queue_put s _ sf (q :: rest)); cbn in *; try done; [lia| |].
  - apply list.NoDup_app. split_and!; [by apply list.NoDup_filter, H| |apply NoDup_singleton].
    intros i [Hi _]%list_elem_of_filter Hi'%list_elem_of_singleton. done.
  - intros i. rewrite elem_of_app, list_elem_of_filter, list_elem_of_singleton. destruct (decide (i = sf)); naive_solver.
Qed.
Lemma schedule_loop_bounded now fuel (s s' : state) r : schedule_loop fuel now s = Some (s', r) -> Queues_ok s -> Queues_ok s'.
Proof.
  revert s. induction fuel as [|fuel IH]; intros s Hl H; [done|]. cbn [schedule_loop] in Hl.
  destruct (Scheduling.select _ _ _ _ _ _) as [sched chosen]. set (s1 := set_scheduler sched s) in Hl.
  assert (H1 : Queues_ok s1) by (by apply (same_queues_ok s)).
  destruct chosen as [sel|]; [|by injection Hl as <- _]. destruct (pending s1 !! sel_surface sel) as [[|p rest]|] eqn:Hp.
  - by destruct (queues_filled _ H1 _ _ Hp).
  - apply (pop_bounded _ _ _ _ Hp) in H1. destruct (submit_or_send_at _ _ _ _) as [s2 o] eqn:Hrun.
    pose proof (run_always _ _ _ _ _ (submit_or_send_queues _ _ _) Hrun) as Hq. apply (same_queues_ok _ _ Hq) in H1.
    destruct o as [[]| |]; [|by injection Hl as <- _..]. case_bool_decide as Hf; [|by eapply IH].
    injection Hl as <- _. by apply (same_queues_ok s2).
  - by injection Hl as <- _.
Qed.
Lemma port_step_bounded (x y : list packet * state) : port_step event_distinct x y -> Queues_ok x.2 -> Queues_ok y.2.
Proof.
  intros Hxy. destruct Hxy as [sent s s' session e now He Hs|sent s s' sf now Hs|sent s s' sf b Hs|sent s s' now Hs|sent s s' now Hs|sent s s' l Hs|sent s s' Ha];
    cbn in *; intros H.
  - exact (enqueue_bounded _ _ _ _ _ _ H Hs).
  - exact (cancel_surface_bounded _ _ _ _ _ H Hs).
  - injection Hs as <-. by apply resized_ok.
  - exact (same_bounded _ (drain_queues _) _ _ _ H Hs).
  - unfold schedule_at in Hs. destruct (admission_closed s); [by injection Hs as <-|]. by eapply schedule_loop_bounded.
  - injection Hs as <- _. by apply (same_queues_ok s).
  - destruct Ha as [_ Hq]. by apply (same_queues_ok s).
Qed.
(** Events of the surface wait. *)
Definition waits (s : state) (sf : ClientSurfaceId) : Prop := queue_of s sf <> [].
(** A source holds at most 128 waiting events. The order in which
    surfaces are tried names each surface with waiting events once, and no other. *)
Theorem source_bounds (sent : list packet) (s : state) (H : port_history sent s) :
  (pending_events s <= MAX_PENDING_SOURCE_EVENTS)%nat /\ NoDup (pending_order s) /\
  forall sf, sf ∈ pending_order s <-> waits s sf.
Proof.
  assert (Hq : Queues_ok s).
  { destruct H as (rt & c & limit & fallback & k & now & H). refine (rtc_ind_r (fun x => Queues_ok x.2) _ _ _ _ H).
    - constructor; cbn; [unfold total, map_total; rewrite map_to_list_empty; cbn; lia|by apply list.NoDup_nil| |done].
      intros sf. rewrite lookup_empty. split; [by intros ?%not_elem_of_nil|by intros []].
    - intros x y _ Hxy Hx. by eapply port_step_bounded. }
  split_and!; [exact (total_ok _ Hq)|apply Hq|]. intros sf. rewrite (order_exact _ Hq). unfold waits, queue_of.
  destruct (pending s !! sf) as [q|] eqn:Hp; cbn; [|by split; [intros [? ?]|]].
  split; [intros _; by eapply queues_filled|by eexists].
Qed.

(** ** Silence *)
(** Nothing of the surface waits, and its batch, if there is one, is cancelled. *)
Definition silent (sf : ClientSurfaceId) (s : state) : Prop :=
  pending s !! sf = None /\ forall b, in_flight s = Some b -> batch_surface b = sf -> cancelled b = true.
(** These packets are not about the surface. *)
Definition mute (sf : ClientSurfaceId) (l : list packet) : Prop :=
  forall session e, Control (session, SurfaceMessage e) ∈ l -> surface e <> sf.
(** A silent surface stays silent, and the output says nothing of it. *)
Record hush (sf : ClientSurfaceId) (s s' : state) : Prop := {
  hush_pending : pending s !! sf = None -> pending s' !! sf = None;
  hush_flight : forall b, in_flight s' = Some b -> batch_surface b = sf ->
    cancelled b = true \/ in_flight s = Some b;
  hush_output : exists l, output s' = output s ++ l /\ mute sf l;
}.
Lemma mute_nil sf : mute sf [].
Proof. by intros session e ?%not_elem_of_nil. Qed.
Lemma mute_app sf l k : mute sf l -> mute sf k -> mute sf (l ++ k).
Proof. intros Hl Hk session e [H|H]%elem_of_app; [by eapply Hl|by eapply Hk]. Qed.
#[local] Instance hush_po sf : PreOrder (hush sf).
Proof.
  split.
  - intros s. constructor; [done|by right|]. exists []. rewrite app_nil_r. split; [done|apply mute_nil].
  - intros a b c [P1 F1 (l & O1 & M1)] [P2 F2 (k & O2 & M2)]. constructor; [auto| |].
    + intros x Hx Hs. destruct (F2 x Hx Hs) as [|Hx']; [by left|]. by apply F1.
    + exists (l ++ k). rewrite O2, O1, app_assoc. split; [done|by apply mute_app].
Qed.
Lemma hush_silent sf s s' : hush sf s s' -> silent sf s -> silent sf s'.
Proof. intros [P F _] [Hp Hf]. split; [auto|]. intros b Hb Hs. destruct (F b Hb Hs) as [|Hb']; [done|]. by apply Hf. Qed.
Lemma silent_ext sf (s s' : state) : pending s' = pending s -> in_flight s' = in_flight s -> silent sf s -> silent sf s'.
Proof. intros Hp Hf. unfold silent. by rewrite Hp, Hf. Qed.
Lemma hush_ext sf (s s' : state) : (pending s !! sf = None -> pending s' !! sf = None) -> in_flight s' = in_flight s ->
  output s' = output s -> hush sf s s'.
Proof. intros Hp Hf Ho. constructor; [done|rewrite Hf; by right|]. exists []. rewrite app_nil_r. split; [done|apply mute_nil]. Qed.
Lemma quiet_hush sf {A} (m : M A) : always quiet m -> always (hush sf) m.
Proof. intros H s. destruct (H s) as [[Q _ _] F O]. apply hush_ext; [by rewrite Q|done..]. Qed.
Lemma apart_hush sf s s' : apart s s' -> hush sf s s'.
Proof. intros [[A1 A2 A3 A4 A5] [Q _ _]]. apply hush_ext; [by rewrite Q|done..]. Qed.

Lemma mute_control sf session e : surface e <> sf -> mute sf [Control (session, SurfaceMessage e)].
Proof. intros H ? ? [= -> ->]%list_elem_of_singleton. done. Qed.
Lemma mute_parcel sf session us e : surface e <> sf -> mute sf (parcel session us e).
Proof.
  intros H. apply mute_app; [|by apply mute_control]. intros ? ? (u & Hu & _)%list_elem_of_fmap. done.
Qed.
Lemma send_hush sf session (e : Event) : surface e <> sf -> always (hush sf) (send_without_buffer session e : M unit).
Proof.
  intros He s. unfold send_without_buffer, bind, lift. destruct (structural e) as [e'| |] eqn:Hs; [|done..].
  apply structural_frames in Hs as [_ Hs]. constructor; [done|by right|]. eexists. split; [done|]. by apply mute_control; rewrite Hs.
Qed.
Lemma queue_event_hush sf session (e : Event) : surface e <> sf -> always (hush sf) (queue_event session e : M unit).
Proof.
  intros He s. unfold queue_event. destruct (try_push _ _ _ _) as [[q u]|]; cbn.
  - apply hush_ext; [|by case_bool_decide..]. intros Hp. case_bool_decide; cbn; by rewrite lookup_insert_ne.
  - apply hush_ext; [|done..]. cbn. intros Hp. by rewrite lookup_insert_ne.
Qed.
Lemma mark_hush sf sf' (s : state) : hush sf s (mark_cancelled sf' (unqueue sf' s)).
Proof.
  destruct (mark_keeps sf' (unqueue sf' s)) as (_ & _ & _ & Ho & [Hp _ _]). constructor.
  - rewrite Hp. cbn. intros Hn. apply lookup_delete_None. by right.
  - unfold mark_cancelled. cbn [in_flight unqueue set_pending set_pending_order set_resizing].
    destruct (in_flight s) as [b|] eqn:Hb; [|cbn; by rewrite Hb]. case_bool_decide; cbn; [intros ? [= <-]; by left|rewrite Hb; by right].
  - exists []. rewrite app_nil_r. split; [exact Ho|apply mute_nil].
Qed.
Lemma cancel_encode_hush sf sf' now : always (hush sf) (cancel_encode sf' now : M unit).
Proof. apply always_bind; [apply _|intros s; apply mark_hush|intros _; apply quiet_hush, retire_surface_quiet]. Qed.
Lemma cancel_surface_hush sf sf' now : always (hush sf) (cancel_surface sf' now : M unit).
Proof. apply always_bind; [apply _|intros s; apply hush_ext; [by intros|reflexivity..]|intros _; apply cancel_encode_hush]. Qed.
Lemma submit_or_send_hush sf session (e : Event) now : surface e <> sf -> always (hush sf) (submit_or_send_at session e now : M unit).
Proof.
  intros He. unfold submit_or_send_at, submit_batch. apply always_bind; [apply _|by apply always_id; [apply _|]|intros _].
  apply always_bind; [apply _|apply quiet_hush, prepare_streams_quiet|intros _].
  destruct (event_kind e); try by apply send_hush. case_bool_decide; [by apply send_hush|].
  apply always_bind; [apply _| |intros _ s; apply hush_ext; [by intros|reflexivity..]]. apply always_bind; [apply _|by apply always_id; [apply _|]|intros cadence].
  apply always_bind; [apply _|apply quiet_hush, prepare_updates_quiet|]. intros [us [|first rest]]; [by apply always_id; [apply _|]|].
  apply always_bind; [apply _|apply quiet_hush, submit_prepared_quiet|]. intros job s. constructor; cbn; [done| |].
  - intros b [= <-] Hs. done.
  - exists []. rewrite app_nil_r. split; [done|apply mute_nil].
Qed.
Lemma complete_one_hush sent sf now c s s' : Source_ok sent s -> silent sf s -> complete_one now c s = (s', Ret tt) -> hush sf s s'.
Proof.
  intros H Hsil Hs. unfold complete_one in Hs. apply run_bind in Hs as (s1 & b & H1 & Hs). unfold take_in_flight in H1.
  destruct (in_flight s) as [b'|] eqn:Hb; [|done]. injection H1 as <- ->.
  apply run_bind in Hs as (s1 & u0 & [-> _]%run_lift & Hs). apply run_bind in Hs as (s2 & [] & H2 & Hs).
  assert (H12 : hush sf s s2).
  { etransitivity; [|exact (run_always _ _ _ _ _ (quiet_hush sf _ (apart_quiet _ (with_application_apart _ _ _))) H2)].
    constructor; cbn; [done|done|]. exists []. rewrite app_nil_r. split; [done|apply mute_nil]. }
  destruct (cancelled b) eqn:Hc.
  { etransitivity; [exact H12|exact (run_always _ _ _ _ _ (quiet_hush sf _ (retire_generation_quiet _ _)) Hs)]. }
  assert (Hsf : batch_surface b <> sf) by (intros Hsf; rewrite (proj2 Hsil b Hb Hsf) in Hc; done).
  apply run_bind in Hs as (s3 & u & [-> Hu]%run_lift & Hs). apply run_bind in Hs as (s3 & u1 & [-> _]%run_lift & Hs).
  apply run_bind in Hs as (s3 & u2 & [-> _]%run_lift & Hs). etransitivity; [exact H12|]. destruct (batch_pending b) as [|p ps].
  - apply run_bind in Hs as (s3 & u3 & [-> _]%run_lift & Hs). injection Hs as <-. constructor; cbn; [done|by right|].
    eexists. rewrite <- app_assoc. split; [done|]. apply (mute_parcel sf). by rewrite (proj1 (batch_ok _ _ H b Hb)).
  - apply run_bind in Hs as (s3 & job & H3 & Hs). injection Hs as <-.
    etransitivity; [exact (run_always _ _ _ _ _ (quiet_hush sf _ (submit_prepared_quiet _ _)) H3)|].
    constructor; cbn; [done|by intros b' [= <-]|]. exists []. rewrite app_nil_r. split; [done|apply mute_nil].
Qed.
Lemma drain_hush sent sf now s s' : Source_ok sent s -> silent sf s -> drain now s = (s', Ret tt) -> hush sf s s'.
Proof.
  intros H Hsil Hs. unfold drain in Hs. apply run_bind in Hs as (s1 & cs & H1 & Hs).
  destruct (drain_completions (backend s)) as [k xs]. injection H1 as <- <-. apply (drain_backend _ k) in H.
  apply (silent_ext _ _ (set_backend k s)) in Hsil; [|done..]. transitivity (set_backend k s); [by apply hush_ext|].
  revert Hs H Hsil. generalize (set_backend k s). clear s. induction xs as [|x xs IH]; intros s Hs H Hsil; [by injection Hs as <-|].
  apply run_bind in Hs as (s2 & [] & H2 & Hs). pose proof (complete_one_hush _ _ _ _ _ _ H Hsil H2) as Hh.
  etransitivity; [exact Hh|]. apply IH; [done|exact (complete_one_ok _ _ _ _ _ _ H H2)|by eapply hush_silent].
Qed.
Lemma drop_hush sf sf' (s : state) : hush sf s (set_pending (delete sf' (pending s)) s).
Proof. apply hush_ext; [|done..]. cbn. intros H. apply lookup_delete_None. by right. Qed.
Lemma pop_hush sf sf' rest (s : state) : sf' <> sf -> hush sf s (pop_surface sf' rest s).
Proof.
  intros Hne. unfold pop_surface. destruct rest; (apply hush_ext; [|done..]); cbn; [|by rewrite lookup_insert_ne].
  intros H. apply lookup_delete_None. by right.
Qed.
Lemma schedule_loop_hush sent sf now fuel s s' : schedule_loop fuel now s = Some (s', Ret tt) ->
  Source_ok sent s -> in_flight s = None -> silent sf s -> hush sf s s'.
Proof.
  revert s. induction fuel as [|fuel IH]; intros s Hl H Hi Hsil; [done|]. cbn [schedule_loop] in Hl.
  destruct (Scheduling.select _ _ _ _ _ _) as [sched chosen]. set (s1 := set_scheduler sched s) in Hl.
  assert (H1 : Source_ok sent s1) by (revert H; apply source_ext; by repeat split).
  assert (H01 : hush sf s s1) by by apply hush_ext. transitivity s1; [done|]. apply (hush_silent _ _ _ H01) in Hsil.
  destruct chosen as [sel|]; [|by injection Hl as <-]. destruct (pending s1 !! sel_surface sel) as [[|p rest]|] eqn:Hp.
  - etransitivity; [apply drop_hush|]. eapply IH; [done|by apply drop_pending_ok|done|]. eapply hush_silent; [apply drop_hush|done].
  - destruct (pop_ok _ _ _ _ _ Hp H1) as [H2 [Hd Hps]].
    assert (Hne : sel_surface sel <> sf) by (intros Heq; rewrite Heq, (proj1 Hsil) in Hp; done).
    pose proof (pop_hush _ _ rest s1 Hne) as H12. apply (hush_silent _ _ _ H12) in Hsil.
    destruct (submit_or_send_at _ _ _ _) as [s2 [[]| |]] eqn:Hrun; [|done..].
    pose proof (submit_or_send_ok _ _ _ _ Hd _ _ _ (conj H2 (eq_trans (pop_flight s1 _ _) Hi)) Hrun) as H3.
    pose proof (run_always _ _ _ _ _ (submit_or_send_hush sf _ _ _ (eq_ind_r (fun x => x <> sf) Hne Hps)) Hrun) as H23.
    apply (hush_silent _ _ _ H23) in Hsil. etransitivity; [exact H12|]. etransitivity; [exact H23|].
    case_bool_decide as Hf; [injection Hl as <-; by apply hush_ext|]. eapply IH; [done..| |done]. by apply eq_None_not_Some.
  - by injection Hl as <-.
Qed.
Lemma enqueue_hush sent sf session e now s s' : surface e <> sf -> event_distinct e -> Source_ok sent s ->
  enqueue session e now s = (s', Ret tt) -> hush sf s s'.
Proof.
  intros Hne He H Hs. unfold enqueue in Hs. apply run_bind in Hs as (s1 & [] & H1 & Hs).
  apply (run_always _ _ _ _ _ (note_event_apart _ _ _)) in H1. apply (apart_source sent _ _ H1) in H.
  apply (apart_hush sf) in H1. etransitivity; [exact H1|]. clear H1. destruct (is_full_unmap e).
  - apply run_bind in Hs as (s2 & waiting & [-> ->]%run_gets & Hs). apply run_bind in Hs as (s2 & u & [= <- _] & Hs).
    etransitivity; [apply drop_hush|]. apply run_bind in Hs as (s3 & [] & H3 & Hs).
    etransitivity; [exact (run_always _ _ _ _ _ (cancel_encode_hush sf _ _) H3)|]. apply run_bind in Hs as (s4 & u4 & [= <- _] & Hs).
    transitivity (set_pacing (Pacing.reset (surface e) (pacing s3)) s3); [by apply hush_ext|]. apply run_bind in Hs as (s5 & [] & H5 & Hs).
    etransitivity; [|exact (run_always _ _ _ _ _ (send_hush sf _ _ Hne) Hs)].
    pose proof (queue_of_ok _ _ (surface e) H) as Hq. unfold records in H5. revert H5. generalize (set_pacing (Pacing.reset (surface e) (pacing s3)) s3).
    induction Hq as [|p q [_ Hps] _ IH]; intros s6 H5; [by injection H5 as <-|]. cbn in H5. apply run_bind in H5 as (s7 & [] & H7 & H5).
    etransitivity; [|by apply IH]. unfold send_control in H7. destruct (is_commit _); [by injection H7 as <-|].
    eapply run_always; [|exact H7]. apply send_hush. by rewrite Hps.
  - apply run_bind in Hs as (s2 & busy & [-> ->]%run_gets & Hs).
    assert (Hother : (if surface_busy (surface e) s1 then queue_event session e else send_without_buffer session e) s1 = (s', Ret tt) ->
      hush sf s1 s').
    { destruct (surface_busy _ _); intros Hrun; (eapply run_always; [|exact Hrun]); [by apply queue_event_hush|by apply send_hush]. }
    destruct (event_kind e) eqn:Hk; try (by apply Hother).
    + apply run_bind in Hs as (s2 & wait & [-> Hw]%run_gets & Hs).
      destruct wait; (eapply run_always; [|exact Hs]); [by apply queue_event_hush|by apply submit_or_send_hush].
    + apply run_bind in Hs as (s2 & [] & H2 & Hs). etransitivity; [exact (run_always _ _ _ _ _ (cancel_surface_hush sf _ _) H2)|].
      eapply run_always; [|exact Hs]. by apply send_hush.
Qed.
Lemma port_step_hush sf (x y : list packet * state) :
  port_step (fun e => event_distinct e /\ surface e <> sf) x y -> Source_ok x.1 x.2 -> silent sf x.2 ->
  silent sf y.2 /\ exists l, y.1 ++ output y.2 = (x.1 ++ output x.2) ++ l /\ mute sf l.
Proof.
  intros Hxy H Hsil. assert (Hhush : forall sent s s', hush sf s s' -> silent sf s ->
    silent sf s' /\ exists l, sent ++ output s' = (sent ++ output s) ++ l /\ mute sf l).
  { intros sent s s' Hh Hq. split; [by eapply hush_silent|]. destruct Hh as [_ _ (l & -> & Hl)]. exists l. by rewrite app_assoc. }
  destruct Hxy as [sent s s' session e now [He Hne] Hs|sent s s' sf' now Hs|sent s s' sf' b Hs|sent s s' now Hs|sent s s' now Hs|sent s s' l Hs|sent s s' Ha];
    cbn in *.
  - apply Hhush; [by eapply enqueue_hush|done].
  - apply Hhush; [exact (run_always _ _ _ _ _ (cancel_surface_hush sf _ _) Hs)|done].
  - injection Hs as <-. by apply Hhush; [apply hush_ext|].
  - apply Hhush; [by eapply drain_hush|done].
  - apply Hhush; [|done]. unfold schedule_at in Hs. destruct (admission_closed s) eqn:Hc; [by injection Hs as <-|].
    eapply schedule_loop_hush; [done..|by apply admission_idle|done].
  - injection Hs as <- <-. split; [done|]. exists []. rewrite !app_nil_r. split; [done|apply mute_nil].
  - apply Hhush; [by apply apart_hush|done].
Qed.
Lemma port_steps_hush sf (x y : list packet * state) :
  rtc (port_step (fun e => event_distinct e /\ surface e <> sf)) x y -> Source_ok x.1 x.2 -> silent sf x.2 ->
  exists l, y.1 ++ output y.2 = (x.1 ++ output x.2) ++ l /\ mute sf l.
Proof.
  induction 1 as [x|x y z Hxy _ IH]; intros H Hsil; [exists []; rewrite app_nil_r; split; [done|apply mute_nil]|].
  destruct (port_step_hush sf _ _ Hxy H Hsil) as [Hy (l & Hl & Hm)].
  destruct IH as (k & Hk & Hmk); [|done|].
  - eapply port_step_ok; [|exact H]. by eapply port_step_weaken; [|exact Hxy]; intros e [].
  - exists (l ++ k). rewrite Hk, Hl, app_assoc. split; [done|by apply mute_app].
Qed.

(** What a cancelled surface leaves. *)
Definition cleared (sf : ClientSurfaceId) (s : state) : Prop := silent sf s /\ forall l, streams s !! (sf, l) = None.
Lemma cleared_ext sf (s s' : state) : pending s' = pending s -> in_flight s' = in_flight s -> streams s' = streams s -> cleared sf s -> cleared sf s'.
Proof. intros Hp Hf Hs [H1 H2]. split; [by eapply silent_ext|by rewrite Hs]. Qed.
Lemma retire_streams_keep l (s s' : state) o : retire_streams l s = (s', o) -> streams s' = streams s.
Proof.
  revert s. induction l as [|x l IH]; intros s Hs; [by injection Hs as <-|]. unfold retire_streams in Hs. cbn [for_each] in Hs.
  unfold bind at 1 2 in Hs. destruct (with_rates _ s) as [s1 o1] eqn:H1. pose proof (run_always _ _ _ _ _ (with_rates_apart _) H1) as [A _].
  rewrite <- (aside_streams _ _ A). destruct o1 as [a| |]; [|by injection Hs as <-..].
  destruct (retire_generation_keeps (stream x) (generation x) s1) as [K1 _]. destruct (retire_generation _ _ s1) as [s2 o2].
  cbn in K1. rewrite <- K1. destruct o2 as [u| |]; [by eapply IH|by injection Hs as <-..].
Qed.
Lemma cancel_encode_clears sf now s s' : cancel_encode sf now s = (s', Ret tt) -> cleared sf s' /\ output s' = output s.
Proof.
  intros Hs. unfold cancel_encode in Hs. apply run_bind in Hs as (s0 & u & [= <- _] & Hs).
  destruct (mark_keeps sf (unqueue sf s)) as (_ & _ & _ & Ho & [Hp _ _]). pose proof (mark_flight sf (unqueue sf s)) as Hf.
  set (s0 := mark_cancelled sf _) in *. pose proof (run_always _ _ _ _ _ (retire_surface_quiet _ _) Hs) as [[Q _ _] F O].
  split; [split; [split|]|by rewrite O].
  - rewrite Q, Hp. apply lookup_delete_eq.
  - rewrite F. cbn in Hf. intros b Hb Hbs. destruct (in_flight s) as [b0|]; cbn in Hf; [|congruence].
    destruct Hf as [[Hb0 Hg]|[Hb0 _]]; rewrite Hb0 in Hb; injection Hb as <-; [|done]. specialize (Hg (MkSurfaceLayerId 0)).
    by apply bool_decide_eq_false in Hg.
  - intros l. unfold retire_surface_streams in Hs. apply run_bind in Hs as (s1 & xs & H1 & Hs). injection H1 as <- _.
    apply run_bind in Hs as (s2 & [] & H2 & Hs). destruct (run_always _ _ _ _ _ (update_budget_apart _ _) Hs) as [A _].
    rewrite (aside_streams _ _ A), (retire_streams_keep _ _ _ _ H2). cbn. apply map_lookup_filter_None. right.
    intros x _. cbn. by rewrite bool_decide_true.
Qed.

(** A record and the control it is sent as. *)
Definition sent_as (r : HoistSessionId * Event) (p : packet) : Prop :=
  exists e', structural r.2 = Ret e' /\ p = Control (r.1, SurfaceMessage e').
(** The controls among records. *)
Definition plain (rs : list (HoistSessionId * Event)) : list (HoistSessionId * Event) := filter (fun r => is_commit r.2 = false) rs.
(** What goes out before an event that ends a surface: the controls that waited, if it is an
    unmap; a destruction drops them. *)
Definition last_words (e : Event) (s : state) : list (HoistSessionId * Event) :=
  if is_full_unmap e then plain (records (queue_of s (surface e))) else [].
Lemma send_cleared sf session (e : Event) (s s' : state) : cleared sf s -> send_without_buffer session e s = (s', Ret tt) ->
  cleared sf s' /\ exists e', structural e = Ret e' /\ output s' = output s ++ [Control (session, SurfaceMessage e')].
Proof.
  intros H Hs. unfold send_without_buffer in Hs. apply run_bind in Hs as (s0 & e' & [-> He]%run_lift & Hs). injection Hs as <-.
  split; [by eapply cleared_ext|]. by exists e'.
Qed.
Lemma send_controls_cleared sf rs (s s' : state) : cleared sf s -> for_each send_control rs s = (s', Ret tt) ->
  cleared sf s' /\ exists l, output s' = output s ++ l /\ Forall2 sent_as (plain rs) l.
Proof.
  revert s. induction rs as [|r rs IH]; intros s H Hs.
  { injection Hs as <-. split; [done|]. exists []. rewrite app_nil_r. by split; [|constructor]. }
  cbn in Hs. apply run_bind in Hs as (s1 & [] & H1 & Hs). unfold send_control in H1. unfold plain. rewrite filter_cons.
  destruct (is_commit r.2) eqn:Hc.
  - injection H1 as <-. by apply IH.
  - destruct (send_cleared _ _ _ _ _ H H1) as [H1' (e' & He & Ho)]. destruct (IH _ H1' Hs) as [Hc' (l & Hl & Hp)].
    split; [done|]. exists (Control (r.1, SurfaceMessage e') :: l). rewrite Hl, Ho, <- app_assoc. split; [done|].
    constructor; [by exists e'|done].
Qed.
Lemma enqueue_clears session (e : Event) now (s s' : state) :
  is_full_unmap e = true \/ event_kind e = Destroyed -> enqueue session e now s = (s', Ret tt) ->
  cleared (surface e) s' /\ exists l e', structural e = Ret e' /\ Forall2 sent_as (last_words e s) l /\
    output s' = output s ++ l ++ [Control (session, SurfaceMessage e')].
Proof.
  intros Hgone Hs. unfold enqueue in Hs. apply run_bind in Hs as (s1 & [] & H1 & Hs).
  destruct (run_always _ _ _ _ _ (note_event_apart _ _ _) H1) as [[_ _ Ho1 _ _] [Hq1 _ _]]. rewrite <- Ho1.
  assert (Hw : last_words e s = last_words e s1) by (unfold last_words, queue_of; by rewrite Hq1). rewrite Hw. clear H1 Hw. unfold last_words.
  destruct (is_full_unmap e) eqn:Hu.
  - apply run_bind in Hs as (s2 & waiting & [-> ->]%run_gets & Hs). apply run_bind in Hs as (s2 & u & [= <- _] & Hs).
    apply run_bind in Hs as (s3 & [] & H3 & Hs). apply cancel_encode_clears in H3 as [H3 Ho3].
    apply run_bind in Hs as (s4 & u4 & [= <- _] & Hs). apply run_bind in Hs as (s5 & [] & H5 & Hs).
    destruct (send_controls_cleared (surface e) _ _ _ (cleared_ext _ _ (set_pacing (Pacing.reset (surface e) (pacing s3)) s3) eq_refl eq_refl eq_refl H3) H5) as [Hc (l & Hl & Hp)].
    destruct (send_cleared _ _ _ _ _ Hc Hs) as [Hc' (e' & He & Ho)]. split; [done|]. exists l, e'. split_and!; [done..|].
    rewrite Ho, Hl, <- app_assoc. cbn. by rewrite Ho3.
  - destruct Hgone as [|Hd]; [done|]. apply run_bind in Hs as (s2 & busy & [-> _]%run_gets & Hs). rewrite Hd in Hs.
    apply run_bind in Hs as (s2 & [] & H2 & Hs). unfold cancel_surface in H2. apply run_bind in H2 as (s3 & u & [= <- _] & H2).
    apply cancel_encode_clears in H2 as [H2 Ho2]. destruct (send_cleared _ _ _ _ _ H2 Hs) as [Hc' (e' & He & Ho)]. split; [done|].
    exists [], e'. split_and!; [done|constructor|]. by rewrite Ho, Ho2.
Qed.
Lemma last_words_own sent e s : Source_ok sent s -> Forall (fun r => surface r.2 = surface e /\ is_commit r.2 = false) (last_words e s).
Proof.
  intros H. unfold last_words. destruct (is_full_unmap e); [|constructor]. pose proof (queue_of_ok _ _ (surface e) H) as Hq.
  apply list.Forall_forall. intros r [Hc (p & -> & Hp)%list_elem_of_fmap]%list_elem_of_filter.
  rewrite list.Forall_forall in Hq. by destruct (Hq p Hp).
Qed.
(** C21 (source-silence). When a surface is unmapped without buffers, or destroyed, its
    streams are gone. Before an unmap go out, in their order and each under its own session,
    exactly the controls of that surface that waited, and none of the commits; a destruction
    drops them all. Then the unmap or destruction itself goes out, and from then on, whatever
    happens to other surfaces and whatever the encoder still finishes, nothing of the surface
    is published. *)
Theorem source_silence (sent sent' : list packet) (s s1 s2 : state) (session : HoistSessionId) (e : Event) (now : instant)
    (H : port_history sent s) (He : event_distinct e) (Hgone : is_full_unmap e = true \/ event_kind e = Destroyed)
    (Hrun : enqueue session e now s = (s1, Ret tt))
    (Hlater : rtc (port_step (fun e' => event_distinct e' /\ surface e' <> surface e)) (sent, s1) (sent', s2)) :
  (forall l, streams s1 !! (surface e, l) = None) /\
  Forall (fun r => surface r.2 = surface e /\ is_commit r.2 = false) (last_words e s) /\
  (exists l e', structural e = Ret e' /\ Forall2 sent_as (last_words e s) l /\
    output s1 = output s ++ l ++ [Control (session, SurfaceMessage e')]) /\
  exists l, sent' ++ output s2 = (sent ++ output s1) ++ l /\ mute (surface e) l.
Proof.
  apply history_ok in H. destruct (enqueue_clears _ _ _ _ _ Hgone Hrun) as [[Hsil Hst] Hout]. split_and!; [done|by eapply last_words_own|done|].
  exact (port_steps_hush _ _ _ Hlater (enqueue_ok _ _ _ _ He _ _ _ H Hrun) Hsil).
Qed.
End Queues.

(** ** A surface is unmapped while its frame is encoded *)
Definition sample_busy : list action := [Arrive (sample_show 1 1 100) 0; Arrive (sample_show 2 1 100) 0].
Lemma sample_busy_distinct : Forall (arrives event_distinct) sample_busy.
Proof. by repeat (apply List.Forall_cons; [first [apply sample_show_distinct|done]|]). Qed.
Lemma sample_busy_history : port_history (sample_end sample_busy).1 (sample_end sample_busy).2.
Proof. apply (run_history _ _ _ sample_busy_distinct). vm_compute. reflexivity. Qed.
Lemma source_bounds_witness :
  pending_events (sample_end sample_busy).2 = 1%nat /\ pending_order (sample_end sample_busy).2 = [ClientSurfaceId_for_test 2] /\
  (pending_events (sample_end sample_busy).2 <= MAX_PENDING_SOURCE_EVENTS)%nat.
Proof.
  split; [vm_compute; reflexivity|]. split; [vm_compute; reflexivity|].
  apply (source_bounds (sample_end sample_busy).1 (sample_end sample_busy).2 sample_busy_history).
Defined.
Definition sample_unmap : Event :=
  MkClientSurfaceEvent (ClientSurfaceId_for_test 1) (Commit (MkClientSurfaceState 2 Preserved false None None [] [] [])).
(** Surface 1 asked for the whole screen while its frame was encoded. *)
Definition sample_ask : Event := MkClientSurfaceEvent (ClientSurfaceId_for_test 1) (StateRequest (Fullscreen true)).
Definition sample_asked : list action := sample_busy ++ [Arrive sample_ask 0].
Lemma sample_asked_history : port_history (sample_end sample_asked).1 (sample_end sample_asked).2.
Proof. apply (run_history sample_asked); [by repeat (apply List.Forall_cons; [first [apply sample_show_distinct|done]|])|]. vm_compute. reflexivity. Qed.
Definition sample_unmapped : sample_state := (enqueue sample_session sample_unmap 0 (sample_end sample_asked).2).1.
Definition sample_later : list action := [Drain 0; Take; Schedule 0; Drain 0].
Definition sample_silent : list sample_packet * sample_state :=
  default sample_start (run sample_later ((sample_end sample_asked).1, sample_unmapped)).
Lemma sample_later_runs : run sample_later ((sample_end sample_asked).1, sample_unmapped) = Some (sample_silent.1, sample_silent.2).
Proof. vm_compute. reflexivity. Qed.
(** The other surface's frame is published, the unmapped one's is not. *)
Lemma source_silence_witness :
  media_frames (sample_silent.1 ++ output sample_silent.2) = [MkMediaFrameId (MkMediaStreamId 2) (MkStreamGeneration 1) 0] /\
  last_words sample_unmap (sample_end sample_asked).2 = [(sample_session, sample_ask)] /\
  exists l, sample_silent.1 ++ output sample_silent.2 = ((sample_end sample_asked).1 ++ output sample_unmapped) ++ l /\
    mute (ClientSurfaceId_for_test 1) l.
Proof.
  split; [vm_compute; reflexivity|]. split; [vm_compute; reflexivity|].
  apply (source_silence _ _ (sample_end sample_asked).2 sample_unmapped sample_silent.2 sample_session sample_unmap 0 sample_asked_history).
  - cbn. apply NoDup_nil_2.
  - left. reflexivity.
  - vm_compute. reflexivity.
  - apply (run_steps _ sample_later); [|exact sample_later_runs]. by repeat (apply List.Forall_cons; [done|]).
Defined.
