(* ===== verification/Audio.v ===== *)
(** * Audio ([weld-media/src/audio.rs], [weld-audio/src/playback.rs], [weld-hoist-encoded/src/audio.rs])

    Captured packets carry the source's clock. The receiving queue ([SampleQueue]) keeps the
    newest ones in order and renders them at their time, with silence in the gaps. The two
    ends of a hoist ([Source] and [Destination]) tie captures and playbacks to the mapped
    surfaces. The audio system's captures and playbacks are interfaces. *)

From S2P Require Import Prelude.
From S2P Require Import Effects.
From S2P Require Import OrdMap.
From S2P Require Import Ids.
From S2P Require Import Commit.
From S2P Require Import Packets.

Lemma size_insert_le {K V} `{Countable K} (m : gmap K V) i x : (size (<[i := x]> m) <= S (size m))%nat.
Proof. rewrite map_size_insert. destruct (m !! i); cbn; unfold id; lia. Qed.

Definition SAMPLE_RATE : Z := 48000.
Definition FRAME_BYTES : nat := 4.
Definition MAX_PACKET_BYTES : Z := 32768.
Record AudioPacket := MkAudioPacket { packet_stream : Z; packet_micros : Z; packet_samples : list Z }.
Definition is_valid (p : AudioPacket) : bool :=
  (packet_micros p <=? u64_max / SAMPLE_RATE - 1000000)
  && negb (bool_decide (packet_samples p = []))
  && (Z.of_nat (length (packet_samples p)) <=? MAX_PACKET_BYTES)
  && bool_decide (length (packet_samples p) mod FRAME_BYTES = 0)%nat.

(** ** The queue of a playback *)
Module SampleQueue.
Record SampleQueue := MkSampleQueue {
  packets : list AudioPacket;
  sample : option Z;
  waiting_since : option instant;
}.
Definition SampleQueue_default : SampleQueue := MkSampleQueue [] None None.
Definition queued_bytes (ps : list AudioPacket) : nat := sum_list_with (fun p => length (packet_samples p)) ps.
(** 160 ms of samples. *)
Definition MAX_QUEUED_BYTES : Z := SAMPLE_RATE * Z.of_nat FRAME_BYTES * 160 / 1000.
Definition MAX_QUEUED_PACKETS : nat := 128.
(** The [while] loop of [push]: it ends with the queue empty, or with room. *)
Fixpoint make_room (bytes : nat) (ps : list AudioPacket) (at_sample : option Z) : list AudioPacket * option Z :=
  if Z.of_nat (queued_bytes ps + bytes) <=? MAX_QUEUED_BYTES then (ps, at_sample)
  else match ps with
       | [] => ([], at_sample)
       | _ :: ps => make_room bytes ps None
       end.
(** [sort_by_key], which is stable. *)
Fixpoint insert_packet (p : AudioPacket) (ps : list AudioPacket) : list AudioPacket :=
  match ps with
  | [] => [p]
  | q :: rest => if packet_micros p <=? packet_micros q then p :: ps else q :: insert_packet p rest
  end.
Definition sort_packets (ps : list AudioPacket) : list AudioPacket := foldr insert_packet [] ps.
(** [SampleQueue::push] *)
Definition push (now : instant) (p : AudioPacket) (q : SampleQueue) : SampleQueue :=
  if negb (is_valid p) then q
  else
    let waiting := Some (default now (waiting_since q)) in
    let '(ps, at_sample) := make_room (length (packet_samples p)) (packets q) (sample q) in
    let '(ps, at_sample) := if bool_decide (MAX_QUEUED_PACKETS <= length ps)%nat then (tail ps, None) else (ps, at_sample) in
    MkSampleQueue (sort_packets (ps ++ [p])) at_sample waiting.

(** [SampleQueue::render_at]. A frame of silence, a frame's bytes. *)
Definition silence (frames : nat) : list Z := replicate (FRAME_BYTES * frames) 0.
Definition first_sample (p : AudioPacket) : outcome Z :=
  scaled ← exact u64_max (packet_micros p * SAMPLE_RATE);
  rounded ← exact u64_max (scaled + 500000);
  Ret (rounded / 1000000).
(** One frame, with [remaining] frames to go: the inner loop, over the packets that are left.
    Without packets the rest stays silent, and a clock that runs goes on. *)
Fixpoint next_frame (ps : list AudioPacket) (at_sample : option Z) (remaining : nat) : outcome (option (list Z) * (list AudioPacket * option Z)) :=
  match ps with
  | [] =>
      match at_sample with
      | Some s => s ← exact u64_max (s + Z.of_nat remaining); Ret (None, ([], Some s))
      | None => Ret (None, ([], None))
      end
  | p :: rest =>
      start ← first_sample p;
      let s := default start at_sample in
      if s <? start then
        next ← exact u64_max (s + 1); Ret (Some (silence 1), (ps, Some next))
      else
        offset ← exact u64_max ((s - start) * Z.of_nat FRAME_BYTES);
        if bool_decide (sat_add offset (Z.of_nat FRAME_BYTES) <= Z.of_nat (length (packet_samples p))) then
          next ← exact u64_max (s + 1); Ret (Some (take FRAME_BYTES (drop (Z.to_nat offset) (packet_samples p))), (ps, Some next))
        else next_frame rest (Some s) remaining
  end.
Fixpoint render_frames (n : nat) (ps : list AudioPacket) (at_sample : option Z) : outcome (list Z * (list AudioPacket * option Z)) :=
  match n with
  | O => Ret ([], (ps, at_sample))
  | S remaining =>
      turn ← next_frame ps at_sample n;
      match turn.1 with
      | None => Ret (silence n, turn.2)
      | Some frame => rest ← render_frames remaining turn.2.1 turn.2.2; Ret (frame ++ rest.1, rest.2)
      end
  end.
Definition waits (now : instant) (q : SampleQueue) : bool :=
  bool_decide (sample q = None) && (Z.of_nat (queued_bytes (packets q)) <? 1920 * Z.of_nat FRAME_BYTES)
  && is_none_or (waiting_since q) (fun started => since now started <? 40 * 1000000).
Definition render_at (bytes : nat) (now : instant) (q : SampleQueue) : outcome (list Z * SampleQueue) :=
  if waits now q then Ret (replicate bytes 0, q)
  else
    rendered ← render_frames (bytes / FRAME_BYTES) (packets q) (sample q);
    Ret (rendered.1 ++ replicate (bytes mod FRAME_BYTES) 0, MkSampleQueue rendered.2.1 rendered.2.2 (waiting_since q)).

(** *** What is heard *)
Definition first (p : AudioPacket) : Z := (packet_micros p * SAMPLE_RATE + 500000) / 1000000.
Definition ends (p : AudioPacket) : Z := first p + Z.of_nat (length (packet_samples p) / FRAME_BYTES).
Definition covers (t : Z) (p : AudioPacket) : Prop := first p <= t < ends p.
Definition frame_at (t : Z) (p : AudioPacket) : list Z := take FRAME_BYTES (drop (Z.to_nat (t - first p) * FRAME_BYTES) (packet_samples p)).
(** The frame at a time: of the first packet that covers it, or silence. *)
Definition heard (ps : list AudioPacket) (t : Z) : list Z :=
  match list_find (covers t) ps with Some (_, p) => frame_at t p | None => silence 1 end.
(** A queued packet: a [u64] timestamp that passed the check of [push], and the order. *)
Definition fit (p : AudioPacket) : Prop := 0 <= packet_micros p /\ is_valid p = true.
Definition earlier (p q : AudioPacket) : Prop := packet_micros p <= packet_micros q.
Record Queue_ok (q : SampleQueue) : Prop := {
  ok_fit : Forall fit (packets q);
  ok_sorted : StronglySorted earlier (packets q);
  ok_bytes : Z.of_nat (queued_bytes (packets q)) <= MAX_QUEUED_BYTES \/ length (packets q) = 1%nat;
  ok_count : (length (packets q) <= MAX_QUEUED_PACKETS)%nat;
  ok_clock : forall s, sample q = Some s -> 0 <= s;
}.
(** No clock runs so far: a million years of samples. *)
Definition LAST_SAMPLE : Z := 2 ^ 60.
Lemma LAST_SAMPLE_val : LAST_SAMPLE * 16 = 18446744073709551616. Proof. reflexivity. Qed.

Lemma fit_bounds p : fit p -> packet_micros p * SAMPLE_RATE + 500000 <= u64_max /\ packet_samples p <> [] /\
  exists k, length (packet_samples p) = (k * FRAME_BYTES)%nat.
Proof.
  intros [H0 [[[H1%Z.leb_le H2%negb_true_iff%bool_decide_eq_false]%andb_true_iff _]%andb_true_iff H3%bool_decide_eq_true]%andb_true_iff].
  split; [|split; [done|]].
  - unfold SAMPLE_RATE in *. pose proof (Z.mul_div_le u64_max 48000). lia.
  - apply Nat.Div0.div_exact in H3. exists (length (packet_samples p) / FRAME_BYTES)%nat. lia.
Qed.
Lemma first_sample_fit p : fit p -> first_sample p = Ret (first p).
Proof.
  intros H. pose proof (fit_bounds p H) as [Hb _]. destruct H as [H0 _]. unfold first_sample.
  rewrite exact_ret by (unfold SAMPLE_RATE in *; lia). cbn. by rewrite exact_ret by (unfold SAMPLE_RATE in *; lia).
Qed.
Lemma first_nonneg p : fit p -> 0 <= first p.
Proof. intros [H0 _]. unfold first. apply Z.div_pos; unfold SAMPLE_RATE; lia. Qed.
Lemma first_mono p q : earlier p q -> first p <= first q.
Proof. unfold earlier, first, SAMPLE_RATE. intros H. apply Z.div_le_mono; lia. Qed.
Lemma first_lt_ends p : fit p -> first p < ends p.
Proof.
  intros H. pose proof (fit_bounds p H) as (_ & Hn & k & Hk). unfold ends. rewrite Hk, Nat.div_mul by done.
  destruct k; [|lia]. by destruct (packet_samples p).
Qed.

(** Packets that ended by a time are dropped from the front. *)
Fixpoint drop_ended (t : Z) (ps : list AudioPacket) : list AudioPacket :=
  match ps with
  | [] => []
  | p :: rest => if ends p <=? t then drop_ended t rest else ps
  end.
Lemma drop_ended_suffix t ps : exists before, ps = before ++ drop_ended t ps /\ Forall (fun p => ends p <= t) before.
Proof.
  induction ps as [|p ps [b [Hb Hf]]]; cbn; [by exists []|]. destruct (Z.leb_spec (ends p) t).
  - exists (p :: b). cbn. rewrite <- Hb. split; [done|by constructor].
  - by exists [].
Qed.
Lemma heard_skip before ps t : Forall (fun p => ends p <= t) before -> heard (before ++ ps) t = heard ps t.
Proof.
  induction 1 as [|p before Hp _ IH]; [done|]. rewrite <- IH. unfold heard. cbn. rewrite decide_False by (unfold covers; lia).
  by destruct (list_find _ (before ++ ps)) as [[]|].
Qed.
Lemma heard_dropped t t' ps : t <= t' -> heard (drop_ended t ps) t' = heard ps t'.
Proof.
  intros Ht. destruct (drop_ended_suffix t ps) as (b & Hb & Hf). rewrite Hb at 2. rewrite heard_skip; [done|].
  eapply Forall_impl; [|exact Hf]. cbn. lia.
Qed.
Lemma heard_none ps t : (forall p, p ∈ ps -> ~ covers t p) -> heard ps t = silence 1.
Proof.
  intros H. unfold heard. destruct (list_find _ _) as [[i p]|] eqn:Hp; [|done]. apply list_find_Some in Hp as (Hp & Hc & _).
  by destruct (H p); [eapply list_elem_of_lookup_2|].
Qed.
(** The front packet decides, as the packets are in order. *)
Lemma heard_front p rest t : StronglySorted earlier (p :: rest) -> t < ends p ->
  heard (p :: rest) t = if t <? first p then silence 1 else frame_at t p.
Proof.
  intros Hs Ht. destruct (Z.ltb_spec t (first p)).
  - apply heard_none. intros q Hq [Hc _]. apply StronglySorted_inv in Hs as [_ Hs]. rewrite list.Forall_forall in Hs.
    apply elem_of_cons in Hq as [->|Hq%Hs%first_mono]; lia.
  - unfold heard. cbn. by rewrite decide_True by (unfold covers; lia).
Qed.

(** *** Rendering *)
Lemma frame_fits p s : fit p -> first p <= s -> s <= LAST_SAMPLE ->
  exact u64_max ((s - first p) * Z.of_nat FRAME_BYTES) = Ret ((s - first p) * 4) /\
  (sat_add ((s - first p) * 4) (Z.of_nat FRAME_BYTES) <= Z.of_nat (length (packet_samples p)) <-> s < ends p).
Proof.
  intros Hp Hs Hl. pose proof (first_nonneg p Hp). destruct (fit_bounds p Hp) as (_ & _ & k & Hk). pose proof u64_max_val. pose proof LAST_SAMPLE_val. split.
  - rewrite exact_ret; [done|]. unfold FRAME_BYTES. lia.
  - unfold ends, sat_add, FRAME_BYTES in *. rewrite Hk, Nat.div_mul by done. lia.
Qed.
Lemma next_frame_heard ps s n : Forall fit ps -> StronglySorted earlier ps -> 0 <= s -> s + Z.of_nat n <= LAST_SAMPLE -> (0 < n)%nat ->
  next_frame ps (Some s) n = match drop_ended s ps with
                             | [] => Ret (None, ([], Some (s + Z.of_nat n)))
                             | ps' => Ret (Some (heard ps s), (ps', Some (s + 1)))
                             end.
Proof.
  intros Hf Hs H0 Hn Hpos. assert (Hn1 : forall k, 0 <= k <= Z.of_nat n -> exact u64_max (s + k) = Ret (s + k)).
  { intros k Hk. rewrite exact_ret; [done|]. pose proof u64_max_val. pose proof LAST_SAMPLE_val. lia. }
  revert Hs. induction Hf as [|p ps Hp Hf IH]; intros Hs; cbn [next_frame drop_ended]; [by rewrite Hn1 by lia|].
  rewrite first_sample_fit by done. cbn [mbind outcome_bind default from_option id].
  pose proof (StronglySorted_inv Hs) as [Hs' _]. pose proof (first_lt_ends p Hp). destruct (Z.ltb_spec s (first p)) as [Hlt|Hge].
  - rewrite Hn1 by lia. destruct (Z.leb_spec (ends p) s); [lia|]. cbn. rewrite heard_front by (done || lia).
    by destruct (Z.ltb_spec s (first p)); [|lia].
  - destruct (frame_fits p s Hp Hge ltac:(lia)) as [-> Hfit]. cbn [mbind outcome_bind]. case_bool_decide as Hb; rewrite Hfit in Hb.
    + rewrite Hn1 by lia. destruct (Z.leb_spec (ends p) s); [lia|]. cbn [mbind outcome_bind]. rewrite heard_front by (done || lia).
      destruct (Z.ltb_spec s (first p)); [lia|]. unfold frame_at. do 5 f_equal. unfold FRAME_BYTES. lia.
    + destruct (Z.leb_spec (ends p) s) as [He|]; [|lia]. rewrite IH by done.
      change (heard (p :: ps) s) with (heard ([p] ++ ps) s). rewrite heard_skip; [done|]. by constructor.
Qed.
Lemma drop_ended_sorted t ps : StronglySorted earlier ps -> StronglySorted earlier (drop_ended t ps).
Proof. induction 1 as [|p ps Hs IH Hp]; cbn; [constructor|]. destruct (ends p <=? t); [done|by constructor]. Qed.
Lemma drop_ended_fit t ps : Forall fit ps -> Forall fit (drop_ended t ps).
Proof. destruct (drop_ended_suffix t ps) as (b & Hb & _). rewrite Hb at 1. by intros [_ ?]%list.Forall_app. Qed.
Definition heard_from (ps : list AudioPacket) (s : Z) (n : nat) : list Z := concat (heard ps <$> seqZ s (Z.of_nat n)).
Lemma heard_from_S ps s n : heard_from ps s (S n) = heard ps s ++ heard_from ps (s + 1) n.
Proof. unfold heard_from. rewrite seqZ_cons by lia. replace (Z.pred (Z.of_nat (S n))) with (Z.of_nat n) by lia. replace (Z.succ s) with (s + 1) by lia. done. Qed.
Lemma heard_from_ext ps ps' s n : (forall t, s <= t -> heard ps' t = heard ps t) -> heard_from ps' s n = heard_from ps s n.
Proof. intros H. unfold heard_from. f_equal. apply list_fmap_ext. intros i t Ht. apply H. apply lookup_seqZ in Ht. lia. Qed.
Lemma heard_from_ended ps s n : drop_ended s ps = [] -> heard_from ps s n = silence n.
Proof.
  intros Hd. destruct (drop_ended_suffix s ps) as (b & Hb & Hf). rewrite Hd, app_nil_r in Hb. subst b.
  assert (Hz : forall t, s <= t -> heard ps t = silence 1).
  { intros t Ht. apply heard_none. intros p Hp [_ Hc]. rewrite list.Forall_forall in Hf. specialize (Hf p Hp). lia. }
  rewrite <- (heard_from_ext ps [] s n) by (intros t Ht; by rewrite Hz). clear. unfold heard_from. revert s.
  induction n as [|n IH]; intros s; [done|]. rewrite seqZ_cons by lia. cbn [fmap list_fmap concat].
  replace (Z.pred (Z.of_nat (S n))) with (Z.of_nat n) by lia. rewrite IH. change (heard [] s) with (silence 1).
  unfold silence. rewrite <- replicate_add. f_equal. lia.
Qed.
Lemma render_frames_heard ps s n : Forall fit ps -> StronglySorted earlier ps -> 0 <= s -> s + Z.of_nat n <= LAST_SAMPLE ->
  exists ps', render_frames n ps (Some s) = Ret (heard_from ps s n, (ps', Some (s + Z.of_nat n))) /\
    ps' `suffix_of` ps /\ forall t, s + Z.of_nat n <= t -> heard ps' t = heard ps t.
Proof.
  revert ps s. induction n as [|n IH]; intros ps s Hf Hs H0 Hn.
  - exists ps. cbn. rewrite Z.add_0_r. split_and!; [done|done|done].
  - cbn [render_frames]. rewrite next_frame_heard by (done || lia). destruct (drop_ended_suffix s ps) as (b & Hb & Hbe).
    destruct (drop_ended s ps) as [|p ps1] eqn:Hd.
    + cbn [mbind outcome_bind fst snd]. exists []. split_and!; [by rewrite heard_from_ended|by apply suffix_nil|].
      intros t Ht. rewrite <- (heard_dropped s t ps) by lia. by rewrite Hd.
    + rewrite <- Hd in *. cbn [mbind outcome_bind fst snd].
      destruct (IH (drop_ended s ps) (s + 1)) as (ps2 & -> & Hsuf & Hh); [by apply drop_ended_fit|by apply drop_ended_sorted|lia|lia|].
      exists ps2. cbn [mbind outcome_bind fst snd]. split_and!.
      * rewrite heard_from_S. do 2 f_equal; [|f_equal; f_equal; lia]. f_equal. apply heard_from_ext. intros t Ht. apply heard_dropped. lia.
      * etrans; [exact Hsuf|]. by exists b.
      * intros t Ht. rewrite Hh by lia. apply heard_dropped. lia.
Qed.

(** *** Pushing *)
Lemma queued_bytes_perm ps ps' : ps ≡ₚ ps' -> queued_bytes ps = queued_bytes ps'.
Proof. unfold queued_bytes. induction 1; cbn; lia. Qed.
Lemma queued_bytes_suffix ps ps' : ps' `suffix_of` ps -> (queued_bytes ps' <= queued_bytes ps)%nat.
Proof. intros [b ->]. unfold queued_bytes. rewrite sum_list_with_app. lia. Qed.
Lemma insert_perm p ps : insert_packet p ps ≡ₚ p :: ps.
Proof. induction ps as [|q ps IH]; cbn; [done|]. destruct (_ <=? _); [done|]. rewrite IH. apply Permutation_swap. Qed.
Lemma sort_perm ps : sort_packets ps ≡ₚ ps.
Proof. unfold sort_packets. induction ps as [|p ps IH]; cbn; [done|]. by rewrite insert_perm, IH. Qed.
Lemma insert_sorted p ps : StronglySorted earlier ps -> StronglySorted earlier (insert_packet p ps).
Proof.
  induction 1 as [|q ps Hs IH Hq]; cbn; [by repeat constructor|]. destruct (Z.leb_spec (packet_micros p) (packet_micros q)) as [Hp|Hp].
  - constructor; [by constructor|]. constructor; [done|]. eapply Forall_impl; [|exact Hq]. unfold earlier. intros r. lia.
  - constructor; [done|]. rewrite insert_perm. constructor; [unfold earlier; lia|done].
Qed.
Lemma sort_sorted ps : StronglySorted earlier (sort_packets ps).
Proof. unfold sort_packets. induction ps as [|p ps IH]; cbn; [constructor|by apply insert_sorted]. Qed.
Lemma make_room_run bytes ps s ps' s' : make_room bytes ps s = (ps', s') ->
  ps' `suffix_of` ps /\ (Z.of_nat (queued_bytes ps' + bytes) <= MAX_QUEUED_BYTES \/ ps' = []) /\ (s' = s \/ s' = None).
Proof.
  revert s. induction ps as [|p ps IH]; intros s; cbn [make_room]; lazymatch goal with |- context[?x <=? ?y] => destruct (Z.leb_spec x y) as [Hb|Hb] end.
  - intros [= <- <-]. split_and!; [done|by left|by left].
  - intros [= <- <-]. split_and!; [done|by right|by left].
  - intros [= <- <-]. split_and!; [done|by left|by left].
  - intros (H1 & H2 & H3)%IH. split_and!; [by apply suffix_cons_r|done|]. right. by destruct H3.
Qed.
Lemma suffix_sorted ps ps' : ps' `suffix_of` ps -> StronglySorted earlier ps -> StronglySorted earlier ps'.
Proof. intros [b ->]. induction b as [|x b IH]; cbn; [done|]. intros [H _]%StronglySorted_inv. by apply IH. Qed.
Lemma suffix_fit ps ps' : ps' `suffix_of` ps -> Forall fit ps -> Forall fit ps'.
Proof. intros [b ->]. by intros [_ H]%list.Forall_app. Qed.
Lemma sample_push_ok now p q : 0 <= packet_micros p -> Queue_ok q -> Queue_ok (push now p q).
Proof.
  intros Hp H. unfold push. destruct (is_valid p) eqn:Hv; cbn [negb]; [|done].
  destruct (make_room _ _ _) as [ps s] eqn:Hr. apply make_room_run in Hr as (Hsuf & Hroom & Hs).
  assert (exists ps' s', (if bool_decide (MAX_QUEUED_PACKETS <= length ps)%nat then (tail ps, None) else (ps, s)) = (ps', s') /\
    ps' `suffix_of` ps /\ (S (length ps') <= MAX_QUEUED_PACKETS)%nat /\ (s' = s \/ s' = None)) as (ps' & s' & -> & Hsuf' & Hlen & Hs').
  { case_bool_decide as Hb; eexists _, _; (split; [reflexivity|]).
    - destruct H. apply suffix_length in Hsuf. split; [destruct ps as [|x ps]; cbn; [done|by exists [x]]|].
      split; [destruct ps; cbn in *; unfold MAX_QUEUED_PACKETS in *; lia|by right].
    - split; [done|split; [lia|by left]]. }
  destruct H as [H1 H2 H3 H4 H5]. constructor; cbn [packets sample].
  - rewrite sort_perm. apply list.Forall_app. split; [|by repeat constructor]. eapply suffix_fit, H1. by etrans.
  - apply sort_sorted.
  - rewrite (queued_bytes_perm _ _ (sort_perm _)). unfold queued_bytes at 1. rewrite sum_list_with_app. cbn. destruct Hroom as [Hroom| ->].
    + left. apply queued_bytes_suffix in Hsuf'. unfold queued_bytes in *. lia.
    + right. apply suffix_nil_inv in Hsuf' as ->. done.
  - rewrite sort_perm, length_app. cbn. lia.
  - intros x Hx. apply H5. destruct Hs' as [->| ->]; [|done]. by destruct Hs as [<-| ->].
Qed.

(** *** The life of a queue *)
Lemma first_sample_nonneg p st : first_sample p = Ret st -> 0 <= st.
Proof.
  unfold first_sample. destruct (exact _ (_ * _)) as [x| |]; try done. cbn [mbind outcome_bind]. destruct (exact _ _) as [y| |] eqn:Hy; try done.
  apply exact_ret_inv in Hy as [-> Hy]. intros [= <-]. apply Z.div_pos; lia.
Qed.
Lemma next_frame_run ps s n turn : next_frame ps s n = Ret turn ->
  turn.2.1 `suffix_of` ps /\ ((forall x, s = Some x -> 0 <= x) -> forall x, turn.2.2 = Some x -> 0 <= x).
Proof.
  revert s. induction ps as [|p ps IH]; intros s; cbn [next_frame].
  - destruct s as [x|]; [|by intros [= <-]]. destruct (exact _ _) as [y| |] eqn:Hy; try done. intros [= <-]. cbn.
    apply exact_ret_inv in Hy as [-> Hy]. split; [done|]. intros _ z [= <-]. lia.
  - destruct (first_sample p) as [st| |] eqn:Hst; try done. cbn [mbind outcome_bind].
    apply first_sample_nonneg in Hst.
    destruct (_ <? st).
    + destruct (exact _ _) as [y| |] eqn:Hy; try done. intros [= <-]. apply exact_ret_inv in Hy as [-> Hy]. split; [done|]. intros _ z [= <-]. lia.
    + destruct (exact _ (_ * _)) as [o| |]; try done. cbn [mbind outcome_bind]. case_bool_decide.
      * destruct (exact _ _) as [y| |] eqn:Hy; try done. cbn [mbind outcome_bind]. intros [= <-]. apply exact_ret_inv in Hy as [-> Hy]. split; [done|]. intros _ z [= <-]. lia.
      * intros [H1 H2]%IH. split; [by apply suffix_cons_r|]. intros Hs. apply H2. intros x [= <-]. destruct s; cbn; [by apply Hs|done].
Qed.
Lemma render_frames_run n ps s r : render_frames n ps s = Ret r ->
  r.2.1 `suffix_of` ps /\ ((forall x, s = Some x -> 0 <= x) -> forall x, r.2.2 = Some x -> 0 <= x).
Proof.
  revert ps s r. induction n as [|n IH]; intros ps s r; cbn [render_frames]; [by intros [= <-]|].
  destruct (next_frame _ _ _) as [turn| |] eqn:Ht; try done. apply next_frame_run in Ht as [H1 H2]. cbn [mbind outcome_bind].
  destruct turn.1; [|by intros [= <-]]. destruct (render_frames n _ _) as [r'| |] eqn:Hr; try done. intros [= <-]. cbn.
  apply IH in Hr as [H3 H4]. split; [by etrans|]. intros Hs. by apply H4, H2.
Qed.
Lemma render_ok bytes now q out q' : render_at bytes now q = Ret (out, q') -> Queue_ok q -> Queue_ok q'.
Proof.
  unfold render_at. destruct (waits now q); [by intros [= _ <-]|]. destruct (render_frames _ _ _) as [r| |] eqn:Hr; try done. intros [= _ <-].
  apply render_frames_run in Hr as [Hsuf Hc]. intros [H1 H2 H3 H4 H5]. constructor; cbn [packets sample].
  - by eapply suffix_fit.
  - by eapply suffix_sorted.
  - pose proof (queued_bytes_suffix _ _ Hsuf). pose proof (suffix_length _ _ Hsuf). destruct (length r.2.1) as [|k] eqn:Hl.
    + apply length_zero_iff_nil in Hl as ->. by left.
    + destruct H3; [left|right]; lia.
  - pose proof (suffix_length _ _ Hsuf). lia.
  - by apply Hc.
Qed.
(** The process callback forgets the clock of an idle queue. *)
Definition rest (q : SampleQueue) : SampleQueue :=
  if bool_decide (packets q = []) then MkSampleQueue [] None None else q.
Inductive queue_step : SampleQueue -> SampleQueue -> Prop :=
  | step_push now p q : 0 <= packet_micros p -> queue_step q (push now p q)
  | step_render bytes now q out q' : render_at bytes now q = Ret (out, q') -> queue_step q q'
  | step_rest q : queue_step q (rest q).
Definition queue_history : SampleQueue -> Prop := rtc queue_step SampleQueue_default.
Lemma queue_history_ok q : queue_history q -> Queue_ok q.
Proof.
  intros H. refine (rtc_ind_r Queue_ok _ _ _ _ H).
  - constructor; cbn; [done|constructor|by left|unfold MAX_QUEUED_PACKETS; lia|done].
  - intros x y _ [now p z Hp|bytes now z out z' Hr|z] Hx; [by apply sample_push_ok|by eapply render_ok|]. unfold rest. case_bool_decide; [|done].
    constructor; cbn; [done|constructor|by left|unfold MAX_QUEUED_PACKETS; lia|done].
Qed.
(** Where a rendering starts: at the clock, or with the first packet. *)
Definition position (q : SampleQueue) : option Z :=
  match sample q with Some s => Some s | None => first <$> head (packets q) end.
Lemma render_frames_start ps n : Forall fit ps -> render_frames (S n) ps None = match ps with [] => Ret (silence (S n), ([], None)) | p :: _ => render_frames (S n) ps (Some (first p)) end.
Proof.
  destruct 1 as [|p ps Hp _]; [done|]. cbn [render_frames next_frame]. by rewrite first_sample_fit.
Qed.

(** C26 (audio-render). Whatever was pushed in whatever order, a playback renders every
    sample at its time: once it plays, each frame of the output is that of a queued packet
    covering the time, silence when none does, and the clock moves by what was rendered.
    Nothing overflows, and no more than 160 ms, or one packet, is queued. *)
Theorem render_heard (bytes : nat) (now : instant) (q : SampleQueue) (s : Z) (H : queue_history q) (Hp : position q = Some s)
    (Hw : waits now q = false) (Hl : s + Z.of_nat (bytes / FRAME_BYTES) <= LAST_SAMPLE) :
  let n := (bytes / FRAME_BYTES)%nat in
  (exists q', render_at bytes now q = Ret (heard_from (packets q) s n ++ replicate (bytes mod FRAME_BYTES) 0, q') /\
    position q' = Some (s + Z.of_nat n) /\ packets q' `suffix_of` packets q /\
    forall t, s + Z.of_nat n <= t -> heard (packets q') t = heard (packets q) t) /\
  (Z.of_nat (queued_bytes (packets q)) <= MAX_QUEUED_BYTES \/ length (packets q) = 1%nat) /\ (length (packets q) <= MAX_QUEUED_PACKETS)%nat.
Proof.
  apply queue_history_ok in H. intros n. destruct H as [H1 H2 H3 H4 H5]. split; [|done]. unfold render_at. rewrite Hw. fold n in Hl |- *.
  assert (H0 : 0 <= s).
  { unfold position in Hp. destruct (sample q); [apply H5; by injection Hp as ->|]. destruct H1; [done|]. injection Hp as <-. by apply first_nonneg. }
  destruct (render_frames_heard (packets q) s n H1 H2 H0 Hl) as (ps' & Hr & Hsuf & Hh).
  destruct n as [|n'].
  { exists q. destruct q. cbn. rewrite Z.add_0_r. by split_and!. }
  assert (Hr' : render_frames (S n') (packets q) (sample q) = render_frames (S n') (packets q) (Some s)).
  { unfold position in Hp. destruct (sample q); [by rewrite Hp|]. rewrite render_frames_start by done. destruct (packets q); [done|]. by injection Hp as ->. }
  rewrite Hr', Hr. cbn [mbind outcome_bind fst snd]. by eexists.
Qed.
(** Two packets, the later one first, and a gap between them. *)
Definition two_packets : SampleQueue :=
  push 0 (MkAudioPacket 1 0 [1; 1; 1; 1]) (push 0 (MkAudioPacket 1 42 [2; 2; 2; 2]) SampleQueue_default).
Lemma render_heard_witness : heard_from (packets two_packets) 0 3 = [1; 1; 1; 1; 0; 0; 0; 0; 2; 2; 2; 2] /\
  exists q', render_at 12 50000000 two_packets = Ret (heard_from (packets two_packets) 0 3 ++ [], q') /\ position q' = Some 3.
Proof.
  split; [by vm_compute|]. assert (H : queue_history two_packets).
  { do 2 (eapply rtc_r; [|by apply step_push]). apply rtc_refl. }
  destruct (render_heard 12 50000000 two_packets 0 H) as ((q' & Hr & Hp & _) & _); [by vm_compute..|]. by exists q'.
Defined.
End SampleQueue.

(** ** The audio system of a machine *)
Class CaptureSystem (H C T : Type) := {
  application_target : option Z -> option Z -> H -> option T;
  new_capture : T -> instant -> H -> H * (C + error);
  drain_capture : C -> H -> H * (list AudioPacket + error);
}.
Class PlaybackSystem (H B : Type) := {
  new_playback : H -> H * (B + error);
  push_playback : B -> AudioPacket -> H -> H * (bool + error);
}.

(** ** The source of a hoist

    [wake] is whether the transport has a wake. A capture that leaves the map is
    dropped. *)
Module Source.
Inductive Key := Launch (id : Z) | Process (id : Z).
#[export] Instance Key_eq_dec : EqDecision Key.
Proof. solve_decision. Defined.
#[export] Instance Key_countable : Countable Key.
Proof.
  apply (inj_countable' (fun k => match k with Launch i => inl i | Process i => inr i end) (fun x => match x with inl i => Launch i | inr i => Process i end)).
  by intros [].
Defined.
Definition MAX_CAPTURES : nat := 16.

Section Source.
Context {H C T Cu : Type} {system : CaptureSystem H C T} {order : HashOrder Key C}.
Record Source := MkSource {
  wake : bool;
  origin : option instant;
  mappings : gmap ClientSurfaceId (HoistSessionId * Key);
  captures : gmap Key C;
  failed : gset Key;
}.
Definition Source_default : Source := MkSource false None ∅ ∅ ∅.
Definition new (origin : instant) (wake : bool) : Source := MkSource wake (Some origin) ∅ ∅ ∅.
Definition metadata_key (m : ClientSurfaceMetadata) : option Key :=
  match local_launch_id m with Some i => Some (Launch i) | None => Process <$> local_process_id m end.
(** [Source::observe] *)
Definition observe (session : HoistSessionId) (sf : ClientSurfaceId) (m : ClientSurfaceMetadata) (x : Source) (h : H) : Source * H :=
  match origin x, metadata_key m, application_target (local_process_id m) (local_launch_id m) h with
  | Some start, Some key, Some target =>
      if negb (wake x) then (x, h)
      else
        let x := MkSource (wake x) (origin x) (<[sf := (session, key)]> (mappings x)) (captures x) (failed x) in
        if bool_decide (key ∈ failed x) || bool_decide (is_Some (captures x !! key)) || bool_decide (MAX_CAPTURES <= size (captures x))%nat then (x, h)
        else match new_capture target start h with
             | (h, inl c) => (MkSource (wake x) (origin x) (mappings x) (<[key := c]> (captures x)) (failed x), h)
             | (h, inr _) => (MkSource (wake x) (origin x) (mappings x) (captures x) ({[key]} ∪ failed x), h)
             end
  | _, _, _ => (x, h)
  end.
(** [Source::remove] *)
Definition mapped_keys (x : Source) : gset Key := list_to_set ((fun p => p.2.2) <$> map_to_list (mappings x)).
Definition remove (sf : ClientSurfaceId) (x : Source) : Source :=
  let x := MkSource (wake x) (origin x) (delete sf (mappings x)) (captures x) (failed x) in
  MkSource (wake x) (origin x) (mappings x) (filter (fun p => p.1 ∈ mapped_keys x) (captures x)) (filter (fun key => key ∈ mapped_keys x) (failed x)).
(** [Source::drain]. The packets of a capture go to the first surface of its key. *)
Definition addressee (x : Source) (key : Key) : option (ClientSurfaceId * HoistSessionId) :=
  head (omap (fun p => if bool_decide (p.2.2 = key) then Some (p.1, p.2.1) else None) (entries (mappings x))).
Definition address (a : ClientSurfaceId * HoistSessionId) (p : AudioPacket) : HoistSessionId * SourceMessage Cu AudioPacket :=
  (a.2, AudioMessage a.1 p).
Fixpoint drain_captures (l : list (Key * C)) (x : Source) (h : H) : Source * H * list (HoistSessionId * SourceMessage Cu AudioPacket) :=
  match l with
  | [] => (x, h, [])
  | (key, c) :: l =>
      let without := MkSource (wake x) (origin x) (mappings x) (delete key (captures x)) in
      match addressee x key with
      | None => drain_captures l (without (failed x)) h
      | Some a =>
          match drain_capture c h with
          | (h, inl packets) => let '(x, h, out) := drain_captures l x h in (x, h, (address a <$> packets) ++ out)
          | (h, inr _) => drain_captures l (without ({[key]} ∪ failed x)) h
          end
      end
  end.
Definition drain (x : Source) (h : H) : Source * H * list (HoistSessionId * SourceMessage Cu AudioPacket) :=
  drain_captures (visit (captures x)) x h.

(** What an audio source does. *)
Inductive source_step : Source * H -> Source * H -> Prop :=
  | step_observe session sf m x h : source_step (x, h) (observe session sf m x h)
  | step_remove sf x h : source_step (x, h) (remove sf x, h)
  | step_drain x h x' h' out : drain x h = (x', h', out) -> source_step (x, h) (x', h').
Lemma drain_captures_run l x h x' h' out : drain_captures l x h = (x', h', out) ->
  mappings x' = mappings x /\ captures x' ⊆ captures x /\
  (forall key c, (key, c) ∈ l -> is_Some (captures x' !! key) -> is_Some (addressee x key)) /\
  forall session m, (session, m) ∈ out -> exists key c sf p, (key, c) ∈ l /\ addressee x key = Some (sf, session) /\
    m = AudioMessage sf p /\ exists h1 h2 ps, drain_capture c h1 = (h2, inl ps) /\ p ∈ ps.
Proof.
  revert x h x' h' out. induction l as [|[key c] l IH]; intros x h x' h' out; cbn [drain_captures].
  { intros [= <- <- <-]. split_and!; [done|done|by intros ?? ?%not_elem_of_nil|by intros ?? ?%not_elem_of_nil]. }
  assert (Hskip : forall F h1, drain_captures l (MkSource (wake x) (origin x) (mappings x) (delete key (captures x)) F) h1 = (x', h', out) ->
    mappings x' = mappings x /\ captures x' ⊆ captures x /\
    (forall k d, (k, d) ∈ (key, c) :: l -> is_Some (captures x' !! k) -> is_Some (addressee x k)) /\
    forall session m, (session, m) ∈ out -> exists k d sf p, (k, d) ∈ (key, c) :: l /\ addressee x k = Some (sf, session) /\
      m = AudioMessage sf p /\ exists h1 h2 ps, drain_capture d h1 = (h2, inl ps) /\ p ∈ ps).
  { intros F h1 (H1 & H2 & H3 & H4)%IH. cbn in *. split_and!; [done|etrans; [exact H2|apply delete_subseteq]| |].
    - intros k d [[= -> ->]|Hl]%elem_of_cons [y Hy]; [|by apply (H3 k d)]. pose proof (lookup_weaken _ _ _ _ Hy H2). by simplify_map_eq.
    - intros session m Hm. destruct (H4 session m Hm) as (k & d & sf & p & Hl & Hr). exists k, d, sf, p. split; [by right|exact Hr]. }
  destruct (addressee x key) as [a|] eqn:Ha; [|by apply Hskip]. destruct (drain_capture c h) as [h1 [ps|e]] eqn:Hd; [|by apply Hskip].
  destruct (drain_captures l x h1) as [[x1 h2] out1] eqn:Hr. intros [= <- <- <-]. apply IH in Hr as (H1 & H2 & H3 & H4). split_and!; [done|done| |].
  - intros k d [[= -> ->]|Hl]%elem_of_cons Hk; [by rewrite Ha|by apply (H3 k d)].
  - intros session m [(p & Hp & Hin)%list_elem_of_fmap|Hm]%elem_of_app.
    + injection Hp as -> ->. exists key, c, a.1, p. split_and!; [by left|by destruct a|done|]. by eexists _, _, _.
    + destruct (H4 session m Hm) as (k & d & sf & p & Hl & Hr). exists k, d, sf, p. split; [by right|exact Hr].
Qed.
(** The first surface of the key, with its session. *)
Lemma addressee_first x key sf session : addressee x key = Some (sf, session) ->
  mappings x !! sf = Some (session, key) /\ forall sf' session', mappings x !! sf' = Some (session', key) -> key_le sf sf'.
Proof.
  unfold addressee. intros Ha. pose proof (entries_sorted (mappings x)) as Hs.
  assert (Hin : forall p, p ∈ entries (mappings x) <-> mappings x !! p.1 = Some p.2) by (intros [k v]; apply elem_of_entries).
  assert ((sf, (session, key)) ∈ entries (mappings x) /\
    forall p, p ∈ entries (mappings x) -> p.2.2 = key -> key_le sf p.1) as [Hsf Hle].
  { clear Hin. revert Ha. induction Hs as [|[k [s y]] l Hs IH Hk]; cbn; [done|]. case_bool_decide as Hy; cbn.
    - subst y. intros [= -> ->]. split; [by left|]. intros q [->|Hq]%elem_of_cons _; [apply key_le_refl|].
      rewrite list.Forall_forall in Hk. by apply (Hk q).
    - intros [H1 H2]%IH. split; [by right|]. intros q [->|Hq]%elem_of_cons Hqk; [by destruct Hy|by apply H2]. }
  split; [by apply Hin in Hsf|]. intros sf' session' Hm. apply (Hle (sf', (session', key))); [by apply Hin|done].
Qed.
Lemma source_step_captures a b : source_step a b -> (size (captures a.1) <= MAX_CAPTURES)%nat -> (size (captures b.1) <= MAX_CAPTURES)%nat.
Proof.
  intros [session sf m x h|sf x h|x h x' h' out Hd] Hx; cbn in *.
  - unfold observe. destruct (origin x), (metadata_key m), (application_target (local_process_id m) (local_launch_id m) h); try done. destruct (negb _); [done|].
    destruct (_ || _) eqn:Hc; [done|]. apply orb_false_iff in Hc as [_ Hc%bool_decide_eq_false]. destruct (new_capture _ _ _) as [h1 [c|e]]; [|done].
    cbn. etrans; [apply size_insert_le|]. cbn in Hc. lia.
  - etrans; [|exact Hx]. apply map_subseteq_size, map_filter_subseteq.
  - etrans; [|exact Hx]. apply map_subseteq_size. by eapply drain_captures_run.
Qed.
(** Sound leaves a source only for a surface that is mapped: every packet
    a drain returns was captured for the launch or process of the surface it names, the
    first of them, and goes to that surface's session. At most 16 captures run, and a drain
    ends those no surface needs. *)
Theorem source_confined start w (h0 : H) (x : Source) (h : H) (Hx : rtc source_step (new start w, h0) (x, h)) :
  (size (captures x) <= MAX_CAPTURES)%nat /\
  forall x' h' out, drain x h = (x', h', out) ->
    (forall key, is_Some (captures x' !! key) -> exists sf session, mappings x !! sf = Some (session, key)) /\
    forall session m, (session, m) ∈ out -> exists key c sf p, m = AudioMessage sf p /\ captures x !! key = Some c /\
      mappings x !! sf = Some (session, key) /\ (forall sf' session', mappings x !! sf' = Some (session', key) -> key_le sf sf') /\
      exists h1 h2 ps, drain_capture c h1 = (h2, inl ps) /\ p ∈ ps.
Proof.
  split.
  - change x with (x, h).1. refine (rtc_ind_r (fun y => (size (captures y.1) <= MAX_CAPTURES)%nat) _ _ _ _ Hx).
    + cbn. unfold MAX_CAPTURES. rewrite map_size_empty. lia.
    + intros a b _ Hab. by apply source_step_captures.
  - intros x' h' out Hd. apply drain_captures_run in Hd as (_ & Hc & Hk & Ho).
    assert (Hv : forall key c, (key, c) ∈ visit (captures x) <-> captures x !! key = Some c).
    { intros. rewrite visit_perm. apply elem_of_map_to_list. }
    split.
    + intros key [c Hkc]. destruct (Hk key c) as [[sf session] Ha]; [apply Hv; by eapply lookup_weaken|by eexists|].
      apply addressee_first in Ha as [Ha _]. by exists sf, session.
    + intros session m Hm. destruct (Ho session m Hm) as (key & c & sf & p & Hl%Hv & Ha%addressee_first & -> & Hp).
      exists key, c, sf, p. by destruct Ha.
Qed.
End Source.
End Source.

(** ** The destination of a hoist

    [played] is what was handed to the audio system, kept for the theorems. *)
Module Destination.
Definition MAX_PLAYBACKS : nat := 64.
Section Destination.
Context {H B : Type} {system : PlaybackSystem H B}.
Abbreviation place := (HoistSessionId * ClientSurfaceId)%type.
Record Destination := MkDestination {
  mapped : gset place;
  playback : gmap (place * Z) B;
  failed : bool;
  played : list (place * AudioPacket);
}.
(** [Default::default] *)
Definition Destination_default (played : list (place * AudioPacket)) : Destination := MkDestination ∅ ∅ false played.
(** [Destination::map] *)
Definition map (session : HoistSessionId) (sf : ClientSurfaceId) (x : Destination) : Destination :=
  MkDestination ({[(session, sf)]} ∪ mapped x) (playback x) (failed x) (played x).
(** [Destination::remove] *)
Definition remove (sf : ClientSurfaceId) (x : Destination) : Destination :=
  MkDestination (filter (fun p => p.2 <> sf) (mapped x)) (filter (fun p => p.1.1.2 <> sf) (playback x)) (failed x) (played x).
(** [Destination::receive] *)
Definition invalid : error := ErrMsg "invalid remote audio packet".
Definition admits (session : HoistSessionId) (sf : ClientSurfaceId) (x : Destination) : bool :=
  negb (failed x) && bool_decide ((session, sf) ∈ mapped x).
Definition play (key : place * Z) (p : AudioPacket) (x : Destination) (h : H) : Destination * H * outcome unit :=
  match playback x !! key with
  | None => (x, h, Ret tt)
  | Some b =>
      match push_playback b p h with
      | (h, inl _) => (MkDestination (mapped x) (playback x) (failed x) (played x ++ [(key.1, p)]), h, Ret tt)
      | (h, inr e) => (MkDestination (mapped x) ∅ true (played x ++ [(key.1, p)]), h, Fail e)
      end
  end.
Definition receive (session : HoistSessionId) (sf : ClientSurfaceId) (p : AudioPacket) (x : Destination) (h : H) : Destination * H * outcome unit :=
  if negb (is_valid p) then (x, h, Fail invalid)
  else if negb (admits session sf x) then (x, h, Ret tt)
  else
    let key := ((session, sf), packet_stream p) in
    if bool_decide (playback x !! key = None) && bool_decide (size (playback x) < MAX_PLAYBACKS)%nat then
      match new_playback h with
      | (h, inl b) => play key p (MkDestination (mapped x) (<[key := b]> (playback x)) (failed x) (played x)) h
      | (h, inr e) => (MkDestination (mapped x) (playback x) true (played x), h, Fail e)
      end
    else play key p x h.

(** ** What may be heard *)
Inductive audio_event :=
  | Mapped (session : HoistSessionId) (sf : ClientSurfaceId)
  | Gone (sf : ClientSurfaceId)
  | Over
  | Received (session : HoistSessionId) (sf : ClientSurfaceId) (p : AudioPacket).
Definition audio_act (e : audio_event) (y : Destination * H) : Destination * H :=
  match e with
  | Mapped session sf => (map session sf y.1, y.2)
  | Gone sf => (remove sf y.1, y.2)
  | Over => (Destination_default (played y.1), y.2)
  | Received session sf p => (receive session sf p y.1 y.2).1
  end.
Definition audio_run (l : list audio_event) (h : H) : Destination * H := foldl (fun y e => audio_act e y) (Destination_default [], h) l.
(** The places that are mapped after the events, and the packets that came while theirs was. *)
Definition shown_after (shown : gset place) (e : audio_event) : gset place :=
  match e with
  | Mapped session sf => {[(session, sf)]} ∪ shown
  | Gone sf => filter (fun p => p.2 <> sf) shown
  | Over => ∅
  | Received _ _ _ => shown
  end.
Definition shown (l : list audio_event) : gset place := foldl shown_after ∅ l.
Fixpoint admitted_from (now : gset place) (l : list audio_event) : list (place * AudioPacket) :=
  match l with
  | [] => []
  | e :: l =>
      match e with
      | Received session sf p => if bool_decide ((session, sf) ∈ now) && is_valid p then [((session, sf), p)] else []
      | _ => []
      end ++ admitted_from (shown_after now e) l
  end.
Definition admitted (l : list audio_event) : list (place * AudioPacket) := admitted_from ∅ l.
Lemma admitted_from_snoc now l e : admitted_from now (l ++ [e]) = admitted_from now l ++ admitted_from (foldl shown_after now l) [e].
Proof. revert now. induction l as [|x l IH]; intros now; cbn; [by rewrite app_nil_r|]. rewrite IH. by rewrite app_assoc. Qed.
Record Audio_ok (l : list audio_event) (x : Destination) : Prop := {
  ok_mapped : mapped x = shown l;
  ok_playback : forall k, is_Some (playback x !! k) -> k.1 ∈ mapped x;
  ok_size : (size (playback x) <= MAX_PLAYBACKS)%nat;
  ok_played : played x `sublist_of` admitted l;
}.
Lemma play_ok l session sf p x h : is_valid p = true -> (session, sf) ∈ mapped x ->
  mapped x = shown l -> (forall k, is_Some (playback x !! k) -> k.1 ∈ mapped x) -> (size (playback x) <= MAX_PLAYBACKS)%nat ->
  played x `sublist_of` admitted l -> Audio_ok (l ++ [Received session sf p]) (play ((session, sf), packet_stream p) p x h).1.1.
Proof.
  intros Hv Hm H1 H2 H3 H4.
  assert (Hs : shown (l ++ [Received session sf p]) = shown l) by (unfold shown; by rewrite foldl_app).
  assert (Ha : admitted (l ++ [Received session sf p]) = admitted l ++ [((session, sf), p)]).
  { unfold admitted. rewrite admitted_from_snoc. cbn. fold (shown l). rewrite <- H1, Hv. by rewrite bool_decide_true. }
  unfold play. destruct (playback x !! _) as [b|]; [|constructor; cbn; rewrite ?Hs, ?Ha; [done..|by apply sublist_inserts_r]].
  destruct (push_playback b p h) as [h1 [r|e]]; constructor; cbn; rewrite ?Hs, ?Ha; try done.
  - by apply sublist_app.
  - intros k [y Hy]. by rewrite lookup_empty in Hy.
  - rewrite map_size_empty. lia.
  - by apply sublist_app.
Qed.
Lemma audio_act_ok l e y : Audio_ok l y.1 -> Audio_ok (l ++ [e]) (audio_act e y).1.
Proof.
  destruct y as [x h]. intros [H1 H2 H3 H4]. cbn in *.
  assert (Hs : shown (l ++ [e]) = shown_after (shown l) e) by (unfold shown; by rewrite foldl_app).
  assert (Hother : (forall ss sf p, e <> Received ss sf p) -> admitted (l ++ [e]) = admitted l).
  { intros He. unfold admitted. rewrite admitted_from_snoc. destruct e; cbn; rewrite ?app_nil_r; try done. by destruct (He session sf p). }
  destruct e as [session sf|sf| |session sf p]; cbn [audio_act fst snd].
  - constructor; cbn; rewrite ?Hs, ?Hother by done; [by rewrite H1| |done|done]. intros k Hk. apply H2 in Hk. set_solver.
  - constructor; cbn; rewrite ?Hs, ?Hother by done; [by rewrite H1| | |done].
    + intros k [b [Hk Hn]%map_lookup_filter_Some]. cbn in Hn. apply elem_of_filter. split; [done|]. apply H2. by eexists.
    + etrans; [|exact H3]. apply map_subseteq_size, map_filter_subseteq.
  - constructor; cbn; rewrite ?Hs, ?Hother by done; [done| | |done].
    + intros k [y Hy]. by rewrite lookup_empty in Hy.
    + rewrite map_size_empty. lia.
  - assert (Hkeep : forall x' : Destination, mapped x' = mapped x -> playback x' = playback x -> played x' = played x -> Audio_ok (l ++ [Received session sf p]) x').
    { intros x' E1 E2 E3. constructor; rewrite ?E1, ?E2, ?E3, ?Hs; try done. unfold admitted. rewrite admitted_from_snoc. by apply sublist_inserts_r. }
    unfold receive. destruct (is_valid p) eqn:Hv; cbn [negb]; [|by apply Hkeep]. destruct (admits session sf x) eqn:Ha; cbn [negb]; [|by apply Hkeep].
    apply andb_true_iff in Ha as [_ Ha%bool_decide_eq_true]. destruct (_ && _) eqn:Hc; [|by apply play_ok].
    apply andb_true_iff in Hc as [_ Hc%bool_decide_eq_true]. destruct (new_playback h) as [h1 [b|e]]. 2: { by apply Hkeep. }
    apply play_ok; cbn; try done.
    + intros k [[= <-]|[_ Hk]]%lookup_insert_is_Some; [done|by apply H2].
    + etrans; [apply size_insert_le|]. lia.
Qed.
(** Whatever arrives in whatever order, a destination plays only
    packets that came, valid, while a map record had their surface shown to their session,
    each at most once and in order; and a playback remains only for such a surface, at most
    64 of them. *)
Theorem audio_confined (l : list audio_event) (h : H) : let x := (audio_run l h).1 in
  played x `sublist_of` admitted l /\ (forall k, is_Some (playback x !! k) -> k.1 ∈ shown l) /\ (size (playback x) <= MAX_PLAYBACKS)%nat.
Proof.
  assert (Hok : Audio_ok l (audio_run l h).1).
  { unfold audio_run. induction l as [|e l IH] using rev_ind.
    - constructor; cbn; [done| | |done]; [intros k [y Hy]; by rewrite lookup_empty in Hy|rewrite map_size_empty; lia].
    - rewrite foldl_app. by apply audio_act_ok. }
  destruct Hok as [H1 H2 H3 H4]. cbn. rewrite <- H1. done.
Qed.
End Destination.
End Destination.

(** ** A source at work

    Captures that have a packet at every drain. *)
#[export] Instance steady_captures : CaptureSystem unit Z Z := {
  application_target p l _ := match l with Some i => Some i | None => p end;
  new_capture target _ h := (h, inl target);
  drain_capture c h := (h, inl [MkAudioPacket c 0 [1; 2; 3; 4]]);
}.
#[export] Existing Instance plain_order.
Definition audio_metadata : ClientSurfaceMetadata := MkClientSurfaceMetadata "player" "" None (Some 7) None.
Definition capturing : Source.Source :=
  (Source.observe (MkHoistSessionId 2) (ClientSurfaceId_for_test 1) audio_metadata
    (Source.observe (MkHoistSessionId 1) (ClientSurfaceId_for_test 5) audio_metadata (Source.new 0 true) tt).1 tt).1.
Lemma source_confined_witness :
  let r := Source.drain capturing tt in
  r.2 = [(MkHoistSessionId 2, AudioMessage (Cu := unit) (ClientSurfaceId_for_test 1) (MkAudioPacket 7 0 [1; 2; 3; 4]))] /\
  forall key, is_Some (Source.captures r.1.1 !! key) -> exists sf session, Source.mappings capturing !! sf = Some (session, key).
Proof.
  assert (Hx : rtc (Source.source_step (Cu := unit)) (Source.new (C := Z) 0 true, tt) (capturing, tt)).
  { set (once := (Source.observe (MkHoistSessionId 1) (ClientSurfaceId_for_test 5) audio_metadata (Source.new 0 true) tt).1).
    apply (rtc_l _ _ (once, tt)); [|apply rtc_once].
    - exact (Source.step_observe (MkHoistSessionId 1) (ClientSurfaceId_for_test 5) audio_metadata (Source.new 0 true) tt).
    - exact (Source.step_observe (MkHoistSessionId 2) (ClientSurfaceId_for_test 1) audio_metadata once tt). }
  split; [by vm_compute|].
  destruct (Source.source_confined (Cu := unit) 0 true tt capturing tt Hx) as [_ Hd].
  exact (proj1 (Hd _ _ _ eq_refl)).
Defined.
