(* ===== verification/Destination.v ===== *)
(** * The encoded destination ([weld-hoist-encoded/src/state.rs])

    [EncodedDestinationState] turns encoded packets back into surface events. Control and
    media arrive on channels of their own, in any relation to each other. Events wait in
    order per surface until the frames they name are decoded; media waits for the decoder,
    which takes the frames of a surface in order and may look one commit ahead. A decoder
    context is retired when nothing refers to its generation any more.

    The decoder and the publisher of decoded buffers are interfaces. [clock] is what the
    turns of the decode loop read. [output] is the vector the port passes to each call. Diagnostics are
    left out. *)

From S2P Require Import Prelude.
From S2P Require Import Effects.
From S2P Require Import OrdMap.
From S2P Require Import Ids.
From S2P Require Import Surface.
From S2P Require Import Activity.
From S2P Require Import Scheduling.
From S2P Require Import Framing.
From S2P Require Import Commit.
From S2P Require Import PresentationInbox.
From S2P Require Import Packets.

Definition MAX_DESTINATION_EVENTS : nat := 128.
Definition MAX_REPLACEMENTS : nat := 16.
Definition MAX_PENDING_MEDIA_FRAMES : nat := 128.
Definition MAX_REFERENCED_FRAMES : nat := 128.
Definition MAX_PENDING_MEDIA_BYTES : Z := 64 * 1024 * 1024.

Abbreviation Event := (ClientSurfaceEvent ClientBufferLease) (only parsing).
Abbreviation WireEvent := (ClientSurfaceEvent EncodedBuffer) (only parsing).

#[export] Instance MediaFrameId_countable : Countable MediaFrameId.
Proof.
  apply (inj_countable' (fun f => (frame_stream f, frame_generation f, frame_sequence f))
    (fun p => MkMediaFrameId p.1.1 p.1.2 p.2)). by intros [].
Defined.

(** ** The decoder and the publisher ([codec.rs]) *)
Record DecodeRequest := MkDecodeRequest {
  decode_token : Z;
  decode_unit : EncodedAccessUnit;
  visible_width : Z;
  visible_height : Z;
}.
Inductive DecodeAdmission := Accepted | DecoderBusy (request : DecodeRequest) | DecoderStopped | DecoderRejected (cause : error).
Record DecodedFrame (Buf : Type) := MkDecodedFrame { decoded_frame : MediaFrameId; decoded_buffer : Buf }.
Arguments MkDecodedFrame {Buf}. Arguments decoded_frame {Buf}. Arguments decoded_buffer {Buf}.
Record DecodeCompletion (Buf : Type) := MkDecodeCompletion {
  completion_token : Z;
  decode_result : list (DecodedFrame Buf) + error;
}.
Arguments MkDecodeCompletion {Buf}. Arguments completion_token {Buf}. Arguments decode_result {Buf}.
Class DecodeBackend (K Buf : Type) := {
  try_decode : DecodeRequest -> K -> K * DecodeAdmission;
  drain_decoded : K -> K * (list (DecodeCompletion Buf) * option error);
  retire_decoder : MediaStreamId -> StreamGeneration -> K -> K * outcome unit;
}.
Class DecodedFramePublisher (P Buf : Type) := {
  publish_frame : Buf -> ClientBufferId -> ClientBufferUseId -> P -> P * outcome ClientBufferLease;
}.

(** ** State *)
Record QueuedDestinationEvent := MkQueued { queued_session : HoistSessionId; queued_event : WireEvent }.
Record PendingMedia := MkPendingMedia { media_session : HoistSessionId; media_unit : EncodedAccessUnit }.
Record InFlightDecode := MkInFlightDecode { in_flight_frame : MediaFrameId; in_flight_cancelled : bool }.
Record ReceiveBudget := MkReceiveBudget { control_records : nat; media_records : nat; media_bytes : Z }.

Section Destination.
Context {K P Buf : Type} {decoder : DecodeBackend K Buf} {frames : DecodedFramePublisher P Buf}.
Context {job_visit : HashOrder Z InFlightDecode} {queue_visit : HashOrder ClientSurfaceId (list QueuedDestinationEvent)}.
Context {retirement_visit : HashOrder EncodedGeneration unit}.

(** What the decoder and the publisher were asked, and what was decoded, kept for the
    theorems. *)
Inductive call :=
  | Submitted (request : DecodeRequest)
  | Refused (frame : MediaFrameId)
  | Retired (stream : MediaStreamId) (generation : StreamGeneration)
  | Finished (frame : MediaFrameId) (buffer : Buf)
  | Shown (buffer : Buf) (lease : ClientBufferLease).
Record EncodedDestinationState := MkDestination {
  descriptor_id : ClientSourceId;
  activity : Activity;
  scheduler : Scheduler;
  policy : SchedulingPolicy;
  backend : K;
  publisher : P;
  queues : gmap ClientSurfaceId (list QueuedDestinationEvent);
  media_frames : gmap MediaFrameId PendingMedia;
  decoded : gmap MediaFrameId Buf;
  decode_in_flight : gmap Z InFlightDecode;
  ready_surfaces : list ClientSurfaceId;
  cancelled_frames : gmap MediaFrameId HoistSessionId;
  streams : gmap (ClientSurfaceId * SurfaceLayerId) EncodedGeneration;
  pending_retirement : gmap EncodedGeneration unit;
  next_token : option Z;
  next_buffer : option Z;
  next_use : option Z;
  output : list (HoistSessionId * Event);
  calls : list call;
}.
Definition set_activity (x : Activity) (s : EncodedDestinationState) : EncodedDestinationState :=
  MkDestination (descriptor_id s) x (scheduler s) (policy s) (backend s) (publisher s) (queues s)
    (media_frames s) (decoded s) (decode_in_flight s) (ready_surfaces s) (cancelled_frames s) (streams s)
    (pending_retirement s) (next_token s) (next_buffer s) (next_use s) (output s) (calls s).
Definition set_scheduler (x : Scheduler) (s : EncodedDestinationState) : EncodedDestinationState :=
  MkDestination (descriptor_id s) (activity s) x (policy s) (backend s) (publisher s) (queues s) (media_frames
    s) (decoded s) (decode_in_flight s) (ready_surfaces s) (cancelled_frames s) (streams s) (pending_retirement
    s) (next_token s) (next_buffer s) (next_use s) (output s) (calls s).
Definition set_publisher (x : P) (s : EncodedDestinationState) : EncodedDestinationState :=
  MkDestination (descriptor_id s) (activity s) (scheduler s) (policy s) (backend s) x (queues s) (media_frames
    s) (decoded s) (decode_in_flight s) (ready_surfaces s) (cancelled_frames s) (streams s) (pending_retirement
    s) (next_token s) (next_buffer s) (next_use s) (output s) (calls s).
Definition set_queues (x : gmap ClientSurfaceId (list QueuedDestinationEvent)) (s : EncodedDestinationState) : EncodedDestinationState :=
  MkDestination (descriptor_id s) (activity s) (scheduler s) (policy s) (backend s) (publisher s) x
    (media_frames s) (decoded s) (decode_in_flight s) (ready_surfaces s) (cancelled_frames s) (streams s)
    (pending_retirement s) (next_token s) (next_buffer s) (next_use s) (output s) (calls s).
Definition set_media_frames (x : gmap MediaFrameId PendingMedia) (s : EncodedDestinationState) : EncodedDestinationState :=
  MkDestination (descriptor_id s) (activity s) (scheduler s) (policy s) (backend s) (publisher s) (queues s) x
    (decoded s) (decode_in_flight s) (ready_surfaces s) (cancelled_frames s) (streams s) (pending_retirement s)
    (next_token s) (next_buffer s) (next_use s) (output s) (calls s).
Definition set_decoded (x : gmap MediaFrameId Buf) (s : EncodedDestinationState) : EncodedDestinationState :=
  MkDestination (descriptor_id s) (activity s) (scheduler s) (policy s) (backend s) (publisher s) (queues s)
    (media_frames s) x (decode_in_flight s) (ready_surfaces s) (cancelled_frames s) (streams s)
    (pending_retirement s) (next_token s) (next_buffer s) (next_use s) (output s) (calls s).
Definition set_decode_in_flight (x : gmap Z InFlightDecode) (s : EncodedDestinationState) : EncodedDestinationState :=
  MkDestination (descriptor_id s) (activity s) (scheduler s) (policy s) (backend s) (publisher s) (queues s)
    (media_frames s) (decoded s) x (ready_surfaces s) (cancelled_frames s) (streams s) (pending_retirement s)
    (next_token s) (next_buffer s) (next_use s) (output s) (calls s).
Definition set_ready_surfaces (x : list ClientSurfaceId) (s : EncodedDestinationState) : EncodedDestinationState :=
  MkDestination (descriptor_id s) (activity s) (scheduler s) (policy s) (backend s) (publisher s) (queues s)
    (media_frames s) (decoded s) (decode_in_flight s) x (cancelled_frames s) (streams s) (pending_retirement s)
    (next_token s) (next_buffer s) (next_use s) (output s) (calls s).
Definition set_cancelled_frames (x : gmap MediaFrameId HoistSessionId) (s : EncodedDestinationState) : EncodedDestinationState :=
  MkDestination (descriptor_id s) (activity s) (scheduler s) (policy s) (backend s) (publisher s) (queues s)
    (media_frames s) (decoded s) (decode_in_flight s) (ready_surfaces s) x (streams s) (pending_retirement s)
    (next_token s) (next_buffer s) (next_use s) (output s) (calls s).
Definition set_streams (x : gmap (ClientSurfaceId * SurfaceLayerId) EncodedGeneration) (s : EncodedDestinationState) : EncodedDestinationState :=
  MkDestination (descriptor_id s) (activity s) (scheduler s) (policy s) (backend s) (publisher s) (queues s)
    (media_frames s) (decoded s) (decode_in_flight s) (ready_surfaces s) (cancelled_frames s) x
    (pending_retirement s) (next_token s) (next_buffer s) (next_use s) (output s) (calls s).
Definition set_pending_retirement (x : gmap EncodedGeneration unit) (s : EncodedDestinationState) : EncodedDestinationState :=
  MkDestination (descriptor_id s) (activity s) (scheduler s) (policy s) (backend s) (publisher s) (queues s)
    (media_frames s) (decoded s) (decode_in_flight s) (ready_surfaces s) (cancelled_frames s) (streams s) x
    (next_token s) (next_buffer s) (next_use s) (output s) (calls s).
Definition set_next_token (x : option Z) (s : EncodedDestinationState) : EncodedDestinationState :=
  MkDestination (descriptor_id s) (activity s) (scheduler s) (policy s) (backend s) (publisher s) (queues s)
    (media_frames s) (decoded s) (decode_in_flight s) (ready_surfaces s) (cancelled_frames s) (streams s)
    (pending_retirement s) x (next_buffer s) (next_use s) (output s) (calls s).
Definition set_next_buffer (x : option Z) (s : EncodedDestinationState) : EncodedDestinationState :=
  MkDestination (descriptor_id s) (activity s) (scheduler s) (policy s) (backend s) (publisher s) (queues s)
    (media_frames s) (decoded s) (decode_in_flight s) (ready_surfaces s) (cancelled_frames s) (streams s)
    (pending_retirement s) (next_token s) x (next_use s) (output s) (calls s).
Definition set_next_use (x : option Z) (s : EncodedDestinationState) : EncodedDestinationState :=
  MkDestination (descriptor_id s) (activity s) (scheduler s) (policy s) (backend s) (publisher s) (queues s)
    (media_frames s) (decoded s) (decode_in_flight s) (ready_surfaces s) (cancelled_frames s) (streams s)
    (pending_retirement s) (next_token s) (next_buffer s) x (output s) (calls s).
Definition set_output (x : list (HoistSessionId * Event)) (s : EncodedDestinationState) : EncodedDestinationState :=
  MkDestination (descriptor_id s) (activity s) (scheduler s) (policy s) (backend s) (publisher s) (queues s)
    (media_frames s) (decoded s) (decode_in_flight s) (ready_surfaces s) (cancelled_frames s) (streams s)
    (pending_retirement s) (next_token s) (next_buffer s) (next_use s) x (calls s).
(** A call of the decoder, or of the publisher, remembered. *)
Definition called (k : K) (c : call) (s : EncodedDestinationState) : EncodedDestinationState :=
  MkDestination (descriptor_id s) (activity s) (scheduler s) (policy s) k (publisher s) (queues s)
    (media_frames s) (decoded s) (decode_in_flight s) (ready_surfaces s) (cancelled_frames s) (streams s)
    (pending_retirement s) (next_token s) (next_buffer s) (next_use s) (output s) (calls s ++ [c]).
Definition set_backend (k : K) (s : EncodedDestinationState) : EncodedDestinationState :=
  MkDestination (descriptor_id s) (activity s) (scheduler s) (policy s) k (publisher s) (queues s)
    (media_frames s) (decoded s) (decode_in_flight s) (ready_surfaces s) (cancelled_frames s) (streams s)
    (pending_retirement s) (next_token s) (next_buffer s) (next_use s) (output s) (calls s).
Definition published (p : P) (c : call) (s : EncodedDestinationState) : EncodedDestinationState :=
  MkDestination (descriptor_id s) (activity s) (scheduler s) (policy s) (backend s) p (queues s) (media_frames
    s) (decoded s) (decode_in_flight s) (ready_surfaces s) (cancelled_frames s) (streams s) (pending_retirement
    s) (next_token s) (next_buffer s) (next_use s) (output s) (calls s ++ [c]).
Abbreviation M := (Effects.M EncodedDestinationState).

(** [EncodedDestinationState::new] *)
Definition EncodedDestinationState_new (id : ClientSourceId) (k : K) (p : P) : EncodedDestinationState :=
  MkDestination id Activity_default Scheduler_default SchedulingPolicy_default k p ∅ ∅ ∅ ∅ [] ∅ ∅ ∅
    (Some 1) (Some 1) (Some 1) [] [].

(** ** What events say *)
(** [mark_encoded_buffers_opaque] *)
Definition opaque_metadata (m : ClientBufferMetadata) : ClientBufferMetadata := MkClientBufferMetadata (extent m) true.
Definition mark_update (u : SurfaceBufferUpdate EncodedBuffer) : SurfaceBufferUpdate EncodedBuffer :=
  MkSurfaceBufferUpdate (layer u)
    match change u with
    | Retained m => Retained (opaque_metadata m)
    | Replaced m b => Replaced (opaque_metadata m) b
    | Removed => Removed
    end.
Definition mark_encoded_buffers_opaque (e : WireEvent) : WireEvent :=
  match event_kind e with
  | Commit c => MkClientSurfaceEvent (surface e) (Commit (set_buffers (mark_update <$> buffers c) c))
  | _ => e
  end.
(** [encoded_metadata] *)
Definition encoded_metadata (f : MediaFrameId) (e : WireEvent) : option ClientBufferMetadata :=
  match event_kind e with
  | Commit c => head (omap (fun u => match change u with
                                     | Replaced m b => if bool_decide (buffer_frame b = f) then Some m else None
                                     | _ => None
                                     end) (buffers c))
  | _ => None
  end.
(** [compatible_decode_lookahead] *)
Definition compatible_change (old new : SurfaceBufferChange EncodedBuffer) : bool :=
  match old, new with
  | Replaced m b, Replaced m' b' =>
      bool_decide (m = m') && bool_decide (generation_of (buffer_frame b) = generation_of (buffer_frame b'))
  | Replaced m _, Retained m' | Retained m, Retained m' => bool_decide (m = m')
  | _, _ => false
  end.
Definition compatible_update (old new : SurfaceBufferUpdate EncodedBuffer) : bool :=
  bool_decide (layer old = layer new) && compatible_change (change old) (change new).
Definition compatible_decode_lookahead (first next : WireEvent) : bool :=
  match event_kind first, event_kind next with
  | Commit a, Commit b =>
      mapped a && mapped b
      && opt_eqb placement_eqb (root a) (root b) && opt_eqb geometry_eqb (window_geometry a) (window_geometry b)
      && list_eqb placement_eqb (overlays a) (overlays b) && list_eqb input_eqb (inputs a) (inputs b)
      && bool_decide (length (buffers a) = length (buffers b))
      && forallb (fun p => compatible_update p.1 p.2) (zip (buffers a) (buffers b))
  | _, _ => false
  end.
Definition is_destroyed {B} (e : ClientSurfaceEvent B) : bool := match event_kind e with Destroyed => true | _ => false end.
Definition is_label {B} (e : ClientSurfaceEvent B) : bool := match event_kind e with Metadata _ => true | _ => false end.

(** ** Retirement *)
Definition retire_later (g : EncodedGeneration) (s : EncodedDestinationState) : EncodedDestinationState :=
  set_pending_retirement (<[g := tt]> (pending_retirement s)) s.
(** The queued events, a surface after the other. *)
Definition queued_events (s : EncodedDestinationState) : list QueuedDestinationEvent := concat (snd <$> visit (queues s)).
Definition referenced_generations (s : EncodedDestinationState) : list EncodedGeneration :=
  (snd <$> map_to_list (streams s)) ++
  (generation_of <$> filter (fun f => decoded s !! f = None) (queued_events s ≫= (fun q => encoded_frames (queued_event q)))) ++
  ((generation_of ∘ fst) <$> map_to_list (media_frames s)) ++
  ((generation_of ∘ in_flight_frame ∘ snd) <$> map_to_list (decode_in_flight s)).
Definition retire_now (g : EncodedGeneration) : M unit :=
  let! _ := (fun s => let '(k, r) := retire_decoder g.1 g.2 (backend s) in (called k (Retired g.1 g.2) s, r)) in
  modify (fun s => set_pending_retirement (delete g (pending_retirement s)) s).
(** [sweep_retirement] *)
Definition sweep_retirement : M unit :=
  let! due := gets (fun s => filter (fun g => g ∉ referenced_generations s) (fst <$> visit (pending_retirement s))) in
  for_each retire_now due.
(** [update_stream_generations] *)
Definition drop_streams (gone : ClientSurfaceId * SurfaceLayerId -> bool) (s : EncodedDestinationState) : EncodedDestinationState :=
  let retired := snd <$> filter (fun p => gone p.1 = true) (map_to_list (streams s)) in
  foldr retire_later (set_streams (filter (fun p => gone p.1 = false) (streams s)) s) retired.
Definition next_generation (c : SurfaceBufferChange EncodedBuffer) : option (option EncodedGeneration) :=
  match c with
  | Replaced _ b => Some (Some (generation_of (buffer_frame b)))
  | Removed => Some None
  | Retained _ => None
  end.
Definition update_stream (sf : ClientSurfaceId) (u : SurfaceBufferUpdate EncodedBuffer) (s : EncodedDestinationState) :
    EncodedDestinationState :=
  match next_generation (change u) with
  | None => s
  | Some next =>
      let key := (sf, layer u) in
      let s' := set_streams (delete key (streams s)) s in
      let s' := match streams s !! key with
                | Some previous => if bool_decide (Some previous = next) then s' else retire_later previous s'
                | None => s'
                end in
      match next with Some g => set_streams (<[key := g]> (streams s')) s' | None => s' end
  end.
Definition update_stream_generations (e : WireEvent) (s : EncodedDestinationState) : EncodedDestinationState :=
  match event_kind e with
  | Commit c =>
      foldl (fun s u => update_stream (surface e) u s)
        (drop_streams (fun key => bool_decide (key.1 = surface e) && negb (names_layer c key.2)) s) (buffers c)
  | _ => s
  end.

(** ** Cancelling *)
Definition cancel_job (j : InFlightDecode) : InFlightDecode := MkInFlightDecode (in_flight_frame j) true.
Definition job_of (f : MediaFrameId) (s : EncodedDestinationState) : option (Z * InFlightDecode) :=
  head (filter (fun p => in_flight_frame p.2 = f) (visit (decode_in_flight s))).
(** One frame of a cancelled event. Only media that never arrived needs a tombstone. *)
Definition cancel_frame (session : HoistSessionId) (f : MediaFrameId) : M unit :=
  let! s := gets id in
  let absent := bool_decide (media_frames s !! f = None) && bool_decide (decoded s !! f = None) in
  let! _ := modify (retire_later (generation_of f)) in
  let! _ := modify (fun s => set_decoded (delete f (decoded s)) (set_media_frames (delete f (media_frames s)) s)) in
  match job_of f s with
  | Some (t, j) => modify (fun s => set_decode_in_flight (<[t := cancel_job j]> (decode_in_flight s)) s)
  | None =>
      if absent then
        let! _ := lift (ensure (bool_decide (size (cancelled_frames s) < MAX_REFERENCED_FRAMES)%nat)
                   "encoded destination cancelled-frame bound exceeded") in
        modify (fun s => set_cancelled_frames (<[f := session]> (cancelled_frames s)) s)
      else done
  end.
Definition cancel_event (q : QueuedDestinationEvent) : M unit :=
  for_each (cancel_frame (queued_session q)) (encoded_frames (queued_event q)).
(** [cancel_surface] *)
Definition forget_surface (sf : ClientSurfaceId) (s : EncodedDestinationState) : EncodedDestinationState :=
  set_activity (Activity.remove sf (activity s))
    (set_scheduler (Scheduling.forget (activity s) sf (scheduler s))
      (set_ready_surfaces (filter (fun x => x <> sf) (ready_surfaces s)) s)).
Definition queue_of (s : EncodedDestinationState) (sf : ClientSurfaceId) : list QueuedDestinationEvent := default [] (queues s !! sf).
Definition cancel_surface (sf : ClientSurfaceId) : M unit :=
  let! _ := modify (forget_surface sf) in
  let! queue := gets (fun s => queue_of s sf) in
  let! _ := modify (fun s => set_queues (delete sf (queues s)) s) in
  let! _ := for_each cancel_event queue in
  let! _ := modify (drop_streams (fun key => bool_decide (key.1 = sf))) in
  sweep_retirement.

(** ** Publication *)
Definition emit (session : HoistSessionId) (e : Event) : M unit :=
  modify (fun s => set_output (output s ++ [(session, e)]) s).
(** [publish_decoded] *)
Definition publish_decoded (b : Buf) : M ClientBufferLease :=
  let! buffer := take_counter next_buffer set_next_buffer "decoded buffer" in
  let! use := take_counter next_use set_next_use "decoded buffer use" in
  fun s => match publish_frame b (MkClientBufferId (descriptor_id s) buffer) (MkClientBufferUseId (descriptor_id s) use) (publisher s) with
           | (p, Ret lease) => (published p (Shown b lease) s, Ret lease)
           | (p, Fail e) => (set_publisher p s, Fail e)
           | (p, Panic) => (set_publisher p s, Panic)
           end.
Definition import_buffer (b : EncodedBuffer) : M ClientBufferLease :=
  let! buf := gets (fun s => decoded s !! buffer_frame b) in
  let! buf := lift (opt_context buf "decoded layer frame disappeared") in
  let! _ := modify (fun s => set_decoded (delete (buffer_frame b) (decoded s)) s) in
  publish_decoded buf.
Fixpoint import_updates (us : list (SurfaceBufferUpdate EncodedBuffer)) : M (list (SurfaceBufferUpdate ClientBufferLease)) :=
  match us with
  | [] => pure []
  | u :: us =>
      let! c := match change u with
                | Retained m => pure (Retained m)
                | Replaced m b => let! lease := import_buffer b in pure (Replaced m lease)
                | Removed => pure Removed
                end in
      let! cs := import_updates us in
      pure (MkSurfaceBufferUpdate (layer u) c :: cs)
  end.
(** [pop_event] *)
Definition pop_event (sf : ClientSurfaceId) : M QueuedDestinationEvent := fun s =>
  match queues s !! sf with
  | Some (q :: rest) => (set_queues (<[sf := rest]> (queues s)) s, Ret q)
  | _ => (s, Fail (ErrMsg "encoded destination queue disappeared"))
  end.
Definition native_error : outcome ClientBufferLease := Fail (ErrMsg "encoded destination received native buffer content").
(** One surface of a round of [publish_ready]; [true] when its first event was published. *)
Definition publish_surface (sf : ClientSurfaceId) : M bool :=
  let! front := gets (fun s => head (queue_of s sf)) in
  let! decoded := gets decoded in
  match front with
  | None => pure false
  | Some front =>
      let fs := encoded_frames (queued_event front) in
      if bool_decide (fs = []) then
        let! q := pop_event sf in
        let! e := lift (try_into_client (fun _ _ => native_error) (queued_event q)) in
        let! _ := emit (queued_session q) e in pure true
      else if forallb (fun f => bool_decide (is_Some (decoded !! f))) fs then
        let! q := pop_event sf in
        match event_kind (queued_event q) with
        | Commit c =>
            let! us := import_updates (buffers c) in
            let! _ := emit (queued_session q) (MkClientSurfaceEvent (surface (queued_event q)) (Commit (set_buffers us c))) in
            pure true
        | _ => lift (Fail (ErrMsg "decoded destination event was not a commit"))
        end
      else pure false
  end.
Fixpoint publish_surfaces (l : list ClientSurfaceId) : M bool :=
  match l with
  | [] => pure false
  | sf :: l => let! this := publish_surface sf in let! others := publish_surfaces l in pure (this || others)
  end.
Definition drop_empty_queues (s : EncodedDestinationState) : EncodedDestinationState :=
  let queues := filter (fun p => p.2 <> []) (queues s) in
  set_ready_surfaces (filter (fun sf => is_Some (queues !! sf)) (ready_surfaces s)) (set_queues queues s).
Definition publish_round (_ : unit) : M (option unit) :=
  let! surfaces := gets ready_surfaces in
  let! progressed := publish_surfaces surfaces in
  let! _ := modify drop_empty_queues in
  pure (if progressed : bool then Some tt else None).
Definition queued (s : EncodedDestinationState) : nat := map_total length (queues s).
(** [publish_ready]: every round but the last publishes an event. *)
Definition publish_ready : M unit :=
  let! _ := sweep_retirement in
  let! fuel := gets (fun s => S (queued s)) in
  let! _ := iterate fuel publish_round tt in
  sweep_retirement.
Definition take_output : M (list (HoistSessionId * Event)) := fun s => (set_output [] s, Ret (output s)).

(** ** Decoding *)
Definition submitted (s : EncodedDestinationState) (f : MediaFrameId) : bool :=
  bool_decide (is_Some (decoded s !! f)) || existsb (fun p => bool_decide (in_flight_frame p.2 = f)) (map_to_list (decode_in_flight s)).
(** The event whose frames are decoded next: the second one once the first is submitted. *)
Definition decode_target (s : EncodedDestinationState) (front : QueuedDestinationEvent) (next : option QueuedDestinationEvent) : QueuedDestinationEvent :=
  let fs := encoded_frames (queued_event front) in
  match next with
  | Some next =>
      if negb (bool_decide (fs = [])) && forallb (submitted s) fs && bool_decide (queued_session next = queued_session front)
         && compatible_decode_lookahead (queued_event front) (queued_event next)
      then next else front
  | None => front
  end.
(** [decode_candidate] *)
Definition decode_candidate (s : EncodedDestinationState) (sf : ClientSurfaceId) : option (HoistSessionId * MediaFrameId) :=
  match queue_of s sf with
  | [] => None
  | front :: rest =>
      let fs := encoded_frames (queued_event (decode_target s front (head rest))) in
      pair (queued_session front) <$>
        head (filter (fun f => submitted s f = false /\ is_Some (media_frames s !! f)) fs)
  end.
(** [schedule_decode] *)
Definition schedule_decode (f : MediaFrameId) (session : HoistSessionId) : M bool :=
  let! media := gets (fun s => media_frames s !! f) in
  match media with
  | None => pure false
  | Some media =>
      let! _ := modify (fun s => set_media_frames (delete f (media_frames s)) s) in
      let! _ := lift (ensure (bool_decide (media_session media = session)) "encoded media crossed hoist sessions") in
      let! metadata := gets (fun s => head (omap (fun q => encoded_metadata f (queued_event q)) (queued_events s))) in
      let! metadata := lift (opt_context metadata "encoded control metadata disappeared") in
      let! token := take_counter next_token set_next_token "encoded decode token" in
      let request := MkDecodeRequest token (media_unit media) (width (extent metadata)) (height (extent metadata)) in
      let! admission := (fun s => let '(k, a) := try_decode request (backend s) in
                         (match a with Accepted => called k (Submitted request) s | DecoderBusy _ => called k (Refused f) s | _ => set_backend k s end, Ret a)) in
      match admission with
      | Accepted =>
          let! _ := modify (fun s => set_decode_in_flight (<[token := MkInFlightDecode f false]> (decode_in_flight s)) s) in pure true
      | DecoderBusy returned =>
          let! _ := lift (ensure ((decode_token returned =? token) && bool_decide (unit_frame (decode_unit returned) = f))
                     "decoder returned a different Busy request") in
          let! _ := modify (fun s => set_media_frames (<[f := MkPendingMedia session (decode_unit returned)]> (media_frames s)) s) in
          pure false
      | DecoderStopped => lift (Fail (ErrMsg "decoder worker stopped"))
      | DecoderRejected cause => lift (Fail cause)
      end
  end.
(** [advance]: the surfaces whose decoder was busy sit out. *)
Definition rotate (sf : ClientSurfaceId) (l : list ClientSurfaceId) : list ClientSurfaceId :=
  match list_find (fun x => x = sf) l with
  | Some (i, _) => drop (S i) l ++ take (S i) l
  | None => l
  end.
Definition decode_turn (now : instant) (busy : list ClientSurfaceId) : M (option (list ClientSurfaceId)) :=
  let! chosen := (fun s =>
    let candidates := filter (fun sf => is_Some (decode_candidate s sf)) (ready_surfaces s) in
    let '(sched, chosen) := Scheduling.select candidates busy (activity s) (policy s) now (scheduler s) in
    (set_scheduler sched s, Ret chosen)) in
  match chosen with
  | None => pure None
  | Some selection =>
      let sf := sel_surface selection in
      let! candidate := gets (fun s => decode_candidate s sf) in
      match candidate with
      | None => pure None
      | Some (session, f) =>
          let! accepted := schedule_decode f session in
          if accepted : bool then
            let! _ := modify (fun s => set_ready_surfaces (rotate sf (ready_surfaces s))
                                (set_scheduler (Scheduling.accepted selection now (scheduler s)) s)) in
            pure (Some busy)
          else pure (Some (busy ++ [sf]))
      end
  end.
Definition decode_fuel (s : EncodedDestinationState) : nat := S (size (media_frames s) + length (ready_surfaces s)).
Definition advance (clock : nat -> instant) : M unit :=
  let! _ := publish_ready in
  let! fuel := gets decode_fuel in
  let! _ := iterate fuel (in_time clock decode_turn) (O, []) in
  sweep_retirement.

(** ** Arrivals *)
(** [enqueue] *)
Definition note_event (session : HoistSessionId) (e : WireEvent) (s : EncodedDestinationState) : EncodedDestinationState :=
  let a := Activity.register session (surface e) (activity s) in
  set_activity match event_kind e with
               | Role r => Activity.role (surface e) r a
               | Commit c => Activity.mapped (surface e) (mapped c) a
               | _ => a
               end s.
Definition declares_opaque (e : WireEvent) : bool :=
  match event_kind e with Commit c => bool_decide (alpha_mode c = Discarded) | _ => true end.
Definition destroy_error : outcome ClientBufferLease := Fail (ErrMsg "destroy event unexpectedly carried a buffer").
(** A label replaces the session's waiting ones. *)
Definition without_labels (session : HoistSessionId) (e : WireEvent) (q : list QueuedDestinationEvent) : list QueuedDestinationEvent :=
  if is_label e then filter (fun x => queued_session x <> session \/ is_label (queued_event x) = false) q else q.
Definition push_queue (session : HoistSessionId) (e : WireEvent) : M unit := fun s =>
  let old := queue_of s (surface e) in
  let kept := without_labels session e old in
  if bool_decide (queued s - (length old - length kept) < MAX_DESTINATION_EVENTS)%nat then
    let ready := if bool_decide (old = []) then ready_surfaces s ++ [surface e] else ready_surfaces s in
    (set_ready_surfaces ready (set_queues (<[surface e := kept ++ [MkQueued session e]]> (queues s)) s), Ret tt)
  else (set_queues (<[surface e := kept]> (queues s)) s, Fail (ErrMsg "encoded destination event bound exceeded")).
Definition enqueue (session : HoistSessionId) (e : WireEvent) : M unit :=
  let! _ := modify (note_event session e) in
  let! _ := lift (ensure (bool_decide (length (encoded_frames e) <= MAX_REPLACEMENTS)%nat) "encoded commit exceeds the replacement-frame limit") in
  let! _ := lift (ensure (declares_opaque e) "opaque encoded commit must declare discarded alpha") in
  if is_destroyed e then
    let! _ := cancel_surface (surface e) in
    let! e := lift (try_into_client (fun _ _ => destroy_error) e) in
    emit session e
  else
    let e := mark_encoded_buffers_opaque e in
    let! _ := modify (update_stream_generations e) in
    let! _ := push_queue session e in
    publish_ready.
(** [receive_budget] *)
Definition payload_bytes (s : EncodedDestinationState) : Z :=
  Z.of_nat (map_total (fun m => length (payload (media_unit m))) (media_frames s)).
Definition referenced (s : EncodedDestinationState) : nat :=
  (size (cancelled_frames s) + map_total (sum_list_with (fun q => length (encoded_frames (queued_event q)))) (queues s))%nat.
Definition receive_budget (s : EncodedDestinationState) : ReceiveBudget :=
  MkReceiveBudget
    (Nat.min ((MAX_REFERENCED_FRAMES - referenced s) / MAX_REPLACEMENTS) (MAX_DESTINATION_EVENTS - queued s))
    (MAX_PENDING_MEDIA_FRAMES - size (media_frames s))
    (Z.max 0 (MAX_PENDING_MEDIA_BYTES - payload_bytes s)).
(** [enqueue_media] *)
Definition enqueue_media (m : MediaEnvelope EncodedAccessUnit) : M unit := fun s =>
  let u := access_unit m in
  let f := unit_frame u in
  match cancelled_frames s !! f with
  | Some session =>
      if bool_decide (session = envelope_session m)
      then (set_cancelled_frames (delete f (cancelled_frames s)) s, Ret tt)
      else (s, Fail (ErrMsg "cancelled encoded media crossed hoist sessions"))
  | None =>
      if negb (bool_decide (size (media_frames s) < MAX_PENDING_MEDIA_FRAMES)%nat)
      then (s, Fail (ErrMsg "encoded destination media-frame bound exceeded"))
      else if negb (Z.of_nat (length (payload u)) <=? media_bytes (receive_budget s))
      then (s, Fail (ErrMsg "encoded destination payload-byte bound exceeded"))
      else (set_media_frames (<[f := MkPendingMedia (envelope_session m) u]> (media_frames s)) s,
            if bool_decide (media_frames s !! f = None) then Ret tt
            else Fail (ErrMsg "encoded media frame was delivered more than once"))
  end.

(** ** Completions *)
(** What a finished job of the frame has to return. *)
Definition decoded_result (f : MediaFrameId) (r : list (DecodedFrame Buf) + error) : Buf + error :=
  match r with
  | inr e => inr e
  | inl [d] => if bool_decide (decoded_frame d = f) then inl (decoded_buffer d)
               else inr (ErrMsg "low-delay decoder returned another frame")
  | inl _ => inr (ErrMsg "low-delay decoder did not return exactly one frame")
  end.
(** One completion of [drain]; the first failure is kept. *)
Definition complete_one (s : EncodedDestinationState) (failure : option error) (c : DecodeCompletion Buf) :
    EncodedDestinationState * option error :=
  match decode_in_flight s !! completion_token c with
  | None => (s, Some (default (ErrMsg "decoder completed an unexpected token") failure))
  | Some job =>
      let s := set_decode_in_flight (delete (completion_token c) (decode_in_flight s)) s in
      let f := in_flight_frame job in
      if in_flight_cancelled job then (retire_later (generation_of f) s, failure)
      else match decoded_result f (decode_result c) with
           | inl b => (called (backend s) (Finished f b) (set_decoded (<[f := b]> (decoded s)) s), failure)
           | inr e => (s, Some (default e failure))
           end
  end.
Definition complete_all (l : list (DecodeCompletion Buf)) (failure : option error) (s : EncodedDestinationState) :
    EncodedDestinationState * option error :=
  foldl (fun x c => complete_one x.1 x.2 c) (s, failure) l.
(** [drain] *)
Definition drain (clock : nat -> instant) : M unit :=
  let! completions := (fun s => let '(k, cs) := drain_decoded (backend s) in (set_backend k s, Ret cs)) in
  let! failure := (fun s => let '(s, failure) := complete_all completions.1 completions.2 s in (s, Ret failure)) in
  match failure with
  | Some e => lift (Fail e)
  | None => advance clock
  end.
(** ** What operations leave alone *)
Implicit Types (s : EncodedDestinationState) (sf : ClientSurfaceId) (f : MediaFrameId).
Lemma take_counter_same {A} (g : EncodedDestinationState -> A) counter put name :
  (forall x s, g (put x s) = g s) -> always (same g) (take_counter counter put name : M Z).
Proof. intros Hg s. unfold take_counter. destruct (counter s); [apply Hg|done]. Qed.
(** Publication of decoded buffers touches no queue, no media and no decoding. *)
Record importing (s s' : EncodedDestinationState) : Prop := {
  importing_queues : queues s' = queues s;
  importing_media : media_frames s' = media_frames s;
  importing_jobs : decode_in_flight s' = decode_in_flight s;
  importing_ready : ready_surfaces s' = ready_surfaces s;
  importing_cancelled : cancelled_frames s' = cancelled_frames s;
  importing_streams : streams s' = streams s;
  importing_retirement : pending_retirement s' = pending_retirement s;
  importing_token : next_token s' = next_token s;
  importing_decoded : decoded s' ⊆ decoded s;
  importing_output : output s' = output s;
  importing_calls : calls s `prefix_of` calls s';
}.
#[export] Instance importing_po : PreOrder importing.
Proof. split; [by constructor|]. intros a b c [] []. constructor; try congruence; by etrans. Qed.
Lemma take_buffer_importing : always importing (take_counter next_buffer set_next_buffer "decoded buffer" : M Z).
Proof. intros s. unfold take_counter. by destruct (next_buffer s). Qed.
Lemma take_use_importing : always importing (take_counter next_use set_next_use "decoded buffer use" : M Z).
Proof. intros s. unfold take_counter. by destruct (next_use s). Qed.
#[local] Hint Resolve take_buffer_importing take_use_importing : keeps.
Lemma publish_decoded_importing b : always importing (publish_decoded b).
Proof.
  unfold publish_decoded. keep. intros s. destruct (publish_frame _ _ _ _) as [? [?| |]]; constructor; cbn; try done; by eexists.
Qed.
#[local] Hint Resolve publish_decoded_importing : keeps.
Lemma import_buffer_importing b : always importing (import_buffer b).
Proof. unfold import_buffer. keep. intros s. constructor; try done. apply delete_subseteq. Qed.
#[local] Hint Resolve import_buffer_importing : keeps.
Lemma import_updates_importing us : always importing (import_updates us).
Proof. induction us as [|u us IH]; cbn; keep. Qed.
#[local] Hint Resolve import_updates_importing : keeps.

(** ** The loops end *)
Lemma queued_pop sf q rest s : queues s !! sf = Some (q :: rest) -> (S (queued (set_queues (<[sf := rest]> (queues s)) s)) = queued s)%nat.
Proof. intros H. unfold queued. cbn. pose proof (map_total_insert length (queues s) sf rest) as Hi. rewrite H in Hi. cbn in Hi. lia. Qed.
Lemma pop_event_run sf s s' q : pop_event sf s = (s', Ret q) ->
  exists rest, queues s !! sf = Some (q :: rest) /\ s' = set_queues (<[sf := rest]> (queues s)) s.
Proof. unfold pop_event. destruct (queues s !! sf) as [[|q' rest]|] eqn:Hq; [done| |done]. intros [= <- <-]. by eexists. Qed.
Lemma publish_surface_queued sf n :
  triple (fun s => queued s = n) (publish_surface sf) (fun b s => (queued s + Nat.b2n b = n)%nat).
Proof.
  intros s s' b Hn Hs. unfold publish_surface in Hs.
  apply run_bind in Hs as (s1 & front & [-> ->]%run_gets & Hs). apply run_bind in Hs as (s1 & d & [-> ->]%run_gets & Hs).
  destruct (head (queue_of s sf)) as [front|]; [|injection Hs as <- <-; cbn; lia].
  assert (Hpop : forall s1 q (k : M bool), pop_event sf s = (s1, Ret q) -> always (same queues) k -> k s1 = (s', Ret b) ->
    (S (queued s') = n)%nat).
  { intros s1 q k (rest & Hq & ->)%pop_event_run Hk Hr. pose proof (run_always _ _ _ _ _ Hk Hr) as Hsame.
    unfold same in Hsame. unfold queued. rewrite Hsame, <- Hn. apply (queued_pop _ q). done. }
  case_bool_decide; [|destruct (forallb _ _); [|injection Hs as <- <-; cbn; lia]].
  - apply run_bind in Hs as (s1 & q & Hp & Hs). assert (b = true) as ->; [|cbn; rewrite Nat.add_1_r; eapply (Hpop _ _ _ Hp); [|exact Hs]; keep].
    apply run_bind in Hs as (? & ? & _ & Hs). by apply run_bind in Hs as (? & ? & _ & [= <- <-]).
  - apply run_bind in Hs as (s1 & q & Hp & Hs). destruct (event_kind (queued_event q)) eqn:Hk; try by apply run_lift in Hs as [??].
    assert (b = true) as ->; [|cbn; rewrite Nat.add_1_r; eapply (Hpop _ _ _ Hp); [|exact Hs]].
    { apply run_bind in Hs as (? & ? & _ & Hs). by apply run_bind in Hs as (? & ? & _ & [= <- <-]). }
    apply always_bind; [apply _| |intros us; keep]. intros s2. apply (import_updates_importing _ s2).
Qed.
(** The first event of the surface waits for a frame, if there is one. *)
Definition blocked s sf : Prop :=
  forall q, head (queue_of s sf) = Some q -> exists f, f ∈ encoded_frames (queued_event q) /\ decoded s !! f = None.
Lemma publish_surface_blocked sf s s' : publish_surface sf s = (s', Ret false) -> s' = s /\ blocked s sf.
Proof.
  unfold publish_surface, blocked. intros Hs. run_in Hs. destruct (head (queue_of s sf)) as [q|]; [|by run_in Hs].
  case_bool_decide as Hf; [apply run_bind in Hs as (? & ? & ? & Hs); by run_in Hs|]. rewrite forallb_decided in Hs.
  case_bool_decide as Hall.
  - apply run_bind in Hs as (? & ? & ? & Hs). destruct (event_kind _); run_in Hs.
    apply run_bind in Hs as (? & ? & ? & Hs). by run_in Hs.
  - run_in Hs. split; [done|]. intros ? [= <-]. apply not_Forall_Exists, Exists_exists in Hall as (f & Hf' & Hn); [|apply _].
    exists f. split; [by apply list_elem_of_In|by apply eq_None_not_Some].
Qed.
Lemma publish_surfaces_blocked l s s' : publish_surfaces l s = (s', Ret false) -> s' = s /\ Forall (blocked s) l.
Proof.
  revert s. induction l as [|sf l IH]; intros s Hs; cbn in Hs; [by run_in Hs|].
  apply run_bind in Hs as (s1 & b1 & H1 & Hs). apply run_bind in Hs as (s2 & b2 & H2 & Hs). run_in Hs.
  destruct b1, b2; try done. apply publish_surface_blocked in H1 as [-> H1]. apply IH in H2 as [-> H2]. split; [done|]. by constructor.
Qed.
Lemma publish_surfaces_queued l n :
  triple (fun s => queued s = n) (publish_surfaces l) (fun b s => (queued s + Nat.b2n b <= n)%nat).
Proof.
  revert n. induction l as [|sf l IH]; intros n s s' b Hn Hs; cbn in Hs; [run_in Hs; cbn; lia|].
  apply run_bind in Hs as (s1 & b1 & H1 & Hs). apply run_bind in Hs as (s2 & b2 & H2 & Hs). run_in Hs.
  pose proof (publish_surface_queued sf _ _ _ _ eq_refl H1). pose proof (IH _ _ _ _ eq_refl H2). destruct b1, b2; cbn in *; lia.
Qed.
Lemma drop_empty_queue_of s sf : queue_of (drop_empty_queues s) sf = queue_of s sf.
Proof.
  unfold queue_of. cbn. rewrite map_lookup_filter. destruct (queues s !! sf) as [[|q l]|]; [done| |done].
  cbn. by rewrite option_guard_True.
Qed.
Lemma drop_empty_queued s : queued (drop_empty_queues s) = queued s.
Proof. unfold queued. cbn. apply map_total_filter. intros i [|q l] _ H; [done|]. by destruct H. Qed.
Lemma publish_round_shrinks : shrinks (fun _ => queued) publish_round.
Proof.
  intros [] s s' [] Hs. unfold publish_round in Hs. run_in Hs. apply run_bind in Hs as (s1 & b & H1 & Hs). run_in Hs.
  pose proof (publish_surfaces_queued _ _ _ _ _ eq_refl H1). destruct b; [|done]. rewrite drop_empty_queued. cbn in *. lia.
Qed.
(** [publish_ready] stops where every first event waits for a frame. *)
Definition stuck s : Prop := Forall (blocked s) (ready_surfaces s).
Lemma publish_round_stuck s s' : publish_round tt s = (s', Ret None) -> s' = drop_empty_queues s /\ stuck s'.
Proof.
  unfold publish_round, stuck. intros Hs. run_in Hs. apply run_bind in Hs as (s1 & b & H1 & Hs). run_in Hs. destruct b; [done|].
  apply publish_surfaces_blocked in H1 as [-> H1]. split; [done|]. apply list.Forall_forall. intros sf [_ Hsf]%list_elem_of_filter.
  rewrite list.Forall_forall in H1. specialize (H1 sf Hsf). intros q. rewrite drop_empty_queue_of. apply H1.
Qed.
(** Retirement changes nothing but what is to be retired. *)
Record retiring (s s' : EncodedDestinationState) : Prop := {
  retiring_queues : queues s' = queues s;
  retiring_media : media_frames s' = media_frames s;
  retiring_decoded : decoded s' = decoded s;
  retiring_jobs : decode_in_flight s' = decode_in_flight s;
  retiring_ready : ready_surfaces s' = ready_surfaces s;
  retiring_cancelled : cancelled_frames s' = cancelled_frames s;
  retiring_streams : streams s' = streams s;
  retiring_token : next_token s' = next_token s;
  retiring_output : output s' = output s;
  retiring_scheduler : scheduler s' = scheduler s;
  retiring_activity : activity s' = activity s;
  retiring_policy : policy s' = policy s;
  retiring_calls : calls s `prefix_of` calls s';
}.
#[export] Instance retiring_po : PreOrder retiring.
Proof. split; [by constructor|]. intros a b c [] []. constructor; try congruence. by etrans. Qed.
Lemma retire_now_retiring g : always retiring (retire_now g).
Proof. unfold retire_now. keep. intros s. destruct (retire_decoder _ _ _). constructor; cbn; try done. by eexists. Qed.
#[local] Hint Resolve retire_now_retiring : keeps.
Lemma sweep_retiring : always retiring sweep_retirement.
Proof. unfold sweep_retirement. keep. Qed.
#[local] Hint Resolve sweep_retiring : keeps.
Lemma stuck_retiring s s' : retiring s s' -> stuck s -> stuck s'.
Proof. intros [] H. unfold stuck, blocked, queue_of in *. by rewrite retiring_queues0, retiring_decoded0, retiring_ready0. Qed.
Lemma publish_ready_stuck : triple (fun _ => True) publish_ready (fun _ => stuck).
Proof.
  apply (triple_bind _ _ (fun _ _ => True)); [by intros ???|]. intros _.
  intros s s' [] _ Hs. run_in Hs. apply run_bind in Hs as (s1 & [] & H1 & Hs). eapply stuck_retiring; [by eapply run_always; [apply sweep_retiring|]|].
  refine (iterate_ends (fun _ => queued) publish_round (fun _ _ => True) stuck _ tt publish_round_shrinks _ _ _ _ _ H1); [|split; [done|lia]].
  intros [] s2 s3 [[]|] _ H2; [done|]. by apply publish_round_stuck in H2 as [_ H2].
Qed.

(** ** The decoding loop *)
(** A turn changes the media, the jobs, the scheduler and the order of the surfaces. *)
Record decoding (s s' : EncodedDestinationState) : Prop := {
  decoding_queues : queues s' = queues s;
  decoding_decoded : decoded s' = decoded s;
  decoding_ready : ready_surfaces s' ≡ₚ ready_surfaces s;
  decoding_cancelled : cancelled_frames s' = cancelled_frames s;
  decoding_streams : streams s' = streams s;
  decoding_retirement : pending_retirement s' = pending_retirement s;
  decoding_output : output s' = output s;
  decoding_activity : activity s' = activity s;
  decoding_calls : calls s `prefix_of` calls s';
}.
#[export] Instance decoding_po : PreOrder decoding.
Proof. split; [by constructor|]. intros a b c [] []. constructor; try congruence; by etrans. Qed.
Lemma take_token_decoding : always decoding (take_counter next_token set_next_token "encoded decode token" : M Z).
Proof. intros s. unfold take_counter. by destruct (next_token s). Qed.
#[local] Hint Resolve take_token_decoding : keeps.
Lemma schedule_decode_decoding f session : always decoding (schedule_decode f session).
Proof.
  unfold schedule_decode. keep. clear. intros s. destruct (try_decode _ _) as [? []]; constructor; cbn; try done; by eexists.
Qed.
#[local] Hint Resolve schedule_decode_decoding : keeps.
Lemma rotate_perm sf l : rotate sf l ≡ₚ l.
Proof.
  unfold rotate. destruct (list_find _ _) as [[i x]|]; [|done]. rewrite Permutation_app_comm. by rewrite take_drop.
Qed.
Lemma decode_turn_decoding now busy : always decoding (decode_turn now busy).
Proof.
  unfold decode_turn. keep. intros s1. constructor; cbn; try done. apply rotate_perm.
Qed.
#[local] Hint Resolve decode_turn_decoding : keeps.
(** What a frame is chosen from waits in the surface's queue, undecoded, with its media. *)
Definition line s sf : list MediaFrameId := queue_of s sf ≫= (fun q => encoded_frames (queued_event q)).
Lemma decode_candidate_line s sf session f : decode_candidate s sf = Some (session, f) ->
  f ∈ line s sf /\ submitted s f = false /\ is_Some (media_frames s !! f).
Proof.
  unfold decode_candidate, line. destruct (queue_of s sf) as [|front rest]; [done|]. destruct (head (filter _ _)) as [f'|] eqn:Hh; [|done].
  intros [= _ ->]. apply head_Some_elem_of, list_elem_of_filter in Hh as [[H1 H2] Hf]. split; [|done].
  apply list_elem_of_bind. unfold decode_target in Hf. destruct (head rest) as [next|] eqn:Hr.
  - case_match; [exists next|exists front]; (split; [done|]); [|left]. right. by apply head_Some_elem_of.
  - exists front. split; [done|left].
Qed.
Lemma take_counter_run counter put name s s' v :
  (take_counter counter put name : M Z) s = (s', Ret v) -> counter s = Some v /\ s' = put (checked_add v 1) s.
Proof. unfold take_counter. destruct (counter s); [|done]. by intros [= <- <-]. Qed.
(** What [schedule_decode] did: the frame's job was accepted, or its media is back. *)
Definition job_started f session media token request k s s' : Prop :=
  media_frames s !! f = Some media /\ media_session media = session /\ next_token s = Some token /\
  decode_token request = token /\ decode_unit request = media_unit media /\
  (exists q m, q ∈ queued_events s /\ encoded_metadata f (queued_event q) = Some m /\
    visible_width request = width (extent m) /\ visible_height request = height (extent m)) /\
  s' = set_decode_in_flight (<[token := MkInFlightDecode f false]> (decode_in_flight s))
         (called k (Submitted request) (set_next_token (checked_add token 1) (set_media_frames (delete f (media_frames s)) s))).
Definition job_refused f session token unit k s s' : Prop :=
  is_Some (media_frames s !! f) /\ next_token s = Some token /\ unit_frame unit = f /\
  s' = set_media_frames (<[f := MkPendingMedia session unit]> (media_frames s))
         (called k (Refused f) (set_next_token (checked_add token 1) s)).
Lemma schedule_decode_run f session s s' b : is_Some (media_frames s !! f) -> schedule_decode f session s = (s', Ret b) ->
  if b then exists media token request k, job_started f session media token request k s s'
  else exists token unit k, job_refused f session token unit k s s'.
Proof.
  intros [media Hm] Hs. unfold schedule_decode in Hs. run_step Hs. cbn beta in Hs. rewrite Hm in Hs. run_in Hs.
  apply ensure_Ret_inv, bool_decide_eq_true in Hlift. apply opt_context_Ret_inv in Hlift0.
  apply run_bind in Hs as (s1 & t & [Ht ->]%take_counter_run & Hs). cbn [next_token set_media_frames] in Ht.
  apply run_bind in Hs as (s1 & adm & Ha & Hs). destruct (try_decode _ _) as [k a] eqn:Hk. injection Ha as Ha <-. cbn in Hk.
  destruct a as [|returned| |]; [| |run_in Hs; done..].
  - run_in Hs. apply head_Some_elem_of, list_elem_of_omap in Hlift0 as (q & Hq & He).
    eexists _, t, _, k. split_and!; [done|done|done| | | |reflexivity]; [done..|]. by exists q, x1.
  - run_in Hs. apply ensure_Ret_inv, andb_true_iff in Hlift1 as [_ Hf%bool_decide_eq_true].
    eexists t, (decode_unit returned), k. split_and!; [by eexists|done|done|]. unfold called, set_media_frames. cbn. by rewrite insert_delete_eq.
Qed.
(** The outcomes of a turn. *)
Definition idle s (busy : list ClientSurfaceId) : Prop :=
  forall sf, sf ∈ ready_surfaces s -> is_Some (decode_candidate s sf) -> sf ∈ busy \/ group (activity s) sf = None.
Definition turn_started sf (busy next : list ClientSurfaceId) sched sched' s s' : Prop :=
  exists session f media token request k s1, decode_candidate s sf = Some (session, f) /\
    job_started f session media token request k (set_scheduler sched s) s1 /\
    s' = set_ready_surfaces (rotate sf (ready_surfaces s)) (set_scheduler sched' s1) /\ next = busy.
Definition turn_refused sf (busy next : list ClientSurfaceId) sched s s' : Prop :=
  exists session f token unit k, decode_candidate s sf = Some (session, f) /\
    job_refused f session token unit k (set_scheduler sched s) s' /\ next = busy ++ [sf].
Lemma decode_turn_run now busy s s' next : decode_turn now busy s = (s', Ret next) ->
  match next with
  | Some next => exists sf sched sched', sf ∈ ready_surfaces s /\ sf ∉ busy /\
      (turn_started sf busy next sched sched' s s' \/ turn_refused sf busy next sched s s')
  | None => idle s busy /\ exists sched, s' = set_scheduler sched s
  end.
Proof.
  intros Hs. unfold decode_turn in Hs. apply run_bind in Hs as (s1 & chosen & Hc & Hs).
  pose proof (select_candidate (filter (fun sf => is_Some (decode_candidate s sf)) (ready_surfaces s)) busy (activity s) (policy s) now (scheduler s)) as Hsel.
  destruct (Scheduling.select _ _ _ _ _ _) as [sched c]. cbn in Hsel. injection Hc as <- <-. destruct c as [sel|].
  - destruct Hsel as [[[[session f] Hd] Hr]%list_elem_of_filter Hb]. run_step Hs. cbn beta in Hs.
    change (decode_candidate (set_scheduler sched s)) with (decode_candidate s) in Hs. rewrite Hd in Hs.
    apply run_bind in Hs as (s1 & b & H1 & Hs). apply schedule_decode_run in H1; [|by apply decode_candidate_line in Hd as (_ & _ & ?)].
    destruct b; run_in Hs; exists (sel_surface sel), sched.
    + destruct H1 as (media & token & request & k & H1). eexists. split; [done|split; [done|]]. left.
      exists session, f, media, token, request, k. eexists. split_and!; [done|exact H1| |done].
      destruct H1 as (_ & _ & _ & _ & _ & _ & ->). reflexivity.
    + destruct H1 as (token & unit & k & H1). exists sched. split; [done|split; [done|]]. right.
      by exists session, f, token, unit, k.
  - run_in Hs. split; [|by exists sched]. intros sf Hsf Hd. apply Hsel. by apply list_elem_of_filter.
Qed.
Definition decode_left (busy : list ClientSurfaceId) s : nat := (size (media_frames s) + length (filter (fun sf => sf ∉ busy) (ready_surfaces s)))%nat.
Lemma decode_turn_shrinks now : shrinks decode_left (decode_turn now).
Proof.
  intros busy s s' next (sf & sched & sched' & Hr & Hb & H)%decode_turn_run. unfold decode_left.
  destruct H as [(session & f & media & token & request & k & s1 & _ & (Hm & _ & _ & _ & _ & _ & ->) & -> & ->)|(session & f & token & unit & k & _ & ([media Hm] & _ & _ & ->) & ->)];
    cbn in *.
  - rewrite map_size_delete, Hm, rotate_perm. pose proof (map_size_ne_0_lookup_2 _ _ (mk_is_Some _ _ Hm)). lia.
  - rewrite map_size_insert, Hm. unfold id. enough (length (filter (fun x => x ∉ busy ++ [sf]) (ready_surfaces s)) < length (filter (fun x => x ∉ busy) (ready_surfaces s)))%nat by lia.
    rewrite (list_filter_iff _ (fun x => x <> sf /\ x ∉ busy)) by (intros x; set_solver). rewrite <- list_filter_filter.
    apply (length_filter_lt _ _ sf); [by apply list_elem_of_filter|tauto].
Qed.

(** ** What the loops leave *)
(** A call made between two states. *)
Definition called_between s s' (c : call) : Prop := exists l, calls s' = calls s ++ l /\ c ∈ l.
Definition grows s s' : Prop := calls s `prefix_of` calls s'.
#[export] Instance grows_po : PreOrder grows.
Proof. split; [by intros ?; unfold grows|]. intros a b c. unfold grows. by etrans. Qed.
Lemma called_between_trans s s1 s2 c : grows s s1 -> called_between s1 s2 c -> called_between s s2 c.
Proof. intros [l1 H1] (l & H2 & Hc). exists (l1 ++ l). rewrite H2, H1, app_assoc. split; [done|]. apply elem_of_app. by right. Qed.
Lemma called_between_grows s s1 s2 c : called_between s s1 c -> grows s1 s2 -> called_between s s2 c.
Proof. intros (l & H2 & Hc) [l1 H1]. exists (l ++ l1). rewrite H1, H2, <- app_assoc. split; [done|]. apply elem_of_app. by left. Qed.
Lemma importing_grows {A} (m : M A) : always importing m -> always grows m.
Proof. intros H s. apply H. Qed.
Lemma retiring_grows {A} (m : M A) : always retiring m -> always grows m.
Proof. intros H s. apply H. Qed.
#[local] Hint Resolve importing_grows retiring_grows : keeps.
#[local] Hint Extern 1 (always grows _) => (by (let s := fresh in intros s; unfold grows; cbn; reflexivity)) : keeps.
Lemma pop_event_grows sf : always grows (pop_event sf).
Proof. intros s. unfold pop_event, grows. repeat case_match; done. Qed.
#[local] Hint Resolve pop_event_grows : keeps.
Lemma publish_surface_grows sf : always grows (publish_surface sf).
Proof. unfold publish_surface. keep. Qed.
#[local] Hint Resolve publish_surface_grows : keeps.
Lemma publish_surfaces_grows l : always grows (publish_surfaces l).
Proof. induction l; cbn; keep. Qed.
#[local] Hint Resolve publish_surfaces_grows : keeps.
Lemma publish_ready_grows : always grows publish_ready.
Proof. unfold publish_ready, publish_round. keep. Qed.
(** A surface with a frame to decode belongs to no group, or the decoder just was too busy
    for it. *)
Definition decoder_settled s s' : Prop :=
  forall sf, sf ∈ ready_surfaces s' -> is_Some (decode_candidate s' sf) ->
    group (activity s') sf = None \/ exists f, f ∈ line s' sf /\ called_between s s' (Refused f).
Definition turned s (busy : list ClientSurfaceId) s' : Prop :=
  grows s s' /\ stuck s' /\ forall sf, sf ∈ busy -> exists f, f ∈ line s' sf /\ called_between s s' (Refused f).
Lemma decoding_stuck s s' : decoding s s' -> stuck s -> stuck s'.
Proof. intros [] H. unfold stuck, blocked, queue_of in *. by rewrite decoding_queues0, decoding_decoded0, decoding_ready0. Qed.
Lemma decoding_line s s' sf : decoding s s' -> line s' sf = line s sf.
Proof. intros []. unfold line, queue_of. by rewrite decoding_queues0. Qed.
Lemma decode_turn_turned now s0 busy :
  triple (turned s0 busy) (decode_turn now busy)
    (fun next s => match next with Some busy => turned s0 busy s | None => stuck s /\ decoder_settled s0 s end).
Proof.
  intros s s' next (Hg & Hs & Hb) Ht. pose proof (run_always _ _ _ _ _ (decode_turn_decoding _ _) Ht) as Hd.
  assert (Hg' : grows s0 s') by (etrans; [exact Hg|apply Hd]). apply decode_turn_run in Ht. destruct next as [next|].
  - assert (Hold : forall sf, sf ∈ busy -> exists f, f ∈ line s' sf /\ called_between s0 s' (Refused f)).
    { intros sf (f & Hf & Hc)%Hb. exists f. rewrite (decoding_line _ _ _ Hd). split; [done|]. eapply called_between_grows; [done|apply Hd]. }
    split; [done|]. split; [by eapply decoding_stuck|]. destruct Ht as (sf & sched & sched' & _ & _ & [H|H]).
    + by destruct H as (?&?&?&?&?&?&?&_&_&_&->).
    + destruct H as (session & f & token & unit & k & Hc & (_ & _ & _ & ->) & ->). intros sf' [H| ->%list_elem_of_singleton]%elem_of_app; [by apply Hold|].
      exists f. split; [by apply decode_candidate_line in Hc as []|]. eapply called_between_trans; [exact Hg|]. exists [Refused f]. by split; [|left].
  - destruct Ht as [Hi [sched ->]]. split; [done|]. intros sf Hsf Hc. destruct (Hi sf Hsf Hc) as [H|H]; [right; by apply Hb|by left].
Qed.
Lemma decode_candidate_ext s s' sf :
  queues s' = queues s -> media_frames s' = media_frames s -> decoded s' = decoded s -> decode_in_flight s' = decode_in_flight s ->
  decode_candidate s' sf = decode_candidate s sf.
Proof. intros H1 H2 H3 H4. unfold decode_candidate, decode_target, submitted, queue_of. by rewrite H1, H2, H3, H4. Qed.
(** After [advance] the first event of every surface waits for a frame, and the decoder
    takes no more. *)
Lemma decode_advance_settles clock s s' : advance clock s = (s', Ret tt) -> stuck s' /\ decoder_settled s s'.
Proof.
  intros Hs. unfold advance in Hs. apply run_bind in Hs as (s1 & [] & H1 & Hs). run_in Hs. apply run_bind in Hs as (s2 & [] & H2 & Hs).
  pose proof (run_always _ _ _ _ _ publish_ready_grows H1) as Hg. apply publish_ready_stuck in H1; [|done].
  pose proof (run_always _ _ _ _ _ sweep_retiring Hs) as Hr.
  assert (stuck s2 /\ decoder_settled s s2) as [H3 H4].
  { refine (iterate_ends (fun x => decode_left x.2) (in_time clock decode_turn) (fun x => turned s x.2) (fun x => stuck x /\ decoder_settled s x) _ _
      (shrinks_in_time _ clock _ decode_turn_shrinks) _ _ _ _ _ H2).
    { intros x. apply triple_in_time. intros y y' next Hy Ht. pose proof (decode_turn_turned _ _ _ _ _ _ Hy Ht) as Hn. by destruct next. }
    split; [split; [done|split; [done|by intros ? ?%not_elem_of_nil]]|].
    unfold decode_left, decode_fuel. pose proof (length_filter (fun sf => sf ∉ []) (ready_surfaces s1)). cbn [snd]. lia. }
  split; [by eapply stuck_retiring|]. intros sf Hsf Hc. destruct Hr. rewrite retiring_ready0 in Hsf.
  rewrite (decode_candidate_ext s2 s') in Hc by done. rewrite retiring_activity0.
  destruct (H4 sf Hsf Hc) as [H|(f & Hf & H)]; [by left|right]. exists f. unfold line, queue_of. rewrite retiring_queues0.
  split; [done|]. by eapply called_between_grows.
Qed.
End Destination.
Arguments EncodedDestinationState K P Buf : clear implicits.
Arguments call Buf : clear implicits.
#[export] Hint Resolve publish_decoded_importing import_buffer_importing import_updates_importing retire_now_retiring sweep_retiring
  schedule_decode_decoding decode_turn_decoding : keeps.
