(* ===== verification/DestinationFrames.v ===== *)
(** * What a destination decodes

    The frames of an encoded destination: which are named by the events that arrived,
    which wait for the decoder, which it was given, and which generations were retired. *)

From S2P Require Import Prelude.
From S2P Require Import Effects.
From S2P Require Import Ids.
From S2P Require Import Surface.
From S2P Require Import Activity.
From S2P Require Import Scheduling.
From S2P Require Import Framing.
From S2P Require Import Commit.
From S2P Require Import Packets.
From S2P Require Import Destination.

(** ** Arrivals *)
Abbreviation WireEvent := (ClientSurfaceEvent EncodedBuffer) (only parsing).
Inductive arrival := Arrived (session : HoistSessionId) (e : WireEvent) | Withdrawn (sf : ClientSurfaceId).
Abbreviation place := (ClientSurfaceId * SurfaceLayerId)%type (only parsing).

(** The frames an arrival names, with their surface and layer. *)
Definition update_names (sf : ClientSurfaceId) (us : list (SurfaceBufferUpdate EncodedBuffer)) : list (place * MediaFrameId) :=
  omap (fun u => match change u with Replaced _ b => Some ((sf, layer u), buffer_frame b) | _ => None end) us.
Definition names (a : arrival) : list (place * MediaFrameId) :=
  match a with
  | Arrived _ e => match event_kind e with Commit c => update_names (surface e) (buffers c) | _ => [] end
  | Withdrawn _ => []
  end.
Definition named (l : list arrival) : list (place * MediaFrameId) := l ≫= names.
(** The commit goes on with the generation in the layer. *)
Definition goes_on (c : ClientSurfaceState EncodedBuffer) (l : SurfaceLayerId) (g : EncodedGeneration) : bool :=
  existsb (fun u => bool_decide (layer u = l) && match change u with
                                                 | Retained _ => true
                                                 | Replaced _ b => bool_decide (generation_of (buffer_frame b) = g)
                                                 | Removed => false
                                                 end) (buffers c).
Definition ends (a : arrival) (p : place) (g : EncodedGeneration) : Prop :=
  match a with
  | Arrived _ e =>
      surface e = p.1 /\ match event_kind e with
                         | Destroyed => True
                         | Commit c => goes_on c p.2 g = false
                         | _ => False
                         end
  | Withdrawn sf => sf = p.1
  end.
(** An arrival ended the generation. *)
Definition ended (l : list arrival) (g : EncodedGeneration) : Prop :=
  exists before a after p f, l = before ++ a :: after /\ (p, f) ∈ named before /\ generation_of f = g /\ ends a p g.
Definition commit_layers (a : arrival) : list SurfaceLayerId :=
  match a with
  | Arrived _ e => match event_kind e with Commit c => layer <$> buffers c | _ => [] end
  | Withdrawn _ => []
  end.
(** What may arrive next: a commit names a layer once, and new frames, each of a generation
    that belongs to its layer and was not ended. *)
Record admissible (l : list arrival) (a : arrival) : Prop := {
  admissible_layers : NoDup (commit_layers a);
  admissible_fresh : NoDup (snd <$> names a) /\ forall f, f ∈ snd <$> names a -> f ∉ snd <$> named l;
  admissible_open : forall p f, (p, f) ∈ names a -> ~ ended l (generation_of f);
  admissible_owner : forall p f p' f', (p, f) ∈ names a -> (p', f') ∈ named l ++ names a ->
    generation_of f' = generation_of f -> p' = p;
}.

Section DestinationFrames.
Context {K P Buf : Type} {decoder : DecodeBackend K Buf} {frames : DecodedFramePublisher P Buf}.
Context {job_visit : HashOrder Z InFlightDecode} {queue_visit : HashOrder ClientSurfaceId (list QueuedDestinationEvent)}.
Context {retirement_visit : HashOrder EncodedGeneration unit}.
Abbreviation state := (EncodedDestinationState K P Buf).
Implicit Types (s : state) (sf : ClientSurfaceId) (f : MediaFrameId) (g : EncodedGeneration) (l : list arrival).

(** What the decoder was asked. *)
Definition asked_in (cs : list (call Buf)) : list MediaFrameId :=
  omap (fun c => match c with Submitted r => Some (unit_frame (decode_unit r)) | _ => None end) cs.
Definition asked s : list MediaFrameId := asked_in (calls s).
Definition of_generation g (fs : list MediaFrameId) : list MediaFrameId := filter (fun f => generation_of f = g) fs.
Definition waiting s sf : list MediaFrameId := filter (fun f => submitted s f = false) (line s sf).
(** The frames of a queue, an event after the other. *)
Definition stages (q : list QueuedDestinationEvent) : list (list MediaFrameId) :=
  filter (fun fs => fs <> []) ((fun x => encoded_frames (queued_event x)) <$> q).
(** The decoder is one commit ahead at most, and then had all of the first. *)
Definition in_turn (sub : MediaFrameId -> bool) (st : list (list MediaFrameId)) : Prop :=
  match st with
  | [] => True
  | a :: rest =>
      (forall b f, b ∈ tail rest -> f ∈ b -> sub f = false) /\
      (forall b f, head rest = Some b -> f ∈ b -> sub f = true -> forall f', f' ∈ a -> sub f' = true)
  end.
(** No generation is decoded after it was retired. *)
Definition no_reuse (cs : list (call Buf)) : Prop :=
  forall c1 st gn c2, cs = c1 ++ Retired st gn :: c2 -> forall f, f ∈ asked_in c2 -> generation_of f <> (st, gn).

Record Frames_ok l s : Prop := {
  ok_fresh : NoDup (snd <$> named l);
  ok_owner : forall p f p' f', (p, f) ∈ named l -> (p', f') ∈ named l -> generation_of f' = generation_of f -> p' = p;
  ok_line : forall sf f, f ∈ line s sf -> exists ly, ((sf, ly), f) ∈ named l;
  ok_line_nodup : forall sf, NoDup (line s sf);
  ok_distinct : forall sf fs, fs ∈ stages (queue_of s sf) -> NoDup (generation_of <$> fs);
  ok_turn : forall sf, in_turn (submitted s) (stages (queue_of s sf));
  ok_order : forall sf ly f, ((sf, ly), f) ∈ named l -> exists rest,
    of_generation (generation_of f) (snd <$> named l) =
      of_generation (generation_of f) (asked s) ++ of_generation (generation_of f) (waiting s sf) ++ rest /\
    (rest <> [] -> ended l (generation_of f));
  ok_submitted : forall f, submitted s f = true -> f ∈ asked s;
  ok_asked : forall f, f ∈ asked s -> f ∈ snd <$> named l;
  ok_token : forall t n, is_Some (decode_in_flight s !! t) -> next_token s = Some n -> t < n;
  ok_cancelled : forall t j, decode_in_flight s !! t = Some j -> in_flight_cancelled j = true ->
    ended l (generation_of (in_flight_frame j)) /\ forall sf, in_flight_frame j ∉ line s sf;
  ok_streams : forall p g, streams s !! p = Some g -> exists f, (p, f) ∈ named l /\ generation_of f = g;
  ok_pending : forall g, is_Some (pending_retirement s !! g) -> ended l g;
  ok_retired : forall st gn, Retired st gn ∈ calls s -> ended l (st, gn) /\
    (forall t j, decode_in_flight s !! t = Some j -> generation_of (in_flight_frame j) <> (st, gn)) /\
    (forall sf f, f ∈ line s sf -> generation_of f = (st, gn) -> is_Some (decoded s !! f));
  ok_media : forall f m, media_frames s !! f = Some m -> unit_frame (media_unit m) = f;
  ok_calls : no_reuse (calls s);
  ok_ready : forall sf, queue_of s sf <> [] -> sf ∈ ready_surfaces s;
}.

(** ** Lemmas on frames *)
Lemma asked_in_app c1 c2 : asked_in (c1 ++ c2) = asked_in c1 ++ asked_in c2.
Proof. apply omap_app. Qed.
Lemma no_reuse_snoc cs c : no_reuse cs ->
  (forall f st gn, f ∈ asked_in [c] -> Retired st gn ∈ cs -> generation_of f <> (st, gn)) -> no_reuse (cs ++ [c]).
Proof.
  intros H Hc c1 st gn c2 Heq f Hf. destruct c2 as [|x c2 _] using rev_ind; [by apply not_elem_of_nil in Hf|].
  rewrite app_comm_cons, app_assoc in Heq. apply app_inj_tail in Heq as [-> <-]. rewrite asked_in_app in Hf.
  apply elem_of_app in Hf as [Hf|Hf]; [by eapply H|]. apply (Hc f); [done|]. set_solver.
Qed.
Lemma ended_snoc l a g : ended l g -> ended (l ++ [a]) g.
Proof.
  intros (before & x & after & p & f & -> & H). exists before, x, (after ++ [a]), p, f. split; [|done]. by rewrite <- app_assoc.
Qed.
Lemma ended_now l a p f : (p, f) ∈ named l -> ends a p (generation_of f) -> ended (l ++ [a]) (generation_of f).
Proof. intros Hf Ha. by exists l, a, [], p, f. Qed.
Lemma named_app l l' : named (l ++ l') = named l ++ named l'.
Proof. apply bind_app. Qed.
Lemma named_snoc l a : named (l ++ [a]) = named l ++ names a.
Proof. rewrite named_app. unfold named at 2. cbn. by rewrite app_nil_r. Qed.
Lemma update_frames_names sf us : snd <$> update_names sf us = update_frames us.
Proof. induction us as [|[ly [m|m b|]] us IH]; [done|exact IH|exact (f_equal (cons _) IH)|exact IH]. Qed.
Lemma names_frames ss e : snd <$> names (Arrived ss e) = encoded_frames e.
Proof. unfold encoded_frames, names. destruct (event_kind e); try done. apply update_frames_names. Qed.
Lemma concat_stages q : concat (stages q) = q ≫= (fun x => encoded_frames (queued_event x)).
Proof.
  unfold stages. induction q as [|x q IH]; [done|]. rewrite fmap_cons, filter_cons. case_decide as H; cbn; rewrite IH; [done|].
  by rewrite H.
Qed.
Lemma line_stages s sf : line s sf = concat (stages (queue_of s sf)).
Proof. symmetry. apply concat_stages. Qed.
Lemma stages_app q q' : stages (q ++ q') = stages q ++ stages q'.
Proof. unfold stages. by rewrite fmap_app, list.filter_app. Qed.
Lemma stages_nonempty q fs : fs ∈ stages q -> fs <> [].
Proof. by intros [? _]%list_elem_of_filter. Qed.
Lemma of_generation_app g fs fs' : of_generation g (fs ++ fs') = of_generation g fs ++ of_generation g fs'.
Proof. apply list.filter_app. Qed.
Lemma submitted_iff s f : submitted s f = true <->
  is_Some (decoded s !! f) \/ exists t j, decode_in_flight s !! t = Some j /\ in_flight_frame j = f.
Proof.
  unfold submitted. rewrite orb_true_iff, bool_decide_eq_true, existsb_exists. apply or_iff_compat_l. split.
  - intros ([t j] & Hj%list_elem_of_In%elem_of_map_to_list & Hf%bool_decide_eq_true). by exists t, j.
  - intros (t & j & Hj & Hf). exists (t, j). split; [by apply list_elem_of_In, elem_of_map_to_list|by apply bool_decide_eq_true].
Qed.
Lemma submitted_ext s s' f : decoded s' = decoded s -> decode_in_flight s' = decode_in_flight s -> submitted s' f = submitted s f.
Proof. intros H1 H2. unfold submitted. by rewrite H1, H2. Qed.
Lemma line_ext s s' sf : queue_of s' sf = queue_of s sf -> line s' sf = line s sf.
Proof. intros H. unfold line. by rewrite H. Qed.
Lemma waiting_ext s s' sf : line s' sf = line s sf -> (forall f, f ∈ line s sf -> submitted s' f = submitted s f) -> waiting s' sf = waiting s sf.
Proof. intros Hl Hs. unfold waiting. rewrite Hl. apply filter_ext. intros f Hf. by rewrite Hs. Qed.
Lemma in_turn_ext (sub sub' : MediaFrameId -> bool) st :
  (forall f, f ∈ concat st -> sub' f = sub f) -> in_turn sub st -> in_turn sub' st.
Proof.
  destruct st as [|a rest]; [done|]. intros Hs [H1 H2]. cbn in Hs. split.
  - intros b f Hb Hf. rewrite Hs; [by eapply H1|]. apply elem_of_app. right. apply list_elem_of_In, in_concat.
    exists b. rewrite <- !list_elem_of_In. split; [|done]. destruct rest; [done|by right].
  - intros b f Hb Hf Hsub f' Hf'. assert (f ∈ concat rest).
    { destruct rest; [done|]. injection Hb as ->. cbn. apply elem_of_app. by left. }
    rewrite Hs in Hsub |- * by (apply elem_of_app; auto). by eapply H2.
Qed.

(** ** Steps that keep the frames *)
(** Calls of the publisher, and refusals, do not matter to the decoder. *)
Definition plain_calls (cs cs' : list (call Buf)) : Prop :=
  exists new, cs' = cs ++ new /\ asked_in new = [] /\ forall st gn, Retired st gn ∉ new.
Lemma plain_refl cs : plain_calls cs cs.
Proof. exists []. rewrite app_nil_r. split_and!; [done..|]. by intros ?? ?%not_elem_of_nil. Qed.
Lemma plain_trans c1 c2 c3 : plain_calls c1 c2 -> plain_calls c2 c3 -> plain_calls c1 c3.
Proof.
  intros (n1 & -> & A1 & R1) (n2 & -> & A2 & R2). exists (n1 ++ n2). rewrite <- app_assoc, asked_in_app, A1, A2.
  split_and!; [done..|]. by intros ? ? [?%R1|?%R2]%elem_of_app.
Qed.
Lemma plain_asked cs cs' : plain_calls cs cs' -> asked_in cs' = asked_in cs.
Proof. intros (new & -> & H & _). by rewrite asked_in_app, H, app_nil_r. Qed.
Lemma plain_retired cs cs' st gn : plain_calls cs cs' -> Retired st gn ∈ cs' -> Retired st gn ∈ cs.
Proof. intros (new & -> & _ & H) [?|?%H]%elem_of_app; done. Qed.
Lemma plain_no_reuse cs cs' : plain_calls cs cs' -> no_reuse cs -> no_reuse cs'.
Proof.
  intros (new & -> & Ha & Hr) H. induction new as [|x new IH] using rev_ind; [by rewrite app_nil_r|].
  rewrite asked_in_app in Ha. apply app_nil in Ha as [Ha Hx]. rewrite app_assoc. apply no_reuse_snoc.
  - apply IH; [done|]. intros st gn Hin. apply (Hr st gn). set_solver.
  - rewrite Hx. by intros f ?? ?%not_elem_of_nil.
Qed.
(** What is decoded and waits nowhere may be forgotten; the rest of what the theorems are
    about stays. *)
Record aside (fs : list MediaFrameId) s s' : Prop := {
  aside_queue : forall sf, queue_of s' sf = queue_of s sf;
  aside_sub : decoded s' ⊆ decoded s;
  aside_decoded : forall f, f ∉ fs -> decoded s' !! f = decoded s !! f;
  aside_jobs : decode_in_flight s' = decode_in_flight s;
  aside_streams : streams s' = streams s;
  aside_pending : pending_retirement s' = pending_retirement s;
  aside_token : forall n', next_token s' = Some n' -> exists n, next_token s = Some n /\ n <= n';
  aside_media : forall f m, media_frames s' !! f = Some m -> media_frames s !! f = Some m \/ unit_frame (media_unit m) = f;
  aside_calls : plain_calls (calls s) (calls s');
  aside_ready : forall sf, sf ∈ ready_surfaces s -> queue_of s sf <> [] -> sf ∈ ready_surfaces s';
}.
Lemma decoder_aside_ok l fs s s' : aside fs s s' -> (forall sf f, f ∈ fs -> f ∉ line s sf) -> Frames_ok l s -> Frames_ok l s'.
Proof.
  intros [Aq Asub Ad Aj As Ap At Am Ac Ar] Hoff H.
  assert (Hl : forall sf, line s' sf = line s sf) by (intros; by apply line_ext).
  assert (Hls : forall sf f, f ∈ line s sf -> decoded s' !! f = decoded s !! f /\ submitted s' f = submitted s f).
  { intros sf f Hf. assert (Hdf : decoded s' !! f = decoded s !! f) by (apply Ad; intros ?; by eapply Hoff). split; [done|].
    unfold submitted. by rewrite Hdf, Aj. }
  assert (Hs : forall f, submitted s' f = true -> submitted s f = true).
  { intros f. rewrite !submitted_iff, Aj. intros [[b Hb]|?]; [left|by right]. exists b. by eapply lookup_weaken. }
  assert (Ha : asked s' = asked s) by by apply plain_asked.
  constructor; try apply H.
  - intros sf f. rewrite Hl. apply H.
  - intros sf. rewrite Hl. apply H.
  - intros sf. rewrite Aq. apply H.
  - intros sf. rewrite Aq. apply (in_turn_ext (submitted s)); [|apply H]. intros f Hf. rewrite <- line_stages in Hf. by eapply Hls.
  - intros sf ly f Hf. rewrite Ha, (waiting_ext s s') by (done || intros; by eapply Hls). by eapply ok_order.
  - intros f Hf%Hs. rewrite Ha. by apply H.
  - intros f. rewrite Ha. apply H.
  - intros t n'. rewrite Aj. intros Ht (n & Hn & Hle)%At. pose proof (ok_token _ _ H t n Ht Hn). lia.
  - intros t j. rewrite Aj. intros Hj Hc. destruct (ok_cancelled _ _ H t j Hj Hc) as [H1 H2]. split; [done|]. intros sf. by rewrite Hl.
  - rewrite As. apply H.
  - rewrite Ap. apply H.
  - intros st gn Hr. apply (plain_retired _ _ _ _ Ac) in Hr. destruct (ok_retired _ _ H st gn Hr) as (H1 & H2 & H3).
    rewrite Aj. split_and!; [done..|]. intros sf f. rewrite Hl. intros Hf Hg. destruct (Hls sf f Hf) as [-> _]. by eapply H3.
  - intros f m Hm. destruct (Am f m Hm) as [Hm'|]; [by eapply ok_media|done].
  - eapply plain_no_reuse; [done|apply H].
  - intros sf. rewrite Aq. intros Hq. apply Ar; [by apply H|done].
Qed.

(** ** Publication *)
Lemma line_disjoint l s sf sf' f : Frames_ok l s -> f ∈ line s sf -> f ∈ line s sf' -> sf' = sf.
Proof.
  intros H (ly & Hf)%(ok_line _ _ H) (ly' & Hf')%(ok_line _ _ H). by injection (ok_owner _ _ H _ _ _ _ Hf Hf' eq_refl).
Qed.
Lemma queue_of_put s sf q sf' : queue_of (set_queues (<[sf := q]> (queues s)) s) sf' = if decide (sf' = sf) then q else queue_of s sf'.
Proof. unfold queue_of. cbn. destruct (decide (sf' = sf)) as [->|Hn]; [by rewrite lookup_insert_eq|by rewrite lookup_insert_ne]. Qed.
Lemma in_turn_tail sub a st : in_turn sub (a :: st) -> in_turn sub st.
Proof.
  intros [H1 H2]. destruct st as [|b st]; [done|]. cbn in H1. split.
  - intros c f Hc. apply H1. destruct st; [done|by right].
  - intros c f Hc Hf Hs. exfalso. destruct st as [|d st]; [done|]. injection Hc as ->. rewrite (H1 c f) in Hs; [done|left|done].
Qed.
Lemma stages_cons q rest : stages (q :: rest) = if decide (encoded_frames (queued_event q) = []) then stages rest
  else encoded_frames (queued_event q) :: stages rest.
Proof. unfold stages. rewrite fmap_cons, filter_cons. by repeat case_decide. Qed.
Lemma decoder_pop_ok l sf q rest s : queue_of s sf = q :: rest -> (forall f, f ∈ encoded_frames (queued_event q) -> is_Some (decoded s !! f)) ->
  Frames_ok l s -> let s' := set_queues (<[sf := rest]> (queues s)) s in
  Frames_ok l s' /\ forall sf' f, f ∈ encoded_frames (queued_event q) -> f ∉ line s' sf'.
Proof.
  intros Hq Hd H s'.
  assert (Hl : line s sf = encoded_frames (queued_event q) ++ line s' sf).
  { unfold line, s'. rewrite Hq, queue_of_put, decide_True by done. done. }
  assert (Ho : forall sf', sf' <> sf -> queue_of s' sf' = queue_of s sf').
  { intros sf' Hn. unfold s'. by rewrite queue_of_put, decide_False. }
  assert (Hin : forall sf' f, f ∈ line s' sf' -> f ∈ line s sf').
  { intros sf' f. destruct (decide (sf' = sf)) as [->|Hn]; [rewrite Hl, elem_of_app; by right|by rewrite (line_ext s s') by auto]. }
  pose proof (ok_line_nodup _ _ H sf) as Hnd. rewrite Hl in Hnd. apply list.NoDup_app in Hnd as (_ & Hdis & Hnd).
  assert (Hoff : forall sf' f, f ∈ encoded_frames (queued_event q) -> f ∉ line s' sf').
  { intros sf' f Hf Hf'. destruct (decide (sf' = sf)) as [->|Hn]; [by eapply Hdis|]. apply Hn.
    apply (line_disjoint l s sf sf' f H); [rewrite Hl; apply elem_of_app; by left|by apply Hin]. }
  split; [|done]. constructor; try apply H.
  - intros sf' f Hf%Hin. by eapply ok_line.
  - intros sf'. destruct (decide (sf' = sf)) as [->|Hn]; [done|]. rewrite (line_ext s s') by auto. apply H.
  - intros sf' fs Hfs. apply (ok_distinct _ _ H sf'). destruct (decide (sf' = sf)) as [->|Hn]; [|by rewrite Ho in Hfs].
    rewrite Hq, stages_cons. unfold s' in Hfs. rewrite queue_of_put, decide_True in Hfs by done. case_decide; [done|by right].
  - intros sf'. destruct (decide (sf' = sf)) as [->|Hn]; [|rewrite Ho by done; apply H].
    pose proof (ok_turn _ _ H sf) as Ht. rewrite Hq, stages_cons in Ht. unfold s' at 2. rewrite queue_of_put, decide_True by done.
    case_decide; [exact Ht|by eapply in_turn_tail].
  - intros sf' ly f Hf. destruct (ok_order _ _ H sf' ly f Hf) as (rest' & Hr & He). exists rest'. split; [|done]. rewrite Hr. do 2 f_equal.
    destruct (decide (sf' = sf)) as [->|Hn]; [|f_equal; symmetry; apply waiting_ext; [by apply line_ext; auto|done]].
    unfold waiting. rewrite Hl, list.filter_app. enough (filter (fun x => submitted s x = false) (encoded_frames (queued_event q)) = []) as -> by done.
    apply filter_none. intros x Hx. rewrite (proj2 (submitted_iff s x)); [done|]. left. by apply Hd.
  - intros t j Hj Hc. destruct (ok_cancelled _ _ H t j Hj Hc) as [H1 H2]. split; [done|]. by intros sf' Hf%Hin%H2.
  - intros st gn Hr. destruct (ok_retired _ _ H st gn Hr) as (H1 & H2 & H3). split_and!; [done..|]. intros sf' f Hf%Hin. by eapply H3.
  - intros sf'. unfold s' at 1. rewrite queue_of_put. case_decide as Hsf; [subst sf'; intros _|]; apply H. by rewrite Hq.
Qed.
#[local] Instance aside_po fs : PreOrder (aside fs).
Proof.
  split.
  - intros s. constructor; try done; [by eexists|by left|apply plain_refl].
  - intros a b c [] []. constructor; try congruence.
    + by etrans.
    + intros f Hf. rewrite aside_decoded1, aside_decoded0; done.
    + intros n2 (n1 & Hn1 & ?)%aside_token1. apply aside_token0 in Hn1 as (n & Hn & ?). exists n. split; [done|lia].
    + intros f m Hm. destruct (aside_media1 f m Hm) as [Hm'|]; [by apply aside_media0|by right].
    + by eapply plain_trans.
    + intros sf H1 H2. apply aside_ready1; [by apply aside_ready0|]. by rewrite aside_queue0.
Qed.
Lemma take_buffer_aside fs : always (aside fs) (take_counter next_buffer set_next_buffer "decoded buffer" : M state Z).
Proof. intros s. unfold take_counter. destruct (next_buffer s); [|done]. constructor; try done; [by eexists|by left|apply plain_refl]. Qed.
Lemma take_use_aside fs : always (aside fs) (take_counter next_use set_next_use "decoded buffer use" : M state Z).
Proof. intros s. unfold take_counter. destruct (next_use s); [|done]. constructor; try done; [by eexists|by left|apply plain_refl]. Qed.
#[local] Hint Resolve take_buffer_aside take_use_aside : keeps.
Lemma publish_decoded_aside fs b : always (aside fs) (publish_decoded b : M state _).
Proof.
  unfold publish_decoded. keep. clear. intros s. destruct (publish_frame _ _ _ _) as [p [lease| |]];
    constructor; try done; try (by left); try (by eexists); try apply plain_refl.
  exists [Shown b lease]. split_and!; [done..|]. by intros ?? ?%list_elem_of_singleton.
Qed.
#[local] Hint Resolve publish_decoded_aside : keeps.
Lemma import_buffer_aside fs b : buffer_frame b ∈ fs -> always (aside fs) (import_buffer b : M state _).
Proof.
  intros Hb. unfold import_buffer. keep. intros s. constructor; try done; cbn; [apply delete_subseteq| |by eexists|by left|apply plain_refl].
  intros f Hf. apply lookup_delete_ne. congruence.
Qed.
#[local] Hint Resolve import_buffer_aside : keeps.
Lemma import_updates_aside fs us : update_frames us ⊆ fs -> always (aside fs) (import_updates us : M state _).
Proof.
  induction us as [|[ly c] us IH]; intros Hus; [by apply always_id; [apply _|]|].
  assert (Hrest : update_frames us ⊆ fs) by (etrans; [|exact Hus]; unfold update_frames; destruct c; cbn; set_solver).
  specialize (IH Hrest). assert (Hb : forall m b, c = Replaced m b -> buffer_frame b ∈ fs).
  { intros m b ->. apply Hus. unfold update_frames. cbn. left. }
  destruct c as [m|m b|]; [|specialize (Hb m b eq_refl)|]; cbn; keep.
Qed.
Lemma emit_aside fs session e : always (aside fs) (emit session e : M state unit).
Proof. intros s. constructor; try done; [by eexists|by left|apply plain_refl]. Qed.
#[local] Hint Resolve import_updates_aside emit_aside : keeps.
Lemma drop_empty_aside s : aside [] s (drop_empty_queues s).
Proof.
  constructor; try done; [apply drop_empty_queue_of|by eexists|by left|apply plain_refl|].
  intros sf Hr Hq. cbn. apply list_elem_of_filter. split; [|done].
  enough (is_Some (queues (drop_empty_queues s) !! sf)) by done. rewrite <- (drop_empty_queue_of s) in Hq.
  unfold queue_of in Hq. by destruct (queues (drop_empty_queues s) !! sf).
Qed.
(** The rest of a publication, once the event is taken. *)
Lemma publish_rest l fs (k : M state bool) s s' b : always (aside fs) k -> k s = (s', Ret b) ->
  (forall sf f, f ∈ fs -> f ∉ line s sf) -> Frames_ok l s -> Frames_ok l s'.
Proof. intros Hk Hs. apply decoder_aside_ok. by eapply run_always. Qed.
Lemma head_queue s sf q : head (queue_of s sf) = Some q -> exists rest, queue_of s sf = q :: rest.
Proof. destruct (queue_of s sf) as [|q' rest]; [done|]. intros [= ->]. by exists rest. Qed.
Lemma pop_queue sf s s' q : pop_event sf s = (s', Ret q) ->
  exists rest, queue_of s sf = q :: rest /\ s' = set_queues (<[sf := rest]> (queues s)) s.
Proof. intros (rest & Hq & ->)%pop_event_run. exists rest. split; [|done]. unfold queue_of. by rewrite Hq. Qed.
Lemma publish_surface_ok l sf : triple (Frames_ok l) (publish_surface sf) (fun _ => Frames_ok l).
Proof.
  intros s s' b H Hs. unfold publish_surface in Hs. run_in Hs. destruct (head (queue_of s sf)) as [front|] eqn:Hh; [|by run_in Hs].
  apply head_queue in Hh as [rest Hq]. assert (Hpop : forall s1 q, pop_event sf s = (s1, Ret q) ->
    q = front /\ s1 = set_queues (<[sf := rest]> (queues s)) s).
  { intros s1 q (rest' & Hq' & ->)%pop_queue. rewrite Hq in Hq'. by injection Hq' as <- <-. }
  case_bool_decide as Hf; [|rewrite forallb_decided in Hs; case_bool_decide as Hall; [|by run_in Hs]].
  - apply run_bind in Hs as (s1 & q & [-> ->]%Hpop & Hs). destruct (decoder_pop_ok l sf front rest s Hq) as [H1 H2]; [rewrite Hf; by intros ? ?%not_elem_of_nil|done|].
    refine (publish_rest l [] _ _ _ _ _ Hs _ H1); [keep|by intros ?? ?%not_elem_of_nil].
  - apply run_bind in Hs as (s1 & q & [-> ->]%Hpop & Hs). rewrite list.Forall_forall in Hall.
    destruct (decoder_pop_ok l sf front rest s Hq Hall H) as [H1 H2].
    assert (Hfr : forall c, event_kind (queued_event front) = Commit c -> update_frames (buffers c) = encoded_frames (queued_event front)).
    { intros c Hc. unfold encoded_frames. by rewrite Hc. }
    refine (publish_rest l (encoded_frames (queued_event front)) _ _ _ _ _ Hs H2 H1).
    destruct (event_kind (queued_event front)) as [|c| | | |] eqn:Hk; keep. apply import_updates_aside. by rewrite Hfr.
Qed.

(** ** Retirement *)
Lemma queued_line s sf f : f ∈ line s sf -> f ∈ queued_events s ≫= (fun q => encoded_frames (queued_event q)).
Proof.
  unfold line, queue_of, queued_events. intros (q & Hf & Hq)%list_elem_of_bind. apply list_elem_of_bind. exists q. split; [done|].
  destruct (queues s !! sf) as [qs|] eqn:Hs; [|by apply not_elem_of_nil in Hq].
  apply list_elem_of_In, in_concat. exists qs. rewrite <- !list_elem_of_In. split; [|done]. apply list_elem_of_fmap. exists (sf, qs).
  split; [done|]. rewrite visit_perm. by apply elem_of_map_to_list.
Qed.
Lemma unreferenced s g : g ∉ referenced_generations s ->
  (forall t j, decode_in_flight s !! t = Some j -> generation_of (in_flight_frame j) <> g) /\
  (forall sf f, f ∈ line s sf -> generation_of f = g -> is_Some (decoded s !! f)).
Proof.
  unfold referenced_generations. rewrite !elem_of_app. intros Hg. split.
  - intros t j Hj <-. apply Hg. do 3 right. apply list_elem_of_fmap. exists (t, j). split; [done|]. by apply elem_of_map_to_list.
  - intros sf f Hf <-. apply not_eq_None_Some. intros Hn. apply Hg. right. left. apply list_elem_of_fmap. exists f.
    split; [done|]. apply list_elem_of_filter. split; [done|]. by eapply queued_line.
Qed.
Lemma retire_now_ok l g s s' : Frames_ok l s -> ended l g -> g ∉ referenced_generations s -> retire_now g s = (s', Ret tt) ->
  Frames_ok l s' /\ referenced_generations s' = referenced_generations s.
Proof.
  intros H He Hg Hs. unfold retire_now in Hs. apply run_bind in Hs as (s1 & [] & H1 & Hs). destruct (retire_decoder _ _ _) as [k r].
  injection H1 as <- _. run_in Hs. split; [|done]. apply unreferenced in Hg as [Hj Hl].
  set (s' := set_pending_retirement _ _).
  assert (Ha : asked s' = asked s) by (unfold asked, s'; cbn; rewrite asked_in_app; apply app_nil_r).
  constructor; try apply H.
  - intros sf ly f Hf. rewrite Ha. exact (ok_order _ _ H sf ly f Hf).
  - intros f Hf. rewrite Ha. exact (ok_submitted _ _ H f Hf).
  - intros f. rewrite Ha. apply H.
  - intros g' [u Hu]. cbn in Hu. apply lookup_delete_Some in Hu as [_ Hu]. by eapply ok_pending.
  - intros st gn [Hr|Hr%list_elem_of_singleton]%elem_of_app; [by apply H|]. injection Hr as -> ->. rewrite <- surjective_pairing. done.
  - apply no_reuse_snoc; [apply H|]. by intros f ? ? ?%not_elem_of_nil.
Qed.
Lemma sweep_ok l : triple (Frames_ok l) (sweep_retirement : M state unit) (fun _ => Frames_ok l).
Proof.
  intros s s' [] H Hs. unfold sweep_retirement in Hs. run_step Hs. cbn beta in Hs.
  assert (Hdue : forall g, g ∈ filter (fun g => g ∉ referenced_generations s) (fst <$> visit (pending_retirement s)) ->
    g ∉ referenced_generations s /\ ended l g).
  { intros g [Hr (x & -> & Hx)%list_elem_of_fmap]%list_elem_of_filter. split; [done|]. apply H.
    rewrite visit_perm in Hx. destruct x as [g' u]. apply elem_of_map_to_list in Hx. by exists u. }
  assert (Ht : triple (fun x => Frames_ok l x /\ referenced_generations x = referenced_generations s)
    (for_each retire_now (filter (fun g => g ∉ referenced_generations s) (fst <$> visit (pending_retirement s)))) (fun _ x => Frames_ok l x /\ referenced_generations x = referenced_generations s)).
  { apply triple_for_each. intros g [Hr He]%Hdue x y [] [Hx Hrx] Hy. rewrite <- Hrx in Hr.
    destruct (retire_now_ok l g x y Hx He Hr Hy) as [H1 H2]. split; [done|congruence]. }
  by apply (Ht s s' tt).
Qed.
Lemma publish_surfaces_ok l sfs : triple (Frames_ok l) (publish_surfaces sfs) (fun _ => Frames_ok l).
Proof.
  induction sfs as [|sf sfs IH]; [apply (triple_pure (fun _ => Frames_ok l))|]. cbn.
  eapply triple_bind; [apply publish_surface_ok|]. intros b. eapply triple_bind; [apply IH|]. intros b'. apply (triple_pure (fun _ => Frames_ok l)).
Qed.
Lemma publish_round_ok l u : triple (Frames_ok l) (publish_round u) (fun _ => Frames_ok l).
Proof.
  intros s s' o H Hs. unfold publish_round in Hs. run_step Hs. cbn beta in Hs. apply run_bind in Hs as (s1 & b & H1 & Hs). run_in Hs.
  refine (decoder_aside_ok _ _ _ _ (drop_empty_aside _) _ _); [by intros ?? ?%not_elem_of_nil|]. exact (publish_surfaces_ok _ _ _ _ _ H H1).
Qed.
Lemma publish_ready_ok l : triple (Frames_ok l) publish_ready (fun _ => Frames_ok l).
Proof.
  eapply triple_bind; [apply sweep_ok|]. intros []. intros s s' [] H Hs. run_step Hs. cbn beta in Hs.
  apply run_bind in Hs as (s1 & [] & H1 & Hs). eapply sweep_ok; [|exact Hs].
  eapply triple_iterate; [apply publish_round_ok|exact H|exact H1].
Qed.

(** ** Decoding *)
Lemma distinct_before (fs : list MediaFrameId) f : NoDup (generation_of <$> fs) -> f ∈ fs ->
  exists xs ys, fs = xs ++ f :: ys /\ forall x, x ∈ xs -> generation_of x <> generation_of f.
Proof.
  intros Hnd (xs & ys & ->)%list_elem_of_split. exists xs, ys. split; [done|]. intros x Hx Hg.
  rewrite fmap_app in Hnd. apply list.NoDup_app in Hnd as (_ & Hd & _). apply (Hd (generation_of x)).
  - by apply list_elem_of_fmap_2.
  - rewrite Hg. cbn. left.
Qed.
Definition with_frame (sub : MediaFrameId -> bool) f (x : MediaFrameId) : bool := sub x || bool_decide (x = f).
(** The frame chosen is the first of its generation that waits, and its turn has come. *)
Lemma candidate_first l s sf session f : Frames_ok l s -> decode_candidate s sf = Some (session, f) ->
  (exists xs ys, line s sf = xs ++ f :: ys /\ forall x, x ∈ xs -> generation_of x = generation_of f -> submitted s x = true) /\
  in_turn (with_frame (submitted s) f) (stages (queue_of s sf)).
Proof.
  intros H Hd. pose proof (ok_line_nodup _ _ H sf) as Hnd. pose proof (ok_turn _ _ H sf) as Ht. pose proof (ok_distinct _ _ H sf) as Hdis.
  rewrite line_stages in *. unfold decode_candidate in Hd. destruct (queue_of s sf) as [|front rest]; [done|].
  destruct (head (filter _ _)) as [f'|] eqn:Hh; [|done]. injection Hd as _ ->.
  apply head_Some_elem_of, list_elem_of_filter in Hh as [[Hsub _] Hf]. rewrite stages_cons in *.
  set (a := encoded_frames (queued_event front)) in *.
  assert (Hkeep : forall (b : list MediaFrameId) x, f ∉ b -> x ∈ b -> with_frame (submitted s) f x = submitted s x).
  { intros b x Hb Hx. unfold with_frame. rewrite bool_decide_false by congruence. apply orb_false_r. }
  assert (Hfront : f ∈ a -> (exists xs ys, concat (if decide (a = []) then stages rest else a :: stages rest) = xs ++ f :: ys /\
    forall x, x ∈ xs -> generation_of x = generation_of f -> submitted s x = true) /\
    in_turn (with_frame (submitted s) f) (if decide (a = []) then stages rest else a :: stages rest)).
  { clear Hf. intros Hf. rewrite decide_False in * by (intros Hn; rewrite Hn in Hf; by apply not_elem_of_nil in Hf).
    destruct (distinct_before a f) as (xs & ys & Ha & Hg); [apply Hdis; left|done|]. split.
    - exists xs, (ys ++ concat (stages rest)). cbn. rewrite Ha, <- app_assoc. split; [done|]. intros x Hx Hgx. by destruct (Hg x Hx).
    - cbn in Hnd, Ht |- *. apply list.NoDup_app in Hnd as (_ & Hnd & _). specialize (Hnd f Hf). destruct Ht as [Ht1 Ht2].
      assert (Hrest : forall b x, b ∈ stages rest -> x ∈ b -> with_frame (submitted s) f x = submitted s x).
      { intros b x Hb Hx. apply (Hkeep b); [|done]. intros Hfb. apply Hnd. apply list_elem_of_In, in_concat. exists b.
        by rewrite <- !list_elem_of_In. }
      split.
      + intros b x Hb Hx. rewrite (Hrest b); [by eapply Ht1| |done]. destruct (stages rest); [done|by right].
      + intros b x Hb Hx. rewrite (Hrest b) by (done || by apply head_Some_elem_of). intros Hs y Hy. unfold with_frame.
        by rewrite (Ht2 b x Hb Hx Hs y Hy). }
  unfold decode_target in Hf. destruct (head rest) as [next|] eqn:Hr; [destruct (_ && _) eqn:Hc|].
  - apply andb_true_iff in Hc as [[[Hne%negb_true_iff%bool_decide_eq_false Hall]%andb_true_iff _]%andb_true_iff _].
    destruct rest as [|next' rest]; [done|]. injection Hr as ->. fold a in Hne. rewrite decide_False in * by done.
    rewrite stages_cons, decide_False in * by (intros Hn; rewrite Hn in Hf; by apply not_elem_of_nil in Hf).
    set (b := encoded_frames (queued_event next)) in *. destruct (distinct_before b f) as (xs & ys & Hb & Hg); [apply Hdis; right; left|done|].
    assert (Ha : forall x, x ∈ a -> submitted s x = true).
    { intros x Hx. by apply (proj1 (forallb_forall _ _) Hall), list_elem_of_In. }
    split.
    + exists (a ++ xs), (ys ++ concat (stages rest)). cbn. rewrite Hb, <- !app_assoc. split; [done|].
      intros x [Hx|Hx]%elem_of_app Hgx; [by apply Ha|]. by destruct (Hg x Hx).
    + cbn in Hnd, Ht |- *. destruct Ht as [Ht1 Ht2]. split.
      * intros c x Hcr Hx. rewrite (Hkeep c); [by eapply Ht1| |done]. intros Hfc.
        apply list.NoDup_app in Hnd as (_ & _ & Hnd). apply list.NoDup_app in Hnd as (_ & Hnd & _). apply (Hnd f Hf).
        apply list_elem_of_In, in_concat. exists c. by rewrite <- !list_elem_of_In.
      * intros c x [= <-] _ _ y Hy. unfold with_frame. by rewrite Ha.
  - by apply Hfront.
  - by apply Hfront.
Qed.
Lemma of_generation_next g s s' sf f xs ys : line s sf = xs ++ f :: ys -> line s' sf = line s sf -> NoDup (line s sf) ->
  (forall x, submitted s' x = with_frame (submitted s) f x) -> submitted s f = false -> generation_of f = g ->
  (forall x, x ∈ xs -> generation_of x = g -> submitted s x = true) ->
  of_generation g (waiting s sf) = f :: of_generation g (waiting s' sf).
Proof.
  intros Hl Hl' Hnd Hs Hf Hg Hx. unfold waiting, of_generation. rewrite Hl', Hl, !list_filter_filter, !list.filter_app.
  rewrite Hl in Hnd. apply list.NoDup_app in Hnd as (_ & _ & [Hfy _]%list.NoDup_cons).
  rewrite !(filter_none _ xs), !filter_cons; cbn.
  - rewrite decide_True by done. rewrite decide_False by (rewrite Hs; unfold with_frame; rewrite bool_decide_true, orb_true_r by done; by intros []).
    f_equal. apply filter_ext. intros y Hy. rewrite Hs. unfold with_frame. rewrite bool_decide_false by congruence. by rewrite orb_false_r.
  - intros x Hin [H1 H2]. rewrite Hs in H2. unfold with_frame in H2. by rewrite (Hx x Hin H1) in H2.
  - intros x Hin [H1 H2]. by rewrite (Hx x Hin H1) in H2.
Qed.
Lemma of_generation_other g s s' sf f : line s' sf = line s sf -> (forall x, submitted s' x = with_frame (submitted s) f x) ->
  generation_of f <> g -> of_generation g (waiting s' sf) = of_generation g (waiting s sf).
Proof.
  intros Hl Hs Hg. unfold waiting, of_generation. rewrite Hl, !list_filter_filter. apply filter_ext. intros x _. rewrite Hs.
  unfold with_frame. split; intros [H1 H2]; (split; [done|]).
  - by apply orb_false_iff in H2 as [? _].
  - rewrite H2. apply bool_decide_eq_false. congruence.
Qed.
Lemma checked_add_next n m : checked_add n 1 = Some m -> m = n + 1.
Proof. unfold checked_add. by intros [-> _]%checked_Some. Qed.
(** What a started job changes. *)
Record job_added f token request (session : HoistSessionId) s s' : Prop := {
  added_queue : forall sf, queue_of s' sf = queue_of s sf;
  added_jobs : decode_in_flight s' = <[token := MkInFlightDecode f false]> (decode_in_flight s);
  added_calls : calls s' = calls s ++ [Submitted request];
  added_decoded : decoded s' = decoded s;
  added_streams : streams s' = streams s;
  added_pending : pending_retirement s' = pending_retirement s;
  added_token : next_token s' = checked_add token 1;
  added_free : decode_in_flight s !! token = None;
  added_media : media_frames s' = delete f (media_frames s);
  added_ready : ready_surfaces s' ≡ₚ ready_surfaces s;
  added_frame : unit_frame (decode_unit request) = f;
  added_submitted : forall x, submitted s' x = with_frame (submitted s) f x;
  added_asked : asked s' = asked s ++ [f];
}.
Lemma started_adds l sf busy next sched sched' s s' : Frames_ok l s -> turn_started sf busy next sched sched' s s' ->
  exists session f token request, decode_candidate s sf = Some (session, f) /\ next_token s = Some token /\
    job_added f token request session s s'.
Proof.
  intros H (session & f & media & token & request & k & s1 & Hd & (Hm & Hss & Ht & Htk & Hu & _ & Hs1) & -> & _). cbn in Hm, Ht.
  pose proof (ok_media _ _ H f media Hm) as Hframe. exists session, f, token, request. split; [done|split; [done|]]. subst s1.
  assert (Hfree : decode_in_flight s !! token = None).
  { destruct (decode_in_flight s !! token) eqn:Hfl; [|done]. pose proof (ok_token _ _ H token token (mk_is_Some _ _ Hfl) Ht). lia. }
  constructor; cbn; try done; [apply rotate_perm|congruence| |].
  - intros x. apply eq_true_iff_eq. unfold with_frame. rewrite orb_true_iff, bool_decide_eq_true, !submitted_iff. cbn. split.
    + intros [?|(t & j & Hj' & Hjx)]; [by left; left|].
      apply lookup_insert_Some in Hj' as [[_ <-]|[_ Hj']]; [right; by rewrite <- Hjx|left; right; by exists t, j].
    + intros [[?|(t & j & Hj' & Hjx)]|Hxf]; [by left| |right; exists token, (MkInFlightDecode f false); by rewrite lookup_insert_eq].
      right. exists t, j. rewrite lookup_insert_ne; [done|]. intros <-. by rewrite Hj' in Hfree.
  - unfold asked. cbn. rewrite asked_in_app. cbn. by rewrite Hu, Hframe.
Qed.
Lemma candidate_open l s sf f st gn : Frames_ok l s -> f ∈ line s sf -> submitted s f = false -> Retired st gn ∈ calls s ->
  generation_of f <> (st, gn).
Proof.
  intros H Hf Hsub Hr Hg. destruct (ok_retired _ _ H st gn Hr) as (_ & _ & H3). specialize (H3 sf f Hf Hg).
  rewrite (proj2 (submitted_iff s f)) in Hsub by by left. done.
Qed.
Lemma added_order l s s' sf session f token request sf' ly x : Frames_ok l s -> decode_candidate s sf = Some (session, f) ->
  job_added f token request session s s' -> ((sf', ly), x) ∈ named l ->
  of_generation (generation_of x) (asked s') ++ of_generation (generation_of x) (waiting s' sf') =
    of_generation (generation_of x) (asked s) ++ of_generation (generation_of x) (waiting s sf').
Proof.
  intros H Hd A Hin. destruct (candidate_first l s sf session f H Hd) as [(xs & ys & Hl & Hx) _].
  apply decode_candidate_line in Hd as (Hf & Hsub & _). rewrite (added_asked _ _ _ _ _ _ A), of_generation_app.
  pose proof (added_submitted _ _ _ _ _ _ A) as Hs. assert (Hline : forall sf, line s' sf = line s sf) by (intros; apply line_ext, A).
  destruct (decide (generation_of f = generation_of x)) as [Hg|Hg].
  - destruct (ok_line _ _ H sf f Hf) as [ly' Hly]. injection (ok_owner _ _ H _ _ _ _ Hly Hin (eq_sym Hg)) as -> ->.
    rewrite (of_generation_next _ s s' sf f xs ys); [|done|apply Hline|apply H|done|done|done|intros y Hy Hgy; apply Hx; [done|congruence]].
    unfold of_generation at 2. rewrite filter_cons, decide_True by done. cbn. by rewrite <- app_assoc.
  - rewrite (of_generation_other _ s s' sf' f) by done. unfold of_generation at 2. rewrite filter_cons, decide_False by done.
    cbn. by rewrite app_nil_r.
Qed.
Lemma started_ok l sf busy next sched sched' s s' : Frames_ok l s -> turn_started sf busy next sched sched' s s' -> Frames_ok l s'.
Proof.
  intros H (session & f & token & request & Hd & Ht & A)%(started_adds l); [|done].
  destruct (candidate_first l s sf session f H Hd) as [_ Hturn].
  pose proof (added_order l s s' sf session f token request) as Hord. pose proof A as [Aq Aj Ac Ad As Ap At Afree Am Ar Af Asub Aask].
  apply decode_candidate_line in Hd as Hcand. destruct Hcand as (Hf & Hsub & _).
  assert (Hline : forall sf, line s' sf = line s sf) by (intros; by apply line_ext).
  constructor; try apply H.
  - intros sf' x. rewrite Hline. apply H.
  - intros sf'. rewrite Hline. apply H.
  - intros sf'. rewrite Aq. apply H.
  - intros sf'. rewrite Aq. destruct (decide (sf' = sf)) as [->|Hn]; [by apply (in_turn_ext (with_frame (submitted s) f))|].
    apply (in_turn_ext (submitted s)); [|apply H]. intros x Hxl. rewrite <- line_stages in Hxl. rewrite Asub. unfold with_frame.
    rewrite bool_decide_false, orb_false_r; [done|]. intros ->. apply Hn. by apply (line_disjoint l s sf sf' f).
  - intros sf' ly x Hin. destruct (ok_order _ _ H sf' ly x Hin) as (rest & Hr & He). exists rest. split; [|done].
    rewrite Hr, !app_assoc. f_equal. symmetry. by eapply Hord.
  - intros x. rewrite Asub, Aask. unfold with_frame. intros [Hx'|Hx'%bool_decide_eq_true]%orb_true_iff; apply elem_of_app; [left; by apply H|right].
    rewrite Hx'. left.
  - intros x. rewrite Aask. intros [Hx'|Hx'%list_elem_of_singleton]%elem_of_app; [by apply H|]. subst x.
    destruct (ok_line _ _ H sf f Hf) as [ly Hly]. by apply (list_elem_of_fmap_2 snd) in Hly.
  - intros t n. rewrite Aj, At. intros [j Hjt] Hn%checked_add_next. apply lookup_insert_Some in Hjt as [[<- _]|[_ Hjt]]; [lia|].
    pose proof (ok_token _ _ H t token (mk_is_Some _ _ Hjt) Ht). lia.
  - intros t j. rewrite Aj. intros [[_ <-]|[_ Hjt]]%lookup_insert_Some Hcan; [done|].
    destruct (ok_cancelled _ _ H t j Hjt Hcan) as [H1 H2]. split; [done|]. intros sf'. by rewrite Hline.
  - rewrite As. apply H.
  - rewrite Ap. apply H.
  - intros st gn. rewrite Ac. intros [Hr|Hr]%elem_of_app; [|by apply list_elem_of_singleton in Hr].
    destruct (ok_retired _ _ H st gn Hr) as (H1 & H2 & H3). split_and!; [done| |intros sf' x; rewrite Hline, Ad; apply H3].
    intros t j. rewrite Aj. intros [[_ <-]|[_ Hjt]]%lookup_insert_Some; [by eapply candidate_open|by eapply H2].
  - intros x m. rewrite Am. intros [_ ?]%lookup_delete_Some. by eapply ok_media.
  - rewrite Ac. apply no_reuse_snoc; [apply H|]. cbn. rewrite Af. intros x st gn Hx%list_elem_of_singleton. subst x. by eapply candidate_open.
  - intros sf'. rewrite Aq. intros Hne%(ok_ready _ _ H). by rewrite Ar.
Qed.
Lemma nothing_off s sf f : f ∈ (@nil MediaFrameId) -> f ∉ line s sf.
Proof. by intros ?%not_elem_of_nil. Qed.
Lemma refused_ok l sf busy next sched s s' : Frames_ok l s -> turn_refused sf busy next sched s s' -> Frames_ok l s'.
Proof.
  intros H (session & f & token & unit & k & _ & (_ & Ht & Hu & ->) & _). cbn in Ht.
  refine (decoder_aside_ok l [] s _ _ (nothing_off s) H). constructor; try done; cbn.
  - intros n' Hn%checked_add_next. exists token. split; [done|lia].
  - intros x m [[<- <-]|[_ ?]]%lookup_insert_Some; [by right|by left].
  - exists [Refused f]. split_and!; [done..|]. by intros ?? ?%list_elem_of_singleton.
Qed.
Lemma decode_turn_ok l now busy : triple (Frames_ok l) (decode_turn now busy) (fun _ => Frames_ok l).
Proof.
  intros s s' next H Hs%decode_turn_run. destruct next as [next|].
  - destruct Hs as (sf & sched & sched' & _ & _ & [Hs|Hs]); [by eapply started_ok|by eapply refused_ok].
  - destruct Hs as [_ [sched ->]]. refine (decoder_aside_ok l [] s _ _ (nothing_off s) H). constructor; try done; [by eexists|by left|apply plain_refl].
Qed.
Lemma advance_ok l clock : triple (Frames_ok l) (advance clock) (fun _ => Frames_ok l).
Proof.
  intros s s' [] H Hs. unfold advance in Hs. apply run_bind in Hs as (s1 & [] & H1 & Hs). run_step Hs. cbn beta in Hs.
  apply run_bind in Hs as (s2 & [] & H2 & Hs). eapply sweep_ok; [|exact Hs]. refine (triple_iterate _ _ _ _ (fun x => triple_in_time clock decode_turn x _ _ (decode_turn_ok l _ _)) _ _ _ _ H2).
  by eapply publish_ready_ok.
Qed.

(** ** Completions *)
(** A job ends: its frame is decoded, or it was cancelled. *)
Lemma finished_ok l t j b s : Frames_ok l s -> decode_in_flight s !! t = Some j ->
  let f := in_flight_frame j in
  Frames_ok l (called (backend s) (Finished f b) (set_decoded (<[f := b]> (decoded s)) (set_decode_in_flight (delete t (decode_in_flight s)) s))).
Proof.
  intros H Hj f. set (s' := called _ _ _).
  assert (Hjobs : forall t' j', decode_in_flight s' !! t' = Some j' -> decode_in_flight s !! t' = Some j').
  { intros t' j' Hj'. cbn in Hj'. by apply lookup_delete_Some in Hj' as [_ ?]. }
  assert (Hs1 : forall x, submitted s' x = true -> submitted s x = true).
  { intros x. rewrite !submitted_iff. cbn. intros [[b' Hb]|(t' & j' & Hj' & Hx)].
    - apply lookup_insert_Some in Hb as [[<- _]|[_ Hb]]; [right; by exists t, j|left; by exists b'].
    - right. exists t', j'. split; [by apply Hjobs|done]. }
  assert (Hs : forall x, submitted s' x = submitted s x).
  { intros x. apply eq_true_iff_eq. split; [apply Hs1|]. rewrite !submitted_iff. cbn. intros [[b' Hb]|(t' & j' & Hj' & Hx)].
    - left. destruct (decide (f = x)) as [->|Hn]; [rewrite lookup_insert_eq; by eexists|rewrite lookup_insert_ne by done; by exists b'].
    - destruct (decide (t = t')) as [<-|Hn]; [left|right; exists t', j'; by rewrite lookup_delete_ne].
      rewrite Hj in Hj'. injection Hj' as <-. unfold f. rewrite Hx, lookup_insert_eq. by eexists. }
  assert (Hdec : forall x, is_Some (decoded s !! x) -> is_Some (decoded s' !! x)).
  { intros x [b' Hb]. cbn. destruct (decide (f = x)) as [->|Hn]; [rewrite lookup_insert_eq; by eexists|rewrite lookup_insert_ne by done; by exists b']. }
  assert (Hc : plain_calls (calls s) (calls s')).
  { exists [Finished f b]. split_and!; [done..|]. by intros ?? ?%list_elem_of_singleton. }
  assert (Ha : asked s' = asked s) by by apply plain_asked.
  constructor; try apply H.
  - intros sf. apply (in_turn_ext (submitted s)); [done|apply H].
  - intros sf ly x Hin. rewrite Ha, (waiting_ext s s') by done. by eapply ok_order.
  - intros x. rewrite Hs, Ha. apply H.
  - intros x. rewrite Ha. apply H.
  - intros t' n [j' Hj'%Hjobs]. apply H. by exists j'.
  - intros t' j' Hj'%Hjobs Hcan'. exact (ok_cancelled _ _ H t' j' Hj' Hcan').
  - intros st gn Hr%(plain_retired _ _ _ _ Hc). destruct (ok_retired _ _ H st gn Hr) as (H1 & H2 & H3). split_and!; [done| |].
    + intros t' j' Hj'%Hjobs. by eapply H2.
    + intros sf x Hx Hg. apply Hdec. by eapply H3.
  - eapply plain_no_reuse; [done|apply H].
Qed.
Lemma discarded_ok l t j s : Frames_ok l s -> decode_in_flight s !! t = Some j -> in_flight_cancelled j = true ->
  Frames_ok l (retire_later (generation_of (in_flight_frame j)) (set_decode_in_flight (delete t (decode_in_flight s)) s)).
Proof.
  intros H Hj Hcan. destruct (ok_cancelled _ _ H t j Hj Hcan) as [He Hoff]. set (s' := retire_later _ _).
  assert (Hjobs : forall t' j', decode_in_flight s' !! t' = Some j' -> decode_in_flight s !! t' = Some j').
  { intros t' j' Hj'. cbn in Hj'. by apply lookup_delete_Some in Hj' as [_ ?]. }
  assert (Hs1 : forall x, submitted s' x = true -> submitted s x = true).
  { intros x. rewrite !submitted_iff. intros [?|(t' & j' & Hj'%Hjobs & Hx)]; [by left|right; by exists t', j']. }
  assert (Hs : forall sf x, x ∈ line s sf -> submitted s' x = submitted s x).
  { intros sf x Hx. apply eq_true_iff_eq. split; [apply Hs1|]. rewrite !submitted_iff. intros [?|(t' & j' & Hj' & Hx')]; [by left|].
    right. exists t', j'. cbn. rewrite lookup_delete_ne; [done|]. intros <-. rewrite Hj in Hj'. injection Hj' as <-.
    apply (Hoff sf). by rewrite Hx'. }
  constructor; try apply H.
  - intros sf. apply (in_turn_ext (submitted s)); [|apply H]. intros x Hx. rewrite <- line_stages in Hx. by eapply Hs.
  - intros sf ly x Hin. rewrite (waiting_ext s s') by (done || apply Hs). exact (ok_order _ _ H sf ly x Hin).
  - intros x Hx%Hs1. exact (ok_submitted _ _ H x Hx).
  - intros t' n [j' Hj'%Hjobs]. apply H. by exists j'.
  - intros t' j' Hj'%Hjobs Hcan'. exact (ok_cancelled _ _ H t' j' Hj' Hcan').
  - intros g [u Hu]. cbn in Hu. apply lookup_insert_Some in Hu as [[<- _]|[_ Hu]]; [done|]. apply H. by exists u.
  - intros st gn Hr. destruct (ok_retired _ _ H st gn Hr) as (H1 & H2 & H3). split_and!; [done| |done].
    intros t' j' Hj'%Hjobs. by eapply H2.
Qed.
(** A completion without failure. *)
Definition completed (c : DecodeCompletion Buf) s s' : Prop :=
  exists j, decode_in_flight s !! completion_token c = Some j /\
    let f := in_flight_frame j in
    let rest := set_decode_in_flight (delete (completion_token c) (decode_in_flight s)) s in
    if in_flight_cancelled j then s' = retire_later (generation_of f) rest
    else exists b, decode_result c = inl [MkDecodedFrame f b] /\ s' = called (backend s) (Finished f b) (set_decoded (<[f := b]> (decoded s)) rest).
Lemma complete_one_run s failure c s' : complete_one s failure c = (s', None) -> failure = None /\ completed c s s'.
Proof.
  unfold complete_one, completed. destruct (decode_in_flight s !! _) as [j|]; [|done]. destruct (in_flight_cancelled j) eqn:Hc.
  - intros [= <- ->]. split; [done|]. exists j. by rewrite Hc.
  - destruct (decoded_result _ _) as [b|e] eqn:Hr; [|done]. intros [= <- ->]. split; [done|]. exists j. split; [done|]. rewrite Hc.
    exists b. split; [|done]. unfold decoded_result in Hr. destruct (decode_result c) as [[|[df db] [|]]|]; try done.
    cbn in Hr. case_bool_decide as Hf; [|done]. injection Hr as ->. by rewrite Hf.
Qed.
Lemma completed_ok l c s s' : completed c s s' -> Frames_ok l s -> Frames_ok l s'.
Proof.
  intros (j & Hj & Hs) H. cbn in Hs. destruct (in_flight_cancelled j) eqn:Hc.
  - rewrite Hs. by apply discarded_ok.
  - destruct Hs as (b & _ & ->). by apply finished_ok.
Qed.
Lemma complete_all_run (φ : state -> Prop) cs s failure s' : (forall c s s', completed c s s' -> φ s -> φ s') ->
  complete_all cs failure s = (s', None) -> failure = None /\ (φ s -> φ s').
Proof.
  intros Hstep. unfold complete_all. revert s failure. induction cs as [|c cs IH]; intros s failure; cbn; [by intros [= -> ->]|].
  destruct (complete_one s failure c) as [s1 f1] eqn:H1. intros [-> H2]%IH. apply complete_one_run in H1 as [-> H1].
  split; [done|]. intros Hs. apply H2. by eapply Hstep.
Qed.
Lemma drain_run clock s s' : drain clock s = (s', Ret tt) -> exists k s1,
  (forall φ : state -> Prop, (forall c s s', completed c s s' -> φ s -> φ s') -> φ (set_backend k s) -> φ s1) /\ advance clock s1 = (s', Ret tt).
Proof.
  intros Hs. unfold drain in Hs. apply run_bind in Hs as (s1 & cs & H1 & Hs). destruct (drain_decoded _) as [k cs'].
  injection H1 as <- <-. apply run_bind in Hs as (s2 & failure & H2 & Hs). destruct (complete_all _ _ _) as [s3 f3] eqn:Hall.
  injection H2 as -> ->. destruct failure; [by apply run_lift in Hs as []|]. exists k, s2. split; [|done].
  intros φ Hφ Hs1. by apply (complete_all_run φ _ _ _ _ Hφ) in Hall as [_ Hall]; apply Hall.
Qed.
Lemma decoder_drain_ok l clock : triple (Frames_ok l) (drain clock) (fun _ => Frames_ok l).
Proof.
  intros s s' [] H (k & s1 & H1 & Hs)%drain_run. eapply advance_ok; [|exact Hs].
  apply (H1 (Frames_ok l)); [intros c x y; apply completed_ok|].
  refine (decoder_aside_ok l [] s _ _ (nothing_off s) H). constructor; try done; [by eexists|by left|apply plain_refl].
Qed.

(** ** Cancelling *)
(** Streams and retirement change by what was named and what ended. *)
Lemma ledger_ok l s (x : gmap place EncodedGeneration) (y : gmap EncodedGeneration unit) : Frames_ok l s ->
  (forall p g, x !! p = Some g -> exists f, (p, f) ∈ named l /\ generation_of f = g) ->
  (forall g, is_Some (y !! g) -> ended l g) -> Frames_ok l (set_pending_retirement y (set_streams x s)).
Proof. intros H Hx Hy. constructor; try apply H; done. Qed.
Lemma retire_later_ok l g s : Frames_ok l s -> ended l g -> Frames_ok l (retire_later g s).
Proof.
  intros H Hg. refine (ledger_ok l s (streams s) _ H (ok_streams _ _ H) _). intros g' [u Hu].
  apply lookup_insert_Some in Hu as [[<- _]|[_ Hu]]; [done|]. apply H. by exists u.
Qed.
(** An arrival that names nothing. *)
Lemma silent_ok l a s : names a = [] -> Frames_ok l s -> Frames_ok (l ++ [a]) s.
Proof.
  intros Ha H. assert (Hn : named (l ++ [a]) = named l) by (rewrite named_snoc, Ha; apply app_nil_r).
  constructor; rewrite ?Hn; try apply H.
  - intros sf ly f Hf. destruct (ok_order _ _ H sf ly f Hf) as (rest & Hr & He). exists rest. split; [done|]. intros ?. by apply ended_snoc, He.
  - intros t j Hj Hc. destruct (ok_cancelled _ _ H t j Hj Hc) as [H1 H2]. split; [by apply ended_snoc|done].
  - intros g Hg. by apply ended_snoc, H.
  - intros st gn Hr. destruct (ok_retired _ _ H st gn Hr) as (H1 & H2). split; [by apply ended_snoc|done].
Qed.
Lemma queue_of_delete s sf sf' : queue_of (set_queues (delete sf (queues s)) s) sf' = if decide (sf' = sf) then [] else queue_of s sf'.
Proof. unfold queue_of. cbn. destruct (decide (sf' = sf)) as [->|Hn]; [by rewrite lookup_delete_eq|by rewrite lookup_delete_ne]. Qed.
(** The queue of a surface whose generations ended goes. *)
Lemma drop_queue_ok l sf s : Frames_ok l s -> (forall ly f, ((sf, ly), f) ∈ named l -> ended l (generation_of f)) ->
  let s' := set_queues (delete sf (queues s)) (forget_surface sf s) in
  Frames_ok l s' /\ forall f, f ∈ line s sf -> ended l (generation_of f) /\ forall sf', f ∉ line s' sf'.
Proof.
  intros H Hend s'. assert (Hq : forall sf', queue_of s' sf' = if decide (sf' = sf) then [] else queue_of s sf').
  { intros sf'. exact (queue_of_delete (forget_surface sf s) sf sf'). }
  assert (Hl : forall sf' f, f ∈ line s' sf' -> sf' <> sf /\ f ∈ line s sf').
  { intros sf' f. unfold line. rewrite Hq. case_decide; [by intros ?%not_elem_of_nil|done]. }
  split.
  - constructor; try apply H.
    + intros sf' f [_ Hf]%Hl. by eapply ok_line.
    + intros sf'. unfold line. rewrite Hq. case_decide; [by apply list.NoDup_nil|apply H].
    + intros sf' fs. rewrite Hq. case_decide; [by intros ?%not_elem_of_nil|apply H].
    + intros sf'. rewrite Hq. case_decide; [done|]. apply (in_turn_ext (submitted s)); [done|apply H].
    + intros sf' ly f Hf. destruct (ok_order _ _ H sf' ly f Hf) as (rest & Hr & He). destruct (decide (sf' = sf)) as [->|Hn].
      * eexists. split; [|intros _; by eapply Hend]. rewrite Hr. f_equal. unfold waiting at 2, line. rewrite Hq, decide_True by done. reflexivity.
      * exists rest. split; [|done]. rewrite Hr. do 3 f_equal. symmetry. apply waiting_ext; [|done]. unfold line. by rewrite Hq, decide_False.
    + intros t j Hj Hc. destruct (ok_cancelled _ _ H t j Hj Hc) as [H1 H2]. split; [done|]. by intros sf' [_ Hf%H2]%Hl.
    + intros st gn Hr. destruct (ok_retired _ _ H st gn Hr) as (H1 & H2 & H3). split_and!; [done..|]. intros sf' f [_ Hf]%Hl. by eapply H3.
    + intros sf'. rewrite Hq. case_decide as Hn; [done|]. intros Hne%(ok_ready _ _ H). by apply list_elem_of_filter.
  - intros f Hf. destruct (ok_line _ _ H sf f Hf) as [ly Hly]. split; [by eapply Hend|]. intros sf' [Hn Hf']%Hl. apply Hn.
    by apply (line_disjoint l s sf sf' f).
Qed.
(** Jobs of frames that wait nowhere, of an ended generation, are cancelled. *)
Lemma cancel_job_ok l t j s : Frames_ok l s -> decode_in_flight s !! t = Some j -> ended l (generation_of (in_flight_frame j)) ->
  (forall sf, in_flight_frame j ∉ line s sf) -> Frames_ok l (set_decode_in_flight (<[t := cancel_job j]> (decode_in_flight s)) s).
Proof.
  intros H Hj He Hoff. set (s' := set_decode_in_flight _ s).
  assert (Hjobs : forall t' j', decode_in_flight s' !! t' = Some j' -> exists j0, decode_in_flight s !! t' = Some j0 /\
    in_flight_frame j' = in_flight_frame j0 /\ (j' = j0 \/ j0 = j)).
  { intros t' j' Hj'. cbn in Hj'. apply lookup_insert_Some in Hj' as [[<- <-]|[_ Hj']]; [exists j|exists j']; split_and!; auto. }
  assert (Hs : forall x, submitted s' x = submitted s x).
  { intros x. apply eq_true_iff_eq. rewrite !submitted_iff. apply or_iff_compat_l. split.
    - intros (t' & j' & (j0 & Hj0 & Hf & _)%Hjobs & Hx). exists t', j0. by rewrite <- Hf.
    - intros (t' & j' & Hj' & Hx). destruct (decide (t = t')) as [<-|Hn].
      + exists t, (cancel_job j). rewrite Hj in Hj'. injection Hj' as <-. split; [apply lookup_insert_eq|done].
      + exists t', j'. split; [cbn; by rewrite lookup_insert_ne|done]. }
  constructor; try apply H.
  - intros sf. apply (in_turn_ext (submitted s)); [done|apply H].
  - intros sf ly x Hin. rewrite (waiting_ext s s') by done. exact (ok_order _ _ H sf ly x Hin).
  - intros x. rewrite Hs. apply H.
  - intros t' n [j' (j0 & Hj0 & _)%Hjobs]. exact (ok_token _ _ H t' n (mk_is_Some _ _ Hj0)).
  - intros t' j' (j0 & Hj0 & Hf & Hor)%Hjobs Hc. rewrite Hf. destruct Hor as [Hor|Hor]; subst; [by apply (ok_cancelled _ _ H t')|done].
  - intros st gn Hr. destruct (ok_retired _ _ H st gn Hr) as (H1 & H2 & H3). split_and!; [done| |done].
    intros t' j' (j0 & Hj0 & Hf & _)%Hjobs. rewrite Hf. by eapply H2.
Qed.
Lemma job_of_Some s f t j : job_of f s = Some (t, j) -> decode_in_flight s !! t = Some j /\ in_flight_frame j = f.
Proof.
  unfold job_of. intros [Hf Hj]%head_Some_elem_of%list_elem_of_filter. rewrite visit_perm in Hj.
  by apply elem_of_map_to_list in Hj.
Qed.
Lemma cancel_frame_ok l session f : ended l (generation_of f) ->
  triple (fun s : state => Frames_ok l s /\ forall sf, f ∉ line s sf) (cancel_frame session f) (fun _ s => Frames_ok l s).
Proof.
  intros He s s' [] [H Hoff] Hs. unfold cancel_frame in Hs. run_step Hs. cbn beta in Hs. unfold id in Hs. run_step Hs. run_step Hs.
  set (s1 := set_decoded _ _) in Hs.
  assert (H1 : Frames_ok l s1).
  { refine (decoder_aside_ok l [f] (retire_later (generation_of f) s) _ _ _ (retire_later_ok _ _ _ H He)).
    - constructor; try done; cbn; [apply delete_subseteq| |by eexists| |apply plain_refl].
      + intros x Hx. apply lookup_delete_ne. intros <-. apply Hx. left.
      + intros x m [_ ?]%lookup_delete_Some. by left.
    - intros sf x ->%list_elem_of_singleton. apply Hoff. }
  destruct (job_of f s) as [[t j]|] eqn:Hj.
  - apply job_of_Some in Hj as [Hj Hf]. run_in Hs. exact (cancel_job_ok l t j s1 H1 Hj He Hoff).
  - case_match; [run_in Hs|by run_in Hs]. refine (decoder_aside_ok l [] s1 _ _ (nothing_off s1) H1).
    constructor; try done; [by eexists|by left|apply plain_refl].
Qed.
Definition same_lines s s' : Prop := forall sf, line s' sf = line s sf.
#[local] Instance same_lines_po : PreOrder same_lines.
Proof. split; [done|]. intros a b c H1 H2 sf. by rewrite H2. Qed.
Lemma cancel_frame_lines session f : always same_lines (cancel_frame session f : M state unit).
Proof. unfold cancel_frame. keep. Qed.
Lemma cancel_events_ok l qs : triple (fun s : state => Frames_ok l s /\
    forall f, f ∈ (qs ≫= fun q => encoded_frames (queued_event q)) -> ended l (generation_of f) /\ forall sf, f ∉ line s sf)
  (for_each cancel_event qs) (fun _ => Frames_ok l).
Proof.
  set (fs := qs ≫= _). intros s s' [] [H Hfs] Hs.
  refine (proj1 (triple_for_each (fun x => Frames_ok l x /\ same_lines s x) cancel_event qs _ s s' tt _ Hs)); [|split; done].
  intros q Hq. unfold cancel_event. apply triple_for_each. intros f Hf x y [] [Hx Hsx] Hy.
  destruct (Hfs f) as [He Hoff]; [apply list_elem_of_bind; by exists q|]. split.
  - eapply cancel_frame_ok; [exact He| |exact Hy]. split; [done|]. intros sf. by rewrite Hsx.
  - etrans; [exact Hsx|]. eapply run_always; [apply cancel_frame_lines|exact Hy].
Qed.
Lemma drop_streams_ok l gone s : Frames_ok l s -> (forall p g, streams s !! p = Some g -> gone p = true -> ended l g) ->
  Frames_ok l (drop_streams gone s).
Proof.
  intros H Hg. unfold drop_streams.
  assert (H1 : Frames_ok l (set_streams (filter (fun p => gone p.1 = false) (streams s)) s)).
  { refine (ledger_ok l s (filter (fun p => gone p.1 = false) (streams s)) (pending_retirement s) H _ (ok_pending _ _ H)). intros p g [Hp _]%map_lookup_filter_Some. by apply H. }
  assert (Hl : Forall (ended l) (snd <$> filter (fun p => gone p.1 = true) (map_to_list (streams s)))).
  { apply list.Forall_forall. intros g ([p g'] & -> & [Hp Hin]%list_elem_of_filter)%list_elem_of_fmap.
    apply elem_of_map_to_list in Hin. by eapply Hg. }
  induction Hl as [|g gs Hgo _ IH]; cbn; [done|]. by apply retire_later_ok.
Qed.
(** What was cancelled ended; the arrival that cancels it names nothing. *)
Lemma decoder_cancel_ok l a sf : names a = [] -> (forall ly g, ends a (sf, ly) g) ->
  triple (Frames_ok l) (cancel_surface sf : M state unit) (fun _ => Frames_ok (l ++ [a])).
Proof.
  intros Ha Hends s s' [] H%(silent_ok _ a) Hs; [|done]. unfold cancel_surface in Hs. run_step Hs. run_step Hs. cbn beta in Hs. run_step Hs.
  assert (Hend : forall ly f, ((sf, ly), f) ∈ named (l ++ [a]) -> ended (l ++ [a]) (generation_of f)).
  { intros ly f Hf. rewrite named_snoc, Ha, app_nil_r in Hf. eapply ended_now; [done|apply Hends]. }
  destruct (drop_queue_ok _ sf s H Hend) as [H1 Hoff].
  apply run_bind in Hs as (s2 & [] & H2 & Hs). eapply cancel_events_ok in H2; [|split; [exact H1|exact Hoff]].
  run_step Hs. eapply sweep_ok; [|exact Hs]. apply drop_streams_ok; [done|]. intros p g Hp Hsf%bool_decide_eq_true.
  destruct (ok_streams _ _ H2 p g Hp) as (f & Hf & <-). destruct p as [sf' ly]. cbn in Hsf. subst sf'. by eapply Hend.
Qed.

(** ** Arrivals *)
Lemma NoDup_fmap_inj {A B} (h : A -> B) (xs : list A) x y : NoDup (h <$> xs) -> x ∈ xs -> y ∈ xs -> h x = h y -> x = y.
Proof.
  induction xs as [|z xs IH]; intros Hnd Hx Hy Hxy; [by apply not_elem_of_nil in Hx|]. cbn in Hnd.
  apply list.NoDup_cons in Hnd as [Hz Hnd]. apply elem_of_cons in Hx as [->|Hx], Hy as [->|Hy]; [done| | |by apply IH].
  - destruct Hz. rewrite Hxy. by apply list_elem_of_fmap_2.
  - destruct Hz. rewrite <- Hxy. by apply list_elem_of_fmap_2.
Qed.
Lemma goes_on_other c ly g : (forall u, u ∈ buffers c -> layer u = ly -> match change u with
    | Retained _ => False | Replaced _ b => generation_of (buffer_frame b) <> g | Removed => True end) -> goes_on c ly g = false.
Proof.
  intros H. unfold goes_on. apply not_true_iff_false. intros (u & Hu%list_elem_of_In & [Hl%bool_decide_eq_true Hc]%andb_true_iff)%existsb_exists.
  specialize (H u Hu Hl). destruct (change u); [done| |done]. by apply bool_decide_eq_true in Hc.
Qed.
Lemma names_layer_false (c : ClientSurfaceState EncodedBuffer) ly u : names_layer c ly = false -> u ∈ buffers c -> layer u = ly -> change u = Removed.
Proof.
  intros H Hu Hl. unfold names_layer in H. destruct (change u) eqn:Hc; [exfalso..|done]; apply not_true_iff_false in H; apply H;
    apply existsb_exists; exists u; (split; [by apply list_elem_of_In|]); rewrite Hc, bool_decide_true; done.
Qed.
Definition ledger s s' : Prop := exists x y, s' = set_pending_retirement y (set_streams x s).
#[local] Instance ledger_po : PreOrder ledger.
Proof.
  split; [intros s; exists (streams s), (pending_retirement s); by destruct s|].
  intros a b c (x & y & ->) (x' & y' & ->). by exists x', y'.
Qed.
Lemma ledger_put x s : ledger s (set_streams x s).
Proof. by exists x, (pending_retirement s). Qed.
Lemma ledger_retire g s : ledger s (retire_later g s).
Proof. exists (streams s). by eexists. Qed.
Lemma retire_all_ledger gs s : ledger s (foldr retire_later s gs).
Proof. induction gs as [|g gs IH]; cbn; [reflexivity|]. etrans; [exact IH|apply ledger_retire]. Qed.
Lemma update_stream_ledger sf u s : ledger s (update_stream sf u s).
Proof.
  unfold update_stream. destruct (next_generation _) as [[g|]|]; [..|reflexivity]; (destruct (streams s !! _); [case_bool_decide|]);
    repeat first [apply ledger_put | etrans; [|apply ledger_put] | etrans; [|apply ledger_retire]].
Qed.
Lemma update_streams_ledger e s : ledger s (update_stream_generations e s).
Proof.
  unfold update_stream_generations. destruct (event_kind e) as [|c| | | |]; try reflexivity.
  assert (Hf : forall us x, ledger s x -> ledger s (foldl (fun s u => update_stream (surface e) u s) x us)).
  { induction us as [|u us IH]; intros x Hx; [done|]. apply IH. etrans; [exact Hx|apply update_stream_ledger]. }
  apply Hf. unfold drop_streams. etrans; [apply ledger_put|apply retire_all_ledger].
Qed.
(** The streams while a commit's updates are entered, [us] of them left. *)
Record entering l l' sf (us : list (SurfaceBufferUpdate EncodedBuffer)) s : Prop := {
  entering_streams : forall p g, streams s !! p = Some g -> exists f, (p, f) ∈ named l' /\ generation_of f = g;
  entering_old : forall u g, u ∈ us -> streams s !! (sf, layer u) = Some g -> exists f, ((sf, layer u), f) ∈ named l /\ generation_of f = g;
  entering_pending : forall g, is_Some (pending_retirement s !! g) -> ended l' g;
}.
Lemma entering_later l l' sf us g s : ended l' g -> entering l l' sf us s -> entering l l' sf us (retire_later g s).
Proof.
  intros Hg []. constructor; [done..|]. intros g' [u Hu]. cbn in Hu. apply lookup_insert_Some in Hu as [[<- _]|[_ Hu]]; [done|].
  apply entering_pending0. by exists u.
Qed.
Lemma entering_delete l l' sf us key s : entering l l' sf us s -> entering l l' sf us (set_streams (delete key (streams s)) s).
Proof.
  intros []. constructor; [| |done]; cbn.
  - intros p g [_ Hp]%lookup_delete_Some. by apply entering_streams0.
  - intros u g Hu [_ Hp]%lookup_delete_Some. by apply entering_old0.
Qed.
Lemma update_stream_entering l session e c sf u us s :
  event_kind e = Commit c -> surface e = sf -> u ∈ buffers c -> NoDup (layer <$> buffers c) -> u ∉ us -> us ⊆ buffers c ->
  let l' := l ++ [Arrived session e] in
  entering l l' sf (u :: us) s -> entering l l' sf us (update_stream sf u s).
Proof.
  intros Hk Hsf Hu Hnd Hnu Hus l' H. assert (Hrest : entering l l' sf us s).
  { destruct H. constructor; [done| |done]. intros v g Hv. apply entering_old0. by right. }
  assert (Hlayer : forall v, v ∈ buffers c -> layer v = layer u -> v = u).
  { intros v Hv Hl. by apply (NoDup_fmap_inj layer (buffers c)). }
  assert (Hend : forall g, streams s !! (sf, layer u) = Some g -> match change u with
    | Retained _ => False | Replaced _ b => generation_of (buffer_frame b) <> g | Removed => True end -> ended l' g).
  { intros g Hg Hc. destruct (entering_old _ _ _ _ _ H u g (list_elem_of_here _ _) Hg) as (f & Hf & <-). eapply ended_now; [exact Hf|].
    cbn. rewrite Hk. split; [done|]. apply goes_on_other. intros v Hv Hl. by rewrite (Hlayer v Hv Hl). }
  pose proof (entering_delete _ _ _ _ (sf, layer u) _ Hrest) as Hdel. unfold update_stream, next_generation.
  destruct (change u) as [m|m b|] eqn:Hc; cbn [next_generation]; [done| |].
  - set (g := generation_of (buffer_frame b)).
    assert (Hin : exists f, ((sf, layer u), f) ∈ named l' /\ generation_of f = g).
    { exists (buffer_frame b). split; [|done]. unfold l'. rewrite named_snoc. apply elem_of_app. right. cbn. rewrite Hk, Hsf.
      unfold update_names. apply list_elem_of_omap. exists u. by rewrite Hc. }
    assert (Hput : forall x, entering l l' sf us x -> entering l l' sf us (set_streams (<[(sf, layer u) := g]> (streams x)) x)).
    { intros x []. constructor; [| |done]; cbn.
      - intros p g' [[<- <-]|[_ Hp]]%lookup_insert_Some; [exact Hin|by apply entering_streams0].
      - intros v g' Hv [[[= Heq] _]|[_ Hp]]%lookup_insert_Some; [|by apply entering_old0]. destruct Hnu. by rewrite <- (Hlayer v (Hus v Hv) (eq_sym Heq)). }
    destruct (streams s !! (sf, layer u)) as [previous|] eqn:Hp; [case_bool_decide as Heq|]; apply Hput; [exact Hdel| |exact Hdel].
    apply entering_later; [|exact Hdel]. apply Hend; [done|]. intros Hg. apply Heq. by rewrite <- Hg.
  - destruct (streams s !! (sf, layer u)) as [previous|] eqn:Hp; [case_bool_decide as Heq|]; [exact Hdel| |exact Hdel]. apply entering_later; [|exact Hdel]. by apply Hend.
Qed.
Lemma retire_entering l l' sf us gs s : Forall (ended l') gs -> entering l l' sf us s ->
  entering l l' sf us (foldr retire_later s gs).
Proof. intros Hgs H. induction Hgs as [|g gs Hg _ IH]; cbn; [done|by apply entering_later]. Qed.
Lemma drop_entering l session e c s : event_kind e = Commit c -> Frames_ok l s ->
  let l' := l ++ [Arrived session e] in
  let gone := fun key : place => bool_decide (key.1 = surface e) && negb (names_layer c key.2) in
  entering l l' (surface e) (buffers c) (drop_streams gone s).
Proof.
  intros Hk H l' gone. unfold drop_streams. set (s1 := set_streams (filter (fun p => gone p.1 = false) (streams s)) s).
  assert (H1 : entering l l' (surface e) (buffers c) s1).
  { constructor; cbn; [| |intros g Hg; by apply ended_snoc, H].
    - intros p g [Hp _]%map_lookup_filter_Some. destruct (ok_streams _ _ H p g Hp) as (f & Hf & Hg). exists f. split; [|done].
      unfold l'. rewrite named_app. apply elem_of_app. by left.
    - intros u g _ [Hp _]%map_lookup_filter_Some. by apply H. }
  assert (Hl : Forall (ended l') (snd <$> filter (fun p => gone p.1 = true) (map_to_list (streams s)))).
  { apply list.Forall_forall. intros g ([p g'] & -> & [Hp Hin]%list_elem_of_filter)%list_elem_of_fmap. cbn in Hp |- *.
    apply elem_of_map_to_list in Hin. destruct (ok_streams _ _ H p g' Hin) as (f & Hf & <-).
    apply andb_true_iff in Hp as [Hp%bool_decide_eq_true Hnl%negb_true_iff]. eapply ended_now; [exact Hf|].
    cbn. rewrite Hk. split; [done|]. apply goes_on_other. intros u Hu Hlu. by rewrite (names_layer_false c p.2 u). }
  exact (retire_entering _ _ _ _ _ _ Hl H1).
Qed.
Lemma update_streams_entering l session e s : admissible l (Arrived session e) -> Frames_ok l s ->
  entering l (l ++ [Arrived session e]) (surface e) [] (update_stream_generations e s).
Proof.
  intros Hadm H. unfold update_stream_generations. destruct (event_kind e) as [|c| | | |] eqn:Hk;
    try (constructor; [|by intros ? ? ?%not_elem_of_nil|intros g Hg; by apply ended_snoc, H];
         intros p g Hp; destruct (ok_streams _ _ H p g Hp) as (f & Hf & Hg); exists f; split; [|done];
         rewrite named_app; apply elem_of_app; by left).
  pose proof (admissible_layers _ _ Hadm) as Hnd. cbn in Hnd. rewrite Hk in Hnd.
  assert (Hfold : forall us x, NoDup us -> us ⊆ buffers c -> entering l (l ++ [Arrived session e]) (surface e) us x ->
    entering l (l ++ [Arrived session e]) (surface e) [] (foldl (fun s u => update_stream (surface e) u s) x us)).
  { intros us x Hus. revert x. induction Hus as [|u us Hnu _ IH]; intros x Hsub H1; [done|].
    cbn. apply IH; [set_solver|]. apply (update_stream_entering l session e c); try done; [apply Hsub; left|set_solver]. }
  apply Hfold; [by eapply NoDup_fmap_1|done|by apply drop_entering].
Qed.
(** Marking buffers opaque changes no layer and no frame. *)
Lemma update_frames_mark us : update_frames (mark_update <$> us) = update_frames us.
Proof. induction us as [|[ly [m|m b|]] us IH]; [done|exact IH|exact (f_equal (cons _) IH)|exact IH]. Qed.
Lemma mark_frames e : encoded_frames (mark_encoded_buffers_opaque e) = encoded_frames e.
Proof. unfold encoded_frames, mark_encoded_buffers_opaque. destruct (event_kind e) eqn:Hk; cbn; rewrite ?Hk; try done. apply update_frames_mark. Qed.
Lemma mark_surface e : surface (mark_encoded_buffers_opaque e) = surface e.
Proof. unfold mark_encoded_buffers_opaque. by destruct (event_kind e). Qed.
Lemma mark_label e : is_label (mark_encoded_buffers_opaque e) = is_label e.
Proof. unfold is_label, mark_encoded_buffers_opaque. destruct (event_kind e) eqn:Hk; cbn; by rewrite ?Hk. Qed.
Lemma names_layer_mark c us ly : buffers c = us -> names_layer (set_buffers (mark_update <$> us) c) ly = names_layer c ly.
Proof.
  intros <-. unfold names_layer. cbn. induction (buffers c) as [|[ly' [m|m b|]] us IH]; [done|..]; cbn; by rewrite IH.
Qed.
Lemma drop_streams_ext (gone gone' : place -> bool) s : (forall key, gone key = gone' key) -> drop_streams gone s = drop_streams gone' s.
Proof.
  intros H. unfold drop_streams. f_equal.
  - f_equal. apply map_filter_ext. intros p g _. cbn. by rewrite H.
  - f_equal. apply list_filter_iff. intros [p g]. cbn. by rewrite H.
Qed.
Lemma mark_streams e s : update_stream_generations (mark_encoded_buffers_opaque e) s = update_stream_generations e s.
Proof.
  unfold update_stream_generations, mark_encoded_buffers_opaque. destruct (event_kind e) as [|c| | | |] eqn:Hk; cbn; rewrite ?Hk; try done.
  rewrite (drop_streams_ext _ (fun key : place => bool_decide (key.1 = surface e) && negb (names_layer c key.2)))
    by (intros key; do 2 f_equal; by apply names_layer_mark).
  generalize (drop_streams (fun key : place => bool_decide (key.1 = surface e) && negb (names_layer c key.2)) s).
  induction (buffers c) as [|[ly [m|m b|]] us IH]; intros x; [done|..]; cbn; apply IH.
Qed.
(** A queue that a new event joins; superseded labels leave it. *)
Lemma label_no_frames e : is_label e = true -> encoded_frames e = [].
Proof. unfold is_label, encoded_frames. by destruct (event_kind e). Qed.
Lemma without_labels_stages session e q : stages (without_labels session e q) = stages q.
Proof.
  unfold without_labels. destruct (is_label e); [|done]. induction q as [|x q IH]; [done|]. rewrite filter_cons. case_decide as Hx.
  - by rewrite !stages_cons, IH.
  - rewrite stages_cons, decide_True; [done|]. apply label_no_frames. destruct (is_label _); [done|]. destruct Hx. by right.
Qed.
Lemma stages_snoc q x : stages (q ++ [x]) = stages q ++ if decide (encoded_frames (queued_event x) = []) then [] else [encoded_frames (queued_event x)].
Proof. rewrite stages_app, stages_cons. by case_decide. Qed.
Lemma in_turn_snoc sub st b : (forall f, f ∈ b -> sub f = false) -> in_turn sub st -> in_turn sub (st ++ [b]).
Proof.
  intros Hb. destruct st as [|a [|a' st]]; cbn; [intros _; split; [by intros ?? ?%not_elem_of_nil|done]| |].
  - intros _. split; [by intros ?? ?%not_elem_of_nil|]. intros b' f [= <-] Hf. by rewrite Hb.
  - intros [H1 H2]. split; [|done]. intros b' f [Hb'|Hb'%list_elem_of_singleton]%elem_of_app; [by apply H1|]. subst b'. apply Hb.
Qed.
Lemma event_distinct_generations l session e : admissible l (Arrived session e) -> NoDup (generation_of <$> encoded_frames e).
Proof.
  intros [Hlay Hfresh _ Hown]. rewrite <- (names_frames session), <- list_fmap_compose. apply NoDup_fmap_2_strong.
  - intros [p x] [p' x'] Hx Hx' Hg. cbn in Hg. assert (p' = p) as -> by (eapply Hown; [exact Hx|apply elem_of_app; by right|done]).
    unfold names in Hx, Hx'. cbn in Hlay. destruct (event_kind e) as [|c| | | |]; try by apply not_elem_of_nil in Hx.
    unfold update_names in *. apply list_elem_of_omap in Hx as (u & Hu & Hux), Hx' as (u' & Hu' & Hux').
    assert (u' = u) as ->; [|congruence]. apply (NoDup_fmap_inj layer (buffers c)); try done.
    destruct (change u), (change u'); congruence.
  - by eapply NoDup_fmap_1, Hfresh.
Qed.
(** What arrived joins the queue of its surface. *)
Record joined (sf : ClientSurfaceId) (fs : list MediaFrameId) s s' : Prop := {
  joined_stages : forall sf', stages (queue_of s' sf') = if decide (sf' = sf) then stages (queue_of s sf) ++ (if decide (fs = []) then [] else [fs]) else stages (queue_of s sf');
  joined_decoded : decoded s' = decoded s;
  joined_jobs : decode_in_flight s' = decode_in_flight s;
  joined_token : next_token s' = next_token s;
  joined_media : media_frames s' = media_frames s;
  joined_calls : calls s' = calls s;
  joined_ready : forall sf', queue_of s' sf' <> [] -> sf' ∈ ready_surfaces s';
}.
Lemma joined_line sf fs s s' sf' : joined sf fs s s' -> line s' sf' = line s sf' ++ if decide (sf' = sf) then fs else [].
Proof.
  intros []. rewrite !line_stages, joined_stages0. destruct (decide (sf' = sf)) as [->|Hn]; [|by rewrite app_nil_r].
  rewrite concat_app. f_equal. case_decide as Hfs; cbn; [done|apply app_nil_r].
Qed.
Lemma fresh_unsubmitted l session e s f : admissible l (Arrived session e) -> Frames_ok l s -> f ∈ encoded_frames e ->
  submitted s f = false /\ forall sf, f ∉ line s sf.
Proof.
  intros Hadm H Hf. destruct (admissible_fresh _ _ Hadm) as [_ Hnew]. rewrite names_frames in Hnew. specialize (Hnew f Hf). split.
  - apply not_true_iff_false. intros Hs%(ok_submitted _ _ H)%(ok_asked _ _ H). done.
  - intros sf (ly & Hly)%(ok_line _ _ H). apply Hnew. by apply (list_elem_of_fmap_2 snd) in Hly.
Qed.
Lemma names_surface session e sf ly f : ((sf, ly), f) ∈ names (Arrived session e) -> sf = surface e.
Proof.
  unfold names. destruct (event_kind e); try by intros ?%not_elem_of_nil. unfold update_names.
  intros (u & _ & Hu)%list_elem_of_omap. destruct (change u); congruence.
Qed.
Lemma of_generation_nil g (fs : list MediaFrameId) : of_generation g fs = [] <-> forall f, f ∈ fs -> generation_of f <> g.
Proof.
  split; [|apply filter_none]. intros H f Hf Hg. assert (f ∈ of_generation g fs) as Hin by by apply list_elem_of_filter.
  rewrite H in Hin. by apply not_elem_of_nil in Hin.
Qed.
(** The order before the arrival, also of a generation that begins with it. *)
Lemma order_so_far l session e s sf ly f : admissible l (Arrived session e) -> Frames_ok l s ->
  ((sf, ly), f) ∈ named (l ++ [Arrived session e]) -> exists rest,
  of_generation (generation_of f) (snd <$> named l) =
    of_generation (generation_of f) (asked s) ++ of_generation (generation_of f) (waiting s sf) ++ rest /\
  (rest <> [] -> ended l (generation_of f)).
Proof.
  intros Hadm H Hf. set (g := generation_of f) in *. destruct (of_generation g (snd <$> named l)) as [|x xs] eqn:Hx.
  - rewrite of_generation_nil in Hx. exists []. split; [|done]. symmetry. rewrite app_nil_r. apply app_nil. rewrite !of_generation_nil. split.
    + intros x Hax. apply Hx. by apply (ok_asked _ _ H).
    + intros x [_ Hl]%list_elem_of_filter. apply (ok_line _ _ H) in Hl as [ly' Hl]. apply Hx. by apply (list_elem_of_fmap_2 snd) in Hl.
  - assert (x ∈ of_generation g (snd <$> named l)) as [Hgx ([p x'] & -> & Hp)%list_elem_of_fmap]%list_elem_of_filter by (rewrite Hx; left).
    cbn in Hgx. assert (p = (sf, ly)) as ->.
    { rewrite named_snoc in Hf. apply elem_of_app in Hf as [Hf|Hf]; [by eapply (ok_owner _ _ H)|].
      eapply (admissible_owner _ _ Hadm _ _ _ _ Hf); [apply elem_of_app; by left|done]. }
    rewrite <- Hx, <- Hgx. by eapply ok_order.
Qed.
Lemma joined_order l session e s s' sf ly f : admissible l (Arrived session e) -> Frames_ok l s -> joined (surface e) (encoded_frames e) s s' ->
  ((sf, ly), f) ∈ named (l ++ [Arrived session e]) -> exists rest,
    of_generation (generation_of f) (snd <$> named (l ++ [Arrived session e])) =
      of_generation (generation_of f) (asked s') ++ of_generation (generation_of f) (waiting s' sf) ++ rest /\
    (rest <> [] -> ended (l ++ [Arrived session e]) (generation_of f)).
Proof.
  intros Hadm H J Hf. rewrite named_snoc, fmap_app, names_frames, of_generation_app. set (g := generation_of f) in *.
  assert (Ha : asked s' = asked s) by (unfold asked; by rewrite (joined_calls _ _ _ _ J)).
  assert (Hs : forall x, submitted s' x = submitted s x) by (intros; apply submitted_ext; apply J).
  assert (Hw : of_generation g (waiting s' sf) = of_generation g (waiting s sf) ++ of_generation g (if decide (sf = surface e) then encoded_frames e else [])).
  { unfold waiting. rewrite (joined_line _ _ _ _ _ J), (list_filter_iff _ (fun x => submitted s x = false)) by (intros; by rewrite Hs).
    rewrite list.filter_app, of_generation_app. f_equal. case_decide; [|done]. unfold of_generation. rewrite list_filter_filter.
    apply filter_ext. intros x Hx. destruct (fresh_unsubmitted l session e s x Hadm H Hx) as [-> _]. tauto. }
  rewrite Ha, Hw. destruct (order_so_far l session e s sf ly f Hadm H Hf) as (rest & Hr & He). fold g in Hr, He. rewrite Hr.
  destruct (of_generation g (encoded_frames e)) as [|y ys] eqn:Hy.
  - exists rest. split; [|intros ?; by apply ended_snoc, He]. rewrite app_nil_r. assert (Hnil : of_generation g (if decide (sf = surface e) then encoded_frames e else []) = []) by by case_decide.
    by rewrite Hnil, app_nil_r.
  - assert (y ∈ of_generation g (encoded_frames e)) as [Hgy Hye]%list_elem_of_filter by (rewrite Hy; left).
    rewrite <- (names_frames session) in Hye. apply list_elem_of_fmap in Hye as ([p y'] & -> & Hp). cbn in Hgy.
    rewrite named_snoc in Hf. assert ((sf, ly) = p) as <- by exact (admissible_owner _ _ Hadm _ _ _ _ Hp Hf (eq_sym Hgy)).
    rewrite (decide_True (P := sf = surface e)) by by eapply names_surface. rewrite Hy.
    assert (rest = []) as -> by (apply dec_stable; intros Hn; apply (admissible_open _ _ Hadm _ _ Hp); rewrite Hgy; by apply He).
    exists []. split; [|done]. by rewrite !app_nil_r, app_assoc.
Qed.
Lemma joined_ok l session e s s' : admissible l (Arrived session e) -> Frames_ok l s -> joined (surface e) (encoded_frames e) s s' ->
  (forall p g, streams s' !! p = Some g -> exists f, (p, f) ∈ named (l ++ [Arrived session e]) /\ generation_of f = g) ->
  (forall g, is_Some (pending_retirement s' !! g) -> ended (l ++ [Arrived session e]) g) ->
  Frames_ok (l ++ [Arrived session e]) s'.
Proof.
  intros Hadm H J Hst Hpe. assert (Hl : forall sf, line s' sf = line s sf ++ if decide (sf = surface e) then encoded_frames e else []).
  { intros sf. by apply joined_line. }
  pose proof (fun sf ly f => joined_order l session e s s' sf ly f Hadm H J) as Hord. destruct J as [Jq Jd Jj Jt Jm Jc Jr].
  destruct (admissible_fresh _ _ Hadm) as [Hnd Hnew]. rewrite names_frames in Hnd, Hnew.
  assert (Hs : forall x, submitted s' x = submitted s x) by (intros; by apply submitted_ext).
  assert (Hin : forall sf f, f ∈ line s' sf -> f ∈ line s sf \/ sf = surface e /\ f ∈ encoded_frames e).
  { intros sf f. rewrite Hl, elem_of_app. destruct (decide (sf = surface e)) as [Hsf|]; [by intros [?|?]; [left|right]|]. by intros [?|?%not_elem_of_nil]; [left|]. }
  constructor; [| | | | | |exact Hord|..].
  - rewrite named_snoc, fmap_app, names_frames. apply list.NoDup_app. split_and!; [apply H| |done]. intros x Hx Hx'. by eapply Hnew.
  - intros p f p' f'. rewrite named_snoc. intros Hp%elem_of_app Hp' Hg. destruct Hp as [Hp|Hp]; [|by eapply admissible_owner].
    apply elem_of_app in Hp' as [Hp'|Hp']; [by eapply ok_owner|].
    symmetry. eapply (admissible_owner _ _ Hadm _ _ _ _ Hp'); [apply elem_of_app; by left|done].
  - intros sf f [(ly & Hf)%(ok_line _ _ H)|[-> Hf]]%Hin; rewrite named_snoc.
    + exists ly. apply elem_of_app. by left.
    + rewrite <- (names_frames session) in Hf. apply list_elem_of_fmap in Hf as ([[sf ly] x] & -> & Hf). exists ly. apply elem_of_app. right.
      by rewrite <- (names_surface _ _ _ _ _ Hf).
  - intros sf. rewrite Hl. apply list.NoDup_app. split_and!; [apply H| |destruct (decide (sf = surface e)); [done|by apply list.NoDup_nil]].
    intros x Hx. destruct (decide (sf = surface e)); [|by intros ?%not_elem_of_nil]. intros Hx'. by apply (fresh_unsubmitted l session e s x Hadm H Hx') in Hx.
  - intros sf fs. rewrite Jq. destruct (decide (sf = surface e)); [|apply H]. intros [Hfs|Hfs]%elem_of_app; [by apply (ok_distinct _ _ H (surface e))|].
    destruct (decide (encoded_frames e = [])); [by apply not_elem_of_nil in Hfs|]. apply list_elem_of_singleton in Hfs as ->. by eapply event_distinct_generations.
  - intros sf. rewrite Jq. apply (in_turn_ext (submitted s)); [done|]. destruct (decide (sf = surface e)); [|apply H]. destruct (decide (encoded_frames e = [])); [rewrite app_nil_r; apply H|].
    apply in_turn_snoc; [|apply H]. intros x Hx. by apply (fresh_unsubmitted l session e s x).
  - intros f. rewrite Hs. unfold asked. rewrite Jc. apply H.
  - intros f. unfold asked. rewrite Jc, named_snoc, fmap_app. intros Hf. apply elem_of_app. left. by apply H.
  - rewrite Jj, Jt. apply H.
  - intros t j. rewrite Jj. intros Hj Hc. destruct (ok_cancelled _ _ H t j Hj Hc) as [H1 H2]. split; [by apply ended_snoc|].
    intros sf [Hf|[_ Hf]]%Hin; [by eapply H2|]. apply (fresh_unsubmitted l session e s _ Hadm H) in Hf as [Hf _].
    rewrite (proj2 (submitted_iff _ _)) in Hf; [done|]. right. by exists t, j.
  - exact Hst.
  - exact Hpe.
  - intros st gn. rewrite Jc, Jj, Jd. intros Hr. destruct (ok_retired _ _ H st gn Hr) as (H1 & H2 & H3). split_and!; [by apply ended_snoc|done|].
    intros sf f [Hf|[_ Hf]]%Hin Hg; [by eapply H3|]. rewrite <- (names_frames session) in Hf. apply list_elem_of_fmap in Hf as ([p x] & -> & Hf).
    cbn in Hg. destruct (admissible_open _ _ Hadm _ _ Hf). by rewrite Hg.
  - rewrite Jm. apply H.
  - rewrite Jc. apply H.
  - exact Jr.
Qed.
Lemma push_queue_joined session e s s' : (forall sf, queue_of s sf <> [] -> sf ∈ ready_surfaces s) -> push_queue session e s = (s', Ret tt) ->
  joined (surface e) (encoded_frames e) s s' /\ streams s' = streams s /\ pending_retirement s' = pending_retirement s.
Proof.
  intros Hr. unfold push_queue. set (old := queue_of s (surface e)). case_bool_decide; [|done]. intros [= <-]. split; [|done].
  set (q := without_labels session e old ++ [MkQueued session e]).
  assert (Hq : forall r sf, queue_of (set_ready_surfaces r (set_queues (<[surface e := q]> (queues s)) s)) sf =
    if decide (sf = surface e) then q else queue_of s sf) by (intros r sf; exact (queue_of_put s (surface e) q sf)).
  constructor; try done.
  - intros sf. rewrite Hq. destruct (decide (sf = surface e)) as [->|]; [|done]. unfold q. by rewrite stages_snoc, without_labels_stages.
  - intros sf. rewrite Hq. cbn. case_bool_decide as Ho; destruct (decide (sf = surface e)) as [->|Hn].
    + intros _. apply elem_of_app. right. left.
    + intros Hne. apply elem_of_app. left. by apply Hr.
    + intros _. by apply Hr.
    + apply Hr.
Qed.
Lemma note_event_aside session e s : aside [] s (note_event session e s).
Proof. constructor; try done; [by eexists|by left|apply plain_refl]. Qed.
Lemma names_destroyed session e : is_destroyed e = true -> names (Arrived session e) = [] /\ forall ly g, ends (Arrived session e) (surface e, ly) g.
Proof. unfold is_destroyed, names, ends. by destruct (event_kind e). Qed.
Lemma decoder_enqueue_ok l session e : admissible l (Arrived session e) ->
  triple (Frames_ok l) (enqueue session e : M state unit) (fun _ => Frames_ok (l ++ [Arrived session e])).
Proof.
  intros Hadm s s' [] H Hs. unfold enqueue in Hs. do 3 run_step Hs. cbn beta in Hs.
  set (s1 := note_event session e s) in Hs. assert (H1 : Frames_ok l s1) by exact (decoder_aside_ok l [] s s1 (note_event_aside session e s) (nothing_off s) H).
  destruct (is_destroyed e) eqn:Hd.
  - destruct (names_destroyed session e Hd) as [Hn He]. apply run_bind in Hs as (s2 & [] & H2 & Hs). run_in Hs.
    apply (decoder_cancel_ok l (Arrived session e) (surface e) Hn He) in H2; [|done].
    exact (decoder_aside_ok _ [] s2 _ (run_always _ _ _ _ _ (emit_aside [] _ _) Hs) (nothing_off s2) H2).
  - cbn beta zeta in Hs. run_step Hs. apply run_bind in Hs as (s2 & [] & H2 & Hs). eapply publish_ready_ok; [|exact Hs].
    rewrite mark_streams in H2. destruct (update_streams_entering l session e s1 Hadm H1) as [E1 _ E3]. destruct (update_streams_ledger e s1) as (x & y & E4). rewrite E4 in H2, E1, E3.
    apply push_queue_joined in H2 as ([] & Hst & Hpe); [|apply H1]. rewrite mark_surface, mark_frames in *.
    eapply joined_ok; [exact Hadm|exact H1| |by rewrite Hst|by rewrite Hpe]. by constructor.
Qed.
Lemma enqueue_media_ok l m : triple (Frames_ok l) (enqueue_media m : M state unit) (fun _ => Frames_ok l).
Proof.
  intros s s' [] H Hs. refine (decoder_aside_ok l [] s s' _ (nothing_off s) H). unfold enqueue_media in Hs.
  destruct (cancelled_frames s !! _) as [session|].
  - case_bool_decide; [|done]. injection Hs as <-. constructor; try done; [by eexists|by left|apply plain_refl].
  - destruct (negb _); [done|]. destruct (negb _); [done|]. injection Hs as <- _. constructor; try done; [by eexists| |apply plain_refl].
    cbn. intros f m' [[<- <-]|[_ ?]]%lookup_insert_Some; [by right|by left].
Qed.

(** ** Histories

    What the port does with its destination: events and media arrive, surfaces are
    withdrawn, completions are drained and the events published are taken. In between
    anything else may change: activity, policy, and what the decoder has finished. A step
    succeeds; the port is gone after a failure. *)
Record elsewhere s s' : Prop := {
  elsewhere_queues : queues s' = queues s;
  elsewhere_media : media_frames s' = media_frames s;
  elsewhere_decoded : decoded s' = decoded s;
  elsewhere_jobs : decode_in_flight s' = decode_in_flight s;
  elsewhere_ready : ready_surfaces s' = ready_surfaces s;
  elsewhere_cancelled : cancelled_frames s' = cancelled_frames s;
  elsewhere_streams : streams s' = streams s;
  elsewhere_pending : pending_retirement s' = pending_retirement s;
  elsewhere_counters : next_token s' = next_token s /\ next_buffer s' = next_buffer s /\ next_use s' = next_use s;
  elsewhere_output : output s' = output s;
  elsewhere_calls : calls s' = calls s;
}.
Abbreviation history_state := (list arrival * list (HoistSessionId * ClientSurfaceEvent ClientBufferLease) * state)%type.
Inductive destination_step : history_state -> history_state -> Prop :=
  | step_arrive l out s s' session e :
      admissible l (Arrived session e) -> enqueue session e s = (s', Ret tt) ->
      destination_step (l, out, s) (l ++ [Arrived session e], out, s')
  | step_withdraw l out s s' sf :
      cancel_surface sf s = (s', Ret tt) -> destination_step (l, out, s) (l ++ [Withdrawn sf], out, s')
  | step_media l out s s' m : enqueue_media m s = (s', Ret tt) -> destination_step (l, out, s) (l, out, s')
  | step_drain l out s s' clock : drain clock s = (s', Ret tt) -> destination_step (l, out, s) (l, out, s')
  | step_take l out s s' events : take_output s = (s', Ret events) -> destination_step (l, out, s) (l, out ++ events, s')
  | step_elsewhere l out s s' : elsewhere s s' -> destination_step (l, out, s) (l, out, s').
Lemma elsewhere_aside s s' : elsewhere s s' -> aside [] s s'.
Proof.
  intros []. destruct elsewhere_counters0 as (Ht & _). constructor; try congruence.
  - intros sf. unfold queue_of. congruence.
  - by rewrite elsewhere_decoded0.
  - intros n. rewrite Ht. by eexists.
  - rewrite elsewhere_media0. by left.
  - rewrite elsewhere_calls0. apply plain_refl.
Qed.
Lemma take_output_aside s s' events : take_output s = (s', Ret events) -> aside [] s s'.
Proof. intros [= <- _]. constructor; try done; [by eexists|by left|apply plain_refl]. Qed.
Lemma destination_step_ok x y : destination_step x y -> Frames_ok x.1.1 x.2 -> Frames_ok y.1.1 y.2.
Proof.
  intros [l out s s' session e Ha Hs|l out s s' sf Hs|l out s s' m Hs|l out s s' clock Hs|l out s s' events Hs|l out s s' He] H; cbn in *.
  - exact (decoder_enqueue_ok l session e Ha s s' tt H Hs).
  - refine (decoder_cancel_ok l (Withdrawn sf) sf _ _ s s' tt H Hs); done.
  - exact (enqueue_media_ok l m s s' tt H Hs).
  - exact (decoder_drain_ok l clock s s' tt H Hs).
  - exact (decoder_aside_ok l [] s s' (take_output_aside s s' events Hs) (nothing_off s) H).
  - exact (decoder_aside_ok l [] s s' (elsewhere_aside s s' He) (nothing_off s) H).
Qed.
(** A destination after a while: what arrived, what was taken, and what it holds. *)
Definition destination_history l (out : list (HoistSessionId * ClientSurfaceEvent ClientBufferLease)) s : Prop :=
  exists id k p, rtc destination_step ([], [], EncodedDestinationState_new id k p) (l, out, s).
Lemma new_frames id k p : Frames_ok [] (EncodedDestinationState_new id k p : state).
Proof.
  assert (Hq : forall sf, queue_of (EncodedDestinationState_new id k p : state) sf = []) by (intros sf; unfold queue_of; cbn; by rewrite lookup_empty).
  assert (Hl : forall sf, line (EncodedDestinationState_new id k p : state) sf = []) by (intros sf; unfold line; by rewrite Hq).
  constructor.
  - apply list.NoDup_nil. done.
  - by intros ? ? ? ? ?%not_elem_of_nil.
  - intros sf f. rewrite Hl. by intros ?%not_elem_of_nil.
  - intros sf. rewrite Hl. by apply list.NoDup_nil.
  - intros sf fs. rewrite Hq. by intros ?%not_elem_of_nil.
  - intros sf. by rewrite Hq.
  - by intros ? ? ? ?%not_elem_of_nil.
  - intros f [[b Hb]|(t & j & Hj & _)]%submitted_iff; cbn in *; by rewrite lookup_empty in *.
  - by intros f ?%not_elem_of_nil.
  - intros t n [j Hj]. cbn in Hj. by rewrite lookup_empty in Hj.
  - intros t j Hj. cbn in Hj. by rewrite lookup_empty in Hj.
  - intros p' g Hg. cbn in Hg. by rewrite lookup_empty in Hg.
  - intros g [u Hu]. cbn in Hu. by rewrite lookup_empty in Hu.
  - by intros st gn ?%not_elem_of_nil.
  - intros f m Hm. cbn in Hm. by rewrite lookup_empty in Hm.
  - by intros [|??].
  - intros sf. by rewrite Hq.
Qed.
Lemma history_frames l out s : destination_history l out s -> Frames_ok l s.
Proof.
  intros (id & k & p & H). refine (rtc_ind_r (fun x => Frames_ok x.1.1 x.2) _ _ _ _ H); [apply new_frames|].
  intros x y _ Hxy. by apply destination_step_ok.
Qed.

Lemma asked_in_order l s g : Frames_ok l s -> of_generation g (asked s) `prefix_of` of_generation g (snd <$> named l).
Proof.
  intros H. destruct (of_generation g (asked s)) as [|f fs] eqn:Ha; [apply prefix_nil|].
  assert (f ∈ of_generation g (asked s)) as [Hg Hf]%list_elem_of_filter by (rewrite Ha; left).
  apply (ok_asked _ _ H), list_elem_of_fmap in Hf as ([[sf ly] f'] & -> & Hf). cbn in Hg.
  destruct (ok_order _ _ H _ _ _ Hf) as (rest & Hr & _). rewrite <- Ha, <- Hg, Hr. by eexists.
Qed.
(** C4 (dest-decode). When the arrivals are such as a source may send ([admissible]; a source's
    are, see Hoist), the decoder is given the frames of a generation in the order the events
    that arrived name them, from the first on, each once and none left out, in whatever order
    the media arrives. *)
Theorem destination_decodes_in_order l out s (H : destination_history l out s) (g : EncodedGeneration) :
  of_generation g (asked s) `prefix_of` of_generation g (snd <$> named l) /\ NoDup (snd <$> named l).
Proof.
  apply history_frames in H. split; [by apply asked_in_order|apply H].
Qed.
(** C16 (dest-retire). When the arrivals are such as a source may send ([admissible]), a
    generation is retired when its last job is done, and nothing of it is given to the
    decoder afterwards. *)
Theorem destination_retires l out s (st : MediaStreamId) (gn : StreamGeneration) (before after : list (call Buf))
    (H : destination_history l out s) (Hc : calls s = before ++ Retired st gn :: after) :
  (forall f, f ∈ asked_in after -> generation_of f <> (st, gn)) /\
  (forall t j, decode_in_flight s !! t = Some j -> generation_of (in_flight_frame j) <> (st, gn)).
Proof.
  apply history_frames in H. split; [by eapply (ok_calls _ _ H)|]. apply (ok_retired _ _ H). rewrite Hc. set_solver.
Qed.
(** C30 (dest-settle). After a drain nothing is held back: the first event of every surface waits
    for a frame that is not decoded, and a surface with a frame to decode belongs to no
    group or was just refused by a busy decoder. The rounds of publication and the turns
    of decoding are bounded by what waits: more of them would change nothing. *)
Theorem destination_settles l out s s' (clock : nat -> instant) (H : destination_history l out s) (Hs : drain clock s = (s', Ret tt)) :
  (forall sf, queue_of s' sf <> [] -> blocked s' sf /\ (is_Some (decode_candidate s' sf) ->
     group (activity s') sf = None \/ exists f, f ∈ line s' sf /\ called_between s s' (Refused f))) /\
  (forall x n, (queued x < n)%nat -> iterate (S (queued x)) publish_round tt x = iterate n publish_round tt (x : state)) /\
  (forall x n, (decode_fuel x <= n)%nat ->
     iterate (decode_fuel x) (in_time clock decode_turn) (O, []) x = iterate n (in_time clock decode_turn) (O, []) (x : state)).
Proof.
  assert (Hr : forall sf, queue_of s' sf <> [] -> sf ∈ ready_surfaces s').
  { apply (ok_ready l). by eapply decoder_drain_ok; [apply (history_frames _ _ _ H)|]. }
  split_and!.
  - intros sf Hq%Hr. apply drain_run in Hs as (k & s1 & H1 & [Hst Hset]%decode_advance_settles). split; [by apply (proj1 (list.Forall_forall _ _) Hst)|].
    intros Hc. destruct (Hset sf Hq Hc) as [?|(f & Hf & Hb)]; [by left|right]. exists f. split; [done|].
    eapply called_between_trans; [|exact Hb]. apply (H1 (fun x => grows s x)); [|unfold grows; cbn; reflexivity].
    intros c x y (j & _ & Hy) Hx. cbn in Hy. unfold grows in *. etrans; [exact Hx|]. destruct (in_flight_cancelled j); [by rewrite Hy|].
    destruct Hy as (b & _ & ->). by eexists.
  - intros x n Hn. apply (iterate_enough (fun _ => queued)); [apply publish_round_shrinks|lia|lia].
  - intros x n Hn. apply (iterate_enough (fun x => decode_left x.2)); [apply shrinks_in_time, decode_turn_shrinks| |done].
    unfold decode_left, decode_fuel. pose proof (length_filter (fun sf => sf ∉ []) (ready_surfaces x)). cbn [snd]. lia.
Qed.
End DestinationFrames.

(** ** What may arrive, decided *)
#[export] Instance ends_dec (a : arrival) (p : place) (g : EncodedGeneration) : Decision (ends a p g).
Proof. destruct a as [session e|sf]; cbn; [|apply _]. destruct (event_kind e); apply _. Defined.
Fixpoint ended_in (seen : list (place * MediaFrameId)) (l : list arrival) (g : EncodedGeneration) : bool :=
  match l with
  | [] => false
  | a :: l => existsb (fun x => bool_decide (generation_of x.2 = g) && bool_decide (ends a x.1 g)) seen || ended_in (seen ++ names a) l g
  end.
Definition admissibleb (l : list arrival) (a : arrival) : bool :=
  bool_decide (NoDup (commit_layers a))
  && bool_decide (NoDup (snd <$> names a)) && bool_decide (Forall (fun f => f ∉ snd <$> named l) (snd <$> names a))
  && forallb (fun x => negb (ended_in [] l (generation_of x.2))) (names a)
  && bool_decide (Forall (fun x => Forall (fun y => generation_of y.2 <> generation_of x.2 \/ y.1 = x.1) (named l ++ names a)) (names a)).
Lemma ended_in_complete (before : list arrival) a after p f seen : (p, f) ∈ seen ++ named before -> ends a p (generation_of f) ->
  ended_in seen (before ++ a :: after) (generation_of f) = true.
Proof.
  revert seen. induction before as [|b before IH]; intros seen Hf Ha; cbn; apply orb_true_iff.
  - left. apply existsb_exists. exists (p, f). cbn in Hf. rewrite app_nil_r in Hf. split; [by apply list_elem_of_In|].
    by rewrite !bool_decide_true.
  - right. apply IH; [|done]. by rewrite <- app_assoc.
Qed.
Lemma admissibleb_sound (l : list arrival) (a : arrival) : admissibleb l a = true -> admissible l a.
Proof.
  intros [[[[H1%bool_decide_eq_true H2%bool_decide_eq_true]%andb_true_iff H3%bool_decide_eq_true]%andb_true_iff H4]%andb_true_iff H5%bool_decide_eq_true]%andb_true_iff.
  rewrite list.Forall_forall in H3. rewrite list.Forall_forall in H5. constructor.
  - done.
  - done.
  - intros p f Hf (before & x & after & p' & f' & -> & Hf' & Hg & Hx).
    apply (proj1 (forallb_forall _ _)) with (x := (p, f)) in H4; [|by apply list_elem_of_In]. cbn in H4. rewrite <- Hg in *.
    rewrite (ended_in_complete before x after p' f' []) in H4; done.
  - intros p f p' f' Hf Hf' Hg. specialize (H5 (p, f) Hf). rewrite list.Forall_forall in H5. by destruct (H5 (p', f') Hf').
Qed.

(** ** A destination at work

    A decoder with room for one job, which finishes it at once. *)
Definition OneJob : Type := list (DecodeCompletion unit).
#[export] Instance one_job_decoder : DecodeBackend OneJob unit := {
  try_decode r k := match k with
                    | [] => ([MkDecodeCompletion (decode_token r) (inl [MkDecodedFrame (unit_frame (decode_unit r)) tt])], Accepted)
                    | _ => (k, DecoderBusy r)
                    end;
  drain_decoded k := ([], (k, None));
  retire_decoder _ _ k := (k, Ret tt);
}.
#[export] Instance plain_publisher : DecodedFramePublisher unit unit := {
  publish_frame _ buffer use p := (p, Ret (MkClientBufferLease buffer (MkClientBufferMetadata (MkExtent 1 1) true) 1 use));
}.
#[export] Existing Instance plain_order.
Abbreviation sample_destination := (EncodedDestinationState OneJob unit unit).
Abbreviation sample_history_state := (list arrival * list (HoistSessionId * ClientSurfaceEvent ClientBufferLease) * sample_destination)%type.
Inductive destination_action :=
  | Control (e : WireEvent)
  | Gone (sf : ClientSurfaceId)
  | Media (u : EncodedAccessUnit)
  | Complete (now : instant)
  | Collect.
Definition destination_session : HoistSessionId := MkHoistSessionId 1.
Definition destination_ran {A} (r : sample_destination * outcome A) (k : A -> sample_destination -> sample_history_state) : option sample_history_state :=
  match r with (s, Ret a) => Some (k a s) | _ => None end.
Definition destination_act (a : destination_action) (x : sample_history_state) : option sample_history_state :=
  let '(l, out, s) := x in
  match a with
  | Control e =>
      let arrived := Arrived destination_session e in
      if admissibleb l arrived then destination_ran (enqueue destination_session e s) (fun _ s => (l ++ [arrived], out, s)) else None
  | Gone sf => destination_ran (cancel_surface sf s) (fun _ s => (l ++ [Withdrawn sf], out, s))
  | Media u => destination_ran (enqueue_media (MkMediaEnvelope destination_session u) s) (fun _ s => (l, out, s))
  | Complete now => destination_ran (drain (fun _ => now) s) (fun _ s => (l, out, s))
  | Collect => destination_ran (take_output s) (fun events s => (l, out ++ events, s))
  end.
Definition destination_run (l : list destination_action) (x : sample_history_state) : option sample_history_state :=
  foldl (fun o a => o ≫= destination_act a) (Some x) l.
Lemma destination_ran_Some {A} (r : sample_destination * outcome A) k y : destination_ran r k = Some y -> exists s a, r = (s, Ret a) /\ y = k a s.
Proof. destruct r as [s [a| |]]; [|done..]. intros [= <-]. by exists s, a. Qed.
Lemma destination_act_step a x y : destination_act a x = Some y -> destination_step x y.
Proof.
  destruct x as [[l out] s]. destruct a as [e|sf|u|now|]; cbn.
  - destruct (admissibleb _ _) eqn:Ha; [|done]. intros (s' & [] & Hs & ->)%destination_ran_Some. by apply step_arrive; [apply admissibleb_sound|].
  - intros (s' & [] & Hs & ->)%destination_ran_Some. by apply step_withdraw.
  - intros (s' & [] & Hs & ->)%destination_ran_Some. exact (step_media _ _ _ _ _ Hs).
  - intros (s' & [] & Hs & ->)%destination_ran_Some. exact (step_drain _ _ _ _ _ Hs).
  - intros [= <-]. by apply step_take.
Qed.
Definition destination_start : sample_history_state := ([], [], EncodedDestinationState_new (MkClientSourceId 1) [] tt).
Definition destination_end (l : list destination_action) : sample_history_state := default destination_start (destination_run l destination_start).
Lemma destination_end_history (l : list destination_action) : is_Some (destination_run l destination_start) ->
  destination_history (destination_end l).1.1 (destination_end l).1.2 (destination_end l).2.
Proof.
  intros [y Hy]. unfold destination_end. rewrite Hy. cbn. exists (MkClientSourceId 1), [], tt. destruct y as [[arr out] s].
  change (rtc destination_step destination_start (arr, out, s)). revert Hy. generalize destination_start. unfold destination_run.
  induction l as [|a l IH]; intros x; cbn; [intros [= ->]; apply rtc_refl|]. destruct (destination_act a x) as [z|] eqn:Hz.
  - intros Hy. eapply rtc_l; [by apply (destination_act_step a)|by apply IH].
  - intros Hy. exfalso. clear -Hy. by induction l.
Qed.

(** A surface shows two frames of one size and one of another. The media of the later ones
    arrives first. *)
Definition destination_show (rev w gn seq : Z) : WireEvent :=
  MkClientSurfaceEvent (ClientSurfaceId_for_test 1)
    (Commit (MkClientSurfaceState rev Discarded true None None [] []
       [MkSurfaceBufferUpdate (MkSurfaceLayerId 0) (Replaced (MkClientBufferMetadata (MkExtent w 100) true)
          (MkEncodedBuffer (MkMediaFrameId (MkMediaStreamId 1) (MkStreamGeneration gn) seq)))])).
Definition destination_media (gn seq : Z) : EncodedAccessUnit :=
  MkAccessUnit (MkMediaFrameId (MkMediaStreamId 1) (MkStreamGeneration gn) seq) H264 (if seq =? 0 then Keyframe else Delta) (gn * 10 + seq) [7].
Definition destination_sample : list destination_action :=
  [Control (destination_show 1 100 1 0); Control (destination_show 2 100 1 1); Media (destination_media 2 0); Media (destination_media 1 1);
   Complete 0; Media (destination_media 1 0); Complete 1; Complete 2; Control (destination_show 3 200 2 0); Complete 3; Complete 4; Collect].
Definition sample_frame (gn seq : Z) : MediaFrameId := MkMediaFrameId (MkMediaStreamId 1) (MkStreamGeneration gn) seq.
Lemma destination_sample_history : let x := destination_end destination_sample in destination_history x.1.1 x.1.2 x.2.
Proof. apply destination_end_history. vm_compute. by eexists. Qed.
Lemma destination_decodes_in_order_witness :
  let x := destination_end destination_sample in let g := (MkMediaStreamId 1, MkStreamGeneration 1) in
  of_generation g (asked x.2) = [sample_frame 1 0; sample_frame 1 1] /\
  (of_generation g (asked x.2) `prefix_of` of_generation g (snd <$> named x.1.1) /\ NoDup (snd <$> named x.1.1)).
Proof. split; [by vm_compute|]. apply (destination_decodes_in_order _ _ _ destination_sample_history (MkMediaStreamId 1, MkStreamGeneration 1)). Defined.
Definition sample_calls : list (call unit) := calls (destination_end destination_sample).2.
Lemma destination_retires_witness :
  let g := (MkMediaStreamId 1, MkStreamGeneration 1) in
  sample_calls = take 6 sample_calls ++ Retired g.1 g.2 :: drop 7 sample_calls /\
  asked_in (drop 7 sample_calls) = [sample_frame 2 0] /\
  (forall f, f ∈ asked_in (drop 7 sample_calls) -> generation_of f <> g).
Proof.
  intros g. assert (Hc : sample_calls = take 6 sample_calls ++ Retired g.1 g.2 :: drop 7 sample_calls) by by vm_compute.
  split_and!; [exact Hc|by vm_compute|].
  exact (proj1 (destination_retires _ _ _ _ _ (take 6 sample_calls) (drop 7 sample_calls) destination_sample_history Hc)).
Defined.
(** Before the second job is done. *)
Definition destination_held : list destination_action := take 7 destination_sample.
Lemma destination_settles_witness :
  let x := destination_end destination_held in let s' := (drain (fun _ => 1) x.2).1 in let sf := ClientSurfaceId_for_test 1 in
  length (queue_of x.2 sf) = 2%nat /\ length (queue_of s' sf) = 1%nat /\ blocked s' sf.
Proof.
  intros x s' sf. assert (H : destination_history x.1.1 x.1.2 x.2) by (apply destination_end_history; vm_compute; by eexists).
  assert (Hr : (drain (fun _ => 1) x.2).2 = Ret tt) by (vm_compute; reflexivity).
  pose proof (surjective_pairing (drain (fun _ => 1) x.2)) as Hs. rewrite Hr in Hs.
  split; [by vm_compute|split; [by vm_compute|]].
  assert (Hq : queue_of s' sf <> []) by (vm_compute; discriminate).
  exact (proj1 (proj1 (destination_settles _ _ _ _ (fun _ => 1) H Hs) sf Hq)).
Defined.
