(* ===== verification/DestinationEvents.v ===== *)
(** * What a destination publishes

    The events an encoded destination publishes against those that arrived, and its bounds. *)

From S2P Require Import Prelude.
From S2P Require Import Effects.
From S2P Require Import Ids.
From S2P Require Import Surface.
From S2P Require Import Activity.
From S2P Require Import Scheduling.
From S2P Require Import Framing.
From S2P Require Import Commit.
From S2P Require Import Packets.
From S2P Require Import Destination.
From S2P Require Import DestinationFrames.

Abbreviation Event := (ClientSurfaceEvent ClientBufferLease) (only parsing).
Abbreviation WireEvent := (ClientSurfaceEvent EncodedBuffer) (only parsing).

Section DestinationEvents.
Context {K P Buf : Type} {decoder : DecodeBackend K Buf} {frames : DecodedFramePublisher P Buf}.
Context {job_visit : HashOrder Z InFlightDecode} {queue_visit : HashOrder ClientSurfaceId (list QueuedDestinationEvent)}.
Context {retirement_visit : HashOrder EncodedGeneration unit}.
Abbreviation state := (EncodedDestinationState K P Buf).
Implicit Types (s : state) (sf : ClientSurfaceId) (f : MediaFrameId) (l : list arrival) (out : list (HoistSessionId * Event)).

(** ** Published events *)
(** What is published for an event: each frame became a lease of what the decoder made of
    it, the rest is as it was. *)
Inductive shown_update (cs : list (call Buf)) : SurfaceBufferUpdate EncodedBuffer -> SurfaceBufferUpdate ClientBufferLease -> Prop :=
  | shown_retained ly m : shown_update cs (MkSurfaceBufferUpdate ly (Retained m)) (MkSurfaceBufferUpdate ly (Retained m))
  | shown_removed ly : shown_update cs (MkSurfaceBufferUpdate ly Removed) (MkSurfaceBufferUpdate ly Removed)
  | shown_replaced ly m b buf lease : Finished (buffer_frame b) buf ∈ cs -> Shown buf lease ∈ cs ->
      shown_update cs (MkSurfaceBufferUpdate ly (Replaced m b)) (MkSurfaceBufferUpdate ly (Replaced m lease)).
Inductive shown_kind (cs : list (call Buf)) : ClientSurfaceEventKind EncodedBuffer -> ClientSurfaceEventKind ClientBufferLease -> Prop :=
  | shown_commit c us : Forall2 (shown_update cs) (buffers c) us -> shown_kind cs (Commit c) (Commit (set_buffers us c))
  | shown_role r : shown_kind cs (Role r) (Role r)
  | shown_interaction k : shown_kind cs (Interaction k) (Interaction k)
  | shown_request k : shown_kind cs (StateRequest k) (StateRequest k)
  | shown_destroyed : shown_kind cs Destroyed Destroyed
  | shown_metadata m : shown_kind cs (Metadata m) (Metadata m).
Definition delivered (cs : list (call Buf)) (q : HoistSessionId * WireEvent) (d : HoistSessionId * Event) : Prop :=
  d.1 = q.1 /\ surface d.2 = surface q.2 /\ shown_kind cs (event_kind q.2) (event_kind d.2).

(** The surface's events, up to the last cancellation and since. *)
Definition entry (q : QueuedDestinationEvent) : HoistSessionId * WireEvent := (queued_session q, queued_event q).
Definition split_step sf (x : list (HoistSessionId * WireEvent) * list (HoistSessionId * WireEvent)) (a : arrival) :
    list (HoistSessionId * WireEvent) * list (HoistSessionId * WireEvent) :=
  match a with
  | Withdrawn sf' => if decide (sf' = sf) then (x.1 ++ x.2, []) else x
  | Arrived session e =>
      if decide (surface e = sf) then
        if is_destroyed e then (x.1 ++ x.2 ++ [(session, e)], []) else (x.1, x.2 ++ [(session, mark_encoded_buffers_opaque e)])
      else x
  end.
Definition split_at_cancel sf l := foldl (split_step sf) ([], []) l.
Definition cancelled_before sf l : list (HoistSessionId * WireEvent) := (split_at_cancel sf l).1.
Definition arrived_since sf l : list (HoistSessionId * WireEvent) := (split_at_cancel sf l).2.
(** Labels that a later label of the session superseded are left out. *)
Inductive thinned : list (HoistSessionId * WireEvent) -> list (HoistSessionId * WireEvent) -> Prop :=
  | thinned_nil : thinned [] []
  | thinned_keep x full kept : thinned full kept -> thinned (x :: full) (x :: kept)
  | thinned_drop x full kept : thinned full kept -> is_label x.2 = true -> (exists y, y ∈ kept /\ is_label y.2 = true /\ y.1 = x.1) ->
      thinned (x :: full) kept.
Definition of_surface sf out := filter (fun d => surface d.2 = sf) out.
Record Order_ok l out s : Prop := {
  ok_delivered : forall sf, exists old recent xo xr,
    of_surface sf (out ++ output s) = old ++ recent /\ Forall2 (delivered (calls s)) xo old /\ Forall2 (delivered (calls s)) xr recent /\
    xo `sublist_of` cancelled_before sf l /\ thinned (arrived_since sf l) (xr ++ (entry <$> queue_of s sf));
  ok_finished : forall f b, decoded s !! f = Some b -> Finished f b ∈ calls s;
  ok_surfaces : forall sf q, q ∈ queue_of s sf -> surface (queued_event q) = sf;
}.

(** ** Lemmas on publication *)
Lemma shown_update_mono cs cs' u u' : cs ⊆ cs' -> shown_update cs u u' -> shown_update cs' u u'.
Proof. intros Hcs []; econstructor; eauto. Qed.
Lemma delivered_mono cs cs' q d : cs ⊆ cs' -> delivered cs q d -> delivered cs' q d.
Proof.
  intros Hcs (H1 & H2 & H3). split_and!; [done..|]. destruct H3 as [c us H| | | | |]; econstructor. eapply Forall2_impl; [|exact H].
  intros. by eapply shown_update_mono.
Qed.
Lemma delivered_all_mono cs cs' qs ds : cs ⊆ cs' -> Forall2 (delivered cs) qs ds -> Forall2 (delivered cs') qs ds.
Proof. intros Hcs H. eapply Forall2_impl; [|exact H]. intros. by eapply delivered_mono. Qed.
Lemma thinned_sublist full kept : thinned full kept -> kept `sublist_of` full.
Proof. induction 1; by constructor. Qed.
Lemma thinned_refl full : thinned full full.
Proof. induction full; by constructor. Qed.
Lemma thinned_snoc full kept x : thinned full kept -> thinned (full ++ [x]) (kept ++ [x]).
Proof.
  induction 1 as [|y full kept _ IH|y full kept _ IH Hy (z & Hz & Hlz)]; cbn; [apply thinned_refl|by constructor|].
  constructor; [done..|]. exists z. split; [|done]. apply elem_of_app. by left.
Qed.
(** A label joins, the waiting ones of its session leave. *)
Lemma thinned_label full kept front q x (keep : HoistSessionId * WireEvent -> bool) :
  is_label x.2 = true -> (forall y, keep y = false -> is_label y.2 = true /\ y.1 = x.1) ->
  thinned full kept -> kept = front ++ q -> thinned (full ++ [x]) (front ++ filter (fun y => keep y = true) q ++ [x]).
Proof.
  intros Hx Hkeep H. revert front q. induction H as [|y full kept _ IH|y full kept Hth IH Hy (z & Hz & Hlz & Hzy)]; intros front q Hk.
  - symmetry in Hk. apply app_nil in Hk as [-> ->]. apply thinned_refl.
  - destruct front as [|y' front].
    + destruct q as [|y' q]; [done|]. injection Hk as <- ->. specialize (IH [] q eq_refl). rewrite filter_cons. case_decide as Hky; cbn.
      * by constructor.
      * apply not_true_iff_false in Hky. destruct (Hkeep y Hky). constructor; [done..|]. exists x. split_and!; [set_solver|done..].
    + injection Hk as <- ->. cbn. constructor. by apply IH.
  - subst kept. cbn. constructor; [by apply IH|done|]. destruct (keep z) eqn:Hkz.
    + exists z. split; [|done]. apply elem_of_app in Hz as [Hz|Hz]; apply elem_of_app; [by left|right]. apply elem_of_app. left. by apply list_elem_of_filter.
    + exists x. destruct (Hkeep z Hkz). split_and!; [set_solver|done|congruence].
Qed.

(** ** The order is kept *)
Lemma order_ext l out s s' : (forall sf, queue_of s' sf = queue_of s sf) -> output s' = output s -> calls s `prefix_of` calls s' ->
  decoded s' ⊆ decoded s -> Order_ok l out s -> Order_ok l out s'.
Proof.
  intros Hq Ho Hc Hd [H1 H2 H3]. assert (Hsub : calls s ⊆ calls s') by (destruct Hc as [new ->]; set_solver). constructor.
  - intros sf. destruct (H1 sf) as (old & recent & xo & xr & E1 & E2 & E3 & E4). exists old, recent, xo, xr. rewrite Ho, Hq.
    split_and!; [done|by eapply delivered_all_mono|by eapply delivered_all_mono|apply E4..].
  - intros f b Hf. apply Hsub, H2. by eapply lookup_weaken.
  - intros sf q. rewrite Hq. apply H3.
Qed.
Lemma importing_order {A} (m : M state A) l out s s' o : always importing m -> m s = (s', o) -> Order_ok l out s -> Order_ok l out s'.
Proof.
  intros Hm Hs. destruct (run_always _ _ _ _ _ Hm Hs). apply order_ext; [intros sf; unfold queue_of; congruence|congruence|done|done].
Qed.
Lemma retiring_order {A} (m : M state A) l out s s' o : always retiring m -> m s = (s', o) -> Order_ok l out s -> Order_ok l out s'.
Proof.
  intros Hm Hs. destruct (run_always _ _ _ _ _ Hm Hs). apply order_ext; [intros sf; unfold queue_of; congruence|congruence|done|by rewrite retiring_decoded].
Qed.
(** The lease of an imported buffer is of what was decoded. *)
Lemma publish_decoded_shown (b : Buf) s s' lease : publish_decoded b s = (s', Ret lease) -> Shown b lease ∈ calls s'.
Proof.
  unfold publish_decoded. intros Hs. apply run_bind in Hs as (s1 & n & _ & Hs). apply run_bind in Hs as (s2 & u & _ & Hs).
  destruct (publish_frame _ _ _ _) as [p [x| |]]; [|done..]. injection Hs as <- <-. cbn. set_solver.
Qed.
Lemma import_buffer_shown b s s' lease : (forall f x, decoded s !! f = Some x -> Finished f x ∈ calls s) ->
  import_buffer b s = (s', Ret lease) -> exists buf, Finished (buffer_frame b) buf ∈ calls s' /\ Shown buf lease ∈ calls s'.
Proof.
  intros Hd Hs. pose proof (run_always _ _ _ _ _ (import_buffer_importing b) Hs) as [].
  unfold import_buffer in Hs. run_in Hs. apply opt_context_Ret_inv in Hlift. exists x0. split; [|by eapply publish_decoded_shown].
  apply Hd in Hlift. destruct importing_calls as [new ->]. set_solver.
Qed.
Lemma import_updates_shown us s s' us' : (forall f x, decoded s !! f = Some x -> Finished f x ∈ calls s) ->
  import_updates us s = (s', Ret us') -> Forall2 (shown_update (calls s')) us us'.
Proof.
  revert s us'. induction us as [|[ly c] us IH]; intros s us' Hd Hs; cbn in Hs; [run_in Hs; constructor|].
  apply run_bind in Hs as (s1 & c' & H1 & Hs). apply run_bind in Hs as (s2 & cs & H2 & Hs). run_in Hs.
  assert (Hc : always importing (match c with Retained m => pure (Retained m) | Replaced m b => let! lease := import_buffer b in pure (Replaced m lease)
                                 | Removed => pure Removed end : M state _)) by (destruct c; keep).
  pose proof (run_always _ _ _ _ _ Hc H1) as [_ _ _ _ _ _ _ _ Hd1 _ Hg1].
  pose proof (run_always _ _ _ _ _ (import_updates_importing us) H2) as [_ _ _ _ _ _ _ _ _ _ Hg2].
  assert (Hsub1 : calls s ⊆ calls s1) by (destruct Hg1 as [new ->]; set_solver).
  assert (Hsub2 : calls s1 ⊆ calls s') by (destruct Hg2 as [new ->]; set_solver).
  constructor; [|eapply IH; [|exact H2]; intros f x Hf; apply Hsub1, Hd; by eapply lookup_weaken].
  destruct c as [m|m b|]; [run_in H1; constructor| |run_in H1; constructor].
  apply run_bind in H1 as (s3 & lease & H1 & Hr). run_in Hr. apply (import_buffer_shown b s _ _ Hd) in H1 as (buf & Hf & Hs').
  apply (shown_update_mono (calls s1)); [done|]. by eapply shown_replaced.
Qed.
(** An event without buffers keeps what it says. *)
Lemma try_into_client_shown cs (e : WireEvent) e' (import : EncodedBuffer -> ClientBufferMetadata -> outcome ClientBufferLease) :
  (forall b m lease, import b m <> Ret lease) -> try_into_client import e = Ret e' -> surface e' = surface e /\ shown_kind cs (event_kind e) (event_kind e').
Proof.
  intros Himp. unfold try_into_client, convert_event. intros (k & Hk & [= <-])%bind_Ret_inv. split; [done|]. cbn.
  destruct (event_kind e) as [r|c|i|x| |m]; try (injection Hk as <-; constructor).
  apply bind_Ret_inv in Hk as (c' & Hc & [= <-]). unfold convert_commit in Hc. apply bind_Ret_inv in Hc as (us & Hus & [= <-]).
  constructor. apply traverse_Ret_inv in Hus. eapply Forall2_impl; [|exact Hus]. intros [ly u] u' (x & Hx & [= <-])%bind_Ret_inv. cbn in *.
  destruct u as [m|m b|]; [injection Hx as <-; constructor| |injection Hx as <-; constructor].
  apply bind_Ret_inv in Hx as (b' & Hb & _). by apply Himp in Hb.
Qed.
Lemma of_surface_snoc sf (xs : list (HoistSessionId * Event)) d : of_surface sf (xs ++ [d]) = of_surface sf xs ++ if decide (surface d.2 = sf) then [d] else [].
Proof. unfold of_surface. by rewrite list.filter_app. Qed.
Lemma published_order l out s s' sf q rest (e : Event) : queue_of s sf = q :: rest ->
  (forall sf', queue_of s' sf' = if decide (sf' = sf) then rest else queue_of s sf') ->
  output s' = output s ++ [(queued_session q, e)] -> calls s `prefix_of` calls s' -> decoded s' ⊆ decoded s ->
  delivered (calls s') (entry q) (queued_session q, e) -> Order_ok l out s -> Order_ok l out s'.
Proof.
  intros Hq Hq' Ho Hc Hd Hdel [H1 H2 H3]. assert (Hsub : calls s ⊆ calls s') by (destruct Hc as [new ->]; set_solver).
  assert (Hsf : surface e = sf). { destruct Hdel as (_ & Hes & _). cbn in Hes. rewrite Hes. apply H3. rewrite Hq. left. }
  constructor.
  - intros sf'. destruct (H1 sf') as (old & recent & xo & xr & E1 & E2 & E3 & E4 & E5).
    rewrite Ho, app_assoc, of_surface_snoc, E1, Hq'. cbn [snd]. destruct (decide (sf' = sf)) as [->|Hn].
    + rewrite (decide_True (P := surface e = sf)) by done. exists old, (recent ++ [(queued_session q, e)]), xo, (xr ++ [entry q]).
      split_and!; [by rewrite app_assoc|by eapply delivered_all_mono| |done|].
      * apply Forall2_app; [by eapply delivered_all_mono|by constructor].
      * rewrite Hq in E5. by rewrite <- app_assoc.
    + rewrite (decide_False (P := surface e = sf')) by congruence. rewrite app_nil_r. exists old, recent, xo, xr.
      split_and!; [done|by eapply delivered_all_mono|by eapply delivered_all_mono|done..].
  - intros f b Hf. apply Hsub, H2. by eapply lookup_weaken.
  - intros sf' x. rewrite Hq'. destruct (decide (sf' = sf)) as [->|]; [|apply H3]. intros Hx. apply H3. rewrite Hq. by right.
Qed.
Lemma publish_surface_order l out sf : triple (Order_ok l out) (publish_surface sf) (fun _ => Order_ok l out).
Proof.
  intros s s' b H Hs. unfold publish_surface in Hs. run_in Hs. destruct (head (queue_of s sf)) as [front|] eqn:Hh; [|by run_in Hs].
  apply head_queue in Hh as [rest Hq]. assert (Hpop : forall s1 q, pop_event sf s = (s1, Ret q) ->
    q = front /\ s1 = set_queues (<[sf := rest]> (queues s)) s).
  { intros s1 q (rest' & Hq' & ->)%pop_queue. rewrite Hq in Hq'. by injection Hq' as <- <-. }
  assert (Hq0 : forall sf', queue_of (set_queues (<[sf := rest]> (queues s)) s) sf' = if decide (sf' = sf) then rest else queue_of s sf') by (intros; apply queue_of_put).
  case_bool_decide as Hf; [|rewrite forallb_decided in Hs; case_bool_decide as Hall; [|by run_in Hs]].
  - apply run_bind in Hs as (s1 & q & [-> ->]%Hpop & Hs). unfold emit in Hs. run_in Hs. apply (try_into_client_shown (calls s)) in Hlift as [Hsf Hk]; [|done].
    refine (published_order l out s _ sf front rest x0 Hq _ _ _ _ _ H); [exact Hq0|done|done|done|by split_and!].
  - apply run_bind in Hs as (s1 & q & [-> ->]%Hpop & Hs). destruct (event_kind (queued_event front)) as [|c| | | |] eqn:Hk; run_in Hs.
    apply run_bind in Hs as (s1 & us & H1 & Hs). unfold emit in Hs. run_in Hs. pose proof (run_always _ _ _ _ _ (import_updates_importing _) H1) as [].
    apply import_updates_shown in H1; [|exact (ok_finished _ _ _ H)].
    refine (published_order l out s _ sf front rest _ Hq _ _ _ _ _ H); cbn.
    + intros sf'. unfold queue_of in *. cbn. rewrite importing_queues. apply Hq0.
    + by rewrite importing_output.
    + done.
    + done.
    + split_and!; [done..|]. cbn. rewrite Hk. by constructor.
Qed.
Lemma publish_ready_order l out : triple (Order_ok l out) (publish_ready : M state unit) (fun _ => Order_ok l out).
Proof.
  assert (Hsweep : triple (Order_ok l out) (sweep_retirement : M state unit) (fun _ => Order_ok l out)).
  { intros s s' [] H Hs. eapply retiring_order; [apply sweep_retiring|done|done]. }
  assert (Hall : forall sfs, triple (Order_ok l out) (publish_surfaces sfs) (fun _ => Order_ok l out)).
  { induction sfs as [|sf sfs IH]; [apply (triple_pure (fun _ => Order_ok l out))|]. cbn.
    eapply triple_bind; [apply publish_surface_order|]. intros b. eapply triple_bind; [apply IH|]. intros b'. apply (triple_pure (fun _ => Order_ok l out)). }
  unfold publish_ready. eapply triple_bind; [exact Hsweep|]. intros []. intros s s' [] H Hs. run_step Hs. cbn beta in Hs.
  apply run_bind in Hs as (s1 & [] & H1 & Hs). eapply Hsweep; [|exact Hs]. eapply triple_iterate; [|exact H|exact H1].
  intros u x y o Hx Hy. unfold publish_round in Hy. run_step Hy. cbn beta in Hy. apply run_bind in Hy as (x1 & b & Hx1 & Hy). run_in Hy.
  apply (Hall _ _ _ _ Hx) in Hx1. revert Hx1. apply order_ext; [apply drop_empty_queue_of|done..].
Qed.

(** Everything else publishes nothing. *)
Record clearing s s' : Prop := {
  clearing_queues : queues s' = queues s;
  clearing_output : output s' = output s;
  clearing_calls : calls s `prefix_of` calls s';
  clearing_decoded : decoded s' ⊆ decoded s;
}.
#[export] Instance clearing_po : PreOrder clearing.
Proof. split; [by constructor|]. intros a b c [] []. constructor; try congruence; by etrans. Qed.
Lemma clearing_order l out s s' : clearing s s' -> Order_ok l out s -> Order_ok l out s'.
Proof. intros []. apply order_ext; [intros sf; unfold queue_of; congruence|done..]. Qed.
Lemma decoding_clearing s s' : decoding s s' -> clearing s s'.
Proof. intros []. constructor; [done..|]. by rewrite decoding_decoded. Qed.
Lemma retiring_clearing {A} (m : M state A) : always retiring m -> always clearing m.
Proof. intros H s. destruct (H s). constructor; [done..|]. by rewrite retiring_decoded. Qed.
#[local] Hint Resolve retiring_clearing : keeps.
Lemma cancel_frame_clearing session f : always clearing (cancel_frame session f : M state unit).
Proof. unfold cancel_frame. keep. intros s. constructor; try done. cbn. apply delete_subseteq. Qed.
#[local] Hint Resolve cancel_frame_clearing : keeps.
Lemma cancel_event_clearing q : always clearing (cancel_event q : M state unit).
Proof. unfold cancel_event. keep. Qed.
#[local] Hint Resolve cancel_event_clearing : keeps.
Lemma drop_streams_clearing gone s : clearing s (drop_streams gone s).
Proof. unfold drop_streams. induction (snd <$> _) as [|g gs IH]; cbn; [by constructor|]. by destruct IH. Qed.
Lemma cancel_surface_run sf s s' : cancel_surface sf s = (s', Ret tt) ->
  clearing (set_queues (delete sf (queues s)) (forget_surface sf s)) s'.
Proof.
  intros Hs. unfold cancel_surface in Hs. run_step Hs. run_step Hs. cbn beta in Hs. run_step Hs.
  apply (run_always clearing) in Hs; [exact Hs|]. apply always_bind; [apply _|keep|intros []].
  apply always_bind; [apply _|intros x; apply drop_streams_clearing|intros []; keep].
Qed.
Lemma advance_order l out clock : triple (Order_ok l out) (advance clock) (fun _ => Order_ok l out).
Proof.
  intros s s' [] H Hs. unfold advance in Hs. apply run_bind in Hs as (s1 & [] & H1 & Hs). run_step Hs. cbn beta in Hs.
  apply run_bind in Hs as (s2 & [] & H2 & Hs). apply (publish_ready_order l out) in H1; [|done].
  apply (clearing_order l out s2); [exact (run_always _ _ _ _ _ (retiring_clearing _ sweep_retiring) Hs)|].
  apply (clearing_order l out s1); [|done]. apply decoding_clearing. apply (run_always decoding) in H2; [exact H2|unfold in_time; keep].
Qed.
Lemma completed_order l out c s s' : completed c s s' -> Order_ok l out s -> Order_ok l out s'.
Proof.
  intros (j & _ & Hs) H. cbn in Hs. destruct (in_flight_cancelled j); [subst s'; by apply (clearing_order l out s)|].
  destruct Hs as (b & _ & ->). set (s1 := set_decode_in_flight _ s).
  assert (H1 : Order_ok l out (called (backend s) (Finished (in_flight_frame j) b) s1)).
  { apply (clearing_order l out s); [|done]. constructor; try done. by eexists. }
  destruct H1 as [E1 E2 E3]. constructor; [exact E1| |exact E3]. cbn. intros f x [[<- <-]|[_ Hf]]%lookup_insert_Some; [set_solver|by apply E2].
Qed.
Lemma drain_order l out clock : triple (Order_ok l out) (drain clock) (fun _ => Order_ok l out).
Proof.
  intros s s' [] H (k & s1 & H1 & Hs)%drain_run. eapply advance_order; [|exact Hs].
  apply (H1 (Order_ok l out)); [intros c x y; apply completed_order|]. by apply (clearing_order l out s).
Qed.

(** ** Arrivals *)
Lemma split_snoc sf l a : split_at_cancel sf (l ++ [a]) = split_step sf (split_at_cancel sf l) a.
Proof. unfold split_at_cancel. by rewrite foldl_app. Qed.
Lemma other_order sf l a out s s' xo xr old recent : split_step sf (split_at_cancel sf l) a = split_at_cancel sf l ->
  calls s `prefix_of` calls s' -> queue_of s' sf = queue_of s sf ->
  of_surface sf (out ++ output s') = of_surface sf (out ++ output s) ->
  of_surface sf (out ++ output s) = old ++ recent /\ Forall2 (delivered (calls s)) xo old /\ Forall2 (delivered (calls s)) xr recent /\
    xo `sublist_of` cancelled_before sf l /\ thinned (arrived_since sf l) (xr ++ (entry <$> queue_of s sf)) ->
  of_surface sf (out ++ output s') = old ++ recent /\ Forall2 (delivered (calls s')) xo old /\ Forall2 (delivered (calls s')) xr recent /\
    xo `sublist_of` cancelled_before sf (l ++ [a]) /\ thinned (arrived_since sf (l ++ [a])) (xr ++ (entry <$> queue_of s' sf)).
Proof.
  intros Hsplit [new Hc] Hq Ho (E1 & E2 & E3 & E4 & E5). unfold cancelled_before, arrived_since in *. rewrite split_snoc, Hsplit, Hq, Ho.
  assert (calls s ⊆ calls s') by (rewrite Hc; set_solver). split_and!; [done|by eapply delivered_all_mono|by eapply delivered_all_mono|done|done].
Qed.
Lemma cancelled_order l out a sf s s' (d : list (HoistSessionId * Event)) (x : list (HoistSessionId * WireEvent)) :
  (forall sf' b, split_step sf' b a = if decide (sf' = sf) then (b.1 ++ b.2 ++ x, []) else b) ->
  (forall sf', queue_of s' sf' = if decide (sf' = sf) then [] else queue_of s sf') -> output s' = output s ++ d ->
  of_surface sf d = d -> Forall2 (delivered (calls s')) x d -> calls s `prefix_of` calls s' -> decoded s' ⊆ decoded s ->
  Order_ok l out s -> Order_ok (l ++ [a]) out s'.
Proof.
  intros Hsplit Hq Ho Hd Hx Hc Hdec [H1 H2 H3]. assert (Hsub : calls s ⊆ calls s') by (destruct Hc as [new ->]; set_solver). constructor.
  - intros sf'. destruct (H1 sf') as (old & recent & xo & xr & E). specialize (Hsplit sf' (split_at_cancel sf' l)). specialize (Hq sf').
    destruct (decide (sf' = sf)) as [->|Hn].
    + destruct E as (E1 & E2 & E3 & E4 & E5). exists (old ++ recent ++ d), [], (xo ++ xr ++ x), [].
      unfold cancelled_before, arrived_since in *. rewrite split_snoc, Hsplit, Hq, Ho, app_assoc. cbn. split_and!.
      * unfold of_surface in *. by rewrite list.filter_app, E1, Hd, app_nil_r, <- app_assoc.
      * repeat apply Forall2_app; [by eapply delivered_all_mono|by eapply delivered_all_mono|done].
      * constructor.
      * apply sublist_app; [done|]. apply sublist_app; [|done]. etrans; [|by apply thinned_sublist]. by apply sublist_inserts_r.
      * constructor.
    + exists old, recent, xo, xr. apply (other_order sf' l a out s s'); [done|done|done| |done]. rewrite Ho, app_assoc.
      unfold of_surface. rewrite list.filter_app. rewrite <- Hd. unfold of_surface. rewrite list_filter_filter, (filter_none _ d), app_nil_r; [done|].
      intros y _ [H4 H5]. congruence.
  - intros f b Hf. apply Hsub, H2. by eapply lookup_weaken.
  - intros sf' q. rewrite Hq. destruct (decide _); [by intros ?%not_elem_of_nil|apply H3].
Qed.
Lemma withdraw_order l out sf : triple (Order_ok l out) (cancel_surface sf : M state unit) (fun _ => Order_ok (l ++ [Withdrawn sf]) out).
Proof.
  intros s s' [] H [Hq Ho Hc Hd]%cancel_surface_run. cbn in *. refine (cancelled_order l out _ sf s s' [] [] _ _ _ _ _ _ _ H); try done.
  - intros sf' b. cbn. rewrite app_nil_r. by destruct (decide (sf = sf')) as [->|Hn]; [rewrite decide_True|rewrite decide_False by congruence].
  - intros sf'. unfold queue_of. rewrite Hq. exact (queue_of_delete s sf sf').
  - by rewrite app_nil_r.
Qed.
Lemma entry_without_labels session e q : entry <$> without_labels session e q =
  if is_label e then filter (fun y => negb (bool_decide (y.1 = session) && is_label y.2) = true) (entry <$> q) else entry <$> q.
Proof.
  unfold without_labels. destruct (is_label e); [|done]. induction q as [|x q IH]; [done|]. rewrite fmap_cons, !filter_cons.
  destruct (is_label (queued_event x)) eqn:Hx; destruct (decide (queued_session x = session)) as [Hs|Hs]; cbn; rewrite Hx;
    repeat (case_decide || case_bool_decide); cbn; rewrite ?IH; naive_solver.
Qed.
Lemma joined_order_ok l out session (e : WireEvent) s s' : let marked := mark_encoded_buffers_opaque e in
  is_destroyed e = false ->
  (forall sf, queue_of s' sf = if decide (sf = surface e) then without_labels session marked (queue_of s sf) ++ [MkQueued session marked] else queue_of s sf) ->
  output s' = output s -> calls s' = calls s -> decoded s' = decoded s -> Order_ok l out s -> Order_ok (l ++ [Arrived session e]) out s'.
Proof.
  intros marked Hd Hq Ho Hc Hdec [H1 H2 H3]. constructor.
  - intros sf. destruct (H1 sf) as (old & recent & xo & xr & E). exists old, recent, xo, xr. destruct (decide (sf = surface e)) as [->|Hn].
    + destruct E as (E1 & E2 & E3 & E4 & E5). specialize (Hq (surface e)). rewrite decide_True in Hq by done. rewrite Ho, Hc, Hq.
      unfold cancelled_before, arrived_since in *. rewrite split_snoc. cbn. rewrite decide_True, Hd by done. cbn. split_and!; [done..|].
      rewrite fmap_app, entry_without_labels. destruct (is_label marked) eqn:Hl.
      * apply (thinned_label _ (xr ++ (entry <$> queue_of s (surface e)))); [done| |done|done].
        intros y [Hy1%bool_decide_eq_true Hy2]%negb_false_iff%andb_true_iff. done.
      * rewrite app_assoc. by apply thinned_snoc.
    + apply (other_order sf l _ out s s'); [|by rewrite Hc|by rewrite Hq, decide_False|by rewrite Ho|done]. cbn. by rewrite decide_False by congruence.
  - intros f b. rewrite Hdec, Hc. apply H2.
  - intros sf q. rewrite Hq. destruct (decide (sf = surface e)) as [->|]; [|apply H3]. intros [Hin|Hin]%elem_of_app.
    + apply H3. unfold without_labels in Hin. destruct (is_label marked); [by apply list_elem_of_filter in Hin as []|done].
    + apply list_elem_of_singleton in Hin as ->. apply mark_surface.
Qed.
Lemma enqueue_order l out session e : triple (Order_ok l out) (enqueue session e : M state unit) (fun _ => Order_ok (l ++ [Arrived session e]) out).
Proof.
  intros s s' [] H Hs. unfold enqueue in Hs. do 3 run_step Hs. cbn beta in Hs. set (s1 := note_event session e s) in Hs.
  assert (H1 : Order_ok l out s1) by by apply (clearing_order l out s).
  destruct (is_destroyed e) eqn:Hd.
  - apply run_bind in Hs as (s2 & [] & [Hq Ho Hc Hdec]%cancel_surface_run & Hs). unfold emit in Hs. run_in Hs. cbn in *.
    assert (Hk : event_kind e = Destroyed) by (unfold is_destroyed in Hd; by destruct (event_kind e)).
    apply (try_into_client_shown (calls s2)) in Hlift1 as [Hsf Hsk]; [|done].
    refine (cancelled_order l out _ (surface e) s1 _ [(session, x2)] [(session, e)] _ _ _ _ _ _ _ H1); try done.
    + intros sf b. cbn. rewrite Hd. by destruct (decide (surface e = sf)) as [->|Hn]; [rewrite decide_True|rewrite decide_False by congruence].
    + intros sf. unfold queue_of. cbn. rewrite Hq. exact (queue_of_delete s (surface e) sf).
    + cbn. by rewrite Ho.
    + unfold of_surface. by rewrite filter_cons, decide_True.
    + constructor; [|constructor]. by split_and!.
  - cbn beta zeta in Hs. run_step Hs. apply run_bind in Hs as (s2 & [] & H2 & Hs). eapply publish_ready_order; [|exact Hs].
    rewrite mark_streams in H2. set (s1' := update_stream_generations e s1) in *.
    assert (H3 : Order_ok l out s1') by (unfold s1'; destruct (update_streams_ledger e s1) as (x & y & ->); by apply (clearing_order l out s1)).
    unfold push_queue in H2. rewrite mark_surface in H2. case_bool_decide; [|done]. injection H2 as <-.
    refine (joined_order_ok l out session e s1' _ Hd _ _ _ _ H3); try done.
    intros sf. change (queue_of (set_queues (<[surface e := without_labels session (mark_encoded_buffers_opaque e) (queue_of s1' (surface e)) ++
      [MkQueued session (mark_encoded_buffers_opaque e)]]> (queues s1')) s1') sf = if decide (sf = surface e) then
      without_labels session (mark_encoded_buffers_opaque e) (queue_of s1' sf) ++ [MkQueued session (mark_encoded_buffers_opaque e)] else queue_of s1' sf).
    rewrite queue_of_put. by destruct (decide (sf = surface e)) as [->|].
Qed.
Lemma step_order x y : destination_step x y -> Order_ok x.1.1 x.1.2 x.2 -> Order_ok y.1.1 y.1.2 y.2.
Proof.
  intros [l out s s' session e Ha Hs|l out s s' sf Hs|l out s s' m Hs|l out s s' clock Hs|l out s s' events Hs|l out s s' He] H; cbn in *.
  - exact (enqueue_order l out session e s s' tt H Hs).
  - exact (withdraw_order l out sf s s' tt H Hs).
  - apply (clearing_order l out s); [|done]. unfold enqueue_media in Hs. destruct (cancelled_frames s !! _) as [session|].
    + case_bool_decide; [|done]. by injection Hs as <-.
    + destruct (negb _); [done|]. destruct (negb _); [done|]. by injection Hs as <- _.
  - exact (drain_order l out clock s s' tt H Hs).
  - injection Hs as <- <-. destruct H as [H1 H2 H3]. constructor; [|done..]. intros sf. cbn. rewrite app_nil_r. apply H1.
  - destruct He. apply (clearing_order l out s); [|done]. constructor; [done|done|by rewrite elsewhere_calls|by rewrite elsewhere_decoded].
Qed.
Lemma history_order l out s : destination_history l out s -> Order_ok l out s.
Proof.
  intros (id & k & p & H). refine (rtc_ind_r (fun x => Order_ok x.1.1 x.1.2 x.2) _ _ _ _ H).
  - constructor; cbn.
    + intros sf. exists [], [], [], []. unfold queue_of. cbn. rewrite lookup_empty. split_and!; [done|constructor|constructor|constructor|constructor].
    + intros f b Hf. by rewrite lookup_empty in Hf.
    + intros sf q. unfold queue_of. cbn. rewrite lookup_empty. by intros ?%not_elem_of_nil.
  - intros x y _ Hxy. by apply step_order.
Qed.

(** C11 (dest-order). When the arrivals are such as a source may send ([admissible]), each
    surface's events are published in the order they arrived, each commit with leases of what the decoder made of its own frames. Since the surface was last
    cancelled only labels are missing that a later label of their session superseded;
    before that, also what still waited when it was cancelled. *)
Theorem destination_publishes_in_order l out s sf (H : destination_history l out s) :
  exists old recent xo xr, of_surface sf (out ++ output s) = old ++ recent /\
    Forall2 (delivered (calls s)) xo old /\ Forall2 (delivered (calls s)) xr recent /\
    xo `sublist_of` cancelled_before sf l /\
    thinned (arrived_since sf l) (xr ++ (entry <$> queue_of s sf)).
Proof. apply history_order in H. apply (ok_delivered _ _ _ H). Qed.
End DestinationEvents.

(** ** A surface in order *)
Lemma destination_publishes_in_order_witness : let x := destination_end destination_sample in let sf := ClientSurfaceId_for_test 1 in
  length (of_surface sf (x.1.2 ++ output x.2)) = 3%nat /\ length (arrived_since sf x.1.1) = 3%nat /\
  exists old recent xo xr, of_surface sf (x.1.2 ++ output x.2) = old ++ recent /\
    Forall2 (delivered (calls x.2)) xo old /\ Forall2 (delivered (calls x.2)) xr recent /\
    xo `sublist_of` cancelled_before sf x.1.1 /\ thinned (arrived_since sf x.1.1) (xr ++ (entry <$> queue_of x.2 sf)).
Proof.
  intros x sf. split; [by vm_compute|split; [by vm_compute|]]. exact (destination_publishes_in_order _ _ _ sf destination_sample_history).
Defined.
