(* ===== verification/DestinationUnits.v ===== *)
(** * Which units a destination decodes

    A decoder is given units that arrived, and no others. It hands a request it has no room
    for back unchanged; the destination checks its token and frame only. *)

From S2P Require Import Prelude.
From S2P Require Import Effects.
From S2P Require Import Ids.
From S2P Require Import Surface.
From S2P Require Import Activity.
From S2P Require Import Scheduling.
From S2P Require Import Framing.
From S2P Require Import Commit.
From S2P Require Import Packets.
From S2P Require Import Destination.
From S2P Require Import DestinationFrames.

Section DestinationUnits.
Context {K P Buf : Type} {decoder : DecodeBackend K Buf} {frames : DecodedFramePublisher P Buf}.
Context {job_visit : HashOrder Z InFlightDecode} {queue_visit : HashOrder ClientSurfaceId (list QueuedDestinationEvent)}.
Context {retirement_visit : HashOrder EncodedGeneration unit}.
Abbreviation state := (EncodedDestinationState K P Buf).
Abbreviation M := (Effects.M (EncodedDestinationState K P Buf)).
Implicit Types (s : state) (us : list EncodedAccessUnit).

(** A busy decoder returns the request it was given. *)
Class ReturnsBusy : Prop := returns_busy : forall r k k' r', try_decode r k = (k', DecoderBusy r') -> r' = r.
Context {honest : ReturnsBusy}.

Record units_from us s : Prop := {
  from_media : forall f m, media_frames s !! f = Some m -> media_unit m ∈ us;
  from_calls : forall r, Submitted r ∈ calls s -> decode_unit r ∈ us;
}.
Definition comes s s' : Prop := forall us, units_from us s -> units_from us s'.
#[local] Instance comes_po : PreOrder comes.
Proof. split; [by intros s us|]. intros a b c H1 H2 us H. by apply H2, H1. Qed.
Lemma units_mono us us' s : (forall u, u ∈ us -> u ∈ us') -> units_from us s -> units_from us' s.
Proof. intros Hu [H1 H2]. constructor; eauto. Qed.
Lemma comes_same s s' : media_frames s' = media_frames s -> calls s' = calls s -> comes s s'.
Proof. intros E1 E2 us []. by constructor; rewrite ?E1, ?E2. Qed.
Lemma comes_call s s' c : media_frames s' = media_frames s -> calls s' = calls s ++ [c] -> (forall r, c <> Submitted r) -> comes s s'.
Proof.
  intros E1 E2 Hc us [H1 H2]. constructor; rewrite ?E1; [done|]. rewrite E2. intros r [Hr|Hr%list_elem_of_singleton]%elem_of_app; [by apply H2|].
  by destruct (Hc r).
Qed.
Lemma comes_modify (g : state -> state) : (forall s, media_frames (g s) = media_frames s) -> (forall s, calls (g s) = calls s) -> always comes (modify g).
Proof. intros H1 H2 s. apply comes_same; [apply H1|apply H2]. Qed.
Lemma comes_counter counter put name : (forall x s, media_frames (put x s) = media_frames s) -> (forall x s, calls (put x s) = calls s) ->
  always comes (take_counter counter put name : M Z).
Proof. intros H1 H2 s. unfold take_counter. destruct (counter s); [apply comes_same; [apply H1|apply H2]|done]. Qed.
#[local] Hint Extern 0 (always comes (modify _)) => (apply comes_modify; reflexivity) : keeps.
#[local] Hint Extern 0 (always comes (take_counter _ _ _)) => (apply comes_counter; reflexivity) : keeps.

(** ** Publication *)
Lemma publish_decoded_comes b : always comes (publish_decoded b).
Proof.
  unfold publish_decoded. keep. intros s. destruct (publish_frame _ _ _ _) as [p [lease| |]]; cbn; [|by apply comes_same..].
  by eapply comes_call.
Qed.
#[local] Hint Resolve publish_decoded_comes : keeps.
Lemma import_updates_comes bs : always comes (import_updates bs).
Proof. induction bs as [|b bs IH]; cbn; unfold import_buffer; keep; apply IH. Qed.
#[local] Hint Resolve import_updates_comes : keeps.
Lemma pop_event_comes sf : always comes (pop_event sf).
Proof. intros s. unfold pop_event. destruct (queues s !! sf) as [[|]|]; by apply comes_same. Qed.
#[local] Hint Resolve pop_event_comes : keeps.
Lemma publish_surface_comes sf : always comes (publish_surface sf).
Proof. unfold publish_surface, emit. keep. Qed.
#[local] Hint Resolve publish_surface_comes : keeps.
Lemma publish_surfaces_comes l : always comes (publish_surfaces l).
Proof. induction l as [|sf l IH]; cbn; keep; apply IH. Qed.
#[local] Hint Resolve publish_surfaces_comes : keeps.
Lemma retire_now_comes g : always comes (retire_now g).
Proof. unfold retire_now. keep. intros s. destruct (retire_decoder _ _ _). by eapply comes_call. Qed.
#[local] Hint Resolve retire_now_comes : keeps.
Lemma sweep_comes : always comes sweep_retirement.
Proof. unfold sweep_retirement. keep. Qed.
#[local] Hint Resolve sweep_comes : keeps.
Lemma publish_ready_comes : always comes publish_ready.
Proof. unfold publish_ready, publish_round. keep. Qed.
#[local] Hint Resolve publish_ready_comes : keeps.

(** ** Cancelling *)
Lemma dropped_units gone s : media_frames (drop_streams gone s) = media_frames s /\ calls (drop_streams gone s) = calls s.
Proof. unfold drop_streams. induction (snd <$> filter _ _) as [|g gs IH]; [done|exact IH]. Qed.
Lemma cancel_frame_comes session f : always comes (cancel_frame session f).
Proof.
  unfold cancel_frame. keep. intros s us [H1 H2]. constructor; [|done]. cbn. intros g m [_ Hg]%lookup_delete_Some. by eapply H1.
Qed.
#[local] Hint Resolve cancel_frame_comes : keeps.
Lemma drop_streams_comes gone : always comes (modify (drop_streams gone)).
Proof. apply comes_modify; intros s; apply dropped_units. Qed.
#[local] Hint Resolve drop_streams_comes : keeps.
Lemma cancel_surface_comes sf : always comes (cancel_surface sf).
Proof. unfold cancel_surface, cancel_event. keep. Qed.
#[local] Hint Resolve cancel_surface_comes : keeps.

(** ** Decoding *)
(** The unit is at hand already. *)
Definition comes_with (u : EncodedAccessUnit) s s' : Prop := forall us, u ∈ us -> units_from us s -> units_from us s'.
#[local] Instance comes_with_po u : PreOrder (comes_with u).
Proof. split; [by intros s us|]. intros a b c H1 H2 us Hu H. by apply H2, H1. Qed.
Lemma comes_weaken u {A} (m : M A) : always comes m -> always (comes_with u) m.
Proof. intros H s us _. apply H. Qed.
Lemma schedule_decode_comes f session : always comes (schedule_decode f session).
Proof.
  intros s us H. unfold schedule_decode. unfold bind at 1. cbn [gets]. destruct (media_frames s !! f) as [m|] eqn:Hm; [|done].
  pose proof (from_media _ _ H f m Hm) as Hu. revert us Hu H. clear Hm. revert s.
  lazymatch goal with |- forall s us, _ -> _ -> units_from us (?c s).1 => change (always (comes_with (media_unit m)) c) end.
  apply always_bind; [apply _| |intros _].
  { apply comes_weaken. intros s us [H1 H2]. constructor; [|done]. cbn. intros g x [_ Hx]%lookup_delete_Some. by eapply H1. }
  apply always_bind; [apply _|by apply always_id; [apply _|]|intros _]. apply always_bind; [apply _|by apply always_id; [apply _|]|intros md].
  apply always_bind; [apply _|by apply always_id; [apply _|]|intros md']. apply always_bind; [apply _|apply comes_weaken; keep|intros token].
  intros s us Hu [H1 H2]. set (r := MkDecodeRequest _ _ _ _). unfold bind at 1. destruct (try_decode r (backend s)) as [k a] eqn:Ha.
  destruct a as [|r'| |cause]; cbn.
  - constructor; [done|]. cbn. intros q [Hq|[= ->]%list_elem_of_singleton]%elem_of_app; [by apply H2|done].
  - apply returns_busy in Ha as ->. unfold bind, lift. destruct (ensure _ _) as [u| |]; cbn.
    + constructor; cbn.
      * intros g x [[_ <-]|[_ Hx]]%lookup_insert_Some; [done|by eapply H1].
      * intros q [Hq|Hq%list_elem_of_singleton]%elem_of_app; [by apply H2|done].
    + constructor; [done|]. cbn. intros q [Hq|Hq%list_elem_of_singleton]%elem_of_app; [by apply H2|done].
    + constructor; [done|]. cbn. intros q [Hq|Hq%list_elem_of_singleton]%elem_of_app; [by apply H2|done].
  - by constructor.
  - by constructor.
Qed.
#[local] Hint Resolve schedule_decode_comes : keeps.
Lemma decode_turn_comes now busy : always comes (decode_turn now busy).
Proof. unfold decode_turn. keep. intros s. destruct (Scheduling.select _ _ _ _ _ _). by apply comes_same. Qed.
#[local] Hint Resolve decode_turn_comes : keeps.
Lemma advance_comes clock : always comes (advance clock).
Proof. unfold advance, in_time. keep. Qed.
#[local] Hint Resolve advance_comes : keeps.
Lemma complete_all_comes cs failure s : comes s (complete_all cs failure s).1.
Proof.
  unfold complete_all. revert s failure. induction cs as [|c cs IH]; intros s failure; [done|]. cbn. destruct (complete_one s failure c) as [s1 o] eqn:Hc.
  transitivity s1; [|apply IH]. unfold complete_one in Hc. destruct (decode_in_flight s !! _) as [job|]; [|by injection Hc as <- _].
  destruct (in_flight_cancelled job); [injection Hc as <- _; by apply comes_same|]. destruct (decoded_result _ _); injection Hc as <- _; [by eapply comes_call|by apply comes_same].
Qed.
Lemma drain_comes clock : always comes (drain clock).
Proof.
  unfold drain. keep.
  - intros s. destruct (drain_decoded _). by apply comes_same.
  - intros s. pose proof (complete_all_comes (fst a) (snd a) s) as H. by destruct (complete_all _ _ s).
Qed.
Lemma updated_units e s : media_frames (update_stream_generations e s) = media_frames s /\ calls (update_stream_generations e s) = calls s.
Proof.
  unfold update_stream_generations. destruct (event_kind e) as [|c| | | |]; [done| |done..].
  pose proof (dropped_units (fun key => bool_decide (key.1 = surface e) && negb (names_layer c key.2)) s) as [<- <-].
  generalize (drop_streams (fun key => bool_decide (key.1 = surface e) && negb (names_layer c key.2)) s). induction (buffers c) as [|u bs IH]; intros s1; [done|].
  cbn. destruct (IH (update_stream (surface e) u s1)) as [-> ->]. unfold update_stream. repeat case_match; done.
Qed.
Lemma update_streams_comes e : always comes (modify (update_stream_generations e)).
Proof. apply comes_modify; intros s; apply updated_units. Qed.
#[local] Hint Resolve update_streams_comes : keeps.
Lemma enqueue_comes session e : always comes (enqueue session e).
Proof. unfold enqueue, emit. keep. intros s. unfold push_queue. case_bool_decide; by apply comes_same. Qed.
Lemma enqueue_media_from us m s : units_from us s -> units_from (us ++ [access_unit m]) (enqueue_media m s).1.
Proof.
  intros H. apply (units_mono _ (us ++ [access_unit m])) in H; [|set_solver]. unfold enqueue_media. destruct (cancelled_frames s !! _) as [x|].
  - case_bool_decide; [|done]. by revert H; apply comes_same.
  - destruct (negb _); [done|]. destruct (negb _); [done|]. destruct H as [H1 H2]. constructor; [|done]. cbn.
    intros g x [[_ <-]|[_ Hx]]%lookup_insert_Some; [set_solver|by eapply H1].
Qed.
Lemma new_units id k p : units_from [] (EncodedDestinationState_new id k p : state).
Proof. constructor; cbn; [intros f m; by rewrite lookup_empty|by intros r ?%not_elem_of_nil]. Qed.
End DestinationUnits.
