(* ===== verification/DestinationBudget.v ===== *)
(** * The room of a destination

    What [receive_budget] promises: control and media taken within it never run the
    destination into one of its bounds. *)

From S2P Require Import Prelude.
From S2P Require Import Effects.
From S2P Require Import Ids.
From S2P Require Import Activity.
From S2P Require Import Scheduling.
From S2P Require Import Framing.
From S2P Require Import Commit.
From S2P Require Import Packets.
From S2P Require Import Destination.

Section DestinationBudget.
Context {K P Buf : Type} {decoder : DecodeBackend K Buf} {frames : DecodedFramePublisher P Buf}.
Context {job_visit : HashOrder Z InFlightDecode} {queue_visit : HashOrder ClientSurfaceId (list QueuedDestinationEvent)}.
Context {retirement_visit : HashOrder EncodedGeneration unit}.
Abbreviation state := (EncodedDestinationState K P Buf).
Abbreviation M := (M (EncodedDestinationState K P Buf)).
Implicit Types (s : state) (sf : ClientSurfaceId) (f : MediaFrameId).

(** ** Weights *)
Definition queue_frames (q : list QueuedDestinationEvent) : nat := sum_list_with (fun x => length (encoded_frames (queued_event x))) q.
Definition waiting_frames s : nat := map_total queue_frames (queues s).
Lemma referenced_weight s : referenced s = (size (cancelled_frames s) + waiting_frames s)%nat.
Proof. done. Qed.
(** No heavier than before. *)
Record lighter s s' : Prop := {
  lighter_queued : (queued s' <= queued s)%nat;
  lighter_waiting : (waiting_frames s' <= waiting_frames s)%nat;
  lighter_cancelled : (size (cancelled_frames s') <= size (cancelled_frames s))%nat;
  lighter_media : (size (media_frames s') <= size (media_frames s))%nat;
  lighter_bytes : payload_bytes s' <= payload_bytes s;
}.
#[export] Instance lighter_po : PreOrder lighter.
Proof. split; [by constructor|]. intros a b c [] []. constructor; lia. Qed.
Lemma lighter_same s s' : queues s' = queues s -> cancelled_frames s' = cancelled_frames s -> media_frames s' = media_frames s -> lighter s s'.
Proof. intros Hq Hc Hm. constructor; unfold queued, waiting_frames, payload_bytes; rewrite ?Hq, ?Hc, ?Hm; done. Qed.
Lemma importing_lighter {A} (m : M A) : always importing m -> always lighter m.
Proof. intros H s. destruct (H s). by apply lighter_same. Qed.
Lemma retiring_lighter {A} (m : M A) : always retiring m -> always lighter m.
Proof. intros H s. destruct (H s). by apply lighter_same. Qed.
#[local] Hint Resolve importing_lighter retiring_lighter : keeps.
#[local] Hint Extern 1 (always lighter _) => (by (let s := fresh in intros s; apply lighter_same)) : keeps.
Lemma pop_event_lighter sf : always lighter (pop_event sf : M _).
Proof.
  intros s. unfold pop_event. destruct (queues s !! sf) as [[|q rest]|] eqn:Hq; [done| |done]. cbn. constructor; cbn; try done.
  - pose proof (queued_pop sf q rest s Hq). lia.
  - unfold waiting_frames. cbn. pose proof (map_total_insert queue_frames (queues s) sf rest) as H. rewrite Hq in H. cbn in H.
    unfold queue_frames in *. lia.
Qed.
#[local] Hint Resolve pop_event_lighter : keeps.
Lemma publish_surface_lighter sf : always lighter (publish_surface sf : M _).
Proof. unfold publish_surface. keep. Qed.
#[local] Hint Resolve publish_surface_lighter : keeps.
Lemma publish_surfaces_lighter l : always lighter (publish_surfaces l : M _).
Proof. induction l; cbn; keep. Qed.
#[local] Hint Resolve publish_surfaces_lighter : keeps.
Lemma drop_empty_lighter s : lighter s (drop_empty_queues s).
Proof.
  constructor; try done; [by rewrite drop_empty_queued|]. unfold waiting_frames. cbn. rewrite map_total_filter; [done|].
  intros i [|q l] _ H; [done|]. by destruct H.
Qed.
Lemma publish_ready_lighter : always lighter (publish_ready : M unit).
Proof. unfold publish_ready, publish_round. keep. intros s. apply drop_empty_lighter. Qed.

(** ** Room *)
Record Room (c m : nat) (b : Z) s : Prop := {
  room_events : (c + queued s <= MAX_DESTINATION_EVENTS)%nat;
  room_references : (c * MAX_REPLACEMENTS + referenced s <= MAX_REFERENCED_FRAMES)%nat;
  room_media : (m + size (media_frames s) <= MAX_PENDING_MEDIA_FRAMES)%nat;
  room_bytes : b + payload_bytes s <= MAX_PENDING_MEDIA_BYTES;
}.
Lemma room_lighter c m b s s' : lighter s s' -> Room c m b s -> Room c m b s'.
Proof. intros [] []. constructor; rewrite ?referenced_weight in *; lia. Qed.
(** The budget is the room there is. *)
Lemma receive_budget_room s : Room 0 0 0 s ->
  Room (control_records (receive_budget s)) (media_records (receive_budget s)) (media_bytes (receive_budget s)) s.
Proof.
  intros [H1 H2 H3 H4]. unfold receive_budget. cbn [control_records media_records media_bytes].
  pose proof (Nat.Div0.mul_div_le (MAX_REFERENCED_FRAMES - referenced s) MAX_REPLACEMENTS) as Hd.
  set (q := ((MAX_REFERENCED_FRAMES - referenced s) / MAX_REPLACEMENTS)%nat) in *. clearbody q.
  constructor; unfold MAX_REPLACEMENTS, MAX_REFERENCED_FRAMES, MAX_DESTINATION_EVENTS, MAX_PENDING_MEDIA_FRAMES in *; lia.
Qed.
(** The errors of the bounds. *)
Definition bound_error (e : error) : Prop :=
  e = ErrMsg "encoded destination event bound exceeded" \/ e = ErrMsg "encoded destination cancelled-frame bound exceeded" \/
  e = ErrMsg "encoded destination media-frame bound exceeded" \/ e = ErrMsg "encoded destination payload-byte bound exceeded".
Definition elsewhere_error (e : error) : Prop := ~ bound_error e.
Ltac not_bound := let H := fresh in unfold elsewhere_error, bound_error; intros H; repeat destruct H as [H|H]; discriminate H.
Lemma ensure_blames (c : bool) m : elsewhere_error (ErrMsg m) -> blames elsewhere_error (lift (ensure c m) : M unit).
Proof. intros Hm. apply blames_lift. destruct c; [done|]. by intros e [= <-]. Qed.
Lemma opt_context_blames {A} (o : option A) m : elsewhere_error (ErrMsg m) -> blames elsewhere_error (lift (opt_context o m) : M A).
Proof. intros Hm. apply blames_lift. destruct o; [done|]. by intros e [= <-]. Qed.
Lemma fail_blames {A} m : elsewhere_error (ErrMsg m) -> blames elsewhere_error (lift (Fail (ErrMsg m)) : M A).
Proof. intros Hm. apply blames_lift. by intros e [= <-]. Qed.
Lemma take_counter_blames counter put name : elsewhere_error (ErrMsg (name +:+ " space is exhausted")) ->
  blames elsewhere_error (take_counter counter put name : M Z).
Proof. intros Hm s s' e. unfold take_counter. destruct (counter s); [done|]. by intros [= _ <-]. Qed.

(** What the decoder and the publisher say when they fail is theirs. *)
Class OutsideErrors : Prop := {
  decode_rejects : forall r (k k' : K) e, try_decode r k = (k', DecoderRejected e) -> elsewhere_error e;
  drain_blames : forall (k k' : K) cs e, drain_decoded k = (k', (cs, Some e)) -> elsewhere_error e;
  result_blames : forall (k k' : K) cs o c e, drain_decoded k = (k', (cs, o)) -> c ∈ cs -> decode_result c = inr e -> elsewhere_error e;
  retire_blames : forall st g (k k' : K) e, retire_decoder st g k = (k', Fail e) -> elsewhere_error e;
  publish_blames : forall (b : Buf) i u (p p' : P) e, publish_frame b i u p = (p', Fail e) -> elsewhere_error e;
  busy_returns : forall r r' (k k' : K), try_decode r k = (k', DecoderBusy r') -> r' = r;
}.
Context {outside : OutsideErrors}.
Lemma retire_now_blames g : blames elsewhere_error (retire_now g : M unit).
Proof.
  unfold retire_now. apply blames_bind; [|intros; by apply blames_never]. intros s s' e Hs.
  destruct (retire_decoder _ _ _) as [k r] eqn:Hr. injection Hs as _ ->. by eapply retire_blames.
Qed.
#[local] Hint Resolve retire_now_blames : blames.
Lemma sweep_blames : blames elsewhere_error (sweep_retirement : M unit).
Proof. unfold sweep_retirement. blame. Qed.
#[local] Hint Resolve sweep_blames : blames.
#[local] Hint Extern 2 (blames elsewhere_error _) =>
  (first [apply ensure_blames | apply opt_context_blames | apply fail_blames | apply take_counter_blames]; by not_bound) : blames.
Lemma publish_decoded_blames b : blames elsewhere_error (publish_decoded b : M _).
Proof.
  unfold publish_decoded. blame. intros s s' e Hs. destruct (publish_frame _ _ _ _) as [p [lease|x|]] eqn:Hp; try done.
  injection Hs as _ <-. by eapply publish_blames.
Qed.
#[local] Hint Resolve publish_decoded_blames : blames.
Lemma import_updates_blames us : blames elsewhere_error (import_updates us : M _).
Proof. induction us as [|u us IH]; cbn; unfold import_buffer; blame. Qed.
#[local] Hint Resolve import_updates_blames : blames.
Lemma pop_event_blames sf : blames elsewhere_error (pop_event sf : M _).
Proof. intros s s' e. unfold pop_event. destruct (queues s !! sf) as [[|q rest]|]; try done; intros [= _ <-]; not_bound. Qed.
#[local] Hint Resolve pop_event_blames : blames.
Lemma bind_Fail_inv {A B} (m : outcome A) (k : A -> outcome B) e : m ≫= k = Fail e -> m = Fail e \/ exists a, m = Ret a /\ k a = Fail e.
Proof. destruct m as [a|x|]; cbn; [|intros [= ->]; by left|done]. intros H. right. by exists a. Qed.
Lemma traverse_Fail_inv {A B} (h : A -> outcome B) l e : traverse h l = Fail e -> exists a, h a = Fail e.
Proof.
  induction l as [|a l IH]; cbn; [done|]. intros [H|(b & _ & [H|(bs & _ & H)]%bind_Fail_inv)]%bind_Fail_inv; [by exists a|by apply IH|done].
Qed.
Lemma try_into_client_blames (import : EncodedBuffer -> ClientBufferMetadata -> outcome ClientBufferLease) ev :
  (forall b m e, import b m = Fail e -> elsewhere_error e) -> blames elsewhere_error (lift (try_into_client import ev) : M _).
Proof.
  intros Hi. apply blames_lift. intros e [H|(k & _ & H)]%bind_Fail_inv; [|done]. destruct (event_kind ev); try done.
  apply bind_Fail_inv in H as [H|(c & _ & H)]; [|done]. apply bind_Fail_inv in H as [[u H]%traverse_Fail_inv|(c & _ & H)]; [|done].
  apply bind_Fail_inv in H as [H|(c & _ & H)]; [|done]. destruct (change u); try done.
  apply bind_Fail_inv in H as [H|(c & _ & H)]; [by eapply Hi|done].
Qed.
Lemma publish_surface_blames sf : blames elsewhere_error (publish_surface sf : M _).
Proof.
  unfold publish_surface. blame; apply try_into_client_blames; intros b m e; intros [= <-]; not_bound.
Qed.
#[local] Hint Resolve publish_surface_blames : blames.
Lemma publish_surfaces_blames l : blames elsewhere_error (publish_surfaces l : M _).
Proof. induction l; cbn; blame. Qed.
#[local] Hint Resolve publish_surfaces_blames : blames.
Lemma publish_ready_blames : blames elsewhere_error (publish_ready : M unit).
Proof. unfold publish_ready, publish_round. blame. Qed.
#[local] Hint Resolve publish_ready_blames : blames.

(** ** Cancelling frees room *)
Record freeing (n : nat) s s' : Prop := {
  freeing_queued : (queued s' <= queued s)%nat;
  freeing_waiting : (waiting_frames s' <= waiting_frames s)%nat;
  freeing_cancelled : (size (cancelled_frames s') <= size (cancelled_frames s) + n)%nat;
  freeing_media : (size (media_frames s') <= size (media_frames s))%nat;
  freeing_bytes : payload_bytes s' <= payload_bytes s;
}.
Lemma lighter_freeing s s' : lighter s s' -> freeing 0 s s'.
Proof. intros []. constructor; lia. Qed.
Lemma freeing_trans n n' s s1 s2 : freeing n s s1 -> freeing n' s1 s2 -> freeing (n + n') s s2.
Proof. intros [] []. constructor; lia. Qed.
Lemma delete_media_lighter f s : lighter s (set_media_frames (delete f (media_frames s)) s).
Proof.
  constructor; try done; cbn; [rewrite map_size_delete; destruct (media_frames s !! f); cbn; unfold id; lia|].
  unfold payload_bytes. cbn. pose proof (map_total_delete (fun m => length (payload (media_unit m))) (media_frames s) f) as H.
  unfold map_total in *. lia.
Qed.
(** One frame's tombstone fits while fewer than the bound are there. *)
Lemma cancel_frame_room session f s s' o : cancel_frame session f s = (s', o) ->
  freeing 1 s s' /\ ((size (cancelled_frames s) < MAX_REFERENCED_FRAMES)%nat -> forall e, o = Fail e -> elsewhere_error e).
Proof.
  intros Hs. unfold cancel_frame in Hs. unfold bind, gets, modify, id in Hs.
  set (s1 := set_decoded _ _) in Hs. assert (H1 : freeing 0 s s1) by (apply lighter_freeing; by destruct (delete_media_lighter f s)).
  assert (H2 : freeing 1 s s1) by (destruct H1; constructor; lia).
  destruct (job_of f s) as [[t j]|]; [injection Hs as <- <-; split; [by destruct H2|done]|].
  destruct (_ && _); [|injection Hs as <- <-; by split].
  unfold lift, ensure in Hs. case_bool_decide as Hb; cbn in Hs; injection Hs as <- <-; split; try done.
  - destruct H1. constructor; try done. cbn. rewrite map_size_insert. destruct (cancelled_frames s !! f); cbn; unfold id; lia.
Qed.
Lemma for_each_room {A} (m : A -> M unit) (w : A -> nat) l :
  (forall a s s' o, a ∈ l -> m a s = (s', o) -> freeing (w a) s s' /\
     ((size (cancelled_frames s) + w a <= MAX_REFERENCED_FRAMES)%nat -> forall e, o = Fail e -> elsewhere_error e)) ->
  forall s s' o, for_each m l s = (s', o) -> freeing (sum_list_with w l) s s' /\
    ((size (cancelled_frames s) + sum_list_with w l <= MAX_REFERENCED_FRAMES)%nat -> forall e, o = Fail e -> elsewhere_error e).
Proof.
  intros Hm. induction l as [|a l IH]; intros s s' o; cbn.
  - intros [= <- <-]. split; [by apply lighter_freeing|done].
  - unfold bind. destruct (m a s) as [s1 o1] eqn:H1. destruct (Hm a s s1 o1 (list_elem_of_here _ _) H1) as [F1 E1].
    assert (Hstop : freeing (w a + sum_list_with w l) s s1) by (destruct F1; constructor; lia).
    destruct o1 as [[]|x|].
    + intros Hs. destruct (IH (fun a s s' o Ha => Hm a s s' o (list_elem_of_further _ _ _ Ha)) s1 s' o Hs) as [F2 E2]. split; [by eapply freeing_trans|].
      intros Hc. apply E2. destruct F1. lia.
    + intros [= <- <-]. split; [done|]. intros Hc e [= <-]. apply (E1 ltac:(lia) x eq_refl).
    + by intros [= <- <-].
Qed.
Lemma cancel_events_room qs s s' o : for_each cancel_event qs s = (s', o) -> freeing (queue_frames qs) s s' /\
  ((size (cancelled_frames s) + queue_frames qs <= MAX_REFERENCED_FRAMES)%nat -> forall e, o = Fail e -> elsewhere_error e).
Proof.
  unfold queue_frames. revert s s' o. apply for_each_room. intros q s s' o _. unfold cancel_event.
  assert (Hlen : length (encoded_frames (queued_event q)) = sum_list_with (fun _ => 1%nat) (encoded_frames (queued_event q)))
    by (induction (encoded_frames (queued_event q)) as [|x xs IH]; cbn; [done|by rewrite IH]).
  rewrite Hlen. revert s s' o. apply for_each_room. intros f s s' o _ Hs. destruct (cancel_frame_room _ _ _ _ _ Hs) as [H1 H2].
  split; [done|]. intros Hc. apply H2. lia.
Qed.
Lemma drop_queue_weights sf s : let s' := set_queues (delete sf (queues s)) (forget_surface sf s) in
  (queue_frames (queue_of s sf) + waiting_frames s' = waiting_frames s)%nat /\ (queued s' <= queued s)%nat.
Proof.
  cbn. unfold waiting_frames, queued, queue_of. cbn. pose proof (map_total_delete queue_frames (queues s) sf) as H1.
  pose proof (map_total_delete length (queues s) sf) as H2. rewrite H1, H2. split; [|lia]. by destruct (queues s !! sf).
Qed.
Lemma drop_streams_same gone s : let s' := drop_streams gone s in
  queues s' = queues s /\ cancelled_frames s' = cancelled_frames s /\ media_frames s' = media_frames s.
Proof. cbn. unfold drop_streams. by induction (snd <$> _) as [|g gs IH]. Qed.
Lemma drop_streams_lighter gone s : lighter s (drop_streams gone s).
Proof. destruct (drop_streams_same gone s) as (H1 & H2 & H3). by apply lighter_same. Qed.
(** What is cancelled leaves at least the room it took. *)
Lemma cancel_surface_room sf c m b s s' o : Room c m b s -> cancel_surface sf s = (s', o) ->
  match o with Ret _ => Room c m b s' | Fail e => elsewhere_error e | Panic => True end.
Proof.
  intros H Hs. unfold cancel_surface in Hs. unfold bind at 1 2 3 in Hs. cbn [modify gets] in Hs.
  set (s1 := set_queues _ _) in Hs. destruct (drop_queue_weights sf s) as [Hw Hq]. change (set_queues _ _) with s1 in Hw, Hq.
  change (queue_of (forget_surface sf s) sf) with (queue_of s sf) in Hs.
  unfold bind at 1 in Hs. destruct (for_each cancel_event (queue_of s sf) s1) as [s2 o2] eqn:H2.
  destruct (cancel_events_room _ _ _ _ H2) as [F E]. destruct H as [R1 R2 R3 R4]. rewrite referenced_weight in R2.
  change (cancelled_frames s1) with (cancelled_frames s) in E. assert (Hrest : Room c m b s2).
  { destruct F as [F1 F2 F3 F4 F5]. change (cancelled_frames s1) with (cancelled_frames s) in F3. change (media_frames s1) with (media_frames s) in F4.
    change (payload_bytes s1) with (payload_bytes s) in F5. constructor; rewrite ?referenced_weight; lia. }
  destruct o2 as [[]|x|]; [|injection Hs as <- <-; by apply (E ltac:(lia))|by injection Hs as <- <-].
  unfold bind, modify in Hs. assert (Hall : always lighter (sweep_retirement : M unit)) by keep.
  pose proof (Hall (drop_streams (fun key => bool_decide (key.1 = sf)) s2)) as Hl. pose proof (sweep_blames (drop_streams (fun key => bool_decide (key.1 = sf)) s2)) as Hb.
  rewrite Hs in Hl, Hb. cbn in Hl. destruct o as [u|x|]; [|by eapply Hb|done].
  eapply room_lighter; [exact Hl|]. eapply room_lighter; [apply drop_streams_lighter|done].
Qed.
Lemma update_stream_same sf u s : let s' := update_stream sf u s in
  queues s' = queues s /\ cancelled_frames s' = cancelled_frames s /\ media_frames s' = media_frames s.
Proof. cbn. unfold update_stream. by repeat case_match. Qed.
Lemma update_streams_same e s : let s' := update_stream_generations e s in
  queues s' = queues s /\ cancelled_frames s' = cancelled_frames s /\ media_frames s' = media_frames s.
Proof.
  cbn. unfold update_stream_generations. destruct (event_kind e) as [|c| | | |]; try done.
  assert (Hf : forall us x, queues x = queues s /\ cancelled_frames x = cancelled_frames s /\ media_frames x = media_frames s ->
    let y := foldl (fun s u => update_stream (surface e) u s) x us in
    queues y = queues s /\ cancelled_frames y = cancelled_frames s /\ media_frames y = media_frames s).
  { induction us as [|u us IH]; intros x Hx; [done|]. apply IH. destruct (update_stream_same (surface e) u x) as (-> & -> & ->). done. }
  apply Hf, drop_streams_same.
Qed.
Lemma without_labels_frames session e q : queue_frames (without_labels session e q) = queue_frames q /\
  (length (without_labels session e q) <= length q)%nat.
Proof.
  unfold without_labels. destruct (is_label e); [|done]. split; [|apply length_filter].
  unfold queue_frames. induction q as [|x q IH]; [done|]. rewrite filter_cons. case_decide as Hx; cbn; rewrite IH; [done|].
  enough (encoded_frames (queued_event x) = []) as -> by done. unfold encoded_frames. destruct (is_label (queued_event x)) eqn:Hl.
  - unfold is_label in Hl. by destruct (event_kind (queued_event x)).
  - destruct Hx. by right.
Qed.
Lemma push_queue_room session e c m b s s' o : (length (encoded_frames e) <= MAX_REPLACEMENTS)%nat -> Room (S c) m b s ->
  push_queue session e s = (s', o) -> o = Ret tt /\ Room c m b s'.
Proof.
  intros Hlen [R1 R2 R3 R4]. unfold push_queue. set (old := queue_of s (surface e)). set (kept := without_labels session e old).
  destruct (without_labels_frames session e old) as [Hf Hk]. fold kept in Hf, Hk. rewrite bool_decide_true by lia. intros [= <- <-]. split; [done|].
  set (q := kept ++ [MkQueued session e]).
  pose proof (map_total_insert length (queues s) (surface e) q) as Hq1. pose proof (map_total_insert queue_frames (queues s) (surface e) q) as Hq2.
  assert (Ho : from_option length 0%nat (queues s !! surface e) = length old /\ from_option queue_frames 0%nat (queues s !! surface e) = queue_frames old).
  { unfold old, queue_of. by destruct (queues s !! surface e). }
  destruct Ho as [Ho1 Ho2]. rewrite Ho1 in Hq1. rewrite Ho2 in Hq2.
  assert (Hl : length q = S (length kept)) by (unfold q; rewrite length_app; cbn; lia).
  assert (Hw : queue_frames q = (queue_frames kept + length (encoded_frames e))%nat) by (unfold q, queue_frames; rewrite sum_list_with_app; cbn; lia).
  rewrite referenced_weight in R2. clearbody q kept old.
  constructor; [| |done|done]; rewrite ?referenced_weight; unfold queued, waiting_frames, MAX_REPLACEMENTS in *; cbn; lia.
Qed.
Lemma mark_update_frames us : update_frames (mark_update <$> us) = update_frames us.
Proof. induction us as [|[ly [m|m b|]] us IH]; [done|exact IH|exact (f_equal (cons _) IH)|exact IH]. Qed.
Lemma marked_frames e : encoded_frames (mark_encoded_buffers_opaque e) = encoded_frames e.
Proof. unfold encoded_frames, mark_encoded_buffers_opaque. destruct (event_kind e) eqn:Hk; cbn; rewrite ?Hk; try done. apply mark_update_frames. Qed.
(** An event within the budget takes one place of it and hits no bound. *)
Lemma enqueue_room session e c m b s s' o : Room (S c) m b s -> enqueue session e s = (s', o) ->
  match o with Ret _ => Room c m b s' | Fail x => elsewhere_error x | Panic => True end.
Proof.
  intros H Hs. assert (Hless : forall x, Room (S c) m b x -> Room c m b x) by (intros x []; constructor; lia).
  unfold enqueue in Hs. unfold bind at 1 2 3 in Hs. cbn [modify lift] in Hs. set (s1 := note_event session e s) in Hs.
  assert (H1 : Room (S c) m b s1) by (revert H; by apply room_lighter, lighter_same).
  unfold ensure in Hs. case_bool_decide as Hlen; [|injection Hs as <- <-; not_bound]. cbn [lift] in Hs.
  destruct (declares_opaque e); [|injection Hs as <- <-; not_bound]. cbn [lift] in Hs. destruct (is_destroyed e).
  - unfold bind at 1 in Hs. destruct (cancel_surface _ s1) as [s2 o2] eqn:H2. pose proof (cancel_surface_room _ _ _ _ _ _ _ H1 H2) as Hr.
    destruct o2 as [[]|x|]; [|by injection Hs as <- <-..]. unfold bind in Hs.
    destruct (lift _ s2) as [s3 o3] eqn:H3. pose proof (fun Hd => try_into_client_blames (fun _ _ => destroy_error) e Hd s2 s3) as Hb. rewrite H3 in Hb.
    assert (s3 = s2) as -> by by injection H3.
    destruct o3 as [ev|x|]; injection Hs as <- <-; [|apply Hb; [intros ? ? ? [= <-]; not_bound|done]|done]. apply Hless. revert Hr. by apply room_lighter, lighter_same.
  - unfold bind, modify in Hs. destruct (update_streams_same (mark_encoded_buffers_opaque e) s1) as (E1 & E2 & E3).
    set (s2 := update_stream_generations _ s1) in *. assert (H2 : Room (S c) m b s2) by (revert H1; by apply room_lighter, lighter_same).
    destruct (push_queue _ _ s2) as [s3 o3] eqn:H3. apply (push_queue_room _ _ c m b) in H3 as [-> H3]; [|by rewrite marked_frames|done].
    pose proof (publish_ready_lighter s3) as Hl. pose proof (publish_ready_blames s3) as Hb. rewrite Hs in Hl, Hb.
    destruct o as [u|x|]; [by eapply room_lighter|by eapply Hb|done].
Qed.
Lemma enqueue_media_room u c m b s s' o : let size := Z.of_nat (length (payload (access_unit u))) in
  Room c (S m) (size + b) s -> 0 <= b -> enqueue_media u s = (s', o) ->
  match o with Ret _ => Room c m b s' | Fail x => elsewhere_error x | Panic => True end.
Proof.
  intros sz [R1 R2 R3 R4] Hb. unfold enqueue_media. set (f := unit_frame (access_unit u)). destruct (cancelled_frames s !! f) as [session|] eqn:Hc.
  - case_bool_decide; intros [= <- <-]; [|not_bound]. rewrite referenced_weight in R2.
    constructor; rewrite ?referenced_weight; cbn; try (unfold payload_bytes in *; cbn; lia); try lia.
    + unfold queued in *. cbn. lia.
    + unfold waiting_frames in *. cbn. rewrite map_size_delete, Hc. cbn. lia.
  - rewrite bool_decide_true by lia. cbn [negb]. destruct (Z.leb_spec (Z.of_nat (length (payload (access_unit u)))) (media_bytes (receive_budget s))) as [Hle|Hgt];
      [|exfalso; cbn in Hgt; lia]. cbn [negb]. intros [= <- <-]. case_bool_decide as Hn; [|not_bound].
    constructor; [done|done| |]; cbn; [rewrite map_size_insert, Hn; cbn; lia|]. unfold payload_bytes in *. cbn.
    rewrite map_total_new by done. cbn. lia.
Qed.

(** ** Decoding takes no room *)
Lemma reinsert_lighter f media s x : media_frames s !! f = Some media -> length (payload (media_unit x)) = length (payload (media_unit media)) ->
  forall s', queues s' = queues s -> cancelled_frames s' = cancelled_frames s ->
  media_frames s' = <[f := x]> (delete f (media_frames s)) -> lighter s s'.
Proof.
  intros Hm Hx s' Hq Hc Hms. constructor; unfold queued, waiting_frames, payload_bytes; rewrite ?Hq, ?Hc, ?Hms; try done.
  - rewrite insert_delete_eq, map_size_insert, Hm. cbn. unfold id. lia.
  - rewrite insert_delete_eq. pose proof (map_total_insert (fun m => length (payload (media_unit m))) (media_frames s) f x) as H.
    rewrite Hm in H. cbn in H. lia.
Qed.
Lemma schedule_decode_lighter f session : always lighter (schedule_decode f session : M bool).
Proof.
  intros s. unfold schedule_decode. unfold bind at 1. cbn [gets]. destruct (media_frames s !! f) as [media|] eqn:Hm; [|done].
  assert (Hdel : forall s', queues s' = queues s -> cancelled_frames s' = cancelled_frames s -> media_frames s' = delete f (media_frames s) -> lighter s s').
  { intros s' Hq Hc Hms. etrans; [apply (delete_media_lighter f)|]. by apply lighter_same. }
  unfold bind, modify, lift, gets. destruct (ensure _ _); try by apply Hdel. destruct (opt_context _ _) as [md| |]; try by apply Hdel.
  unfold take_counter. cbn [next_token set_media_frames]. destruct (next_token s) as [t|]; [|by apply Hdel]. cbn.
  destruct (try_decode _ (backend s)) as [k [|returned| |]] eqn:Hd; cbn; try by apply Hdel.
  apply busy_returns in Hd as ->. destruct (ensure _ _); cbn; [|by apply Hdel..]. by apply (reinsert_lighter f media s (MkPendingMedia session (media_unit media)) Hm).
Qed.
#[local] Hint Resolve schedule_decode_lighter : keeps.
Lemma decode_turn_lighter now busy : always lighter (decode_turn now busy : M _).
Proof. unfold decode_turn. keep. Qed.
#[local] Hint Resolve decode_turn_lighter publish_ready_lighter : keeps.
Lemma advance_lighter clock : always lighter (advance clock : M unit).
Proof. unfold advance, in_time. keep. Qed.
#[local] Hint Resolve advance_lighter : keeps.
Lemma complete_all_lighter cs failure s : lighter s (complete_all cs failure s).1.
Proof.
  unfold complete_all. assert (Hf : forall cs x, lighter s x.1 -> lighter s (foldl (fun x c => complete_one x.1 x.2 c) x cs).1); [|by apply Hf].
  clear. intros cs. induction cs as [|c cs IH]; intros [x o] Hx; [done|]. cbn in *. apply IH. etrans; [exact Hx|]. apply lighter_same;
    unfold complete_one; repeat case_match; done.
Qed.
Lemma drain_lighter clock : always lighter (drain clock : M unit).
Proof.
  intros s. unfold drain, bind. destruct (drain_decoded _) as [k [cs o]]. cbn -[complete_all advance]. pose proof (complete_all_lighter cs o (set_backend k s)) as H.
  destruct (complete_all _ _ _) as [s1 [e|]]; cbn -[advance] in *; [by etrans; [|exact H]; apply lighter_same|].
  etrans; [|apply advance_lighter]. etrans; [|exact H]. by apply lighter_same.
Qed.
Lemma schedule_decode_blames f session : blames elsewhere_error (schedule_decode f session : M bool).
Proof.
  unfold schedule_decode. apply blames_bind; [by apply blames_never|]. intros [media|]; [|by apply blames_never].
  apply blames_bind; [by apply blames_never|]. intros _. apply blames_bind; [apply ensure_blames; not_bound|]. intros _.
  apply blames_bind; [by apply blames_never|]. intros md. apply blames_bind; [apply opt_context_blames; not_bound|]. intros m.
  apply blames_bind; [apply take_counter_blames; not_bound|]. intros t s s' e Hs.
  apply run_bind_fail in Hs as [Hs|(s1 & a & Ha & Hs)]; [by destruct (try_decode _ _)|].
  destruct (try_decode _ _) as [k adm] eqn:Hk. injection Ha as _ <-. destruct adm as [|returned| |cause].
  - by apply run_bind_fail in Hs as [Hs|(? & ? & _ & Hs)].
  - revert Hs. apply blames_bind; [apply ensure_blames; not_bound|]. intros _. apply blames_bind; by intros; apply blames_never.
  - injection Hs as _ <-. not_bound.
  - injection Hs as _ <-. by eapply decode_rejects.
Qed.
#[local] Hint Resolve schedule_decode_blames : blames.
Lemma decode_turn_blames now busy : blames elsewhere_error (decode_turn now busy : M _).
Proof.
  unfold decode_turn. apply blames_bind; [|intros o; blame]. apply blames_never. intros s s' e. by destruct (Scheduling.select _ _ _ _ _ _).
Qed.
#[local] Hint Resolve decode_turn_blames : blames.
Lemma advance_blames clock : blames elsewhere_error (advance clock : M unit).
Proof. unfold advance, in_time. blame. Qed.
Lemma complete_all_blames cs failure s e : (forall e, failure = Some e -> elsewhere_error e) ->
  (forall c e, c ∈ cs -> decode_result c = inr e -> elsewhere_error e) -> (complete_all cs failure s).2 = Some e -> elsewhere_error e.
Proof.
  unfold complete_all. revert s failure. induction cs as [|c cs IH]; intros s failure Hf Hcs; cbn; [apply Hf|].
  destruct (complete_one s failure c) as [s1 f1] eqn:H1. apply IH; [|intros d x Hd; apply Hcs; by right].
  intros x ->. unfold complete_one in H1. destruct (decode_in_flight s !! _) as [j|]; [destruct (in_flight_cancelled j)|].
  - injection H1 as _ ->. by apply Hf.
  - destruct (decoded_result _ _) as [b|y] eqn:Hr; injection H1 as _ H1; [by apply Hf|].
    destruct failure as [z|]; cbn in H1; subst x; [by apply Hf|].
    unfold decoded_result in Hr. destruct (decode_result c) as [[|d [|]]|z] eqn:Hd; [injection Hr as <-; not_bound| |injection Hr as <-; not_bound|].
    + case_bool_decide; [done|]. injection Hr as <-. not_bound.
    + injection Hr as <-. apply (Hcs c); [left|done].
  - injection H1 as _ H1. destruct failure as [z|]; cbn in H1; subst x; [by apply Hf|not_bound].
Qed.
Lemma drain_blame clock : blames elsewhere_error (drain clock : M unit).
Proof.
  intros s s' e Hs. unfold drain in Hs. apply run_bind_fail in Hs as [Hs|(s1 & cs & H1 & Hs)]; [by destruct (drain_decoded _)|].
  destruct (drain_decoded _) as [k [cs0 o]] eqn:Hd. injection H1 as <- <-. cbn [fst snd] in Hs.
  apply run_bind_fail in Hs as [Hs|(s2 & fl & H2 & Hs)]; [by destruct (complete_all _ _ _)|].
  destruct (complete_all cs0 o _) as [s3 f3] eqn:Hc. injection H2 as -> ->. destruct fl as [x|]; [|by eapply advance_blames].
  injection Hs as _ <-. apply (complete_all_blames cs0 o (set_backend k s)); [intros y ->; by eapply drain_blames| |by rewrite Hc].
  intros c y Hin Hy. by eapply result_blames.
Qed.
End DestinationBudget.
