(* ===== verification/DestinationPort.v ===== *)
(** * The destination's port ([weld-hoist-encoded/src/state.rs], [weld-hoist-core/src/relay.rs])

    [EncodedDestinationPort] takes the packets of a transport within the budget of its
    destination, hands on what was decoded, and sends the user's records back. The
    transport is an interface. A port's error type keeps the message of the error it is
    made from, so [protocol_error] is not written. Reports are left out. *)

From S2P Require Import Prelude.
From S2P Require Import Effects.
From S2P Require Import Ids.
From S2P Require Import Surface.
From S2P Require Import Input.
From S2P Require Import Activity.
From S2P Require Import Scheduling.
From S2P Require Import Output.
From S2P Require Import Framing.
From S2P Require Import Commit.
From S2P Require Import Packets.
From S2P Require Import Destination.
From S2P Require Import DestinationBudget.
From S2P Require Import Audio.

(** ** What a port exchanges *)
Inductive DestinationPortEvent (Cu : Type) :=
  | GamepadRecord (status : GamepadStatus)
  | MappedSurface (surface : ClientSurfaceId)
  | SurfaceRecord (event : ClientSurfaceEvent ClientBufferLease)
  | WithdrawSurface (surface : ClientSurfaceId)
  | EndedRecord
  | CursorRecord (update : Cu) (sequence : Z).
Arguments GamepadRecord {Cu}. Arguments MappedSurface {Cu}. Arguments SurfaceRecord {Cu}. Arguments WithdrawSurface {Cu}.
Arguments EndedRecord {Cu}. Arguments CursorRecord {Cu}.
Record DestinationPortRecord (Cu : Type) := MkPortRecord { record_session : HoistSessionId; record_event : DestinationPortEvent Cu }.
Arguments MkPortRecord {Cu}. Arguments record_session {Cu}. Arguments record_event {Cu}.
Inductive DestinationPortCommand :=
  | FocusCleared
  | Message (envelope : DestinationEnvelope)
  | RouteMapped (source destination : ClientSurfaceId)
  | RouteUnmapped (destination : ClientSurfaceId).

(** The packets the destination takes stay within the budget it gave. *)
Definition control_count {C} (l : list (SourceTransportPacket C (MediaEnvelope EncodedAccessUnit))) : nat :=
  length (filter (fun p => is_media p = false) l).
Definition media_count {C} (l : list (SourceTransportPacket C (MediaEnvelope EncodedAccessUnit))) : nat :=
  length (filter (fun p => is_media p = true) l).
Definition packet_bytes {C} (p : SourceTransportPacket C (MediaEnvelope EncodedAccessUnit)) : Z :=
  match p with Control _ => 0 | Media m => Z.of_nat (length (payload (access_unit m))) end.
Definition media_size {C} (l : list (SourceTransportPacket C (MediaEnvelope EncodedAccessUnit))) : Z :=
  foldr (fun p n => packet_bytes p + n) 0 l.
Record within {C} (b : ReceiveBudget) (l : list (SourceTransportPacket C (MediaEnvelope EncodedAccessUnit))) : Prop := {
  within_controls : (control_count l <= control_records b)%nat;
  within_media : (media_count l <= media_records b)%nat;
  within_bytes : media_size l <= media_bytes b;
}.
Class EncodedDestinationTransport (T C : Type) := {
  send : DestinationEnvelope -> T -> T * outcome unit;
  drain_packets : ReceiveBudget -> T -> T * outcome (list (SourceTransportPacket C (MediaEnvelope EncodedAccessUnit)));
  wake_if_readable : ReceiveBudget -> T -> T * outcome unit;
  close : T -> T;
  drain_within : forall b t t' l, 0 <= media_bytes b -> drain_packets b t = (t', Ret l) -> within b l;
}.

Section DestinationPort.
Context {T Cu K P Buf H B : Type}.
Abbreviation control := (HoistSessionId * SourceMessage Cu Audio.AudioPacket)%type.
Abbreviation packet := (SourceTransportPacket control (MediaEnvelope EncodedAccessUnit)).
Context {decoder : DecodeBackend K Buf} {frames : DecodedFramePublisher P Buf} {transports : EncodedDestinationTransport T control}.
Context {sound : Audio.PlaybackSystem H B}.
Context {job_visit : HashOrder Z InFlightDecode} {queue_visit : HashOrder ClientSurfaceId (list QueuedDestinationEvent)}.
Context {retirement_visit : HashOrder EncodedGeneration unit}.
Abbreviation destination := (EncodedDestinationState K P Buf).
Abbreviation record := (DestinationPortRecord Cu).

Record EncodedDestinationPort := MkDestinationPort {
  audio : Audio.Destination.Destination (B := B);
  host : H;
  transport : T;
  state : option destination;
}.
Definition set_audio (x : Audio.Destination.Destination) (p : EncodedDestinationPort) : EncodedDestinationPort :=
  MkDestinationPort x (host p) (transport p) (state p).
Definition set_host (x : H) (p : EncodedDestinationPort) : EncodedDestinationPort := MkDestinationPort (audio p) x (transport p) (state p).
Definition set_transport (x : T) (p : EncodedDestinationPort) : EncodedDestinationPort := MkDestinationPort (audio p) (host p) x (state p).
Definition set_state (x : option destination) (p : EncodedDestinationPort) : EncodedDestinationPort :=
  MkDestinationPort (audio p) (host p) (transport p) x.
Abbreviation M := (Effects.M EncodedDestinationPort).

(** [EncodedDestinationPort::new] and [with_scheduling_policy] *)
Definition EncodedDestinationPort_new (id : ClientSourceId) (t : T) (h : H) (k : K) (p : P) : EncodedDestinationPort :=
  MkDestinationPort (Audio.Destination.Destination_default []) h t (Some (EncodedDestinationState_new id k p)).
Definition set_policy (x : SchedulingPolicy) (s : destination) : destination :=
  MkDestination (descriptor_id s) (activity s) (scheduler s) x (backend s) (publisher s) (queues s) (media_frames s) (decoded s)
    (decode_in_flight s) (ready_surfaces s) (cancelled_frames s) (streams s) (pending_retirement s) (next_token s) (next_buffer s)
    (next_use s) (output s) (calls s).
Definition with_scheduling_policy (x : SchedulingPolicy) (p : EncodedDestinationPort) : EncodedDestinationPort :=
  set_state (set_policy x <$> state p) p.

Definition disconnected : error := ErrMsg "encoded destination port is disconnected".
(** A method of the destination, if there still is one. *)
Definition on_state {A} (m : Effects.M destination A) : M A := fun p =>
  match state p with
  | None => (p, Fail disconnected)
  | Some s => let '(s, o) := m s in (set_state (Some s) p, o)
  end.
(** A method that pushes to an output vector, given an empty one. *)
Definition collecting (m : Effects.M destination unit) : M (list record) :=
  let! events := on_state (let! _ := modify (set_output []) in let! _ := m in take_output) in
  pure ((fun x => MkPortRecord x.1 (SurfaceRecord x.2)) <$> events).
Definition on_audio (f : Audio.Destination.Destination -> Audio.Destination.Destination) : M unit := modify (fun p => set_audio (f (audio p)) p).
Definition receive_audio (session : HoistSessionId) (sf : ClientSurfaceId) (a : Audio.AudioPacket) : M unit := fun p =>
  let '(x, h, _) := Audio.Destination.receive session sf a (audio p) (host p) in (set_host h (set_audio x p), Ret tt).
(** [apply_source_packet]: the records it adds. *)
Definition apply_control (session : HoistSessionId) (m : SourceMessage Cu Audio.AudioPacket) : M (list record) :=
  match m with
  | AudioMessage sf a =>
      let! _ := lift (ensure (Audio.is_valid a) "invalid remote audio packet") in
      let! _ := receive_audio session sf a in pure []
  | GamepadMessage status => pure [MkPortRecord session (GamepadRecord status)]
  | CursorMessage update sequence => pure [MkPortRecord session (CursorRecord update sequence)]
  | MappedMessage sf =>
      let! _ := on_audio (Audio.Destination.map session sf) in pure [MkPortRecord session (MappedSurface sf)]
  | SurfaceMessage e =>
      let! _ := (if is_destroyed e then on_audio (Audio.Destination.remove (surface e)) else done) in
      collecting (enqueue session e)
  | Withdraw sf =>
      let! _ := on_audio (Audio.Destination.remove sf) in
      let! _ := on_state (cancel_surface sf) in
      pure [MkPortRecord session (WithdrawSurface sf)]
  | Ended =>
      let! _ := on_audio (fun x => Audio.Destination.Destination_default (Audio.Destination.played x)) in
      pure [MkPortRecord session EndedRecord]
  | BufferRetired _ => lift (Fail (ErrMsg "encoded peer sent a native buffer-retirement record"))
  end.
Definition apply_source_packet (p : packet) : M (list record) :=
  match p with
  | Media m => let! _ := on_state (enqueue_media m) in pure []
  | Control c => apply_control c.1 c.2
  end.
Fixpoint apply_packets (l : list packet) : M (list record) :=
  match l with
  | [] => pure []
  | p :: l => let! these := apply_source_packet p in let! others := apply_packets l in pure (these ++ others)
  end.
Definition on_transport {A} (f : T -> T * outcome A) : M A := fun p => let '(t, o) := f (transport p) in (set_transport t p, o).
(** [poll] *)
Definition poll (clock : nat -> instant) : M (list record) :=
  let! budget := on_state (gets receive_budget) in
  let! packets := on_transport (drain_packets budget) in
  let! records := apply_packets packets in
  let! shown := collecting (drain clock) in
  let! room := on_state (gets receive_budget) in
  let! _ := on_transport (wake_if_readable room) in
  pure (records ++ shown).
(** [submit] *)
Definition submit (now : instant) (command : DestinationPortCommand) : M unit :=
  let observing f := modify (fun p => set_state ((fun s => set_activity (f (policy s) (activity s)) s) <$> state p) p) in
  match command with
  | FocusCleared => observing (fun _ => Activity.clear_focus)
  | Message e =>
      let! _ := observing (Activity.observe (session e) (message e) now) in
      on_transport (send e)
  | RouteMapped _ _ | RouteUnmapped _ => done
  end.
(** [disconnect] *)
Definition disconnect : M unit :=
  modify (fun p => MkDestinationPort (Audio.Destination.Destination_default (Audio.Destination.played (audio p))) (host p) (close (transport p)) None).

(** ** The budget is enough *)
Context {outside : OutsideErrors (K := K) (P := P) (Buf := Buf)}.
(** What the transport says when it fails is its own. *)
Class TransportErrors : Prop := {
  drain_says : forall b (t t' : T) e, drain_packets (C := control) b t = (t', Fail e) -> elsewhere_error e;
  wake_says : forall b (t t' : T) e, wake_if_readable (C := control) b t = (t', Fail e) -> elsewhere_error e;
}.
Context {outer : TransportErrors}.
(** From where [R] holds a run ends where [Q] does, or with an error that is no bound's. *)
Definition safe {A} (R : EncodedDestinationPort -> Prop) (m : M A) (Q : A -> EncodedDestinationPort -> Prop) : Prop :=
  forall p p' o, R p -> m p = (p', o) -> match o with Ret a => Q a p' | Fail e => elsewhere_error e | Panic => True end.
Definition roomy (c m : nat) (b : Z) (p : EncodedDestinationPort) : Prop := forall s, state p = Some s -> Room c m b s.
Ltac not_bound := let H := fresh in unfold elsewhere_error, bound_error; intros H; repeat destruct H as [H|H]; discriminate H.
Lemma safe_bind {A A'} R (m : M A) Mid (k : A -> M A') Q : safe R m Mid -> (forall a, safe (Mid a) (k a) Q) -> safe R (bind m k) Q.
Proof.
  intros Hm Hk p p' o HR. unfold bind. destruct (m p) as [p1 [a|e|]] eqn:H1; specialize (Hm p p1 _ HR H1); cbn in Hm.
  - intros H2. exact (Hk a p1 p' o Hm H2).
  - by intros [= <- <-].
  - by intros [= <- <-].
Qed.
Lemma safe_pure {A} (Q : A -> EncodedDestinationPort -> Prop) (a : A) : safe (Q a) (pure a) Q.
Proof. intros p p' o HQ [= <- <-]. exact HQ. Qed.
Lemma safe_modify f (R Q : EncodedDestinationPort -> Prop) : (forall p, R p -> Q (f p)) -> safe R (modify f) (fun _ => Q).
Proof. intros Hf p p' o HR [= <- <-]. by apply Hf. Qed.
Lemma safe_lift {A} R (o : outcome A) : (forall e, o = Fail e -> elsewhere_error e) -> safe R (lift o) (fun _ => R).
Proof. intros Ho p p' o' HR [= <- <-]. destruct o; [done|by apply Ho|done]. Qed.
Lemma safe_weaken {A} (R R' : EncodedDestinationPort -> Prop) (m : M A) Q : (forall p, R p -> R' p) -> safe R' m Q -> safe R m Q.
Proof. intros Hw Hm p p' o HR. apply Hm. by apply Hw. Qed.
Lemma safe_state {A} (m : Effects.M destination A) (R Q : destination -> Prop) :
  (forall s s' o, R s -> m s = (s', o) -> match o with Ret _ => Q s' | Fail e => elsewhere_error e | Panic => True end) ->
  safe (fun p => forall s, state p = Some s -> R s) (on_state m) (fun _ p => forall s, state p = Some s -> Q s).
Proof.
  intros Hm p p' o HR. unfold on_state. destruct (state p) as [s|] eqn:Hs; [|intros [= <- <-]; not_bound].
  destruct (m s) as [s1 o1] eqn:H1. intros [= <- <-]. specialize (Hm s s1 o1 (HR s eq_refl) H1). destruct o1; [|done..]. by intros ? [= <-].
Qed.
Lemma collecting_safe (m : Effects.M destination unit) c n b c' n' b' :
  (forall s s' o, Room c n b s -> m s = (s', o) -> match o with Ret _ => Room c' n' b' s' | Fail e => elsewhere_error e | Panic => True end) ->
  safe (roomy c n b) (collecting m) (fun _ => roomy c' n' b').
Proof.
  intros Hm. unfold collecting. eapply safe_bind; [|intros a; apply (safe_pure (fun _ => roomy c' n' b'))].
  refine (safe_state _ (Room c n b) (Room c' n' b') _). intros s s' o HR. unfold bind at 1. cbn [modify]. unfold bind.
  destruct (m _) as [s1 o1] eqn:H1. assert (HR' : Room c n b (set_output [] s)) by (revert HR; by apply room_lighter, lighter_same).
  specialize (Hm _ _ _ HR' H1). destruct o1 as [[]|e|]; [|by intros [= <- <-]..]. intros [= <- <-]. revert Hm. by apply room_lighter, lighter_same.
Qed.
Lemma on_audio_safe f c n b : safe (roomy c n b) (on_audio f) (fun _ => roomy c n b).
Proof. by apply safe_modify. Qed.
Lemma roomy_less c c' n n' b b' p : (c' <= c)%nat -> (n' <= n)%nat -> b' <= b -> roomy c n b p -> roomy c' n' b' p.
Proof. intros Hc Hn Hb HR s Hs. destruct (HR s Hs). constructor; unfold MAX_REPLACEMENTS in *; lia. Qed.
Lemma apply_control_safe session m c n b : safe (roomy (S c) n b) (apply_control session m) (fun _ => roomy c n b).
Proof.
  assert (Hless : forall A (k : M A), safe (roomy c n b) k (fun _ => roomy c n b) -> safe (roomy (S c) n b) k (fun _ => roomy c n b)).
  { intros A k. apply safe_weaken. intros p. apply roomy_less; lia. }
  pose proof (fun x : list record => safe_pure (fun _ => roomy c n b) x) as Hpure. unfold apply_control. destruct m as [e|i|sf| |sf|u q|st|sf a].
  - eapply safe_bind with (Mid := fun _ => roomy (S c) n b); [destruct (is_destroyed e); [apply on_audio_safe|apply (safe_pure (fun _ => roomy (S c) n b))]|].
    intros ?. apply collecting_safe. intros s s' o. apply enqueue_room.
  - intros p p' o _ [= <- <-]. not_bound.
  - apply Hless. eapply safe_bind; [apply on_audio_safe|intros ?]. eapply safe_bind; [|intros ?; apply Hpure].
    refine (safe_state _ (Room c n b) (Room c n b) _). intros s s' o. apply cancel_surface_room.
  - apply Hless. eapply safe_bind; [apply on_audio_safe|intros ?; apply Hpure].
  - apply Hless. eapply safe_bind; [apply on_audio_safe|intros ?; apply Hpure].
  - apply Hless, Hpure.
  - apply Hless, Hpure.
  - apply Hless. eapply safe_bind; [apply safe_lift; destruct (Audio.is_valid a); [done|]; intros x [= <-]; not_bound|intros ?].
    eapply safe_bind with (Mid := fun _ => roomy c n b); [|intros ?; apply Hpure]. intros p p' o HR. unfold receive_audio.
    destruct (Audio.Destination.receive _ _ _ _ _) as [[x h] r]. by intros [= <- <-].
Qed.
Lemma media_size_nonneg (l : list packet) : 0 <= media_size l.
Proof. induction l as [|p l IH]; cbn; [done|]. fold (media_size l). destruct p; cbn; lia. Qed.
Lemma apply_packets_safe (l : list packet) :
  safe (roomy (control_count l) (media_count l) (media_size l)) (apply_packets l) (fun _ => roomy 0 0 0).
Proof.
  induction l as [|p l IH]; [apply (safe_pure (fun _ => roomy 0 0 0))|]. cbn [apply_packets].
  eapply safe_bind with (Mid := fun _ => roomy (control_count l) (media_count l) (media_size l));
    [|intros x; eapply safe_bind; [exact IH|intros y; apply (safe_pure (fun _ => roomy 0 0 0))]].
  pose proof (media_size_nonneg l) as Hnn. unfold control_count, media_count, media_size. rewrite !filter_cons. fold (control_count l) (media_count l).
  destruct p as [[session m]|m]; cbn -[Z.of_nat Z.add]; fold (media_size l).
  - rewrite Z.add_0_l. apply apply_control_safe.
  - eapply safe_bind; [|intros ?; apply (safe_pure (fun _ => roomy (control_count l) (media_count l) (media_size l)))].
    refine (safe_state _ (Room (control_count l) (S (media_count l)) (Z.of_nat (length (payload (access_unit m))) + media_size l)) (Room _ _ _) _).
    intros s s' o HR. by apply (enqueue_media_room m _ _ _ s s' o HR).
Qed.
Lemma on_transport_safe {A} (f : T -> T * outcome A) c n b (Q : A -> Prop) :
  (forall t t' o, f t = (t', o) -> match o with Ret a => Q a | Fail e => elsewhere_error e | Panic => True end) ->
  safe (roomy c n b) (on_transport f) (fun a p => roomy c n b p /\ Q a).
Proof.
  intros Hf p p' o HR. unfold on_transport. destruct (f (transport p)) as [t o1] eqn:H1. intros [= <- <-]. specialize (Hf _ _ _ H1).
  by destruct o1.
Qed.
Lemma poll_within_safe budget clock : 0 <= media_bytes budget -> safe (roomy (control_records budget) (media_records budget) (media_bytes budget))
  (let! packets := on_transport (drain_packets budget) in let! records := apply_packets packets in let! shown := collecting (drain clock) in
   let! room := on_state (gets receive_budget) in let! _ := on_transport (wake_if_readable room) in pure (records ++ shown)) (fun _ => roomy 0 0 0).
Proof.
  intros Hb. eapply safe_bind; [apply (on_transport_safe _ _ _ _ (within budget))|].
  { intros t t' [l|e|] Ht; [by eapply drain_within|by eapply drain_says|done]. }
  intros l. eapply safe_bind; [eapply safe_weaken; [|apply apply_packets_safe]|].
  { intros q [HR []]. revert HR. by apply roomy_less. }
  intros records. eapply safe_bind; [apply collecting_safe with (c' := 0%nat) (n' := 0%nat) (b' := 0)|].
  { intros s1 s2 o1 HRs Hd. pose proof (run_always _ _ _ _ _ (drain_lighter clock) Hd) as Hl. destruct o1; [by eapply room_lighter|by eapply drain_blame|done]. }
  intros shown. eapply safe_bind; [refine (safe_state _ (Room 0 0 0) (Room 0 0 0) _); by intros x x' o1 HRx [= <- <-]|].
  intros room. eapply safe_bind; [apply (on_transport_safe _ _ _ _ (fun _ => True))|].
  { intros t t' [[]|e|] Ht; [done|by eapply wake_says|done]. }
  intros ? q q' o1 [HRq _] [= <- <-]. exact HRq.
Qed.
Lemma poll_safe clock : safe (roomy 0 0 0) (poll clock) (fun _ => roomy 0 0 0).
Proof.
  unfold poll. intros p p' o HR. unfold bind at 1. unfold on_state at 1. destruct (state p) as [s|] eqn:Hs; [|intros [= <- <-]; not_bound].
  cbn [gets]. apply poll_within_safe; [cbn; lia|]. intros x [= <-]. by apply receive_budget_room, HR.
Qed.

(** What a port lives through. A relay gives up a port that fails. *)
Inductive port_step : EncodedDestinationPort -> EncodedDestinationPort -> Prop :=
  | port_poll clock p p' records : poll clock p = (p', Ret records) -> port_step p p'
  | port_submit now command p p' : submit now command p = (p', Ret tt) -> port_step p p'
  | port_disconnect p p' : disconnect p = (p', Ret tt) -> port_step p p'.
Definition port_history (p : EncodedDestinationPort) : Prop :=
  exists id t h k q policy, rtc port_step (with_scheduling_policy policy (EncodedDestinationPort_new id t h k q)) p.
Lemma submit_room now command p p' : submit now command p = (p', Ret tt) -> roomy 0 0 0 p -> roomy 0 0 0 p'.
Proof.
  intros Hs HR. assert (Hobs : forall f q, q = set_state ((fun s => set_activity (f (policy s) (activity s)) s) <$> state p) p -> roomy 0 0 0 q).
  { intros f q -> s. cbn. destruct (state p) as [s1|] eqn:Hp; [|done]. intros [= <-]. apply (room_lighter _ _ _ s1); [by apply lighter_same|by apply HR]. }
  unfold submit in Hs. destruct command as [|e|a b|a].
  - injection Hs as <-. by apply (Hobs (fun _ => Activity.clear_focus)).
  - unfold bind, modify, on_transport in Hs. destruct (send e _) as [t o]. injection Hs as <- ->.
    intros s Hs. by apply (Hobs (fun policy a => Activity.observe (session e) (message e) now policy a) _ eq_refl).
  - by injection Hs as <-.
  - by injection Hs as <-.
Qed.
(** C20 (dest-budget). A transport that keeps within the budget it is given never makes a
    destination run into one of its bounds: at most 128 events and 128 media frames of
    64 MiB wait, at most 128 frames are referenced, and no poll fails with a bound's error.
    The port's own bookkeeping is right, whatever arrives. *)
Theorem destination_budget_holds (p : EncodedDestinationPort) (Hp : port_history p) :
  (forall s, state p = Some s -> (queued s <= MAX_DESTINATION_EVENTS)%nat /\ (size (media_frames s) <= MAX_PENDING_MEDIA_FRAMES)%nat /\
     payload_bytes s <= MAX_PENDING_MEDIA_BYTES /\ (referenced s <= MAX_REFERENCED_FRAMES)%nat) /\
  forall clock p' e, poll clock p = (p', Fail e) -> ~ bound_error e.
Proof.
  assert (HR : roomy 0 0 0 p).
  { destruct Hp as (id & t & h & k & q & policy & Hp). refine (rtc_ind_r (roomy 0 0 0) _ _ _ _ Hp).
    - intros s [= <-]. constructor; unfold queued, referenced, payload_bytes, map_total; cbn; rewrite ?map_size_empty, ?map_to_list_empty; cbn;
        unfold MAX_DESTINATION_EVENTS, MAX_REFERENCED_FRAMES, MAX_PENDING_MEDIA_FRAMES, MAX_PENDING_MEDIA_BYTES; lia.
    - intros x y _ [clock a b records Ha|now command a b Ha|a b Ha] Hx; [exact (poll_safe clock a b _ Hx Ha)|by eapply submit_room|by injection Ha as <-]. }
  split.
  - intros s Hs. destruct (HR s Hs). unfold MAX_REPLACEMENTS in *. lia.
  - intros clock p' e He. exact (poll_safe clock p p' _ HR He).
Qed.
End DestinationPort.
Arguments EncodedDestinationPort T K P Buf H B : clear implicits.

(** ** A port at work

    A transport that hands over what was put into it, as far as the budget allows, and a
    decoder that takes everything. *)
Abbreviation sample_packet := (SourceTransportPacket (HoistSessionId * SourceMessage unit Audio.AudioPacket) (MediaEnvelope EncodedAccessUnit)).
Fixpoint afford {C} (c m : nat) (b : Z) (l : list (SourceTransportPacket C (MediaEnvelope EncodedAccessUnit))) :
    list (SourceTransportPacket C (MediaEnvelope EncodedAccessUnit)) :=
  match l with
  | Control x :: l => match c with O => [] | S c => Control x :: afford c m b l end
  | Media x :: l =>
      let size := Z.of_nat (length (payload (access_unit x))) in
      match m with O => [] | S m => if size <=? b then Media x :: afford c m (b - size) l else [] end
  | [] => []
  end.
Lemma afford_within {C} c m b (l : list (SourceTransportPacket C (MediaEnvelope EncodedAccessUnit))) : 0 <= b -> within (MkReceiveBudget c m b) (afford c m b l).
Proof.
  revert c m b. induction l as [|[x|x] l IH]; intros c m b Hb; cbn [afford]; [constructor; cbn; lia|destruct c as [|c]; [constructor; cbn; lia|]|].
  - destruct (IH c m b Hb) as [H1 H2 H3]. constructor; unfold control_count, media_count, media_size in *; rewrite ?filter_cons; repeat case_decide; cbn -[Z.of_nat Z.add] in *; first [done | lia].
  - destruct m as [|m]; [constructor; cbn; lia|]. destruct (Z.leb_spec (Z.of_nat (length (payload (access_unit x)))) b); [|constructor; cbn; lia].
    destruct (IH c m (b - Z.of_nat (length (payload (access_unit x))))) as [H1 H2 H3]; [lia|].
    constructor; unfold control_count, media_count, media_size in *; rewrite ?filter_cons; repeat case_decide; cbn -[Z.of_nat Z.add] in *; first [done | lia].
Qed.
Lemma afford_drains {C} b (t t' : list (SourceTransportPacket C (MediaEnvelope EncodedAccessUnit))) l : 0 <= media_bytes b ->
  (let l := afford (control_records b) (media_records b) (media_bytes b) t in (drop (length l) t, Ret l)) = (t', Ret l) -> within b l.
Proof. intros Hb [= _ <-]. destruct b. by apply afford_within. Qed.
#[export] Instance packet_list {C} : EncodedDestinationTransport (list (SourceTransportPacket C (MediaEnvelope EncodedAccessUnit))) C := {
  send _ t := (t, Ret tt);
  drain_packets b t := let l := afford (control_records b) (media_records b) (media_bytes b) t in (drop (length l) t, Ret l);
  wake_if_readable _ t := (t, Ret tt);
  close t := [];
  drain_within := afford_drains;
}.
#[export] Instance request_decoder : DecodeBackend (list DecodeRequest) unit := {
  try_decode r k := (k ++ [r], Accepted);
  drain_decoded k := ([], ((fun r => MkDecodeCompletion (decode_token r) (inl [MkDecodedFrame (unit_frame (decode_unit r)) tt])) <$> k, None));
  retire_decoder _ _ k := (k, Ret tt);
}.
#[export] Instance plain_frames : DecodedFramePublisher unit unit := {
  publish_frame _ buffer use p := (p, Ret (MkClientBufferLease buffer (MkClientBufferMetadata (MkExtent 1 1) true) 1 use));
}.
#[export] Instance silent_host : Audio.PlaybackSystem unit unit := { new_playback h := (h, inl tt); push_playback _ _ h := (h, inl true) }.
#[export] Existing Instance plain_order.
#[export] Instance sample_errors : OutsideErrors (K := list DecodeRequest) (P := unit) (Buf := unit).
Proof.
  split; try done. intros k k' cs o c e [= <- <- <-] (r & -> & _)%list_elem_of_fmap. done.
Qed.
#[export] Instance sample_transport_errors : TransportErrors (T := list sample_packet) (Cu := unit).
Proof. by split. Qed.
(** A commit and its frame come in one poll, and are shown by the next. *)
Definition port_frame : MediaFrameId := MkMediaFrameId (MkMediaStreamId 1) (MkStreamGeneration 1) 0.
Definition port_packets : list sample_packet :=
  [Media (MkMediaEnvelope (MkHoistSessionId 1) (MkAccessUnit port_frame H264 Keyframe 0 [1; 2; 3]));
   Control (MkHoistSessionId 1, SurfaceMessage (MkClientSurfaceEvent (ClientSurfaceId_for_test 1)
     (Commit (MkClientSurfaceState 1 Discarded true None None [] []
       [MkSurfaceBufferUpdate (MkSurfaceLayerId 0) (Replaced (MkClientBufferMetadata (MkExtent 4 4) true) (MkEncodedBuffer port_frame))]))))].
Abbreviation sample_port := (EncodedDestinationPort (list sample_packet) (list DecodeRequest) unit unit unit unit).
Definition port_start : sample_port := EncodedDestinationPort_new (MkClientSourceId 1) port_packets tt [] tt.
Definition port_later : sample_port := (poll (fun _ => 0) port_start).1.
Lemma destination_budget_holds_witness :
  (exists record, (poll (fun _ => 1) port_later).2 = Ret [record]) /\
  (forall s, state port_later = Some s -> queued s = 1%nat /\ (queued s <= MAX_DESTINATION_EVENTS)%nat).
Proof.
  split; [by vm_compute; eexists|].
  assert (Hp : port_history port_later).
  { exists (MkClientSourceId 1), port_packets, tt, [], tt, SchedulingPolicy_default. apply rtc_once.
    assert (Hr : (poll (fun _ => 0) port_start).2 = Ret []) by (vm_compute; reflexivity).
    apply (port_poll (fun _ => 0) _ _ []). rewrite <- Hr. apply surjective_pairing. }
  intros s Hs. split; [|by apply (destination_budget_holds port_later Hp)].
  assert (Hq : queued <$> state port_later = Some 1%nat) by (vm_compute; reflexivity). rewrite Hs in Hq. by injection Hq.
Defined.
