(* ===== verification/RemoteInput.v ===== *)
(** * Input a remote peer holds ([weld-hoist-core/src/relay.rs], [RemoteInputState])

    Both relays remember what the peer they serve has pressed, begun or focused, so that it
    can be given up when a surface is withdrawn or the peer is gone. The effects they hand
    to the host are those of weld-client/src/adapter.rs. *)

From S2P Require Import Prelude.
From S2P Require Import Effects.
From S2P Require Import OrdMap.
From S2P Require Import Ids.
From S2P Require Import Surface.
From S2P Require Import Input.
From S2P Require Import TouchLedger.

(** ** Input events and effects *)
Record ClientInputEvent := MkInputEvent {
  input_target : ClientInputTarget;
  host_position : option InputPosition;
  input_event : InputEventKind;
  input_time : Z;
}.
(** [WireClientInputEvent::into_client_event] *)
Definition into_client_event (r : InputRecord) : ClientInputEvent := MkInputEvent (target r) None (event r) (time r).
(** [WireClientInputEvent::from] *)
Definition from_client_event (e : ClientInputEvent) : InputRecord := MkInput (input_target e) (input_event e) (input_time e).
Inductive ClientAdapterEffect :=
  | RequestEffect (request : ClientRequest)
  | InputEffect (input : ClientInputEvent)
  | InputDisconnected (source : ClientSourceId)
  | InputConnected (source : ClientSourceId).

(** [PointerGesture::kind], [is_begin], [is_end], [PointerGestureKind::cancelled] *)
Inductive PointerGestureKind := SwipeKind | PinchKind | HoldKind.
#[export] Instance PointerGestureKind_eq_dec : EqDecision PointerGestureKind.
Proof. solve_decision. Defined.
Definition gesture_kind (g : PointerGesture) : PointerGestureKind :=
  match g with Swipe _ => SwipeKind | Pinch _ => PinchKind | Hold _ => HoldKind end.
Definition is_begin (g : PointerGesture) : bool :=
  match g with
  | Swipe (SwipeBegin _) | Pinch (PinchBegin _) | Hold (HoldBegin _) => true
  | _ => false
  end.
Definition is_end (g : PointerGesture) : bool :=
  match g with
  | Swipe (SwipeEnd _) | Pinch (PinchEnd _) | Hold (HoldEnd _) => true
  | _ => false
  end.
Definition cancelled (k : PointerGestureKind) : PointerGesture :=
  match k with
  | SwipeKind => Swipe (SwipeEnd true)
  | PinchKind => Pinch (PinchEnd true)
  | HoldKind => Hold (HoldEnd true)
  end.
(** [RawScrollFrame::cancelled_finger] *)
Definition cancelled_finger (horizontal_stop vertical_stop : bool) : RawScrollFrame :=
  MkScroll Finger ScrollCancelled f64_zero f64_zero None None horizontal_stop vertical_stop.

(** ** The state *)
Record RemoteKeyCapture := MkKeyCapture { key_target : ClientInputTarget; repeat_allowed : bool }.
Record RemoteFingerScroll := MkFingerScroll {
  scroll_target : ClientInputTarget;
  horizontal_active : bool;
  vertical_active : bool;
}.
Record RemoteInputState := MkRemoteInput {
  touch : TouchLedger;
  keys : gmap Z RemoteKeyCapture;
  held_buttons : gmap Z (ClientInputTarget * option InputPosition);
  gestures : list (PointerGestureKind * ClientInputTarget);
  finger_scroll : option RemoteFingerScroll;
  keyboard_focus : option ClientSurfaceId;
  last_time : Z;
}.
(** [RemoteInputState::default] *)
Definition RemoteInputState_default : RemoteInputState := MkRemoteInput TouchLedger_default ∅ ∅ [] None None 0.
Definition set_touch (x : TouchLedger) (s : RemoteInputState) : RemoteInputState :=
  MkRemoteInput x (keys s) (held_buttons s) (gestures s) (finger_scroll s) (keyboard_focus s) (last_time s).
Definition set_keys (x : gmap Z RemoteKeyCapture) (s : RemoteInputState) : RemoteInputState :=
  MkRemoteInput (touch s) x (held_buttons s) (gestures s) (finger_scroll s) (keyboard_focus s) (last_time s).
Definition set_held_buttons (x : gmap Z (ClientInputTarget * option InputPosition)) (s : RemoteInputState) : RemoteInputState :=
  MkRemoteInput (touch s) (keys s) x (gestures s) (finger_scroll s) (keyboard_focus s) (last_time s).
Definition set_gestures (x : list (PointerGestureKind * ClientInputTarget)) (s : RemoteInputState) : RemoteInputState :=
  MkRemoteInput (touch s) (keys s) (held_buttons s) x (finger_scroll s) (keyboard_focus s) (last_time s).
Definition set_finger_scroll (x : option RemoteFingerScroll) (s : RemoteInputState) : RemoteInputState :=
  MkRemoteInput (touch s) (keys s) (held_buttons s) (gestures s) x (keyboard_focus s) (last_time s).
Definition set_keyboard_focus (x : option ClientSurfaceId) (s : RemoteInputState) : RemoteInputState :=
  MkRemoteInput (touch s) (keys s) (held_buttons s) (gestures s) (finger_scroll s) x (last_time s).
Definition set_last_time (x : Z) (s : RemoteInputState) : RemoteInputState :=
  MkRemoteInput (touch s) (keys s) (held_buttons s) (gestures s) (finger_scroll s) (keyboard_focus s) x.

(** ** Observing *)
(** [accepts_input] *)
Definition accepts_input (t : ClientInputTarget) (e : InputEventKind) (s : RemoteInputState) : bool :=
  match e with
  | Touch te => accepts t te (touch s)
  | Keyboard keycode KeyRepeated =>
      is_some_and (keys s !! keycode) (fun c => repeat_allowed c && bool_decide (key_target c = t))
  | _ => true
  end.
(** [observe_request] *)
Definition no_repeat (c : RemoteKeyCapture) : RemoteKeyCapture := MkKeyCapture (key_target c) false.
Definition observe_request (r : ClientRequest) (s : RemoteInputState) : RemoteInputState :=
  match r with
  | FocusRequest focus =>
      let s := if bool_decide (keyboard_focus s = focus_surface focus) then s else set_keys (no_repeat <$> keys s) s in
      set_keyboard_focus (focus_surface focus) s
  | _ => s
  end.
Definition nonzero (x : f64) : bool := negb (feqb x f64_zero).
Definition scroll_moves (axis : RawScrollFrame) (scroll : RemoteFingerScroll) : RemoteFingerScroll :=
  MkFingerScroll (scroll_target scroll)
    ((horizontal_active scroll || nonzero (horizontal axis)) && negb (horizontal_stop axis))
    ((vertical_active scroll || nonzero (vertical axis)) && negb (vertical_stop axis)).
Definition observe_axis (t : ClientInputTarget) (axis : RawScrollFrame) (s : RemoteInputState) : RemoteInputState :=
  match scroll_source axis with
  | Finger =>
      match phase axis with
      | ScrollStarted => set_finger_scroll (Some (MkFingerScroll t (nonzero (horizontal axis)) (nonzero (vertical axis)))) s
      | ScrollMoved => set_finger_scroll (scroll_moves axis <$> finger_scroll s) s
      | ScrollEnded | ScrollCancelled => set_finger_scroll None s
      end
  | _ => s
  end.
Definition observe_gesture (t : ClientInputTarget) (g : PointerGesture) (s : RemoteInputState) : RemoteInputState :=
  if is_begin g then set_gestures (gestures s ++ [(gesture_kind g, t)]) s
  else if is_end g then set_gestures (filter (fun x => x.1 <> gesture_kind g) (gestures s)) s
  else s.
Definition follow_position (t : ClientInputTarget) (position : InputPosition) (x : ClientInputTarget * option InputPosition) :
    ClientInputTarget * option InputPosition :=
  if bool_decide (x.1 = t) then (x.1, Some position) else x.
(** [observe_input] past its early returns *)
Definition observe_plain (i : ClientInputEvent) (s : RemoteInputState) : RemoteInputState :=
  let t := input_target i in
  match input_event i with
  | PointerButton position button ButtonPressed => set_held_buttons (<[button := (t, position)]> (held_buttons s)) s
  | PointerButton _ button ButtonReleased => set_held_buttons (delete button (held_buttons s)) s
  | PointerAxis _ axis => observe_axis t axis s
  | PointerGestureEvent g => observe_gesture t g s
  | Keyboard keycode KeyPressed => set_keys (<[keycode := MkKeyCapture t true]> (keys s)) s
  | Keyboard keycode KeyReleased => set_keys (delete keycode (keys s)) s
  | PointerMotion position _ => set_held_buttons (follow_position t position <$> held_buttons s) s
  | _ => s
  end.
(** [observe_input] *)
Definition observe_input (i : ClientInputEvent) (s : RemoteInputState) : RemoteInputState * bool :=
  match input_event i with
  | Touch te =>
      let '(ledger, accepted) := TouchLedger.observe (input_target i) te (touch s) in
      (set_touch ledger (set_last_time (input_time i) s), accepted)
  | Keyboard _ KeyRepeated =>
      if accepts_input (input_target i) (input_event i) s then (set_last_time (input_time i) s, true) else (s, false)
  | _ => (observe_plain i (set_last_time (input_time i) s), true)
  end.

(** ** Giving up *)
Section Release.
Context {key_order : HashOrder Z RemoteKeyCapture} {button_order : HashOrder Z (ClientInputTarget * option InputPosition)}.
Implicit Types (should_release : ClientSurfaceId -> bool) (s : RemoteInputState).
Definition given_up should_release (t : ClientInputTarget) : bool := should_release (target_surface t).
Definition release_effect (time : Z) (t : ClientInputTarget) (e : InputEventKind) : ClientAdapterEffect :=
  InputEffect (MkInputEvent t None e time).
Definition release_touch should_release s : RemoteInputState * list ClientAdapterEffect :=
  let '(ledger, targets) := retire should_release (touch s) in
  (set_touch ledger s, (fun t => release_effect (last_time s) t (Touch TouchCancel)) <$> targets).
(** [extract_if] *)
Definition release_buttons should_release s : RemoteInputState * list ClientAdapterEffect :=
  (set_held_buttons (filter (fun x => given_up should_release x.2.1 = false) (held_buttons s)) s,
   (fun x : Z * (ClientInputTarget * option InputPosition) => release_effect (last_time s) x.2.1 (PointerButton x.2.2 x.1 ButtonReleased)) <$>
     filter (fun x => given_up should_release x.2.1 = true) (visit (held_buttons s))).
Definition release_keys should_release s : RemoteInputState * list ClientAdapterEffect :=
  (set_keys (filter (fun x => given_up should_release (key_target x.2) = false) (keys s)) s,
   (fun x : Z * RemoteKeyCapture => release_effect (last_time s) (key_target x.2) (Keyboard x.1 KeyReleased)) <$>
     filter (fun x => given_up should_release (key_target x.2) = true) (visit (keys s))).
Definition release_gestures should_release s : RemoteInputState * list ClientAdapterEffect :=
  (set_gestures (filter (fun x => given_up should_release x.2 = false) (gestures s)) s,
   (fun x : PointerGestureKind * ClientInputTarget => release_effect (last_time s) x.2 (PointerGestureEvent (cancelled x.1))) <$>
     filter (fun x => given_up should_release x.2 = true) (gestures s)).
Definition release_scroll should_release s : RemoteInputState * list ClientAdapterEffect :=
  match finger_scroll s with
  | Some scroll =>
      if given_up should_release (scroll_target scroll) then
        (set_finger_scroll None s,
         [release_effect (last_time s) (scroll_target scroll)
            (PointerAxis None (cancelled_finger (horizontal_active scroll) (vertical_active scroll)))])
      else (s, [])
  | None => (s, [])
  end.
Definition release_focus (source : ClientSourceId) should_release s : RemoteInputState * list ClientAdapterEffect :=
  if is_some_and (keyboard_focus s) should_release
  then (set_keyboard_focus None s, [RequestEffect (FocusRequest (MkFocusRequest source None))])
  else (s, []).
(** [release_effects] *)
Definition release_effects (source : ClientSourceId) should_release s : RemoteInputState * list ClientAdapterEffect :=
  let '(s, touched) := release_touch should_release s in
  let '(s, clicked) := release_buttons should_release s in
  let '(s, typed) := release_keys should_release s in
  let '(s, gestured) := release_gestures should_release s in
  let '(s, scrolled) := release_scroll should_release s in
  let '(s, focused) := release_focus source should_release s in
  (s, touched ++ clicked ++ typed ++ gestured ++ scrolled ++ focused).
End Release.

(** ** What the host holds

    The host's picture of a controller, read off the effects it was given: a contact, key,
    button, gesture, finger scroll or the keyboard's focus and the target it is on. *)
Record Held := MkHeld {
  h_contacts : gmap TouchId ClientInputTarget;
  h_keys : gmap Z ClientInputTarget;
  h_buttons : gmap Z ClientInputTarget;
  h_gestures : list (PointerGestureKind * ClientInputTarget);
  h_scroll : option ClientInputTarget;
  h_focus : option ClientSurfaceId;
}.
Definition nothing : Held := MkHeld ∅ ∅ ∅ [] None None.
Definition hold_input (t : ClientInputTarget) (e : InputEventKind) (h : Held) : Held :=
  match e with
  | Touch te => MkHeld (contacts_after t te (h_contacts h)) (h_keys h) (h_buttons h) (h_gestures h) (h_scroll h) (h_focus h)
  | Keyboard k KeyPressed => MkHeld (h_contacts h) (<[k := t]> (h_keys h)) (h_buttons h) (h_gestures h) (h_scroll h) (h_focus h)
  | Keyboard k KeyReleased => MkHeld (h_contacts h) (delete k (h_keys h)) (h_buttons h) (h_gestures h) (h_scroll h) (h_focus h)
  | PointerButton _ b ButtonPressed => MkHeld (h_contacts h) (h_keys h) (<[b := t]> (h_buttons h)) (h_gestures h) (h_scroll h) (h_focus h)
  | PointerButton _ b ButtonReleased => MkHeld (h_contacts h) (h_keys h) (delete b (h_buttons h)) (h_gestures h) (h_scroll h) (h_focus h)
  | PointerGestureEvent g =>
      let l := if is_begin g then h_gestures h ++ [(gesture_kind g, t)]
               else if is_end g then filter (fun x => x.1 <> gesture_kind g) (h_gestures h) else h_gestures h in
      MkHeld (h_contacts h) (h_keys h) (h_buttons h) l (h_scroll h) (h_focus h)
  | PointerAxis _ axis =>
      let x := match scroll_source axis, phase axis with
               | Finger, ScrollStarted => Some t
               | Finger, (ScrollEnded | ScrollCancelled) => None
               | _, _ => h_scroll h
               end in
      MkHeld (h_contacts h) (h_keys h) (h_buttons h) (h_gestures h) x (h_focus h)
  | _ => h
  end.
Definition hold (h : Held) (e : ClientAdapterEffect) : Held :=
  match e with
  | InputEffect i => hold_input (input_target i) (input_event i) h
  | RequestEffect (FocusRequest f) =>
      MkHeld (h_contacts h) (h_keys h) (h_buttons h) (h_gestures h) (h_scroll h) (focus_surface f)
  | RequestEffect _ | InputConnected _ => h
  | InputDisconnected _ => nothing
  end.
Definition held_after (h : Held) (es : list ClientAdapterEffect) : Held := foldl hold h es.
Lemma held_after_app h l k : held_after h (l ++ k) = held_after (held_after h l) k.
Proof. apply foldl_app. Qed.
(** Everything held is on surfaces that satisfy [P]. *)
Record all_held (P : ClientSurfaceId -> Prop) (h : Held) : Prop := {
  all_contacts : forall id t, h_contacts h !! id = Some t -> P (target_surface t);
  all_keys : forall k t, h_keys h !! k = Some t -> P (target_surface t);
  all_buttons : forall b t, h_buttons h !! b = Some t -> P (target_surface t);
  all_gestures : forall x, x ∈ h_gestures h -> P (target_surface x.2);
  all_scroll : forall t, h_scroll h = Some t -> P (target_surface t);
  all_focus : forall sf, h_focus h = Some sf -> P sf;
}.
Lemma all_held_nothing P : all_held P nothing.
Proof. split; cbn; intros *; rewrite ?lookup_empty; try done. by intros ?%elem_of_nil. Qed.
Lemma all_held_mono (P Q : ClientSurfaceId -> Prop) h : (forall sf, P sf -> Q sf) -> all_held P h -> all_held Q h.
Proof. intros HPQ []. split; eauto. Qed.
(** The ledger knows everything the host holds. A gesture may be known longer than held: a
    gesture that ends, ends for the host wherever it began. *)
Record tracks (s : RemoteInputState) (h : Held) : Prop := {
  track_contacts : h_contacts h = contacts (touch s);
  track_keys : h_keys h = key_target <$> keys s;
  track_buttons : h_buttons h = fst <$> held_buttons s;
  track_gestures : h_gestures h ⊆ gestures s;
  track_scroll : h_scroll h = scroll_target <$> finger_scroll s;
  track_focus : h_focus h = keyboard_focus s;
}.
Lemma tracks_default : tracks RemoteInputState_default nothing.
Proof. split; cbn; rewrite ?fmap_empty; done. Qed.

(** ** Observations are followed *)
Lemma follow_position_targets t position (m : gmap Z (ClientInputTarget * option InputPosition)) :
  fst <$> (follow_position t position <$> m) = fst <$> m.
Proof.
  rewrite <- map_fmap_compose. apply map_fmap_ext. intros i x _. unfold compose, follow_position. by case_bool_decide.
Qed.
Lemma observe_axis_tracks t position axis s h : tracks s h -> tracks (observe_axis t axis s) (hold_input t (PointerAxis position axis) h).
Proof.
  intros []. unfold observe_axis. cbn. destruct (scroll_source axis); [by split| |by split].
  destruct (phase axis); split; cbn; try done. rewrite track_scroll0. by destruct (finger_scroll s).
Qed.
Lemma observe_gesture_tracks t g s h : tracks s h -> tracks (observe_gesture t g s) (hold_input t (PointerGestureEvent g) h).
Proof.
  intros []. unfold observe_gesture. cbn. destruct (is_begin g); [|destruct (is_end g)]; split; cbn; try done.
  - intros x. rewrite !elem_of_app. intros [?|?]; [left; by apply track_gestures0|by right].
  - intros x [? ?%track_gestures0]%list_elem_of_filter. by apply list_elem_of_filter.
Qed.
Lemma observe_plain_tracks i s h : tracks s h -> (forall te, input_event i <> Touch te) ->
  tracks (observe_plain i s) (hold h (InputEffect i)).
Proof.
  intros H Ht. unfold observe_plain. cbn. destruct (input_event i) as [p r|p|p b st|p axis|g|k st|te|txt]; try done.
  - destruct H. split; cbn; try done. by rewrite follow_position_targets.
  - destruct H, st; split; cbn; try done; rewrite ?fmap_insert, ?fmap_delete; by f_equal.
  - by apply observe_axis_tracks.
  - by apply observe_gesture_tracks.
  - destruct H, st; split; cbn; try done; rewrite ?fmap_insert, ?fmap_delete; by f_equal.
  - by destruct (Ht te).
Qed.
Lemma set_last_time_tracks x s h : tracks s h -> tracks (set_last_time x s) h.
Proof. by intros []. Qed.
(** What fits the picture: a repeat goes where the key is held, a contact where it went down. *)
Definition fits (h : Held) (e : ClientAdapterEffect) : Prop :=
  match e with
  | InputEffect i =>
      match input_event i with
      | Keyboard k KeyRepeated => h_keys h !! k = Some (input_target i)
      | Touch (TouchDown id _) => h_contacts h !! id = None /\ (size (h_contacts h) < MAX_TOUCH_CONTACTS)%nat
      | Touch (TouchMotion id _ | TouchUp id) => h_contacts h !! id = Some (input_target i)
      | _ => True
      end
  | _ => True
  end.
Lemma accepts_fits i s h : tracks s h -> accepts_input (input_target i) (input_event i) s = true -> fits h (InputEffect i).
Proof.
  intros [] Ha. cbn. destruct (input_event i) as [| | | | |k st|te|]; try done.
  - destruct st; [done..|]. rewrite track_keys0, lookup_fmap. cbn in Ha. destruct (keys s !! k) as [c|]; [|done]. cbn in *.
    apply andb_true_iff in Ha as [_ Ha%bool_decide_eq_true]. by f_equal.
  - cbn in Ha. unfold accepts in Ha. destruct (negb _ || negb _); [done|]. rewrite track_contacts0. destruct te; try done.
    + apply andb_true_iff in Ha as [[Hn%bool_decide_eq_true Hl%bool_decide_eq_true]%andb_true_iff _]. done.
    + by apply bool_decide_eq_true in Ha.
    + by apply bool_decide_eq_true in Ha.
Qed.
Lemma observe_input_tracks i s h : tracks s h ->
  let '(s', accepted) := observe_input i s in
  if accepted : bool then fits h (InputEffect i) /\ tracks s' (hold h (InputEffect i)) else tracks s' h.
Proof.
  intros H. assert (Hp : (forall te, input_event i <> Touch te) -> tracks (observe_plain i (set_last_time (input_time i) s)) (hold h (InputEffect i))).
  { intros Ht. apply observe_plain_tracks; [by apply set_last_time_tracks|done]. }
  unfold observe_input. destruct (input_event i) as [| | | | |k st|te|] eqn:He; try (by split; [unfold fits; rewrite He|apply Hp]).
  - destruct st; try (by split; [unfold fits; rewrite He|apply Hp]). destruct (accepts_input _ _ s) eqn:Ha; [|done]. split.
    + apply (accepts_fits i s); [done|]. by rewrite He.
    + cbn. rewrite He. by apply set_last_time_tracks.
  - unfold observe. destruct (accepts _ _ _) eqn:Ha; cbn; [|destruct H; by split]. split.
    + pose proof (accepts_fits i s h H) as Hf. unfold fits in Hf. rewrite He in Hf |- *. by apply Hf.
    + rewrite He. destruct H. split; cbn; try done. by f_equal.
Qed.
Lemma observe_request_tracks r s h : tracks s h -> tracks (observe_request r s) (hold h (RequestEffect r)).
Proof.
  intros []. destruct r as [|f|]; cbn; try done. case_bool_decide; split; cbn; try done.
  rewrite <- map_fmap_compose. rewrite track_keys0. by apply map_fmap_ext.
Qed.

(** ** Releases are followed *)
Section Followed.
Context {key_order : HashOrder Z RemoteKeyCapture} {button_order : HashOrder Z (ClientInputTarget * option InputPosition)}.
Implicit Types (p : ClientSurfaceId -> bool) (s : RemoteInputState) (h : Held).
Definition drop_all {V W} (m : gmap Z W) (l : list (Z * V)) : gmap Z W := foldl (fun m x => delete x.1 m) m l.
Lemma lookup_drop_all {V W} (l : list (Z * V)) (m : gmap Z W) i : drop_all m l !! i = if bool_decide (i ∈ l.*1) then None else m !! i.
Proof.
  revert m. induction l as [|x l IH]; intros m; [done|]. cbn. fold (drop_all (delete x.1 m) l). rewrite IH.
  rewrite (bool_decide_ext (i ∈ x.1 :: l.*1) (x.1 = i \/ i ∈ l.*1)) by (rewrite elem_of_cons; naive_solver).
  destruct (decide (i ∈ l.*1)); [by rewrite !bool_decide_true by auto|]. rewrite bool_decide_false by done.
  destruct (decide (x.1 = i)) as [<-|]; [rewrite lookup_delete_eq, bool_decide_true by auto; done|].
  rewrite lookup_delete_ne, bool_decide_false by naive_solver. done.
Qed.
Lemma drop_matched {V W} {order : HashOrder Z V} (g : V -> W) (q : V -> bool) (m : gmap Z V) :
  drop_all (g <$> m) (filter (fun x => q x.2 = true) (visit m)) = g <$> filter (fun x => q x.2 = false) m.
Proof.
  apply map_eq. intros i. rewrite lookup_drop_all, !lookup_fmap, map_lookup_filter. destruct (m !! i) as [v|] eqn:Hi; cbn.
  - destruct (q v) eqn:Hq; cbn; [rewrite bool_decide_true; [done|]|rewrite bool_decide_false; [done|]].
    + apply list_elem_of_fmap. exists (i, v). split; [done|]. apply list_elem_of_filter. split; [done|].
      rewrite visit_perm. by apply elem_of_map_to_list.
    + intros ([i' v'] & -> & [Hv Hin]%list_elem_of_filter)%list_elem_of_fmap. cbn in *. rewrite visit_perm in Hin.
      apply elem_of_map_to_list in Hin. congruence.
  - by case_bool_decide.
Qed.
Definition left_contacts (m : gmap TouchId ClientInputTarget) (l : list ClientInputTarget) : gmap TouchId ClientInputTarget :=
  foldl (fun m t => contacts_after t TouchCancel m) m l.
Lemma left_contacts_retain l m : left_contacts m l = retain (fun t => negb (bool_decide (t ∈ l))) m.
Proof.
  revert m. induction l as [|t l IH]; intros m; cbn.
  - unfold retain. apply map_eq. intros i. rewrite map_lookup_filter. by destruct (m !! i).
  - fold (left_contacts (retain (fun current => negb (bool_decide (current = t))) m) l). rewrite IH. unfold retain.
    rewrite map_filter_filter. apply map_filter_ext. intros i x _. cbn.
    rewrite !negb_true_iff, !bool_decide_eq_false, not_elem_of_cons. tauto.
Qed.
(** The effects of each release, as the host takes them. *)
Lemma hold_touched time l h : held_after h ((fun t => release_effect time t (Touch TouchCancel)) <$> l) =
  MkHeld (left_contacts (h_contacts h) l) (h_keys h) (h_buttons h) (h_gestures h) (h_scroll h) (h_focus h).
Proof. revert h. induction l as [|t l IH]; intros h; [by destruct h|]. cbn in *. unfold held_after in IH. by rewrite IH. Qed.
Lemma hold_clicked time (l : list (Z * (ClientInputTarget * option InputPosition))) h :
  held_after h ((fun x => release_effect time x.2.1 (PointerButton x.2.2 x.1 ButtonReleased)) <$> l) =
  MkHeld (h_contacts h) (h_keys h) (drop_all (h_buttons h) l) (h_gestures h) (h_scroll h) (h_focus h).
Proof. revert h. induction l as [|t l IH]; intros h; [by destruct h|]. cbn in *. unfold held_after in IH. by rewrite IH. Qed.
Lemma hold_typed time (l : list (Z * RemoteKeyCapture)) h :
  held_after h ((fun x => release_effect time (key_target x.2) (Keyboard x.1 KeyReleased)) <$> l) =
  MkHeld (h_contacts h) (drop_all (h_keys h) l) (h_buttons h) (h_gestures h) (h_scroll h) (h_focus h).
Proof. revert h. induction l as [|t l IH]; intros h; [by destruct h|]. cbn in *. unfold held_after in IH. by rewrite IH. Qed.
Lemma gesture_kind_cancelled k : gesture_kind (cancelled k) = k.
Proof. by destruct k. Qed.
Lemma hold_gestured time (l : list (PointerGestureKind * ClientInputTarget)) h :
  held_after h ((fun x => release_effect time x.2 (PointerGestureEvent (cancelled x.1))) <$> l) =
  MkHeld (h_contacts h) (h_keys h) (h_buttons h) (filter (fun x => x.1 ∉ l.*1) (h_gestures h)) (h_scroll h) (h_focus h).
Proof.
  revert h. induction l as [|y l IH]; intros h; cbn [fmap list_fmap held_after foldl].
  - destruct h as [c k b g sc f]. cbn. f_equal. induction g as [|x g IHg]; [done|]. rewrite filter_cons_True by (cbn; apply not_elem_of_nil). by f_equal.
  - unfold held_after in IH. rewrite IH. cbn. f_equal. assert (Hb : is_begin (cancelled y.1) = false) by (by destruct y.1).
    assert (He : is_end (cancelled y.1) = true) by (by destruct y.1). rewrite Hb, He, gesture_kind_cancelled.
    rewrite list_filter_filter. apply list_filter_iff. intros x. cbn. rewrite not_elem_of_cons. tauto.
Qed.
Lemma release_touch_tracks p s h : tracks s h -> tracks (release_touch p s).1 (held_after h (release_touch p s).2).
Proof.
  intros []. unfold release_touch, retire. cbn. rewrite hold_touched, left_contacts_retain. split; cbn; try done. by rewrite track_contacts0.
Qed.
Lemma release_buttons_tracks p s h : tracks s h -> tracks (release_buttons p s).1 (held_after h (release_buttons p s).2).
Proof.
  intros []. unfold release_buttons. cbn. rewrite hold_clicked. split; cbn; try done. rewrite track_buttons0.
  apply (drop_matched fst (fun x => given_up p x.1)).
Qed.
Lemma release_keys_tracks p s h : tracks s h -> tracks (release_keys p s).1 (held_after h (release_keys p s).2).
Proof.
  intros []. unfold release_keys. cbn. rewrite hold_typed. split; cbn; try done. rewrite track_keys0.
  apply (drop_matched key_target (fun x => given_up p (key_target x))).
Qed.
Lemma release_gestures_tracks p s h : tracks s h -> tracks (release_gestures p s).1 (held_after h (release_gestures p s).2).
Proof.
  intros []. unfold release_gestures. cbn. rewrite hold_gestured. split; cbn; try done.
  intros x [Hk Hx%track_gestures0]%list_elem_of_filter. apply list_elem_of_filter. split; [|done]. cbn in Hk |- *. apply not_true_is_false.
  intros Hp. apply Hk. apply list_elem_of_fmap. exists x. split; [done|]. apply list_elem_of_filter. by split.
Qed.
Lemma release_scroll_tracks p s h : tracks s h -> tracks (release_scroll p s).1 (held_after h (release_scroll p s).2).
Proof.
  intros []. unfold release_scroll. destruct (finger_scroll s) as [x|] eqn:Hx; [|by split; cbn; rewrite ?Hx].
  destruct (given_up p _); [|by split; cbn; rewrite ?Hx]. by split.
Qed.
Lemma release_focus_tracks source p s h : tracks s h -> tracks (release_focus source p s).1 (held_after h (release_focus source p s).2).
Proof. intros []. unfold release_focus. destruct (is_some_and _ _); by split. Qed.
Lemma release_effects_tracks source p s h : tracks s h ->
  tracks (release_effects source p s).1 (held_after h (release_effects source p s).2).
Proof.
  intros H1%(release_touch_tracks p). unfold release_effects. destruct (release_touch p s) as [s1 e1] eqn:E.
  rewrite ?E in H1. clear E. cbn [fst snd] in H1. apply (release_buttons_tracks p) in H1.
  destruct (release_buttons p s1) as [s2 e2] in H1 |- *. apply (release_keys_tracks p) in H1. cbn [fst snd] in H1.
  destruct (release_keys p s2) as [s3 e3] in H1 |- *. apply (release_gestures_tracks p) in H1. cbn [fst snd] in H1.
  destruct (release_gestures p s3) as [s4 e4] in H1 |- *. apply (release_scroll_tracks p) in H1. cbn [fst snd] in H1.
  destruct (release_scroll p s4) as [s5 e5] in H1 |- *. apply (release_focus_tracks source p) in H1. cbn [fst snd] in H1.
  destruct (release_focus source p s5) as [s6 e6] in H1 |- *. cbn [fst snd] in *. by rewrite !held_after_app.
Qed.
(** Every target the ledger knows. *)
Record knows_only (P : ClientSurfaceId -> Prop) s : Prop := {
  only_contacts : forall id t, contacts (touch s) !! id = Some t -> P (target_surface t);
  only_waiting : forall t, t ∈ pending (touch s) -> P (target_surface t);
  only_keys : forall k c, keys s !! k = Some c -> P (target_surface (key_target c));
  only_buttons : forall b x, held_buttons s !! b = Some x -> P (target_surface x.1);
  only_gestures : forall x, x ∈ gestures s -> P (target_surface x.2);
  only_scroll : forall x, finger_scroll s = Some x -> P (target_surface (scroll_target x));
  only_focus : forall sf, keyboard_focus s = Some sf -> P sf;
}.
Lemma knows_only_default P : knows_only P RemoteInputState_default.
Proof. split; cbn; intros *; rewrite ?lookup_empty; try done; by intros ?%elem_of_nil. Qed.
Lemma knows_only_mono (P Q : ClientSurfaceId -> Prop) s : (forall sf, P sf -> Q sf) -> knows_only P s -> knows_only Q s.
Proof. intros HPQ []. split; eauto. Qed.
Lemma tracks_only P s h : tracks s h -> knows_only P s -> all_held P h.
Proof.
  intros [] []. split.
  - intros id t. rewrite track_contacts0. apply only_contacts0.
  - intros k t. rewrite track_keys0, lookup_fmap. intros (c & Hc & ->)%fmap_Some. by eapply only_keys0.
  - intros b t. rewrite track_buttons0, lookup_fmap. intros (c & Hc & ->)%fmap_Some. by eapply only_buttons0.
  - intros x Hx%track_gestures0. by apply only_gestures0.
  - intros t. rewrite track_scroll0. intros (c & Hc & ->)%fmap_Some. by eapply only_scroll0.
  - intros sf. rewrite track_focus0. apply only_focus0.
Qed.
(** What the ledger knows after a release. *)
Lemma release_effects_state source p s : (release_effects source p s).1 =
  MkRemoteInput (retire p (touch s)).1
    (filter (fun x => given_up p (key_target x.2) = false) (keys s))
    (filter (fun x => given_up p x.2.1 = false) (held_buttons s))
    (filter (fun x => given_up p x.2 = false) (gestures s))
    (if is_some_and (finger_scroll s) (fun x => given_up p (scroll_target x)) then None else finger_scroll s)
    (if is_some_and (keyboard_focus s) p then None else keyboard_focus s) (last_time s).
Proof.
  unfold release_effects, release_touch, release_buttons, release_keys, release_gestures, release_scroll, release_focus.
  destruct s as [g k b ge sc f n]. cbn. destruct sc as [x|]; cbn; [destruct (given_up p (scroll_target x)); cbn|]; by destruct (is_some_and f p).
Qed.
Lemma release_effects_knows source P p s : knows_only P s ->
  knows_only (fun sf => P sf /\ p sf = false) (release_effects source p s).1.
Proof.
  intros []. rewrite release_effects_state. split; cbn [touch keys held_buttons gestures finger_scroll keyboard_focus].
  - intros id t [? ?]%retire_contacts. by eauto.
  - intros t [? ?]%retire_pending. by eauto.
  - intros k c [? ?]%map_lookup_filter_Some. by eauto.
  - intros b x [? ?]%map_lookup_filter_Some. by eauto.
  - intros x [? ?]%list_elem_of_filter. by eauto.
  - intros x. destruct (finger_scroll s) as [y|] eqn:Hy; cbn; [|done]. unfold given_up. destruct (p _) eqn:Hp; [done|].
    intros [= <-]. by eauto.
  - intros sf. destruct (keyboard_focus s) as [y|] eqn:Hy; cbn; [|done]. destruct (p y) eqn:Hp; [done|]. intros [= <-]. by eauto.
Qed.
(** Observing adds at most the target of the record, or the surface that takes the focus. *)
Lemma observe_touch_knows P t te (g : TouchLedger) : P (target_surface t) ->
  (forall id u, contacts g !! id = Some u -> P (target_surface u)) -> (forall u, u ∈ pending g -> P (target_surface u)) ->
  let g' := (observe t te g).1 in
  (forall id u, contacts g' !! id = Some u -> P (target_surface u)) /\ (forall u, u ∈ pending g' -> P (target_surface u)).
Proof.
  intros Ht Hc Hp. unfold observe. destruct (negb _); [done|]. cbn. split.
  - intros id u. destruct te as [id' ?|id' ?|id'| |]; cbn; try apply Hc.
    + intros [[_ <-]|[_ ?]]%lookup_insert_Some; [done|by eapply Hc].
    + intros [_ ?]%lookup_delete_Some. by eapply Hc.
    + intros [? _]%map_lookup_filter_Some. by eapply Hc.
  - intros u. unfold pending_after. destruct (is_closing te).
    + intros [_ ?]%list_elem_of_filter. by apply Hp.
    + case_bool_decide; [apply Hp|]. rewrite elem_of_app, list_elem_of_singleton. intros [?| ->]; [by apply Hp|done].
Qed.
Lemma observe_plain_knows P i s : P (target_surface (input_target i)) -> knows_only P s -> knows_only P (observe_plain i s).
Proof.
  intros Ht []. unfold observe_plain. destruct (input_event i) as [q r|q|q b st|q axis|g|k st|te|txt]; try by split.
  - split; cbn; try done. intros b x. rewrite lookup_fmap. intros (y & Hy & ->)%fmap_Some. unfold follow_position.
    case_bool_decide; cbn; by eauto.
  - destruct st; split; cbn; try done.
    + intros b' x [[_ <-]|[_ ?]]%lookup_insert_Some; [done|by eauto].
    + intros b' x [_ ?]%lookup_delete_Some. by eauto.
  - unfold observe_axis. destruct (scroll_source axis); try by split. destruct (phase axis); split; cbn; try done.
    + by intros x [= <-].
    + intros x (y & Hy & ->)%fmap_Some. cbn. by eauto.
  - unfold observe_gesture. destruct (is_begin g); [|destruct (is_end g)]; split; cbn; try done.
    + intros x. rewrite elem_of_app, list_elem_of_singleton. intros [?| ->]; [by eauto|done].
    + intros x [_ ?]%list_elem_of_filter. by eauto.
  - destruct st; split; cbn; try done.
    + intros b' x [[_ <-]|[_ ?]]%lookup_insert_Some; [done|by eauto].
    + intros b' x [_ ?]%lookup_delete_Some. by eauto.
Qed.
Lemma set_last_time_knows P x s : knows_only P s -> knows_only P (set_last_time x s).
Proof. by intros []. Qed.
Lemma observe_input_knows P i s : P (target_surface (input_target i)) -> knows_only P s -> knows_only P (observe_input i s).1.
Proof.
  intros Ht H. pose proof (observe_plain_knows P i _ Ht (set_last_time_knows P (input_time i) s H)) as Hp.
  unfold observe_input. destruct (input_event i) as [| | | | |k st|te|]; try done.
  - destruct st; try done. destruct (accepts_input _ _ _); [by apply set_last_time_knows|done].
  - destruct H. destruct (observe_touch_knows P (input_target i) te (touch s)) as [H1 H2]; [done..|].
    destruct (observe (input_target i) te (touch s)) as [g b]. by split.
Qed.
Lemma observe_request_knows P r s : (forall f sf, r = FocusRequest f -> focus_surface f = Some sf -> P sf) ->
  knows_only P s -> knows_only P (observe_request r s).
Proof.
  intros Hf []. destruct r as [|f|]; cbn; try by split. case_bool_decide; split; cbn; try done; try (intros sf ?; by eapply Hf).
  intros k c. rewrite lookup_fmap. intros (y & Hy & ->)%fmap_Some. cbn. by eauto.
Qed.
End Followed.

(** ** Over a life *)
Inductive input_op :=
  | Took (input : ClientInputEvent)
  | Asked (request : ClientRequest)
  | GaveUp (should_release : ClientSurfaceId -> bool).
Section Life.
Context {key_order : HashOrder Z RemoteKeyCapture} {button_order : HashOrder Z (ClientInputTarget * option InputPosition)}.
Context (source : ClientSourceId).
(** The ledger, and the effects that went to the host: accepted input, requests, releases. *)
Definition input_step (x : RemoteInputState * list ClientAdapterEffect) (op : input_op) : RemoteInputState * list ClientAdapterEffect :=
  match op with
  | Took i => let '(s, accepted) := observe_input i x.1 in (s, if accepted : bool then x.2 ++ [InputEffect i] else x.2)
  | Asked r => (observe_request r x.1, x.2 ++ [RequestEffect r])
  | GaveUp p => let '(s, es) := release_effects source p x.1 in (s, x.2 ++ es)
  end.
Definition input_run (ops : list input_op) : RemoteInputState * list ClientAdapterEffect :=
  foldl input_step (RemoteInputState_default, []) ops.
Definition in_order (es : list ClientAdapterEffect) : Prop := forall l e k, es = l ++ e :: k -> fits (held_after nothing l) e.
Lemma in_order_snoc es e : in_order es -> fits (held_after nothing es) e -> in_order (es ++ [e]).
Proof.
  intros Hes He l x k H. destruct (decide (k = [])) as [->|Hk].
  - by apply app_inj_tail in H as [-> ->].
  - destruct (exists_last Hk) as (k' & y & ->). rewrite app_comm_cons, app_assoc in H. apply app_inj_tail in H as [-> ->]. by eapply Hes.
Qed.
Lemma in_order_app es k : in_order es -> Forall (fun e => forall h, fits h e) k -> in_order (es ++ k).
Proof.
  intros Hes Hk. revert es Hes. induction Hk as [|e k He _ IH]; intros es Hes; [by rewrite app_nil_r|].
  rewrite (cons_middle e es k), app_assoc. apply IH. by apply in_order_snoc.
Qed.
Lemma release_effects_fit p s : Forall (fun e => forall h, fits h e) (release_effects source p s).2.
Proof.
  unfold release_effects, release_touch, release_buttons, release_keys, release_gestures. destruct (retire p (touch s)) as [g ts].
  destruct (release_scroll p _) as [s5 e5] eqn:H5. destruct (release_focus source p s5) as [s6 e6] eqn:H6. cbn.
  repeat (apply Forall_app; split); try (apply Forall_fmap, list.Forall_true; by intros x).
  - unfold release_scroll in H5. cbn in H5. destruct (finger_scroll s); [destruct (given_up p _)|]; injection H5 as _ <-; by repeat constructor.
  - unfold release_focus in H6. destruct (is_some_and _ _); injection H6 as _ <-; by repeat constructor.
Qed.
Lemma input_run_snoc ops op : input_run (ops ++ [op]) = input_step (input_run ops) op.
Proof. unfold input_run. by rewrite foldl_app. Qed.
Lemma input_run_ok ops : tracks (input_run ops).1 (held_after nothing (input_run ops).2) /\ in_order (input_run ops).2.
Proof.
  induction ops as [|op ops IH] using rev_ind; [split; [apply tracks_default|]; by intros [] ? ?|].
  rewrite input_run_snoc. destruct IH as [Ht Ho]. destruct op as [i|r|p]; cbn [input_step fst snd].
  - pose proof (observe_input_tracks i _ _ Ht) as H. destruct (observe_input i _) as [s [|]]; cbn [fst snd] in *; [|done].
    destruct H as [Hf H]. rewrite held_after_app. split; [exact H|by apply in_order_snoc].
  - rewrite held_after_app. split; [by apply observe_request_tracks|]. by apply in_order_snoc.
  - pose proof (release_effects_tracks source p _ _ Ht) as H. pose proof (release_effects_fit p (input_run ops).1) as Hf.
    destruct (release_effects source p _) as [s es]. cbn [fst snd] in *. rewrite held_after_app. split; [done|by apply in_order_app].
Qed.
(** What is on no released surface stays. *)
Record stays (p : ClientSurfaceId -> bool) (h h' : Held) : Prop := {
  stay_contacts : forall id t, h_contacts h !! id = Some t -> p (target_surface t) = false -> h_contacts h' !! id = Some t;
  stay_keys : forall k t, h_keys h !! k = Some t -> p (target_surface t) = false -> h_keys h' !! k = Some t;
  stay_buttons : forall b t, h_buttons h !! b = Some t -> p (target_surface t) = false -> h_buttons h' !! b = Some t;
  stay_scroll : forall t, h_scroll h = Some t -> p (target_surface t) = false -> h_scroll h' = Some t;
  stay_focus : forall sf, h_focus h = Some sf -> p sf = false -> h_focus h' = Some sf;
}.
Lemma release_stays p s s' h h' : s' = (release_effects source p s).1 -> tracks s h -> tracks s' h' -> stays p h h'.
Proof.
  rewrite release_effects_state. intros -> [] []. cbn in *. split.
  - rewrite track_contacts0, track_contacts1. intros id t ? ?. by apply retire_contacts.
  - rewrite track_keys0, track_keys1. intros k t. rewrite !lookup_fmap. intros (c & Hc & ->)%fmap_Some Hp.
    apply fmap_Some. exists c. split; [|done]. by apply map_lookup_filter_Some.
  - rewrite track_buttons0, track_buttons1. intros k t. rewrite !lookup_fmap. intros (c & Hc & ->)%fmap_Some Hp.
    apply fmap_Some. exists c. split; [|done]. by apply map_lookup_filter_Some.
  - rewrite track_scroll0, track_scroll1. intros t (x & Hx & ->)%fmap_Some Hp. rewrite Hx. cbn. unfold given_up. by rewrite Hp.
  - rewrite track_focus0, track_focus1. intros sf Hx Hp. rewrite Hx. cbn. by rewrite Hp.
Qed.

(** C28 (remote-input). The ledger of a peer's input is exact. In every history of input,
    requests and releases, the host, which sees only the effects, holds the contacts, keys,
    buttons, finger scroll and focus the ledger says it does, and no gesture the ledger does
    not know; every effect fits what the host holds then: a key repeats only where it is
    held, a contact moves or is lifted only where it went down. Giving up any set of surfaces
    leaves nothing held on them, and the contacts, keys, buttons, scroll and focus on others
    as they were. *)
Theorem remote_input_exact (ops : list input_op) (p : ClientSurfaceId -> bool) :
  let '(s, es) := input_run ops in
  let h := held_after nothing es in
  tracks s h /\ in_order es /\
  let h' := held_after h (release_effects source p s).2 in
  all_held (fun sf => p sf = false) h' /\ stays p h h'.
Proof.
  destruct (input_run_ok ops) as [Ht Ho]. destruct (input_run ops) as [s es]. cbn in *.
  pose proof (release_effects_tracks source p _ _ Ht) as H'. split; [done|]. split; [done|]. split.
  - eapply tracks_only; [done|]. eapply (knows_only_mono (fun sf => True /\ p sf = false)); [by intros ? []|].
    apply release_effects_knows. by split.
  - by eapply release_stays.
Qed.
End Life.
