(* ===== verification/SourceRelay.v ===== *)
(** * The source's relay ([weld-hoist-core/src/relay.rs], [SourceRelayAdapter])

    The relay decides which surfaces of this machine a peer sees and which of the peer's
    messages reach them. It keeps the latest role, label, commit and cursor of every surface
    it observes, the surfaces mapped for the peer with their sessions, and the input the peer
    holds ([RemoteInput]). The port behind it is an interface; the access authority is shared
    with the administrator ([Access]), who may revoke the peer's session at any time. Logging
    is left out, with the age of an unanswered cursor update. *)

From S2P Require Import Prelude.
From S2P Require Import Effects.
From S2P Require Import OrdMap.
From S2P Require Import Ids.
From S2P Require Import Surface.
From S2P Require Import Input.
From S2P Require Import Access.
From S2P Require Import GamepadCapture.
From S2P Require Import Commit.
From S2P Require Import RemoteInput.

(** ** What the relay and its port exchange *)
Definition GAMEPAD_SESSION : HoistSessionId := MkHoistSessionId 0.
Inductive SourcePortCommand (Cu : Type) :=
  | GamepadCommand (status : GamepadStatus)
  | FocusClearedCommand
  | MapCommand (session : HoistSessionId) (surface : ClientSurfaceId)
  | SurfaceCommand (session : HoistSessionId) (event : ClientSurfaceEvent ClientBufferLease)
  | CursorCommand (session : HoistSessionId) (surface : ClientSurfaceId) (cursor : Cu) (sequence : Z)
  | WithdrawCommand (session : HoistSessionId) (surface : ClientSurfaceId)
  | RetireUpstreamBuffer (buffer : ClientBufferId).
Arguments GamepadCommand {Cu}. Arguments FocusClearedCommand {Cu}. Arguments MapCommand {Cu}. Arguments SurfaceCommand {Cu}.
Arguments CursorCommand {Cu}. Arguments WithdrawCommand {Cu}. Arguments RetireUpstreamBuffer {Cu}.
(** [HoistSourcePort] *)
Class HoistSourcePort (P Cu : Type) := {
  port_deadline : P -> option instant;
  port_presentation : ClientSurfaceId -> ClientPresentationClaim -> P -> P * (ClientPresentationClaim + error);
  ready : P -> bool;
  port_submit : SourcePortCommand Cu -> P -> P * (unit + error);
  port_poll : P -> P * (list DestinationEnvelope + error);
  port_accept : DestinationEnvelope -> P -> P * (unit + error);
  port_progress : P -> P * (unit + error);
  port_effects_drained : P -> P;
  port_disconnect : P -> P;
}.

(** ** State *)
Record CachedSurface (Cu : Type) := MkCached {
  cached_role : option ClientSurfaceRole;
  cached_metadata : option ClientSurfaceMetadata;
  sent_metadata : option ClientSurfaceMetadata;
  cached_commit : option (ClientSurfaceState ClientBufferLease);
  cached_cursor : option Cu;
  sent_cursor : option Cu;
}.
Arguments MkCached {Cu}. Arguments cached_role {Cu}. Arguments cached_metadata {Cu}. Arguments sent_metadata {Cu}.
Arguments cached_commit {Cu}. Arguments cached_cursor {Cu}. Arguments sent_cursor {Cu}.
Definition CachedSurface_default {Cu} : CachedSurface Cu := MkCached None None None None None None.
Record CursorInFlight := MkCursorInFlight {
  cursor_session : HoistSessionId;
  cursor_surface : ClientSurfaceId;
  cursor_sequence : Z;
}.
Inductive SourceAdmission := Manual | AllToplevels.
#[export] Instance SourceAdmission_eq_dec : EqDecision SourceAdmission.
Proof. solve_decision. Defined.

Section SourceRelay.
Context {P Cu W D : Type} `{EqDecision Cu} {hoist_port : HoistSourcePort P Cu} {host : GamepadHost W D}.
Context {cache_order : HashOrder ClientSurfaceId (CachedSurface Cu)} {session_order : HashOrder ClientSurfaceId HoistSessionId}
  {claim_order : HashOrder ClientSurfaceId ClientPresentationClaim}
  {key_order : HashOrder Z RemoteKeyCapture} {button_order : HashOrder Z (ClientInputTarget * option InputPosition)}.
Abbreviation command := (SourcePortCommand Cu).
Abbreviation CachedSurface := (CachedSurface Cu).
Abbreviation Event := (ClientSurfaceEvent ClientBufferLease).
(** [authority] is what the permits of all sessions are kept in; [access] names the relay's
    own. [submitted] is what was handed to the port, kept for the theorems. *)
Record SourceRelayAdapter := MkSourceRelay {
  access : option Z;
  authority : AccessAuthority;
  gamepad : GamepadSource D;
  gamepad_host : W;
  upstream_source : ClientSourceId;
  cache : gmap ClientSurfaceId CachedSurface;
  mappings : gmap ClientSurfaceId HoistSessionId;
  effects : list ClientAdapterEffect;
  failed : bool;
  remote_input : RemoteInputState;
  port : P;
  pending_cursors : list ClientSurfaceId;
  pending_maps : gmap ClientSurfaceId HoistSessionId;
  cursor_in_flight : option CursorInFlight;
  next_cursor_sequence : option Z;
  admission : SourceAdmission;
  next_session : option Z;
  admission_started : bool;
  input_started : bool;
  presentations : gmap ClientSurfaceId ClientPresentationClaim;
  presentation_updates : list (ClientSurfaceId * ClientPresentationClaim);
  submitted : list command;
}.
Definition set_access (x : option Z) (s : SourceRelayAdapter) : SourceRelayAdapter :=
  MkSourceRelay x (authority s) (gamepad s) (gamepad_host s) (upstream_source s) (cache s) (mappings s) (effects
    s) (failed s) (remote_input s) (port s) (pending_cursors s) (pending_maps s) (cursor_in_flight s)
    (next_cursor_sequence s) (admission s) (next_session s) (admission_started s) (input_started s) (presentations
    s) (presentation_updates s) (submitted s).
Definition set_authority (x : AccessAuthority) (s : SourceRelayAdapter) : SourceRelayAdapter :=
  MkSourceRelay (access s) x (gamepad s) (gamepad_host s) (upstream_source s) (cache s) (mappings s) (effects s)
    (failed s) (remote_input s) (port s) (pending_cursors s) (pending_maps s) (cursor_in_flight s)
    (next_cursor_sequence s) (admission s) (next_session s) (admission_started s) (input_started s) (presentations
    s) (presentation_updates s) (submitted s).
Definition set_cache (x : gmap ClientSurfaceId CachedSurface) (s : SourceRelayAdapter) : SourceRelayAdapter :=
  MkSourceRelay (access s) (authority s) (gamepad s) (gamepad_host s) (upstream_source s) x (mappings s) (effects
    s) (failed s) (remote_input s) (port s) (pending_cursors s) (pending_maps s) (cursor_in_flight s)
    (next_cursor_sequence s) (admission s) (next_session s) (admission_started s) (input_started s) (presentations
    s) (presentation_updates s) (submitted s).
Definition set_mappings (x : gmap ClientSurfaceId HoistSessionId) (s : SourceRelayAdapter) : SourceRelayAdapter :=
  MkSourceRelay (access s) (authority s) (gamepad s) (gamepad_host s) (upstream_source s) (cache s) x (effects s)
    (failed s) (remote_input s) (port s) (pending_cursors s) (pending_maps s) (cursor_in_flight s)
    (next_cursor_sequence s) (admission s) (next_session s) (admission_started s) (input_started s) (presentations
    s) (presentation_updates s) (submitted s).
Definition set_effects (x : list ClientAdapterEffect) (s : SourceRelayAdapter) : SourceRelayAdapter :=
  MkSourceRelay (access s) (authority s) (gamepad s) (gamepad_host s) (upstream_source s) (cache s) (mappings s) x
    (failed s) (remote_input s) (port s) (pending_cursors s) (pending_maps s) (cursor_in_flight s)
    (next_cursor_sequence s) (admission s) (next_session s) (admission_started s) (input_started s) (presentations
    s) (presentation_updates s) (submitted s).
Definition set_failed (x : bool) (s : SourceRelayAdapter) : SourceRelayAdapter :=
  MkSourceRelay (access s) (authority s) (gamepad s) (gamepad_host s) (upstream_source s) (cache s) (mappings s)
    (effects s) x (remote_input s) (port s) (pending_cursors s) (pending_maps s) (cursor_in_flight s)
    (next_cursor_sequence s) (admission s) (next_session s) (admission_started s) (input_started s) (presentations
    s) (presentation_updates s) (submitted s).
Definition set_remote_input (x : RemoteInputState) (s : SourceRelayAdapter) : SourceRelayAdapter :=
  MkSourceRelay (access s) (authority s) (gamepad s) (gamepad_host s) (upstream_source s) (cache s) (mappings s)
    (effects s) (failed s) x (port s) (pending_cursors s) (pending_maps s) (cursor_in_flight s)
    (next_cursor_sequence s) (admission s) (next_session s) (admission_started s) (input_started s) (presentations
    s) (presentation_updates s) (submitted s).
Definition set_port (x : P) (s : SourceRelayAdapter) : SourceRelayAdapter :=
  MkSourceRelay (access s) (authority s) (gamepad s) (gamepad_host s) (upstream_source s) (cache s) (mappings s)
    (effects s) (failed s) (remote_input s) x (pending_cursors s) (pending_maps s) (cursor_in_flight s)
    (next_cursor_sequence s) (admission s) (next_session s) (admission_started s) (input_started s) (presentations
    s) (presentation_updates s) (submitted s).
Definition set_pending_cursors (x : list ClientSurfaceId) (s : SourceRelayAdapter) : SourceRelayAdapter :=
  MkSourceRelay (access s) (authority s) (gamepad s) (gamepad_host s) (upstream_source s) (cache s) (mappings s)
    (effects s) (failed s) (remote_input s) (port s) x (pending_maps s) (cursor_in_flight s) (next_cursor_sequence
    s) (admission s) (next_session s) (admission_started s) (input_started s) (presentations s)
    (presentation_updates s) (submitted s).
Definition set_pending_maps (x : gmap ClientSurfaceId HoistSessionId) (s : SourceRelayAdapter) : SourceRelayAdapter :=
  MkSourceRelay (access s) (authority s) (gamepad s) (gamepad_host s) (upstream_source s) (cache s) (mappings s)
    (effects s) (failed s) (remote_input s) (port s) (pending_cursors s) x (cursor_in_flight s)
    (next_cursor_sequence s) (admission s) (next_session s) (admission_started s) (input_started s) (presentations
    s) (presentation_updates s) (submitted s).
Definition set_cursor_in_flight (x : option CursorInFlight) (s : SourceRelayAdapter) : SourceRelayAdapter :=
  MkSourceRelay (access s) (authority s) (gamepad s) (gamepad_host s) (upstream_source s) (cache s) (mappings s)
    (effects s) (failed s) (remote_input s) (port s) (pending_cursors s) (pending_maps s) x (next_cursor_sequence s)
    (admission s) (next_session s) (admission_started s) (input_started s) (presentations s) (presentation_updates
    s) (submitted s).
Definition set_next_cursor_sequence (x : option Z) (s : SourceRelayAdapter) : SourceRelayAdapter :=
  MkSourceRelay (access s) (authority s) (gamepad s) (gamepad_host s) (upstream_source s) (cache s) (mappings s)
    (effects s) (failed s) (remote_input s) (port s) (pending_cursors s) (pending_maps s) (cursor_in_flight s) x
    (admission s) (next_session s) (admission_started s) (input_started s) (presentations s) (presentation_updates
    s) (submitted s).
Definition set_next_session (x : option Z) (s : SourceRelayAdapter) : SourceRelayAdapter :=
  MkSourceRelay (access s) (authority s) (gamepad s) (gamepad_host s) (upstream_source s) (cache s) (mappings s)
    (effects s) (failed s) (remote_input s) (port s) (pending_cursors s) (pending_maps s) (cursor_in_flight s)
    (next_cursor_sequence s) (admission s) x (admission_started s) (input_started s) (presentations s)
    (presentation_updates s) (submitted s).
Definition set_admission_started (x : bool) (s : SourceRelayAdapter) : SourceRelayAdapter :=
  MkSourceRelay (access s) (authority s) (gamepad s) (gamepad_host s) (upstream_source s) (cache s) (mappings s)
    (effects s) (failed s) (remote_input s) (port s) (pending_cursors s) (pending_maps s) (cursor_in_flight s)
    (next_cursor_sequence s) (admission s) (next_session s) x (input_started s) (presentations s)
    (presentation_updates s) (submitted s).
Definition set_input_started (x : bool) (s : SourceRelayAdapter) : SourceRelayAdapter :=
  MkSourceRelay (access s) (authority s) (gamepad s) (gamepad_host s) (upstream_source s) (cache s) (mappings s)
    (effects s) (failed s) (remote_input s) (port s) (pending_cursors s) (pending_maps s) (cursor_in_flight s)
    (next_cursor_sequence s) (admission s) (next_session s) (admission_started s) x (presentations s)
    (presentation_updates s) (submitted s).
Definition set_presentations (x : gmap ClientSurfaceId ClientPresentationClaim) (s : SourceRelayAdapter) : SourceRelayAdapter :=
  MkSourceRelay (access s) (authority s) (gamepad s) (gamepad_host s) (upstream_source s) (cache s) (mappings s)
    (effects s) (failed s) (remote_input s) (port s) (pending_cursors s) (pending_maps s) (cursor_in_flight s)
    (next_cursor_sequence s) (admission s) (next_session s) (admission_started s) (input_started s) x
    (presentation_updates s) (submitted s).
Definition set_presentation_updates (x : list (ClientSurfaceId * ClientPresentationClaim)) (s : SourceRelayAdapter) : SourceRelayAdapter :=
  MkSourceRelay (access s) (authority s) (gamepad s) (gamepad_host s) (upstream_source s) (cache s) (mappings s)
    (effects s) (failed s) (remote_input s) (port s) (pending_cursors s) (pending_maps s) (cursor_in_flight s)
    (next_cursor_sequence s) (admission s) (next_session s) (admission_started s) (input_started s) (presentations
    s) x (submitted s).
Definition set_submitted (x : list command) (s : SourceRelayAdapter) : SourceRelayAdapter :=
  MkSourceRelay (access s) (authority s) (gamepad s) (gamepad_host s) (upstream_source s) (cache s) (mappings s)
    (effects s) (failed s) (remote_input s) (port s) (pending_cursors s) (pending_maps s) (cursor_in_flight s)
    (next_cursor_sequence s) (admission s) (next_session s) (admission_started s) (input_started s) (presentations
    s) (presentation_updates s) x.
Definition set_gamepad (g : GamepadSource D) (w : W) (s : SourceRelayAdapter) : SourceRelayAdapter :=
  MkSourceRelay (access s) (authority s) g w (upstream_source s) (cache s) (mappings s) (effects s) (failed s)
    (remote_input s) (port s) (pending_cursors s) (pending_maps s) (cursor_in_flight s) (next_cursor_sequence s)
    (admission s) (next_session s) (admission_started s) (input_started s) (presentations s) (presentation_updates
    s) (submitted s).

Abbreviation relay := SourceRelayAdapter.

(** [SourceRelayAdapter::with_admission], [new], [with_gamepad] *)
Definition with_admission (a : AccessAuthority) (w : W) (source : ClientSourceId) (p : P) (x : SourceAdmission) : relay :=
  MkSourceRelay None a (GamepadCapture.new false) w source ∅ ∅ [] false RemoteInputState_default p [] ∅ None (Some 1) x (Some 1)
    false false ∅ [] [].
Definition SourceRelayAdapter_new (a : AccessAuthority) (w : W) (source : ClientSourceId) (p : P) : relay :=
  with_admission a w source p Manual.
Definition with_gamepad (provider : bool) (s : relay) : relay := set_gamepad (GamepadCapture.new provider) (gamepad_host s) s.
(** [fork] *)
Definition without_sent (c : CachedSurface) : CachedSurface :=
  MkCached (cached_role c) (cached_metadata c) None (cached_commit c) (cached_cursor c) None.
Definition fork (p : P) (s : relay) : relay :=
  set_cache (without_sent <$> cache s) (SourceRelayAdapter_new (authority s) (gamepad_host s) (upstream_source s) p).

(** ** Giving up *)
Definition reset_scale (sf : ClientSurfaceId) : ClientAdapterEffect :=
  RequestEffect (SurfaceRequest (MkSurfaceRequest sf (SetPreferredScale None))).
Definition release_of (sf : ClientSurfaceId) : ClientSurfaceId * ClientPresentationClaim := (sf, Ids.Release).
Definition released (p : ClientSurfaceId -> bool) (s : relay) : relay :=
  let '(i, es) := release_effects (upstream_source s) p (remote_input s) in
  set_effects (effects s ++ es) (set_remote_input i s).
(** [release_input] *)
Definition release_input (owns : ClientSurfaceId -> bool) (s : relay) : relay := released owns s.
(** [fail] *)
Definition end_access (s : relay) : relay :=
  match access s with Some id => set_authority (end_session id (authority s)) s | None => s end.
Definition stop_gamepad (s : relay) : relay :=
  let '(g, w, _) := GamepadCapture.stop Stopped (gamepad s) (gamepad_host s) in set_gamepad g w s.
Definition release_claims (s : relay) : relay :=
  set_presentation_updates (presentation_updates s ++ ((release_of ∘ fst) <$> visit (presentations s))) (set_presentations ∅ s).
(** The relay stops, then gives up what the peer held. *)
Definition quit (s : relay) : relay :=
  let s := release_claims (stop_gamepad (end_access (set_failed true s))) in
  let s := set_pending_maps ∅ (set_pending_cursors [] (set_cursor_in_flight None s)) in
  set_port (port_disconnect (port s)) s.
Definition farewell (s : relay) : list ClientAdapterEffect :=
  InputDisconnected (upstream_source s) :: ((reset_scale ∘ fst) <$> visit (mappings s)).
Definition fail (s : relay) : relay :=
  if failed s then s
  else let s := released (fun _ => true) (quit s) in set_cache ∅ (set_effects (effects s ++ farewell s) s).
(** [check_access] *)
Definition revoked (s : relay) : bool := is_some_and (access s) (fun id => negb (is_authorized id (authority s))).
Definition check_access (s : relay) : relay * bool :=
  if failed s then (s, false)
  else if revoked s then (fail (set_presentation_updates [] (set_effects [] s)), false)
  else (s, true).
(** [install_access], [with_access] *)
Definition install_access (id : Z) (s : relay) : relay :=
  if bool_decide (is_Some (access s)) || input_started s || bool_decide (mappings s <> ∅) then fail s
  else set_access (Some id) s.

(** ** Commands of the port *)
Definition submit (c : command) (s : relay) : relay * (unit + error) :=
  let '(p, r) := port_submit c (port s) in (set_submitted (submitted s ++ [c]) (set_port p s), r).
Definition submit_or_fail (c : command) (s : relay) : relay :=
  match submit c s with (s, inl _) => s | (s, inr _) => fail s end.
(** [gamepad_status] *)
Definition gamepad_status (status : option GamepadStatus) (s : relay) : relay :=
  match status with Some status => submit_or_fail (GamepadCommand status) s | None => s end.
Definition with_gamepad_source (f : GamepadSource D -> W -> GamepadSource D * W * option GamepadStatus) (s : relay) : relay :=
  let '(g, w, status) := f (gamepad s) (gamepad_host s) in gamepad_status status (set_gamepad g w s).
(** [send_surface] *)
Definition send_surface (session : HoistSessionId) (e : Event) (s : relay) : relay :=
  let '(s, ok) := check_access s in if ok : bool then submit_or_fail (SurfaceCommand session e) s else s.
Definition update_cached (f : CachedSurface -> CachedSurface) (sf : ClientSurfaceId) (s : relay) : relay :=
  set_cache (alter f sf (cache s)) s.
Definition cached (sf : ClientSurfaceId) (s : relay) : CachedSurface := default CachedSurface_default (cache s !! sf).
Definition role_of (sf : ClientSurfaceId) (s : relay) : option ClientSurfaceRole := c ← cache s !! sf; cached_role c.
Definition is_popup_of (owner : ClientSurfaceId) (c : CachedSurface) : bool :=
  match cached_role c with Some (Popup p) => bool_decide (popup_owner p = owner) | _ => false end.
Definition popups_of (owner : ClientSurfaceId) (s : relay) : list ClientSurfaceId :=
  fst <$> filter (fun x => is_popup_of owner x.2 = true) (visit (cache s)).
Definition is_mapped (c : CachedSurface) : bool := is_some_and (cached_commit c) mapped.

(** ** Presentation *)
(** [set_presentation]. A popup follows its owner. *)
Fixpoint set_presentation_from (fuel : nat) (claim : ClientPresentationClaim) (s : relay) (sf : ClientSurfaceId) : relay :=
  match fuel with
  | O => s
  | S fuel =>
      let '(s, ok) := check_access s in
      if negb ok || bool_decide (mappings s !! sf = None) then s
      else if bool_decide (presentations s !! sf = Some claim) then s
      else
        let s := set_presentations (<[sf := claim]> (presentations s)) s in
        match port_presentation sf claim (port s) with
        | (p, inr _) => fail (set_port p s)
        | (p, inl accepted) =>
            let s := set_presentation_updates (presentation_updates s ++ [(sf, accepted)]) (set_port p s) in
            foldl (set_presentation_from fuel claim) s (popups_of sf s)
        end
  end.
Definition set_presentation (sf : ClientSurfaceId) (claim : ClientPresentationClaim) (s : relay) : relay :=
  set_presentation_from (S (size (mappings s))) claim s sf.
(** [release_presentation] *)
Definition release_presentation (sf : ClientSurfaceId) (s : relay) : relay :=
  if bool_decide (is_Some (presentations s !! sf)) then
    set_presentation_updates (presentation_updates s ++ [release_of sf]) (set_presentations (delete sf (presentations s)) s)
  else s.

(** ** Cursors *)
(** [send_next_cursor]: one update is out at a time. *)
Definition due_cursor (sf : ClientSurfaceId) (s : relay) : option (HoistSessionId * Cu) :=
  match mappings s !! sf, cached_cursor (cached sf s) with
  | Some session, Some cursor =>
      if bool_decide (sent_cursor (cached sf s) = Some cursor) then None else Some (session, cursor)
  | _, _ => None
  end.
Definition mark_cursor (cursor : option Cu) (c : CachedSurface) : CachedSurface :=
  MkCached (cached_role c) (cached_metadata c) (sent_metadata c) (cached_commit c) (cached_cursor c) cursor.
Definition send_cursor (sf : ClientSurfaceId) (session : HoistSessionId) (cursor : Cu) (s : relay) : relay :=
  match next_cursor_sequence s with
  | None => fail s
  | Some sequence =>
      let s := update_cached (mark_cursor (Some cursor)) sf (set_next_cursor_sequence (checked_add sequence 1) s) in
      let s := set_cursor_in_flight (Some (MkCursorInFlight session sf sequence)) s in
      submit_or_fail (CursorCommand session sf cursor sequence) s
  end.
Fixpoint send_first_cursor (waiting : list ClientSurfaceId) (s : relay) : relay :=
  match waiting with
  | [] => set_pending_cursors [] s
  | sf :: waiting =>
      match due_cursor sf s with
      | None => send_first_cursor waiting s
      | Some (session, cursor) => send_cursor sf session cursor (set_pending_cursors waiting s)
      end
  end.
Definition send_next_cursor (s : relay) : relay :=
  let '(s, ok) := check_access s in
  if negb ok || bool_decide (is_Some (cursor_in_flight s)) then s else send_first_cursor (pending_cursors s) s.
(** [queue_cursor] *)
Definition queue_cursor (sf : ClientSurfaceId) (s : relay) : relay :=
  if bool_decide (mappings s !! sf = None) || failed s then s
  else
    let waiting := if bool_decide (sf ∈ pending_cursors s) then pending_cursors s else pending_cursors s ++ [sf] in
    send_next_cursor (set_pending_cursors waiting s).
Definition forget_cursor (sf : ClientSurfaceId) (s : relay) : relay :=
  set_pending_cursors (filter (fun x => x <> sf) (pending_cursors s)) s.

(** ** Mapping *)
(** [map] *)
Definition may_map (sf : ClientSurfaceId) (s : relay) : bool :=
  ready (port s) && bool_decide (ClientSurfaceId_source sf = upstream_source s) && bool_decide (mappings s !! sf = None).
Definition first_claim (sf : ClientSurfaceId) (s : relay) : ClientPresentationClaim :=
  default (Active None)
    (match role_of sf s with Some (Popup p) => presentations s !! popup_owner p | _ => None end).
Definition note_sent (m : ClientSurfaceMetadata) (c : CachedSurface) : CachedSurface :=
  MkCached (cached_role c) (cached_metadata c) (Some m) (cached_commit c) (cached_cursor c) (sent_cursor c).
(** The cached state of a surface, sent when it is mapped. *)
Definition replay (session : HoistSessionId) (sf : ClientSurfaceId) (s : relay) : relay :=
  match cache s !! sf with
  | None => s
  | Some c =>
      let s := match cached_role c with Some r => send_surface session (MkClientSurfaceEvent sf (Role r)) s | None => s end in
      let s := match cached_metadata c with
               | Some m => send_surface session (MkClientSurfaceEvent sf (Metadata m)) (update_cached (note_sent m) sf s)
               | None => s
               end in
      match cached_commit c with Some c => send_surface session (MkClientSurfaceEvent sf (Commit c)) s | None => s end
  end.
(** The popups that are mapped with their owner. *)
Definition popups_to_map (owner : ClientSurfaceId) (s : relay) : list ClientSurfaceId :=
  fst <$> filter (fun x => (bool_decide (admission s = Manual) || is_mapped x.2) && is_popup_of owner x.2 = true) (visit (cache s)).
(** What [map] does once the role is known: the surface alone, and its popups to go on with. *)
Definition map_one (session : HoistSessionId) (sf : ClientSurfaceId) (s : relay) : relay * list ClientSurfaceId :=
  let s := set_mappings (<[sf := session]> (mappings s)) s in
  let s := set_presentation sf (first_claim sf s) s in
  match submit (MapCommand session sf) s with
  | (s, inr _) => (fail s, [])
  | (s, inl _) =>
      let s := queue_cursor sf (replay session sf s) in
      (s, popups_to_map sf s)
  end.
Fixpoint map_from (fuel : nat) (session : HoistSessionId) (s : relay) (sf : ClientSurfaceId) : relay :=
  match fuel with
  | O => s
  | S fuel =>
      let '(s, ok) := check_access s in
      if negb ok || negb (may_map sf s) then s
      else
        match role_of sf s with
        | None => set_pending_maps (<[sf := default session (pending_maps s !! sf)]> (pending_maps s)) s
        | Some role =>
            if match role with
               | Toplevel _ => true
               | Popup p => bool_decide (is_Some (mappings s !! popup_owner p))
               | Layer _ => false
               end
            then let '(s, popups) := map_one session sf s in foldl (map_from fuel session) s popups
            else s
        end
  end.
Definition map (session : HoistSessionId) (sf : ClientSurfaceId) (s : relay) : relay :=
  map_from (S (size (cache s))) session s sf.
(** [admit_surface] *)
Definition admit_surface (s : relay) (sf : ClientSurfaceId) : relay :=
  if bool_decide (admission s <> AllToplevels) || failed s || negb (ready (port s)) || bool_decide (is_Some (mappings s !! sf)) then s
  else
    match cache s !! sf with
    | None => s
    | Some c =>
        if negb (is_mapped c) then s
        else
          match cached_role c with
          | Some (Toplevel _) =>
              match next_session s with
              | None => fail s
              | Some next => map (MkHoistSessionId next) sf (set_next_session (checked_add next 1) s)
              end
          | Some (Popup p) => match mappings s !! popup_owner p with Some session => map session sf s | None => s end
          | _ => s
          end
    end.
(** [unmap] *)
Definition clear_sent (c : CachedSurface) : CachedSurface :=
  MkCached (cached_role c) (cached_metadata c) None (cached_commit c) (cached_cursor c) None.
Definition mapped_popups_of (owner : ClientSurfaceId) (s : relay) : list ClientSurfaceId :=
  filter (fun sf => is_popup_of owner (cached sf s) = true) (fst <$> visit (mappings s)).
(** The surface is off, its input given up and its scale reset, before the port is told. *)
Definition take_off (sf : ClientSurfaceId) (s : relay) : relay :=
  let s := forget_cursor sf (release_presentation sf (set_mappings (delete sf (mappings s)) s)) in
  let s := released (fun x => bool_decide (x = sf)) (update_cached clear_sent sf s) in
  set_effects (effects s ++ [reset_scale sf]) s.
Definition unmap_one (session : HoistSessionId) (sf : ClientSurfaceId) (s : relay) : relay * list ClientSurfaceId :=
  match submit (WithdrawCommand session sf) (take_off sf s) with
  | (s, inr _) => (fail s, [])
  | (s, inl _) => (s, mapped_popups_of sf s)
  end.
Fixpoint unmap_from (fuel : nat) (s : relay) (sf : ClientSurfaceId) : relay :=
  match fuel with
  | O => s
  | S fuel =>
      let s := set_pending_maps (delete sf (pending_maps s)) s in
      match mappings s !! sf with
      | None => s
      | Some session => let '(s, popups) := unmap_one session sf s in foldl (unmap_from fuel) s popups
      end
  end.
Definition unmap (s : relay) (sf : ClientSurfaceId) : relay := unmap_from (S (size (mappings s))) s sf.

(** ** Observing the machine's surfaces *)
(** [desktop_surface] *)
Definition is_layer (r : option ClientSurfaceRole) : bool := match r with Some (Layer _) => true | _ => false end.
Definition desktop_surface (sf : ClientSurfaceId) (s : relay) : bool :=
  match role_of sf s with
  | Some (Layer _) => true
  | Some (Popup p) => is_layer (role_of (popup_owner p) s)
  | _ => false
  end.
Definition set_role (r : ClientSurfaceRole) (c : CachedSurface) : CachedSurface :=
  MkCached (Some r) (cached_metadata c) (sent_metadata c) (cached_commit c) (cached_cursor c) (sent_cursor c).
Definition set_metadata (m : ClientSurfaceMetadata) (c : CachedSurface) : CachedSurface :=
  MkCached (cached_role c) (Some m) (sent_metadata c) (cached_commit c) (cached_cursor c) (sent_cursor c).
Definition set_commit (x : option (ClientSurfaceState ClientBufferLease)) (c : CachedSurface) : CachedSurface :=
  MkCached (cached_role c) (cached_metadata c) (sent_metadata c) x (cached_cursor c) (sent_cursor c).
Definition set_cursor (x : option Cu) (c : CachedSurface) : CachedSurface :=
  MkCached (cached_role c) (cached_metadata c) (sent_metadata c) (cached_commit c) x (sent_cursor c).
(** [cache.entry(source).or_default()], changed. *)
Definition put_cached (f : CachedSurface -> CachedSurface) (sf : ClientSurfaceId) (s : relay) : relay :=
  set_cache (<[sf := f (cached sf s)]> (cache s)) s.
Definition observe_metadata (sf : ClientSurfaceId) (m : ClientSurfaceMetadata) (s : relay) : relay :=
  let s := put_cached (set_metadata m) sf s in
  match mappings s !! sf with
  | Some session =>
      if bool_decide (sent_metadata (cached sf s) = Some m) then s
      else send_surface session (MkClientSurfaceEvent sf (Metadata m)) (put_cached (note_sent m) sf s)
  | None => s
  end.
(** A layer surface and its popups keep no content. *)
Definition drop_content (sf x : ClientSurfaceId) (c : CachedSurface) : CachedSurface :=
  if bool_decide (x = sf) || is_popup_of sf c then set_commit None c else c.
Definition observe_role (sf : ClientSurfaceId) (r : ClientSurfaceRole) (s : relay) : relay :=
  let s := put_cached (set_role r) sf s in
  if desktop_surface sf s then
    let s := unmap s sf in set_cache (map_imap (fun x c => Some (drop_content sf x c)) (cache s)) s
  else
    match pending_maps s !! sf with
    | Some session => map session sf (set_pending_maps (delete sf (pending_maps s)) s)
    | None =>
        match mappings s !! sf with
        | Some session => send_surface session (MkClientSurfaceEvent sf (Role r)) s
        | None =>
            match admission s, r with
            | Manual, Popup p =>
                match mappings s !! popup_owner p with Some session => map session sf s | None => admit_surface s sf end
            | _, _ => admit_surface s sf
            end
        end
    end.
Definition carried (c : ClientSurfaceState ClientBufferLease) (x : CachedSurface) : CachedSurface :=
  set_commit (Some (match cached_commit x with Some previous => carry_unobserved_content_from previous c | None => c end)) x.
Definition no_cursor (x : CachedSurface) : CachedSurface :=
  MkCached (cached_role x) (cached_metadata x) (sent_metadata x) (cached_commit x) None None.
Definition observe_commit (sf : ClientSurfaceId) (c : ClientSurfaceState ClientBufferLease) (s : relay) : relay :=
  if desktop_surface sf s then s
  else
    let s := if mapped c then s else forget_cursor sf (put_cached no_cursor sf s) in
    let s := put_cached (carried c) sf s in
    match mappings s !! sf with
    | Some session => send_surface session (MkClientSurfaceEvent sf (Commit c)) s
    | None => admit_surface s sf
    end.
Definition let_go (sf : ClientSurfaceId) (s : relay) : relay :=
  let s := released (fun x => bool_decide (x = sf)) (release_presentation sf s) in set_mappings (delete sf (mappings s)) s.
Definition observe_destroyed (sf : ClientSurfaceId) (s : relay) : relay :=
  let s := set_pending_maps (delete sf (pending_maps s)) s in
  let s := foldl unmap s (popups_of sf s) in
  let session := mappings s !! sf in
  let s := let_go sf s in
  let s := match session with Some session => send_surface session (MkClientSurfaceEvent sf Destroyed) s | None => s end in
  forget_cursor sf (set_cache (delete sf (cache s)) s).
(** [observe] *)
Definition observe (e : Event) (s : relay) : relay :=
  let '(s, ok) := check_access s in
  let sf := surface e in
  if negb ok || bool_decide (ClientSurfaceId_source sf <> upstream_source s) then s
  else
    match event_kind e with
    | Metadata m => observe_metadata sf m s
    | Role r => observe_role sf r s
    | Commit c => observe_commit sf c s
    | Interaction _ | StateRequest _ => match mappings s !! sf with Some session => send_surface session e s | None => s end
    | Destroyed => observe_destroyed sf s
    end.

(** ** The peer's messages *)
(** [request_surface] and [destination_message_surface] *)
Definition surface_of_request (r : ClientRequest) : option ClientSurfaceId :=
  match r with
  | SurfaceRequest r => Some (request_surface r)
  | FocusRequest f => focus_surface f
  | ClearFocus => None
  end.
Definition destination_message_surface (m : DestinationMessage) : option ClientSurfaceId :=
  match m with
  | Request r => surface_of_request r
  | Input i => Some (target_surface (target i))
  | _ => None
  end.
Definition is_focus (m : DestinationMessage) : bool := match m with Request (FocusRequest _) => true | _ => false end.
(** An authorized message, taken up. *)
Definition take_request (r : ClientRequest) (s : relay) : relay :=
  match r with
  | SurfaceRequest (MkSurfaceRequest _ (SetBitratePreference _)) => s
  | SurfaceRequest (MkSurfaceRequest sf (SetPresentation rate)) =>
      set_presentation sf (match rate with Some rate => Active (Some rate) | None => Paused end) s
  | _ => set_effects (effects s ++ [RequestEffect r]) (set_remote_input (observe_request r (remote_input s)) s)
  end.
Definition take_input (i : InputRecord) (s : relay) : relay :=
  let '(ledger, accepted) := observe_input (into_client_event i) (remote_input s) in
  let s := set_remote_input ledger s in
  if accepted : bool then set_effects (effects s ++ [InputEffect (into_client_event i)]) s else s.
Definition take_message (m : DestinationMessage) (s : relay) : relay :=
  match m with
  | Request r => take_request r s
  | Input i => take_input i s
  | _ => s
  end.
Definition deliver (env : DestinationEnvelope) (s : relay) : relay * bool :=
  if match message env with Input i => negb (accepts_input (target i) (event i) (remote_input s)) | _ => false end then (s, true)
  else
    match port_accept env (port s) with
    | (p, inr _) => (fail (set_port p s), false)
    | (p, inl _) => (take_message (message env) (set_port p s), true)
    end.
(** The session of the surface decides. *)
Definition authorize (env : DestinationEnvelope) (sf : ClientSurfaceId) (s : relay) : relay * bool :=
  match mappings s !! sf with
  | Some x => if bool_decide (x = session env) then deliver env s else (fail s, false)
  | None =>
      if is_focus (message env) && existsb (fun x => bool_decide (x.2 = session env)) (visit (mappings s)) then
        match submit FocusClearedCommand s with
        | (s, inl _) => (s, true)
        | (s, inr _) => (fail s, false)
        end
      else (s, true)
  end.
Definition accept_focus (env : DestinationEnvelope) (f : ClientFocusRequest) (s : relay) : relay * bool :=
  if bool_decide (focus_source f <> upstream_source s) then (fail s, false)
  else
    match match focus_surface f with Some sf => Some sf | None => keyboard_focus (remote_input s) end with
    | None => (s, true)
    | Some sf => authorize env sf s
    end.
Definition accept_gamepad (now : instant) (env : DestinationEnvelope) (r : GamepadRequest) (s : relay) : relay * bool :=
  if bool_decide (session env <> GAMEPAD_SESSION) || negb (ready (port s)) then (fail s, false)
  else
    let s := with_gamepad_source (GamepadCapture.expire now) s in
    if failed s then (s, false)
    else let s := with_gamepad_source (GamepadCapture.accept r now) s in (s, negb (failed s)).
Definition accept_cursor (env : DestinationEnvelope) (sf : ClientSurfaceId) (sequence : Z) (s : relay) : relay * bool :=
  match cursor_in_flight s with
  | None => if is_some_and (next_cursor_sequence s) (fun next => next <=? sequence) then (fail s, false) else (s, true)
  | Some x =>
      if sequence <? cursor_sequence x then (s, true)
      else if bool_decide ((session env, sf, sequence) = (cursor_session x, cursor_surface x, cursor_sequence x)) then
        let s := send_next_cursor (set_cursor_in_flight None s) in (s, negb (failed s))
      else (fail s, false)
  end.
(** [accept_destination] *)
Definition accept_destination (now : instant) (env : DestinationEnvelope) (s : relay) : relay * bool :=
  let '(s, ok) := check_access s in
  if negb ok then (s, false)
  else
    match message env with
    | Gamepad r => accept_gamepad now env r s
    | CursorReceived sf sequence => accept_cursor env sf sequence s
    | Request (FocusRequest f) => accept_focus env f s
    | m => match destination_message_surface m with Some sf => authorize env sf s | None => deliver env s end
    end.

(** ** The adapter's interface *)
(** [poll] and [drain_events]; [clock n] is the n-th reading. *)
Definition connect_input (s : relay) : relay :=
  if input_started s then s else set_effects (effects s ++ [InputConnected (upstream_source s)]) (set_input_started true s).
Definition start_admission (s : relay) : relay :=
  if bool_decide (admission s = AllToplevels) && negb (admission_started s) && ready (port s) then
    let s := set_admission_started true s in foldl admit_surface s (fst <$> visit (cache s))
  else s.
Fixpoint accept_all (clock : nat -> instant) (l : list DestinationEnvelope) (s : relay) : relay :=
  match l with
  | [] => s
  | env :: l =>
      match accept_destination (clock 0%nat) env s with
      | (s, true) => accept_all (fun n => clock (S n)) l s
      | (s, false) => s
      end
  end.
Definition progress (s : relay) : relay :=
  let '(s, ok) := check_access s in
  if ok : bool then
    match port_progress (port s) with
    | (p, inl _) => set_port p s
    | (p, inr _) => fail (set_port p s)
    end
  else s.
Definition advertise (s : relay) : relay :=
  let '(g, status) := GamepadCapture.advertise (gamepad s) in gamepad_status status (set_gamepad g (gamepad_host s) s).
Definition poll (clock : nat -> instant) (s : relay) : relay :=
  let '(s, ok) := check_access s in
  if negb ok then s
  else
    let s := with_gamepad_source (GamepadCapture.expire (clock 0%nat)) s in
    if failed s then s
    else
      match port_poll (port s) with
      | (p, inr _) => fail (set_port p s)
      | (p, inl envelopes) =>
          let s := set_port p s in
          let s := if ready (port s) then advertise (connect_input s) else s in
          if failed s then s
          else progress (accept_all (fun n => clock (S n)) envelopes (start_admission s))
      end.
(** [next_deadline] *)
Definition earlier (a b : option instant) : option instant :=
  match a, b with
  | Some a, Some b => Some (Z.min a b)
  | Some a, None => Some a
  | None, b => b
  end.
Definition next_deadline (s : relay) : option instant :=
  if failed s then None else earlier (port_deadline (port s)) (GamepadCapture.source_deadline (gamepad s)).
(** [observe_cursor_update] *)
Definition observe_cursor_update (sf : ClientSurfaceId) (cursor : Cu) (s : relay) : relay :=
  let '(s, ok) := check_access s in
  if negb ok || bool_decide (ClientSurfaceId_source sf <> upstream_source s) then s
  else
    let s := put_cached id sf s in
    if bool_decide (cached_cursor (cached sf s) = Some cursor) then s
    else queue_cursor sf (put_cached (set_cursor (Some cursor)) sf s).
(** [apply_command]: an access session, or a command of the policy. *)
Inductive AdapterCommand :=
  | InstallAccess (id : Z)
  | MapSource (session : HoistSessionId) (surface : ClientSurfaceId)
  | UnmapSource (surface : ClientSurfaceId).
Definition apply_command (c : AdapterCommand) (s : relay) : relay :=
  match c with
  | InstallAccess id => install_access id s
  | MapSource session sf => if bool_decide (admission s = Manual) then map session sf s else s
  | UnmapSource sf => if bool_decide (admission s = Manual) then unmap s sf else s
  end.
(** [drain_effects], [drain_presentation_claims], [observe_retired_buffer] *)
Definition drain_effects (s : relay) : relay * list ClientAdapterEffect :=
  let s := (check_access s).1 in (set_port (port_effects_drained (port s)) (set_effects [] s), effects s).
Definition drain_presentation_claims (s : relay) : relay * list (ClientSurfaceId * ClientPresentationClaim) :=
  let s := (check_access s).1 in (set_presentation_updates [] s, presentation_updates s).
Definition observe_retired_buffer (b : ClientBufferId) (s : relay) : relay :=
  let '(s, ok) := check_access s in
  if ok && bool_decide (buffer_source b = upstream_source s) then submit_or_fail (RetireUpstreamBuffer b) s else s.
(** [remote_keyboard_target] *)
Definition remote_keyboard_target (s : relay) : option ClientSurfaceId := keyboard_focus (remote_input s).
(** [Drop for SourceRelayAdapter] *)
Definition drop_relay (s : relay) : AccessAuthority := authority (end_access s).
End SourceRelay.
