(* ===== verification/SourceMoves.v ===== *)
(** * How the source's relay moves

    Every operation of the relay is a sequence of moves, each of which leaves most of the
    state alone; a property of the relay's histories is a property every move keeps. *)

From S2P Require Import Prelude.
From S2P Require Import Effects.
From S2P Require Import OrdMap.
From S2P Require Import Ids.
From S2P Require Import Surface.
From S2P Require Import Input.
From S2P Require Import Access.
From S2P Require Import GamepadCapture.
From S2P Require Import Commit.
From S2P Require Import RemoteInput.
From S2P Require Import SourceRelay.

Section SourceMoves.
Context {P Cu W D : Type} `{EqDecision Cu} {hoist_port : HoistSourcePort P Cu} {host : GamepadHost W D}.
Context {cache_order : HashOrder ClientSurfaceId (CachedSurface Cu)} {session_order : HashOrder ClientSurfaceId HoistSessionId}
  {claim_order : HashOrder ClientSurfaceId ClientPresentationClaim}
  {key_order : HashOrder Z RemoteKeyCapture} {button_order : HashOrder Z (ClientInputTarget * option InputPosition)}.
Abbreviation relay := (SourceRelayAdapter (P := P) (Cu := Cu) (W := W) (D := D)).
Implicit Types (s : relay) (sf : ClientSurfaceId) (x : HoistSessionId).

(** ** Moves *)
(** What the port does besides taking commands and disconnecting. *)
Inductive port_step : P -> P -> Prop :=
  | port_presents sf claim p : port_step p (port_presentation sf claim p).1
  | port_polls p : port_step p (port_poll p).1
  | port_accepts env p : port_step p (port_accept env p).1
  | port_progresses p : port_step p (port_progress p).1.
(** What most of the code leaves alone. *)
Record quiet s s' : Prop := {
  quiet_input : remote_input s' = remote_input s;
  quiet_effects : effects s' = effects s;
  quiet_mappings : mappings s' = mappings s;
  quiet_failed : failed s' = failed s;
  quiet_submitted : submitted s' = submitted s;
  quiet_source : upstream_source s' = upstream_source s;
  quiet_access : access s' = access s;
  quiet_authority : authority s' = authority s;
  quiet_port : rtc port_step (port s) (port s');
}.
#[export] Instance quiet_po : PreOrder quiet.
Proof. split; [by split|]. intros a b c [] []. split; try congruence. by etrans. Qed.
Lemma stepped_quiet s p s' : port_step (port s) p -> quiet (set_port p s) s' -> quiet s s'.
Proof. intros Hp []. split; [done..|]. eapply rtc_l; [exact Hp|done]. Qed.
Lemma set_port_quiet s p : port_step (port s) p -> quiet s (set_port p s).
Proof. intros Hp. by apply (stepped_quiet s p). Qed.
Definition cleared s : relay := set_presentation_updates [] (set_effects [] s).
Inductive calm : relay -> relay -> Prop :=
  | calm_quiet s s' : quiet s s' -> calm s s'
  | calm_fail s : failed s = false -> calm s (fail s)
  | calm_revoked s : failed s = false -> revoked s = true -> calm s (fail (cleared s)).
Definition calmly : relay -> relay -> Prop := rtc calm.
(** What may be said of a mapped surface. *)
Definition sayable s (c : SourcePortCommand Cu) : Prop :=
  match c with
  | SurfaceCommand x e => mappings s !! surface e = Some x /\
      match event_kind e with Destroyed => False | Role r => is_layer (Some r) = false | _ => True end
  | CursorCommand x sf _ _ => mappings s !! sf = Some x
  | MapCommand _ _ | WithdrawCommand _ _ => False
  | _ => True
  end.
Inductive move : relay -> relay -> Prop :=
  | move_calm s s' : calm s s' -> move s s'
  | move_says s c : sayable s c -> move s (submit c s).1
  | move_released s p : move s (released p s)
  | move_maps s s' sf x : failed s = false -> mappings s !! sf = None -> ClientSurfaceId_source sf = upstream_source s ->
      calmly (set_mappings (<[sf := x]> (mappings s)) s) s' -> move s (submit (MapCommand x sf) s').1
  | move_unmaps s sf x : mappings s !! sf = Some x -> move s (submit (WithdrawCommand x sf) (take_off sf s)).1
  | move_destroys s sf x : failed s = false -> mappings s !! sf = Some x ->
      move s (submit (SurfaceCommand x (MkClientSurfaceEvent sf Destroyed)) (let_go sf s)).1
  | move_goes s s' sf : calmly (let_go sf s) s' -> mappings s !! sf = None \/ failed s' = true -> move s s'
  | move_asks s r : failed s = false -> revoked s = false ->
      (forall sf, surface_of_request r = Some sf -> is_Some (mappings s !! sf)) ->
      move s (set_effects (effects s ++ [RequestEffect r]) (set_remote_input (observe_request r (remote_input s)) s))
  | move_takes s i : failed s = false -> revoked s = false -> is_Some (mappings s !! target_surface (target i)) -> move s (take_input i s)
  | move_connects s : failed s = false -> revoked s = false -> move s (set_effects (effects s ++ [InputConnected (upstream_source s)]) s)
  | move_installs s id : access s = None -> move s (set_access (Some id) s).
Definition moves : relay -> relay -> Prop := rtc move.
Lemma moves_calm s s' : calmly s s' -> moves s s'.
Proof. apply rtc_subrel. intros a b. apply move_calm. Qed.
Lemma calmly_quiet s s' : quiet s s' -> calmly s s'.
Proof. intros H. apply rtc_once. by apply calm_quiet. Qed.
Lemma moves_quiet s s' : quiet s s' -> moves s s'.
Proof. intros H. apply moves_calm. by apply calmly_quiet. Qed.
Lemma moves_once s s' : move s s' -> moves s s'.
Proof. apply rtc_once. Qed.
Lemma moves_foldl {A} (f : relay -> A -> relay) l s : (forall s a, moves s (f s a)) -> moves s (foldl f s l).
Proof. intros Hf. revert s. induction l as [|a l IH]; intros s; [constructor|]. cbn. etrans; [apply Hf|apply IH]. Qed.
Lemma calmly_foldl {A} (f : relay -> A -> relay) l s : (forall s a, calmly s (f s a)) -> calmly s (foldl f s l).
Proof. intros Hf. revert s. induction l as [|a l IH]; intros s; [constructor|]. cbn. etrans; [apply Hf|apply IH]. Qed.

(** ** What failing changes *)
Record failing s s' : Prop := {
  failing_mappings : mappings s' = mappings s;
  failing_submitted : submitted s' = submitted s;
  failing_source : upstream_source s' = upstream_source s;
  failing_access : access s' = access s;
  failing_failed : failed s = true -> failed s' = true;
}.
#[export] Instance failing_po : PreOrder failing.
Proof. split; [by split|]. intros a b c [] []. split; [congruence..|auto]. Qed.
Lemma released_fields p s :
  let s' := released p s in
  remote_input s' = (release_effects (upstream_source s) p (remote_input s)).1 /\
  effects s' = effects s ++ (release_effects (upstream_source s) p (remote_input s)).2 /\
  mappings s' = mappings s /\ failed s' = failed s /\ submitted s' = submitted s /\ upstream_source s' = upstream_source s /\
  access s' = access s /\ authority s' = authority s /\ port s' = port s.
Proof. unfold released. by destruct (release_effects _ _ _). Qed.
Lemma quit_fields s : let s' := quit s in
  remote_input s' = remote_input s /\ effects s' = effects s /\ mappings s' = mappings s /\ failed s' = true /\
  submitted s' = submitted s /\ upstream_source s' = upstream_source s /\ access s' = access s /\ port s' = port_disconnect (port s).
Proof.
  unfold quit, release_claims, stop_gamepad, end_access. cbn.
  destruct (access s) eqn:Ha; cbn; destruct (GamepadCapture.stop _ _ _) as [[g w] r]; cbn; by rewrite ?Ha.
Qed.
Lemma fail_fields s : failed s = false -> let s' := fail s in
  remote_input s' = (release_effects (upstream_source s) (fun _ => true) (remote_input s)).1 /\
  effects s' = effects s ++ (release_effects (upstream_source s) (fun _ => true) (remote_input s)).2 ++ farewell s /\
  mappings s' = mappings s /\ failed s' = true /\ submitted s' = submitted s /\ upstream_source s' = upstream_source s /\
  access s' = access s /\ port s' = port_disconnect (port s).
Proof.
  intros Hf. assert (H : fail s = let t := released (fun _ => true) (quit s) in set_cache ∅ (set_effects (effects t ++ farewell t) t)).
  { unfold fail. by rewrite Hf. }
  rewrite H. clear H. pose proof (quit_fields s) as (Q1 & Q2 & Q3 & Q4 & Q5 & Q6 & Q7 & Q8). revert Q1 Q2 Q3 Q4 Q5 Q6 Q7 Q8. generalize (quit s).
  intros q Q1 Q2 Q3 Q4 Q5 Q6 Q7 Q8. pose proof (released_fields (fun _ => true) q) as (R1 & R2 & R3 & R4 & R5 & R6 & R7 & _ & R8).
  revert R1 R2 R3 R4 R5 R6 R7 R8. generalize (released (fun _ => true) q). intros t R1 R2 R3 R4 R5 R6 R7 R8.
  unfold farewell. cbn. rewrite R1, R2, R3, R4, R5, R6, R7, R8, Q1, Q2, Q3, Q4, Q5, Q6, Q7, Q8, <- app_assoc. done.
Qed.
Lemma fail_failed s : failed (fail s) = true.
Proof. destruct (failed s) eqn:Hf; [by unfold fail; rewrite Hf|]. by apply fail_fields in Hf as (_&_&_&?&_). Qed.
Lemma fail_calmly s : calmly s (fail s).
Proof. destruct (failed s) eqn:Hf; [unfold fail; by rewrite Hf|]. apply rtc_once. by apply calm_fail. Qed.
Lemma calm_failing s s' : calm s s' -> failing s s'.
Proof.
  intros [a b []|a Hf|a Hf Hr]; [split; congruence| |].
  - apply fail_fields in Hf as (?&?&?&?&?&?&?&_). by split.
  - destruct (fail_fields (cleared a) Hf) as (?&?&?&?&?&?&?&_). by split.
Qed.
Lemma calmly_failing s s' : calmly s s' -> failing s s'.
Proof. induction 1 as [|a b c Hc _ IH]; [done|]. etrans; [by apply calm_failing|done]. Qed.

(** ** Operations are moves *)
Lemma check_access_calmly s : calmly s (check_access s).1.
Proof.
  unfold check_access. destruct (failed s) eqn:Hf; [constructor|]. destruct (revoked s) eqn:Hr; [|constructor].
  apply rtc_once. by apply calm_revoked.
Qed.
Lemma check_access_true s s' : check_access s = (s', true) -> s' = s /\ failed s = false /\ revoked s = false.
Proof. unfold check_access. destruct (failed s); [done|]. destruct (revoked s); [done|]. by intros [= <-]. Qed.
Lemma check_access_false s s' : check_access s = (s', false) -> failed s' = true.
Proof.
  unfold check_access. destruct (failed s) eqn:Hf; [by intros [= <-]|]. destruct (revoked s); [|done]. intros [= <-]. apply fail_failed.
Qed.
Lemma submit_failed c s : failed (submit c s).1 = failed s.
Proof. unfold submit. by destruct (port_submit _ _). Qed.
Lemma submit_or_fail_moves c s : sayable s c -> moves s (submit_or_fail c s).
Proof.
  intros Hc. unfold submit_or_fail. pose proof (move_says s c Hc) as Hm. destruct (submit c s) as [s1 [r|e]]; cbn in Hm; [by apply moves_once|].
  eapply rtc_l; [exact Hm|]. apply moves_calm. apply fail_calmly.
Qed.
Lemma gamepad_status_moves status s : moves s (gamepad_status status s).
Proof. destruct status; [by apply submit_or_fail_moves|constructor]. Qed.
Lemma with_gamepad_source_moves f s : moves s (with_gamepad_source f s).
Proof.
  unfold with_gamepad_source. destruct (f _ _) as [[g w] r]. etrans; [|apply gamepad_status_moves]. by apply moves_quiet.
Qed.
Lemma set_presentation_from_calmly fuel claim s sf : calmly s (set_presentation_from fuel claim s sf).
Proof.
  revert s sf. induction fuel as [|fuel IH]; intros s sf; [constructor|]. cbn. pose proof (check_access_calmly s) as Hc.
  destruct (check_access s) as [s1 ok]. cbn in Hc. etrans; [exact Hc|]. clear Hc. destruct (negb ok || _); [constructor|].
  case_bool_decide; [constructor|]. pose proof (port_presents sf claim (port s1)) as Hp. cbn in *. destruct (port_presentation _ _ _) as [p [c|e]].
  - etrans; [|by apply calmly_foldl]. by apply calmly_quiet, (stepped_quiet s1 p).
  - etrans; [|apply fail_calmly]. by apply calmly_quiet, (stepped_quiet s1 p).
Qed.
Lemma set_presentation_calmly sf claim s : calmly s (set_presentation sf claim s).
Proof. apply set_presentation_from_calmly. Qed.
Lemma release_presentation_quiet sf s : quiet s (release_presentation sf s).
Proof. unfold release_presentation. by case_bool_decide. Qed.
Lemma submit_quiet c s : mappings (submit c s).1 = mappings s /\ cache (submit c s).1 = cache s /\ upstream_source (submit c s).1 = upstream_source s.
Proof. unfold submit. by destruct (port_submit _ _). Qed.
Lemma fail_mappings s : mappings (fail s) = mappings s.
Proof. apply (failing_mappings _ _ (calmly_failing _ _ (fail_calmly s))). Qed.
Lemma check_access_mappings s : mappings (check_access s).1 = mappings s.
Proof. apply (failing_mappings _ _ (calmly_failing _ _ (check_access_calmly s))). Qed.
Lemma submit_or_fail_mappings c s : mappings (submit_or_fail c s) = mappings s.
Proof. unfold submit_or_fail. destruct (submit_quiet c s) as [H _]. destruct (submit c s) as [s1 [r|e]]; cbn in H; [done|by rewrite fail_mappings]. Qed.
Lemma send_surface_mappings x e s : mappings (send_surface x e s) = mappings s.
Proof.
  unfold send_surface. rewrite <- (check_access_mappings s). destruct (check_access s) as [s1 [|]]; cbn; [apply submit_or_fail_mappings|done].
Qed.
Lemma send_surface_moves x e s : (failed s = false -> sayable s (SurfaceCommand x e)) -> moves s (send_surface x e s).
Proof.
  intros He. unfold send_surface. destruct (check_access s) as [s1 [|]] eqn:Hc.
  - apply check_access_true in Hc as (-> & Hf & _). apply submit_or_fail_moves. by apply He.
  - replace s1 with (check_access s).1 by (by rewrite Hc). apply moves_calm, check_access_calmly.
Qed.
Lemma send_cursor_moves sf x cursor s : mappings s !! sf = Some x -> moves s (send_cursor sf x cursor s).
Proof.
  intros Hx. unfold send_cursor. destruct (next_cursor_sequence s); [|apply moves_calm, fail_calmly].
  etrans; [|by apply submit_or_fail_moves]. by apply moves_quiet.
Qed.
Lemma send_first_cursor_moves l s : moves s (send_first_cursor l s).
Proof.
  revert s. induction l as [|sf l IH]; intros s; cbn; [by apply moves_quiet|]. destruct (due_cursor sf s) as [[x cursor]|] eqn:Hd; [|apply IH].
  etrans; [|apply send_cursor_moves]; [by apply moves_quiet|]. unfold due_cursor in Hd. cbn. destruct (mappings s !! sf); [|done].
  repeat case_match; congruence.
Qed.
Lemma send_next_cursor_moves s : moves s (send_next_cursor s).
Proof.
  unfold send_next_cursor. pose proof (check_access_calmly s) as Hc. destruct (check_access s) as [s1 ok]. cbn in Hc.
  etrans; [by apply moves_calm|]. destruct (negb ok || _); [constructor|apply send_first_cursor_moves].
Qed.
Lemma queue_cursor_moves sf s : moves s (queue_cursor sf s).
Proof. unfold queue_cursor. destruct (_ || _); [constructor|]. etrans; [|apply send_next_cursor_moves]. by apply moves_quiet. Qed.

(** Mapping. *)
Definition steady s s' : Prop := failed s' = false -> failed s = false /\ cache s' = cache s /\ revoked s' = revoked s.
#[local] Instance steady_po : PreOrder steady.
Proof. split; [by intros a|]. intros a b c H1 H2 Hc. destruct (H2 Hc) as (Hb & E & F). destruct (H1 Hb) as (Ha & E' & F'). repeat split; congruence. Qed.
Lemma steady_fail s t : steady s (fail t).
Proof. intros H. by rewrite fail_failed in H. Qed.
Lemma steady_check s : steady s (check_access s).1.
Proof. unfold check_access. destruct (failed s); [done|]. destruct (revoked s); [apply steady_fail|done]. Qed.
Lemma set_presentation_from_steady fuel claim s sf : steady s (set_presentation_from fuel claim s sf).
Proof.
  revert s sf. induction fuel as [|fuel IH]; intros s sf; cbn; [done|]. pose proof (steady_check s) as Hc.
  destruct (check_access s) as [s1 ok]. etrans; [exact Hc|]. clear Hc. destruct (negb ok || _); [done|]. case_bool_decide; [done|].
  destruct (port_presentation _ _ _) as [p [c|e]]; [|apply steady_fail].
  set (l := popups_of sf _). set (t := set_presentation_updates _ _). assert (Ht : steady s1 t) by done. etrans; [exact Ht|]. clearbody l t.
  clear Ht. revert t. induction l as [|a l IHl]; intros t; cbn; [done|]. etrans; [apply IH|apply IHl].
Qed.
Lemma replay_moves x sf s : mappings s !! sf = Some x -> (failed s = false -> is_layer (role_of sf s) = false) -> moves s (replay x sf s).
Proof.
  intros Hx Hr. unfold replay. destruct (cache s !! sf) as [c|] eqn:Hc; [|constructor]. unfold role_of in Hr. rewrite Hc in Hr. cbn in Hr.
  set (s1 := match cached_role c with Some r => _ | None => s end).
  assert (H1 : moves s s1 /\ mappings s1 !! sf = Some x).
  { subst s1. destruct (cached_role c) as [r|]; [|by split; [constructor|]]. rewrite send_surface_mappings. split; [|done].
    apply send_surface_moves. intros Hf. split; [done|]. by apply Hr. }
  clearbody s1. destruct H1 as [M1 X1]. etrans; [exact M1|].
  set (s2 := match cached_metadata c with Some m => _ | None => s1 end).
  assert (H2 : moves s1 s2 /\ mappings s2 !! sf = Some x).
  { subst s2. destruct (cached_metadata c) as [r|]; [|by split; [constructor|]]. rewrite send_surface_mappings. split; [|done].
    etrans; [|by apply send_surface_moves]. by apply moves_quiet. }
  clearbody s2. destruct H2 as [M2 X2]. etrans; [exact M2|].
  destruct (cached_commit c); [|constructor]. by apply send_surface_moves.
Qed.
Lemma map_one_moves x sf s : failed s = false -> mappings s !! sf = None -> ClientSurfaceId_source sf = upstream_source s ->
  is_layer (role_of sf s) = false -> moves s (map_one x sf s).1.
Proof.
  intros Hf Hn Hu Hr. unfold map_one. set (s1 := set_mappings _ s).
  pose proof (set_presentation_calmly sf (first_claim sf s1) s1) as Hp.
  pose proof (set_presentation_from_steady (S (size (mappings s1))) (first_claim sf s1) s1 sf) as Hs.
  fold (set_presentation sf (first_claim sf s1) s1) in Hs. set (s2 := set_presentation _ _ s1) in *. clearbody s2.
  pose proof (move_maps s s2 sf x Hf Hn Hu Hp) as Hm. pose proof (submit_quiet (MapCommand x sf) s2) as (Hq & Hk & _).
  assert (Hx : mappings s2 !! sf = Some x).
  { rewrite (failing_mappings _ _ (calmly_failing _ _ Hp)). subst s1. cbn. apply lookup_insert_eq. }
  pose proof (submit_failed (MapCommand x sf) s2) as Hg.
  destruct (submit (MapCommand x sf) s2) as [s3 [r|e]]; cbn in *; (etrans; [by apply moves_once|]); [|apply moves_calm, fail_calmly].
  etrans; [|apply queue_cursor_moves]. apply replay_moves; [congruence|]. intros Hf3. rewrite Hf3 in Hg.
  destruct (Hs (eq_sym Hg)) as (_ & Hc & _). unfold role_of. rewrite Hk, Hc. exact Hr.
Qed.
Lemma map_from_moves fuel x s sf : moves s (map_from fuel x s sf).
Proof.
  revert s sf. induction fuel as [|fuel IH]; intros s sf; cbn; [constructor|]. pose proof (check_access_calmly s) as Hc.
  destruct (check_access s) as [s1 [|]] eqn:Hk; cbn in Hc; [|by apply moves_calm]. apply check_access_true in Hk as (-> & Hf & _). clear Hc.
  destruct (negb true || _) eqn:Hm; [constructor|]. cbn in Hm. apply negb_false_iff in Hm. unfold may_map in Hm.
  apply andb_true_iff in Hm as [[_ Hu%bool_decide_eq_true]%andb_true_iff Hn%bool_decide_eq_true].
  destruct (role_of sf s) as [r|] eqn:Hr; [|by apply moves_quiet].
  destruct (match r with Toplevel _ => true | Popup p => _ | Layer _ => false end) eqn:Hok; [|constructor].
  pose proof (map_one_moves x sf s Hf Hn Hu) as Hone. rewrite Hr in Hone. specialize (Hone ltac:(by destruct r)).
  destruct (map_one x sf s) as [s1 popups]. etrans; [exact Hone|]. by apply moves_foldl.
Qed.
Lemma map_moves x sf s : moves s (map x sf s).
Proof. apply map_from_moves. Qed.
Lemma admit_moves s sf : moves s (admit_surface s sf).
Proof.
  unfold admit_surface. destruct (_ || _ || _ || _); [constructor|]. destruct (cache s !! sf) as [c|]; [|constructor]. destruct (negb _); [constructor|].
  destruct (cached_role c) as [[|p|]|]; try constructor.
  - destruct (next_session s); [|apply moves_calm, fail_calmly]. etrans; [|apply map_moves]. by apply moves_quiet.
  - destruct (mappings s !! _); [apply map_moves|constructor].
Qed.

(** Unmapping. *)
Lemma take_off_fields sf s : mappings (take_off sf s) = delete sf (mappings s) /\ failed (take_off sf s) = failed s /\
  submitted (take_off sf s) = submitted s /\ upstream_source (take_off sf s) = upstream_source s /\ access (take_off sf s) = access s /\
  remote_input (take_off sf s) = (release_effects (upstream_source s) (fun y => bool_decide (y = sf)) (remote_input s)).1 /\
  effects (take_off sf s) = effects s ++ (release_effects (upstream_source s) (fun y => bool_decide (y = sf)) (remote_input s)).2 ++ [reset_scale sf] /\
  rtc port_step (port s) (port (take_off sf s)).
Proof.
  unfold take_off. set (t := update_cached clear_sent sf _).
  assert (Ht : quiet (set_mappings (delete sf (mappings s)) s) t).
  { subst t. etrans; [apply (release_presentation_quiet sf)|]. by split. }
  clearbody t. destruct Ht as [T1 T2 T3 T4 T5 T6 T7 T8 T9]. destruct (released_fields (fun y => bool_decide (y = sf)) t) as (R1 & R2 & R3 & R4 & R5 & R6 & R7 & _ & R9).
  cbn in *. rewrite R1, R2, R3, R4, R5, R6, R7, R9, T1, T2, T3, T4, T5, T6, T7, <- app_assoc. done.
Qed.
Lemma unmap_from_moves fuel s sf : moves s (unmap_from fuel s sf).
Proof.
  revert s sf. induction fuel as [|fuel IH]; intros s sf; cbn; [constructor|]. set (s1 := set_pending_maps _ s).
  assert (H1 : moves s s1) by (by apply moves_quiet). change (mappings s) with (mappings s1). etrans; [exact H1|]. clearbody s1. clear H1 s.
  destruct (mappings s1 !! sf) as [x|] eqn:Hx; [|constructor]. unfold unmap_one. pose proof (move_unmaps s1 sf x Hx) as Hm.
  destruct (submit _ _) as [s2 [r|e]]; cbn in Hm; (etrans; [by apply moves_once|]); [by apply moves_foldl|apply moves_calm, fail_calmly].
Qed.
Lemma unmap_moves s sf : moves s (unmap s sf).
Proof. apply unmap_from_moves. Qed.

(** Observing. *)
Lemma let_go_fields sf s : mappings (let_go sf s) = delete sf (mappings s) /\ failed (let_go sf s) = failed s /\
  submitted (let_go sf s) = submitted s /\ upstream_source (let_go sf s) = upstream_source s /\ access (let_go sf s) = access s /\
  remote_input (let_go sf s) = (release_effects (upstream_source s) (fun y => bool_decide (y = sf)) (remote_input s)).1 /\
  effects (let_go sf s) = effects s ++ (release_effects (upstream_source s) (fun y => bool_decide (y = sf)) (remote_input s)).2 /\
  authority (let_go sf s) = authority s /\ rtc port_step (port s) (port (let_go sf s)).
Proof.
  unfold let_go. pose proof (release_presentation_quiet sf s) as Ht. set (t := release_presentation sf s) in *. clearbody t.
  destruct Ht as [T1 T2 T3 T4 T5 T6 T7 T8 T9]. destruct (released_fields (fun y => bool_decide (y = sf)) t) as (R1 & R2 & R3 & R4 & R5 & R6 & R7 & R8 & R9).
  cbn in *. by rewrite R1, R2, R3, R4, R5, R6, R7, R8, R9, T1, T2, T3, T4, T5, T6, T7, T8.
Qed.
Lemma destroys_moves sf s : let session := mappings s !! sf in
  moves s (match session with Some x => send_surface x (MkClientSurfaceEvent sf Destroyed) (let_go sf s) | None => let_go sf s end).
Proof.
  cbn. destruct (mappings s !! sf) as [x|] eqn:Hx; [|by apply moves_once, (move_goes s _ sf); [constructor|left]].
  unfold send_surface. destruct (check_access (let_go sf s)) as [s1 [|]] eqn:Hc.
  - apply check_access_true in Hc as (-> & Hf & _). destruct (let_go_fields sf s) as (_ & E & _). rewrite E in Hf.
    unfold submit_or_fail. pose proof (move_destroys s sf x Hf Hx) as Hm.
    destruct (submit _ _) as [s2 [r|e]]; cbn in Hm; (etrans; [by apply moves_once|]); [constructor|apply moves_calm, fail_calmly].
  - apply moves_once, (move_goes s _ sf); [|right; by eapply check_access_false].
    replace s1 with (check_access (let_go sf s)).1 by (by rewrite Hc). apply check_access_calmly.
Qed.
Lemma observe_destroyed_moves sf s : moves s (observe_destroyed sf s).
Proof.
  unfold observe_destroyed. set (s1 := set_pending_maps _ s). assert (M1 : moves s s1) by (by apply moves_quiet). clearbody s1. etrans; [exact M1|].
  set (s2 := foldl unmap s1 _). assert (M2 : moves s1 s2) by (apply moves_foldl, unmap_moves). clearbody s2. etrans; [exact M2|].
  etrans; [apply (destroys_moves sf)|]. apply moves_quiet. by split.
Qed.
Lemma observe_metadata_moves sf m s : moves s (observe_metadata sf m s).
Proof.
  unfold observe_metadata. set (s1 := put_cached _ sf s). assert (M1 : moves s s1) by (by apply moves_quiet). clearbody s1. etrans; [exact M1|].
  destruct (mappings s1 !! sf) eqn:Hx; [|constructor]. case_bool_decide; [constructor|]. etrans; [|by apply send_surface_moves].
  by apply moves_quiet.
Qed.
Lemma role_of_put r sf s : role_of sf (put_cached (set_role r) sf s) = Some r.
Proof. unfold role_of, put_cached. cbn. by rewrite lookup_insert_eq. Qed.
Lemma observe_role_moves sf r s : moves s (observe_role sf r s).
Proof.
  unfold observe_role. pose proof (role_of_put r sf s) as Hr. set (s1 := put_cached _ sf s) in *. assert (M1 : moves s s1) by (by apply moves_quiet).
  clearbody s1. etrans; [exact M1|]. destruct (desktop_surface sf s1) eqn:Hd.
  { etrans; [apply unmap_moves|]. by apply moves_quiet. }
  destruct (pending_maps s1 !! sf); [etrans; [|apply map_moves]; by apply moves_quiet|].
  destruct (mappings s1 !! sf) eqn:Hx.
  - apply send_surface_moves. intros _. split; [done|]. unfold desktop_surface in Hd. rewrite Hr in Hd. by destruct r.
  - destruct (admission s1), r as [|p|]; try apply admit_moves. destruct (mappings s1 !! popup_owner p); [apply map_moves|apply admit_moves].
Qed.
Lemma observe_commit_moves sf c s : moves s (observe_commit sf c s).
Proof.
  unfold observe_commit. destruct (desktop_surface sf s); [constructor|]. set (s1 := put_cached (carried c) sf _).
  assert (M1 : moves s s1). { apply moves_quiet. subst s1. by destruct (mapped c). }
  clearbody s1. etrans; [exact M1|]. destruct (mappings s1 !! sf) eqn:Hx; [by apply send_surface_moves|apply admit_moves].
Qed.
Lemma observe_moves e s : moves s (observe e s).
Proof.
  unfold observe. pose proof (check_access_calmly s) as Hc. destruct (check_access s) as [s1 ok]. cbn in Hc.
  etrans; [by apply moves_calm|]. clear Hc. destruct (negb ok || _); [constructor|]. destruct (event_kind e) eqn:Hk.
  - apply observe_role_moves.
  - apply observe_commit_moves.
  - destruct (mappings s1 !! _) eqn:Hx; [|constructor]. apply send_surface_moves. intros _. split; [done|by rewrite Hk].
  - destruct (mappings s1 !! _) eqn:Hx; [|constructor]. apply send_surface_moves. intros _. split; [done|by rewrite Hk].
  - apply observe_destroyed_moves.
  - apply observe_metadata_moves.
Qed.

(** The peer's messages. *)
Lemma take_message_moves m s : failed s = false -> revoked s = false ->
  (forall sf, destination_message_surface m = Some sf -> is_Some (mappings s !! sf)) -> moves s (take_message m s).
Proof.
  intros Hf Hr Hm. destruct m as [r|i| | | |]; cbn; try constructor.
  - assert (Hask : moves s (set_effects (effects s ++ [RequestEffect r]) (set_remote_input (observe_request r (remote_input s)) s))).
    { by apply moves_once, move_asks. }
    destruct r as [[sf k]|f|]; cbn; [|done..]. destruct k; try done. apply moves_calm, set_presentation_calmly.
  - apply moves_once, move_takes; [done..|]. by apply Hm.
Qed.
Lemma deliver_moves env s : failed s = false -> revoked s = false ->
  (forall sf, destination_message_surface (message env) = Some sf -> is_Some (mappings s !! sf)) -> moves s (deliver env s).1.
Proof.
  intros Hf Hr Hm. unfold deliver. destruct (match message env with Input i => _ | _ => false end); [constructor|].
  pose proof (port_accepts env (port s)) as Hp. destruct (port_accept _ _) as [p [r|e]]; cbn in *.
  - etrans; [|by apply take_message_moves]. by apply moves_quiet, set_port_quiet.
  - etrans; [|apply moves_calm, fail_calmly]. by apply moves_quiet, set_port_quiet.
Qed.
Lemma authorize_moves env sf s : failed s = false -> revoked s = false ->
  (forall u, destination_message_surface (message env) = Some u -> u = sf) -> moves s (authorize env sf s).1.
Proof.
  intros Hf Hr Hm. unfold authorize. destruct (mappings s !! sf) as [x|] eqn:Hx.
  - case_bool_decide; [|apply moves_calm, fail_calmly]. apply deliver_moves; [done..|]. intros u ->%Hm. by exists x.
  - destruct (_ && _); [|constructor]. pose proof (move_says s FocusClearedCommand I) as Hs.
    destruct (submit _ s) as [s1 [r|e]]; cbn in *; (etrans; [by apply moves_once|]); [constructor|apply moves_calm, fail_calmly].
Qed.
Lemma accept_destination_moves now env s : moves s (accept_destination now env s).1.
Proof.
  unfold accept_destination. pose proof (check_access_calmly s) as Hc.
  destruct (check_access s) as [s1 [|]] eqn:Hk; cbn [fst snd negb] in *; [|by apply moves_calm].
  apply check_access_true in Hk as (-> & Hf & Hr). clear Hc. destruct (message env) as [r|i|u| |sf n|g] eqn:Hm.
  - destruct r as [r|f|]; cbn [destination_message_surface surface_of_request].
    + apply authorize_moves; [done..|]. rewrite Hm. by intros u [= <-].
    + unfold accept_focus. case_bool_decide; [apply moves_calm, fail_calmly|]. destruct (focus_surface f) as [sf|] eqn:Hs.
      * apply authorize_moves; [done..|]. rewrite Hm. cbn. rewrite Hs. by intros u [= <-].
      * destruct (keyboard_focus _); [|constructor]. apply authorize_moves; [done..|]. rewrite Hm. cbn. by rewrite Hs.
    + apply deliver_moves; [done..|]. by rewrite Hm.
  - apply authorize_moves; [done..|]. rewrite Hm. by intros u [= <-].
  - apply deliver_moves; [done..|]. by rewrite Hm.
  - apply deliver_moves; [done..|]. by rewrite Hm.
  - unfold accept_cursor. destruct (cursor_in_flight s) as [c|].
    + destruct (n <? _); [constructor|]. case_bool_decide; cbn; [|apply moves_calm, fail_calmly].
      etrans; [|apply send_next_cursor_moves]. by apply moves_quiet.
    + destruct (is_some_and _ _); [apply moves_calm, fail_calmly|constructor].
  - unfold accept_gamepad. destruct (_ || _); [apply moves_calm, fail_calmly|]. pose proof (with_gamepad_source_moves (GamepadCapture.expire now) s) as M1.
    set (s1 := with_gamepad_source _ s) in *. clearbody s1. destruct (failed s1); [done|]. etrans; [exact M1|]. apply with_gamepad_source_moves.
Qed.

(** The adapter's interface. *)
Lemma accept_all_moves clock l s : moves s (accept_all clock l s).
Proof.
  revert clock s. induction l as [|env l IH]; intros clock s; cbn; [constructor|]. pose proof (accept_destination_moves (clock 0%nat) env s) as M.
  destruct (accept_destination (clock 0%nat) env s) as [s1 [|]]; cbn in M; [|done]. etrans; [exact M|apply IH].
Qed.
Lemma progress_moves s : moves s (progress s).
Proof.
  unfold progress. pose proof (check_access_calmly s) as Hc. destruct (check_access s) as [s1 ok]. cbn in Hc. etrans; [by apply moves_calm|].
  destruct ok; [|constructor]. pose proof (port_progresses (port s1)) as Hp. destruct (port_progress _) as [p [r|e]]; cbn in Hp.
  - by apply moves_quiet, set_port_quiet.
  - etrans; [|apply moves_calm, fail_calmly]. by apply moves_quiet, set_port_quiet.
Qed.
Lemma advertise_moves s : moves s (advertise s).
Proof. unfold advertise. destruct (GamepadCapture.advertise _). etrans; [|apply gamepad_status_moves]. by apply moves_quiet. Qed.
Lemma start_admission_moves s : moves s (start_admission s).
Proof. unfold start_admission. destruct (_ && _); [|constructor]. etrans; [|apply moves_foldl, admit_moves]. by apply moves_quiet. Qed.
Lemma connect_moves s : failed s = false -> revoked s = false -> moves s (connect_input s).
Proof.
  intros Hf Hr. unfold connect_input. destruct (input_started s); [constructor|]. set (t := set_input_started true s). assert (M : moves s t) by (by apply moves_quiet).
  etrans; [exact M|]. by apply moves_once, (move_connects t).
Qed.
Lemma submit_steady c s : steady s (submit c s).1.
Proof. unfold submit. destruct (port_submit _ _). by split. Qed.
Lemma with_gamepad_source_steady f s : steady s (with_gamepad_source f s).
Proof.
  unfold with_gamepad_source. destruct (f _ _) as [[g w] [r|]]; cbn; [|done]. unfold submit_or_fail. set (t := set_gamepad g w s).
  assert (Ht : steady s t) by done. etrans; [exact Ht|]. pose proof (submit_steady (GamepadCommand r) t) as Hs.
  destruct (submit _ t) as [u [?|?]]; [done|apply steady_fail].
Qed.
Lemma poll_moves clock s : moves s (poll clock s).
Proof.
  unfold poll. pose proof (check_access_calmly s) as Hc. destruct (check_access s) as [s1 [|]] eqn:Hk; cbn [fst snd negb] in *; [|by apply moves_calm].
  apply check_access_true in Hk as (-> & Hf & Hr). clear Hc.
  pose proof (with_gamepad_source_moves (GamepadCapture.expire (clock 0%nat)) s) as M1.
  pose proof (with_gamepad_source_steady (GamepadCapture.expire (clock 0%nat)) s) as S1.
  set (s1 := with_gamepad_source _ s) in *. clearbody s1. etrans; [exact M1|]. destruct (failed s1) eqn:F1; [constructor|].
  destruct (S1 F1) as (_ & _ & R1). rewrite Hr in R1. pose proof (port_polls (port s1)) as Hp.
  destruct (port_poll _) as [p [l|e]]; [|etrans; [|apply moves_calm, fail_calmly]; by apply moves_quiet, set_port_quiet].
  set (s2 := set_port p s1). assert (M2 : moves s1 s2) by (by apply moves_quiet, set_port_quiet). etrans; [exact M2|].
  set (s3 := if ready (port s2) then _ else s2).
  assert (M3 : moves s2 s3). { subst s3. destruct (ready _); [|constructor]. etrans; [by apply connect_moves|apply advertise_moves]. }
  clearbody s3. etrans; [exact M3|]. destruct (failed s3); [constructor|]. etrans; [apply start_admission_moves|].
  etrans; [apply accept_all_moves|apply progress_moves].
Qed.
Lemma observe_cursor_update_moves sf cursor s : moves s (observe_cursor_update sf cursor s).
Proof.
  unfold observe_cursor_update. pose proof (check_access_calmly s) as Hc. destruct (check_access s) as [s1 ok]. cbn in Hc.
  etrans; [by apply moves_calm|]. destruct (negb ok || _); [constructor|]. case_bool_decide; [by apply moves_quiet|].
  etrans; [|apply queue_cursor_moves]. by apply moves_quiet.
Qed.
Lemma apply_command_moves c s : moves s (apply_command c s).
Proof.
  destruct c as [id|x sf|sf]; cbn.
  - unfold install_access. destruct (bool_decide (is_Some (access s)) || _ || _) eqn:Hi; [apply moves_calm, fail_calmly|].
    apply orb_false_iff in Hi as [[Ha%bool_decide_eq_false _]%orb_false_iff _]. apply eq_None_not_Some in Ha.
    by apply moves_once, move_installs.
  - case_bool_decide; [apply map_moves|constructor].
  - case_bool_decide; [apply unmap_moves|constructor].
Qed.
Lemma release_input_moves owns s : moves s (release_input owns s).
Proof. apply moves_once, move_released. Qed.
Lemma observe_retired_buffer_moves b s : moves s (observe_retired_buffer b s).
Proof.
  unfold observe_retired_buffer. pose proof (check_access_calmly s) as Hc. destruct (check_access s) as [s1 ok]. cbn in Hc.
  etrans; [by apply moves_calm|]. destruct (_ && _); [by apply submit_or_fail_moves|constructor].
Qed.

(** ** Histories

    A relay with the effects its host took from it. Others change the authority, the port's
    transport and the host's devices in between. *)
Definition others (a : AccessAuthority) (p : P) (w : W) s : relay := set_authority a (set_port p (set_gamepad (gamepad s) w s)).
Inductive relay_step : relay * list ClientAdapterEffect -> relay * list ClientAdapterEffect -> Prop :=
  | step_poll clock s g : relay_step (s, g) (poll clock s, g)
  | step_observe e s g : relay_step (s, g) (observe e s, g)
  | step_cursor sf cursor s g : relay_step (s, g) (observe_cursor_update sf cursor s, g)
  | step_command c s g : relay_step (s, g) (apply_command c s, g)
  | step_release owns s g : relay_step (s, g) (release_input owns s, g)
  | step_retired b s g : relay_step (s, g) (observe_retired_buffer b s, g)
  | step_claims s g : relay_step (s, g) ((drain_presentation_claims s).1, g)
  | step_effects s g : relay_step (s, g) ((drain_effects s).1, g ++ (drain_effects s).2)
  | step_others a p w s g : relay_step (s, g) (others a p w s, g).
(** A new relay, or a peer forked from another one. *)
Definition relay_start (r : relay) : Prop := exists provider cached a w source p admission,
  r = set_cache cached (with_gamepad provider (with_admission a w source p admission)).
Definition relay_history (r : relay * list ClientAdapterEffect) : Prop := exists s, relay_start s /\ rtc relay_step (s, []) r.
Lemma fork_start p s : relay_start (fork p s).
Proof. by exists false, (without_sent <$> cache s), (authority s), (gamepad_host s), (upstream_source s), p, Manual. Qed.
(** A property of the state and the effects that moves keep, and draining and others keep. *)
Lemma relay_history_ind (Q : relay -> list ClientAdapterEffect -> Prop) :
  (forall s, relay_start s -> Q s []) -> (forall s s' g, move s s' -> Q s g -> Q s' g) ->
  (forall s g p, Q s g -> Q (set_port p (set_effects [] s)) (g ++ effects s)) ->
  (forall s g l, Q s g -> Q (set_presentation_updates l s) g) ->
  (forall s g a p w, Q s g -> Q (others a p w s) g) ->
  forall r, relay_history r -> Q r.1 r.2.
Proof.
  intros H0 Hm Hd Hc Ho r (s0 & Hs & H). specialize (H0 s0 Hs). remember (s0, []) as y eqn:Hy.
  assert (Hq : Q y.1 y.2) by (by subst y). clear Hy H0 Hs. induction H as [|a b c Hab _ IH]; [done|]. apply IH. clear IH.
  assert (Hms : forall s s' g, moves s s' -> Q s g -> Q s' g) by (intros s s' g; induction 1; eauto).
  destruct Hab as [k s g|e s g|sf cu s g|c0 s g|owns s g|r s g|s g|s g|au p w s g]; cbn in *.
  - eapply Hms; [apply poll_moves|done].
  - eapply Hms; [apply observe_moves|done].
  - eapply Hms; [apply observe_cursor_update_moves|done].
  - eapply Hms; [apply apply_command_moves|done].
  - eapply Hms; [apply release_input_moves|done].
  - eapply Hms; [apply observe_retired_buffer_moves|done].
  - apply Hc. eapply Hms; [apply moves_calm, check_access_calmly|done].
  - apply Hd. eapply Hms; [apply moves_calm, check_access_calmly|done].
  - by apply Ho.
Qed.

End SourceMoves.
