(* ===== verification/RelaySample.v ===== *)
(** * A relay at work

    A port that delivers given batches and accepts everything, and a short life of a relay on
    it: access installed, a window observed and mapped, the keyboard focused and a key pressed
    by the peer. The theorems about relays are applied to it. *)

From S2P Require Import Prelude.
From S2P Require Import Effects.
From S2P Require Import OrdMap.
From S2P Require Import Ids.
From S2P Require Import Surface.
From S2P Require Import Input.
From S2P Require Import Access.
From S2P Require Import GamepadCapture.
From S2P Require Import Commit.
From S2P Require Import RemoteInput.
From S2P Require Import SourceRelay.
From S2P Require Import SourceMoves.

(** ** Actions *)
Section Actions.
Context {P Cu W D : Type} `{EqDecision Cu} {hoist_port : HoistSourcePort P Cu} {host : GamepadHost W D}.
Context {cache_order : HashOrder ClientSurfaceId (CachedSurface Cu)} {session_order : HashOrder ClientSurfaceId HoistSessionId}
  {claim_order : HashOrder ClientSurfaceId ClientPresentationClaim}
  {key_order : HashOrder Z RemoteKeyCapture} {button_order : HashOrder Z (ClientInputTarget * option InputPosition)}.
Abbreviation relay := (SourceRelayAdapter (P := P) (Cu := Cu) (W := W) (D := D)).
Abbreviation lived := (relay * list ClientAdapterEffect)%type.
Inductive relay_action :=
  | Polls (clock : nat -> instant)
  | Observes (e : ClientSurfaceEvent ClientBufferLease)
  | Commands (c : AdapterCommand)
  | Drains
  | Others (a : AccessAuthority) (p : P) (w : W).
Definition relay_act (r : lived) (a : relay_action) : lived :=
  match a with
  | Polls clock => (poll clock r.1, r.2)
  | Observes e => (observe e r.1, r.2)
  | Commands c => (apply_command c r.1, r.2)
  | Drains => ((drain_effects r.1).1, r.2 ++ (drain_effects r.1).2)
  | Others a p w => (others a p w r.1, r.2)
  end.
Definition relay_run (r : lived) (l : list relay_action) : lived := foldl relay_act r l.
Lemma relay_act_step r a : relay_step r (relay_act r a).
Proof. destruct r as [s g], a; cbn; constructor. Qed.
Lemma relay_run_steps l r : rtc relay_step r (relay_run r l).
Proof. revert r. induction l as [|a l IH]; intros r; [constructor|]. eapply rtc_l; [apply relay_act_step|apply IH]. Qed.
Lemma relay_run_history s l : relay_start s -> relay_history (relay_run (s, []) l).
Proof. intros Hs. exists s. split; [done|apply relay_run_steps]. Qed.
End Actions.

(** ** The sample *)
Definition batches := list (list DestinationEnvelope).
#[export] Instance batch_port : HoistSourcePort batches unit := {
  port_deadline _ := None;
  port_presentation _ claim p := (p, inl claim);
  ready _ := true;
  port_submit _ p := (p, inl tt);
  port_poll p := match p with batch :: p => (p, inl batch) | [] => ([], inl []) end;
  port_accept _ p := (p, inl tt);
  port_progress p := (p, inl tt);
  port_effects_drained p := p;
  port_disconnect p := p;
}.
#[export] Existing Instance plain_order.
Abbreviation sample_relay := (SourceRelayAdapter (P := batches) (Cu := unit) (W := Host) (D := nat)).
Definition sample_source : ClientSourceId := ClientSurfaceId_source (ClientSurfaceId_for_test 1).
Definition sample_window : ClientSurfaceId := ClientSurfaceId_for_test 1.
Definition sample_authority : AccessAuthority := (Access.open "laptop" authority_new).1.
Definition sample_key (state : KeyboardKeyState) : DestinationMessage :=
  Input (MkInput (KeyboardTarget sample_window) (Keyboard 30 state) 7).
Definition sample_focus : DestinationMessage := Request (FocusRequest (MkFocusRequest sample_source (Some sample_window))).
Definition sample_batches : batches :=
  [[]; [MkDestinationEnvelope (MkHoistSessionId 5) sample_focus; MkDestinationEnvelope (MkHoistSessionId 5) (sample_key KeyPressed)]].
Definition sample_start : sample_relay := SourceRelayAdapter_new sample_authority sample_host sample_source sample_batches.
Definition sample_role : ClientSurfaceRole :=
  Toplevel (MkToplevelState None ServerSide (MkToplevelHints false Normal (MkExtent 0 0) (MkExtent 0 0))).
Definition sample_life : list (relay_action (P := batches) (W := Host)) :=
  [Commands (InstallAccess 1); Polls (fun _ => 0); Observes (MkClientSurfaceEvent sample_window (Role sample_role));
   Commands (MapSource (MkHoistSessionId 5) sample_window); Polls (fun _ => 1)].
Definition sample_lived : sample_relay * list ClientAdapterEffect := relay_run (sample_start, []) sample_life.
Lemma sample_started : relay_start sample_start.
Proof. exists false, ∅, sample_authority, sample_host, sample_source, sample_batches, Manual. reflexivity. Qed.
Lemma sample_history : relay_history sample_lived.
Proof. apply relay_run_history, sample_started. Qed.
