(* ===== verification/SourceHeld.v ===== *)
(** * What a peer holds on the source's machine

    The relay's ledger follows the host over every history of the relay, so what the host
    holds for the peer is on surfaces the peer is shown, and nothing is held once the relay
    gave up. *)

From S2P Require Import Prelude.
From S2P Require Import Effects.
From S2P Require Import OrdMap.
From S2P Require Import Ids.
From S2P Require Import Surface.
From S2P Require Import Input.
From S2P Require Import TouchLedger.
From S2P Require Import Access.
From S2P Require Import GamepadCapture.
From S2P Require Import Commit.
From S2P Require Import RemoteInput.
From S2P Require Import SourceRelay.
From S2P Require Import SourceMoves.
From S2P Require Import RelaySample.

Section SourceHeld.
Context {P Cu W D : Type} `{EqDecision Cu} {hoist_port : HoistSourcePort P Cu} {host : GamepadHost W D}.
Context {cache_order : HashOrder ClientSurfaceId (CachedSurface Cu)} {session_order : HashOrder ClientSurfaceId HoistSessionId}
  {claim_order : HashOrder ClientSurfaceId ClientPresentationClaim}
  {key_order : HashOrder Z RemoteKeyCapture} {button_order : HashOrder Z (ClientInputTarget * option InputPosition)}.
Abbreviation relay := (SourceRelayAdapter (P := P) (Cu := Cu) (W := W) (D := D)).
Implicit Types (s : relay) (sf : ClientSurfaceId) (i : RemoteInputState) (g es : list ClientAdapterEffect).

(** ** A ledger and the effects sent *)
Definition nowhere : ClientSurfaceId -> Prop := fun _ => False.
Record followed (known : ClientSurfaceId -> Prop) i es : Prop := {
  followed_tracks : tracks i (held_after nothing es);
  followed_order : in_order es;
  followed_known : knows_only known i;
}.
Lemma followed_mono (A B : ClientSurfaceId -> Prop) i es : (forall sf, A sf -> B sf) -> followed A i es -> followed B i es.
Proof. intros HAB []. split; [done..|]. by eapply knows_only_mono. Qed.
Lemma followed_quiet A i es k : (forall h, held_after h k = h) -> Forall (fun e => forall h, fits h e) k -> followed A i es -> followed A i (es ++ k).
Proof. intros Hk Hf []. split; [by rewrite held_after_app, Hk|by apply in_order_app|done]. Qed.
Lemma followed_release source p A i es : followed A i es ->
  followed (fun sf => A sf /\ p sf = false) (release_effects source p i).1 (es ++ (release_effects source p i).2).
Proof.
  intros []. split.
  - rewrite held_after_app. by apply release_effects_tracks.
  - apply in_order_app; [done|apply release_effects_fit].
  - by apply release_effects_knows.
Qed.
Lemma knows_nowhere_tracks i : knows_only nowhere i -> tracks i nothing.
Proof.
  intros []. split; cbn.
  - symmetry. apply map_empty. intros id. destruct (contacts (touch i) !! id) eqn:E; [|done]. by destruct (only_contacts _ _ E).
  - symmetry. apply fmap_empty_iff, map_empty. intros id. destruct (keys i !! id) eqn:E; [|done]. by destruct (only_keys _ _ E).
  - symmetry. apply fmap_empty_iff, map_empty. intros id. destruct (held_buttons i !! id) eqn:E; [|done]. by destruct (only_buttons _ _ E).
  - by intros x ?%elem_of_nil.
  - destruct (finger_scroll i) eqn:E; [|done]. by destruct (only_scroll _ eq_refl).
  - destruct (keyboard_focus i) eqn:E; [|done]. by destruct (only_focus _ eq_refl).
Qed.
Lemma all_held_nowhere h : all_held nowhere h -> h = nothing.
Proof.
  intros []. destruct h as [c k b l x f]. cbn in *. unfold nothing. f_equal.
  - apply map_empty. intros id. destruct (c !! id) eqn:E; [|done]. by destruct (all_contacts _ _ E).
  - apply map_empty. intros id. destruct (k !! id) eqn:E; [|done]. by destruct (all_keys _ _ E).
  - apply map_empty. intros id. destruct (b !! id) eqn:E; [|done]. by destruct (all_buttons _ _ E).
  - destruct l as [|x0 l]; [done|]. destruct (all_gestures x0). by left.
  - destruct x; [|done]. by destruct (all_scroll _ eq_refl).
  - destruct f; [|done]. by destruct (all_focus _ eq_refl).
Qed.
(** Scale resets and the like leave the host's picture alone. *)
Lemma reset_scales_quiet (l : list ClientSurfaceId) h : held_after h (reset_scale <$> l) = h.
Proof. revert h. induction l as [|sf l IH]; intros h; cbn; [done|apply IH]. Qed.

(** ** The relay's *)
Definition held_inv s g : Prop :=
  followed (fun sf => is_Some (mappings s !! sf)) (remote_input s) (g ++ effects s) /\
  (failed s = true -> knows_only nowhere (remote_input s)).
(** What the relay does not touch of it. *)
Record same_held s s' : Prop := {
  same_input : remote_input s' = remote_input s;
  same_effects : effects s' = effects s;
  same_mappings : mappings s' = mappings s;
  same_failed : failed s' = failed s;
}.
Lemma same_held_inv s s' g : same_held s s' -> held_inv s g -> held_inv s' g.
Proof. intros [E1 E2 E3 E4] H. unfold held_inv. by rewrite E1, E2, E3, E4. Qed.
Lemma quiet_same_held s s' : quiet s s' -> same_held s s'.
Proof. by intros []. Qed.
Lemma submit_same_held c s : same_held s (submit c s).1.
Proof. unfold submit. by destruct (port_submit _ _). Qed.
(** Giving up empties the host's picture, whatever was dropped before it. *)
Lemma fail_held_inv s g : failed s = false -> in_order (g ++ effects s) -> knows_only (fun sf => True) (remote_input s) -> held_inv (fail s) g.
Proof.
  intros Hf Ho Hk. destruct (fail_fields s Hf) as (E1 & E2 & E3 & E4 & _). unfold held_inv. rewrite E1, E2, E3, E4. clear E1 E2 E3 E4.
  assert (Hn : knows_only nowhere (release_effects (upstream_source s) (fun _ => true) (remote_input s)).1).
  { eapply (knows_only_mono (fun sf => True /\ true = false)); [by intros sf []|]. by apply (release_effects_knows _ (fun _ => True)). }
  split; [|done]. split.
  - unfold farewell. rewrite list_fmap_compose, !held_after_app. cbn [held_after foldl hold]. fold (held_after nothing (reset_scale <$> (fst <$> visit (mappings s)))).
    rewrite reset_scales_quiet. by apply knows_nowhere_tracks.
  - rewrite app_assoc. apply in_order_app; [done|]. apply Forall_app. split; [apply release_effects_fit|].
    unfold farewell. constructor; [done|]. apply Forall_fmap, list.Forall_true. by intros x.
  - eapply knows_only_mono; [|exact Hn]. done.
Qed.
Lemma in_order_prefix es k : in_order (es ++ k) -> in_order es.
Proof. intros H l e r ->. apply (H l e (r ++ k)). by rewrite <- app_assoc. Qed.
Lemma calm_held_inv s s' g : calm s s' -> held_inv s g -> held_inv s' g.
Proof.
  intros [a b Hq|a Hf|a Hf Hr] H.
  - eapply same_held_inv; [by apply quiet_same_held|done].
  - destruct H as [[_ Ho Hk] _]. apply fail_held_inv; [done..|]. by eapply knows_only_mono.
  - destruct H as [[_ Ho Hk] _]. apply fail_held_inv; [done| |].
    + cbn. rewrite app_nil_r. by eapply in_order_prefix.
    + cbn. by eapply knows_only_mono.
Qed.
Lemma calmly_held_inv s s' g : calmly s s' -> held_inv s g -> held_inv s' g.
Proof. induction 1; eauto using calm_held_inv. Qed.
Lemma gone_held_inv s s' g sf k : held_inv s g -> mappings s' = delete sf (mappings s) -> failed s' = failed s ->
  remote_input s' = (release_effects (upstream_source s) (fun y => bool_decide (y = sf)) (remote_input s)).1 ->
  effects s' = effects s ++ (release_effects (upstream_source s) (fun y => bool_decide (y = sf)) (remote_input s)).2 ++ k ->
  (forall h, held_after h k = h) -> Forall (fun e => forall h, fits h e) k -> held_inv s' g.
Proof.
  intros [H Hn] E1 E2 E3 E4 Hk Hf. unfold held_inv. rewrite E1, E2, E3, E4. clear E1 E2 E3 E4. split.
  - rewrite !app_assoc. apply followed_quiet; [done..|]. eapply followed_mono; [|by apply followed_release].
    intros y [[x Hx] Hy%bool_decide_eq_false]. exists x. by rewrite lookup_delete_ne.
  - intros F. eapply knows_only_mono; [|apply (release_effects_knows _ nowhere); by apply Hn]. by intros y [].
Qed.
Lemma let_go_held_inv sf s g : held_inv s g -> held_inv (let_go sf s) g.
Proof.
  intros H. destruct (let_go_fields sf s) as (E1 & E2 & _ & _ & _ & E3 & E4 & _).
  eapply (gone_held_inv s _ g sf []); [done..| |done|constructor]. by rewrite app_nil_r.
Qed.
Lemma move_held_inv s s' g : move s s' -> held_inv s g -> held_inv s' g.
Proof.
  intros [a b Hc|a c _|a p|a b sf x Hf Hm Hs Hc|a sf x Hm|a sf x Hf Hm|a b sf Hc _|a r Hf Hr Hm|a i Hf Hr Hm|a Hf Hr|a id Ha] H.
  - by eapply calm_held_inv.
  - eapply same_held_inv; [apply submit_same_held|done].
  - destruct H as [H Hn]. destruct (released_fields p a) as (E1 & E2 & E3 & E4 & _). unfold held_inv. rewrite E1, E2, E3, E4. split.
    + rewrite app_assoc. eapply followed_mono; [|by apply followed_release]. by intros y [].
    + intros F. eapply knows_only_mono; [|apply (release_effects_knows _ nowhere); by apply Hn]. by intros y [].
  - eapply same_held_inv; [apply submit_same_held|]. eapply calmly_held_inv; [done|]. destruct H as [H Hn]. split; [|done]. cbn.
    eapply followed_mono; [|done]. intros y [z Hz]. destruct (decide (y = sf)) as [->|]; [congruence|]. exists z. by rewrite lookup_insert_ne.
  - eapply same_held_inv; [apply submit_same_held|]. destruct (take_off_fields sf a) as (E1 & E2 & _ & _ & _ & E3 & E4 & _).
    eapply (gone_held_inv a _ g sf [reset_scale sf]); [done..|]. by repeat constructor.
  - eapply same_held_inv; [apply submit_same_held|]. by apply let_go_held_inv.
  - eapply calmly_held_inv; [done|]. by apply let_go_held_inv.
  - destruct H as [[Ht Ho Hk] Hn]. split; cbn; [|congruence]. rewrite app_assoc. split.
    + rewrite held_after_app. by apply observe_request_tracks.
    + by apply in_order_snoc.
    + apply observe_request_knows; [|done]. intros f sf -> Hs. by apply Hm.
  - destruct H as [[Ht Ho Hk] Hn]. unfold take_input. pose proof (observe_input_tracks (into_client_event i) _ _ Ht) as H1.
    pose proof (observe_input_knows _ (into_client_event i) _ Hm Hk) as H2.
    destruct (observe_input _ _) as [l [|]]; cbn [fst] in *; split; cbn; try congruence; [|by split]. destruct H1 as [H1 H1'].
    rewrite app_assoc. split; [by rewrite held_after_app|by apply in_order_snoc|done].
  - destruct H as [H Hn]. split; cbn; [|done]. rewrite app_assoc. apply followed_quiet; [done|by repeat constructor|done].
  - exact H.
Qed.
Lemma held_history r : relay_history r -> held_inv r.1 r.2.
Proof.
  apply (relay_history_ind held_inv).
  - intros s (provider & cached & a & w & source & p & adm & ->). split; [|done]. split; [apply tracks_default|by intros [] ? ?|apply knows_only_default].
  - apply move_held_inv.
  - intros s g p [H Hn]. split; [|done]. cbn. by rewrite app_nil_r.
  - intros s g l H. exact H.
  - intros s g a p w H. exact H.
Qed.

(** C10 (relay-holds). Whatever a peer holds on the source's machine is on a surface it is
    shown. In every history of the relay, with the port failing wherever it likes and the
    access revoked at any time, the host that took every effect, the last drained ones
    included, holds contacts, keys, buttons, gestures, a finger scroll and the keyboard's
    focus only on mapped surfaces, holds nothing once the relay failed, and each effect fits
    what the host held when it came. *)
Theorem relay_holds (r : relay * list ClientAdapterEffect) (H : relay_history r) :
  let '(s, es) := drain_effects r.1 in
  let h := held_after nothing (r.2 ++ es) in
  all_held (fun sf => is_Some (mappings s !! sf)) h /\ (failed s = true -> h = nothing) /\ in_order (r.2 ++ es).
Proof.
  unfold drain_effects. pose proof (calmly_held_inv _ _ _ (check_access_calmly r.1) (held_history r H)) as [[Ht Ho Hk] Hn].
  cbn. split; [by eapply tracks_only|]. split; [|done]. intros F. apply all_held_nowhere. eapply tracks_only; [done|by apply Hn].
Qed.
End SourceHeld.

Lemma relay_holds_witness : relay_history sample_lived /\
  let '(s, es) := drain_effects sample_lived.1 in
  let h := held_after nothing (sample_lived.2 ++ es) in
  all_held (fun sf => is_Some (mappings s !! sf)) h /\ (failed s = true -> h = nothing) /\ in_order (sample_lived.2 ++ es).
Proof. split; [apply sample_history|]. apply (relay_holds sample_lived), sample_history. Defined.
(** The window has the keyboard, with a key down. *)
Example sample_holds : let h := held_after nothing (drain_effects sample_lived.1).2 in
  h_focus h = Some sample_window /\ h_keys h !! 30 = Some (KeyboardTarget sample_window).
Proof. by vm_compute. Qed.
