(* ===== verification/SourceAuthority.v ===== *)
(** * What a peer may cause on the source's machine

    Each message of the peer is confined to the surfaces of the session it names, and a relay
    whose access was revoked only gives up what the peer held. *)

From S2P Require Import Prelude.
From S2P Require Import Effects.
From S2P Require Import OrdMap.
From S2P Require Import Ids.
From S2P Require Import Surface.
From S2P Require Import Input.
From S2P Require Import TouchLedger.
From S2P Require Import Access.
From S2P Require Import GamepadCapture.
From S2P Require Import Commit.
From S2P Require Import RemoteInput.
From S2P Require Import SourceRelay.
From S2P Require Import SourceMoves.
From S2P Require Import RelaySample.

(** Effects that only give something up. *)
Definition retiring_input (e : InputEventKind) : bool :=
  match e with
  | Touch TouchCancel | PointerButton _ _ ButtonReleased | Keyboard _ KeyReleased => true
  | PointerGestureEvent (Swipe (SwipeEnd c) | Pinch (PinchEnd c) | Hold (HoldEnd c)) => c
  | PointerAxis _ axis => match phase axis with ScrollCancelled => true | _ => false end
  | _ => false
  end.
Definition retiring (e : ClientAdapterEffect) : bool :=
  match e with
  | InputEffect i => retiring_input (input_event i)
  | RequestEffect (FocusRequest f) => bool_decide (focus_surface f = None)
  | RequestEffect (SurfaceRequest (MkSurfaceRequest _ (SetPreferredScale None))) => true
  | InputDisconnected _ => true
  | _ => false
  end.
(** The message as the host would see it. *)
Definition carries (env : DestinationEnvelope) (e : ClientAdapterEffect) : Prop :=
  match message env with
  | Request r => e = RequestEffect r
  | Input i => e = InputEffect (into_client_event i)
  | _ => False
  end.

Section SourceAuthority.
Context {P Cu W D : Type} `{EqDecision Cu} {hoist_port : HoistSourcePort P Cu} {host : GamepadHost W D}.
Context {cache_order : HashOrder ClientSurfaceId (CachedSurface Cu)} {session_order : HashOrder ClientSurfaceId HoistSessionId}
  {claim_order : HashOrder ClientSurfaceId ClientPresentationClaim}
  {key_order : HashOrder Z RemoteKeyCapture} {button_order : HashOrder Z (ClientInputTarget * option InputPosition)}.
Abbreviation relay := (SourceRelayAdapter (P := P) (Cu := Cu) (W := W) (D := D)).
Implicit Types (s : relay) (sf : ClientSurfaceId) (i : RemoteInputState) (g es k : list ClientAdapterEffect).

(** ** Giving up *)
Lemma release_effects_retiring source p i : Forall retiring (release_effects source p i).2.
Proof.
  unfold release_effects, release_touch, release_buttons, release_keys, release_gestures. destruct (retire p (touch i)) as [l ts].
  destruct (release_scroll p _) as [s5 e5] eqn:H5. destruct (release_focus source p s5) as [s6 e6] eqn:H6. cbn.
  repeat (apply Forall_app; split); try (apply Forall_fmap, list.Forall_true; intros x; cbn; done).
  - apply Forall_fmap, list.Forall_true. intros [kind t]. by destruct kind.
  - unfold release_scroll in H5. cbn in H5. destruct (finger_scroll i); [destruct (given_up p _)|]; injection H5 as _ <-; by repeat constructor.
  - unfold release_focus in H6. destruct (is_some_and _ _); injection H6 as _ <-; by repeat constructor.
Qed.
Lemma farewell_retiring s : Forall retiring (farewell s).
Proof. constructor; [done|]. apply Forall_fmap, list.Forall_true. by intros x. Qed.
(** What a step leaves in the queue: what was there or nothing, then what it adds. *)
Definition grew (A : ClientAdapterEffect -> Prop) s s' : Prop :=
  exists base k, effects s' = base ++ k /\ (base = effects s \/ base = []) /\ Forall A k.
Lemma grew_same (A : ClientAdapterEffect -> Prop) s s' : effects s' = effects s -> grew A s s'.
Proof. intros E. exists (effects s), []. rewrite app_nil_r. auto. Qed.
Lemma grew_mono (A B : ClientAdapterEffect -> Prop) s s' : (forall e, A e -> B e) -> grew A s s' -> grew B s s'.
Proof. intros HAB (base & k & E & Hb & Hk). exists base, k. repeat split; [done..|]. by eapply Forall_impl. Qed.
Lemma grew_trans (A : ClientAdapterEffect -> Prop) a b c : grew A a b -> grew A b c -> grew A a c.
Proof.
  intros (b1 & k1 & E1 & H1 & F1) (b2 & k2 & E2 & [->| ->] & F2).
  - exists b1, (k1 ++ k2). rewrite E2, E1, app_assoc. repeat split; [done|]. by apply Forall_app.
  - exists [], k2. auto.
Qed.
Lemma fail_grew s : grew retiring s (fail s).
Proof.
  destruct (failed s) eqn:Hf; [apply grew_same; unfold fail; by rewrite Hf|].
  destruct (fail_fields s Hf) as (_ & E & _). eexists _, _. split; [exact E|]. split; [by left|].
  apply Forall_app. split; [apply release_effects_retiring|apply farewell_retiring].
Qed.
Lemma calm_grew s s' : calm s s' -> grew retiring s s'.
Proof.
  intros [a b Hq|a Hf|a Hf Hr]; [apply grew_same, Hq|apply fail_grew|].
  destruct (fail_grew (cleared a)) as (base & k & E & Hb & Hk). exists [], k. cbn in Hb.
  assert (base = []) as -> by (by destruct Hb). auto.
Qed.
Lemma calmly_grew s s' : calmly s s' -> grew retiring s s'.
Proof. induction 1; [by apply grew_same|]. eapply grew_trans; [by apply calm_grew|done]. Qed.

(** ** A silent relay stays silent *)
Definition silent s : Prop := failed s = true /\ Forall retiring (effects s).
Lemma grew_silent s s' : failed s' = true -> grew retiring s s' -> silent s -> silent s'.
Proof.
  intros Hf (base & k & E & Hb & Hk) [_ Hs]. split; [done|]. rewrite E. apply Forall_app. split; [|done]. destruct Hb as [->| ->]; [done|constructor].
Qed.
Lemma calmly_silent s s' : calmly s s' -> silent s -> silent s'.
Proof. intros Hc Hs. eapply grew_silent; [|by apply calmly_grew|done]. destruct Hs. by apply (failing_failed _ _ (calmly_failing _ _ Hc)). Qed.
Lemma silent_add s s' k : failed s' = failed s -> effects s' = effects s ++ k -> Forall retiring k -> silent s -> silent s'.
Proof. intros E1 E2 Hk [Hf Hs]. split; [congruence|]. rewrite E2. by apply Forall_app. Qed.
Lemma submit_silent c s : silent s -> silent (submit c s).1.
Proof. unfold submit. by destruct (port_submit _ _). Qed.
Lemma move_silent s s' : move s s' -> silent s -> silent s'.
Proof.
  intros [a b Hc|a c _|a p|a b sf x Hf _ _ Hc|a sf x Hm|a sf x Hf Hm|a b sf Hc _|a r Hf Hr Hm|a i Hf Hr Hm|a Hf Hr|a id Ha] H;
    try (destruct H; congruence).
  - by eapply calmly_silent; [apply rtc_once|].
  - by apply submit_silent.
  - destruct (released_fields p a) as (_ & E2 & _ & E4 & _). eapply silent_add; [done..| |done]. apply release_effects_retiring.
  - apply submit_silent. destruct (take_off_fields sf a) as (_ & E2 & _ & _ & _ & _ & E4 & _). eapply silent_add; [done..| |done].
    apply Forall_app. split; [apply release_effects_retiring|by repeat constructor].
  - eapply calmly_silent; [done|]. destruct (let_go_fields sf a) as (_ & E2 & _ & _ & _ & _ & E4 & _). eapply silent_add; [done..| |done].
    apply release_effects_retiring.
  - destruct H. by split.
Qed.
Lemma moves_silent s s' : moves s s' -> silent s -> silent s'.
Proof. induction 1; eauto using move_silent. Qed.
Lemma step_silent a b : relay_step a b -> silent a.1 -> silent b.1 /\ exists k, b.2 = a.2 ++ k /\ Forall retiring k.
Proof.
  intros H Hs. assert (Hn : exists k : list ClientAdapterEffect, a.2 = a.2 ++ k /\ Forall retiring k) by (exists []; by rewrite app_nil_r).
  destruct H as [c s g|e s g|sf cu s g|c s g|owns s g|b s g|s g|s g|au p w s g]; cbn [fst snd] in *.
  - split; [|done]. eapply moves_silent; [apply poll_moves|done].
  - split; [|done]. eapply moves_silent; [apply observe_moves|done].
  - split; [|done]. eapply moves_silent; [apply observe_cursor_update_moves|done].
  - split; [|done]. eapply moves_silent; [apply apply_command_moves|done].
  - split; [|done]. eapply moves_silent; [apply release_input_moves|done].
  - split; [|done]. eapply moves_silent; [apply observe_retired_buffer_moves|done].
  - split; [|done]. apply (calmly_silent _ _ (check_access_calmly s)) in Hs as [? ?]. by split.
  - apply (calmly_silent _ _ (check_access_calmly s)) in Hs as [Hf He]. split; [by split|]. eexists. split; [done|exact He].
  - split; [|done]. destruct Hs. by split.
Qed.
Lemma steps_silent a b : rtc relay_step a b -> silent a.1 -> silent b.1 /\ exists k, b.2 = a.2 ++ k /\ Forall retiring k.
Proof.
  induction 1 as [a|a b c Hab _ IH]; intros Hs; [split; [done|]; exists []; by rewrite app_nil_r|].
  destruct (step_silent _ _ Hab Hs) as (Hb & k & E & Hk). destruct (IH Hb) as (Hc & k' & E' & Hk'). split; [done|]. exists (k ++ k').
  rewrite E', E, app_assoc. split; [done|]. by apply Forall_app.
Qed.

(** ** Revocation *)
(** The operations that look at the access first. *)
Inductive looks : relay * list ClientAdapterEffect -> relay * list ClientAdapterEffect -> Prop :=
  | looks_poll clock s g : looks (s, g) (poll clock s, g)
  | looks_observe e s g : looks (s, g) (observe e s, g)
  | looks_cursor sf cursor s g : looks (s, g) (observe_cursor_update sf cursor s, g)
  | looks_map x sf s g : admission s = Manual -> looks (s, g) (apply_command (MapSource x sf) s, g)
  | looks_retired b s g : looks (s, g) (observe_retired_buffer b s, g)
  | looks_claims s g : looks (s, g) ((drain_presentation_claims s).1, g)
  | looks_effects s g : looks (s, g) ((drain_effects s).1, g ++ (drain_effects s).2).
Lemma revoked_silent s : failed s = false -> revoked s = true -> check_access s = (fail (cleared s), false) /\ silent (fail (cleared s)).
Proof.
  intros Hf Hr. split; [unfold check_access; by rewrite Hf, Hr|]. split; [apply fail_failed|].
  destruct (fail_grew (cleared s)) as (base & k & E & Hb & Hk). cbn in Hb. rewrite E. assert (base = []) as -> by (by destruct Hb). done.
Qed.
Lemma looks_silent a b : failed a.1 = false -> revoked a.1 = true -> looks a b ->
  silent b.1 /\ exists k, b.2 = a.2 ++ k /\ Forall retiring k.
Proof.
  intros Hf Hr H. destruct (revoked_silent _ Hf Hr) as [Hc Hs].
  assert (Hn : exists k : list ClientAdapterEffect, a.2 = a.2 ++ k /\ Forall retiring k) by (exists []; by rewrite app_nil_r).
  destruct H as [c s g|e s g|sf cu s g|x sf s g Ha|b s g|s g|s g]; cbn [fst snd] in *.
  - unfold poll. by rewrite Hc.
  - unfold observe. by rewrite Hc.
  - unfold observe_cursor_update. by rewrite Hc.
  - cbn. rewrite Ha. unfold map. cbn. by rewrite Hc.
  - unfold observe_retired_buffer. by rewrite Hc.
  - unfold drain_presentation_claims. rewrite Hc. split; [|done]. destruct Hs. by split.
  - unfold drain_effects. rewrite Hc. destruct Hs as [H1 H2]. split; [by split|]. eexists. split; [done|exact H2].
Qed.

(** C6 (relay-authority). Revoking a peer's access silences its relay. From the first poll,
    observation, mapping or drain after the administrator withdrew the access, whatever the
    relay, its port and its host then do, the relay is failed for good, the requests and
    input that were queued are gone, and the host gets nothing but what retires a hold:
    releases, cancellations, a focus on nothing, scale resets and the disconnection. *)
Theorem relay_authority (a b c : relay * list ClientAdapterEffect)
    (Hf : failed a.1 = false) (Hr : revoked a.1 = true) (H : looks a b) (Hs : rtc relay_step b c) :
  failed c.1 = true /\ exists k, c.2 = a.2 ++ k /\ Forall retiring (k ++ effects c.1).
Proof.
  destruct (looks_silent a b Hf Hr H) as (Hb & k & E & Hk). destruct (steps_silent b c Hs Hb) as ([Hc He] & k' & E' & Hk').
  split; [done|]. exists (k ++ k'). rewrite E', E, app_assoc. split; [done|]. by repeat (apply Forall_app; split).
Qed.

(** ** Messages *)
(** The surface whose session decides on a message. *)
Definition deciding (env : DestinationEnvelope) s : option ClientSurfaceId :=
  match message env with
  | Request (FocusRequest f) => match focus_surface f with Some sf => Some sf | None => keyboard_focus (remote_input s) end
  | m => destination_message_surface m
  end.
Definition permitted (env : DestinationEnvelope) s : Prop :=
  failed s = false /\ revoked s = false /\
  match deciding env s with Some sf => mappings s !! sf = Some (session env) | None => message env = Request ClearFocus end.
Definition caused (env : DestinationEnvelope) s (e : ClientAdapterEffect) : Prop := retiring e \/ carries env e /\ permitted env s.
Lemma moves_quiet_grew A s s' : quiet s s' -> grew A s s'.
Proof. intros Hq. apply grew_same, Hq. Qed.
Lemma submit_or_fail_grew c s : grew retiring s (submit_or_fail c s).
Proof.
  unfold submit_or_fail. assert (E : grew retiring s (submit c s).1) by (apply grew_same; unfold submit; by destruct (port_submit _ _)).
  destruct (submit c s) as [s1 [r|e]]; [done|]. eapply grew_trans; [exact E|apply fail_grew].
Qed.
Lemma with_gamepad_source_grew f s : grew retiring s (with_gamepad_source f s).
Proof.
  unfold with_gamepad_source. destruct (f _ _) as [[g w] [c|]]; cbn; [|by apply grew_same].
  eapply grew_trans; [|apply submit_or_fail_grew]. by apply grew_same.
Qed.
Lemma send_first_cursor_grew l s : grew retiring s (send_first_cursor l s).
Proof.
  revert s. induction l as [|sf l IH]; intros s; cbn; [by apply grew_same|]. destruct (due_cursor sf s) as [[x cursor]|]; [|apply IH].
  unfold send_cursor. cbn. destruct (next_cursor_sequence s).
  - eapply grew_trans; [|apply submit_or_fail_grew]. by apply grew_same.
  - eapply grew_trans; [|apply fail_grew]. by apply grew_same.
Qed.
Lemma send_next_cursor_grew s : grew retiring s (send_next_cursor s).
Proof.
  unfold send_next_cursor. pose proof (calmly_grew _ _ (check_access_calmly s)) as Hc. destruct (check_access s) as [s1 ok].
  eapply grew_trans; [exact Hc|]. destruct (negb ok || _); [by apply grew_same|apply send_first_cursor_grew].
Qed.
Lemma take_request_grew r s : grew (fun e => retiring e \/ e = RequestEffect r) s (take_request r s).
Proof.
  assert (Hq : grew (fun e => retiring e \/ e = RequestEffect r) s
    (set_effects (effects s ++ [RequestEffect r]) (set_remote_input (observe_request r (remote_input s)) s))).
  { exists (effects s), [RequestEffect r]. split; [done|]. split; [by left|]. apply Forall_singleton. by right. }
  destruct r as [[sf c]|f|]; cbn; try done. destruct c; try done; [|by apply grew_same].
  eapply grew_mono; [|apply calmly_grew, set_presentation_calmly]. by left.
Qed.
Lemma deliver_grew env s : grew (fun e => retiring e \/ carries env e) s (deliver env s).1.
Proof.
  unfold deliver. destruct (match message env with Input i => _ | _ => false end); [by apply grew_same|].
  destruct (port_accept _ _) as [p [r|e]]; cbn.
  - eapply grew_trans; [by apply (grew_same _ _ (set_port p s))|]. unfold carries. destruct (message env) as [r0|i| | | |]; cbn; try by apply grew_same.
    + apply take_request_grew.
    + unfold take_input. destruct (observe_input _ _) as [l [|]]; cbn; [|by apply grew_same].
      eexists _, [_]. split; [done|]. split; [by left|]. apply Forall_singleton. by right.
  - eapply grew_trans; [by apply (grew_same _ _ (set_port p s))|]. eapply grew_mono; [|apply fail_grew]. by left.
Qed.
Lemma deliver_caused env s : permitted env s -> grew (caused env s) s (deliver env s).1.
Proof. intros Hp. eapply grew_mono; [|apply deliver_grew]. intros e [?|?]; [by left|by right]. Qed.
Lemma fail_caused env s t : grew (caused env s) t (fail t).
Proof. eapply grew_mono; [|apply fail_grew]. by left. Qed.
Lemma authorize_caused env sf s : failed s = false -> revoked s = false -> deciding env s = Some sf ->
  grew (caused env s) s (authorize env sf s).1.
Proof.
  intros Hf Hr Hd. unfold authorize. destruct (mappings s !! sf) as [x|] eqn:Hx.
  - case_bool_decide as Hs; [|apply fail_caused]. apply deliver_caused. split; [done|]. split; [done|]. by rewrite Hd, Hx, Hs.
  - destruct (_ && _); [|by apply grew_same].
    assert (E : grew (caused env s) s (submit FocusClearedCommand s).1) by (apply grew_same; unfold submit; by destruct (port_submit _ _)).
    destruct (submit _ s) as [s1 [r|e]]; cbn in *; [done|]. eapply grew_trans; [exact E|apply fail_caused].
Qed.
Lemma accept_destination_caused now env s : grew (caused env s) s (accept_destination now env s).1.
Proof.
  assert (Hc : forall t, grew retiring s t -> grew (caused env s) s t) by (intros t; apply grew_mono; by left).
  unfold accept_destination. pose proof (calmly_grew _ _ (check_access_calmly s)) as Hg.
  destruct (check_access s) as [s1 [|]] eqn:Hk; [|by apply Hc]. cbn [negb]. apply check_access_true in Hk as (-> & Hf & Hr). clear Hg.
  destruct (message env) as [r|i|r| |sf n|r] eqn:Hm.
  - destruct r as [r|f|]; cbn.
    + apply authorize_caused; [done..|]. unfold deciding. by rewrite Hm.
    + unfold accept_focus. case_bool_decide; [apply fail_caused|]. destruct (match focus_surface f with Some sf => _ | None => _ end) as [sf|] eqn:Hs; [|by apply grew_same].
      apply authorize_caused; [done..|]. unfold deciding. by rewrite Hm.
    + apply deliver_caused. split; [done|]. split; [done|]. unfold deciding. by rewrite Hm.
  - apply authorize_caused; [done..|]. unfold deciding. by rewrite Hm.
  - eapply grew_mono; [|apply deliver_grew]. intros e [?|Hce]; [by left|]. unfold carries in Hce. by rewrite Hm in Hce.
  - eapply grew_mono; [|apply deliver_grew]. intros e [?|Hce]; [by left|]. unfold carries in Hce. by rewrite Hm in Hce.
  - apply Hc. unfold accept_cursor. destruct (cursor_in_flight s) as [c|].
    + destruct (n <? _); [by apply grew_same|]. case_bool_decide; [|apply fail_grew].
      eapply grew_trans; [|apply send_next_cursor_grew]. by apply grew_same.
    + destruct (is_some_and _ _); [apply fail_grew|by apply grew_same].
  - apply Hc. unfold accept_gamepad. destruct (_ || _); [apply fail_grew|]. cbv zeta. set (t := with_gamepad_source _ s).
    pose proof (with_gamepad_source_grew (GamepadCapture.expire now) s : grew _ s t) as Ht. clearbody t. destruct (failed t); [exact Ht|].
    eapply grew_trans; [exact Ht|]. apply with_gamepad_source_grew.
Qed.
(** A message for a surface of another session. *)
Definition trespass (env : DestinationEnvelope) s : bool :=
  match deciding env s with
  | Some sf => is_some_and (mappings s !! sf) (fun x => bool_decide (x <> session env))
  | None => false
  end.
Lemma trespass_fails now env s : trespass env s = true -> failed (accept_destination now env s).1 = true.
Proof.
  unfold trespass, accept_destination. intros Ht. destruct (check_access s) as [s1 [|]] eqn:Hk; cbn [negb fst]; [|by eapply check_access_false].
  apply check_access_true in Hk as (-> & _ & _).
  assert (Ha : forall sf, deciding env s = Some sf -> failed (authorize env sf s).1 = true).
  { intros sf Hd. rewrite Hd in Ht. unfold authorize. destruct (mappings s !! sf) as [x|]; [|done]. cbn in Ht.
    apply bool_decide_eq_true in Ht. rewrite bool_decide_eq_false_2 by done. apply fail_failed. }
  unfold deciding in *. destruct (message env) as [[r|f|]|i|r| |sf n|r] eqn:Hm; cbn in Ht |- *; try done.
  - by apply Ha.
  - unfold accept_focus. case_bool_decide; [apply fail_failed|]. destruct (match focus_surface f with Some sf => _ | None => _ end); [by apply Ha|done].
  - by apply Ha.
Qed.

(** C19 (relay-confined). A peer acts on nothing but the surfaces of the session it names.
    Whatever one message adds to the host's queue is a release, or is the very request or
    input of the message, and then the relay was neither failed nor revoked and the surface
    the message is about (the keyboard's, where a focus request names none) is mapped to the
    session of the envelope. The message of a session for a surface of another one ends the
    relay. *)
Theorem relay_confined (now : instant) (env : DestinationEnvelope) (s : relay) :
  let s' := (accept_destination now env s).1 in
  (exists base k, effects s' = base ++ k /\ (base = effects s \/ base = []) /\ Forall (caused env s) k) /\
  (if trespass env s then failed s' = true else True).
Proof.
  split; [apply accept_destination_caused|]. destruct (trespass env s) eqn:Ht; [by apply trespass_fails|done].
Qed.
End SourceAuthority.

(** The administrator withdraws the access while a focus and a key are queued. *)
Definition sample_revoked : sample_relay * list ClientAdapterEffect :=
  relay_run sample_lived [Others (revoke 1 (authority sample_lived.1)).1 (port sample_lived.1) (gamepad_host sample_lived.1)].
Lemma relay_authority_witness :
  let b := relay_run sample_revoked [Polls (fun _ => 2)] in
  let c := relay_run b [Drains] in
  failed sample_revoked.1 = false /\ revoked sample_revoked.1 = true /\
  failed c.1 = true /\ exists k, c.2 = sample_revoked.2 ++ k /\ Forall retiring (k ++ effects c.1).
Proof.
  split; [by vm_compute|]. split; [by vm_compute|]. apply (relay_authority sample_revoked (relay_run sample_revoked [Polls (fun _ => 2)])).
  - by vm_compute.
  - by vm_compute.
  - destruct sample_revoked as [s g]. apply (looks_poll (fun _ => 2)).
  - apply relay_run_steps.
Defined.
Example sample_silenced :
  exists released, (drain_effects (poll (fun _ => 2) sample_revoked.1)).2 = released ++ [InputDisconnected sample_source; reset_scale sample_window] /\
    length released = 2%nat.
Proof. eexists [_; _]. vm_compute. by split. Qed.

(** ** A release that is lost

    The claim of a mapped window is with the host; the window is unmapped, which queues its
    release; the access is revoked before the host comes for it. The queue is cleared, and as
    the relay has no claim of the window any more, giving up releases nothing: the host keeps
    the claim. *)
Definition sample_claimed : sample_relay := (drain_presentation_claims sample_lived.1).1.
Definition sample_unmapped : sample_relay := apply_command (UnmapSource sample_window) sample_claimed.
Definition sample_withdrawn : sample_relay :=
  others (revoke 1 (authority sample_unmapped)).1 (port sample_unmapped) (gamepad_host sample_unmapped) sample_unmapped.
Lemma revocation_loses_release :
  (drain_presentation_claims sample_lived.1).2 = [(sample_window, Active None)] /\
  presentation_updates sample_withdrawn = [(sample_window, Ids.Release)] /\
  (drain_presentation_claims sample_withdrawn).2 = [] /\ presentations (drain_presentation_claims sample_withdrawn).1 = ∅.
Proof. by vm_compute. Qed.
