(* ===== verification/RelayProtocol.v ===== *)
(** * What the source's relay says to its port

    The commands of a relay over its life, as an automaton on the surfaces shown to the
    peer: a surface is mapped once, spoken of only under its session, and gone with its
    withdrawal or destruction. *)

From S2P Require Import Prelude.
From S2P Require Import Effects.
From S2P Require Import OrdMap.
From S2P Require Import Ids.
From S2P Require Import Surface.
From S2P Require Import Input.
From S2P Require Import Access.
From S2P Require Import GamepadCapture.
From S2P Require Import Commit.
From S2P Require Import RemoteInput.
From S2P Require Import SourceRelay.
From S2P Require Import SourceMoves.
From S2P Require Import RelaySample.

(** ** The protocol *)
Section Protocol.
Context {Cu : Type} (source : ClientSourceId).
Abbreviation command := (SourcePortCommand Cu).
Abbreviation shown := (gmap ClientSurfaceId HoistSessionId).
Implicit Types (m : shown) (c : command).
Definition protocol_step m c : option shown :=
  match c with
  | GamepadCommand _ | FocusClearedCommand | RetireUpstreamBuffer _ => Some m
  | MapCommand x sf => if bool_decide (m !! sf = None /\ ClientSurfaceId_source sf = source) then Some (<[sf := x]> m) else None
  | SurfaceCommand x e =>
      if bool_decide (m !! surface e = Some x) then
        match event_kind e with
        | Destroyed => Some (delete (surface e) m)
        | Role (Layer _) => None
        | _ => Some m
        end
      else None
  | CursorCommand x sf _ _ => if bool_decide (m !! sf = Some x) then Some m else None
  | WithdrawCommand x sf => if bool_decide (m !! sf = Some x) then Some (delete sf m) else None
  end.
Definition protocol_run (l : list command) : option shown := foldl (fun o c => m ← o; protocol_step m c) (Some ∅) l.
Lemma protocol_run_snoc l c : protocol_run (l ++ [c]) = m ← protocol_run l; protocol_step m c.
Proof. unfold protocol_run. by rewrite foldl_app. Qed.
End Protocol.

Section RelayProtocol.
Context {P Cu W D : Type} `{EqDecision Cu} {hoist_port : HoistSourcePort P Cu} {host : GamepadHost W D}.
Context {cache_order : HashOrder ClientSurfaceId (CachedSurface Cu)} {session_order : HashOrder ClientSurfaceId HoistSessionId}
  {claim_order : HashOrder ClientSurfaceId ClientPresentationClaim}
  {key_order : HashOrder Z RemoteKeyCapture} {button_order : HashOrder Z (ClientInputTarget * option InputPosition)}.
Abbreviation relay := (SourceRelayAdapter (P := P) (Cu := Cu) (W := W) (D := D)).
Implicit Types (s : relay) (sf : ClientSurfaceId) (x : HoistSessionId).

(** The mappings are what the port was shown; a failed relay may have dropped some. *)
Definition spoken (m : gmap ClientSurfaceId HoistSessionId) s : Prop :=
  protocol_run (upstream_source s) (submitted s) = Some m /\ mappings s ⊆ m /\ (failed s = false -> mappings s = m).
Definition speaks s : Prop := exists m, spoken m s.
(** A step that says nothing. *)
Lemma speaks_silently s s' : submitted s' = submitted s -> upstream_source s' = upstream_source s -> mappings s' ⊆ mappings s ->
  (failed s' = false -> failed s = false /\ mappings s' = mappings s) -> speaks s -> speaks s'.
Proof.
  intros E1 E2 E3 E4 (m & Hr & Hs & He). exists m. unfold spoken. rewrite E1, E2. split; [done|]. split; [by etrans|].
  intros [Hf ->]%E4. by apply He.
Qed.
Lemma speaks_same s s' : submitted s' = submitted s -> upstream_source s' = upstream_source s -> mappings s' = mappings s ->
  failed s' = failed s -> speaks s -> speaks s'.
Proof. intros E1 E2 E3 E4. apply speaks_silently; [done..| |]; [by rewrite E3|by rewrite E3, E4]. Qed.
Lemma calmly_speaks s s' : calmly s s' -> speaks s -> speaks s'.
Proof.
  intros [E1 E2 E3 _ E5]%calmly_failing. apply speaks_silently; [done..|by rewrite E1|]. intros Hf. split; [|done].
  apply not_true_is_false. intros F%E5. congruence.
Qed.
(** A command that keeps the mappings as the port has them. *)
Lemma submit_fields c s : submitted (submit c s).1 = submitted s ++ [c] /\ upstream_source (submit c s).1 = upstream_source s /\
  mappings (submit c s).1 = mappings s /\ failed (submit c s).1 = failed s.
Proof. unfold submit. by destruct (port_submit _ _). Qed.
Lemma speaks_submit c s m m' : protocol_run (upstream_source s) (submitted s) = Some m -> protocol_step (upstream_source s) m c = Some m' ->
  mappings s ⊆ m' -> (failed s = false -> mappings s = m') -> speaks (submit c s).1.
Proof.
  intros Hr Hc Hs He. destruct (submit_fields c s) as (E1 & E2 & E3 & E4). exists m'. unfold spoken.
  rewrite E1, E2, E3, E4, protocol_run_snoc, Hr. done.
Qed.
Lemma says_speaks c s : sayable s c -> speaks s -> speaks (submit c s).1.
Proof.
  intros Hc (m & Hr & Hs & He). eapply speaks_submit; [done| |exact Hs|done].
  destruct c as [a| |x sf|x e|x sf cu n|x sf|b]; cbn in *; try done.
  - destruct Hc as [Hm Hk]. rewrite bool_decide_eq_true_2 by (by eapply lookup_weaken). destruct (event_kind e) as [[]| | | | |]; done.
  - rewrite bool_decide_eq_true_2 by (by eapply lookup_weaken). done.
Qed.
(** A surface taken off, and the port told. *)
Lemma takes_off_speaks c sf x s t : mappings s !! sf = Some x ->
  (forall m, m !! sf = Some x -> protocol_step (upstream_source s) m c = Some (delete sf m)) ->
  submitted t = submitted s -> upstream_source t = upstream_source s -> mappings t = delete sf (mappings s) -> failed t = failed s ->
  speaks s -> speaks (submit c t).1.
Proof.
  intros Hx Hc E1 E2 E3 E4 (m & Hr & Hs & He). eapply (speaks_submit c t m (delete sf m)).
  - by rewrite E1, E2.
  - rewrite E2. apply Hc. by eapply lookup_weaken.
  - rewrite E3. by apply delete_mono.
  - rewrite E3, E4. intros Hf. by rewrite (He Hf).
Qed.
Lemma move_speaks s s' : move s s' -> speaks s -> speaks s'.
Proof.
  intros [a b Hc|a c Hc|a p|a b sf x Hf Hm Hu Hc|a sf x Hm|a sf x Hf Hm|a b sf Hc Hg|a r Hf Hr Hm|a i Hf Hr Hm|a Hf Hr|a id Ha] H.
  - by eapply calmly_speaks; [apply rtc_once|].
  - by apply says_speaks.
  - destruct (released_fields p a) as (_ & _ & E1 & E2 & E3 & E4 & _). by eapply speaks_same.
  - destruct H as (m & Hr & Hs & He). destruct (calmly_failing _ _ Hc) as [E1 E2 E3 _ _]. cbn in E1, E2, E3.
    rewrite (He Hf) in *. eapply (speaks_submit _ b m (<[sf := x]> m)).
    + by rewrite E2, E3.
    + cbn. rewrite bool_decide_eq_true_2; [done|]. by rewrite E3.
    + by rewrite E1.
    + by rewrite E1.
  - destruct (take_off_fields sf a) as (E1 & E2 & E3 & E4 & _). eapply takes_off_speaks; [exact Hm| |done..].
    intros m Hx. cbn. by rewrite bool_decide_eq_true_2.
  - destruct (let_go_fields sf a) as (E1 & E2 & E3 & E4 & _). eapply takes_off_speaks; [exact Hm| |done..].
    intros m Hx. cbn. by rewrite bool_decide_eq_true_2.
  - destruct (let_go_fields sf a) as (E1 & E2 & E3 & E4 & _). destruct (calmly_failing _ _ Hc) as [F1 F2 F3 _ F5].
    eapply speaks_silently; [by rewrite F2|by rewrite F3|rewrite F1, E1; apply delete_subseteq| |done].
    intros Hf. destruct Hg as [Hg|Hg]; [|congruence]. split.
    + rewrite <- E2. apply not_true_is_false. intros F%F5. congruence.
    + rewrite F1, E1. by apply delete_id.
  - eapply speaks_same; [..|done]; done.
  - assert (Hq : forall l l', speaks (set_effects l (set_remote_input l' a))) by (intros l l'; eapply speaks_same; [..|done]; done).
    unfold take_input. destruct (observe_input _ _) as [l [|]]; [apply Hq|]. eapply speaks_same; [..|done]; done.
  - eapply speaks_same; [..|done]; done.
  - eapply speaks_same; [..|done]; done.
Qed.

(** C12 (relay-protocol). What a relay says to its port over its life is a well-formed
    conversation: it maps only surfaces of its own machine, each once until it is withdrawn
    or destroyed, it sends roles, metadata, commits and cursors of mapped surfaces only and
    under their session, never a desktop layer, and takes off only what it mapped. While the
    relay has not failed, its mappings are exactly what the port was shown; after, they are
    among it. *)
Theorem relay_protocol (r : relay * list ClientAdapterEffect) (H : relay_history r) :
  exists m, protocol_run (upstream_source r.1) (submitted r.1) = Some m /\ mappings r.1 ⊆ m /\ (failed r.1 = false -> mappings r.1 = m).
Proof.
  revert r H. apply (relay_history_ind (fun s _ => speaks s)).
  - intros s (provider & cached & a & w & source & p & adm & ->). by exists ∅.
  - intros s s' _. apply move_speaks.
  - intros s g p H. eapply speaks_same; [..|done]; done.
  - intros s g l H. eapply speaks_same; [..|done]; done.
  - intros s g a p w H. eapply speaks_same; [..|done]; done.
Qed.
End RelayProtocol.

Lemma relay_protocol_witness : relay_history sample_lived /\
  exists m, protocol_run (upstream_source sample_lived.1) (submitted sample_lived.1) = Some m /\
    mappings sample_lived.1 ⊆ m /\ (failed sample_lived.1 = false -> mappings sample_lived.1 = m).
Proof. split; [apply sample_history|]. apply (relay_protocol sample_lived), sample_history. Defined.
