(* ===== verification/RelayTermination.v ===== *)
(** * The relay's recursions end

    Mapping, unmapping and a presentation claim go on to the popups of a surface, popups of
    popups included, whatever the roles say. The fuel the definitions start with is enough:
    each call takes a surface out of a finite set that nothing refills. *)

From S2P Require Import Prelude.
From S2P Require Import Effects.
From S2P Require Import OrdMap.
From S2P Require Import Ids.
From S2P Require Import Surface.
From S2P Require Import Input.
From S2P Require Import Access.
From S2P Require Import GamepadCapture.
From S2P Require Import Commit.
From S2P Require Import RemoteInput.
From S2P Require Import SourceRelay.
From S2P Require Import SourceMoves.

Section RelayTermination.
Context {P Cu W D : Type} `{EqDecision Cu} {hoist_port : HoistSourcePort P Cu} {host : GamepadHost W D}.
Context {cache_order : HashOrder ClientSurfaceId (CachedSurface Cu)} {session_order : HashOrder ClientSurfaceId HoistSessionId}
  {claim_order : HashOrder ClientSurfaceId ClientPresentationClaim}
  {key_order : HashOrder Z RemoteKeyCapture} {button_order : HashOrder Z (ClientInputTarget * option InputPosition)}.
Abbreviation relay := (SourceRelayAdapter (P := P) (Cu := Cu) (W := W) (D := D)).
Implicit Types (s : relay) (sf : ClientSurfaceId) (x : HoistSessionId).

(** ** A fold whose steps need less fuel *)
Lemma foldl_fuel {A} (f g : relay -> A -> relay) (ok : relay -> Prop) l s :
  (forall s a, ok s -> f s a = g s a) -> (forall s a, ok s -> ok (g s a)) -> ok s -> foldl f s l = foldl g s l.
Proof. intros Hfg Hg. revert s. induction l as [|a l IH]; intros s Hs; [done|]. cbn. rewrite Hfg by done. apply IH. by apply Hg. Qed.

(** ** Unmapping *)
Lemma unmap_one_mappings x sf s : mappings (unmap_one x sf s).1 = delete sf (mappings s).
Proof.
  destruct (take_off_fields sf s) as (E & _). unfold unmap_one. destruct (submit_quiet (WithdrawCommand x sf) (take_off sf s)) as [E' _].
  destruct (submit _ _) as [t [r|e]]; cbn in *; rewrite ?fail_mappings; congruence.
Qed.
Lemma unmap_from_mappings fuel s sf : mappings (unmap_from fuel s sf) ⊆ mappings s.
Proof.
  revert s sf. induction fuel as [|fuel IH]; intros s sf; [done|]. cbn. destruct (mappings s !! sf) as [x|]; [|done].
  pose proof (unmap_one_mappings x sf (set_pending_maps (delete sf (pending_maps s)) s)) as E. cbn in E.
  destruct (unmap_one _ _ _) as [t popups]. cbn in E. etrans; [|apply (delete_subseteq _ sf)]. rewrite <- E. clear E.
  revert t. induction popups as [|a l IHl]; intros t; cbn; [done|]. etrans; [apply IHl|apply IH].
Qed.
Lemma unmap_from_fuel n k s sf : (size (mappings s) < n)%nat -> unmap_from (n + k) s sf = unmap_from n s sf.
Proof.
  revert s sf. induction n as [|n IH]; intros s sf Hn; [lia|]. cbn. destruct (mappings s !! sf) as [x|] eqn:Hx; [|done].
  pose proof (unmap_one_mappings x sf (set_pending_maps (delete sf (pending_maps s)) s)) as E. cbn in E.
  destruct (unmap_one _ _ _) as [t popups]. cbn in E.
  apply (foldl_fuel _ _ (fun s => size (mappings s) < n)%nat).
  - intros u a Hu. by apply IH.
  - intros u a Hu. eapply Nat.le_lt_trans; [|exact Hu]. apply map_subseteq_size, unmap_from_mappings.
  - rewrite E, map_size_delete_Some by (by eexists). assert (size (mappings s) <> 0)%nat; [|lia].
    apply map_size_non_empty_iff. intros He. by rewrite He in Hx.
Qed.

(** ** Mapping *)
(** The cache forgets and the mappings grow. *)
Record narrows s s' : Prop := {
  narrow_cache : dom (cache s') ⊆ dom (cache s);
  narrow_mappings : dom (mappings s) ⊆ dom (mappings s');
}.
#[local] Instance narrows_po : PreOrder narrows.
Proof. split; [by split|]. intros a b c [] []. split; by etrans. Qed.
Lemma narrows_same s s' : cache s' = cache s -> mappings s' = mappings s -> narrows s s'.
Proof. intros E1 E2. split; by rewrite ?E1, ?E2. Qed.
Lemma narrows_foldl {A} (f : relay -> A -> relay) l s : (forall s a, narrows s (f s a)) -> narrows s (foldl f s l).
Proof. intros Hf. revert s. induction l as [|a l IH]; intros s; [done|]. cbn. etrans; [apply Hf|apply IH]. Qed.
Lemma fail_narrows s : narrows s (fail s).
Proof.
  split; [|by rewrite fail_mappings]. unfold fail. destruct (failed s); [done|]. cbv zeta. generalize (released (fun _ => true) (quit s)).
  intros t. cbn. rewrite dom_empty_L. apply empty_subseteq.
Qed.
Lemma check_access_narrows s : narrows s (check_access s).1.
Proof.
  unfold check_access. destruct (failed s); [done|]. destruct (revoked s); [|done]. cbn [fst]. etrans; [|apply fail_narrows]. by apply narrows_same.
Qed.
Lemma submit_narrows c s : narrows s (submit c s).1.
Proof. destruct (submit_quiet c s) as (? & ? & _). by apply narrows_same. Qed.
Lemma submit_or_fail_narrows c s : narrows s (submit_or_fail c s).
Proof. unfold submit_or_fail. pose proof (submit_narrows c s). destruct (submit c s) as [t [r|e]]; [done|]. etrans; [done|apply fail_narrows]. Qed.
Lemma send_surface_narrows x e s : narrows s (send_surface x e s).
Proof.
  unfold send_surface. pose proof (check_access_narrows s). destruct (check_access s) as [t [|]]; [|done].
  etrans; [done|apply submit_or_fail_narrows].
Qed.
Lemma update_cached_narrows f sf s : narrows s (update_cached f sf s).
Proof. split; [|done]. cbn. by rewrite dom_alter_L. Qed.
Lemma set_presentation_from_narrows fuel claim s sf : narrows s (set_presentation_from fuel claim s sf).
Proof.
  revert s sf. induction fuel as [|fuel IH]; intros s sf; [done|]. cbn. pose proof (check_access_narrows s).
  destruct (check_access s) as [t ok]. etrans; [done|]. destruct (negb ok || _); [done|]. case_bool_decide; [done|].
  destruct (port_presentation _ _ _) as [p [c|e]].
  - etrans; [|by apply narrows_foldl]. by apply narrows_same.
  - etrans; [|apply fail_narrows]. by apply narrows_same.
Qed.
Lemma send_cursor_narrows sf x cursor s : narrows s (send_cursor sf x cursor s).
Proof.
  unfold send_cursor. destruct (next_cursor_sequence s); [|apply fail_narrows]. etrans; [|apply submit_or_fail_narrows].
  split; [|done]. cbn. by rewrite dom_alter_L.
Qed.
Lemma send_first_cursor_narrows l s : narrows s (send_first_cursor l s).
Proof.
  revert s. induction l as [|sf l IH]; intros s; cbn; [by apply narrows_same|]. destruct (due_cursor sf s) as [[x cursor]|]; [|done].
  etrans; [|apply send_cursor_narrows]. by apply narrows_same.
Qed.
Lemma queue_cursor_narrows sf s : narrows s (queue_cursor sf s).
Proof.
  unfold queue_cursor. destruct (_ || _); [done|]. cbv zeta. set (t := set_pending_cursors _ s). assert (Ht : narrows s t) by by apply narrows_same.
  etrans; [exact Ht|]. clearbody t. unfold send_next_cursor. pose proof (check_access_narrows t). destruct (check_access t) as [u ok].
  etrans; [done|]. destruct (negb ok || _); [done|apply send_first_cursor_narrows].
Qed.
Lemma replay_narrows x sf s : narrows s (replay x sf s).
Proof.
  unfold replay. destruct (cache s !! sf) as [c|]; [|done].
  set (s1 := match cached_role c with Some r => _ | None => s end).
  assert (H1 : narrows s s1) by (subst s1; destruct (cached_role c); [apply send_surface_narrows|done]). clearbody s1. etrans; [exact H1|].
  set (s2 := match cached_metadata c with Some m => _ | None => s1 end).
  assert (H2 : narrows s1 s2).
  { subst s2. destruct (cached_metadata c); [|done]. etrans; [|apply send_surface_narrows]. apply update_cached_narrows. }
  clearbody s2. etrans; [exact H2|]. destruct (cached_commit c); [apply send_surface_narrows|done].
Qed.
Lemma map_one_narrows x sf s : narrows (set_mappings (<[sf := x]> (mappings s)) s) (map_one x sf s).1.
Proof.
  unfold map_one. set (s1 := set_mappings _ s). pose proof (set_presentation_from_narrows (S (size (mappings s1))) (first_claim sf s1) s1 sf) as H1.
  fold (set_presentation sf (first_claim sf s1) s1) in H1. set (s2 := set_presentation _ _ s1) in *. clearbody s2.
  pose proof (submit_narrows (MapCommand x sf) s2) as H2. destruct (submit _ s2) as [s3 [r|e]]; cbn [fst] in *; (etrans; [exact H1|]); (etrans; [exact H2|]).
  - etrans; [apply replay_narrows|apply queue_cursor_narrows].
  - apply fail_narrows.
Qed.
Lemma map_one_grows x sf s : narrows s (map_one x sf s).1.
Proof. etrans; [|apply map_one_narrows]. split; [done|]. cbn. rewrite dom_insert_L. apply union_subseteq_r. Qed.
Lemma map_from_narrows fuel x s sf : narrows s (map_from fuel x s sf).
Proof.
  revert s sf. induction fuel as [|fuel IH]; intros s sf; [done|]. cbn. pose proof (check_access_narrows s).
  destruct (check_access s) as [t ok]. etrans; [done|]. destruct (negb ok || _); [done|].
  destruct (role_of sf t) as [r|]; [|by apply narrows_same]. destruct (match r with Toplevel _ => _ | Popup _ => _ | Layer _ => _ end); [|done].
  pose proof (map_one_grows x sf t). destruct (map_one x sf t) as [u popups]. etrans; [done|]. by apply narrows_foldl.
Qed.
(** The cached surfaces that may still be mapped. *)
Definition unmapped s : nat := size (dom (cache s) ∖ dom (mappings s)).
Lemma narrows_unmapped s s' : narrows s s' -> (unmapped s' <= unmapped s)%nat.
Proof. intros [H1 H2]. unfold unmapped. apply subseteq_size. set_solver. Qed.
Lemma map_from_fuel n k x s sf : (unmapped s < n)%nat -> map_from (n + k) x s sf = map_from n x s sf.
Proof.
  revert s sf. induction n as [|n IH]; intros s sf Hn; [lia|]. cbn. pose proof (narrows_unmapped _ _ (check_access_narrows s)) as Hc.
  destruct (check_access s) as [t ok]. cbn in Hc. destruct (negb ok || negb (may_map sf t)) eqn:Hm; [done|].
  destruct (role_of sf t) as [r|] eqn:Hr; [|done]. destruct (match r with Toplevel _ => _ | Popup _ => _ | Layer _ => _ end); [|done].
  pose proof (narrows_unmapped _ _ (map_one_narrows x sf t)) as H1. destruct (map_one x sf t) as [u popups]. cbn [fst] in H1.
  apply (foldl_fuel _ _ (fun s => unmapped s < n)%nat).
  - intros v a Hv. by apply IH.
  - intros v a Hv. eapply Nat.le_lt_trans; [|exact Hv]. apply narrows_unmapped, map_from_narrows.
  - apply orb_false_iff in Hm as [_ Hm%negb_false_iff]. unfold may_map in Hm. apply andb_true_iff in Hm as [_ Hm%bool_decide_eq_true].
    enough (unmapped (set_mappings (<[sf:=x]> (mappings t)) t) < unmapped t)%nat by lia.
    unfold unmapped. apply subset_size. cbn. rewrite dom_insert_L. apply not_elem_of_dom in Hm.
    assert (sf ∈ dom (cache t)). { apply elem_of_dom. unfold role_of in Hr. destruct (cache t !! sf); [by eexists|done]. }
    set_solver.
Qed.

(** ** Presentation claims *)
(** The mapped surfaces another claim, or none, is on. *)
Definition unclaimed (claim : ClientPresentationClaim) s : nat :=
  size (filter (fun sf => presentations s !! sf <> Some claim) (dom (mappings s))).
Definition settles (claim : ClientPresentationClaim) s s' : Prop :=
  failed s' = true \/ failed s = false /\ (unclaimed claim s' <= unclaimed claim s)%nat.
#[local] Instance settles_trans claim : Transitive (settles claim).
Proof. intros a b c [Hb|[Hb Hl]] [Hc|[Hc Hl']]; unfold settles; try (by left); [congruence|]. right. split; [done|lia]. Qed.
Lemma settles_refl claim s : settles claim s s.
Proof. unfold settles. destruct (failed s); [by left|by right]. Qed.
Lemma settles_foldl {A} claim (f : relay -> A -> relay) l s : (forall s a, settles claim s (f s a)) -> settles claim s (foldl f s l).
Proof. intros Hf. revert s. induction l as [|a l IH]; intros s; [apply settles_refl|]. cbn. etrans; [apply Hf|apply IH]. Qed.
Definition claim_one (sf : ClientSurfaceId) (claim accepted : ClientPresentationClaim) (p : P) s : relay :=
  let t := set_presentations (<[sf := claim]> (presentations s)) s in
  set_presentation_updates (presentation_updates t ++ [(sf, accepted)]) (set_port p t).
Lemma claim_one_unclaimed sf claim accepted p s : is_Some (mappings s !! sf) -> presentations s !! sf <> Some claim ->
  (unclaimed claim (claim_one sf claim accepted p s) < unclaimed claim s)%nat.
Proof.
  intros Hm%elem_of_dom Hp. unfold unclaimed. apply subset_size. cbn. split.
  - intros y [Hy Hd]%elem_of_filter. apply elem_of_filter. split; [|done]. destruct (decide (y = sf)) as [->|]; [done|].
    by rewrite lookup_insert_ne in Hy.
  - intros Hs. specialize (Hs sf). rewrite !elem_of_filter, lookup_insert_eq in Hs. by destruct Hs.
Qed.
Lemma set_presentation_from_settles fuel claim s sf : settles claim s (set_presentation_from fuel claim s sf).
Proof.
  revert s sf. induction fuel as [|fuel IH]; intros s sf; [apply settles_refl|]. cbn. destruct (check_access s) as [t ok] eqn:Hc. destruct ok.
  - apply check_access_true in Hc as (-> & Hf & _). cbn. case_bool_decide as Hm; [apply settles_refl|]. case_bool_decide as Hp; [apply settles_refl|].
    destruct (port_presentation _ _ _) as [p [c|e]]; [|left; apply fail_failed].
    etrans; [|by apply settles_foldl]. right. split; [done|]. apply not_eq_None_Some in Hm.
    pose proof (claim_one_unclaimed sf claim c p s Hm Hp) as Hl. unfold claim_one in Hl. cbn in Hl |- *. lia.
  - left. by eapply check_access_false.
Qed.
Lemma set_presentation_from_fuel n k claim s sf : failed s = true \/ (unclaimed claim s < n)%nat ->
  set_presentation_from (n + k) claim s sf = set_presentation_from n claim s sf.
Proof.
  revert s sf. induction n as [|n IH]; intros s sf Hn.
  { destruct Hn as [Hf|]; [|lia]. destruct k; cbn; [done|]. unfold check_access. by rewrite Hf. }
  cbn. destruct (check_access s) as [t [|]] eqn:Hc; [|done]. apply check_access_true in Hc as (-> & Hf & _). cbn.
  case_bool_decide as Hm; [done|]. case_bool_decide as Hp; [done|]. destruct (port_presentation _ _ _) as [p [c|e]]; [|done].
  apply (foldl_fuel _ _ (fun s => failed s = true \/ (unclaimed claim s < n)%nat)).
  - intros u a Hu. by apply IH.
  - intros u a Hu. destruct (set_presentation_from_settles n claim u a) as [?|[Hu' Hl]]; [by left|]. right. destruct Hu as [?|?]; [congruence|lia].
  - right. apply not_eq_None_Some in Hm. pose proof (claim_one_unclaimed sf claim c p s Hm Hp) as Hl. unfold claim_one in Hl. cbn in Hl |- *. destruct Hn; [congruence|lia].
Qed.

(** C35 (relay-termination). The relay's recursions over popups end. Whatever owners the
    roles of the surfaces name, cycles and missing ones included, mapping a surface with its
    popups, unmapping one with its mapped popups, and passing a presentation claim on come to
    the same result with any more fuel than the relay starts them with. *)
Theorem relay_recursion_total (k : nat) (x : HoistSessionId) (claim : ClientPresentationClaim) (sf : ClientSurfaceId) (s : relay) :
  map_from (S (size (cache s)) + k) x s sf = map x sf s /\
  unmap_from (S (size (mappings s)) + k) s sf = unmap s sf /\
  set_presentation_from (S (size (mappings s)) + k) claim s sf = set_presentation sf claim s.
Proof.
  split; [|split].
  - apply map_from_fuel. unfold unmapped. rewrite <- size_dom. apply Nat.lt_succ_r, subseteq_size. set_solver.
  - apply unmap_from_fuel. lia.
  - apply set_presentation_from_fuel. right. unfold unclaimed. rewrite <- size_dom. apply Nat.lt_succ_r, subseteq_size. set_solver.
Qed.
End RelayTermination.
