(* ===== verification/DestinationRelay.v ===== *)
(** * The destination's relay ([weld-hoist-core/src/relay.rs], [DestinationRelayAdapter])

    The relay shows the surfaces a source maps for it as surfaces of its own, with their
    identities relocated, and forwards the input and the requests its host sends them, under
    the session of the surface. The port behind it is an interface. [journal] is what the
    relay heard, told its port and announced to its host, kept for the theorems. *)

From S2P Require Import Prelude.
From S2P Require Import Effects.
From S2P Require Import OrdMap.
From S2P Require Import Ids.
From S2P Require Import Surface.
From S2P Require Import Input.
From S2P Require Import TouchLedger.
From S2P Require Import GamepadCapture.
From S2P Require Import Commit.
From S2P Require Import PendingEvents.
From S2P Require Import RemoteInput.
From S2P Require Import SourceRelay.
From S2P Require Import DestinationPort.

(** ** Identities *)
(** [relocated_surface] (weld-hoist-core/src/lib.rs) *)
Definition relocated_surface (destination : ClientSourceId) (sf : ClientSurfaceId) : ClientSurfaceId :=
  MkClientSurfaceId (MkClientId destination (ClientId_local (ClientSurfaceId_client sf))) (ClientSurfaceId_local sf).
Lemma relocated_source d sf : ClientSurfaceId_source (relocated_surface d sf) = d.
Proof. done. Qed.
Lemma relocated_back sf d : relocated_surface (ClientSurfaceId_source sf) (relocated_surface d sf) = sf.
Proof. by destruct sf as [[] ?]. Qed.
(** [rewrite_request_surface] *)
Definition for_source (k : ClientSurfaceRequestKind) : ClientSurfaceRequestKind :=
  match k with SetOutputs _ _ preferred_scale_120 => SetPreferredScale preferred_scale_120 | k => k end.
Definition rewrite_request_surface (sf : ClientSurfaceId) (r : ClientRequest) : ClientRequest :=
  match r with
  | SurfaceRequest r => SurfaceRequest (MkSurfaceRequest sf (for_source (request_kind r)))
  | FocusRequest _ => FocusRequest (MkFocusRequest (ClientSurfaceId_source sf) (Some sf))
  | ClearFocus => ClearFocus
  end.
Definition retarget (sf : ClientSurfaceId) (t : ClientInputTarget) : ClientInputTarget :=
  match t with
  | TouchTarget _ layer => TouchTarget sf layer
  | PointerTarget _ layer => PointerTarget sf layer
  | KeyboardTarget _ => KeyboardTarget sf
  end.

(** ** The port *)
Record ClientCursorUpdate (C : Type) := MkCursorUpdate { updated_surface : ClientSurfaceId; updated_cursor : C }.
Arguments MkCursorUpdate {C}. Arguments updated_surface {C}. Arguments updated_cursor {C}.
(** [HoistDestinationPort], without its route aliases. *)
Class HoistDestinationPort (Q C : Type) := {
  shown_poll : Q -> Q * (list (DestinationPortRecord (ClientCursorUpdate C)) + error);
  shown_submit : DestinationPortCommand -> Q -> Q * (unit + error);
  shown_disconnect : Q -> Q;
}.

Section DestinationRelay.
Context {Q C : Type} {shown_port : HoistDestinationPort Q C}.
Context {session_order : HashOrder ClientSurfaceId HoistSessionId} {role_order : HashOrder ClientSurfaceId ClientSurfaceRole}
  {cursor_order : HashOrder ClientSurfaceId C}
  {key_order : HashOrder Z RemoteKeyCapture} {button_order : HashOrder Z (ClientInputTarget * option InputPosition)}.
Abbreviation record := (DestinationPortRecord (ClientCursorUpdate C)).
Abbreviation Event := (ClientSurfaceEvent ClientBufferLease).
Inductive noted :=
  | Heard (r : record)
  | Told (c : DestinationPortCommand)
  | Announced (e : Event).
Record DestinationRelayAdapter := MkDestinationRelay {
  controller : option GamepadCapture.Pending;
  mirrored : ClientSourceId;
  descriptor_id : ClientSourceId;
  sessions : gmap ClientSurfaceId HoistSessionId;
  roles : gmap ClientSurfaceId ClientSurfaceRole;
  events : list (PendingEvent unit ClientBufferLease);
  held_input : RemoteInputState;
  destination_failed : bool;
  shown : Q;
  cursor_updates : gmap ClientSurfaceId C;
  journal : list noted;
}.
Abbreviation relay := DestinationRelayAdapter.
(** [new], [with_gamepad] *)
Definition DestinationRelayAdapter_new (upstream id : ClientSourceId) (q : Q) : relay :=
  MkDestinationRelay None upstream id ∅ ∅ [] RemoteInputState_default false q ∅ [].
Definition set_controller (x : option GamepadCapture.Pending) (s : relay) : relay :=
  MkDestinationRelay x (mirrored s) (descriptor_id s) (sessions s) (roles s) (events s) (held_input s)
    (destination_failed s) (shown s) (cursor_updates s) (journal s).
Definition set_sessions (x : gmap ClientSurfaceId HoistSessionId) (s : relay) : relay :=
  MkDestinationRelay (controller s) (mirrored s) (descriptor_id s) x (roles s) (events s) (held_input s)
    (destination_failed s) (shown s) (cursor_updates s) (journal s).
Definition set_roles (x : gmap ClientSurfaceId ClientSurfaceRole) (s : relay) : relay :=
  MkDestinationRelay (controller s) (mirrored s) (descriptor_id s) (sessions s) x (events s) (held_input s)
    (destination_failed s) (shown s) (cursor_updates s) (journal s).
Definition set_events (x : list (PendingEvent unit ClientBufferLease)) (s : relay) : relay :=
  MkDestinationRelay (controller s) (mirrored s) (descriptor_id s) (sessions s) (roles s) x (held_input s)
    (destination_failed s) (shown s) (cursor_updates s) (journal s).
Definition set_held_input (x : RemoteInputState) (s : relay) : relay :=
  MkDestinationRelay (controller s) (mirrored s) (descriptor_id s) (sessions s) (roles s) (events s) x
    (destination_failed s) (shown s) (cursor_updates s) (journal s).
Definition set_destination_failed (x : bool) (s : relay) : relay :=
  MkDestinationRelay (controller s) (mirrored s) (descriptor_id s) (sessions s) (roles s) (events s) (held_input
    s) x (shown s) (cursor_updates s) (journal s).
Definition set_shown (x : Q) (s : relay) : relay :=
  MkDestinationRelay (controller s) (mirrored s) (descriptor_id s) (sessions s) (roles s) (events s) (held_input
    s) (destination_failed s) x (cursor_updates s) (journal s).
Definition set_cursor_updates (x : gmap ClientSurfaceId C) (s : relay) : relay :=
  MkDestinationRelay (controller s) (mirrored s) (descriptor_id s) (sessions s) (roles s) (events s) (held_input
    s) (destination_failed s) (shown s) x (journal s).
Definition set_journal (x : list noted) (s : relay) : relay :=
  MkDestinationRelay (controller s) (mirrored s) (descriptor_id s) (sessions s) (roles s) (events s) (held_input
    s) (destination_failed s) (shown s) (cursor_updates s) x.
Definition with_controller (g : option GamepadCapture.Pending) (s : relay) : relay := set_controller g s.

(** ** Telling and announcing *)
Definition note (n : noted) (s : relay) : relay := set_journal (journal s ++ [n]) s.
Definition tell (c : DestinationPortCommand) (s : relay) : relay * (unit + error) :=
  let '(q, r) := shown_submit c (shown s) in (note (Told c) (set_shown q s), r).
Definition announce (e : Event) (s : relay) : relay := note (Announced e) (set_events (push tt e (events s)).1 s).
Definition here (sf : ClientSurfaceId) (s : relay) : ClientSurfaceId := relocated_surface (descriptor_id s) sf.
(** [source_surface] *)
Definition source_surface (destination : ClientSurfaceId) (s : relay) : option ClientSurfaceId :=
  if bool_decide (ClientSurfaceId_source destination = descriptor_id s) then Some (relocated_surface (mirrored s) destination) else None.

(** ** Taking off *)
(** [destroy_surface]: without and with the port's notice. *)
Definition forget_surface (sf : ClientSurfaceId) (s : relay) : relay :=
  let s := set_roles (delete sf (roles s)) (set_sessions (delete sf (sessions s)) s) in
  set_held_input (release_effects (descriptor_id s) (fun x => bool_decide (x = here sf s)) (held_input s)).1 s.
Definition forget_feedback (sf : ClientSurfaceId) (s : relay) : relay := set_cursor_updates (delete (here sf s) (cursor_updates s)) s.
Definition announce_destroyed (sf : ClientSurfaceId) (s : relay) : relay := announce (MkClientSurfaceEvent (here sf s) Destroyed) s.
Definition destroy_quietly (s : relay) (sf : ClientSurfaceId) : relay :=
  let s := forget_feedback sf s in
  if bool_decide (sessions s !! sf = None) then s else announce_destroyed sf (forget_surface sf s).
(** [fail] *)
Definition shut (s : relay) : relay :=
  set_shown (shown_disconnect (shown s)) (set_controller (GamepadCapture.disconnect <$> controller s) (set_destination_failed true s)).
Definition fail_destination (s : relay) : relay :=
  if destination_failed s then s else foldl destroy_quietly (shut s) (fst <$> visit (sessions s)).
Definition tell_or_fail (c : DestinationPortCommand) (s : relay) : relay :=
  match tell c s with (s, inl _) => s | (s, inr _) => fail_destination s end.
Definition destroy_surface (s : relay) (sf : ClientSurfaceId) : relay :=
  let s := forget_feedback sf s in
  if bool_decide (sessions s !! sf = None) then s
  else announce_destroyed sf (tell_or_fail (RouteUnmapped (here sf s)) (forget_surface sf s)).
(** [end_session] *)
Definition end_session (x : HoistSessionId) (s : relay) : relay :=
  foldl destroy_surface s (fst <$> filter (fun y => y.2 = x) (visit (sessions s))).
(** [send_destination] *)
Definition send_destination (x : HoistSessionId) (m : DestinationMessage) (s : relay) : relay :=
  tell_or_fail (Message (MkDestinationEnvelope x m)) s.

(** ** Showing *)
(** [relocated_role] *)
Definition relocated_parent (s : relay) (parent : ClientSurfaceId) : option ClientSurfaceId :=
  if bool_decide (is_Some (sessions s !! parent)) then Some (here parent s) else None.
Definition relocated_role (r : ClientSurfaceRole) (s : relay) : option ClientSurfaceRole :=
  match r with
  | Layer _ => None
  | Toplevel t => Some (Toplevel (MkToplevelState (toplevel_parent t ≫= relocated_parent s) (decoration t) (hints t)))
  | Popup p => (fun owner => Popup (MkPopupState owner (popup_position p) (popup_stack_index p))) <$> relocated_parent s (popup_owner p)
  end.
Definition announce_role (s : relay) (x : ClientSurfaceId * ClientSurfaceRole) : relay :=
  match relocated_role x.2 s with Some r => announce (MkClientSurfaceEvent (here x.1 s) (Role r)) s | None => s end.
(** [refresh_children_of] *)
Definition is_child_of (parent : ClientSurfaceId) (s : relay) (x : ClientSurfaceId * ClientSurfaceRole) : bool :=
  match x.2 with
  | Toplevel t => bool_decide (toplevel_parent t = Some parent)
  | Popup p => bool_decide (popup_owner p = parent)
  | Layer _ => false
  end && bool_decide (is_Some (sessions s !! x.1)).
Definition refresh_children_of (parent : ClientSurfaceId) (s : relay) : relay :=
  foldl announce_role s (filter (fun x => is_child_of parent s x = true) (visit (roles s))).
(** [map_surface] *)
Definition map_surface (x : HoistSessionId) (sf : ClientSurfaceId) (s : relay) : relay * bool :=
  if bool_decide (ClientSurfaceId_source sf <> mirrored s) then (fail_destination s, false)
  else
    match sessions s !! sf with
    | Some current => if bool_decide (current = x) then (s, true) else (fail_destination s, false)
    | None =>
        let s := set_sessions (<[sf := x]> (sessions s)) s in
        match tell (RouteMapped sf (here sf s)) s with
        | (s, inr _) => (fail_destination s, false)
        | (s, inl _) => (refresh_children_of sf s, true)
        end
    end.

(** ** Records of the port *)
(** [apply_record] *)
Definition apply_gamepad (x : HoistSessionId) (status : GamepadStatus) (s : relay) : relay * bool :=
  if bool_decide (x <> GAMEPAD_SESSION) then (fail_destination s, false)
  else (set_controller (GamepadCapture.observe status <$> controller s) s, true).
Definition acknowledge (x : HoistSessionId) (sf : ClientSurfaceId) (sequence : Z) (s : relay) : relay :=
  send_destination x (CursorReceived sf sequence) s.
Definition apply_cursor (x : HoistSessionId) (u : ClientCursorUpdate C) (sequence : Z) (s : relay) : relay * bool :=
  let sf := updated_surface u in
  if bool_decide (ClientSurfaceId_source sf <> mirrored s) then (fail_destination s, false)
  else
    match sessions s !! sf with
    | Some current =>
        if bool_decide (current = x)
        then (acknowledge x sf sequence (set_cursor_updates (<[here sf s := updated_cursor u]> (cursor_updates s)) s), true)
        else (fail_destination s, false)
    | None => (acknowledge x sf sequence s, true)
    end.
Definition apply_surface (x : HoistSessionId) (e : Event) (s : relay) : relay * bool :=
  let sf := surface e in
  if bool_decide (ClientSurfaceId_source sf <> mirrored s) || bool_decide (sessions s !! sf <> Some x) then (fail_destination s, false)
  else
    match event_kind e with
    | Destroyed => (destroy_surface s sf, true)
    | Role (Layer _) => (fail_destination s, false)
    | Role r => (announce_role (set_roles (<[sf := r]> (roles s)) s) (sf, r), true)
    | k => (announce (MkClientSurfaceEvent (here sf s) k) s, true)
    end.
Definition apply_record (r : record) (s : relay) : relay * bool :=
  let s := note (Heard r) s in
  let x := record_session r in
  match record_event r with
  | GamepadRecord status => apply_gamepad x status s
  | CursorRecord u sequence => apply_cursor x u sequence s
  | MappedSurface sf => map_surface x sf s
  | SurfaceRecord e => apply_surface x e s
  | WithdrawSurface sf => (destroy_surface s sf, true)
  | EndedRecord => (end_session x s, true)
  end.
Fixpoint apply_records (l : list record) (s : relay) : relay :=
  match l with
  | [] => s
  | r :: l => match apply_record r s with (s, true) => apply_records l s | (s, false) => s end
  end.
(** The controller's requests, while the relay lives. *)
Fixpoint pump_gamepad (fuel : nat) (s : relay) : relay :=
  match fuel with
  | O => s
  | S fuel =>
      if destination_failed s then s
      else
        match controller s with
        | None => s
        | Some g =>
            match GamepadCapture.pop g with
            | (g, None) => set_controller (Some g) s
            | (g, Some r) => pump_gamepad fuel (send_destination GAMEPAD_SESSION (Gamepad r) (set_controller (Some g) s))
            end
        end
  end.
Definition pumping (s : relay) : nat := match controller s with Some g => S (length (GamepadCapture.outgoing g)) | None => 1 end.
(** [poll] *)
Definition poll_destination (s : relay) : relay :=
  if destination_failed s then s
  else
    match shown_poll (shown s) with
    | (q, inr _) => fail_destination (set_shown q s)
    | (q, inl l) => let s := apply_records l (set_shown q s) in pump_gamepad (pumping s) s
    end.

(** ** The host's side *)
(** [drain_events], [drain_cursor_updates] *)
Definition drain_events (s : relay) : relay * list Event :=
  let s := poll_destination s in (set_events [] s, (fun p => (PendingEvents.record p).2) <$> events s).
Definition drain_cursor_updates (s : relay) : relay * list (ClientCursorUpdate C) :=
  (set_cursor_updates ∅ s, (fun x => MkCursorUpdate x.1 x.2) <$> visit (cursor_updates s)).
(** [apply_request] *)
Definition requested (r : ClientRequest) (s : relay) : option ClientSurfaceId :=
  match r with
  | FocusRequest f => match focus_surface f with Some sf => Some sf | None => keyboard_focus (held_input s) end
  | _ => surface_of_request r
  end.
Definition rewritten (r : ClientRequest) (sf : ClientSurfaceId) (s : relay) : ClientRequest :=
  match r with
  | FocusRequest (MkFocusRequest _ None) => FocusRequest (MkFocusRequest (mirrored s) None)
  | r => rewrite_request_surface sf r
  end.
Definition is_focus_here (r : ClientRequest) (s : relay) : bool :=
  match r with FocusRequest f => bool_decide (focus_source f = descriptor_id s) | _ => false end.
Definition apply_request (r : ClientRequest) (s : relay) : relay :=
  match d ← requested r s; source_surface d s with
  | None => s
  | Some sf =>
      match sessions s !! sf with
      | None => if is_focus_here r s then tell_or_fail FocusCleared s else s
      | Some x => send_destination x (Request (rewritten r sf s)) (set_held_input (observe_request r (held_input s)) s)
      end
  end.
(** [forward_input] *)
Definition forward_input (x : HoistSessionId) (sf : ClientSurfaceId) (i : ClientInputEvent) (s : relay) : relay :=
  send_destination x (Input (from_client_event (MkInputEvent (retarget sf (input_target i)) (host_position i) (input_event i) (input_time i)))) s.
(** [apply_input] *)
Definition routed (d : ClientSurfaceId) (s : relay) : option (ClientSurfaceId * HoistSessionId) :=
  sf ← source_surface d s; x ← sessions s !! sf; Some (sf, x).
Definition apply_input (i : ClientInputEvent) (s : relay) : relay :=
  match routed (target_surface (input_target i)) s with
  | None => s
  | Some (sf, x) =>
      let '(ledger, accepted) := observe_input i (held_input s) in
      let s := set_held_input ledger s in
      if accepted : bool then forward_input x sf i s else s
  end.
(** [host_focus_lost] *)
Definition settle_effect (previous : option ClientSurfaceId) (s : relay) (e : ClientAdapterEffect) : relay :=
  if destination_failed s then s
  else
    match e with
    | InputConnected _ | InputDisconnected _ => s
    | InputEffect i => match routed (target_surface (input_target i)) s with Some (sf, x) => forward_input x sf i s | None => s end
    | RequestEffect r => apply_request r (set_held_input (set_keyboard_focus previous (held_input s)) s)
    end.
Definition host_focus_lost (time : Z) (s : relay) : relay :=
  let s := set_held_input (set_last_time time (held_input s)) s in
  let '(ledger, es) := release_effects (descriptor_id s) (fun _ => true) (held_input s) in
  foldl (settle_effect (keyboard_focus (held_input s))) (set_held_input ledger s) es.
(** [Drop for DestinationRelayAdapter] *)
Definition drop_destination (s : relay) : option GamepadCapture.Pending := GamepadCapture.disconnect <$> controller s.
End DestinationRelay.
