(* ===== verification/ShownAnswers.v ===== *)
(** * What a destination's relay answers its peer

    A reference for the relay ([DestinationRelay]): what its peer maps and says, folded over
    the records the relay heard, and what a relay answers a record with. A relay that has not
    failed has heard only records that fit, has answered each with exactly what the reference
    answers, and shows what the reference shows. *)

From S2P Require Import Prelude.
From S2P Require Import Effects.
From S2P Require Import OrdMap.
From S2P Require Import Ids.
From S2P Require Import Surface.
From S2P Require Import Input.
From S2P Require Import TouchLedger.
From S2P Require Import GamepadCapture.
From S2P Require Import Commit.
From S2P Require Import PendingEvents.
From S2P Require Import RemoteInput.
From S2P Require Import SourceRelay.
From S2P Require Import DestinationPort.
From S2P Require Import DestinationRelay.

Section ShownAnswers.
Context {Q C : Type} {shown_port : HoistDestinationPort Q C}.
Context {session_order : HashOrder ClientSurfaceId HoistSessionId} {role_order : HashOrder ClientSurfaceId ClientSurfaceRole}
  {cursor_order : HashOrder ClientSurfaceId C}
  {key_order : HashOrder Z RemoteKeyCapture} {button_order : HashOrder Z (ClientInputTarget * option InputPosition)}.
Abbreviation relay := (DestinationRelayAdapter (Q := Q) (C := C)).
Abbreviation noted := (noted (C := C)).
Abbreviation record := (DestinationPortRecord (ClientCursorUpdate C)).
Abbreviation shown_map := (gmap ClientSurfaceId HoistSessionId).
Abbreviation role_map := (gmap ClientSurfaceId ClientSurfaceRole).
Implicit Types (s : relay) (sf : ClientSurfaceId) (x : HoistSessionId) (m : shown_map) (said : role_map) (r : record) (l : list noted).

(** ** The reference *)
Section Reference.
Context (upstream id : ClientSourceId).
(** The surfaces the peer maps, with their sessions, and the roles it gave them. *)
Definition view : Type := shown_map * role_map.
Implicit Types (v : view).
Definition without (v : view) sf : view := (delete sf v.1, delete sf v.2).
Definition of_session x m : list ClientSurfaceId := fst <$> filter (fun y => y.2 = x) (map_to_list m).
(** What a record does. *)
Definition follow v r : view :=
  match record_event r with
  | MappedSurface sf => (<[sf := record_session r]> v.1, v.2)
  | SurfaceRecord e =>
      match event_kind e with
      | Destroyed => without v (surface e)
      | Role role => (v.1, <[surface e := role]> v.2)
      | _ => v
      end
  | WithdrawSurface sf => without v sf
  | EndedRecord => (filter (fun y => y.2 <> record_session r) v.1, filter (fun y => v.1 !! y.1 <> Some (record_session r)) v.2)
  | GamepadRecord _ | CursorRecord _ _ => v
  end.
(** The records a relay takes: of surfaces of its peer, under their session. *)
Definition fits v r : bool :=
  let x := record_session r in
  match record_event r with
  | GamepadRecord _ => bool_decide (x = GAMEPAD_SESSION)
  | MappedSurface sf => bool_decide (ClientSurfaceId_source sf = upstream) && bool_decide (default x (v.1 !! sf) = x)
  | CursorRecord u _ =>
      bool_decide (ClientSurfaceId_source (updated_surface u) = upstream) && bool_decide (default x (v.1 !! updated_surface u) = x)
  | SurfaceRecord e =>
      bool_decide (ClientSurfaceId_source (surface e) = upstream) && bool_decide (v.1 !! surface e = Some x) &&
      match event_kind e with Role (Layer _) => false | _ => true end
  | WithdrawSurface _ | EndedRecord => true
  end.
(** What the host is told of a role: a parent is named while it is mapped, and a popup waits
    for its owner. *)
Definition parent_in m (parent : ClientSurfaceId) : option ClientSurfaceId :=
  if bool_decide (is_Some (m !! parent)) then Some (relocated_surface id parent) else None.
Definition role_in m (role : ClientSurfaceRole) : option ClientSurfaceRole :=
  match role with
  | Layer _ => None
  | Toplevel t => Some (Toplevel (MkToplevelState (toplevel_parent t ≫= parent_in m) (decoration t) (hints t)))
  | Popup p => (fun owner => Popup (MkPopupState owner (popup_position p) (popup_stack_index p))) <$> parent_in m (popup_owner p)
  end.
Definition announced sf k : noted := Announced (MkClientSurfaceEvent (relocated_surface id sf) k).
Definition role_notes m (y : ClientSurfaceId * ClientSurfaceRole) : list noted :=
  option_list ((fun role => announced y.1 (Role role)) <$> role_in m y.2).
Definition is_child parent m (y : ClientSurfaceId * ClientSurfaceRole) : bool :=
  match y.2 with
  | Toplevel t => bool_decide (toplevel_parent t = Some parent)
  | Popup p => bool_decide (popup_owner p = parent)
  | Layer _ => false
  end && bool_decide (is_Some (m !! y.1)).
Definition gone sf : list noted := [Told (RouteUnmapped (relocated_surface id sf)); announced sf Destroyed].
Definition gone_from m sf : list noted := if bool_decide (m !! sf = None) then [] else gone sf.
(** What a relay answers: routes and announcements, and for a cursor its acknowledgement. *)
Definition answer v r : list noted :=
  let x := record_session r in
  match record_event r with
  | GamepadRecord _ => []
  | MappedSurface sf =>
      if bool_decide (v.1 !! sf = None) then
        let m := <[sf := x]> v.1 in
        Told (RouteMapped sf (relocated_surface id sf)) :: (filter (fun y => is_child sf m y = true) (map_to_list v.2) ≫= role_notes m)
      else []
  | SurfaceRecord e =>
      match event_kind e with
      | Destroyed => gone_from v.1 (surface e)
      | Role role => role_notes v.1 (surface e, role)
      | k => [announced (surface e) k]
      end
  | WithdrawSurface sf => gone_from v.1 sf
  | EndedRecord => of_session x v.1 ≫= gone
  | CursorRecord u n => [Told (Message (MkDestinationEnvelope x (CursorReceived (updated_surface u) n)))]
  end.
(** Records that fit, what they lead to and what they were answered with: what a mapped
    owner or an ended session leads to comes in any order. *)
Inductive answered : list record -> view -> list noted -> Prop :=
  | answered_none : answered [] (∅, ∅) []
  | answered_one rs r v l l' : answered rs v l -> fits v r = true -> l' ≡ₚ answer v r -> answered (rs ++ [r]) (follow v r) (l ++ l').
End Reference.

(** ** What is read off a journal *)
Definition heard_of l : list record := omap (fun n => match n with Heard r => Some r | _ => None end) l.
Definition is_answer (n : noted) : bool :=
  match n with
  | Told (RouteMapped _ _) | Told (RouteUnmapped _) | Told (Message (MkDestinationEnvelope _ (CursorReceived _ _))) | Announced _ => true
  | _ => false
  end.
Definition answers l : list noted := filter (fun n => is_answer n = true) l.
Lemma heard_app l l' : heard_of (l ++ l') = heard_of l ++ heard_of l'.
Proof. apply omap_app. Qed.
Lemma answers_app l l' : answers (l ++ l') = answers l ++ answers l'.
Proof. apply list.filter_app. Qed.
Definition answering l : Prop := Forall (fun n => is_answer n = true) l.
Lemma answering_heard l : answering l -> heard_of l = [].
Proof. induction 1 as [|n l Hn _ IH]; [done|]. unfold heard_of in *. cbn. by destruct n. Qed.
Lemma answer_answering id v r : answering (answer id v r).
Proof.
  assert (Hg : forall m sf, answering (gone_from id m sf)) by (intros m sf; unfold gone_from; case_bool_decide; by repeat constructor).
  assert (Hr : forall m y, answering (role_notes id m y)) by (intros m y; unfold role_notes; destruct (role_in _ _ _); by repeat constructor).
  unfold answer. destruct (record_event r) as [status|sf|e|sf| |u n].
  - constructor.
  - case_bool_decide; [|constructor]. constructor; [done|]. apply Forall_bind, list.Forall_true. intros y. apply Hr.
  - destruct (event_kind e); [apply Hr|by apply list.Forall_singleton..|apply Hg|by apply list.Forall_singleton].
  - apply Hg.
  - apply Forall_bind, list.Forall_true. intros sf. by repeat constructor.
  - by apply list.Forall_singleton.
Qed.
Lemma answering_all l : answering l -> answers l = l.
Proof. induction 1 as [|n l Hn _ IH]; [done|]. unfold answers in *. by rewrite filter_cons_True, IH. Qed.
(** What a relay that has not failed has heard, shows and answered. *)
Definition faithful s : Prop := destination_failed s = false ->
  answered (mirrored s) (descriptor_id s) (heard_of (journal s)) (sessions s, roles s) (answers (journal s)).


(** ** The relay's operations *)
(** [s'] comes after [s], which had not failed, by the notes [l], and shows [v]. *)
Record moves l (v : view) s s' : Prop := {
  moves_live : destination_failed s = false;
  moves_journal : journal s' = journal s ++ l;
  moves_view : (sessions s', roles s') = v;
  moves_up : mirrored s' = mirrored s;
  moves_id : descriptor_id s' = descriptor_id s;
}.
Lemma moves_refl s : destination_failed s = false -> moves [] (sessions s, roles s) s s.
Proof. intros Hf. by constructor; rewrite ?app_nil_r. Qed.
Lemma moves_trans l l' v v' s s1 s' : moves l v s s1 -> moves l' v' s1 s' -> moves (l ++ l') v' s s'.
Proof. intros [H1 H2 H3 H4 H5] [K1 K2 K3 K4 K5]. constructor; [done| |done|congruence..]. by rewrite K2, H2, app_assoc. Qed.
Lemma moves_apart l v s s1 s' : moves l v s s1 -> journal s' = journal s1 -> sessions s' = sessions s1 -> roles s' = roles s1 ->
  mirrored s' = mirrored s1 -> descriptor_id s' = descriptor_id s1 -> moves l v s s'.
Proof. intros [] E1 E2 E3 E4 E5. split; congruence. Qed.
Lemma moves_from l v s s1 s' : moves l v s1 s' -> destination_failed s1 = destination_failed s -> journal s1 = journal s ->
  mirrored s1 = mirrored s -> descriptor_id s1 = descriptor_id s -> moves l v s s'.
Proof. intros [] E1 E2 E3 E4. split; congruence. Qed.
Lemma quiet_failed (l : list ClientSurfaceId) s : destination_failed (foldl destroy_quietly s l) = destination_failed s.
Proof. revert s. induction l as [|sf l IH]; intros s; [done|]. cbn. rewrite IH. unfold destroy_quietly. by case_bool_decide. Qed.
Lemma fail_fails s : destination_failed (fail_destination s) = true.
Proof. unfold fail_destination. destruct (destination_failed s) eqn:Hf; [done|]. by rewrite quiet_failed. Qed.
Lemma tell_live c s : destination_failed (tell_or_fail c s) = false -> moves [Told c] (sessions s, roles s) s (tell_or_fail c s).
Proof.
  unfold tell_or_fail, tell. destruct (shown_submit c (shown s)) as [q [r|e]]; [|by rewrite fail_fails]. intros Hf. by constructor.
Qed.
(** Roles are of mapped surfaces. *)
Definition tidy (v : view) : Prop := forall sf, v.1 !! sf = None -> v.2 !! sf = None.
Lemma tidy_without v sf : tidy v -> tidy (without v sf).
Proof. unfold tidy, without. cbn. intros H i. rewrite !lookup_delete_None. intros [->|Hi]; [by left|right; by apply H]. Qed.
Lemma destroy_surface_live s sf : tidy (sessions s, roles s) -> destination_failed (destroy_surface s sf) = false ->
  moves (gone_from (descriptor_id s) (sessions s) sf) (without (sessions s, roles s) sf) s (destroy_surface s sf).
Proof.
  intros Ht. unfold destroy_surface, gone_from. change (sessions (forget_feedback sf s)) with (sessions s). case_bool_decide as Hs.
  - intros Hf. apply (moves_apart _ _ _ s); [|done..]. unfold without. cbn. rewrite !delete_id by auto. by apply moves_refl.
  - intros Hf. cbn in Hf. apply tell_live in Hf as [H1 H2 H3 H4 H5]. set (t := tell_or_fail _ _) in *. clearbody t.
    constructor; [done| |exact H3|done..].
    change (journal (announce_destroyed sf t)) with (journal t ++ [Announced (MkClientSurfaceEvent (here sf t) Destroyed)]).
    rewrite H2, <- app_assoc. unfold here at 2. by rewrite H5.
Qed.
Lemma destroy_surface_fails s sf : destination_failed s = true -> destination_failed (destroy_surface s sf) = true.
Proof.
  intros Hf. destruct (destination_failed (destroy_surface s sf)) eqn:Hd; [done|]. revert Hd. unfold destroy_surface.
  case_bool_decide; cbn; [congruence|]. intros [H1 _ _ _ _]%tell_live. cbn in H1. congruence.
Qed.
Lemma destroy_surfaces_live (l : list ClientSurfaceId) s : tidy (sessions s, roles s) -> NoDup l -> (forall sf, sf ∈ l -> is_Some (sessions s !! sf)) ->
  destination_failed s = false -> destination_failed (foldl destroy_surface s l) = false ->
  moves (l ≫= gone (descriptor_id s)) (foldl without (sessions s, roles s) l) s (foldl destroy_surface s l).
Proof.
  revert s. induction l as [|sf l IH]; intros s Ht Hnd Hin Hs Hf; [by apply moves_refl|]. cbn [foldl] in *. rewrite bind_cons.
  apply list.NoDup_cons in Hnd as [Hn Hnd]. destruct (destination_failed (destroy_surface s sf)) eqn:Hd.
  { assert (Hall : destination_failed (foldl destroy_surface (destroy_surface s sf) l) = true); [|congruence].
    clear - Hd. revert Hd. generalize (destroy_surface s sf). induction l as [|y l IH]; intros t Ht; [done|]. cbn. by apply IH, destroy_surface_fails. }
  pose proof (destroy_surface_live s sf Ht Hd) as Hm. unfold gone_from in Hm. rewrite bool_decide_eq_false_2 in Hm.
  2: { destruct (Hin sf) as [x Hx]; [left|congruence]. }
  destruct (Hm) as [_ _ Hv _ Hid]. eapply moves_trans; [exact Hm|]. rewrite <- Hv, <- Hid. apply IH; [|done| |done|done].
  - rewrite Hv. by apply tidy_without.
  - intros y Hy. injection Hv as Hv _. rewrite Hv, lookup_delete_ne; [apply Hin; by right|]. by intros ->.
Qed.
(** Roles. *)
Lemma role_in_relocated role s : relocated_role role s = role_in (descriptor_id s) (sessions s) role.
Proof. done. Qed.
Lemma announce_role_moves s y : destination_failed s = false -> moves (role_notes (descriptor_id s) (sessions s) y) (sessions s, roles s) s (announce_role s y).
Proof.
  intros Hf. unfold announce_role, role_notes. rewrite role_in_relocated. destruct (role_in _ _ _); [by constructor|by apply moves_refl].
Qed.
Lemma announce_role_failed s y : destination_failed (announce_role s y) = destination_failed s.
Proof. unfold announce_role. by destruct (relocated_role _ _). Qed.
Lemma announce_roles_moves (l : list (ClientSurfaceId * ClientSurfaceRole)) s : destination_failed s = false ->
  moves (l ≫= role_notes (descriptor_id s) (sessions s)) (sessions s, roles s) s (foldl announce_role s l).
Proof.
  revert s. induction l as [|y l IH]; intros s Hf; [by apply moves_refl|]. rewrite bind_cons. cbn [foldl]. pose proof (announce_role_moves s y Hf) as Hm.
  destruct (Hm) as [_ _ Hv _ Hid]. eapply moves_trans; [exact Hm|]. rewrite <- Hid, <- Hv. injection Hv as <- _. apply IH. by rewrite announce_role_failed.
Qed.
Lemma roles_failed (l : list (ClientSurfaceId * ClientSurfaceRole)) s : destination_failed (foldl announce_role s l) = destination_failed s.
Proof. revert s. induction l as [|y l IH]; intros s; [done|]. cbn. by rewrite IH, announce_role_failed. Qed.

(** ** Records *)
(** The answer is as the reference has it. *)
Definition answers_well r s s' : Prop :=
  fits (mirrored s) (sessions s, roles s) r = true /\
  exists l, l ≡ₚ answer (descriptor_id s) (sessions s, roles s) r /\ moves l (follow (sessions s, roles s) r) s s'.
Lemma answers_exactly r s s' l : fits (mirrored s) (sessions s, roles s) r = true -> l = answer (descriptor_id s) (sessions s, roles s) r ->
  moves l (follow (sessions s, roles s) r) s s' -> answers_well r s s'.
Proof. intros Hf -> Hm. split; [done|]. by eexists. Qed.
Lemma map_surface_answers x sf s : destination_failed s = false -> destination_failed (map_surface x sf s).1 = false ->
  answers_well (MkPortRecord x (MappedSurface sf)) s (map_surface x sf s).1.
Proof.
  intros Hl. unfold map_surface. case_bool_decide as Hu; [cbn [fst]; by rewrite fail_fails|].
  assert (Hup : ClientSurfaceId_source sf = mirrored s) by (by destruct (decide (ClientSurfaceId_source sf = mirrored s))).
  destruct (sessions s !! sf) as [y|] eqn:Hs.
  { case_bool_decide as Hy; cbn [fst]; [|by rewrite fail_fails]. subst y. intros _. apply (answers_exactly _ _ _ []); unfold fits, answer, follow; cbn [record_event record_session fst snd].
    - rewrite Hs. by rewrite !bool_decide_eq_true_2.
    - by rewrite bool_decide_eq_false_2 by congruence.
    - rewrite insert_id by done. by apply moves_refl. }
  set (t := set_sessions _ s). destruct (tell (RouteMapped sf (here sf t)) t) as [u [r|e]] eqn:Htell; cbn [fst]; [|by rewrite fail_fails].
  intros Hf. assert (Hm : moves [Told (RouteMapped sf (here sf t))] (sessions t, roles t) t u).
  { assert (E : u = tell_or_fail (RouteMapped sf (here sf t)) t) by (unfold tell_or_fail; by rewrite Htell). rewrite E. apply tell_live.
    rewrite <- E. unfold refresh_children_of in Hf. by rewrite roles_failed in Hf. }
  split; [unfold fits; cbn [record_event record_session fst snd]; rewrite Hs; by rewrite !bool_decide_eq_true_2|].
  unfold answer, follow. cbn [record_event record_session fst snd]. rewrite bool_decide_eq_true_2 by done.
  destruct Hm as [H1 H2 H3 H4 H5]. cbn in H2, H3, H4, H5. injection H3 as H3 H3'.
  assert (Hu' : destination_failed u = false) by (unfold refresh_children_of in Hf; by rewrite roles_failed in Hf).
  exists (Told (RouteMapped sf (relocated_surface (descriptor_id s) sf)) ::
    (filter (fun y => is_child_of sf u y = true) (visit (roles u)) ≫= role_notes (descriptor_id u) (sessions u))). split.
  - apply perm_skip. rewrite H5, H3, H3'. apply bind_Permutation.
    assert (Hp : visit (roles s) ≡ₚ map_to_list (roles s)) by apply visit_perm.
    rewrite <- Hp. apply reflexive_eq. apply list_filter_iff. intros y. unfold is_child_of, is_child. by rewrite H3.
  - destruct (announce_roles_moves (filter (fun y => is_child_of sf u y = true) (visit (roles u))) u Hu') as [K1 K2 K3 K4 K5].
    unfold refresh_children_of. constructor; [done| | |congruence..].
    + rewrite K2, H2, <- app_assoc. done.
    + by rewrite K3, H3, H3'.
Qed.
Lemma surface_answers x (e : ClientSurfaceEvent ClientBufferLease) s : tidy (sessions s, roles s) -> destination_failed s = false ->
  destination_failed (apply_surface x e s).1 = false -> answers_well (MkPortRecord x (SurfaceRecord e)) s (apply_surface x e s).1.
Proof.
  intros Ht Hl. unfold apply_surface. destruct (decide (ClientSurfaceId_source (surface e) = mirrored s)) as [Hup|Hup].
  2: { rewrite bool_decide_eq_true_2 by done. cbn [orb fst]. by rewrite fail_fails. }
  rewrite (bool_decide_eq_false_2 (ClientSurfaceId_source (surface e) <> mirrored s)) by (by intros ?). cbn [orb].
  destruct (decide (sessions s !! surface e = Some x)) as [Hs|Hs].
  2: { rewrite bool_decide_eq_true_2 by done. cbn [fst]. by rewrite fail_fails. }
  rewrite (bool_decide_eq_false_2 (sessions s !! surface e <> Some x)) by (by intros ?).
  assert (Hfit : match event_kind e with Role (Layer _) => false | _ => true end = true -> fits (mirrored s) (sessions s, roles s) (MkPortRecord x (SurfaceRecord e)) = true).
  { intros Hk. unfold fits. cbn [record_event record_session fst snd]. by rewrite Hk, !bool_decide_eq_true_2. }
  assert (Hone : forall k, event_kind e = k -> match k with Role _ | Destroyed => false | _ => true end = true ->
    answers_well (MkPortRecord x (SurfaceRecord e)) s (announce (MkClientSurfaceEvent (here (surface e) s) k) s)).
  { intros k Hk Hk'. apply (answers_exactly _ _ _ [announced (descriptor_id s) (surface e) k]).
    - apply Hfit. rewrite Hk. by destruct k.
    - unfold answer. cbn [record_event]. rewrite Hk. by destruct k.
    - unfold follow. cbn [record_event]. rewrite Hk. by destruct k. }
  destruct (event_kind e) as [role|c|i|i| |d] eqn:Hk; cbn [fst]; try (intros _; by apply Hone).
  - destruct role as [t|p|ly]; [| |cbn [fst]; by rewrite fail_fails]; cbn [fst]; intros Hf;
      (eapply answers_exactly; [by apply Hfit|by unfold answer; cbn [record_event]; rewrite Hk|]);
      unfold follow; cbn [record_event]; rewrite Hk;
      exact (moves_from _ _ s _ _ (announce_role_moves (set_roles _ s) _ Hl) eq_refl eq_refl eq_refl eq_refl).
  - intros Hf. apply (answers_exactly _ _ _ (gone_from (descriptor_id s) (sessions s) (surface e))).
    + by apply Hfit.
    + unfold answer. cbn [record_event]. by rewrite Hk.
    + unfold follow. cbn [record_event]. rewrite Hk. by apply destroy_surface_live.
Qed.
Lemma cursor_answers x u n s : destination_failed s = false -> destination_failed (apply_cursor x u n s).1 = false ->
  answers_well (MkPortRecord x (CursorRecord u n)) s (apply_cursor x u n s).1.
Proof.
  intros Hl. unfold apply_cursor. destruct (decide (ClientSurfaceId_source (updated_surface u) = mirrored s)) as [Hup|Hup].
  2: { rewrite bool_decide_eq_true_2 by done. cbn [fst]. by rewrite fail_fails. }
  rewrite (bool_decide_eq_false_2 (ClientSurfaceId_source (updated_surface u) <> mirrored s)) by (by intros ?).
  assert (Hack : forall t, default x (sessions s !! updated_surface u) = x -> moves [] (sessions s, roles s) s t ->
    destination_failed (acknowledge x (updated_surface u) n t) = false -> answers_well (MkPortRecord x (CursorRecord u n)) s (acknowledge x (updated_surface u) n t)).
  { intros t Hd Ht Hf. eapply answers_exactly; [|reflexivity|].
    - unfold fits. cbn [record_event record_session fst snd]. by rewrite !bool_decide_eq_true_2.
    - apply (moves_trans [] _ (sessions s, roles s) _ s t); [done|]. apply tell_live in Hf. destruct Ht as [_ _ Hv _ _].
      unfold follow. cbn [record_event]. by rewrite <- Hv. }
  destruct (sessions s !! updated_surface u) as [y|] eqn:Hs; cbn [default from_option id] in Hack.
  - destruct (decide (y = x)) as [->|Hy]; [rewrite bool_decide_eq_true_2 by done|rewrite bool_decide_eq_false_2 by done; cbn [fst]; by rewrite fail_fails].
    intros Hf. apply Hack; [done| |done]. apply (moves_apart _ _ _ s); [by apply moves_refl|done..].
  - intros Hf. apply Hack; [done|by apply moves_refl|done].
Qed.
Lemma foldl_without v (l : list ClientSurfaceId) : foldl without v l = (filter (fun y => y.1 ∉ l) v.1, filter (fun y => y.1 ∉ l) v.2).
Proof.
  revert v. induction l as [|sf l IH]; intros v; cbn.
  - destruct v as [m said]. cbn. f_equal; symmetry; apply map_filter_id; intros; apply not_elem_of_nil.
  - rewrite IH. unfold without. cbn. f_equal; apply map_eq; intros i; apply option_eq; intros y;
      rewrite !map_lookup_filter_Some, lookup_delete_Some, not_elem_of_cons; cbn; naive_solver.
Qed.
Lemma end_session_answers x s : tidy (sessions s, roles s) -> destination_failed s = false -> destination_failed (end_session x s) = false ->
  answers_well (MkPortRecord x EndedRecord) s (end_session x s).
Proof.
  intros Ht Hl Hf. unfold end_session in *. set (l := fst <$> filter (fun y => y.2 = x) (visit (sessions s))) in *.
  assert (Hp : l ≡ₚ of_session x (sessions s)) by (unfold l, of_session; by rewrite visit_perm).
  assert (Hin : forall sf, sf ∈ l <-> sessions s !! sf = Some x).
  { intros sf. rewrite Hp. unfold of_session. rewrite list_elem_of_fmap. split.
    - intros ([i y] & -> & [Hy Hi%elem_of_map_to_list]%list_elem_of_filter). cbn in *. by subst.
    - intros Hs. exists (sf, x). split; [done|]. apply list_elem_of_filter. split; [done|]. by apply elem_of_map_to_list. }
  split; [done|]. exists (l ≫= gone (descriptor_id s)). split; [by rewrite Hp|].
  replace (follow _ _) with (foldl without (sessions s, roles s) l).
  - apply destroy_surfaces_live; [done| |by intros sf Hs%Hin; eexists|done..]. rewrite Hp. apply NoDup_fmap_fst.
    + intros i y z [_ Hy%elem_of_map_to_list]%list_elem_of_filter [_ Hz%elem_of_map_to_list]%list_elem_of_filter. congruence.
    + apply list.NoDup_filter, NoDup_map_to_list.
  - rewrite foldl_without. unfold follow. cbn. f_equal; apply map_eq; intros i; apply option_eq; intros y; rewrite !map_lookup_filter_Some, Hin; naive_solver.
Qed.
Lemma apply_record_answers r s : tidy (sessions s, roles s) -> destination_failed (apply_record r s).1 = false -> destination_failed s = false ->
  fits (mirrored s) (sessions s, roles s) r = true /\
  exists l, l ≡ₚ answer (descriptor_id s) (sessions s, roles s) r /\ moves (Heard r :: l) (follow (sessions s, roles s) r) s (apply_record r s).1.
Proof.
  intros Ht Hf Hl. enough (Hw : answers_well r (note (Heard r) s) (apply_record r s).1).
  { destruct Hw as (H1 & l & H2 & Hm). split; [exact H1|]. exists l. split; [exact H2|].
    apply (moves_trans [_] l (sessions s, roles s) _ s (note (Heard r) s)); [by constructor|exact Hm]. }
  revert Hf. unfold apply_record. set (t := note (Heard r) s). assert (Ht' : tidy (sessions t, roles t)) by done. assert (Hl' : destination_failed t = false) by done.
  clearbody t. clear Ht Hl s. destruct r as [x [status|sf|e|sf| |u n]]; cbn [record_session record_event].
  - unfold apply_gamepad. destruct (decide (x = GAMEPAD_SESSION)) as [->|Hx].
    + rewrite bool_decide_eq_false_2 by (by intros ?). cbn [fst]. intros _. apply (answers_exactly _ _ _ []); [|done|by apply (moves_apart _ _ _ t); [apply moves_refl|..]].
      unfold fits. cbn [record_event record_session]. by rewrite bool_decide_eq_true_2.
    + rewrite bool_decide_eq_true_2 by done. cbn [fst]. by rewrite fail_fails.
  - by apply map_surface_answers.
  - by apply surface_answers.
  - intros Hf. apply (answers_exactly _ _ _ (gone_from (descriptor_id t) (sessions t) sf)); [done..|]. by apply destroy_surface_live.
  - by apply end_session_answers.
  - by apply cursor_answers.
Qed.

(** ** A relay that failed stays failed *)
Definition stays s s' : Prop := destination_failed s = true -> destination_failed s' = true.
#[local] Instance stays_po : PreOrder stays.
Proof. split; [by intros s H|]. intros a b c H1 H2 H. by apply H2, H1. Qed.
Lemma fail_stays s : stays s (fail_destination s).
Proof. intros _. apply fail_fails. Qed.
Lemma tell_or_fail_stays c s : stays s (tell_or_fail c s).
Proof.
  intros Hf. destruct (destination_failed (tell_or_fail c s)) eqn:Ht; [done|]. apply tell_live in Ht as [H _ _ _ _]. congruence.
Qed.
Lemma foldl_stays {A} (f : relay -> A -> relay) (l : list A) s : (forall s a, stays s (f s a)) -> stays s (foldl f s l).
Proof. intros Hf. revert s. induction l as [|a l IH]; intros s; [done|]. cbn. etransitivity; [apply Hf|apply IH]. Qed.
Lemma announce_role_stays s y : stays s (announce_role s y).
Proof. intros Hf. by rewrite announce_role_failed. Qed.
Lemma map_surface_stays x sf s : stays s (map_surface x sf s).1.
Proof.
  unfold map_surface. case_bool_decide; [apply fail_stays|]. destruct (sessions s !! sf); [case_bool_decide; [done|apply fail_stays]|].
  set (t := set_sessions _ s). unfold tell. destruct (shown_submit _ _) as [q [r|e]]; cbn [fst].
  - intros Hf. by apply foldl_stays; [apply announce_role_stays|].
  - intros _. apply fail_fails.
Qed.
Lemma apply_record_stays r s : stays s (apply_record r s).1.
Proof.
  unfold apply_record. transitivity (note (Heard r) s); [by intros ?|]. generalize (note (Heard r) s). clear s. intros s.
  destruct r as [x [status|sf|e|sf| |u n]]; cbn [record_session record_event].
  - unfold apply_gamepad. case_bool_decide; [apply fail_stays|by intros ?].
  - apply map_surface_stays.
  - unfold apply_surface. destruct (_ || _); [apply fail_stays|]. destruct (event_kind e) as [[t|p|ly]|c|i|i| |d];
      try (by intros ?); [exact (announce_role_stays (set_roles _ s) _)..|apply fail_stays|]. cbn [fst]. intros Hf. by apply destroy_surface_fails.
  - intros Hf. by apply destroy_surface_fails.
  - apply foldl_stays. intros t sf Hf. by apply destroy_surface_fails.
  - unfold apply_cursor. case_bool_decide; [apply fail_stays|]. destruct (sessions s !! _); [case_bool_decide; [|apply fail_stays]|]; [apply (tell_or_fail_stays _ (set_cursor_updates _ s))|apply tell_or_fail_stays].
Qed.

(** ** Batches *)
Lemma answered_tidy up id rs v l : answered up id rs v l -> tidy v.
Proof.
  induction 1 as [|rs r [m said] l l' _ IH Hr _]; [by intros sf _; apply lookup_empty|]. unfold tidy, follow, fits in *. cbn [fst snd] in *.
  destruct (record_event r) as [status|sf|e|sf| |u n]; try done; cbn [fst snd].
  - intros i [Hi _]%lookup_insert_None. by apply IH.
  - apply andb_true_iff in Hr as [[_ Hs%bool_decide_eq_true]%andb_true_iff _]. destruct (event_kind e) as [role|c|i|i| |d]; try done; cbn [fst snd].
    + intros i Hi. rewrite lookup_insert_ne by congruence. by apply IH.
    + by apply (tidy_without (m, said)).
  - by apply (tidy_without (m, said)).
  - intros i Hi. apply map_lookup_filter_None. destruct (m !! i) as [x|] eqn:Hx; [|by left; apply IH]. right. intros role _ Hn. apply Hn. cbn.
    apply map_lookup_filter_None in Hi as [Hi|Hi]; [congruence|]. destruct (decide (x = record_session r)) as [->|Hne]; [done|]. by destruct (Hi x Hx).
Qed.
Lemma apply_record_faithful r s : faithful s -> faithful (apply_record r s).1.
Proof.
  intros H Hf. destruct (destination_failed s) eqn:Hl; [by rewrite apply_record_stays in Hf|]. specialize (H Hl).
  destruct (apply_record_answers r s (answered_tidy _ _ _ _ _ H) Hf Hl) as (Hr & l & Hp & [_ M2 M3 M4 M5]).
  assert (Hall : answering l) by (unfold answering; rewrite Hp; apply answer_answering).
  assert (E1 : heard_of (Heard r :: l) = [r]) by exact (f_equal (cons r) (answering_heard l Hall)).
  assert (E2 : answers (Heard r :: l) = l) by exact (answering_all l Hall).
  rewrite M2, M3, M4, M5, heard_app, answers_app, E1, E2. by constructor.
Qed.
Lemma apply_records_faithful (rs : list record) s : faithful s -> faithful (apply_records rs s).
Proof.
  revert s. induction rs as [|r rs IH]; intros s H; [done|]. cbn. pose proof (apply_record_faithful r s H) as Hr.
  destruct (apply_record r s) as [t [|]]; [by apply IH|done].
Qed.

(** ** The host's calls *)
(** Nothing is heard and no record answered, and what is shown stays. *)
Record idle s s' : Prop := {
  idle_live : destination_failed s = false;
  idle_heard : heard_of (journal s') = heard_of (journal s);
  idle_answers : answers (journal s') = answers (journal s);
  idle_view : (sessions s', roles s') = (sessions s, roles s);
  idle_up : mirrored s' = mirrored s;
  idle_id : descriptor_id s' = descriptor_id s;
}.
Definition calm s s' : Prop := destination_failed s' = false -> idle s s'.
#[local] Instance calm_po : PreOrder calm.
Proof.
  split; [by intros s Hf|]. intros a b c H1 H2 Hf. destruct (H2 Hf) as [K1 K2 K3 K4 K5 K6]. destruct (H1 K1). split; [done|congruence..].
Qed.
Lemma calm_faithful s s' : calm s s' -> faithful s -> faithful s'.
Proof. intros Hc H Hf. destruct (Hc Hf) as [K1 K2 K3 K4 K5 K6]. rewrite K2, K3, K4, K5, K6. by apply H. Qed.
Lemma calm_fail s : calm s (fail_destination s).
Proof. intros Hf. by rewrite fail_fails in Hf. Qed.
Lemma calm_tell c s : is_answer (Told c : noted) = false -> calm s (tell_or_fail c s).
Proof.
  intros Hc Hf. apply tell_live in Hf as [H1 H2 H3 H4 H5]. constructor; [done| | |done..]; rewrite H2, ?heard_app, ?answers_app.
  - apply app_nil_r.
  - unfold answers at 2. rewrite filter_cons_False by (by rewrite Hc). apply app_nil_r.
Qed.
Lemma calm_send x msg s : (forall sf n, msg <> CursorReceived sf n) -> calm s (send_destination x msg s).
Proof. intros Hm. apply calm_tell. cbn. destruct msg; try done. by edestruct Hm. Qed.
Lemma calm_pump fuel s : calm s (pump_gamepad fuel s).
Proof.
  revert s. induction fuel as [|fuel IH]; intros s; [done|]. cbn. destruct (destination_failed s); [done|].
  destruct (controller s) as [g|]; [|done]. destruct (GamepadCapture.pop g) as [g' [r|]]; [|by intros Hf; constructor].
  etransitivity; [|apply IH]. transitivity (set_controller (Some g') s); [by intros Hf; constructor|by apply calm_send].
Qed.
Lemma poll_faithful s : faithful s -> faithful (poll_destination s).
Proof.
  intros H. unfold poll_destination. destruct (destination_failed s) eqn:Hl; [done|]. destruct (shown_poll (shown s)) as [q [rs|e]].
  - eapply calm_faithful; [apply calm_pump|]. by apply apply_records_faithful.
  - eapply calm_faithful; [apply calm_fail|exact H].
Qed.
Lemma calm_request (r : ClientRequest) s : calm s (apply_request r s).
Proof.
  unfold apply_request. destruct (d ← requested r s; source_surface d s) as [sf|]; [|done]. destruct (sessions s !! sf) as [x|].
  - etransitivity; [|by apply calm_send]. by intros Hf; constructor.
  - destruct (is_focus_here r s); [by apply calm_tell|done].
Qed.
Lemma calm_forward x sf i s : calm s (forward_input x sf i s).
Proof. by apply calm_send. Qed.
Lemma calm_input i s : calm s (apply_input i s).
Proof.
  unfold apply_input. destruct (routed _ s) as [[sf x]|]; [|done]. destruct (observe_input i (held_input s)) as [l [|]]; [|by intros Hf; constructor].
  etransitivity; [|apply calm_forward]. by intros Hf; constructor.
Qed.
Lemma calm_effect previous s e : calm s (settle_effect previous s e).
Proof.
  unfold settle_effect. destruct (destination_failed s); [done|]. destruct e as [r|i| |]; try done.
  - etransitivity; [|apply calm_request]. by intros Hf; constructor.
  - destruct (routed _ s) as [[sf x]|]; [apply calm_forward|done].
Qed.
Lemma calm_focus_lost time s : calm s (host_focus_lost time s).
Proof.
  unfold host_focus_lost. cbn zeta. destruct (release_effects _ _ _) as [l es]. set (u := set_held_input l _).
  transitivity u; [by intros Hf; constructor|]. generalize (keyboard_focus (held_input (set_held_input (set_last_time time (held_input s)) s))).
  clearbody u. intros previous. revert u. induction es as [|e es IH]; intros u; [done|]. cbn. etransitivity; [apply calm_effect|apply IH].
Qed.
End ShownAnswers.
