(* ===== verification/ShownProtocol.v ===== *)
(** * What the destination's relay tells and announces

    The relay's journal as an automaton on the surfaces it shows: the host hears only of
    surfaces that are mapped, with owners and parents that are, a request or input goes out
    only under the session its surface was mapped with, and the relay's sessions are the
    automaton's state whatever fails. While the relay has not failed, they are also what its
    peer maps ([ShownAnswers]). *)

From S2P Require Import Prelude.
From S2P Require Import Effects.
From S2P Require Import OrdMap.
From S2P Require Import Ids.
From S2P Require Import Surface.
From S2P Require Import Input.
From S2P Require Import TouchLedger.
From S2P Require Import GamepadCapture.
From S2P Require Import Commit.
From S2P Require Import PendingEvents.
From S2P Require Import RemoteInput.
From S2P Require Import SourceRelay.
From S2P Require Import DestinationPort.
From S2P Require Import DestinationRelay.
From S2P Require Import ShownAnswers.

Section ShownProtocol.
Context {Q C : Type} {shown_port : HoistDestinationPort Q C}.
Context {session_order : HashOrder ClientSurfaceId HoistSessionId} {role_order : HashOrder ClientSurfaceId ClientSurfaceRole}
  {cursor_order : HashOrder ClientSurfaceId C}
  {key_order : HashOrder Z RemoteKeyCapture} {button_order : HashOrder Z (ClientInputTarget * option InputPosition)}.
Abbreviation relay := (DestinationRelayAdapter (Q := Q) (C := C)).
Abbreviation noted := (noted (C := C)).
Abbreviation shown_map := (gmap ClientSurfaceId HoistSessionId).
Abbreviation record := (DestinationPortRecord (ClientCursorUpdate C)).
Implicit Types (s : relay) (sf : ClientSurfaceId) (x : HoistSessionId) (m : shown_map).

(** ** The automaton *)
Section Automaton.
Context (upstream id : ClientSourceId).
(** A surface of the relay, and the one of the source it shows. *)
Definition shows m (d : ClientSurfaceId) : option (ClientSurfaceId * HoistSessionId) :=
  if bool_decide (ClientSurfaceId_source d = id) then (fun x => (relocated_surface upstream d, x)) <$> m !! relocated_surface upstream d else None.
Definition is_shown m (d : ClientSurfaceId) : bool := bool_decide (is_Some (shows m d)).
Definition role_shown m (r : ClientSurfaceRole) : bool :=
  match r with
  | Toplevel t => match toplevel_parent t with Some p => is_shown m p | None => true end
  | Popup p => is_shown m (popup_owner p)
  | Layer _ => false
  end.
(** What the record being applied maps, or the cursor it brings. *)
Definition asks_map (heard : option record) sf : option HoistSessionId :=
  match heard with
  | Some (MkPortRecord x (MappedSurface sf')) => if bool_decide (sf' = sf) then Some x else None
  | _ => None
  end.
Definition brings_cursor (heard : option record) x sf (n : Z) : bool :=
  match heard with
  | Some (MkPortRecord y (CursorRecord u k)) => bool_decide (y = x) && bool_decide (updated_surface u = sf) && bool_decide (k = n)
  | _ => false
  end.
Definition message_shown m (heard : option record) (env : DestinationEnvelope) : bool :=
  match message env with
  | CursorReceived sf n => brings_cursor heard (session env) sf n
  | Gamepad _ => bool_decide (session env = GAMEPAD_SESSION)
  | Request (FocusRequest (MkFocusRequest f None)) => bool_decide (f = upstream) && bool_decide (session env ∈ (map_to_list m).*2)
  | msg => match destination_message_surface msg with Some sf => bool_decide (m !! sf = Some (session env)) | None => false end
  end.
(** What is shown, and the record being applied. *)
Definition journal_step (y : shown_map * option record) (n : noted) : option (shown_map * option record) :=
  let '(m, heard) := y in
  match n with
  | Heard r => Some (m, Some r)
  | Told FocusCleared => Some (m, heard)
  | Told (RouteMapped sf d) =>
      x ← asks_map heard sf;
      if bool_decide (m !! sf = None /\ ClientSurfaceId_source sf = upstream /\ d = relocated_surface id sf) then Some (<[sf := x]> m, heard) else None
  | Told (RouteUnmapped d) => if is_shown m d then Some (m, heard) else None
  | Told (Message env) => if message_shown m heard env then Some (m, heard) else None
  | Announced ev =>
      match shows m (surface ev) with
      | None => None
      | Some (sf, _) =>
          match event_kind ev with
          | Destroyed => Some (delete sf m, heard)
          | Role r => if role_shown m r then Some (m, heard) else None
          | _ => Some (m, heard)
          end
      end
  end.
Definition journal_run (l : list noted) : option (shown_map * option record) :=
  foldl (fun o n => y ← o; journal_step y n) (Some (∅, None)) l.
Lemma journal_run_snoc l n : journal_run (l ++ [n]) = y ← journal_run l; journal_step y n.
Proof. unfold journal_run. by rewrite foldl_app. Qed.
End Automaton.

(** ** The relay follows it *)
Context (upstream id : ClientSourceId).
(** The relay's sessions are the automaton's state, up to surfaces [extra] that are just
    being destroyed. *)
Record account extra (h : option record) s : Prop := {
  acc_up : mirrored s = upstream;
  acc_id : descriptor_id s = id;
  acc_run : journal_run upstream id (journal s) = Some (sessions s ∪ extra, h);
  acc_apart : sessions s ##ₘ extra;
  acc_source : forall sf, is_Some ((sessions s ∪ extra) !! sf) -> ClientSurfaceId_source sf = upstream;
}.
Lemma account_same extra h s s' : mirrored s' = mirrored s -> descriptor_id s' = descriptor_id s -> journal s' = journal s ->
  sessions s' = sessions s -> account extra h s -> account extra h s'.
Proof. intros E1 E2 E3 E4 []. split; rewrite ?E1, ?E2, ?E3, ?E4; done. Qed.
(** A note the automaton takes without a change. *)
Lemma account_note extra h h' s n : journal_step upstream id (sessions s ∪ extra, h) n = Some (sessions s ∪ extra, h') ->
  account extra h s -> account extra h' (note n s).
Proof. intros Hn []. split; [done..| |done|done].
  change (journal (note n s)) with (journal s ++ [n]). by rewrite journal_run_snoc, acc_run0. Qed.
Lemma here_shown m sf x s : mirrored s = upstream -> descriptor_id s = id -> ClientSurfaceId_source sf = upstream -> m !! sf = Some x ->
  shows upstream id m (here sf s) = Some (sf, x).
Proof.
  intros E1 E2 E3 Hx. unfold shows, here. rewrite relocated_source, E2, bool_decide_eq_true_2 by done.
  by rewrite <- E3, relocated_back, Hx.
Qed.
Lemma account_shown extra h s sf x : account extra h s -> (sessions s ∪ extra) !! sf = Some x ->
  shows upstream id (sessions s ∪ extra) (here sf s) = Some (sf, x).
Proof. intros [] Hx. apply here_shown; [done..| |done]. apply acc_source0. by eexists. Qed.
Lemma account_session extra h s sf x : account extra h s -> sessions s !! sf = Some x -> (sessions s ∪ extra) !! sf = Some x.
Proof. intros _ Hx. by apply lookup_union_Some_l. Qed.
Lemma announce_account extra h s sf x k : account extra h s -> sessions s !! sf = Some x ->
  match k with Destroyed => False | Role r => role_shown upstream id (sessions s ∪ extra) r = true | _ => True end ->
  account extra h (announce (MkClientSurfaceEvent (here sf s) k) s).
Proof.
  intros Ha Hx Hk. pose proof (account_shown _ _ _ _ _ Ha (account_session _ _ _ _ _ Ha Hx)) as Hs.
  unfold announce. set (t := set_events _ s). assert (Ht : account extra h t) by (by apply (account_same extra h s)).
  eapply account_note; [|done]. change (sessions t) with (sessions s). cbn. rewrite Hs. destruct k; try done. by rewrite Hk.
Qed.
Lemma announce_destroyed_account extra h s sf x : account (<[sf := x]> extra) h s -> extra !! sf = None -> account extra h (announce_destroyed sf s).
Proof.
  intros Ha Hn. assert (Hm : (sessions s ∪ <[sf := x]> extra) !! sf = Some x).
  { apply lookup_union_Some; [apply Ha|]. right. apply lookup_insert_eq. }
  pose proof (account_shown _ _ _ _ _ Ha Hm) as Hs. destruct Ha as [A1 A2 A3 A4 A5].
  assert (Hf : sessions s !! sf = None) by (eapply map_disjoint_Some_r; [exact A4|apply lookup_insert_eq]).
  assert (Hd : delete sf (sessions s ∪ <[sf := x]> extra) = sessions s ∪ extra).
  { rewrite delete_union, delete_insert_id by done. by rewrite delete_id. }
  split; [done..| | |].
  - change (journal (announce_destroyed sf s)) with (journal s ++ [Announced (MkClientSurfaceEvent (here sf s) Destroyed)]).
    rewrite journal_run_snoc, A3. cbn. rewrite Hs. by rewrite Hd.
  - cbn. by apply map_disjoint_insert_r in A4 as [_ ?].
  - cbn. rewrite <- Hd. intros y [z [_ Hz]%lookup_delete_Some]. apply A5. by eexists.
Qed.
Lemma forget_surface_account extra h s sf x : account extra h s -> sessions s !! sf = Some x ->
  account (<[sf := x]> extra) h (forget_surface sf s) /\ extra !! sf = None.
Proof.
  intros [A1 A2 A3 A4 A5] Hx. assert (Hn : extra !! sf = None) by (by eapply map_disjoint_Some_l). split; [|done].
  assert (Hu : delete sf (sessions s) ∪ <[sf := x]> extra = sessions s ∪ extra).
  { rewrite <- insert_union_r by apply lookup_delete_eq. rewrite insert_union_l, insert_delete_id; done. }
  unfold forget_surface. split; cbn; [done..| | |]; rewrite ?Hu; try done.
  apply map_disjoint_insert_r. split; [apply lookup_delete_eq|]. by apply map_disjoint_delete_l.
Qed.
Lemma forget_feedback_account extra h s sf : account extra h s -> account extra h (forget_feedback sf s).
Proof. by apply account_same. Qed.
Lemma destroy_quietly_account extra h s sf : account extra h s -> account extra h (destroy_quietly s sf).
Proof.
  intros Ha%(forget_feedback_account _ _ _ sf). unfold destroy_quietly. set (t := forget_feedback sf s) in *. clearbody t.
  case_bool_decide as Hs; [done|]. apply not_eq_None_Some in Hs as [x Hx]. destruct (forget_surface_account _ _ _ _ _ Ha Hx).
  by eapply announce_destroyed_account.
Qed.
Lemma foldl_account {A} extra h (f : relay -> A -> relay) l s : (forall s a, account extra h s -> account extra h (f s a)) ->
  account extra h s -> account extra h (foldl f s l).
Proof. intros Hf. revert s. induction l as [|a l IH]; intros s Hs; [done|]. cbn. apply IH. by apply Hf. Qed.
Lemma fail_destination_account extra h s : account extra h s -> account extra h (fail_destination s).
Proof.
  intros Ha. unfold fail_destination. destruct (destination_failed s); [done|]. apply foldl_account; [by apply destroy_quietly_account|].
  by apply (account_same extra h s).
Qed.
(** What may be told. *)
Definition tellable extra h s (c : DestinationPortCommand) : Prop :=
  journal_step upstream id (sessions s ∪ extra, h) (Told c) = Some (sessions s ∪ extra, h).
Lemma tell_account extra h s c : tellable extra h s c -> account extra h s -> account extra h (tell c s).1.
Proof.
  intros Hc Ha. unfold tell. destruct (shown_submit c (shown s)) as [q r]. cbn [fst].
  apply (account_note extra h h (set_shown q s)); [exact Hc|by apply (account_same extra h s)].
Qed.
Lemma tell_or_fail_account extra h s c : tellable extra h s c -> account extra h s -> account extra h (tell_or_fail c s).
Proof.
  intros Hc Ha. pose proof (tell_account _ _ _ _ Hc Ha) as Ht. unfold tell_or_fail. destruct (tell c s) as [t [r|e]]; [done|].
  by apply fail_destination_account.
Qed.
Lemma destroy_surface_account extra h s sf : account extra h s -> account extra h (destroy_surface s sf).
Proof.
  intros Ha%(forget_feedback_account _ _ _ sf). unfold destroy_surface. set (t := forget_feedback sf s) in *. clearbody t.
  case_bool_decide as Hs; [done|]. apply not_eq_None_Some in Hs as [x Hx]. destruct (forget_surface_account _ _ _ _ _ Ha Hx) as [Hb Hn].
  eapply announce_destroyed_account; [|done]. apply tell_or_fail_account; [|done].
  assert (Hm : (sessions (forget_surface sf t) ∪ <[sf := x]> extra) !! sf = Some x).
  { apply lookup_union_Some; [apply Hb|]. right. apply lookup_insert_eq. }
  unfold tellable. cbn [journal_step]. unfold is_shown. change (here sf t) with (here sf (forget_surface sf t)).
  rewrite (account_shown _ _ _ _ _ Hb Hm). by rewrite bool_decide_eq_true_2.
Qed.
Lemma end_session_account extra h x s : account extra h s -> account extra h (end_session x s).
Proof. intros Ha. apply foldl_account; [apply destroy_surface_account|done]. Qed.

(** Showing. *)
Lemma relocated_parent_shown extra h s p d : account extra h s -> relocated_parent s p = Some d ->
  is_shown upstream id (sessions s ∪ extra) d = true.
Proof.
  unfold relocated_parent. intros Ha. case_bool_decide as Hp; [|done]. intros [= <-]. destruct Hp as [x Hx].
  unfold is_shown. rewrite (account_shown _ _ _ _ _ Ha (account_session _ _ _ _ _ Ha Hx)). by rewrite bool_decide_eq_true_2.
Qed.
Lemma announce_role_account extra h s y : is_Some (sessions s !! y.1) -> account extra h s -> account extra h (announce_role s y).
Proof.
  intros [x Hx] Ha. unfold announce_role. destruct (relocated_role y.2 s) as [r|] eqn:Hr; [|done]. eapply announce_account; [done..|].
  destruct y.2 as [t|p|l]; cbn in Hr; [|destruct (relocated_parent s (popup_owner p)) eqn:Hp; [|done]|done]; injection Hr as <-; cbn.
  - destruct (toplevel_parent t) as [q|]; cbn; [|done]. destruct (relocated_parent s q) eqn:Hp; [|done]. by eapply relocated_parent_shown.
  - by eapply relocated_parent_shown.
Qed.
Lemma announce_role_sessions s y : sessions (announce_role s y) = sessions s.
Proof. unfold announce_role. by destruct (relocated_role _ _). Qed.
Lemma announce_roles_account extra h l s : Forall (fun y : ClientSurfaceId * ClientSurfaceRole => is_Some (sessions s !! y.1)) l ->
  account extra h s -> account extra h (foldl announce_role s l).
Proof.
  revert s. induction l as [|y l IH]; intros s Hl Ha; [done|]. apply list.Forall_cons in Hl as [Hy Hl]. cbn. apply IH.
  - by rewrite announce_role_sessions.
  - by apply announce_role_account.
Qed.
Lemma refresh_children_account extra h parent s : account extra h s -> account extra h (refresh_children_of parent s).
Proof.
  intros Ha. apply announce_roles_account; [|done]. apply list.Forall_forall. intros y [Hy _]%list_elem_of_filter.
  unfold is_child_of in Hy. by apply andb_true_iff in Hy as [_ ?%bool_decide_eq_true].
Qed.
Abbreviation agrees := (account ∅).
Lemma map_surface_account h x sf s : asks_map h sf = Some x -> agrees h s -> agrees h (map_surface x sf s).1.
Proof.
  intros Hask Ha. unfold map_surface. case_bool_decide as Hu; [by apply fail_destination_account|].
  destruct (sessions s !! sf) as [y|] eqn:Hs.
  { case_bool_decide; [done|by apply fail_destination_account]. }
  set (t := set_sessions _ s). assert (Ht : agrees h (tell (RouteMapped sf (here sf t)) t).1).
  { destruct Ha as [A1 A2 A3 A4 A5]. unfold tell. destruct (shown_submit _ _) as [q r]. cbn [fst].
    assert (Hup : ClientSurfaceId_source sf = upstream) by (rewrite <- A1; by destruct (decide (ClientSurfaceId_source sf = mirrored s))).
    rewrite (right_id_L ∅ (∪)) in A3, A5. split; try done.
    - change (journal (note (Told (RouteMapped sf (here sf t))) (set_shown q t))) with (journal s ++ [Told (RouteMapped sf (here sf t))]).
      rewrite journal_run_snoc, A3. cbn. rewrite Hask. cbn. rewrite bool_decide_eq_true_2; [by rewrite (right_id_L ∅ (∪))|].
      split; [done|]. split; [done|]. unfold here. cbn. by rewrite A2.
    - apply map_disjoint_empty_r.
    - cbn. rewrite (right_id_L ∅ (∪)). intros y [z [[<- _]|[_ Hz]]%lookup_insert_Some]; [done|]. apply A5. by eexists. }
  destruct (tell _ t) as [u [r|e]]; cbn [fst] in *; [by apply refresh_children_account|by apply fail_destination_account].
Qed.

(** Records. *)
Lemma send_account extra h x msg s : message_shown upstream (sessions s ∪ extra) h (MkDestinationEnvelope x msg) = true ->
  account extra h s -> account extra h (send_destination x msg s).
Proof. intros Hm. apply tell_or_fail_account. unfold tellable. cbn [journal_step]. by rewrite Hm. Qed.
Lemma acknowledge_account extra h x sf n s : brings_cursor h x sf n = true -> account extra h s -> account extra h (acknowledge x sf n s).
Proof. intros Hb. by apply send_account. Qed.
Lemma apply_surface_account extra h x (ev : ClientSurfaceEvent ClientBufferLease) s : account extra h s -> account extra h (apply_surface x ev s).1.
Proof.
  intros Ha. unfold apply_surface. case_bool_decide as Hu; [by apply fail_destination_account|]. cbn [orb].
  case_bool_decide as Hs; [by apply fail_destination_account|]. destruct (event_kind ev) as [r|c|i|i| |l]; cbn [fst].
  - assert (Hr : account extra h (announce_role (set_roles (<[surface ev := r]> (roles s)) s) (surface ev, r))).
    { apply announce_role_account; [by eexists|by apply (account_same extra h s)]. }
    destruct r; [done..|by apply fail_destination_account].
  - by eapply announce_account.
  - by eapply announce_account.
  - by eapply announce_account.
  - by apply destroy_surface_account.
  - by eapply announce_account.
Qed.
Lemma apply_record_account h r s : agrees h s -> agrees (Some r) (apply_record r s).1.
Proof.
  intros Ha. unfold apply_record. assert (Hn : agrees (Some r) (note (Heard r) s)) by by eapply account_note.
  set (t := note (Heard r) s) in *. clearbody t. clear Ha. destruct r as [x [status|sf|ev|sf| |u n]]; cbn [record_event record_session].
  - unfold apply_gamepad. case_bool_decide; [by apply fail_destination_account|]. by eapply account_same; [..|exact Hn].
  - apply map_surface_account; [|done]. cbn. by rewrite bool_decide_eq_true_2.
  - by apply apply_surface_account.
  - by apply destroy_surface_account.
  - by apply end_session_account.
  - assert (Hb : brings_cursor (Some (MkPortRecord x (CursorRecord u n))) x (updated_surface u) n = true) by (cbn; by rewrite !bool_decide_eq_true_2).
    unfold apply_cursor. case_bool_decide; [by apply fail_destination_account|]. destruct (sessions t !! updated_surface u); [|by apply acknowledge_account].
    case_bool_decide; [|by apply fail_destination_account]. apply acknowledge_account; [done|]. by eapply account_same; [..|exact Hn].
Qed.
Definition agreed s : Prop := exists h, agrees h s.
Lemma apply_records_agreed l s : agreed s -> agreed (apply_records l s).
Proof.
  revert s. induction l as [|r l IH]; intros s [h Ha]; [by exists h|]. cbn. pose proof (apply_record_account h r s Ha) as Hr.
  destruct (apply_record r s) as [t [|]]; [apply IH|]; by exists (Some r).
Qed.
Lemma agreed_same s s' : mirrored s' = mirrored s -> descriptor_id s' = descriptor_id s -> journal s' = journal s ->
  sessions s' = sessions s -> agreed s -> agreed s'.
Proof. intros E1 E2 E3 E4 [h Ha]. exists h. by apply (account_same ∅ h s). Qed.
Lemma pump_gamepad_agreed fuel s : agreed s -> agreed (pump_gamepad fuel s).
Proof.
  revert s. induction fuel as [|fuel IH]; intros s Ha; [done|]. cbn. destruct (destination_failed s); [done|].
  destruct (controller s) as [g|]; [|done]. destruct (GamepadCapture.pop g) as [g' [r|]]; [|by apply (agreed_same s)].
  apply IH. destruct Ha as [h Ha]. exists h. apply send_account; [done|]. by apply (account_same ∅ h s).
Qed.
Lemma poll_agreed s : agreed s -> agreed (poll_destination s).
Proof.
  intros Ha. unfold poll_destination. destruct (destination_failed s); [done|]. destruct (shown_poll (shown s)) as [q [l|e]].
  - apply pump_gamepad_agreed, apply_records_agreed. by apply (agreed_same s).
  - destruct Ha as [h Ha]. exists h. apply fail_destination_account. by apply (account_same ∅ h s).
Qed.

(** The host's side. *)
Lemma in_range m sf x : m !! sf = Some x -> x ∈ (map_to_list m).*2.
Proof. intros Hx. apply list_elem_of_fmap. exists (sf, x). split; [done|by apply elem_of_map_to_list]. Qed.
Lemma rewritten_shown h m r sf x s : mirrored s = upstream -> m !! sf = Some x -> r <> ClearFocus ->
  message_shown upstream m h (MkDestinationEnvelope x (Request (rewritten r sf s))) = true.
Proof.
  intros Hu Hx Hr. destruct r as [[q c]|[f [d|]]|]; cbn; try done.
  - by rewrite bool_decide_eq_true_2.
  - by rewrite bool_decide_eq_true_2.
  - rewrite !bool_decide_eq_true_2; [done| |done]. by eapply in_range.
Qed.
Lemma apply_request_agreed r s : agreed s -> agreed (apply_request r s).
Proof.
  intros [h Ha]. exists h. unfold apply_request. destruct (requested r s) as [d|] eqn:Hd; [|done]. cbn.
  destruct (source_surface d s) as [sf|]; [|done]. destruct (sessions s !! sf) as [x|] eqn:Hx.
  - apply send_account; [|by apply (account_same ∅ h s)]. apply rewritten_shown; [apply Ha| |by intros ->].
    by apply (account_session ∅ h s).
  - destruct (is_focus_here r s); [|done]. by apply tell_or_fail_account.
Qed.
Lemma forward_input_account h x sf i s : sessions s !! sf = Some x -> agrees h s -> agrees h (forward_input x sf i s).
Proof.
  intros Hx Ha. apply send_account; [|done]. cbn. replace (target_surface (retarget sf (input_target i))) with sf by by destruct (input_target i).
  rewrite bool_decide_eq_true_2; [done|]. by eapply account_session.
Qed.
Lemma routed_session d s sf x : routed d s = Some (sf, x) -> sessions s !! sf = Some x.
Proof. unfold routed. destruct (source_surface d s) as [y|]; cbn; [|done]. destruct (sessions s !! y) eqn:Hy; cbn; [|done]. by intros [= <- <-]. Qed.
Lemma apply_input_agreed i s : agreed s -> agreed (apply_input i s).
Proof.
  intros [h Ha]. exists h. unfold apply_input. destruct (routed _ s) as [[sf x]|] eqn:Hr; [|done]. apply routed_session in Hr.
  destruct (observe_input i (held_input s)) as [l [|]]; [|by apply (account_same ∅ h s)].
  apply forward_input_account; [done|]. by apply (account_same ∅ h s).
Qed.
Lemma settle_effect_agreed previous s e : agreed s -> agreed (settle_effect previous s e).
Proof.
  intros Ha. unfold settle_effect. destruct (destination_failed s); [done|]. destruct e as [r|i| |]; try done.
  - apply apply_request_agreed. by apply (agreed_same s).
  - destruct (routed _ s) as [[sf x]|] eqn:Hr; [|done]. apply routed_session in Hr. destruct Ha as [h Ha]. exists h. by apply forward_input_account.
Qed.
Lemma host_focus_lost_agreed time s : agreed s -> agreed (host_focus_lost time s).
Proof.
  intros Ha. unfold host_focus_lost. cbn zeta. set (t := set_held_input _ s). assert (Ht : agreed t) by by apply (agreed_same s).
  clearbody t. destruct (release_effects _ _ _) as [l es]. set (u := set_held_input l t). assert (Hu : agreed u) by by apply (agreed_same t).
  clearbody u. revert u Hu. induction es as [|e es IH]; intros u Hu; [done|]. cbn. apply IH. by apply settle_effect_agreed.
Qed.

(** Giving up takes everything off. *)
Lemma destroy_quietly_sessions s sf : sessions (destroy_quietly s sf) = delete sf (sessions s).
Proof. unfold destroy_quietly. case_bool_decide as Hs; [|done]. cbn in *. by rewrite delete_id. Qed.
Lemma destroyed_sessions l s sf x : sessions (foldl destroy_quietly s l) !! sf = Some x -> sf ∉ l /\ sessions s !! sf = Some x.
Proof.
  revert s. induction l as [|y l IH]; intros s; cbn; [split; [apply not_elem_of_nil|done]|]. intros [Hl Hx]%IH.
  rewrite destroy_quietly_sessions in Hx. apply lookup_delete_Some in Hx as [Hn Hx]. split; [|done]. by intros [?|?]%elem_of_cons.
Qed.
Lemma fail_destination_empties s : destination_failed s = false -> sessions (fail_destination s) = ∅.
Proof.
  intros Hf. unfold fail_destination. rewrite Hf. apply map_empty. intros sf. destruct (sessions _ !! sf) as [x|] eqn:Hx; [|done].
  apply destroyed_sessions in Hx as [Hn Hx]. cbn in Hx. destruct Hn. apply list_elem_of_fmap. exists (sf, x). split; [done|].
  rewrite visit_perm. by apply elem_of_map_to_list.
Qed.

(** The gamepad loop ends: each turn takes a request. *)
Definition requests_left s : nat := match controller s with Some g => length (GamepadCapture.outgoing g) | None => 0 end.
Lemma pop_left (g g' : GamepadCapture.Pending) r : GamepadCapture.pop g = (g', Some r) ->
  length (GamepadCapture.outgoing g) = S (length (GamepadCapture.outgoing g')).
Proof.
  unfold GamepadCapture.pop, GamepadCapture.outgoing. destruct (GamepadCapture.end_ g); [by intros [= <- _]|].
  destruct (GamepadCapture.queue g) eqn:Hq; [done|]. intros [= <- _]. cbn. done.
Qed.
Lemma tell_or_fail_controller c s : destination_failed (tell_or_fail c s) = true \/ controller (tell_or_fail c s) = controller s.
Proof.
  unfold tell_or_fail, tell. destruct (shown_submit c (shown s)) as [q [r|e]]; [by right|left].
  unfold fail_destination. cbn. destruct (destination_failed s) eqn:Hf; [done|]. by rewrite quiet_failed.
Qed.
Lemma pump_gamepad_fuel n k s : destination_failed s = true \/ (requests_left s < n)%nat -> pump_gamepad (n + k) s = pump_gamepad n s.
Proof.
  revert s. induction n as [|n IH]; intros s Hn; cbn.
  - destruct Hn as [Hf|?]; [|lia]. destruct k; cbn; [done|]. by rewrite Hf.
  - destruct (destination_failed s) eqn:Hf; [done|]. destruct Hn as [|Hn]; [done|]. unfold requests_left in Hn. destruct (controller s) as [g|]; [|done].
    destruct (GamepadCapture.pop g) as [g' [r|]] eqn:Hp; [|done]. apply IH. apply pop_left in Hp. unfold send_destination.
    destruct (tell_or_fail_controller (Message (MkDestinationEnvelope GAMEPAD_SESSION (Gamepad r))) (set_controller (Some g') s)) as [?|E]; [by left|right].
    unfold requests_left. rewrite E. cbn. lia.
Qed.
Lemma pump_gamepad_enough k s : pump_gamepad (pumping s + k) s = pump_gamepad (pumping s) s.
Proof. apply pump_gamepad_fuel. right. unfold requests_left, pumping. destruct (controller s); lia. Qed.
End ShownProtocol.

(** ** Histories *)
Section ShownHistory.
Context {Q C : Type} {shown_port : HoistDestinationPort Q C}.
Context {session_order : HashOrder ClientSurfaceId HoistSessionId} {role_order : HashOrder ClientSurfaceId ClientSurfaceRole}
  {cursor_order : HashOrder ClientSurfaceId C}
  {key_order : HashOrder Z RemoteKeyCapture} {button_order : HashOrder Z (ClientInputTarget * option InputPosition)}.
Abbreviation relay := (DestinationRelayAdapter (Q := Q) (C := C)).
Implicit Types (s : relay).
(** The host's calls; others change the controller and the port in between. *)
Inductive shown_step : relay -> relay -> Prop :=
  | shown_drains s : shown_step s (drain_events s).1
  | shown_cursors s : shown_step s (drain_cursor_updates s).1
  | shown_requests r s : shown_step s (apply_request r s)
  | shown_input i s : shown_step s (apply_input i s)
  | shown_focus_lost time s : shown_step s (host_focus_lost time s)
  | shown_others g q s : shown_step s (set_controller g (set_shown q s)).
Definition shown_start s : Prop := exists upstream id g q, s = with_controller g (DestinationRelayAdapter_new upstream id q).
Definition shown_history s : Prop := exists s0, shown_start s0 /\ rtc shown_step s0 s.
Lemma shown_step_agreed upstream id s s' : shown_step s s' -> agreed upstream id s -> agreed upstream id s'.
Proof.
  intros [t|t|r t|i t|n t|g q t] H.
  - apply (agreed_same _ _ (poll_destination t)); [done..|]. by apply poll_agreed.
  - by apply (agreed_same _ _ t).
  - by apply apply_request_agreed.
  - by apply apply_input_agreed.
  - by apply host_focus_lost_agreed.
  - by apply (agreed_same _ _ t).
Qed.
Lemma shown_history_agreed s : shown_history s -> agreed (mirrored s) (descriptor_id s) s.
Proof.
  intros (s0 & (upstream & id & g & q & ->) & H).
  assert (Ha : agreed upstream id (with_controller g (DestinationRelayAdapter_new upstream id q) : relay)).
  { exists None. split; [done..|]. cbn. rewrite (right_id_L ∅ (∪)). intros sf [x Hx]. by rewrite lookup_empty in Hx. }
  remember (with_controller g _) as a eqn:Ea. clear Ea. induction H as [a|a b c Hab _ IH].
  - destruct Ha as [h Ha]. destruct (Ha) as [E1 E2 _ _ _]. rewrite E1, E2. by exists h.
  - apply IH. by eapply shown_step_agreed.
Qed.

Lemma shown_step_faithful s s' : shown_step s s' -> faithful s -> faithful s'.
Proof.
  intros [t|t|r t|i t|n t|g q t] H.
  - apply (calm_faithful (poll_destination t)); [by intros Hf; constructor|by apply poll_faithful].
  - revert H. apply calm_faithful. by intros Hf; constructor.
  - revert H. apply calm_faithful, calm_request.
  - revert H. apply calm_faithful, calm_input.
  - revert H. apply calm_faithful, calm_focus_lost.
  - revert H. apply calm_faithful. by intros Hf; constructor.
Qed.
Lemma shown_history_faithful s : shown_history s -> faithful s.
Proof.
  intros (s0 & (upstream & id & g & q & ->) & H). apply (rtc_ind_r faithful) in H; [done|intros _; constructor|].
  intros a b _ Hab. by apply shown_step_faithful.
Qed.

End ShownHistory.

(** ** A sample

    A port that hands out batches and takes routes, but no messages. *)
Abbreviation sample_record := (DestinationPortRecord (ClientCursorUpdate unit)).
#[export] Instance mute_port : HoistDestinationPort (list (list sample_record)) unit := {
  shown_poll q := match q with batch :: q => (q, inl batch) | [] => ([], inl []) end;
  shown_submit c q := match c with Message _ => (q, inr (ErrMsg "closed")) | _ => (q, inl tt) end;
  shown_disconnect q := q;
}.
#[local] Existing Instance plain_order.
Abbreviation sample_destination := (DestinationRelayAdapter (Q := list (list sample_record)) (C := unit)).
Definition shown_window (n : Z) : ClientSurfaceId := ClientSurfaceId_for_test n.
Definition shown_role : ClientSurfaceRole :=
  Toplevel (MkToplevelState None ServerSide (MkToplevelHints false Normal (MkExtent 0 0) (MkExtent 0 0))).
Definition show (n : Z) : list sample_record :=
  [MkPortRecord (MkHoistSessionId 5) (MappedSurface (shown_window n));
   MkPortRecord (MkHoistSessionId 5) (SurfaceRecord (MkClientSurfaceEvent (shown_window n) (Role shown_role)))].
Definition sample_shown_start (l : list sample_record) : sample_destination :=
  with_controller None (DestinationRelayAdapter_new (MkClientSourceId 0) (MkClientSourceId 9) [l]).
(** A relay that fails on the acknowledgement of a cursor goes on with its batch: it ends
    failed with a window mapped and announced, and nothing will announce the window's end. *)
Definition sample_goes_on : sample_destination :=
  poll_destination (sample_shown_start
    (show 1 ++ [MkPortRecord (MkHoistSessionId 5) (CursorRecord (MkCursorUpdate (shown_window 1) tt) 1)] ++ show 2)).
Lemma failed_relay_maps :
  destination_failed sample_goes_on = true /\ sessions sample_goes_on = {[shown_window 2 := MkHoistSessionId 5]} /\
  (fun p => (PendingEvents.record p).2) <$> events sample_goes_on =
    [MkClientSurfaceEvent (relocated_surface (MkClientSourceId 9) (shown_window 1)) (Role shown_role);
     MkClientSurfaceEvent (relocated_surface (MkClientSourceId 9) (shown_window 1)) Destroyed;
     MkClientSurfaceEvent (relocated_surface (MkClientSourceId 9) (shown_window 2)) (Role shown_role)] /\
  fail_destination sample_goes_on = sample_goes_on.
Proof. by vm_compute. Qed.
