(* ===== verification/Loopback.v ===== *)
(** * Relays in one process ([weld-hoist-core/src/loopback.rs])

    The in-process binding of the two relays: one pair of queues, shared by the source's and
    the destination's port and closed by either. Its adapter runs both relays, so here the
    whole path from a surface of the machine to the surface that stands for it is code of the
    program. Route aliases are left out. *)

From S2P Require Import Prelude.
From S2P Require Import Effects.
From S2P Require Import OrdMap.
From S2P Require Import Ids.
From S2P Require Import Surface.
From S2P Require Import Input.
From S2P Require Import TouchLedger.
From S2P Require Import Access.
From S2P Require Import GamepadCapture.
From S2P Require Import Commit.
From S2P Require Import PendingEvents.
From S2P Require Import RemoteInput.
From S2P Require Import SourceRelay.
From S2P Require Import DestinationPort.
From S2P Require Import DestinationRelay.

(** ** The queues *)
Abbreviation port_record C := (DestinationPortRecord (ClientCursorUpdate C)).
Record LoopbackQueues (C : Type) := MkQueues {
  queues_closed : bool;
  source_to_destination : list (port_record C);
  destination_to_source : list DestinationEnvelope;
}.
Arguments MkQueues {C}. Arguments queues_closed {C}. Arguments source_to_destination {C}. Arguments destination_to_source {C}.
Definition LoopbackQueues_default {C} : LoopbackQueues C := MkQueues false [] [].
Definition loopback_closed : error := ErrMsg "loopback session closed".
Definition close_queues {C} (q : LoopbackQueues C) : LoopbackQueues C := MkQueues true [] [].
(** The record a command of the source becomes. *)
Definition record_of {C} (c : SourcePortCommand C) : option (port_record C) :=
  match c with
  | GamepadCommand status => Some (MkPortRecord GAMEPAD_SESSION (GamepadRecord status))
  | FocusClearedCommand | RetireUpstreamBuffer _ => None
  | CursorCommand x sf cursor sequence => Some (MkPortRecord x (CursorRecord (MkCursorUpdate sf cursor) sequence))
  | MapCommand x sf => Some (MkPortRecord x (MappedSurface sf))
  | SurfaceCommand x e => Some (MkPortRecord x (SurfaceRecord e))
  | WithdrawCommand x sf => Some (MkPortRecord x (WithdrawSurface sf))
  end.
Definition push_record {C} (c : SourcePortCommand C) (q : LoopbackQueues C) : LoopbackQueues C :=
  MkQueues (queues_closed q) (source_to_destination q ++ option_list (record_of c)) (destination_to_source q).
(** [LoopbackSourcePort] *)
#[export] Instance loopback_source_port {C} : HoistSourcePort (LoopbackQueues C) C := {
  port_deadline _ := None;
  port_presentation _ claim q := (q, inl claim);
  ready _ := true;
  port_submit c q := if queues_closed q then (q, inr loopback_closed) else (push_record c q, inl tt);
  port_poll q :=
    if queues_closed q then (q, inr loopback_closed)
    else (MkQueues (queues_closed q) (source_to_destination q) [], inl (destination_to_source q));
  port_accept _ q := (q, inl tt);
  port_progress q := (q, inl tt);
  port_effects_drained q := q;
  port_disconnect := close_queues;
}.

(** ** The destination's port *)
Record LoopbackDestinationPort (C : Type) := MkLoopbackDestination {
  queues : LoopbackQueues C;
  destination : ClientSourceId;
  next_buffer_use : option Z;
}.
Arguments MkLoopbackDestination {C}. Arguments queues {C}. Arguments destination {C}. Arguments next_buffer_use {C}.
(** [ClientBufferLease::relay] (weld-client/src/buffer.rs); the completion keeps the lease. *)
Definition relay_lease (b : ClientBufferId) (u : ClientBufferUseId) (l : ClientBufferLease) : outcome ClientBufferLease :=
  ClientBufferLease_new b u (lease_metadata l) (lease_access l).
Definition relay_update (d : ClientSourceId) (next : option Z) (u : SurfaceBufferUpdate ClientBufferLease) :
    option Z * SurfaceBufferUpdate ClientBufferLease :=
  match change u with
  | Replaced m l =>
      match next with
      | None => (None, MkSurfaceBufferUpdate (layer u) (Retained m))
      | Some n =>
          (checked_add n 1,
           MkSurfaceBufferUpdate (layer u)
             (match relay_lease (MkClientBufferId d (buffer_local (lease_buffer l))) (MkClientBufferUseId d n) l with
              | Ret l => Replaced m l
              | _ => Retained m
              end))
      end
  | _ => (next, u)
  end.
Fixpoint relay_updates (d : ClientSourceId) (next : option Z) (l : list (SurfaceBufferUpdate ClientBufferLease)) :
    option Z * list (SurfaceBufferUpdate ClientBufferLease) :=
  match l with
  | [] => (next, [])
  | u :: l => let '(next, u) := relay_update d next u in let '(next, l) := relay_updates d next l in (next, u :: l)
  end.
(** [relay_event] *)
Definition relay_event (d : ClientSourceId) (next : option Z) (e : ClientSurfaceEvent ClientBufferLease) :
    option Z * ClientSurfaceEvent ClientBufferLease :=
  match event_kind e with
  | Commit c => let '(next, us) := relay_updates d next (buffers c) in (next, MkClientSurfaceEvent (surface e) (Commit (set_buffers us c)))
  | _ => (next, e)
  end.
Definition relay_record {C} (d : ClientSourceId) (next : option Z) (r : port_record C) : option Z * port_record C :=
  match record_event r with
  | SurfaceRecord e => let '(next, e) := relay_event d next e in (next, MkPortRecord (record_session r) (SurfaceRecord e))
  | _ => (next, r)
  end.
Fixpoint relay_records {C} (d : ClientSourceId) (next : option Z) (l : list (port_record C)) : option Z * list (port_record C) :=
  match l with
  | [] => (next, [])
  | r :: l => let '(next, r) := relay_record d next r in let '(next, l) := relay_records d next l in (next, r :: l)
  end.
Definition set_queues {C} (q : LoopbackQueues C) (p : LoopbackDestinationPort C) : LoopbackDestinationPort C :=
  MkLoopbackDestination q (destination p) (next_buffer_use p).
(** [HoistDestinationPort for LoopbackDestinationPort] *)
Definition loopback_poll {C} (p : LoopbackDestinationPort C) : LoopbackDestinationPort C * (list (port_record C) + error) :=
  let q := queues p in
  if queues_closed q then (p, inr loopback_closed)
  else
    let '(next, l) := relay_records (destination p) (next_buffer_use p) (source_to_destination q) in
    (MkLoopbackDestination (MkQueues (queues_closed q) [] (destination_to_source q)) (destination p) next, inl l).
Definition loopback_submit {C} (c : DestinationPortCommand) (p : LoopbackDestinationPort C) : LoopbackDestinationPort C * (unit + error) :=
  let q := queues p in
  if queues_closed q then (p, inr loopback_closed)
  else
    match c with
    | Message env => (set_queues (MkQueues (queues_closed q) (source_to_destination q) (destination_to_source q ++ [env])) p, inl tt)
    | FocusCleared | RouteMapped _ _ | RouteUnmapped _ => (p, inl tt)
    end.
#[export] Instance loopback_destination_port {C} : HoistDestinationPort (LoopbackDestinationPort C) C := {
  shown_poll := loopback_poll;
  shown_submit := loopback_submit;
  shown_disconnect p := set_queues (close_queues (queues p)) p;
}.

(** ** The adapter *)
Section Loopback.
Context {C W D : Type} `{EqDecision C} {host : GamepadHost W D}.
Context {cache_order : HashOrder ClientSurfaceId (CachedSurface C)} {session_order : HashOrder ClientSurfaceId HoistSessionId}
  {claim_order : HashOrder ClientSurfaceId ClientPresentationClaim} {role_order : HashOrder ClientSurfaceId ClientSurfaceRole}
  {cursor_order : HashOrder ClientSurfaceId C}
  {key_order : HashOrder Z RemoteKeyCapture} {button_order : HashOrder Z (ClientInputTarget * option InputPosition)}.
Abbreviation source_relay := (SourceRelayAdapter (P := LoopbackQueues C) (Cu := C) (W := W) (D := D)).
Abbreviation destination_relay := (DestinationRelayAdapter (Q := LoopbackDestinationPort C) (C := C)).
Abbreviation Event := (ClientSurfaceEvent ClientBufferLease).
(** The queues are kept once; each relay finds them in its port while it runs. *)
Record LoopbackClientAdapter := MkLoopback {
  source : source_relay;
  shown_by : destination_relay;
  shared : LoopbackQueues C;
  waiting : list (PendingEvent unit ClientBufferLease);
}.
Definition on_source (f : source_relay -> source_relay) (a : LoopbackClientAdapter) : LoopbackClientAdapter :=
  let s := f (set_port (shared a) (source a)) in MkLoopback s (shown_by a) (port s) (waiting a).
Definition with_queues (q : LoopbackQueues C) (d : destination_relay) : destination_relay := set_shown (set_queues q (shown d)) d.
Definition on_destination (f : destination_relay -> destination_relay) (a : LoopbackClientAdapter) : LoopbackClientAdapter :=
  let d := f (with_queues (shared a) (shown_by a)) in MkLoopback (source a) d (queues (shown d)) (waiting a).
(** [registration] *)
Definition registration (authority : AccessAuthority) (w : W) (upstream id : ClientSourceId) : LoopbackClientAdapter :=
  MkLoopback (SourceRelayAdapter_new authority w upstream LoopbackQueues_default)
    (DestinationRelayAdapter_new upstream id (MkLoopbackDestination LoopbackQueues_default id (Some 1))) LoopbackQueues_default [].
(** The destination's events join the adapter's own. *)
Definition gather (a : LoopbackClientAdapter) : LoopbackClientAdapter :=
  let '(d, es) := DestinationRelay.drain_events (with_queues (shared a) (shown_by a)) in
  MkLoopback (source a) d (queues (shown d)) (foldl (fun l e => (push tt e l).1) (waiting a) es).
Definition pump (clock : nat -> instant) (a : LoopbackClientAdapter) : LoopbackClientAdapter := on_source (SourceRelay.poll clock) a.
(** [ClientAdapter for LoopbackClientAdapter] *)
Definition loopback_observe_cursor_update (sf : ClientSurfaceId) (cursor : C) (a : LoopbackClientAdapter) : LoopbackClientAdapter :=
  gather (on_source (observe_cursor_update sf cursor) a).
Definition loopback_observe_event (e : Event) (a : LoopbackClientAdapter) : LoopbackClientAdapter := gather (on_source (observe e) a).
Definition loopback_drain_events (clock : nat -> instant) (a : LoopbackClientAdapter) : LoopbackClientAdapter * list Event :=
  let a := gather (pump clock a) in
  (MkLoopback (source a) (shown_by a) (shared a) [], (fun p => (PendingEvents.record p).2) <$> waiting a).
Definition loopback_apply_request (clock : nat -> instant) (r : ClientRequest) (a : LoopbackClientAdapter) : LoopbackClientAdapter :=
  pump clock (on_destination (apply_request r) a).
Definition loopback_apply_input (clock : nat -> instant) (i : ClientInputEvent) (a : LoopbackClientAdapter) : LoopbackClientAdapter :=
  pump clock (on_destination (apply_input i) a).
Definition loopback_apply_command (c : AdapterCommand) (a : LoopbackClientAdapter) : LoopbackClientAdapter :=
  gather (on_source (apply_command c) a).
Definition loopback_host_focus_lost (clock : nat -> instant) (time : Z) (a : LoopbackClientAdapter) : LoopbackClientAdapter :=
  pump clock (on_destination (host_focus_lost time) a).
Definition loopback_drain_effects (a : LoopbackClientAdapter) : LoopbackClientAdapter * list ClientAdapterEffect :=
  (on_source (fun s => (drain_effects s).1) a, (drain_effects (set_port (shared a) (source a))).2).
Definition loopback_drain_presentation_claims (a : LoopbackClientAdapter) :
    LoopbackClientAdapter * list (ClientSurfaceId * ClientPresentationClaim) :=
  (on_source (fun s => (drain_presentation_claims s).1) a, (drain_presentation_claims (set_port (shared a) (source a))).2).
Definition loopback_drain_cursor_updates (a : LoopbackClientAdapter) : LoopbackClientAdapter * list (ClientCursorUpdate C) :=
  (on_destination (fun d => (drain_cursor_updates d).1) a, (drain_cursor_updates (shown_by a)).2).
Definition loopback_observe_retired_buffer (b : ClientBufferId) (a : LoopbackClientAdapter) : LoopbackClientAdapter :=
  on_source (observe_retired_buffer b) a.
Definition loopback_next_deadline (a : LoopbackClientAdapter) : option instant := next_deadline (source a).
(** The administrator's hand on the shared authority, and the gamepad host. *)
Definition loopback_others (authority : AccessAuthority) (w : W) (a : LoopbackClientAdapter) : LoopbackClientAdapter :=
  on_source (fun s => set_authority authority (set_gamepad (gamepad s) w s)) a.
End Loopback.
