(* ===== verification/LoopbackAgrees.v ===== *)
(** * The two relays agree

    In one process, the commands of the source's relay are what the destination's relay is
    told, so what the destination shows is what the source mapped, and neither relay outlives
    the other. *)

From S2P Require Import Prelude.
From S2P Require Import Effects.
From S2P Require Import OrdMap.
From S2P Require Import Ids.
From S2P Require Import Surface.
From S2P Require Import Input.
From S2P Require Import TouchLedger.
From S2P Require Import Access.
From S2P Require Import GamepadCapture.
From S2P Require Import Commit.
From S2P Require Import PendingEvents.
From S2P Require Import RemoteInput.
From S2P Require Import DestinationPort.
From S2P Require Import SourceRelay.
From S2P Require Import SourceMoves.
From S2P Require Import RelayProtocol.
From S2P Require Import RelaySample.
From S2P Require Import DestinationRelay.
From S2P Require Import ShownProtocol.
From S2P Require Import Loopback.

Section LoopbackAgrees.
Context {C W D : Type} `{EqDecision C} {host : GamepadHost W D}.
Context {cache_order : HashOrder ClientSurfaceId (CachedSurface C)} {session_order : HashOrder ClientSurfaceId HoistSessionId}
  {claim_order : HashOrder ClientSurfaceId ClientPresentationClaim} {role_order : HashOrder ClientSurfaceId ClientSurfaceRole}
  {cursor_order : HashOrder ClientSurfaceId C}
  {key_order : HashOrder Z RemoteKeyCapture} {button_order : HashOrder Z (ClientInputTarget * option InputPosition)}.
Abbreviation source_relay := (SourceRelayAdapter (P := LoopbackQueues C) (Cu := C) (W := W) (D := D)).
Abbreviation destination_relay := (DestinationRelayAdapter (Q := LoopbackDestinationPort C) (C := C)).
Abbreviation adapter := (LoopbackClientAdapter (C := C) (W := W) (D := D)).
Abbreviation command := (SourcePortCommand C).
Implicit Types (s : source_relay) (d : destination_relay) (q : LoopbackQueues C) (base rest : list command).

(** ** The source's half *)
(** After the commands [base] the destination took, the rest is on its way. *)
Record queued base s : Prop := {
  queued_closed : failed s = queues_closed (port s);
  queued_rest : queues_closed (port s) = false -> exists rest, submitted s = base ++ rest /\ source_to_destination (port s) = omap record_of rest;
}.
Lemma queued_same base s s' : queues_closed (port s') = queues_closed (port s) -> source_to_destination (port s') = source_to_destination (port s) ->
  failed s' = failed s -> submitted s' = submitted s -> queued base s -> queued base s'.
Proof. intros E1 E2 E3 E4 [H1 H2]. split; rewrite ?E1, ?E2, ?E3, ?E4; done. Qed.
Lemma port_step_same (p p' : LoopbackQueues C) : rtc port_step p p' -> queues_closed p' = queues_closed p /\ source_to_destination p' = source_to_destination p.
Proof.
  induction 1 as [|a b c Hab _ [IH1 IH2]]; [done|]. rewrite IH1, IH2. destruct Hab as [sf claim p|p|env p|p]; cbn; try done.
  by destruct (queues_closed p) eqn:E.
Qed.
Lemma failed_queued base s : failed s = true -> queues_closed (port s) = true -> queued base s.
Proof. intros E1 E2. split; congruence. Qed.
Lemma calm_queued base s s' : calm s s' -> queued base s -> queued base s'.
Proof.
  intros [a b Hq|a Hf|a Hf Hr] H.
  - destruct (port_step_same _ _ (quiet_port _ _ Hq)) as [E1 E2]. destruct Hq. by apply (queued_same base a).
  - destruct (fail_fields a Hf) as (_ & _ & _ & E1 & _ & _ & _ & E2). apply failed_queued; [done|by rewrite E2].
  - destruct (fail_fields (cleared a) Hf) as (_ & _ & _ & E1 & _ & _ & _ & E2). apply failed_queued; [done|by rewrite E2].
Qed.
Lemma calmly_queued base s s' : calmly s s' -> queued base s -> queued base s'.
Proof. induction 1; eauto using calm_queued. Qed.
Lemma submit_queued base c s : queued base s -> queued base (submit c s).1.
Proof.
  intros [H1 H2]. unfold submit. cbn. destruct (queues_closed (port s)) eqn:Hc; cbn; [split; cbn; congruence|]. split; cbn; [congruence|]. intros _.
  destruct (H2 eq_refl) as (rest & E1 & E2). exists (rest ++ [c]). rewrite E1, E2, app_assoc, omap_app. split; [done|]. cbn.
  by destruct (record_of c).
Qed.
Lemma move_queued base s s' : move s s' -> queued base s -> queued base s'.
Proof.
  intros [a b Hc|a c Hc|a p|a b sf x Hf Hm Hu Hc|a sf x Hm|a sf x Hf Hm|a b sf Hc Hg|a r Hf Hr Hm|a i Hf Hr Hm|a Hf Hr|a id Ha] H.
  - by eapply calm_queued.
  - by apply submit_queued.
  - destruct (released_fields p a) as (_ & _ & _ & E1 & E2 & _ & _ & _ & E3). apply (queued_same base a); congruence.
  - apply submit_queued. eapply calmly_queued; [exact Hc|]. by apply (queued_same base a).
  - apply submit_queued. destruct (take_off_fields sf a) as (_ & E1 & E2 & _ & _ & _ & _ & E3).
    destruct (port_step_same _ _ E3). by apply (queued_same base a).
  - apply submit_queued. destruct (let_go_fields sf a) as (_ & E1 & E2 & _ & _ & _ & _ & _ & E3).
    destruct (port_step_same _ _ E3). by apply (queued_same base a).
  - eapply calmly_queued; [exact Hc|]. destruct (let_go_fields sf a) as (_ & E1 & E2 & _ & _ & _ & _ & _ & E3).
    destruct (port_step_same _ _ E3). by apply (queued_same base a).
  - by apply (queued_same base a).
  - unfold take_input. destruct (observe_input _ _) as [l [|]]; by apply (queued_same base a).
  - by apply (queued_same base a).
  - by apply (queued_same base a).
Qed.
(** The rest of what moves keep. *)
Record lasting s s' : Prop := { lasting_source : upstream_source s' = upstream_source s; lasting_failed : failed s = true -> failed s' = true }.
Lemma calmly_lasting s s' : calmly s s' -> lasting s s'.
Proof. intros []%calmly_failing. by split. Qed.
Lemma submit_lasting c s s' : lasting s s' -> lasting s (submit c s').1.
Proof. intros [E F]. destruct (submit_fields c s') as (_ & E1 & _ & E2). split; congruence || (rewrite E2; done). Qed.
Lemma move_lasting s s' : move s s' -> lasting s s'.
Proof.
  intros [a b Hc|a c Hc|a p|a b sf x Hf Hm Hu Hc|a sf x Hm|a sf x Hf Hm|a b sf Hc Hg|a r Hf Hr Hm|a i Hf Hr Hm|a Hf Hr|a id Ha].
  - apply calmly_lasting. by apply rtc_once.
  - by apply submit_lasting.
  - destruct (released_fields p a) as (_ & _ & _ & E1 & _ & E2 & _). split; congruence.
  - apply submit_lasting. by apply calmly_lasting in Hc as [? ?].
  - apply submit_lasting. destruct (take_off_fields sf a) as (_ & E1 & _ & E2 & _). split; congruence.
  - apply submit_lasting. destruct (let_go_fields sf a) as (_ & E1 & _ & E2 & _). split; congruence.
  - apply calmly_lasting in Hc as [F1 F2]. destruct (let_go_fields sf a) as (_ & E1 & _ & E2 & _). split; [congruence|]. rewrite <- E1. exact F2.
  - by split.
  - unfold take_input. by destruct (observe_input _ _) as [l [|]].
  - by split.
  - by split.
Qed.
Record source_kept (U : ClientSourceId) base s : Prop := {
  kept_queued : queued base s;
  kept_speaks : speaks s;
  kept_source : upstream_source s = U;
}.
Lemma moves_kept U base s s' : moves s s' -> source_kept U base s -> source_kept U base s' /\ (failed s = true -> failed s' = true).
Proof.
  induction 1 as [|a b c Hab _ IH]; [done|]. intros [H1 H2 H3]. destruct (move_lasting _ _ Hab) as [L1 L2]. destruct IH as [IH1 IH2].
  - split; [by eapply move_queued|by eapply move_speaks|congruence].
  - split; [done|auto].
Qed.
Lemma same_kept U base s s' : queues_closed (port s') = queues_closed (port s) -> source_to_destination (port s') = source_to_destination (port s) ->
  failed s' = failed s -> submitted s' = submitted s -> upstream_source s' = upstream_source s -> mappings s' = mappings s ->
  source_kept U base s -> source_kept U base s'.
Proof. intros E1 E2 E3 E4 E5 E6 [H1 H2 H3]. split; [by apply (queued_same base s)|by apply (speaks_same s)|congruence]. Qed.

(** ** The destination's half *)
Abbreviation at_queues d := (queues (shown d)).
(** A destination that failed closed the queues and shows nothing. *)
Definition sound d : Prop := destination_failed d = true -> queues_closed (at_queues d) = true /\ sessions d = ∅.
(** What serving the host changes: nothing that the source can tell, while the queues are open. *)
Record acts d d' : Prop := {
  acts_up : mirrored d' = mirrored d;
  acts_closed : queues_closed (at_queues d') = queues_closed (at_queues d);
  acts_open : queues_closed (at_queues d) = false -> sessions d' = sessions d /\ destination_failed d' = destination_failed d /\
    source_to_destination (at_queues d') = source_to_destination (at_queues d);
  acts_sound : sound d -> sound d';
}.
#[local] Instance acts_po : PreOrder acts.
Proof.
  split; [by split|]. intros a b c [A1 A2 A3 A4] [B1 B2 B3 B4]. split; [congruence..| |auto]. intros Ha.
  destruct (A3 Ha) as (? & ? & ?). rewrite Ha in A2. destruct (B3 A2) as (? & ? & ?). split; [congruence|]. split; congruence.
Qed.
Lemma same_acts d d' : mirrored d' = mirrored d -> shown d' = shown d -> sessions d' = sessions d -> destination_failed d' = destination_failed d -> acts d d'.
Proof. intros E1 E2 E3 E4. split; unfold sound; rewrite ?E1, ?E2, ?E3, ?E4; done. Qed.
Lemma foldl_acts {A} (f : destination_relay -> A -> destination_relay) l d : (forall d a, acts d (f d a)) -> acts d (foldl f d l).
Proof. intros Hf. revert d. induction l as [|a l IH]; intros d; [done|]. cbn. etrans; [apply Hf|apply IH]. Qed.
(** Taking off what is shown leaves the port alone. *)
Record off d d' : Prop := {
  off_up : mirrored d' = mirrored d;
  off_port : shown d' = shown d;
  off_failed : destination_failed d' = destination_failed d;
}.
Lemma destroy_quietly_off d sf : off d (destroy_quietly d sf).
Proof. unfold destroy_quietly. by case_bool_decide. Qed.
Lemma destroyed_off l d : off d (foldl destroy_quietly d l).
Proof.
  revert d. induction l as [|sf l IH]; intros d; [done|]. cbn. destruct (destroy_quietly_off d sf), (IH (destroy_quietly d sf)). split; congruence.
Qed.
Lemma fail_destination_sound d : sound (fail_destination d) \/ destination_failed d = true.
Proof.
  destruct (destination_failed d) eqn:Hf; [by right|left]. intros _. split; [|by apply fail_destination_empties].
  unfold fail_destination. rewrite Hf. destruct (destroyed_off (fst <$> visit (sessions d)) (shut d)) as [_ -> _]. done.
Qed.
Lemma fail_destination_acts d : queues_closed (at_queues d) = true -> acts d (fail_destination d).
Proof.
  intros Hc. destruct (destination_failed d) eqn:Hf; [unfold fail_destination; by rewrite Hf|]. pose proof (fail_destination_empties d Hf) as He.
  unfold fail_destination in *. rewrite Hf in *. destruct (destroyed_off (fst <$> visit (sessions d)) (shut d)) as [E1 E2 E3].
  split; rewrite ?E1, ?E2; cbn; try congruence. intros _ _. split; [by rewrite E2|done].
Qed.
Lemma fail_destination_failed d : destination_failed (fail_destination d) = true.
Proof.
  destruct (destination_failed d) eqn:Hf; unfold fail_destination; rewrite Hf; [done|].
  by destruct (destroyed_off (fst <$> visit (sessions d)) (shut d)) as [_ _ ->].
Qed.
Lemma tell_open c d : queues_closed (at_queues d) = false -> exists d', tell c d = (d', inl tt) /\ acts d d' /\ sessions d' = sessions d /\
  roles d' = roles d.
Proof.
  intros Hc. unfold tell. cbn. unfold loopback_submit. rewrite Hc.
  destruct c as [|env|sf x|x]; (eexists; split; [reflexivity|]; split; [|done]; split; cbn; rewrite ?Hc; try done; intros Hs F; destruct (Hs F); cbn in *; congruence).
Qed.
Lemma tell_or_fail_acts c d : acts d (tell_or_fail c d).
Proof.
  unfold tell_or_fail. destruct (queues_closed (at_queues d)) eqn:Hc.
  - unfold tell. cbn. unfold loopback_submit. rewrite Hc. set (t := note _ _). assert (Ht : acts d t) by by apply same_acts.
    etrans; [exact Ht|]. by apply fail_destination_acts.
  - destruct (tell_open c d Hc) as (d' & -> & Ha & _). exact Ha.
Qed.
Lemma send_acts x m d : acts d (send_destination x m d).
Proof. apply tell_or_fail_acts. Qed.
Lemma apply_request_acts r d : acts d (apply_request r d).
Proof.
  unfold apply_request. destruct (_ ≫= _) as [sf|]; [|done]. destruct (sessions d !! sf).
  - etrans; [|apply send_acts]. by apply same_acts.
  - destruct (is_focus_here r d); [apply tell_or_fail_acts|done].
Qed.
Lemma apply_input_acts i d : acts d (apply_input i d).
Proof.
  unfold apply_input. destruct (routed _ d) as [[sf x]|]; [|done]. destruct (observe_input i (held_input d)) as [l [|]]; [|by apply same_acts].
  etrans; [|apply send_acts]. by apply same_acts.
Qed.
Lemma host_focus_lost_acts time d : acts d (host_focus_lost time d).
Proof.
  unfold host_focus_lost. cbn zeta. set (t := set_held_input _ d). assert (Ht : acts d t) by by apply same_acts. etrans; [exact Ht|].
  destruct (release_effects _ _ _) as [l es]. etrans; [|apply foldl_acts]; [by apply same_acts|]. intros u e. unfold settle_effect.
  destruct (destination_failed u); [done|]. destruct e as [r|i| |]; try done.
  - etrans; [|apply apply_request_acts]. by apply same_acts.
  - destruct (routed _ u) as [[sf x]|]; [apply send_acts|done].
Qed.
Lemma pump_gamepad_acts fuel d : acts d (pump_gamepad fuel d).
Proof.
  revert d. induction fuel as [|fuel IH]; intros d; [done|]. cbn. destruct (destination_failed d); [done|].
  destruct (controller d) as [g|]; [|done]. destruct (GamepadCapture.pop g) as [g' [r|]]; [|by apply same_acts].
  etrans; [|apply IH]. etrans; [|apply send_acts]. by apply same_acts.
Qed.

(** ** Delivery *)
(** The destination is up, and shows [m]. *)
Record shows_now (U : ClientSourceId) (m : gmap ClientSurfaceId HoistSessionId) d : Prop := {
  now_up : mirrored d = U;
  now_open : queues_closed (at_queues d) = false;
  now_alive : destination_failed d = false;
  now_sessions : sessions d = m;
  now_empty : source_to_destination (at_queues d) = [];
  now_source : forall sf, is_Some (m !! sf) -> ClientSurfaceId_source sf = U;
}.
Lemma acts_now U m d d' : acts d d' -> shows_now U m d -> shows_now U m d'.
Proof. intros [A1 A2 A3 _] [N1 N2 N3 N4 N5 N6]. destruct (A3 N2) as (? & ? & ?). split; try done; congruence. Qed.
Lemma change_now U m m' d d' : mirrored d' = mirrored d -> shown d' = shown d -> sessions d' = m' -> destination_failed d' = destination_failed d ->
  (forall sf, is_Some (m' !! sf) -> ClientSurfaceId_source sf = U) -> shows_now U m d -> shows_now U m' d'.
Proof. intros E1 E2 E3 E4 E5 []. split; rewrite ?E1, ?E2, ?E3, ?E4; done. Qed.
Lemma same_now U m d d' : mirrored d' = mirrored d -> shown d' = shown d -> sessions d' = sessions d -> destination_failed d' = destination_failed d ->
  shows_now U m d -> shows_now U m d'.
Proof. intros E1 E2 E3 E4 Hn. destruct (Hn). apply (change_now U m m d); [done..|congruence|done|done|done]. Qed.
Lemma delete_source (U : ClientSourceId) (m : gmap ClientSurfaceId HoistSessionId) sf : (forall sf, is_Some (m !! sf) -> ClientSurfaceId_source sf = U) ->
  forall y, is_Some (delete sf m !! y) -> ClientSurfaceId_source y = U.
Proof. intros Hm y [x [_ Hx]%lookup_delete_Some]. apply Hm. by eexists. Qed.
Lemma announce_role_now U m y d : shows_now U m d -> shows_now U m (announce_role d y).
Proof. intros H. unfold announce_role. destruct (relocated_role _ _); [|done]. by apply (same_now U m d). Qed.
Lemma destroy_surface_now U m sf d : shows_now U m d -> shows_now U (delete sf m) (destroy_surface d sf).
Proof.
  intros H. unfold destroy_surface. set (t := forget_feedback sf d). assert (Ht : shows_now U m t) by by apply (same_now U m d).
  clearbody t. case_bool_decide as Hs.
  - rewrite (now_sessions _ _ _ Ht) in Hs. by rewrite delete_id.
  - assert (Hf : shows_now U (delete sf m) (forget_surface sf t)).
    { apply (change_now U m _ t); [done..| |done| |done]; [cbn; by rewrite (now_sessions _ _ _ Ht)|]. apply delete_source, Ht. }
    pose proof (acts_now _ _ _ _ (tell_or_fail_acts (RouteUnmapped (here sf t)) _) Hf) as Ha.
    by apply (same_now U (delete sf m) (tell_or_fail (RouteUnmapped (here sf t)) (forget_surface sf t))).
Qed.
Lemma map_surface_now U m x sf d : m !! sf = None -> ClientSurfaceId_source sf = U -> shows_now U m d ->
  exists d', map_surface x sf d = (d', true) /\ shows_now U (<[sf := x]> m) d'.
Proof.
  intros Hn Hu H. destruct (H) as [N1 N2 N3 N4 N5 N6]. unfold map_surface. rewrite bool_decide_eq_false_2 by (intros F; congruence). rewrite N4, Hn.
  set (t := set_sessions (<[sf := x]> m) d). assert (Ht : shows_now U (<[sf := x]> m) t).
  { apply (change_now U m _ d); [done..| |done]. intros y [z [[<- _]|[_ Hz]]%lookup_insert_Some]; [done|]. apply N6. by eexists. }
  destruct (tell_open (RouteMapped sf (here sf t)) t) as (u & -> & Ha & _); [apply Ht|]. eexists. split; [done|].
  apply (acts_now _ _ _ _ Ha) in Ht. clear Ha. clearbody t. unfold refresh_children_of. generalize (filter (fun y => is_child_of sf u y = true) (visit (roles u))).
  intros l. revert u Ht. induction l as [|y l IH]; intros u Ht; [done|]. cbn. apply IH. by apply announce_role_now.
Qed.
Lemma announce_now U m e d : shows_now U m d -> shows_now U m (announce e d).
Proof. by apply (same_now U m d). Qed.
(** One command of the source, heard. *)
Lemma apply_command_now U m m' id next c r d : protocol_step U m c = Some m' -> record_of c = Some r -> shows_now U m d ->
  exists d', apply_record (relay_record id next r).2 d = (d', true) /\ shows_now U m' d'.
Proof.
  intros Hs Hr H. set (n := (relay_record id next r).2).
  assert (Ht : shows_now U m (note (Heard n) d)) by by apply (same_now U m d).
  unfold apply_record. subst n. revert Ht. generalize (note (Heard (relay_record id next r).2) d). clear d H. intros d H.
  destruct (H) as [N1 N2 N3 N4 N5 N6].
  destruct c as [status| |x sf|x e|x sf cu n|x sf|b]; cbn in Hs, Hr; try done; injection Hr as <-.
  - injection Hs as <-. cbn. unfold apply_gamepad. rewrite bool_decide_eq_false_2 by (intros F; congruence). eexists. split; [done|].
    by apply (same_now U m d).
  - case_bool_decide as Hm; [|done]. injection Hs as <-. destruct Hm as [? ?]. by apply map_surface_now.
  - case_bool_decide as Hm; [|done].
    assert (Hok : forall e', surface e' = surface e -> match event_kind e' with Destroyed => event_kind e = Destroyed | Role r => event_kind e = Role r | _ => Some m = Some m' end ->
      forall Hsrc : ClientSurfaceId_source (surface e) = U, exists d', apply_surface x e' d = (d', true) /\ shows_now U m' d').
    { intros e' Es Ek Hsrc. unfold apply_surface. rewrite Es, N1, N4, Hm.
      rewrite bool_decide_eq_false_2 by (intros F; congruence). rewrite bool_decide_eq_false_2 by (intros F; congruence). cbn [orb].
      destruct (event_kind e') as [r|c0|i0|i0| |l0]; [rewrite Ek in Hs|injection Ek as <-..| |injection Ek as <-].
      - destruct r as [t|p0|l0]; [| |done]; injection Hs as <-; (eexists; split; [done|]); apply announce_role_now; by apply (same_now U m d).
      - eexists. split; [done|]. by apply announce_now.
      - eexists. split; [done|]. by apply announce_now.
      - eexists. split; [done|]. by apply announce_now.
      - rewrite Ek in Hs. injection Hs as <-. eexists. split; [done|]. by apply destroy_surface_now.
      - eexists. split; [done|]. by apply announce_now. }
    assert (Hsrc : ClientSurfaceId_source (surface e) = U) by (apply N6; by eexists).
    unfold relay_record. cbn. unfold relay_event. destruct (event_kind e) as [r|c0|i0|i0| |l0] eqn:Ek; cbn.
    + apply Hok; [done|by rewrite Ek|done].
    + destruct (relay_updates id next (buffers c0)) as [next' us]. cbn. injection Hs as <-. by apply Hok.
    + injection Hs as <-. apply Hok; [done|by rewrite Ek|done].
    + injection Hs as <-. apply Hok; [done|by rewrite Ek|done].
    + apply Hok; [done|by rewrite Ek|done].
    + injection Hs as <-. apply Hok; [done|by rewrite Ek|done].
  - case_bool_decide as Hm; [|done]. injection Hs as <-. cbn. unfold apply_cursor. cbn.
    assert (Hsrc : ClientSurfaceId_source sf = U) by (apply N6; by eexists).
    rewrite bool_decide_eq_false_2 by (intros F; congruence). rewrite N4, Hm. rewrite bool_decide_eq_true_2 by done. eexists. split; [done|].
    eapply acts_now; [apply send_acts|]. by apply (same_now U m d).
  - case_bool_decide as Hm; [|done]. injection Hs as <-. eexists. split; [done|]. by apply destroy_surface_now.
Qed.
Definition protocol_from (U : ClientSourceId) (m : gmap ClientSurfaceId HoistSessionId) (l : list command) : option (gmap ClientSurfaceId HoistSessionId) :=
  foldl (fun o c => m ← o; protocol_step U m c) (Some m) l.
Lemma protocol_from_none U l : foldl (fun o (c : command) => m ← o; protocol_step U m c) None l = (None : option (gmap ClientSurfaceId HoistSessionId)).
Proof. by induction l. Qed.
Lemma protocol_run_app U base rest m : protocol_run U base = Some m -> protocol_run U (base ++ rest) = protocol_from U m rest.
Proof. intros Hm. unfold protocol_run in *. by rewrite foldl_app, Hm. Qed.
Lemma relay_records_cons id next (r : port_record C) l :
  (relay_records id next (r :: l)).2 = (relay_record id next r).2 :: (relay_records id (relay_record id next r).1 l).2.
Proof. cbn. destruct (relay_record id next r) as [n' r']. cbn. by destruct (relay_records id n' l). Qed.
Lemma deliver_now U m' id next rest m d : protocol_from U m rest = Some m' -> shows_now U m d ->
  shows_now U m' (apply_records (relay_records id next (omap record_of rest)).2 d).
Proof.
  revert next m d. induction rest as [|c rest IH]; intros next m d Hp Hn; [by injection Hp as <-|].
  unfold protocol_from in Hp. cbn [foldl] in Hp. destruct (protocol_step U m c) as [m1|] eqn:Hc; cbn in Hp; rewrite ?Hc in Hp; [|by rewrite protocol_from_none in Hp].
  cbn [omap list_omap]. destruct (record_of c) as [r|] eqn:Hr.
  - rewrite relay_records_cons. destruct (apply_command_now U m m1 id next c r d Hc Hr Hn) as (d' & E & Hd'). cbn [apply_records].
    rewrite E. by apply IH with (m := m1).
  - apply IH with (m := m1); [done|]. destruct c; try done; cbn in Hc; by injection Hc as <-.
Qed.

(** ** The adapter *)
Record loop_kept (U : ClientSourceId) base (a : adapter) : Prop := {
  loop_source : source_kept U base (set_port (shared a) (source a));
  loop_mirror : mirrored (shown_by a) = U;
  loop_sound : sound (with_queues (shared a) (shown_by a));
  loop_shown : queues_closed (shared a) = false -> protocol_run U base = Some (sessions (shown_by a));
}.
Definition loop_ok U (a : adapter) : Prop := exists base, loop_kept U base a.
Lemma protocol_sources U l (m : gmap ClientSurfaceId HoistSessionId) : protocol_run U (l : list command) = Some m ->
  forall sf, is_Some (m !! sf) -> ClientSurfaceId_source sf = U.
Proof.
  revert m. induction l as [|c l IH] using rev_ind; intros m; [intros [= <-] sf [x Hx]; by rewrite lookup_empty in Hx|].
  rewrite protocol_run_snoc. destruct (protocol_run U l) as [m0|] eqn:Hl; cbn; [|done]. intros Hc. specialize (IH m0 eq_refl).
  destruct c as [status| |x sf|x e|x sf cu n|x sf|b]; cbn in Hc; try case_bool_decide; simplify_eq; try done.
  - intros y [z [[<- _]|[_ Hz]]%lookup_insert_Some]; [tauto|]. apply IH. by eexists.
  - destruct (event_kind e) as [[]| | | | |]; simplify_eq; try done. by apply delete_source.
  - by apply delete_source.
Qed.
Lemma port_kept U base q q' s : queues_closed q' = queues_closed q -> (queues_closed q = false -> source_to_destination q' = source_to_destination q) ->
  source_kept U base (set_port q s) -> source_kept U base (set_port q' s).
Proof.
  intros E1 E2 [[H1 H2] H3 H4]. cbn in *. split; [split; cbn; rewrite E1; [done|]| |done].
  - intros Hq. rewrite (E2 Hq). by apply H2.
  - by apply (speaks_same (set_port q s)).
Qed.
(** The source runs. *)
Definition source_safe U (f : source_relay -> source_relay) : Prop :=
  forall base s, source_kept U base s -> source_kept U base (f s) /\ (failed s = true -> failed (f s) = true).
Lemma moves_safe U f : (forall s, moves s (f s)) -> source_safe U f.
Proof. intros Hf base s. by apply moves_kept. Qed.
Lemma on_source_ok U f (a : adapter) : source_safe U f -> loop_ok U a -> loop_ok U (on_source f a).
Proof.
  intros Hf [base [H1 H2 H3 H4]]. exists base. unfold on_source. destruct (Hf base _ H1) as [K L]. set (s0 := set_port _ _) in *. set (s := f s0) in *. clearbody s.
  pose proof (queued_closed _ _ (kept_queued _ _ _ H1)) as E0. pose proof (queued_closed _ _ (kept_queued _ _ _ K)) as E1. change (port s0) with (shared a) in E0.
  assert (Hc : queues_closed (shared a) = true -> queues_closed (port s) = true) by (rewrite <- E0, <- E1; exact L).
  split; cbn [source shown_by shared].
  - by apply (same_kept U base s).
  - done.
  - intros F. destruct (H3 F) as [G ?]. by split; [apply Hc|].
  - intros G. apply H4. apply not_true_is_false. intros F%Hc. congruence.
Qed.
(** The destination serves the host. *)
Lemma acts_ok U (a : adapter) d : acts (with_queues (shared a) (shown_by a)) d -> loop_ok U a -> loop_ok U (MkLoopback (source a) d (at_queues d) (waiting a)).
Proof.
  intros [A1 A2 A3 A4] [base [H1 H2 H3 H4]]. exists base. cbn in A1, A2, A3. split; cbn [source shown_by shared].
  - apply (port_kept U base (shared a)); [done| |done]. intros Ho. by apply A3.
  - congruence.
  - exact (A4 H3).
  - rewrite A2. intros Ho. destruct (A3 Ho) as [-> _]. by apply H4.
Qed.
Lemma on_destination_ok U f (a : adapter) : (forall d, acts d (f d)) -> loop_ok U a -> loop_ok U (on_destination f a).
Proof. intros Hf. apply acts_ok, Hf. Qed.
(** What the destination shows after it heard all there was. *)
Definition settled (a : adapter) : Prop :=
  failed (source a) = destination_failed (shown_by a) /\
  sessions (shown_by a) = if failed (source a) then ∅ else mappings (source a).
Lemma waiting_ok U (a : adapter) l : loop_ok U a -> loop_ok U (MkLoopback (source a) (shown_by a) (shared a) l).
Proof. intros [base []]. by exists base. Qed.
Lemma poll_closed d : destination_failed d = false -> queues_closed (at_queues d) = true ->
  poll_destination d = fail_destination (set_shown (shown d) d).
Proof. intros Hf Hc. unfold poll_destination. rewrite Hf. cbn. unfold loopback_poll. by rewrite Hc. Qed.
Lemma poll_open d : destination_failed d = false -> queues_closed (at_queues d) = false ->
  exists next q, queues_closed q = false /\ source_to_destination q = [] /\
  poll_destination d = let d1 := apply_records (relay_records (destination (shown d)) (next_buffer_use (shown d)) (source_to_destination (at_queues d))).2
      (set_shown (MkLoopbackDestination q (destination (shown d)) next) d) in pump_gamepad (pumping d1) d1.
Proof.
  intros Hf Hc. unfold poll_destination. rewrite Hf. cbn. unfold loopback_poll. rewrite Hc. cbn zeta.
  destruct (relay_records _ _ _) as [next l]. by eexists _, (MkQueues false [] _).
Qed.
Lemma settled_closed (a : adapter) d : queues_closed (shared a) = true -> sound (with_queues (shared a) (shown_by a)) ->
  d = poll_destination (with_queues (shared a) (shown_by a)) ->
  acts (with_queues (shared a) (shown_by a)) d /\ destination_failed d = true /\ sessions d = ∅.
Proof.
  intros Hc Hs ->. assert (Hd : queues_closed (at_queues (with_queues (shared a) (shown_by a))) = true) by exact Hc.
  revert Hs Hd. generalize (with_queues (shared a) (shown_by a)). intros d0 Hs Hd.
  assert (Ha : acts d0 (poll_destination d0) /\ destination_failed (poll_destination d0) = true).
  { destruct (destination_failed d0) eqn:Hf; [unfold poll_destination; by rewrite Hf|]. rewrite (poll_closed d0 Hf Hd). split; [|apply fail_destination_failed].
    etrans; [|by apply fail_destination_acts]. by apply same_acts. }
  destruct Ha as [Ha Hf]. split; [done|]. split; [done|]. by apply (acts_sound _ _ Ha Hs).
Qed.
Lemma poll_now U (a : adapter) d base m : loop_kept U base a -> queues_closed (shared a) = false -> protocol_run U (submitted (source a)) = Some m ->
  d = poll_destination (with_queues (shared a) (shown_by a)) -> shows_now U m d.
Proof.
  intros [H1 H2 H3 H4] Ho Hm ->. set (d0 := with_queues _ _) in *. assert (Hal : destination_failed d0 = false).
  { apply not_true_is_false. intros F%H3. destruct F as [F _]. change (queues (shown d0)) with (shared a) in F. congruence. }
  destruct (queued_rest _ _ (kept_queued _ _ _ H1) Ho) as (rest & E1 & E2). cbn in E1, E2. specialize (H4 Ho).
  rewrite E1, (protocol_run_app U base rest _ H4) in Hm. destruct (poll_open d0 Hal Ho) as (next & q & Q1 & Q2 & ->).
  eapply acts_now; [apply pump_gamepad_acts|]. change (source_to_destination (at_queues d0)) with (source_to_destination (shared a)). rewrite E2.
  eapply deliver_now; [exact Hm|]. split; try done. intros sf. by apply (protocol_sources U base).
Qed.
Lemma gather_ok U (a : adapter) : loop_ok U a -> loop_ok U (gather a) /\ settled (gather a).
Proof.
  intros [base Hk]. destruct (Hk) as [H1 H2 H3 H4]. unfold gather, drain_events. set (d := poll_destination _).
  set (d' := set_events [] d). assert (Hd' : acts d d') by by apply same_acts. cbn [fst snd]. pose proof (queued_closed _ _ (kept_queued _ _ _ H1)) as E0.
  cbn in E0. destruct (queues_closed (shared a)) eqn:Hc.
  - destruct (settled_closed a d Hc H3 eq_refl) as (Ha & Hf & He). split.
    + eapply (waiting_ok U (MkLoopback (source a) d' (at_queues d') (waiting a))). apply acts_ok; [by etrans|]. by exists base.
    + split; cbn; [congruence|]. by rewrite E0.
  - destruct (kept_speaks _ _ _ H1) as (m & Hr & Hs & He). cbn in Hr, He. rewrite (kept_source _ _ _ H1 : upstream_source (source a) = U) in Hr.
    pose proof (poll_now U a d base m Hk Hc Hr eq_refl) as Hn. apply (acts_now _ _ _ _ Hd') in Hn. clearbody d'. clear Hd'. destruct Hn as [N1 N2 N3 N4 N5 N6]. split.
    + exists (submitted (source a)). split; cbn [source shown_by shared].
      * split; [split; cbn; [congruence|]| |apply H1].
        -- intros _. exists []. by rewrite app_nil_r.
        -- by apply (speaks_same (set_port (shared a) (source a))), H1.
      * done.
      * intros F. change (destination_failed d' = true) in F. congruence.
      * intros _. by rewrite N4.
    + split; cbn; [congruence|]. rewrite E0, N4. symmetry. by apply He.
Qed.

(** ** Histories *)
(** The calls that hand the destination what there is, and the others. *)
Inductive delivers : adapter -> adapter -> Prop :=
  | delivers_events clock a : delivers a (loopback_drain_events clock a).1
  | delivers_event e a : delivers a (loopback_observe_event e a)
  | delivers_cursor sf cursor a : delivers a (loopback_observe_cursor_update sf cursor a)
  | delivers_command c a : delivers a (loopback_apply_command c a).
Inductive loop_step : adapter -> adapter -> Prop :=
  | loop_delivers a b : delivers a b -> loop_step a b
  | loop_request clock r a : loop_step a (loopback_apply_request clock r a)
  | loop_input clock i a : loop_step a (loopback_apply_input clock i a)
  | loop_focus_lost clock time a : loop_step a (loopback_host_focus_lost clock time a)
  | loop_effects a : loop_step a (loopback_drain_effects a).1
  | loop_claims a : loop_step a (loopback_drain_presentation_claims a).1
  | loop_cursors a : loop_step a (loopback_drain_cursor_updates a).1
  | loop_retired b a : loop_step a (loopback_observe_retired_buffer b a)
  | loop_others authority w a : loop_step a (loopback_others authority w a).
Definition loop_history (a : adapter) : Prop := exists authority w upstream id, rtc loop_step (registration authority w upstream id) a.
Lemma registration_ok authority w U id : loop_ok U (registration authority w U id : adapter).
Proof.
  exists []. split; try done. split; [split; [done|]; by exists []| |done]. by exists ∅.
Qed.
Lemma same_safe U (f : source_relay -> source_relay) :
  (forall s, port (f s) = port s /\ failed (f s) = failed s /\ submitted (f s) = submitted s /\ upstream_source (f s) = upstream_source s /\ mappings (f s) = mappings s) ->
  source_safe U f.
Proof.
  intros Hf base s Hs. destruct (Hf s) as (E1 & E2 & E3 & E4 & E5). split; [|congruence]. by apply (same_kept U base s); rewrite ?E1.
Qed.
Lemma safe_compose U f g : source_safe U f -> source_safe U g -> source_safe U (fun s => g (f s)).
Proof. intros Hf Hg base s Hs. destruct (Hf base s Hs) as [H1 L1]. destruct (Hg base _ H1) as [H2 L2]. split; [done|auto]. Qed.
Lemma check_safe U : source_safe U (fun s => (check_access s).1).
Proof. apply moves_safe. intros s. apply moves_calm, check_access_calmly. Qed.
Lemma pump_ok U clock (a : adapter) : loop_ok U a -> loop_ok U (pump clock a).
Proof. apply on_source_ok, moves_safe, poll_moves. Qed.
Lemma delivers_ok U a b : delivers a b -> loop_ok U a -> loop_ok U b /\ settled b.
Proof.
  intros [clock c|e c|sf cu c|x c] H; [|apply gather_ok, on_source_ok; [apply moves_safe|done]..].
  - unfold loopback_drain_events. cbn [fst]. destruct (gather_ok U _ (pump_ok U clock c H)) as [H1 H2]. split; [|exact H2].
    by apply (waiting_ok U (gather (pump clock c))).
  - apply observe_moves.
  - apply observe_cursor_update_moves.
  - apply apply_command_moves.
Qed.
Lemma loop_step_ok U a b : loop_step a b -> loop_ok U a -> loop_ok U b.
Proof.
  intros [c d Hd|clock r c|clock i c|clock n c|c|c|c|r c|au w c] H.
  - by eapply delivers_ok.
  - apply pump_ok, on_destination_ok; [apply apply_request_acts|done].
  - apply pump_ok, on_destination_ok; [apply apply_input_acts|done].
  - apply pump_ok, on_destination_ok; [apply host_focus_lost_acts|done].
  - apply on_source_ok; [|done]. apply (safe_compose U (fun s => (check_access s).1) (fun s => set_port (port_effects_drained (port s)) (set_effects [] s))); [apply check_safe|by apply same_safe].
  - apply on_source_ok; [|done]. apply (safe_compose U (fun s => (check_access s).1) (set_presentation_updates [])); [apply check_safe|by apply same_safe].
  - apply on_destination_ok; [|done]. intros d. by apply same_acts.
  - apply on_source_ok; [|done]. apply moves_safe, observe_retired_buffer_moves.
  - apply on_source_ok; [|done]. by apply same_safe.
Qed.
Lemma loop_history_ok a : loop_history a -> exists U, loop_ok U a.
Proof.
  intros (au & w & U & id & H). exists U. pose proof (registration_ok au w U id) as H0. revert H0. generalize (registration au w U id : adapter) H.
  intros x Hx. induction Hx; eauto using loop_step_ok.
Qed.

(** C2 (loopback-agrees). In one process the destination shows exactly what the source
    maps. In every history of the loopback adapter, however the host, the policy, the machine
    and the administrator interleave, the destination's relay never fails before the
    source's; and after every call that hands it what there is, the sessions it shows are
    the source's mappings, each under its session, or both relays have failed and it shows
    nothing. *)
Theorem loopback_agrees (a b : adapter) (H : loop_history a) (Hd : delivers a b) :
  (failed (source a) = false -> destination_failed (shown_by a) = false) /\
  failed (source b) = destination_failed (shown_by b) /\
  sessions (shown_by b) = if failed (source b) then ∅ else mappings (source b).
Proof.
  destruct (loop_history_ok a H) as [U Ha]. split; [|by eapply delivers_ok]. destruct Ha as [base [H1 _ H3 _]].
  intros Hf. apply not_true_is_false. intros F. destruct (H3 F) as [Hc _]. pose proof (queued_closed _ _ (kept_queued _ _ _ H1)) as E. cbn in E, Hc. congruence.
Qed.
End LoopbackAgrees.

(** ** A window across *)
Abbreviation sample_adapter := (LoopbackClientAdapter (C := unit) (W := Host) (D := nat)).
Definition sample_loop : sample_adapter :=
  loopback_observe_event (MkClientSurfaceEvent sample_window (Role sample_role))
    (registration authority_new sample_host sample_source (MkClientSourceId 9)).
Definition sample_across : sample_adapter := loopback_apply_command (MapSource (MkHoistSessionId 5) sample_window) sample_loop.
Lemma loopback_agrees_witness : loop_history sample_loop /\ delivers sample_loop sample_across /\
  (failed (source sample_loop) = false -> destination_failed (shown_by sample_loop) = false) /\
  failed (source sample_across) = destination_failed (shown_by sample_across) /\
  sessions (shown_by sample_across) = if failed (source sample_across) then ∅ else mappings (source sample_across).
Proof.
  assert (H : loop_history sample_loop).
  { exists authority_new, sample_host, sample_source, (MkClientSourceId 9). apply rtc_once, loop_delivers, delivers_event. }
  assert (Hd : delivers sample_loop sample_across) by apply delivers_command.
  split; [exact H|]. split; [exact Hd|]. apply (loopback_agrees sample_loop sample_across H Hd).
Defined.
(** The window is there, as one of the destination's, and its key presses come back. *)
Example sample_shown : sessions (shown_by sample_across) !! sample_window = Some (MkHoistSessionId 5) /\
  (loopback_drain_events (fun _ => 0) sample_across).2 = [MkClientSurfaceEvent (relocated_surface (MkClientSourceId 9) sample_window) (Role sample_role)].
Proof. by vm_compute. Qed.
Example sample_pressed :
  let here := KeyboardTarget (relocated_surface (MkClientSourceId 9) sample_window) in
  let a := loopback_apply_input (fun _ => 1) (MkInputEvent here None (Keyboard 30 KeyPressed) 7) sample_across in
  (loopback_drain_effects a).2 =
    [InputConnected sample_source; InputEffect (MkInputEvent (KeyboardTarget sample_window) None (Keyboard 30 KeyPressed) 7)].
Proof. by vm_compute. Qed.
