(* ===== verification/SourcePort.v ===== *)
(** * The source's port ([weld-hoist-encoded/src/state.rs], [EncodedSourcePort])

    The port puts the encoded source on a transport. The relay's commands become events of
    the source or records of their own; what the source published goes through the two queues
    of Output, and sound straight to the transport. The transport is an interface; its peer
    negotiated independent streams, so composed views are left out, with observations, reports
    and the optional dump. A port's error type keeps the message of the error it is made from,
    so [protocol_error] is not written. *)

From S2P Require Import Prelude.
From S2P Require Import Effects.
From S2P Require Import OrdMap.
From S2P Require Import Ids.
From S2P Require Import Surface.
From S2P Require Import Input.
From S2P Require Import Commit.
From S2P Require Import SourceRelay.
From S2P Require Import DestinationRelay.
From S2P Require Import Bitrate.
From S2P Require Import Activity.
From S2P Require Import Allocation.
From S2P Require Import Budget.
From S2P Require Import Scheduling.
From S2P Require Import Pacing.
From S2P Require Import Framing.
From S2P Require Import PendingEvents.
From S2P Require Import Output.
From S2P Require Import Packets.
From S2P Require Import Audio.
From S2P Require Import SourceState.

(** [EncodedSourceTransport]: sending is what Output relies on; reading takes nothing that
    was sent back. *)
Class EncodedSourceLink (T P : Type) := {
  sends :: EncodedSourceTransport T P;
  audio_wake : T -> bool;
  media_headroom : T -> bool;
  drain_messages : T -> T * outcome (list DestinationEnvelope);
  close : T -> T;
  drain_keeps : forall t, taken (drain_messages t).1 = taken t;
}.

Inductive SurfaceStreamMode := Independent | Composited.
(** [EncodeBackend::configure_stream_mode] *)
Class StreamModes (K : Type) := configure_stream_mode : SurfaceStreamMode -> K -> K * outcome unit.
#[export] Existing Instances Source.Key_eq_dec Source.Key_countable.

Section SourcePort.
Context {K In C T Sys Cap Tg : Type}.
Abbreviation control := (HoistSessionId * SourceMessage (ClientCursorUpdate C) AudioPacket)%type.
Abbreviation packet := (SourceTransportPacket control (MediaEnvelope EncodedAccessUnit)).
Context {codec : EncodeBackend K In} {modes : StreamModes K} {wire : EncodedSourceLink T packet}.
Context {pending_visit : HashOrder ClientSurfaceId (PendingClientEvents HoistSessionId ClientBufferLease)}.
Context {stream_visit : HashOrder (ClientSurfaceId * SurfaceLayerId) SourceStream}.
Context {sound : CaptureSystem Sys Cap Tg} {capture_visit : HashOrder Source.Key Cap}.
Abbreviation source := (EncodedSourceState K In (ClientCursorUpdate C) AudioPacket).
Abbreviation command := (SourcePortCommand C).

(** [clock n] is what the port's n-th look at the clock shows. [published] is every packet
    the queues accepted, kept for the theorems. *)
Record EncodedSourcePort := MkSourcePort {
  audio : Source.Source (C := Cap);
  audio_host : Sys;
  transport : T;
  state : option source;
  port_output : SourceOutput control (MediaEnvelope EncodedAccessUnit);
  clock : nat -> instant;
  reads : nat;
  published : list packet;
}.
Definition set_audio (x : Source.Source) (h : Sys) (p : EncodedSourcePort) : EncodedSourcePort :=
  MkSourcePort x h (transport p) (state p) (port_output p) (clock p) (reads p) (published p).
Definition set_transport (x : T) (p : EncodedSourcePort) : EncodedSourcePort :=
  MkSourcePort (audio p) (audio_host p) x (state p) (port_output p) (clock p) (reads p) (published p).
Definition set_state (x : option source) (p : EncodedSourcePort) : EncodedSourcePort :=
  MkSourcePort (audio p) (audio_host p) (transport p) x (port_output p) (clock p) (reads p) (published p).
Definition set_port_output (x : SourceOutput control (MediaEnvelope EncodedAccessUnit)) (p : EncodedSourcePort) : EncodedSourcePort :=
  MkSourcePort (audio p) (audio_host p) (transport p) (state p) x (clock p) (reads p) (published p).
Definition set_reads (x : nat) (p : EncodedSourcePort) : EncodedSourcePort :=
  MkSourcePort (audio p) (audio_host p) (transport p) (state p) (port_output p) (clock p) x (published p).
Definition set_published (x : list packet) (p : EncodedSourcePort) : EncodedSourcePort :=
  MkSourcePort (audio p) (audio_host p) (transport p) (state p) (port_output p) (clock p) (reads p) x.
Abbreviation M := (Effects.M EncodedSourcePort).

(** ** The port's parts as computations *)
(** [Instant::now] *)
Definition now : M instant := fun p => (set_reads (S (reads p)) p, Ret (clock p (reads p))).
Definition disconnected : error := ErrMsg "encoded source port is disconnected".
(** A method of the source; without a source it is an error. *)
Definition on_state {A} (m : Effects.M source A) : M A := fun p =>
  match state p with
  | None => (p, Fail disconnected)
  | Some s => let '(s, o) := m s in (set_state (Some s) p, o)
  end.
(** A method of the source, if there is one. *)
Definition if_state (m : Effects.M source unit) : M unit := fun p =>
  match state p with None => (p, Ret tt) | Some _ => on_state m p end.
Definition on_transport {A} (f : T -> T * outcome A) : M A := fun p => let '(t, o) := f (transport p) in (set_transport t p, o).
Definition push (x : packet) : M unit := fun p =>
  match Output.push x (port_output p) with
  | (q, Ret _) => (set_published (published p ++ [x]) (set_port_output q p), Ret tt)
  | (q, o) => (set_port_output q p, o)
  end.
Definition flush_output : M unit := fun p =>
  let '(q, t, o) := Output.flush (port_output p) (transport p) in (set_port_output q (set_transport t p), o).
Definition blocked (p : EncodedSourcePort) : bool := negb (is_empty (port_output p)) || negb (media_headroom (transport p)).
(** [refresh_admission] *)
Definition refresh_admission : M unit := modify (fun p => set_state (set_transport_blocked (blocked p) <$> state p) p).
(** [flush] *)
Definition flush : M unit :=
  let! packets := on_state take_output in
  let! _ := for_each push packets in
  let! _ := flush_output in
  refresh_admission.
(** [EncodedSourceState::schedule]; scheduling always ends (SourceState). *)
Definition schedule (time : instant) : Effects.M source unit := fun s => default (s, Panic) (schedule_at time s).
(** One turn of [progress]: it goes on while the source has something to say. *)
Definition progress_turn (_ : unit) : M (option unit) :=
  let! _ := flush in
  let! time := now in
  let! _ := on_state (schedule time) in
  let! silent := on_state (gets (fun s => bool_decide (output s = []))) in
  pure (if (silent : bool) then None else Some tt).
(** [progress]: a turn that is not the last took an event out of the source's queues. *)
Definition backlog (p : EncodedSourcePort) : nat := from_option (fun s => measure (pending s)) 0%nat (state p).
Definition progress : M unit := fun p => iterate (S (backlog p)) progress_turn tt p.
Definition observe_audio (session : HoistSessionId) (sf : ClientSurfaceId) (m : ClientSurfaceMetadata) : M unit :=
  modify (fun p => let '(x, h) := Source.observe session sf m (audio p) (audio_host p) in set_audio x h p).
Definition remove_audio (sf : ClientSurfaceId) : M unit := modify (fun p => set_audio (Source.remove sf (audio p)) (audio_host p) p).
Definition drain_audio : M (list control) := fun p =>
  let '(x, h, out) := Source.drain (audio p) (audio_host p) in (set_audio x h p, Ret out).

(** ** Setting up *)
(** [EncodedSourcePort::new], of a source whose backend has the registry [rates'] in [pool']. *)
Definition EncodedSourcePort_new (rates' : option Z) (pool' : Coordinator) (limit fallback : option PresentationRate)
    (clock' : nat -> instant) (h : Sys) (t : T) (k : K) : EncodedSourcePort :=
  MkSourcePort (Source.new (clock' O) (audio_wake t)) h t (Some (EncodedSourceState_new rates' pool' limit fallback k (clock' O)))
    SourceOutput_default clock' 1 [].
Definition set_budget (x : option Z) (s : source) : source :=
  MkSource x (rates s) (pool s) (preferences_dirty s) (admission_deferred s) (activity s) (scheduler s)
    (policy s) (pacing s) (backend s) (calls s) (output s) (transport_blocked s) (pending s) (pending_order s)
    (resizing s) (streams s) (in_flight s) (next_stream s) (next_token s) (started_at s) (last_timestamp_micros s).
Definition set_policy (x : SchedulingPolicy) (s : source) : source :=
  MkSource (budget s) (rates s) (pool s) (preferences_dirty s) (admission_deferred s) (activity s) (scheduler s)
    x (pacing s) (backend s) (calls s) (output s) (transport_blocked s) (pending s) (pending_order s)
    (resizing s) (streams s) (in_flight s) (next_stream s) (next_token s) (started_at s) (last_timestamp_micros s).
(** [set_bitrate_budget] *)
Definition attach_budget (time : instant) : Effects.M source unit :=
  let! attached := gets budget in
  let! _ := lift (ensure (bool_decide (attached = None)) "encoded source already has a bitrate budget") in
  let! handle := gets rates in
  let! handle := lift (opt_context handle "encoder does not support bitrate control") in
  let! id := (fun s => let '(c, r) := attach handle time (pool s) in (set_pool c s, r)) : Effects.M source Z in
  modify (set_budget (Some id)).
Definition set_bitrate_budget : M unit := let! time := now in on_state (attach_budget time).
(** [with_scheduling_policy] *)
Definition with_scheduling_policy (x : SchedulingPolicy) : M unit := if_state (modify (set_policy x)).
(** [disconnect] *)
Definition disconnect (p : EncodedSourcePort) : EncodedSourcePort :=
  MkSourcePort Source.Source_default (audio_host p) (close (transport p)) None SourceOutput_default (clock p) (reads p) (published p).
(** [configure], without a dump; [options] says whether there is a budget to attach. What it
    could not set up is disconnected. *)
Definition setup (mode : SurfaceStreamMode) (budgeted : bool) : M unit :=
  let! _ := on_state (fun s => let '(k, o) := configure_stream_mode mode (backend s) in (set_backend k s, o)) in
  if budgeted then set_bitrate_budget else done.
Definition configure (mode : SurfaceStreamMode) (budgeted : bool) : M unit := fun p =>
  match setup mode budgeted p with
  | (p, Fail e) => (disconnect p, Fail e)
  | r => r
  end.

(** ** [HoistSourcePort] *)
(** [next_deadline] *)
Definition next_deadline (p : EncodedSourcePort) : option instant :=
  if blocked p then None else state p ≫= SourceState.next_deadline.
(** [is_idle] *)
Definition is_idle (p : EncodedSourcePort) : bool :=
  is_empty (port_output p)
  && is_none_or (state p) (fun s => bool_decide (in_flight s = None) && bool_decide (pending s = ∅) && bool_decide (output s = [])).
(** [set_presentation] *)
Definition set_presentation (sf : ClientSurfaceId) (claim : ClientPresentationClaim) : M ClientPresentationClaim :=
  on_state (fun s => let '(x, accepted) := Pacing.set sf claim (pacing s) in (set_pacing x s, Ret accepted)).
(** [submit] *)
Definition say (session : HoistSessionId) (m : SourceMessage (ClientCursorUpdate C) AudioPacket) : M unit := push (Control (session, m)).
Definition audio_follows (session : HoistSessionId) (e : Event) : M unit :=
  match event_kind e with
  | Metadata m => observe_audio session (surface e) m
  | Destroyed => remove_audio (surface e)
  | Commit c => if Commit.mapped c then done else remove_audio (surface e)
  | _ => done
  end.
Definition submit (c : command) : M unit :=
  let! _ := refresh_admission in
  match c with
  | FocusClearedCommand =>
      let! time := now in
      if_state (let! _ := modify (fun s => set_activity (Activity.clear_focus (activity s)) s) in refresh_budget_attention time)
  | GamepadCommand status => let! _ := say GAMEPAD_SESSION (GamepadMessage status) in progress
  | MapCommand session sf =>
      let! _ := if_state (modify (fun s => set_activity (Activity.register session sf (activity s)) s)) in
      let! _ := say session (MappedMessage sf) in progress
  | SurfaceCommand session e =>
      let! _ := audio_follows session e in
      let! time := now in
      let! _ := on_state (enqueue session e time) in progress
  | WithdrawCommand session sf =>
      let! _ := remove_audio sf in
      let! _ := say session (Withdraw sf) in
      let! time := now in
      let! _ := on_state (cancel_surface sf time) in progress
  | RetireUpstreamBuffer _ => done
  | CursorCommand session sf cursor sequence => let! _ := say session (CursorMessage (MkCursorUpdate sf cursor) sequence) in progress
  end.
(** [poll]. Sound the transport does not take is dropped. *)
Definition send_audio (x : control) : M unit := let! _ := on_transport (try_send (Control x)) in done.
Definition poll : M (list DestinationEnvelope) :=
  let! packets := drain_audio in
  let! _ := for_each send_audio packets in
  let! _ := refresh_admission in
  let! time := now in
  let! _ := on_state (let! _ := modify (set_admission_deferred true) in drain time) in
  let! _ := flush in
  on_transport drain_messages.
(** [accept_destination] *)
Definition prefer (session : HoistSessionId) (sf : ClientSurfaceId) (preference : option SurfaceBitratePreference) : Effects.M source unit :=
  modify (fun s => let '(a, changed) := Activity.set_bitrate_preference session sf preference (activity s) in
                   set_preferences_dirty (preferences_dirty s || changed) (set_activity a s)).
Definition accept_destination (e : DestinationEnvelope) : M unit :=
  let! time := now in
  let! _ := if_state (modify (fun s => set_activity (Activity.observe (session e) (message e) time (policy s) (activity s)) s)) in
  let! _ := match message e with
            | Request (SurfaceRequest r) =>
                match request_kind r with
                | SetBitratePreference preference => if_state (prefer (session e) (request_surface r) preference)
                | Configure _ _ resizing _ => on_state (mark_resizing (request_surface r) resizing)
                | _ => done
                end
            | BufferReleased _ => lift (Fail (ErrMsg "encoded peer sent a native buffer-release record"))
            | _ => done
            end in
  flush.
(** [progress_after_destination] *)
Definition progress_after_destination : M unit :=
  let! time := now in
  let! _ := if_state (
    let! dirty := gets preferences_dirty in
    let! _ := (if (dirty : bool) then update_budget None time else refresh_budget_attention time) in
    modify (set_admission_deferred false)) in
  progress.

(** ** The port's own steps *)
Lemma on_state_run {A} (m : Effects.M source A) p p' a : on_state m p = (p', Ret a) ->
  exists s s', state p = Some s /\ m s = (s', Ret a) /\ p' = set_state (Some s') p.
Proof. unfold on_state. destruct (state p) as [s|]; [|done]. destruct (m s) as [s' o] eqn:Hm. intros [= <- ->]. by eexists _, _. Qed.
Lemma push_run x p p' : push x p = (p', Ret tt) -> exists q, Output.push x (port_output p) = (q, Ret tt) /\
  p' = set_published (published p ++ [x]) (set_port_output q p).
Proof. unfold push. destruct (Output.push _ _) as [q [[]| |]]; [|done..]. intros [= <-]. by exists q. Qed.
(** Nothing but the queues and what they accepted changes. *)
Lemma pushes_run l p p' : for_each push l p = (p', Ret tt) -> exists q, p' = set_published (published p ++ l) (set_port_output q p).
Proof.
  revert p. induction l as [|x l IH]; intros p Hp.
  - injection Hp as <-. exists (port_output p). rewrite app_nil_r. by destruct p.
  - cbn in Hp. apply run_bind in Hp as (p1 & [] & (q & _ & ->)%push_run & (q' & ->)%IH). exists q'. cbn. by rewrite <- app_assoc.
Qed.
Lemma flush_run p p' : flush p = (p', Ret tt) -> exists s, state p = Some s /\
  state p' = Some (set_transport_blocked (blocked p') (set_output [] s)) /\ published p' = published p ++ output s.
Proof.
  unfold flush. intros (p1 & l & (s & s' & Hs & [= <- <-] & ->)%on_state_run & Hp)%run_bind.
  apply run_bind in Hp as (p2 & [] & (q & ->)%pushes_run & Hp). apply run_bind in Hp as (p3 & [] & H3 & Hp).
  unfold flush_output in H3. destruct (Output.flush _ _) as [[q' t] o] eqn:Hf. injection H3 as <- ->. injection Hp as <-. by exists s.
Qed.

(** ** Progress ends *)
Lemma schedule_loop_backlog fuel time (s s' : source) : schedule_loop fuel time s = Some (s', Ret tt) ->
  (measure (pending s') < measure (pending s))%nat \/ pending s' = pending s /\ output s' = output s.
Proof.
  revert s. induction fuel as [|fuel IH]; intros s Hl; [done|]. cbn [schedule_loop] in Hl.
  destruct (Scheduling.select _ _ _ _ _ _) as [sched chosen]. destruct chosen as [sel|]; [|injection Hl as <-; by right].
  cbn [pending set_scheduler] in Hl. destruct (pending s !! sel_surface sel) as [[|p rest]|] eqn:Hp; [| |injection Hl as <-; by right].
  - apply IH in Hl as [Hl|[Hl _]]; left; cbn in Hl; pose proof (map_total_delete (fun q => S (length q)) (pending s) (sel_surface sel)) as Hd;
      rewrite Hp in Hd; cbn in Hd; [unfold measure in *; lia|rewrite Hl; unfold measure; lia].
  - pose proof (measure_pop (set_scheduler sched s) _ _ _ Hp) as Hm. cbn [pending set_scheduler] in Hm.
    destruct (submit_or_send_at _ _ _ _) as [s2 [[]| |]] eqn:Hrun; [|done..].
    apply (run_always same_queues) in Hrun as [Hq _ _]; [|apply submit_or_send_queues].
    assert (Hl' : (measure (pending s') <= measure (pending s2))%nat).
    { case_bool_decide; [by injection Hl as <-|]. apply IH in Hl as [Hl|[-> _]]; lia. }
    left. rewrite Hq in Hl'. lia.
Qed.
Lemma schedule_backlog time (s s' : source) : schedule time s = (s', Ret tt) ->
  (measure (pending s') < measure (pending s))%nat \/ pending s' = pending s /\ output s' = output s.
Proof.
  unfold schedule. destruct (schedule_at time s) as [r|] eqn:Hr; [|done]. cbn. intros ->. unfold schedule_at in Hr.
  destruct (admission_closed s); [injection Hr as <-; by right|by eapply schedule_loop_backlog].
Qed.
(** One turn: a flush, then a schedule of what the source says next. *)
Lemma progress_turn_run p p' next : progress_turn tt p = (p', Ret next) -> exists p1 s s', flush p = (p1, Ret tt) /\
  state p1 = Some s /\ schedule (clock p1 (reads p1)) s = (s', Ret tt) /\ p' = set_state (Some s') (set_reads (S (reads p1)) p1) /\
  next = if bool_decide (output s' = []) then None else Some tt.
Proof.
  unfold progress_turn. intros (p1 & [] & H1 & Hp)%run_bind. apply run_bind in Hp as (p2 & time & [= <- <-] & Hp).
  apply run_bind in Hp as (p3 & [] & (s & s' & Hs & Hrun & ->)%on_state_run & Hp).
  apply run_bind in Hp as (p4 & b & (s1 & s2 & Hs1 & [= <- <-] & ->)%on_state_run & [= <- <-]). injection Hs1 as <-. by exists p1, s, s'.
Qed.
Lemma progress_turn_shrinks : shrinks (fun _ => backlog) progress_turn.
Proof.
  intros [] p p' [] (p1 & s & s' & (s0 & H0 & H1 & _)%flush_run & Hs & Hrun & -> & Hn)%progress_turn_run.
  rewrite H1 in Hs. injection Hs as <-. unfold backlog. rewrite H0. cbn. case_bool_decide as Ho; [done|].
  apply schedule_backlog in Hrun as [?|[_ Hrun]]; [done|by rewrite Hrun in Ho].
Qed.
(** A source that could admit work has none that it may admit now. *)
Definition last_look (p : EncodedSourcePort) : instant := clock p (pred (reads p)).
Definition rests (p : EncodedSourcePort) : Prop := exists s, state p = Some s /\ output s = [] /\
  (admission_closed s = true \/ settled (last_look p) s).
Lemma schedule_rests time (s s' : source) : schedule time s = (s', Ret tt) -> output s' = [] ->
  admission_closed s' = true \/ settled time s'.
Proof.
  unfold schedule. destruct (schedule_settles time s) as (s1 & r & Hr & Hset). rewrite Hr. cbn. intros [= -> ->] Ho.
  destruct (admission_closed s) eqn:Hc.
  - unfold schedule_at in Hr. rewrite Hc in Hr. injection Hr as <-. by left.
  - destruct (in_flight s') eqn:Hi; [left; unfold admission_closed; by rewrite Hi, orb_true_r|right; by apply Hset].
Qed.
Lemma progress_unfold (p : EncodedSourcePort) :
  progress p = (let! next := progress_turn tt in match next with Some _ => progress | None => done end) p.
Proof.
  unfold progress at 1. rewrite (iterate_unfold (fun _ => backlog)) by (apply progress_turn_shrinks || lia).
  apply bind_ext. intros p' [[]|] Hp; [|done]. apply progress_turn_shrinks in Hp. unfold progress. symmetry.
  apply (iterate_enough (fun _ => backlog)); [apply progress_turn_shrinks|lia|lia].
Qed.
Lemma progress_ends p p' : progress p = (p', Ret tt) -> rests p'.
Proof.
  intros Hp. refine (iterate_ends (fun _ => backlog) progress_turn (fun _ _ => True) rests _ tt _ _ p p' tt _ Hp); [apply progress_turn_shrinks| |].
  - intros [] q q' next _ (q1 & s & s' & _ & Hs & Hrun & -> & ->)%progress_turn_run. case_bool_decide as Ho; [|done].
    exists s'. split; [done|]. split; [done|]. by eapply schedule_rests.
  - split; [done|lia].
Qed.
End SourcePort.
