(* ===== verification/SourceWire.v ===== *)
(** * What a source puts on the wire

    Over a port's life the transport takes, channel by channel and in order, what the port's
    queues accepted: the records of the relay's commands, each once and in their order, and
    between them what the source published. So the peer can decode what it receives. *)

From S2P Require Import Prelude.
From S2P Require Import Effects.
From S2P Require Import OrdMap.
From S2P Require Import Ids.
From S2P Require Import Surface.
From S2P Require Import Input.
From S2P Require Import Commit.
From S2P Require Import SourceRelay.
From S2P Require Import DestinationRelay.
From S2P Require Import Bitrate.
From S2P Require Import Activity.
From S2P Require Import Allocation.
From S2P Require Import Budget.
From S2P Require Import Scheduling.
From S2P Require Import Pacing.
From S2P Require Import Framing.
From S2P Require Import PendingEvents.
From S2P Require Import Output.
From S2P Require Import Packets.
From S2P Require Import Audio.
From S2P Require Import SourceState.
From S2P Require Import SourceFrames.
From S2P Require Import SourcePort.

Section SourceWire.
Context {K In C T Sys Cap Tg : Type}.
Abbreviation control := (HoistSessionId * SourceMessage (ClientCursorUpdate C) AudioPacket)%type.
Abbreviation packet := (SourceTransportPacket control (MediaEnvelope EncodedAccessUnit)).
Context {codec : EncodeBackend K In} {wire : EncodedSourceLink T packet}.
Context {pending_visit : HashOrder ClientSurfaceId (PendingClientEvents HoistSessionId ClientBufferLease)}.
Context {stream_visit : HashOrder (ClientSurfaceId * SurfaceLayerId) SourceStream}.
Context {capture_system : CaptureSystem Sys Cap Tg} {capture_visit : HashOrder Source.Key Cap}.
Abbreviation source := (EncodedSourceState K In (ClientCursorUpdate C) AudioPacket).
Abbreviation command := (SourcePortCommand C).
Abbreviation port := (EncodedSourcePort (K := K) (In := In) (C := C) (T := T) (Sys := Sys) (Cap := Cap)).
Implicit Types (p : port) (s : source) (l : list command).

#[local] Arguments channel : simpl never.

(** ** Kinds of packets *)
Definition is_audio (x : packet) : bool := match x with Control (_, AudioMessage _ _) => true | _ => false end.
Definition is_own (x : packet) : bool :=
  match x with
  | Control (_, MappedMessage _) | Control (_, Withdraw _) | Control (_, CursorMessage _ _) | Control (_, GamepadMessage _) => true
  | _ => false
  end.
Definition is_published (x : packet) : bool := match x with Media _ | Control (_, SurfaceMessage _) => true | _ => false end.
Definition only (b : packet -> bool) (xs : list packet) : list packet := filter (fun x => b x = true) xs.
Definition told (xs : list packet) : list packet := filter (fun x => is_audio x = false) xs.
(** The record a command is answered with at once. *)
Definition answer (c : command) : option packet :=
  match c with
  | GamepadCommand status => Some (Control (GAMEPAD_SESSION, GamepadMessage status))
  | MapCommand x sf => Some (Control (x, MappedMessage sf))
  | WithdrawCommand x sf => Some (Control (x, Withdraw sf))
  | CursorCommand x sf cursor sequence => Some (Control (x, CursorMessage (MkCursorUpdate sf cursor) sequence))
  | FocusClearedCommand | SurfaceCommand _ _ | RetireUpstreamBuffer _ => None
  end.
Lemma only_app b xs ys : only b (xs ++ ys) = only b xs ++ only b ys.
Proof. apply list.filter_app. Qed.
Lemma told_app xs ys : told (xs ++ ys) = told xs ++ told ys.
Proof. apply list.filter_app. Qed.
Lemma only_all b xs : Forall (fun x => b x = true) xs -> only b xs = xs.
Proof. induction 1 as [|x xs Hx _ IH]; [done|]. unfold only in *. rewrite filter_cons, decide_True by done. by rewrite IH. Qed.
Lemma only_none b xs : Forall (fun x => b x = false) xs -> only b xs = [].
Proof. induction 1 as [|x xs Hx _ IH]; [done|]. unfold only in *. rewrite filter_cons, decide_False by congruence. done. Qed.
Lemma told_all xs : Forall (fun x => is_audio x = false) xs -> told xs = xs.
Proof. induction 1 as [|x xs Hx _ IH]; [done|]. unfold told in *. rewrite filter_cons, decide_True by done. by rewrite IH. Qed.

(** ** The life of a port

    Commands, the peer's messages, turns and polls, each with success; what was submitted is
    remembered. In between the transport makes room, the encoder works, the budget is shared
    with other ports and the audio system does what it likes. *)
Inductive port_act := Submitting (c : command) | Accepting (e : DestinationEnvelope) | Progressing | Polling
  | Presenting (sf : ClientSurfaceId) (claim : ClientPresentationClaim) | Budgeting | Policing (x : SchedulingPolicy).
Definition run_act (a : port_act) : M (EncodedSourcePort (K := K) (In := In) (C := C) (T := T) (Sys := Sys) (Cap := Cap)) unit :=
  match a with
  | Submitting c => submit c
  | Accepting e => accept_destination e
  | Progressing => progress_after_destination
  | Polling => let! _ := poll in done
  | Presenting sf claim => let! _ := set_presentation sf claim in done
  | Budgeting => set_bitrate_budget
  | Policing x => with_scheduling_policy x
  end.
Definition submitted_by (a : port_act) : list command := match a with Submitting c => [c] | _ => [] end.
(** A commit names a layer once. *)
Definition well_formed (a : port_act) : Prop := match a with Submitting (SurfaceCommand _ e) => event_distinct e | _ => True end.
Record outside p p' : Prop := {
  outside_transport : taken (transport p') = taken (transport p);
  outside_state : option_Forall2 apart (state p) (state p');
  outside_output : port_output p' = port_output p;
  outside_clock : clock p' = clock p /\ reads p' = reads p;
  outside_published : SourcePort.published p' = SourcePort.published p;
}.
Inductive port_moves : list command * port -> list command * port -> Prop :=
  | moves_act l p p' a : well_formed a -> run_act a p = (p', Ret tt) -> port_moves (l, p) (l ++ submitted_by a, p')
  | moves_outside l p p' : outside p p' -> port_moves (l, p) (l, p').
(** A port that was submitted [l] and has not failed. *)
Definition port_life l p : Prop := exists rates pool limit fallback clock h t k, taken t = [] /\
  rtc port_moves ([], EncodedSourcePort_new rates pool limit fallback clock h t k) (l, p).

(** ** What holds over its life *)
Record Wire_ok p : Prop := {
  wire_queues : Output_ok (port_output p);
  wire_taken : forall which, channel which (SourcePort.published p) = channel which (told (taken (transport p))) ++ waiting_on which (port_output p);
  wire_told : Forall (fun x => is_audio x = false) (SourcePort.published p);
}.
Record Port_ok l p : Prop := {
  ok_wire : Wire_ok p;
  ok_source : exists s, state p = Some s /\ port_history (only is_published (SourcePort.published p)) s;
  ok_own : only is_own (SourcePort.published p) = omap answer l;
  ok_kinds : Forall (fun x => is_own x || is_published x = true) (SourcePort.published p);
}.
Lemma published_kinds xs : Published xs -> Forall (fun x => is_published x = true) xs.
Proof.
  induction 1 as [|xs session us e _ IH _ _]; [done|]. apply list.Forall_app. split; [done|]. apply list.Forall_app. split; [|by repeat constructor].
  apply list.Forall_fmap, list.Forall_true. done.
Qed.
Lemma kind_not_audio x : is_own x || is_published x = true -> is_audio x = false.
Proof. by destruct x as [[? []]|]. Qed.
Lemma published_not_own x : is_published x = true -> is_own x = false.
Proof. by destruct x as [[? []]|]. Qed.
Lemma answer_kind c x : answer c = Some x -> is_own x = true /\ is_published x = false /\ is_audio x = false.
Proof. destruct c; cbn; intros [= <-]; done. Qed.

Lemma history_published sent s : port_history sent s ->
  Published (sent ++ output s) /\ forall k, exists n, seqs k (media_frames (sent ++ output s)) = seqZ 0 n.
Proof. intros H%history_ok. split; [apply H|]. intros k. eapply published_prefix, H. Qed.

(** *** The queues and the wire *)
Lemma push_wire x p p' : push x p = (p', Ret tt) -> is_audio x = false -> Wire_ok p -> Wire_ok p'.
Proof.
  intros (q & Hq & ->)%push_run Hx [H1 H2 H3]. constructor; cbn.
  - pose proof (Output.push_ok x _ H1) as Hok. by rewrite Hq in Hok.
  - intros which. by rewrite channel_app, H2, (push_accepts _ _ _ which Hq), app_assoc.
  - apply list.Forall_app. by split; [|constructor].
Qed.
Lemma pushes_wire xs p p' : for_each push xs p = (p', Ret tt) -> Forall (fun x => is_audio x = false) xs -> Wire_ok p -> Wire_ok p'.
Proof.
  intros Hp Hxs. revert p Hp. induction Hxs as [|x xs Hx _ IH]; intros p Hp H; [by injection Hp as <-|].
  cbn in Hp. apply run_bind in Hp as (p1 & [] & H1 & Hp). by eapply IH, push_wire.
Qed.
Lemma waiting_told p which : Wire_ok p -> Forall (fun x => is_audio x = false) (waiting_on which (port_output p)).
Proof.
  intros [_ H2 H3]. specialize (H2 which). eapply (list.Forall_app _ (channel which (told (taken (transport p))))). rewrite <- H2.
  unfold channel. apply list.Forall_forall. intros x [_ Hx]%list_elem_of_filter. rewrite list.Forall_forall in H3. by apply H3.
Qed.
Lemma flush_output_wire p p' : flush_output p = (p', Ret tt) -> Wire_ok p ->
  Wire_ok p' /\ p' = set_port_output (port_output p') (set_transport (transport p') p).
Proof.
  intros Hp H. pose proof (waiting_told p true H) as Am. pose proof (waiting_told p false H) as Ac. destruct H as [H1 H2 H3].
  unfold flush_output in Hp. destruct (Output.flush _ _) as [[q t] [[]| |]] eqn:Hf; [|done..]. injection Hp as <-. split; [|done].
  pose proof (Output.flush_ok _ _ _ _ _ H1 Hf) as Hok. apply flush_spec in Hf as (sm & sc & Em & Ec & Ht).
  destruct H1 as (Hc & Hm & _). cbn in Am, Ac. rewrite Em in Hm, Am. rewrite Ec in Hc, Ac.
  apply list.Forall_app in Hm as [Hm _], Hc as [Hc _], Am as [Am _], Ac as [Ac _]. constructor; cbn; [done| |done].
  intros which. rewrite H2, Ht, !told_app, (told_all sm), (told_all sc), !channel_app by done. destruct which; cbn [waiting_on].
  - rewrite (channel_all true sm), (channel_none true sc) by done. by rewrite Em, app_nil_r, app_assoc.
  - rewrite (channel_none false sm), (channel_all false sc) by done. by rewrite Ec, app_assoc.
Qed.

(** *** The port's parts *)
Abbreviation M := (Effects.M (EncodedSourcePort (K := K) (In := In) (C := C) (T := T) (Sys := Sys) (Cap := Cap))).
Lemma wire_same p p' : port_output p' = port_output p -> told (taken (transport p')) = told (taken (transport p)) ->
  SourcePort.published p' = SourcePort.published p -> Wire_ok p -> Wire_ok p'.
Proof. intros E1 E2 E3 []. constructor; rewrite ?E1, ?E2, ?E3; done. Qed.
(** Steps of the source, and nothing else. *)
Definition in_steps (s s' : source) : Prop := forall sent, rtc (SourceFrames.port_step event_distinct) (sent, s) (sent, s').
Lemma history_steps sent s s' : in_steps s s' -> port_history sent s -> port_history sent s'.
Proof. intros Hs (r & c & a & b & k & t & H). exists r, c, a, b, k, t. etrans; [exact H|apply Hs]. Qed.
Record inner (R : source -> source -> Prop) p p' : Prop := {
  inner_output : port_output p' = port_output p;
  inner_taken : told (taken (transport p')) = told (taken (transport p));
  inner_published : SourcePort.published p' = SourcePort.published p;
  inner_state : option_Forall2 R (state p) (state p');
}.
Lemma in_steps_po : PreOrder in_steps.
Proof. split; [by intros s sent|]. intros a b c H1 H2 sent. etrans; [apply H1|apply H2]. Qed.
#[export] Existing Instance in_steps_po.
#[export] Instance inner_po R `{!PreOrder R} : PreOrder (inner R).
Proof.
  split; [intros p; constructor; [done..|by destruct (state p); constructor]|]. intros a b c [] []. constructor; [congruence..|].
  destruct (state a), (state b), (state c); repeat match goal with H : option_Forall2 _ _ _ |- _ => inversion_clear H end; constructor. by etrans.
Qed.
Lemma inner_ok l p p' : inner in_steps p p' -> Port_ok l p -> Port_ok l p'.
Proof.
  intros [E1 E2 E3 E4] [H1 (s & Hs & H2) H3 H4]. constructor; rewrite ?E3; [by eapply wire_same| |done|done].
  rewrite Hs in E4. inversion E4 as [s1 s2 Hss|]. subst. exists s2. split; [done|]. by eapply history_steps.
Qed.
Lemma apart_steps s s' : apart s s' -> in_steps s s'.
Proof. intros Ha sent. apply rtc_once. by constructor. Qed.
Lemma inner_weaken R R' p p' : (forall s s', R s s' -> R' s s') -> inner R p p' -> inner R' p p'.
Proof. intros H [E1 E2 E3 E4]. constructor; [done..|]. inversion E4; constructor; auto. Qed.
Definition within R {A} (m : M A) : Prop := forall p p' a, m p = (p', Ret a) -> inner R p p'.
Lemma within_bind R `{!PreOrder R} {A B} (m : M A) (k : A -> M B) : within R m -> (forall a, within R (k a)) -> within R (bind m k).
Proof. intros Hm Hk p p' b (p1 & a & H1 & H2)%run_bind. etrans; [by eapply Hm|by eapply Hk]. Qed.
Lemma inner_same R `{!PreOrder R} p p' : port_output p' = port_output p -> taken (transport p') = taken (transport p) ->
  SourcePort.published p' = SourcePort.published p -> state p' = state p -> inner R p p'.
Proof. intros E1 E2 E3 E4. constructor; rewrite ?E1, ?E2, ?E3, ?E4; done. Qed.
Lemma within_untouched R `{!PreOrder R} {A} (m : M A) : (forall p, (m p).1 = p \/ port_output (m p).1 = port_output p /\ taken (transport (m p).1) = taken (transport p) /\
  SourcePort.published (m p).1 = SourcePort.published p /\ state (m p).1 = state p) -> within R m.
Proof. intros H p p' a Hp. specialize (H p). rewrite Hp in H. cbn in H. destruct H as [->|(E1 & E2 & E3 & E4)]; [done|by apply inner_same]. Qed.
Lemma within_state (R : source -> source -> Prop) {A} (m : Effects.M source A) : (forall s s' a, m s = (s', Ret a) -> R s s') -> within R (on_state m).
Proof. intros H p p' a (s & s' & Hs & Hm & ->)%on_state_run. constructor; [done..|]. cbn. rewrite Hs. constructor. by eapply H. Qed.
Lemma within_if_state R `{!PreOrder R} (m : Effects.M source unit) : (forall s s' a, m s = (s', Ret a) -> R s s') -> within R (if_state m).
Proof.
  intros H p p' a. unfold if_state. destruct (state p) eqn:Hs; [intros Hp; by eapply (within_state R m)|by intros [= <-]].
Qed.
Lemma apart_run {A} (m : Effects.M source A) : always apart m -> forall s s' a, m s = (s', Ret a) -> apart s s'.
Proof. intros H s s' a Hm. by eapply run_always. Qed.
Lemma within_now R `{!PreOrder R} : within R now.
Proof. apply within_untouched; [apply _|by right]. Qed.
Lemma within_done R `{!PreOrder R} : within R done.
Proof. apply within_untouched; [apply _|by left]. Qed.
Lemma within_refresh : within apart refresh_admission.
Proof.
  intros p p' a [= <- <-]. constructor; [done..|]. cbn. destruct (state p); constructor. by repeat split.
Qed.
Lemma within_remove_audio R `{!PreOrder R} sf : within R (remove_audio sf).
Proof. apply within_untouched; [apply _|by right]. Qed.
Lemma within_observe_audio R `{!PreOrder R} session sf m : within R (observe_audio session sf m).
Proof. apply within_untouched; [apply _|]. intros p. right. cbn. by destruct (Source.observe _ _ _ _ _). Qed.
Lemma within_audio_follows R `{!PreOrder R} session e : within R (audio_follows session e).
Proof.
  unfold audio_follows. repeat case_match; first [by apply within_done|by apply within_observe_audio|by apply within_remove_audio].
Qed.
(** What a drain of the audio brings is sound. *)
Lemma drain_audio_run R `{!PreOrder R} p p' out : drain_audio p = (p', Ret out) -> inner R p p' /\ Forall (fun x => is_audio (Control x) = true) out.
Proof.
  unfold drain_audio. destruct (Source.drain _ _) as [[x h] o] eqn:Hd. intros [= <- <-]. split; [by apply inner_same|].
  unfold Source.drain in Hd. apply Source.drain_captures_run in Hd as (_ & _ & _ & Ho). apply list.Forall_forall. intros [session m] Hm.
  by destruct (Ho session m Hm) as (? & ? & ? & ? & _ & _ & -> & _).
Qed.
Lemma send_audio_within R `{!PreOrder R} x : is_audio (Control x) = true -> within R (send_audio x).
Proof.
  intros Hx p p' [] Hp. unfold send_audio in Hp. apply run_bind in Hp as (p1 & st & H1 & [= <-]). unfold on_transport in H1.
  destruct (try_send _ _) as [t o] eqn:Ht. injection H1 as <- ->. constructor; cbn; [done| |done|done]. destruct st as [|q].
  - rewrite (try_send_sent _ _ _ Ht), told_app. unfold told at 2. rewrite filter_cons, decide_False, filter_nil, app_nil_r by congruence. done.
  - by destruct (try_send_busy _ _ _ _ Ht) as [_ ->].
Qed.
Lemma within_sends R `{!PreOrder R} xs : Forall (fun x => is_audio (Control x) = true) xs -> within R (for_each send_audio xs).
Proof. induction 1 as [|x xs Hx _ IH]; [by apply within_done|]. apply within_bind; [done|by apply send_audio_within|intros _; exact IH]. Qed.
Lemma within_messages R `{!PreOrder R} : within R (on_transport drain_messages).
Proof.
  intros p p' a. unfold on_transport. destruct (drain_messages _) as [t o] eqn:Ht. intros [= <- _]. apply inner_same; try done. cbn.
  pose proof (drain_keeps (transport p)) as Hk. by rewrite Ht in Hk.
Qed.

(** *** Flushing *)
(** Between two operations the source's packets are all in the queues. *)
Definition calm p : Prop := exists s, state p = Some s /\ output s = [].
Lemma flush_keeps l p p' : flush p = (p', Ret tt) -> Port_ok l p -> Port_ok l p' /\ calm p'.
Proof.
  intros Hp H. pose proof (flush_run _ _ Hp) as (s & Hs & Hs' & Hpub). split; [|by eexists].
  destruct H as [Hw (s0 & Hs0 & Hh) Hown Hk]. rewrite Hs in Hs0. injection Hs0 as <-.
  pose proof (history_published _ _ Hh) as [Hp' _]. apply published_kinds, list.Forall_app in Hp' as [_ Hkinds].
  constructor; rewrite ?Hpub.
  - unfold flush in Hp. apply run_bind in Hp as (p1 & xs & (s1 & s2 & Hs1 & Ht & ->)%on_state_run & Hp). rewrite Hs in Hs1. injection Hs1 as <-.
    injection Ht as <- <-. apply run_bind in Hp as (p2 & [] & H2 & Hp). apply run_bind in Hp as (p3 & [] & H3 & Hp).
    assert (Hw2 : Wire_ok p2).
    { eapply pushes_wire; [exact H2| |by apply (wire_same p)]. eapply list.Forall_impl; [exact Hkinds|]. intros x Hx. apply kind_not_audio. by rewrite Hx, orb_true_r. }
    apply flush_output_wire in H3 as [Hw3 _]; [|done]. injection Hp as <-. by apply (wire_same p3).
  - eexists. split; [exact Hs'|]. rewrite only_app, (only_all is_published (output s)) by done. destruct Hh as (r & c & a & b & k & t & Hh).
    exists r, c, a, b, k, t. etrans; [exact Hh|]. eapply rtc_l; [by apply (step_take _ _ s (set_output [] s) (output s))|].
    apply rtc_once. constructor. by repeat split.
  - rewrite only_app, Hown, only_none, app_nil_r; [done|]. eapply list.Forall_impl; [exact Hkinds|]. apply published_not_own.
  - apply list.Forall_app. split; [done|]. eapply list.Forall_impl; [exact Hkinds|]. intros x Hx. by rewrite Hx, orb_true_r.
Qed.
Lemma schedule_steps time s s' a : schedule time s = (s', Ret a) -> in_steps s s'.
Proof.
  unfold schedule. destruct (schedule_at time s) as [r|] eqn:Hr; [|done]. cbn. intros ->. destruct a. intros sent. apply rtc_once. by eapply step_schedule.
Qed.
Lemma turn_keeps l p p' next : progress_turn tt p = (p', Ret next) -> Port_ok l p -> Port_ok l p'.
Proof.
  intros Hp H. unfold progress_turn in Hp. apply run_bind in Hp as (p1 & [] & H1 & Hp). eapply flush_keeps in H1 as [H1 _]; [|exact H].
  eapply inner_ok; [|exact H1]. clear H1. revert p1 p' next Hp. change (within in_steps (let! time := now in let! _ := on_state (schedule time) in
    let! silent := on_state (gets (fun s => bool_decide (output s = []))) in pure (if (silent : bool) then None else Some tt))).
  apply within_bind; [apply _|apply within_now, _|intros time]. apply within_bind; [apply _|apply within_state, schedule_steps|intros _].
  apply within_bind; [apply _| |intros b; apply within_untouched; [apply _|by left]]. apply within_state. intros s s' b [= <- _]. done.
Qed.
Lemma progress_keeps l p p' : progress p = (p', Ret tt) -> Port_ok l p -> Port_ok l p' /\ calm p'.
Proof.
  intros Hp H. split.
  - refine (triple_iterate progress_turn (Port_ok l) _ tt _ p p' tt H Hp). intros [] q q' next Hq Hr. by eapply turn_keeps.
  - destruct (progress_ends _ _ Hp) as (s & Hs & Ho & _). by exists s.
Qed.
Lemma say_keeps l c x p p' : answer c = Some x -> push x p = (p', Ret tt) -> Port_ok l p -> Port_ok (l ++ [c]) p'.
Proof.
  intros Hc Hp [H1 (s & Hs & H2) H3 H4]. destruct (answer_kind _ _ Hc) as (K1 & K2 & K3). pose proof (push_wire _ _ _ Hp K3 H1) as Hw.
  apply push_run in Hp as (q & Hq & ->). constructor; cbn [SourcePort.published set_published set_port_output state]; [done| | |].
  - exists s. split; [done|]. rewrite only_app, (only_none _ [x]), app_nil_r by (by constructor). done.
  - rewrite only_app, omap_app, H3, (only_all _ [x]) by (by constructor). cbn. by rewrite Hc.
  - apply list.Forall_app. split; [done|]. constructor; [by rewrite K1|done].
Qed.

(** *** Operations *)
Definition live l p : Prop := Port_ok l p /\ calm p.
Lemma inner_calm p p' : inner apart p p' -> calm p -> calm p'.
Proof.
  intros [_ _ _ Hi] (s & Hs & Ho). rewrite Hs in Hi. inversion Hi as [s1 s' Ha|]; subst. exists s'. split; [done|].
  destruct Ha as [[_ _ E _ _] _]. congruence.
Qed.
Lemma inner_live l p p' : inner apart p p' -> live l p -> live l p'.
Proof.
  intros Hi [H Hc]. split; [eapply inner_ok; [|done]; by eapply inner_weaken; [apply apart_steps|]|by eapply inner_calm].
Qed.
Lemma within_live l {A} (m : M A) p p' a : within apart m -> m p = (p', Ret a) -> live l p -> live l p'.
Proof. intros Hm Hp. apply inner_live. by eapply Hm. Qed.
Lemma silent_command l c p : answer c = None -> Port_ok l p -> Port_ok (l ++ [c]) p.
Proof. intros Hc []. constructor; [done..| |done]. rewrite omap_app. cbn. by rewrite Hc, app_nil_r. Qed.
Lemma clear_focus_within : within apart (let! time := now in
  if_state (let! _ := modify (fun s => set_activity (Activity.clear_focus (activity s)) s) in refresh_budget_attention time)).
Proof.
  apply within_bind; [apply _|apply within_now, _|intros time]. apply within_if_state; [apply _|]. apply apart_run.
  apply always_bind; [apply _|intros s; by repeat split|intros _; apply refresh_apart].
Qed.
Lemma submit_keeps l c p p' : well_formed (Submitting c) -> submit c p = (p', Ret tt) -> live l p -> live (l ++ [c]) p'.
Proof.
  intros Hwf Hp H. unfold submit in Hp. apply run_bind in Hp as (p0 & [] & H0 & Hp). apply (within_live l) in H0; [|apply within_refresh|done].
  clear H. destruct H0 as [H Hcalm]. destruct c as [status| |session sf|session e|session sf cu n|session sf|b].
  - apply run_bind in Hp as (p1 & [] & H1 & Hp). eapply progress_keeps; [exact Hp|]. by eapply say_keeps.
  - assert (Hl : live l p') by (eapply (within_live l); [apply clear_focus_within|exact Hp|by split]).
    split; [apply silent_command; [done|]|]; apply Hl.
  - apply run_bind in Hp as (p1 & [] & H1 & Hp). apply run_bind in Hp as (p2 & [] & H2 & Hp). eapply progress_keeps; [exact Hp|].
    eapply say_keeps; [done|exact H2|]. apply (within_live l) in H1; [apply H1| |by split].
    apply within_if_state; [apply _|]. apply apart_run. intros s. by repeat split.
  - apply run_bind in Hp as (p1 & [] & H1 & Hp). apply run_bind in Hp as (p2 & time & H2 & Hp).
    apply run_bind in Hp as (p3 & [] & H3 & Hp). eapply progress_keeps; [exact Hp|]. apply silent_command; [done|].
    eapply inner_ok; [eapply (within_state in_steps); [|exact H3]|].
    + intros s s' [] Hs sent. apply rtc_once. by eapply step_enqueue.
    + eapply (inner_ok l p0); [|done]. etrans; [by eapply (within_audio_follows in_steps)|by eapply (within_now in_steps)].
  - apply run_bind in Hp as (p1 & [] & H1 & Hp). eapply progress_keeps; [exact Hp|]. by eapply say_keeps.
  - apply run_bind in Hp as (p1 & [] & H1 & Hp). apply run_bind in Hp as (p2 & [] & H2 & Hp). apply run_bind in Hp as (p3 & time & H3 & Hp).
    apply run_bind in Hp as (p4 & [] & H4 & Hp). eapply progress_keeps; [exact Hp|].
    eapply inner_ok; [eapply (within_state in_steps); [|exact H4]|].
    + intros s s' [] Hs sent. apply rtc_once. by eapply step_withdraw.
    + eapply inner_ok; [by eapply (within_now in_steps)|]. eapply say_keeps; [done|exact H2|].
      eapply inner_ok; [by eapply (within_remove_audio in_steps)|done].
  - injection Hp as <-. split; [by apply silent_command|done].
Qed.
Lemma poll_keeps l p p' a : poll p = (p', Ret a) -> live l p -> live l p'.
Proof.
  intros Hp [H _]. unfold poll in Hp. apply run_bind in Hp as (p1 & out & H1 & Hp).
  destruct (drain_audio_run in_steps _ _ _ H1) as [Hi Hout]. eapply inner_ok in Hi; [|exact H]. clear H H1.
  apply run_bind in Hp as (p2 & [] & H2 & Hp). eapply inner_ok in Hi; [|by eapply (within_sends in_steps)]. clear H2.
  apply run_bind in Hp as (p3 & [] & H3 & Hp). eapply inner_ok in Hi; [|eapply inner_weaken; [apply apart_steps|by eapply within_refresh]]. clear H3.
  apply run_bind in Hp as (p4 & time & H4 & Hp). eapply inner_ok in Hi; [|by eapply (within_now in_steps)]. clear H4.
  apply run_bind in Hp as (p5 & [] & H5 & Hp). eapply inner_ok in Hi; [|eapply (within_state in_steps); [|exact H5]].
  2: { intros s s' [] Hs sent. apply run_bind in Hs as (s1 & [] & [= <-] & Hs). eapply rtc_l; [|apply rtc_once; by eapply step_drain].
       constructor. by repeat split. }
  clear H5. apply run_bind in Hp as (p6 & [] & H6 & Hp). eapply flush_keeps in H6; [|exact Hi].
  eapply (within_live l); [apply within_messages, _|exact Hp|exact H6].
Qed.
Lemma within_edit R `{!PreOrder R} (f : source -> source) : (forall s, R s (f s)) -> within R (if_state (modify f)).
Proof. intros Hf. apply within_if_state; [done|]. intros s s' u [= <-]. apply Hf. Qed.
Lemma accept_message_within R `{!PreOrder R} session m : (forall s a b, R s (set_preferences_dirty b (set_activity a s))) ->
  (forall sf b s, R s (mark_resizing sf b s).1) -> within R
  match m with
  | Request (SurfaceRequest r) =>
      match request_kind r with
      | SetBitratePreference preference => if_state (prefer session (request_surface r) preference)
      | Configure _ _ resizing _ => on_state (mark_resizing (request_surface r) resizing)
      | _ => done
      end
  | BufferReleased _ => lift (Fail (ErrMsg "encoded peer sent a native buffer-release record"))
  | _ => done
  end.
Proof.
  intros Ha Hb. destruct m as [[r| |]| | | | |]; try (by apply within_done); [|by intros ? ? ?]. destruct (request_kind r); try (by apply within_done).
  - apply within_state. intros s s' u Hs. specialize (Hb (request_surface r) resizing s). by rewrite Hs in Hb.
  - apply within_edit; [done|]. intros s. destruct (Activity.set_bitrate_preference _ _ _ _). apply Ha.
Qed.
Lemma accept_keeps l e p p' : accept_destination e p = (p', Ret tt) -> live l p -> live l p'.
Proof.
  intros Hp [H _]. unfold accept_destination in Hp. apply run_bind in Hp as (p1 & time & H1 & Hp). apply run_bind in Hp as (p2 & [] & H2 & Hp).
  apply run_bind in Hp as (p3 & [] & H3 & Hp). eapply flush_keeps; [exact Hp|]. eapply inner_ok; [|exact H]. etrans; [by eapply (within_now in_steps)|].
  etrans; [eapply (within_edit in_steps); [|exact H2]; intros s; apply apart_steps; by repeat split|].
  eapply (accept_message_within in_steps); [| |exact H3].
  - intros s a b. apply apart_steps. by repeat split.
  - intros sf b s sent. apply rtc_once. by eapply step_resize.
Qed.
Lemma after_destination_within time : within apart (if_state (
  let! dirty := gets preferences_dirty in
  let! _ := (if (dirty : bool) then update_budget None time else refresh_budget_attention time) in
  modify (set_admission_deferred false))).
Proof.
  apply within_if_state; [apply _|]. apply apart_run. apply always_bind; [apply _|by apply always_id; [apply _|]|intros dirty].
  apply always_bind; [apply _|destruct dirty; [apply update_budget_apart|apply refresh_apart]|intros _ s; by repeat split].
Qed.
Lemma progressing_keeps l p p' : progress_after_destination p = (p', Ret tt) -> live l p -> live l p'.
Proof.
  intros Hp [H _]. unfold progress_after_destination in Hp. apply run_bind in Hp as (p1 & time & H1 & Hp). apply run_bind in Hp as (p2 & [] & H2 & Hp).
  eapply progress_keeps; [exact Hp|]. eapply inner_ok; [|exact H]. etrans; [by eapply (within_now in_steps)|].
  eapply inner_weaken; [apply apart_steps|]. by eapply after_destination_within.
Qed.
Lemma budget_within : within apart set_bitrate_budget.
Proof.
  apply within_bind; [apply _|apply within_now, _|intros time]. apply within_state, apart_run. unfold attach_budget.
  repeat (apply always_bind; [apply _| |intros ?]); try (by apply always_id; [apply _|]).
  - intros s. destruct (attach _ _ _). by repeat split.
  - intros s. by repeat split.
Qed.
Lemma presentation_within sf claim : within apart (set_presentation sf claim).
Proof. apply within_state. intros s s' b. destruct (Pacing.set _ _ _). intros [= <- _]. by repeat split. Qed.
Lemma policy_within x : within apart (with_scheduling_policy x).
Proof. apply within_edit; [apply _|]. intros s. by repeat split. Qed.
Lemma act_keeps l a p p' : well_formed a -> run_act a p = (p', Ret tt) -> live l p -> live (l ++ submitted_by a) p'.
Proof.
  intros Hwf Hp H. destruct a as [c|e| | |sf claim| |x]; cbn [submitted_by run_act] in *; rewrite ?app_nil_r.
  - by eapply submit_keeps.
  - by eapply accept_keeps.
  - by eapply progressing_keeps.
  - apply run_bind in Hp as (p1 & a & H1 & [= <-]). by eapply poll_keeps.
  - apply run_bind in Hp as (p1 & a & H1 & [= <-]). eapply (within_live l); [apply presentation_within|done..].
  - eapply (within_live l); [apply budget_within|done..].
  - eapply (within_live l); [apply policy_within|done..].
Qed.
Lemma outside_inner p p' : outside p p' -> inner apart p p'.
Proof. intros [E1 E2 E3 _ E5]. constructor; rewrite ?E1; done. Qed.
Lemma outside_live l p p' : outside p p' -> live l p -> live l p'.
Proof. intros H%outside_inner. by apply inner_live. Qed.
Lemma start_live rates pool limit fallback clock h t (k : K) : taken t = [] -> live [] (EncodedSourcePort_new rates pool limit fallback clock h t k).
Proof.
  intros Ht. split; [|by eexists]. constructor; [|eexists; split; [done|]|done|done].
  - constructor; cbn; [|intros which; rewrite Ht; by destruct which|done].
    repeat split; cbn; try constructor; unfold MAX_PENDING_SOURCE_EVENTS, MAX_REPLACEMENTS_PER_COMMIT; lia.
  - by exists rates, pool, limit, fallback, k, (clock O).
Qed.
Lemma life_live l p : port_life l p -> live l p.
Proof.
  intros (r & b & li & f & c & h & t & k & Ht & H). refine (rtc_ind_r (fun y => live y.1 y.2) _ _ _ _ H); [by apply start_live|].
  intros y z _ Hyz Hy. destruct Hyz as [l' p1 p2 a Ha Hp|l' p1 p2 Ho]; [by eapply act_keeps|by eapply outside_live].
Qed.

(** *** What arrives *)
Definition events (xs : list packet) : list (ClientSurfaceEvent EncodedBuffer) :=
  omap (fun x => match x with Control (_, SurfaceMessage e) => Some e | _ => None end) xs.
Definition frames_named (xs : list packet) : list MediaFrameId := concat (encoded_frames <$> events xs).
Definition units (xs : list packet) : list EncodedAccessUnit :=
  omap (fun x => match x with Media m => Some (access_unit m) | _ => None end) xs.
Lemma published_named xs : Published xs -> frames_named xs = media_frames xs /\ Forall SourceFrames.sound (units xs).
Proof.
  induction 1 as [|xs session us e _ [IH1 IH2] Hus Hs]; [done|]. unfold frames_named, events, units in *. rewrite !omap_app, media_frames_app. split.
  - rewrite fmap_app, concat_app, IH1, media_frames_parcel. f_equal. unfold parcel. rewrite omap_app, Hus. clear. induction us; cbn; by rewrite ?app_nil_r.
  - apply list.Forall_app. split; [done|]. unfold parcel. rewrite omap_app. cbn. rewrite app_nil_r. clear - Hs.
    induction Hs; constructor; done.
Qed.
Lemma omap_filter {A} (f : packet -> option A) (P : packet -> Prop) `{forall x, Decision (P x)} (xs : list packet) :
  (forall x, ~ P x -> f x = None) -> omap f (filter P xs) = omap f xs.
Proof.
  intros Hf. induction xs as [|x xs IH]; [done|]. rewrite filter_cons. cbn. case_decide; cbn; rewrite IH; [done|by rewrite Hf].
Qed.
Lemma omap_prefix {A} (f : packet -> option A) (xs ys : list packet) : xs `prefix_of` ys -> omap f xs `prefix_of` omap f ys.
Proof. intros [k ->]. rewrite omap_app. by apply prefix_app_r. Qed.
Lemma concat_prefix {A B} (f : A -> list B) (xs ys : list A) : xs `prefix_of` ys -> concat (f <$> xs) `prefix_of` concat (f <$> ys).
Proof. intros [k ->]. rewrite fmap_app, concat_app. by apply prefix_app_r. Qed.
Lemma only_own_channel xs : only is_own (channel false xs) = only is_own xs.
Proof.
  apply list_filter_filter_l. by intros [[? []]|].
Qed.

(** C5 (source-wire). What the transport took, sound aside, is what a decoder can follow,
    whatever the relay submitted, the peer sent and the transport had room for. The records
    the commands are answered with arrive once and in the order of the commands. The media
    units arrive complete, those of a generation as 0, 1, 2 and so on, each not empty and in
    bounds, with a keyframe first. The commits name exactly the frames that arrive, in the
    same order, though either channel may be ahead. What has not arrived waits in the port's
    queues, channel by channel, and nothing else is kept back. *)
Theorem source_wire l p (H : port_life l p) : let sent := told (taken (transport p)) in
  only is_own sent `prefix_of` omap answer l /\
  (forall k, exists n, seqs k (media_frames sent) = seqZ 0 n) /\
  Forall SourceFrames.sound (units sent) /\
  (frames_named sent `prefix_of` media_frames sent \/ media_frames sent `prefix_of` frames_named sent) /\
  (forall which, channel which (SourcePort.published p) = channel which sent ++ waiting_on which (port_output p)) /\
  exists s, state p = Some s /\ output s = [].
Proof.
  intros sent. apply life_live in H as [[[_ Hw _] (s & Hs & Hh) Hown _] Hc].
  pose proof (history_published _ _ Hh) as [Hp Hg]. apply published_named in Hp as [Hn Hu].
  assert (Hpre : forall which, channel which sent `prefix_of` channel which (SourcePort.published p)) by (intros which; rewrite Hw; by apply prefix_app_r).
  assert (Hpub : forall A (f : packet -> option A), (forall x, is_published x <> true -> f x = None) -> omap f (SourcePort.published p) `prefix_of`
    omap f (only is_published (SourcePort.published p) ++ output s)).
  { intros A f Hf. rewrite omap_app. unfold only. rewrite (omap_filter f) by done. by apply prefix_app_r. }
  assert (Harr : forall A (f : packet -> option A) which, (forall x, is_published x <> true -> f x = None) -> (forall x, is_media x <> which -> f x = None) ->
    omap f sent `prefix_of` omap f (only is_published (SourcePort.published p) ++ output s)).
  { intros A f which Hf1 Hf2. etrans; [|by apply Hpub]. rewrite <- (omap_filter f (fun x => is_media x = which) sent) by done.
    rewrite <- (omap_filter f (fun x => is_media x = which) (SourcePort.published p)) by done. apply omap_prefix, Hpre. }
  assert (Hm : media_frames sent `prefix_of` media_frames (only is_published (SourcePort.published p) ++ output s)).
  { apply (Harr _ _ true); by intros [[? []]|]. }
  split_and!.
  - rewrite <- Hown, <- (only_own_channel sent), <- (only_own_channel (SourcePort.published p)), Hw, only_app. by apply prefix_app_r.
  - intros k. destruct (Hg k) as [n Hk]. destruct Hm as [ms Hms]. rewrite Hms, seqs_app in Hk. by eapply SourceFrames.seqZ_prefix.
  - destruct (Harr _ (fun x => match x with Media m => Some (access_unit m) | _ => None end) true) as [us Hus]; [by intros [[? []]|]..|].
    unfold units in Hu. rewrite Hus in Hu. by apply list.Forall_app in Hu as [Hu _].
  - refine (prefix_weak_total _ _ _ _ Hm). rewrite <- Hn. apply concat_prefix. apply (Harr _ _ false); by intros [[? []]|].
  - done.
  - done.
Qed.

End SourceWire.

(** ** A port at work *)
#[export] Instance sample_wire {C M} : EncodedSourceLink (Link C M) (SourceTransportPacket C M) := {
  audio_wake _ := false;
  media_headroom l := bool_decide (media_room l <> 0%nat);
  drain_messages l := (l, Ret []);
  close l := MkLink 0 0 (delivered l);
  drain_keeps _ := eq_refl;
}.
#[export] Instance deaf : CaptureSystem unit unit unit := {
  application_target _ _ _ := None;
  new_capture _ _ _ := (tt, inl tt);
  drain_capture _ _ := (tt, inl []);
}.
Abbreviation sample_control := (HoistSessionId * SourceMessage (ClientCursorUpdate unit) AudioPacket)%type.
Abbreviation sample_port_type := (EncodedSourcePort (K := EagerEncoder) (In := unit) (C := unit)
  (T := Link sample_control (MediaEnvelope EncodedAccessUnit)) (Sys := unit) (Cap := unit)).
Definition sample_new : sample_port_type :=
  EncodedSourcePort_new None sample_pool None None (fun n => Z.of_nat n * 1000) tt (MkLink 10 1 []) [].
Definition run_acts (l : list port_act) (p : sample_port_type) : option sample_port_type :=
  foldl (fun o a => p ← o; match run_act a p with (p, Ret _) => Some p | _ => None end) (Some p) l.
Lemma run_acts_moves l (p p' : sample_port_type) done : Forall well_formed l -> run_acts l p = Some p' ->
  rtc port_moves (done, p) (done ++ (l ≫= submitted_by), p').
Proof.
  intros Hl. revert p done. induction Hl as [|a l Ha _ IH]; intros p done Hp; [injection Hp as <-; cbn; by rewrite app_nil_r|].
  unfold run_acts in Hp. cbn in Hp. destruct (run_act a p) as [p1 o] eqn:Hrun. destruct o as [[]| |].
  - eapply rtc_l; [by eapply moves_act|]. cbn. rewrite app_assoc. by apply IH.
  - exfalso. clear - Hp. by induction l.
  - exfalso. clear - Hp. by induction l.
Qed.
(** One frame is encoded and sent; the link has no room for another, so the next commit waits
    until the surface is withdrawn. *)
Definition sample_acts : list port_act :=
  [Submitting (MapCommand sample_session (ClientSurfaceId_for_test 1)); Submitting (SurfaceCommand sample_session (sample_show 1 1 100));
   Polling; Progressing; Submitting (CursorCommand sample_session (ClientSurfaceId_for_test 1) tt 1);
   Submitting (SurfaceCommand sample_session (sample_show 1 2 200)); Polling; Progressing].
Definition sample_ended : list port_act := sample_acts ++ [Submitting (WithdrawCommand sample_session (ClientSurfaceId_for_test 1))].
Definition port_after (l : list port_act) : sample_port_type := default sample_new (run_acts l sample_new).
Lemma sample_acts_formed : Forall well_formed sample_ended.
Proof. by repeat (apply List.Forall_cons; [first [apply sample_show_distinct|done]|]). Qed.
Lemma sample_life : port_life (sample_ended ≫= submitted_by) (port_after sample_ended).
Proof.
  exists None, sample_pool, None, None, (fun n => Z.of_nat n * 1000), tt, (MkLink 10 1 []), []. split; [done|].
  apply (run_acts_moves _ sample_new _ []); [apply sample_acts_formed|]. vm_compute. reflexivity.
Qed.
Lemma source_wire_witness :
  media_frames (told (taken (transport (port_after sample_ended)))) = [MkMediaFrameId (MkMediaStreamId 1) (MkStreamGeneration 1) 0] /\
  only is_own (told (taken (transport (port_after sample_ended)))) `prefix_of` omap answer (sample_ended ≫= submitted_by).
Proof. split; [vm_compute; reflexivity|]. apply (source_wire _ _ sample_life). Defined.

