(* ===== verification/SourceKeeps.v ===== *)
(** * What a port's operations keep

    A port changes its source and what it published together. What the source's steps keep of
    the two, every operation of the port keeps too, submissions aside: those say records of
    their own. *)

From S2P Require Import Prelude.
From S2P Require Import Effects.
From S2P Require Import OrdMap.
From S2P Require Import Ids.
From S2P Require Import Surface.
From S2P Require Import Input.
From S2P Require Import Commit.
From S2P Require Import SourceRelay.
From S2P Require Import DestinationRelay.
From S2P Require Import Bitrate.
From S2P Require Import Activity.
From S2P Require Import Allocation.
From S2P Require Import Budget.
From S2P Require Import Scheduling.
From S2P Require Import Pacing.
From S2P Require Import Framing.
From S2P Require Import PendingEvents.
From S2P Require Import Output.
From S2P Require Import Packets.
From S2P Require Import Audio.
From S2P Require Import SourceState.
From S2P Require Import SourceFrames.
From S2P Require Import SourcePort.
From S2P Require Import SourceWire.

Section SourceKeeps.
Context {K In C T Sys Cap Tg : Type}.
Abbreviation control := (HoistSessionId * SourceMessage (ClientCursorUpdate C) AudioPacket)%type.
Abbreviation packet := (SourceTransportPacket control (MediaEnvelope EncodedAccessUnit)).
Context {codec : EncodeBackend K In} {wire : EncodedSourceLink T packet}.
Context {pending_visit : HashOrder ClientSurfaceId (PendingClientEvents HoistSessionId ClientBufferLease)}.
Context {stream_visit : HashOrder (ClientSurfaceId * SurfaceLayerId) SourceStream}.
Context {capture_system : CaptureSystem Sys Cap Tg} {capture_visit : HashOrder Source.Key Cap}.
Abbreviation source := (EncodedSourceState K In (ClientCursorUpdate C) AudioPacket).
Abbreviation command := (SourcePortCommand C).
Abbreviation port := (EncodedSourcePort (K := K) (In := In) (C := C) (T := T) (Sys := Sys) (Cap := Cap)).
Implicit Types (p : port) (s : source) (l : list command).

(** A property of what the queues accepted and of the source, and what keeps it. *)
Context (Q : list packet -> source -> Prop).
Record source_keeps : Prop := {
  keeps_apart : forall xs s s', apart s s' -> Q xs s -> Q xs s';
  keeps_resizing : forall xs s r, Q xs s -> Q xs (set_resizing r s);
  keeps_take : forall xs s, Q xs s -> Q (xs ++ output s) (set_output [] s);
  keeps_drain : forall xs s s' time, drain time s = (s', Ret tt) -> Q xs s -> Q xs s';
  keeps_schedule : forall xs s s' time, schedule time s = (s', Ret tt) -> Q xs s -> Q xs s';
}.
Definition holds p : Prop := exists s, state p = Some s /\ Q (SourcePort.published p) s.
(** What a step of the source makes of it. *)
Definition follows (s s' : source) : Prop := forall xs, Q xs s -> Q xs s'.
#[local] Instance follows_po : PreOrder follows.
Proof. split; [by intros s xs|]. intros a b c H1 H2 xs H. by apply H2, H1. Qed.
Lemma inner_holds p p' : inner follows p p' -> holds p -> holds p'.
Proof.
  intros [_ _ E Hi] (s & Hs & H). rewrite Hs in Hi. inversion Hi as [s1 s' Hf|]; subst. exists s'. split; [done|]. rewrite E. by apply Hf.
Qed.
Context (keeps : source_keeps).
Lemma apart_follows s s' : apart s s' -> follows s s'.
Proof. intros H xs. by apply keeps. Qed.
Lemma inner_apart_holds p p' : inner apart p p' -> holds p -> holds p'.
Proof. intros H. apply inner_holds. eapply inner_weaken; [apply apart_follows|done]. Qed.
Lemma flush_holds p p' : flush p = (p', Ret tt) -> holds p -> holds p'.
Proof.
  intros (s & Hs & Hs' & Hp)%flush_run (s0 & Hs0 & H). rewrite Hs in Hs0. injection Hs0 as <-. eexists. split; [done|]. rewrite Hp.
  eapply (keeps_apart keeps); [|by apply (keeps_take keeps)]. by repeat split.
Qed.
Lemma turn_holds p p' next : progress_turn tt p = (p', Ret next) -> holds p -> holds p'.
Proof.
  intros (p1 & s & s' & H1 & Hs & Hrun & -> & _)%progress_turn_run H. apply flush_holds in H1 as (s0 & Hs0 & H0); [|done].
  rewrite Hs in Hs0. injection Hs0 as <-. exists s'. split; [done|]. by eapply (keeps_schedule keeps).
Qed.
Lemma progress_holds p p' : progress p = (p', Ret tt) -> holds p -> holds p'.
Proof.
  intros Hp H. refine (triple_iterate progress_turn holds _ tt _ p p' tt H Hp). intros [] q q' next Hq Hr. by eapply turn_holds.
Qed.
(** A record of the port's own. *)
Lemma push_holds x p p' : push x p = (p', Ret tt) -> holds p ->
  (forall s, state p = Some s -> Q (SourcePort.published p) s -> Q (SourcePort.published p ++ [x]) s) -> holds p'.
Proof. intros (q & _ & ->)%push_run (s & Hs & H) Hx. exists s. split; [done|]. by apply Hx. Qed.
Lemma accept_holds e p p' : accept_destination e p = (p', Ret tt) -> holds p -> holds p'.
Proof.
  intros Hp H. unfold accept_destination in Hp. apply run_bind in Hp as (p1 & time & H1 & Hp). apply run_bind in Hp as (p2 & [] & H2 & Hp).
  apply run_bind in Hp as (p3 & [] & H3 & Hp). eapply flush_holds; [exact Hp|]. eapply inner_holds; [|exact H].
  etrans; [by eapply (within_now follows)|]. etrans; [eapply (within_edit follows); [|exact H2]|].
  - intros s. apply apart_follows. by repeat split.
  - eapply (accept_message_within follows); [| |exact H3].
    + intros s a b. apply apart_follows. by repeat split.
    + intros sf b s xs. apply (keeps_resizing keeps).
Qed.
Lemma progressing_holds p p' : progress_after_destination p = (p', Ret tt) -> holds p -> holds p'.
Proof.
  intros Hp H. unfold progress_after_destination in Hp. apply run_bind in Hp as (p1 & time & H1 & Hp). apply run_bind in Hp as (p2 & [] & H2 & Hp).
  eapply progress_holds; [exact Hp|]. eapply inner_apart_holds; [|exact H]. etrans; [by eapply (within_now apart)|]. eapply after_destination_within, H2.
Qed.
Lemma poll_holds p p' a : poll p = (p', Ret a) -> holds p -> holds p'.
Proof.
  intros H1 H. unfold poll in H1. apply run_bind in H1 as (p2 & out & H2 & Hp). destruct (drain_audio_run apart _ _ _ H2) as [Hi Hout].
  apply run_bind in Hp as (p3 & [] & H3 & Hp). apply (within_sends apart) in H3; [|done]. apply run_bind in Hp as (p4 & [] & H4 & Hp).
  apply within_refresh in H4. apply run_bind in Hp as (p5 & time & H5 & Hp). apply (within_now apart) in H5.
  assert (Hi5 : inner apart p p5) by by do 3 (etrans; [eassumption|]). apply inner_apart_holds in Hi5; [|done]. clear - Hp Hi5 keeps.
  apply run_bind in Hp as (p6 & [] & H6 & Hp). apply (within_state follows), inner_holds in H6; [|done|].
  2: { intros s s' [] Hs xs Hq. apply run_bind in Hs as (s0 & u & [= <- _] & Hs). eapply (keeps_drain keeps); [exact Hs|].
    eapply (keeps_apart keeps); [|exact Hq]. by repeat split. }
  apply run_bind in Hp as (p7 & [] & H7 & Hp). eapply inner_apart_holds; [by eapply (within_messages apart)|]. by eapply flush_holds.
Qed.
Lemma act_holds a p p' : submitted_by a = [] -> run_act a p = (p', Ret tt) -> holds p -> holds p'.
Proof.
  intros Hc Hp H. destruct a as [c|e| | |sf claim| |x]; [done|..]; cbn [run_act] in Hp.
  - by eapply accept_holds.
  - by eapply progressing_holds.
  - apply run_bind in Hp as (p1 & a & H1 & [= <-]). by eapply poll_holds.
  - apply run_bind in Hp as (p1 & a & H1 & [= <-]). eapply inner_apart_holds; [|exact H]. by eapply presentation_within.
  - eapply inner_apart_holds; [|exact H]. by eapply budget_within.
  - eapply inner_apart_holds; [|exact H]. by eapply policy_within.
Qed.
Lemma outside_holds p p' : outside p p' -> holds p -> holds p'.
Proof. intros H%outside_inner. by apply inner_apart_holds. Qed.
End SourceKeeps.
