(* ===== verification/SourceSays.v ===== *)
(** * What the peer of a source hears

    The records a port sends are a conversation like the commands it was given: between the
    record that maps a surface and the one that ends it, and only there, come the records of
    that surface, under its session. *)

From S2P Require Import Prelude.
From S2P Require Import Effects.
From S2P Require Import OrdMap.
From S2P Require Import Ids.
From S2P Require Import Surface.
From S2P Require Import Input.
From S2P Require Import Commit.
From S2P Require Import SourceRelay.
From S2P Require Import RelayProtocol.
From S2P Require Import DestinationRelay.
From S2P Require Import Bitrate.
From S2P Require Import Activity.
From S2P Require Import Allocation.
From S2P Require Import Budget.
From S2P Require Import Scheduling.
From S2P Require Import Pacing.
From S2P Require Import Framing.
From S2P Require Import PendingEvents.
From S2P Require Import Output.
From S2P Require Import Packets.
From S2P Require Import Audio.
From S2P Require Import SourceState.
From S2P Require Import SourceFrames.
From S2P Require Import SourceQueues.
From S2P Require Import SourcePort.
From S2P Require Import SourceWire.
From S2P Require Import SourceKeeps.

(** ** Events that do not end a surface *)
Definition ends {B} (e : ClientSurfaceEvent B) : bool := match event_kind e with Destroyed => true | _ => false end.
Definition desktop {B} (e : ClientSurfaceEvent B) : bool := match event_kind e with Role (Layer _) => true | _ => false end.
Definition ordinary {B} (e : ClientSurfaceEvent B) : Prop := ends e = false /\ desktop e = false.
Lemma commit_ordinary {B} (e : ClientSurfaceEvent B) : is_commit e = true -> ordinary e.
Proof. unfold is_commit, ordinary, ends, desktop. by destruct (event_kind e). Qed.
Lemma structural_kind (e : Event) e' : structural e = Ret e' -> surface e' = surface e /\ ends e' = ends e /\ desktop e' = desktop e.
Proof.
  unfold structural. intros H. apply bind_Ret_inv in H as (x & Hx & [= <-]). unfold try_from_client, convert_event in Hx.
  apply bind_Ret_inv in Hx as (k & Hk & [= <-]). unfold ends, desktop. cbn. split; [done|].
  destruct (event_kind e); try (by injection Hk as <-). by apply bind_Ret_inv in Hk as (c & _ & [= <-]).
Qed.

Section SourceSays.
Context {K In C T Sys Cap Tg : Type}.
Abbreviation control := (HoistSessionId * SourceMessage (ClientCursorUpdate C) AudioPacket)%type.
Abbreviation packet := (SourceTransportPacket control (MediaEnvelope EncodedAccessUnit)).
Context {codec : EncodeBackend K In} {wire : EncodedSourceLink T packet}.
Context {pending_visit : HashOrder ClientSurfaceId (PendingClientEvents HoistSessionId ClientBufferLease)}.
Context {stream_visit : HashOrder (ClientSurfaceId * SurfaceLayerId) SourceStream}.
Context {capture_system : CaptureSystem Sys Cap Tg} {capture_visit : HashOrder Source.Key Cap}.
Abbreviation source := (EncodedSourceState K In (ClientCursorUpdate C) AudioPacket).
Abbreviation command := (SourcePortCommand C).
Abbreviation port := (EncodedSourcePort (K := K) (In := In) (C := C) (T := T) (Sys := Sys) (Cap := Cap)).
Abbreviation shown := (gmap ClientSurfaceId HoistSessionId).
Abbreviation SM := (Effects.M source).
Implicit Types (p : port) (s : source) (l : list command) (m : shown) (x : HoistSessionId).

(** ** The conversation *)
Definition record_step m (r : packet) : option shown :=
  match r with
  | Media _ => Some m
  | Control (x, MappedMessage sf) => if bool_decide (m !! sf = None) then Some (<[sf := x]> m) else None
  | Control (x, SurfaceMessage e) =>
      if bool_decide (m !! surface e = Some x) && negb (desktop e) then Some (if ends e then delete (surface e) m else m) else None
  | Control (x, CursorMessage u _) => if bool_decide (m !! updated_surface u = Some x) then Some m else None
  | Control (x, Withdraw sf) => if bool_decide (m !! sf = Some x) then Some (delete sf m) else None
  | Control (_, GamepadMessage _) => Some m
  | Control _ => None
  end.
Definition records_from (o : option shown) (rs : list packet) : option shown := foldl (fun o r => m ← o; record_step m r) o rs.
Definition records_run (rs : list packet) : option shown := records_from (Some ∅) rs.
Lemma records_run_app rs rs' : records_run (rs ++ rs') = records_from (records_run rs) rs'.
Proof. apply foldl_app. Qed.

(** ** The source's events *)
Definition speaks_of m x (e : Event) : Prop := m !! surface e = Some x /\ ordinary e.
Record Sess m s : Prop := {
  sess_pending : forall sf q, pending s !! sf = Some q -> Forall (fun r => speaks_of m (record r).1 (record r).2 /\ surface (record r).2 = sf) q;
  sess_flight : forall b, in_flight s = Some b -> cancelled b = false ->
    m !! surface (batch_event b) = Some (batch_session b) /\ ordinary (batch_event b) /\ surface (batch_event b) = batch_surface b;
}.
Definition ok_record m (r : packet) : Prop :=
  match r with
  | Media _ => True
  | Control (x, SurfaceMessage e) => m !! surface e = Some x /\ ordinary e
  | _ => False
  end.
Definition tells m s s' : Prop := Sess m s -> Sess m s' /\ exists rs, output s' = output s ++ rs /\ Forall (ok_record m) rs.
#[local] Instance tells_po m : PreOrder (tells m).
Proof.
  split.
  - intros s H. split; [done|]. exists []. by rewrite app_nil_r.
  - intros a b c H1 H2 Ha. destruct (H1 Ha) as [Hb (r1 & E1 & O1)]. destruct (H2 Hb) as [Hc (r2 & E2 & O2)]. split; [done|].
    exists (r1 ++ r2). rewrite E2, E1, app_assoc. split; [done|]. by apply list.Forall_app.
Qed.
Lemma tells_given m s s' : (Sess m s -> tells m s s') -> tells m s s'.
Proof. intros H1 H. exact (H1 H H). Qed.
Lemma tells_same m s s' : pending s' = pending s -> in_flight s' = in_flight s -> output s' = output s -> tells m s s'.
Proof.
  intros E1 E2 E3 [H1 H2]. split; [by constructor; rewrite ?E1, ?E2|]. exists []. by rewrite E3, app_nil_r.
Qed.
Lemma quiet_tells m {A} (c : SM A) : always quiet c -> always (tells m) c.
Proof. intros H s. destruct (H s) as [[] ? ?]. by apply tells_same. Qed.
Lemma apart_tells m s s' : apart s s' -> tells m s s'.
Proof. intros [[] []]. by apply tells_same. Qed.
Lemma send_tells m x (e : Event) : speaks_of m x e -> always (tells m) (send_without_buffer x e : SM unit).
Proof.
  intros [Hm [He1 He2]] s. unfold send_without_buffer, bind, lift. destruct (structural e) as [e'| |] eqn:Hs; [|done..].
  apply structural_kind in Hs as (E1 & E2 & E3). intros [H1 H2]. split; [by constructor|]. eexists. split; [done|].
  constructor; [|done]. cbn. rewrite E1. unfold ordinary. by rewrite E2, E3.
Qed.
Lemma queue_event_tells m x (e : Event) : speaks_of m x e -> always (tells m) (queue_event x e : SM unit).
Proof.
  intros He s H. assert (Hq : Forall (fun r => speaks_of m (record r).1 (record r).2 /\ surface (record r).2 = surface e) (queue_of s (surface e))).
  { unfold queue_of. destruct (pending s !! surface e) eqn:Hp; [by eapply sess_pending|constructor]. }
  assert (Hput : forall q, Forall (fun r => speaks_of m (record r).1 (record r).2 /\ surface (record r).2 = surface e) q ->
    forall o, Sess m (set_pending (<[surface e := q]> (pending s)) (if o : bool then set_pending_order (pending_order s ++ [surface e]) s else s))).
  { intros q Hf o. destruct H as [H1 H2]. constructor; [|by destruct o]. intros sf q' Hl.
    assert (Hl' : <[surface e := q]> (pending s) !! sf = Some q') by by destruct o. apply lookup_insert_Some in Hl' as [[<- <-]|[_ Hl']]; [done|by apply H1]. }
  unfold queue_event. destruct (try_push _ _ _ _) as [[q u]|] eqn:Hp; cbn.
  - split; [|exists []; rewrite app_nil_r; by case_bool_decide]. apply Hput. unfold try_push in Hp. destruct (_ && _); [done|].
    injection Hp as Hp. apply (f_equal fst) in Hp. cbn in Hp. subst q. apply insert_event_keeps; [done| |done].
    intros e' b Hs Hc. cbn. unfold speaks_of. rewrite Hs. split; [|done]. split; [apply He|by apply commit_ordinary].
  - split; [exact (Hput _ Hq false)|]. exists []. by rewrite app_nil_r.
Qed.
Lemma drop_tells m sf s : tells m s (set_pending (delete sf (pending s)) s).
Proof.
  intros [H1 H2]. split; [constructor; [|done]|exists []; by rewrite app_nil_r]. cbn. intros i q [_ Hi]%lookup_delete_Some. by apply H1.
Qed.
Lemma mark_tells m sf s : tells m s (mark_cancelled sf (unqueue sf s)).
Proof.
  transitivity (unqueue sf s); [etransitivity; [apply (drop_tells m sf)|by apply tells_same]|]. generalize (unqueue sf s). clear s. intros s [H1 H2].
  destruct (mark_keeps sf s) as (_ & _ & _ & Ho & [Hp _ _]). split; [|exists []; by rewrite app_nil_r].
  constructor; [by rewrite Hp|]. unfold mark_cancelled. destruct (in_flight s) as [b|] eqn:Hb; [|by rewrite Hb].
  case_bool_decide; cbn; [by intros ? [= <-]|]. by rewrite Hb.
Qed.
Lemma cancel_encode_tells m sf time : always (tells m) (cancel_encode sf time : SM unit).
Proof. apply always_bind; [apply _|intros s; apply mark_tells|intros _; apply quiet_tells, retire_surface_quiet]. Qed.
Lemma cancel_surface_tells m sf time : always (tells m) (cancel_surface sf time : SM unit).
Proof. apply always_bind; [apply _|intros s; by apply tells_same|intros _; apply cancel_encode_tells]. Qed.
(** A cancelled surface is gone. *)
Lemma cancel_surface_gone m sf time s s' : cancel_surface sf time s = (s', Ret tt) -> Sess m s -> Sess (delete sf m) s' /\ output s' = output s.
Proof.
  intros Hs H. pose proof (run_always _ _ _ _ _ (cancel_surface_tells m sf time) Hs H) as [[H1 H2] _]. unfold cancel_surface in Hs.
  apply run_bind in Hs as (s0 & u & [= <- _] & Hs). apply cancel_encode_clears in Hs as [[[Hp Hf] _] Ho]. split; [|done].
  constructor.
  - intros i q Hi. assert (Hne : sf <> i) by (intros ->; congruence). eapply list.Forall_impl; [by apply H1|]. intros r [[Hm Ho'] <-].
    split; [|done]. split; [|done]. by rewrite lookup_delete_ne.
  - intros b Hb Hc. destruct (H2 b Hb Hc) as (Hm & Ho' & He). split_and!; [|done..]. rewrite lookup_delete_ne; [done|].
    intros Heq. rewrite (Hf b Hb) in Hc; [done|]. by rewrite <- He, Heq.
Qed.
Lemma submit_or_send_tells m x (e : Event) time : speaks_of m x e -> always (tells m) (submit_or_send_at x e time : SM unit).
Proof.
  intros He. unfold submit_or_send_at, submit_batch. apply always_bind; [apply _|by apply always_id; [apply _|]|intros _].
  apply always_bind; [apply _|apply quiet_tells, prepare_streams_quiet|intros _].
  destruct (event_kind e) eqn:Hk; try by apply send_tells. case_bool_decide; [by apply send_tells|].
  apply always_bind; [apply _| |intros _ s; by apply tells_same]. apply always_bind; [apply _|by apply always_id; [apply _|]|intros cadence].
  apply always_bind; [apply _|apply quiet_tells, prepare_updates_quiet|]. intros [us [|first rest]]; [by apply always_id; [apply _|]|].
  apply always_bind; [apply _|apply quiet_tells, submit_prepared_quiet|]. intros job s [H1 H2]. split; [constructor; [done|]|exists []; by rewrite app_nil_r].
  cbn. intros b [= <-] _. cbn. split_and!; [apply He|done|done].
Qed.
Lemma complete_one_tells m time c : always (tells m) (complete_one time c : SM unit).
Proof.
  intros s. unfold complete_one. match goal with |- tells m s (bind _ ?k _).1 => set (finish := k) end.
  unfold bind, take_in_flight. destruct (in_flight s) as [b|] eqn:Hb; [|done]. intros H.
  pose proof (sess_flight _ _ H b Hb) as Hf. enough (Hk : always (tells m) (finish b)) by (destruct H; apply (Hk (set_in_flight None s)); by constructor).
  subst finish. clear s H Hb. cbn beta zeta. apply always_bind; [apply _|by apply always_id; [apply _|]|intros _].
  apply always_bind; [apply _|apply quiet_tells, apart_quiet, with_application_apart|intros _].
  destruct (cancelled b) eqn:Hc; [apply quiet_tells, retire_generation_quiet|]. destruct (Hf eq_refl) as (Hm & Ho & Hs).
  do 3 (apply always_bind; [apply _|by apply always_id; [apply _|]|intros ?]). destruct (batch_pending b) as [|next rest].
  - apply always_bind; [apply _|by apply always_id; [apply _|]|intros _]. intros s0 [H1 H2]. split; [by constructor|]. eexists. cbn. rewrite <- app_assoc.
    split; [done|]. apply list.Forall_app. split; [apply list.Forall_fmap, list.Forall_true; done|]. by constructor.
  - apply always_bind; [apply _|apply quiet_tells, submit_prepared_quiet|]. intros job s0 [H1 H2]. split; [constructor; [done|]|exists []; by rewrite app_nil_r].
    by intros b' [= <-].
Qed.
Lemma drain_tells m time : always (tells m) (drain time : SM unit).
Proof.
  apply always_bind; [apply _| |intros cs; apply always_for_each; [apply _..|intros c; apply complete_one_tells]].
  intros s. destruct (drain_completions _). by apply tells_same.
Qed.
Lemma pop_tells m sf r rest s : pending s !! sf = Some (r :: rest) -> tells m s (pop_surface sf rest s).
Proof.
  intros Hp H. assert (Hf : in_flight (pop_surface sf rest s) = in_flight s /\ output (pop_surface sf rest s) = output s) by (unfold pop_surface; by destruct rest).
  destruct Hf as [Hf Ho]. destruct H as [H1 H2]. split; [constructor; rewrite ?Hf; [|done]|exists []; by rewrite Ho, app_nil_r].
  intros i q Hq. unfold pop_surface in Hq. destruct rest as [|r' rest]; cbn in Hq; [apply lookup_delete_Some in Hq as [_ Hq]; by apply H1|].
  apply lookup_insert_Some in Hq as [[<- <-]|[_ Hq]]; [|by apply H1]. by apply H1, Forall_cons_1 in Hp as [_ ?].
Qed.
Lemma schedule_loop_tells m fuel time s s' o : schedule_loop fuel time s = Some (s', o) -> tells m s s'.
Proof.
  revert s. induction fuel as [|fuel IH]; intros s Hl; [done|]. cbn [schedule_loop] in Hl.
  destruct (Scheduling.select _ _ _ _ _ _) as [sched chosen]. transitivity (set_scheduler sched s); [by apply tells_same|].
  set (s1 := set_scheduler sched s) in *. destruct chosen as [sel|]; [|by injection Hl as <- _].
  destruct (pending s1 !! sel_surface sel) as [[|r rest]|] eqn:Hp; [etransitivity; [apply drop_tells|by eapply IH]| |by injection Hl as <- _].
  apply tells_given. intros H.
  assert (He : speaks_of m (record r).1 (record r).2) by (by apply (sess_pending _ _ H), Forall_cons_1 in Hp as [[? _] _]).
  etransitivity; [by eapply (pop_tells m)|].
  destruct (submit_or_send_at _ _ _ _) as [s2 r2] eqn:Hrun. etransitivity; [exact (run_always _ _ _ _ _ (submit_or_send_tells m _ _ time He) Hrun)|].
  destruct r2 as [[]| |]; [|by injection Hl as <- _..]. case_bool_decide; [injection Hl as <- _; by apply tells_same|by eapply IH].
Qed.
Lemma schedule_tells m time : always (tells m) (schedule time : SM unit).
Proof.
  intros s. unfold schedule. destruct (schedule_at time s) as [[s' o]|] eqn:Hs; [|done]. cbn. unfold schedule_at in Hs.
  destruct (admission_closed s); [by injection Hs as <- _|by eapply schedule_loop_tells].
Qed.
Lemma enqueue_tells m x (e : Event) time : speaks_of m x e -> always (tells m) (enqueue x e time : SM unit).
Proof.
  intros He. unfold enqueue. apply always_bind; [apply _|apply quiet_tells, apart_quiet, note_event_apart|intros _].
  destruct (is_full_unmap e).
  - intros s. apply tells_given. intros H. assert (Hq : Forall (fun r => speaks_of m r.1 r.2) (records (queue_of s (surface e)))).
    { unfold records, queue_of. apply list.Forall_fmap. destruct (pending s !! surface e) eqn:Hp; [|constructor].
      eapply list.Forall_impl; [by eapply sess_pending|]. by intros r [? _]. }
    unfold bind at 1, gets at 1. revert Hq. generalize (records (queue_of s (surface e))). intros rs Hq. clear H. revert s.
    lazymatch goal with |- forall s, tells m s (?c s).1 => change (always (tells m) c) end.
    apply always_bind; [apply _|intros s; apply drop_tells|intros _].
    apply always_bind; [apply _|apply cancel_encode_tells|intros _]. apply always_bind; [apply _|intros s; by apply tells_same|intros _].
    apply always_bind; [apply _| |intros _; by apply send_tells]. clear - Hq. induction Hq as [|r rs Hr _ IH]; [by apply always_id; [apply _|]|].
    apply always_bind; [apply _| |intros _; exact IH]. unfold send_control. destruct (is_commit r.2); [by apply always_id; [apply _|]|by apply send_tells].
  - apply always_bind; [apply _|by apply always_id; [apply _|]|intros busy].
    assert (Hq : forall b : bool, always (tells m) (if b then queue_event x e else send_without_buffer x e : SM unit)).
    { intros []; [by apply queue_event_tells|by apply send_tells]. }
    destruct (event_kind e); try apply Hq.
    + apply always_bind; [apply _|by apply always_id; [apply _|]|intros []; [by apply queue_event_tells|by apply submit_or_send_tells]].
    + apply always_bind; [apply _|apply cancel_surface_tells|intros _; by apply send_tells].
Qed.

(** ** The port's records *)
(** What was accepted, and what the source holds ready, leads to the surfaces shown. *)
Definition heard m (xs : list packet) s : Prop := Sess m s /\ records_run (xs ++ output s) = Some m.
Definition says m p : Prop := holds (heard m) p.
Lemma ok_records m rs : Forall (ok_record m) rs -> records_from (Some m) rs = Some m.
Proof.
  induction 1 as [|r rs Hr _ IH]; [done|]. unfold records_from in *. cbn. replace (record_step m r) with (Some m); [exact IH|].
  destruct r as [[x []]|]; try done. destruct Hr as (Hm & He & Hd). cbn. by rewrite bool_decide_eq_true_2, He, Hd.
Qed.
Lemma tells_follows m s s' : tells m s s' -> follows (heard m) s s'.
Proof.
  intros Ht xs [H Hr]. destruct (Ht H) as [H' (rs & Ho & Hrs)]. split; [done|]. rewrite Ho, app_assoc, records_run_app, Hr. by apply ok_records.
Qed.
Lemma heard_keeps m : source_keeps (heard m).
Proof.
  constructor.
  - intros xs s s' Ha. by apply tells_follows, apart_tells.
  - intros xs s r. by apply tells_follows, tells_same.
  - intros xs s [[H1 H2] Hr]. split; [by constructor|]. cbn. by rewrite app_nil_r.
  - intros xs s s' time Hs. exact (tells_follows m _ _ (run_always _ _ _ _ _ (drain_tells m time) Hs) xs).
  - intros xs s s' time Hs. exact (tells_follows m _ _ (run_always _ _ _ _ _ (schedule_tells m time) Hs) xs).
Qed.
Lemma inner_says m p p' : inner (tells m) p p' -> says m p -> says m p'.
Proof. intros H. apply inner_holds. eapply inner_weaken; [apply tells_follows|done]. Qed.
Lemma inner_apart_says m p p' : inner apart p p' -> says m p -> says m p'.
Proof. apply inner_apart_holds, heard_keeps. Qed.
Lemma progress_says m p p' : progress p = (p', Ret tt) -> says m p -> says m p'.
Proof. apply progress_holds, heard_keeps. Qed.
(** A record of the port's own, while the source holds nothing ready. *)
Lemma say_says m m' r p p' : calm p -> push r p = (p', Ret tt) -> record_step m r = Some m' -> (forall s, Sess m s -> Sess m' s) -> says m p -> says m' p'.
Proof.
  intros (s & Hs & Ho) (q & _ & ->)%push_run Hr Hss (s0 & Hs0 & H & Hrun). rewrite Hs in Hs0. injection Hs0 as <-. exists s. split; [done|]. split; [by apply Hss|].
  rewrite Ho, app_nil_r in *. cbn. by rewrite records_run_app, Hrun.
Qed.
Lemma sess_mono m m' s : m ⊆ m' -> Sess m s -> Sess m' s.
Proof.
  intros Hm [H1 H2]. constructor.
  - intros sf q Hq. eapply list.Forall_impl; [by apply H1|]. intros r [[Hr Ho] Hs]. split; [|done]. split; [by eapply lookup_weaken|done].
  - intros b Hb Hc. destruct (H2 b Hb Hc) as (Hr & Ho). split; [by eapply lookup_weaken|done].
Qed.
(** A withdrawal, and the destruction of a surface. *)
Lemma withdraw_says m x sf time p p1 p2 p' : calm p -> push (Control (x, Withdraw sf)) p = (p1, Ret tt) -> m !! sf = Some x ->
  inner apart p1 p2 -> on_state (cancel_surface sf time) p2 = (p', Ret tt) -> says m p -> says (delete sf m) p'.
Proof.
  intros (s & Hs & Ho) (q & _ & ->)%push_run Hm [_ _ Hi1 Hi2] (s2 & s' & Hs2 & Hrun & ->)%on_state_run (s0 & Hs0 & H & Hr).
  rewrite Hs in Hs0. injection Hs0 as <-. cbn in Hi1, Hi2. rewrite Hs, Hs2 in Hi2. inversion Hi2 as [? ? Ha|]; subst.
  destruct (apart_tells m _ _ Ha H) as [H2 _]. assert (Ho2 : output s2 = []) by (destruct Ha as [[] _]; congruence).
  destruct (cancel_surface_gone _ _ _ _ _ Hrun H2) as [H3 Ho3]. exists s'. split; [done|]. split; [done|].
  cbn. rewrite Hi1, Ho3, Ho2, app_nil_r, records_run_app. rewrite Ho, app_nil_r in Hr. rewrite Hr. cbn. by rewrite bool_decide_eq_true_2.
Qed.
Lemma destroy_says m x (e : Event) time p p' : ends e = true -> on_state (enqueue x e time) p = (p', Ret tt) -> m !! surface e = Some x ->
  says m p -> says (delete (surface e) m) p'.
Proof.
  intros He (s & s' & Hs & Hrun & ->)%on_state_run Hm (s0 & Hs0 & H & Hr). rewrite Hs in Hs0. injection Hs0 as <-.
  assert (Hk : event_kind e = Destroyed) by (unfold ends in He; by destruct (event_kind e)).
  unfold enqueue in Hrun. apply run_bind in Hrun as (s1 & [] & H1 & Hrun). apply (run_always _ _ _ _ _ (note_event_apart _ _ _)) in H1.
  destruct (apart_tells m _ _ H1 H) as [Hs1 _]. assert (Ho1 : output s1 = output s) by (destruct H1 as [[] _]; done).
  unfold is_full_unmap in Hrun. rewrite Hk in Hrun. apply run_bind in Hrun as (s2 & b & [-> _]%run_gets & Hrun).
  apply run_bind in Hrun as (s2 & [] & H2 & Hrun). destruct (cancel_surface_gone _ _ _ _ _ H2 Hs1) as [Hs2 Ho2].
  unfold send_without_buffer in Hrun. apply run_bind in Hrun as (s3 & e' & [-> Hst]%run_lift & [= <-]).
  apply structural_kind in Hst as (E1 & E2 & E3). eexists. split; [done|]. split; [destruct Hs2; by constructor|].
  cbn. rewrite Ho2, Ho1, app_assoc, records_run_app, Hr. unfold records_from. cbn. rewrite E1, E2, E3, He, bool_decide_eq_true_2 by done.
  unfold desktop. by rewrite Hk.
Qed.
Lemma submit_says U m m' c p p' : protocol_step U m c = Some m' -> submit c p = (p', Ret tt) -> calm p -> says m p -> says m' p'.
Proof.
  intros Hc Hp Hcalm H. unfold submit in Hp. apply run_bind in Hp as (p0 & [] & H0 & Hp).
  pose proof (within_refresh _ _ _ H0) as Hi. pose proof (inner_apart_says m _ _ Hi H) as Hs0.
  pose proof (inner_calm _ _ Hi Hcalm) as Hcalm0.
  clear H0 Hi Hcalm H. destruct c as [status| |x sf|x e|x sf cu n|x sf|b]; cbn in Hc.
  - injection Hc as <-. apply run_bind in Hp as (p1 & [] & H1 & Hp). eapply progress_says; [exact Hp|]. by eapply say_says.
  - injection Hc as <-. eapply inner_apart_says; [|exact Hs0]. by eapply clear_focus_within.
  - case_bool_decide as Hm; [|done]. destruct Hm as [Hm _]. injection Hc as <-.
    apply run_bind in Hp as (p1 & [] & H1 & Hp). apply run_bind in Hp as (p2 & [] & H2 & Hp).
    eapply progress_says; [exact Hp|]. assert (Hi : inner apart p0 p1).
    { eapply (within_if_state apart); [|exact H1]. apply apart_run. intros s. by repeat split. }
    pose proof (inner_calm _ _ Hi Hcalm0) as Hcalm1.
    eapply say_says; [exact Hcalm1|exact H2| | |by eapply inner_apart_says].
    + cbn. by rewrite bool_decide_eq_true_2.
    + intros s. apply sess_mono. by apply insert_subseteq.
  - case_bool_decide as Hm; [|done]. apply run_bind in Hp as (p1 & [] & H1 & Hp). apply run_bind in Hp as (p2 & time & H2 & Hp).
    apply run_bind in Hp as (p3 & [] & H3 & Hp). eapply progress_says; [exact Hp|].
    assert (Hs2 : says m p2).
    { eapply inner_apart_says; [|exact Hs0]. etrans; [by eapply (within_audio_follows apart)|by eapply (within_now apart)]. }
    destruct (ends e) eqn:He.
    + replace m' with (delete (surface e) m); [by eapply destroy_says|]. unfold ends in He. destruct (event_kind e); try done. congruence.
    + assert (Hd : ordinary e /\ m' = m).
      { unfold ordinary, desktop, ends in *. destruct (event_kind e) as [[]| | | | |]; try done; split; congruence || done. }
      destruct Hd as [Hd ->]. eapply inner_says; [|exact Hs2]. eapply within_state; [|exact H3]. intros s s' [] Hrun.
      refine (run_always _ _ _ _ _ (enqueue_tells m x e time _) Hrun). by split.
  - case_bool_decide as Hm; [|done]. injection Hc as <-. apply run_bind in Hp as (p1 & [] & H1 & Hp). eapply progress_says; [exact Hp|].
    eapply say_says; [done|exact H1| |done|done]. cbn. by rewrite bool_decide_eq_true_2.
  - case_bool_decide as Hm; [|done]. injection Hc as <-. apply run_bind in Hp as (p1 & [] & H1 & Hp). apply run_bind in Hp as (p2 & [] & H2 & Hp).
    apply run_bind in Hp as (p3 & time & H3 & Hp). apply run_bind in Hp as (p4 & [] & H4 & Hp). eapply progress_says; [exact Hp|].
    pose proof (within_remove_audio apart _ _ _ _ H1) as Hi1.
    pose proof (inner_calm _ _ Hi1 Hcalm0) as Hcalm1.
    eapply withdraw_says; [exact Hcalm1|exact H2|done| |exact H4|by eapply inner_apart_says]. by eapply (within_now apart).
  - injection Hc as <-. by injection Hp as <-.
Qed.
Lemma act_says U l a m p p' : run_act a p = (p', Ret tt) -> live l p -> (forall m0, protocol_run U l = Some m0 -> says m0 p) ->
  protocol_run U (l ++ submitted_by a) = Some m -> says m p'.
Proof.
  intros Hp Hl H Hm. assert (Hq : submitted_by a = [] -> says m p').
  { intros Ha. eapply act_holds; [apply heard_keeps|exact Ha|exact Hp|]. apply H. by rewrite Ha, app_nil_r in Hm. }
  destruct a as [c|e| | |sf claim| |x]; try by apply Hq. cbn [submitted_by] in Hm. rewrite protocol_run_snoc in Hm.
  destruct (protocol_run U l) as [m0|]; [|done]. eapply submit_says; [exact Hm|exact Hp|apply Hl|by apply H].
Qed.
Lemma life_says U l p m : port_life l p -> protocol_run U l = Some m -> says m p.
Proof.
  intros (r & b & li & f & c & h & t & k & Ht & H). revert m.
  refine (proj2 (rtc_ind_r (fun y => live y.1 y.2 /\ forall m, protocol_run U y.1 = Some m -> says m y.2) _ _ _ _ H)).
  - split; [by apply start_live|]. intros m [= <-]. eexists. split; [done|]. split; [by constructor|done].
  - intros y z _ Hyz [Hl Hy]. destruct Hyz as [l' p1 p2 a Ha Hp|l' p1 p2 Ho].
    + split; [by eapply act_keeps|]. intros m. by eapply act_says.
    + split; [by eapply outside_live|]. intros m Hm. eapply inner_apart_says; [by apply outside_inner|by apply Hy].
Qed.
Lemma records_controls o rs : records_from o (channel false rs) = records_from o rs.
Proof.
  revert o. unfold records_from, channel. induction rs as [|r rs IH]; intros o; [done|]. rewrite filter_cons. cbn. destruct r as [c|md]; cbn.
  - rewrite decide_True by done. cbn. apply IH.
  - rewrite decide_False by done. rewrite IH. by destruct o.
Qed.
Lemma records_prefix rs rs' m : rs `prefix_of` rs' -> records_run rs' = Some m -> is_Some (records_run rs).
Proof.
  intros [k ->]. rewrite records_run_app. destruct (records_run rs) as [m0|]; [by eexists|]. unfold records_from. by induction k.
Qed.

(** C8 (source-says). A port keeps the conversation its relay has with it. When the commands
    are the relay's protocol, so are the records the transport took: each surface is mapped
    once until it ends; its roles, labels, commits and cursors come after its mapping and
    before its end, under its session, whatever waited, was merged, was being encoded or was
    cancelled in between. And once all that was accepted is sent, the peer has exactly the
    surfaces the relay has mapped. *)
Theorem source_says U l p m (H : port_life l p) (Hm : protocol_run U l = Some m) :
  records_run (SourcePort.published p) = Some m /\
  (exists m', records_run (told (taken (transport p))) = Some m') /\
  (is_empty (port_output p) = true -> records_run (told (taken (transport p))) = Some m).
Proof.
  pose proof (life_says _ _ _ _ H Hm) as (s & Hs & _ & Hr). apply life_live in H as [[[_ Hw _] _ _ _] (s0 & Hs0 & Ho)].
  rewrite Hs in Hs0. injection Hs0 as <-. rewrite Ho, app_nil_r in Hr. specialize (Hw false). cbn in Hw.
  assert (Hc : forall rs, records_run (channel false rs) = records_run rs) by (intros; apply records_controls).
  split_and!; [done| |].
  - rewrite <- Hc. eapply records_prefix; [|rewrite <- Hc in Hr; exact Hr]. rewrite Hw. by apply prefix_app_r.
  - unfold is_empty. destruct (Output.control _) eqn:Hq; [|done]. intros _. rewrite <- Hc, <- Hr, <- (Hc (SourcePort.published p)), Hw.
    by rewrite app_nil_r.
Qed.
End SourceSays.

Lemma source_says_witness :
  records_run (SourcePort.published (port_after sample_acts)) = Some {[ClientSurfaceId_for_test 1 := sample_session]} /\
  records_run (SourcePort.published (port_after sample_ended)) = Some ∅ /\
  exists m', records_run (told (taken (transport (port_after sample_ended)))) = Some m'.
Proof.
  split; [vm_compute; reflexivity|].
  destruct (source_says (ClientSurfaceId_source (ClientSurfaceId_for_test 1)) _ _ ∅ sample_life) as (H1 & H2 & _); [vm_compute; reflexivity|].
  by split.
Defined.
