(* ===== verification/SourceAdmissible.v ===== *)
(** * What a source publishes, a destination can take

    The events of an encoded source keep the rules an encoded destination relies on
    ([admissible]): a commit names a layer once and only new frames, the frames of a
    generation all belong to one layer of one surface, and a generation is not named again
    after an event that ended it. *)

From S2P Require Import Prelude.
From S2P Require Import Effects.
From S2P Require Import OrdMap.
From S2P Require Import Ids.
From S2P Require Import Surface.
From S2P Require Import Input.
From S2P Require Import Commit.
From S2P Require Import Destination.
From S2P Require Import DestinationFrames.
From S2P Require Import Bitrate.
From S2P Require Import Activity.
From S2P Require Import Allocation.
From S2P Require Import Budget.
From S2P Require Import Scheduling.
From S2P Require Import Pacing.
From S2P Require Import Framing.
From S2P Require Import PendingEvents.
From S2P Require Import Output.
From S2P Require Import Packets.
From S2P Require Import SourceState.
From S2P Require Import SourceFrames.
From S2P Require Import SourceQueues.

(** ** Events as they are encoded *)
(** The checks [Destination.enqueue] makes of an event before it takes it. *)
Definition acceptable (a : arrival) : Prop :=
  match a with
  | Arrived _ e => declares_opaque e = true /\ (length (encoded_frames e) <= MAX_REPLACEMENTS)%nat
  | Withdrawn _ => True
  end.
(** An update and what became of it: the layer and the kind of change are the same. *)
Inductive encoded_update : SurfaceBufferUpdate ClientBufferLease -> SurfaceBufferUpdate EncodedBuffer -> Prop :=
  | encoded_retained ly m : encoded_update (MkSurfaceBufferUpdate ly (Retained m)) (MkSurfaceBufferUpdate ly (Retained m))
  | encoded_removed ly : encoded_update (MkSurfaceBufferUpdate ly Removed) (MkSurfaceBufferUpdate ly Removed)
  | encoded_replaced ly m b f : encoded_update (MkSurfaceBufferUpdate ly (Replaced m b)) (MkSurfaceBufferUpdate ly (Replaced m f)).
Lemma encoded_layers us vs : Forall2 encoded_update us vs -> layer <$> vs = layer <$> us.
Proof. induction 1 as [|u v us vs Hu _ IH]; [done|]. cbn. rewrite IH. by destruct Hu. Qed.
Lemma update_names_in sf us p f : (p, f) ∈ update_names sf us <->
  exists m b, MkSurfaceBufferUpdate p.2 (Replaced m b) ∈ us /\ p.1 = sf /\ buffer_frame b = f.
Proof.
  unfold update_names. rewrite list_elem_of_omap. split.
  - intros ([ly ch] & Hu & Hp). destruct ch as [|m b|]; try done. injection Hp as <- <-. by exists m, b.
  - intros (m & b & Hu & Hs & Hf). eexists. split; [exact Hu|]. cbn. rewrite Hf, <- Hs. by destruct p.
Qed.
(** As many frames as buffers were replaced. *)
Lemma encoded_count (e : Event) c vs : event_kind e = Commit c -> Forall2 encoded_update (buffers c) vs ->
  length (update_frames vs) = replaced_buffer_count e.
Proof.
  intros Hk H. unfold replaced_buffer_count, replaced_buffers. rewrite Hk. induction H as [|u v us vs Hu _ IH]; [done|].
  destruct Hu; cbn; [exact IH|exact IH|by rewrite <- IH].
Qed.
(** A layer the commit does not go on with is either not named or has a new generation. *)
Lemma stops_layer c c' l g : Forall2 encoded_update (buffers c) (buffers c') -> goes_on c' l g = false ->
  names_layer c l = false \/ exists m b, MkSurfaceBufferUpdate l (Replaced m b) ∈ buffers c' /\ generation_of (buffer_frame b) <> g.
Proof.
  unfold goes_on, names_layer. induction 1 as [|u v us vs Hu _ IH]; cbn; [by left|].
  intros [Hv Hvs]%orb_false_iff. destruct (IH Hvs) as [IH'|(m & b & Hb & Hg)]; [|right; exists m, b; split; [by right|done]].
  destruct Hu as [ly m|ly|ly m b b']; cbn in *.
  - left. by rewrite Hv, IH'.
  - left. by rewrite andb_false_r.
  - destruct (bool_decide (ly = l)) eqn:Hl; cbn in *; [|by left]. right. apply bool_decide_eq_true in Hl as ->. exists m, b'.
    split; [left|]. by apply bool_decide_eq_false in Hv.
Qed.
Lemma structural_updates (e : Event) e' c : structural e = Ret e' -> event_kind e = Commit c ->
  exists c', event_kind e' = Commit c' /\ Forall2 encoded_update (buffers c) (buffers c').
Proof.
  unfold structural. intros H Hk. apply bind_Ret_inv in H as (x & Hx & [= <-]). unfold try_from_client, convert_event in Hx. rewrite Hk in Hx.
  apply bind_Ret_inv in Hx as (k & Hc & [= <-]). apply bind_Ret_inv in Hc as (c' & Hc & [= <-]). cbn. eexists. split; [done|].
  unfold convert_commit in Hc. apply bind_Ret_inv in Hc as (bs & Hb & [= <-]). cbn. apply traverse_Ret_inv in Hb.
  eapply list.Forall2_impl; [exact Hb|]. intros [ly ch] v Hv. unfold convert_update in Hv. cbn in Hv. apply bind_Ret_inv in Hv as (ch' & Hch & [= <-]).
  destruct ch; cbn in Hch; try done; injection Hch as <-; constructor.
Qed.

Section SourceAdmissible.
Context {K In Cu Au : Type} {codec : EncodeBackend K In}.
Context {pending_visit : HashOrder ClientSurfaceId (PendingClientEvents HoistSessionId ClientBufferLease)}.
Context {stream_visit : HashOrder (ClientSurfaceId * SurfaceLayerId) SourceStream}.
Abbreviation state := (EncodedSourceState K In Cu Au).
Abbreviation M := (M (EncodedSourceState K In Cu Au)).
Abbreviation batch := (InFlightEncodeBatch In).
Abbreviation packet := (SourceTransportPacket (HoistSessionId * SourceMessage Cu Au) (MediaEnvelope EncodedAccessUnit)).
#[local] Arguments above : simpl never.
#[local] Arguments checked_add : simpl never.
Implicit Types (s : state) (l : list arrival) (b : batch) (p : place) (f : MediaFrameId).

(** ** Arrivals *)
Definition arrivals (xs : list packet) : list arrival :=
  omap (fun x => match x with
                 | Control (session, SurfaceMessage e) => Some (Arrived session e)
                 | Control (_, Withdraw sf) => Some (Withdrawn sf)
                 | _ => None
                 end) xs.
Lemma arrivals_app xs ys : arrivals (xs ++ ys) = arrivals xs ++ arrivals ys.
Proof. apply omap_app. Qed.
Definition spent_frame f s : Prop := spent (frame_stream f) (frame_generation f) s.
Definition stops l (a : arrival) s : Prop := forall p f, (p, f) ∈ named l -> DestinationFrames.ends a p (generation_of f) -> spent_frame f s.
Definition placed (a : arrival) s : Prop := forall p f, (p, f) ∈ names a -> exists x, streams s !! p = Some x /\ key_of x = generation_of f.
(** What of [admissible] is not about the frames being new. *)
Record allowed l (a : arrival) : Prop := {
  allowed_layers : NoDup (commit_layers a);
  allowed_open : forall p f, (p, f) ∈ names a -> ~ ended l (generation_of f);
  allowed_owner : forall p f p' f', (p, f) ∈ names a -> (p', f') ∈ named l ++ names a -> generation_of f' = generation_of f -> p' = p;
  allowed_accepted : acceptable a;
}.
Definition allowed_all l : Prop := forall before a after, l = before ++ a :: after -> allowed before a.
(** The batch may still be published. *)
Record ready l b s : Prop := {
  ready_surface : surface (batch_event b) = batch_surface b;
  ready_layers : NoDup (commit_layers (Arrived (batch_session b) (batch_event b)));
  ready_placed : placed (Arrived (batch_session b) (batch_event b)) s;
  ready_stops : stops l (Arrived (batch_session b) (batch_event b)) s;
  ready_accept : acceptable (Arrived (batch_session b) (batch_event b));
}.
(** A destruction never waits. *)
Definition waiting_ok (sf : ClientSurfaceId) (r : PendingEvent HoistSessionId ClientBufferLease) : Prop :=
  queued_ok sf r /\ event_kind (record r).2 <> Destroyed.
Record Line_ok l s : Prop := {
  line_counter : counter_ok (next_stream s);
  line_known : forall key x, streams s !! key = Some x -> MediaStreamId_raw (stream x) < above (next_stream s);
  line_unique : forall i j x y, streams s !! i = Some x -> streams s !! j = Some y -> stream x = stream y -> i = j;
  line_owner : forall p f, (p, f) ∈ named l -> MediaStreamId_raw (frame_stream f) < above (next_stream s) /\
    forall key x, streams s !! key = Some x -> stream x = frame_stream f ->
      key = p /\ StreamGeneration_raw (frame_generation f) <= StreamGeneration_raw (generation x);
  line_ended : forall p f, (p, f) ∈ named l -> ended l (generation_of f) -> spent_frame f s;
  line_flight : forall b, in_flight s = Some b -> cancelled b = false -> ready l b s;
  line_allowed : allowed_all l;
  line_pending : forall sf q, pending s !! sf = Some q -> Forall (waiting_ok sf) q;
}.

Lemma absent_spent l s p f : Line_ok l s -> (p, f) ∈ named l -> streams s !! p = None -> spent_frame f s.
Proof.
  intros H Hf Hp. destruct (line_owner _ _ H p f Hf) as [Hn Ho]. split; [done|]. intros key x Hx Hs. destruct (Ho key x Hx Hs) as [-> _]. congruence.
Qed.
Lemma ended_cases l a g : ended (l ++ [a]) g -> ended l g \/ exists p f, (p, f) ∈ named l /\ generation_of f = g /\ DestinationFrames.ends a p g.
Proof.
  intros (before & c & after & p & f & Hl & Hf & Hg & He). destruct (snoc_split _ _ _ _ _ Hl) as [(b' & -> & ->)|(-> & <- & <-)].
  - left. by exists before, c, b', p, f.
  - right. by exists p, f.
Qed.
Lemma spent_placed f g s p x : spent_frame f s -> streams s !! p = Some x -> key_of x = generation_of g -> generation_of f = generation_of g -> False.
Proof. intros Hs Hx Hk Hg. apply (spent_not_live _ _ _ _ _ Hs Hx). unfold generation_of in *. congruence. Qed.
(** An arrival is published: its frames are of live generations, and what it ends is spent. *)
Lemma publish_line l a s : Line_ok l s -> NoDup (commit_layers a) -> placed a s -> stops l a s -> acceptable a ->
  (names a = [] \/ forall b, in_flight s = Some b -> cancelled b = true) -> Line_ok (l ++ [a]) s.
Proof.
  intros H Hnd Hp Hst Hacc Hfl.
  assert (Hopen : forall p f, (p, f) ∈ names a -> ~ ended l (generation_of f)).
  { intros p f Hf He. destruct (Hp p f Hf) as (x & Hx & Hk). assert (exists p' f', (p', f') ∈ named l /\ generation_of f' = generation_of f) as (p' & f' & Hf' & Hg).
    { destruct He as (before & c & after & p' & f' & -> & Hf' & Hg & _). exists p', f'. split; [|done]. unfold named. rewrite list.bind_app. set_solver. }
    rewrite <- Hg in He. by apply (spent_placed f' f s p x (line_ended _ _ H _ _ Hf' He) Hx). }
  assert (Hown : forall p f p' f', (p, f) ∈ names a -> (p', f') ∈ named l ++ names a -> generation_of f' = generation_of f -> p' = p).
  { intros p f p' f' Hf Hf' Hg. destruct (Hp p f Hf) as (x & Hx & Hk). apply elem_of_app in Hf' as [Hf'|Hf'].
    - destruct (line_owner _ _ H _ _ Hf') as [_ Ho]. destruct (Ho p x Hx) as [-> _]; [|done]. unfold generation_of, key_of in *. congruence.
    - destruct (Hp p' f' Hf') as (y & Hy & Hk'). apply (line_unique _ _ H p' p y x Hy Hx). unfold generation_of, key_of in *. congruence. }
  assert (Hnew : forall p f, (p, f) ∈ named (l ++ [a]) -> (p, f) ∈ named l \/ (p, f) ∈ names a) by (intros p f; rewrite named_snoc; apply elem_of_app).
  constructor; try apply H.
  - intros p f [Hf|Hf]%Hnew; [by apply H|]. destruct (Hp p f Hf) as (x & Hx & Hk). unfold generation_of, key_of in Hk. injection Hk as Hk1 Hk2.
    split; [rewrite <- Hk1; by eapply line_known|]. intros key y Hy Hs. assert (key = p) as -> by (eapply (line_unique _ _ H); [done..|congruence]).
    split; [done|]. assert (y = x) as -> by congruence. rewrite Hk2. lia.
  - intros p f Hf He. apply ended_cases in He as [He|(p' & f' & Hf' & Hg & He)].
    + apply Hnew in Hf as [Hf|Hf]; [by eapply (line_ended _ _ H)|]. by destruct (Hopen p f Hf).
    + rewrite <- Hg in He. pose proof (Hst p' f' Hf' He) as Hs. unfold spent_frame, generation_of in *. by injection Hg as <- <-.
  - intros b Hb Hc. destruct Hfl as [Hn|Hfl]; [|by rewrite (Hfl b Hb) in Hc]. destruct (line_flight _ _ H b Hb Hc) as [R1 R2 R3 R4 R5].
    constructor; [done..| |done]. unfold stops. by rewrite named_snoc, Hn, app_nil_r.
  - intros before c after Hl. destruct (snoc_split _ _ _ _ _ Hl) as [(b' & -> & ->)|(-> & <- & <-)]; [by eapply (line_allowed _ _ H)|].
    by constructor.
Qed.
(** ** What keeps it *)
Lemma stops_mono l a s s' : (forall f, spent_frame f s -> spent_frame f s') -> stops l a s -> stops l a s'.
Proof. intros H Hs p f Hf He. by eapply H, Hs. Qed.
Lemma pending_line l s s' : streams s' = streams s -> next_stream s' = next_stream s -> in_flight s' = in_flight s ->
  (forall sf q, pending s' !! sf = Some q -> Forall (waiting_ok sf) q) -> Line_ok l s -> Line_ok l s'.
Proof.
  intros E1 E2 E3 E4 H. assert (Hs : forall f, spent_frame f s -> spent_frame f s') by (intros f; unfold spent_frame, spent; by rewrite E1, E2).
  destruct H as [H1 H2 H3 H4 H5 H6 H7 H8]. constructor; rewrite ?E1, ?E2, ?E3; try done.
  - intros p f Hf He. by apply Hs, (H5 p).
  - intros b Hb Hc. destruct (H6 b Hb Hc) as [R1 R2 R3 R4 R5]. constructor; [done..| |by eapply stops_mono|done]. intros p f Hf. rewrite E1. by apply R3.
Qed.
Lemma same_line l s s' : streams s' = streams s -> next_stream s' = next_stream s -> in_flight s' = in_flight s -> pending s' = pending s ->
  Line_ok l s -> Line_ok l s'.
Proof. intros E1 E2 E3 E4 H. apply (pending_line l s); [done..| |done]. rewrite E4. apply H. Qed.
Lemma drop_line l (gone : ClientSurfaceId * SurfaceLayerId -> bool) s s' : streams s' = filter (fun e => gone e.1 = false) (streams s) -> next_stream s' = next_stream s ->
  (forall b, in_flight s' = Some b -> cancelled b = false -> in_flight s = Some b /\ forall ly, gone (batch_surface b, ly) = false) ->
  (forall sf q, pending s' !! sf = Some q -> Forall (waiting_ok sf) q) -> Line_ok l s -> Line_ok l s'.
Proof.
  intros E1 E2 E3 E4 H. assert (Hin : forall key x, streams s' !! key = Some x <-> streams s !! key = Some x /\ gone key = false).
  { intros key x. rewrite E1. apply map_lookup_filter_Some. }
  assert (Hs : forall f, spent_frame f s -> spent_frame f s').
  { intros f [S1 S2]. split; [by rewrite E2|]. intros key x [Hx _]%Hin. by eapply S2. }
  destruct H as [H1 H2 H3 H4 H5 H6 H7 H8]. constructor; rewrite ?E2; try done.
  - intros key x [Hx _]%Hin. by eapply H2.
  - intros i j x y [Hx _]%Hin [Hy _]%Hin. by eapply H3.
  - intros p f Hf. destruct (H4 p f Hf) as [Hn Ho]. split; [done|]. intros key x [Hx _]%Hin. by eapply Ho.
  - intros p f Hf He. by apply Hs, (H5 p).
  - intros b Hb Hc. destruct (E3 b Hb Hc) as [Hb' Hg]. destruct (H6 b Hb' Hc) as [R1 R2 R3 R4 R5]. constructor; [done..| |by eapply stops_mono|done].
    intros p f Hf. destruct (R3 p f Hf) as (x & Hx & Hk). exists x. split; [|done]. apply Hin. split; [done|]. destruct p as [sf ly].
    assert (sf = batch_surface b) as ->; [|done]. rewrite <- R1. clear - Hf. cbn in Hf. destruct (event_kind _); try by apply not_elem_of_nil in Hf.
    by apply update_names_in in Hf as (m & b' & _ & Hs & _).
Qed.
Lemma put_line l key y s s' : in_flight s = None -> in_flight s' = None -> pending s' = pending s -> streams s' = <[key := y]> (streams s) ->
  counter_ok (next_stream s') -> above (next_stream s) <= above (next_stream s') -> successor (streams s !! key) y s s' -> Line_ok l s -> Line_ok l s'.
Proof.
  intros Ei Ei' Eq E1 Hc Ha Hsu [H1 H2 H3 H4 H5 H6 H7 H8].
  assert (Hin : forall j x, streams s' !! j = Some x <-> j = key /\ x = y \/ j <> key /\ streams s !! j = Some x).
  { intros j x. rewrite E1, lookup_insert_Some. naive_solver. }
  assert (Hoth : forall j x, j <> key -> streams s !! j = Some x -> stream x <> stream y).
  { intros j x Hj Hx He. destruct (streams s !! key) as [z|] eqn:Hz; cbn in Hsu.
    - apply Hj. eapply H3; [done..|]. destruct Hsu. congruence.
    - pose proof (H2 j x Hx). rewrite He in *. lia. }
  assert (Hy : MediaStreamId_raw (stream y) < above (next_stream s')).
  { destruct (streams s !! key) as [z|] eqn:Hz; cbn in Hsu; [|lia]. pose proof (H2 key z Hz). destruct Hsu as [-> _]. lia. }
  assert (Hs : forall f, spent_frame f s -> spent_frame f s').
  { intros f [S1 S2]. split; [lia|]. intros j x [[-> ->]|[Hj Hx]]%Hin Hst; [|by eapply S2]. destruct (streams s !! key) as [z|] eqn:Hz; cbn in Hsu.
    - destruct Hsu as [Hsz Hg]. rewrite Hsz in Hst. specialize (S2 key z Hz Hst). lia.
    - rewrite Hst in Hsu. lia. }
  constructor; rewrite ?Ei', ?Eq; try done.
  - intros j x [[-> ->]|[_ Hx]]%Hin; [done|]. pose proof (H2 j x Hx). lia.
  - intros i j x z [[-> ->]|[Hi Hx]]%Hin [[-> ->]|[Hj Hz]]%Hin He; [done|by destruct (Hoth j z)|by destruct (Hoth i x)|by eapply H3].
  - intros p f Hf. destruct (H4 p f Hf) as [Hn Ho]. split; [lia|]. intros j x [[-> ->]|[Hj Hx]]%Hin Hst; [|by eapply Ho].
    destruct (streams s !! key) as [z|] eqn:Hz; cbn in Hsu; [|rewrite Hst in Hsu; lia]. destruct Hsu as [Hsz Hg]. rewrite Hsz in Hst.
    destruct (Ho key z Hz Hst) as [-> Hg']. split; [done|lia].
  - intros p f Hf He. by apply Hs, (H5 p).
Qed.
(** The batch is put under way. *)
Lemma start_line l b s : ready l b s -> Line_ok l s -> Line_ok l (set_in_flight (Some b) s).
Proof.
  intros Hr [H1 H2 H3 H4 H5 H6 H7 H8]. constructor; try done. intros b' [= <-] _. destruct Hr. by constructor.
Qed.
Lemma stop_line l s : Line_ok l s -> Line_ok l (set_in_flight None s).
Proof. intros [H1 H2 H3 H4 H5 H6 H7 H8]. by constructor. Qed.

(** ** Computations *)
Definition kept l s s' : Prop := Line_ok l s -> Line_ok l s'.
#[local] Instance kept_po l : PreOrder (kept l).
Proof. split; [by intros s H|]. intros a b c H1 H2 H. by apply H2, H1. Qed.
Lemma apart_kept l {A} (m : M A) : always apart m -> always (kept l) m.
Proof. intros H s. destruct (H s) as [[] []]. intros Hl. by apply (same_line l s). Qed.
Lemma retire_generation_kept l st g : always (kept l) (retire_generation st g).
Proof. intros s. unfold retire_generation. destruct (defers_retirement _ _ _); [by intros H|]. destruct (retire _ _ _). intros H. by apply (same_line l s). Qed.
Lemma retire_streams_kept l xs : always (kept l) (retire_streams xs).
Proof.
  apply always_for_each; [apply _..|]. intros x. apply always_bind; [apply _|apply apart_kept, with_rates_apart|intros _; apply retire_generation_kept].
Qed.
Lemma submit_prepared_kept l (q : PreparedEncode In) now : always (kept l) (submit_prepared q now).
Proof.
  unfold submit_prepared. apply always_bind; [apply _|apply apart_kept, with_application_apart|intros _].
  apply always_bind; [apply _|intros s; destruct (try_submit _ _); intros H; by apply (same_line l s)|]. intros [e|]; [|by apply always_id; [apply _|]].
  apply always_bind; [apply _|apply apart_kept, with_application_apart|intros _; by apply always_id; [apply _|]].
Qed.
Lemma submit_prepared_same {A} (g : state -> A) (q : PreparedEncode In) now s s' o : (forall x y, apart x y -> g y = g x) ->
  (forall x k c, g (called k c x) = g x) -> submit_prepared q now s = (s', o) -> g s' = g s.
Proof.
  intros Hg Hcall. enough (H : always (same g) (submit_prepared q now)) by exact (run_always _ _ _ _ _ H).
  assert (Ha : forall B (m : M B), always apart m -> always (same g) m) by (intros B m Hm s0; apply Hg, Hm).
  unfold submit_prepared. apply always_bind; [apply _|apply Ha, with_application_apart|intros _].
  apply always_bind; [apply _|intros s0; destruct (try_submit _ _); apply Hcall|]. intros [e|]; [|by apply always_id; [apply _|]].
  apply always_bind; [apply _|apply Ha, with_application_apart|intros _; by apply always_id; [apply _|]].
Qed.
Lemma submit_prepared_streams (q : PreparedEncode In) now s s' o : submit_prepared q now s = (s', o) -> streams s' = streams s.
Proof. by apply (submit_prepared_same streams); [intros x y [[] _]|]. Qed.
Lemma submit_prepared_counter (q : PreparedEncode In) now s s' o : submit_prepared q now s = (s', o) -> next_stream s' = next_stream s.
Proof. by apply (submit_prepared_same next_stream); [intros x y [[] _]|]. Qed.
Definition idle_line l s : Prop := in_flight s = None /\ Line_ok l s.
Lemma idle_kept l {A} (m : M A) : always quiet m -> always (kept l) m -> triple (idle_line l) m (fun _ => idle_line l).
Proof.
  intros Hq Hk s s' a [Hi H] Hs. pose proof (run_always _ _ _ _ _ Hq Hs) as [_ Hf _]. split; [congruence|by apply (run_always _ _ _ _ _ Hk Hs)].
Qed.
Lemma register_line l sf ly m : triple (idle_line l) (register_stream sf ly m) (fun _ => idle_line l).
Proof.
  intros s s' [] [Hi H] Hs. pose proof (run_always _ _ _ _ _ (register_stream_quiet sf ly m) Hs) as [[Hq _ _] Hf _]. split; [congruence|].
  unfold register_stream in Hs. apply run_bind in Hs as (s0 & known & [-> ->]%run_gets & Hs).
  case_bool_decide as Hk; [injection Hs as <-; done|]. apply run_bind in Hs as (s1 & id & Ht & Hs). unfold take_counter in Ht.
  destruct (next_stream s) as [v|] eqn:Hn; [|done]. injection Ht as <- ->.
  apply run_bind in Hs as (s2 & fr & Hr & Hs). pose proof (run_always _ _ _ _ _ (with_rates_apart _) Hr) as [A _].
  apply run_bind in Hs as (s3 & mg & [-> ->]%run_gets & Hs). apply run_bind in Hs as (s4 & _ & [-> _]%run_lift & Hs). injection Hs as <-.
  destruct (counter_next id) as [Hc Ha]; [rewrite <- Hn; apply H|]. destruct A as [A1 A2 A3 A4 A5]. cbn in *.
  pose proof (run_always _ _ _ _ _ (with_rates_apart _) Hr) as [_ [Q _ _]]. cbn in Q.
  eapply put_line; [exact Hi|cbn; congruence|cbn; congruence|cbn; by rewrite A1| | | |exact H]; cbn; rewrite ?A4; [done|rewrite Ha, Hn; unfold above; cbn; lia|].
  rewrite (proj2 (eq_None_not_Some _) Hk). cbn. rewrite A4, Ha, Hn. unfold above. cbn. lia.
Qed.
Lemma reconcile_line l gone : triple (idle_line l) (let! retired := extract_streams gone in retire_streams retired)
  (fun _ s => idle_line l s /\ forall key, gone key = true -> streams s !! key = None).
Proof.
  intros s s' [] [Hi H] Hs. pose proof (run_always _ _ _ _ _ (reconcile_quiet gone) Hs) as [_ Hf _].
  apply run_bind in Hs as (s1 & xs & [= <- _] & Hs). split; [split; [congruence|]|].
  - apply (run_always _ _ _ _ _ (retire_streams_kept l xs) Hs). eapply (drop_line l gone s); [done..| | |done].
    + cbn. intros b Hb. congruence.
    + apply H.
  - intros key Hg. rewrite (retire_streams_keep _ _ _ _ Hs). cbn. apply map_lookup_filter_None. right. intros x _. cbn. congruence.
Qed.
(** Streams of the layers a commit goes on with are all a surface has. *)
Definition tidy (sf : ClientSurfaceId) (c : ClientSurfaceState ClientBufferLease) s : Prop :=
  forall ly, names_layer c ly = false -> streams s !! (sf, ly) = None.
Lemma replaced_named {B} (e : ClientSurfaceEvent B) c x : event_kind e = Commit c -> x ∈ replaced_buffers e -> names_layer c x.1.1 = true.
Proof.
  unfold replaced_buffers. intros ->. intros ([ly ch] & Hu & Hx)%list_elem_of_omap. destruct ch as [|m b|]; try done. injection Hx as <-. cbn.
  unfold names_layer. apply existsb_exists. exists (MkSurfaceBufferUpdate ly (Replaced m b)). split; [by apply list_elem_of_In|].
  cbn. by rewrite bool_decide_eq_true_2.
Qed.
Lemma register_absent sf ly m key s s' : register_stream sf ly m s = (s', Ret tt) -> key <> (sf, ly) -> streams s' !! key = streams s !! key.
Proof.
  intros Hs Hk. unfold register_stream in Hs. apply run_bind in Hs as (s0 & known & [-> ->]%run_gets & Hs).
  case_bool_decide; [injection Hs as <-; done|]. apply run_bind in Hs as (s1 & id & Ht & Hs). unfold take_counter in Ht.
  destruct (next_stream s) as [v|]; [|done]. injection Ht as <- ->. apply run_bind in Hs as (s2 & fr & Hr & Hs).
  pose proof (run_always _ _ _ _ _ (with_rates_apart _) Hr) as [A _]. apply run_bind in Hs as (s3 & mg & [-> ->]%run_gets & Hs).
  apply run_bind in Hs as (s4 & _ & [-> _]%run_lift & Hs). injection Hs as <-. cbn. rewrite lookup_insert_ne by done. by rewrite (aside_streams _ _ A).
Qed.
Lemma prepare_line l e c now : event_kind e = Commit c -> triple (idle_line l) (prepare_streams e now) (fun _ s => idle_line l s /\ tidy (surface e) c s).
Proof.
  intros Hk s s' [] H Hs. unfold prepare_streams, reconcile_streams in Hs. rewrite Hk in Hs.
  apply run_bind in Hs as (s0 & rs & [-> Hrs]%run_lift & Hs). apply run_bind in Hs as (s0 & n & [-> _]%run_gets & Hs).
  apply run_bind in Hs as (s1 & [] & H1 & Hs). apply (idle_kept l _ (apart_quiet _ (with_budget_apart _)) (apart_kept l _ (with_budget_apart _)) _ _ _ H) in H1.
  apply run_bind in Hs as (s2 & [] & H2 & Hs). apply (reconcile_line l _ _ _ _ H1) in H2 as [H2 Hg].
  apply run_bind in Hs as (s3 & [] & H3 & Hs).
  assert (Htidy : tidy (surface e) c s2).
  { intros ly Hl. apply Hg. cbn. rewrite bool_decide_eq_true_2 by done. by rewrite Hl. }
  assert (Hnamed : forall x, x ∈ rs -> names_layer c x.1 = true).
  { intros x Hx. unfold checked_replacements in Hrs. apply traverse_Ret_inv in Hrs. apply list_elem_of_lookup in Hx as [i Hx].
    destruct (Forall2_lookup_r _ _ _ _ _ Hrs Hx) as (y & Hy & Hf). apply bind_Ret_inv in Hf as ([] & _ & [= <-]). cbn.
    by eapply replaced_named, list_elem_of_lookup_2. }
  assert (H3' : idle_line l s3 /\ tidy (surface e) c s3).
  { refine (triple_for_each (fun s => idle_line l s /\ tidy (surface e) c s) _ rs _ _ _ _ (conj H2 Htidy) H3).
    intros x Hx t t' [] [Ht Htt] Hrun. split; [by eapply register_line|]. intros ly Hl. rewrite (register_absent _ _ _ _ _ _ Hrun).
    - by apply Htt.
    - intros [= ->]. rewrite (Hnamed x Hx) in Hl. done. }
  destruct H3' as [H3' Htt]. split; [exact (idle_kept l _ (apart_quiet _ (update_budget_apart _ _)) (apart_kept l _ (update_budget_apart _ _)) _ _ _ H3' Hs)|].
  intros ly Hl. pose proof (run_always _ _ _ _ _ (update_budget_apart _ _) Hs) as [A _]. rewrite (aside_streams _ _ A). by apply Htt.
Qed.

(** ** Batches *)
(** Nothing but the stream at the key changed. *)
Definition only_at (P : ClientSurfaceId * SurfaceLayerId -> Prop) s s' : Prop :=
  (forall key, ~ P key -> streams s' !! key = streams s !! key) /\ forall key, streams s !! key = None -> streams s' !! key = None.
#[local] Instance only_at_po P : PreOrder (only_at P).
Proof.
  split; [by intros s|]. intros a b c [H1 H2] [H3 H4]. split; [|by auto]. intros key Hk. by rewrite H3, H1.
Qed.
Lemma only_at_same P s s' : streams s' = streams s -> only_at P s s'.
Proof. intros E. split; by rewrite E. Qed.
Lemma only_at_weaken (P Q : ClientSurfaceId * SurfaceLayerId -> Prop) s s' : (forall key, P key -> Q key) -> only_at P s s' -> only_at Q s s'.
Proof. intros HPQ [H1 H2]. split; [|done]. intros key Hk. apply H1. auto. Qed.
Definition seat f (key : ClientSurfaceId * SurfaceLayerId) s : Prop := exists x, streams s !! key = Some x /\ key_of x = generation_of f.
Lemma allocate_line l sf ly m cadence now s s' a : idle_line l s -> allocate_frame sf ly m cadence now s = (s', Ret a) ->
  idle_line l s' /\ seat a.1 (sf, ly) s' /\ only_at (fun key => key = (sf, ly)) s s'.
Proof.
  intros H Hs. unfold allocate_frame in Hs.
  apply run_bind in Hs as (s0 & u & [-> _]%run_lift & Hs). apply run_bind in Hs as (s0 & known & [-> ->]%run_gets & Hs).
  apply run_bind in Hs as (s0 & x & [-> Hx%opt_context_Ret_inv]%run_lift & Hs).
  apply run_bind in Hs as (s1 & sel & Hsel & Hs). pose proof (idle_kept l _ (apart_quiet _ (with_rates_apart _)) (apart_kept l _ (with_rates_apart _)) _ _ _ H Hsel) as H1.
  pose proof (run_always _ _ _ _ _ (with_rates_apart _) Hsel) as [A _].
  apply run_bind in Hs as (s2 & mg & [-> ->]%run_gets & Hs). apply run_bind in Hs as (s2 & u2 & [-> _]%run_lift & Hs).
  pose proof (only_at_same (fun key => key = (sf, ly)) _ _ (aside_streams _ _ A)) as E1.
  rewrite <- (aside_streams _ _ A) in Hx. clear H Hsel A.
  set (r := match mjoin sel with Some _ => _ | None => _ end) in Hs. set (rot := rotates _ _ _ _) in Hs.
  apply run_bind in Hs as (s2 & y & [-> Hy]%run_lift & Hs). apply run_bind in Hs as (s2 & n & Hn & Hs).
  assert (Hb : begins x (freeze r cadence y) rot).
  { apply begins_freeze. destruct rot; [by eapply next_generation_begins|]. injection Hy as <-. done. }
  apply run_bind in Hs as (s3 & [] & Hr & Hs). injection Hs as <- <-. unfold take_sequence in Hn.
  destruct (next_sequence (freeze r cadence y)) as [v|]; [|done]. injection Hn as <- <-. destruct H1 as [Hi H1].
  set (y' := advance v (freeze r cadence y)) in *. set (s2 := set_streams _ s1) in *.
  assert (H2 : idle_line l s2).
  { split; [done|]. eapply (put_line l (sf, ly) y' s1); [done..|apply H1|done| |done]. rewrite Hx. cbn. destruct rot; cbn in Hb; destruct Hb as (-> & -> & _); (split; [done|lia]). }
  assert (E2 : only_at (fun key => key = (sf, ly)) s1 s2).
  { split; intros key; cbn; [intros Hk; by rewrite lookup_insert_ne|]. intros Hk. rewrite lookup_insert_ne; [done|]. intros <-. congruence. }
  assert (Hst : seat (MkMediaFrameId (stream y) (generation y) v) (sf, ly) s2) by (exists y'; cbn; by rewrite lookup_insert_eq).
  destruct rot; [|by injection Hr as <-; split_and!; [..|etransitivity]].
  pose proof (idle_kept l _ (retire_generation_quiet _ _) (retire_generation_kept l _ _) _ _ _ H2 Hr) as H3.
  pose proof (retire_generation_keeps (stream x) (generation x) s2) as (K1 & _). rewrite Hr in K1. cbn [fst] in K1.
  split_and!; [done| |].
  - destruct Hst as (z & Hz). exists z. by rewrite K1.
  - etransitivity; [exact E1|]. etransitivity; [exact E2|]. by apply only_at_same.
Qed.
Lemma prepare_encode_line l sf ly lease cadence now s s' a : idle_line l s -> prepare_encode sf ly lease cadence now s = (s', Ret a) ->
  idle_line l s' /\ seat (buffer_frame a.1) (sf, ly) s' /\ only_at (fun key => key = (sf, ly)) s s'.
Proof.
  intros H Hs. unfold prepare_encode in Hs. apply run_bind in Hs as (s1 & [f r] & H1 & Hs). apply (allocate_line _ _ _ _ _ _ _ _ _ H) in H1 as (H1 & S1 & E1).
  apply run_bind in Hs as (s2 & q & [= <- _] & Hs). apply run_bind in Hs as (s3 & tk & H3 & Hs). apply run_bind in Hs as (s4 & ts & H4 & [= <- <-]).
  pose proof (run_always _ _ _ _ _ token_apart H3) as [A3 _]. pose proof (run_always _ _ _ _ _ (timestamp_apart now) H4) as [A4 _].
  assert (E : streams s4 = streams s1) by (rewrite (aside_streams _ _ A4); apply A3).
  split_and!; [|unfold seat; by rewrite E|etransitivity; [exact E1|by apply only_at_same]].
  refine (idle_kept l _ (apart_quiet _ (timestamp_apart now)) (apart_kept l _ (timestamp_apart now)) _ _ _ _ H4).
  exact (idle_kept l _ (apart_quiet _ token_apart) (apart_kept l _ token_apart) _ _ _ H1 H3).
Qed.
(** The updates of a batch, encoded. *)
Definition seated_updates (sf : ClientSurfaceId) (us : list (SurfaceBufferUpdate EncodedBuffer)) s : Prop :=
  forall ly m e, MkSurfaceBufferUpdate ly (Replaced m e) ∈ us -> seat (buffer_frame e) (sf, ly) s.
Definition among (sf : ClientSurfaceId) (lys : list SurfaceLayerId) (key : ClientSurfaceId * SurfaceLayerId) : Prop := key.1 = sf /\ key.2 ∈ lys.
Lemma prepare_updates_line l sf cadence now us s s' a : NoDup (layer <$> us) -> idle_line l s -> prepare_updates sf cadence now us s = (s', Ret a) ->
  idle_line l s' /\ Forall2 encoded_update us a.1 /\ seated_updates sf a.1 s' /\ only_at (among sf (layer <$> us)) s s'.
Proof.
  revert s a. induction us as [|u us IH]; intros s a Hnd H Hs; cbn [prepare_updates] in Hs.
  { injection Hs as <- <-. split_and!; [done|constructor| |done]. by intros ? ? ? ?%not_elem_of_nil. }
  rewrite fmap_cons, list.NoDup_cons in Hnd. destruct Hnd as [Hu Hnd]. apply run_bind in Hs as (s1 & [c q] & H1 & Hs).
  apply run_bind in Hs as (s2 & [cs qs] & H2 & Hs). injection Hs as <- <-. cbn [fst].
  assert (Hone : idle_line l s1 /\ encoded_update u (MkSurfaceBufferUpdate (layer u) c) /\
    seated_updates sf [MkSurfaceBufferUpdate (layer u) c] s1 /\ only_at (among sf [layer u]) s s1).
  { destruct u as [ly ch]. cbn in *. destruct ch as [m|m lease|].
    - injection H1 as <- <- <-. split_and!; [done|constructor| |done]. by intros ? ? ? [= ]%list_elem_of_singleton.
    - apply run_bind in H1 as (s3 & [e q'] & H3 & [= <- <- <-]). apply (prepare_encode_line _ _ _ _ _ _ _ _ _ H) in H3 as (H3 & S3 & E3).
      split_and!; [done|constructor| |].
      + by intros ? ? ? [= -> -> ->]%list_elem_of_singleton.
      + eapply only_at_weaken; [|exact E3]. intros key ->. by split; [|left].
    - injection H1 as <- <- <-. split_and!; [done|constructor| |done]. by intros ? ? ? [= ]%list_elem_of_singleton. }
  destruct Hone as (I1 & U1 & S1 & E1). destruct (IH _ _ Hnd I1 H2) as (I2 & U2 & S2 & E2). split_and!; [done|by constructor| |].
  - intros ly m e [Hin|Hin]%elem_of_cons; [|by eapply S2]. destruct (S1 ly m e) as (x & Hx & Hk); [rewrite Hin; left|]. exists x. split; [|done].
    rewrite (proj1 E2); [done|]. intros [_ Hl]. cbn in Hl. injection Hin as -> _. done.
  - etransitivity; (eapply only_at_weaken; [|done]); intros key [Hk1 Hk2]; (split; [done|]); set_solver.
Qed.
(** A stream that stands in the place of a frame's, with another generation. *)
Lemma replaced_spent l s key f x : Line_ok l s -> (key, f) ∈ named l -> streams s !! key = Some x -> key_of x <> generation_of f -> spent_frame f s.
Proof.
  intros H Hf Hx Hk. destruct (line_owner _ _ H _ _ Hf) as [Hn Ho]. split; [done|]. intros j y Hy Hs. destruct (Ho j y Hy Hs) as [-> Hle].
  assert (y = x) as -> by congruence. destruct (decide (StreamGeneration_raw (generation x) = StreamGeneration_raw (frame_generation f))) as [He|He]; [|lia].
  destruct Hk. unfold key_of, generation_of. rewrite Hs. f_equal. by destruct (generation x), (frame_generation f); cbn in He; subst.
Qed.
Lemma batch_ready l sf c us b s : idle_line l s -> tidy sf c s -> NoDup (layer <$> buffers c) -> Forall2 encoded_update (buffers c) us ->
  seated_updates sf us s -> (length (update_frames us) <= MAX_REPLACEMENTS)%nat -> batch_surface b = sf -> batch_event b = MkClientSurfaceEvent sf (Commit (opaque_state (set_buffers us c))) -> ready l b s.
Proof.
  intros [_ H] Ht Hnd Hu Hse Hlen Hb He. constructor; rewrite ?He; cbn.
  - done.
  - by rewrite (encoded_layers _ _ Hu).
  - intros p f Hf. cbn in Hf. apply update_names_in in Hf as (m & e & Hin & Hs & <-). destruct p as [sf' ly]. cbn in Hs. subst sf'. exact (Hse _ _ _ Hin).
  - intros p f Hf [Hp Hg]. destruct p as [sf' ly]. cbn in Hp, Hg. subst sf'.
    destruct (stops_layer c (opaque_state (set_buffers us c)) ly _ Hu Hg) as [Hl|(m & e & Hin & Hne)].
    + eapply absent_spent; [done..|]. by apply Ht.
    + destruct (Hse _ _ _ Hin) as (x & Hx & Hk). eapply replaced_spent; [done..|]. congruence.
  - split; [done|exact Hlen].
Qed.
Lemma submit_batch_line l session (e : Event) c now s s' : event_kind e = Commit c -> (replaced_buffer_count e <= MAX_REPLACEMENTS)%nat ->
  NoDup (layer <$> buffers c) -> idle_line l s -> tidy (surface e) c s ->
  submit_batch session (surface e) c now s = (s', Ret tt) -> Line_ok l s'.
Proof.
  intros Hk Hmax Hnd H Ht Hs. unfold submit_batch in Hs. apply run_bind in Hs as (s0 & cad & [-> ->]%run_gets & Hs).
  apply run_bind in Hs as (s1 & [us qs] & H1 & Hs). apply (prepare_updates_line _ _ _ _ _ _ _ _ Hnd H) in H1 as (I1 & U1 & S1 & E1). cbn in *.
  destruct qs as [|q qs]; [done|]. apply run_bind in Hs as (s2 & job & H3 & Hs). injection Hs as <-.
  pose proof (idle_kept l _ (submit_prepared_quiet _ _) (submit_prepared_kept l _ _) _ _ _ I1 H3) as I2.
  assert (E2 : streams s2 = streams s1).
  { eapply submit_prepared_streams. exact H3. }
  apply start_line; [|apply I2]. eapply (batch_ready l (surface e) c us); [exact I2| |done|done| |by rewrite (encoded_count e c)|done|done].
  - intros ly Hl. rewrite E2. apply E1, Ht, Hl.
  - intros ly m b Hin. destruct (S1 _ _ _ Hin) as (x & Hx). exists x. by rewrite E2.
Qed.

(** ** Publication *)
(** The invariant, with what was published before and what the source holds ready. *)
Definition line_at l s : Prop := Line_ok (l ++ arrivals (output s)) s.
Lemma line_at_same l s s' : streams s' = streams s -> next_stream s' = next_stream s -> in_flight s' = in_flight s -> pending s' = pending s ->
  output s' = output s -> line_at l s -> line_at l s'.
Proof. intros E1 E2 E3 E4 E5. unfold line_at. rewrite E5. by apply same_line. Qed.
Lemma apart_at l s s' : apart s s' -> line_at l s -> line_at l s'.
Proof. intros [[] []]. by apply line_at_same. Qed.
(** What the event ends is gone. *)
Definition closed (e : Event) s : Prop :=
  match event_kind e with
  | Commit c => tidy (surface e) c s
  | Destroyed => forall ly, streams s !! (surface e, ly) = None
  | _ => True
  end.
Lemma structural_opaque (e : Event) e' : structural e = Ret e' -> declares_opaque e' = true.
Proof. unfold structural. intros H. apply bind_Ret_inv in H as (x & _ & [= <-]). unfold declares_opaque. cbn. by destruct (event_kind x). Qed.
Lemma structural_stops l session (e : Event) e' s : structural e = Ret e' -> event_distinct e -> closed e s -> Line_ok l s ->
  names (Arrived session e') = [] /\ NoDup (commit_layers (Arrived session e')) /\ stops l (Arrived session e') s /\
  acceptable (Arrived session e').
Proof.
  intros He Hd Hc H. pose proof (structural_frames _ _ He) as [Hf Hs]. assert (Hn : names (Arrived session e') = []).
  { apply (fmap_nil_inv snd). by rewrite names_frames. }
  assert (Hacc : acceptable (Arrived session e')) by (split; [by eapply structural_opaque|rewrite Hf; cbn; lia]).
  cut (NoDup (commit_layers (Arrived session e')) /\ stops l (Arrived session e') s); [by intros []|].
  unfold closed, event_distinct in *. destruct (event_kind e) as [r|c|k|k| |m] eqn:Hk.
  2: { destruct (structural_updates _ _ _ He Hk) as (c' & Hk' & Hu). cbn. rewrite Hk'. split; [by rewrite (encoded_layers _ _ Hu)|].
    intros p f Hin [Hsf Hg]. rewrite Hk' in Hg. destruct (stops_layer _ _ _ _ Hu Hg) as [Hl|(m & b & Hb & _)].
    - eapply absent_spent; [done..|]. destruct p as [sf ly]. cbn in Hsf, Hl. rewrite <- Hsf, Hs. by apply Hc.
    - assert (Hx : ((surface e', p.2), buffer_frame b) ∈ names (Arrived session e')) by (cbn; rewrite Hk'; apply update_names_in; by exists m, b).
      rewrite Hn in Hx. by apply not_elem_of_nil in Hx. }
  all: unfold structural, try_from_client, convert_event in He; rewrite Hk in He; cbn in He; injection He as <-; cbn; (split; [by apply list.NoDup_nil|]).
  all: intros p f Hin [Hsf Hg]; cbn in Hsf, Hg; try done.
  eapply absent_spent; [done..|]. destruct p as [sf ly]. cbn in Hsf. subst sf. apply Hc.
Qed.
Lemma publish_at l session e s : line_at l s -> names (Arrived session e) = [] -> NoDup (commit_layers (Arrived session e)) ->
  stops (l ++ arrivals (output s)) (Arrived session e) s -> acceptable (Arrived session e) -> line_at l (publish session e s).1.
Proof.
  intros H Hn Hd Hs Hacc. unfold line_at. cbn. rewrite arrivals_app, app_assoc. cbn.
  assert (Hl : Line_ok ((l ++ arrivals (output s)) ++ [Arrived session e]) s); [|by revert Hl; apply same_line].
  apply publish_line; [done..| |done|done|by left]. intros p f. rewrite Hn. by intros ?%not_elem_of_nil.
Qed.
(** Everything but the output and what the events are read from. *)
Lemma send_at l session (e : Event) s s' : event_distinct e -> closed e s -> line_at l s -> send_without_buffer session e s = (s', Ret tt) ->
  line_at l s' /\ streams s' = streams s /\ pending s' = pending s /\ in_flight s' = in_flight s.
Proof.
  intros Hd Hc H Hs. unfold send_without_buffer in Hs. apply run_bind in Hs as (s0 & e' & [-> He]%run_lift & Hs).
  destruct (structural_stops _ session _ _ _ He Hd Hc H) as (H1 & H2 & H3 & H4). pose proof (publish_at l session e' s H H1 H2 H3 H4) as Hp.
  rewrite Hs in Hp. split; [done|]. by injection Hs as <-.
Qed.
(** ** Arrivals at the source *)
Lemma idle_at l s : line_at l s -> in_flight s = None -> idle_line (l ++ arrivals (output s)) s.
Proof. by split. Qed.
Lemma submit_or_send_at_line l session (e : Event) now s s' : event_distinct e -> event_kind e <> Destroyed -> line_at l s -> in_flight s = None ->
  submit_or_send_at session e now s = (s', Ret tt) -> line_at l s'.
Proof.
  intros Hd Hk H Hi Hs. unfold submit_or_send_at in Hs. apply run_bind in Hs as (s0 & u & [-> Hmax]%run_lift & Hs).
  apply ensure_Ret_inv, bool_decide_eq_true in Hmax. apply run_bind in Hs as (s1 & [] & H1 & Hs). pose proof (run_always _ _ _ _ _ (prepare_streams_quiet _ _) H1) as [_ _ Ho].
  assert (H1' : idle_line (l ++ arrivals (output s1)) s1 /\ closed e s1).
  { rewrite Ho. unfold closed. destruct (event_kind e) as [r|c|k|k| |m] eqn:He; [|by eapply prepare_line|..|done|];
      (split; [|done]; unfold prepare_streams in H1; rewrite He in H1;
       exact (idle_kept _ _ (apart_quiet _ (update_budget_apart _ _)) (apart_kept _ _ (update_budget_apart _ _)) _ _ _ (idle_at _ _ H Hi) H1)). }
  destruct H1' as [H1' Hc]. destruct (event_kind e) as [r|c|k|k| |m] eqn:He; try (by eapply send_at; [..|exact Hs]; [| |apply H1']).
  case_bool_decide; [by eapply send_at; [..|exact Hs]; [| |apply H1']|]. apply run_bind in Hs as (s2 & [] & H2 & [= <-]).
  unfold closed, event_distinct in Hc, Hd. rewrite He in Hc, Hd. pose proof (submit_batch_line _ _ _ _ _ _ _ He Hmax Hd H1' Hc H2) as H2'.
  assert (Ho2 : output s2 = output s1).
  { unfold submit_batch in H2. apply run_bind in H2 as (s3 & cad & [-> ->]%run_gets & H2). apply run_bind in H2 as (s3 & [us qs] & H3 & H2).
    apply (run_always _ _ _ _ _ (prepare_updates_quiet _ _ _ _)) in H3 as [_ _ H3]. destruct qs; [done|]. apply run_bind in H2 as (s4 & job & H4 & [= <-]).
    apply (run_always _ _ _ _ _ (submit_prepared_quiet _ _)) in H4 as [_ _ H4]. cbn. congruence. }
  unfold line_at. cbn. rewrite Ho2. by revert H2'; apply same_line.
Qed.
Lemma cancel_encode_line l sf now s s' : line_at l s -> cancel_encode sf now s = (s', Ret tt) ->
  line_at l s' /\ cleared sf s' /\ output s' = output s.
Proof.
  intros H Hs. pose proof (cancel_encode_clears _ _ _ _ Hs) as [Hcl Ho]. split; [|done]. unfold line_at. rewrite Ho.
  unfold cancel_encode in Hs. apply run_bind in Hs as (s0 & u & [= <- _] & Hs). pose proof (mark_flight sf (unqueue sf s)) as Hf.
  destruct (mark_keeps sf (unqueue sf s)) as (M1 & M2 & _ & _ & [M5 _ _]). set (s0 := mark_cancelled sf _) in *. cbn in Hf, M1, M2, M5.
  unfold retire_surface_streams in Hs. apply run_bind in Hs as (s1 & xs & H1 & Hs). apply run_bind in Hs as (s2 & [] & H2 & Hs).
  refine (run_always _ _ _ _ _ (apart_kept _ _ (update_budget_apart _ _)) Hs _). refine (run_always _ _ _ _ _ (retire_streams_kept _ xs) H2 _).
  injection H1 as <- _. eapply (drop_line _ (fun key => bool_decide (key.1 = sf)) s); cbn; [by rewrite M1|done| | |done].
  - intros b Hb Hc. destruct (in_flight s) as [b0|]; cbn in Hf; [|congruence]. destruct Hf as [[-> Hg]|[-> _]] in Hb; injection Hb as <-; [|done]. done.
  - rewrite M5. intros i q [_ Hi]%lookup_delete_Some. by eapply line_pending.
Qed.
Lemma cancel_surface_line l sf now s s' : line_at l s -> cancel_surface sf now s = (s', Ret tt) ->
  line_at l s' /\ cleared sf s' /\ output s' = output s.
Proof.
  intros H Hs. unfold cancel_surface in Hs. apply run_bind in Hs as (s0 & u & [= <- _] & Hs).
  eapply cancel_encode_line in Hs; [exact Hs|]. by revert H; apply line_at_same.
Qed.
(** Waiting events come and go. *)
Lemma pending_at l s s' : streams s' = streams s -> next_stream s' = next_stream s -> in_flight s' = in_flight s -> output s' = output s ->
  (forall sf q, pending s' !! sf = Some q -> Forall (waiting_ok sf) q) -> line_at l s -> line_at l s'.
Proof. intros E1 E2 E3 E4 E5. unfold line_at. rewrite E4. by apply pending_line. Qed.
Lemma queue_waiting l sf s : Line_ok l s -> Forall (waiting_ok sf) (queue_of s sf).
Proof. intros H. unfold queue_of. destruct (pending s !! sf) eqn:Hq; [by eapply line_pending|constructor]. Qed.
Lemma insert_waiting sf session (e : Event) i q : event_distinct e -> event_kind e <> Destroyed -> surface e = sf -> Forall (waiting_ok sf) q ->
  Forall (waiting_ok sf) (insert_event session e i q).1.
Proof.
  intros Hd Hk Hs [Hq1 Hq2]%list.Forall_and. apply list.Forall_and. split; [by apply insert_event_ok|]. apply insert_event_keeps; [done| |done].
  intros m b _ Hc Hm. cbn in Hm. unfold is_commit in Hc. by rewrite Hm in Hc.
Qed.
Lemma queue_event_line l session (e : Event) s s' : event_distinct e -> event_kind e <> Destroyed -> line_at l s ->
  queue_event session e s = (s', Ret tt) -> line_at l s'.
Proof.
  intros Hd Hk H Hs. unfold queue_event in Hs. destruct (try_push _ _ _ _) as [[q u]|] eqn:Hp; [|done]. injection Hs as <-.
  assert (Hq : Forall (waiting_ok (surface e)) q).
  { unfold try_push in Hp. destruct (_ && _); [done|]. injection Hp as Hp. apply (f_equal fst) in Hp. cbn in Hp. subst q.
    apply insert_waiting; [done..|]. by eapply queue_waiting. }
  case_bool_decide; (eapply (pending_at l s); [done..| |done]); cbn;
    intros i q' [[<- <-]|[_ Hi]]%lookup_insert_Some; (done || by eapply line_pending).
Qed.
Lemma drop_pending_line l sf s : line_at l s -> line_at l (set_pending (delete sf (pending s)) s).
Proof. intros H. apply (pending_at l s); [done..| |done]. cbn. intros i q [_ Hi]%lookup_delete_Some. by eapply line_pending. Qed.
Lemma send_control_line l r s s' : event_distinct r.2 -> event_kind r.2 <> Destroyed -> line_at l s -> send_control r s = (s', Ret tt) ->
  line_at l s' /\ streams s' = streams s.
Proof.
  unfold send_control. intros Hd Hk H Hs. destruct (is_commit r.2) eqn:Hc; [by injection Hs as <-|].
  destruct (send_at l r.1 r.2 s s' Hd) as (H1 & H2 & _); [|done..]. unfold closed, is_commit in *. by destruct (event_kind r.2).
Qed.
Lemma send_controls_line l sf q s s' : Forall (waiting_ok sf) q -> line_at l s -> for_each send_control (records q) s = (s', Ret tt) ->
  line_at l s' /\ streams s' = streams s.
Proof.
  intros Hq. revert s. induction Hq as [|r q [[Hd _] Hk] _ IH]; intros s H Hs; [by injection Hs as <-|]. cbn in Hs.
  apply run_bind in Hs as (s1 & [] & H1 & Hs). destruct (send_control_line _ _ _ _ Hd Hk H H1) as [H2 E]. rewrite <- E. by apply IH.
Qed.
Lemma full_unmap_closed (e : Event) s : is_full_unmap e = true -> (forall ly, streams s !! (surface e, ly) = None) -> closed e s.
Proof. unfold is_full_unmap, closed. destruct (event_kind e); try done. intros _ H ly _. apply H. Qed.
Lemma enqueue_line l session (e : Event) now s s' : event_distinct e -> line_at l s -> enqueue session e now s = (s', Ret tt) -> line_at l s'.
Proof.
  intros Hd H Hs. unfold enqueue in Hs. apply run_bind in Hs as (s1 & [] & H1 & Hs).
  apply (run_always _ _ _ _ _ (note_event_apart _ _ _)) in H1. apply (apart_at l) in H1; [|done]. clear H. destruct (is_full_unmap e) eqn:Hu.
  - apply run_bind in Hs as (s2 & waiting & [-> ->]%run_gets & Hs). apply run_bind in Hs as (s2 & u & [= <- _] & Hs).
    apply run_bind in Hs as (s3 & [] & H3 & Hs). pose proof (queue_waiting _ (surface e) _ H1) as Hq.
    apply (cancel_encode_line l) in H3 as (H3 & [_ Hcl] & _); [|by apply drop_pending_line].
    apply run_bind in Hs as (s4 & u4 & [= <- _] & Hs). apply run_bind in Hs as (s5 & [] & H5 & Hs).
    apply (send_controls_line l _ _ _ _ Hq) in H5 as [H5 E5]; [|by revert H3; apply line_at_same].
    eapply send_at; [exact Hd| |exact H5|exact Hs]. apply full_unmap_closed; [done|]. by rewrite E5.
  - apply run_bind in Hs as (s2 & busy & [-> ->]%run_gets & Hs).
    assert (Hother : event_kind e <> Destroyed -> is_commit e = false -> (if surface_busy (surface e) s1 then queue_event session e else send_without_buffer session e) s1 = (s', Ret tt) ->
      line_at l s').
    { intros Hk Hc. destruct (surface_busy _ _); intros Hrun; [by eapply queue_event_line|]. eapply send_at; [exact Hd| |exact H1|exact Hrun].
      unfold closed, is_commit in *. by destruct (event_kind e). }
    unfold is_commit in Hother. destruct (event_kind e) eqn:Hk; try (by apply Hother).
    + apply run_bind in Hs as (s2 & wait & [-> Hw]%run_gets & Hs). destruct wait; [eapply queue_event_line; [exact Hd|congruence|exact H1|exact Hs]|].
      eapply submit_or_send_at_line; [exact Hd|congruence|exact H1| |exact Hs]. apply admission_idle. symmetry in Hw. by repeat (apply orb_false_iff in Hw as [Hw ?]).
    + apply run_bind in Hs as (s2 & [] & H2 & Hs). apply (cancel_surface_line l) in H2 as (H2 & [_ Hcl] & _); [|done].
      eapply send_at; [exact Hd| |exact H2|exact Hs]. unfold closed. by rewrite Hk.
Qed.

(** ** Completions and scheduling *)
Lemma ready_same l b s s' : streams s' = streams s -> next_stream s' = next_stream s -> ready l b s -> ready l b s'.
Proof.
  intros E1 E2 [R1 R2 R3 R4 R5]. constructor; [done..| | |done].
  - intros p f. rewrite E1. apply R3.
  - eapply stops_mono; [|exact R4]. intros f. unfold spent_frame, spent. by rewrite E1, E2.
Qed.
Lemma arrivals_media session us : arrivals (Media ∘ MkMediaEnvelope session <$> us : list packet) = [].
Proof. induction us as [|u us IH]; [done|exact IH]. Qed.
Lemma complete_one_line l now c s s' : line_at l s -> complete_one now c s = (s', Ret tt) -> line_at l s'.
Proof.
  intros H Hs. unfold complete_one in Hs. apply run_bind in Hs as (s1 & b & H1 & Hs). unfold take_in_flight in H1.
  destruct (in_flight s) as [b'|] eqn:Hb; [|done]. injection H1 as <- ->. pose proof (line_flight _ _ H b Hb) as Hr.
  pose proof (stop_line _ _ H) as H1. change (line_at l (set_in_flight None s)) in H1.
  assert (Hr1 : cancelled b = false -> ready (l ++ arrivals (output s)) b (set_in_flight None s)) by (intros Hc; by apply (ready_same _ b s), Hr).
  change (output s) with (output (set_in_flight None s)) in Hr1. assert (Hi : in_flight (set_in_flight None s) = None) by done.
  clear H Hr Hb. revert H1 Hr1 Hi Hs. generalize (set_in_flight None s). clear s. intros s H Hr Hi Hs.
  apply run_bind in Hs as (s1 & u0 & [-> _]%run_lift & Hs). apply run_bind in Hs as (s2 & [] & H2 & Hs).
  pose proof (run_always _ _ _ _ _ (with_application_apart _ _ _) H2) as Ha. pose proof (apart_at l _ _ Ha H) as H2'.
  destruct Ha as [[A1 A2 A3 A4 _] _]. destruct (cancelled b) eqn:Hc.
  { pose proof (run_always _ _ _ _ _ (retire_generation_quiet _ _) Hs) as [_ _ Ho]. unfold line_at. rewrite Ho.
    exact (run_always _ _ _ _ _ (retire_generation_kept _ _ _) Hs H2'). }
  apply (ready_same _ _ _ s2) in Hr; [|done..|done]. rewrite <- A3 in Hr. rewrite <- A2 in Hi. clear H A1 A2 A3 A4 H2.
  apply run_bind in Hs as (s3 & u & [-> _]%run_lift & Hs). do 2 (apply run_bind in Hs as (s3 & ? & [-> _]%run_lift & Hs)).
  destruct (batch_pending b) as [|next rest].
  - apply run_bind in Hs as (s3 & ? & [-> _]%run_lift & Hs). apply run_bind in Hs as (s3 & ? & [= <- _] & [= <-]).
    unfold line_at. cbn. rewrite !arrivals_app, arrivals_media, app_nil_r, app_assoc. cbn.
    destruct Hr as [_ R2 R3 R4 R5]. assert (Hl : Line_ok ((l ++ arrivals (output s2)) ++ [Arrived (batch_session b) (batch_event b)]) s2); [|by revert Hl; apply same_line].
    apply publish_line; [done..|]. right. congruence.
  - apply run_bind in Hs as (s3 & job & H3 & [= <-]). pose proof (run_always _ _ _ _ _ (submit_prepared_quiet _ _) H3) as [_ _ Ho].
    unfold line_at. cbn. rewrite Ho. apply start_line; [|exact (run_always _ _ _ _ _ (submit_prepared_kept _ _ _) H3 H2')].
    pose proof (submit_prepared_streams _ _ _ _ _ H3) as E. destruct Hr as [R1 R2 R3 R4 R5]. constructor; [done..| | |done].
    + intros p f. rewrite E. apply R3.
    + eapply stops_mono; [|exact R4]. intros f [S1 S2]. split; [by rewrite (submit_prepared_counter _ _ _ _ _ H3)|by rewrite E].
Qed.
Lemma drain_line l now s s' : line_at l s -> drain now s = (s', Ret tt) -> line_at l s'.
Proof.
  intros H Hs. unfold drain in Hs. apply run_bind in Hs as (s1 & cs & H1 & Hs). destruct (drain_completions (backend s)) as [k xs]. injection H1 as <- <-.
  refine (triple_for_each (line_at l) _ xs _ _ _ tt _ Hs); [|by revert H; apply line_at_same]. intros c _ x y [] Hx. by apply complete_one_line.
Qed.
Lemma pop_line l sf r rest s : pending s !! sf = Some (r :: rest) -> line_at l s -> line_at l (pop_surface sf rest s) /\ waiting_ok sf r.
Proof.
  intros Hp H. pose proof (line_pending _ _ H _ _ Hp) as Hq. apply Forall_cons_1 in Hq as [Hr Hq]. split; [|done]. unfold pop_surface.
  destruct rest as [|r' rest]; (eapply (pending_at l s); [done..| |done]); cbn.
  - intros i q [_ Hi]%lookup_delete_Some. by eapply line_pending.
  - intros i q [[<- <-]|[_ Hi]]%lookup_insert_Some; [done|by eapply line_pending].
Qed.
Lemma schedule_loop_line l now fuel s s' : schedule_loop fuel now s = Some (s', Ret tt) -> line_at l s -> in_flight s = None -> line_at l s'.
Proof.
  revert s. induction fuel as [|fuel IH]; intros s Hl H Hi; [done|]. cbn [schedule_loop] in Hl.
  destruct (Scheduling.select _ _ _ _ _ _) as [sched chosen]. set (s1 := set_scheduler sched s) in Hl.
  assert (H1 : line_at l s1) by (by revert H; apply line_at_same). destruct chosen as [sel|]; [|by injection Hl as <-].
  destruct (pending s1 !! sel_surface sel) as [[|r rest]|] eqn:Hp.
  - eapply IH; [exact Hl|by apply drop_pending_line|done].
  - destruct (pop_line _ _ _ _ _ Hp H1) as [H2 [[Hd _] Hk]]. destruct (submit_or_send_at _ _ _ _) as [s2 [[]| |]] eqn:Hrun; [|done..].
    apply (submit_or_send_at_line l) in Hrun; [|done..|by rewrite pop_flight].
    case_bool_decide as Hf; [injection Hl as <-; by revert Hrun; apply line_at_same|]. eapply IH; [done..|]. by apply eq_None_not_Some.
  - by injection Hl as <-.
Qed.
Lemma schedule_line l now s s' : schedule_at now s = Some (s', Ret tt) -> line_at l s -> line_at l s'.
Proof.
  unfold schedule_at. destruct (admission_closed s) eqn:Ha; [by intros [= <-]|]. intros Hl H. eapply schedule_loop_line; [done..|]. by apply admission_idle.
Qed.
Lemma new_line rates c limit fallback k now : Line_ok [] (EncodedSourceState_new rates c limit fallback k now : state).
Proof.
  constructor; cbn; try done.
  - intros n [= <-]. pose proof u64_max_val. lia.
  - by intros p f ?%not_elem_of_nil.
  - by intros p f ?%not_elem_of_nil.
  - by intros [|??].
Qed.
(** A withdrawal of a surface that was cancelled. *)
Lemma withdraw_line l sf s : cleared sf s -> Line_ok l s -> Line_ok (l ++ [Withdrawn sf]) s.
Proof.
  intros [_ Hcl] H. apply publish_line; [done|by apply list.NoDup_nil| | |done|by left].
  - by intros p f ?%not_elem_of_nil.
  - intros [sf' ly] f Hf Hp. cbn in Hp. subst sf'. by eapply absent_spent.
Qed.
End SourceAdmissible.
