(* ===== verification/PortLine.v ===== *)
(** * What a port sends, a destination can take

    The control records of a source's port, in the order its transport took them, are events
    and withdrawals that keep the rules of an encoded destination ([admissible]) and pass the
    checks it makes of them ([acceptable]), whatever the relay submitted and the transport had
    room for. *)

From S2P Require Import Prelude.
From S2P Require Import Effects.
From S2P Require Import OrdMap.
From S2P Require Import Ids.
From S2P Require Import Surface.
From S2P Require Import Input.
From S2P Require Import Commit.
From S2P Require Import Destination.
From S2P Require Import DestinationFrames.
From S2P Require Import SourceRelay.
From S2P Require Import DestinationRelay.
From S2P Require Import Bitrate.
From S2P Require Import Activity.
From S2P Require Import Allocation.
From S2P Require Import Budget.
From S2P Require Import Scheduling.
From S2P Require Import Pacing.
From S2P Require Import Framing.
From S2P Require Import PendingEvents.
From S2P Require Import Output.
From S2P Require Import Packets.
From S2P Require Import Audio.
From S2P Require Import SourceState.
From S2P Require Import SourceFrames.
From S2P Require Import SourceQueues.
From S2P Require Import SourcePort.
From S2P Require Import SourceWire.
From S2P Require Import SourceKeeps.
From S2P Require Import SourceAdmissible.

Section PortLine.
Context {K In C T Sys Cap Tg : Type}.
Abbreviation control := (HoistSessionId * SourceMessage (ClientCursorUpdate C) AudioPacket)%type.
Abbreviation packet := (SourceTransportPacket control (MediaEnvelope EncodedAccessUnit)).
Context {codec : EncodeBackend K In} {wire : EncodedSourceLink T packet}.
Context {pending_visit : HashOrder ClientSurfaceId (PendingClientEvents HoistSessionId ClientBufferLease)}.
Context {stream_visit : HashOrder (ClientSurfaceId * SurfaceLayerId) SourceStream}.
Context {capture_system : CaptureSystem Sys Cap Tg} {capture_visit : HashOrder Source.Key Cap}.
Abbreviation source := (EncodedSourceState K In (ClientCursorUpdate C) AudioPacket).
Abbreviation command := (SourcePortCommand C).
Abbreviation port := (EncodedSourcePort (K := K) (In := In) (C := C) (T := T) (Sys := Sys) (Cap := Cap)).
Implicit Types (p : port) (s : source) (l : list command) (xs : list packet).

(** ** The frames of the records are new *)
Lemma seqs_distinct (fs : list MediaFrameId) : (forall k, NoDup (seqs k fs)) -> NoDup fs.
Proof.
  induction fs as [|f fs IH]; intros H; [by apply list.NoDup_nil|]. apply list.NoDup_cons. split.
  - intros Hf. specialize (H (generation_of f)). unfold seqs in H. rewrite list.filter_cons_True, fmap_cons, list.NoDup_cons in H by done.
    destruct H as [H _]. apply H, list_elem_of_fmap. exists f. split; [done|]. by apply list_elem_of_filter.
  - apply IH. intros k. specialize (H k). unfold seqs in *. rewrite filter_cons in H. case_decide; [|done].
    rewrite fmap_cons, list.NoDup_cons in H. apply H.
Qed.
Lemma named_arrivals (xs : list packet) : snd <$> named (arrivals xs) = frames_named xs.
Proof.
  induction xs as [|x xs IH]; [done|]. assert (Hc : forall a r, named (a :: r) = names a ++ named r) by done.
  destruct x as [[x []]|]; try exact IH. unfold arrivals, frames_named, events in *. cbn -[named]. rewrite Hc, fmap_app, IH, names_frames. done.
Qed.
Lemma published_distinct xs s : port_history xs s -> NoDup (snd <$> named (arrivals (xs ++ output s))).
Proof.
  intros H. apply history_published in H as [Hp Hs]. rewrite named_arrivals, (proj1 (published_named _ Hp)). apply seqs_distinct. intros k.
  destruct (Hs k) as [n ->]. apply NoDup_seqZ.
Qed.
Lemma arrivals_only (xs : list packet) : named (arrivals (only is_published xs)) = named (arrivals xs).
Proof.
  unfold only. induction xs as [|x xs IH]; [done|]. rewrite filter_cons. assert (Hc : forall a r, named (a :: r) = names a ++ named r) by done.
  case_decide as Hx; destruct x as [[x []]|]; try done; unfold arrivals in *; cbn -[named]; rewrite ?Hc; cbn; by rewrite IH.
Qed.

(** ** The port's records *)
Definition in_line (xs : list packet) s : Prop := line_at (arrivals xs) s.
Lemma in_line_keeps : source_keeps in_line.
Proof.
  constructor; unfold in_line.
  - intros xs s s'. apply apart_at.
  - intros xs s r. by apply line_at_same.
  - intros xs s H. unfold line_at in *. rewrite arrivals_app. cbn. rewrite app_nil_r. by revert H; apply same_line.
  - intros xs s s' time Hs H. by eapply drain_line.
  - intros xs s s' time Hs H. unfold schedule in Hs. destruct (schedule_at time s) as [r|] eqn:Hr; [|done]. cbn in Hs. subst r.
    by eapply schedule_line.
Qed.
Definition lined p : Prop := holds in_line p.
Lemma say_lined x p p' : arrivals [x] = [] -> push x p = (p', Ret tt) -> lined p -> lined p'.
Proof.
  intros Hx Hp H. eapply push_holds; [exact Hp|exact H|]. intros s _ Hs. unfold in_line. by rewrite arrivals_app, Hx, app_nil_r.
Qed.
Lemma withdraw_lined x sf time p p1 p2 p' : calm p -> push (Control (x, Withdraw sf)) p = (p1, Ret tt) -> inner apart p1 p2 ->
  on_state (cancel_surface sf time) p2 = (p', Ret tt) -> lined p -> lined p'.
Proof.
  intros (s & Hs & Ho) (q & _ & ->)%push_run [_ _ Hi1 Hi2] (s2 & s' & Hs2 & Hrun & ->)%on_state_run (s0 & Hs0 & H).
  rewrite Hs in Hs0. injection Hs0 as <-. cbn in Hi1, Hi2. rewrite Hs, Hs2 in Hi2. inversion Hi2 as [? ? Ha|]; subst.
  pose proof (apart_at _ _ _ Ha H) as H2. assert (Ho2 : output s2 = []) by (destruct Ha as [[] _]; congruence).
  apply (cancel_surface_line _ _ _ _ _ H2) in Hrun as (H3 & Hcl & Ho3). exists s'. split; [done|]. unfold in_line, line_at in H3 |- *.
  cbn [SourcePort.published SourcePort.set_state]. rewrite Hi1, arrivals_app, Ho3, Ho2. rewrite Ho3, Ho2 in H3. cbn in H3 |- *. rewrite app_nil_r in H3 |- *. by apply withdraw_line.
Qed.
Lemma submit_lined c p p' : well_formed (Submitting c) -> submit c p = (p', Ret tt) -> calm p -> lined p -> lined p'.
Proof.
  intros Hwf Hp Hcalm H. unfold submit in Hp. apply run_bind in Hp as (p0 & [] & H0 & Hp). pose proof (within_refresh _ _ _ H0) as Hi.
  pose proof (inner_apart_holds _ in_line_keeps _ _ Hi H) as Hs0. pose proof (inner_calm _ _ Hi Hcalm) as Hcalm0. clear H0 Hi Hcalm H.
  destruct c as [status| |x sf|x e|x sf cu n|x sf|b].
  - apply run_bind in Hp as (p1 & [] & H1 & Hp). eapply progress_holds; [apply in_line_keeps|exact Hp|]. by eapply say_lined; [|exact H1|exact Hs0].
  - eapply inner_apart_holds; [apply in_line_keeps| |exact Hs0]. by eapply clear_focus_within.
  - apply run_bind in Hp as (p1 & [] & H1 & Hp). apply run_bind in Hp as (p2 & [] & H2 & Hp).
    eapply progress_holds; [apply in_line_keeps|exact Hp|]. eapply say_lined; [|exact H2|]; [done|]. eapply inner_apart_holds; [apply in_line_keeps| |exact Hs0].
    eapply (within_if_state apart); [|exact H1]. apply apart_run. intros s. by repeat split.
  - apply run_bind in Hp as (p1 & [] & H1 & Hp). apply run_bind in Hp as (p2 & time & H2 & Hp). apply run_bind in Hp as (p3 & [] & H3 & Hp).
    eapply progress_holds; [apply in_line_keeps|exact Hp|]. assert (Hs2 : lined p2).
    { eapply inner_apart_holds; [apply in_line_keeps| |exact Hs0]. etrans; [by eapply (within_audio_follows apart)|by eapply (within_now apart)]. }
    eapply inner_holds; [|exact Hs2]. eapply within_state; [|exact H3]. intros s s' [] Hrun xs Hxs. by eapply enqueue_line.
  - apply run_bind in Hp as (p1 & [] & H1 & Hp). eapply progress_holds; [apply in_line_keeps|exact Hp|]. by eapply say_lined; [|exact H1|exact Hs0].
  - apply run_bind in Hp as (p1 & [] & H1 & Hp). apply run_bind in Hp as (p2 & [] & H2 & Hp). apply run_bind in Hp as (p3 & time & H3 & Hp).
    apply run_bind in Hp as (p4 & [] & H4 & Hp). eapply progress_holds; [apply in_line_keeps|exact Hp|].
    pose proof (within_remove_audio apart _ _ _ _ H1) as Hi1. pose proof (inner_calm _ _ Hi1 Hcalm0) as Hcalm1.
    eapply withdraw_lined; [exact Hcalm1|exact H2| |exact H4|by eapply inner_apart_holds; [apply in_line_keeps|..]]. by eapply (within_now apart).
  - by injection Hp as <-.
Qed.
Lemma life_lined l p : port_life l p -> live l p /\ lined p.
Proof.
  intros (r & b & li & f & c & h & t & k & Ht & H). refine (rtc_ind_r (fun y => live y.1 y.2 /\ lined y.2) _ _ _ _ H).
  - split; [by apply start_live|]. eexists. split; [done|]. apply new_line.
  - intros y z _ Hyz [Hl Hy]. destruct Hyz as [l' p1 p2 a Ha Hp|l' p1 p2 Ho]; (split; [by eapply act_keeps || by eapply outside_live|]).
    + assert (Hq : submitted_by a = [] -> lined p2) by (intros Hs; by eapply act_holds; [apply in_line_keeps|..]).
      destruct a; try by apply Hq. eapply submit_lined; [done|exact Hp|apply Hl|exact Hy].
    + by eapply outside_holds; [apply in_line_keeps|..].
Qed.
(** ** What the transport took *)
Lemma arrivals_controls (xs : list packet) : arrivals (channel false xs) = arrivals xs.
Proof. unfold channel. apply omap_filter. by intros [[? []]|]. Qed.
Lemma arrivals_told (xs : list packet) : arrivals (told xs) = arrivals xs.
Proof. unfold told. apply omap_filter. by intros [[? []]|]. Qed.
Lemma allowed_admissible before a after : allowed_all (before ++ a :: after) -> NoDup (snd <$> named (before ++ a :: after)) -> admissible before a /\ acceptable a.
Proof.
  intros H Hn. destruct (H before a after eq_refl) as [H1 H2 H3 H4]. split; [|done]. constructor; [done| |done|done].
  unfold named in Hn. rewrite list.bind_app in Hn. cbn in Hn. rewrite !fmap_app, !list.NoDup_app in Hn.
  destruct Hn as (_ & Hd & Hn & _). split; [done|]. intros f Hf Hf'. apply (Hd f Hf'). apply elem_of_app. by left.
Qed.
(** A control channel that a port fed. *)
Definition fed xs p : Prop := channel false (told xs) `prefix_of` channel false (told (taken (transport p))).
Lemma fed_prefix l p xs : Port_ok l p -> fed xs p -> arrivals xs `prefix_of` arrivals (SourcePort.published p).
Proof.
  intros [[_ Hw _] _ _ _] Hxs. rewrite <- (arrivals_controls (SourcePort.published p)), (Hw false), arrivals_app.
  etrans; [|by apply prefix_app_r]. rewrite <- (arrivals_told xs), <- (arrivals_controls (told xs)). by apply omap_prefix.
Qed.
Lemma fed_admissible l p xs before a after : port_life l p -> fed xs p -> arrivals xs = before ++ a :: after -> admissible before a /\ acceptable a.
Proof.
  intros H Hxs Ha. apply life_lined in H as [[Hp (s1 & Hs1 & Ho)] (s2 & Hs2 & Hl)]. destruct (fed_prefix _ _ _ Hp Hxs) as [k Hk].
  destruct Hp as [_ (s & Hs & Hh) _ _]. rewrite Hs in Hs1, Hs2. injection Hs1 as <-. injection Hs2 as <-.
  rewrite Ha in Hk. unfold in_line, line_at in Hl. rewrite Ho in Hl. cbn in Hl. rewrite app_nil_r in Hl.
  apply (allowed_admissible before a (after ++ k)).
  - pose proof (line_allowed _ _ Hl) as Hall. rewrite Hk, <- app_assoc in Hall. exact Hall.
  - apply published_distinct in Hh. rewrite Ho, app_nil_r in Hh. rewrite arrivals_only, Hk, <- app_assoc in Hh. exact Hh.
Qed.
Lemma fed_in_order l p xs g : Port_ok l p -> calm p -> fed xs p -> exists n, seqs g (snd <$> named (arrivals xs)) = seqZ 0 n.
Proof.
  intros Hp (s1 & Hs1 & Ho) Hxs. destruct (fed_prefix _ _ _ Hp Hxs) as [k Hk]. destruct Hp as [_ (s & Hs & Hh) _ _]. rewrite Hs in Hs1. injection Hs1 as <-.
  apply history_published in Hh as [Hpub Hseq]. destruct (Hseq g) as [n Hn]. rewrite Ho, app_nil_r in Hpub, Hn.
  rewrite <- (proj1 (published_named _ Hpub)), <- named_arrivals, arrivals_only, Hk in Hn. unfold named in *. rewrite list.bind_app, fmap_app, seqs_app in Hn.
  by eapply SourceFrames.seqZ_prefix.
Qed.
Lemma taken_sound l p : Port_ok l p -> Forall SourceFrames.sound (units (taken (transport p))).
Proof.
  intros [[_ Hw _] (s & Hs & Hh) _ _]. apply history_published in Hh as [Hpub _]. apply published_named in Hpub as [_ Hu].
  unfold units in *. rewrite omap_app in Hu. apply list.Forall_app in Hu as [Hu _]. unfold only in Hu. rewrite omap_filter in Hu by (by intros [[? []]|]).
  specialize (Hw true). apply (f_equal (omap (fun x => match x with Media m => Some (access_unit m) | _ => None end))) in Hw.
  unfold channel in Hw. rewrite omap_app, !omap_filter in Hw by (by intros [[? []]|]). rewrite Hw in Hu. apply list.Forall_app in Hu as [Hu _].
  unfold told in Hu. by rewrite omap_filter in Hu by (by intros [[? []]|]).
Qed.
End PortLine.
