(* ===== verification/Hoist.v ===== *)
(** * A source and a destination

    A source's port and a destination's port, and a network between them: it hands the control
    records on in their order and without a gap, and of the media no unit that was not sent.
    Sound goes where it will. What the destination then decodes and shows is what the source
    encoded and said. *)

From S2P Require Import Prelude.
From S2P Require Import Effects.
From S2P Require Import OrdMap.
From S2P Require Import Ids.
From S2P Require Import Surface.
From S2P Require Import Input.
From S2P Require Import Activity.
From S2P Require Import Scheduling.
From S2P Require Import Commit.
From S2P Require Import DestinationFrames.
From S2P Require Import DestinationEvents.
From S2P Require Import DestinationUnits.
From S2P Require Import DestinationPort.
From S2P Require Import SourceRelay.
From S2P Require Import DestinationRelay.
From S2P Require Import Bitrate.
From S2P Require Import Allocation.
From S2P Require Import Budget.
From S2P Require Import Pacing.
From S2P Require Import Framing.
From S2P Require Import PendingEvents.
From S2P Require Import Output.
From S2P Require Import Packets.
From S2P Require Import Audio.
From S2P Require Import SourceState.
From S2P Require Import SourceFrames.
From S2P Require Import SourcePort.
From S2P Require Import SourceWire.
From S2P Require Import SourceAdmissible.
From S2P Require Import PortLine.
From S2P Require Import Destination.

Section Hoist.
Context {K In C T Sys Cap Tg : Type}.
Abbreviation control := (HoistSessionId * SourceMessage (ClientCursorUpdate C) AudioPacket)%type.
Abbreviation packet := (SourceTransportPacket control (MediaEnvelope EncodedAccessUnit)).
Context {codec : EncodeBackend K In} {wire : EncodedSourceLink T packet}.
Context {pending_visit : HashOrder ClientSurfaceId (PendingClientEvents HoistSessionId ClientBufferLease)}.
Context {stream_visit : HashOrder (ClientSurfaceId * SurfaceLayerId) SourceStream}.
Context {capture_system : CaptureSystem Sys Cap Tg} {capture_visit : HashOrder Source.Key Cap}.
Abbreviation port := (EncodedSourcePort (K := K) (In := In) (C := C) (T := T) (Sys := Sys) (Cap := Cap)).
Context {D P Buf L Host Sink : Type}.
Context {decoder : DecodeBackend D Buf} {frames : DecodedFramePublisher P Buf} {link : EncodedDestinationTransport L control}.
Context {playback : PlaybackSystem Host Sink}.
Context {job_visit : HashOrder Z InFlightDecode} {queue_visit : HashOrder ClientSurfaceId (list QueuedDestinationEvent)}.
Context {retirement_visit : HashOrder EncodedGeneration unit}.
Context {honest : ReturnsBusy (K := D) (Buf := Buf)}.
Abbreviation sink := (EncodedDestinationPort L D P Buf Host Sink).
Abbreviation destination := (EncodedDestinationState D P Buf).
Abbreviation record := (DestinationPortRecord (ClientCursorUpdate C)).
Abbreviation command := (SourcePortCommand C).
Abbreviation DM := (Effects.M (EncodedDestinationPort L D P Buf Host Sink)).
Implicit Types (new : list record) (p : port) (q : sink) (d : destination) (l : list command) (got : list packet) (rs : list record).

(** ** The two ends *)
(** The network's part: [got] came of what the source's transport took. *)
Record carries p got : Prop := {
  carries_controls : fed got p;
  carries_media : forall u, u ∈ units got -> u ∈ units (taken (transport p));
}.
Inductive hoist_step : list command * port * list packet * list record * sink -> list command * port * list packet * list record * sink -> Prop :=
  | hoist_source l l' p p' got rs q : port_moves (l, p) (l', p') -> hoist_step (l, p, got, rs, q) (l', p', got, rs, q)
  | hoist_poll l p got rs q q' d t xs clock new : DestinationPort.state q = Some d ->
      drain_packets (receive_budget d) (DestinationPort.transport q) = (t, Ret xs) -> carries p (got ++ xs) ->
      DestinationPort.poll clock q = (q', Ret new) -> hoist_step (l, p, got, rs, q) (l, p, got ++ xs, rs ++ new, q')
  | hoist_submit l p got rs q q' time c : DestinationPort.submit time c q = (q', Ret tt) -> hoist_step (l, p, got, rs, q) (l, p, got, rs, q')
  | hoist_outside l p got rs q q' : option_Forall2 DestinationFrames.elsewhere (DestinationPort.state q) (DestinationPort.state q') ->
      hoist_step (l, p, got, rs, q) (l, p, got, rs, q').
(** Both ports lived since they were new, and no call of theirs failed. *)
Definition hoist l p got rs q : Prop := exists rates pool limit fallback clock h t k id link' host' dec pub, taken t = [] /\
  rtc hoist_step ([], EncodedSourcePort_new rates pool limit fallback clock h t k, [], [], EncodedDestinationPort_new id link' host' dec pub) (l, p, got, rs, q).
Lemma hoist_sources x y got rs q : rtc port_moves x y -> rtc hoist_step (x.1, x.2, got, rs, q) (y.1, y.2, got, rs, q).
Proof. apply (rtc_congruence (fun x => (x.1, x.2, got, rs, q))). intros [] []. by constructor. Qed.
(** The events among a port's records. *)
Definition shown rs : list (HoistSessionId * Event) :=
  omap (fun r => match record_event r with SurfaceRecord e => Some (record_session r, e) | _ => None end) rs.
Lemma shown_app rs rs' : shown (rs ++ rs') = shown rs ++ shown rs'.
Proof. apply omap_app. Qed.
Lemma shown_events (events : list (HoistSessionId * Event)) : shown ((fun x => MkPortRecord x.1 (SurfaceRecord x.2)) <$> events) = events.
Proof. induction events as [|[x e] events IH]; [done|]. unfold shown in *. cbn. by rewrite IH. Qed.

(** ** The destination's side *)
Record received got rs d : Prop := {
  received_history : destination_history (arrivals got) (shown rs) d;
  received_units : units_from (units got) d;
  received_silent : output d = [];
}.
Definition receives got rs q : Prop := exists d, DestinationPort.state q = Some d /\ received got rs d.
Lemma history_snoc al al' out out' d d' : destination_step (al, out, d) (al', out', d') -> destination_history al out d -> destination_history al' out' d'.
Proof. intros Hs (id & k & pub & H). exists id, k, pub. by eapply rtc_r. Qed.
Lemma units_app got got' : units (got ++ got') = units got ++ units got'.
Proof. apply omap_app. Qed.
Lemma units_later got x d : units_from (units got) d -> units_from (units (got ++ [x])) d.
Proof. apply units_mono. intros u Hu. rewrite units_app. apply elem_of_app. by left. Qed.
(** Nothing of the destination changes, and nothing arrives. *)
Lemma received_same got rs x d : arrivals [x] = [] -> received got rs d -> received (got ++ [x]) rs d.
Proof. intros Hx [H1 H2 H3]. constructor; [by rewrite arrivals_app, Hx, app_nil_r|by apply units_later|done]. Qed.
(** What a method hands on, from an empty output vector. *)
Lemma collecting_run (m : Effects.M destination unit) q q' new : DestinationPort.collecting m q = (q', Ret new) -> exists d d1,
  DestinationPort.state q = Some d /\ m (set_output [] d) = (d1, Ret tt) /\ new = (fun x => MkPortRecord x.1 (SurfaceRecord x.2)) <$> output d1 /\
  DestinationPort.state q' = Some (set_output [] d1).
Proof.
  unfold DestinationPort.collecting, DestinationPort.on_state. intros (q1 & events & H & [= <- <-])%run_bind. destruct (DestinationPort.state q) as [d|]; [|done].
  destruct (bind _ _ d) as [d2 o] eqn:Hb. injection H as <- ->. apply run_bind in Hb as (d0 & u & [= <- _] & Hb).
  apply run_bind in Hb as (d1 & [] & Hm & [= <- <-]). by exists d, d1.
Qed.
Lemma set_output_idle d : output d = [] -> set_output [] d = d.
Proof. intros H. destruct d. cbn in H. by subst. Qed.
Lemma received_collect got rs al d d1 (m : Effects.M destination unit) : received got rs d -> m (set_output [] d) = (d1, Ret tt) ->
  destination_step (arrivals got, shown rs, d) (al, shown rs, d1) -> destination_history al (shown rs ++ output d1) (set_output [] d1).
Proof.
  intros [H1 _ _] Hm Hs. eapply history_snoc; [|by eapply history_snoc]. by constructor.
Qed.
Lemma on_state_dest {A} (m : Effects.M destination A) q q' a : DestinationPort.on_state m q = (q', Ret a) -> exists d d1,
  DestinationPort.state q = Some d /\ m d = (d1, Ret a) /\ DestinationPort.state q' = Some d1.
Proof.
  unfold DestinationPort.on_state. destruct (DestinationPort.state q) as [d|]; [|done]. destruct (m d) as [d1 o] eqn:Hm. intros [= <- ->]. by exists d, d1.
Qed.
(** Sound changes nothing of the destination. *)
Definition deaf {A} (m : DM A) : Prop := forall q q' a, m q = (q', Ret a) -> DestinationPort.state q' = DestinationPort.state q.
Lemma on_audio_deaf f : deaf (on_audio f).
Proof. by intros q q' a [= <- _]. Qed.
Lemma deaf_receives {A} (m : DM A) got rs q q' a : deaf m -> m q = (q', Ret a) -> receives got rs q -> receives got rs q'.
Proof. intros Hm Hq (d & Hd & H). exists d. split; [|done]. by rewrite (Hm _ _ _ Hq). Qed.
Lemma receives_same got rs x new q : arrivals [x] = [] -> shown new = [] -> receives got rs q -> receives (got ++ [x]) (rs ++ new) q.
Proof.
  intros Hx Hn (d & Hd & H). exists d. split; [done|]. destruct (received_same _ _ x _ Hx H). constructor; [|done..]. by rewrite shown_app, Hn, app_nil_r.
Qed.
Lemma enqueue_received session e got rs q q' new : admissible (arrivals got) (Arrived session e) -> DestinationPort.collecting (Destination.enqueue session e) q = (q', Ret new) ->
  receives got rs q -> receives (got ++ [Control (session, SurfaceMessage e)]) (rs ++ new) q'.
Proof.
  intros Ha (d & d1 & Hd & Hm & -> & Hd')%collecting_run (d0 & Hd0 & H). rewrite Hd in Hd0. injection Hd0 as <-. eexists. split; [exact Hd'|].
  constructor; [| |done].
  - rewrite shown_app, shown_events, arrivals_app. cbn. eapply received_collect; [exact H|exact Hm|]. constructor; [done|].
    by rewrite <- (set_output_idle d (received_silent _ _ _ H)).
  - apply units_later. apply (comes_same d1); [done..|]. refine (run_always _ _ _ _ _ (enqueue_comes session e) Hm _ _).
    apply (comes_same d); [done..|apply H].
Qed.
Lemma withdrawn_received x sf got rs q q' : DestinationPort.on_state (Destination.cancel_surface sf) q = (q', Ret tt) -> receives got rs q ->
  receives (got ++ [Control (x, Withdraw sf)]) (rs ++ [MkPortRecord x (WithdrawSurface sf)]) q'.
Proof.
  intros (d & d1 & Hd & Hm & Hd')%on_state_dest (d0 & Hd0 & [H1 H2 H3]). rewrite Hd in Hd0. injection Hd0 as <-. exists d1. split; [done|].
  constructor.
  - rewrite shown_app, arrivals_app, app_nil_r. eapply history_snoc; [by apply DestinationFrames.step_withdraw|done].
  - apply units_later. exact (run_always _ _ _ _ _ (cancel_surface_comes sf) Hm _ H2).
  - apply cancel_surface_run in Hm as [_ Ho _ _]. by rewrite Ho.
Qed.
Lemma media_received m got rs q q' : DestinationPort.on_state (enqueue_media m) q = (q', Ret tt) -> receives got rs q ->
  receives (got ++ [Media m]) rs q'.
Proof.
  intros (d & d1 & Hd & Hm & Hd')%on_state_dest (d0 & Hd0 & [H1 H2 H3]). rewrite Hd in Hd0. injection Hd0 as <-. exists d1. split; [done|].
  constructor.
  - rewrite arrivals_app, app_nil_r. eapply history_snoc; [by eapply step_media|done].
  - rewrite units_app. pose proof (enqueue_media_from _ m _ H2) as Hu. by rewrite Hm in Hu.
  - unfold enqueue_media in Hm. destruct (cancelled_frames d !! _).
    + case_bool_decide; [|done]. by injection Hm as <-.
    + destruct (negb _); [done|]. destruct (negb _); [done|]. by injection Hm as <- _.
Qed.
Lemma apply_received x got rs q q' new : (forall a, arrivals [x] = [a] -> admissible (arrivals got) a) -> apply_source_packet x q = (q', Ret new) ->
  receives got rs q -> receives (got ++ [x]) (rs ++ new) q'.
Proof.
  intros Ha Hx H. destruct x as [[session m]|m]; cbn [apply_source_packet fst snd] in Hx.
  2: { apply run_bind in Hx as (q1 & [] & H1 & [= <- <-]). rewrite app_nil_r. by eapply media_received. }
  destruct m as [e|b|sf| |sf|u n|status|sf a]; cbn [apply_control] in Hx.
  - apply run_bind in Hx as (q1 & [] & H1 & Hx). eapply enqueue_received; [by apply Ha|exact Hx|].
    destruct (is_destroyed e); [by eapply deaf_receives; [apply on_audio_deaf|..]|by injection H1 as <-].
  - done.
  - apply run_bind in Hx as (q1 & [] & H1 & Hx). apply run_bind in Hx as (q2 & [] & H2 & [= <- <-]). eapply withdrawn_received; [exact H2|].
    by eapply deaf_receives; [apply on_audio_deaf|..].
  - apply run_bind in Hx as (q1 & [] & H1 & [= <- <-]). apply receives_same; [done..|]. by eapply deaf_receives; [apply on_audio_deaf|..].
  - apply run_bind in Hx as (q1 & [] & H1 & [= <- <-]). apply receives_same; [done..|]. by eapply deaf_receives; [apply on_audio_deaf|..].
  - injection Hx as <- <-. by apply receives_same.
  - injection Hx as <- <-. by apply receives_same.
  - apply run_bind in Hx as (q1 & u & [-> _]%run_lift & Hx). apply run_bind in Hx as (q2 & [] & H2 & [= <- <-]). apply receives_same; [done..|].
    eapply deaf_receives; [|exact H2|done]. intros z z' w. unfold receive_audio. destruct (Audio.Destination.receive _ _ _ _ _) as [[? ?] ?]. by intros [= <- _].
Qed.
Lemma applies_received xs got rs q q' new : (forall before a after, arrivals (got ++ xs) = before ++ a :: after -> admissible before a) ->
  apply_packets xs q = (q', Ret new) -> receives got rs q -> receives (got ++ xs) (rs ++ new) q'.
Proof.
  revert got rs q new. induction xs as [|x xs IH]; intros got rs q new Ha Hx H; cbn in Hx; [injection Hx as <- <-; by rewrite !app_nil_r|].
  apply run_bind in Hx as (q1 & these & H1 & Hx). apply run_bind in Hx as (q2 & others & H2 & [= <- <-]).
  rewrite app_assoc. replace (got ++ x :: xs) with ((got ++ [x]) ++ xs) in * by by rewrite <- app_assoc. eapply IH; [exact Ha|exact H2|].
  eapply apply_received; [|exact H1|exact H]. intros a Hxa. eapply (Ha _ _ (arrivals xs)). by rewrite !arrivals_app, Hxa, <- app_assoc.
Qed.
Lemma on_transport_deaf {A} (f : L -> L * outcome A) : deaf (DestinationPort.on_transport f).
Proof. intros q q' a. unfold DestinationPort.on_transport. destruct (f _). by intros [= <- _]. Qed.
Lemma drain_received clock got rs q q' new : DestinationPort.collecting (drain clock) q = (q', Ret new) -> receives got rs q -> receives got (rs ++ new) q'.
Proof.
  intros (d & d1 & Hd & Hm & -> & Hd')%collecting_run (d0 & Hd0 & H). rewrite Hd in Hd0. injection Hd0 as <-. eexists. split; [exact Hd'|].
  constructor; [| |done].
  - rewrite shown_app, shown_events. eapply received_collect; [exact H|exact Hm|]. eapply DestinationFrames.step_drain.
    by rewrite <- (set_output_idle d (received_silent _ _ _ H)).
  - apply (comes_same d1); [done..|]. refine (run_always _ _ _ _ _ (drain_comes clock) Hm _ _). apply (comes_same d); [done..|apply H].
Qed.
Lemma poll_received clock got rs q q' d t xs new : DestinationPort.state q = Some d ->
  drain_packets (receive_budget d) (DestinationPort.transport q) = (t, Ret xs) ->
  (forall before a after, arrivals (got ++ xs) = before ++ a :: after -> admissible before a) ->
  DestinationPort.poll clock q = (q', Ret new) -> receives got rs q -> receives (got ++ xs) (rs ++ new) q'.
Proof.
  intros Hd Ht Ha Hp H. unfold DestinationPort.poll in Hp. apply run_bind in Hp as (q1 & budget & H1 & Hp).
  apply on_state_dest in H1 as H1'. destruct H1' as (d1 & d2 & Hd1 & [= <- <-] & Hd2). rewrite Hd in Hd1. injection Hd1 as <-.
  assert (Hq1 : q1 = q). { unfold DestinationPort.on_state in H1. rewrite Hd in H1. cbn in H1. injection H1 as <-. destruct q. cbn in Hd. by subst. }
  subst q1. clear H1 Hd2. apply run_bind in Hp as (q2 & ys & H2 & Hp). pose proof (deaf_receives _ _ _ _ _ _ (on_transport_deaf _) H2 H) as Hr.
  unfold DestinationPort.on_transport in H2. rewrite Ht in H2. injection H2 as <- <-.
  apply run_bind in Hp as (q3 & these & H3 & Hp). apply (applies_received _ _ _ _ _ _ Ha H3) in Hr.
  apply run_bind in Hp as (q4 & others & H4 & Hp). apply (drain_received _ _ _ _ _ _ H4) in Hr.
  apply run_bind in Hp as (q5 & room & H5 & Hp). apply on_state_dest in H5 as (d3 & d4 & Hd3 & [= <- _] & Hd4).
  apply run_bind in Hp as (q6 & [] & H6 & [= <- <-]). eapply deaf_receives; [apply on_transport_deaf|exact H6|].
  rewrite app_assoc. destruct Hr as (d5 & Hd5 & Hr). rewrite Hd3 in Hd5. injection Hd5 as <-. by exists d3.
Qed.
Lemma elsewhere_received got rs d d' : DestinationFrames.elsewhere d d' -> received got rs d -> received got rs d'.
Proof.
  intros He [H1 H2 H3]. pose proof He as []. constructor; [|by apply (comes_same d)|congruence]. eapply history_snoc; [by apply DestinationFrames.step_elsewhere|done].
Qed.
Lemma outside_receives got rs q q' : option_Forall2 DestinationFrames.elsewhere (DestinationPort.state q) (DestinationPort.state q') ->
  receives got rs q -> receives got rs q'.
Proof.
  intros He (d & Hd & H). rewrite Hd in He. inversion He as [d1 d' Hdd|]; subst. exists d'. split; [done|]. by eapply elsewhere_received.
Qed.
Lemma submit_outside time c q q' d : DestinationPort.submit time c q = (q', Ret tt) -> DestinationPort.state q = Some d ->
  option_Forall2 DestinationFrames.elsewhere (DestinationPort.state q) (DestinationPort.state q').
Proof.
  intros Hs Hd. assert (Hact : forall a, DestinationFrames.elsewhere d (set_activity a d)) by by constructor.
  assert (Hrefl : DestinationFrames.elsewhere d d) by by constructor.
  unfold DestinationPort.submit in Hs. destruct c as [|e|a b|a].
  - injection Hs as <-. cbn. rewrite Hd. constructor. apply Hact.
  - apply run_bind in Hs as (q1 & [] & [= <-] & Hs). apply (on_transport_deaf (send e)) in Hs. rewrite Hs. cbn. rewrite Hd. constructor. apply Hact.
  - injection Hs as <-. rewrite Hd. by constructor.
  - injection Hs as <-. rewrite Hd. by constructor.
Qed.

(** ** The whole *)
Lemma seqs_generation g fs : seqs g fs = frame_sequence <$> of_generation g fs.
Proof. done. Qed.
Record Hoist_ok (x : list command * port * list packet * list record * sink) : Prop := {
  hoist_life : port_life x.1.1.1.1 x.1.1.1.2;
  hoist_receives : receives x.1.1.2 x.1.2 x.2;
  hoist_admissible : forall before a after, arrivals x.1.1.2 = before ++ a :: after -> admissible before a /\ acceptable a;
  hoist_in_order : forall g, exists n, seqs g (snd <$> named (arrivals x.1.1.2)) = seqZ 0 n;
  hoist_sound : Forall SourceFrames.sound (units x.1.1.2);
}.
Lemma hoist_step_ok x y : hoist_step x y -> Hoist_ok x -> Hoist_ok y.
Proof.
  intros [l l' p p' got rs q Hm|l p got rs q q' d t xs clock new Hd Ht [Hc Hu] Hp|l p got rs q q' time c Hs|l p got rs q q' Ho] [H1 H2 H3 H4 H5]; constructor; cbn in *; try done.
  - destruct H1 as (r & b & li & f & c & h & t & k & Ht & H). exists r, b, li, f, c, h, t, k. split; [done|]. by eapply rtc_r.
  - eapply poll_received; [exact Hd|exact Ht| |exact Hp|exact H2]. intros before a after Ha. by apply (fed_admissible _ _ _ _ _ _ H1 Hc Ha).
  - intros before a after. by apply (fed_admissible _ _ _ _ _ _ H1 Hc).
  - intros g. apply life_live in H1 as [Hok Hcalm]. by eapply fed_in_order.
  - apply life_live in H1 as [Hok _]. apply taken_sound in Hok. rewrite list.Forall_forall in Hok. apply list.Forall_forall. intros u Hin. by apply Hok, Hu.
  - destruct H2 as (d & Hd & H). eapply outside_receives; [by eapply submit_outside|]. by exists d.
  - by eapply outside_receives.
Qed.
Lemma hoist_ok l p got rs q : hoist l p got rs q -> Hoist_ok (l, p, got, rs, q).
Proof.
  intros (r & b & li & f & c & h & t & k & id & lk & host' & dec & pub & Ht & H). refine (rtc_ind_r Hoist_ok _ _ _ _ H).
  - constructor; cbn.
    + exists r, b, li, f, c, h, t, k. split; [done|]. apply rtc_refl.
    + eexists. split; [done|]. constructor; [|apply new_units|done]. exists id, dec, pub. apply rtc_refl.
    + by intros [|??].
    + intros g. by exists 0.
    + constructor.
  - intros x y _ Hxy. by apply hoist_step_ok.
Qed.

(** C1 (hoist-delivers). Of a source and a destination at work, over histories in which the
    source's moves and the destination's polls succeed: every event and withdrawal that arrives
    keeps the rules of a destination (a commit names a layer once, and only new frames, of
    generations that belong to their layer and were not ended) and passes the checks it makes
    on arrival (opaque commits, at most 16 replacements). The decoder is given units the source
    encoded and no others, none empty, those of a generation as 0, 1, 2 and so on, with a
    keyframe first, though media may arrive in any order. What the host is shown of a surface
    are the source's events of that surface in their order, each frame as a lease of what the
    decoder made of it. Since the surface was last cancelled only labels are missing that a
    later label of their session superseded; before that, also what still waited then. *)
Theorem hoist_delivers l p got rs q (H : hoist l p got rs q) : exists d, DestinationPort.state q = Some d /\
  (forall before a after, arrivals got = before ++ a :: after -> admissible before a /\ acceptable a) /\
  (forall g, exists n, seqs g (asked d) = seqZ 0 n) /\
  (forall r, Submitted r ∈ calls d -> decode_unit r ∈ units got /\ SourceFrames.sound (decode_unit r)) /\
  (forall sf, exists old recent xo xr, of_surface sf (shown rs) = old ++ recent /\
    Forall2 (DestinationEvents.delivered (calls d)) xo old /\ Forall2 (DestinationEvents.delivered (calls d)) xr recent /\
    xo `sublist_of` cancelled_before sf (arrivals got) /\ thinned (arrived_since sf (arrivals got)) (xr ++ (DestinationEvents.entry <$> queue_of d sf))).
Proof.
  apply hoist_ok in H as [_ (d & Hd & [Hh Hu Ho]) Ha Hs Hf]. cbn [fst snd] in *. exists d. split_and!; [done|done| | |].
  - intros g. pose proof (asked_in_order _ _ g (history_frames _ _ _ Hh)) as [k Hk]. destruct (Hs g) as [n Hn].
    rewrite seqs_generation, Hk, fmap_app, <- seqs_generation in Hn. by eapply SourceFrames.seqZ_prefix.
  - intros r Hr. pose proof (from_calls _ _ Hu r Hr) as Hin. split; [done|]. rewrite list.Forall_forall in Hf. by apply Hf.
  - intros sf. apply history_order in Hh. destruct (ok_delivered _ _ _ Hh sf) as (old & recent & xo & xr & E & H). rewrite Ho, app_nil_r in E.
    by exists old, recent, xo, xr.
Qed.
End Hoist.

(** ** Two ports at work

    A surface shows a frame; the link has no room for the next one. The destination decodes
    what it got at its first poll and shows it at its second. *)
#[export] Instance requests_kept : ReturnsBusy (K := list DecodeRequest) (Buf := unit).
Proof. done. Qed.
Abbreviation sample_sink := (EncodedDestinationPort (list (SourceTransportPacket sample_control (MediaEnvelope EncodedAccessUnit))) (list DecodeRequest) unit unit unit unit).
Abbreviation sample_record := (DestinationPortRecord (ClientCursorUpdate unit)).
Definition hoist_sent : list (SourceTransportPacket sample_control (MediaEnvelope EncodedAccessUnit)) := taken (transport (port_after sample_acts)).
Definition sink_new : sample_sink := EncodedDestinationPort_new (MkClientSourceId 2) [] tt [] tt.
Definition sink_fed : sample_sink := DestinationPort.set_transport hoist_sent sink_new.
Definition sink_polled (q : sample_sink) : sample_sink := (DestinationPort.poll (Cu := ClientCursorUpdate unit) (fun _ => 0) q).1.
Definition sink_heard (q : sample_sink) : list sample_record :=
  match (DestinationPort.poll (fun _ => 0) q).2 with Ret rs => rs | _ => [] end.
Definition hoist_heard : list sample_record := ([] ++ sink_heard sink_fed) ++ sink_heard (sink_polled sink_fed).
Lemma sample_carries got : got = hoist_sent -> carries (port_after sample_acts) got.
Proof. intros ->. unfold hoist_sent. constructor; [unfold fed; reflexivity|done]. Qed.
Lemma acts_formed : Forall well_formed sample_acts.
Proof. pose proof sample_acts_formed as H. unfold sample_ended in H. by apply list.Forall_app in H as [H _]. Qed.
Definition sink_state (q : sample_sink) : EncodedDestinationState (list DecodeRequest) unit unit :=
  default (EncodedDestinationState_new (MkClientSourceId 2) [] tt) (DestinationPort.state q).
Definition sink_takes (q : sample_sink) : list (SourceTransportPacket sample_control (MediaEnvelope EncodedAccessUnit)) :=
  match (drain_packets (receive_budget (sink_state q)) (DestinationPort.transport q)).2 with Ret xs => xs | _ => [] end.
(** The sink's poll succeeds. *)
Definition sink_polls (q : sample_sink) : bool :=
  match DestinationPort.state q, (DestinationPort.poll (Cu := ClientCursorUpdate unit) (fun _ => 0) q).2,
        (drain_packets (receive_budget (sink_state q)) (DestinationPort.transport q)).2 with
  | Some _, Ret _, Ret _ => true
  | _, _, _ => false
  end.
Lemma sink_step l (p : sample_port_type) got rs q : sink_polls q = true -> carries p (got ++ sink_takes q) ->
  hoist_step (l, p, got, rs, q) (l, p, got ++ sink_takes q, rs ++ sink_heard q, sink_polled q).
Proof.
  unfold sink_polls, sink_takes, sink_state, sink_heard, sink_polled. destruct (DestinationPort.state q) as [d|] eqn:Hd; [|done]. cbn [default from_option id].
  destruct (DestinationPort.poll (fun _ => 0) q) as [q' [new| |]] eqn:Hp; [|done..].
  destruct (drain_packets (receive_budget d) (DestinationPort.transport q)) as [t [xs| |]] eqn:Ht; [|done..]. intros _ Hc. by eapply hoist_poll.
Qed.
Lemma sample_hoist : hoist (sample_acts ≫= submitted_by) (port_after sample_acts) (([] ++ sink_takes sink_fed) ++ sink_takes (sink_polled sink_fed)) hoist_heard (sink_polled (sink_polled sink_fed)).
Proof.
  exists None, sample_pool, None, None, (fun n => Z.of_nat n * 1000), tt, (MkLink 10 1 []), [], (MkClientSourceId 2), [], tt, [], tt. split; [done|].
  etransitivity.
  { apply (hoist_sources ([], sample_new) (sample_acts ≫= submitted_by, port_after sample_acts)).
    apply (run_acts_moves _ sample_new (port_after sample_acts) []); [apply acts_formed|]. vm_compute. reflexivity. }
  eapply rtc_l; [apply (hoist_outside _ _ _ _ _ sink_fed); cbn; constructor; by constructor|].
  eapply rtc_l; [apply sink_step; [vm_compute; reflexivity|apply sample_carries; vm_compute; reflexivity]|].
  apply rtc_once, sink_step; [vm_compute; reflexivity|apply sample_carries; vm_compute; reflexivity].
Qed.
Lemma hoist_delivers_witness : exists d, DestinationPort.state (sink_polled (sink_polled sink_fed)) = Some d /\
  asked d = [MkMediaFrameId (MkMediaStreamId 1) (MkStreamGeneration 1) 0] /\ length (shown hoist_heard) = 1%nat /\
  forall r, Submitted r ∈ calls d -> decode_unit r ∈ units hoist_sent /\ SourceFrames.sound (decode_unit r).
Proof.
  destruct (hoist_delivers _ _ _ _ _ sample_hoist) as (d & Hd & _ & _ & Hr & _). exists d.
  replace (([] ++ sink_takes sink_fed) ++ sink_takes (sink_polled sink_fed)) with hoist_sent in Hr by (vm_compute; reflexivity). split; [exact Hd|]. split; [|split; [vm_compute; reflexivity|exact Hr]].
  assert (E : (asked <$> DestinationPort.state (sink_polled (sink_polled sink_fed))) = Some [MkMediaFrameId (MkMediaStreamId 1) (MkStreamGeneration 1) 0]) by (vm_compute; reflexivity).
  rewrite Hd in E. by injection E.
Defined.
